(* ===== verification/_CoqProject ===== *)
-Q . S2P
Prelude.v
GoText.v
GoOrder.v
GoJson.v
Event.v
EventLog.v
Session.v
Idempotency.v
RunIdentity.v
Tool.v
GoCrypto.v
GoJsonTree.v
GoBase64.v
Message.v
Model.v
Interaction.v
Plan.v
Dispatch.v
AgentPlan.v
Occurrence.v
Execution.v
Snapshot.v
RunLifecycle.v
Engine.v
PendingWatch.v
PendingHub.v
CommonContract.v
EngineWire.v
EngineContract.v
InitializeContract.v
WireFormat.v
LifecycleStatus.v
InteractionStream.v
EventStream.v
SnapshotAuthority.v
RunRecord.v
RunAuthority.v
PluginWire.v
PluginContract.v
PluginBootstrap.v
