(* ===== verification/Prelude.v ===== *)
(** Spice Agent: a verification development of the kernel and daemon core.
    (header to be completed) *)

From stdpp Require Export base numbers list gmap fin_maps strings.
From Stdlib Require Export ZArith Lia.

Declare Scope go_scope.
Delimit Scope go_scope with go.
Global Open Scope Z_scope.

(** ** Machine integers

    Go's [uint64] is a [Z] kept in [0, 2^64); [u64] is the wrap-around of one
    arithmetic result.  Go's [int] (64 bits on every supported platform) is a
    plain [Z]: the bound theorems of the components show the values stay far
    inside its range. *)

Definition two64 : Z := 18446744073709551616.
Definition maxUint64 : Z := 18446744073709551615.
Definition u64 (z : Z) : Z := z mod two64.
Definition uint64_ok (z : Z) : Prop := 0 <= z <= maxUint64.

(** [uint32] likewise. *)
Definition maxUint32 : Z := 4294967295.
Definition u32 (z : Z) : Z := z mod 4294967296.

Notation "a '+32' b" := (u32 (a + b)) (at level 50, left associativity) : go_scope.
Notation "a '-32' b" := (u32 (a - b)) (at level 50, left associativity) : go_scope.
Notation "a '+64' b" := (u64 (a + b)) (at level 50, left associativity) : go_scope.
Notation "a '-64' b" := (u64 (a - b)) (at level 50, left associativity) : go_scope.
Global Open Scope go_scope.

(** ** Errors as values *)

(** The two results of a Go function [(T, error)]. *)
Inductive result (E A : Type) : Type :=
| Ok (a : A)
| Err (e : E).
Arguments Ok {E A} a.
Arguments Err {E A} e.

Lemma Ok_inj {E A} (a b : A) : Ok (E := E) a = Ok b -> a = b.
Proof. by intros [=]. Qed.

Definition is_ok {E A} (r : result E A) : bool :=
  match r with Ok _ => true | Err _ => false end.

Notation "'let?' x := r 'in' k" :=
  (match r with Ok x => k | Err e => Err e end)
  (at level 10, x name, r at level 100, k at level 200) : go_scope.

(** A [context.Context] argument at the moment it is looked at: nil, live, or
    done ([ctx.Err() != nil]). *)
Inductive ctx_arg := CtxNil | CtxLive | CtxDone.

(** ** Sums of a measure over a list *)

Definition sumZ {A} (f : A -> Z) (l : list A) : Z :=
  foldr (fun a acc => f a + acc) 0 l.

Definition lenZ {A} (l : list A) : Z := Z.of_nat (length l).

(** ** Tactics *)

(** Break every boolean test of the hypotheses and the goal into the
    proposition it decides. *)
Ltac bprop1 :=
  match goal with
  | H : (_ && _) = true |- _ => apply andb_true_iff in H; destruct H
  | H : (_ || _) = false |- _ => apply orb_false_iff in H; destruct H
  | H : negb _ = true |- _ => apply negb_true_iff in H
  | H : negb _ = false |- _ => apply negb_false_iff in H
  | H : bool_decide _ = true |- _ => apply bool_decide_eq_true in H
  | H : bool_decide _ = false |- _ => apply bool_decide_eq_false in H
  | H : (_ =? _) = true |- _ => apply Z.eqb_eq in H
  | H : (_ =? _) = false |- _ => apply Z.eqb_neq in H
  | H : (_ <? _) = true |- _ => apply Z.ltb_lt in H
  | H : (_ <? _) = false |- _ => apply Z.ltb_ge in H
  | H : (_ <=? _) = true |- _ => apply Z.leb_le in H
  | H : (_ <=? _) = false |- _ => apply Z.leb_gt in H
  | H : (_ >? _) = _ |- _ => rewrite Z.gtb_ltb in H
  | H : (_ >=? _) = _ |- _ => rewrite Z.geb_leb in H
  end.
Ltac bprop := repeat bprop1.

(** Case analysis on the scrutinee of the first [match]/[if] found, keeping
    its equation, with contradictory branches closed. *)
Ltac split_match :=
  match goal with
  | |- context [match ?x with _ => _ end] =>
      lazymatch x with context [match _ with _ => _ end] => fail | _ => idtac end;
      let E := fresh "E" in destruct x eqn:E
  end.
Ltac split_match_in H :=
  lazymatch type of H with
  | context [match ?x with _ => _ end] =>
      let rec inner y :=
        lazymatch y with
        | context [match ?z with _ => _ end] => inner z
        | _ => let E := fresh "E" in destruct y eqn:E
        end in
      inner x
  end.

(** ** Generic lemmas *)

Lemma u64_id z : uint64_ok z -> u64 z = z.
Proof.
  unfold uint64_ok, u64, maxUint64, two64. intros H. apply Z.mod_small. lia.
Qed.

Lemma u32_id z : 0 <= z <= maxUint32 -> u32 z = z.
Proof. unfold u32, maxUint32. intros H. apply Z.mod_small. lia. Qed.

Lemma u64_add_l a b : u64 (u64 a + b) = u64 (a + b).
Proof. unfold u64. apply Zplus_mod_idemp_l. Qed.

Lemma u64_range z : uint64_ok (u64 z).
Proof.
  unfold uint64_ok, u64, maxUint64, two64.
  pose proof (Z.mod_pos_bound z 18446744073709551616). lia.
Qed.

Section Sums.
Context {A : Type}.
Implicit Types (f : A -> Z) (l : list A).

Lemma sumZ_nil f : sumZ f [] = 0.
Proof. reflexivity. Qed.

Lemma sumZ_cons f a l : sumZ f (a :: l) = f a + sumZ f l.
Proof. reflexivity. Qed.

Lemma sumZ_app f l1 l2 : sumZ f (l1 ++ l2) = sumZ f l1 + sumZ f l2.
Proof. induction l1 as [|a l1 IH]; simpl; [done|]. rewrite IH. lia. Qed.

Lemma sumZ_nonneg f l : Forall (fun a => 0 <= f a) l -> 0 <= sumZ f l.
Proof. induction 1; simpl; lia. Qed.

Lemma sumZ_perm f l1 l2 : l1 ≡ₚ l2 -> sumZ f l1 = sumZ f l2.
Proof. induction 1; simpl in *; lia. Qed.

Lemma lenZ_nil : lenZ ([] : list A) = 0.
Proof. reflexivity. Qed.

Lemma lenZ_cons (a : A) l : lenZ (a :: l) = 1 + lenZ l.
Proof. unfold lenZ. simpl. lia. Qed.

Lemma lenZ_app l1 l2 : lenZ (l1 ++ l2) = lenZ l1 + lenZ l2.
Proof. unfold lenZ. rewrite length_app. lia. Qed.

Lemma lenZ_nonneg l : 0 <= lenZ l.
Proof. unfold lenZ. lia. Qed.

Lemma lenZ_0 l : lenZ l = 0 -> l = [].
Proof. destruct l; [done|]. rewrite lenZ_cons. pose proof (lenZ_nonneg l). lia. Qed.

End Sums.

Create HintDb spice.
Create Rewrite HintDb spice.
#[export] Hint Rewrite @sumZ_nil @sumZ_cons @sumZ_app @lenZ_nil @lenZ_cons @lenZ_app : spice.
#[export] Hint Resolve lenZ_nonneg u64_range sumZ_nonneg : spice.

(** Normalise lengths and sums, then decide. *)
Ltac slia :=
  autorewrite with spice in *;
  repeat match goal with
  | |- context [lenZ ?l] =>
      lazymatch goal with
      | _ : 0 <= lenZ l |- _ => fail
      | _ => pose proof (lenZ_nonneg l)
      end
  | _ : context [lenZ ?l] |- _ =>
      lazymatch goal with
      | _ : 0 <= lenZ l |- _ => fail
      | _ => pose proof (lenZ_nonneg l)
      end
  end; lia.

(** ** Sums over finite maps *)

Definition msum {K A} `{Countable K} (f : A -> Z) (m : gmap K A) : Z :=
  sumZ (fun kv => f (snd kv)) (map_to_list m).

Lemma sumZ_Permutation {A} (f : A -> Z) (l l' : list A) : Permutation l l' -> sumZ f l = sumZ f l'.
Proof. induction 1; autorewrite with spice in *; lia. Qed.

Section msum.
  Context {K A : Type} `{Countable K}.
  Implicit Types (f : A -> Z) (m : gmap K A).

Lemma msum_empty f : msum f (∅ : gmap K A) = 0.
Proof. unfold msum. by rewrite map_to_list_empty. Qed.

Lemma msum_insert_None f m k x : m !! k = None -> msum f (<[k := x]> m) = f x + msum f m.
Proof.
  intros Hk. unfold msum. rewrite (sumZ_Permutation _ _ _ (map_to_list_insert m k x Hk)).
  by rewrite sumZ_cons.
Qed.

Lemma msum_delete f m k x : m !! k = Some x -> msum f (delete k m) = msum f m - f x.
Proof.
  intros Hk. pose proof (msum_insert_None f (delete k m) k x (lookup_delete_eq m k)) as Hm.
  rewrite insert_delete_eq, insert_id in Hm by done. lia.
Qed.

Lemma msum_insert_Some f m k x y :
  m !! k = Some x -> msum f (<[k := y]> m) = msum f m - f x + f y.
Proof.
  intros Hk. rewrite <- insert_delete_eq. rewrite msum_insert_None by apply lookup_delete_eq.
  rewrite (msum_delete f m k x Hk). lia.
Qed.

Lemma msum_nonneg f m : (forall k x, m !! k = Some x -> 0 <= f x) -> 0 <= msum f m.
Proof.
  induction m as [|k x m Hk IH] using map_ind; intros Hf; [by rewrite msum_empty|].
  rewrite msum_insert_None by done.
  assert (0 <= f x) by (apply (Hf k); apply lookup_insert_eq).
  assert (0 <= msum f m); [|lia]. apply IH. intros k' x' Hx. apply (Hf k').
  rewrite lookup_insert_ne by congruence. done.
Qed.

Lemma msum_add f g m : msum (fun x => f x + g x) m = msum f m + msum g m.
Proof.
  induction m as [|k x m Hk IH] using map_ind; [by rewrite !msum_empty|].
  rewrite !msum_insert_None by done. lia.
Qed.

Lemma msum_size m : msum (fun _ => 1) m = Z.of_nat (size m).
Proof.
  induction m as [|k x m Hk IH] using map_ind; [by rewrite msum_empty|].
  rewrite msum_insert_None, map_size_insert_None by done. lia.
Qed.
End msum.
