(* ===== verification/GoText.v ===== *)
(** Go strings as byte strings: UTF-8 decoding, [strings.TrimSpace],
    [unicode.IsControl] over runes.  A Go [string] (and an immutable [[]byte])
    is a [string], whose characters are its bytes. *)

From S2P Require Import Prelude.
From Stdlib Require Import Ascii.

Definition byte_codes (s : string) : list Z :=
  map (fun c => Z.of_N (N_of_ascii c)) (String.list_ascii_of_string s).
Definition of_codes (l : list Z) : string :=
  String.string_of_list_ascii (map (fun z => ascii_of_N (Z.to_N z)) l).

(** [len(s)]. *)
Definition slen (s : string) : Z := Z.of_nat (String.length s).

Definition in_range (lo hi c : Z) : bool := (lo <=? c) && (c <=? hi).
Definition cont (c : Z) : bool := in_range 128 191 c.

(** One step of [utf8.DecodeRune]: the width consumed and the rune, [None]
    for an invalid encoding (width one, U+FFFD). *)
Definition decode_rune (l : list Z) : Z * option Z :=
  match l with
  | [] => (0, None)
  | a :: l1 =>
    if a <? 128 then (1, Some a)
    else match l1 with
    | [] => (1, None)
    | b :: l2 =>
      if in_range 194 223 a && cont b then (2, Some ((a - 192) * 64 + (b - 128)))
      else match l2 with
      | [] => (1, None)
      | c :: l3 =>
        if in_range 224 239 a
           && in_range (if a =? 224 then 160 else 128) (if a =? 237 then 159 else 191) b
           && cont c
        then (3, Some ((a - 224) * 4096 + (b - 128) * 64 + (c - 128)))
        else match l3 with
        | [] => (1, None)
        | d :: _ =>
          if in_range 240 244 a
             && in_range (if a =? 240 then 144 else 128) (if a =? 244 then 143 else 191) b
             && cont c && cont d
          then (4, Some ((a - 240) * 262144 + (b - 128) * 4096 + (c - 128) * 64 + (d - 128)))
          else (1, None)
        end
      end
    end
  end.

(** The runes of [for _, r := range s]; an invalid byte reads as [None]. *)
Fixpoint runes_fuel (fuel : nat) (l : list Z) : list (Z * option Z) :=
  match fuel, l with
  | S n, _ :: _ =>
      let r := decode_rune l in r :: runes_fuel n (drop (Z.to_nat (fst r)) l)
  | _, _ => []
  end.
Definition runes (s : string) : list (Z * option Z) :=
  runes_fuel (String.length s) (byte_codes s).

(** [utf8.ValidString]. *)
Definition utf8_valid (s : string) : bool :=
  forallb (fun r => match snd r with Some _ => true | None => false end) (runes s).

(** [unicode.IsControl]. *)
Definition IsControl (r : Z) : bool := in_range 0 31 r || in_range 127 159 r.
(** [unicode.IsSpace]. *)
Definition IsSpace (r : Z) : bool :=
  in_range 9 13 r || (r =? 32) || (r =? 133) || (r =? 160) || (r =? 5760)
  || in_range 8192 8202 r || (r =? 8232) || (r =? 8233) || (r =? 8239) || (r =? 8287)
  || (r =? 12288).

(** [strings.TrimSpace]: white space runes are cut from the front; at the end
    a suffix that encodes a white space rune is cut. *)
Fixpoint trim_left (fuel : nat) (l : list Z) : list Z :=
  match fuel with
  | O => l
  | S n =>
      match decode_rune l with
      | (w, Some r) => if IsSpace r then trim_left n (drop (Z.to_nat w) l) else l
      | _ => l
      end
  end.

(** [utf8.DecodeLastRune] tries the widths 1 to 4 from the end; [l] is the
    reversed text. *)
Definition last_rune_is_space (l : list Z) : option nat :=
  let test (w : nat) :=
    if (w <=? length l)%nat then
      match decode_rune (rev (take w l)) with
      | (n, Some r) => (n =? Z.of_nat w) && IsSpace r
      | _ => false
      end
    else false in
  if test 1%nat then Some 1%nat
  else if test 2%nat then Some 2%nat
  else if test 3%nat then Some 3%nat
  else None.
Fixpoint trim_right_rev (fuel : nat) (l : list Z) : list Z :=
  match fuel with
  | O => l
  | S n =>
      match last_rune_is_space l with
      | Some w => trim_right_rev n (drop w l)
      | None => l
      end
  end.
Definition TrimSpace (s : string) : string :=
  let l := byte_codes s in
  let left := trim_left (length l) l in
  of_codes (rev (trim_right_rev (length left) (rev left))).

(** The test [value == "" || value != strings.TrimSpace(value)], negated. *)
Definition trimmed_nonempty (s : string) : bool :=
  negb (String.eqb s "") && String.eqb s (TrimSpace s).

Example trim_ascii : TrimSpace " a b
" = "a b"%string.
Proof. vm_compute. reflexivity. Qed.

Example trim_nbsp : trimmed_nonempty (of_codes [97; 194; 160]) = false.
Proof. vm_compute. reflexivity. Qed.

Example trim_plain : trimmed_nonempty "run-1" = true.
Proof. vm_compute. reflexivity. Qed.

(** [strings.ContainsAny(s, chars)] for ASCII [chars]. *)
Definition contains_any (s : string) (chars : list Z) : bool :=
  existsb (fun c => existsb (Z.eqb c) chars) (byte_codes s).

(** The tests shared by the token validators of the packages. *)
Definition has_control (s : string) : bool :=
  existsb (fun r => match snd r with Some c => IsControl c | None => false end) (runes s).
Definition has_control_or_space (s : string) : bool :=
  existsb (fun r => match snd r with Some c => IsControl c || IsSpace c | None => false end)
    (runes s).

Lemma trimmed_nonempty_nonempty s : trimmed_nonempty s = true -> s <> ""%string.
Proof.
  unfold trimmed_nonempty. intros H ->. discriminate.
Qed.

Lemma slen_nonneg s : 0 <= slen s.
Proof. unfold slen. lia. Qed.

#[export] Hint Resolve slen_nonneg : spice.

(** ** Duplicate checks and byte budgets *)

(** Membership in a [map[string]struct{}] used as a set. *)
Definition elem_str (x : string) (l : list string) : bool := existsb (String.eqb x) l.

Lemma elem_str_spec x l : elem_str x l = true <-> x ∈ l.
Proof.
  unfold elem_str. rewrite existsb_exists. split.
  - intros (y & Hy & He). apply String.eqb_eq in He as ->. by apply list_elem_of_In.
  - intros Hx. exists x. split; [by apply list_elem_of_In|apply String.eqb_refl].
Qed.

(** The loop with which the validating constructors admit a list of values:
    each value is checked, a key already seen is refused, the running byte
    total is extended and must stay within [limit].  [check] gets the index
    for its error; [key] is [None] where the loop keeps no set of keys. *)
Section AdmitLoop.
  Context {A E : Type} (check : nat -> A -> option E) (key : A -> option string)
    (duplicate : string -> E) (size : A -> Z) (over : E) (limit : Z).

Fixpoint admit_loop (index : nat) (seen : list string) (total : Z) (l : list A) : result E Z :=
  match l with
  | [] => Ok total
  | x :: l =>
      match check index x with
      | Some e => Err e
      | None =>
          let next seen :=
            let total := total + size x in
            if total >? limit then Err over else admit_loop (S index) seen total l in
          match key x with
          | Some k => if elem_str k seen then Err (duplicate k) else next (k :: seen)
          | None => next seen
          end
      end
  end.

  Context (valid : A -> Prop) (check_valid : forall i x, check i x = None <-> valid x)
    (size_nonneg : forall x, 0 <= size x).

(** The loop accepts exactly the lists of valid values with fresh, pairwise
    distinct keys whose sizes fit: the early exits lose nothing. *)
Lemma admit_loop_Ok l : forall index seen total t,
  admit_loop index seen total l = Ok t <->
  Forall valid l /\ NoDup (omap key l) /\ Forall (fun k => k ∉ seen) (omap key l)
  /\ t = total + sumZ size l /\ (l = [] \/ t <= limit).
Proof using check_valid size_nonneg.
  induction l as [|x l IH]; intros index seen total t; simpl.
  { split; [intros [= ->]|intros (_ & _ & _ & -> & _)]; [|f_equal; unfold sumZ; simpl; lia].
    repeat split; auto using Forall_nil_2, NoDup_nil_2. unfold sumZ; simpl; lia. }
  pose proof (size_nonneg x) as Hx.
  assert (Hl : 0 <= sumZ size l) by (apply sumZ_nonneg, Forall_forall; auto).
  assert (Hstep : forall seen', (if total + size x >? limit then Err over
      else admit_loop (S index) seen' (total + size x) l) = Ok t <->
    Forall valid l /\ NoDup (omap key l) /\ Forall (fun k => k ∉ seen') (omap key l)
    /\ t = total + sumZ size (x :: l) /\ t <= limit).
  { intros seen'. rewrite sumZ_cons. destruct (Z.gtb_spec (total + size x) limit).
    - split; [discriminate|]. intros (_ & _ & _ & -> & ?). lia.
    - rewrite IH. split; intros (? & ? & ? & -> & Ht); repeat split; auto; try lia.
      destruct Ht as [->|Ht]; [unfold sumZ; simpl|]; lia. }
  assert (Hv := check_valid index x). rewrite Forall_cons.
  destruct (check index x) as [e|].
  { split; [discriminate|]. intros [[Hx' _] _]. apply Hv in Hx'. discriminate. }
  assert (valid x) by (by apply Hv). change (omap key (x :: l)) with
    (match key x with Some k => k :: omap key l | None => omap key l end).
  destruct (key x) as [k|]; [|rewrite Hstep; intuition auto; discriminate].
  rewrite NoDup_cons, Forall_cons. destruct (elem_str k seen) eqn:Ek.
  { apply elem_str_spec in Ek. split; [discriminate|tauto]. }
  assert (k ∉ seen) by (rewrite <- elem_str_spec; congruence).
  rewrite Hstep. setoid_rewrite not_elem_of_cons. rewrite Forall_and.
  rewrite (Forall_forall (fun x0 => x0 <> k)). intuition auto; try discriminate; subst; eauto.
Qed.
End AdmitLoop.
