(* ===== verification/GoOrder.v ===== *)
(** The order of Go strings and what the [slices] package does with it: byte-wise
    comparison, [slices.Sort], strictly sorted lists, and [slices.BinarySearchFunc]
    on a string key (with [slices.BinarySearch] for lists of strings).  At the end,
    printable ASCII text, for which the tests of the token validators are simple. *)
From Stdlib Require Import ZArith Lia Ascii Sorting.Permutation.
From stdpp Require Import base list strings sorting pretty.
From S2P Require Import Prelude GoText.

(** ** Sorting *)

(** [slices.Sort] on strings: bytewise order.  Equal strings are
    indistinguishable, so every correct sort agrees with this one. *)
Fixpoint insert_sorted (x : string) (l : list string) : list string :=
  match l with
  | [] => [x]
  | y :: l' => if String.leb x y then x :: l else y :: insert_sorted x l'
  end.
Definition sort_strings (l : list string) : list string := foldr insert_sorted [] l.

Lemma ascii_compare_N a b : Ascii.compare a b = N.compare (N_of_ascii a) (N_of_ascii b).
Proof. done. Qed.

Lemma compare_lt_trans s1 s2 s3 :
  String.compare s1 s2 <> Gt -> String.compare s2 s3 <> Gt -> String.compare s1 s3 <> Gt.
Proof.
  revert s2 s3. induction s1 as [|a s1 IH]; intros [|b s2] [|c s3]; simpl; try done.
  rewrite !ascii_compare_N.
  destruct (N.compare_spec (N_of_ascii a) (N_of_ascii b)) as [E1|E1|E1];
    destruct (N.compare_spec (N_of_ascii b) (N_of_ascii c)) as [E2|E2|E2]; try done; intros H1 H2.
  - rewrite E1, E2, N.compare_refl. eauto.
  - rewrite E1. apply N.compare_lt_iff in E2. by rewrite E2.
  - rewrite <- E2. apply N.compare_lt_iff in E1. by rewrite E1.
  - assert ((N_of_ascii a < N_of_ascii c)%N) as E3 by lia. apply N.compare_lt_iff in E3. by rewrite E3.
Qed.

Definition string_le (a b : string) : Prop := String.leb a b = true.

Lemma string_le_compare a b : string_le a b <-> String.compare a b <> Gt.
Proof. unfold string_le, String.leb. by destruct (String.compare a b). Qed.

#[export] Instance string_le_trans : Transitive string_le.
Proof. intros a b c. rewrite !string_le_compare. apply compare_lt_trans. Qed.
#[export] Instance string_le_antisymm : AntiSymm (=) string_le.
Proof. intros a b. apply String.leb_antisym. Qed.

Lemma insert_sorted_perm x l : insert_sorted x l ≡ₚ x :: l.
Proof.
  induction l as [|y l IH]; simpl; [done|]. destruct (String.leb x y); [done|].
  rewrite IH. apply Permutation_swap.
Qed.

Lemma sort_strings_perm l : sort_strings l ≡ₚ l.
Proof. induction l as [|x l IH]; simpl; [done|]. by rewrite insert_sorted_perm, IH. Qed.

Lemma insert_sorted_sorted x l :
  StronglySorted string_le l -> StronglySorted string_le (insert_sorted x l).
Proof.
  induction 1 as [|y l Hs IH Hy]; simpl; [repeat constructor|].
  destruct (String.leb x y) eqn:E.
  - constructor; [by constructor|]. constructor; [done|].
    eapply Forall_impl; [exact Hy|]. intros z Hz. by transitivity y.
  - constructor; [done|]. rewrite insert_sorted_perm. constructor; [|done].
    destruct (String.leb_total x y); [congruence|done].
Qed.

Lemma sort_strings_sorted l : StronglySorted string_le (sort_strings l).
Proof. induction l as [|x l IH]; simpl; [constructor|]. by apply insert_sorted_sorted. Qed.

Lemma sort_strings_unique l l' : l ≡ₚ l' -> sort_strings l = sort_strings l'.
Proof.
  intros Hp. apply (StronglySorted_unique string_le); try apply sort_strings_sorted.
  by rewrite !sort_strings_perm.
Qed.

Lemma sort_strings_idem l : sort_strings (sort_strings l) = sort_strings l.
Proof. apply sort_strings_unique, sort_strings_perm. Qed.

Lemma str_app_assoc (a b c : string) : ((a +:+ b) +:+ c = a +:+ (b +:+ c))%string.
Proof. induction a as [|x a IH]; [done|]. exact (f_equal (String x) IH). Qed.

Lemma slen_append a b : (slen (a +:+ b) = slen a + slen b)%Z.
Proof.
  unfold slen. induction a as [|x a IH]; [done|].
  change (String.length (String x a +:+ b)) with (S (String.length (a +:+ b))). cbn [String.length]. lia.
Qed.

(** ** Strict order *)

Lemma ltb_spec a b : String.ltb a b = true <-> string_le a b /\ a <> b.
Proof.
  unfold String.ltb, string_le, String.leb.
  pose proof (String.compare_eq_iff a b) as He. pose proof (String.compare_antisym a b) as Ha.
  destruct (String.compare a b) eqn:E; [split; [done|]; intros [_ []]; auto| |by split; [|intros []]].
  split; [|done]. intros _. split; [done|]. intros ->. rewrite E in Ha. done.
Qed.

Lemma ltb_false a b : String.ltb a b = false <-> string_le b a.
Proof.
  pose proof (ltb_spec a b) as H. destruct (String.ltb a b).
  - split; [done|]. intros Hb. destruct (proj1 H eq_refl) as [Ha Hn]. by destruct Hn; apply (anti_symm string_le).
  - split; [|done]. intros _. destruct (String.leb_total a b) as [Ha|Hb]; [|done].
    destruct (decide (a = b)) as [->|Hn]; [done|]. by discriminate (proj2 H (conj Ha Hn)).
Qed.

Lemma ltb_irrefl a : String.ltb a a = false.
Proof. apply ltb_false. by destruct (String.leb_total a a). Qed.

Lemma ltb_trans a b c : String.ltb a b = true -> String.ltb b c = true -> String.ltb a c = true.
Proof.
  rewrite !ltb_spec. intros [H1 H2] [H3 H4]. split; [by etransitivity|].
  intros E. rewrite E in *. apply H4. by apply (anti_symm string_le).
Qed.

(** Order decides at the first byte two strings differ in. *)
Lemma ltb_cons a b s t :
  String.ltb (String a s) (String b t) =
  match Ascii.compare a b with Lt => true | Eq => String.ltb s t | Gt => false end.
Proof. unfold String.ltb. simpl. by destruct (Ascii.compare a b). Qed.

Section KeySearch.
Context {A : Type} (key : A -> string).
Implicit Types (l : list A).

Definition key_lt (a b : A) : Prop := String.ltb (key a) (key b) = true.

#[export] Instance key_lt_trans : Transitive key_lt.
Proof. intros a b c. apply ltb_trans. Qed.

(** The loop of [slices.BinarySearchFunc] over [i, j): the smallest index whose
    key is not below [target].  Each round halves the interval, so [length l]
    rounds are enough. *)
Fixpoint search_loop (fuel : nat) (l : list A) (target : string) (i j : nat) : nat :=
  match fuel with
  | O => i
  | S fuel =>
      if (i <? j)%nat then
        let h := Nat.div2 (i + j) in
        match l !! h with
        | Some d =>
            if String.ltb (key d) target then search_loop fuel l target (S h) j
            else search_loop fuel l target i h
        | None => i
        end
      else i
  end.

(** The element found, when its key is the target. *)
Definition search (l : list A) (target : string) : option A :=
  match l !! search_loop (length l) l target 0 (length l) with
  | Some d => if String.eqb (key d) target then Some d else None
  | None => None
  end.

Lemma sorted_lookup l i j a b :
  StronglySorted key_lt l -> (i < j)%nat -> l !! i = Some a -> l !! j = Some b -> key_lt a b.
Proof.
  intros Hs. revert i j. induction Hs as [|d l Hs IH Hd]; intros i j Hij Ha Hb; [done|].
  destruct j as [|j]; [lia|]. simpl in Hb. destruct i as [|i]; simpl in Ha.
  - injection Ha as ->. rewrite Forall_forall in Hd. apply Hd. by eapply list_elem_of_lookup_2.
  - apply (IH i j); [lia|done..].
Qed.

Lemma sorted_keys_nodup l : StronglySorted key_lt l -> NoDup (map key l).
Proof.
  induction 1 as [|d l Hs IH Hd]; simpl; constructor; [|done].
  intros Hin. apply list_elem_of_fmap in Hin as (e & He & Hin). rewrite Forall_forall in Hd.
  specialize (Hd e Hin). unfold key_lt in Hd. apply ltb_spec in Hd as [_ Hn]. congruence.
Qed.

(** Binary search: the loop keeps every key before [i] below the target and
    every key from [j] on not below it. *)
Lemma search_loop_spec l target (Hs : StronglySorted key_lt l) : forall fuel i j,
  (i <= j)%nat -> (j <= length l)%nat -> (j - i <= fuel)%nat ->
  (forall k d, (k < i)%nat -> l !! k = Some d -> String.ltb (key d) target = true) ->
  (forall k d, (j <= k)%nat -> l !! k = Some d -> String.ltb (key d) target = false) ->
  let r := search_loop fuel l target i j in
  (forall k d, (k < r)%nat -> l !! k = Some d -> String.ltb (key d) target = true)
  /\ (forall k d, (r <= k)%nat -> l !! k = Some d -> String.ltb (key d) target = false).
Proof.
  induction fuel as [|fuel IH]; intros i j Hij Hj Hf Hlo Hhi; simpl.
  { replace i with j by lia. split; [|done]. intros k d Hk. apply Hlo. lia. }
  destruct (Nat.ltb_spec i j) as [Hlt|]; [|by replace i with j in * by lia].
  assert (i <= Nat.div2 (i + j) < j)%nat as Hh.
  { rewrite Nat.div2_div. split; [apply Nat.div_le_lower_bound|apply Nat.Div0.div_lt_upper_bound]; lia. }
  destruct (lookup_lt_is_Some_2 l (Nat.div2 (i + j))) as [d Hd]; [lia|]. rewrite Hd.
  destruct (String.ltb (key d) target) eqn:E.
  - apply IH; try lia; [|done]. intros k e Hk He. destruct (decide (k = Nat.div2 (i + j))) as [->|]; [congruence|].
    apply (ltb_trans _ (key d)); [|done]. apply (sorted_lookup l k (Nat.div2 (i + j))); [done|lia|done..].
  - apply IH; try lia; [done|]. intros k e Hk He. destruct (decide (k = Nat.div2 (i + j))) as [->|]; [congruence|].
    assert (key_lt d e) as Hde by (apply (sorted_lookup l (Nat.div2 (i + j)) k); [done|lia|done..]).
    apply ltb_false in E. apply ltb_spec in Hde as [E1 _]. apply ltb_false. by etransitivity.
Qed.

Lemma search_spec l target d :
  StronglySorted key_lt l -> search l target = Some d <-> d ∈ l /\ key d = target.
Proof.
  intros Hs. unfold search.
  destruct (search_loop_spec l target Hs (length l) 0 (length l)) as [Hlo Hhi];
    [lia..| |]; [intros k e Hk He; apply lookup_lt_Some in He; lia|].
  set (r := search_loop _ _ _ _ _) in *. split.
  - destruct (l !! r) as [e|] eqn:Er; [|done].
    destruct (String.eqb_spec (key e) target); [|done]. intros [= <-]. split; [|done]. by eapply list_elem_of_lookup_2.
  - intros [Hin <-]. apply list_elem_of_lookup_1 in Hin as [k Hk]. pose proof (ltb_irrefl (key d)) as Hirr.
    destruct (lt_eq_lt_dec k r) as [[Hlt|Heq]|Hgt].
    + specialize (Hlo k d Hlt Hk). congruence.
    + rewrite Heq in Hk. rewrite Hk, String.eqb_refl. done.
    + destruct (lookup_lt_is_Some_2 l r) as [e He]; [apply lookup_lt_Some in Hk; lia|].
      specialize (Hhi r e (le_n r) He). pose proof (sorted_lookup _ _ _ _ _ Hs Hgt He Hk) as Hed.
      unfold key_lt in Hed. congruence.
Qed.

(** A validator that walks a list comparing each key with the previous one
    accepts exactly the strictly sorted lists. *)
Fixpoint ascending (previous : option string) (l : list A) : bool :=
  match l with
  | [] => true
  | x :: l =>
      match previous with Some p => String.ltb p (key x) | None => true end && ascending (Some (key x)) l
  end.

Lemma ascending_Some l : forall p,
  ascending (Some p) l = true <-> Forall (fun x => String.ltb p (key x) = true) l /\ StronglySorted key_lt l.
Proof.
  induction l as [|x l IH]; intros p; simpl; [split; [|done]; split; constructor|].
  rewrite andb_true_iff, IH, Forall_cons. split.
  - intros (Hx & Hl & Hs). split; [split; [done|]|by constructor].
    eapply Forall_impl; [exact Hl|]. intros y Hy. cbn in Hy. by eapply ltb_trans.
  - intros ((Hx & _) & Hs). inversion Hs; subst. auto.
Qed.

Lemma ascending_spec l : ascending None l = true <-> StronglySorted key_lt l.
Proof.
  destruct l as [|x l]; simpl; [split; [constructor|done]|].
  rewrite ascending_Some. split; [intros [? ?]; by constructor|by inversion 1].
Qed.
End KeySearch.

(** [slices.BinarySearch] on a list of strings: whether the target is found. *)
Definition found (l : list string) (target : string) : bool :=
  match search id l target with Some _ => true | None => false end.

Definition str_lt : string -> string -> Prop := key_lt id.

Lemma found_spec l target : StronglySorted str_lt l -> found l target = true <-> target ∈ l.
Proof.
  intros Hs. unfold found. pose proof (search_spec id l target) as H.
  destruct (search id l target) as [d|] eqn:E; split; try done.
  - intros _. destruct (proj1 (H d Hs) eq_refl) as [Hd He]. cbn in He. by subst.
  - intros Hin. by discriminate (proj2 (H target Hs)).
Qed.

Lemma found_false l target : StronglySorted str_lt l -> found l target = false <-> target ∉ l.
Proof. intros Hs. rewrite <- not_true_iff_false, found_spec by done. done. Qed.

Lemma filter_sorted {A} (R : A -> A -> Prop) (f : A -> bool) l : StronglySorted R l -> StronglySorted R (List.filter f l).
Proof.
  induction 1 as [|x l Hs IH Hx]; simpl; [constructor|]. destruct (f x); [|done]. constructor; [done|].
  rewrite Forall_forall in *. intros y Hy. apply Hx. apply list_elem_of_In in Hy.
  apply List.filter_In in Hy as [Hy _]. by apply list_elem_of_In.
Qed.

(** ** Plain text *)

Definition plain (l : list Z) : bool := forallb (in_range 32 126) l.
(** Printable ASCII that neither begins nor ends with a space. *)
Definition plain_text (s : string) : bool :=
  plain (byte_codes s) && in_range 33 126 (hd 0 (byte_codes s))%Z && in_range 33 126 (List.last (byte_codes s) 0)%Z.

Lemma byte_codes_app a b : byte_codes (a +:+ b) = byte_codes a ++ byte_codes b.
Proof. induction a as [|x a IH]; [done|]. exact (f_equal (cons _) IH). Qed.

Lemma of_codes_byte_codes s : of_codes (byte_codes s) = s.
Proof.
  unfold of_codes, byte_codes. rewrite map_map.
  replace (map _ (String.list_ascii_of_string s)) with (String.list_ascii_of_string s);
    [apply String.string_of_list_ascii_of_string|].
  induction (String.list_ascii_of_string s) as [|c l IH]; simpl; [done|].
  rewrite N2Z.id, ascii_N_embedding. by f_equal.
Qed.

Lemma plain_decode a l : in_range 32 126 a = true -> decode_rune (a :: l) = (1, Some a)%Z.
Proof. unfold in_range. intros H. bprop. simpl. by rewrite (proj2 (Z.ltb_lt a 128)) by lia. Qed.

Lemma plain_runes l : forall n, plain l = true ->
  forallb (fun r => match snd r with Some _ => true | None => false end) (runes_fuel n l) = true.
Proof.
  induction l as [|a l IH]; intros [|n] H; try done. cbn in H. apply andb_true_iff in H as [Ha Hl].
  cbn [runes_fuel forallb]. rewrite plain_decode by done. cbn. by apply IH.
Qed.

Lemma plain_utf8 s : plain (byte_codes s) = true -> utf8_valid s = true.
Proof. apply plain_runes. Qed.

Lemma plain_no_control s : plain (byte_codes s) = true -> contains_any s [0; 13; 10; 9]%Z = false.
Proof.
  unfold contains_any, plain. rewrite <- not_true_iff_false, existsb_exists, forallb_forall.
  intros Hp (c & Hc & He). specialize (Hp c Hc). apply existsb_exists in He as (x & Hx & E%Z.eqb_eq).
  unfold in_range in Hp. bprop. simpl in Hx. lia.
Qed.

Lemma nonspace a : in_range 33 126 a = true -> IsSpace a = false /\ in_range 32 126 a = true.
Proof.
  unfold IsSpace, in_range. intros H. bprop. split; [|apply andb_true_iff; split; apply Z.leb_le; lia].
  repeat (apply orb_false_iff; split); try (apply Z.eqb_neq; lia); apply andb_false_iff;
    first [left; apply Z.leb_gt; lia|right; apply Z.leb_gt; lia].
Qed.

Lemma plain_last_kept l : plain l = true -> in_range 33 126 (hd 0 l)%Z = true -> last_rune_is_space l = None.
Proof.
  assert (forall a k, in_range 32 126 a = true -> match decode_rune (a :: k) with
    | (n, Some r) => (n =? 2)%Z && IsSpace r | _ => false end = false) as H2 by (intros a k H; by rewrite plain_decode).
  assert (forall a k, in_range 32 126 a = true -> match decode_rune (a :: k) with
    | (n, Some r) => (n =? 3)%Z && IsSpace r | _ => false end = false) as H3 by (intros a k H; by rewrite plain_decode).
  intros Hp Hz. unfold plain in Hp. destruct l as [|z l]; [done|]. apply nonspace in Hz as [Hs Hz]. cbn [hd] in Hs, Hz.
  assert (match decode_rune [z] with (n, Some r) => (n =? 1)%Z && IsSpace r | _ => false end = false) as H1
    by (by rewrite plain_decode, Hs).
  unfold last_rune_is_space. change (Z.of_nat 1) with 1%Z. change (Z.of_nat 2) with 2%Z. change (Z.of_nat 3) with 3%Z.
  destruct l as [|y [|x l]]; cbn [forallb] in Hp; bprop.
  - change (take 1 [z]) with [z]. cbn [rev app length Nat.leb]. by rewrite H1.
  - change (take 1 [z; y]) with [z]. change (take 2 [z; y]) with [z; y]. cbn [rev app length Nat.leb]. by rewrite H1, H2.
  - change (take 1 (z :: y :: x :: l)) with [z]. change (take 2 (z :: y :: x :: l)) with [z; y].
    change (take 3 (z :: y :: x :: l)) with [z; y; x]. cbn [rev app length Nat.leb]. by rewrite H1, H2, H3.
Qed.

Lemma plain_trim s : plain_text s = true -> trimmed_nonempty s = true.
Proof.
  unfold plain_text, trimmed_nonempty, TrimSpace. intros H. bprop. apply andb_true_iff. split.
  { by destruct s. }
  apply String.eqb_eq.
  assert (trim_left (length (byte_codes s)) (byte_codes s) = byte_codes s) as ->.
  { destruct (byte_codes s) as [|a l]; [done|]. cbn [length trim_left].
    apply nonspace in H1 as [Hs Ha]. cbn [hd] in Hs, Ha. by rewrite plain_decode, Hs by done. }
  assert (last_rune_is_space (rev (byte_codes s)) = None) as Hl.
  { apply plain_last_kept.
    - unfold plain in *. rewrite forallb_forall in *. intros x Hx. apply H. by apply in_rev.
    - destruct (byte_codes s) as [|a l] eqn:E using rev_ind; [done|].
      rewrite rev_app_distr. cbn. by rewrite List.last_last in H0. }
  destruct (length (byte_codes s)) as [|n]; cbn [trim_right_rev]; rewrite ?Hl, rev_involutive, of_codes_byte_codes; done.
Qed.

(** Text put behind a prefix that may end with a space. *)
Definition plain_prefix (s : string) : bool := plain (byte_codes s) && in_range 33 126 (hd 0 (byte_codes s))%Z.

Lemma plain_text_prefix a b : plain_prefix a = true -> plain_text b = true -> plain_text (a +:+ b) = true.
Proof.
  unfold plain_text, plain_prefix. rewrite !byte_codes_app. intros Ha Hb. bprop. unfold plain in *. rewrite !forallb_app.
  rewrite !andb_true_iff. split; [split; [done|]|].
  - by destruct (byte_codes a).
  - destruct (byte_codes b) as [|z l] eqn:E using rev_ind; [done|]. rewrite !app_assoc, List.last_last.
    by rewrite List.last_last in H0.
Qed.

Lemma plain_text_is_prefix a : plain_text a = true -> plain_prefix a = true.
Proof. unfold plain_text, plain_prefix. intros H. bprop. apply andb_true_iff. auto. Qed.

Lemma plain_prefix_app a b : plain_prefix a = true -> plain (byte_codes b) = true -> plain_prefix (a +:+ b) = true.
Proof.
  unfold plain_prefix. rewrite !byte_codes_app. intros Ha Hb. bprop. unfold plain in *. rewrite !forallb_app.
  rewrite !andb_true_iff. split; [done|]. by destruct (byte_codes a).
Qed.

(** What [%d] prints. *)
Definition digits (s : string) : bool := forallb (in_range 48 57) (byte_codes s).

Lemma pretty_go_digits k : forall x s, (x < 10 ^ N.of_nat k)%N ->
  exists d, pretty_N_go x s = d +:+ s /\ digits d = true /\ (String.length d <= k)%nat /\ (d = ""%string -> x = 0%N).
Proof.
  induction k as [|k IH]; intros x s Hx.
  { assert (x = 0%N) as -> by (cbn in Hx; lia). exists ""%string. rewrite pretty_N_go_0. auto. }
  destruct (decide (x = 0%N)) as [->|Hn]; [exists ""%string; rewrite pretty_N_go_0; split; [done|]; split; [done|]; split; [cbn; lia|done]|].
  rewrite pretty_N_go_step by lia.
  destruct (IH (x `div` 10)%N (String (pretty_N_char (x `mod` 10)) s)) as (d & -> & Hd & Hl & _).
  { rewrite Nat2N.inj_succ, N.pow_succ_r' in Hx. by apply N.Div0.div_lt_upper_bound. }
  exists (d +:+ String (pretty_N_char (x `mod` 10)) ""). split; [by rewrite str_app_assoc|]. split; [|split].
  - unfold digits. rewrite byte_codes_app, forallb_app. apply andb_true_iff. split; [done|].
    unfold pretty_N_char. by repeat case_match.
  - pose proof (slen_append d (String (pretty_N_char (x `mod` 10)) "")) as H. unfold slen in H.
    change (String.length (String (pretty_N_char (x `mod` 10)) "")) with 1%nat in H. lia.
  - by destruct d.
Qed.

Lemma digits_plain s : digits s = true -> s <> ""%string -> plain_text s = true.
Proof.
  unfold digits, plain_text. intros Hd Hn.
  assert (forall c, in_range 48 57 c = true -> in_range 33 126 c = true /\ in_range 32 126 c = true) as Hc.
  { unfold in_range. intros c H. bprop. rewrite !andb_true_iff, !Z.leb_le. lia. }
  rewrite forallb_forall in Hd. rewrite !andb_true_iff. split; [split|].
  - unfold plain. apply forallb_forall. intros c H. by apply Hc, Hd.
  - apply Hc, Hd. destruct s; [done|]. left. done.
  - apply Hc, Hd. assert (byte_codes s <> []) as Hs by (by destruct s).
    destruct (byte_codes s) as [|z l] eqn:E using rev_ind; [done|]. rewrite List.last_last. apply in_app_iff. right. by left.
Qed.

Lemma pretty_N_plain x k :
  (x < 10 ^ N.of_nat k)%N -> (1 <= k)%nat -> plain_text (pretty x) = true /\ (slen (pretty x) <= Z.of_nat k)%Z.
Proof.
  intros Hx Hk. unfold pretty, pretty_N. case_decide as H0; [split; [done|]; unfold slen; cbn; lia|].
  destruct (pretty_go_digits k x "" Hx) as (d & Hd & Hdig & Hl & Hz).
  assert (pretty_N_go x "" = d) as ->.
  { rewrite Hd. clear. induction d as [|c d IH]; [done|]. exact (f_equal (String c) IH). }
  split; [|unfold slen; lia]. apply digits_plain; [done|]. intros ->. by apply H0, Hz.
Qed.

Lemma pretty_Z_plain x : (0 <= x < 10 ^ 20)%Z -> plain_text (pretty x) = true /\ (slen (pretty x) <= 20)%Z.
Proof.
  intros Hx. replace (pretty x) with (pretty (Z.to_N x)) by (by destruct x; [| |lia]).
  apply (pretty_N_plain _ 20); [|lia]. change (10 ^ N.of_nat 20)%N with (Z.to_N (10 ^ 20)). lia.
Qed.
