(* ===== verification/GoJson.v ===== *)
(** What the packages use of Go's [encoding/json] and [time]: the validity
    scanner behind [json.Valid], and the sizes of the texts [json.Marshal]
    writes for strings, raw messages, unsigned integers and timestamps. *)

From S2P Require Import Prelude GoText.

(** ** The scanner of [encoding/json]

    One state per [stateX] function of the standard library's scanner; the
    parse stack holds what the enclosing composite expects next. *)

Inductive parse_state := parseObjectKey | parseObjectValue | parseArrayValue.

Inductive scan_step :=
| sBeginValue
| sBeginValueOrEmpty
| sBeginStringOrEmpty
| sBeginString
| sEndValue
| sEndTop
| sInString
| sInStringEsc
| sInStringHex (remaining : nat)
| sNeg
| s0
| s1
| sDot
| sDot0
| sE
| sESign
| sE0
| sLit (rest : list Z)
| sError.

Record scanner := Scanner { sc_step : scan_step; sc_stack : list parse_state }.

Definition maxNestingDepth : Z := 10000.

Definition json_space (c : Z) : bool := (c =? 32) || (c =? 9) || (c =? 13) || (c =? 10).
Definition json_digit (c : Z) : bool := in_range 48 57 c.
Definition json_hex (c : Z) : bool :=
  json_digit c || in_range 97 102 c || in_range 65 70 c.

Definition push (sc : scanner) (p : parse_state) (next : scan_step) : scanner :=
  if lenZ (sc_stack sc) + 1 <=? maxNestingDepth
  then Scanner next (p :: sc_stack sc)
  else Scanner sError (p :: sc_stack sc).

Definition pop (stack : list parse_state) : scanner :=
  let rest := tail stack in
  match rest with
  | [] => Scanner sEndTop rest
  | _ => Scanner sEndValue rest
  end.

(** [stateEndValue]: the character after a complete value. *)
Definition end_value (stack : list parse_state) (c : Z) : scanner :=
  match stack with
  | [] => if json_space c then Scanner sEndTop [] else Scanner sError []
  | p :: rest =>
    if json_space c then Scanner sEndValue stack
    else match p with
    | parseObjectKey =>
        if c =? 58 then Scanner sBeginValue (parseObjectValue :: rest) else Scanner sError stack
    | parseObjectValue =>
        if c =? 44 then Scanner sBeginString (parseObjectKey :: rest)
        else if c =? 125 then pop stack
        else Scanner sError stack
    | parseArrayValue =>
        if c =? 44 then Scanner sBeginValue stack
        else if c =? 93 then pop stack
        else Scanner sError stack
    end
  end.

(** [stateBeginValue]. *)
Definition begin_value (sc : scanner) (c : Z) : scanner :=
  let st := sc_stack sc in
  if json_space c then Scanner sBeginValue st
  else if c =? 123 then push sc parseObjectKey sBeginStringOrEmpty
  else if c =? 91 then push sc parseArrayValue sBeginValueOrEmpty
  else if c =? 34 then Scanner sInString st
  else if c =? 45 then Scanner sNeg st
  else if c =? 48 then Scanner s0 st
  else if c =? 116 then Scanner (sLit [114; 117; 101]) st
  else if c =? 102 then Scanner (sLit [97; 108; 115; 101]) st
  else if c =? 110 then Scanner (sLit [117; 108; 108]) st
  else if in_range 49 57 c then Scanner s1 st
  else Scanner sError st.

(** [stateBeginString]. *)
Definition begin_string (sc : scanner) (c : Z) : scanner :=
  if json_space c then Scanner sBeginString (sc_stack sc)
  else if c =? 34 then Scanner sInString (sc_stack sc)
  else Scanner sError (sc_stack sc).

(** [state0]. *)
Definition after_zero (st : list parse_state) (c : Z) : scanner :=
  if c =? 46 then Scanner sDot st
  else if (c =? 101) || (c =? 69) then Scanner sE st
  else end_value st c.

(** [scan.step(scan, c)]. *)
Definition scan_byte (sc : scanner) (c : Z) : scanner :=
  let st := sc_stack sc in
  match sc_step sc with
  | sBeginValue => begin_value sc c
  | sBeginValueOrEmpty =>
      if json_space c then Scanner sBeginValueOrEmpty st
      else if c =? 93 then end_value st c else begin_value sc c
  | sBeginStringOrEmpty =>
      if json_space c then Scanner sBeginStringOrEmpty st
      else if c =? 125 then end_value (parseObjectValue :: tail st) c
      else begin_string sc c
  | sBeginString => begin_string sc c
  | sEndValue => end_value st c
  | sEndTop => if json_space c then Scanner sEndTop st else Scanner sError st
  | sInString =>
      if c =? 34 then Scanner sEndValue st
      else if c =? 92 then Scanner sInStringEsc st
      else if c <? 32 then Scanner sError st
      else Scanner sInString st
  | sInStringEsc =>
      if existsb (Z.eqb c) [98; 102; 110; 114; 116; 92; 47; 34] then Scanner sInString st
      else if c =? 117 then Scanner (sInStringHex 4) st
      else Scanner sError st
  | sInStringHex n =>
      if json_hex c then
        match n with
        | S (S m) => Scanner (sInStringHex (S m)) st
        | _ => Scanner sInString st
        end
      else Scanner sError st
  | sNeg =>
      if c =? 48 then Scanner s0 st
      else if in_range 49 57 c then Scanner s1 st
      else Scanner sError st
  | s0 => after_zero st c
  | s1 => if json_digit c then Scanner s1 st else after_zero st c
  | sDot => if json_digit c then Scanner sDot0 st else Scanner sError st
  | sDot0 =>
      if json_digit c then Scanner sDot0 st
      else if (c =? 101) || (c =? 69) then Scanner sE st
      else end_value st c
  | sE =>
      if (c =? 43) || (c =? 45) then Scanner sESign st
      else if json_digit c then Scanner sE0 st
      else Scanner sError st
  | sESign => if json_digit c then Scanner sE0 st else Scanner sError st
  | sE0 => if json_digit c then Scanner sE0 st else end_value st c
  | sLit rest =>
      match rest with
      | [] => Scanner sError st
      | [d] => if c =? d then Scanner sEndValue st else Scanner sError st
      | d :: more => if c =? d then Scanner (sLit more) st else Scanner sError st
      end
  | sError => Scanner sError st
  end.

(** [scan.eof()]: a space is fed to close a trailing number. *)
Definition scan_eof (sc : scanner) : bool :=
  match sc_step sc with
  | sError => false
  | sEndTop => true
  | _ => match sc_step (scan_byte sc 32) with sEndTop => true | _ => false end
  end.

(** [json.Valid]. *)
Definition json_valid (s : string) : bool :=
  scan_eof (foldl scan_byte (Scanner sBeginValue []) (byte_codes s)).

Example json_ok_object :
  json_valid (of_codes [123; 34; 97; 34; 58; 32; 91; 49; 44; 45; 50; 46; 53; 101; 43; 51; 93; 125]) = true.
Proof. vm_compute. reflexivity. Qed.
Example json_ok_number : json_valid "-0.5e1 " = true.
Proof. vm_compute. reflexivity. Qed.
Example json_bad_trailing : json_valid "1 2" = false.
Proof. vm_compute. reflexivity. Qed.
Example json_ok_empty : json_valid "{}" = true /\ json_valid "[ ]" = true /\ json_valid "[1,]" = false.
Proof. vm_compute. auto. Qed.
Example json_bad_empty : json_valid "" = false /\ json_valid "nul" = false /\ json_valid "null" = true.
Proof. vm_compute. auto. Qed.

(** ** Sizes of marshalled texts *)

(** One rune of a JSON string written with HTML escaping. *)
Definition rune_json_size (r : Z * option Z) : Z :=
  match snd r with
  | None => 6
  | Some c =>
    if (c =? 34) || (c =? 92) || (c =? 8) || (c =? 12) || (c =? 10) || (c =? 13) || (c =? 9) then 2
    else if (c <? 32) || (c =? 60) || (c =? 62) || (c =? 38) then 6
    else if (c =? 8232) || (c =? 8233) then 6
    else fst r
  end.

(** The size of [json.Marshal] of a Go string. *)
Definition string_json_size (s : string) : Z := 2 + sumZ rune_json_size (runes s).

(** The size of a [json.RawMessage] compacted with HTML escaping: white space
    outside strings is dropped. *)
Fixpoint compact_size (sc : scanner) (l : list Z) : Z :=
  match l with
  | [] => 0
  | c :: rest =>
    let next := scan_byte sc c in
    let in_string :=
      match sc_step sc with sInString | sInStringEsc | sInStringHex _ => true | _ => false end in
    let width :=
      if json_space c && negb in_string then 0
      else if (c =? 60) || (c =? 62) || (c =? 38) then 6
      else match rest with
      | b :: d :: _ =>
        if (c =? 226) && (b =? 128) && ((d =? 168) || (d =? 169)) then 4 else 1
      | _ => 1
      end in
    width + compact_size next rest
  end.

Definition raw_json_size (s : string) : Z :=
  compact_size (Scanner sBeginValue []) (byte_codes s).

(** Decimal digits of an unsigned integer below 10^20. *)
Fixpoint digits_fuel (fuel : nat) (n : Z) : Z :=
  match fuel with
  | O => 1
  | S f => if n <? 10 then 1 else 1 + digits_fuel f (n / 10)
  end.
Definition uint_json_size (n : Z) : Z := digits_fuel 20 n.

(** ** [time.Time]: the instant in Unix seconds and nanoseconds, with the
    offset of its location in seconds. *)
Record Time := mkTime { t_sec : Z; t_nsec : Z; t_offset : Z }.

(** [Time.IsZero]: January 1, year 1, 00:00:00 UTC. *)
Definition IsZero (t : Time) : bool := (t_sec t =? -62135596800) && (t_nsec t =? 0).

Fixpoint fraction_digits (fuel : nat) (n : Z) : Z :=
  match fuel with
  | O => 0
  | S f => if n mod 10 =? 0 then fraction_digits f (n / 10) else Z.of_nat fuel
  end.

(** The size of [Time.MarshalJSON] (RFC 3339 with nanoseconds, quoted), [None]
    when the year leaves [0,9999] or the zone hour leaves [0,23]. *)
Definition time_json_size (t : Time) : option Z :=
  let local := t_sec t + t_offset t in
  if in_range (-62167219200) 253402300799 local
     && (Z.abs (t_offset t) / 3600 <=? 23)
  then
    let fraction := if t_nsec t =? 0 then 0 else 1 + fraction_digits 9 (t_nsec t) in
    let zone := if t_offset t =? 0 then 1 else 6 in
    Some (2 + 19 + fraction + zone)
  else None.

Example time_size_utc : time_json_size (mkTime 1700000000 120000000 0) = Some 25.
Proof. vm_compute. reflexivity. Qed.

(** ** Non-negativity *)

Lemma digits_fuel_pos f n : 0 < digits_fuel f n.
Proof.
  revert n. induction f as [|f IH]; intros n; simpl; [lia|].
  destruct (n <? 10); [lia|]. specialize (IH (n / 10)). lia.
Qed.

Lemma compact_size_nonneg l sc : 0 <= compact_size sc l.
Proof.
  revert sc. induction l as [|c l IH]; intros sc; cbn [compact_size]; [lia|].
  specialize (IH (scan_byte sc c)). cbv zeta.
  repeat (split_match || case_match); lia.
Qed.

Lemma decode_rune_width l : 0 <= fst (decode_rune l).
Proof. unfold decode_rune. repeat case_match; simpl; lia. Qed.

Lemma rune_json_size_nonneg r : 0 <= fst r -> 0 <= rune_json_size r.
Proof. unfold rune_json_size. intros. repeat case_match; lia. Qed.

Lemma string_json_size_pos s : 2 <= string_json_size s.
Proof.
  unfold string_json_size, runes.
  enough (0 <= sumZ rune_json_size (runes_fuel (String.length s) (byte_codes s))) by lia.
  apply sumZ_nonneg. generalize (byte_codes s). generalize (String.length s).
  induction n as [|n IH]; intros l; simpl; [constructor|].
  destruct l as [|c l]; [constructor|]. constructor; [|apply IH].
  apply rune_json_size_nonneg, decode_rune_width.
Qed.
#[export] Hint Resolve digits_fuel_pos compact_size_nonneg string_json_size_pos : spice.

Lemma decode_rune_bounds a l : 1 <= (decode_rune (a :: l)).1 <= lenZ (a :: l) /\ (decode_rune (a :: l)).1 <= 4
  /\ forall c, (decode_rune (a :: l)).2 = Some c -> c < 128 -> (decode_rune (a :: l)).1 = 1.
Proof.
  unfold decode_rune, in_range, cont, in_range. rewrite !lenZ_cons.
  repeat (match goal with |- context [if ?b then _ else _] => let E := fresh "E" in destruct b eqn:E; bprop
          | |- context [match ?l with [] => _ | _ :: _ => _ end] => destruct l end; cbn [fst snd]; rewrite ?lenZ_cons, ?lenZ_nil).
  all: repeat match goal with |- context [lenZ ?l] => lazymatch goal with H : 0 <= lenZ l |- _ => fail | _ => pose proof (lenZ_nonneg l) end end.
  all: split; [lia|split; [lia|]]; intros ? [= <-]; lia.
Qed.

Lemma runes_json_size_ge fuel : forall l, (length l <= fuel)%nat -> lenZ l <= sumZ rune_json_size (runes_fuel fuel l).
Proof.
  induction fuel as [|fuel IH]; intros [|a l] Hl; cbn [runes_fuel]; rewrite ?lenZ_nil, ?sumZ_nil; try (cbn in Hl; lia).
  rewrite sumZ_cons. destruct (decode_rune_bounds a l) as (Hw & H4 & H1). destruct (decode_rune (a :: l)) as [w r]. cbn [fst snd] in *.
  assert (w <= rune_json_size (w, r)) as Hr.
  { unfold rune_json_size. cbn [fst snd]. destruct r as [c|]; [|lia]. specialize (H1 c eq_refl).
    repeat (match goal with |- context [if ?b then _ else _] => destruct b eqn:?; bprop end); try lia. }
  pose proof (IH (drop (Z.to_nat w) (a :: l))) as IHd. unfold lenZ in *. rewrite length_drop in IHd. cbn [length] in *. lia.
Qed.

Lemma string_json_size_ge s : slen s + 2 <= string_json_size s.
Proof.
  unfold string_json_size, runes. assert (length (byte_codes s) = String.length s) as Hl.
  { unfold byte_codes. rewrite length_map. clear. induction s as [|c s IH]; [done|]. cbn. by rewrite IH. }
  pose proof (runes_json_size_ge (String.length s) (byte_codes s)) as H. rewrite Hl in H. unfold lenZ in H. rewrite Hl in H. unfold slen. lia.
Qed.
