(* ===== verification/Event.v ===== *)
(** Package [event], file [event.go]: event kinds, validated envelopes, the
    run-local sequencer, the best-effort mailbox and the recorder. *)

From S2P Require Import Prelude GoText GoJson.

Definition MaximumPayloadBytes : Z := 1048576.

(** ** Kinds *)

Definition Kind := string.

Definition RunStarted : Kind := "run.started".
Definition RunCompleted : Kind := "run.completed".
Definition RunFailed : Kind := "run.failed".
Definition RunCancelled : Kind := "run.cancelled".
Definition TurnStarted : Kind := "turn.started".
Definition TurnCompleted : Kind := "turn.completed".
Definition TurnFailed : Kind := "turn.failed".
Definition ModelStarted : Kind := "model.started".
Definition ModelDelta : Kind := "model.delta".
Definition ModelCompleted : Kind := "model.completed".
Definition ModelFailed : Kind := "model.failed".
Definition ToolStarted : Kind := "tool.started".
Definition ToolProgress : Kind := "tool.progress".
Definition ToolCompleted : Kind := "tool.completed".
Definition ToolFailed : Kind := "tool.failed".
Definition InteractionStarted : Kind := "interaction.started".
Definition InteractionCompleted : Kind := "interaction.completed".
Definition InteractionFailed : Kind := "interaction.failed".
Definition InteractionCancelled : Kind := "interaction.cancelled".

Definition one_of (kind : Kind) (kinds : list Kind) : bool := existsb (String.eqb kind) kinds.

Definition validKind (kind : Kind) : bool :=
  one_of kind
    [RunStarted; RunCompleted; RunFailed; RunCancelled;
     TurnStarted; TurnCompleted; TurnFailed;
     ModelStarted; ModelDelta; ModelCompleted; ModelFailed;
     ToolStarted; ToolProgress; ToolCompleted; ToolFailed;
     InteractionStarted; InteractionCompleted; InteractionFailed; InteractionCancelled].

(** ** Envelopes *)

Record Envelope := mkEnvelope {
  env_runID : string;
  env_sequence : Z;
  env_at : Time;
  env_kind : Kind;
  env_data : string
}.

Inductive EventError :=
| ErrEventRunID
| ErrEventSequence
| ErrEventTimestamp
| ErrEventKind (kind : Kind)
| ErrEventPayloadSize
| ErrEventPayloadJSON
| ErrEventPayloadEncode.

Definition Reconstruct (runID : string) (sequence : Z) (at_ : Time) (kind : Kind) (data : string)
  : result EventError Envelope :=
  if negb (trimmed_nonempty runID) then Err ErrEventRunID
  else if sequence =? 0 then Err ErrEventSequence
  else if IsZero at_ then Err ErrEventTimestamp
  else if negb (validKind kind) then Err (ErrEventKind kind)
  else if slen data >? MaximumPayloadBytes then Err ErrEventPayloadSize
  else if negb (slen data =? 0) && negb (json_valid data) then Err ErrEventPayloadJSON
  else Ok (mkEnvelope runID sequence at_ kind data).

(** [json.Marshal] of the wire struct: the member names and punctuation are
    constant (written below with apostrophes for the quotes, of the same
    length); [data] is omitted when empty; a marshalling failure counts as one
    byte over the payload bound. *)
Definition EncodedSize (envelope : Envelope) : Z :=
  match time_json_size (env_at envelope) with
  | None => MaximumPayloadBytes + 1
  | Some at_size =>
    let head :=
      slen "{'run_id':" + string_json_size (env_runID envelope)
      + slen ",'sequence':" + uint_json_size (env_sequence envelope)
      + slen ",'at':" + at_size
      + slen ",'kind':" + string_json_size (env_kind envelope) in
    if slen (env_data envelope) =? 0 then head + 1
    else if json_valid (env_data envelope)
    then head + slen ",'data':" + raw_json_size (env_data envelope) + 1
    else MaximumPayloadBytes + 1
  end.

Definition Terminal (envelope : Envelope) : bool :=
  one_of (env_kind envelope)
    [RunCompleted; RunFailed; RunCancelled;
     TurnCompleted; TurnFailed;
     ModelCompleted; ModelFailed;
     ToolCompleted; ToolFailed;
     InteractionCompleted; InteractionFailed; InteractionCancelled].

(** ** Sequencer *)

Record Sequencer := mkSequencer { seq_runID : string; seq_next : Z }.

Definition NewSequencer (runID : string) : result EventError Sequencer :=
  if negb (trimmed_nonempty runID) then Err ErrEventRunID
  else Ok (mkSequencer runID 1).

(** [payload] is [None] for a nil payload, otherwise the result of
    [json.Marshal] on it ([None]: the encoder failed); [now] is what the clock
    returns to this call. *)
Definition Sequencer_Next (s : Sequencer) (now : Time) (kind : Kind)
  (payload : option (option string)) : Sequencer * result EventError Envelope :=
  if negb (validKind kind) then (s, Err (ErrEventKind kind))
  else
    let allocate (data : string) :=
      match Reconstruct (seq_runID s) (seq_next s) now kind data with
      | Err e => (s, Err e)
      | Ok env => (mkSequencer (seq_runID s) (seq_next s +64 1), Ok env)
      end in
    match payload with
    | None => allocate ""%string
    | Some None => (s, Err ErrEventPayloadEncode)
    | Some (Some data) => allocate data
    end.

(** ** Best-effort mailbox *)

Inductive FilterError :=
| ErrFilterTooMany
| ErrFilterKind (index : nat)
| ErrFilterDuplicate (kind : Kind)
| ErrFilterInvalid
| ErrCapacity.

Abbreviation BestEffortFilter := (gset string).

Fixpoint filter_loop (index : nat) (excluded : list Kind) (acc : BestEffortFilter)
  : result FilterError BestEffortFilter :=
  match excluded with
  | [] => Ok acc
  | kind :: rest =>
      if negb (validKind kind) then Err (ErrFilterKind index)
      else if bool_decide (kind ∈ acc) then Err (ErrFilterDuplicate kind)
      else filter_loop (S index) rest ({[kind]} ∪ acc)
  end.

Definition NewBestEffortFilter (excluded : list Kind) : result FilterError BestEffortFilter :=
  if lenZ excluded >? 20 then Err ErrFilterTooMany else filter_loop 0 excluded ∅.

Definition excludes (filter : BestEffortFilter) (kind : Kind) : bool :=
  bool_decide (kind ∈ filter).

(** [events] is the buffered channel: its content, oldest first, and the
    capacity it was made with. *)
Record BestEffortObserver := mkObserver {
  obs_events : list Envelope;
  obs_capacity : Z;
  obs_filter : BestEffortFilter;
  obs_dropped : Z;
  obs_filtered : Z;
  obs_closed : bool
}.

Definition NewFilteredBestEffortObserver (capacity : Z) (filter : BestEffortFilter)
  : result FilterError BestEffortObserver :=
  if (capacity <? 1) || (capacity >? 65536) then Err ErrCapacity
  else if negb (forallb validKind (elements filter)) then Err ErrFilterInvalid
  else Ok (mkObserver [] capacity filter 0 0 false).

Definition NewBestEffortObserver (capacity : Z) : result FilterError BestEffortObserver :=
  NewFilteredBestEffortObserver capacity ∅.

Definition TryPublish (o : BestEffortObserver) (envelope : Envelope) : BestEffortObserver * bool :=
  if obs_closed o then (o, false)
  else if excludes (obs_filter o) (env_kind envelope)
  then (mkObserver (obs_events o) (obs_capacity o) (obs_filter o)
          (obs_dropped o) (obs_filtered o +64 1) (obs_closed o), false)
  else if lenZ (obs_events o) <? obs_capacity o
  then (mkObserver (obs_events o ++ [envelope]) (obs_capacity o) (obs_filter o)
          (obs_dropped o) (obs_filtered o) (obs_closed o), true)
  else (mkObserver (obs_events o) (obs_capacity o) (obs_filter o)
          (obs_dropped o +64 1) (obs_filtered o) (obs_closed o), false).

(** A receive on [Events()]: the oldest buffered envelope, also after Close. *)
Definition observer_receive (o : BestEffortObserver) : BestEffortObserver * option Envelope :=
  match obs_events o with
  | [] => (o, None)
  | e :: rest =>
      (mkObserver rest (obs_capacity o) (obs_filter o)
         (obs_dropped o) (obs_filtered o) (obs_closed o), Some e)
  end.

Definition observer_Close (o : BestEffortObserver) : BestEffortObserver :=
  mkObserver (obs_events o) (obs_capacity o) (obs_filter o) (obs_dropped o) (obs_filtered o) true.

(** ** Recorder *)

Record Recorder := mkRecorder { rec_events : list Envelope }.

(** [ctx_err] is [ctx.Err() != nil]. *)
Definition Recorder_Publish (ctx_err : bool) (r : Recorder) (envelope : Envelope) : Recorder * bool :=
  if ctx_err then (r, false) else (mkRecorder (rec_events r ++ [envelope]), true).

(** ** Lemmas *)

Lemma EncodedSize_pos e : 0 < EncodedSize e.
Proof.
  unfold EncodedSize, MaximumPayloadBytes, time_json_size.
  pose proof (string_json_size_pos (env_runID e)).
  pose proof (string_json_size_pos (env_kind e)).
  pose proof (digits_fuel_pos 20 (env_sequence e)).
  pose proof (compact_size_nonneg (byte_codes (env_data e)) (Scanner sBeginValue [])).
  assert (forall f n, 0 <= fraction_digits f n) as Hf.
  { clear. induction f as [|f IH]; intros n; simpl; [lia|]. destruct (n mod 10 =? 0); [apply IH|lia]. }
  unfold uint_json_size, raw_json_size.
  destruct (in_range _ _ _ && _); [|lia].
  pose proof (Hf 9%nat (t_nsec (env_at e))).
  set (a := slen "{'run_id':"). set (b := slen ",'sequence':"). set (c := slen ",'at':").
  set (d := slen ",'kind':"). set (f := slen ",'data':").
  assert (0 <= a /\ 0 <= b /\ 0 <= c /\ 0 <= d /\ 0 <= f) by (repeat split; apply slen_nonneg).
  destruct (t_nsec (env_at e) =? 0), (t_offset (env_at e) =? 0), (slen (env_data e) =? 0),
    (json_valid (env_data e)); lia.
Qed.
#[export] Hint Resolve EncodedSize_pos : spice.

Lemma Reconstruct_Ok runID s t k d e :
  Reconstruct runID s t k d = Ok e -> e = mkEnvelope runID s t k d /\ s <> 0 /\ validKind k = true.
Proof.
  unfold Reconstruct. intros H. repeat (split_match_in H; try discriminate).
  bprop. injection H as <-. auto.
Qed.

Lemma filter_loop_spec excluded index acc f :
  filter_loop index excluded acc = Ok f ->
  NoDup excluded /\ (forall k, k ∈ excluded -> validKind k = true /\ k ∉ acc)
  /\ f = list_to_set excluded ∪ acc.
Proof.
  revert index acc. induction excluded as [|k rest IH]; simpl; intros index acc H.
  { injection H as <-. split; [constructor|]. split; [set_solver|]. set_solver. }
  repeat (split_match_in H; try discriminate). bprop.
  apply IH in H as (Hnd & Hin & ->). split; [|split].
  - constructor; [|done]. intros Hk. apply Hin in Hk as [_ Hk]. set_solver.
  - intros k' Hk'. apply elem_of_cons in Hk' as [->|Hk']; [done|].
    apply Hin in Hk' as [? ?]. split; [done|set_solver].
  - set_solver.
Qed.

(** ** Histories of a mailbox *)

Inductive observer_op := OPublish (envelope : Envelope) | OReceive | OClose.

(** A mailbox with what its producers offered while it was open, what it
    accepted and what its consumer took, in order. *)
Record MailboxRun := mkRun {
  mr_observer : BestEffortObserver;
  mr_offered : list Envelope;
  mr_accepted : list Envelope;
  mr_received : list Envelope
}.

Definition mailbox_step (m : MailboxRun) (op : observer_op) : MailboxRun :=
  let o := mr_observer m in
  match op with
  | OPublish e =>
      let '(o', accepted) := TryPublish o e in
      mkRun o' (if obs_closed o then mr_offered m else mr_offered m ++ [e])
        (if accepted then mr_accepted m ++ [e] else mr_accepted m) (mr_received m)
  | OReceive =>
      let '(o', taken) := observer_receive o in
      mkRun o' (mr_offered m) (mr_accepted m) (mr_received m ++ option_list taken)
  | OClose => mkRun (observer_Close o) (mr_offered m) (mr_accepted m) (mr_received m)
  end.

Record mailbox_inv (capacity : Z) (filter : BestEffortFilter) (m : MailboxRun) : Prop := {
  mi_capacity : obs_capacity (mr_observer m) = capacity;
  mi_filter : obs_filter (mr_observer m) = filter;
  mi_bound : lenZ (obs_events (mr_observer m)) <= capacity;
  mi_fifo : mr_accepted m = mr_received m ++ obs_events (mr_observer m);
  mi_sublist : mr_accepted m `sublist_of` mr_offered m;
  mi_admitted : Forall (fun e => excludes filter (env_kind e) = false) (mr_accepted m);
  mi_filtered : obs_filtered (mr_observer m)
    = u64 (lenZ (List.filter (fun e => excludes filter (env_kind e)) (mr_offered m)));
  mi_dropped : obs_dropped (mr_observer m)
    = u64 (lenZ (mr_offered m) - lenZ (mr_accepted m)
           - lenZ (List.filter (fun e => excludes filter (env_kind e)) (mr_offered m)))
}.

Lemma mailbox_step_inv capacity filter m op :
  mailbox_inv capacity filter m -> mailbox_inv capacity filter (mailbox_step m op).
Proof.
  intros [Hc Hf Hb Hq Hsub Ha Hfl Hd]. destruct m as [o off acc rcv]; simpl in *. destruct op as [e| |]; simpl.
  - unfold TryPublish. destruct (obs_closed o) eqn:Ec; [by split|].
    rewrite Hf. destruct (excludes filter (env_kind e)) eqn:Ee; [|destruct (_ <? _) eqn:El; bprop].
    all: split; simpl; auto; rewrite ?List.filter_app; simpl; rewrite ?Ee; autorewrite with spice.
    all: rewrite ?Hc in *; try lia.
    all: try (by apply sublist_inserts_r); try (by apply sublist_app).
    all: try (by rewrite Hq, <- app_assoc).
    all: try (apply Forall_app; split; [done|by constructor]).
    all: try (rewrite Hfl || rewrite Hd); rewrite ?u64_add_l; f_equal; try lia.
  - unfold observer_receive. destruct (obs_events o) as [|e rest] eqn:Eo; simpl.
    + split; simpl; rewrite ?app_nil_r; auto; by rewrite Eo.
    + split; simpl; auto; rewrite ?lenZ_cons in *; try lia. by rewrite Hq, <- app_assoc.
  - by split.
Qed.

Lemma mailbox_run_inv capacity filter ops m :
  mailbox_inv capacity filter m -> mailbox_inv capacity filter (foldl mailbox_step m ops).
Proof. revert m. induction ops; simpl; auto using mailbox_step_inv. Qed.

(** ** Properties *)

(** A best-effort mailbox, under any interleaving of publishes, receives
    and closes: it never holds more than its capacity, its consumer receives
    what was accepted in order and without loss, no excluded kind is ever
    accepted, and every envelope offered while it was open is accounted for as
    accepted, dropped or filtered. *)
Theorem best_effort_mailbox capacity filter o ops :
  NewFilteredBestEffortObserver capacity filter = Ok o ->
  let m := foldl mailbox_step (mkRun o [] [] []) ops in
  let rejected := List.filter (fun e => excludes filter (env_kind e)) (mr_offered m) in
  lenZ (obs_events (mr_observer m)) <= capacity
  /\ mr_accepted m = mr_received m ++ obs_events (mr_observer m)
  /\ mr_accepted m `sublist_of` mr_offered m
  /\ Forall (fun e => excludes filter (env_kind e) = false) (mr_accepted m)
  /\ obs_filtered (mr_observer m) = u64 (lenZ rejected)
  /\ obs_dropped (mr_observer m) = u64 (lenZ (mr_offered m) - lenZ (mr_accepted m) - lenZ rejected).
Proof.
  intros H m rejected. unfold NewFilteredBestEffortObserver in H.
  repeat (split_match_in H; try discriminate). bprop. injection H as Ho.
  assert (mailbox_inv capacity filter m) as []; [|done].
  apply mailbox_run_inv. subst o. split; simpl; auto; unfold lenZ; simpl; try lia.
Qed.

Lemma best_effort_mailbox_witness :
  let e kind := mkEnvelope "run-1" 1 (mkTime 1700000000 0 0) kind "" in
  let ops := [OPublish (e ModelDelta); OPublish (e ToolProgress); OPublish (e RunStarted);
              OReceive; OPublish (e RunFailed); OClose; OPublish (e RunCompleted); OReceive] in
  exists o, NewFilteredBestEffortObserver 1 {[ModelDelta]} = Ok o
    /\ obs_filtered (mr_observer (foldl mailbox_step (mkRun o [] [] []) ops)) = 1
    /\ mr_received (foldl mailbox_step (mkRun o [] [] []) ops) = [e ToolProgress; e RunFailed].
Proof.
  intros e ops.
  destruct (NewFilteredBestEffortObserver 1 {[ModelDelta]}) as [o|] eqn:Eo;
    [|vm_compute in Eo; discriminate].
  exists o. split; [done|].
  destruct (best_effort_mailbox 1 {[ModelDelta]} o ops Eo) as (_ & _ & _ & _ & Hf & _).
  rewrite Hf. vm_compute in Eo. injection Eo as <-. split; vm_compute; reflexivity.
Defined.
