(* ===== verification/EventLog.v ===== *)
(** Package [event], file [log.go]: the authoritative per-run replay log, its
    replay pages, and the independent bounded subscriptions with their delivery
    goroutine.

    A [LogWorld] holds the log, the heap of subscriptions ever registered and,
    as a ghost, every envelope committed since the log was created.  Each
    critical section of the code (a method body under [log.mu] or
    [subscription.mu], one arm of the delivery goroutine's [select]) is one
    function; [log_step] interleaves them. *)

From S2P Require Import Prelude GoText GoJson Event.

(** ** Data *)

Record LogLimits := mkLimits {
  MaxEvents : Z;
  MaxBytes : Z;
  TerminalReserveEvents : Z;
  TerminalReserveBytes : Z;
  SubscriberMaxEvents : Z;
  SubscriberMaxBytes : Z
}.

Definition DefaultLogLimits : LogLimits :=
  mkLimits 8192 33554432 4 16384 1024 4194304.

Record OutOfRange := mkOutOfRange {
  RequestedAfter : Z;
  Earliest : Z;
  Latest : Z;
  RecoveryAfter : Z
}.

Record ResourceExhausted := mkExhausted {
  re_lastDelivered : Z;
  re_maxEvents : Z;
  re_maxBytes : Z;
  re_resource : string;
  re_limit : Z;
  re_observed : Z
}.

Definition nonnegativeUint64 (value : Z) : Z := if value <? 0 then 0 else value.

Inductive LogError :=
| ErrLogRunID
| ErrLogLimits
| ErrLogCursor
| ErrLogClosed
| ErrRunMismatch (event_run log_run : string)
| ErrSequence (sequence last : Z)
| ErrExhausted (failure : ResourceExhausted)
| ErrNilContext
| ErrContext
| ErrReplayMaxEvents (limit : Z)
| ErrReplayMaxBytes (limit : Z)
| ErrOutOfRange (failure : OutOfRange)
| ErrNoProgress
| ErrNoRecoveryEntry.

Record logEntry := mkEntry { le_envelope : Envelope; le_bytes : Z }.

Definition le_seq (entry : logEntry) : Z := env_sequence (le_envelope entry).

Record LogStats := mkStats {
  RetainedEvents : Z;
  RetainedBytes : Z;
  EvictedEvents : Z;
  EvictedBytes : Z;
  AuthoritativeExhaustions : Z;
  SubscriptionExhaustions : Z;
  SlowSubscriberDisconnects : Z
}.

Definition zeroStats : LogStats := mkStats 0 0 0 0 0 0 0.

Record ReplayRequest := mkRequest {
  rq_after : Z;
  rq_maxEvents : Z;
  rq_maxBytes : Z;
  rq_tail : bool
}.

Record ReplayPage := mkPage {
  pg_earliest : Z;
  pg_latest : Z;
  pg_last : Z;
  pg_events : list Envelope;
  pg_hasMore : bool;
  pg_tailing : bool;
  pg_tail : option Z
}.

(** ** Subscriptions *)

Inductive SubError := SubCanceled | SubExhausted (failure : ResourceExhausted).

(** Where the delivery goroutine stands: at the top of its loop, in the
    [select] holding an entry, past a completed send, or returned. *)
Inductive deliver_pc :=
| DIdle
| DSending (entry : logEntry)
| DSent (entry : logEntry)
| DDone.

Record Subscription := mkSub {
  sub_ctxDone : bool;
  sub_queue : list logEntry;
  sub_queuedBytes : Z;
  sub_maxEvents : Z;
  sub_maxBytes : Z;
  sub_terminal : bool;
  sub_err : option SubError;
  sub_lastDelivered : Z;
  sub_abort : bool;
  sub_pc : deliver_pc;
  sub_after : Z;
  sub_received : list Envelope
}.

Record Log := mkLog {
  log_runID : string;
  log_limits : LogLimits;
  log_entries : list logEntry;
  log_bytes : Z;
  log_lastSequence : Z;
  log_closed : bool;
  log_nextSubID : Z;
  log_subscribers : gset Z;
  log_stats : LogStats
}.

Record LogWorld := mkWorld {
  w_log : Log;
  w_subs : gmap Z Subscription;
  w_history : list Envelope
}.

(** ** Construction *)

Definition limits_valid (limits : LogLimits) : bool :=
  negb ((MaxEvents limits <? 2) || (MaxBytes limits <? 1024)
        || (TerminalReserveEvents limits <? 1) || (TerminalReserveEvents limits >=? MaxEvents limits)
        || (TerminalReserveBytes limits <? 1) || (TerminalReserveBytes limits >=? MaxBytes limits)
        || (SubscriberMaxEvents limits <? 1) || (SubscriberMaxBytes limits <? 1)).

Definition NewLogAfter (runID : string) (lastSequence : Z) (limits : LogLimits)
  : result LogError Log :=
  if negb (trimmed_nonempty runID) then Err ErrLogRunID
  else if negb (limits_valid limits) then Err ErrLogLimits
  else if lastSequence =? maxUint64 then Err ErrLogCursor
  else Ok (mkLog runID limits [] 0 lastSequence false 0 ∅ zeroStats).

Definition NewLog (runID : string) (limits : LogLimits) : result LogError Log :=
  NewLogAfter runID 0 limits.

(** ** Subscription operations *)

Definition terminateLocked (s : Subscription) (err : SubError) : Subscription :=
  if sub_terminal s then s
  else mkSub (sub_ctxDone s) [] 0 (sub_maxEvents s) (sub_maxBytes s) true (Some err)
         (sub_lastDelivered s) true (sub_pc s) (sub_after s) (sub_received s).

(** [finish(nil)], the only use of [finish] in the code. *)
Definition finish (s : Subscription) : Subscription :=
  if sub_terminal s then s
  else mkSub (sub_ctxDone s) (sub_queue s) (sub_queuedBytes s) (sub_maxEvents s) (sub_maxBytes s)
         true None (sub_lastDelivered s) (sub_abort s) (sub_pc s) (sub_after s) (sub_received s).

Definition newSubscription (ctxDone : bool) (after : Z) (limits : LogLimits)
  (replay : list logEntry) : Subscription :=
  mkSub ctxDone replay (sumZ le_bytes replay) (SubscriberMaxEvents limits)
    (SubscriberMaxBytes limits) false None after false DIdle after [].

Definition offer (s : Subscription) (entry : logEntry) : Subscription * bool :=
  if sub_terminal s then (s, false)
  else if lenZ (sub_queue s) >=? sub_maxEvents s then
    (terminateLocked s (SubExhausted (mkExhausted (sub_lastDelivered s) (sub_maxEvents s)
       (sub_maxBytes s) "event_subscription_events" (nonnegativeUint64 (sub_maxEvents s))
       (nonnegativeUint64 (lenZ (sub_queue s)) +64 1))), true)
  else if (le_bytes entry >? sub_maxBytes s)
          || (sub_queuedBytes s >? sub_maxBytes s - le_bytes entry) then
    (terminateLocked s (SubExhausted (mkExhausted (sub_lastDelivered s) (sub_maxEvents s)
       (sub_maxBytes s) "event_subscription_bytes" (nonnegativeUint64 (sub_maxBytes s))
       (nonnegativeUint64 (sub_queuedBytes s) +64 nonnegativeUint64 (le_bytes entry)))), true)
  else
    (mkSub (sub_ctxDone s) (sub_queue s ++ [entry]) (sub_queuedBytes s + le_bytes entry)
       (sub_maxEvents s) (sub_maxBytes s) (sub_terminal s) (sub_err s) (sub_lastDelivered s)
       (sub_abort s) (sub_pc s) (sub_after s) (sub_received s), false).

(** The arms of the delivery goroutine; [None] when the arm is not enabled. *)
Inductive deliver_action := ATake | ASend | AAbort | ACtx | AAck.

Definition with_pc (s : Subscription) (pc : deliver_pc) : Subscription :=
  mkSub (sub_ctxDone s) (sub_queue s) (sub_queuedBytes s) (sub_maxEvents s) (sub_maxBytes s)
    (sub_terminal s) (sub_err s) (sub_lastDelivered s) (sub_abort s) pc (sub_after s)
    (sub_received s).

(** The exhaustion error object is shared with the subscriber: its
    [LastDelivered] is rewritten after every accepted send. *)
Definition refresh_err (err : option SubError) (lastDelivered : Z) : option SubError :=
  match err with
  | Some (SubExhausted r) =>
      Some (SubExhausted (mkExhausted lastDelivered (re_maxEvents r) (re_maxBytes r)
        (re_resource r) (re_limit r) (re_observed r)))
  | _ => err
  end.

Definition deliver (action : deliver_action) (s : Subscription) : option Subscription :=
  match action, sub_pc s with
  | ATake, DIdle =>
      match sub_queue s with
      | entry :: _ => Some (with_pc s (DSending entry))
      | [] => if sub_terminal s then Some (with_pc s DDone) else None
      end
  | ASend, DSending entry =>
      Some (mkSub (sub_ctxDone s) (sub_queue s) (sub_queuedBytes s) (sub_maxEvents s)
        (sub_maxBytes s) (sub_terminal s) (sub_err s) (sub_lastDelivered s) (sub_abort s)
        (DSent entry) (sub_after s) (sub_received s ++ [le_envelope entry]))
  | AAbort, DSending _ => if sub_abort s then Some (with_pc s DDone) else None
  | ACtx, DSending _ =>
      if sub_ctxDone s then Some (with_pc (terminateLocked s SubCanceled) DDone) else None
  | AAck, DSent entry =>
      let pop :=
        match sub_queue s with
        | head :: _ => le_seq head =? le_seq entry
        | [] => false
        end in
      Some (mkSub (sub_ctxDone s)
        (if pop then tail (sub_queue s) else sub_queue s)
        (if pop then sub_queuedBytes s - le_bytes entry else sub_queuedBytes s)
        (sub_maxEvents s) (sub_maxBytes s) (sub_terminal s)
        (refresh_err (sub_err s) (le_seq entry)) (le_seq entry) (sub_abort s) DIdle
        (sub_after s) (sub_received s))
  | _, _ => None
  end.

(** What [Wait] may return: several entries when its [select] has several
    ready cases, none while it blocks.  The goroutine closes [done] when it
    returns. *)
Inductive WaitResult := WaitNilContext | WaitContextErr | WaitErr (err : option SubError).

Definition Subscription_Wait (ctx : ctx_arg) (s : Subscription) : list WaitResult :=
  match ctx with
  | CtxNil => [WaitNilContext]
  | _ => (match ctx with CtxDone => [WaitContextErr] | _ => [] end)
         ++ (match sub_pc s with DDone => [WaitErr (sub_err s)] | _ => [] end)
  end.

Definition LastDelivered (s : Subscription) : Z := sub_lastDelivered s.

(** ** Log operations *)

(** The eviction loop of [Append]; [None] is the index panic of
    [log.entries[0]] on an empty log. *)
Fixpoint evict (maxEvents maxBytes size : Z) (entries : list logEntry) (bytes : Z)
  (stats : LogStats) : option (list logEntry * Z * LogStats) :=
  if (lenZ entries >=? maxEvents) || (bytes >? maxBytes - size) then
    match entries with
    | [] => None
    | e :: rest =>
        evict maxEvents maxBytes size rest (bytes - le_bytes e)
          (mkStats (RetainedEvents stats) (RetainedBytes stats) (EvictedEvents stats +64 1)
             (EvictedBytes stats +64 le_bytes e) (AuthoritativeExhaustions stats)
             (SubscriptionExhaustions stats) (SlowSubscriberDisconnects stats))
    end
  else Some (entries, bytes, stats).

Definition add_authoritative (stats : LogStats) : LogStats :=
  mkStats (RetainedEvents stats) (RetainedBytes stats) (EvictedEvents stats) (EvictedBytes stats)
    (AuthoritativeExhaustions stats +64 1) (SubscriptionExhaustions stats)
    (SlowSubscriberDisconnects stats).
Definition add_subscription (stats : LogStats) : LogStats :=
  mkStats (RetainedEvents stats) (RetainedBytes stats) (EvictedEvents stats) (EvictedBytes stats)
    (AuthoritativeExhaustions stats) (SubscriptionExhaustions stats +64 1)
    (SlowSubscriberDisconnects stats).
Definition add_slow (stats : LogStats) (n : Z) : LogStats :=
  mkStats (RetainedEvents stats) (RetainedBytes stats) (EvictedEvents stats) (EvictedBytes stats)
    (AuthoritativeExhaustions stats) (SubscriptionExhaustions stats)
    (SlowSubscriberDisconnects stats +64 n).

Definition with_stats (log : Log) (stats : LogStats) : Log :=
  mkLog (log_runID log) (log_limits log) (log_entries log) (log_bytes log) (log_lastSequence log)
    (log_closed log) (log_nextSubID log) (log_subscribers log) stats.

Definition offer_all (log : Log) (entry : logEntry) (subs : gmap Z Subscription)
  : gmap Z Subscription :=
  map_imap (fun id s =>
    Some (if bool_decide (id ∈ log_subscribers log) then fst (offer s entry) else s)) subs.

Definition slow_count (log : Log) (entry : logEntry) (subs : gmap Z Subscription) : Z :=
  lenZ (List.filter (fun id =>
    match subs !! id with Some s => snd (offer s entry) | None => false end)
    (elements (log_subscribers log))).

(** The bounds an event is admitted under: non-terminal events leave the
    terminal reserve free. *)
Definition admission_bounds (limits : LogLimits) (envelope : Envelope) : Z * Z :=
  if Terminal envelope then (MaxEvents limits, MaxBytes limits)
  else (MaxEvents limits - TerminalReserveEvents limits,
        MaxBytes limits - TerminalReserveBytes limits).

(** [None] is a panic of the eviction loop. *)
Definition Log_Append (w : LogWorld) (envelope : Envelope) : option (LogWorld * option LogError) :=
  let log := w_log w in
  let size := EncodedSize envelope in
  if log_closed log then Some (w, Some ErrLogClosed)
  else if negb (String.eqb (env_runID envelope) (log_runID log))
  then Some (w, Some (ErrRunMismatch (env_runID envelope) (log_runID log)))
  else if (log_lastSequence log =? maxUint64)
          || negb (env_sequence envelope =? (log_lastSequence log +64 1))
  then Some (w, Some (ErrSequence (env_sequence envelope) (log_lastSequence log)))
  else
    let '(maxEvents, maxBytes) := admission_bounds (log_limits log) envelope in
    if size >? maxBytes then
      Some (mkWorld (with_stats log (add_authoritative (log_stats log))) (w_subs w) (w_history w),
            Some (ErrExhausted (mkExhausted (log_lastSequence log) maxEvents maxBytes
              "event_log_bytes" (nonnegativeUint64 maxBytes) (nonnegativeUint64 size))))
    else
      match evict maxEvents maxBytes size (log_entries log) (log_bytes log) (log_stats log) with
      | None => None
      | Some (entries, bytes, stats) =>
          let entry := mkEntry envelope size in
          let log' := mkLog (log_runID log) (log_limits log) (entries ++ [entry]) (bytes + size)
            (env_sequence envelope) (log_closed log) (log_nextSubID log) (log_subscribers log)
            (add_slow stats (slow_count log entry (w_subs w))) in
          Some (mkWorld log' (offer_all log entry (w_subs w)) (w_history w ++ [envelope]), None)
      end.

Definition Stats (log : Log) : LogStats :=
  mkStats (lenZ (log_entries log)) (log_bytes log) (EvictedEvents (log_stats log))
    (EvictedBytes (log_stats log)) (AuthoritativeExhaustions (log_stats log))
    (SubscriptionExhaustions (log_stats log)) (SlowSubscriberDisconnects (log_stats log)).

Definition boundsLocked (log : Log) : Z * Z :=
  match log_entries log with
  | [] => if log_lastSequence log =? maxUint64 then (maxUint64, maxUint64)
          else (log_lastSequence log +64 1, log_lastSequence log)
  | e :: _ => (le_seq e, log_lastSequence log)
  end.

Definition replayCursorOutside (after earliest latest : Z) : bool :=
  if earliest =? (latest +64 1) then negb (after =? latest)
  else (after >? latest) || (after <? (earliest -64 1)).

(** The selection loop of [replayPageLocked]. *)
Fixpoint page_loop (request : ReplayRequest) (rest taken : list logEntry) (bytes last : Z)
  : result ResourceExhausted (list logEntry * Z) :=
  match rest with
  | [] => Ok (taken, last)
  | e :: rest' =>
      if le_seq e <=? rq_after request then page_loop request rest' taken bytes last
      else if lenZ taken =? rq_maxEvents request then Ok (taken, last)
      else if (le_bytes e >? rq_maxBytes request) || (bytes >? rq_maxBytes request - le_bytes e)
      then if lenZ taken =? 0
           then Err (mkExhausted (rq_after request) (rq_maxEvents request) (rq_maxBytes request)
                  "event_replay_bytes" (nonnegativeUint64 (rq_maxBytes request))
                  (nonnegativeUint64 (le_bytes e)))
           else Ok (taken, last)
      else page_loop request rest' (taken ++ [e]) (bytes + le_bytes e) (le_seq e)
  end.

Definition replayPageLocked (log : Log) (request : ReplayRequest)
  : Log * result LogError (list logEntry * ReplayPage) :=
  let '(earliest, latest) := boundsLocked log in
  let after := rq_after request in
  if replayCursorOutside after earliest latest then
    let recovery := if after <? earliest then earliest -64 1 else latest in
    (log, Err (ErrOutOfRange (mkOutOfRange after earliest latest recovery)))
  else
    match page_loop request (log_entries log) [] 0 after with
    | Err r => (with_stats log (add_subscription (log_stats log)), Err (ErrExhausted r))
    | Ok (entries, last) =>
        if last <? latest then
          if lenZ entries =? 0 then (log, Err ErrNoProgress)
          else (log, Ok (entries, mkPage earliest latest last [] true false None))
        else (log, Ok (entries, mkPage earliest latest last [] false false None))
    end.

Definition registerSubscriptionLocked (w : LogWorld) (ctxDone : bool) (after : Z)
  (replay : list logEntry) : LogWorld * Z :=
  let log := w_log w in
  let id := log_nextSubID log + 1 in
  let s := newSubscription ctxDone after (log_limits log) replay in
  let '(s', subscribers) :=
    if log_closed log then (finish s, log_subscribers log)
    else (s, {[id]} ∪ log_subscribers log) in
  (mkWorld (mkLog (log_runID log) (log_limits log) (log_entries log) (log_bytes log)
      (log_lastSequence log) (log_closed log) id subscribers (log_stats log))
     (<[id := s']> (w_subs w)) (w_history w), id).

Definition with_log (w : LogWorld) (log : Log) : LogWorld :=
  mkWorld log (w_subs w) (w_history w).

Definition Log_Replay (w : LogWorld) (ctx : ctx_arg) (request : ReplayRequest)
  : LogWorld * result LogError ReplayPage :=
  let log := w_log w in
  match ctx with
  | CtxNil => (w, Err ErrNilContext)
  | CtxDone => (w, Err ErrContext)
  | CtxLive =>
    if (rq_maxEvents request <? 1) || (rq_maxEvents request >? SubscriberMaxEvents (log_limits log))
    then (w, Err (ErrReplayMaxEvents (SubscriberMaxEvents (log_limits log))))
    else if (rq_maxBytes request <? 1) || (rq_maxBytes request >? SubscriberMaxBytes (log_limits log))
    then (w, Err (ErrReplayMaxBytes (SubscriberMaxBytes (log_limits log))))
    else
      match replayPageLocked log request with
      | (log', Err e) => (with_log w log', Err e)
      | (log', Ok (entries, page)) =>
          let events := map le_envelope entries in
          if rq_tail request && negb (pg_hasMore page) && negb (log_closed log) then
            let '(w', id) := registerSubscriptionLocked (with_log w log') false (pg_last page) [] in
            (w', Ok (mkPage (pg_earliest page) (pg_latest page) (pg_last page) events
                       (pg_hasMore page) true (Some id)))
          else
            (with_log w log', Ok (mkPage (pg_earliest page) (pg_latest page) (pg_last page) events
                       (pg_hasMore page) false None))
      end
  end.

(** The first retained entry after [lastDelivered], as the scan of
    [replayExhaustionLocked] finds it. *)
Fixpoint first_after (entries : list logEntry) (lastDelivered : Z) : option logEntry :=
  match entries with
  | [] => None
  | e :: rest => if le_seq e >? lastDelivered then Some e else first_after rest lastDelivered
  end.

Definition replayExhaustionLocked (log : Log) (lastDelivered : Z) (replay : list logEntry)
  : result LogError ResourceExhausted :=
  let limits := log_limits log in
  if lenZ replay >=? SubscriberMaxEvents limits then
    Ok (mkExhausted lastDelivered (SubscriberMaxEvents limits) (SubscriberMaxBytes limits)
          "event_replay_events" (nonnegativeUint64 (SubscriberMaxEvents limits))
          (nonnegativeUint64 (lenZ replay) +64 1))
  else
    let queuedBytes := foldl (fun acc e => acc +64 nonnegativeUint64 (le_bytes e)) 0 replay in
    match first_after (log_entries log) lastDelivered with
    | Some e =>
        Ok (mkExhausted lastDelivered (SubscriberMaxEvents limits) (SubscriberMaxBytes limits)
              "event_replay_bytes" (nonnegativeUint64 (SubscriberMaxBytes limits))
              (queuedBytes +64 nonnegativeUint64 (le_bytes e)))
    | None => Err ErrNoRecoveryEntry
    end.

Definition Log_Subscribe (w : LogWorld) (ctx : ctx_arg) (afterSequence : Z)
  : LogWorld * result LogError Z :=
  let log := w_log w in
  match ctx with
  | CtxNil => (w, Err ErrNilContext)
  | CtxDone => (w, Err ErrContext)
  | CtxLive =>
    match replayPageLocked log (mkRequest afterSequence (SubscriberMaxEvents (log_limits log))
                                  (SubscriberMaxBytes (log_limits log)) true) with
    | (log', Err e) => (with_log w log', Err e)
    | (log', Ok (replay, page)) =>
        if pg_hasMore page then
          let log'' := with_stats log' (add_subscription (log_stats log')) in
          (with_log w log'',
           match replayExhaustionLocked log'' (pg_last page) replay with
           | Ok r => Err (ErrExhausted r)
           | Err e => Err e
           end)
        else
          let '(w', id) := registerSubscriptionLocked (with_log w log') false afterSequence replay in
          (w', Ok id)
    end
  end.

Definition Log_Close (w : LogWorld) : LogWorld :=
  let log := w_log w in
  if log_closed log then w
  else mkWorld (mkLog (log_runID log) (log_limits log) (log_entries log) (log_bytes log)
                  (log_lastSequence log) true (log_nextSubID log) (log_subscribers log)
                  (log_stats log))
         (map_imap (fun id s =>
            Some (if bool_decide (id ∈ log_subscribers log) then finish s else s)) (w_subs w))
         (w_history w).

(** One arm of a delivery goroutine; on return [onDone] unregisters it. *)
Definition world_deliver (action : deliver_action) (id : Z) (w : LogWorld) : option LogWorld :=
  match w_subs w !! id with
  | None => None
  | Some s =>
      match deliver action s with
      | None => None
      | Some s' =>
          let log := w_log w in
          let log' :=
            match sub_pc s' with
            | DDone =>
                mkLog (log_runID log) (log_limits log) (log_entries log) (log_bytes log)
                  (log_lastSequence log) (log_closed log) (log_nextSubID log)
                  (log_subscribers log ∖ {[id]}) (log_stats log)
            | _ => log
            end in
          Some (mkWorld log' (<[id := s']> (w_subs w)) (w_history w))
      end
  end.

(** The consumer cancels its context; the registered [AfterFunc] then runs
    [terminate]. *)
Definition cancel_context (id : Z) (w : LogWorld) : LogWorld :=
  mkWorld (w_log w)
    (alter (fun s => mkSub true (sub_queue s) (sub_queuedBytes s) (sub_maxEvents s)
       (sub_maxBytes s) (sub_terminal s) (sub_err s) (sub_lastDelivered s) (sub_abort s)
       (sub_pc s) (sub_after s) (sub_received s)) id (w_subs w))
    (w_history w).
Definition context_after_func (id : Z) (w : LogWorld) : LogWorld :=
  mkWorld (w_log w)
    (alter (fun s => if sub_ctxDone s then terminateLocked s SubCanceled else s) id (w_subs w))
    (w_history w).

Inductive log_step : LogWorld -> LogWorld -> Prop :=
| step_append w envelope w' r :
    Log_Append w envelope = Some (w', r) -> log_step w w'
| step_replay w ctx request :
    log_step w (fst (Log_Replay w ctx request))
| step_subscribe w ctx after :
    log_step w (fst (Log_Subscribe w ctx after))
| step_close w : log_step w (Log_Close w)
| step_deliver w action id w' :
    world_deliver action id w = Some w' -> log_step w w'
| step_cancel w id : log_step w (cancel_context id w)
| step_after_func w id : log_step w (context_after_func id w).

(** Worlds reachable from a fresh log continuing after [base]. *)
Definition log_reachable (runID : string) (base : Z) (limits : LogLimits) (w : LogWorld) : Prop :=
  exists log, NewLogAfter runID base limits = Ok log
              /\ rtc log_step (mkWorld log ∅ []) w.

(** ** The invariant *)

Definition entry_ok (e : logEntry) : Prop := le_bytes e = EncodedSize (le_envelope e).

(** What has been handed to a consumer, what it still waits for and what the
    goroutine holds, against the committed history after the cursor. *)
Definition sub_position (s : Subscription) (post : list Envelope) : Prop :=
  match sub_pc s with
  | DIdle => sub_abort s = false -> map le_envelope (sub_queue s) = post
  | DSending e =>
      exists post', post = le_envelope e :: post'
        /\ (sub_abort s = false ->
            exists q, sub_queue s = e :: q /\ map le_envelope q = post')
  | DSent e =>
      (exists r, sub_received s = r ++ [le_envelope e])
      /\ (sub_abort s = false -> exists q, sub_queue s = e :: q /\ map le_envelope q = post)
  | DDone => sub_terminal s = true /\ (sub_err s = None -> sub_ctxDone s = false -> post = [])
  end.

Definition in_flight (s : Subscription) : Z :=
  match sub_pc s with DSent _ => 1 | _ => 0 end.

Record sub_inv (base : Z) (history : list Envelope) (s : Subscription) : Prop := {
  si_segment : exists pre post,
    history = pre ++ sub_received s ++ post
    /\ lenZ pre = sub_after s - base
    /\ sub_position s post;
  si_sizes : Forall entry_ok (sub_queue s);
  si_bytes : sub_queuedBytes s = sumZ le_bytes (sub_queue s);
  si_bounds : lenZ (sub_queue s) <= sub_maxEvents s /\ sub_queuedBytes s <= sub_maxBytes s;
  si_abort : sub_abort s = true <-> sub_terminal s = true /\ sub_err s <> None;
  si_aborted : sub_abort s = true -> sub_queue s = [];
  si_live : sub_terminal s = false -> sub_err s = None;
  si_last : sub_lastDelivered s = sub_after s + lenZ (sub_received s) - in_flight s;
  si_exhausted : forall r, sub_err s = Some (SubExhausted r) ->
    re_lastDelivered r = sub_lastDelivered s
}.

Record log_inv (base : Z) (w : LogWorld) : Prop := {
  li_limits : limits_valid (log_limits (w_log w)) = true;
  li_base : 0 <= base < maxUint64;
  li_last : log_lastSequence (w_log w) = base + lenZ (w_history w);
  li_max : log_lastSequence (w_log w) <= maxUint64;
  li_history : map env_sequence (w_history w) = seqZ (base + 1) (lenZ (w_history w));
  li_retained : exists evicted, w_history w = evicted ++ map le_envelope (log_entries (w_log w));
  li_nonempty : log_entries (w_log w) = [] -> w_history w = [];
  li_sizes : Forall entry_ok (log_entries (w_log w));
  li_bytes : log_bytes (w_log w) = sumZ le_bytes (log_entries (w_log w));
  li_count_max : lenZ (log_entries (w_log w)) <= MaxEvents (log_limits (w_log w));
  li_bytes_max : log_bytes (w_log w) <= MaxBytes (log_limits (w_log w));
  li_ids : forall id, is_Some (w_subs w !! id) -> id <= log_nextSubID (w_log w);
  li_registered : forall id s, w_subs w !! id = Some s -> sub_terminal s = false ->
    id ∈ log_subscribers (w_log w) /\ log_closed (w_log w) = false;
  li_finished : forall id s, w_subs w !! id = Some s ->
    sub_terminal s = true -> sub_abort s = false -> log_closed (w_log w) = true;
  li_subs : forall id s, w_subs w !! id = Some s -> sub_inv base (w_history w) s
}.

(** ** Subscription lemmas *)

Lemma terminateLocked_inv base h s err :
  sub_inv base h s ->
  (forall r, err = SubExhausted r -> re_lastDelivered r = sub_lastDelivered s) ->
  sub_inv base h (terminateLocked s err).
Proof.
  intros Hs Herr. unfold terminateLocked. destruct (sub_terminal s) eqn:Et; [done|].
  destruct Hs as [(pre & post & Hh & Hpre & Hpos) Hsz Hby [Hb1 Hb2] Hab Haq Hlive Hlast Hex].
  assert (sub_abort s = false) as Ea.
  { destruct (sub_abort s); [|done]. destruct Hab as [Hab _].
    destruct Hab as [? _]; [done|congruence]. }
  split; simpl; auto.
  - exists pre, post. split; [done|]. split; [done|].
    unfold sub_position in *; simpl. destruct (sub_pc s); try done.
    + destruct Hpos as (post' & -> & _). exists post'. split; [done|]. done.
    + destruct Hpos as ((r & Hr) & _). split; [by exists r|]. done.
  - pose proof (lenZ_nonneg (sub_queue s)).
    assert (0 <= sumZ le_bytes (sub_queue s)).
    { apply sumZ_nonneg. eapply Forall_impl; [exact Hsz|]. intros e He.
      rewrite He. pose proof (EncodedSize_pos (le_envelope e)). lia. }
    rewrite lenZ_nil. lia.
  - done.
  - discriminate.
  - intros r [= Hr]. by apply Herr.

Qed.

Lemma offer_live base h s entry :
  sub_inv base h s -> sub_terminal s = false -> entry_ok entry ->
  sub_inv base (h ++ [le_envelope entry]) (fst (offer s entry)).
Proof.
  intros Hs Et He. unfold offer. rewrite Et.
  assert (forall err, (forall r, err = SubExhausted r -> re_lastDelivered r = sub_lastDelivered s) ->
    sub_inv base (h ++ [le_envelope entry]) (terminateLocked s err)) as Hterm.
  { intros err Herr. pose proof (terminateLocked_inv _ _ _ _ Hs Herr) as Hi.
    unfold terminateLocked in *. rewrite Et in *.
    destruct Hi as [(pre & post & Hh & Hpre & Hpos) Hsz Hby Hb Hab Haq Hlive Hlast Hex].
    split; try done. exists pre, (post ++ [le_envelope entry]).
    split; [rewrite Hh; by rewrite <- !app_assoc|]. split; [done|].
    unfold sub_position in *; simpl in *. destruct (sub_pc s); try done.
    - destruct Hpos as (post' & -> & _). by exists (post' ++ [le_envelope entry]).
    - destruct Hpos as ((r & Hr) & _). split; [by exists r|]. done. }
  destruct (lenZ (sub_queue s) >=? sub_maxEvents s) eqn:E1; [apply Hterm; intros r [= <-]; done|].
  destruct ((le_bytes entry >? sub_maxBytes s) || _) eqn:E2; [apply Hterm; intros r [= <-]; done|].
  bprop. destruct Hs as [(pre & post & Hh & Hpre & Hpos) Hsz Hby [Hb1 Hb2] Hab Haq Hlive Hlast Hex].
  assert (sub_abort s = false) as Ea.
  { destruct (sub_abort s); [|done]. destruct Hab as [[? _] _]; [done|congruence]. }
  split; simpl; auto.
  - exists pre, (post ++ [le_envelope entry]).
    split; [rewrite Hh; by rewrite <- !app_assoc|]. split; [done|].
    unfold sub_position in *; simpl. destruct (sub_pc s).
    + intros _. rewrite map_app. f_equal. by apply Hpos.
    + destruct Hpos as (post' & -> & Hq). exists (post' ++ [le_envelope entry]).
      split; [done|]. intros _. destruct (Hq Ea) as (q & -> & Hm).
      exists (q ++ [entry]). split; [done|]. rewrite map_app. by f_equal.
    + destruct Hpos as (Hr & Hq). split; [done|]. intros _. destruct (Hq Ea) as (q & -> & Hm).
      exists (q ++ [entry]). split; [done|]. rewrite map_app. by f_equal.
    + destruct Hpos as [Hpos _]. congruence.
  - apply Forall_app_2; [done|]. by constructor.
  - rewrite sumZ_app. simpl. lia.
  - rewrite lenZ_app, lenZ_cons, lenZ_nil. lia.
  - rewrite Ea. split; [done|intros [? _]; done].
  - rewrite Ea. done.
Qed.

Lemma aborted_extend base h s x :
  sub_inv base h s -> sub_abort s = true -> sub_inv base (h ++ [x]) s.
Proof.
  intros [(pre & post & Hh & Hpre & Hpos) Hsz Hby Hb Hab Haq Hlive Hlast Hex] Ea.
  split; try done. exists pre, (post ++ [x]).
  split; [rewrite Hh; by rewrite <- !app_assoc|]. split; [done|].
  unfold sub_position in *. rewrite Ea in *. destruct (sub_pc s); try done.
  - destruct Hpos as (post' & -> & _). by exists (post' ++ [x]).
  - destruct Hpos as (Hr & _). by split.
  - destruct Hpos as [Ht Hn]. split; [done|]. intros Hnone.
    destruct Hab as [[_ Habs] _]; [done|]. congruence.
Qed.

Lemma finish_inv base h s : sub_inv base h s -> sub_inv base h (finish s).
Proof.
  intros Hs. unfold finish. destruct (sub_terminal s) eqn:Et; [done|].
  destruct Hs as [(pre & post & Hh & Hpre & Hpos) Hsz Hby Hb Hab Haq Hlive Hlast Hex].
  split; simpl; auto.
  - exists pre, post. split; [done|]. split; [done|].
    unfold sub_position in *; simpl. destruct (sub_pc s); try done. destruct Hpos; congruence.
  - rewrite Hab, Et. split; [intros [? _]; done|intros [_ ?]; done].
  - done.
Qed.

Definition history_ok (base : Z) (h : list Envelope) : Prop :=
  map env_sequence h = seqZ (base + 1) (lenZ h).

Lemma history_sequence base h l1 x l2 :
  history_ok base h -> h = l1 ++ x :: l2 -> env_sequence x = base + 1 + lenZ l1.
Proof.
  unfold history_ok. intros Hh ->.
  assert (map env_sequence (l1 ++ x :: l2) !! length l1 = Some (env_sequence x)) as Hl.
  { rewrite map_app. rewrite lookup_app_r by (rewrite length_map; lia).
    by rewrite length_map, Nat.sub_diag. }
  rewrite Hh in Hl. apply lookup_seqZ in Hl as [Hl _]. rewrite Hl. unfold lenZ. lia.
Qed.

Lemma history_extend base h x :
  history_ok base h -> env_sequence x = base + lenZ h + 1 -> history_ok base (h ++ [x]).
Proof.
  unfold history_ok. intros Hh Hx. rewrite map_app, Hh, lenZ_app, lenZ_cons, lenZ_nil.
  pose proof (lenZ_nonneg h). rewrite seqZ_app by lia. f_equal.
  change (1 + 0) with 1. rewrite (seqZ_cons _ 1) by lia. simpl.
  rewrite Hx. f_equal. lia.
Qed.

Lemma deliver_take base h s s' :
  sub_inv base h s -> deliver ATake s = Some s' -> sub_inv base h s'.
Proof.
  intros Hs Hd. unfold deliver in Hd. destruct (sub_pc s) eqn:Epc; try discriminate.
  destruct Hs as [(pre & post & Hh & Hpre & Hpos) Hsz Hby Hb Hab Haq Hlive Hlast Hex].
  unfold sub_position, in_flight in *. rewrite Epc in *.
  destruct (sub_queue s) as [|e q] eqn:Eq.
  - destruct (sub_terminal s) eqn:Et; [|discriminate]. injection Hd as <-.
    split; simpl; rewrite ?Eq; auto.
    + exists pre, post. split; [done|]. split; [done|]. unfold sub_position; simpl.
      split; [done|]. intros Hn _. simpl in Hpos. symmetry. apply Hpos.
      destruct (sub_abort s); [|done]. destruct Hab as [[_ Hne] _]; done.
    + rewrite Et. done.
    + rewrite Et. done.
  - injection Hd as <-.
    assert (sub_abort s = false) as Ea by (destruct (sub_abort s); [by specialize (Haq eq_refl)|done]).
    split; simpl; rewrite ?Eq; auto.
    exists pre, post. split; [done|]. split; [done|]. unfold sub_position; simpl.
    rewrite Ea in *. specialize (Hpos eq_refl). simpl in Hpos.
    exists (map le_envelope q). split; [done|]. intros _. rewrite Eq. eauto.
Qed.

Lemma deliver_send base h s s' :
  sub_inv base h s -> deliver ASend s = Some s' -> sub_inv base h s'.
Proof.
  intros Hs Hd. unfold deliver in Hd. destruct (sub_pc s) as [|e| |] eqn:Epc; try discriminate.
  injection Hd as <-.
  destruct Hs as [(pre & post & Hh & Hpre & Hpos) Hsz Hby Hb Hab Haq Hlive Hlast Hex].
  unfold sub_position, in_flight in *. rewrite Epc in *. destruct Hpos as (post' & -> & Hq).
  split; simpl; auto.
  - exists pre, post'. rewrite <- app_assoc. split; [done|]. split; [done|].
    unfold sub_position; simpl. split; [by exists (sub_received s)|]. done.
  - unfold in_flight. simpl. rewrite lenZ_app, lenZ_cons, lenZ_nil. lia.
Qed.

Lemma deliver_stop base h s :
  sub_inv base h s -> sub_terminal s = true -> (exists e, sub_pc s = DSending e) ->
  (sub_abort s = true \/ sub_ctxDone s = true) -> sub_inv base h (with_pc s DDone).
Proof.
  intros [(pre & post & Hh & Hpre & Hpos) Hsz Hby Hb Hab Haq Hlive Hlast Hex] Et [e Epc] Hor.
  unfold in_flight in *. rewrite Epc in *.
  split; simpl; auto. exists pre, post. split; [done|]. split; [done|].
  unfold sub_position; simpl. split; [done|]. intros Hn Hc.
  destruct Hor as [Ha|Hc']; [|congruence]. destruct Hab as [[_ Hne] _]; done.
Qed.

Lemma refresh_err_None err l : refresh_err err l = None <-> err = None.
Proof. destruct err as [[]|]; simpl; naive_solver. Qed.

Lemma refresh_err_last err l r :
  refresh_err err l = Some (SubExhausted r) -> re_lastDelivered r = l.
Proof. destruct err as [[]|]; simpl; [discriminate| |discriminate]. by intros [= <-]. Qed.

Lemma deliver_ack base h s s' :
  history_ok base h -> sub_inv base h s -> deliver AAck s = Some s' -> sub_inv base h s'.
Proof.
  intros Hok Hs Hd. unfold deliver in Hd. destruct (sub_pc s) as [| |e|] eqn:Epc; try discriminate.
  injection Hd as <-.
  destruct Hs as [(pre & post & Hh & Hpre & Hpos) Hsz Hby [Hb1 Hb2] Hab Haq Hlive Hlast Hex].
  unfold sub_position, in_flight in *. rewrite Epc in *. destruct Hpos as ((r & Hr) & Hq).
  assert (le_seq e = sub_after s + lenZ (sub_received s)) as Hseq.
  { unfold le_seq. rewrite (history_sequence base h (pre ++ r) (le_envelope e) post Hok).
    - rewrite Hr. slia.
    - rewrite Hh, Hr. by rewrite <- !app_assoc. }
  destruct (sub_abort s) eqn:Ea.
  - rewrite (Haq eq_refl) in *. split; simpl; auto.
    + exists pre, post. split; [done|]. split; [done|]. done.
    + by rewrite Hab, refresh_err_None.
    + intros Ht. rewrite (Hlive Ht). done.
    + unfold in_flight; simpl. lia.
    + intros x Hx. by eapply refresh_err_last.
  - destruct (Hq eq_refl) as (q & Eq & Hm). rewrite Eq in *. rewrite Z.eqb_refl. simpl.
    inversion Hsz; subst. simpl in *. split; simpl; auto.
    + exists pre, (map le_envelope q). split; [done|]. split; [done|]. done.
    + lia.
    + assert (0 < le_bytes e) by (match goal with H : entry_ok e |- _ => rewrite H end; apply EncodedSize_pos).
      slia.
    + by rewrite Hab, refresh_err_None.
    + done.
    + intros Ht. rewrite (Hlive Ht). done.
    + unfold in_flight; simpl. lia.
    + intros x Hx. by eapply refresh_err_last.
Qed.

Lemma deliver_inv base h action s s' :
  history_ok base h -> sub_inv base h s -> deliver action s = Some s' -> sub_inv base h s'.
Proof.
  intros Hok Hs Hd. destruct action.
  - by eapply deliver_take.
  - by eapply deliver_send.
  - unfold deliver in Hd. destruct (sub_pc s) eqn:Epc; try discriminate.
    destruct (sub_abort s) eqn:Ea; [|discriminate]. injection Hd as <-.
    apply deliver_stop; eauto. by apply (si_abort _ _ _ Hs).
  - unfold deliver in Hd. destruct (sub_pc s) eqn:Epc; try discriminate.
    destruct (sub_ctxDone s) eqn:Ec; [|discriminate]. injection Hd as <-.
    pose proof (terminateLocked_inv _ _ _ SubCanceled Hs ltac:(discriminate)) as Hi.
    apply deliver_stop; auto.
    + unfold terminateLocked. by destruct (sub_terminal s) eqn:E.
    + exists entry. unfold terminateLocked. by destruct (sub_terminal s).
    + right. unfold terminateLocked. by destruct (sub_terminal s).
  - by eapply deliver_ack.
Qed.

(** ** Append *)

Lemma entries_nonneg l : Forall entry_ok l -> Forall (fun e => 0 <= le_bytes e) l.
Proof.
  intros H. eapply Forall_impl; [exact H|]. intros e He. rewrite He.
  pose proof (EncodedSize_pos (le_envelope e)). lia.
Qed.

Lemma entries_sizes l :
  Forall entry_ok l -> sumZ le_bytes l = sumZ (fun e => EncodedSize (le_envelope e)) l.
Proof. induction 1 as [|e l He _ IH]; [done|]. rewrite !sumZ_cons, IH. by rewrite He. Qed.

Definition evicted_stats (stats : LogStats) (gone : list logEntry) : LogStats :=
  foldl (fun st e =>
    mkStats (RetainedEvents st) (RetainedBytes st) (EvictedEvents st +64 1)
      (EvictedBytes st +64 le_bytes e) (AuthoritativeExhaustions st)
      (SubscriptionExhaustions st) (SlowSubscriberDisconnects st)) stats gone.

(** The loop stops with the longest suffix that leaves room for the new
    entry. *)
Lemma evict_spec me mb size entries stats :
  1 <= me -> size <= mb -> Forall entry_ok entries ->
  exists gone kept,
    entries = gone ++ kept
    /\ evict me mb size entries (sumZ le_bytes entries) stats
       = Some (kept, sumZ le_bytes kept, evicted_stats stats gone)
    /\ lenZ kept < me /\ sumZ le_bytes kept + size <= mb
    /\ (forall g x, gone = g ++ [x] ->
          me <= lenZ (x :: kept) \/ mb < sumZ le_bytes (x :: kept) + size).
Proof.
  intros Hme Hsize. revert stats. induction entries as [|e rest IH]; intros stats Hok; cbn [evict].
  - exists [], []. destruct (_ || _) eqn:E.
    + apply orb_true_iff in E as [E|E]; bprop; slia.
    + bprop. repeat split; try slia. intros g x Hg. by destruct g.
  - inversion Hok as [|? ? He Hrest]; subst. destruct (_ || _) eqn:E.
    + destruct (IH (mkStats (RetainedEvents stats) (RetainedBytes stats) (EvictedEvents stats +64 1)
             (EvictedBytes stats +64 le_bytes e) (AuthoritativeExhaustions stats)
             (SubscriptionExhaustions stats) (SlowSubscriberDisconnects stats)) Hrest)
        as (gone & kept & -> & Hev & H1 & H2 & H3).
      exists (e :: gone), kept. split; [done|]. split.
      { rewrite sumZ_cons, Z.add_simpl_l. exact Hev. }
      split; [done|]. split; [done|]. intros g x Hg.
      destruct g as [|e' g]; simplify_eq/=.
      * apply orb_true_iff in E as [E|E]; bprop; [left|right]; simpl in *; slia.
      * by apply (H3 g x).
    + exists [], (e :: rest). bprop. split; [done|]. split; [done|].
      repeat split; try slia. intros g x Hg. by destruct g.
Qed.

Lemma limits_facts limits :
  limits_valid limits = true ->
  2 <= MaxEvents limits /\ 1024 <= MaxBytes limits
  /\ 1 <= TerminalReserveEvents limits < MaxEvents limits
  /\ 1 <= TerminalReserveBytes limits < MaxBytes limits
  /\ 1 <= SubscriberMaxEvents limits /\ 1 <= SubscriberMaxBytes limits.
Proof. unfold limits_valid. intros H. bprop. lia. Qed.

Lemma admission_facts limits envelope me mb :
  limits_valid limits = true -> admission_bounds limits envelope = (me, mb) ->
  1 <= me <= MaxEvents limits /\ 1 <= mb <= MaxBytes limits.
Proof.
  intros Hv H. apply limits_facts in Hv. unfold admission_bounds in H.
  destruct (Terminal envelope); injection H as <- <-; lia.
Qed.

(** Everything [Log_Append] does on a world satisfying the invariant. *)
Inductive append_outcome (w : LogWorld) (envelope : Envelope) : LogWorld -> option LogError -> Prop :=
| append_closed : log_closed (w_log w) = true ->
    append_outcome w envelope w (Some ErrLogClosed)
| append_run : log_closed (w_log w) = false -> env_runID envelope <> log_runID (w_log w) ->
    append_outcome w envelope w (Some (ErrRunMismatch (env_runID envelope) (log_runID (w_log w))))
| append_sequence : log_closed (w_log w) = false -> env_runID envelope = log_runID (w_log w) ->
    (log_lastSequence (w_log w) = maxUint64 \/ env_sequence envelope <> log_lastSequence (w_log w) + 1) ->
    append_outcome w envelope w (Some (ErrSequence (env_sequence envelope) (log_lastSequence (w_log w))))
| append_exhausted me mb w' : log_closed (w_log w) = false -> env_runID envelope = log_runID (w_log w) ->
    log_lastSequence (w_log w) < maxUint64 -> env_sequence envelope = log_lastSequence (w_log w) + 1 ->
    admission_bounds (log_limits (w_log w)) envelope = (me, mb) -> mb < EncodedSize envelope ->
    w' = mkWorld (with_stats (w_log w) (add_authoritative (log_stats (w_log w)))) (w_subs w) (w_history w) ->
    append_outcome w envelope w'
      (Some (ErrExhausted (mkExhausted (log_lastSequence (w_log w)) me mb "event_log_bytes"
         (nonnegativeUint64 mb) (nonnegativeUint64 (EncodedSize envelope)))))
| append_accepted me mb gone kept stats w' : log_closed (w_log w) = false ->
    env_runID envelope = log_runID (w_log w) ->
    log_lastSequence (w_log w) < maxUint64 -> env_sequence envelope = log_lastSequence (w_log w) + 1 ->
    admission_bounds (log_limits (w_log w)) envelope = (me, mb) -> EncodedSize envelope <= mb ->
    log_entries (w_log w) = gone ++ kept ->
    lenZ kept < me -> sumZ le_bytes kept + EncodedSize envelope <= mb ->
    (forall g x, gone = g ++ [x] ->
       me <= lenZ (x :: kept) \/ mb < sumZ le_bytes (x :: kept) + EncodedSize envelope) ->
    w' = mkWorld
      (mkLog (log_runID (w_log w)) (log_limits (w_log w))
         (kept ++ [mkEntry envelope (EncodedSize envelope)])
         (sumZ le_bytes kept + EncodedSize envelope) (env_sequence envelope) false
         (log_nextSubID (w_log w)) (log_subscribers (w_log w)) stats)
      (offer_all (w_log w) (mkEntry envelope (EncodedSize envelope)) (w_subs w))
      (w_history w ++ [envelope]) ->
    append_outcome w envelope w' None.

Lemma append_spec base w envelope :
  log_inv base w -> exists w' r, Log_Append w envelope = Some (w', r) /\ append_outcome w envelope w' r.
Proof.
  intros Hi. unfold Log_Append. destruct (log_closed (w_log w)) eqn:Ec.
  { do 2 eexists. split; [done|]. by constructor. }
  destruct (String.eqb _ _) eqn:Er; simpl; [apply String.eqb_eq in Er|apply String.eqb_neq in Er].
  2:{ do 2 eexists. split; [done|]. by constructor. }
  pose proof (li_max _ _ Hi). pose proof (li_last _ _ Hi). pose proof (li_base _ _ Hi).
  destruct (log_lastSequence (w_log w) =? maxUint64) eqn:Em; simpl; bprop.
  { do 2 eexists. split; [done|]. constructor; auto. }
  rewrite u64_id by (unfold uint64_ok; slia).
  destruct (env_sequence envelope =? _) eqn:Es; simpl; bprop.
  2:{ do 2 eexists. split; [done|]. constructor; auto. }
  destruct (admission_bounds _ _) as [me mb] eqn:Ea.
  destruct (EncodedSize envelope >? mb) eqn:Esz; bprop.
  { do 2 eexists. split; [done|]. eapply append_exhausted; eauto; lia. }
  pose proof (admission_facts _ _ _ _ (li_limits _ _ Hi) Ea).
  destruct (evict_spec me mb (EncodedSize envelope) (log_entries (w_log w)) (log_stats (w_log w)))
    as (gone & kept & Hsplit & Hev & Hk1 & Hk2 & Hmin); [lia|lia|apply Hi|].
  rewrite (li_bytes _ _ Hi), Hev. do 2 eexists. split; [done|].
  eapply append_accepted; eauto; lia.
Qed.

Lemma offer_aborts s e :
  sub_terminal s = false -> sub_terminal (fst (offer s e)) = true -> sub_abort (fst (offer s e)) = true.
Proof.
  unfold offer, terminateLocked. intros E. rewrite E.
  repeat (case_match; simpl); try done.
Qed.

Lemma append_inv base w envelope w' r :
  log_inv base w -> append_outcome w envelope w' r -> log_inv base w'.
Proof.
  intros Hi Ho. destruct Ho; try done; subst w'.
  { destruct Hi. split; auto. }
  pose proof (admission_facts _ _ _ _ (li_limits _ _ Hi) H3).
  set (entry := mkEntry envelope (EncodedSize envelope)) in *.
  destruct Hi as [Hlim Hbase Hlast Hmax Hh [ev Hret] Hne Hsz Hby Hc Hbm Hids Hreg Hfin Hsubs].
  rewrite H5 in Hsz. apply Forall_app in Hsz as [_ Hsz].
  assert (forall id s', offer_all (w_log w) entry (w_subs w) !! id = Some s' ->
    exists s, w_subs w !! id = Some s
      /\ s' = if bool_decide (id ∈ log_subscribers (w_log w)) then fst (offer s entry) else s) as Hoff.
  { intros id s'. unfold offer_all. rewrite map_lookup_imap.
    destruct (w_subs w !! id) as [s|]; simpl; [|done]. intros [= <-]. eauto. }
  split; simpl; auto.
  - slia.
  - lia.
  - apply history_extend; [done|]. slia.
  - exists (ev ++ map le_envelope gone). rewrite Hret, H5, !map_app. by rewrite <- !app_assoc.
  - by destruct kept.
  - apply Forall_app_2; [done|]. constructor; [done|constructor].
  - rewrite sumZ_app. simpl. lia.
  - slia.
  - slia.
  - intros id [s' Hs']. apply Hoff in Hs' as (s & Hs & _). apply Hids. eauto.
  - intros id s' Hs' Ht. apply Hoff in Hs' as (s & Hs & ->). split; [|done].
    destruct (bool_decide _) eqn:Eb; [by apply bool_decide_eq_true in Eb|].
    by apply (Hreg id s).
  - intros id s' Hs' Ht Ha. exfalso. apply Hoff in Hs' as (s & Hs & ->).
    destruct (bool_decide _) eqn:Eb.
    + destruct (sub_terminal s) eqn:Et.
      * unfold offer in Ha, Ht. rewrite Et in *. simpl in *. rewrite (Hfin id s) in H; done.
      * rewrite offer_aborts in Ha; done.
    + rewrite (Hfin id s) in H; done.
  - intros id s' Hs'. apply Hoff in Hs' as (s & Hs & ->). pose proof (Hsubs id s Hs) as Hinv.
    destruct (sub_terminal s) eqn:Et.
    + assert (sub_abort s = true) as Ha.
      { destruct (sub_abort s) eqn:Ea; [done|]. rewrite (Hfin id s) in H; done. }
      pose proof (aborted_extend _ _ _ envelope Hinv Ha).
      unfold offer. rewrite Et. by destruct (bool_decide _).
    + destruct (Hreg id s Hs Et) as [Hin _]. rewrite bool_decide_eq_true_2 by done.
      apply (offer_live base (w_history w) s entry); done.
Qed.

(** ** Replay *)

Lemma history_suffix_seq base h ev l :
  history_ok base h -> h = ev ++ map le_envelope l ->
  map le_seq l = seqZ (base + 1 + lenZ ev) (lenZ l).
Proof.
  unfold history_ok. intros Hh ->.
  rewrite map_app, lenZ_app, seqZ_app in Hh by slia.
  apply app_inj_1 in Hh as [_ Hh].
  2:{ rewrite length_map, length_seqZ. unfold lenZ. lia. }
  rewrite map_map in Hh. unfold le_seq. rewrite Hh. f_equal. unfold lenZ. by rewrite length_map.
Qed.

(** The retained entries split at any cursor of the retained range. *)
Lemma split_at_cursor lo l after :
  map le_seq l = seqZ lo (lenZ l) -> lo - 1 <= after <= lo + lenZ l - 1 ->
  exists skipped visible,
    l = skipped ++ visible
    /\ lenZ skipped = after - lo + 1
    /\ Forall (fun e => le_seq e <= after) skipped
    /\ map le_seq visible = seqZ (after + 1) (lenZ visible).
Proof.
  intros Hl Hr. exists (take (Z.to_nat (after - lo + 1)) l), (drop (Z.to_nat (after - lo + 1)) l).
  assert (lenZ (take (Z.to_nat (after - lo + 1)) l) = after - lo + 1) as Hlen.
  { unfold lenZ in *. rewrite length_take. lia. }
  pose proof (take_drop (Z.to_nat (after - lo + 1)) l) as Htd.
  set (sk := take _ l) in *. set (vi := drop _ l) in *. rewrite <- Htd in Hl.
  rewrite map_app, lenZ_app, seqZ_app in Hl by slia.
  apply app_inj_1 in Hl as [Hs Hv].
  2:{ rewrite length_map, length_seqZ. unfold lenZ. lia. }
  split; [done|]. split; [done|]. split.
  - apply Forall_lookup. intros i e He.
    assert (map le_seq sk !! i = Some (le_seq e)) as Hi by (by rewrite list_lookup_fmap, He).
    rewrite Hs in Hi. apply lookup_seqZ in Hi. lia.
  - rewrite Hv. f_equal. lia.
Qed.

Lemma page_loop_skip request skipped rest taken bytes last :
  Forall (fun e => le_seq e <= rq_after request) skipped ->
  page_loop request (skipped ++ rest) taken bytes last = page_loop request rest taken bytes last.
Proof.
  induction 1 as [|e l He Hl IH]; simpl; [done|].
  assert (le_seq e <=? rq_after request = true) as -> by (apply Z.leb_le; lia). done.
Qed.

(** What the selection loop returns on the entries after the cursor: a
    maximal prefix within both bounds, or the exhaustion of the first entry. *)
Definition page_ok (request : ReplayRequest) (rest taken out : list logEntry) (last' : Z) : Prop :=
  exists more left, out = taken ++ more /\ rest = more ++ left
    /\ lenZ out = last' - rq_after request
    /\ lenZ out <= rq_maxEvents request /\ sumZ le_bytes out <= rq_maxBytes request
    /\ (out = [] -> left = [])
    /\ (forall e left', left = e :: left' ->
          lenZ out = rq_maxEvents request \/ rq_maxBytes request < sumZ le_bytes out + le_bytes e).

Lemma page_loop_spec request rest taken last :
  1 <= rq_maxEvents request -> 1 <= rq_maxBytes request ->
  Forall entry_ok rest -> Forall entry_ok taken ->
  map le_seq rest = seqZ (last + 1) (lenZ rest) -> rq_after request <= last ->
  lenZ taken = last - rq_after request ->
  lenZ taken <= rq_maxEvents request -> sumZ le_bytes taken <= rq_maxBytes request ->
  match page_loop request rest taken (sumZ le_bytes taken) last with
  | Ok (out, last') => page_ok request rest taken out last'
  | Err r =>
      taken = [] /\ exists e rest', rest = e :: rest' /\ rq_maxBytes request < le_bytes e
        /\ r = mkExhausted (rq_after request) (rq_maxEvents request) (rq_maxBytes request)
                 "event_replay_bytes" (rq_maxBytes request) (le_bytes e)
  end.
Proof.
  intros Hme Hmb. revert taken last.
  induction rest as [|e rest IH]; intros taken last Hok Htok Hseq Haf Hlen Hle Hbe; cbn [page_loop].
  { exists [], []. rewrite app_nil_r. repeat split; auto; try lia. done. }
  inversion Hok as [|? ? He Hrest]; subst.
  assert (0 < le_bytes e) as He0 by (rewrite He; apply EncodedSize_pos).
  pose proof (sumZ_nonneg _ _ (entries_nonneg _ Htok)) as Ht0.
  simpl in Hseq. rewrite lenZ_cons in Hseq. rewrite seqZ_cons in Hseq by slia.
  injection Hseq as He1 Hseq'. rewrite He1.
  assert (last + 1 <=? rq_after request = false) as -> by (apply Z.leb_gt; lia).
  assert (Hstop : lenZ taken = rq_maxEvents request
      \/ (lenZ taken <> 0 /\ rq_maxBytes request < sumZ le_bytes taken + le_bytes e) ->
    page_ok request (e :: rest) taken taken last).
  { intros Hc. exists [], (e :: rest). rewrite app_nil_r. repeat split; auto.
    - intros ->. rewrite lenZ_nil in Hc. lia.
    - intros e' l' [= <- <-]. naive_solver. }
  destruct (lenZ taken =? rq_maxEvents request) eqn:E1; bprop; [by apply Hstop; left|].
  destruct ((le_bytes e >? rq_maxBytes request) || _) eqn:E2.
  - assert (rq_maxBytes request < sumZ le_bytes taken + le_bytes e)
      by (apply orb_true_iff in E2 as [E2|E2]; bprop; lia).
    destruct (lenZ taken =? 0) eqn:E3; bprop; [|by apply Hstop; right].
    apply lenZ_0 in E3 as ->. rewrite sumZ_nil in *. split; [done|]. exists e, rest.
    split; [done|]. split; [lia|]. unfold nonnegativeUint64.
    rewrite (proj2 (Z.ltb_ge (rq_maxBytes request) 0)) by lia.
    rewrite (proj2 (Z.ltb_ge (le_bytes e) 0)) by lia. done.
  - bprop. specialize (IH (taken ++ [e]) (last + 1)).
    rewrite sumZ_app, sumZ_cons, sumZ_nil, Z.add_0_r in IH.
    replace (Z.pred (1 + lenZ rest)) with (lenZ rest) in Hseq' by lia.
    replace (Z.succ (last + 1)) with (last + 1 + 1) in Hseq' by lia.
    specialize (IH Hrest ltac:(apply Forall_app_2; auto) Hseq' ltac:(lia) ltac:(slia) ltac:(slia) ltac:(lia)).
    destruct (page_loop _ _ _ _ _) as [[out last']|r].
    + destruct IH as (more & left & -> & -> & Hrest').
      exists (e :: more), left. rewrite <- app_assoc. simpl. split; [done|]. split; [done|].
      rewrite <- app_assoc in Hrest'. done.
    + destruct IH as [IH _]. by destruct taken.
Qed.

(** The first retained sequence of a log; one past the head when empty. *)
Definition log_low (log : Log) : Z := log_lastSequence log - lenZ (log_entries log) + 1.

Lemma log_entries_seq base w :
  log_inv base w ->
  map le_seq (log_entries (w_log w)) = seqZ (log_low (w_log w)) (lenZ (log_entries (w_log w)))
  /\ base + 1 <= log_low (w_log w) <= log_lastSequence (w_log w) + 1.
Proof.
  intros Hi. destruct (li_retained _ _ Hi) as [ev Hret].
  pose proof (history_suffix_seq base _ ev _ (li_history _ _ Hi) Hret) as Hs.
  pose proof (li_last _ _ Hi) as Hl. rewrite Hret, lenZ_app in Hl.
  assert (lenZ (map le_envelope (log_entries (w_log w))) = lenZ (log_entries (w_log w))) as Hm
    by (unfold lenZ; by rewrite length_map).
  unfold log_low. split; [rewrite Hs; f_equal; lia|]. slia.
Qed.

Lemma bounds_spec base w :
  log_inv base w ->
  boundsLocked (w_log w) = (log_low (w_log w), log_lastSequence (w_log w))
  /\ forall after, replayCursorOutside after (log_low (w_log w)) (log_lastSequence (w_log w)) = false
       <-> log_low (w_log w) - 1 <= after <= log_lastSequence (w_log w).
Proof.
  intros Hi. pose proof (log_entries_seq _ _ Hi) as [Hs Hlow].
  pose proof (li_max _ _ Hi). pose proof (li_base _ _ Hi). pose proof (li_last _ _ Hi).
  unfold boundsLocked, replayCursorOutside.
  destruct (log_entries (w_log w)) as [|e l] eqn:El.
  - assert (w_history w = []) as Hh by (by apply (li_nonempty _ _ Hi)).
    rewrite Hh, lenZ_nil in *. unfold log_low. rewrite El, lenZ_nil.
    rewrite (proj2 (Z.eqb_neq _ _)) by lia.
    rewrite u64_id by (unfold uint64_ok; lia). split; [f_equal; lia|]. intros after.
    rewrite (proj2 (Z.eqb_eq _ _)) by lia. rewrite negb_false_iff, Z.eqb_eq. lia.
  - assert (le_seq e = log_low (w_log w)) as He.
    { simpl in Hs. rewrite lenZ_cons in Hs. rewrite seqZ_cons in Hs by slia. by injection Hs. }
    split; [by rewrite He|]. intros after.
    assert (log_low (w_log w) <= log_lastSequence (w_log w)).
    { unfold log_low. rewrite El. slia. }
    assert (log_low (w_log w) =? (log_lastSequence (w_log w) +64 1) = false) as ->.
    { apply Z.eqb_neq. destruct (decide (log_lastSequence (w_log w) = maxUint64)) as [->|].
      - change (maxUint64 +64 1) with 0. lia.
      - rewrite u64_id by (unfold uint64_ok; lia). lia. }
    rewrite (u64_id (log_low (w_log w) - 1)) by (unfold uint64_ok; lia).
    rewrite orb_false_iff, Z.gtb_ltb, !Z.ltb_ge. lia.
Qed.

(** A page, against the committed history. *)
Record page_of (base : Z) (w : LogWorld) (request : ReplayRequest)
  (entries : list logEntry) (page : ReplayPage) : Prop := {
  po_segment : exists pre left,
    w_history w = pre ++ map le_envelope entries ++ left
    /\ lenZ pre = rq_after request - base
    /\ (pg_hasMore page = true <-> left <> [])
    /\ (entries = [] -> left = []);
  po_sizes : Forall entry_ok entries;
  po_last : pg_last page = rq_after request + lenZ entries;
  po_bounds : pg_earliest page = log_low (w_log w) /\ pg_latest page = log_lastSequence (w_log w);
  po_count : lenZ entries <= rq_maxEvents request;
  po_bytes : sumZ le_bytes entries <= rq_maxBytes request
}.

Lemma replayPage_spec base w request :
  log_inv base w -> 1 <= rq_maxEvents request -> 1 <= rq_maxBytes request ->
  match replayPageLocked (w_log w) request with
  | (log', Ok (entries, page)) => log' = w_log w /\ page_of base w request entries page
  | (log', Err (ErrOutOfRange o)) =>
      log' = w_log w
      /\ ~ (log_low (w_log w) - 1 <= rq_after request <= log_lastSequence (w_log w))
      /\ o = mkOutOfRange (rq_after request) (log_low (w_log w)) (log_lastSequence (w_log w))
               (if rq_after request <? log_low (w_log w) then log_low (w_log w) - 1
                else log_lastSequence (w_log w))
  | (log', Err (ErrExhausted r)) =>
      log' = with_stats (w_log w) (add_subscription (log_stats (w_log w)))
      /\ exists e pre post, w_history w = pre ++ le_envelope e :: post
           /\ lenZ pre = rq_after request - base
           /\ rq_maxBytes request < EncodedSize (le_envelope e)
           /\ re_lastDelivered r = rq_after request
  | (_, Err _) => False
  end.
Proof.
  intros Hi Hme Hmb. pose proof (bounds_spec _ _ Hi) as [Hb Ho].
  pose proof (log_entries_seq _ _ Hi) as [Hs Hlow].
  pose proof (li_max _ _ Hi). pose proof (li_base _ _ Hi). pose proof (li_last _ _ Hi) as Hlast.
  unfold replayPageLocked. rewrite Hb.
  destruct (replayCursorOutside _ _ _) eqn:Eo.
  { split; [done|]. split; [rewrite <- Ho; congruence|]. f_equal.
    destruct (_ <? _) eqn:El; bprop; [|done]. rewrite u64_id by (unfold uint64_ok; lia). done. }
  apply Ho in Eo.
  destruct (split_at_cursor _ _ (rq_after request) Hs) as (skipped & visible & Hsplit & Hlen & Hsk & Hv).
  { unfold log_low in *. lia. }
  assert (Forall entry_ok visible) as Hvok.
  { pose proof (li_sizes _ _ Hi) as Hz. rewrite Hsplit in Hz. by apply Forall_app in Hz as []. }
  destruct (li_retained _ _ Hi) as [ev Hret]. rewrite Hsplit, map_app, app_assoc in Hret.
  assert (lenZ (ev ++ map le_envelope skipped) = rq_after request - base
          /\ lenZ visible = log_lastSequence (w_log w) - rq_after request) as [Hpre Hvl].
  { rewrite Hret in Hlast. unfold log_low in *. rewrite Hsplit in *. unfold lenZ in *.
    rewrite !length_app, !length_map in *. lia. }
  rewrite Hsplit, page_loop_skip by done.
  pose proof (page_loop_spec request visible [] (rq_after request) Hme Hmb Hvok
    (Forall_nil_2 _) Hv ltac:(lia) ltac:(slia) ltac:(slia) ltac:(slia)) as Hp.
  rewrite sumZ_nil in Hp. destruct (page_loop _ _ _ _ _) as [[out last']|r].
  - destruct Hp as (more & left & Hout & Hvis & Hl1 & Hl2 & Hl3 & Hl4 & _). simpl in Hout. subst more.
    assert (lenZ left = log_lastSequence (w_log w) - last') as Hll by (rewrite Hvis in Hvl; slia).
    assert (page_of base w request out
      (mkPage (log_low (w_log w)) (log_lastSequence (w_log w)) last' []
         (last' <? log_lastSequence (w_log w)) false None)) as Hpage.
    { split; simpl; auto.
      - exists (ev ++ map le_envelope skipped), (map le_envelope left).
        split; [rewrite Hret, Hvis, map_app; done|]. split; [done|]. split.
        + rewrite Z.ltb_lt. destruct left; simpl; [rewrite lenZ_nil in Hll; split; [lia|done]|].
          rewrite lenZ_cons in Hll. pose proof (lenZ_nonneg left). split; [done|lia].
        + intros Hn. by rewrite (Hl4 Hn).
      - rewrite Hvis in Hvok. by apply Forall_app in Hvok as [].
      - lia. }
    destruct (last' <? _) eqn:El; [|by split].
    destruct (lenZ out =? 0) eqn:Ez; bprop; [|by split].
    apply lenZ_0 in Ez. rewrite (Hl4 Ez), lenZ_nil in Hll. lia.
  - destruct Hp as (_ & e & rest' & -> & Hbig & ->). split; [done|].
    exists e, (ev ++ map le_envelope skipped), (map le_envelope rest'). split; [done|].
    split; [done|]. inversion Hvok as [|? ? He _]; subst. rewrite <- He. done.
Qed.

(** ** Preservation by every other step *)

Lemma log_inv_stats base w stats :
  log_inv base w -> log_inv base (with_log w (with_stats (w_log w) stats)).
Proof. intros []. split; auto. Qed.

Lemma log_inv_same base w : log_inv base w -> log_inv base (with_log w (w_log w)).
Proof. by destruct w. Qed.

Lemma register_inv base w after replay w' id :
  log_inv base w ->
  (exists pre, w_history w = pre ++ map le_envelope replay /\ lenZ pre = after - base) ->
  Forall entry_ok replay ->
  lenZ replay <= SubscriberMaxEvents (log_limits (w_log w)) ->
  sumZ le_bytes replay <= SubscriberMaxBytes (log_limits (w_log w)) ->
  registerSubscriptionLocked w false after replay = (w', id) ->
  log_inv base w'
  /\ id = log_nextSubID (w_log w) + 1
  /\ exists s, w_subs w' !! id = Some s /\ sub_after s = after /\ sub_received s = []
               /\ w_history w' = w_history w.
Proof.
  intros Hi (pre & Hh & Hpre) Hok Hc Hb Hr. unfold registerSubscriptionLocked in Hr.
  set (s0 := newSubscription false after (log_limits (w_log w)) replay) in *.
  assert (sub_inv base (w_history w) s0) as Hs0.
  { split; simpl; auto.
    - exists pre, (map le_envelope replay). done.
    - split; [done|]. by intros [? _].
    - done.
    - unfold in_flight, lenZ. simpl. lia.
    - done. }
  set (closed := log_closed (w_log w)) in *.
  assert (exists s1 regs, (s1, regs) = (if closed then (finish s0, log_subscribers (w_log w))
      else (s0, {[log_nextSubID (w_log w) + 1]} ∪ log_subscribers (w_log w)))
    /\ sub_inv base (w_history w) s1 /\ sub_terminal s1 = closed /\ sub_abort s1 = false
    /\ sub_after s1 = after /\ sub_received s1 = []
    /\ log_subscribers (w_log w) ⊆ regs
    /\ (closed = false -> log_nextSubID (w_log w) + 1 ∈ regs)) as (s1 & regs & Heq & Hs1 & Ht & Ha & Haf & Hrc & Hsub & Hreg').
  { destruct closed; do 2 eexists; (split; [done|]); (split; [auto using finish_inv|]);
    repeat split; auto; set_solver. }
  rewrite <- Heq in Hr. injection Hr as <- <-. split; [|split; [done|]].
  2:{ exists s1. simpl. rewrite lookup_insert_eq. auto. }
  destruct Hi as [Hlim Hbase Hlast Hmax Hhi Hret Hne Hsz Hby Hcm Hbm Hids Hreg Hfin Hsubs].
  split; simpl; auto.
  - intros i [s Hs]. destruct (decide (i = log_nextSubID (w_log w) + 1)) as [->|Hneq]; [lia|].
    rewrite lookup_insert_ne in Hs by done. specialize (Hids i (ex_intro _ s Hs)). lia.
  - intros i s Hs Hterm. apply lookup_insert_Some in Hs as [[<- <-]|[_ Hs]].
    + fold closed. rewrite Ht in Hterm. auto.
    + destruct (Hreg i s Hs Hterm). set_solver.
  - intros i s Hs Hterm Hab. apply lookup_insert_Some in Hs as [[<- <-]|[_ Hs]]; [by rewrite Ht in Hterm|].
    by apply (Hfin i s).
  - intros i s Hs. apply lookup_insert_Some in Hs as [[<- <-]|[_ Hs]]; eauto.
Qed.

Lemma page_complete base w request entries page :
  page_of base w request entries page -> pg_hasMore page = false ->
  exists pre, w_history w = pre ++ map le_envelope entries /\ lenZ pre = rq_after request - base.
Proof.
  intros [(pre & left & Hh & Hpre & Hmore & _) _ _ _ _ _] Hf.
  exists pre. split; [|done]. destruct left; [by rewrite app_nil_r in Hh|].
  rewrite (proj2 Hmore) in Hf; done.
Qed.

Lemma page_complete_head base w request entries page :
  page_of base w request entries page -> pg_hasMore page = false ->
  exists pre, w_history w = pre ++ map le_envelope [] /\ lenZ pre = pg_last page - base.
Proof.
  intros Hp Hf. destruct (page_complete _ _ _ _ _ Hp Hf) as (pre & Hh & Hpre).
  exists (w_history w). rewrite app_nil_r. split; [done|]. rewrite Hh, (po_last _ _ _ _ _ Hp).
  unfold lenZ in *. rewrite length_app, length_map. lia.
Qed.

(** [Replay] on every branch. *)
Inductive replay_outcome (base : Z) (w : LogWorld) (ctx : ctx_arg) (request : ReplayRequest)
  : LogWorld -> result LogError ReplayPage -> Prop :=
| replay_nil_context : ctx = CtxNil ->
    replay_outcome base w ctx request w (Err ErrNilContext)
| replay_done_context : ctx = CtxDone ->
    replay_outcome base w ctx request w (Err ErrContext)
| replay_bad_events :
    ~ (1 <= rq_maxEvents request <= SubscriberMaxEvents (log_limits (w_log w))) ->
    replay_outcome base w ctx request w
      (Err (ErrReplayMaxEvents (SubscriberMaxEvents (log_limits (w_log w)))))
| replay_bad_bytes :
    ~ (1 <= rq_maxBytes request <= SubscriberMaxBytes (log_limits (w_log w))) ->
    replay_outcome base w ctx request w
      (Err (ErrReplayMaxBytes (SubscriberMaxBytes (log_limits (w_log w)))))
| replay_out_of_range :
    ~ (log_low (w_log w) - 1 <= rq_after request <= log_lastSequence (w_log w)) ->
    replay_outcome base w ctx request w
      (Err (ErrOutOfRange (mkOutOfRange (rq_after request) (log_low (w_log w))
         (log_lastSequence (w_log w))
         (if rq_after request <? log_low (w_log w) then log_low (w_log w) - 1
          else log_lastSequence (w_log w)))))
| replay_too_large r e pre post w' :
    w_history w = pre ++ le_envelope e :: post -> lenZ pre = rq_after request - base ->
    rq_maxBytes request < EncodedSize (le_envelope e) -> re_lastDelivered r = rq_after request ->
    log_inv base w' -> w_history w' = w_history w ->
    replay_outcome base w ctx request w' (Err (ErrExhausted r))
| replay_page w' entries page :
    page_of base w request entries page -> pg_events page = map le_envelope entries ->
    log_inv base w' -> w_history w' = w_history w ->
    (rq_tail request = true /\ pg_hasMore page = false /\ log_closed (w_log w) = false ->
       pg_tailing page = true /\
       exists id s, pg_tail page = Some id /\ w_subs w' !! id = Some s
         /\ sub_after s = pg_last page /\ sub_received s = []) ->
    (pg_tailing page = true -> pg_hasMore page = false /\ log_closed (w_log w) = false) ->
    replay_outcome base w ctx request w' (Ok page).

Lemma replay_spec base w ctx request :
  log_inv base w ->
  replay_outcome base w ctx request (fst (Log_Replay w ctx request)) (snd (Log_Replay w ctx request)).
Proof.
  intros Hi. unfold Log_Replay. destruct ctx; [by constructor| |by constructor].
  destruct (_ || _) eqn:E1; [apply replay_bad_events; simpl; apply orb_true_iff in E1;
    rewrite Z.gtb_ltb, !Z.ltb_lt in E1; lia|].
  destruct (_ || _) eqn:E2 in |- *; [apply replay_bad_bytes; simpl; apply orb_true_iff in E2;
    rewrite Z.gtb_ltb, !Z.ltb_lt in E2; lia|].
  bprop. pose proof (replayPage_spec base w request Hi ltac:(lia) ltac:(lia)) as Hp.
  destruct (replayPageLocked (w_log w) request) as [log' [[entries page]|e]].
  - destruct Hp as [-> Hp]. destruct (_ && negb (log_closed (w_log w))) eqn:Et; bprop.
    + destruct (registerSubscriptionLocked _ _ _ _) as [w' id] eqn:Er.
      apply (register_inv base) in Er as (Hi' & Hid & s & Hs & Haf & Hrc & Hh').
      * eapply replay_page with (entries := entries); simpl; eauto.
        -- destruct Hp. split; auto.
        -- intros _. split; [done|]. by exists id, s.
      * by apply log_inv_same.
      * exact (page_complete_head _ _ _ _ _ Hp ltac:(assumption)).
      * constructor.
      * pose proof (limits_facts _ (li_limits _ _ Hi)). rewrite lenZ_nil. simpl. lia.
      * pose proof (limits_facts _ (li_limits _ _ Hi)). rewrite sumZ_nil. simpl. lia.
    + eapply replay_page with (entries := entries); simpl; eauto.
      * destruct Hp. split; auto.
      * by apply log_inv_same.
      * intros (Ht & Hm & Hc). by rewrite Ht, Hm, Hc in Et.
      * done.
  - destruct e; try done.
    + destruct Hp as (-> & e & pre & post & Hh & Hpre & Hbig & Hr).
      eapply replay_too_large; eauto. by apply log_inv_stats.
    + destruct Hp as (-> & Hout & ->). simpl. destruct w. by apply replay_out_of_range.
Qed.

(** [Subscribe] on every branch: the scan for a recovery entry always finds
    one, so the only failures are typed. *)
Inductive subscribe_outcome (base : Z) (w : LogWorld) (after : Z)
  : LogWorld -> result LogError Z -> Prop :=
| subscribe_refused e : e = ErrNilContext \/ e = ErrContext ->
    subscribe_outcome base w after w (Err e)
| subscribe_out_of_range o :
    ~ (log_low (w_log w) - 1 <= after <= log_lastSequence (w_log w)) ->
    log_low (w_log w) - 1 <= RecoveryAfter o <= log_lastSequence (w_log w) ->
    subscribe_outcome base w after w (Err (ErrOutOfRange o))
| subscribe_exhausted r w' :
    log_inv base w' -> w_history w' = w_history w ->
    after <= re_lastDelivered r < log_lastSequence (w_log w) ->
    subscribe_outcome base w after w' (Err (ErrExhausted r))
| subscribe_registered w' id s :
    log_inv base w' -> w_history w' = w_history w ->
    w_subs w' !! id = Some s -> sub_after s = after -> sub_received s = [] ->
    subscribe_outcome base w after w' (Ok id).

Lemma first_after_found lo l last :
  map le_seq l = seqZ lo (lenZ l) -> last < lo + lenZ l - 1 -> 0 < lenZ l ->
  exists e, first_after l last = Some e.
Proof.
  revert lo. induction l as [|e l IH]; intros lo Hl Hlast Hlen; [unfold lenZ in Hlen; simpl in Hlen; lia|].
  simpl in Hl. rewrite lenZ_cons in *. rewrite seqZ_cons in Hl by slia. injection Hl as He Hl.
  simpl. destruct (le_seq e >? last) eqn:E; [eauto|]. bprop.
  replace (Z.pred (1 + lenZ l)) with (lenZ l) in Hl by lia. eapply IH; [exact Hl|lia|lia].
Qed.

Lemma subscribe_spec base w ctx after :
  log_inv base w ->
  subscribe_outcome base w after (fst (Log_Subscribe w ctx after)) (snd (Log_Subscribe w ctx after)).
Proof.
  intros Hi. unfold Log_Subscribe. destruct ctx; try (constructor; naive_solver).
  pose proof (limits_facts _ (li_limits _ _ Hi)) as Hlim.
  set (request := mkRequest _ _ _ _).
  pose proof (replayPage_spec base w request Hi ltac:(simpl; lia) ltac:(simpl; lia)) as Hp.
  pose proof (log_entries_seq _ _ Hi) as [Hs Hlow].
  destruct (replayPageLocked (w_log w) request) as [log' [[entries page]|e]].
  - destruct Hp as [-> Hp]. destruct (pg_hasMore page) eqn:Em.
    + destruct Hp as [(pre & left & Hh & Hpre & Hmore & Hne) _ Hlast Hbd Hc Hby]. simpl in *.
      assert (left <> []) as Hl by (by apply Hmore).
      assert (after <= pg_last page < log_lastSequence (w_log w)) as Hrange.
      { rewrite Hlast. rewrite (li_last _ _ Hi), Hh.
        destruct left as [|x left]; [done|]. unfold lenZ in *. rewrite !length_app, length_map in *.
        simpl. lia. }
      unfold replayExhaustionLocked. simpl.
      destruct (lenZ entries >=? _); simpl.
      * eapply subscribe_exhausted; simpl; auto. by apply log_inv_stats.
      * destruct (first_after_found (log_low (w_log w)) (log_entries (w_log w)) (pg_last page)) as [e ->].
        -- done.
        -- unfold log_low. lia.
        -- destruct (log_entries (w_log w)) eqn:El; [|slia].
           rewrite (li_nonempty _ _ Hi El) in Hh. symmetry in Hh. apply app_nil in Hh as [_ Hh].
           apply app_nil in Hh as [_ ->]. done.
        -- eapply subscribe_exhausted; simpl; auto. by apply log_inv_stats.
    + destruct (registerSubscriptionLocked _ _ _ _) as [w' id] eqn:Er.
      apply (register_inv base) in Er as (Hi' & Hid & s & Hs' & Haf & Hrc & Hh').
      * by eapply subscribe_registered.
      * by apply log_inv_same.
      * exact (page_complete _ _ _ _ _ Hp Em).
      * by destruct Hp.
      * by destruct Hp.
      * by destruct Hp.
  - destruct e; try done; simpl.
    + destruct Hp as (-> & e & pre & post & Hh & Hpre & Hbig & Hr).
      eapply subscribe_exhausted; simpl; auto; [by apply log_inv_stats|].
      rewrite Hr. simpl. rewrite (li_last _ _ Hi), Hh. simpl in *. slia.
    + destruct Hp as (-> & Hout & ->). destruct w as [log subs h]. simpl in *.
      apply (subscribe_out_of_range base (mkWorld log subs h)); [done|]. simpl.
      pose proof (li_base _ _ Hi). destruct (after <? _) eqn:Ea; bprop; simpl in *; lia.
Qed.

Lemma close_inv base w : log_inv base w -> log_inv base (Log_Close w).
Proof.
  intros Hi. unfold Log_Close. destruct (log_closed (w_log w)) eqn:Ec; [done|].
  destruct Hi as [Hlim Hbase Hlast Hmax Hhi Hret Hne Hsz Hby Hcm Hbm Hids Hreg Hfin Hsubs].
  assert (forall id s', map_imap (fun id s => Some (if bool_decide (id ∈ log_subscribers (w_log w))
      then finish s else s)) (w_subs w) !! id = Some s' ->
    exists s, w_subs w !! id = Some s
      /\ s' = if bool_decide (id ∈ log_subscribers (w_log w)) then finish s else s) as Hl.
  { intros id s'. rewrite map_lookup_imap.
    destruct (w_subs w !! id) as [s|]; simpl; [|done]. intros [= <-]. eauto. }
  split; simpl; auto.
  - intros id [s' Hs']. apply Hl in Hs' as (s & Hs & _). eauto.
  - intros id s' Hs' Ht. exfalso. apply Hl in Hs' as (s & Hs & ->).
    destruct (sub_terminal s) eqn:Et.
    + unfold finish in Ht. rewrite Et in Ht. destruct (bool_decide _); congruence.
    + destruct (Hreg id s Hs Et) as [Hin _]. rewrite bool_decide_eq_true_2 in Ht by done.
      unfold finish in Ht. rewrite Et in Ht. discriminate.
  - intros id s' Hs'. apply Hl in Hs' as (s & Hs & ->). pose proof (Hsubs id s Hs).
    destruct (bool_decide _); [by apply finish_inv|done].
Qed.

(** Replacing one subscription by an invariant-satisfying successor. *)
Lemma sub_update_inv base w id s s' regs :
  log_inv base w -> w_subs w !! id = Some s -> sub_inv base (w_history w) s' ->
  (sub_terminal s' = false -> sub_terminal s = false /\ id ∈ regs) ->
  (sub_terminal s' = true -> sub_abort s' = false -> sub_terminal s = true /\ sub_abort s = false) ->
  (forall i, i <> id -> i ∈ log_subscribers (w_log w) -> i ∈ regs) ->
  log_inv base (mkWorld (mkLog (log_runID (w_log w)) (log_limits (w_log w)) (log_entries (w_log w))
      (log_bytes (w_log w)) (log_lastSequence (w_log w)) (log_closed (w_log w))
      (log_nextSubID (w_log w)) regs (log_stats (w_log w)))
    (<[id := s']> (w_subs w)) (w_history w)).
Proof.
  intros [Hlim Hbase Hlast Hmax Hhi Hret Hne Hsz Hby Hcm Hbm Hids Hreg Hfin Hsubs] Hs Hs' H1 H2 Hregs.
  split; simpl; auto.
  - intros i [x Hx]. apply lookup_insert_Some in Hx as [[<- _]|[_ Hx]]; eauto.
  - intros i x Hx Ht. apply lookup_insert_Some in Hx as [[<- <-]|[Hn Hx]].
    + destruct (H1 Ht) as [Ht' Hin]. split; [done|]. by apply (Hreg id s).
    + destruct (Hreg i x Hx Ht). split; [by apply Hregs|done].
  - intros i x Hx Ht Ha. apply lookup_insert_Some in Hx as [[<- <-]|[Hn Hx]].
    + destruct (H2 Ht Ha). by apply (Hfin id s).
    + by apply (Hfin i x).
  - intros i x Hx. apply lookup_insert_Some in Hx as [[<- <-]|[_ Hx]]; eauto.
Qed.

Lemma deliver_flags action s s' :
  deliver action s = Some s' ->
  (sub_terminal s' = false -> sub_terminal s = false)
  /\ (sub_terminal s' = true -> sub_abort s' = false -> sub_terminal s = true /\ sub_abort s = false).
Proof.
  intros H. destruct action; unfold deliver in H; destruct (sub_pc s) eqn:Epc; try discriminate;
    unfold terminateLocked in H; repeat (split_match_in H; try discriminate);
    injection H as <-; simpl in *; split; auto; try congruence.
Qed.

Lemma world_deliver_inv base w action id w' :
  log_inv base w -> world_deliver action id w = Some w' -> log_inv base w'.
Proof.
  intros Hi H. unfold world_deliver in H. destruct (w_subs w !! id) as [s|] eqn:Es; [|discriminate].
  destruct (deliver action s) as [s'|] eqn:Ed; [|discriminate]. injection H as <-.
  pose proof (li_subs _ _ Hi id s Es) as Hs.
  pose proof (deliver_inv _ _ _ _ _ (li_history _ _ Hi) Hs Ed) as Hs'.
  pose proof (deliver_flags _ _ _ Ed) as (Hf1 & Hf2).
  assert (sub_pc s' = DDone -> sub_terminal s' = true) as Hdone.
  { intros Hd. destruct Hs' as [(pre & post & _ & _ & Hpos) _ _ _ _ _ _ _ _].
    unfold sub_position in Hpos. rewrite Hd in Hpos. by destruct Hpos. }
  set (regs := match sub_pc s' with DDone => log_subscribers (w_log w) ∖ {[id]}
    | _ => log_subscribers (w_log w) end).
  assert (log_inv base (mkWorld (mkLog (log_runID (w_log w)) (log_limits (w_log w))
      (log_entries (w_log w)) (log_bytes (w_log w)) (log_lastSequence (w_log w))
      (log_closed (w_log w)) (log_nextSubID (w_log w)) regs (log_stats (w_log w)))
    (<[id := s']> (w_subs w)) (w_history w))) as Hres.
  { eapply sub_update_inv; eauto.
    - intros Ht. split; [auto|]. destruct (li_registered _ _ Hi id s Es (Hf1 Ht)) as [Hin _].
      subst regs. destruct (sub_pc s') eqn:Ep; try done. rewrite Hdone in Ht; done.
    - intros i Hne Hin. subst regs. destruct (sub_pc s'); set_solver. }
  subst regs. destruct (w_log w). destruct (sub_pc s'); done.
Qed.

Lemma ctx_flag_inv base h s b :
  sub_inv base h s -> (sub_ctxDone s = true -> b = true) ->
  sub_inv base h (mkSub b (sub_queue s) (sub_queuedBytes s) (sub_maxEvents s) (sub_maxBytes s)
    (sub_terminal s) (sub_err s) (sub_lastDelivered s) (sub_abort s) (sub_pc s) (sub_after s)
    (sub_received s)).
Proof.
  intros [(pre & post & Hh & Hpre & Hpos) Hsz Hby Hb Hab Haq Hlive Hlast Hex] Hc.
  split; simpl; auto. exists pre, post. split; [done|]. split; [done|].
  unfold sub_position in *; simpl. destruct (sub_pc s); try done.
  destruct Hpos as [Ht Hp]. split; [done|]. intros Hn ->. apply Hp; [done|].
  destruct (sub_ctxDone s); [by specialize (Hc eq_refl)|done].
Qed.

Lemma alter_sub_inv base w id f :
  log_inv base w ->
  (forall s, w_subs w !! id = Some s -> sub_inv base (w_history w) (f s)
     /\ (sub_terminal (f s) = false -> sub_terminal s = false)
     /\ (sub_terminal (f s) = true -> sub_abort (f s) = false ->
           sub_terminal s = true /\ sub_abort s = false)) ->
  log_inv base (mkWorld (w_log w) (alter f id (w_subs w)) (w_history w)).
Proof.
  intros Hi Hf. destruct (w_subs w !! id) as [s|] eqn:Es.
  - destruct (Hf s eq_refl) as (H1 & H2 & H3).
    assert (alter f id (w_subs w) = <[id := f s]> (w_subs w)) as ->.
    { apply map_eq. intros i. destruct (decide (i = id)) as [->|].
      - by rewrite lookup_alter_eq, lookup_insert_eq, Es.
      - by rewrite lookup_alter_ne, lookup_insert_ne by done. }
    pose proof (sub_update_inv base w id s (f s) (log_subscribers (w_log w)) Hi Es H1) as Hu.
    assert (sub_terminal (f s) = false -> sub_terminal s = false /\ id ∈ log_subscribers (w_log w)) as Hr.
    { intros Ht. split; [auto|]. by apply (li_registered _ _ Hi id s Es (H2 Ht)). }
    specialize (Hu Hr H3 (fun _ _ H => H)). by destruct (w_log w).
  - assert (alter f id (w_subs w) = w_subs w) as ->.
    { apply map_eq. intros i. destruct (decide (i = id)) as [->|].
      - by rewrite lookup_alter_eq, Es.
      - by rewrite lookup_alter_ne by done. }
    by destruct w.
Qed.

Lemma log_step_inv base w w' : log_inv base w -> log_step w w' -> log_inv base w'.
Proof.
  intros Hi Hs. destruct Hs.
  - destruct (append_spec base w envelope Hi) as (w1 & r1 & Ha & Ho). rewrite Ha in H.
    injection H as <- <-. by eapply append_inv.
  - destruct (replay_spec base w ctx request Hi); done.
  - destruct (subscribe_spec base w ctx after Hi); done.
  - by apply close_inv.
  - by eapply world_deliver_inv.
  - apply alter_sub_inv; [done|]. intros s Hs. split; [|simpl; auto].
    apply ctx_flag_inv; [by apply (li_subs _ _ Hi id)|done].
  - apply alter_sub_inv; [done|]. intros s Hs. pose proof (li_subs _ _ Hi id s Hs) as Hsi.
    destruct (sub_ctxDone s); [|auto]. split; [by apply terminateLocked_inv|].
    unfold terminateLocked. destruct (sub_terminal s) eqn:Et; simpl; rewrite ?Et; (split; [done|]); auto; intros; discriminate.
Qed.

Lemma reachable_inv runID base limits w :
  uint64_ok base -> log_reachable runID base limits w -> log_inv base w.
Proof.
  intros Hb (log & Hn & Hr).
  assert (log_inv base (mkWorld log ∅ [])) as H0.
  { unfold NewLogAfter in Hn. repeat (split_match_in Hn; try discriminate). bprop.
    injection Hn as <-. apply limits_facts in E0 as Hl.
    unfold uint64_ok in Hb.
    split; simpl; try done; try (unfold lenZ; simpl; lia).
    - exists []. done.
    - intros id [s Hs]. by rewrite lookup_empty in Hs. }
  clear Hn. induction Hr as [w0|w0 w1 w2 Hstep _ IH]; [done|]. apply IH. by eapply log_step_inv.
Qed.

(** ** Progress of the delivery goroutine *)

(** The arms that only wait for the consumer, never for the log: what the
    goroutine still has to do when the consumer keeps receiving. *)
Definition deliver_measure (s : Subscription) : Z :=
  let n := lenZ (sub_queue s) in
  match sub_pc s with
  | DIdle => 3 * n + 1
  | DSending _ => 3 * Z.max 1 n
  | DSent _ => 3 * Z.max 1 n - 1
  | DDone => 0
  end.

Lemma deliver_decreases base h action s s' :
  sub_inv base h s -> deliver action s = Some s' -> 0 <= deliver_measure s' < deliver_measure s.
Proof.
  intros [(pre & post & _ & _ & Hpos) _ _ _ _ Haq _ _ _] Hd.
  unfold sub_position in Hpos. pose proof (lenZ_nonneg (sub_queue s)) as Hn.
  destruct action; unfold deliver in Hd; destruct (sub_pc s) as [|e|e|] eqn:Epc; try discriminate;
    unfold deliver_measure; rewrite Epc.
  - destruct (sub_queue s) as [|x q] eqn:Eq.
    + destruct (sub_terminal s); [|discriminate]. injection Hd as <-. simpl. slia.
    + injection Hd as <-. simpl. rewrite Eq. slia.
  - injection Hd as <-. simpl. lia.
  - destruct (sub_abort s); [|discriminate]. injection Hd as <-. simpl. lia.
  - destruct (sub_ctxDone s); [|discriminate]. injection Hd as <-. simpl. lia.
  - injection Hd as <-. simpl. destruct (sub_abort s) eqn:Ea.
    + rewrite (Haq eq_refl). slia.
    + destruct Hpos as [_ Hq]. destruct (Hq eq_refl) as (q & -> & _). rewrite Z.eqb_refl. simpl. slia.
Qed.

Lemma deliver_stuck base h s :
  sub_inv base h s ->
  deliver ATake s = None -> deliver ASend s = None -> deliver AAck s = None ->
  sub_pc s = DDone
  \/ (sub_pc s = DIdle /\ sub_queue s = [] /\ sub_terminal s = false
      /\ exists pre, h = pre ++ sub_received s /\ lenZ pre = sub_after s - base).
Proof.
  intros [(pre & post & Hh & Hpre & Hpos) _ _ _ Hab _ _ _ _] H1 H2 H3.
  unfold deliver, sub_position in *. destruct (sub_pc s); try discriminate; [|by left].
  right. destruct (sub_queue s) eqn:Eq; [|discriminate].
  destruct (sub_terminal s) eqn:Et; [discriminate|]. split; [done|]. split; [done|]. split; [done|].
  exists pre. split; [|done]. simpl in Hpos. rewrite <- Hpos, app_nil_r in Hh; [done|].
  destruct (sub_abort s); [|done]. destruct Hab as [[? _] _]; done.
Qed.

Lemma received_sequences base h s :
  history_ok base h -> sub_inv base h s ->
  map env_sequence (sub_received s) = seqZ (sub_after s + 1) (lenZ (sub_received s)).
Proof.
  intros Hok [(pre & post & Hh & Hpre & _) _ _ _ _ _ _ _ _]. unfold history_ok in Hok.
  rewrite Hh, !map_app, !lenZ_app in Hok.
  pose proof (lenZ_nonneg pre). pose proof (lenZ_nonneg (sub_received s)). pose proof (lenZ_nonneg post).
  rewrite seqZ_app in Hok by lia. apply app_inj_1 in Hok as [_ Hok].
  2:{ rewrite length_map, length_seqZ. unfold lenZ. lia. }
  rewrite seqZ_app in Hok by lia. apply app_inj_1 in Hok as [-> _].
  2:{ rewrite length_map, length_seqZ. unfold lenZ. lia. }
  f_equal. lia.
Qed.

(** ** A sample run, for concrete evaluation *)

Definition sample_time : Time := mkTime 1700000000 0 0.
Definition sample_event (sequence : Z) (kind : Kind) : Envelope :=
  mkEnvelope "run-1" sequence sample_time kind "".
Definition sample_limits : LogLimits := mkLimits 4 1024 1 256 8 2048.
Definition sample_log : Log := mkLog "run-1" sample_limits [] 0 0 false 0 ∅ zeroStats.
Definition do_append (w : LogWorld) (e : Envelope) : LogWorld :=
  match Log_Append w e with Some (w', _) => w' | None => w end.
Definition do_deliver (action : deliver_action) (id : Z) (w : LogWorld) : LogWorld :=
  match world_deliver action id w with Some w' => w' | None => w end.

(** A subscriber at cursor zero, then three events. *)
Definition sample_world : LogWorld :=
  foldl do_append (fst (Log_Subscribe (mkWorld sample_log ∅ []) CtxLive 0))
    [sample_event 1 RunStarted; sample_event 2 TurnStarted; sample_event 3 TurnCompleted].

Lemma reachable_step runID base limits w w' :
  log_reachable runID base limits w -> log_step w w' -> log_reachable runID base limits w'.
Proof. intros (log & Hn & Hr) Hs. exists log. split; [done|]. by eapply rtc_r. Qed.

Lemma reachable_append runID base limits w e :
  log_reachable runID base limits w -> log_reachable runID base limits (do_append w e).
Proof.
  intros H. unfold do_append. destruct (Log_Append w e) as [[w' r]|] eqn:E; [|done].
  eapply reachable_step; [done|]. by eapply step_append.
Qed.

Lemma reachable_deliver runID base limits w action id :
  log_reachable runID base limits w -> log_reachable runID base limits (do_deliver action id w).
Proof.
  intros H. unfold do_deliver. destruct (world_deliver action id w) as [w'|] eqn:E; [|done].
  eapply reachable_step; [done|]. by eapply step_deliver.
Qed.

Lemma sample_start : log_reachable "run-1" 0 sample_limits (mkWorld sample_log ∅ []).
Proof. exists sample_log. split; [vm_compute; reflexivity|apply rtc_refl]. Qed.

Lemma sample_reachable : log_reachable "run-1" 0 sample_limits sample_world.
Proof.
  unfold sample_world. cbn [foldl]. do 3 apply reachable_append.
  eapply reachable_step; [exact sample_start|apply step_subscribe].
Qed.
#[export] Hint Resolve sample_start sample_reachable reachable_append reachable_deliver : spice.

(** ** Properties *)

(** C1: In every reachable state of a log, the retained entries are the newest
    suffix of everything ever committed, numbered without gaps up to
    [lastSequence]; their exact encoded size is the accounted size; and both
    the count and the byte bound hold. *)
Theorem log_retention_invariant runID base limits w :
  uint64_ok base -> log_reachable runID base limits w ->
  let log := w_log w in
  (exists evicted, w_history w = evicted ++ map le_envelope (log_entries log))
  /\ map le_seq (log_entries log) = seqZ (log_low log) (lenZ (log_entries log))
  /\ log_lastSequence log = base + lenZ (w_history w)
  /\ log_lastSequence log <= maxUint64
  /\ log_bytes log = sumZ (fun e => EncodedSize (le_envelope e)) (log_entries log)
  /\ lenZ (log_entries log) <= MaxEvents (log_limits log)
  /\ 0 <= log_bytes log <= MaxBytes (log_limits log).
Proof.
  intros Hb Hr log. pose proof (reachable_inv _ _ _ _ Hb Hr) as Hi.
  pose proof (log_entries_seq _ _ Hi) as [Hs _].
  assert (log_bytes log = sumZ (fun e => EncodedSize (le_envelope e)) (log_entries log)) as Hbytes.
  { unfold log. rewrite (li_bytes _ _ Hi). apply entries_sizes, Hi. }
  split; [apply Hi|]. split; [done|]. split; [apply Hi|]. split; [apply Hi|]. split; [done|].
  split; [apply Hi|]. split; [|apply Hi].
  unfold log. rewrite (li_bytes _ _ Hi). apply sumZ_nonneg, entries_nonneg, Hi.
Qed.

Lemma log_retention_invariant_witness :
  lenZ (log_entries (w_log sample_world)) <= 4 /\ log_lastSequence (w_log sample_world) = 3.
Proof.
  assert (uint64_ok 0) as H0 by (unfold uint64_ok, maxUint64; lia).
  pose proof (log_retention_invariant "run-1" 0 sample_limits sample_world H0 sample_reachable)
    as (_ & _ & _ & _ & _ & H & _).
  split; [exact H|vm_compute; reflexivity].
Defined.

(** C16: [Append] never panics in its eviction loop.  It fails, leaving every
    subscription untouched, exactly when the log is closed, the run differs,
    the sequence is not the successor of the head or has no representable
    successor, or the event alone exceeds the bytes its class may use; it
    otherwise evicts the shortest prefix that makes room under the bounds of
    the event's class and appends the event at the head. *)
Theorem append_behaviour runID base limits w envelope :
  uint64_ok base -> log_reachable runID base limits w ->
  exists w' r, Log_Append w envelope = Some (w', r) /\ append_outcome w envelope w' r.
Proof. intros Hb Hr. eapply append_spec, reachable_inv; eauto. Qed.

Lemma append_behaviour_witness :
  exists w' r, Log_Append sample_world (sample_event 4 RunCompleted) = Some (w', r)
               /\ append_outcome sample_world (sample_event 4 RunCompleted) w' r.
Proof.
  apply (append_behaviour "run-1" 0 sample_limits); [unfold uint64_ok, maxUint64; lia|].
  exact sample_reachable.
Defined.

(** The terminal reserve works: directly after an admitted non-terminal
    event, a terminal event of the run with the next sequence whose encoded
    size is within the reserve is admitted and evicts nothing. *)
Theorem terminal_reserve runID base limits w w1 e t :
  uint64_ok base -> log_reachable runID base limits w ->
  Log_Append w e = Some (w1, None) -> Terminal e = false -> Terminal t = true ->
  env_runID t = log_runID (w_log w) -> env_sequence t = env_sequence e + 1 ->
  env_sequence t <= maxUint64 ->
  EncodedSize t <= TerminalReserveBytes (log_limits (w_log w)) ->
  exists w2, Log_Append w1 t = Some (w2, None)
    /\ log_entries (w_log w2) = log_entries (w_log w1) ++ [mkEntry t (EncodedSize t)].
Proof.
  intros Hb Hr Ha He Ht Hrun Hseq Hmax Hsz.
  pose proof (reachable_inv _ _ _ _ Hb Hr) as Hi.
  destruct (append_spec base w e Hi) as (w1' & r & Ha' & Ho). rewrite Ha in Ha'.
  injection Ha' as <- <-. pose proof (append_inv _ _ _ _ _ Hi Ho) as Hi1.
  inversion Ho as [| | | |me mb gone kept stats w'' Hc Hrn Hl Hs Hadm Hez Hent Hk1 Hk2 Hmin Hw]; subst.
  destruct (append_spec base _ t Hi1) as (w2 & r2 & Ha2 & Ho2). rewrite Ha2.
  unfold admission_bounds in Hadm. rewrite He in Hadm. injection Hadm as <- <-.
  pose proof (limits_facts _ (li_limits _ _ Hi)) as Hlim.
  inversion Ho2 as [Hc2|? Hr2|? ? Hs2|me2 mb2 ? ? ? ? ? Hadm2 Hbig|me2 mb2 gone2 kept2 st2 w''' ? ? ? ? Hadm2 ? Hent2 ? ? Hmin2 Hw2];
    subst; simpl in *; try congruence; try lia.
  - unfold admission_bounds in Hadm2. rewrite Ht in Hadm2. injection Hadm2 as <- <-. lia.
  - unfold admission_bounds in Hadm2. rewrite Ht in Hadm2. injection Hadm2 as <- <-.
    eexists. split; [reflexivity|]. simpl. f_equal.
    destruct gone2 as [|x gone2] using rev_ind; [done|]. exfalso.
    specialize (Hmin2 _ _ eq_refl).
    assert (lenZ (x :: kept2) <= lenZ (kept ++ [mkEntry e (EncodedSize e)])
      /\ sumZ le_bytes (x :: kept2) <= sumZ le_bytes (kept ++ [mkEntry e (EncodedSize e)])) as [Hx1 Hx2].
    { rewrite Hent2. rewrite <- app_assoc. simpl. rewrite lenZ_app, sumZ_app.
      pose proof (li_sizes _ _ Hi1) as Hz. simpl in Hz. rewrite Hent2, <- app_assoc in Hz.
      apply Forall_app in Hz as [Hz _]. pose proof (sumZ_nonneg _ _ (entries_nonneg _ Hz)). slia. }
    rewrite lenZ_app, (lenZ_cons _ []), lenZ_nil in Hx1.
    rewrite sumZ_app, (sumZ_cons _ _ []), sumZ_nil in Hx2. cbn [le_bytes] in Hx2.
    rewrite sumZ_cons in Hx2. lia.
Qed.

Lemma terminal_reserve_witness :
  let w := do_append (fst (Log_Subscribe (mkWorld sample_log ∅ []) CtxLive 0))
             (sample_event 1 RunStarted) in
  let w1 := do_append w (sample_event 2 TurnStarted) in
  exists w2, Log_Append w1 (sample_event 3 TurnCompleted) = Some (w2, None)
    /\ log_entries (w_log w2)
       = log_entries (w_log w1)
         ++ [mkEntry (sample_event 3 TurnCompleted) (EncodedSize (sample_event 3 TurnCompleted))].
Proof.
  intros w w1.
  apply (terminal_reserve "run-1" 0 sample_limits w w1 (sample_event 2 TurnStarted)).
  - unfold uint64_ok, maxUint64. lia.
  - apply reachable_append. eapply reachable_step; [exact sample_start|apply step_subscribe].
  - vm_compute. reflexivity.
  - reflexivity.
  - reflexivity.
  - vm_compute. reflexivity.
  - reflexivity.
  - vm_compute. discriminate.
  - vm_compute. discriminate.
Defined.

(** C6: A subscription is exact: what its consumer has received is the
    contiguous, gap-free segment of the committed history right after its
    cursor; its queue stays within both bounds with exact byte accounting; a
    goroutine that returned without an error and without a cancelled context
    has delivered the whole history; and the recovery cursor of a typed
    exhaustion is the last sequence the consumer took. *)
Theorem subscription_exact runID base limits w id s :
  uint64_ok base -> log_reachable runID base limits w -> w_subs w !! id = Some s ->
  (exists pre post, w_history w = pre ++ sub_received s ++ post
     /\ lenZ pre = sub_after s - base
     /\ (Subscription_Wait CtxLive s = [WaitErr None] -> sub_ctxDone s = false -> post = []))
  /\ map env_sequence (sub_received s) = seqZ (sub_after s + 1) (lenZ (sub_received s))
  /\ lenZ (sub_queue s) <= sub_maxEvents s
  /\ sub_queuedBytes s = sumZ (fun e => EncodedSize (le_envelope e)) (sub_queue s)
  /\ sub_queuedBytes s <= sub_maxBytes s
  /\ (forall r, sub_err s = Some (SubExhausted r) ->
        re_lastDelivered r = sub_after s + lenZ (sub_received s) - in_flight s).
Proof.
  intros Hb Hr Hs. pose proof (reachable_inv _ _ _ _ Hb Hr) as Hi.
  pose proof (li_subs _ _ Hi id s Hs) as Hsi.
  pose proof (received_sequences _ _ _ (li_history _ _ Hi) Hsi) as Hseq.
  destruct Hsi as [(pre & post & Hh & Hpre & Hpos) Hsz Hby [Hb1 Hb2] _ _ _ Hlast Hex].
  split; [|split; [done|]].
  - exists pre, post. split; [done|]. split; [done|]. unfold Subscription_Wait, sub_position in *.
    destruct (sub_pc s); try discriminate. intros [= He] Hc. by apply Hpos.
  - split; [done|]. split; [by rewrite Hby, entries_sizes|]. split; [done|].
    intros r Hr'. by rewrite (Hex r Hr').
Qed.

(** The sample subscriber takes its first two events. *)
Definition sample_pumped : LogWorld :=
  foldr (fun a w => do_deliver a 1 w) sample_world [AAck; ASend; ATake; AAck; ASend; ATake].

Lemma sample_pumped_reachable : log_reachable "run-1" 0 sample_limits sample_pumped.
Proof. unfold sample_pumped. cbn [foldr]. do 6 apply reachable_deliver. exact sample_reachable. Qed.

Lemma subscription_exact_witness :
  exists s, w_subs sample_pumped !! 1 = Some s /\ map env_sequence (sub_received s) = [1; 2].
Proof.
  destruct (w_subs sample_pumped !! 1) as [s|] eqn:Es; [|vm_compute in Es; discriminate].
  assert (uint64_ok 0) as H0 by (unfold uint64_ok, maxUint64; lia).
  pose proof (subscription_exact "run-1" 0 sample_limits _ 1 s H0 sample_pumped_reachable Es)
    as (_ & Hseq & _).
  exists s. split; [done|]. rewrite Hseq.
  vm_compute in Es. injection Es as <-. vm_compute. reflexivity.
Defined.

(** Delivery always makes progress: every arm a delivery goroutine takes
    strictly decreases a natural measure, and when none of the arms that only
    need a receiving consumer is enabled the goroutine has returned, or it
    waits for the next event with an empty queue, having handed its consumer
    the whole committed history after the cursor. *)
Theorem delivery_progress runID base limits w id s :
  uint64_ok base -> log_reachable runID base limits w -> w_subs w !! id = Some s ->
  (forall action s', deliver action s = Some s' -> 0 <= deliver_measure s' < deliver_measure s)
  /\ (deliver ATake s = None -> deliver ASend s = None -> deliver AAck s = None ->
      sub_pc s = DDone
      \/ (sub_terminal s = false /\ sub_queue s = []
          /\ exists pre, w_history w = pre ++ sub_received s /\ lenZ pre = sub_after s - base)).
Proof.
  intros Hb Hr Hs. pose proof (reachable_inv _ _ _ _ Hb Hr) as Hi.
  pose proof (li_subs _ _ Hi id s Hs) as Hsi. split.
  - intros action s'. by eapply deliver_decreases.
  - intros H1 H2 H3. destruct (deliver_stuck _ _ _ Hsi H1 H2 H3) as [?|(? & ? & ? & ?)]; auto.
Qed.

Lemma delivery_progress_witness :
  exists s s', w_subs sample_world !! 1 = Some s /\ deliver ATake s = Some s'
    /\ deliver_measure s' < deliver_measure s.
Proof.
  destruct (w_subs sample_world !! 1) as [s|] eqn:Es; [|vm_compute in Es; discriminate].
  assert (uint64_ok 0) as H0 by (unfold uint64_ok, maxUint64; lia).
  pose proof (delivery_progress "run-1" 0 sample_limits _ 1 s H0 sample_reachable Es) as [Hd _].
  destruct (deliver ATake s) as [s'|] eqn:Ed.
  - exists s, s'. split; [done|]. split; [done|]. exact (proj2 (Hd ATake s' Ed)).
  - vm_compute in Es. injection Es as <-. vm_compute in Ed. discriminate.
Defined.

(** [Replay] on every branch: a page is the contiguous committed segment
    right after the requested cursor, within both request bounds, non-empty
    whenever there is anything left, and [HasMore] says exactly whether more
    is retained; an atomic tail starts at the page's last sequence, which is
    then the head, so no event falls between page and tail. *)
Theorem replay_behaviour runID base limits w ctx request :
  uint64_ok base -> log_reachable runID base limits w ->
  replay_outcome base w ctx request
    (fst (Log_Replay w ctx request)) (snd (Log_Replay w ctx request)).
Proof. intros Hb Hr. eapply replay_spec, reachable_inv; eauto. Qed.

Lemma replay_behaviour_witness :
  let request := mkRequest 1 1 1024 true in
  replay_outcome 0 sample_world CtxLive request
    (fst (Log_Replay sample_world CtxLive request)) (snd (Log_Replay sample_world CtxLive request))
  /\ exists page, snd (Log_Replay sample_world CtxLive request) = Ok page
       /\ pg_events page = [sample_event 2 TurnStarted] /\ pg_hasMore page = true.
Proof.
  intros request. split.
  - apply (replay_behaviour "run-1" 0 sample_limits); [unfold uint64_ok, maxUint64; lia|].
    exact sample_reachable.
  - eexists. split; [vm_compute; reflexivity|]. split; vm_compute; reflexivity.
Defined.

(** The recovery cursor works: whenever a subscription or a replay is
    refused as out of range, replaying from the error's [RecoveryAfter] with
    bounds the log accepts is not out of range, and the log never reports a
    page without progress or a missing recovery entry. *)
Theorem recovery_cursor_accepted runID base limits w ctx after o request ctx' :
  uint64_ok base -> log_reachable runID base limits w ->
  snd (Log_Subscribe w ctx after) = Err (ErrOutOfRange o) ->
  rq_after request = RecoveryAfter o ->
  forall e, snd (Log_Replay w ctx' request) = Err e ->
    (forall o', e <> ErrOutOfRange o') /\ e <> ErrNoProgress /\ e <> ErrNoRecoveryEntry.
Proof.
  intros Hb Hr Hs Hq e He. pose proof (reachable_inv _ _ _ _ Hb Hr) as Hi.
  pose proof (subscribe_spec base w ctx after Hi) as Ho. rewrite Hs in Ho.
  assert (log_low (w_log w) - 1 <= RecoveryAfter o <= log_lastSequence (w_log w)) as Hin.
  { by inversion Ho as [e0 [|]| | |]; subst. }
  pose proof (replay_spec base w ctx' request Hi) as Hp. rewrite He in Hp.
  inversion Hp; subst; try (repeat split; intros; discriminate). congruence.
Qed.

Lemma recovery_cursor_accepted_witness :
  exists o, snd (Log_Subscribe sample_world CtxLive 9) = Err (ErrOutOfRange o)
    /\ forall e, snd (Log_Replay sample_world CtxLive (mkRequest (RecoveryAfter o) 1 1024 false)) = Err e ->
         e <> ErrNoProgress.
Proof.
  eexists. split; [vm_compute; reflexivity|]. intros e He.
  refine (proj1 (proj2 (recovery_cursor_accepted "run-1" 0 sample_limits sample_world CtxLive 9 _
    (mkRequest _ 1 1024 false) CtxLive _ sample_reachable _ eq_refl e He))).
  - unfold uint64_ok, maxUint64. lia.
  - vm_compute. reflexivity.
Defined.

(** C34: A counterexample to the comments of [Close] and [Wait]: a subscriber
    whose context is cancelled after the log was closed while its goroutine
    holds an undelivered event is reported as cleanly complete, although the
    queued tail was never delivered. *)
Theorem cancel_after_close_reports_clean :
  exists w s, log_reachable "run-1" 0 sample_limits w /\ w_subs w !! 1 = Some s
    /\ sub_ctxDone s = true /\ sub_received s = [] /\ lenZ (w_history w) = 3
    /\ lenZ (sub_queue s) = 3
    /\ Subscription_Wait CtxLive s = [WaitErr None].
Proof.
  exists (do_deliver ACtx 1 (cancel_context 1 (Log_Close (do_deliver ATake 1 sample_world)))).
  eexists. split.
  - apply reachable_deliver. eapply reachable_step; [|apply step_cancel].
    eapply reachable_step; [|apply step_close]. apply reachable_deliver, sample_reachable.
  - split; [vm_compute; reflexivity|]. repeat split; vm_compute; reflexivity.
Qed.
