(* ===== verification/Session.v ===== *)
(** Client sessions (src/daemon/session.go, session_gate.go,
    session_reconnect.go, session_errors.go).

    [SessionStore] owns one [sessionState] per client.  Pointers the code
    compares by identity (mutation leases, waiters, stream leases) and the
    contexts it derives are fresh integers drawn from [st_next]; a [changed]
    channel is the number of times it was replaced, so "this channel was
    closed" is "the number moved on".  Contexts that were cancelled are in
    [st_cancelled]; every context is also done once the root is.

    Every critical section of [store.mu] is one function on the store.  The
    blocking operations are loops around such sections: a call in progress is
    a [claim] with the local variables of its loop, one iteration is one step,
    and the work a section leaves for after the unlock (cancelling contexts)
    is a step of its own, so other calls interleave exactly where the code
    lets them. *)
From Stdlib Require Import ZArith Lia.
From stdpp Require Import base gmap sets list strings.
From S2P Require Import Prelude GoText.
Open Scope Z_scope.

Definition maximumSessions : Z := 4096.
Definition maximumSessionGateWaitersPerClient : Z := 64.
Definition maximumSessionStreamsPerClient : Z := 256.

(** ** Errors *)

Inductive SessionError :=
| ErrSessionStoreClosed
| ErrStaleSession
| StaleSessionError (clientID : string) (expected observed : Z)
| SessionGateCapacityError (resource : string) (maximum : Z)
| ErrSessionCapacity
| ErrRandom
| ErrUniqueID
| ErrBoundedToken
| ErrSessionNilContext
| ErrSessionContext
| ErrStreamLimit
| ErrEpochOverflow
| ErrStoreArguments.

(** [errors.Is(err, ErrStaleSession)] and [errors.Is(err, ErrSessionGateCapacity)]. *)
Definition is_stale (e : SessionError) : bool :=
  match e with ErrStaleSession | StaleSessionError _ _ _ => true | _ => false end.
Definition is_gate_capacity (e : SessionError) : bool :=
  match e with SessionGateCapacityError _ _ => true | _ => false end.

(** [boundedToken] of src/daemon/definition.go. *)
Definition boundedToken (value : string) : bool :=
  negb (String.eqb value "" || negb (String.eqb value (TrimSpace value)) || (slen value >? 128))
  && negb (has_control value).

(** ** State *)

Record Session := mkSession { sn_clientID : string; sn_epoch : Z; sn_ctx : Z }.

Record sessionState := mkState {
  ss_epoch : Z;
  ss_ctx : Z;
  ss_changed : Z;
  ss_active : option Z;
  ss_mutationWaiters : list Z;
  ss_reconnectWaiters : list Z;
  ss_streamWaiters : list Z;
  ss_streams : gset Z
}.

(** [st_fencing] holds the reconnect waiters whose [fencing] flag is set. *)
Record SessionStore := mkStore {
  st_maximum : Z;
  st_sessions : gmap string sessionState;
  st_closed : bool;
  st_rootDone : bool;
  st_drained : bool;
  st_next : Z;
  st_cancelled : gset Z;
  st_fencing : gset Z
}.

Definition newSessionStore (root : ctx_arg) (maximum : Z) : result SessionError SessionStore :=
  match root with
  | CtxNil => Err ErrStoreArguments
  | _ =>
      if (maximum <? 1) || (maximum >? maximumSessions) then Err ErrStoreArguments
      else Ok (mkStore maximum ∅ false (match root with CtxDone => true | _ => false end) false
                 1 ∅ ∅)
  end.

(** ** Record updates *)

Definition with_sessions (st : SessionStore) (sessions : gmap string sessionState) : SessionStore :=
  mkStore (st_maximum st) sessions (st_closed st) (st_rootDone st) (st_drained st) (st_next st)
    (st_cancelled st) (st_fencing st).
Definition set_session (st : SessionStore) (c : string) (s : sessionState) : SessionStore :=
  with_sessions st (<[c := s]> (st_sessions st)).
Definition with_next (st : SessionStore) (next : Z) : SessionStore :=
  mkStore (st_maximum st) (st_sessions st) (st_closed st) (st_rootDone st) (st_drained st) next
    (st_cancelled st) (st_fencing st).
Definition set_fencing (st : SessionStore) (w : Z) : SessionStore :=
  mkStore (st_maximum st) (st_sessions st) (st_closed st) (st_rootDone st) (st_drained st)
    (st_next st) (st_cancelled st) ({[w]} ∪ st_fencing st).
(** Running cancel functions, outside the lock. *)
Definition cancel_contexts (st : SessionStore) (ids : gset Z) : SessionStore :=
  mkStore (st_maximum st) (st_sessions st) (st_closed st) (st_rootDone st) (st_drained st)
    (st_next st) (ids ∪ st_cancelled st) (st_fencing st).
Definition cancel_root (st : SessionStore) : SessionStore :=
  mkStore (st_maximum st) (st_sessions st) (st_closed st) true (st_drained st) (st_next st)
    (st_cancelled st) (st_fencing st).

Definition with_active (s : sessionState) (active : option Z) : sessionState :=
  mkState (ss_epoch s) (ss_ctx s) (ss_changed s) active (ss_mutationWaiters s)
    (ss_reconnectWaiters s) (ss_streamWaiters s) (ss_streams s).
(** The three waiter queues of a client's gate. *)
Inductive gate := GMutation | GReconnect | GStream.
#[export] Instance gate_eq_dec : EqDecision gate.
Proof. solve_decision. Defined.

Definition waiters (g : gate) (s : sessionState) : list Z :=
  match g with
  | GMutation => ss_mutationWaiters s
  | GReconnect => ss_reconnectWaiters s
  | GStream => ss_streamWaiters s
  end.
Definition with_waiters (g : gate) (s : sessionState) (l : list Z) : sessionState :=
  mkState (ss_epoch s) (ss_ctx s) (ss_changed s) (ss_active s)
    (match g with GMutation => l | _ => ss_mutationWaiters s end)
    (match g with GReconnect => l | _ => ss_reconnectWaiters s end)
    (match g with GStream => l | _ => ss_streamWaiters s end)
    (ss_streams s).
Definition with_streams (s : sessionState) (streams : gset Z) : sessionState :=
  mkState (ss_epoch s) (ss_ctx s) (ss_changed s) (ss_active s) (ss_mutationWaiters s)
    (ss_reconnectWaiters s) (ss_streamWaiters s) streams.

(** ** Locked helpers *)

Definition closedLocked (st : SessionStore) : bool := st_closed st || st_rootDone st.

Definition signalLocked (s : sessionState) : sessionState :=
  mkState (ss_epoch s) (ss_ctx s) (ss_changed s + 1) (ss_active s) (ss_mutationWaiters s)
    (ss_reconnectWaiters s) (ss_streamWaiters s) (ss_streams s).

Definition idle (s : sessionState) : bool :=
  bool_decide (ss_active s = None) && bool_decide (ss_mutationWaiters s = [])
  && bool_decide (ss_reconnectWaiters s = []) && bool_decide (ss_streamWaiters s = [])
  && bool_decide (ss_streams s = ∅).

Definition all_idle (sessions : gmap string sessionState) : bool :=
  forallb (fun p => idle (snd p)) (map_to_list sessions).

Definition maybeDrainedLocked (st : SessionStore) : SessionStore :=
  if negb (st_closed st) then st
  else if negb (all_idle (st_sessions st)) then st
  else mkStore (st_maximum st) (st_sessions st) (st_closed st) (st_rootDone st) true (st_next st)
         (st_cancelled st) (st_fencing st).

Definition sessionLocked (st : SessionStore) (clientID : string) (observed : Z)
  : result SessionError sessionState :=
  if closedLocked st then Err ErrSessionStoreClosed
  else match st_sessions st !! clientID with
  | None => Err ErrStaleSession
  | Some state =>
      if (observed =? 0) || negb (ss_epoch state =? observed)
      then Err (StaleSessionError clientID (ss_epoch state) observed)
      else Ok state
  end.

Definition gateWaitersLocked (s : sessionState) : Z :=
  lenZ (ss_mutationWaiters s) + lenZ (ss_reconnectWaiters s) + lenZ (ss_streamWaiters s).

(** [slices.Delete] of the first occurrence. *)
Fixpoint remove_first (x : Z) (l : list Z) : list Z :=
  match l with
  | [] => []
  | y :: l => if y =? x then l else y :: remove_first x l
  end.

Definition removeWaiterLocked (g : gate) (st : SessionStore) (clientID : string)
  (waiter : option Z) : SessionStore :=
  match st_sessions st !! clientID, waiter with
  | Some state, Some w =>
      maybeDrainedLocked
        (if bool_decide (w ∈ waiters g state)
         then set_session st clientID
                (signalLocked (with_waiters g state (remove_first w (waiters g state))))
         else st)
  | _, _ => st
  end.
Definition removeMutationWaiterLocked := removeWaiterLocked GMutation.
Definition removeStreamWaiterLocked := removeWaiterLocked GStream.
Definition removeReconnectLocked := removeWaiterLocked GReconnect.

(** ** Fresh, Check, Fence *)

Inductive fresh_try := FreshErr (e : SessionError) | FreshRetry | FreshOk (session : Session).

(** One round of the loop of [Fresh], under the lock, with the client ID the
    random bytes encode. *)
Definition fresh_round (st : SessionStore) (clientID : string) : SessionStore * fresh_try :=
  if closedLocked st then (st, FreshErr ErrSessionStoreClosed)
  else if Z.of_nat (size (st_sessions st)) >=? st_maximum st then (st, FreshErr ErrSessionCapacity)
  else match st_sessions st !! clientID with
  | Some _ => (st, FreshRetry)
  | None =>
      let ctx := st_next st in
      let state := mkState 1 ctx 0 None [] [] [] ∅ in
      (with_next (set_session st clientID state) (ctx + 1), FreshOk (mkSession clientID 1 ctx))
  end.

(** [draws] are the client IDs read from the random source, [None] a failed
    read; the loop makes at most four rounds. *)
Fixpoint fresh_loop (fuel : nat) (st : SessionStore) (draws : list (option string))
  : SessionStore * result SessionError Session :=
  match fuel with
  | O => (st, Err ErrUniqueID)
  | S fuel =>
      match draws with
      | Some clientID :: draws =>
          match fresh_round st clientID with
          | (st', FreshErr e) => (st', Err e)
          | (st', FreshOk session) => (st', Ok session)
          | (st', FreshRetry) => fresh_loop fuel st' draws
          end
      | _ => (st, Err ErrRandom)
      end
  end.

Definition Fresh (st : SessionStore) (draws : list (option string))
  : SessionStore * result SessionError Session :=
  if closedLocked st then (st, Err ErrSessionStoreClosed)
  else if Z.of_nat (size (st_sessions st)) >=? st_maximum st then (st, Err ErrSessionCapacity)
  else fresh_loop 4 st draws.

Definition Check_session (st : SessionStore) (clientID : string) (epoch : Z) : option SessionError :=
  if negb (boundedToken clientID) then Some ErrBoundedToken
  else match sessionLocked st clientID epoch with Ok _ => None | Err e => Some e end.

Definition Fence (st : SessionStore) (clientID : string) (epoch : Z) : result SessionError Z :=
  if negb (boundedToken clientID) then Err ErrBoundedToken
  else match sessionLocked st clientID epoch with Ok s => Ok (ss_ctx s) | Err e => Err e end.

(** ** Close *)

(** The locked part of [Close], with the contexts to cancel after the unlock. *)
Definition Close_store (st : SessionStore) : SessionStore * gset Z :=
  if st_closed st then (st, ∅)
  else
    let cancels := map_fold (fun _ s acc => {[ss_ctx s]} ∪ ss_streams s ∪ acc) ∅ (st_sessions st) in
    (maybeDrainedLocked
       (mkStore (st_maximum st) (signalLocked <$> st_sessions st) true (st_rootDone st)
          (st_drained st) (st_next st) (st_cancelled st) (st_fencing st)),
     cancels).

(** What [Shutdown] may return after [Close]: [None] while it blocks. *)
Definition Shutdown_returns (ctx : ctx_arg) (st : SessionStore) : list (option SessionError) :=
  match ctx with
  | CtxNil => [Some ErrSessionNilContext]
  | _ => (if st_drained st then [None] else [])
         ++ (match ctx with CtxDone => [Some ErrSessionContext] | _ => [] end)
  end.

(** ** Mutation gate *)

(** Where an iteration of a blocking loop leaves its call. *)
Inductive attempt :=
| Failed (e : SessionError)
| Granted (lease : Z)
| Wait (waiter : option Z) (changed : Z).

Definition grantMutationLocked (st : SessionStore) (clientID : string) (s : sessionState)
  : SessionStore * Z :=
  let lease := st_next st in
  (with_next (set_session st clientID (with_active s (Some lease))) (lease + 1), lease).

(** The part after the waiter is known; [None] is the index panic of
    [mutationWaiters[0]]. *)
Definition mutation_turn (st : SessionStore) (clientID : string) (s : sessionState) (w : Z)
  : option (SessionStore * attempt) :=
  if negb (bool_decide (ss_reconnectWaiters s = [])) || negb (bool_decide (ss_active s = None))
  then Some (set_session st clientID s, Wait (Some w) (ss_changed s))
  else match ss_mutationWaiters s with
  | [] => None
  | head :: rest =>
      if negb (head =? w) then Some (set_session st clientID s, Wait (Some w) (ss_changed s))
      else
        let '(st', lease) :=
          grantMutationLocked st clientID (signalLocked (with_waiters GMutation s rest)) in
        Some (st', Granted lease)
  end.

Definition tryAcquireMutationLocked (st : SessionStore) (clientID : string) (s : sessionState)
  (waiter : option Z) : option (SessionStore * attempt) :=
  match waiter with
  | None =>
      if bool_decide (ss_active s = None) && bool_decide (ss_mutationWaiters s = [])
         && bool_decide (ss_reconnectWaiters s = [])
      then let '(st', lease) := grantMutationLocked st clientID s in Some (st', Granted lease)
      else if gateWaitersLocked s >=? maximumSessionGateWaitersPerClient
      then Some (st, Failed (SessionGateCapacityError "session gate waiters"
                               maximumSessionGateWaitersPerClient))
      else
        let w := st_next st in
        mutation_turn (with_next st (w + 1)) clientID
          (with_waiters GMutation s (ss_mutationWaiters s ++ [w])) w
  | Some w => mutation_turn st clientID s w
  end.

(** One iteration of [AcquireMutationCommit]; [early] and [late] are what
    [ctx.Err()] says before and after the lock is taken. *)
Definition mutation_iteration (early late : bool) (st : SessionStore) (clientID : string)
  (epoch : Z) (waiter : option Z) : option (SessionStore * attempt) :=
  if early then Some (removeMutationWaiterLocked st clientID waiter, Failed ErrSessionContext)
  else match sessionLocked st clientID epoch with
  | Err e => Some (removeMutationWaiterLocked st clientID waiter, Failed e)
  | Ok s =>
      if late then Some (removeMutationWaiterLocked st clientID waiter, Failed ErrSessionContext)
      else tryAcquireMutationLocked st clientID s waiter
  end.

(** [MutationCommitLease.Close], the body its [once] runs. *)
Definition mutation_lease_close (st : SessionStore) (clientID : string) (lease : Z)
  : SessionStore :=
  maybeDrainedLocked
    (match st_sessions st !! clientID with
     | Some s => if bool_decide (ss_active s = Some lease)
                 then set_session st clientID (signalLocked (with_active s None)) else st
     | None => st
     end).

(** ** Stream gate *)

Definition stream_iteration (early late : bool) (maximum : Z) (st : SessionStore)
  (clientID : string) (epoch : Z) (waiter : option Z) : SessionStore * attempt :=
  if early then (removeStreamWaiterLocked st clientID waiter, Failed ErrSessionContext)
  else match sessionLocked st clientID epoch with
  | Err e => (removeStreamWaiterLocked st clientID waiter, Failed e)
  | Ok s =>
      if late then (removeStreamWaiterLocked st clientID waiter, Failed ErrSessionContext)
      else if bool_decide (ss_reconnectWaiters s = []) then
        let st1 := removeStreamWaiterLocked st clientID waiter in
        let s1 := default s (st_sessions st1 !! clientID) in
        if Z.of_nat (size (ss_streams s1)) >=? maximum
        then (st1, Failed (SessionGateCapacityError "stream leases" maximum))
        else
          let lease := st_next st1 in
          (with_next (set_session st1 clientID (with_streams s1 ({[lease]} ∪ ss_streams s1)))
             (lease + 1), Granted lease)
      else match waiter with
      | None =>
          if gateWaitersLocked s >=? maximumSessionGateWaitersPerClient
          then (st, Failed (SessionGateCapacityError "session gate waiters"
                              maximumSessionGateWaitersPerClient))
          else
            let w := st_next st in
            (with_next (set_session st clientID
               (with_waiters GStream s (ss_streamWaiters s ++ [w]))) (w + 1),
             Wait (Some w) (ss_changed s))
      | Some w => (st, Wait (Some w) (ss_changed s))
      end
  end.

(** The locked part of [StreamLease.Close]. *)
Definition stream_lease_release (st : SessionStore) (clientID : string) (lease : Z)
  : SessionStore :=
  maybeDrainedLocked
    (match st_sessions st !! clientID with
     | Some s => set_session st clientID (signalLocked (with_streams s (ss_streams s ∖ {[lease]})))
     | None => st
     end).

(** ** Reconnect *)

Definition registerReconnect (st : SessionStore) (clientID : string) (expected : Z)
  : SessionStore * result SessionError Z :=
  match sessionLocked st clientID expected with
  | Err e => (st, Err e)
  | Ok s =>
      if expected =? maxUint64 then (st, Err ErrEpochOverflow)
      else if gateWaitersLocked s >=? maximumSessionGateWaitersPerClient
      then (st, Err (SessionGateCapacityError "session gate waiters"
                       maximumSessionGateWaitersPerClient))
      else
        let w := st_next st in
        (with_next (set_session st clientID
           (signalLocked (with_waiters GReconnect s (ss_reconnectWaiters s ++ [w])))) (w + 1), Ok w)
  end.

Inductive reconnectStep :=
| RDone (outcome : result SessionError Session) (oldCancel : option Z)
| RCancel (streams : gset Z)
| RWait (changed : Z).

(** The store is not closed here, so the new context is live. *)
Definition advanceReconnectLocked (st : SessionStore) (clientID : string) (s : sessionState)
  (waiter : Z) : SessionStore * reconnectStep :=
  if st_rootDone st
  then (removeReconnectLocked st clientID (Some waiter), RDone (Err ErrSessionStoreClosed) None)
  else
    let ctx := st_next st in
    let epoch := ss_epoch s +64 1 in
    (with_next (set_session st clientID
       (signalLocked (mkState epoch ctx (ss_changed s) (ss_active s) (ss_mutationWaiters s)
          (tail (ss_reconnectWaiters s)) (ss_streamWaiters s) (ss_streams s)))) (ctx + 1),
     RDone (Ok (mkSession clientID epoch ctx)) (Some (ss_ctx s))).

(** [None] is the index panic of [reconnectWaiters[0]]. *)
Definition reconnectStepLocked (st : SessionStore) (clientID : string) (expected : Z)
  (waiter : Z) : option (SessionStore * reconnectStep) :=
  if closedLocked st
  then Some (removeReconnectLocked st clientID (Some waiter), RDone (Err ErrSessionStoreClosed) None)
  else match st_sessions st !! clientID with
  | None => None
  | Some s =>
      if negb (ss_epoch s =? expected)
      then Some (removeReconnectLocked st clientID (Some waiter),
                 RDone (Err (StaleSessionError clientID (ss_epoch s) expected)) None)
      else match ss_reconnectWaiters s with
      | [] => None
      | head :: _ =>
          if negb (head =? waiter) || negb (bool_decide (ss_active s = None))
          then Some (st, RWait (ss_changed s))
          else
            let first := bool_decide (waiter ∉ st_fencing st) in
            let st' := if first then set_fencing st waiter else st in
            if first && negb (bool_decide (ss_streams s = ∅))
            then Some (st', RCancel (ss_streams s))
            else if negb (bool_decide (ss_streams s = ∅))
            then Some (st', RWait (ss_changed s))
            else Some (advanceReconnectLocked st' clientID s waiter)
      end
  end.

(** ** Calls in progress *)

Inductive outcome := OError (e : SessionError) | OLease (lease : Z) | OSession (session : Session).

(** [PCancel] and [POldCancel] are the cancellations [ReconnectContext] runs
    after the unlock. *)
Inductive claim_pc :=
| PReady
| PWait (changed : Z)
| PCancel (streams : gset Z)
| POldCancel (ctx : Z) (session : Session)
| PDone (o : outcome).

Record claim := mkClaim {
  cl_gate : gate;
  cl_maximum : Z;
  cl_client : string;
  cl_epoch : Z;
  cl_waiter : option Z;
  cl_ctxDone : bool;
  cl_pc : claim_pc
}.

Definition claim_at (cl : claim) (waiter : option Z) (pc : claim_pc) : claim :=
  mkClaim (cl_gate cl) (cl_maximum cl) (cl_client cl) (cl_epoch cl) waiter (cl_ctxDone cl) pc.

Definition claim_after (cl : claim) (a : attempt) : claim :=
  match a with
  | Failed e => claim_at cl (cl_waiter cl) (PDone (OError e))
  | Granted lease => claim_at cl (cl_waiter cl) (PDone (OLease lease))
  | Wait waiter changed => claim_at cl waiter (PWait changed)
  end.

(** A lease is open, closing (the flag of [StreamLease.Close] is set, the
    locked part has not run) or closed. *)
Inductive lease_phase := LOpen | LClosing | LClosed.
#[export] Instance lease_phase_eq_dec : EqDecision lease_phase.
Proof. solve_decision. Defined.

Record lease := mkLease {
  ls_stream : bool;
  ls_client : string;
  ls_epoch : Z;
  ls_phase : lease_phase
}.

(** [sw_cancels] are the contexts [Close] still has to cancel; [sw_issued]
    records every ownership epoch handed out. *)
Record SessionWorld := mkSWorld {
  sw_store : SessionStore;
  sw_claims : gmap Z claim;
  sw_leases : gmap Z lease;
  sw_cancels : gset Z;
  sw_issued : list (string * Z)
}.

(** The checks before the loops: nil and cancelled contexts, the stream
    limit, the client ID. *)
Definition claim_guard (g : gate) (maximum : Z) (ctx : ctx_arg) (clientID : string)
  : option SessionError :=
  if bool_decide (g = GStream)
     && ((maximum <? 1) || (maximum >? maximumSessionStreamsPerClient)) then Some ErrStreamLimit
  else match ctx with
  | CtxNil => Some ErrSessionNilContext
  | CtxDone => Some ErrSessionContext
  | CtxLive => if negb (boundedToken clientID) then Some ErrBoundedToken else None
  end.

(** [AcquireMutationCommit], [acquireStream] and [ReconnectContext] up to
    their first iteration. *)
Definition claim_begin (g : gate) (maximum : Z) (ctx : ctx_arg) (clientID : string) (epoch : Z)
  (st : SessionStore) : SessionStore * claim :=
  let cl := mkClaim g maximum clientID epoch None false PReady in
  match claim_guard g maximum ctx clientID with
  | Some e => (st, claim_at cl None (PDone (OError e)))
  | None =>
      match g with
      | GReconnect =>
          match registerReconnect st clientID epoch with
          | (st', Ok w) => (st', claim_at cl (Some w) PReady)
          | (st', Err e) => (st', claim_at cl None (PDone (OError e)))
          end
      | _ => (st, cl)
      end
  end.

(** One iteration of a claim's loop; [early] and [late] as above. *)
Definition claim_iterate (early late : bool) (st : SessionStore) (cl : claim)
  : option (SessionStore * claim) :=
  match cl_gate cl with
  | GMutation =>
      match mutation_iteration early late st (cl_client cl) (cl_epoch cl) (cl_waiter cl) with
      | Some (st', a) => Some (st', claim_after cl a)
      | None => None
      end
  | GStream =>
      let '(st', a) := stream_iteration early late (cl_maximum cl) st (cl_client cl) (cl_epoch cl)
                         (cl_waiter cl) in
      Some (st', claim_after cl a)
  | GReconnect =>
      match cl_waiter cl with
      | None => None
      | Some w =>
          if early
          then Some (removeReconnectLocked st (cl_client cl) (Some w),
                     claim_at cl (Some w) (PDone (OError ErrSessionContext)))
          else match reconnectStepLocked st (cl_client cl) (cl_epoch cl) w with
          | None => None
          | Some (st', RCancel streams) => Some (st', claim_at cl (Some w) (PCancel streams))
          | Some (st', RWait changed) => Some (st', claim_at cl (Some w) (PWait changed))
          | Some (st', RDone (Ok session) (Some old)) =>
              Some (st', claim_at cl (Some w) (POldCancel old session))
          | Some (st', RDone (Ok session) None) =>
              Some (st', claim_at cl (Some w) (PDone (OSession session)))
          | Some (st', RDone (Err e) _) =>
              Some (st', claim_at cl (Some w) (PDone (OError e)))
          end
      end
  end.

(** A claim may run an iteration when it is ready, or woken: its channel was
    closed, its context is done, or the root is. *)
Definition claim_enabled (st : SessionStore) (cl : claim) : bool :=
  match cl_pc cl with
  | PReady => true
  | PWait changed =>
      cl_ctxDone cl || st_rootDone st
      || match st_sessions st !! cl_client cl with
         | Some s => negb (ss_changed s =? changed)
         | None => false
         end
  | _ => false
  end.

(** What the two reads of [ctx.Err()] may say. *)
Definition ctx_views (cl : claim) (early late : bool) : bool :=
  if cl_ctxDone cl then early || late else negb early && negb late.

Definition new_lease (cl cl' : claim) (leases : gmap Z lease) : gmap Z lease :=
  match cl_pc cl' with
  | PDone (OLease l) =>
      <[l := mkLease (bool_decide (cl_gate cl = GStream)) (cl_client cl) (cl_epoch cl) LOpen]> leases
  | _ => leases
  end.
Definition new_owner (cl' : claim) (issued : list (string * Z)) : list (string * Z) :=
  match cl_pc cl' with
  | POldCancel _ session => issued ++ [(sn_clientID session, sn_epoch session)]
  | _ => issued
  end.

Inductive session_step : SessionWorld -> SessionWorld -> Prop :=
| sstep_fresh w c st' r :
    fresh_round (sw_store w) c = (st', r) ->
    session_step w (mkSWorld st' (sw_claims w) (sw_leases w) (sw_cancels w)
      (match r with FreshOk s => sw_issued w ++ [(sn_clientID s, sn_epoch s)] | _ => sw_issued w end))
| sstep_begin w id g maximum ctx c epoch st' cl :
    sw_claims w !! id = None ->
    claim_begin g maximum ctx c epoch (sw_store w) = (st', cl) ->
    session_step w (mkSWorld st' (<[id := cl]> (sw_claims w)) (sw_leases w) (sw_cancels w)
      (sw_issued w))
| sstep_iterate w id cl early late st' cl' :
    sw_claims w !! id = Some cl -> claim_enabled (sw_store w) cl = true ->
    ctx_views cl early late = true ->
    claim_iterate early late (sw_store w) cl = Some (st', cl') ->
    session_step w (mkSWorld st' (<[id := cl']> (sw_claims w)) (new_lease cl cl' (sw_leases w))
      (sw_cancels w) (new_owner cl' (sw_issued w)))
| sstep_cancel w id cl streams :
    sw_claims w !! id = Some cl -> cl_pc cl = PCancel streams ->
    session_step w (mkSWorld (cancel_contexts (sw_store w) streams)
      (<[id := claim_at cl (cl_waiter cl) PReady]> (sw_claims w)) (sw_leases w) (sw_cancels w)
      (sw_issued w))
| sstep_old_cancel w id cl ctx session :
    sw_claims w !! id = Some cl -> cl_pc cl = POldCancel ctx session ->
    session_step w (mkSWorld (cancel_contexts (sw_store w) {[ctx]})
      (<[id := claim_at cl (cl_waiter cl) (PDone (OSession session))]> (sw_claims w)) (sw_leases w)
      (sw_cancels w) (sw_issued w))
| sstep_ctx_done w id cl :
    sw_claims w !! id = Some cl ->
    session_step w (mkSWorld (sw_store w)
      (<[id := mkClaim (cl_gate cl) (cl_maximum cl) (cl_client cl) (cl_epoch cl) (cl_waiter cl)
                 true (cl_pc cl)]> (sw_claims w)) (sw_leases w) (sw_cancels w) (sw_issued w))
| sstep_mutation_close w l c e :
    sw_leases w !! l = Some (mkLease false c e LOpen) ->
    session_step w (mkSWorld (mutation_lease_close (sw_store w) c l) (sw_claims w)
      (<[l := mkLease false c e LClosed]> (sw_leases w)) (sw_cancels w) (sw_issued w))
| sstep_stream_close w l c e :
    sw_leases w !! l = Some (mkLease true c e LOpen) ->
    session_step w (mkSWorld (cancel_contexts (sw_store w) {[l]}) (sw_claims w)
      (<[l := mkLease true c e LClosing]> (sw_leases w)) (sw_cancels w) (sw_issued w))
| sstep_stream_release w l c e :
    sw_leases w !! l = Some (mkLease true c e LClosing) ->
    session_step w (mkSWorld (stream_lease_release (sw_store w) c l) (sw_claims w)
      (<[l := mkLease true c e LClosed]> (sw_leases w)) (sw_cancels w) (sw_issued w))
| sstep_caller_done w l c e ph :
    sw_leases w !! l = Some (mkLease true c e ph) ->
    session_step w (mkSWorld (cancel_contexts (sw_store w) {[l]}) (sw_claims w) (sw_leases w)
      (sw_cancels w) (sw_issued w))
| sstep_close w st' cancels :
    Close_store (sw_store w) = (st', cancels) ->
    session_step w (mkSWorld st' (sw_claims w) (sw_leases w) (cancels ∪ sw_cancels w) (sw_issued w))
| sstep_close_cancels w :
    st_closed (sw_store w) = true ->
    session_step w (mkSWorld (cancel_root (cancel_contexts (sw_store w) (sw_cancels w)))
      (sw_claims w) (sw_leases w) ∅ (sw_issued w))
| sstep_root_done w :
    session_step w (mkSWorld (cancel_root (sw_store w)) (sw_claims w) (sw_leases w) (sw_cancels w)
      (sw_issued w)).

Definition session_reachable (maximum : Z) (w : SessionWorld) : Prop :=
  exists st, newSessionStore CtxLive maximum = Ok st
             /\ rtc session_step (mkSWorld st ∅ ∅ ∅ []) w.

(** ** The invariant *)

Definition in_loop (cl : claim) : bool :=
  match cl_pc cl with PReady | PWait _ | PCancel _ => true | _ => false end.

Definition lease_held (w : SessionWorld) (stream : bool) (c : string) (l : Z) : Prop :=
  exists ls, sw_leases w !! l = Some ls /\ ls_stream ls = stream /\ ls_client ls = c
             /\ ls_phase ls <> LClosed.

Definition waiting_claim (w : SessionWorld) (g : gate) (c : string) (x : Z) : Prop :=
  exists id cl, sw_claims w !! id = Some cl /\ in_loop cl = true /\ cl_gate cl = g
                /\ cl_client cl = c /\ cl_waiter cl = Some x.

(** Why a claim with waiter [x] has to wait. *)
Definition blocked (st : SessionStore) (s : sessionState) (g : gate) (x : Z) : Prop :=
  match g with
  | GMutation => ss_reconnectWaiters s <> [] \/ ss_active s <> None
                 \/ head (ss_mutationWaiters s) <> Some x
  | GStream => ss_reconnectWaiters s <> []
  | GReconnect => head (ss_reconnectWaiters s) <> Some x \/ ss_active s <> None
                  \/ (x ∈ st_fencing st /\ ss_streams s <> ∅)
  end.

Definition fence_ok (st : SessionStore) (s : sessionState) (cl : claim) (x : Z) : Prop :=
  match cl_pc cl with
  | PCancel streams => x ∈ st_fencing st /\ ss_streams s ⊆ streams ∪ st_cancelled st
  | _ => x ∈ st_fencing st -> ss_streams s ⊆ st_cancelled st
  end.

(** A claim in its loop. *)
Record claim_ok (st : SessionStore) (cl : claim) : Prop := {
  co_state : cl_waiter cl <> None -> is_Some (st_sessions st !! cl_client cl);
  co_reconnect : cl_gate cl = GReconnect -> cl_waiter cl <> None /\ cl_epoch cl < maxUint64;
  co_cancel : forall streams, cl_pc cl = PCancel streams -> cl_gate cl = GReconnect;
  co_maximum : cl_gate cl = GStream -> 1 <= cl_maximum cl <= maximumSessionStreamsPerClient;
  co_wait : forall changed, cl_pc cl = PWait changed ->
    exists s x, st_sessions st !! cl_client cl = Some s /\ cl_waiter cl = Some x
      /\ changed <= ss_changed s
      /\ (changed = ss_changed s ->
          st_closed st = false /\ cl_epoch cl = ss_epoch s /\ blocked st s (cl_gate cl) x);
  co_fence : forall s x, cl_gate cl = GReconnect -> st_sessions st !! cl_client cl = Some s ->
    cl_waiter cl = Some x -> fence_ok st s cl x
}.

Record state_ok (w : SessionWorld) (c : string) (s : sessionState) : Prop := {
  so_epoch : 1 <= ss_epoch s <= maxUint64;
  so_gate : gateWaitersLocked s <= maximumSessionGateWaitersPerClient;
  so_streams_max : Z.of_nat (size (ss_streams s)) <= maximumSessionStreamsPerClient;
  so_active : forall l, ss_active s = Some l <-> lease_held w false c l;
  so_streams : forall l, l ∈ ss_streams s <-> lease_held w true c l;
  so_nodup : forall g, NoDup (waiters g s);
  so_waiters : forall g x, x ∈ waiters g s <-> waiting_claim w g c x;
  so_issued : (c, ss_epoch s) ∈ sw_issued w
}.

Record session_inv (w : SessionWorld) : Prop := {
  wi_drained : st_drained (sw_store w)
    = st_closed (sw_store w) && all_idle (st_sessions (sw_store w));
  wi_lease_ids : forall l, is_Some (sw_leases w !! l) -> l < st_next (sw_store w);
  wi_waiter_ids : forall id cl x, sw_claims w !! id = Some cl -> cl_waiter cl = Some x ->
    x < st_next (sw_store w);
  wi_waiter_unique : forall id1 id2 cl1 cl2 x, sw_claims w !! id1 = Some cl1 ->
    sw_claims w !! id2 = Some cl2 -> cl_waiter cl1 = Some x -> cl_waiter cl2 = Some x -> id1 = id2;
  wi_fencing_ids : forall x, x ∈ st_fencing (sw_store w) -> x < st_next (sw_store w);
  wi_states : forall c s, st_sessions (sw_store w) !! c = Some s -> state_ok w c s;
  wi_lease_epoch : forall l ls, sw_leases w !! l = Some ls -> ls_phase ls <> LClosed ->
    exists s, st_sessions (sw_store w) !! ls_client ls = Some s /\ ls_epoch ls = ss_epoch s;
  wi_claims : forall id cl, sw_claims w !! id = Some cl -> in_loop cl = true ->
    claim_ok (sw_store w) cl;
  wi_issued_nodup : NoDup (sw_issued w);
  wi_issued : forall c e, (c, e) ∈ sw_issued w ->
    exists s, st_sessions (sw_store w) !! c = Some s /\ 1 <= e <= ss_epoch s
}.

(** ** Lemmas on the helpers *)

Lemma remove_first_elem x y l : NoDup l -> y ∈ remove_first x l <-> y ∈ l /\ y <> x.
Proof.
  induction l as [|z l IH]; simpl; intros Hn; [set_solver|].
  apply NoDup_cons in Hn as [Hz Hn]. destruct (z =? x) eqn:E; bprop.
  - subst z. split; [intros H; split; [set_solver|congruence]|set_solver].
  - rewrite !elem_of_cons, IH by done. naive_solver congruence.
Qed.

Lemma remove_first_nodup x l : NoDup l -> NoDup (remove_first x l).
Proof.
  induction l as [|z l IH]; simpl; intros Hn; [constructor|].
  pose proof Hn as Hn0. apply NoDup_cons in Hn as [Hz Hn]. destruct (z =? x); [done|].
  apply NoDup_cons. split; [rewrite remove_first_elem by done; naive_solver|auto].
Qed.

Lemma remove_first_len x l : x ∈ l -> lenZ (remove_first x l) = lenZ l - 1.
Proof.
  induction l as [|z l IH]; simpl; intros Hx; [set_solver|].
  destruct (z =? x) eqn:E; bprop; autorewrite with spice; [lia|].
  rewrite IH; [lia|]. apply elem_of_cons in Hx as [->|]; [done|done].
Qed.

Lemma waiters_with g g' s l :
  waiters g' (with_waiters g s l) = if decide (g' = g) then l else waiters g' s.
Proof. by destruct g, g'. Qed.

Lemma waiters_signal g s : waiters g (signalLocked s) = waiters g s.
Proof. by destruct g. Qed.

Lemma gate_with g s l :
  gateWaitersLocked (with_waiters g s l) = gateWaitersLocked s - lenZ (waiters g s) + lenZ l.
Proof. unfold gateWaitersLocked. destruct g; simpl; lia. Qed.

Lemma all_idle_spec m : all_idle m = true <-> forall c s, m !! c = Some s -> idle s = true.
Proof.
  unfold all_idle. rewrite forallb_forall. split.
  - intros H c s Hs. apply (H (c, s)), list_elem_of_In, elem_of_map_to_list, Hs.
  - intros H [c s] Hin. apply list_elem_of_In, elem_of_map_to_list in Hin. by apply (H c).
Qed.

Lemma idle_spec s : idle s = true <->
  ss_active s = None /\ ss_mutationWaiters s = [] /\ ss_reconnectWaiters s = []
  /\ ss_streamWaiters s = [] /\ ss_streams s = ∅.
Proof. unfold idle. rewrite !andb_true_iff, !bool_decide_eq_true. tauto. Qed.

Lemma idle_waiters g s : idle s = true -> waiters g s = [].
Proof. rewrite idle_spec. destruct g; simpl; tauto. Qed.

(** [maybeDrainedLocked] only moves [st_drained]. *)
Lemma maybeDrained_eq st :
  maybeDrainedLocked st = mkStore (st_maximum st) (st_sessions st) (st_closed st) (st_rootDone st)
    (st_drained st || (st_closed st && all_idle (st_sessions st))) (st_next st) (st_cancelled st)
    (st_fencing st).
Proof.
  unfold maybeDrainedLocked. destruct st as [a b cl d dr e f g]; simpl.
  destruct cl; simpl; [|by rewrite orb_false_r].
  destruct (all_idle b); simpl; [by rewrite orb_true_r|by rewrite orb_false_r].
Qed.

Lemma sessionLocked_Ok st c epoch s :
  sessionLocked st c epoch = Ok s ->
  st_closed st = false /\ st_rootDone st = false /\ st_sessions st !! c = Some s
  /\ ss_epoch s = epoch /\ epoch <> 0.
Proof.
  unfold sessionLocked, closedLocked. intros H. repeat (split_match_in H; try discriminate).
  bprop. injection H as <-. auto.
Qed.

(** ** One iteration *)

(** Every way an iteration can end, with its precondition. *)
Inductive iterate_outcome (st : SessionStore) (cl : claim) : SessionStore -> claim -> Prop :=
| it_refused e :
    cl_waiter cl = None ->
    iterate_outcome st cl st (claim_at cl None (PDone (OError e)))
| it_left e s x :
    st_sessions st !! cl_client cl = Some s -> cl_waiter cl = Some x ->
    x ∈ waiters (cl_gate cl) s ->
    iterate_outcome st cl
      (maybeDrainedLocked (set_session st (cl_client cl) (signalLocked
         (with_waiters (cl_gate cl) s (remove_first x (waiters (cl_gate cl) s))))))
      (claim_at cl (Some x) (PDone (OError e)))
| it_mutation_now s :
    cl_gate cl = GMutation -> cl_waiter cl = None ->
    sessionLocked st (cl_client cl) (cl_epoch cl) = Ok s ->
    ss_active s = None -> ss_mutationWaiters s = [] -> ss_reconnectWaiters s = [] ->
    iterate_outcome st cl
      (with_next (set_session st (cl_client cl) (with_active s (Some (st_next st)))) (st_next st + 1))
      (claim_at cl None (PDone (OLease (st_next st))))
| it_mutation_turn s x rest :
    cl_gate cl = GMutation -> cl_waiter cl = Some x ->
    sessionLocked st (cl_client cl) (cl_epoch cl) = Ok s ->
    ss_active s = None -> ss_mutationWaiters s = x :: rest -> ss_reconnectWaiters s = [] ->
    iterate_outcome st cl
      (with_next (set_session st (cl_client cl)
         (with_active (signalLocked (with_waiters GMutation s rest)) (Some (st_next st))))
         (st_next st + 1))
      (claim_at cl (Some x) (PDone (OLease (st_next st))))
| it_queued s :
    cl_gate cl <> GReconnect -> cl_waiter cl = None ->
    sessionLocked st (cl_client cl) (cl_epoch cl) = Ok s ->
    gateWaitersLocked s < maximumSessionGateWaitersPerClient ->
    (forall st', blocked st' (with_waiters (cl_gate cl) s (waiters (cl_gate cl) s ++ [st_next st]))
       (cl_gate cl) (st_next st)) ->
    iterate_outcome st cl
      (with_next (set_session st (cl_client cl)
         (with_waiters (cl_gate cl) s (waiters (cl_gate cl) s ++ [st_next st]))) (st_next st + 1))
      (claim_at cl (Some (st_next st)) (PWait (ss_changed s)))
| it_wait s x :
    cl_waiter cl = Some x -> sessionLocked st (cl_client cl) (cl_epoch cl) = Ok s ->
    blocked st s (cl_gate cl) x ->
    iterate_outcome st cl st (claim_at cl (Some x) (PWait (ss_changed s)))
| it_stream s s1 :
    cl_gate cl = GStream -> sessionLocked st (cl_client cl) (cl_epoch cl) = Ok s ->
    ss_reconnectWaiters s = [] -> Z.of_nat (size (ss_streams s)) < cl_maximum cl ->
    s1 = match cl_waiter cl with
         | Some x => signalLocked (with_waiters GStream s (remove_first x (ss_streamWaiters s)))
         | None => s
         end ->
    iterate_outcome st cl
      (with_next (set_session st (cl_client cl)
         (with_streams s1 ({[st_next st]} ∪ ss_streams s))) (st_next st + 1))
      (claim_at cl (cl_waiter cl) (PDone (OLease (st_next st))))
| it_fence s x rest :
    cl_gate cl = GReconnect -> cl_waiter cl = Some x ->
    sessionLocked st (cl_client cl) (cl_epoch cl) = Ok s ->
    ss_reconnectWaiters s = x :: rest -> ss_active s = None -> ss_streams s <> ∅ ->
    x ∉ st_fencing st ->
    iterate_outcome st cl (set_fencing st x) (claim_at cl (Some x) (PCancel (ss_streams s)))
| it_advance s x rest st1 :
    cl_gate cl = GReconnect -> cl_waiter cl = Some x ->
    sessionLocked st (cl_client cl) (cl_epoch cl) = Ok s ->
    ss_reconnectWaiters s = x :: rest -> ss_active s = None -> ss_streams s = ∅ ->
    ss_epoch s < maxUint64 ->
    (st1 = st \/ st1 = set_fencing st x) ->
    iterate_outcome st cl
      (with_next (set_session st1 (cl_client cl)
         (signalLocked (mkState (ss_epoch s + 1) (st_next st) (ss_changed s) None
            (ss_mutationWaiters s) rest (ss_streamWaiters s) ∅))) (st_next st + 1))
      (claim_at cl (Some x) (POldCancel (ss_ctx s)
         (mkSession (cl_client cl) (ss_epoch s + 1) (st_next st)))).

(** [insert_id] for a client that is present. *)
Lemma insert_id' st c s :
  st_sessions st !! c = Some s -> set_session st c s = st.
Proof. intros H. unfold set_session, with_sessions. rewrite insert_id by done. by destruct st. Qed.

Lemma set_session_twice st c s s' : set_session (set_session st c s) c s' = set_session st c s'.
Proof. unfold set_session, with_sessions. simpl. by rewrite insert_insert_eq. Qed.

Section iterate.
  Context (st : SessionStore) (cl : claim).
  Hypothesis Hok : claim_ok st cl.
  Hypothesis Hin : forall s x, st_sessions st !! cl_client cl = Some s -> cl_waiter cl = Some x ->
    x ∈ waiters (cl_gate cl) s.
  Hypothesis Hfresh : forall s g x, st_sessions st !! cl_client cl = Some s ->
    x ∈ waiters g s -> x < st_next st.
  Hypothesis Hstates : forall s, st_sessions st !! cl_client cl = Some s ->
    1 <= ss_epoch s <= maxUint64.

Lemma leave_outcome e :
  iterate_outcome st cl (removeWaiterLocked (cl_gate cl) st (cl_client cl) (cl_waiter cl))
    (claim_at cl (cl_waiter cl) (PDone (OError e))).
Proof.
  unfold removeWaiterLocked. destruct (cl_waiter cl) as [x|] eqn:Ew.
  - destruct (co_state _ _ Hok) as [s Hs]; [by rewrite Ew|]. rewrite Hs.
    pose proof (Hin s x Hs eq_refl) as Hx. rewrite bool_decide_eq_true_2 by done.
    by apply it_left.
  - destruct (st_sessions st !! cl_client cl); by apply it_refused.
Qed.

Lemma mutation_turn_outcome s x :
  cl_gate cl = GMutation -> cl_waiter cl = Some x ->
  sessionLocked st (cl_client cl) (cl_epoch cl) = Ok s ->
  exists st' a, mutation_turn st (cl_client cl) s x = Some (st', a)
    /\ iterate_outcome st cl st' (claim_after cl a).
Proof.
  intros Hg Ew Es. rewrite Hg in Hin.
  pose proof (sessionLocked_Ok _ _ _ _ Es) as (Hc & _ & Hs & He & _).
  unfold mutation_turn. rewrite (insert_id' st (cl_client cl) s Hs).
  assert (blocked st s GMutation x ->
    iterate_outcome st cl st (claim_after cl (Wait (Some x) (ss_changed s)))) as Hw.
  { intros Hb. apply it_wait; [done|done|by rewrite Hg]. }
  destruct (bool_decide (ss_reconnectWaiters s = [])) eqn:Er; bprop; simpl;
    [|do 2 eexists; split; [done|]; apply Hw; by left].
  destruct (bool_decide (ss_active s = None)) eqn:Ea; bprop; simpl;
    [|do 2 eexists; split; [done|]; apply Hw; by right; left].
  pose proof (Hin s x Hs Ew) as Hx. simpl in Hx.
  destruct (ss_mutationWaiters s) as [|h rest] eqn:Em; [set_solver|].
  destruct (h =? x) eqn:Eh; bprop; simpl; do 2 eexists; (split; [done|]).
  - subst h. simpl. rewrite Ew. by apply it_mutation_turn.
  - apply Hw. right; right. rewrite Em. simpl. congruence.
Qed.

Lemma mutation_queue_outcome s :
  cl_gate cl = GMutation -> cl_waiter cl = None ->
  sessionLocked st (cl_client cl) (cl_epoch cl) = Ok s ->
  ~ (ss_active s = None /\ ss_mutationWaiters s = [] /\ ss_reconnectWaiters s = []) ->
  gateWaitersLocked s < maximumSessionGateWaitersPerClient ->
  exists st' a, mutation_turn (with_next st (st_next st + 1)) (cl_client cl)
      (with_waiters GMutation s (ss_mutationWaiters s ++ [st_next st])) (st_next st) = Some (st', a)
    /\ iterate_outcome st cl st' (claim_after cl a).
Proof.
  intros Hg Ew Es Hn Hc.
  pose proof (sessionLocked_Ok _ _ _ _ Es) as (_ & _ & Hs & _ & _).
  set (s' := with_waiters GMutation s (ss_mutationWaiters s ++ [st_next st])).
  assert (forall st', blocked st' s' GMutation (st_next st)) as Hb.
  { intros st'. simpl. destruct (decide (ss_reconnectWaiters s = [])) as [Er|]; [|by left].
    destruct (decide (ss_active s = None)) as [Ea|]; [|by right; left]. right; right.
    pose proof (Hfresh s GMutation) as Hf. simpl in Hf.
    destruct (ss_mutationWaiters s) as [|h rest] eqn:Em; [naive_solver|].
    simpl. intros [= ->]. specialize (Hf (st_next st) Hs ltac:(set_solver)). lia. }
  exists (set_session (with_next st (st_next st + 1)) (cl_client cl) s'),
    (Wait (Some (st_next st)) (ss_changed s')). split.
  - unfold mutation_turn. specialize (Hb st). simpl in Hb. simpl.
    destruct (bool_decide (ss_reconnectWaiters s = [])) eqn:Er; bprop; simpl; [|done].
    destruct (bool_decide (ss_active s = None)) eqn:Ea; bprop; simpl; [|done].
    destruct (ss_mutationWaiters s ++ [st_next st]) as [|h rest] eqn:Em.
    { by apply app_nil in Em as [_ ?]. }
    destruct (h =? st_next st) eqn:Eh; bprop; simpl; [|done].
    exfalso. simpl in Hb. destruct Hb as [?|[?|Hb]]; [done|done|]. by rewrite Eh in Hb.
  - pose proof (it_queued st cl s) as H. rewrite Hg in H. by apply H.
Qed.

Lemma mutation_outcome early late :
  cl_gate cl = GMutation ->
  exists st' a, mutation_iteration early late st (cl_client cl) (cl_epoch cl) (cl_waiter cl)
                = Some (st', a)
    /\ iterate_outcome st cl st' (claim_after cl a).
Proof.
  intros Hg. pose proof leave_outcome as Hleave. rewrite Hg in Hleave.
  unfold mutation_iteration, removeMutationWaiterLocked.
  destruct early; [eauto|].
  destruct (sessionLocked st (cl_client cl) (cl_epoch cl)) as [s|e] eqn:Es; [|eauto].
  destruct late; [eauto|].
  unfold tryAcquireMutationLocked. destruct (cl_waiter cl) as [x|] eqn:Ew in |- *.
  - by apply mutation_turn_outcome.
  - destruct (_ && _) eqn:Ef; bprop.
    { do 2 eexists. split; [done|]. simpl. rewrite Ew. by apply it_mutation_now. }
    destruct (_ >=? _) eqn:Ec; bprop.
    { do 2 eexists. split; [done|]. simpl. rewrite Ew. by apply it_refused. }
    apply mutation_queue_outcome; try done. intros (H1 & H2 & H3).
    rewrite !bool_decide_eq_true_2 in Ef by done. discriminate.
Qed.

Lemma stream_outcome early late :
  cl_gate cl = GStream ->
  let r := stream_iteration early late (cl_maximum cl) st (cl_client cl) (cl_epoch cl)
             (cl_waiter cl) in
  iterate_outcome st cl (fst r) (claim_after cl (snd r)).
Proof.
  intros Hg. pose proof leave_outcome as Hleave. rewrite Hg in Hleave, Hin.
  unfold stream_iteration, removeStreamWaiterLocked.
  destruct early; [apply Hleave|].
  destruct (sessionLocked st (cl_client cl) (cl_epoch cl)) as [s|e] eqn:Es; [|apply Hleave].
  destruct late; [apply Hleave|].
  pose proof (sessionLocked_Ok _ _ _ _ Es) as (Hc & _ & Hs & He & _).
  destruct (bool_decide (ss_reconnectWaiters s = [])) eqn:Er; bprop.
  - set (s1 := match cl_waiter cl with
         | Some x => signalLocked (with_waiters GStream s (remove_first x (ss_streamWaiters s)))
         | None => s end).
    assert (removeWaiterLocked GStream st (cl_client cl) (cl_waiter cl)
            = set_session st (cl_client cl) s1) as Hrem.
    { unfold removeWaiterLocked, s1. rewrite Hs. destruct (cl_waiter cl) as [x|] eqn:Ew.
      - rewrite bool_decide_eq_true_2 by (by apply (Hin s x)).
        unfold maybeDrainedLocked. simpl. by rewrite Hc.
      - by rewrite insert_id'. }
    assert (ss_streams s1 = ss_streams s) as Hst by (unfold s1; by destruct (cl_waiter cl)).
    specialize (Hleave (SessionGateCapacityError "stream leases" (cl_maximum cl))).
    rewrite Hrem in *. simpl. rewrite lookup_insert_eq. simpl. rewrite Hst.
    destruct (_ >=? _) eqn:Ec; bprop; simpl; [done|].
    rewrite set_session_twice. apply (it_stream st cl s s1); try done; lia.
  - destruct (cl_waiter cl) as [x|] eqn:Ew; simpl.
    + apply it_wait; try done. by rewrite Hg.
    + destruct (_ >=? _) eqn:Ec; bprop; simpl; [rewrite Ew; by apply it_refused|].
      pose proof (it_queued st cl s) as H. rewrite Hg in H. by apply H.
Qed.

Lemma reconnect_outcome early late :
  cl_gate cl = GReconnect ->
  exists st' cl', claim_iterate early late st cl = Some (st', cl')
    /\ iterate_outcome st cl st' cl'.
Proof.
  intros Hg. pose proof leave_outcome as Hleave. unfold claim_iterate. rewrite Hg in *.
  destruct (co_reconnect _ _ Hok Hg) as [Hw Hmax].
  destruct (cl_waiter cl) as [x|] eqn:Ew; [|done].
  destruct early; [eauto|].
  destruct (co_state _ _ Hok) as [s Hs]; [by rewrite Ew|].
  unfold reconnectStepLocked. destruct (closedLocked st) eqn:Ecl; [eauto|]. rewrite Hs.
  destruct (ss_epoch s =? cl_epoch cl) eqn:Ee; bprop; simpl; [|eauto].
  assert (sessionLocked st (cl_client cl) (cl_epoch cl) = Ok s) as Es.
  { unfold sessionLocked. rewrite Ecl, Hs. pose proof (Hstates s Hs).
    rewrite (proj2 (Z.eqb_neq _ _)) by lia. by rewrite (proj2 (Z.eqb_eq _ _)) by lia. }
  pose proof (Hin s x Hs eq_refl) as Hx. simpl in Hx.
  destruct (ss_reconnectWaiters s) as [|h rest] eqn:Er; [set_solver|].
  assert (blocked st s GReconnect x ->
    iterate_outcome st cl st (claim_at cl (Some x) (PWait (ss_changed s)))) as Hwait.
  { intros Hb. apply it_wait; [done|done|by rewrite Hg]. }
  destruct (h =? x) eqn:Eh; bprop; simpl.
  2:{ do 2 eexists. split; [done|]. apply Hwait. left. rewrite Er. simpl. congruence. }
  subst h. destruct (bool_decide (ss_active s = None)) eqn:Ea; bprop; simpl.
  2:{ do 2 eexists. split; [done|]. apply Hwait. by right; left. }
  assert (st_rootDone st = false) as Hrd by (unfold closedLocked in Ecl; by bprop).
  destruct (bool_decide (ss_streams s = ∅)) eqn:Est; bprop; simpl.
  - rewrite andb_false_r. unfold advanceReconnectLocked.
    set (st1 := if bool_decide (x ∉ st_fencing st) then set_fencing st x else st).
    assert (st_rootDone st1 = false /\ st_next st1 = st_next st) as [-> ->]
      by (unfold st1; by destruct (bool_decide _)).
    rewrite u64_id by (pose proof (Hstates s Hs); unfold uint64_ok; lia).
    do 2 eexists. split; [done|]. rewrite Er, Ea, Est.
    apply it_advance; try done; [lia|]. unfold st1. destruct (bool_decide _); auto.
  - rewrite andb_true_r. destruct (bool_decide (x ∉ st_fencing st)) eqn:Ef; bprop; simpl;
      do 2 eexists; (split; [done|]).
    + by eapply it_fence.
    + apply Hwait. right; right. split; [|done]. by destruct (decide (x ∈ st_fencing st)).
Qed.

Lemma iterate_total early late :
  exists st' cl', claim_iterate early late st cl = Some (st', cl')
    /\ iterate_outcome st cl st' cl'.
Proof.
  destruct (cl_gate cl) eqn:Hg in |- *; [| by apply reconnect_outcome |].
  - unfold claim_iterate. rewrite Hg.
    destruct (mutation_outcome early late Hg) as (st' & a & -> & H). eauto.
  - pose proof (stream_outcome early late Hg) as H. unfold claim_iterate. rewrite Hg.
    destruct (stream_iteration _ _ _ _ _ _ _) as [st' a]. eauto.
Qed.
End iterate.

(** ** Framing: a step concerns one client *)

Record elsewhere (c : string) (w w' : SessionWorld) : Prop := {
  el_sessions : forall c', c' <> c ->
    st_sessions (sw_store w') !! c' = st_sessions (sw_store w) !! c';
  el_claims : forall id cl, cl_client cl <> c ->
    sw_claims w' !! id = Some cl <-> sw_claims w !! id = Some cl;
  el_leases : forall l ls, ls_client ls <> c ->
    sw_leases w' !! l = Some ls <-> sw_leases w !! l = Some ls;
  el_issued : forall c' e, c' <> c -> (c', e) ∈ sw_issued w' <-> (c', e) ∈ sw_issued w;
  el_closed : st_closed (sw_store w') = st_closed (sw_store w);
  el_cancelled : st_cancelled (sw_store w) ⊆ st_cancelled (sw_store w');
  el_fencing_mono : st_fencing (sw_store w) ⊆ st_fencing (sw_store w');
  el_fencing : forall x, x ∈ st_fencing (sw_store w') ->
    x ∈ st_fencing (sw_store w)
    \/ exists id cl, sw_claims w !! id = Some cl /\ cl_client cl = c /\ cl_waiter cl = Some x
}.

Lemma elsewhere_lease_held c w w' b c' l :
  elsewhere c w w' -> c' <> c -> lease_held w' b c' l <-> lease_held w b c' l.
Proof.
  intros He Hc. unfold lease_held.
  split; intros (ls & Hl & Hs & Hcl & Hp); exists ls; (split; [|done]);
    apply (el_leases _ _ _ He l ls); subst; done.
Qed.

Lemma elsewhere_waiting c w w' g c' x :
  elsewhere c w w' -> c' <> c -> waiting_claim w' g c' x <-> waiting_claim w g c' x.
Proof.
  intros He Hc. unfold waiting_claim.
  split; intros (id & cl & Hl & Hs & Hg & Hcl & Hp); exists id, cl; (split; [|done]);
    apply (el_claims _ _ _ He id cl); subst; done.
Qed.

Lemma elsewhere_state c w w' c' s :
  elsewhere c w w' -> c' <> c -> state_ok w c' s -> state_ok w' c' s.
Proof.
  intros He Hc [H1 H2 H3 H4 H5 H6 H7 H8]. split; auto.
  - intros l. by rewrite H4, (elsewhere_lease_held c w w').
  - intros l. by rewrite H5, (elsewhere_lease_held c w w').
  - intros g x. by rewrite H7, (elsewhere_waiting c w w').
  - by apply (el_issued _ _ _ He).
Qed.

Lemma fence_ok_mono st st' s s' cl x :
  fence_ok st s cl x -> ss_streams s' ⊆ ss_streams s -> st_cancelled st ⊆ st_cancelled st' ->
  st_fencing st ⊆ st_fencing st' -> (x ∈ st_fencing st' -> x ∈ st_fencing st) ->
  fence_ok st' s' cl x.
Proof.
  unfold fence_ok. intros H Hs Hc Hf Hf'. destruct (cl_pc cl);
    [intros Hx; etrans; [exact Hs|]; etrans; [by apply H, Hf'|done]..| |
     intros Hx; etrans; [exact Hs|]; etrans; [by apply H, Hf'|done]|
     intros Hx; etrans; [exact Hs|]; etrans; [by apply H, Hf'|done]].
  destruct H as [Hx H]. split; [by apply Hf|]. etrans; [exact Hs|]. etrans; [exact H|].
  by apply union_mono_l.
Qed.

Lemma elsewhere_claim c w w' id cl :
  session_inv w -> elsewhere c w w' -> cl_client cl <> c -> sw_claims w !! id = Some cl ->
  claim_ok (sw_store w) cl -> claim_ok (sw_store w') cl.
Proof.
  intros Hi He Hc Hid [H1 H2 H3 H4 H5 H6].
  pose proof (el_sessions _ _ _ He (cl_client cl) Hc) as Hs.
  split; auto.
  - by rewrite Hs.
  - intros changed Hpc. destruct (H5 changed Hpc) as (s & x & Hl & Hx & Hle & Hb).
    exists s, x. rewrite Hs. split; [done|]. split; [done|]. split; [done|].
    intros Heq. destruct (Hb Heq) as (Hcl & Hep & Hbl).
    split; [by rewrite (el_closed _ _ _ He)|]. split; [done|].
    destruct (cl_gate cl); simpl in *; auto.
    destruct Hbl as [?|[?|[Hf ?]]]; auto. right; right. split; [|done].
    by apply (el_fencing_mono _ _ _ He).
  - intros s x Hg Hl Hx. rewrite Hs in Hl. specialize (H6 s x Hg Hl Hx).
    pose proof (el_cancelled _ _ _ He) as Hca. pose proof (el_fencing_mono _ _ _ He).
    assert (x ∈ st_fencing (sw_store w') -> x ∈ st_fencing (sw_store w)) as Hf.
    { intros Hf. apply (el_fencing _ _ _ He) in Hf as [Hf|(id2 & cl2 & Hid2 & Hc2 & Hx2)]; [done|].
      pose proof (wi_waiter_unique _ Hi _ _ _ _ _ Hid Hid2 Hx Hx2) as ->. congruence. }
    by apply (fence_ok_mono (sw_store w) _ s s).
Qed.

(** What is left to show of a step that concerns client [c]. *)
Record local_inv (c : string) (w : SessionWorld) : Prop := {
  lo_state : forall s, st_sessions (sw_store w) !! c = Some s -> state_ok w c s;
  lo_lease : forall l ls, sw_leases w !! l = Some ls -> ls_client ls = c -> ls_phase ls <> LClosed ->
    exists s, st_sessions (sw_store w) !! c = Some s /\ ls_epoch ls = ss_epoch s;
  lo_claims : forall id cl, sw_claims w !! id = Some cl -> cl_client cl = c -> in_loop cl = true ->
    claim_ok (sw_store w) cl;
  lo_issued : forall e, (c, e) ∈ sw_issued w ->
    exists s, st_sessions (sw_store w) !! c = Some s /\ 1 <= e <= ss_epoch s
}.

Record ids_inv (w : SessionWorld) : Prop := {
  id_leases : forall l, is_Some (sw_leases w !! l) -> l < st_next (sw_store w);
  id_waiters : forall id cl x, sw_claims w !! id = Some cl -> cl_waiter cl = Some x ->
    x < st_next (sw_store w);
  id_unique : forall id1 id2 cl1 cl2 x, sw_claims w !! id1 = Some cl1 ->
    sw_claims w !! id2 = Some cl2 -> cl_waiter cl1 = Some x -> cl_waiter cl2 = Some x -> id1 = id2;
  id_fencing : forall x, x ∈ st_fencing (sw_store w) -> x < st_next (sw_store w)
}.

Lemma inv_ids w : session_inv w -> ids_inv w.
Proof. intros []. by split. Qed.

Lemma inv_local c w : session_inv w -> local_inv c w.
Proof. intros []. split; eauto. intros l ls Hl <- Hp. eauto. Qed.

Lemma inv_assemble c w w' :
  session_inv w -> elsewhere c w w' -> ids_inv w' -> local_inv c w' -> NoDup (sw_issued w') ->
  st_drained (sw_store w') = st_closed (sw_store w') && all_idle (st_sessions (sw_store w')) ->
  session_inv w'.
Proof.
  intros Hi He [] [Hs Hl Hc Hiss] Hn Hd. split; auto.
  - intros c' s Hs'. destruct (decide (c' = c)) as [->|Hne]; [auto|].
    rewrite (el_sessions _ _ _ He) in Hs' by done.
    eapply elsewhere_state; eauto. by apply (wi_states _ Hi).
  - intros l ls Hls Hp. destruct (decide (ls_client ls = c)) as [Heq|Hne].
    { rewrite Heq. eauto. }
    rewrite (el_sessions _ _ _ He) by done. apply (wi_lease_epoch _ Hi l); [|done].
    by apply (el_leases _ _ _ He).
  - intros id cl Hid Hin. destruct (decide (cl_client cl = c)) as [Heq|Hne]; [eauto|].
    pose proof (proj1 (el_claims _ _ _ He id cl Hne) Hid) as Hid'.
    eapply elsewhere_claim; eauto. by apply (wi_claims _ Hi id).
  - intros c' e Hin. destruct (decide (c' = c)) as [->|Hne]; [auto|].
    rewrite (el_sessions _ _ _ He) by done. apply (wi_issued _ Hi).
    by apply (el_issued _ _ _ He).
Qed.

(** Other claims of the same client, when its state moves from [s] to [s']. *)
Lemma claim_ok_evolve st st' cl s s' :
  claim_ok st cl -> st_sessions st !! cl_client cl = Some s ->
  st_sessions st' !! cl_client cl = Some s' ->
  (ss_changed s < ss_changed s'
   \/ ss_changed s' = ss_changed s /\ ss_epoch s' = ss_epoch s /\ st_closed st' = st_closed st
      /\ (forall x, cl_waiter cl = Some x -> blocked st s (cl_gate cl) x ->
          blocked st' s' (cl_gate cl) x)) ->
  (cl_gate cl = GReconnect -> ss_streams s' ⊆ ss_streams s) ->
  st_cancelled st ⊆ st_cancelled st' -> st_fencing st ⊆ st_fencing st' ->
  (forall x, cl_waiter cl = Some x -> x ∈ st_fencing st' -> x ∈ st_fencing st) ->
  claim_ok st' cl.
Proof.
  intros [H1 H2 H3 H4 H5 H6] Hs Hs' Hch Hst Hca Hfm Hf. split; auto.
  - intros changed Hpc. destruct (H5 changed Hpc) as (s0 & x & Hl & Hx & Hle & Hb).
    rewrite Hs in Hl. injection Hl as <-. exists s', x. split; [done|]. split; [done|].
    destruct Hch as [Hlt|(Heq & Hep & Hcl & Hbl)]; [split; [lia|intros; lia]|].
    rewrite Heq. split; [done|]. intros Hc. destruct (Hb Hc) as (? & ? & ?).
    split; [congruence|]. split; [congruence|]. auto.
  - intros s0 x Hg Hl Hx. rewrite Hs' in Hl. injection Hl as <-.
    apply (fence_ok_mono st _ s); auto.
Qed.

(** ** Moving one claim *)

Section move.
  Context (w : SessionWorld) (id : Z) (cl cl' : claim) (st' : SessionStore)
    (leases' : gmap Z lease) (issued' : list (string * Z)).
  Hypothesis Hi : session_inv w.
  Hypothesis Hid : sw_claims w !! id = Some cl.
  Hypothesis Hclient : cl_client cl' = cl_client cl.
  Hypothesis Hgate : cl_gate cl' = cl_gate cl.
Let w' := mkSWorld st' (<[id := cl']> (sw_claims w)) leases' (sw_cancels w) issued'.

Lemma moved_waiting g c x :
  waiting_claim w' g c x <->
  (exists i cl1, i <> id /\ sw_claims w !! i = Some cl1 /\ in_loop cl1 = true /\ cl_gate cl1 = g
     /\ cl_client cl1 = c /\ cl_waiter cl1 = Some x)
  \/ (in_loop cl' = true /\ cl_gate cl' = g /\ cl_client cl' = c /\ cl_waiter cl' = Some x).
Proof.
  unfold waiting_claim; simpl. split.
  - intros (i & cl1 & Hl & Hr). apply lookup_insert_Some in Hl as [[<- <-]|[Hne Hl]]; [auto|].
    left. eauto 10.
  - intros [(i & cl1 & Hne & Hl & Hr)|Hr].
    + exists i, cl1. rewrite lookup_insert_ne by done. auto.
    + exists id, cl'. rewrite lookup_insert_eq. auto.
Qed.

(** The claim leaves its loop, or never was in a queue. *)
Lemma moved_out g c x :
  in_loop cl' = false ->
  waiting_claim w' g c x <->
  waiting_claim w g c x /\ ~ (in_loop cl = true /\ g = cl_gate cl /\ c = cl_client cl
                              /\ cl_waiter cl = Some x).
Proof.
  intros Hout. rewrite moved_waiting, Hout. split.
  - intros [(i & cl1 & Hne & Hl & Hr)|[? _]]; [|done]. split; [by exists i, cl1|].
    intros (_ & _ & _ & Hx). destruct Hr as (_ & _ & _ & Hx1).
    by pose proof (wi_waiter_unique _ Hi _ _ _ _ _ Hl Hid Hx1 Hx).
  - intros [(i & cl1 & Hl & Hr) Hn]. left. exists i, cl1. split; [|done].
    intros ->. rewrite Hid in Hl. injection Hl as <-. destruct Hr as (? & ? & ? & ?). apply Hn. auto.
Qed.

Lemma moved_same g c x :
  in_loop cl = true -> in_loop cl' = true -> cl_waiter cl' = cl_waiter cl ->
  waiting_claim w' g c x <-> waiting_claim w g c x.
Proof.
  intros H1 H2 Hw. rewrite moved_waiting, H2, Hgate, Hclient, Hw. split.
  - intros [(i & cl1 & _ & Hl & Hr)|(_ & Hr)]; [by exists i, cl1|]. by exists id, cl.
  - intros (i & cl1 & Hl & Hr). destruct (decide (i = id)) as [->|Hne]; [|left; eauto 10].
    rewrite Hid in Hl. injection Hl as <-. right. destruct Hr as (? & ? & ? & ?). auto.
Qed.

Lemma moved_in g c x n :
  cl_waiter cl = None -> in_loop cl' = true -> cl_waiter cl' = Some n ->
  waiting_claim w' g c x <->
  waiting_claim w g c x \/ (g = cl_gate cl /\ c = cl_client cl /\ x = n).
Proof.
  intros H1 H2 Hw. rewrite moved_waiting, H2, Hgate, Hclient, Hw. split.
  - intros [(i & cl1 & _ & Hl & Hr)|(_ & <- & <- & [= ->])]; [left; by exists i, cl1|auto].
  - intros [(i & cl1 & Hl & Hr)|(-> & -> & ->)]; [|auto]. left. exists i, cl1. split; [|done].
    intros ->. rewrite Hid in Hl. injection Hl as <-. destruct Hr as (_ & _ & _ & Hr). congruence.
Qed.

Lemma moved_elsewhere :
  (forall c', c' <> cl_client cl ->
     st_sessions st' !! c' = st_sessions (sw_store w) !! c') ->
  st_closed st' = st_closed (sw_store w) ->
  st_cancelled (sw_store w) ⊆ st_cancelled st' -> st_fencing (sw_store w) ⊆ st_fencing st' ->
  (forall x, x ∈ st_fencing st' -> x ∈ st_fencing (sw_store w) \/ cl_waiter cl = Some x) ->
  (forall l ls, ls_client ls <> cl_client cl ->
     leases' !! l = Some ls <-> sw_leases w !! l = Some ls) ->
  (forall c' e, c' <> cl_client cl -> (c', e) ∈ issued' <-> (c', e) ∈ sw_issued w) ->
  elsewhere (cl_client cl) w w'.
Proof.
  intros Hs Hc Hca Hfm Hf Hl Hiss. split; simpl; auto.
  - intros i cl1 Hne. destruct (decide (i = id)) as [->|Hn].
    + rewrite lookup_insert_eq, Hid. split; intros [= <-]; congruence.
    + by rewrite lookup_insert_ne.
  - intros x Hx. destruct (Hf x Hx) as [?|?]; [auto|]. right. eauto.
Qed.

Lemma moved_ids :
  (forall x, cl_waiter cl' = Some x -> cl_waiter cl = Some x \/ x = st_next (sw_store w)) ->
  st_next (sw_store w) <= st_next st' ->
  (cl_waiter cl' <> cl_waiter cl -> st_next (sw_store w) < st_next st') ->
  (forall x, x ∈ st_fencing st' -> x ∈ st_fencing (sw_store w) \/ cl_waiter cl = Some x) ->
  (forall l, is_Some (leases' !! l) -> is_Some (sw_leases w !! l) \/ l < st_next st') ->
  ids_inv w'.
Proof.
  intros Hw Hn Hn' Hf Hl. destruct (inv_ids _ Hi) as [I1 I2 I3 I4]. split; simpl.
  - intros l Hls. destruct (Hl l Hls) as [?|?]; [|lia]. specialize (I1 l). naive_solver lia.
  - intros i cl1 x Hi1 Hx. apply lookup_insert_Some in Hi1 as [[<- <-]|[Hne Hi1]].
    + destruct (Hw x Hx) as [Hx'| ->].
      * specialize (I2 _ _ _ Hid Hx'). lia.
      * apply Hn'. intros Heq. rewrite Heq in Hx. specialize (I2 _ _ _ Hid Hx). lia.
    + specialize (I2 _ _ _ Hi1 Hx). lia.
  - assert (forall i cl1 x, i <> id -> sw_claims w !! i = Some cl1 -> cl_waiter cl1 = Some x ->
      cl_waiter cl' = Some x -> False) as Hother.
    { intros i cl1 x Hne H1 Hx1 Hx. destruct (Hw x Hx) as [Hx'| ->].
      - by pose proof (I3 _ _ _ _ _ H1 Hid Hx1 Hx').
      - specialize (I2 _ _ _ H1 Hx1). lia. }
    intros i1 i2 c1 c2 x H1 H2 Hx1 Hx2.
    apply lookup_insert_Some in H1 as [[<- <-]|[Hn1 H1]];
      apply lookup_insert_Some in H2 as [[<- <-]|[Hn2 H2]]; eauto.
    + exfalso. eauto.
    + exfalso. eauto.
  - intros x Hx. destruct (Hf x Hx) as [Hx'|Hx']; [specialize (I4 x Hx'); lia|].
    specialize (I2 _ _ _ Hid Hx'). lia.
Qed.

(** The state of the claim's client moves from [s] to [s']. *)
Context (s s' : sessionState).
Hypothesis Hs : st_sessions (sw_store w) !! cl_client cl = Some s.
Hypothesis Hs' : st_sessions st' = <[cl_client cl := s']> (st_sessions (sw_store w)).

Lemma moved_other_claims :
  (ss_changed s < ss_changed s'
   \/ ss_changed s' = ss_changed s /\ ss_epoch s' = ss_epoch s
      /\ st_closed st' = st_closed (sw_store w)
      /\ (forall g x, x ∈ waiters g s -> blocked (sw_store w) s g x -> blocked st' s' g x)) ->
  (ss_reconnectWaiters s <> [] -> ss_streams s' ⊆ ss_streams s) ->
  st_cancelled (sw_store w) ⊆ st_cancelled st' -> st_fencing (sw_store w) ⊆ st_fencing st' ->
  (forall x, x ∈ st_fencing st' -> x ∈ st_fencing (sw_store w) \/ cl_waiter cl = Some x) ->
  forall i cl1, i <> id -> sw_claims w !! i = Some cl1 -> cl_client cl1 = cl_client cl ->
    in_loop cl1 = true -> claim_ok st' cl1.
Proof using Hi Hid Hs Hs'.
  clear w' Hclient Hgate. intros Hch Hst Hca Hfm Hf i cl1 Hne H1 Hc1 Hin.
  pose proof (wi_claims _ Hi i cl1 H1 Hin) as Hok.
  assert (forall x, cl_waiter cl1 = Some x -> x ∈ waiters (cl_gate cl1) s) as Hq.
  { intros x Hx. apply (so_waiters _ _ _ (wi_states _ Hi _ _ Hs)). by exists i, cl1. }
  apply (claim_ok_evolve (sw_store w) st' cl1 s s'); auto.
  - by rewrite Hc1.
  - by rewrite Hc1, Hs', lookup_insert_eq.
  - destruct Hch as [?|(? & ? & ? & Hb)]; [by left|]. right. eauto 10.
  - intros Hg. apply Hst. destruct (co_reconnect _ _ Hok Hg) as [Hw _].
    destruct (cl_waiter cl1) as [x|] eqn:Ex; [|done]. specialize (Hq x eq_refl).
    rewrite Hg in Hq. simpl in Hq. intros He. rewrite He in Hq. set_solver.
  - intros x Hx Hfx. destruct (Hf x Hfx) as [?|Hx']; [done|].
    by pose proof (wi_waiter_unique _ Hi _ _ _ _ _ H1 Hid Hx Hx').
Qed.

Lemma moved_held b c l :
  leases' = sw_leases w -> lease_held w' b c l <-> lease_held w b c l.
Proof. intros Hl. unfold lease_held; simpl. by rewrite Hl. Qed.

Lemma moved_granted b c l b0 e0 :
  leases' = <[st_next (sw_store w) := mkLease b0 (cl_client cl) e0 LOpen]> (sw_leases w) ->
  lease_held w' b c l <->
  lease_held w b c l \/ (l = st_next (sw_store w) /\ b = b0 /\ c = cl_client cl).
Proof.
  intros Hl. unfold lease_held; simpl. rewrite Hl. split.
  - intros (ls & Hls & Hr). apply lookup_insert_Some in Hls as [[<- <-]|[Hne Hls]].
    + destruct Hr as (? & ? & ?). simpl in *. auto.
    + left. eauto.
  - intros [(ls & Hls & Hr)|(-> & -> & ->)].
    + exists ls. rewrite lookup_insert_ne; [done|]. intros <-.
      pose proof (wi_lease_ids _ Hi _ (ex_intro _ ls Hls)). lia.
    + eexists. rewrite lookup_insert_eq. split; [done|]. done.
Qed.
End move.

(** ** Iterations preserve the invariant *)

Definition moved_world (w : SessionWorld) (id : Z) (cl cl' : claim) (st' : SessionStore)
  : SessionWorld :=
  mkSWorld st' (<[id := cl']> (sw_claims w)) (new_lease cl cl' (sw_leases w)) (sw_cancels w)
    (new_owner cl' (sw_issued w)).

(** A claim moves and nothing is granted or advanced. *)
Lemma quiet_move w id cl cl' st' s s' :
  session_inv w -> sw_claims w !! id = Some cl ->
  cl_client cl' = cl_client cl -> cl_gate cl' = cl_gate cl ->
  st_sessions (sw_store w) !! cl_client cl = Some s ->
  st_sessions st' = <[cl_client cl := s']> (st_sessions (sw_store w)) ->
  st_closed st' = st_closed (sw_store w) ->
  st_cancelled (sw_store w) ⊆ st_cancelled st' -> st_fencing (sw_store w) ⊆ st_fencing st' ->
  (forall x, x ∈ st_fencing st' -> x ∈ st_fencing (sw_store w) \/ cl_waiter cl = Some x) ->
  st_drained st' = st_closed st' && all_idle (st_sessions st') ->
  (forall x, cl_waiter cl' = Some x -> cl_waiter cl = Some x \/ x = st_next (sw_store w)) ->
  st_next (sw_store w) <= st_next st' ->
  (cl_waiter cl' <> cl_waiter cl -> st_next (sw_store w) < st_next st') ->
  (ss_changed s < ss_changed s'
   \/ ss_changed s' = ss_changed s
      /\ (forall g x, x ∈ waiters g s -> blocked (sw_store w) s g x -> blocked st' s' g x)) ->
  ss_epoch s' = ss_epoch s -> ss_active s' = ss_active s -> ss_streams s' = ss_streams s ->
  gateWaitersLocked s' <= maximumSessionGateWaitersPerClient ->
  (forall g, NoDup (waiters g s')) ->
  let w' := mkSWorld st' (<[id := cl']> (sw_claims w)) (sw_leases w) (sw_cancels w) (sw_issued w) in
  (forall g x, x ∈ waiters g s' <-> waiting_claim w' g (cl_client cl) x) ->
  (in_loop cl' = true -> claim_ok st' cl') ->
  session_inv w'.
Proof.
  intros Hi Hid Hc Hg Hs Hs' Hcl Hca Hfm Hf Hd Hw Hn Hn' Hch He Ha Hst Hgate Hnd w' Hwait Hok.
  pose proof (wi_states _ Hi _ _ Hs) as Hso.
  apply (inv_assemble (cl_client cl) w w'); auto.
  - apply (moved_elsewhere w id cl cl' st' (sw_leases w) (sw_issued w)); auto.
    intros c' Hne. by rewrite Hs', lookup_insert_ne.
  - by apply (moved_ids w id cl cl' st' (sw_leases w) (sw_issued w)); auto.
  - split; simpl.
    + intros s0 Hl. rewrite Hs', lookup_insert_eq in Hl. injection Hl as <-.
      destruct Hso as [H1 H2 H3 H4 H5 H6 H7 H8].
      split; auto; rewrite ?He, ?Ha, ?Hst; auto.
    + intros l ls Hl Heq Hp. exists s'. rewrite Hs', lookup_insert_eq. split; [done|].
      destruct (wi_lease_epoch _ Hi l ls Hl Hp) as (s0 & Hs0 & Hep). congruence.
    + intros i cl1 H1 Hc1 Hin. apply lookup_insert_Some in H1 as [[<- <-]|[Hne H1]]; [auto|].
      apply (moved_other_claims w id cl st' Hi Hid s s' Hs Hs') with (i := i); auto.
      * destruct Hch as [?|[? ?]]; [by left|]. right. eauto 10.
      * intros _. by rewrite Hst.
    + intros e Hin. destruct (wi_issued _ Hi _ _ Hin) as (s0 & Hs0 & Hb).
      rewrite Hs in Hs0. injection Hs0 as <-. exists s'. rewrite Hs', lookup_insert_eq.
      split; [done|]. by rewrite He.
  - apply (wi_issued_nodup _ Hi).
Qed.

Lemma drained_left w c s x g :
  session_inv w -> st_sessions (sw_store w) !! c = Some s -> x ∈ waiters g s ->
  st_drained (sw_store w) = false.
Proof.
  intros Hi Hs Hx. rewrite (wi_drained _ Hi). destruct (st_closed _); [|done]. simpl.
  destruct (all_idle _) eqn:Ea; [|done]. rewrite all_idle_spec in Ea.
  apply Ea in Hs. apply (idle_waiters g) in Hs. rewrite Hs in Hx. set_solver.
Qed.

Lemma left_inv w id cl s x e :
  session_inv w -> sw_claims w !! id = Some cl -> in_loop cl = true ->
  st_sessions (sw_store w) !! cl_client cl = Some s -> cl_waiter cl = Some x ->
  x ∈ waiters (cl_gate cl) s ->
  session_inv (mkSWorld
    (maybeDrainedLocked (set_session (sw_store w) (cl_client cl) (signalLocked
       (with_waiters (cl_gate cl) s (remove_first x (waiters (cl_gate cl) s))))))
    (<[id := claim_at cl (Some x) (PDone (OError e))]> (sw_claims w)) (sw_leases w) (sw_cancels w)
    (sw_issued w)).
Proof.
  intros Hi Hid Hin Hs Hw Hx. pose proof (wi_states _ Hi _ _ Hs) as Hso.
  set (g := cl_gate cl) in *. set (s' := signalLocked _).
  pose proof (so_nodup _ _ _ Hso) as Hnd.
  apply (quiet_move w id cl _ _ s s'); rewrite ?maybeDrained_eq; simpl; auto; try done.
  - rewrite (drained_left w _ s x g Hi Hs Hx). done.
  - intros x' [= ->]. auto.
  - lia.
  - unfold gateWaitersLocked. simpl. pose proof (so_gate _ _ _ Hso) as Hgate.
    change (gateWaitersLocked (with_waiters g s (remove_first x (waiters g s)))
            <= maximumSessionGateWaitersPerClient).
    rewrite gate_with, remove_first_len by done. lia.
  - intros g'. unfold s'. rewrite waiters_signal, waiters_with.
    destruct (decide _); [apply remove_first_nodup|]; auto.
  - intros g' y. unfold s'. rewrite waiters_signal, waiters_with.
    rewrite (moved_out w id cl) by done. rewrite <- (so_waiters _ _ _ Hso).
    destruct (decide (g' = g)) as [->|Hne].
    + rewrite remove_first_elem by auto. rewrite Hw. naive_solver.
    + naive_solver.
Qed.

Lemma refused_inv w id cl e :
  session_inv w -> sw_claims w !! id = Some cl -> cl_waiter cl = None ->
  session_inv (mkSWorld (sw_store w) (<[id := claim_at cl None (PDone (OError e))]> (sw_claims w))
    (sw_leases w) (sw_cancels w) (sw_issued w)).
Proof.
  intros Hi Hid Hw. set (w' := mkSWorld _ _ _ _ _).
  assert (forall g c x, waiting_claim w' g c x <-> waiting_claim w g c x) as Hwait.
  { intros g c x. unfold w'. rewrite (moved_out w id cl) by done. rewrite Hw. naive_solver. }
  destruct (inv_local (cl_client cl) w Hi) as [L1 L2 L3 L4].
  apply (inv_assemble (cl_client cl) w w'); auto.
  - apply (moved_elsewhere w id cl); auto.
  - apply (moved_ids w id cl); simpl; auto; try done; try lia.
  - split; simpl; auto.
    + intros s Hs. destruct (L1 s Hs) as [H1 H2 H3 H4 H5 H6 H7 H8]. split; auto.
      intros g x. by rewrite Hwait.
    + intros i cl1 H1 Hc Hin. apply lookup_insert_Some in H1 as [[<- <-]|[Hne H1]]; eauto. done.
  - apply (wi_issued_nodup _ Hi).
  - apply (wi_drained _ Hi).
Qed.

Lemma queued_inv w id cl s :
  session_inv w -> sw_claims w !! id = Some cl ->
  cl_gate cl <> GReconnect -> (cl_gate cl = GStream -> 1 <= cl_maximum cl <= maximumSessionStreamsPerClient) ->
  cl_waiter cl = None ->
  sessionLocked (sw_store w) (cl_client cl) (cl_epoch cl) = Ok s ->
  gateWaitersLocked s < maximumSessionGateWaitersPerClient ->
  let n := st_next (sw_store w) in
  let s' := with_waiters (cl_gate cl) s (waiters (cl_gate cl) s ++ [n]) in
  (forall st', blocked st' s' (cl_gate cl) n) ->
  session_inv (mkSWorld (with_next (set_session (sw_store w) (cl_client cl) s') (n + 1))
    (<[id := claim_at cl (Some n) (PWait (ss_changed s))]> (sw_claims w)) (sw_leases w)
    (sw_cancels w) (sw_issued w)).
Proof.
  intros Hi Hid Hg Hmx Hw Hs Hgw n s' Hb.
  apply sessionLocked_Ok in Hs as (Hc & Hr & Hs & He & Hz).
  pose proof (wi_states _ Hi _ _ Hs) as Hso. set (g := cl_gate cl) in *.
  assert (forall g' x, x ∈ waiters g' s -> x < n) as Hlt.
  { intros g' x Hx. apply (so_waiters _ _ _ Hso) in Hx as (i & cl1 & H1 & _ & _ & _ & Hx).
    by apply (wi_waiter_ids _ Hi i cl1). }
  apply (quiet_move w id cl _ _ s s'); simpl; auto; try done; try lia.
  - rewrite (wi_drained _ Hi). by rewrite Hc.
  - intros x [= <-]. auto.
  - right. split; [done|]. intros g' x Hx. unfold s', blocked.
    destruct g', g eqn:Eg; simpl; try done; auto.
    intros [?|[?|Hh]]; auto. right; right.
    destruct (ss_mutationWaiters s) eqn:Em; [simpl in Hx; rewrite Em in Hx; set_solver|done].
  - unfold s'. rewrite gate_with. slia.
  - intros g'. unfold s'. rewrite waiters_with. destruct (decide _) as [->|]; [|apply Hso].
    apply NoDup_app. split; [apply Hso|]. split; [|apply NoDup_singleton].
    intros x Hx Hn. apply list_elem_of_singleton in Hn as ->. specialize (Hlt g n Hx). lia.
  - intros g' x. unfold s'. rewrite waiters_with. rewrite (moved_in w id cl _ _ _ _ Hid) with (n := n) by done.
    rewrite <- (so_waiters _ _ _ Hso). fold g.
    destruct (decide (g' = g)) as [->|]; [|naive_solver].
    rewrite elem_of_app, list_elem_of_singleton. naive_solver.
  - intros _. split; simpl; auto; try done.
    + intros _. by rewrite lookup_insert_eq.
    + intros changed [= <-]. exists s', n. rewrite lookup_insert_eq. split; [done|]. split; [done|].
      split; [unfold s'; simpl; lia|]. intros _. split; [done|]. split; [by symmetry|]. apply Hb.
Qed.

Lemma wait_inv w id cl s x :
  session_inv w -> sw_claims w !! id = Some cl -> in_loop cl = true ->
  (forall streams, cl_pc cl <> PCancel streams) -> claim_ok (sw_store w) cl ->
  cl_waiter cl = Some x -> sessionLocked (sw_store w) (cl_client cl) (cl_epoch cl) = Ok s ->
  blocked (sw_store w) s (cl_gate cl) x ->
  session_inv (mkSWorld (sw_store w)
    (<[id := claim_at cl (Some x) (PWait (ss_changed s))]> (sw_claims w)) (sw_leases w)
    (sw_cancels w) (sw_issued w)).
Proof.
  intros Hi Hid Hin Hpc Hok Hw Hs Hb. apply sessionLocked_Ok in Hs as (Hc & Hr & Hs & He & Hz).
  pose proof (wi_states _ Hi _ _ Hs) as Hso.
  apply (quiet_move w id cl _ _ s s); simpl; auto; try done; try lia.
  - by rewrite insert_id.
  - apply (wi_drained _ Hi).
  - intros x' [= ->]. auto.
  - apply Hso.
  - apply Hso.
  - intros g y. rewrite (moved_same w id cl) by done. apply (so_waiters _ _ _ Hso).
  - intros _. destruct Hok as [H1 H2 H3 H4 H5 H6]. split; simpl; auto; try done.
    + intros Hg. split; [done|]. by apply H2.
    + intros changed [= <-]. exists s, x. split; [done|]. split; [done|]. split; [lia|]. auto.
    + intros s0 x0 Hg Hs0 [= ->]. specialize (H6 s0 x0 Hg Hs0 Hw). unfold fence_ok in *. simpl.
      destruct (cl_pc cl); try done. by destruct (Hpc streams).
Qed.

Lemma fence_inv w id cl s x rest :
  session_inv w -> sw_claims w !! id = Some cl -> in_loop cl = true -> claim_ok (sw_store w) cl ->
  cl_gate cl = GReconnect -> cl_waiter cl = Some x ->
  sessionLocked (sw_store w) (cl_client cl) (cl_epoch cl) = Ok s ->
  ss_reconnectWaiters s = x :: rest -> x ∉ st_fencing (sw_store w) ->
  session_inv (mkSWorld (set_fencing (sw_store w) x)
    (<[id := claim_at cl (Some x) (PCancel (ss_streams s))]> (sw_claims w)) (sw_leases w)
    (sw_cancels w) (sw_issued w)).
Proof.
  intros Hi Hid Hin Hok Hg Hw Hs Hrw Hx. apply sessionLocked_Ok in Hs as (Hc & Hr & Hs & He & Hz).
  pose proof (wi_states _ Hi _ _ Hs) as Hso.
  apply (quiet_move w id cl _ _ s s); simpl; auto; try done; try lia.
  - by rewrite insert_id.
  - by apply union_subseteq_r.
  - intros y Hy. apply elem_of_union in Hy as [Hy|Hy]; [|auto].
    apply elem_of_singleton in Hy as ->. auto.
  - apply (wi_drained _ Hi).
  - intros x' [= ->]. auto.
  - right. split; [done|]. intros g y _ Hb. destruct g; simpl in *; auto.
    destruct Hb as [?|[?|[? ?]]]; auto. right; right. split; [|done]. by apply elem_of_union_r.
  - apply Hso.
  - apply Hso.
  - intros g y. rewrite (moved_same w id cl) by done. apply (so_waiters _ _ _ Hso).
  - intros _. destruct Hok as [H1 H2 H3 H4 H5 H6]. split; simpl; auto; try done.
    + intros _. split; [done|]. by apply H2.
    + intros s0 x0 _ Hs0 [= <-]. rewrite Hs in Hs0. injection Hs0 as <-. unfold fence_ok; simpl.
      split; [set_solver|]. by apply union_subseteq_l.
Qed.

Lemma granted_inv w id cl s s' b :
  session_inv w -> sw_claims w !! id = Some cl -> in_loop cl = true ->
  sessionLocked (sw_store w) (cl_client cl) (cl_epoch cl) = Ok s ->
  let n := st_next (sw_store w) in
  ss_reconnectWaiters s = [] -> ss_epoch s' = ss_epoch s ->
  (ss_changed s < ss_changed s'
   \/ ss_changed s' = ss_changed s /\ (forall g x, x ∈ waiters g s -> blocked (sw_store w) s g x ->
        forall st', blocked st' s' g x)) ->
  (forall l, ss_active s' = Some l <-> ss_active s = Some l \/ (l = n /\ b = false)) ->
  (forall l, l ∈ ss_streams s' <-> l ∈ ss_streams s \/ (l = n /\ b = true)) ->
  Z.of_nat (size (ss_streams s')) <= maximumSessionStreamsPerClient ->
  gateWaitersLocked s' <= gateWaitersLocked s ->
  (forall g, NoDup (waiters g s')) ->
  (forall g x, x ∈ waiters g s' <-> x ∈ waiters g s /\ ~ (g = cl_gate cl /\ cl_waiter cl = Some x)) ->
  session_inv (mkSWorld (with_next (set_session (sw_store w) (cl_client cl) s') (n + 1))
    (<[id := claim_at cl (cl_waiter cl) (PDone (OLease n))]> (sw_claims w))
    (<[n := mkLease b (cl_client cl) (cl_epoch cl) LOpen]> (sw_leases w))
    (sw_cancels w) (sw_issued w)).
Proof.
  intros Hi Hid Hin Hs n Hrc He Hch Ha Hst Hsz Hg Hnd Hw.
  apply sessionLocked_Ok in Hs as (Hc & Hr & Hs & Hep & Hz).
  pose proof (wi_states _ Hi _ _ Hs) as Hso. set (w' := mkSWorld _ _ _ _ _).
  assert (st_sessions (sw_store w') = <[cl_client cl := s']> (st_sessions (sw_store w))) as Hs' by done.
  apply (inv_assemble (cl_client cl) w w'); auto.
  - apply (moved_elsewhere w id cl); simpl; auto; try done.
    + intros c' Hne. by rewrite lookup_insert_ne.
    + intros l ls Hne. destruct (decide (l = n)) as [->|]; [|by rewrite lookup_insert_ne].
      rewrite lookup_insert_eq. split; [intros [= <-]; done|].
      intros Hl. pose proof (wi_lease_ids _ Hi _ (ex_intro _ ls Hl)). lia.
  - apply (moved_ids w id cl); simpl; auto; try done; try lia.
    intros l [ls Hl]. apply lookup_insert_Some in Hl as [[<- _]|[_ Hl]]; [right; lia|left; eauto].
  - split.
    + rewrite Hs', lookup_insert_eq. intros s0 [= <-].
      destruct Hso as [H1 H2 H3 H4 H5 H6 H7 H8]. split; rewrite ?He; auto.
      * lia.
      * intros l. rewrite Ha, H4. unfold w'. rewrite (moved_granted w id cl _ _ _ _ Hi) by done.
        naive_solver.
      * intros l. rewrite Hst, H5. unfold w'. rewrite (moved_granted w id cl _ _ _ _ Hi) by done.
        naive_solver.
      * intros g x. rewrite Hw, H7. unfold w'. rewrite (moved_out w id cl) by done. naive_solver.
    + intros l ls Hl Hcl Hp. exists s'. rewrite Hs', lookup_insert_eq. split; [done|]. rewrite He.
      simpl in Hl. apply lookup_insert_Some in Hl as [[<- <-]|[Hne Hl]]; [done|].
      destruct (wi_lease_epoch _ Hi l ls Hl Hp) as (s0 & Hs0 & ?). congruence.
    + intros i cl1 H1 Hc1 Hin1. simpl in H1. apply lookup_insert_Some in H1 as [[<- <-]|[Hne H1]]; [done|].
      apply (moved_other_claims w id cl _ Hi Hid s s' Hs Hs') with (i := i); simpl; auto.
      * destruct Hch as [?|[? Hb]]; [by left|]. right. split; [done|]. split; [done|]. split; [done|]. eauto.
      * by rewrite Hrc.
    + intros e Hin'. destruct (wi_issued _ Hi _ _ Hin') as (s0 & Hs0 & Hb).
      rewrite Hs in Hs0. injection Hs0 as <-. exists s'. rewrite Hs', lookup_insert_eq.
      split; [done|]. by rewrite He.
  - apply (wi_issued_nodup _ Hi).
  - simpl. rewrite (wi_drained _ Hi), Hc. done.
Qed.

Lemma advance_inv w id cl s x rest st1 :
  session_inv w -> sw_claims w !! id = Some cl -> in_loop cl = true ->
  cl_gate cl = GReconnect -> cl_waiter cl = Some x ->
  sessionLocked (sw_store w) (cl_client cl) (cl_epoch cl) = Ok s ->
  ss_reconnectWaiters s = x :: rest -> ss_active s = None -> ss_streams s = ∅ ->
  ss_epoch s < maxUint64 -> (st1 = sw_store w \/ st1 = set_fencing (sw_store w) x) ->
  let n := st_next (sw_store w) in
  let s' := signalLocked (mkState (ss_epoch s + 1) n (ss_changed s) None (ss_mutationWaiters s) rest
              (ss_streamWaiters s) ∅) in
  let session := mkSession (cl_client cl) (ss_epoch s + 1) n in
  session_inv (mkSWorld (with_next (set_session st1 (cl_client cl) s') (n + 1))
    (<[id := claim_at cl (Some x) (POldCancel (ss_ctx s) session)]> (sw_claims w))
    (sw_leases w) (sw_cancels w) (sw_issued w ++ [(cl_client cl, ss_epoch s + 1)])).
Proof.
  intros Hi Hid Hin Hg Hwt Hs Hrc Ha Hst Hmax Hst1 n s' session.
  apply sessionLocked_Ok in Hs as (Hc & Hr & Hs & Hep & Hz).
  pose proof (wi_states _ Hi _ _ Hs) as Hso. set (w' := mkSWorld _ _ _ _ _).
  assert (st_sessions st1 = st_sessions (sw_store w) /\ st_closed st1 = st_closed (sw_store w)
    /\ st_cancelled st1 = st_cancelled (sw_store w) /\ st_drained st1 = st_drained (sw_store w)
    /\ st_fencing (sw_store w) ⊆ st_fencing st1
    /\ (forall y, y ∈ st_fencing st1 -> y ∈ st_fencing (sw_store w) \/ cl_waiter cl = Some y))
    as (E1 & E2 & E3 & E4 & E5 & E6).
  { destruct Hst1 as [->| ->]; [by eauto 10|]. simpl. repeat (split; [done|]).
    split; [by apply union_subseteq_r|]. intros y Hy. apply elem_of_union in Hy as [Hy|Hy]; [|auto].
    apply elem_of_singleton in Hy as ->. auto. }
  assert (st_sessions (sw_store w') = <[cl_client cl := s']> (st_sessions (sw_store w))) as Hs'
    by (simpl; by rewrite E1).
  assert (forall b l, ~ lease_held w b (cl_client cl) l) as Hnone.
  { intros [] l Hl.
    - apply (so_streams _ _ _ Hso) in Hl. rewrite Hst in Hl. by apply not_elem_of_empty in Hl.
    - apply (so_active _ _ _ Hso) in Hl. congruence. }
  pose proof (so_nodup _ _ _ Hso) as Hnd. pose proof (Hnd GReconnect) as Hndr.
  simpl in Hndr. rewrite Hrc in Hndr. apply NoDup_cons in Hndr as [Hxr Hndr].
  apply (inv_assemble (cl_client cl) w w'); auto.
  - apply (moved_elsewhere w id cl); simpl; auto; try done.
    + intros c' Hne. by rewrite E1, lookup_insert_ne.
    + by rewrite E3.
    + intros c' e Hne. rewrite elem_of_app, list_elem_of_singleton. naive_solver.
  - apply (moved_ids w id cl); simpl; auto; try done; try lia. intros y [= <-]. auto.
  - split.
    + rewrite Hs', lookup_insert_eq. intros s0 [= <-].
      destruct Hso as [H1 H2 H3 H4 H5 H6 H7 H8].
      assert (forall b l, lease_held w' b (cl_client cl) l <-> lease_held w b (cl_client cl) l) as Hh by done.
      split; simpl; auto.
      * lia.
      * unfold gateWaitersLocked in *. simpl. rewrite Hrc in H2. slia.
      * by vm_compute.
      * intros l. rewrite Hh. split; [done|]. intros Hl. by apply Hnone in Hl.
      * intros l. rewrite Hh. split; [by intros ?%not_elem_of_empty|]. intros Hl. by apply Hnone in Hl.
      * intros g. specialize (Hnd g). destruct g; simpl in *; done.
      * intros g y. unfold w'. rewrite (moved_out w id cl) by done.
        rewrite <- H7, Hg, Hwt. clear - Hrc Hxr Hin. destruct g; simpl.
        -- split; [intros Hy; split; [done|intros (_ & ? & _); done]|intros [? _]; done].
        -- rewrite Hrc, elem_of_cons. split.
           ++ intros Hy. split; [by right|]. intros (_ & _ & _ & [= ->]). done.
           ++ intros [[->|?] Hn]; [|done]. destruct Hn. auto.
        -- split; [intros Hy; split; [done|intros (_ & ? & _); done]|intros [? _]; done].
      * apply elem_of_app. right. by apply list_elem_of_singleton.
    + intros l ls Hl Hcl Hp. exfalso. apply (Hnone (ls_stream ls) l). by exists ls.
    + intros i cl1 H1 Hc1 Hin1. simpl in H1. apply lookup_insert_Some in H1 as [[<- <-]|[Hne H1]]; [done|].
      apply (moved_other_claims w id cl _ Hi Hid s s' Hs Hs') with (i := i); simpl; auto.
      * left. lia.
      * intros _. by apply empty_subseteq.
      * by rewrite E3.
    + intros e He. exists s'. rewrite Hs', lookup_insert_eq. split; [done|]. simpl in *.
      apply elem_of_app in He as [He|He].
      * destruct (wi_issued _ Hi _ _ He) as (s0 & Hs0 & Hb). rewrite Hs in Hs0. injection Hs0 as <-. lia.
      * apply list_elem_of_singleton in He as [= ->]. pose proof (so_epoch _ _ _ Hso). lia.
  - simpl. apply NoDup_app. split; [apply (wi_issued_nodup _ Hi)|]. split; [|apply NoDup_singleton].
    intros [c e] Hin1 Hin2. apply list_elem_of_singleton in Hin2 as [= -> ->].
    destruct (wi_issued _ Hi _ _ Hin1) as (s0 & Hs0 & Hb). rewrite Hs in Hs0. injection Hs0 as <-. lia.
  - simpl. rewrite E4, E2, E1, (wi_drained _ Hi), Hc. done.
Qed.

Lemma size_insert_new (n : Z) (X : gset Z) :
  n ∉ X -> Z.of_nat (size ({[n]} ∪ X)) = Z.of_nat (size X) + 1.
Proof. intros Hn. rewrite size_union, size_singleton by set_solver. lia. Qed.

Lemma mutation_now_inv w id cl s :
  session_inv w -> sw_claims w !! id = Some cl -> in_loop cl = true ->
  cl_gate cl = GMutation -> cl_waiter cl = None ->
  sessionLocked (sw_store w) (cl_client cl) (cl_epoch cl) = Ok s ->
  ss_active s = None -> ss_mutationWaiters s = [] -> ss_reconnectWaiters s = [] ->
  let n := st_next (sw_store w) in
  session_inv (mkSWorld
    (with_next (set_session (sw_store w) (cl_client cl) (with_active s (Some n))) (n + 1))
    (<[id := claim_at cl (cl_waiter cl) (PDone (OLease n))]> (sw_claims w))
    (<[n := mkLease false (cl_client cl) (cl_epoch cl) LOpen]> (sw_leases w))
    (sw_cancels w) (sw_issued w)).
Proof.
  intros Hi Hid Hin Hg Hw Hs Ha Hm Hr n.
  pose proof (sessionLocked_Ok _ _ _ _ Hs) as (_ & _ & Hl & _ & _).
  destruct (wi_states _ Hi _ _ Hl) as [H1 H2 H3 H4 H5 H6 H7 H8].
  apply (granted_inv w id cl s); auto; try done; simpl.
  - right. split; [done|]. intros g x Hx Hbl st'.
    destruct g; simpl in *; auto; rewrite Hm in *; by apply elem_of_nil in Hx.
  - intros l. rewrite Ha. naive_solver.
  - naive_solver.
  - intros g x. rewrite Hw. destruct g; simpl; naive_solver.
Qed.

Lemma mutation_turn_inv w id cl s x rest :
  session_inv w -> sw_claims w !! id = Some cl -> in_loop cl = true ->
  cl_gate cl = GMutation -> cl_waiter cl = Some x ->
  sessionLocked (sw_store w) (cl_client cl) (cl_epoch cl) = Ok s ->
  ss_active s = None -> ss_mutationWaiters s = x :: rest -> ss_reconnectWaiters s = [] ->
  let n := st_next (sw_store w) in
  session_inv (mkSWorld
    (with_next (set_session (sw_store w) (cl_client cl)
       (with_active (signalLocked (with_waiters GMutation s rest)) (Some n))) (n + 1))
    (<[id := claim_at cl (cl_waiter cl) (PDone (OLease n))]> (sw_claims w))
    (<[n := mkLease false (cl_client cl) (cl_epoch cl) LOpen]> (sw_leases w))
    (sw_cancels w) (sw_issued w)).
Proof.
  intros Hi Hid Hin Hg Hw Hs Ha Hm Hr n.
  pose proof (sessionLocked_Ok _ _ _ _ Hs) as (_ & _ & Hl & _ & _).
  destruct (wi_states _ Hi _ _ Hl) as [H1 H2 H3 H4 H5 H6 H7 H8].
  pose proof (H6 GMutation) as Hnd. simpl in Hnd. rewrite Hm in Hnd. apply NoDup_cons in Hnd as [Hx Hnd].
  apply (granted_inv w id cl s); auto; try done; simpl.
  - left. lia.
  - intros l. rewrite Ha. naive_solver.
  - naive_solver.
  - unfold gateWaitersLocked. simpl. rewrite Hm. slia.
  - intros g. specialize (H6 g). by destruct g.
  - intros g y. rewrite Hw, Hg. clear - Hm Hx. destruct g; simpl; [|naive_solver..].
    rewrite Hm, elem_of_cons. naive_solver.
Qed.

Lemma stream_grant_inv w id cl s s1 :
  session_inv w -> sw_claims w !! id = Some cl -> in_loop cl = true ->
  cl_gate cl = GStream -> sessionLocked (sw_store w) (cl_client cl) (cl_epoch cl) = Ok s ->
  ss_reconnectWaiters s = [] -> Z.of_nat (size (ss_streams s)) < cl_maximum cl ->
  s1 = match cl_waiter cl with
       | Some x => signalLocked (with_waiters GStream s (remove_first x (ss_streamWaiters s)))
       | None => s
       end ->
  let n := st_next (sw_store w) in
  session_inv (mkSWorld
    (with_next (set_session (sw_store w) (cl_client cl) (with_streams s1 ({[n]} ∪ ss_streams s)))
       (n + 1))
    (<[id := claim_at cl (cl_waiter cl) (PDone (OLease n))]> (sw_claims w))
    (<[n := mkLease true (cl_client cl) (cl_epoch cl) LOpen]> (sw_leases w))
    (sw_cancels w) (sw_issued w)).
Proof.
  intros Hi Hid Hin Hg Hs Hr Hsz Hs1 n. pose proof (wi_claims _ Hi id cl Hid Hin) as Hok.
  pose proof (sessionLocked_Ok _ _ _ _ Hs) as (_ & _ & Hl & _ & _).
  pose proof (wi_states _ Hi _ _ Hl) as Hso. pose proof (co_maximum _ _ Hok Hg) as Hmx.
  assert (st_next (sw_store w) ∉ ss_streams s) as Hn.
  { intros Hn. apply (so_streams _ _ _ Hso) in Hn as (ls & Hls & _).
    pose proof (wi_lease_ids _ Hi _ (ex_intro _ ls Hls)). lia. }
  assert (forall x, cl_waiter cl = Some x -> x ∈ ss_streamWaiters s) as Hxin.
  { intros x Hx. apply (so_waiters _ _ _ Hso GStream). exists id, cl. auto. }
  apply (granted_inv w id cl s); auto; rewrite ?Hs1.
  - by destruct (cl_waiter cl).
  - destruct (cl_waiter cl); simpl; [left; lia|right]. split; [done|].
    intros g x Hx Hbl st'. destruct g; simpl in *; auto. rewrite Hr in Hx. by apply elem_of_nil in Hx.
  - intros l. destruct (cl_waiter cl); simpl; naive_solver.
  - intros l. simpl. rewrite elem_of_union, elem_of_singleton. naive_solver.
  - cbn [ss_streams with_streams]. rewrite size_insert_new by done. lia.
  - destruct (cl_waiter cl) as [x|]; [|done]. unfold gateWaitersLocked. simpl.
    rewrite remove_first_len by auto. lia.
  - intros g. pose proof (so_nodup _ _ _ Hso g) as Hnd. destruct (cl_waiter cl); [|by destruct g].
    destruct g; simpl in *; auto using remove_first_nodup.
  - intros g y. pose proof (so_nodup _ _ _ Hso GStream) as Hnd. simpl in Hnd. rewrite Hg.
    clear - Hnd. destruct (cl_waiter cl) as [x|]; [|by destruct g; simpl; naive_solver].
    destruct g; simpl; [naive_solver..|]. rewrite remove_first_elem by done. naive_solver.
Qed.

Lemma iterate_inv w id cl st' cl' :
  session_inv w -> sw_claims w !! id = Some cl -> in_loop cl = true ->
  (forall streams, cl_pc cl <> PCancel streams) ->
  iterate_outcome (sw_store w) cl st' cl' ->
  session_inv (mkSWorld st' (<[id := cl']> (sw_claims w)) (new_lease cl cl' (sw_leases w))
    (sw_cancels w) (new_owner cl' (sw_issued w))).
Proof.
  intros Hi Hid Hin Hpc Ho. pose proof (wi_claims _ Hi id cl Hid Hin) as Hok.
  destruct Ho as [e Hw|e s x Hs Hw Hx|s Hg Hw Hs Ha Hm Hr|s x rest Hg Hw Hs Ha Hm Hr
                 |s Hg Hw Hs Hgw Hb|s x Hw Hs Hb|s s1 Hg Hs Hr Hsz Hs1
                 |s x rest Hg Hw Hs Hr Ha Hst Hx|s x rest st1 Hg Hw Hs Hr Ha Hst Hmx Hst1];
    unfold new_lease, new_owner; simpl.
  - by apply refused_inv.
  - by apply left_inv.
  - rewrite <- Hw at 1. rewrite Hg, bool_decide_eq_false_2 by done. by apply mutation_now_inv.
  - rewrite <- Hw at 1. rewrite Hg, bool_decide_eq_false_2 by done. by eapply mutation_turn_inv.
  - apply queued_inv; auto. apply (co_maximum _ _ Hok).
  - by apply wait_inv.
  - rewrite bool_decide_eq_true_2 by done. by eapply stream_grant_inv.
  - by eapply fence_inv.
  - by eapply advance_inv.
Qed.

(** ** The other steps *)

(** Only contexts were cancelled. *)
Lemma cancel_inv w st' :
  session_inv w -> st_sessions st' = st_sessions (sw_store w) ->
  st_closed st' = st_closed (sw_store w) -> st_drained st' = st_drained (sw_store w) ->
  st_next st' = st_next (sw_store w) -> st_fencing st' = st_fencing (sw_store w) ->
  st_cancelled (sw_store w) ⊆ st_cancelled st' ->
  forall cancels', session_inv (mkSWorld st' (sw_claims w) (sw_leases w) cancels' (sw_issued w)).
Proof.
  intros [H1 H2 H3 H4 H5 H6 H7 H8 H9 H10] E1 E2 E3 E4 E5 E6 cancels'.
  split; simpl; rewrite ?E1, ?E2, ?E3, ?E4, ?E5; auto.
  - intros c s Hs. destruct (H6 c s Hs). by split.
  - intros id cl Hid Hin. destruct (H8 id cl Hid Hin) as [C1 C2 C3 C4 C5 C6].
    split; auto; rewrite ?E1, ?E2; auto.
    + intros changed Hpc. destruct (C5 changed Hpc) as (s & x & Hs & Hx & Hle & Hb).
      exists s, x. split; [done|]. split; [done|]. split; [done|]. intros Heq.
      destruct (Hb Heq) as (? & ? & Hbl). split; [done|]. split; [done|].
      destruct (cl_gate cl); simpl in *; rewrite ?E5; auto.
    + intros s x Hg Hs Hx. apply (fence_ok_mono (sw_store w) _ s); auto; by rewrite E5.
Qed.

(** A claim changes its program counter or its context, nothing else. *)
Lemma relabel_inv w id cl cl' :
  session_inv w -> sw_claims w !! id = Some cl ->
  cl_gate cl' = cl_gate cl -> cl_client cl' = cl_client cl -> cl_waiter cl' = cl_waiter cl ->
  in_loop cl' = in_loop cl -> (in_loop cl' = true -> claim_ok (sw_store w) cl') ->
  session_inv (mkSWorld (sw_store w) (<[id := cl']> (sw_claims w)) (sw_leases w) (sw_cancels w)
    (sw_issued w)).
Proof.
  intros Hi Hid Hg Hc Hw Hl Hok. set (w' := mkSWorld _ _ _ _ _).
  assert (forall g c x, waiting_claim w' g c x <-> waiting_claim w g c x) as Hwait.
  { intros g c x. destruct (in_loop cl) eqn:El; [by apply (moved_same w id cl)|].
    unfold w'. rewrite (moved_out w id cl) by done. rewrite El. naive_solver. }
  destruct (inv_local (cl_client cl) w Hi) as [L1 L2 L3 L4].
  apply (inv_assemble (cl_client cl) w w'); auto.
  - apply (moved_elsewhere w id cl); auto.
  - apply (moved_ids w id cl); simpl; auto; try lia; try congruence. intros x Hx. left. congruence.
  - split; simpl; auto.
    + intros s Hs. destruct (L1 s Hs) as [H1 H2 H3 H4 H5 H6 H7 H8]. split; auto.
      intros g x. by rewrite Hwait.
    + intros i cl1 H1 Hc1 Hin. apply lookup_insert_Some in H1 as [[<- <-]|[Hne H1]]; eauto.
  - apply (wi_issued_nodup _ Hi).
  - apply (wi_drained _ Hi).
Qed.

Lemma ctx_done_inv w id cl :
  session_inv w -> sw_claims w !! id = Some cl ->
  session_inv (mkSWorld (sw_store w)
    (<[id := mkClaim (cl_gate cl) (cl_maximum cl) (cl_client cl) (cl_epoch cl) (cl_waiter cl)
               true (cl_pc cl)]> (sw_claims w)) (sw_leases w) (sw_cancels w) (sw_issued w)).
Proof.
  intros Hi Hid. apply (relabel_inv w id cl); auto. intros Hin.
  destruct (wi_claims _ Hi id cl Hid Hin) as [C1 C2 C3 C4 C5 C6]. by split.
Qed.

Lemma cancel_step_inv w id cl streams :
  session_inv w -> sw_claims w !! id = Some cl -> cl_pc cl = PCancel streams ->
  session_inv (mkSWorld (cancel_contexts (sw_store w) streams)
    (<[id := claim_at cl (cl_waiter cl) PReady]> (sw_claims w)) (sw_leases w) (sw_cancels w)
    (sw_issued w)).
Proof.
  intros Hi Hid Hpc.
  assert (in_loop cl = true) as Hin by (unfold in_loop; by rewrite Hpc).
  pose proof (wi_claims _ Hi id cl Hid Hin) as Hok.
  apply (cancel_inv w (cancel_contexts (sw_store w) streams)) with (cancels' := sw_cancels w) in Hi;
    simpl; auto; [|by apply union_subseteq_r].
  destruct Hok as [C1 C2 C3 C4 C5 C6].
  apply (relabel_inv _ id cl) with (cl' := claim_at cl (cl_waiter cl) PReady) in Hi; simpl; auto.
  intros _. split; simpl; auto; try done.
  intros s x Hg Hs Hx. specialize (C6 s x Hg Hs Hx). unfold fence_ok in *. simpl.
  rewrite Hpc in C6. destruct C6 as [_ C6]. intros _. exact C6.
Qed.

Lemma old_cancel_inv w id cl ctx session :
  session_inv w -> sw_claims w !! id = Some cl -> cl_pc cl = POldCancel ctx session ->
  session_inv (mkSWorld (cancel_contexts (sw_store w) {[ctx]})
    (<[id := claim_at cl (cl_waiter cl) (PDone (OSession session))]> (sw_claims w)) (sw_leases w)
    (sw_cancels w) (sw_issued w)).
Proof.
  intros Hi Hid Hpc.
  apply (cancel_inv w (cancel_contexts (sw_store w) {[ctx]})) with (cancels' := sw_cancels w) in Hi;
    simpl; auto; [|by apply union_subseteq_r].
  apply (relabel_inv _ id cl) with (cl' := claim_at cl (cl_waiter cl) (PDone (OSession session))) in Hi;
    simpl; auto; [unfold in_loop; by rewrite Hpc|done].
Qed.

(** ** Leases are released *)

Lemma release_inv w c s s' l ls b e :
  session_inv w -> sw_leases w !! l = Some ls -> ls_client ls = c ->
  st_sessions (sw_store w) !! c = Some s ->
  ss_epoch s' = ss_epoch s -> ss_changed s < ss_changed s' ->
  ss_streams s' ⊆ ss_streams s -> (forall g, waiters g s' = waiters g s) ->
  ls_stream ls = b ->
  (forall l', ss_active s' = Some l' <-> ss_active s = Some l' /\ ~ (l' = l /\ b = false)) ->
  (forall l', l' ∈ ss_streams s' <-> l' ∈ ss_streams s /\ ~ (l' = l /\ b = true)) ->
  (idle s = true -> idle s' = true) ->
  session_inv (mkSWorld (maybeDrainedLocked (set_session (sw_store w) c s')) (sw_claims w)
    (<[l := mkLease b c e LClosed]> (sw_leases w)) (sw_cancels w) (sw_issued w)).
Proof.
  intros Hi Hls Hlc Hs He Hch Hst Hw Hb Ha Hl Hidle. set (w' := mkSWorld _ _ _ _ _).
  pose proof (wi_states _ Hi _ _ Hs) as Hso.
  assert (st_sessions (sw_store w') = <[c := s']> (st_sessions (sw_store w))) as Hs'
    by (simpl; by rewrite maybeDrained_eq).
  assert (forall b0 l0, lease_held w' b0 c l0 <-> lease_held w b0 c l0 /\ ~ (l0 = l /\ b0 = b)) as Hh.
  { intros b0 l0. unfold lease_held, w'; simpl. destruct (decide (l0 = l)) as [->|Hne].
    - rewrite lookup_insert_eq, Hls. split; [intros (? & [= <-] & _ & _ & ?); done|].
      intros [(? & [= <-] & ? & _) Hn]. naive_solver.
    - rewrite lookup_insert_ne by done. naive_solver. }
  apply (inv_assemble c w w'); auto.
  - split; simpl; rewrite ?maybeDrained_eq; auto; try done.
    + intros c' Hne. simpl. by rewrite lookup_insert_ne.
    + intros l0 ls0 Hne. destruct (decide (l0 = l)) as [->|]; [|by rewrite lookup_insert_ne].
      rewrite lookup_insert_eq, Hls. split; intros [= <-]; simpl in *; congruence.
  - destruct (inv_ids _ Hi) as [I1 I2 I3 I4]. split; simpl; rewrite ?maybeDrained_eq; auto.
    intros l0 [ls0 Hl0]. apply lookup_insert_Some in Hl0 as [[<- _]|[_ Hl0]]; apply I1; eauto.
  - split.
    + rewrite Hs', lookup_insert_eq. intros s0 [= <-]. destruct Hso as [H1 H2 H3 H4 H5 H6 H7 H8].
      split; rewrite ?He; auto.
      * unfold gateWaitersLocked in *. pose proof (Hw GMutation). pose proof (Hw GReconnect).
        pose proof (Hw GStream). simpl in *. congruence.
      * pose proof (subseteq_size _ _ Hst). lia.
      * intros l0. rewrite Ha, H4, Hh. naive_solver.
      * intros l0. rewrite Hl, H5, Hh. naive_solver.
      * intros g. by rewrite Hw.
      * intros g x. by rewrite Hw, H7.
    + intros l0 ls0 Hl0 Hc0 Hp. exists s'. rewrite Hs', lookup_insert_eq. split; [done|]. rewrite He.
      simpl in Hl0. apply lookup_insert_Some in Hl0 as [[<- <-]|[Hne Hl0]]; [done|].
      destruct (wi_lease_epoch _ Hi l0 ls0 Hl0 Hp) as (s0 & Hs0 & ?). congruence.
    + intros i cl1 H1 Hc1 Hin1. apply (claim_ok_evolve (sw_store w) _ cl1 s s');
        rewrite ?Hc1, ?Hs', ?lookup_insert_eq; simpl; rewrite ?maybeDrained_eq; auto.
      by apply (wi_claims _ Hi i).
    + intros e0 Hin. destruct (wi_issued _ Hi _ _ Hin) as (s0 & Hs0 & ?).
      exists s'. rewrite Hs', lookup_insert_eq, He. split; [done|]. congruence.
  - apply (wi_issued_nodup _ Hi).
  - simpl. rewrite maybeDrained_eq. simpl. rewrite (wi_drained _ Hi).
    destruct (st_closed _); simpl; [|done]. destruct (all_idle (st_sessions (sw_store w))) eqn:Ea; [|done].
    symmetry. apply all_idle_spec. rewrite all_idle_spec in Ea. intros c0 s0 H0.
    apply lookup_insert_Some in H0 as [[<- <-]|[_ H0]]; eauto.
Qed.

Lemma mutation_close_inv w l c e :
  session_inv w -> sw_leases w !! l = Some (mkLease false c e LOpen) ->
  session_inv (mkSWorld (mutation_lease_close (sw_store w) c l) (sw_claims w)
    (<[l := mkLease false c e LClosed]> (sw_leases w)) (sw_cancels w) (sw_issued w)).
Proof.
  intros Hi Hl. destruct (wi_lease_epoch _ Hi _ _ Hl ltac:(done)) as (s & Hs & _). simpl in Hs.
  pose proof (wi_states _ Hi _ _ Hs) as Hso.
  assert (ss_active s = Some l) as Ha.
  { apply (so_active _ _ _ Hso). by eexists. }
  unfold mutation_lease_close. rewrite Hs, bool_decide_eq_true_2 by done.
  eapply (release_inv w c s); eauto; simpl; try done; try lia.
  - intros l'. rewrite Ha. naive_solver.
  - naive_solver.
  - rewrite idle_spec. intros (? & _). congruence.
Qed.

Lemma stream_release_inv w l c e :
  session_inv w -> sw_leases w !! l = Some (mkLease true c e LClosing) ->
  session_inv (mkSWorld (stream_lease_release (sw_store w) c l) (sw_claims w)
    (<[l := mkLease true c e LClosed]> (sw_leases w)) (sw_cancels w) (sw_issued w)).
Proof.
  intros Hi Hl. destruct (wi_lease_epoch _ Hi _ _ Hl ltac:(done)) as (s & Hs & _). simpl in Hs.
  unfold stream_lease_release. rewrite Hs.
  eapply (release_inv w c s); eauto; simpl; try done; try lia.
  - by apply subseteq_difference_l.
  - naive_solver.
  - intros l'. rewrite elem_of_difference, elem_of_singleton. naive_solver.
  - rewrite !idle_spec. simpl. intros (? & ? & ? & ? & ->). repeat split; auto.
    apply difference_empty_L || by rewrite empty_difference_L.
Qed.

Lemma stream_closing_inv w l c e :
  session_inv w -> sw_leases w !! l = Some (mkLease true c e LOpen) ->
  session_inv (mkSWorld (cancel_contexts (sw_store w) {[l]}) (sw_claims w)
    (<[l := mkLease true c e LClosing]> (sw_leases w)) (sw_cancels w) (sw_issued w)).
Proof.
  intros Hi Hl.
  apply (cancel_inv w (cancel_contexts (sw_store w) {[l]})) with (cancels' := sw_cancels w) in Hi;
    simpl; auto; [|by apply union_subseteq_r].
  set (w1 := mkSWorld _ _ _ _ _) in Hi. set (w' := mkSWorld _ _ _ _ _).
  assert (forall b c0 l0, lease_held w' b c0 l0 <-> lease_held w1 b c0 l0) as Hh.
  { intros b c0 l0. unfold lease_held; simpl. destruct (decide (l0 = l)) as [->|]; [|by rewrite lookup_insert_ne].
    rewrite lookup_insert_eq, Hl.
    split; intros (? & [= <-] & ? & ? & ?); eexists; (split; [done|]); auto. }
  destruct Hi as [H1 H2 H3 H4 H5 H6 H7 H8 H9 H10]. split; simpl in *; auto.
  - intros l0 [ls0 Hl0]. apply lookup_insert_Some in Hl0 as [[<- _]|[_ Hl0]]; apply H2; eauto.
  - intros c0 s Hs. destruct (H6 c0 s Hs) as [S1 S2 S3 S4 S5 S6 S7 S8]. split; auto.
    + intros l0. by rewrite Hh.
    + intros l0. by rewrite Hh.
  - intros l0 ls0 Hl0 Hp. apply lookup_insert_Some in Hl0 as [[<- <-]|[_ Hl0]]; [|eauto].
    by apply (H7 l _ Hl).
Qed.

(** ** New clients and new claims *)

Lemma no_session_nothing w c :
  session_inv w -> st_sessions (sw_store w) !! c = None ->
  (forall b l, ~ lease_held w b c l) /\ (forall g x, ~ waiting_claim w g c x)
  /\ (forall e, (c, e) ∉ sw_issued w).
Proof.
  intros Hi Hc. split; [|split].
  - intros b l (ls & Hl & _ & <- & Hp). destruct (wi_lease_epoch _ Hi l ls Hl Hp) as (s & Hs & _).
    congruence.
  - intros g x (id & cl & Hid & Hin & _ & <- & Hx).
    destruct (co_state _ _ (wi_claims _ Hi id cl Hid Hin)) as [s Hs]; congruence.
  - intros e He. destruct (wi_issued _ Hi _ _ He) as (s & Hs & _). congruence.
Qed.

Lemma fresh_inv w c :
  session_inv w -> st_sessions (sw_store w) !! c = None -> st_closed (sw_store w) = false ->
  let n := st_next (sw_store w) in
  session_inv (mkSWorld
    (with_next (set_session (sw_store w) c (mkState 1 n 0 None [] [] [] ∅)) (n + 1))
    (sw_claims w) (sw_leases w) (sw_cancels w) (sw_issued w ++ [(c, 1)])).
Proof.
  intros Hi Hc Hcl n. destruct (no_session_nothing w c Hi Hc) as (N1 & N2 & N3).
  set (s := mkState 1 n 0 None [] [] [] ∅). set (w' := mkSWorld _ _ _ _ _).
  apply (inv_assemble c w w'); auto.
  - split; simpl; auto; try done.
    + intros c' Hne. by rewrite lookup_insert_ne.
    + intros c' e Hne. rewrite elem_of_app, list_elem_of_singleton. naive_solver.
  - destruct (inv_ids _ Hi) as [I1 I2 I3 I4]. split; simpl; auto.
    + intros l Hl. specialize (I1 l Hl). lia.
    + intros id cl x Hid Hx. specialize (I2 _ _ _ Hid Hx). lia.
    + intros x Hx. specialize (I4 x Hx). lia.
  - split; simpl.
    + rewrite lookup_insert_eq. intros s0 [= <-]. split.
      * subst s. cbn. unfold maxUint64. lia.
      * by vm_compute.
      * by vm_compute.
      * intros l. split; [done|]. intros Hl. by apply N1 in Hl.
      * intros l. split; [by intros ?%not_elem_of_empty|]. intros Hl. by apply N1 in Hl.
      * intros g. destruct g; simpl; constructor.
      * intros g x. split; [destruct g; simpl; by intros ?%elem_of_nil|]. intros Hx. by apply N2 in Hx.
      * apply elem_of_app. right. by apply list_elem_of_singleton.
    + intros l ls Hl Hlc Hp. exfalso. apply (N1 (ls_stream ls) l). by exists ls.
    + intros id cl Hid Hcc Hin. destruct (wi_claims _ Hi id cl Hid Hin) as [C1 C2 C3 C4 C5 C6].
      rewrite Hcc, Hc in *.
      assert (cl_waiter cl = None) as Hw.
      { destruct (cl_waiter cl); [|done]. destruct C1; [done|]. discriminate. }
      split; auto; rewrite ?Hw; try done.
      * intros changed Hpc. destruct (C5 changed Hpc) as (s0 & x & ? & _). congruence.
    + intros e He. exists s. rewrite lookup_insert_eq. split; [done|].
      apply elem_of_app in He as [He|He]; [by apply N3 in He|].
      apply list_elem_of_singleton in He as [= ->]. simpl. lia.
  - simpl. apply NoDup_app. split; [apply (wi_issued_nodup _ Hi)|]. split; [|apply NoDup_singleton].
    intros [c0 e] H1 H2. apply list_elem_of_singleton in H2 as [= -> ->]. by apply N3 in H1.
  - simpl. rewrite (wi_drained _ Hi), Hcl. done.
Qed.

Lemma inserted_waiting w id cl st' c g x :
  sw_claims w !! id = None ->
  waiting_claim (mkSWorld st' (<[id := cl]> (sw_claims w)) (sw_leases w) (sw_cancels w) (sw_issued w))
    g c x
  <-> waiting_claim w g c x
      \/ (in_loop cl = true /\ cl_gate cl = g /\ cl_client cl = c /\ cl_waiter cl = Some x).
Proof.
  intros Hid. unfold waiting_claim; simpl. split.
  - intros (i & cl1 & Hl & Hr). apply lookup_insert_Some in Hl as [[<- <-]|[Hne Hl]]; [auto|].
    left. eauto 10.
  - intros [(i & cl1 & Hl & Hr)|Hr].
    + exists i, cl1. rewrite lookup_insert_ne by congruence. auto.
    + exists id, cl. rewrite lookup_insert_eq. auto.
Qed.

Lemma inserted_elsewhere w id cl st' :
  sw_claims w !! id = None ->
  (forall c', c' <> cl_client cl -> st_sessions st' !! c' = st_sessions (sw_store w) !! c') ->
  st_closed st' = st_closed (sw_store w) -> st_cancelled st' = st_cancelled (sw_store w) ->
  st_fencing st' = st_fencing (sw_store w) ->
  elsewhere (cl_client cl) w (mkSWorld st' (<[id := cl]> (sw_claims w)) (sw_leases w) (sw_cancels w)
    (sw_issued w)).
Proof.
  intros Hid Hs Hc Hca Hf. split; simpl; rewrite ?Hca, ?Hf; auto; try done.
  intros i cl1 Hne. destruct (decide (i = id)) as [->|]; [|by rewrite lookup_insert_ne].
  rewrite lookup_insert_eq, Hid. split; [intros [= ->]; done|done].
Qed.

Lemma inserted_ids w id cl st' :
  session_inv w -> sw_claims w !! id = None -> st_fencing st' = st_fencing (sw_store w) ->
  st_next (sw_store w) <= st_next st' ->
  (forall x, cl_waiter cl = Some x -> x = st_next (sw_store w) /\ st_next (sw_store w) < st_next st') ->
  ids_inv (mkSWorld st' (<[id := cl]> (sw_claims w)) (sw_leases w) (sw_cancels w) (sw_issued w)).
Proof.
  intros Hi Hid Hf Hn Hw. destruct (inv_ids _ Hi) as [I1 I2 I3 I4]. split; simpl; rewrite ?Hf.
  - intros l Hl. specialize (I1 l Hl). lia.
  - intros i cl1 x H1 Hx. apply lookup_insert_Some in H1 as [[<- <-]|[_ H1]].
    + apply Hw in Hx as [-> ?]. lia.
    + specialize (I2 _ _ _ H1 Hx). lia.
  - assert (forall i cl1 x, sw_claims w !! i = Some cl1 -> cl_waiter cl1 = Some x ->
      cl_waiter cl = Some x -> False) as Hother.
    { intros i cl1 x H1 Hx1 Hx. apply Hw in Hx as [-> _]. specialize (I2 _ _ _ H1 Hx1). lia. }
    intros i1 i2 c1 c2 x H1 H2 Hx1 Hx2.
    apply lookup_insert_Some in H1 as [[<- <-]|[Hn1 H1]];
      apply lookup_insert_Some in H2 as [[<- <-]|[Hn2 H2]]; eauto; exfalso; eauto.
  - intros x Hx. specialize (I4 x Hx). lia.
Qed.

Lemma begin_plain_inv w id cl :
  session_inv w -> sw_claims w !! id = None -> cl_waiter cl = None ->
  (in_loop cl = true -> claim_ok (sw_store w) cl) ->
  session_inv (mkSWorld (sw_store w) (<[id := cl]> (sw_claims w)) (sw_leases w) (sw_cancels w)
    (sw_issued w)).
Proof.
  intros Hi Hid Hw Hok. destruct (inv_local (cl_client cl) w Hi) as [L1 L2 L3 L4].
  apply (inv_assemble (cl_client cl) w); auto.
  - by apply inserted_elsewhere.
  - apply inserted_ids; auto; [lia|congruence].
  - split; simpl; auto.
    + intros s Hs. destruct (L1 s Hs) as [H1 H2 H3 H4 H5 H6 H7 H8]. split; auto.
      intros g x. rewrite inserted_waiting by done. rewrite H7, Hw. naive_solver.
    + intros i cl1 H1 Hc Hin. apply lookup_insert_Some in H1 as [[<- <-]|[_ H1]]; eauto.
  - apply (wi_issued_nodup _ Hi).
  - apply (wi_drained _ Hi).
Qed.

Lemma reconnect_register_inv w id g maximum c epoch s :
  session_inv w -> sw_claims w !! id = None -> g = GReconnect ->
  sessionLocked (sw_store w) c epoch = Ok s -> epoch <> maxUint64 ->
  gateWaitersLocked s < maximumSessionGateWaitersPerClient ->
  let n := st_next (sw_store w) in
  session_inv (mkSWorld
    (with_next (set_session (sw_store w) c
       (signalLocked (with_waiters GReconnect s (ss_reconnectWaiters s ++ [n])))) (n + 1))
    (<[id := mkClaim g maximum c epoch (Some n) false PReady]> (sw_claims w)) (sw_leases w)
    (sw_cancels w) (sw_issued w)).
Proof.
  intros Hi Hid -> Hs Hmx Hgw n. apply sessionLocked_Ok in Hs as (Hc & Hr & Hs & He & Hz).
  pose proof (wi_states _ Hi _ _ Hs) as Hso. set (cl := mkClaim _ _ _ _ _ _ _). set (s' := signalLocked _).
  assert (forall g' x, x ∈ waiters g' s -> x < n) as Hlt.
  { intros g' x Hx. apply (so_waiters _ _ _ Hso) in Hx as (i & cl1 & H1 & _ & _ & _ & Hx).
    by apply (wi_waiter_ids _ Hi i cl1). }
  destruct Hso as [H1 H2 H3 H4 H5 H6 H7 H8].
  apply (inv_assemble c w); auto.
  - apply (inserted_elsewhere w id cl); auto. intros c' Hne. simpl. by rewrite lookup_insert_ne.
  - apply inserted_ids; simpl; auto; [lia|]. intros x [= <-]. lia.
  - split; simpl.
    + rewrite lookup_insert_eq. intros s0 [= <-]. split; auto.
      * change (gateWaitersLocked (with_waiters GReconnect s (ss_reconnectWaiters s ++ [n]))
                <= maximumSessionGateWaitersPerClient).
        rewrite gate_with. simpl. slia.
      * intros g. unfold s'. rewrite waiters_signal, waiters_with. destruct (decide _); [|auto].
        apply NoDup_app. split; [apply (H6 GReconnect)|]. split; [|apply NoDup_singleton].
        intros x Hx Hn. apply list_elem_of_singleton in Hn as ->. specialize (Hlt GReconnect n Hx). lia.
      * intros g x. rewrite inserted_waiting by done. rewrite <- H7. unfold s'.
        rewrite waiters_signal, waiters_with. simpl. destruct (decide (g = GReconnect)) as [->|].
        -- rewrite elem_of_app, list_elem_of_singleton. simpl. naive_solver.
        -- naive_solver.
    + intros l ls Hl Hlc Hp. exists s'. rewrite lookup_insert_eq. split; [done|].
      destruct (wi_lease_epoch _ Hi l ls Hl Hp) as (s0 & Hs0 & ?). simpl. congruence.
    + intros i cl1 Hl Hc1 Hin. apply lookup_insert_Some in Hl as [[<- <-]|[_ Hl]].
      * split; simpl; try done.
        -- intros _. by rewrite lookup_insert_eq.
        -- intros _. split; [done|]. subst epoch. lia.
        -- intros s0 x _ _ [= <-]. unfold fence_ok; simpl. intros Hx.
           pose proof (wi_fencing_ids _ Hi _ Hx). lia.
      * apply (claim_ok_evolve (sw_store w) _ cl1 s s'); rewrite ?Hc1; simpl;
          rewrite ?lookup_insert_eq; auto; try done.
        -- by apply (wi_claims _ Hi i).
        -- left. lia.
    + intros e Hin. destruct (wi_issued _ Hi _ _ Hin) as (s0 & Hs0 & ?).
      exists s'. rewrite lookup_insert_eq. split; [done|]. simpl. congruence.
  - apply (wi_issued_nodup _ Hi).
  - simpl. rewrite (wi_drained _ Hi), Hc. done.
Qed.

Lemma begin_inv w id g maximum ctx c epoch st' cl :
  session_inv w -> sw_claims w !! id = None ->
  claim_begin g maximum ctx c epoch (sw_store w) = (st', cl) ->
  session_inv (mkSWorld st' (<[id := cl]> (sw_claims w)) (sw_leases w) (sw_cancels w)
    (sw_issued w)).
Proof.
  intros Hi Hid Hb. unfold claim_begin in Hb.
  destruct (claim_guard g maximum ctx c) eqn:Eg; [injection Hb as <- <-; by apply begin_plain_inv|].
  assert (g = GStream -> 1 <= maximum <= maximumSessionStreamsPerClient) as Hmx.
  { intros ->. unfold claim_guard in Eg. simpl in Eg.
    destruct ((maximum <? 1) || _) eqn:E; [discriminate|]. bprop. lia. }
  destruct g.
  - injection Hb as <- <-. apply begin_plain_inv; auto. intros _. split; simpl; done || auto.
  - unfold registerReconnect in Hb.
    destruct (sessionLocked (sw_store w) c epoch) as [s|e] eqn:Es.
    2:{ injection Hb as <- <-. by apply begin_plain_inv. }
    destruct (_ =? _) eqn:E1; [injection Hb as <- <-; by apply begin_plain_inv|].
    destruct (_ >=? _) eqn:E2; [injection Hb as <- <-; by apply begin_plain_inv|].
    bprop. injection Hb as <- <-. apply reconnect_register_inv; auto.
  - injection Hb as <- <-. apply begin_plain_inv; auto. intros _. split; simpl; done || auto.
Qed.

Lemma idle_signal s : idle (signalLocked s) = idle s.
Proof. done. Qed.

Lemma all_idle_signal m : all_idle (signalLocked <$> m) = all_idle m.
Proof.
  apply eq_true_iff_eq. rewrite !all_idle_spec. split.
  - intros H c s Hs. rewrite <- idle_signal. apply (H c). by rewrite lookup_fmap, Hs.
  - intros H c s Hs. rewrite lookup_fmap in Hs. apply fmap_Some in Hs as (s0 & Hs & ->).
    rewrite idle_signal. eauto.
Qed.

Lemma close_store_inv w st' cancels :
  session_inv w -> Close_store (sw_store w) = (st', cancels) ->
  session_inv (mkSWorld st' (sw_claims w) (sw_leases w) (cancels ∪ sw_cancels w) (sw_issued w)).
Proof.
  intros Hi Hc. unfold Close_store in Hc. destruct (st_closed (sw_store w)) eqn:Ec.
  { injection Hc as <- <-. by apply cancel_inv. }
  injection Hc as <- _. rewrite maybeDrained_eq. set (st' := mkStore _ _ _ _ _ _ _ _).
  assert (forall c s', st_sessions st' !! c = Some s' <->
    exists s, st_sessions (sw_store w) !! c = Some s /\ s' = signalLocked s) as Hl.
  { intros c s'. simpl. rewrite lookup_fmap, fmap_Some. naive_solver. }
  destruct Hi as [H1 H2 H3 H4 H5 H6 H7 H8 H9 H10]. split; simpl; auto.
  - by rewrite H1, Ec.
  - intros c s' Hs'. apply Hl in Hs' as (s & Hs & ->). destruct (H6 c s Hs). split; auto.
  - intros l ls Hls Hp. destruct (H7 l ls Hls Hp) as (s & Hs & He).
    exists (signalLocked s). split; [|done]. apply Hl. eauto.
  - intros id cl Hid Hin. pose proof (H8 id cl Hid Hin) as Hok.
    destruct (st_sessions (sw_store w) !! cl_client cl) as [s|] eqn:Es.
    + apply (claim_ok_evolve (sw_store w) st' cl s (signalLocked s)); auto; try done.
      * apply Hl. eauto.
      * left. simpl. lia.
    + destruct Hok as [C1 C2 C3 C4 C5 C6]. split; auto.
      * intros Hw. destruct (C1 Hw) as [? ?]. congruence.
      * intros changed Hpc. destruct (C5 changed Hpc) as (? & ? & ? & _). congruence.
      * intros s' x _ Hs' _. apply Hl in Hs' as (? & ? & _). congruence.
  - intros c e Hin. destruct (H10 c e Hin) as (s & Hs & He).
    exists (signalLocked s). split; [|done]. apply Hl. eauto.
Qed.

Lemma fresh_round_inv w c st' r :
  session_inv w -> fresh_round (sw_store w) c = (st', r) ->
  session_inv (mkSWorld st' (sw_claims w) (sw_leases w) (sw_cancels w)
    (match r with FreshOk s => sw_issued w ++ [(sn_clientID s, sn_epoch s)] | _ => sw_issued w end)).
Proof.
  intros Hi Hf. unfold fresh_round, closedLocked in Hf. assert (w = mkSWorld (sw_store w) (sw_claims w)
    (sw_leases w) (sw_cancels w) (sw_issued w)) as Hw by (by destruct w).
  destruct (st_closed (sw_store w)) eqn:Ec; [injection Hf as <- <-; congruence|].
  repeat (split_match_in Hf; try (injection Hf as <- <-; congruence)).
  injection Hf as <- <-. by apply fresh_inv.
Qed.

(** An enabled claim of a world that satisfies the invariant meets the
    conditions under which an iteration was analysed. *)
Lemma iterate_outcome_of w id cl early late :
  session_inv w -> sw_claims w !! id = Some cl -> in_loop cl = true ->
  exists st' cl', claim_iterate early late (sw_store w) cl = Some (st', cl')
    /\ iterate_outcome (sw_store w) cl st' cl'.
Proof.
  intros Hi Hid Hin. apply iterate_total.
  - by apply (wi_claims _ Hi id).
  - intros s x Hs Hx. apply (so_waiters _ _ _ (wi_states _ Hi _ _ Hs)). by exists id, cl.
  - intros s g x Hs Hx. apply (so_waiters _ _ _ (wi_states _ Hi _ _ Hs)) in Hx as (i & cl1 & H1 & _ & _ & _ & Hx).
    by apply (wi_waiter_ids _ Hi i cl1).
  - intros s Hs. apply (so_epoch _ _ _ (wi_states _ Hi _ _ Hs)).
Qed.

Lemma enabled_in_loop st cl :
  claim_enabled st cl = true -> in_loop cl = true /\ forall streams, cl_pc cl <> PCancel streams.
Proof. unfold claim_enabled, in_loop. by destruct (cl_pc cl). Qed.

Lemma session_step_inv w w' : session_inv w -> session_step w w' -> session_inv w'.
Proof.
  intros Hi Hs. destruct Hs.
  - by eapply fresh_round_inv.
  - by eapply begin_inv.
  - apply enabled_in_loop in H0 as [Hin Hpc].
    destruct (iterate_outcome_of w id cl early late Hi H Hin) as (st1 & cl1 & Hit & Ho).
    rewrite Hit in H2. injection H2 as <- <-. by apply iterate_inv.
  - by apply cancel_step_inv.
  - by apply old_cancel_inv.
  - by apply ctx_done_inv.
  - by apply mutation_close_inv.
  - by apply stream_closing_inv.
  - by apply stream_release_inv.
  - apply cancel_inv; auto. simpl. by apply union_subseteq_r.
  - by eapply close_store_inv.
  - apply cancel_inv; auto. simpl. by apply union_subseteq_r.
  - by apply cancel_inv.
Qed.

Lemma session_reachable_inv maximum w : session_reachable maximum w -> session_inv w.
Proof.
  intros (st & Hn & Hr).
  assert (session_inv (mkSWorld st ∅ ∅ ∅ [])) as H0.
  { unfold newSessionStore in Hn. destruct (_ || _); [discriminate|]. injection Hn as <-.
    split; simpl; try done; intros *; rewrite ?lookup_empty; try done.
    - constructor.
    - by intros ?%elem_of_nil. }
  clear Hn. induction Hr as [w0|w0 w1 w2 Hstep _ IH]; [done|]. apply IH. by eapply session_step_inv.
Qed.

(** ** A sample world, for concrete evaluation *)

Definition sample_store : SessionStore := mkStore 8 ∅ false false false 1 ∅ ∅.
Definition world_fresh (c : string) (w : SessionWorld) : SessionWorld :=
  let '(st', r) := fresh_round (sw_store w) c in
  mkSWorld st' (sw_claims w) (sw_leases w) (sw_cancels w)
    (match r with FreshOk s => sw_issued w ++ [(sn_clientID s, sn_epoch s)] | _ => sw_issued w end).
Definition world_begin (id : Z) (g : gate) (c : string) (epoch : Z) (w : SessionWorld) : SessionWorld :=
  let '(st', cl) := claim_begin g maximumSessionStreamsPerClient CtxLive c epoch (sw_store w) in
  match sw_claims w !! id with
  | None => mkSWorld st' (<[id := cl]> (sw_claims w)) (sw_leases w) (sw_cancels w) (sw_issued w)
  | Some _ => w
  end.
Definition world_iterate (id : Z) (w : SessionWorld) : SessionWorld :=
  match sw_claims w !! id with
  | Some cl =>
      if claim_enabled (sw_store w) cl && ctx_views cl false false then
        match claim_iterate false false (sw_store w) cl with
        | Some (st', cl') =>
            mkSWorld st' (<[id := cl']> (sw_claims w)) (new_lease cl cl' (sw_leases w)) (sw_cancels w)
              (new_owner cl' (sw_issued w))
        | None => w
        end
      else w
  | None => w
  end.

Lemma session_reachable_step maximum w w' :
  session_reachable maximum w -> session_step w w' -> session_reachable maximum w'.
Proof. intros (st & Hn & Hr) Hs. exists st. split; [done|]. by eapply rtc_r. Qed.

Lemma reachable_fresh maximum c w :
  session_reachable maximum w -> session_reachable maximum (world_fresh c w).
Proof.
  intros H. unfold world_fresh. destruct (fresh_round (sw_store w) c) as [st' r] eqn:E.
  eapply session_reachable_step; [done|]. by eapply sstep_fresh.
Qed.

Lemma reachable_begin maximum id g c epoch w :
  session_reachable maximum w -> session_reachable maximum (world_begin id g c epoch w).
Proof.
  intros H. unfold world_begin. destruct (claim_begin _ _ _ _ _ _) as [st' cl] eqn:E.
  destruct (sw_claims w !! id) eqn:Eid; [done|].
  eapply session_reachable_step; [done|]. by eapply sstep_begin.
Qed.

Lemma reachable_iterate maximum id w :
  session_reachable maximum w -> session_reachable maximum (world_iterate id w).
Proof.
  intros H. unfold world_iterate. destruct (sw_claims w !! id) as [cl|] eqn:Eid; [|done].
  destruct (_ && _) eqn:Ee; [|done]. destruct (claim_iterate _ _ _ _) as [[st' cl']|] eqn:Ei; [|done].
  bprop. eapply session_reachable_step; [done|]. by eapply sstep_iterate.
Qed.

Lemma sample_store_reachable : session_reachable 8 (mkSWorld sample_store ∅ ∅ ∅ []).
Proof. exists sample_store. split; [done|apply rtc_refl]. Qed.

(** One client holds a commit lease (claim 1) and a stream (claim 2); a second
    commit (claim 3) waits in the queue and a reconnect (claim 4) waits for the
    first one to finish. *)
Definition sample_sessions : SessionWorld :=
  world_iterate 4 (world_begin 4 GReconnect "client" 1
    (world_iterate 3 (world_begin 3 GMutation "client" 1
      (world_iterate 2 (world_begin 2 GStream "client" 1
        (world_iterate 1 (world_begin 1 GMutation "client" 1
          (world_fresh "client" (mkSWorld sample_store ∅ ∅ ∅ []))))))))).

Lemma sample_sessions_reachable : session_reachable 8 sample_sessions.
Proof.
  do 4 apply reachable_iterate, reachable_begin. apply reachable_fresh, sample_store_reachable.
Qed.

(** ** Properties *)

(** C3: In every reachable state of a session store and for every client: an
    unreleased commit or stream lease belongs to the client's current
    ownership epoch, so no lease survives a reconnect; at most one commit lease
    is unreleased; the gate never holds more than 64 waiters nor 256 streams;
    and no two owners were ever handed the same epoch. *)
Theorem session_fencing maximum w :
  session_reachable maximum w ->
  (forall l ls, sw_leases w !! l = Some ls -> ls_phase ls <> LClosed ->
     exists s, st_sessions (sw_store w) !! ls_client ls = Some s /\ ls_epoch ls = ss_epoch s
       /\ (ls_stream ls = false -> ss_active s = Some l) /\ (ls_stream ls = true -> l ∈ ss_streams s))
  /\ (forall l1 l2 ls1 ls2, sw_leases w !! l1 = Some ls1 -> sw_leases w !! l2 = Some ls2 ->
        ls_stream ls1 = false -> ls_stream ls2 = false -> ls_client ls1 = ls_client ls2 ->
        ls_phase ls1 <> LClosed -> ls_phase ls2 <> LClosed -> l1 = l2)
  /\ (forall c s, st_sessions (sw_store w) !! c = Some s ->
        gateWaitersLocked s <= maximumSessionGateWaitersPerClient
        /\ Z.of_nat (size (ss_streams s)) <= maximumSessionStreamsPerClient
        /\ 1 <= ss_epoch s <= maxUint64)
  /\ NoDup (sw_issued w).
Proof.
  intros Hr. pose proof (session_reachable_inv _ _ Hr) as Hi.
  assert (forall l ls, sw_leases w !! l = Some ls -> ls_phase ls <> LClosed ->
     exists s, st_sessions (sw_store w) !! ls_client ls = Some s /\ ls_epoch ls = ss_epoch s
       /\ (ls_stream ls = false -> ss_active s = Some l) /\ (ls_stream ls = true -> l ∈ ss_streams s)) as Hl.
  { intros l ls Hls Hp. destruct (wi_lease_epoch _ Hi l ls Hls Hp) as (s & Hs & He).
    destruct (wi_states _ Hi _ _ Hs) as [_ _ _ Ha Hst _ _ _]. exists s.
    split; [done|]. split; [done|]. split; intros Hb; [apply Ha|apply Hst]; by exists ls. }
  split; [done|]. split; [|split; [|apply (wi_issued_nodup _ Hi)]].
  - intros l1 l2 ls1 ls2 H1 H2 B1 B2 Hc P1 P2.
    destruct (Hl _ _ H1 P1) as (s1 & Hs1 & _ & A1 & _). destruct (Hl _ _ H2 P2) as (s2 & Hs2 & _ & A2 & _).
    specialize (A1 B1). specialize (A2 B2). congruence.
  - intros c s Hs. destruct (wi_states _ Hi _ _ Hs). auto.
Qed.

Lemma session_fencing_witness : NoDup (sw_issued sample_sessions) /\ sw_issued sample_sessions <> [].
Proof.
  split; [|vm_compute; discriminate].
  exact (proj2 (proj2 (proj2 (session_fencing 8 sample_sessions sample_sessions_reachable)))).
Defined.

(** The gate on every branch: in a reachable state an iteration of a
    waiting or starting call never hits an out-of-range index and ends in one
    of the listed ways: a commit lease is granted only with no active commit
    and no reconnect intent, and to the head of the queue when there is one; a
    stream only without a reconnect intent and below the limit; the epoch
    advances by exactly one, only for the first reconnect intent with the
    current epoch, with no active commit and every stream lease released; a
    call that gives up leaves its queue. *)
Theorem gate_behaviour maximum w id cl early late :
  session_reachable maximum w -> sw_claims w !! id = Some cl ->
  claim_enabled (sw_store w) cl = true ->
  exists st' cl', claim_iterate early late (sw_store w) cl = Some (st', cl')
    /\ iterate_outcome (sw_store w) cl st' cl'.
Proof.
  intros Hr Hid He. pose proof (session_reachable_inv _ _ Hr) as Hi.
  apply enabled_in_loop in He as [Hin _]. by eapply iterate_outcome_of.
Qed.

(** The world in which the first commit has been released. *)
Definition sample_released : SessionWorld :=
  mkSWorld (mutation_lease_close (sw_store sample_sessions) "client" 2) (sw_claims sample_sessions)
    (<[2 := mkLease false "client" 1 LClosed]> (sw_leases sample_sessions))
    (sw_cancels sample_sessions) (sw_issued sample_sessions).

Lemma sample_released_reachable : session_reachable 8 sample_released.
Proof.
  eapply session_reachable_step; [exact sample_sessions_reachable|].
  apply sstep_mutation_close. vm_compute. reflexivity.
Qed.

Lemma gate_behaviour_witness :
  exists cl st' cl', sw_claims sample_released !! 4 = Some cl
    /\ claim_iterate false false (sw_store sample_released) cl = Some (st', cl')
    /\ iterate_outcome (sw_store sample_released) cl st' cl'
    /\ cl_pc cl' = PCancel {[3]}.
Proof.
  destruct (sw_claims sample_released !! 4) as [cl|] eqn:Ec; [|vm_compute in Ec; discriminate].
  destruct (gate_behaviour 8 sample_released 4 cl false false) as (st' & cl' & Hit & Ho).
  - exact sample_released_reachable.
  - exact Ec.
  - vm_compute in Ec. injection Ec as <-. vm_compute. reflexivity.
  - exists cl, st', cl'. split; [done|]. split; [done|]. split; [done|].
    vm_compute in Ec. injection Ec as <-. vm_compute in Hit. injection Hit as _ <-. reflexivity.
Defined.

(** A sleeping claim: its channel is open, its context and the root are live. *)
Lemma sleeping_blocked w id cl changed :
  session_inv w -> sw_claims w !! id = Some cl -> cl_pc cl = PWait changed ->
  claim_enabled (sw_store w) cl = false ->
  exists s x, sessionLocked (sw_store w) (cl_client cl) (cl_epoch cl) = Ok s
    /\ cl_waiter cl = Some x /\ changed = ss_changed s /\ blocked (sw_store w) s (cl_gate cl) x
    /\ x ∈ waiters (cl_gate cl) s.
Proof.
  intros Hi Hid Hpc He.
  assert (in_loop cl = true) as Hin by (unfold in_loop; by rewrite Hpc).
  pose proof (wi_claims _ Hi id cl Hid Hin) as [_ _ _ _ Hw _].
  destruct (Hw changed Hpc) as (s & x & Hs & Hx & _ & Hb).
  unfold claim_enabled in He. rewrite Hpc, Hs in He.
  apply orb_false_iff in He as [He Hch]. apply orb_false_iff in He as [_ Hrd]. bprop.
  destruct Hb as (Hc & Hep & Hbl); [done|].
  exists s, x. split; [|split; [done|split; [done|split; [done|]]]].
  - unfold sessionLocked, closedLocked. rewrite Hc, Hrd, Hs. simpl.
    pose proof (so_epoch _ _ _ (wi_states _ Hi _ _ Hs)).
    rewrite (proj2 (Z.eqb_neq _ _)) by lia. by rewrite (proj2 (Z.eqb_eq _ _)) by lia.
  - apply (so_waiters _ _ _ (wi_states _ Hi _ _ Hs)). by exists id, cl.
Qed.

(** No wake-up is lost: a call that sleeps with an open channel, a live
    context and a live root could not have proceeded; running its loop body
    again changes nothing and puts it back to sleep on the same channel. *)
Theorem no_lost_wakeup maximum w id cl changed :
  session_reachable maximum w -> sw_claims w !! id = Some cl -> cl_pc cl = PWait changed ->
  claim_enabled (sw_store w) cl = false ->
  claim_iterate false false (sw_store w) cl = Some (sw_store w, cl).
Proof.
  intros Hr Hid Hpc He. pose proof (session_reachable_inv _ _ Hr) as Hi.
  destruct (sleeping_blocked w id cl changed Hi Hid Hpc He) as (s & x & Hs & Hx & -> & Hb & Hin).
  pose proof (sessionLocked_Ok _ _ _ _ Hs) as (Hc & Hrd & Hl & Hep & _).
  assert (claim_at cl (Some x) (PWait (ss_changed s)) = cl) as Hcl.
  { destruct cl; simpl in *. subst. done. }
  unfold claim_iterate. destruct (cl_gate cl) eqn:Hg.
  - unfold mutation_iteration. rewrite Hs, Hx. unfold tryAcquireMutationLocked, mutation_turn.
    rewrite insert_id' by done. simpl in Hb, Hin.
    destruct (bool_decide (ss_reconnectWaiters s = [])) eqn:Er; bprop; simpl; [|by rewrite Hcl].
    destruct (bool_decide (ss_active s = None)) eqn:Ea; bprop; simpl; [|by rewrite Hcl].
    destruct (ss_mutationWaiters s) as [|h rest]; [by apply elem_of_nil in Hin|].
    destruct Hb as [?|[?|Hb]]; [done|done|]. simpl in Hb.
    rewrite (proj2 (Z.eqb_neq _ _)) by congruence. simpl. by rewrite Hcl.
  - rewrite Hx. unfold reconnectStepLocked, closedLocked. rewrite Hc, Hrd, Hl. simpl.
    rewrite (proj2 (Z.eqb_eq _ _)) by done. simpl. simpl in Hb, Hin.
    destruct (ss_reconnectWaiters s) as [|h rest]; [by apply elem_of_nil in Hin|]. simpl in Hb.
    destruct (h =? x) eqn:Eh; bprop; simpl; [|by rewrite Hcl].
    destruct (bool_decide (ss_active s = None)) eqn:Ea; bprop; simpl; [|by rewrite Hcl].
    destruct Hb as [Hb|[?|[Hf Hst]]]; [congruence|done|].
    rewrite (bool_decide_eq_false_2 (x ∉ _)) by naive_solver. simpl.
    rewrite bool_decide_eq_false_2 by done. simpl. by rewrite Hcl.
  - unfold stream_iteration. rewrite Hs, Hx. simpl in Hb. rewrite bool_decide_eq_false_2 by done.
    simpl. by rewrite Hcl.
Qed.

Lemma no_lost_wakeup_witness :
  exists cl changed, sw_claims sample_sessions !! 4 = Some cl /\ cl_pc cl = PWait changed
    /\ claim_iterate false false (sw_store sample_sessions) cl = Some (sw_store sample_sessions, cl).
Proof.
  destruct (sw_claims sample_sessions !! 4) as [cl|] eqn:Ec; [|vm_compute in Ec; discriminate].
  destruct (cl_pc cl) as [|changed| | |] eqn:Ep;
    try (vm_compute in Ec; injection Ec as <-; vm_compute in Ep; discriminate).
  exists cl, changed. split; [done|]. split; [done|].
  apply (no_lost_wakeup 8 sample_sessions 4 cl changed sample_sessions_reachable Ec Ep).
  vm_compute in Ec. injection Ec as <-. vm_compute. reflexivity.
Defined.

(** An orderly shutdown is exact: [Shutdown] can report completion
    precisely when the store is closed, every commit and stream lease ever
    granted has been released and no call waits in a queue. *)
Theorem shutdown_joins maximum w :
  session_reachable maximum w ->
  None ∈ Shutdown_returns CtxLive (sw_store w) <->
  st_closed (sw_store w) = true
  /\ (forall l ls, sw_leases w !! l = Some ls -> ls_phase ls = LClosed)
  /\ (forall id cl, sw_claims w !! id = Some cl -> in_loop cl = true -> cl_waiter cl = None).
Proof.
  intros Hr. pose proof (session_reachable_inv _ _ Hr) as Hi. unfold Shutdown_returns.
  assert (None ∈ (if st_drained (sw_store w) then [None] else []) ++ ([] : list (option SessionError))
          <-> st_drained (sw_store w) = true) as ->.
  { rewrite app_nil_r. destruct (st_drained _); [set_solver|split; [by intros ?%elem_of_nil|done]]. }
  rewrite (wi_drained _ Hi), andb_true_iff, all_idle_spec. split.
  - intros [Hc Hidle]. split; [done|]. split.
    + intros l ls Hl. destruct (decide (ls_phase ls = LClosed)) as [|Hp]; [done|]. exfalso.
      destruct (wi_lease_epoch _ Hi l ls Hl Hp) as (s & Hs & _).
      pose proof (Hidle _ _ Hs) as Hid. apply idle_spec in Hid as (Ha & _ & _ & _ & Hst).
      destruct (wi_states _ Hi _ _ Hs) as [_ _ _ A1 A2 _ _ _].
      assert (lease_held w (ls_stream ls) (ls_client ls) l) as Hh by (by exists ls).
      destruct (ls_stream ls); [apply A2 in Hh; rewrite Hst in Hh; by apply not_elem_of_empty in Hh|].
      apply A1 in Hh. congruence.
    + intros id cl Hid Hin. destruct (cl_waiter cl) as [x|] eqn:Ex; [|done]. exfalso.
      destruct (co_state _ _ (wi_claims _ Hi id cl Hid Hin)) as [s Hs]; [by rewrite Ex|].
      pose proof (idle_waiters (cl_gate cl) s (Hidle _ _ Hs)) as Hw.
      assert (x ∈ waiters (cl_gate cl) s) as Hx.
      { apply (so_waiters _ _ _ (wi_states _ Hi _ _ Hs)). by exists id, cl. }
      rewrite Hw in Hx. by apply elem_of_nil in Hx.
  - intros (Hc & Hl & Hq). split; [done|]. intros c s Hs.
    destruct (wi_states _ Hi _ _ Hs) as [_ _ _ A1 A2 _ A3 _].
    assert (forall g, waiters g s = []) as Hw.
    { intros g. destruct (waiters g s) as [|x rest] eqn:Ew; [done|]. exfalso.
      assert (x ∈ waiters g s) as Hx by (rewrite Ew; set_solver).
      apply A3 in Hx as (id & cl & Hid & Hin & _ & _ & Hx). rewrite (Hq id cl Hid Hin) in Hx. done. }
    apply idle_spec. split; [|split; [apply (Hw GMutation)|split; [apply (Hw GReconnect)|split; [apply (Hw GStream)|]]]].
    + destruct (ss_active s) as [l|] eqn:Ea; [|done]. exfalso.
      destruct (proj1 (A1 l) eq_refl) as (ls & Hls & _ & _ & Hp). by rewrite (Hl l ls Hls) in Hp.
    + apply set_eq. intros l. split; [|by intros ?%not_elem_of_empty].
      intros Hin. apply A2 in Hin as (ls & Hls & _ & _ & Hp). by rewrite (Hl l ls Hls) in Hp.
Qed.

Lemma shutdown_joins_witness :
  let w := mkSWorld (fst (Close_store sample_store)) ∅ ∅ (snd (Close_store sample_store) ∪ ∅) [] in
  None ∈ Shutdown_returns CtxLive (sw_store w).
Proof.
  intros w. apply (shutdown_joins 8 w).
  - eapply session_reachable_step; [exact sample_store_reachable|].
    apply (sstep_close (mkSWorld sample_store ∅ ∅ ∅ [])). reflexivity.
  - split; [reflexivity|]. split; intros *; simpl; by rewrite lookup_empty.
Defined.

(** A reconnect only waits for streams it has told to stop: while a
    fencing reconnect sleeps, the context of every stream lease still
    registered for its client has been cancelled. *)
Theorem reconnect_cancels_streams maximum w id cl x s :
  session_reachable maximum w -> sw_claims w !! id = Some cl -> cl_gate cl = GReconnect ->
  cl_waiter cl = Some x -> x ∈ st_fencing (sw_store w) ->
  (cl_pc cl = PReady \/ exists changed, cl_pc cl = PWait changed) ->
  st_sessions (sw_store w) !! cl_client cl = Some s ->
  ss_streams s ⊆ st_cancelled (sw_store w).
Proof.
  intros Hr Hid Hg Hx Hf Hpc Hs. pose proof (session_reachable_inv _ _ Hr) as Hi.
  assert (in_loop cl = true) as Hin by (unfold in_loop; by destruct Hpc as [->|[? ->]]).
  pose proof (co_fence _ _ (wi_claims _ Hi id cl Hid Hin) s x Hg Hs Hx) as Hok.
  unfold fence_ok in Hok. by destruct Hpc as [Hp|[? Hp]]; rewrite Hp in Hok; apply Hok.
Qed.

(** The reconnect has fenced the open stream and sleeps until it is released. *)
Definition sample_fenced : SessionWorld :=
  let w := world_iterate 4 sample_released in
  match sw_claims w !! 4 with
  | Some cl => world_iterate 4 (mkSWorld (cancel_contexts (sw_store w) {[3]})
      (<[4 := claim_at cl (cl_waiter cl) PReady]> (sw_claims w)) (sw_leases w) (sw_cancels w)
      (sw_issued w))
  | None => w
  end.

Lemma sample_fenced_reachable : session_reachable 8 sample_fenced.
Proof.
  unfold sample_fenced. cbv zeta. set (w := world_iterate 4 sample_released).
  assert (session_reachable 8 w) as Hr by apply reachable_iterate, sample_released_reachable.
  destruct (sw_claims w !! 4) as [cl|] eqn:Ec; [|done].
  apply reachable_iterate. eapply session_reachable_step; [exact Hr|].
  apply (sstep_cancel w 4 cl {[3]} Ec). vm_compute in Ec. injection Ec as <-. reflexivity.
Qed.

Lemma reconnect_cancels_streams_witness :
  exists cl s, sw_claims sample_fenced !! 4 = Some cl
    /\ st_sessions (sw_store sample_fenced) !! cl_client cl = Some s
    /\ ss_streams s ⊆ st_cancelled (sw_store sample_fenced) /\ ss_streams s <> ∅.
Proof.
  destruct (sw_claims sample_fenced !! 4) as [cl|] eqn:Ec; [|vm_compute in Ec; discriminate].
  destruct (st_sessions (sw_store sample_fenced) !! cl_client cl) as [s|] eqn:Es;
    [|vm_compute in Ec; injection Ec as <-; vm_compute in Es; discriminate].
  exists cl, s. split; [done|]. split; [done|]. split.
  - apply (reconnect_cancels_streams 8 sample_fenced 4 cl 5 s sample_fenced_reachable Ec);
      [vm_compute in Ec; injection Ec as <-; reflexivity..| | |exact Es].
    + vm_compute. reflexivity.
    + right. vm_compute in Ec. injection Ec as <-. eexists. reflexivity.
  - vm_compute in Ec. injection Ec as <-. vm_compute in Es. injection Es as <-. vm_compute. discriminate.
Defined.
