(* ===== verification/Idempotency.v ===== *)
(** The idempotency ledger (src/daemon/idempotency.go).

    [operationEntry] values are shared by pointer between the ledger, the
    owner of an operation and its duplicates, so they live in a heap
    [lg_heap]; [lg_entries] maps an operation key to the address of its entry.
    A call of [Do] is a small state machine: the locked round of its loop, the
    wait of [awaitExisting], the executor, and the locked section that commits
    or abandons.  The executor is an input of the model: what it returns is
    chosen by the step. *)
From Stdlib Require Import ZArith Lia.
From stdpp Require Import base gmap sets list strings.
From S2P Require Import Prelude GoText Session.
Open Scope Z_scope.

(** ** Outcomes *)

Definition OutcomeKind := string.
Definition OutcomeSuccess : OutcomeKind := "success".
Definition OutcomeFailure : OutcomeKind := "failure".
Definition OutcomeUncertain : OutcomeKind := "uncertain".

Definition maximumOutcomeBytes : Z := 1048576.
Definition maximumLedgerDimension : Z := 1048576.

Record Outcome := mkOutcome { oc_kind : OutcomeKind; oc_payload : string }.

Inductive DoError :=
| ErrOutcomeKind
| ErrOutcomeBytes
| ErrLedgerBounds
| ErrLedgerTotal
| ErrDoArguments
| ErrDoToken (label : string)
| ErrConflict
| ErrDoContext
| ErrLedgerCapacity
| ErrOperationExecutor
| ErrOperationAbandoned (cause : Z).

Definition NewOutcome (kind : OutcomeKind) (payload : string) : result DoError Outcome :=
  if negb (String.eqb kind OutcomeSuccess) && negb (String.eqb kind OutcomeFailure)
     && negb (String.eqb kind OutcomeUncertain) then Err ErrOutcomeKind
  else if slen payload >? maximumOutcomeBytes then Err ErrOutcomeBytes
  else Ok (mkOutcome kind payload).

(** What an executor's error is: the exact abandonment proof, with its cause
    or with none, or anything else (a wrapped abandonment included). *)
Inductive ExecutorError :=
| abandonedOperationError (cause : option Z)
| OtherError.

Inductive exec_result :=
| ExecReturns (outcome : Outcome) (err : option ExecutorError)
| ExecPanics.

(** [AbandonOperation]: a nil cause yields an ordinary error. *)
Definition AbandonOperation (cause : option Z) : ExecutorError :=
  match cause with
  | None => OtherError
  | Some _ => abandonedOperationError cause
  end.

(** The cause of a valid abandonment. *)
Definition validAbandonment (err : option ExecutorError) : option Z :=
  match err with
  | Some (abandonedOperationError (Some cause)) => Some cause
  | _ => None
  end.

Definition isZeroOutcome (outcome : Outcome) : bool :=
  String.eqb (oc_kind outcome) "" && (slen (oc_payload outcome) =? 0).

Definition uncertainExecutorOutcome : Outcome :=
  mkOutcome OutcomeUncertain "operation outcome uncertain".

(** ** The ledger *)

Record operationEntry := mkOpEntry {
  oe_kind : string;
  oe_digest : string;
  oe_done : bool;
  oe_outcome : Outcome;
  oe_err : option DoError;
  oe_abandoned : bool
}.

Abbreviation operationKey := (string * string)%type.

Record Ledger := mkLedger {
  lg_maximumClients : Z;
  lg_maximumPerClient : Z;
  lg_entries : gmap operationKey Z;
  lg_clientCounts : gmap string Z;
  lg_heap : gmap Z operationEntry;
  lg_next : Z
}.

Definition NewLedger (maximumClients maximumPerClient : Z) : result DoError Ledger :=
  if (maximumClients <? 1) || (maximumClients >? maximumLedgerDimension)
     || (maximumPerClient <? 1) || (maximumPerClient >? maximumLedgerDimension)
  then Err ErrLedgerBounds
  else if maximumClients >? Z.quot maximumLedgerDimension maximumPerClient then Err ErrLedgerTotal
  else Ok (mkLedger maximumClients maximumPerClient ∅ ∅ ∅ 1).

Definition Do_guard (ctx : ctx_arg) (clientID operationID kind : string) : option DoError :=
  match ctx with
  | CtxNil => Some ErrDoArguments
  | _ =>
      if negb (boundedToken clientID) then Some (ErrDoToken "client ID")
      else if negb (boundedToken operationID) then Some (ErrDoToken "operation ID")
      else if negb (boundedToken kind) then Some (ErrDoToken "operation kind")
      else None
  end.

(** The locked round of the loop of [Do]. *)
Inductive round :=
| RConflict
| RAwait (entry : Z)
| RContext
| RCapacity
| ROwner (entry : Z).

Definition do_round (ctxDone : bool) (lg : Ledger) (key : operationKey) (kind digest : string)
  : option (Ledger * round) :=
  match lg_entries lg !! key with
  | Some e =>
      match lg_heap lg !! e with
      | None => None
      | Some existing =>
          if negb (String.eqb (oe_kind existing) kind) || negb (String.eqb (oe_digest existing) digest)
          then Some (lg, RConflict)
          else Some (lg, RAwait e)
      end
  | None =>
      if ctxDone then Some (lg, RContext)
      else
        let clientID := fst key in
        let count := default 0 (lg_clientCounts lg !! clientID) in
        if (bool_decide (lg_clientCounts lg !! clientID = None)
            && (Z.of_nat (size (lg_clientCounts lg)) >=? lg_maximumClients lg))
           || (count >=? lg_maximumPerClient lg)
        then Some (lg, RCapacity)
        else
          let e := lg_next lg in
          Some (mkLedger (lg_maximumClients lg) (lg_maximumPerClient lg)
                  (<[key := e]> (lg_entries lg)) (<[clientID := count + 1]> (lg_clientCounts lg))
                  (<[e := mkOpEntry kind digest false (mkOutcome "" "") None false]> (lg_heap lg))
                  (e + 1), ROwner e)
  end.

(** [completedExisting]: a retry, or the committed result. *)
Inductive awaited := AwRetry | AwContext | AwResult (outcome : Outcome) (err : option DoError).

Definition completedExisting (ctxDone : bool) (existing : operationEntry) : awaited :=
  if oe_abandoned existing then (if ctxDone then AwContext else AwRetry)
  else AwResult (oe_outcome existing) (oe_err existing).

(** [awaitExisting]: [None] while it blocks; a completed entry wins over a
    cancelled context. *)
Definition awaitExisting (ctxDone : bool) (existing : operationEntry) : option awaited :=
  if oe_done existing then Some (completedExisting ctxDone existing)
  else if ctxDone then Some AwContext
  else None.

(** What [Do] makes of the executor's result: [inl cause] abandons. *)
Definition executor_verdict (r : exec_result) : Z + (Outcome * option DoError) :=
  match r with
  | ExecPanics => inr (uncertainExecutorOutcome, Some ErrOperationExecutor)
  | ExecReturns outcome err =>
      match isZeroOutcome outcome, validAbandonment err with
      | true, Some cause => inl cause
      | _, _ =>
          match err with
          | Some _ => inr (uncertainExecutorOutcome, Some ErrOperationExecutor)
          | None =>
              match NewOutcome (oc_kind outcome) (oc_payload outcome) with
              | Err _ => inr (uncertainExecutorOutcome, Some ErrOperationExecutor)
              | Ok _ => inr (outcome, None)
              end
          end
      end
  end.

Definition with_heap (lg : Ledger) (e : Z) (entry : operationEntry) : Ledger :=
  mkLedger (lg_maximumClients lg) (lg_maximumPerClient lg) (lg_entries lg) (lg_clientCounts lg)
    (<[e := entry]> (lg_heap lg)) (lg_next lg).

Definition Ledger_commit (lg : Ledger) (e : Z) (outcome : Outcome) (err : option DoError)
  : option Ledger :=
  match lg_heap lg !! e with
  | None => None
  | Some entry =>
      Some (with_heap lg e (mkOpEntry (oe_kind entry) (oe_digest entry) true outcome err
              (oe_abandoned entry)))
  end.

Definition Ledger_abandon (lg : Ledger) (key : operationKey) (e : Z) : option Ledger :=
  match lg_heap lg !! e with
  | None => None
  | Some entry =>
      let lg' :=
        if bool_decide (lg_entries lg !! key = Some e) then
          let clientID := fst key in
          let remaining := default 0 (lg_clientCounts lg !! clientID) - 1 in
          mkLedger (lg_maximumClients lg) (lg_maximumPerClient lg) (delete key (lg_entries lg))
            (if remaining =? 0 then delete clientID (lg_clientCounts lg)
             else <[clientID := remaining]> (lg_clientCounts lg))
            (lg_heap lg) (lg_next lg)
        else lg in
      Some (with_heap lg' e (mkOpEntry (oe_kind entry) (oe_digest entry) true (oe_outcome entry)
              (oe_err entry) true))
  end.

(** ** Calls of [Do] in progress *)

Inductive do_result :=
| DoFailed (err : DoError)
| DoAbandoned (cause : Z)
| DoCommitted (duplicate : bool) (outcome : Outcome) (err : option DoError).

Inductive do_pc :=
| DoLoop
| DoAwait (entry : Z)
| DoExecute (entry : Z)
| DoReturn (r : do_result).

Record call := mkCall {
  ca_key : operationKey;
  ca_kind : string;
  ca_digest : string;
  ca_ctxDone : bool;
  ca_pc : do_pc
}.

Definition call_at (ca : call) (pc : do_pc) : call :=
  mkCall (ca_key ca) (ca_kind ca) (ca_digest ca) (ca_ctxDone ca) pc.

Definition Do_begin (ctx : ctx_arg) (clientID operationID kind digest : string) : call :=
  mkCall (clientID, operationID) kind digest (match ctx with CtxDone => true | _ => false end)
    (match Do_guard ctx clientID operationID kind with
     | Some e => DoReturn (DoFailed e)
     | None => DoLoop
     end).

(** [lw_started] records every executor started, with the key and the entry it
    runs for. *)
Record LedgerWorld := mkLWorld {
  lw_ledger : Ledger;
  lw_calls : gmap Z call;
  lw_started : list (operationKey * Z)
}.

Definition round_pc (r : round) : do_pc :=
  match r with
  | RConflict => DoReturn (DoFailed ErrConflict)
  | RAwait e => DoAwait e
  | RContext => DoReturn (DoFailed ErrDoContext)
  | RCapacity => DoReturn (DoFailed ErrLedgerCapacity)
  | ROwner e => DoExecute e
  end.

Definition awaited_pc (a : awaited) : do_pc :=
  match a with
  | AwRetry => DoLoop
  | AwContext => DoReturn (DoFailed ErrDoContext)
  | AwResult outcome err => DoReturn (DoCommitted true outcome err)
  end.

Definition started_by (key : operationKey) (r : round) (started : list (operationKey * Z)) :=
  match r with ROwner e => started ++ [(key, e)] | _ => started end.

(** The locked section after the executor. *)
Definition Do_finish (lg : Ledger) (ca : call) (e : Z) (r : exec_result) : option (Ledger * do_pc) :=
  match executor_verdict r with
  | inl cause =>
      match Ledger_abandon lg (ca_key ca) e with
      | Some lg' => Some (lg', DoReturn (DoAbandoned cause))
      | None => None
      end
  | inr (outcome, err) =>
      match Ledger_commit lg e outcome err with
      | Some lg' => Some (lg', DoReturn (DoCommitted false outcome err))
      | None => None
      end
  end.

Inductive ledger_step : LedgerWorld -> LedgerWorld -> Prop :=
| lstep_begin w id ctx clientID operationID kind digest :
    lw_calls w !! id = None ->
    ledger_step w (mkLWorld (lw_ledger w)
      (<[id := Do_begin ctx clientID operationID kind digest]> (lw_calls w)) (lw_started w))
| lstep_round w id ca lg' r :
    lw_calls w !! id = Some ca -> ca_pc ca = DoLoop ->
    do_round (ca_ctxDone ca) (lw_ledger w) (ca_key ca) (ca_kind ca) (ca_digest ca) = Some (lg', r) ->
    ledger_step w (mkLWorld lg' (<[id := call_at ca (round_pc r)]> (lw_calls w))
      (started_by (ca_key ca) r (lw_started w)))
| lstep_await w id ca e entry a :
    lw_calls w !! id = Some ca -> ca_pc ca = DoAwait e -> lg_heap (lw_ledger w) !! e = Some entry ->
    awaitExisting (ca_ctxDone ca) entry = Some a ->
    ledger_step w (mkLWorld (lw_ledger w) (<[id := call_at ca (awaited_pc a)]> (lw_calls w))
      (lw_started w))
| lstep_execute w id ca e r lg' pc :
    lw_calls w !! id = Some ca -> ca_pc ca = DoExecute e ->
    Do_finish (lw_ledger w) ca e r = Some (lg', pc) ->
    ledger_step w (mkLWorld lg' (<[id := call_at ca pc]> (lw_calls w)) (lw_started w))
| lstep_ctx_done w id ca :
    lw_calls w !! id = Some ca ->
    ledger_step w (mkLWorld (lw_ledger w)
      (<[id := mkCall (ca_key ca) (ca_kind ca) (ca_digest ca) true (ca_pc ca)]> (lw_calls w))
      (lw_started w)).

Definition ledger_reachable (maximumClients maximumPerClient : Z) (w : LedgerWorld) : Prop :=
  exists lg, NewLedger maximumClients maximumPerClient = Ok lg
             /\ rtc ledger_step (mkLWorld lg ∅ []) w.

(** ** The invariant *)

(** How many operations a client has in the ledger. *)
Definition client_operations (lg : Ledger) (c : string) : Z :=
  Z.of_nat (size (filter (fun kv => fst (fst kv) = c) (lg_entries lg))).

(** [e] is the entry that was started for the call's key, with its input. *)
Definition call_entry (w : LedgerWorld) (ca : call) (e : Z) (entry : operationEntry) : Prop :=
  (ca_key ca, e) ∈ lw_started w /\ lg_heap (lw_ledger w) !! e = Some entry
  /\ oe_kind entry = ca_kind ca /\ oe_digest entry = ca_digest ca.

Definition call_ok (w : LedgerWorld) (ca : call) : Prop :=
  match ca_pc ca with
  | DoLoop => True
  | DoAwait e => exists entry, call_entry w ca e entry
  | DoExecute e => exists entry, call_entry w ca e entry /\ oe_done entry = false
                                 /\ lg_entries (lw_ledger w) !! ca_key ca = Some e
  | DoReturn (DoCommitted _ outcome err) =>
      exists e entry, call_entry w ca e entry /\ oe_done entry = true /\ oe_abandoned entry = false
        /\ oe_outcome entry = outcome /\ oe_err entry = err
  | DoReturn _ => True
  end.

Record ledger_inv (maximumClients maximumPerClient : Z) (w : LedgerWorld) : Prop := {
  le_bounds : lg_maximumClients (lw_ledger w) = maximumClients
    /\ lg_maximumPerClient (lw_ledger w) = maximumPerClient;
  le_ids : forall e, is_Some (lg_heap (lw_ledger w) !! e) -> e < lg_next (lw_ledger w);
  le_started : forall key e, (key, e) ∈ lw_started w ->
    exists entry, lg_heap (lw_ledger w) !! e = Some entry
      /\ (oe_abandoned entry = true \/ lg_entries (lw_ledger w) !! key = Some e);
  le_entries : forall key e, lg_entries (lw_ledger w) !! key = Some e ->
    (key, e) ∈ lw_started w /\ exists entry, lg_heap (lw_ledger w) !! e = Some entry
                                             /\ oe_abandoned entry = false;
  le_unique : NoDup (map snd (lw_started w));
  le_abandoned : forall e entry, lg_heap (lw_ledger w) !! e = Some entry ->
    oe_abandoned entry = true -> oe_done entry = true;
  le_owner : forall e entry, lg_heap (lw_ledger w) !! e = Some entry -> oe_done entry = false ->
    exists id ca, lw_calls w !! id = Some ca /\ ca_pc ca = DoExecute e;
  le_owner_unique : forall id1 id2 ca1 ca2 e, lw_calls w !! id1 = Some ca1 ->
    lw_calls w !! id2 = Some ca2 -> ca_pc ca1 = DoExecute e -> ca_pc ca2 = DoExecute e -> id1 = id2;
  le_calls : forall id ca, lw_calls w !! id = Some ca -> call_ok w ca;
  le_counts : forall c, default 0 (lg_clientCounts (lw_ledger w) !! c) = client_operations (lw_ledger w) c;
  le_positive : forall c n, lg_clientCounts (lw_ledger w) !! c = Some n -> 1 <= n <= maximumPerClient;
  le_clients : Z.of_nat (size (lg_clientCounts (lw_ledger w))) <= maximumClients
}.

(** ** Counting *)

Lemma operations_insert lg key e c :
  lg_entries lg !! key = None ->
  Z.of_nat (size (filter (fun kv => fst (fst kv) = c) (<[key := e]> (lg_entries lg))))
  = client_operations lg c + (if decide (fst key = c) then 1 else 0).
Proof.
  intros Hk. unfold client_operations. destruct (decide (fst key = c)) as [Hc|Hc].
  - rewrite map_filter_insert_True by done. rewrite map_size_insert_None; [lia|].
    rewrite map_lookup_filter, Hk. done.
  - rewrite map_filter_insert_False by done. rewrite delete_id by done. lia.
Qed.

Lemma operations_delete lg key e c :
  lg_entries lg !! key = Some e ->
  Z.of_nat (size (filter (fun kv => fst (fst kv) = c) (delete key (lg_entries lg))))
  = client_operations lg c - (if decide (fst key = c) then 1 else 0).
Proof.
  intros Hk. unfold client_operations. rewrite map_filter_delete.
  destruct (decide (fst key = c)) as [Hc|Hc].
  - assert (filter (fun kv => fst (fst kv) = c) (lg_entries lg) !! key = Some e) as Hf
      by (by apply map_lookup_filter_Some).
    rewrite map_size_delete_Some by eauto.
    assert (size (filter (fun kv => fst (fst kv) = c) (lg_entries lg)) <> 0%nat).
    { intros H0. apply map_size_empty_inv in H0. by rewrite H0, lookup_empty in Hf. }
    lia.
  - rewrite delete_id; [lia|]. apply map_lookup_filter_None. right. intros x Hx. done.
Qed.

(** ** Steps that leave the ledger as it is *)

Lemma call_ok_same w w' ca :
  lw_ledger w' = lw_ledger w -> lw_started w' = lw_started w -> call_ok w ca -> call_ok w' ca.
Proof. intros H1 H2. unfold call_ok, call_entry. by rewrite H1, H2. Qed.

Lemma call_move_inv mc mp w id ca :
  ledger_inv mc mp w -> call_ok w ca ->
  (forall e, ca_pc ca <> DoExecute e) ->
  (forall ca0 e, lw_calls w !! id = Some ca0 -> ca_pc ca0 <> DoExecute e) ->
  ledger_inv mc mp (mkLWorld (lw_ledger w) (<[id := ca]> (lw_calls w)) (lw_started w)).
Proof.
  intros [H1 H2 H3 H4 H5 H6 H7 H8 H9 H10 H11 H12] Hok Hpc Hpc0. split; simpl; auto.
  - intros e entry He Hd. destruct (H7 e entry He Hd) as (i & ca1 & Hi & Hp).
    exists i, ca1. split; [|done]. rewrite lookup_insert_ne; [done|]. intros <-. by apply (Hpc0 ca1 e) in Hi.
  - intros i1 i2 c1 c2 e L1 L2 P1 P2.
    apply lookup_insert_Some in L1 as [[<- <-]|[_ L1]]; [by apply Hpc in P1|].
    apply lookup_insert_Some in L2 as [[<- <-]|[_ L2]]; [by apply Hpc in P2|]. eauto.
  - intros i ca1 L. apply (call_ok_same w); auto.
    apply lookup_insert_Some in L as [[<- <-]|[_ L]]; eauto.
Qed.

Lemma begin_call_inv mc mp w id ctx clientID operationID kind digest :
  ledger_inv mc mp w -> lw_calls w !! id = None ->
  ledger_inv mc mp (mkLWorld (lw_ledger w)
    (<[id := Do_begin ctx clientID operationID kind digest]> (lw_calls w)) (lw_started w)).
Proof.
  intros Hi Hid. apply call_move_inv; auto; try congruence.
  - unfold call_ok, Do_begin; simpl. by destruct (Do_guard _ _ _ _).
  - intros e. unfold Do_begin; simpl. by destruct (Do_guard _ _ _ _).
Qed.

Lemma await_inv mc mp w id ca e entry a :
  ledger_inv mc mp w -> lw_calls w !! id = Some ca -> ca_pc ca = DoAwait e ->
  lg_heap (lw_ledger w) !! e = Some entry -> awaitExisting (ca_ctxDone ca) entry = Some a ->
  ledger_inv mc mp (mkLWorld (lw_ledger w) (<[id := call_at ca (awaited_pc a)]> (lw_calls w))
    (lw_started w)).
Proof.
  intros Hi Hid Hpc He Ha. pose proof (le_calls _ _ _ Hi id ca Hid) as Hok.
  unfold call_ok in Hok. rewrite Hpc in Hok. destruct Hok as (entry' & Hce).
  pose proof Hce as (_ & He' & _). rewrite He in He'. injection He' as <-.
  apply call_move_inv; auto; [| |congruence].
  - unfold awaitExisting, completedExisting in Ha. unfold call_ok, call_entry in *; simpl.
    destruct (oe_done entry) eqn:Ed; [|destruct (ca_ctxDone ca); [injection Ha as <-; done|done]].
    destruct (oe_abandoned entry) eqn:Eb; [destruct (ca_ctxDone ca); injection Ha as <-; done|].
    injection Ha as <-. simpl. exists e, entry. auto.
  - intros e'. by destruct a.
Qed.

Lemma ctx_call_inv mc mp w id ca :
  ledger_inv mc mp w -> lw_calls w !! id = Some ca ->
  ledger_inv mc mp (mkLWorld (lw_ledger w)
    (<[id := mkCall (ca_key ca) (ca_kind ca) (ca_digest ca) true (ca_pc ca)]> (lw_calls w))
    (lw_started w)).
Proof.
  intros Hi Hid. pose proof (le_calls _ _ _ Hi id ca Hid) as Hok.
  destruct Hi as [H1 H2 H3 H4 H5 H6 H7 H8 H9 H10 H11 H12]. split; simpl; auto.
  - intros e entry He Hd. destruct (H7 e entry He Hd) as (i & ca1 & Hi & Hp).
    destruct (decide (i = id)) as [->|Hne].
    + eexists id, _. rewrite lookup_insert_eq. split; [done|]. simpl. congruence.
    + exists i, ca1. by rewrite lookup_insert_ne.
  - intros i1 i2 c1 c2 e L1 L2 P1 P2.
    apply lookup_insert_Some in L1 as [[<- <-]|[N1 L1]]; apply lookup_insert_Some in L2 as [[<- <-]|[N2 L2]];
      simpl in *; eauto.
  - intros i ca1 L. apply (call_ok_same w); auto.
    apply lookup_insert_Some in L as [[<- <-]|[_ L]]; eauto.
Qed.

(** ** Becoming the owner *)

Section owner.
  Context (mc mp : Z) (w : LedgerWorld) (id : Z) (ca : call).
  Hypothesis Hi : ledger_inv mc mp w.
  Hypothesis Hid : lw_calls w !! id = Some ca.
  Hypothesis Hpc : ca_pc ca = DoLoop.
Let lg := lw_ledger w.
Let key := ca_key ca.
Let c := fst key.
Let count := default 0 (lg_clientCounts lg !! c).
Let e := lg_next lg.
Let fresh := mkOpEntry (ca_kind ca) (ca_digest ca) false (mkOutcome "" "") None false.
  Hypothesis Hk : lg_entries lg !! key = None.
  Hypothesis Hcount : count < lg_maximumPerClient lg.
  Hypothesis Hclients : lg_clientCounts lg !! c = None ->
    Z.of_nat (size (lg_clientCounts lg)) < lg_maximumClients lg.
Let lg' := mkLedger (lg_maximumClients lg) (lg_maximumPerClient lg) (<[key := e]> (lg_entries lg))
    (<[c := count + 1]> (lg_clientCounts lg)) (<[e := fresh]> (lg_heap lg)) (e + 1).
Let w' := mkLWorld lg' (<[id := call_at ca (DoExecute e)]> (lw_calls w)) (lw_started w ++ [(key, e)]).

Lemma owner_heap_old e0 x :
  lg_heap lg !! e0 = Some x -> lg_heap lg' !! e0 = Some x.
Proof.
  intros Hx. pose proof (le_ids _ _ _ Hi e0 (ex_intro _ _ Hx)). simpl.
  rewrite lookup_insert_ne; [done|]. unfold e, lg. lia.
Qed.

Lemma owner_call_entry ca1 e0 x : call_entry w ca1 e0 x -> call_entry w' ca1 e0 x.
Proof.
  intros (Hin & Hx & Hr). split; [apply elem_of_app; by left|]. split; [|done].
  by apply owner_heap_old.
Qed.

Lemma owner_calls i ca1 : lw_calls w' !! i = Some ca1 -> call_ok w' ca1.
Proof.
  simpl. intros L. apply lookup_insert_Some in L as [[<- <-]|[_ L]].
  - exists fresh. unfold call_entry; simpl. rewrite !lookup_insert_eq.
    split; [|done]. split; [apply elem_of_app; right; by apply list_elem_of_singleton|done].
  - pose proof (le_calls _ _ _ Hi i ca1 L) as Hok.
    unfold call_ok in *. destruct (ca_pc ca1) as [|e0|e0|[| |dup o err]]; try done.
    + destruct Hok as (x & Hx). eauto using owner_call_entry.
    + destruct Hok as (x & Hx & Hd & Hl). exists x. split; [by apply owner_call_entry|]. split; [done|].
      simpl. rewrite lookup_insert_ne; [done|]. intros Heq. rewrite <- Heq in Hl. unfold lg in Hk. congruence.
    + destruct Hok as (e0 & x & Hx & Hr). eauto using owner_call_entry.
Qed.

Lemma owner_running i ca1 e0 :
  lw_calls w !! i = Some ca1 -> ca_pc ca1 = DoExecute e0 -> e0 <> e.
Proof.
  intros L P ->. pose proof (le_calls _ _ _ Hi i ca1 L) as Hok. unfold call_ok in Hok. rewrite P in Hok.
  destruct Hok as (x & (_ & Hx & _) & _). pose proof (le_ids _ _ _ Hi e (ex_intro _ _ Hx)).
  unfold e, lg in *. lia.
Qed.

Lemma owner_owners :
  (forall e0 x, lg_heap lg' !! e0 = Some x -> oe_done x = false ->
     exists i ca1, lw_calls w' !! i = Some ca1 /\ ca_pc ca1 = DoExecute e0)
  /\ (forall i1 i2 c1 c2 e0, lw_calls w' !! i1 = Some c1 -> lw_calls w' !! i2 = Some c2 ->
        ca_pc c1 = DoExecute e0 -> ca_pc c2 = DoExecute e0 -> i1 = i2).
Proof.
  split; simpl.
  - intros e0 x Hx Hd. apply lookup_insert_Some in Hx as [[<- <-]|[_ Hx]].
    + eexists id, _. by rewrite lookup_insert_eq.
    + destruct (le_owner _ _ _ Hi e0 x Hx Hd) as (i & ca1 & Hi1 & Hp). exists i, ca1. split; [|done].
      rewrite lookup_insert_ne; [done|]. intros <-. congruence.
  - intros i1 i2 c1 c2 e0 L1 L2 P1 P2.
    apply lookup_insert_Some in L1 as [[<- <-]|[N1 L1]]; apply lookup_insert_Some in L2 as [[<- <-]|[N2 L2]];
      simpl in *.
    + done.
    + injection P1 as <-. by apply (owner_running _ _ _ L2) in P2.
    + injection P2 as <-. by apply (owner_running _ _ _ L1) in P1.
    + by apply (le_owner_unique _ _ _ Hi _ _ _ _ _ L1 L2 P1 P2).
Qed.

Lemma owner_started :
  (forall k0 e0, (k0, e0) ∈ lw_started w' ->
     exists x, lg_heap lg' !! e0 = Some x /\ (oe_abandoned x = true \/ lg_entries lg' !! k0 = Some e0))
  /\ (forall k0 e0, lg_entries lg' !! k0 = Some e0 ->
        (k0, e0) ∈ lw_started w' /\ exists x, lg_heap lg' !! e0 = Some x /\ oe_abandoned x = false)
  /\ NoDup (map snd (lw_started w')).
Proof.
  split; [|split].
  - intros k0 e0 Hin. apply elem_of_app in Hin as [Hin|Hin].
    + destruct (le_started _ _ _ Hi k0 e0 Hin) as (x & Hx & Hor). exists x.
      split; [by apply owner_heap_old|]. destruct Hor as [?|Hor]; [auto|]. right. simpl.
      rewrite lookup_insert_ne; [done|]. intros Heq. rewrite <- Heq in Hor. unfold lg in Hk. congruence.
    + apply list_elem_of_singleton in Hin as [= -> ->]. exists fresh. simpl. rewrite !lookup_insert_eq. auto.
  - simpl. intros k0 e0 Hl. apply lookup_insert_Some in Hl as [[<- <-]|[Hnk Hl]].
    + split; [apply elem_of_app; right; by apply list_elem_of_singleton|].
      exists fresh. by rewrite lookup_insert_eq.
    + destruct (le_entries _ _ _ Hi k0 e0 Hl) as (Hin & x & Hx & Ha).
      split; [apply elem_of_app; by left|]. exists x. split; [by apply owner_heap_old|done].
  - simpl. rewrite map_app. simpl. apply NoDup_app. split; [apply Hi|]. split; [|apply NoDup_singleton].
    intros e0 Hin Heq. apply list_elem_of_singleton in Heq as ->.
    apply list_elem_of_fmap in Hin as ([k0 e0] & Hee & Hin). simpl in Hee.
    destruct (le_started _ _ _ Hi k0 e0 Hin) as (x & Hx & _).
    pose proof (le_ids _ _ _ Hi e0 (ex_intro _ _ Hx)). unfold e, lg in *. lia.
Qed.

Lemma owner_counts :
  (forall c0, default 0 (lg_clientCounts lg' !! c0) = client_operations lg' c0)
  /\ (forall c0 n, lg_clientCounts lg' !! c0 = Some n -> 1 <= n <= mp)
  /\ Z.of_nat (size (lg_clientCounts lg')) <= mc.
Proof.
  destruct (le_bounds _ _ _ Hi) as [Hmc Hmp]. simpl. split; [|split].
  - intros c0. unfold client_operations at 1; simpl. rewrite operations_insert by done.
    fold c. destruct (decide (c = c0)) as [<-|Hc].
    + rewrite lookup_insert_eq. simpl. unfold count, lg. by rewrite (le_counts _ _ _ Hi).
    + rewrite lookup_insert_ne by done. unfold lg. rewrite (le_counts _ _ _ Hi). lia.
  - intros c0 n Hl. apply lookup_insert_Some in Hl as [[<- <-]|[_ Hl]]; [|by apply (le_positive _ _ _ Hi c0)].
    pose proof (le_counts _ _ _ Hi c) as Hc. unfold client_operations in Hc.
    unfold count, lg in *. lia.
  - destruct (lg_clientCounts lg !! c) eqn:Ec.
    + rewrite map_size_insert_Some by eauto. apply (le_clients _ _ _ Hi).
    + rewrite map_size_insert_None by done. specialize (Hclients eq_refl). unfold lg in *. lia.
Qed.

Lemma owner_inv : ledger_inv mc mp w'.
Proof using Hi Hid Hpc Hk Hcount Hclients.
  destruct owner_owners as [O1 O2]. destruct owner_started as (S1 & S2 & S3).
  destruct owner_counts as (C1 & C2 & C3).
  split; [| |exact S1|exact S2|exact S3| |exact O1|exact O2|exact owner_calls|exact C1|exact C2|exact C3].
  - apply (le_bounds _ _ _ Hi).
  - simpl. intros e0 [x Hx]. apply lookup_insert_Some in Hx as [[<- _]|[_ Hx]]; [lia|].
    pose proof (le_ids _ _ _ Hi e0 (ex_intro _ _ Hx)). unfold e, lg. lia.
  - simpl. intros e0 x Hx. apply lookup_insert_Some in Hx as [[<- <-]|[_ Hx]]; [done|].
    by apply (le_abandoned _ _ _ Hi e0).
Qed.
End owner.

(** ** Committing and abandoning *)

Section finish.
  Context (mc mp : Z) (w : LedgerWorld) (id : Z) (ca : call) (e : Z) (entry entry' : operationEntry)
    (lg' : Ledger) (pc' : do_pc).
  Hypothesis Hi : ledger_inv mc mp w.
  Hypothesis Hid : lw_calls w !! id = Some ca.
  Hypothesis Hpc : ca_pc ca = DoExecute e.
  Hypothesis Hentry : lg_heap (lw_ledger w) !! e = Some entry.
  Hypothesis Hlive : lg_entries (lw_ledger w) !! ca_key ca = Some e.
  Hypothesis Hundone : oe_done entry = false.
  Hypothesis Hheap : lg_heap lg' = <[e := entry']> (lg_heap (lw_ledger w)).
  Hypothesis Hkind : oe_kind entry' = oe_kind entry.
  Hypothesis Hdigest : oe_digest entry' = oe_digest entry.
  Hypothesis Hdone : oe_done entry' = true.
  Hypothesis Helsewhere : forall k, k <> ca_key ca ->
    lg_entries lg' !! k = lg_entries (lw_ledger w) !! k.
  Hypothesis Hkey : lg_entries lg' !! ca_key ca = if oe_abandoned entry' then None else Some e.
  Hypothesis Hpc' : forall e0, pc' <> DoExecute e0.
Let w' := mkLWorld lg' (<[id := call_at ca pc']> (lw_calls w)) (lw_started w).

Lemma finish_call_entry ca1 e0 x :
  call_entry w ca1 e0 x -> exists x', call_entry w' ca1 e0 x' /\ (e0 <> e -> x' = x).
Proof.
  intros (Hin & Hx & Hk1 & Hd1). destruct (decide (e0 = e)) as [->|Hne].
  - exists entry'. split; [|done]. split; [done|]. simpl. rewrite Hheap, lookup_insert_eq.
    rewrite Hentry in Hx. injection Hx as <-. split; [done|]. split; congruence.
  - exists x. split; [|done]. split; [done|]. simpl. by rewrite Hheap, lookup_insert_ne.
Qed.

Lemma finish_calls i ca1 :
  call_ok w' (call_at ca pc') -> lw_calls w' !! i = Some ca1 -> call_ok w' ca1.
Proof.
  simpl. intros Hown L. apply lookup_insert_Some in L as [[<- <-]|[Hne L]]; [done|].
  pose proof (le_calls _ _ _ Hi i ca1 L) as Hok. unfold call_ok in *.
  destruct (ca_pc ca1) as [|e0|e0|[| |dup o err]] eqn:Ep; try done.
  - destruct Hok as (x & Hx). destruct (finish_call_entry _ _ _ Hx) as (x' & Hx' & _). eauto.
  - destruct Hok as (x & Hx & Hd & Hl).
    assert (e0 <> e) as Hne0.
    { intros ->. by pose proof (le_owner_unique _ _ _ Hi _ _ _ _ _ Hid L Hpc Ep). }
    destruct (finish_call_entry _ _ _ Hx) as (x' & Hx' & Heq). rewrite (Heq Hne0) in Hx'.
    exists x. split; [done|]. split; [done|]. simpl. rewrite Helsewhere; [done|].
    intros Hk. rewrite Hk, Hlive in Hl. congruence.
  - destruct Hok as (e0 & x & Hx & Hd & Hr).
    assert (e0 <> e) as Hne0.
    { intros ->. destruct Hx as (_ & Hx & _). congruence. }
    destruct (finish_call_entry _ _ _ Hx) as (x' & Hx' & Heq). rewrite (Heq Hne0) in Hx'. eauto.
Qed.

Lemma finish_started k0 e0 :
  (k0, e0) ∈ lw_started w' ->
  exists x, lg_heap lg' !! e0 = Some x /\ (oe_abandoned x = true \/ lg_entries lg' !! k0 = Some e0).
Proof.
  simpl. intros Hin. destruct (le_started _ _ _ Hi k0 e0 Hin) as (x & Hx & Hor).
  pose proof (le_entries _ _ _ Hi _ _ Hlive) as [Hin' _].
  destruct (decide (e0 = e)) as [->|Hne].
  - exists entry'. rewrite Hheap, lookup_insert_eq. split; [done|].
    destruct (oe_abandoned entry') eqn:Ea; [by left|right].
    destruct Hor as [Hab|Hk0].
    + exfalso. pose proof (le_abandoned _ _ _ Hi e x Hx Hab). congruence.
    + destruct (decide (k0 = ca_key ca)) as [->|Hk]; [done|]. by rewrite Helsewhere.
  - exists x. rewrite Hheap, lookup_insert_ne by done. split; [done|].
    destruct Hor as [?|Hk0]; [by left|right]. rewrite Helsewhere; [done|]. intros ->. congruence.
Qed.

Lemma finish_entries k0 e0 :
  lg_entries lg' !! k0 = Some e0 ->
  (k0, e0) ∈ lw_started w' /\ exists x, lg_heap lg' !! e0 = Some x /\ oe_abandoned x = false.
Proof.
  intros Hl. destruct (decide (k0 = ca_key ca)) as [->|Hne].
  - rewrite Hkey in Hl. destruct (oe_abandoned entry') eqn:Ea; [done|]. injection Hl as <-.
    split; [apply (le_entries _ _ _ Hi _ _ Hlive)|]. exists entry'. by rewrite Hheap, lookup_insert_eq.
  - rewrite Helsewhere in Hl by done. destruct (le_entries _ _ _ Hi _ _ Hl) as (Hin & x & Hx & Ha).
    split; [done|]. destruct (decide (e0 = e)) as [->|Hne0].
    + exfalso. pose proof (le_entries _ _ _ Hi _ _ Hlive) as [Hin' _].
      pose proof (le_unique _ _ _ Hi) as Hnd. apply Hne.
      apply list_elem_of_lookup_1 in Hin as [i1 L1]. apply list_elem_of_lookup_1 in Hin' as [i2 L2].
      assert (i1 = i2) as ->.
      { eapply NoDup_lookup; [exact Hnd|rewrite list_lookup_fmap, L1; done|rewrite list_lookup_fmap, L2; done]. }
      congruence.
    + exists x. by rewrite Hheap, lookup_insert_ne.
Qed.

Lemma finish_call_inv :
  lg_maximumClients lg' = lg_maximumClients (lw_ledger w) ->
  lg_maximumPerClient lg' = lg_maximumPerClient (lw_ledger w) ->
  lg_next lg' = lg_next (lw_ledger w) ->
  (forall c0, default 0 (lg_clientCounts lg' !! c0) = client_operations lg' c0) ->
  (forall c0 n, lg_clientCounts lg' !! c0 = Some n -> 1 <= n <= mp) ->
  Z.of_nat (size (lg_clientCounts lg')) <= mc ->
  call_ok w' (call_at ca pc') -> ledger_inv mc mp w'.
Proof.
  intros E1 E2 E3 C1 C2 C3 Hown.
  split; [| |exact finish_started|exact finish_entries|apply Hi| | | | |exact C1|exact C2|exact C3]; simpl.
  - rewrite E1, E2. apply (le_bounds _ _ _ Hi).
  - rewrite Hheap, E3. intros e0 [x Hx]. apply (le_ids _ _ _ Hi).
    apply lookup_insert_Some in Hx as [[<- _]|[_ Hx]]; eauto.
  - rewrite Hheap. intros e0 x Hx. apply lookup_insert_Some in Hx as [[<- <-]|[_ Hx]]; [done|].
    by apply (le_abandoned _ _ _ Hi e0).
  - rewrite Hheap. intros e0 x Hx Hd. apply lookup_insert_Some in Hx as [[<- <-]|[Hne Hx]]; [congruence|].
    destruct (le_owner _ _ _ Hi e0 x Hx Hd) as (i & ca1 & L & P). exists i, ca1. split; [|done].
    rewrite lookup_insert_ne; [done|]. intros <-. congruence.
  - intros i1 i2 c1 c2 e0 L1 L2 P1 P2.
    apply lookup_insert_Some in L1 as [[<- <-]|[_ L1]]; [by apply Hpc' in P1|].
    apply lookup_insert_Some in L2 as [[<- <-]|[_ L2]]; [by apply Hpc' in P2|].
    by apply (le_owner_unique _ _ _ Hi _ _ _ _ _ L1 L2 P1 P2).
  - intros i ca1. by apply finish_calls.
Qed.
End finish.

Lemma executing_entry mc mp w id ca e :
  ledger_inv mc mp w -> lw_calls w !! id = Some ca -> ca_pc ca = DoExecute e ->
  exists entry, call_entry w ca e entry /\ oe_done entry = false /\ oe_abandoned entry = false
    /\ lg_entries (lw_ledger w) !! ca_key ca = Some e.
Proof.
  intros Hi Hid Hpc. pose proof (le_calls _ _ _ Hi id ca Hid) as Hok. unfold call_ok in Hok.
  rewrite Hpc in Hok. destruct Hok as (entry & Hce & Hd & Hl). exists entry. split; [done|].
  split; [done|]. split; [|done]. destruct (oe_abandoned entry) eqn:Ea; [|done].
  destruct Hce as (_ & Hx & _). pose proof (le_abandoned _ _ _ Hi e entry Hx Ea). congruence.
Qed.

Lemma commit_inv mc mp w id ca e outcome err lg' :
  ledger_inv mc mp w -> lw_calls w !! id = Some ca -> ca_pc ca = DoExecute e ->
  Ledger_commit (lw_ledger w) e outcome err = Some lg' ->
  ledger_inv mc mp (mkLWorld lg'
    (<[id := call_at ca (DoReturn (DoCommitted false outcome err))]> (lw_calls w)) (lw_started w)).
Proof.
  intros Hi Hid Hpc Hc. destruct (executing_entry _ _ _ _ _ _ Hi Hid Hpc) as (entry & Hce & Hd & Ha & Hl).
  pose proof Hce as (Hin & Hx & Hk & Hdg). unfold Ledger_commit in Hc. rewrite Hx in Hc. injection Hc as <-.
  eapply (finish_call_inv mc mp w id ca e entry); eauto; simpl; try done; try (by rewrite Ha).
  - apply (le_counts _ _ _ Hi).
  - apply (le_positive _ _ _ Hi).
  - apply (le_clients _ _ _ Hi).
  - unfold call_ok, call_entry; simpl. exists e. eexists. rewrite lookup_insert_eq.
    split; [by split|]. auto.
Qed.

Lemma abandon_counts mc mp w key e :
  ledger_inv mc mp w -> lg_entries (lw_ledger w) !! key = Some e ->
  let lg := lw_ledger w in
  let c := fst key in
  let remaining := default 0 (lg_clientCounts lg !! c) - 1 in
  let counts := if remaining =? 0 then delete c (lg_clientCounts lg)
                else <[c := remaining]> (lg_clientCounts lg) in
  (forall c0, default 0 (counts !! c0)
     = Z.of_nat (size (filter (fun kv => fst (fst kv) = c0) (delete key (lg_entries lg)))))
  /\ (forall c0 n, counts !! c0 = Some n -> 1 <= n <= mp)
  /\ Z.of_nat (size counts) <= mc.
Proof.
  intros Hi Hl lg c remaining counts. pose proof (le_counts _ _ _ Hi) as Hc.
  pose proof (le_positive _ _ _ Hi) as Hp. pose proof (le_clients _ _ _ Hi) as Hm.
  assert (1 <= client_operations lg c) as Hpos.
  { pose proof (operations_delete lg key e c Hl) as Hd. rewrite decide_True in Hd by done. lia. }
  assert (exists n, lg_clientCounts lg !! c = Some n /\ n = client_operations lg c) as (n & Hn & Hnc).
  { specialize (Hc c). fold lg in Hc. destruct (lg_clientCounts lg !! c) as [n|]; simpl in Hc; [eauto|lia]. }
  assert (remaining = client_operations lg c - 1) as Hrem by (unfold remaining; rewrite Hn; simpl; lia).
  split; [|split].
  - intros c0. rewrite (operations_delete lg key e c0 Hl). fold c. unfold counts.
    destruct (decide (c = c0)) as [<-|Hne].
    + destruct (remaining =? 0) eqn:Er; bprop.
      * rewrite lookup_delete_eq. simpl. lia.
      * rewrite lookup_insert_eq. simpl. lia.
    + destruct (remaining =? 0); [rewrite lookup_delete_ne by done|rewrite lookup_insert_ne by done];
        fold lg in Hc; rewrite Hc; lia.
  - intros c0 n0 H0. unfold counts in H0. destruct (remaining =? 0) eqn:Er; bprop.
    + apply lookup_delete_Some in H0 as [_ H0]. eauto.
    + apply lookup_insert_Some in H0 as [[<- <-]|[_ H0]]; [|eauto]. specialize (Hp c n Hn). lia.
  - unfold counts. destruct (remaining =? 0).
    + rewrite map_size_delete_Some by eauto. fold lg in Hm. lia.
    + rewrite map_size_insert_Some by eauto. done.
Qed.

Lemma abandon_inv mc mp w id ca e cause lg' :
  ledger_inv mc mp w -> lw_calls w !! id = Some ca -> ca_pc ca = DoExecute e ->
  Ledger_abandon (lw_ledger w) (ca_key ca) e = Some lg' ->
  ledger_inv mc mp (mkLWorld lg'
    (<[id := call_at ca (DoReturn (DoAbandoned cause))]> (lw_calls w)) (lw_started w)).
Proof.
  intros Hi Hid Hpc Hc. destruct (executing_entry _ _ _ _ _ _ Hi Hid Hpc) as (entry & Hce & Hd & Ha & Hl).
  pose proof Hce as (Hin & Hx & Hk & Hdg). unfold Ledger_abandon in Hc.
  rewrite Hx, bool_decide_eq_true_2 in Hc by done. injection Hc as <-.
  destruct (abandon_counts mc mp w (ca_key ca) e Hi Hl) as (C1 & C2 & C3).
  eapply (finish_call_inv mc mp w id ca e entry); eauto; simpl; try done.
  - intros k Hne. by rewrite lookup_delete_ne.
  - by rewrite lookup_delete_eq.
Qed.

Lemma round_inv mc mp w id ca lg' r :
  ledger_inv mc mp w -> lw_calls w !! id = Some ca -> ca_pc ca = DoLoop ->
  do_round (ca_ctxDone ca) (lw_ledger w) (ca_key ca) (ca_kind ca) (ca_digest ca) = Some (lg', r) ->
  ledger_inv mc mp (mkLWorld lg' (<[id := call_at ca (round_pc r)]> (lw_calls w))
    (started_by (ca_key ca) r (lw_started w))).
Proof.
  intros Hi Hid Hpc Hr. unfold do_round in Hr.
  destruct (lg_entries (lw_ledger w) !! ca_key ca) as [e|] eqn:Ek.
  - destruct (le_entries _ _ _ Hi _ _ Ek) as (Hin & x & Hx & _). rewrite Hx in Hr.
    destruct (_ || _) eqn:Ec; injection Hr as <- <-; simpl;
      (apply call_move_inv; auto; [|congruence]).
    + done.
    + bprop. exists x. split; [done|]. split; [done|]. simpl. split; by apply String.eqb_eq.
  - destruct (ca_ctxDone ca); [injection Hr as <- <-; apply call_move_inv; simpl; auto; try done; congruence|].
    destruct (_ || _) eqn:Ec; [injection Hr as <- <-; apply call_move_inv; simpl; auto; try done; congruence|].
    apply orb_false_iff in Ec as [Ec1 Ec2]. injection Hr as <- <-. simpl. apply owner_inv; auto; bprop.
    + lia.
    + intros Hn. rewrite Hn in Ec1. simpl in Ec1. bprop. lia.
Qed.

Lemma ledger_step_inv mc mp w w' : ledger_inv mc mp w -> ledger_step w w' -> ledger_inv mc mp w'.
Proof.
  intros Hi Hs. destruct Hs.
  - by apply begin_call_inv.
  - by apply round_inv.
  - by eapply await_inv.
  - unfold Do_finish in H1. destruct (executor_verdict r) as [cause|[outcome err]].
    + destruct (Ledger_abandon _ _ _) eqn:E; [|done]. injection H1 as <- <-. by eapply abandon_inv.
    + destruct (Ledger_commit _ _ _ _) eqn:E; [|done]. injection H1 as <- <-. by eapply commit_inv.
  - by apply ctx_call_inv.
Qed.

Lemma ledger_reachable_inv mc mp w : ledger_reachable mc mp w -> ledger_inv mc mp w.
Proof.
  intros (lg & Hn & Hr).
  assert (ledger_inv mc mp (mkLWorld lg ∅ [])) as H0.
  { unfold NewLedger in Hn. repeat (split_match_in Hn; try discriminate). bprop. injection Hn as <-.
    split; simpl; try done; intros *; rewrite ?lookup_empty; try done.
    - by intros ?%elem_of_nil.
    - constructor.
    - rewrite map_size_empty. lia. }
  clear Hn. induction Hr as [w0|w0 w1 w2 Hstep _ IH]; [done|]. apply IH. by eapply ledger_step_inv.
Qed.

(** ** A sample history, for concrete evaluation *)

Definition sample_ledger : Ledger := mkLedger 4 4 ∅ ∅ ∅ 1.
Definition do_begin (id : Z) (operationID digest : string) (w : LedgerWorld) : LedgerWorld :=
  match lw_calls w !! id with
  | None => mkLWorld (lw_ledger w)
      (<[id := Do_begin CtxLive "client" operationID "run.start" digest]> (lw_calls w)) (lw_started w)
  | Some _ => w
  end.
(** The next step of a call; [r] is what its executor returns. *)
Definition do_advance (id : Z) (r : exec_result) (w : LedgerWorld) : LedgerWorld :=
  match lw_calls w !! id with
  | None => w
  | Some ca =>
      match ca_pc ca with
      | DoLoop =>
          match do_round (ca_ctxDone ca) (lw_ledger w) (ca_key ca) (ca_kind ca) (ca_digest ca) with
          | Some (lg', rd) => mkLWorld lg' (<[id := call_at ca (round_pc rd)]> (lw_calls w))
              (started_by (ca_key ca) rd (lw_started w))
          | None => w
          end
      | DoAwait e =>
          match lg_heap (lw_ledger w) !! e with
          | Some entry =>
              match awaitExisting (ca_ctxDone ca) entry with
              | Some a => mkLWorld (lw_ledger w) (<[id := call_at ca (awaited_pc a)]> (lw_calls w))
                            (lw_started w)
              | None => w
              end
          | None => w
          end
      | DoExecute e =>
          match Do_finish (lw_ledger w) ca e r with
          | Some (lg', pc) => mkLWorld lg' (<[id := call_at ca pc]> (lw_calls w)) (lw_started w)
          | None => w
          end
      | DoReturn _ => w
      end
  end.

Lemma ledger_reachable_step mc mp w w' :
  ledger_reachable mc mp w -> ledger_step w w' -> ledger_reachable mc mp w'.
Proof. intros (lg & Hn & Hr) Hs. exists lg. split; [done|]. by eapply rtc_r. Qed.

Lemma reachable_do_begin mc mp id op digest w :
  ledger_reachable mc mp w -> ledger_reachable mc mp (do_begin id op digest w).
Proof.
  intros H. unfold do_begin. destruct (lw_calls w !! id) eqn:E; [done|].
  eapply ledger_reachable_step; [done|]. by apply lstep_begin.
Qed.

Lemma reachable_do_advance mc mp id r w :
  ledger_reachable mc mp w -> ledger_reachable mc mp (do_advance id r w).
Proof.
  intros H. unfold do_advance. destruct (lw_calls w !! id) as [ca|] eqn:E; [|done].
  destruct (ca_pc ca) as [|e|e|] eqn:Ep; [| | |done].
  - destruct (do_round _ _ _ _ _) as [[lg' rd]|] eqn:Er; [|done].
    eapply ledger_reachable_step; [done|]. by apply lstep_round.
  - destruct (lg_heap (lw_ledger w) !! e) as [entry|] eqn:Eh; [|done].
    destruct (awaitExisting _ _) as [a|] eqn:Ea; [|done].
    eapply ledger_reachable_step; [done|]. by eapply lstep_await.
  - destruct (Do_finish _ _ _ _) as [[lg' pc]|] eqn:Ef; [|done].
    eapply ledger_reachable_step; [done|]. by eapply lstep_execute.
Qed.

Definition sample_outcome : Outcome := mkOutcome OutcomeSuccess "ok".

(** Call 1 owns an operation, call 2 is its duplicate and waits. *)
Definition sample_waiting : LedgerWorld :=
  do_advance 2 ExecPanics (do_begin 2 "op" "digest"
    (do_advance 1 ExecPanics (do_begin 1 "op" "digest" (mkLWorld sample_ledger ∅ [])))).
(** The owner commits, the duplicate returns its result. *)
Definition sample_committed : LedgerWorld :=
  do_advance 2 ExecPanics (do_advance 1 (ExecReturns sample_outcome None) sample_waiting).

Lemma sample_waiting_reachable : ledger_reachable 4 4 sample_waiting.
Proof.
  do 2 apply reachable_do_advance, reachable_do_begin. exists sample_ledger.
  split; [reflexivity|apply rtc_refl].
Qed.

Lemma sample_committed_reachable : ledger_reachable 4 4 sample_committed.
Proof. do 2 apply reachable_do_advance. exact sample_waiting_reachable. Qed.

(** ** Properties *)

Lemma started_unique mc mp w k1 k2 e :
  ledger_inv mc mp w -> (k1, e) ∈ lw_started w -> (k2, e) ∈ lw_started w -> k1 = k2.
Proof.
  intros Hi H1 H2. apply list_elem_of_lookup_1 in H1 as [i1 L1]. apply list_elem_of_lookup_1 in H2 as [i2 L2].
  assert (i1 = i2) as ->.
  { eapply NoDup_lookup; [apply (le_unique _ _ _ Hi)|rewrite list_lookup_fmap, L1; done
                         |rewrite list_lookup_fmap, L2; done]. }
  congruence.
Qed.

(** C4: An operation takes effect at most once: of all executors ever started
    for a client and operation ID, at most one was not abandoned before its
    commit boundary, and every call that returns a committed result for that
    key (owner or duplicate) returns the same outcome and the same error, for
    the same kind and digest. *)
Theorem ledger_at_most_once mc mp w :
  ledger_reachable mc mp w ->
  (forall key e1 e2 x1 x2, (key, e1) ∈ lw_started w -> (key, e2) ∈ lw_started w ->
     lg_heap (lw_ledger w) !! e1 = Some x1 -> lg_heap (lw_ledger w) !! e2 = Some x2 ->
     oe_abandoned x1 = false -> oe_abandoned x2 = false -> e1 = e2)
  /\ (forall id1 id2 ca1 ca2 b1 b2 o1 o2 r1 r2,
        lw_calls w !! id1 = Some ca1 -> lw_calls w !! id2 = Some ca2 -> ca_key ca1 = ca_key ca2 ->
        ca_pc ca1 = DoReturn (DoCommitted b1 o1 r1) -> ca_pc ca2 = DoReturn (DoCommitted b2 o2 r2) ->
        o1 = o2 /\ r1 = r2 /\ ca_kind ca1 = ca_kind ca2 /\ ca_digest ca1 = ca_digest ca2).
Proof.
  intros Hr. pose proof (ledger_reachable_inv _ _ _ Hr) as Hi.
  assert (forall key e1 e2 x1 x2, (key, e1) ∈ lw_started w -> (key, e2) ∈ lw_started w ->
     lg_heap (lw_ledger w) !! e1 = Some x1 -> lg_heap (lw_ledger w) !! e2 = Some x2 ->
     oe_abandoned x1 = false -> oe_abandoned x2 = false -> e1 = e2) as Hone.
  { intros key e1 e2 x1 x2 S1 S2 X1 X2 A1 A2.
    destruct (le_started _ _ _ Hi _ _ S1) as (y1 & Y1 & [?|L1]); [congruence|].
    destruct (le_started _ _ _ Hi _ _ S2) as (y2 & Y2 & [?|L2]); [congruence|]. congruence. }
  split; [done|].
  intros id1 id2 ca1 ca2 b1 b2 o1 o2 r1 r2 L1 L2 Hk P1 P2.
  pose proof (le_calls _ _ _ Hi _ _ L1) as O1. pose proof (le_calls _ _ _ Hi _ _ L2) as O2.
  unfold call_ok in O1, O2. rewrite P1 in O1. rewrite P2 in O2.
  destruct O1 as (e1 & x1 & (S1 & X1 & K1 & D1) & _ & A1 & <- & <-).
  destruct O2 as (e2 & x2 & (S2 & X2 & K2 & D2) & _ & A2 & <- & <-).
  rewrite Hk in S1. pose proof (Hone _ _ _ _ _ S1 S2 X1 X2 A1 A2) as ->. naive_solver congruence.
Qed.

Lemma ledger_at_most_once_witness :
  exists ca1 ca2 o1 o2 r1 r2, lw_calls sample_committed !! 1 = Some ca1
    /\ lw_calls sample_committed !! 2 = Some ca2
    /\ ca_pc ca1 = DoReturn (DoCommitted false o1 r1)
    /\ ca_pc ca2 = DoReturn (DoCommitted true o2 r2) /\ o1 = o2 /\ o1 = sample_outcome.
Proof.
  destruct (ledger_at_most_once 4 4 sample_committed sample_committed_reachable) as [_ H].
  destruct (lw_calls sample_committed !! 1) as [ca1|] eqn:E1; [|vm_compute in E1; discriminate].
  destruct (lw_calls sample_committed !! 2) as [ca2|] eqn:E2; [|vm_compute in E2; discriminate].
  assert (ca_pc ca1 = DoReturn (DoCommitted false sample_outcome None)) as P1.
  { vm_compute in E1. injection E1 as <-. reflexivity. }
  assert (exists o, ca_pc ca2 = DoReturn (DoCommitted true o None)) as [o P2].
  { vm_compute in E2. injection E2 as <-. eexists. reflexivity. }
  assert (ca_key ca1 = ca_key ca2) as Hk.
  { vm_compute in E1, E2. injection E1 as <-. injection E2 as <-. reflexivity. }
  exists ca1, ca2, sample_outcome, o, None, None.
  split; [reflexivity|]. split; [reflexivity|]. split; [exact P1|]. split; [exact P2|].
  split; [|reflexivity]. exact (proj1 (H 1 2 ca1 ca2 _ _ _ _ _ _ E1 E2 Hk P1 P2)).
Defined.

(** The ledger's bounds hold in every reachable state: it accounts
    exactly, per client, for the operations it holds; no client exceeds its own
    bound and the number of clients stays within the ledger's, so one client
    cannot exhaust another's namespace. *)
Theorem ledger_bounds mc mp w :
  ledger_reachable mc mp w ->
  (forall c, default 0 (lg_clientCounts (lw_ledger w) !! c) = client_operations (lw_ledger w) c
             /\ client_operations (lw_ledger w) c <= mp)
  /\ Z.of_nat (size (lg_clientCounts (lw_ledger w))) <= mc.
Proof.
  intros Hr. pose proof (ledger_reachable_inv _ _ _ Hr) as Hi.
  assert (0 <= mp) as Hmp.
  { destruct Hr as (lg & Hn & _). unfold NewLedger in Hn. repeat (split_match_in Hn; try discriminate).
    bprop. lia. }
  split; [|apply (le_clients _ _ _ Hi)]. intros c. split; [apply (le_counts _ _ _ Hi)|].
  rewrite <- (le_counts _ _ _ Hi). destruct (lg_clientCounts (lw_ledger w) !! c) as [n|] eqn:E; [|done].
  pose proof (le_positive _ _ _ Hi c n E). simpl. lia.
Qed.

Lemma ledger_bounds_witness :
  client_operations (lw_ledger sample_committed) "client" <= 4
  /\ default 0 (lg_clientCounts (lw_ledger sample_committed) !! "client"%string) = 1.
Proof.
  split; [|vm_compute; reflexivity].
  exact (proj2 (proj1 (ledger_bounds 4 4 sample_committed sample_committed_reachable) "client")).
Defined.

(** No duplicate waits in vain: while the entry a call waits for is
    incomplete some call is executing it; whatever that executor returns,
    finishing it succeeds and completes the entry, so that the waiting call is
    released with the committed result or retries after an abandonment. *)
Theorem duplicate_is_released mc mp w id ca e :
  ledger_reachable mc mp w -> lw_calls w !! id = Some ca -> ca_pc ca = DoAwait e ->
  exists x, lg_heap (lw_ledger w) !! e = Some x
    /\ (oe_done x = false ->
        exists owner oc, lw_calls w !! owner = Some oc /\ ca_pc oc = DoExecute e
          /\ forall r, exists lg' pc x', Do_finish (lw_ledger w) oc e r = Some (lg', pc)
               /\ lg_heap lg' !! e = Some x'
               /\ awaitExisting (ca_ctxDone ca) x' =
                  Some (match executor_verdict r with
                        | inl _ => if ca_ctxDone ca then AwContext else AwRetry
                        | inr (outcome, err) => AwResult outcome err
                        end)).
Proof.
  intros Hr Hid Hpc. pose proof (ledger_reachable_inv _ _ _ Hr) as Hi.
  pose proof (le_calls _ _ _ Hi id ca Hid) as Hok. unfold call_ok in Hok. rewrite Hpc in Hok.
  destruct Hok as (x & (_ & Hx & _)). exists x. split; [done|]. intros Hd.
  destruct (le_owner _ _ _ Hi e x Hx Hd) as (owner & oc & Ho & Hp).
  destruct (executing_entry _ _ _ _ _ _ Hi Ho Hp) as (x' & (_ & Hx' & _) & _ & Ha & Hl).
  rewrite Hx in Hx'. injection Hx' as <-.
  exists owner, oc. split; [done|]. split; [done|]. intros r.
  unfold Do_finish. destruct (executor_verdict r) as [cause|[outcome err]].
  - unfold Ledger_abandon. rewrite Hx, bool_decide_eq_true_2 by done.
    do 3 eexists. split; [done|]. simpl. rewrite lookup_insert_eq. split; [done|]. done.
  - unfold Ledger_commit. rewrite Hx. do 3 eexists. split; [done|]. simpl. rewrite lookup_insert_eq.
    split; [done|]. unfold awaitExisting, completedExisting; simpl. by rewrite Ha.
Qed.

Lemma duplicate_is_released_witness :
  exists ca x owner oc, lw_calls sample_waiting !! 2 = Some ca /\ ca_pc ca = DoAwait 1
    /\ lg_heap (lw_ledger sample_waiting) !! 1 = Some x /\ oe_done x = false
    /\ lw_calls sample_waiting !! owner = Some oc /\ ca_pc oc = DoExecute 1.
Proof.
  destruct (lw_calls sample_waiting !! 2) as [ca|] eqn:E2; [|vm_compute in E2; discriminate].
  assert (ca_pc ca = DoAwait 1) as P2.
  { vm_compute in E2. injection E2 as <-. reflexivity. }
  destruct (duplicate_is_released 4 4 sample_waiting 2 ca 1 sample_waiting_reachable E2 P2) as (x & Hx & Hw).
  assert (oe_done x = false) as Hd.
  { vm_compute in Hx. injection Hx as <-. reflexivity. }
  destruct (Hw Hd) as (owner & oc & Ho & Hp & _).
  exists ca, x, owner, oc.
  split; [reflexivity|]. split; [exact P2|]. split; [exact Hx|]. split; [exact Hd|]. split; [exact Ho|exact Hp].
Defined.

Lemma committed_outcome outcome :
  match match NewOutcome (oc_kind outcome) (oc_payload outcome) with
        | Ok _ => inr (outcome, None)
        | Err _ => inr (uncertainExecutorOutcome, Some ErrOperationExecutor)
        end : Z + (Outcome * option DoError) with
  | inl cause => exists outcome0,
      ExecReturns outcome None = ExecReturns outcome0 (Some (abandonedOperationError (Some cause)))
      /\ oc_kind outcome0 = ""%string /\ slen (oc_payload outcome0) = 0
  | inr (outcome0, err) =>
      NewOutcome (oc_kind outcome0) (oc_payload outcome0) = Ok outcome0
      /\ (ExecReturns outcome None = ExecReturns outcome0 None /\ err = None
          \/ outcome0 = uncertainExecutorOutcome /\ err = Some ErrOperationExecutor)
  end.
Proof.
  destruct (NewOutcome (oc_kind outcome) (oc_payload outcome)) as [o|] eqn:En; [|by auto].
  split; [|by auto]. rewrite En. unfold NewOutcome in En. repeat (split_match_in En; try discriminate).
  injection En as <-. by destruct outcome.
Qed.

(** What an executor returns is classified safely: only the exact
    abandonment proof with no result lets an entry be removed; everything the
    ledger commits is a valid bounded outcome; and an error, a panic or an
    invalid result always commits the fixed uncertain outcome with the
    executor sentinel, never the executor's own text. *)
Theorem executor_verdict_safe r :
  match executor_verdict r with
  | inl cause => exists outcome, r = ExecReturns outcome (Some (abandonedOperationError (Some cause)))
                                 /\ oc_kind outcome = ""%string /\ slen (oc_payload outcome) = 0
  | inr (outcome, err) =>
      NewOutcome (oc_kind outcome) (oc_payload outcome) = Ok outcome
      /\ (r = ExecReturns outcome None /\ err = None
          \/ outcome = uncertainExecutorOutcome /\ err = Some ErrOperationExecutor)
  end.
Proof.
  assert (NewOutcome (oc_kind uncertainExecutorOutcome) (oc_payload uncertainExecutorOutcome)
          = Ok uncertainExecutorOutcome) as Hu by reflexivity.
  unfold executor_verdict. destruct r as [outcome err|]; [|auto].
  destruct (isZeroOutcome outcome) eqn:Ez; [destruct (validAbandonment err) as [cause|] eqn:Ev|].
  - unfold validAbandonment in Ev. repeat (split_match_in Ev; try discriminate). injection Ev as <-.
    exists outcome. split; [done|]. unfold isZeroOutcome in Ez. bprop. split; [by apply String.eqb_eq|done].
  - destruct err; [by auto|]. apply committed_outcome.
  - destruct err; [by auto|]. apply committed_outcome.
Qed.
