(* ===== verification/RunIdentity.v ===== *)
(** The run identity ledger (src/agent/run_identity.go): which run IDs a
    process holds reserved, active or as tombstones, under exact entry and byte
    bounds.  Counters are kept at their Go widths. *)
From Stdlib Require Import ZArith Lia.
From stdpp Require Import base gmap sets list strings.
From S2P Require Import Prelude GoText.
Open Scope Z_scope.

Definition defaultRunIdentityEntries : Z := 65536.
Definition defaultRunIdentityBytes : Z := 16777216.
Definition maximumRunIdentityEntries : Z := 1048576.
Definition maximumRunIdentityBytes : Z := 268435456.
Definition runIdentityEntryBytes : Z := 128.

Record RunIdentityLimits := mkIdentityLimits { ril_entries : Z; ril_bytes : Z }.

Record RunIdentityStats := mkIdentityStats {
  ris_limits : RunIdentityLimits;
  ris_reserved : Z;
  ris_active : Z;
  ris_tombstones : Z;
  ris_bytes : Z
}.

Definition Entries (stats : RunIdentityStats) : Z :=
  ris_reserved stats +32 ris_active stats +32 ris_tombstones stats.

Inductive preparedExecutionKind := preparedStartKind | preparedResumeKind.

Inductive IdentityError :=
| ErrIdentityEntries
| ErrIdentityBytes
| ErrDuplicateRun (kind : preparedExecutionKind) (runID : string)
| RunIdentityCapacityError (resource : string) (limit observed : Z) (stats : RunIdentityStats)
| ErrTokenSpace
| ErrRunIdentityState
| ErrEngineClosed.

Definition RunIdentityLimits_Validate (limits : RunIdentityLimits) : option IdentityError :=
  if (ril_entries limits <? 1) || (ril_entries limits >? maximumRunIdentityEntries)
  then Some ErrIdentityEntries
  else if (ril_bytes limits <? runIdentityEntryBytes + 1) || (ril_bytes limits >? maximumRunIdentityBytes)
  then Some ErrIdentityBytes
  else None.

Definition NewRunIdentityLimits (entries bytes : Z) : result IdentityError RunIdentityLimits :=
  let limits := mkIdentityLimits entries bytes in
  match RunIdentityLimits_Validate limits with
  | Some e => Err e
  | None => Ok limits
  end.

Definition DefaultRunIdentityLimits : RunIdentityLimits :=
  mkIdentityLimits defaultRunIdentityEntries defaultRunIdentityBytes.

Inductive runIdentityState := runIdentityReserved | runIdentityActive | runIdentityTombstone.
#[export] Instance runIdentityState_eq_dec : EqDecision runIdentityState.
Proof. solve_decision. Defined.

Record runIdentityRecord := mkIdentityRecord {
  rir_token : Z;
  rir_charge : Z;
  rir_state : runIdentityState
}.

Record runIdentityLedger := mkIdentities {
  il_limits : RunIdentityLimits;
  il_records : gmap string runIdentityRecord;
  il_nextToken : Z;
  il_bytes : Z;
  il_reserved : Z;
  il_active : Z;
  il_tombstones : Z
}.

Definition newRunIdentityLedger (limits : RunIdentityLimits) : runIdentityLedger :=
  mkIdentities limits ∅ 0 0 0 0 0.

Definition identity_stats (l : runIdentityLedger) : RunIdentityStats :=
  mkIdentityStats (il_limits l) (il_reserved l) (il_active l) (il_tombstones l) (il_bytes l).

Definition identity_reserve (l : runIdentityLedger) (runID : string) (kind : preparedExecutionKind)
  : runIdentityLedger * result IdentityError Z :=
  match il_records l !! runID with
  | Some _ => (l, Err (ErrDuplicateRun kind runID))
  | None =>
      let charge := runIdentityEntryBytes +64 slen runID in
      let stats := identity_stats l in
      if Entries stats +32 1 >? ril_entries (il_limits l) then
        (l, Err (RunIdentityCapacityError "entries" (ril_entries (il_limits l))
               (Entries stats +64 1) stats))
      else if il_bytes l +64 charge >? ril_bytes (il_limits l) then
        (l, Err (RunIdentityCapacityError "bytes" (ril_bytes (il_limits l))
               (il_bytes l +64 charge) stats))
      else if il_nextToken l =? maxUint64 then (l, Err ErrTokenSpace)
      else
        let token := il_nextToken l +64 1 in
        (mkIdentities (il_limits l)
           (<[runID := mkIdentityRecord token charge runIdentityReserved]> (il_records l))
           token (il_bytes l +64 charge) (il_reserved l +32 1) (il_active l) (il_tombstones l),
         Ok token)
  end.

(** The counters after a record left [from] and, for a transition, entered [to]. *)
Definition leave_state (l : runIdentityLedger) (from : runIdentityState) : Z * Z * Z :=
  match from with
  | runIdentityReserved => (il_reserved l -32 1, il_active l, il_tombstones l)
  | runIdentityActive => (il_reserved l, il_active l -32 1, il_tombstones l)
  | runIdentityTombstone => (il_reserved l, il_active l, il_tombstones l -32 1)
  end.

Definition identity_transition (l : runIdentityLedger) (runID : string) (token : Z)
  (from to : runIdentityState) : runIdentityLedger * option IdentityError :=
  match il_records l !! runID with
  | None => (l, Some ErrRunIdentityState)
  | Some record =>
      if negb (rir_token record =? token) || negb (bool_decide (rir_state record = from))
      then (l, Some ErrRunIdentityState)
      else if bool_decide (to = runIdentityReserved) then (l, Some ErrRunIdentityState)
      else
        let '(reserved, active, tombstones) := leave_state l from in
        (mkIdentities (il_limits l)
           (<[runID := mkIdentityRecord (rir_token record) (rir_charge record) to]> (il_records l))
           (il_nextToken l) (il_bytes l) reserved
           (match to with runIdentityActive => active +32 1 | _ => active end)
           (match to with runIdentityTombstone => tombstones +32 1 | _ => tombstones end),
         None)
  end.

(** [abort] and [retire] differ in the state they require. *)
Definition identity_remove (required : runIdentityState) (l : runIdentityLedger) (runID : string)
  (token : Z) : runIdentityLedger * option IdentityError :=
  match il_records l !! runID with
  | None => (l, Some ErrRunIdentityState)
  | Some record =>
      if negb (rir_token record =? token) || negb (bool_decide (rir_state record = required))
      then (l, Some ErrRunIdentityState)
      else
        let '(reserved, active, tombstones) := leave_state l required in
        (mkIdentities (il_limits l) (delete runID (il_records l)) (il_nextToken l)
           (il_bytes l -64 rir_charge record) reserved active tombstones, None)
  end.
Definition identity_abort := identity_remove runIdentityReserved.
Definition identity_retire := identity_remove runIdentityTombstone.

(** The capability [RunIdentityRetirement]. *)
Record RunIdentityRetirement := mkRetirement {
  rt_runID : string;
  rt_token : Z;
  rt_retired : bool
}.

Definition Retire (l : runIdentityLedger) (r : RunIdentityRetirement)
  : runIdentityLedger * RunIdentityRetirement * option IdentityError :=
  if rt_retired r then (l, r, None)
  else match identity_retire l (rt_runID r) (rt_token r) with
  | (l', None) => (l', mkRetirement (rt_runID r) (rt_token r) true, None)
  | (l', Some e) => (l', r, Some e)
  end.

(** ** The ledger as a state machine *)

Inductive identity_op :=
| IReserve (runID : string) (kind : preparedExecutionKind)
| ITransition (runID : string) (token : Z) (from to : runIdentityState)
| IAbort (runID : string) (token : Z)
| IRetire (runID : string) (token : Z).

(** The next ledger, and the token when one was issued. *)
Definition identity_step (l : runIdentityLedger) (op : identity_op)
  : runIdentityLedger * option Z :=
  match op with
  | IReserve runID kind =>
      match identity_reserve l runID kind with
      | (l', Ok token) => (l', Some token)
      | (l', Err _) => (l', None)
      end
  | ITransition runID token from to => (fst (identity_transition l runID token from to), None)
  | IAbort runID token => (fst (identity_abort l runID token), None)
  | IRetire runID token => (fst (identity_retire l runID token), None)
  end.

(** A run of operations, with the tokens issued, in order. *)
Fixpoint identity_run (l : runIdentityLedger) (ops : list identity_op)
  : runIdentityLedger * list Z :=
  match ops with
  | [] => (l, [])
  | op :: ops =>
      let '(l1, issued) := identity_step l op in
      let '(l2, rest) := identity_run l1 ops in
      (l2, option_list issued ++ rest)
  end.

(** ** Invariant *)

Definition in_state (st : runIdentityState) (r : runIdentityRecord) : Z :=
  if decide (rir_state r = st) then 1 else 0.
Definition count_state (st : runIdentityState) (l : runIdentityLedger) : Z :=
  msum (in_state st) (il_records l).

Record identity_inv (l : runIdentityLedger) : Prop := {
  ii_limits : RunIdentityLimits_Validate (il_limits l) = None;
  ii_reserved : il_reserved l = count_state runIdentityReserved l;
  ii_active : il_active l = count_state runIdentityActive l;
  ii_tombstones : il_tombstones l = count_state runIdentityTombstone l;
  ii_bytes : il_bytes l = msum rir_charge (il_records l);
  ii_charge : forall runID r, il_records l !! runID = Some r ->
    rir_charge r = runIdentityEntryBytes + slen runID /\ 0 < rir_token r <= il_nextToken l;
  ii_tokens : forall r1 r2 x1 x2, il_records l !! r1 = Some x1 -> il_records l !! r2 = Some x2 ->
    rir_token x1 = rir_token x2 -> r1 = r2;
  ii_next : 0 <= il_nextToken l <= maxUint64;
  ii_max_entries : Z.of_nat (size (il_records l)) <= ril_entries (il_limits l);
  ii_max_bytes : il_bytes l <= ril_bytes (il_limits l)
}.

(** Go strings are addressed by [int]. *)
Definition maxInt64 : Z := 9223372036854775807.
Definition op_ok (op : identity_op) : Prop :=
  match op with IReserve runID _ => slen runID <= maxInt64 | _ => True end.

(** ** Lemmas *)

Lemma in_state_nonneg st r : 0 <= in_state st r.
Proof. unfold in_state. destruct (decide _); lia. Qed.

Lemma count_nonneg st l : 0 <= count_state st l.
Proof. apply msum_nonneg. intros. apply in_state_nonneg. Qed.

Lemma count_total l :
  count_state runIdentityReserved l + count_state runIdentityActive l
  + count_state runIdentityTombstone l = Z.of_nat (size (il_records l)).
Proof.
  unfold count_state. rewrite <- !msum_add, <- msum_size. unfold msum.
  assert (forall kv : string * runIdentityRecord, in_state runIdentityReserved kv.2
    + in_state runIdentityActive kv.2 + in_state runIdentityTombstone kv.2 = 1) as Hone.
  { intros [k [t c []]]; done. }
  induction (map_to_list (il_records l)) as [|kv rest IH]; [done|].
  rewrite !sumZ_cons, IH. specialize (Hone kv). lia.
Qed.

Lemma limits_range l :
  identity_inv l -> 1 <= ril_entries (il_limits l) <= maximumRunIdentityEntries
                    /\ 129 <= ril_bytes (il_limits l) <= maximumRunIdentityBytes.
Proof.
  intros Hi. pose proof (ii_limits _ Hi) as H. unfold RunIdentityLimits_Validate in H.
  repeat (split_match_in H; try discriminate). bprop. unfold runIdentityEntryBytes in *. lia.
Qed.

Lemma charge_bytes l :
  identity_inv l -> 0 <= il_bytes l.
Proof.
  intros Hi. rewrite (ii_bytes _ Hi). apply msum_nonneg. intros k x Hx.
  destruct (ii_charge _ Hi k x Hx) as [-> _]. pose proof (slen_nonneg k). unfold runIdentityEntryBytes. lia.
Qed.

Lemma entries_exact l :
  identity_inv l -> Entries (identity_stats l) = Z.of_nat (size (il_records l)).
Proof.
  intros Hi. pose proof (limits_range l Hi) as [[_ Hm] _]. pose proof (count_total l) as Ht.
  pose proof (count_nonneg runIdentityReserved l). pose proof (count_nonneg runIdentityActive l).
  pose proof (count_nonneg runIdentityTombstone l). pose proof (ii_max_entries _ Hi) as Hs.
  unfold Entries, identity_stats; simpl. rewrite (ii_reserved _ Hi), (ii_active _ Hi), (ii_tombstones _ Hi).
  unfold maximumRunIdentityEntries in *.
  rewrite (u32_id (count_state runIdentityReserved l + _)) by (unfold maxUint32; lia).
  rewrite u32_id by (unfold maxUint32; lia). lia.
Qed.

(** A counter drops by one when a record of its state goes. *)
Lemma leave_exact l runID r :
  identity_inv l -> il_records l !! runID = Some r ->
  leave_state l (rir_state r)
  = (count_state runIdentityReserved l - in_state runIdentityReserved r,
     count_state runIdentityActive l - in_state runIdentityActive r,
     count_state runIdentityTombstone l - in_state runIdentityTombstone r).
Proof.
  intros Hi Hr. pose proof (limits_range l Hi) as [[_ Hm] _]. pose proof (count_total l) as Ht.
  assert (forall st, rir_state r = st -> 1 <= count_state st l) as Hpos.
  { intros st Hst. unfold count_state. pose proof (msum_delete (in_state st) _ _ _ Hr) as Hd.
    pose proof (msum_nonneg (in_state st) (delete runID (il_records l)) (fun _ x _ => in_state_nonneg st x)).
    assert (in_state st r = 1) by (unfold in_state; by rewrite decide_True). lia. }
  pose proof (count_nonneg runIdentityReserved l). pose proof (count_nonneg runIdentityActive l).
  pose proof (count_nonneg runIdentityTombstone l). pose proof (ii_max_entries _ Hi).
  unfold maximumRunIdentityEntries in *.
  unfold leave_state. rewrite (ii_reserved _ Hi), (ii_active _ Hi), (ii_tombstones _ Hi).
  unfold in_state. destruct (rir_state r) eqn:Est; simpl; specialize (Hpos _ eq_refl);
    rewrite u32_id by (unfold maxUint32; lia); repeat f_equal; lia.
Qed.

Lemma reserve_inv l runID kind l' r :
  identity_inv l -> slen runID <= maxInt64 -> identity_reserve l runID kind = (l', r) ->
  identity_inv l' /\ il_nextToken l <= il_nextToken l'
  /\ (forall token, r = Ok token -> token = il_nextToken l' /\ il_nextToken l < token).
Proof.
  intros Hi Hlen H. unfold identity_reserve in H.
  destruct (il_records l !! runID) eqn:Er; [injection H as <- <-; split; [done|split; [lia|done]]|].
  pose proof (limits_range l Hi) as [Hle Hlb]. pose proof (charge_bytes l Hi) as Hb.
  pose proof (slen_nonneg runID) as Hl. pose proof (ii_max_bytes _ Hi) as Hmb.
  rewrite (entries_exact l Hi) in H. unfold maximumRunIdentityEntries, maximumRunIdentityBytes in *.
  pose proof (ii_max_entries _ Hi) as Hme.
  rewrite (u64_id (runIdentityEntryBytes + slen runID)) in H
    by (unfold uint64_ok, maxUint64, runIdentityEntryBytes, maxInt64 in *; lia).
  rewrite (u64_id (il_bytes l + _)) in H
    by (unfold uint64_ok, maxUint64, runIdentityEntryBytes, maxInt64 in *; lia).
  rewrite (u32_id (Z.of_nat _ + 1)) in H by (unfold maxUint32; lia).
  repeat (split_match_in H; [injection H as <- <-; split; [done|split; [lia|done]]|]). bprop.
  pose proof (ii_next _ Hi) as Hn.
  rewrite (u64_id (il_nextToken l + 1)) in H by (unfold uint64_ok; lia).
  pose proof (count_total l) as Ht.
  pose proof (count_nonneg runIdentityReserved l). pose proof (count_nonneg runIdentityActive l).
  pose proof (count_nonneg runIdentityTombstone l).
  rewrite u32_id in H by (rewrite (ii_reserved _ Hi); unfold maxUint32; lia).
  injection H as <- <-. split; [|simpl; split; [lia|intros token [= <-]; lia]].
  split; simpl; auto; try lia; [apply Hi|..].
  - unfold count_state; simpl. rewrite msum_insert_None by done.
    rewrite (ii_reserved _ Hi). unfold count_state, in_state at 2; simpl. lia.
  - unfold count_state; simpl. rewrite msum_insert_None by done. apply (ii_active _ Hi).
  - unfold count_state; simpl. rewrite msum_insert_None by done. apply (ii_tombstones _ Hi).
  - rewrite msum_insert_None by done. rewrite (ii_bytes _ Hi). simpl. lia.
  - intros k x Hx. apply lookup_insert_Some in Hx as [[<- <-]|[_ Hx]]; simpl; [lia|].
    destruct (ii_charge _ Hi k x Hx). lia.
  - intros r1 r2 x1 x2 L1 L2 Heq.
    apply lookup_insert_Some in L1 as [[<- <-]|[N1 L1]]; apply lookup_insert_Some in L2 as [[<- <-]|[N2 L2]];
      simpl in *; try done.
    + destruct (ii_charge _ Hi _ _ L2). lia.
    + destruct (ii_charge _ Hi _ _ L1). lia.
    + by apply (ii_tokens _ Hi r1 r2 x1 x2).
  - rewrite map_size_insert_None by done. lia.
Qed.

(** A record changes state. *)
Lemma move_record_inv l runID r to reserved active tombstones :
  identity_inv l -> il_records l !! runID = Some r ->
  let r' := mkIdentityRecord (rir_token r) (rir_charge r) to in
  reserved = count_state runIdentityReserved l - in_state runIdentityReserved r
             + in_state runIdentityReserved r' ->
  active = count_state runIdentityActive l - in_state runIdentityActive r
           + in_state runIdentityActive r' ->
  tombstones = count_state runIdentityTombstone l - in_state runIdentityTombstone r
               + in_state runIdentityTombstone r' ->
  identity_inv (mkIdentities (il_limits l) (<[runID := r']> (il_records l)) (il_nextToken l)
    (il_bytes l) reserved active tombstones).
Proof.
  intros Hi Hr r' -> -> ->. destruct Hi as [H1 H2 H3 H4 H5 H6 H7 H8 H9 H10].
  split; simpl; auto; try (unfold count_state; simpl; by rewrite (msum_insert_Some _ _ _ _ _ Hr)).
  - rewrite (msum_insert_Some _ _ _ _ _ Hr). simpl. lia.
  - intros k x Hx. apply lookup_insert_Some in Hx as [[<- <-]|[_ Hx]]; [apply (H6 runID r Hr)|eauto].
  - intros r1 r2 x1 x2 L1 L2 Heq.
    apply lookup_insert_Some in L1 as [[<- <-]|[N1 L1]]; apply lookup_insert_Some in L2 as [[<- <-]|[N2 L2]];
      simpl in *; eauto.
  - by rewrite map_size_insert_Some by eauto.
Qed.

(** A record goes. *)
Lemma remove_record_inv l runID r reserved active tombstones :
  identity_inv l -> il_records l !! runID = Some r ->
  reserved = count_state runIdentityReserved l - in_state runIdentityReserved r ->
  active = count_state runIdentityActive l - in_state runIdentityActive r ->
  tombstones = count_state runIdentityTombstone l - in_state runIdentityTombstone r ->
  identity_inv (mkIdentities (il_limits l) (delete runID (il_records l)) (il_nextToken l)
    (il_bytes l -64 rir_charge r) reserved active tombstones).
Proof.
  intros Hi Hr -> -> ->. pose proof (limits_range l Hi) as [_ Hlb].
  destruct Hi as [H1 H2 H3 H4 H5 H6 H7 H8 H9 H10].
  pose proof (msum_delete rir_charge _ _ _ Hr) as Hb.
  assert (0 <= msum rir_charge (delete runID (il_records l))) as Hnn.
  { apply msum_nonneg. intros k x Hx. apply lookup_delete_Some in Hx as [_ Hx].
    destruct (H6 k x Hx) as [-> _]. pose proof (slen_nonneg k). unfold runIdentityEntryBytes. lia. }
  assert (0 < rir_charge r) as Hc.
  { destruct (H6 runID r Hr) as [-> _]. pose proof (slen_nonneg runID). unfold runIdentityEntryBytes. lia. }
  unfold maximumRunIdentityBytes in *.
  rewrite u64_id by (unfold uint64_ok, maxUint64; lia).
  split; simpl; auto; try (unfold count_state; simpl; by rewrite (msum_delete _ _ _ _ Hr)); try lia.
  - intros k x Hx. apply lookup_delete_Some in Hx as [_ Hx]. eauto.
  - intros r1 r2 x1 x2 L1 L2. apply lookup_delete_Some in L1 as [_ L1]. apply lookup_delete_Some in L2 as [_ L2]. eauto.
  - rewrite map_size_delete_Some by eauto. lia.
Qed.

Lemma transition_inv l runID token from to l' e :
  identity_inv l -> identity_transition l runID token from to = (l', e) ->
  identity_inv l' /\ il_nextToken l' = il_nextToken l.
Proof.
  intros Hi H. unfold identity_transition in H.
  destruct (il_records l !! runID) as [r|] eqn:Er; [|by injection H as <- <-].
  split_match_in H; [by injection H as <- <-|]. split_match_in H; [by injection H as <- <-|].
  bprop. subst from. rewrite (leave_exact l runID r Hi Er) in H. injection H as <- <-. split; [|done].
  pose proof (limits_range l Hi) as [[_ Hm] _]. pose proof (count_total l) as Ht.
  pose proof (ii_max_entries _ Hi) as Hme.
  assert (forall st, 0 <= count_state st l - in_state st r <= maximumRunIdentityEntries) as Hge.
  { intros st. pose proof (count_nonneg runIdentityReserved l). pose proof (count_nonneg runIdentityActive l).
    pose proof (count_nonneg runIdentityTombstone l). pose proof (in_state_nonneg st r).
    assert (0 <= count_state st l - in_state st r).
    { unfold count_state. rewrite <- (msum_delete _ _ _ _ Er). apply msum_nonneg.
      intros. apply in_state_nonneg. }
    destruct st; lia. }
  pose proof (Hge runIdentityActive). pose proof (Hge runIdentityTombstone).
  unfold maximumRunIdentityEntries in *.
  apply move_record_inv; auto; destruct to; try done; rewrite ?u32_id by (unfold maxUint32; lia);
    unfold in_state at 3; simpl; lia.
Qed.

Lemma remove_inv required l runID token l' e :
  identity_inv l -> identity_remove required l runID token = (l', e) ->
  identity_inv l' /\ il_nextToken l' = il_nextToken l.
Proof.
  intros Hi H. unfold identity_remove in H.
  destruct (il_records l !! runID) as [r|] eqn:Er; [|by injection H as <- <-].
  split_match_in H; [by injection H as <- <-|].
  bprop. subst required. rewrite (leave_exact l runID r Hi Er) in H. injection H as <- <-. split; [|done].
  by apply remove_record_inv.
Qed.

Lemma identity_step_inv l op l' issued :
  identity_inv l -> op_ok op -> identity_step l op = (l', issued) ->
  identity_inv l' /\ il_nextToken l <= il_nextToken l'
  /\ (forall token, issued = Some token -> token = il_nextToken l' /\ il_nextToken l < token).
Proof.
  intros Hi Hok H. destruct op as [runID kind|runID token from to|runID token|runID token]; simpl in H.
  - destruct (identity_reserve l runID kind) as [l1 r] eqn:Er.
    destruct (reserve_inv _ _ _ _ _ Hi Hok Er) as (Hi' & Hn & Ht).
    destruct r; injection H as <- <-; (split; [done|]); (split; [done|]); [|done].
    intros token [= <-]. auto.
  - destruct (identity_transition _ _ _ _ _) as [l1 e] eqn:E. injection H as <- <-.
    destruct (transition_inv _ _ _ _ _ _ _ Hi E) as [? ->]. split; [done|]. split; [simpl; lia|done].
  - destruct (identity_abort _ _ _) as [l1 e] eqn:E. injection H as <- <-.
    destruct (remove_inv _ _ _ _ _ _ Hi E) as [? ->]. split; [done|]. split; [simpl; lia|done].
  - destruct (identity_retire _ _ _) as [l1 e] eqn:E. injection H as <- <-.
    destruct (remove_inv _ _ _ _ _ _ Hi E) as [? ->]. split; [done|]. split; [simpl; lia|done].
Qed.

Lemma identity_run_inv ops l l' issued :
  identity_inv l -> Forall op_ok ops -> identity_run l ops = (l', issued) ->
  identity_inv l' /\ il_nextToken l <= il_nextToken l'
  /\ Forall (fun t => il_nextToken l < t <= il_nextToken l') issued /\ NoDup issued.
Proof.
  revert l issued. induction ops as [|op ops IH]; simpl; intros l issued Hi Hok H.
  { injection H as <- <-. split; [done|]. split; [lia|]. split; constructor. }
  inversion Hok as [|? ? Ho Hos]; subst.
  destruct (identity_step l op) as [l1 t] eqn:Es. destruct (identity_run l1 ops) as [l2 rest] eqn:Er.
  injection H as <- <-. destruct (identity_step_inv _ _ _ _ Hi Ho Es) as (Hi1 & Hn1 & Ht).
  destruct (IH l1 rest Hi1 Hos Er) as (Hi2 & Hn2 & Hf & Hnd). split; [done|]. split; [lia|].
  assert (Forall (fun t => il_nextToken l < t <= il_nextToken l2) rest) as Hf'.
  { eapply Forall_impl; [exact Hf|]. simpl. intros; lia. }
  destruct t as [t|]; simpl; [|done]. destruct (Ht t eq_refl) as [-> ?].
  split; [constructor; [lia|done]|]. constructor; [|done].
  intros Hin. rewrite Forall_forall in Hf. apply Hf in Hin. lia.
Qed.

Lemma new_ledger_inv limits :
  RunIdentityLimits_Validate limits = None -> identity_inv (newRunIdentityLedger limits).
Proof.
  intros Hv. pose proof Hv as Hv0. unfold RunIdentityLimits_Validate in Hv.
  repeat (split_match_in Hv; try discriminate). bprop. unfold runIdentityEntryBytes in *.
  split; simpl; try done; try lia; try (intros *; by rewrite lookup_empty).
  - rewrite map_size_empty. lia.
Qed.

(** ** Stale generations *)

(** [token] was issued and names no record. *)
Definition spent (token : Z) (l : runIdentityLedger) : Prop :=
  token <= il_nextToken l /\ forall runID r, il_records l !! runID = Some r -> rir_token r <> token.

Lemma spent_step token l op :
  identity_inv l -> op_ok op -> spent token l -> spent token (fst (identity_step l op)).
Proof.
  intros Hi Hok [Hle Hno]. destruct (identity_step l op) as [l' issued] eqn:Es.
  destruct (identity_step_inv _ _ _ _ Hi Hok Es) as (Hi' & Hn & Ht). simpl. split; [lia|].
  destruct op as [runID kind|runID t from to|runID t|runID t]; simpl in Es.
  - destruct (identity_reserve l runID kind) as [l1 r] eqn:Er.
    assert (l' = l1) as -> by (destruct r; congruence). clear Es.
    intros k x Hx. unfold identity_reserve in Er.
    repeat (split_match_in Er; try (injection Er as <- <-; eauto; fail)). injection Er as <- <-.
    simpl in Hx. apply lookup_insert_Some in Hx as [[<- <-]|[_ Hx]]; [|eauto]. simpl.
    bprop. pose proof (ii_next _ Hi). rewrite u64_id by (unfold uint64_ok; lia). lia.
  - injection Es as <- <-. unfold identity_transition. intros k x Hx.
    destruct (il_records l !! runID) as [r|] eqn:Er; [|eauto].
    repeat (split_match_in Hx; [by eapply Hno|]). destruct (leave_state l from) as [[a b] d].
    simpl in Hx. apply lookup_insert_Some in Hx as [[<- <-]|[_ Hx]]; [simpl|]; eauto.
  - injection Es as <- <-. unfold identity_abort, identity_remove. intros k x Hx.
    destruct (il_records l !! runID) as [r|] eqn:Er; [|eauto].
    split_match_in Hx; [by eapply Hno|]. simpl in Hx.
    apply lookup_delete_Some in Hx as [_ Hx]. eauto.
  - injection Es as <- <-. unfold identity_retire, identity_remove. intros k x Hx.
    destruct (il_records l !! runID) as [r|] eqn:Er; [|eauto].
    split_match_in Hx; [by eapply Hno|]. simpl in Hx.
    apply lookup_delete_Some in Hx as [_ Hx]. eauto.
Qed.

Lemma spent_run token ops l :
  identity_inv l -> Forall op_ok ops -> spent token l -> spent token (fst (identity_run l ops)).
Proof.
  revert l. induction ops as [|op ops IH]; simpl; intros l Hi Hok Hs; [done|].
  inversion Hok as [|? ? Ho Hos]; subst. pose proof (spent_step token l op Hi Ho Hs) as Hs1.
  destruct (identity_step l op) as [l1 t] eqn:Es.
  destruct (identity_step_inv _ _ _ _ Hi Ho Es) as (Hi1 & _). specialize (IH l1 Hi1 Hos Hs1).
  by destruct (identity_run l1 ops).
Qed.

Lemma spent_fails token l runID from to :
  spent token l ->
  identity_transition l runID token from to = (l, Some ErrRunIdentityState)
  /\ identity_abort l runID token = (l, Some ErrRunIdentityState)
  /\ identity_retire l runID token = (l, Some ErrRunIdentityState).
Proof.
  intros [_ Hno]. unfold identity_transition, identity_abort, identity_retire, identity_remove.
  destruct (il_records l !! runID) as [r|] eqn:Er; [|done]. apply Hno in Er.
  rewrite (proj2 (Z.eqb_neq _ _)) by done. done.
Qed.

(** ** Properties *)

(** The identity ledger is exact: after any sequence of reservations,
    transitions, aborts and retirements its three counters are the numbers of
    records in each state (no 32-bit wrap-around ever happens), the charged
    bytes are 128 plus the ID length per record, both limits hold, and no
    token is ever issued twice. *)
Theorem identity_ledger_exact limits ops l issued :
  RunIdentityLimits_Validate limits = None -> Forall op_ok ops ->
  identity_run (newRunIdentityLedger limits) ops = (l, issued) ->
  il_reserved l = count_state runIdentityReserved l
  /\ il_active l = count_state runIdentityActive l
  /\ il_tombstones l = count_state runIdentityTombstone l
  /\ Entries (identity_stats l) = Z.of_nat (size (il_records l))
  /\ il_bytes l = msum rir_charge (il_records l)
  /\ (forall runID r, il_records l !! runID = Some r -> rir_charge r = 128 + slen runID)
  /\ Z.of_nat (size (il_records l)) <= ril_entries (il_limits l)
  /\ il_bytes l <= ril_bytes (il_limits l)
  /\ NoDup issued.
Proof.
  intros Hv Hok Hr. destruct (identity_run_inv _ _ _ _ (new_ledger_inv _ Hv) Hok Hr) as (Hi & _ & _ & Hnd).
  split; [apply Hi|]. split; [apply Hi|]. split; [apply Hi|]. split; [by apply entries_exact|].
  split; [apply Hi|]. split; [intros runID r Hx; apply (ii_charge _ Hi runID r Hx)|].
  split; [apply Hi|]. split; [apply Hi|done].
Qed.

Definition sample_identity_ops : list identity_op :=
  [IReserve "run-1" preparedStartKind; IReserve "run-2" preparedStartKind;
   ITransition "run-1" 1 runIdentityReserved runIdentityActive;
   ITransition "run-1" 1 runIdentityActive runIdentityTombstone;
   IRetire "run-1" 1; IReserve "run-1" preparedResumeKind; IAbort "run-2" 7].

Lemma identity_ledger_exact_witness :
  let '(l, issued) := identity_run (newRunIdentityLedger DefaultRunIdentityLimits) sample_identity_ops in
  issued = [1; 2; 3] /\ il_reserved l = count_state runIdentityReserved l /\ il_reserved l = 2.
Proof.
  destruct (identity_run (newRunIdentityLedger DefaultRunIdentityLimits) sample_identity_ops)
    as [l issued] eqn:Er.
  assert (Forall op_ok sample_identity_ops) as Hok.
  { unfold sample_identity_ops. repeat constructor; vm_compute; discriminate. }
  pose proof (identity_ledger_exact DefaultRunIdentityLimits sample_identity_ops l issued eq_refl Hok Er)
    as (Hres & _).
  split; [vm_compute in Er; congruence|]. split; [exact Hres|].
  vm_compute in Er. injection Er as <- _. reflexivity.
Defined.

(** A generation's token fails closed once it is spent: after a tombstone
    was retired with its token, and after any further operations, that token
    neither transitions, aborts nor retires anything, whatever run ID it is
    presented with, even when the same run ID has been reserved again. *)
Theorem spent_token_fails_closed l runID token l1 ops l2 issued :
  identity_inv l -> identity_retire l runID token = (l1, None) -> Forall op_ok ops ->
  identity_run l1 ops = (l2, issued) ->
  forall runID' from to,
    identity_transition l2 runID' token from to = (l2, Some ErrRunIdentityState)
    /\ identity_abort l2 runID' token = (l2, Some ErrRunIdentityState)
    /\ identity_retire l2 runID' token = (l2, Some ErrRunIdentityState).
Proof.
  intros Hi Hret Hok Hrun runID' from to. apply spent_fails.
  destruct (remove_inv _ _ _ _ _ _ Hi Hret) as [Hi1 Hn].
  assert (spent token l1) as Hs.
  { unfold identity_retire, identity_remove in Hret.
    destruct (il_records l !! runID) as [r|] eqn:Er; [|done]. split_match_in Hret; [done|]. bprop.
    destruct (leave_state l runIdentityTombstone) as [[a b] d]. injection Hret as <-.
    destruct (ii_charge _ Hi runID r Er) as [_ Ht]. split; [simpl; lia|]. simpl.
    intros k x Hx Heq. apply lookup_delete_Some in Hx as [Hne Hx]. apply Hne.
    apply (ii_tokens _ Hi runID k r x); congruence. }
  pose proof (spent_run token ops l1 Hi1 Hok Hs) as Hs2. by rewrite Hrun in Hs2.
Qed.

Lemma spent_token_fails_closed_witness :
  let l := fst (identity_run (newRunIdentityLedger DefaultRunIdentityLimits)
    [IReserve "run-1" preparedStartKind; ITransition "run-1" 1 runIdentityReserved runIdentityTombstone]) in
  let l2 := fst (identity_run l [IRetire "run-1" 1; IReserve "run-1" preparedResumeKind]) in
  identity_retire l2 "run-1" 1 = (l2, Some ErrRunIdentityState).
Proof.
  intros l l2.
  pose (l1 := fst (identity_retire l "run-1" 1)).
  refine (proj2 (proj2 (spent_token_fails_closed l "run-1" 1 l1 [IReserve "run-1" preparedResumeKind]
    l2 [2] _ _ _ _ "run-1" runIdentityReserved runIdentityActive))).
  - refine (proj1 (identity_run_inv _ _ _ _ (new_ledger_inv DefaultRunIdentityLimits eq_refl) _
      (surjective_pairing _))).
    repeat constructor; vm_compute; discriminate.
  - vm_compute. reflexivity.
  - repeat constructor; vm_compute; discriminate.
  - vm_compute. reflexivity.
Defined.
