(* ===== verification/Tool.v ===== *)
(** Tool values (src/tool/tool.go): definitions, calls, results, progress and
    execution errors, as the validating constructors build them.  The Go string
    types ([Effect], [Capability], ...) stay strings, so that corrupted values
    exist and [Validate] has something to reject.  SHA-256 is a parameter of
    [Fingerprint]; what is hashed is modelled byte for byte. *)
From Stdlib Require Import ZArith Lia Ascii Sorting.Permutation.
From stdpp Require Import base gmap sets list strings sorting.
From S2P Require Import Prelude GoText GoOrder GoJson.
Open Scope Z_scope.

Definition maxMessageBytes : Z := 4096.
Definition maxIdentityBytes : Z := 128.
Definition MaximumToolPayloadBytes : Z := 1048576.
Definition MaximumExecutionErrorBytes : Z := 4096.

Definition Capability := string.
Definition CapabilityFilesystemRead : Capability := "filesystem.read".
Definition CapabilityFilesystemWrite : Capability := "filesystem.write".
Definition CapabilityProcessExecute : Capability := "process.execute".
Definition CapabilityNetworkAccess : Capability := "network.access".
Definition CapabilitySecretsRead : Capability := "secrets.read".
Definition CapabilityEnvironmentRead : Capability := "environment.read".
Definition CapabilityEnvironmentWrite : Capability := "environment.write".
Definition Effect := string.
Definition EffectReadOnly : Effect := "read_only".
Definition EffectMutating : Effect := "mutating".
Definition ReplaySafety := string.
Definition ReplaySafe : ReplaySafety := "safe".
Definition ReplayIdempotent : ReplaySafety := "idempotent".
Definition ReplayUnsafe : ReplaySafety := "unsafe".

Inductive ToolError :=
| ErrIdentity (label : string)
| ErrDescription
| ErrDescriptionBytes
| ErrJSON (label : string)
| ErrJSONBytes (label : string)
| ErrEffect
| ErrReplaySafety
| ErrReadOnlyReplay
| ErrMutatingReplay
| ErrCapability (capability : string)
| ErrCapabilityDuplicate (capability : string)
| ErrReadOnlyCapability (capability : string)
| ErrProblem
| ErrProblemBytes
| ErrProgress
| ErrProgressBytes
| ErrExecutionState
| ErrRetry
| ErrUncertainRetry
| ErrNoCause
| ErrCause
| ErrCauseBytes
| ErrNestedExecution.

Definition validEffect (e : Effect) : bool := elem_str e [EffectReadOnly; EffectMutating].
Definition validReplaySafety (r : ReplaySafety) : bool :=
  elem_str r [ReplaySafe; ReplayIdempotent; ReplayUnsafe].
Definition mutationCapable (c : Capability) : bool :=
  elem_str c [CapabilityFilesystemWrite; CapabilityProcessExecute; CapabilityNetworkAccess;
              CapabilityEnvironmentWrite].
Definition validCapability (c : Capability) : bool :=
  elem_str c [CapabilityFilesystemRead; CapabilityFilesystemWrite; CapabilityProcessExecute;
              CapabilityNetworkAccess; CapabilitySecretsRead; CapabilityEnvironmentRead;
              CapabilityEnvironmentWrite].

Definition validateIdentity (label value : string) : option ToolError :=
  if negb (trimmed_nonempty value) then Some (ErrIdentity label)
  else if negb (utf8_valid value) || contains_any value [0; 13; 10; 9] then Some (ErrIdentity label)
  else if slen value >? maxIdentityBytes then Some (ErrIdentity label)
  else None.

Definition validateJSON (label value : string) : option ToolError :=
  if (slen value =? 0) || negb (utf8_valid value) || negb (json_valid value) then Some (ErrJSON label)
  else if slen value >? MaximumToolPayloadBytes then Some (ErrJSONBytes label)
  else None.

(** ** Definitions *)


Record Definition_ := mkDefinition {
  td_name : string;
  td_description : string;
  td_inputSchema : string;
  td_effect : Effect;
  td_replaySafety : ReplaySafety;
  td_capabilities : list Capability
}.

(** The capability loop of [NewDefinition]; [seen] is its map. *)
Fixpoint check_capabilities (effect : Effect) (seen caps : list Capability) : option ToolError :=
  match caps with
  | [] => None
  | c :: caps =>
      if negb (validCapability c) then Some (ErrCapability c)
      else if elem_str c seen then Some (ErrCapabilityDuplicate c)
      else if String.eqb effect EffectReadOnly && mutationCapable c then Some (ErrReadOnlyCapability c)
      else check_capabilities effect (c :: seen) caps
  end.

Definition NewDefinition (name description inputSchema : string) (effect : Effect)
  (replaySafety : ReplaySafety) (capabilities : list Capability) : result ToolError Definition_ :=
  match validateIdentity "tool name" name with
  | Some e => Err e
  | None =>
    if negb (trimmed_nonempty description) then Err ErrDescription
    else if slen description >? maxMessageBytes then Err ErrDescriptionBytes
    else match validateJSON "tool input schema" inputSchema with
    | Some e => Err e
    | None =>
      if negb (validEffect effect) then Err ErrEffect
      else if negb (validReplaySafety replaySafety) then Err ErrReplaySafety
      else if String.eqb effect EffectReadOnly && negb (String.eqb replaySafety ReplaySafe)
      then Err ErrReadOnlyReplay
      else if String.eqb effect EffectMutating && String.eqb replaySafety ReplaySafe
      then Err ErrMutatingReplay
      else match check_capabilities effect [] capabilities with
      | Some e => Err e
      | None => Ok (mkDefinition name description inputSchema effect replaySafety
                      (sort_strings capabilities))
      end
    end
  end.

Definition Definition_Validate (d : Definition_) : option ToolError :=
  match NewDefinition (td_name d) (td_description d) (td_inputSchema d) (td_effect d)
          (td_replaySafety d) (td_capabilities d) with
  | Ok _ => None
  | Err e => Some e
  end.

Definition Definition_SizeBytes (d : Definition_) : Z :=
  slen (td_name d) + slen (td_description d) + slen (td_inputSchema d) + slen (td_effect d)
  + slen (td_replaySafety d) + sumZ slen (td_capabilities d).

(** ** Fingerprints *)

(** Eight bytes, most significant first. *)
Fixpoint big_endian (n : nat) (value : Z) : list Z :=
  match n with
  | O => []
  | S n => Z.shiftr value (8 * Z.of_nat n) mod 256 :: big_endian n value
  end.

Definition fingerprint_field (value : string) : list Z :=
  big_endian 8 (u64 (slen value)) ++ byte_codes value.

Definition fingerprint_fields (d : Definition_) : list string :=
  [td_name d; td_description d; td_inputSchema d; td_effect d; td_replaySafety d]
  ++ sort_strings (td_capabilities d).

(** The bytes [Fingerprint] writes into the hash. *)
Definition fingerprint_preimage (d : Definition_) : list Z :=
  concat (map fingerprint_field (fingerprint_fields d)).

Definition Fingerprint (sha256_hex : list Z -> string) (d : Definition_) : string :=
  sha256_hex (fingerprint_preimage d).

(** ** Calls, results, progress *)

Record Call := mkToolCall { tc_id : string; tc_name : string; tc_arguments : string }.

Definition NewCall (id name arguments : string) : result ToolError Call :=
  match validateIdentity "tool call ID" id with
  | Some e => Err e
  | None =>
    match validateIdentity "tool name" name with
    | Some e => Err e
    | None =>
      match validateJSON "tool arguments" arguments with
      | Some e => Err e
      | None => Ok (mkToolCall id name arguments)
      end
    end
  end.

Definition Call_Validate (c : Call) : option ToolError :=
  match NewCall (tc_id c) (tc_name c) (tc_arguments c) with Ok _ => None | Err e => Some e end.

(** [tr_content] is [None] for a nil slice. *)
Record Result := mkToolResult { tr_callID : string; tr_content : option string; tr_problem : string }.

Definition newResult (callID : string) (content : option string) (problem : string)
  : result ToolError Result :=
  match validateIdentity "tool result call ID" callID with
  | Some e => Err e
  | None =>
    match validateJSON "tool result content" (default ""%string content) with
    | Some e => Err e
    | None => Ok (mkToolResult callID content problem)
    end
  end.

Definition NewResult (callID : string) (content : option string) : result ToolError Result :=
  newResult callID content "".

Definition NewErrorResult (callID : string) (content : option string) (problem : string)
  : result ToolError Result :=
  if negb (trimmed_nonempty problem) then Err ErrProblem
  else if slen problem >? maxMessageBytes then Err ErrProblemBytes
  else newResult callID content problem.

Definition Result_Validate (r : Result) : option ToolError :=
  match (if String.eqb (tr_problem r) "" then NewResult (tr_callID r) (tr_content r)
         else NewErrorResult (tr_callID r) (tr_content r) (tr_problem r)) with
  | Ok _ => None
  | Err e => Some e
  end.

Definition Result_IsZero (r : Result) : bool :=
  String.eqb (tr_callID r) "" && bool_decide (tr_content r = None) && String.eqb (tr_problem r) "".

Record Progress := mkProgress { tp_callID : string; tp_message : string }.

Definition NewProgress (callID message : string) : result ToolError Progress :=
  match validateIdentity "tool progress call ID" callID with
  | Some e => Err e
  | None =>
    if negb (trimmed_nonempty message) then Err ErrProgress
    else if slen message >? maxMessageBytes then Err ErrProgressBytes
    else Ok (mkProgress callID message)
  end.

Definition Progress_Validate (p : Progress) : option ToolError :=
  match NewProgress (tp_callID p) (tp_message p) with Ok _ => None | Err e => Some e end.

(** ** Execution errors *)

Definition ExecutionDefinitive : string := "definitive".
Definition ExecutionUncertain : string := "uncertain".
Definition RetryNever : string := "never".
Definition RetryAllowed : string := "allowed".

(** The cause of an execution error, as far as [Validate] looks at it: its
    text, and whether its chain holds another execution error. *)
Record Cause := mkCause { cs_message : string; cs_nested : bool }.

Record ExecutionError := mkExecutionError {
  ee_callID : string;
  ee_state : string;
  ee_retry : string;
  ee_cause : option Cause
}.

Definition ExecutionError_Validate (f : ExecutionError) : option ToolError :=
  match validateIdentity "tool execution call ID" (ee_callID f) with
  | Some e => Some e
  | None =>
    if negb (elem_str (ee_state f) [ExecutionDefinitive; ExecutionUncertain]) then Some ErrExecutionState
    else if negb (elem_str (ee_retry f) [RetryNever; RetryAllowed]) then Some ErrRetry
    else if String.eqb (ee_state f) ExecutionUncertain && negb (String.eqb (ee_retry f) RetryNever)
    then Some ErrUncertainRetry
    else match ee_cause f with
    | None => Some ErrNoCause
    | Some cause =>
        if negb (trimmed_nonempty (cs_message cause)) then Some ErrCause
        else if slen (cs_message cause) >? MaximumExecutionErrorBytes then Some ErrCauseBytes
        else if cs_nested cause then Some ErrNestedExecution
        else None
    end
  end.

Definition NewExecutionError (callID state retry : string) (cause : option Cause)
  : result ToolError ExecutionError :=
  let f := mkExecutionError callID state retry cause in
  match ExecutionError_Validate f with Some e => Err e | None => Ok f end.

(** ** Capabilities *)

Lemma check_capabilities_spec effect seen caps :
  check_capabilities effect seen caps = None <->
  NoDup caps /\ (forall c, c ∈ caps -> c ∉ seen) /\ Forall (fun c => validCapability c = true) caps
  /\ (effect = EffectReadOnly -> Forall (fun c => mutationCapable c = false) caps).
Proof.
  revert seen. induction caps as [|c caps IH]; intros seen; simpl.
  { split; [|done]. intros _. split; [constructor|]. split; [by intros ? ?%elem_of_nil|]. split; constructor. }
  rewrite NoDup_cons, !Forall_cons.
  destruct (validCapability c) eqn:Ev; simpl; [|naive_solver].
  destruct (elem_str c seen) eqn:Es.
  { apply elem_str_spec in Es. split; [done|]. intros (_ & H & _). exfalso. apply (H c); [set_solver|done]. }
  assert (c ∉ seen) as Hc by (intros H; apply elem_str_spec in H; congruence).
  destruct (String.eqb effect EffectReadOnly) eqn:Ee; simpl.
  - apply String.eqb_eq in Ee as ->. destruct (mutationCapable c) eqn:Em.
    { split; [done|]. intros (_ & _ & _ & H). by destruct (H eq_refl). }
    rewrite IH. split.
    + intros (H1 & H2 & H3 & H4). split; [split; [|done]|].
      * intros Hin. apply (H2 c Hin). set_solver.
      * split; [set_solver|]. split; [done|]. intros _. constructor; auto.
    + intros ((H1 & H2) & H3 & H4 & H5). split; [done|]. split; [set_solver|]. split; [apply H4|].
      intros _. apply (H5 eq_refl).
  - rewrite IH. apply String.eqb_neq in Ee. split.
    + intros (H1 & H2 & H3 & H4). split; [split; [|done]|].
      * intros Hin. apply (H2 c Hin). set_solver.
      * split; [set_solver|]. split; [done|]. done.
    + intros ((H1 & H2) & H3 & H4 & H5). split; [done|]. split; [set_solver|]. split; [apply H4|done].
Qed.

(** ** Definitions *)

(** When [NewDefinition] accepts, on the data it keeps. *)
Definition definition_ok (d : Definition_) : Prop :=
  validateIdentity "tool name" (td_name d) = None
  /\ trimmed_nonempty (td_description d) = true /\ slen (td_description d) <= maxMessageBytes
  /\ validateJSON "tool input schema" (td_inputSchema d) = None
  /\ ((td_effect d = EffectReadOnly /\ td_replaySafety d = ReplaySafe)
      \/ (td_effect d = EffectMutating /\ td_replaySafety d ∈ [ReplayIdempotent; ReplayUnsafe]))
  /\ NoDup (td_capabilities d)
  /\ Forall (fun c => validCapability c = true) (td_capabilities d)
  /\ (td_effect d = EffectReadOnly -> Forall (fun c => mutationCapable c = false) (td_capabilities d)).

Lemma effect_replay_ok effect replay :
  validEffect effect = true /\ validReplaySafety replay = true
  /\ (String.eqb effect EffectReadOnly && negb (String.eqb replay ReplaySafe)) = false
  /\ (String.eqb effect EffectMutating && String.eqb replay ReplaySafe) = false
  <-> (effect = EffectReadOnly /\ replay = ReplaySafe)
      \/ (effect = EffectMutating /\ replay ∈ [ReplayIdempotent; ReplayUnsafe]).
Proof.
  unfold validEffect, validReplaySafety. rewrite !elem_str_spec. split.
  - intros (He & Hr & H1 & H2). rewrite !elem_of_cons in *.
    destruct He as [->|[->|He]]; [left|right|by apply elem_of_nil in He]; (split; [done|]).
    + simpl in H1. bprop. by apply String.eqb_eq.
    + simpl in H2. apply String.eqb_neq in H2. naive_solver.
  - intros [[-> ->]|[-> Hr]]; [repeat split; try done; set_solver|].
    split; [set_solver|]. rewrite !elem_of_cons in Hr.
    destruct Hr as [->|[->|Hr]]; [repeat split; set_solver..|by apply elem_of_nil in Hr].
Qed.

Lemma NewDefinition_Ok name desc schema effect replay caps d :
  NewDefinition name desc schema effect replay caps = Ok d <->
  definition_ok (mkDefinition name desc schema effect replay caps)
  /\ d = mkDefinition name desc schema effect replay (sort_strings caps).
Proof.
  unfold NewDefinition, definition_ok; simpl. rewrite <- effect_replay_ok.
  pose proof (check_capabilities_spec effect [] caps) as Hc.
  destruct (validateIdentity _ _); [naive_solver|].
  destruct (trimmed_nonempty desc); simpl; [|naive_solver].
  destruct (slen desc >? maxMessageBytes) eqn:E; bprop; [split; [done|]; intros ((_ & _ & ? & _) & _); lia|].
  destruct (validateJSON _ _); [naive_solver|].
  destruct (validEffect effect); simpl; [|naive_solver].
  destruct (validReplaySafety replay); simpl; [|naive_solver].
  destruct (_ && negb _); [naive_solver|]. destruct (_ && _); [naive_solver|].
  destruct (check_capabilities effect [] caps) eqn:Ec.
  - split; [done|]. intros ((_ & _ & _ & _ & _ & H1 & H2 & H3) & _). exfalso.
    assert (Some t = None) by (apply Hc; split; [done|]; split; [by intros ? _ ?%elem_of_nil|]; done). done.
  - destruct Hc as [Hc _]. destruct (Hc eq_refl) as (H1 & _ & H3 & H4). split.
    + intros [= <-]. split; [|done]. repeat (split; [done|lia || done]).
    + intros [_ ->]. done.
Qed.

Lemma definition_ok_perm name desc schema effect replay caps caps' :
  caps ≡ₚ caps' -> definition_ok (mkDefinition name desc schema effect replay caps) ->
  definition_ok (mkDefinition name desc schema effect replay caps').
Proof.
  intros Hp. unfold definition_ok; simpl. intros (H1 & H2 & H3 & H4 & H5 & H6 & H7 & H8).
  repeat (split; [done|]). by rewrite <- Hp.
Qed.

Lemma definition_fixpoint name desc schema effect replay caps d :
  NewDefinition name desc schema effect replay caps = Ok d ->
  NewDefinition (td_name d) (td_description d) (td_inputSchema d) (td_effect d) (td_replaySafety d)
    (td_capabilities d) = Ok d.
Proof.
  intros H. apply NewDefinition_Ok in H as [Hok ->]. simpl. apply NewDefinition_Ok. split.
  - eapply definition_ok_perm; [|exact Hok]. symmetry. apply sort_strings_perm.
  - by rewrite sort_strings_idem.
Qed.

(** ** Length-prefixed fields *)

Definition decode_bytes (l : list Z) : Z := foldl (fun acc b => acc * 256 + b) 0 l.

Lemma big_endian_length n v : length (big_endian n v) = n.
Proof. induction n as [|n IH]; simpl; auto. Qed.

Lemma decode_big_endian_acc n v acc :
  0 <= v -> foldl (fun acc b => acc * 256 + b) acc (big_endian n v) = acc * 2 ^ (8 * Z.of_nat n)
                                                                    + v mod 2 ^ (8 * Z.of_nat n).
Proof.
  intros Hv. revert acc. induction n as [|n IH]; intros acc.
  { simpl. rewrite Z.mod_1_r. lia. }
  cbn [big_endian foldl]. rewrite IH. set (k := 8 * Z.of_nat n).
  replace (8 * Z.of_nat (S n)) with (8 + k) by lia.
  rewrite Z.pow_add_r by lia. change (2 ^ 8) with 256.
  rewrite Z.shiftr_div_pow2 by lia. assert (0 < 2 ^ k) as Hk by (apply Z.pow_pos_nonneg; lia).
  rewrite (Z.mul_comm 256 (2 ^ k)), Z.rem_mul_r by lia. lia.
Qed.

Lemma big_endian_inj v v' :
  0 <= v < two64 -> 0 <= v' < two64 -> big_endian 8 v = big_endian 8 v' -> v = v'.
Proof.
  intros Hv Hv' H. apply (f_equal decode_bytes) in H. unfold decode_bytes in H.
  rewrite !decode_big_endian_acc in H by lia. change (2 ^ (8 * Z.of_nat 8)) with two64 in H.
  rewrite !Z.mod_small in H by lia. lia.
Qed.

Lemma list_ascii_inj s s' :
  String.list_ascii_of_string s = String.list_ascii_of_string s' -> s = s'.
Proof.
  intros H. rewrite <- (String.string_of_list_ascii_of_string s), H.
  apply String.string_of_list_ascii_of_string.
Qed.

Lemma byte_codes_inj s s' : byte_codes s = byte_codes s' -> s = s'.
Proof.
  unfold byte_codes. intros H. apply list_ascii_inj. revert H.
  generalize (String.list_ascii_of_string s'). generalize (String.list_ascii_of_string s).
  intros l. induction l as [|a l IH]; intros [|b l'] H; simpl in *; try done.
  injection H as Ha Hl. f_equal; [|by apply IH].
  apply N2Z.inj, (f_equal ascii_of_N) in Ha. by rewrite !ascii_N_embedding in Ha.
Qed.

Lemma byte_codes_length s : Z.of_nat (length (byte_codes s)) = slen s.
Proof.
  unfold byte_codes, slen. rewrite length_map. f_equal.
  induction s as [|c s IH]; simpl; [done|]. by rewrite IH.
Qed.

Lemma field_length s : (8 <= length (fingerprint_field s))%nat.
Proof. unfold fingerprint_field. rewrite length_app, big_endian_length. lia. Qed.

(** A sequence of length-prefixed fields determines the fields. *)
Lemma fields_inj l l' :
  Forall (fun s => slen s < two64) l -> Forall (fun s => slen s < two64) l' ->
  concat (map fingerprint_field l) = concat (map fingerprint_field l') -> l = l'.
Proof.
  intros Hl. revert l'. induction Hl as [|x l Hx Hl IH]; intros l' Hl' H.
  { destruct l' as [|y l']; [done|]. exfalso. apply (f_equal length) in H. cbn [map concat] in H.
    rewrite length_app in H. pose proof (field_length y). change (length []) with 0%nat in H. lia. }
  destruct Hl' as [|y l' Hy Hl'].
  { exfalso. apply (f_equal length) in H. cbn [map concat] in H.
    rewrite length_app in H. pose proof (field_length x). change (length []) with 0%nat in H. lia. }
  cbn [map concat] in H. unfold fingerprint_field at 1 3 in H. rewrite <- !app_assoc in H.
  apply app_inj_1 in H as [Hlen H]; [|by rewrite !big_endian_length].
  pose proof (slen_nonneg x). pose proof (slen_nonneg y).
  rewrite !u64_id in Hlen by (unfold uint64_ok, maxUint64, two64 in *; lia).
  apply big_endian_inj in Hlen; [|lia..].
  apply app_inj_1 in H as [Hc H].
  2:{ pose proof (byte_codes_length x). pose proof (byte_codes_length y). lia. }
  f_equal; [by apply byte_codes_inj|by apply IH].
Qed.

(** ** Properties *)

(** Definitions are canonical: what [NewDefinition] returns validates and
    rebuilds to itself, its capabilities are sorted and free of duplicates, and
    the order in which capabilities were listed does not matter. *)
Theorem definition_canonical name desc schema effect replay caps d :
  NewDefinition name desc schema effect replay caps = Ok d ->
  Definition_Validate d = None
  /\ NewDefinition (td_name d) (td_description d) (td_inputSchema d) (td_effect d)
       (td_replaySafety d) (td_capabilities d) = Ok d
  /\ StronglySorted string_le (td_capabilities d) /\ NoDup (td_capabilities d)
  /\ (forall caps', caps' ≡ₚ caps -> NewDefinition name desc schema effect replay caps' = Ok d).
Proof.
  intros H. pose proof (definition_fixpoint _ _ _ _ _ _ _ H) as Hf.
  split; [unfold Definition_Validate; by rewrite Hf|]. split; [done|].
  apply NewDefinition_Ok in H as [Hok ->]. simpl. split; [apply sort_strings_sorted|]. split.
  - rewrite sort_strings_perm. apply Hok.
  - intros caps' Hp. apply NewDefinition_Ok. split.
    + eapply definition_ok_perm; [|exact Hok]. by symmetry.
    + f_equal. by apply sort_strings_unique.
Qed.

Lemma definition_canonical_witness :
  exists d, NewDefinition "write" "Writes." "{}" EffectMutating ReplayUnsafe
              [CapabilityProcessExecute; CapabilityFilesystemWrite] = Ok d
    /\ Definition_Validate d = None
    /\ td_capabilities d = [CapabilityFilesystemWrite; CapabilityProcessExecute].
Proof.
  eexists. split; [vm_compute; reflexivity|]. split; [|vm_compute; reflexivity].
  exact (proj1 (definition_canonical "write" "Writes." "{}" EffectMutating ReplayUnsafe
    [CapabilityProcessExecute; CapabilityFilesystemWrite] _ eq_refl)).
Defined.

Lemma capability_total_bytes caps :
  NoDup caps -> Forall (fun c => validCapability c = true) caps -> sumZ slen caps <= 7 * 17.
Proof.
  intros Hn Hv.
  set (all := [CapabilityFilesystemRead; CapabilityFilesystemWrite; CapabilityProcessExecute;
               CapabilityNetworkAccess; CapabilitySecretsRead; CapabilityEnvironmentRead;
               CapabilityEnvironmentWrite]).
  assert (forall c, validCapability c = true -> c ∈ all) as Hin by (intros c; apply elem_str_spec).
  assert (length caps <= 7)%nat as Hlen.
  { apply (NoDup_incl_length (l' := all)); [by apply NoDup_ListNoDup|]. intros c Hc.
    apply list_elem_of_In, Hin. rewrite Forall_forall in Hv. by apply Hv, list_elem_of_In. }
  assert (sumZ slen caps <= lenZ caps * 17) as Hs; [|unfold lenZ in Hs; lia]. clear Hn Hlen.
  induction Hv as [|c caps Hc Hv IH]; [done|]. rewrite sumZ_cons, lenZ_cons.
  assert (slen c <= 17); [|lia]. apply Hin in Hc. unfold all in Hc. rewrite !elem_of_cons in Hc.
  destruct Hc as [->|[->|[->|[->|[->|[->|[->|Hc]]]]]]]; try (vm_compute; discriminate).
  by apply elem_of_nil in Hc.
Qed.

Lemma definition_size_bound name desc schema effect replay caps d :
  NewDefinition name desc schema effect replay caps = Ok d ->
  0 < Definition_SizeBytes d <= 128 + 4096 + 1048576 + 9 + 10 + 7 * 17.
Proof.
  intros H. apply NewDefinition_Ok in H as [(H1 & H2 & H3 & H4 & H5 & H6 & H7 & H8) ->]; simpl in *.
  unfold Definition_SizeBytes; simpl. rewrite (sumZ_Permutation _ _ _ (sort_strings_perm caps)).
  pose proof (capability_total_bytes caps H6 H7).
  assert (0 <= sumZ slen caps).
  { apply sumZ_nonneg. apply Forall_forall. intros. apply slen_nonneg. }
  assert (slen effect <= 9 /\ slen replay <= 10) as [? ?].
  { destruct H5 as [[-> ->]|[-> Hr]]; [split; vm_compute; discriminate|].
    split; [vm_compute; discriminate|]. rewrite !elem_of_cons in Hr.
    destruct Hr as [->|[->|Hr]]; [vm_compute; discriminate..|by apply elem_of_nil in Hr]. }
  unfold validateIdentity in H1. repeat (split_match_in H1; try discriminate). bprop.
  unfold validateJSON in H4. repeat (split_match_in H4; try discriminate). bprop.
  pose proof (slen_nonneg name). pose proof (slen_nonneg desc). pose proof (slen_nonneg schema).
  pose proof (slen_nonneg effect). pose proof (slen_nonneg replay).
  unfold maxIdentityBytes, MaximumToolPayloadBytes, maxMessageBytes in *. lia.
Qed.

(** The security metadata of an accepted definition is consistent and its
    size bounded: a read-only tool is replay-safe and declares no
    mutation-capable capability, a mutating tool is idempotent or unsafe to
    replay, and the request-budget size is below a fixed bound. *)
Theorem definition_policy name desc schema effect replay caps d :
  NewDefinition name desc schema effect replay caps = Ok d ->
  ((td_effect d = EffectReadOnly /\ td_replaySafety d = ReplaySafe
    /\ Forall (fun c => mutationCapable c = false) (td_capabilities d))
   \/ (td_effect d = EffectMutating /\ td_replaySafety d ∈ [ReplayIdempotent; ReplayUnsafe]))
  /\ 0 < Definition_SizeBytes d <= 128 + 4096 + 1048576 + 9 + 10 + 7 * 17.
Proof.
  intros H. split; [|by eapply definition_size_bound].
  apply NewDefinition_Ok in H as [(H1 & H2 & H3 & H4 & H5 & H6 & H7 & H8) ->]; simpl in *.
  destruct H5 as [[He Hr]|H5]; [left|by right]. split; [done|]. split; [done|].
  rewrite sort_strings_perm. auto.
Qed.

Lemma definition_policy_witness :
  exists d, NewDefinition "read" "Reads." "{}" EffectReadOnly ReplaySafe [CapabilityFilesystemRead] = Ok d
    /\ 0 < Definition_SizeBytes d.
Proof.
  eexists. split; [vm_compute; reflexivity|].
  exact (proj1 (proj2 (definition_policy "read" "Reads." "{}" EffectReadOnly ReplaySafe
    [CapabilityFilesystemRead] _ eq_refl))).
Defined.

Lemma sumZ_member {A} (f : A -> Z) (l : list A) x :
  (forall y, 0 <= f y) -> x ∈ l -> f x <= sumZ f l.
Proof.
  intros Hf. induction l as [|y l IH]; intros Hx; [by apply elem_of_nil in Hx|].
  rewrite sumZ_cons. assert (0 <= sumZ f l) by (apply sumZ_nonneg, Forall_forall; auto).
  specialize (Hf y). apply elem_of_cons in Hx as [->|Hx]; [lia|]. specialize (IH Hx). lia.
Qed.

Lemma accepted_fields name desc schema effect replay caps d :
  NewDefinition name desc schema effect replay caps = Ok d ->
  Forall (fun x => slen x < two64) (fingerprint_fields d)
  /\ sort_strings (td_capabilities d) = td_capabilities d.
Proof.
  intros H. pose proof (definition_size_bound _ _ _ _ _ _ _ H) as [_ Hs].
  apply NewDefinition_Ok in H as [_ ->]. simpl. split; [|apply sort_strings_idem].
  unfold Definition_SizeBytes in Hs; simpl in Hs. unfold fingerprint_fields; simpl.
  rewrite sort_strings_idem.
  assert (0 <= sumZ slen (sort_strings caps)) by (apply sumZ_nonneg, Forall_forall; intros; apply slen_nonneg).
  pose proof (slen_nonneg name). pose proof (slen_nonneg desc). pose proof (slen_nonneg schema).
  pose proof (slen_nonneg effect). pose proof (slen_nonneg replay). unfold two64.
  repeat (constructor; [lia|]). apply Forall_forall. intros c Hc.
  pose proof (sumZ_member slen _ c slen_nonneg Hc). lia.
Qed.

(** The fingerprint covers the whole contract: the byte sequence
    [Fingerprint] hashes is an unambiguous encoding, so two accepted
    definitions with the same preimage are the same definition (two
    definitions share a fingerprint only through a SHA-256 collision). *)
Theorem fingerprint_preimage_injective n1 s1 i1 e1 r1 c1 d1 n2 s2 i2 e2 r2 c2 d2 :
  NewDefinition n1 s1 i1 e1 r1 c1 = Ok d1 -> NewDefinition n2 s2 i2 e2 r2 c2 = Ok d2 ->
  fingerprint_preimage d1 = fingerprint_preimage d2 -> d1 = d2.
Proof.
  intros H1 H2 Hp.
  destruct (accepted_fields _ _ _ _ _ _ _ H1) as [F1 S1]. destruct (accepted_fields _ _ _ _ _ _ _ H2) as [F2 S2].
  apply fields_inj in Hp; [|done..]. unfold fingerprint_fields in Hp. simpl in Hp.
  injection Hp as E1 E2 E3 E4 E5 E6. rewrite S1, S2 in E6.
  destruct d1, d2; simpl in *; congruence.
Qed.

Lemma fingerprint_preimage_injective_witness :
  exists d1 d2, NewDefinition "read" "Reads." "{}" EffectReadOnly ReplaySafe
        [CapabilitySecretsRead; CapabilityFilesystemRead] = Ok d1
    /\ NewDefinition "read" "Reads." "{}" EffectReadOnly ReplaySafe
        [CapabilityFilesystemRead; CapabilitySecretsRead] = Ok d2 /\ d1 = d2.
Proof.
  destruct (NewDefinition "read" "Reads." "{}" EffectReadOnly ReplaySafe
    [CapabilitySecretsRead; CapabilityFilesystemRead]) as [d1|] eqn:E1; [|vm_compute in E1; discriminate].
  destruct (NewDefinition "read" "Reads." "{}" EffectReadOnly ReplaySafe
    [CapabilityFilesystemRead; CapabilitySecretsRead]) as [d2|] eqn:E2; [|vm_compute in E2; discriminate].
  exists d1, d2. split; [reflexivity|]. split; [reflexivity|].
  apply (fingerprint_preimage_injective _ _ _ _ _ _ d1 _ _ _ _ _ _ d2 E1 E2).
  vm_compute in E1, E2. injection E1 as <-. injection E2 as <-. reflexivity.
Defined.

(** An execution error that validates never permits an automatic retry of
    an uncertain outcome, names one call, and carries a bounded cause with no
    execution error nested inside. *)
Theorem execution_error_safe callID state retry cause f :
  NewExecutionError callID state retry cause = Ok f ->
  f = mkExecutionError callID state retry cause
  /\ (ee_state f = ExecutionUncertain -> ee_retry f = RetryNever)
  /\ (ee_retry f = RetryAllowed -> ee_state f = ExecutionDefinitive)
  /\ validateIdentity "tool execution call ID" (ee_callID f) = None
  /\ exists c, ee_cause f = Some c /\ cs_nested c = false
               /\ 0 < slen (cs_message c) <= MaximumExecutionErrorBytes.
Proof.
  unfold NewExecutionError. set (g := mkExecutionError callID state retry cause). intros H.
  destruct (ExecutionError_Validate g) eqn:Ev; [done|]. injection H as <-. split; [done|].
  unfold ExecutionError_Validate, g in Ev. simpl in *. repeat (split_match_in Ev; try discriminate). bprop.
  split; [|split; [|split; [done|]]].
  - intros ->. simpl in E2. destruct (String.eqb_spec retry RetryNever); [done|discriminate].
  - intros ->. destruct (String.eqb_spec state ExecutionDefinitive); [done|].
    destruct (String.eqb_spec state ExecutionUncertain); simpl in *; discriminate.
  - eexists. split; [done|]. split; [done|].
    match goal with H : trimmed_nonempty ?m = true |- _ =>
      apply trimmed_nonempty_nonempty in H; destruct m eqn:Em; [done|] end.
    unfold slen in *. cbn [String.length] in *. unfold MaximumExecutionErrorBytes in *. lia.
Qed.

Lemma execution_error_safe_witness :
  exists f, NewExecutionError "call-1" ExecutionUncertain RetryNever (Some (mkCause "lost" false)) = Ok f
    /\ (ee_state f = ExecutionUncertain -> ee_retry f = RetryNever).
Proof.
  eexists. split; [vm_compute; reflexivity|].
  exact (proj1 (proj2 (execution_error_safe "call-1" ExecutionUncertain RetryNever
    (Some (mkCause "lost" false)) _ eq_refl))).
Defined.
