(* ===== verification/GoCrypto.v ===== *)
(** Digests and byte encodings of the Go standard library: [crypto/sha256],
    [crypto/hmac] and [encoding/hex], computed as their specifications say
    (FIPS 180-4, RFC 2104, RFC 4648). *)
From Stdlib Require Import ZArith Lia Ascii.
From stdpp Require Import base list strings.
From S2P Require Import Prelude GoText GoOrder Tool.
Open Scope Z_scope.

(** ** SHA-256 *)

Definition two32 : Z := 4294967296.
Definition w32 (x : Z) : Z := x mod two32.
Definition rotr (x n : Z) : Z := Z.lor (Z.shiftr x n) (w32 (Z.shiftl x (32 - n))).
Definition not32 (x : Z) : Z := two32 - 1 - x.

Definition round_constants : list Z :=
  [1116352408; 1899447441; 3049323471; 3921009573; 961987163; 1508970993; 2453635748; 2870763221;
   3624381080; 310598401; 607225278; 1426881987; 1925078388; 2162078206; 2614888103; 3248222580;
   3835390401; 4022224774; 264347078; 604807628; 770255983; 1249150122; 1555081692; 1996064986;
   2554220882; 2821834349; 2952996808; 3210313671; 3336571891; 3584528711; 113926993; 338241895;
   666307205; 773529912; 1294757372; 1396182291; 1695183700; 1986661051; 2177026350; 2456956037;
   2730485921; 2820302411; 3259730800; 3345764771; 3516065817; 3600352804; 4094571909; 275423344;
   430227734; 506948616; 659060556; 883997877; 958139571; 1322822218; 1537002063; 1747873779;
   1955562222; 2024104815; 2227730452; 2361852424; 2428436474; 2756734187; 3204031479; 3329325298].
Definition initial_hash : list Z :=
  [1779033703; 3144134277; 1013904242; 2773480762; 1359893119; 2600822924; 528734635; 1541459225].

Definition word (l : list Z) : Z := foldl (fun acc b => acc * 256 + b) 0 l.
(** Cut into pieces of [n]. *)
Fixpoint chunks (fuel : nat) (n : nat) (l : list Z) : list (list Z) :=
  match fuel, l with
  | S fuel, _ :: _ => take n l :: chunks fuel n (drop n l)
  | _, _ => []
  end.

Definition sha_pad (l : list Z) : list Z :=
  let zeros := (Z.to_nat ((55 - lenZ l) mod 64)) in
  l ++ [128] ++ replicate zeros 0 ++ big_endian 8 (8 * lenZ l).

(** The message schedule, latest word first. *)
Definition next_word (w : list Z) : Z :=
  let at_ i := nth i w 0 in
  let s0 := Z.lxor (Z.lxor (rotr (at_ 14%nat) 7) (rotr (at_ 14%nat) 18)) (Z.shiftr (at_ 14%nat) 3) in
  let s1 := Z.lxor (Z.lxor (rotr (at_ 1%nat) 17) (rotr (at_ 1%nat) 19)) (Z.shiftr (at_ 1%nat) 10) in
  w32 (at_ 15%nat + s0 + at_ 6%nat + s1).
Definition schedule (block : list Z) : list Z :=
  rev (Nat.iter 48 (fun w => next_word w :: w) (rev (map word (chunks 16 4 block)))).

Record sha_state := mkSha { sha_a : Z; sha_b : Z; sha_c : Z; sha_d : Z; sha_e : Z; sha_f : Z; sha_g : Z; sha_h : Z }.

Definition sha_round (s : sha_state) (kw : Z * Z) : sha_state :=
  let 'mkSha a b c d e f g h := s in
  let s1 := Z.lxor (Z.lxor (rotr e 6) (rotr e 11)) (rotr e 25) in
  let ch := Z.lxor (Z.land e f) (Z.land (not32 e) g) in
  let t1 := h + s1 + ch + kw.1 + kw.2 in
  let s0 := Z.lxor (Z.lxor (rotr a 2) (rotr a 13)) (rotr a 22) in
  let maj := Z.lxor (Z.lxor (Z.land a b) (Z.land a c)) (Z.land b c) in
  mkSha (w32 (t1 + s0 + maj)) a b c (w32 (d + t1)) e f g.

Definition sha_words (s : sha_state) : list Z := [sha_a s; sha_b s; sha_c s; sha_d s; sha_e s; sha_f s; sha_g s; sha_h s].
Definition sha_of (l : list Z) : sha_state :=
  mkSha (nth 0 l 0) (nth 1 l 0) (nth 2 l 0) (nth 3 l 0) (nth 4 l 0) (nth 5 l 0) (nth 6 l 0) (nth 7 l 0).

Definition sha_block (s : sha_state) (block : list Z) : sha_state :=
  let s' := foldl sha_round s (zip round_constants (schedule block)) in
  sha_of (zip_with (fun x y => w32 (x + y)) (sha_words s) (sha_words s')).

Definition sha_digest (l : list Z) : list Z :=
  let padded := sha_pad l in
  concat (map (big_endian 4) (sha_words (foldl sha_block (sha_of initial_hash) (chunks (length padded) 64 padded)))).

(** [sha256.Sum256]. *)
Definition sha256 (s : string) : string := of_codes (sha_digest (byte_codes s)).

(** ** HMAC *)

(** [hmac.New(sha256.New, key)], the whole message written, then [Sum(nil)]. *)
Definition hmac_sha256 (key message : string) : string :=
  let k := byte_codes key in
  let k := if lenZ k >? 64 then sha_digest k else k in
  let k := k ++ replicate (64 - length k) 0 in
  of_codes (sha_digest (map (Z.lxor 92) k ++ sha_digest (map (Z.lxor 54) k ++ byte_codes message))).

(** ** Hexadecimal *)

Definition hex_digit (n : Z) : Z := if n <? 10 then 48 + n else 87 + n.
Definition hex_value (c : Z) : option Z :=
  if in_range 48 57 c then Some (c - 48) else if in_range 97 102 c then Some (c - 87)
  else if in_range 65 70 c then Some (c - 55) else None.

Definition hex_codes (l : list Z) : list Z := concat (map (fun b => [hex_digit (b / 16); hex_digit (b mod 16)]) l).
(** [hex.EncodeToString]. *)
Definition hex (s : string) : string := of_codes (hex_codes (byte_codes s)).

Fixpoint unhex_codes (l : list Z) : option (list Z) :=
  match l with
  | [] => Some []
  | [_] => None
  | a :: b :: rest =>
      match hex_value a, hex_value b, unhex_codes rest with
      | Some a, Some b, Some rest => Some (a * 16 + b :: rest)
      | _, _, _ => None
      end
  end.
(** [hex.DecodeString]. *)
Definition unhex (s : string) : option string := of_codes <$> unhex_codes (byte_codes s).

(** Published test vectors: FIPS 180-4, RFC 4231 test case 2. *)
Example sha256_abc : hex (sha256 "abc") = "ba7816bf8f01cfea414140de5dae2223b00361a396177a9cb410ff61f20015ad"%string.
Proof. vm_compute. reflexivity. Qed.
Example sha256_empty : hex (sha256 "") = "e3b0c44298fc1c149afbf4c8996fb92427ae41e4649b934ca495991b7852b855"%string.
Proof. vm_compute. reflexivity. Qed.
Example sha256_two_blocks :
  hex (sha256 "abcdbcdecdefdefgefghfghighijhijkijkljklmklmnlmnomnopnopq") = "248d6a61d20638b8e5c026930c3e6039a33ce45964ff2167f6ecedd419db06c1"%string.
Proof. vm_compute. reflexivity. Qed.
Example hmac_jefe :
  hex (hmac_sha256 "Jefe" "what do ya want for nothing?") = "5bdcc146bf60754e6a042426089575c75a003f089d2739839dec58b964ec3843"%string.
Proof. vm_compute. reflexivity. Qed.

(** ** Lengths and round trips *)

Definition byte_list (l : list Z) : Prop := Forall (fun b => 0 <= b < 256) l.

Lemma byte_codes_of_codes l : byte_list l -> byte_codes (of_codes l) = l.
Proof.
  unfold byte_codes, of_codes. rewrite String.list_ascii_of_string_of_list_ascii. intros H. rewrite map_map. induction H as [|b l Hb _ IH]; [done|].
  cbn [map]. rewrite IH, N_ascii_embedding by lia. f_equal. lia.
Qed.

Lemma byte_codes_bytes s : byte_list (byte_codes s).
Proof.
  unfold byte_codes. apply Forall_forall. intros b Hb. apply list_elem_of_In, in_map_iff in Hb as (c & <- & _).
  pose proof (N_ascii_bounded c). lia.
Qed.

Lemma slen_of_codes l : slen (of_codes l) = lenZ l.
Proof. unfold slen, of_codes, lenZ. f_equal. induction l as [|b l IH]; [done|]. cbn. by rewrite IH. Qed.

Lemma sha_digest_length l : lenZ (sha_digest l) = 32.
Proof.
  unfold sha_digest. generalize (foldl sha_block (sha_of initial_hash) (chunks (length (sha_pad l)) 64 (sha_pad l))). intros s.
  unfold sha_words. cbn [map concat]. rewrite !lenZ_app, lenZ_nil. unfold lenZ. rewrite !big_endian_length. done.
Qed.
Lemma sha256_length s : slen (sha256 s) = 32.
Proof. unfold sha256. by rewrite slen_of_codes, sha_digest_length. Qed.
Lemma hmac_length key message : slen (hmac_sha256 key message) = 32.
Proof. unfold hmac_sha256. by rewrite slen_of_codes, sha_digest_length. Qed.

Lemma hex_value_digit n : 0 <= n < 16 -> hex_value (hex_digit n) = Some n.
Proof.
  intros Hn. unfold hex_value, hex_digit, in_range. destruct (Z.ltb_spec n 10).
  - rewrite !(proj2 (Z.leb_le _ _)) by lia. f_equal. lia.
  - rewrite (proj2 (Z.leb_le 48 _)), (proj2 (Z.leb_gt _ 57)), !(proj2 (Z.leb_le _ _)) by lia. cbn [andb]. f_equal. lia.
Qed.

Lemma unhex_hex_codes l : byte_list l -> unhex_codes (hex_codes l) = Some l.
Proof.
  induction 1 as [|b l Hb _ IH]; [done|]. change (hex_codes (b :: l)) with (hex_digit (b / 16) :: hex_digit (b mod 16) :: hex_codes l).
  cbn [unhex_codes]. rewrite !hex_value_digit, IH by (try split; try apply Z.div_lt_upper_bound; try apply Z.div_pos; try apply Z.mod_pos_bound; lia).
  pose proof (Z.div_mod b 16). do 2 f_equal. lia.
Qed.

Lemma hex_codes_bytes l : byte_list l -> byte_list (hex_codes l).
Proof.
  induction 1 as [|b l Hb _ IH]; [constructor|]. change (hex_codes (b :: l)) with (hex_digit (b / 16) :: hex_digit (b mod 16) :: hex_codes l).
  assert (forall n, 0 <= n < 16 -> 0 <= hex_digit n < 256) as Hd by (intros n Hn; unfold hex_digit; destruct (n <? 10); lia).
  pose proof (Z.mod_pos_bound b 16). pose proof (Z.div_pos b 16). pose proof (Z.div_lt_upper_bound b 16 16).
  constructor; [apply Hd; lia|]. constructor; [apply Hd; lia|done].
Qed.

Lemma unhex_hex s : unhex (hex s) = Some s.
Proof.
  unfold unhex, hex. rewrite byte_codes_of_codes by (apply hex_codes_bytes, byte_codes_bytes).
  rewrite unhex_hex_codes by apply byte_codes_bytes. cbn [fmap option_fmap option_map]. by rewrite of_codes_byte_codes.
Qed.

Lemma hex_inj s s' : hex s = hex s' -> s = s'.
Proof. intros H. pose proof (unhex_hex s) as E. rewrite H, unhex_hex in E. by injection E. Qed.

Lemma hex_length s : slen (hex s) = 2 * slen s.
Proof.
  unfold hex. rewrite slen_of_codes. rewrite <- byte_codes_length. generalize (byte_codes s). intros l. induction l as [|b l IH]; [done|].
  change (hex_codes (b :: l)) with ([hex_digit (b / 16); hex_digit (b mod 16)] ++ hex_codes l). rewrite lenZ_app, IH. unfold lenZ. cbn [length]. lia.
Qed.
