(* ===== verification/GoJsonTree.v ===== *)
(** JSON documents of [encoding/json]: values as trees, the text [json.Marshal]
    writes, the parser of [json.Unmarshal] and [json.Decoder], and that parsing
    undoes writing. *)
From Stdlib Require Import ZArith Lia Ascii.
From stdpp Require Import base list strings.
From S2P Require Import Prelude GoText GoOrder GoJson Tool GoCrypto.
Open Scope Z_scope.

Inductive json :=
| JNull
| JBool (b : bool)
| JNumber (literal : list Z)
| JString (text : string)
| JArray (elements : list json)
| JObject (members : list (string * json)).

(** ** Writing *)

(** One rune of a string; [l] starts with its bytes.  [html] is whether the
    HTML characters are escaped, as [json.Marshal] does and an encoder without
    [EscapeHTML] does not. *)
Definition encode_rune (html : bool) (l : list Z) (r : Z * option Z) : list Z :=
  match r.2 with
  | None => [92; 117; 102; 102; 102; 100]
  | Some c =>
      if (c =? 34) || (c =? 92) then [92; c]
      else if c =? 8 then [92; 98] else if c =? 12 then [92; 102] else if c =? 10 then [92; 110]
      else if c =? 13 then [92; 114] else if c =? 9 then [92; 116]
      else if (c <? 32) || html && ((c =? 60) || (c =? 62) || (c =? 38)) then [92; 117; 48; 48; hex_digit (c / 16); hex_digit (c mod 16)]
      else if (c =? 8232) || (c =? 8233) then [92; 117; 50; 48; 50; c - 8176]
      else take (Z.to_nat r.1) l
  end.

Fixpoint encode_text (html : bool) (fuel : nat) (l : list Z) : list Z :=
  match fuel, l with
  | S fuel, _ :: _ => let r := decode_rune l in encode_rune html l r ++ encode_text html fuel (drop (Z.to_nat r.1) l)
  | _, _ => []
  end.

Definition quote_with (html : bool) (s : string) : list Z := 34 :: encode_text html (String.length s) (byte_codes s) ++ [34].
Abbreviation quote := (quote_with true).

Fixpoint join_comma (l : list (list Z)) : list Z :=
  match l with
  | [] => []
  | [x] => x
  | x :: l => x ++ 44 :: join_comma l
  end.

Fixpoint print_with (html : bool) (v : json) : list Z :=
  match v with
  | JNull => [110; 117; 108; 108]
  | JBool true => [116; 114; 117; 101]
  | JBool false => [102; 97; 108; 115; 101]
  | JNumber literal => literal
  | JString s => quote_with html s
  | JArray l => 91 :: join_comma (map (print_with html) l) ++ [93]
  | JObject members => 123 :: join_comma (map (fun member => quote_with html member.1 ++ 58 :: print_with html member.2) members) ++ [125]
  end.
Abbreviation print := (print_with true).

(** ** Parsing *)

Fixpoint skip_space (l : list Z) : list Z :=
  match l with
  | c :: rest => if json_space c then skip_space rest else l
  | [] => []
  end.

(** [utf8.AppendRune]. *)
Definition encode_utf8 (r : Z) : list Z :=
  if r <? 128 then [r]
  else if r <? 2048 then [192 + r / 64; 128 + r mod 64]
  else if r <? 65536 then [224 + r / 4096; 128 + r / 64 mod 64; 128 + r mod 64]
  else [240 + r / 262144; 128 + r / 4096 mod 64; 128 + r / 64 mod 64; 128 + r mod 64].

Definition replacement : list Z := [239; 191; 189].

Definition hex4 (l : list Z) : option (Z * list Z) :=
  match l with
  | a :: b :: c :: d :: rest =>
      match hex_value a, hex_value b, hex_value c, hex_value d with
      | Some a, Some b, Some c, Some d => Some (a * 4096 + b * 256 + c * 16 + d, rest)
      | _, _, _, _ => None
      end
  | _ => None
  end.

Definition simple_escape (c : Z) : option Z :=
  if (c =? 34) || (c =? 92) || (c =? 47) then Some c
  else if c =? 98 then Some 8 else if c =? 102 then Some 12 else if c =? 110 then Some 10
  else if c =? 114 then Some 13 else if c =? 116 then Some 9 else None.

(** The rune of an escape [\uXXXX] with code [r], and what follows it: a
    surrogate pair is one rune, a lone surrogate is U+FFFD. *)
Definition unicode_escape (r : Z) (rest : list Z) : list Z * list Z :=
  if in_range 55296 57343 r then
    match rest with
    | a :: b :: more =>
        if (a =? 92) && (b =? 117) then
          match hex4 more with
          | Some (r2, rest2) =>
              if in_range 55296 56319 r && in_range 56320 57343 r2
              then (encode_utf8 ((r - 55296) * 1024 + (r2 - 56320) + 65536), rest2) else (replacement, rest)
          | None => (replacement, rest)
          end
        else (replacement, rest)
    | _ => (replacement, rest)
    end
  else (encode_utf8 r, rest).

Definition prepend (l : list Z) (r : option (list Z * list Z)) : option (list Z * list Z) := (fun x => (l ++ x.1, x.2)) <$> r.

(** The text of a string after its opening quote, and what follows it. *)
Fixpoint parse_text (fuel : nat) (l : list Z) : option (list Z * list Z) :=
  match fuel, l with
  | S fuel, c :: rest =>
      if c =? 34 then Some ([], rest)
      else if c =? 92 then
        match rest with
        | [] => None
        | e :: rest =>
            match simple_escape e with
            | Some b => prepend [b] (parse_text fuel rest)
            | None =>
                if e =? 117 then
                  match hex4 rest with
                  | Some (r, rest) => let '(bytes, rest) := unicode_escape r rest in prepend bytes (parse_text fuel rest)
                  | None => None
                  end
                else None
            end
        end
      else if c <? 32 then None
      else match decode_rune l with
      | (w, Some _) => prepend (take (Z.to_nat w) l) (parse_text fuel (drop (Z.to_nat w) l))
      | (_, None) => prepend replacement (parse_text fuel rest)
      end
  | _, _ => None
  end.

(** A run of digits. *)
Fixpoint span_digits (l : list Z) : list Z * list Z :=
  match l with
  | c :: rest => if json_digit c then let '(d, r) := span_digits rest in (c :: d, r) else ([], l)
  | [] => ([], [])
  end.

Definition parse_exponent (l : list Z) : option (list Z * list Z) :=
  match l with
  | e :: rest =>
      if (e =? 101) || (e =? 69) then
        let '(sign, rest) := match rest with s :: r => if (s =? 43) || (s =? 45) then ([s], r) else ([], rest) | [] => ([], []) end in
        match span_digits rest with
        | ([], _) => None
        | (d, rest) => Some (e :: sign ++ d, rest)
        end
      else Some ([], l)
  | [] => Some ([], l)
  end.
Definition parse_fraction (l : list Z) : option (list Z * list Z) :=
  match l with
  | p :: rest =>
      if p =? 46 then match span_digits rest with ([], _) => None | (d, rest) => prepend (p :: d) (parse_exponent rest) end
      else parse_exponent l
  | [] => Some ([], l)
  end.
Definition parse_unsigned (l : list Z) : option (list Z * list Z) :=
  match l with
  | c :: rest =>
      if c =? 48 then prepend [c] (parse_fraction rest)
      else if json_digit c then let '(d, rest) := span_digits l in prepend d (parse_fraction rest)
      else None
  | [] => None
  end.
Definition parse_number (l : list Z) : option (list Z * list Z) :=
  match l with
  | c :: rest => if c =? 45 then prepend [c] (parse_unsigned rest) else parse_unsigned l
  | [] => None
  end.

Definition literal (text : list Z) (v : json) (l : list Z) : option (json * list Z) :=
  if decide (take (length text) l = text) then Some (v, drop (length text) l) else None.

(** [depth] is how deep values may still nest. *)
Fixpoint parse_value (fuel depth : nat) (l : list Z) : option (json * list Z) :=
  match fuel, skip_space l with
  | S fuel, c :: rest =>
      if c =? 34 then
        match parse_text (length rest) rest with Some (t, rest) => Some (JString (of_codes t), rest) | None => None end
      else if c =? 123 then
        match depth, skip_space rest with
        | S depth, d :: more =>
            if d =? 125 then Some (JObject [], more)
            else match parse_members fuel depth rest with Some (ms, rest) => Some (JObject ms, rest) | None => None end
        | _, _ => None
        end
      else if c =? 91 then
        match depth, skip_space rest with
        | S depth, d :: more =>
            if d =? 93 then Some (JArray [], more)
            else match parse_elements fuel depth rest with Some (vs, rest) => Some (JArray vs, rest) | None => None end
        | _, _ => None
        end
      else if c =? 116 then literal [116; 114; 117; 101] (JBool true) (c :: rest)
      else if c =? 102 then literal [102; 97; 108; 115; 101] (JBool false) (c :: rest)
      else if c =? 110 then literal [110; 117; 108; 108] JNull (c :: rest)
      else match parse_number (c :: rest) with Some (n, rest) => Some (JNumber n, rest) | None => None end
  | _, _ => None
  end
with parse_members (fuel depth : nat) (l : list Z) : option (list (string * json) * list Z) :=
  match fuel, skip_space l with
  | S fuel, c :: rest =>
      if negb (c =? 34) then None
      else match parse_text (length rest) rest with
      | None => None
      | Some (key, rest) =>
          match skip_space rest with
          | d :: rest =>
              if negb (d =? 58) then None
              else match parse_value fuel depth rest with
              | None => None
              | Some (v, rest) =>
                  match skip_space rest with
                  | e :: rest =>
                      if e =? 125 then Some ([(of_codes key, v)], rest)
                      else if e =? 44 then
                        match parse_members fuel depth rest with Some (ms, rest) => Some ((of_codes key, v) :: ms, rest) | None => None end
                      else None
                  | [] => None
                  end
              end
          | [] => None
          end
      end
  | _, _ => None
  end
with parse_elements (fuel depth : nat) (l : list Z) : option (list json * list Z) :=
  match fuel with
  | S fuel =>
      match parse_value fuel depth l with
      | None => None
      | Some (v, rest) =>
          match skip_space rest with
          | e :: rest =>
              if e =? 93 then Some ([v], rest)
              else if e =? 44 then
                match parse_elements fuel depth rest with Some (vs, rest) => Some (v :: vs, rest) | None => None end
              else None
          | [] => None
          end
      end
  | O => None
  end.

(** The one document of a text: [json.Unmarshal], and [Decode] followed by the
    end of the input. *)
Definition parse_document (s : string) : option json :=
  let l := byte_codes s in
  match parse_value (length l) (Z.to_nat maxNestingDepth) l with
  | Some (v, rest) => match skip_space rest with [] => Some v | _ => None end
  | None => None
  end.

(** [json.Marshal] of the tree. *)
Definition marshal (v : json) : string := of_codes (print v).

Example document_ok : parse_document (of_codes [32; 123; 34; 97; 34; 32; 58; 91; 49; 44; 32; 45; 50; 46; 53; 101; 43; 51; 93; 44; 34; 98; 34; 58; 123; 125; 125; 10])
  = Some (JObject [("a"%string, JArray [JNumber [49]; JNumber [45; 50; 46; 53; 101; 43; 51]]); ("b"%string, JObject [])]).
Proof. vm_compute. reflexivity. Qed.
Example document_escapes :
  (match parse_document (of_codes [34; 92; 117; 100; 56; 51; 100; 92; 117; 100; 101; 48; 48; 92; 110; 34]) with Some (JString s) => byte_codes s | _ => [] end)
  = [240; 159; 152; 128; 10].
Proof. vm_compute. reflexivity. Qed.

(** ** UTF-8 *)

(** The well-formed encodings of one rune. *)
Inductive utf8_rune : list Z -> Z -> Prop :=
| utf8_1 a : a < 128 -> utf8_rune [a] a
| utf8_2 a b : in_range 194 223 a = true -> cont b = true -> utf8_rune [a; b] ((a - 192) * 64 + (b - 128))
| utf8_3 a b c : in_range 224 239 a = true -> in_range (if a =? 224 then 160 else 128) (if a =? 237 then 159 else 191) b = true ->
    cont c = true -> utf8_rune [a; b; c] ((a - 224) * 4096 + (b - 128) * 64 + (c - 128))
| utf8_4 a b c d : in_range 240 244 a = true -> in_range (if a =? 240 then 144 else 128) (if a =? 244 then 143 else 191) b = true ->
    cont c = true -> cont d = true -> utf8_rune [a; b; c; d] ((a - 240) * 262144 + (b - 128) * 4096 + (c - 128) * 64 + (d - 128)).

Lemma decode_rune_some l w c : decode_rune l = (w, Some c) -> exists bytes tail, l = bytes ++ tail /\ w = lenZ bytes /\ utf8_rune bytes c.
Proof.
  unfold decode_rune. destruct l as [|a l]; [done|]. destruct (Z.ltb_spec a 128); [intros [= <- <-]; exists [a], l; by repeat constructor|].
  destruct l as [|b l]; [done|]. destruct (_ && _) eqn:E2; [apply andb_true_iff in E2 as []; intros [= <- <-]; exists [a; b], l; by repeat constructor|].
  destruct l as [|d l]; [done|]. destruct (_ && _) eqn:E3 in |- *;
    [apply andb_true_iff in E3 as [E3 ?]; apply andb_true_iff in E3 as []; intros [= <- <-]; exists [a; b; d], l; by repeat constructor|].
  destruct l as [|e l]; [done|]. destruct (_ && _) eqn:E4 in |- *; [|done].
  apply andb_true_iff in E4 as [E4 ?]; apply andb_true_iff in E4 as [E4 ?]; apply andb_true_iff in E4 as []. intros [= <- <-]. exists [a; b; d; e], l. by repeat constructor.
Qed.

Lemma utf8_rune_decode bytes c t : utf8_rune bytes c -> decode_rune (bytes ++ t) = (lenZ bytes, Some c).
Proof.
  destruct 1 as [a Ha|a b Ha Hb|a b c Ha Hb Hc|a b c d Ha Hb Hc Hd]; cbn [app]; unfold decode_rune.
  - by rewrite (proj2 (Z.ltb_lt _ _)).
  - rewrite Ha, Hb. unfold in_range in Ha. bprop. by rewrite (proj2 (Z.ltb_ge _ _)) by lia.
  - rewrite Ha, Hb, Hc. unfold in_range in Ha. bprop. rewrite (proj2 (Z.ltb_ge _ _)) by lia. unfold in_range at 1. by rewrite (proj2 (Z.leb_gt a 223)), andb_false_r by lia.
  - rewrite Ha, Hb, Hc, Hd. unfold in_range in Ha. bprop. rewrite (proj2 (Z.ltb_ge _ _)) by lia. unfold in_range at 1 2.
    by rewrite (proj2 (Z.leb_gt a 223)), (proj2 (Z.leb_gt a 239)), !andb_false_r by lia.
Qed.

Lemma utf8_rune_encode bytes c : utf8_rune bytes c -> encode_utf8 c = bytes.
Proof.
  destruct 1 as [a Ha|a b Ha Hb|a b c Ha Hb Hc|a b c d Ha Hb Hc Hd]; unfold encode_utf8, cont, in_range in *; bprop.
  - by rewrite (proj2 (Z.ltb_lt _ _)).
  - rewrite (proj2 (Z.ltb_ge _ 128)), (proj2 (Z.ltb_lt _ 2048)) by lia. repeat f_equal; Z.to_euclidean_division_equations; lia.
  - assert (2048 <= (a - 224) * 4096 + (b - 128) * 64 + (c - 128)) by (destruct (Z.eqb_spec a 224); lia).
    assert (128 <= b <= 191) by (destruct (Z.eqb_spec a 224), (Z.eqb_spec a 237); lia).
    rewrite (proj2 (Z.ltb_ge _ 128)), (proj2 (Z.ltb_ge _ 2048)), (proj2 (Z.ltb_lt _ 65536)) by lia. repeat f_equal; Z.to_euclidean_division_equations; lia.
  - assert (65536 <= (a - 240) * 262144 + (b - 128) * 4096 + (c - 128) * 64 + (d - 128)) by (destruct (Z.eqb_spec a 240); lia).
    assert (128 <= b <= 191) by (destruct (Z.eqb_spec a 240), (Z.eqb_spec a 244); lia).
    rewrite (proj2 (Z.ltb_ge _ 128)), (proj2 (Z.ltb_ge _ 2048)), (proj2 (Z.ltb_ge _ 65536)) by lia. repeat f_equal; Z.to_euclidean_division_equations; lia.
Qed.

Lemma utf8_rune_head bytes c : utf8_rune bytes c -> exists a tail, bytes = a :: tail /\ (c < 128 -> bytes = [c]) /\ (128 <= c -> 128 <= a).
Proof.
  destruct 1 as [a Ha|a b Ha Hb|a b c Ha Hb Hc|a b c d Ha Hb Hc Hd]; do 2 eexists; (split; [reflexivity|]); unfold cont, in_range in *; bprop.
  - split; [done|lia].
  - split; lia.
  - split; [destruct (Z.eqb_spec a 224); lia|lia].
  - split; [destruct (Z.eqb_spec a 240); lia|lia].
Qed.

(** ** Strings *)

Lemma hex_value_pair c : 0 <= c < 256 -> hex_value (hex_digit (c / 16)) = Some (c / 16) /\ hex_value (hex_digit (c mod 16)) = Some (c mod 16).
Proof. intros Hc. split; apply hex_value_digit; [split; [apply Z.div_pos; lia|apply Z.div_lt_upper_bound; lia]|apply Z.mod_pos_bound; lia]. Qed.

(** Reading a written rune gives its bytes. *)
Lemma parse_encoded_rune {html} bytes c tail fuel rest : utf8_rune bytes c -> 0 <= c -> 
  parse_text (S fuel) (encode_rune html (bytes ++ tail) (lenZ bytes, Some c) ++ rest) = prepend bytes (parse_text fuel rest).
Proof.
  intros Hu Hc. destruct (utf8_rune_head _ _ Hu) as (a & l & -> & Hsmall & Hbig). unfold encode_rune. cbn [fst snd].
  destruct (Z.eqb_spec c 34) as [->|N34]; [by rewrite (Hsmall eq_refl)|]. destruct (Z.eqb_spec c 92) as [->|N92]; [by rewrite (Hsmall eq_refl)|]. cbn [orb].
  do 5 (match goal with |- context [if ?x =? ?y then _ else _] => destruct (Z.eqb_spec x y) as [->|?] end; [by rewrite (Hsmall eq_refl)|]).
  destruct (_ || _) eqn:Ee.
  - assert (c < 128) as Hlt by (bprop; lia). rewrite (Hsmall Hlt). cbn [app parse_text]. change (92 =? 34) with false. change (92 =? 92) with true. cbv iota.
    change (simple_escape 117) with (@None Z). cbv iota. change (117 =? 117) with true. cbv iota. unfold hex4. change (hex_value 48) with (Some 0).
    destruct (hex_value_pair c ltac:(lia)) as [-> ->]. unfold unicode_escape, in_range. pose proof (Z.div_mod c 16). pose proof (Z.mod_pos_bound c 16).
    rewrite (proj2 (Z.leb_gt 55296 _)) by lia. cbn [andb]. unfold encode_utf8. rewrite (proj2 (Z.ltb_lt _ 128)) by lia.
    do 2 f_equal. lia.
  - destruct (_ || _) eqn:E8 in |- *.
    + rewrite <- (utf8_rune_encode _ _ Hu). assert (c = 8232 \/ c = 8233) as [-> | ->] by (bprop; lia); reflexivity.
    + unfold lenZ. rewrite Nat2Z.id, take_app_length. cbn [app parse_text]. assert (a <> 34 /\ a <> 92 /\ 32 <= a) as (Ha1 & Ha2 & Ha3).
      { destruct (Z.lt_ge_cases c 128) as [Hlt|Hge]; [injection (Hsmall Hlt) as -> ->; bprop; lia|specialize (Hbig Hge); lia]. }
      rewrite (proj2 (Z.eqb_neq _ _) Ha1), (proj2 (Z.eqb_neq _ _) Ha2), (proj2 (Z.ltb_ge _ _) Ha3).
      change (a :: l ++ rest) with ((a :: l) ++ rest). rewrite (utf8_rune_decode _ _ rest Hu). unfold lenZ.
      by rewrite Nat2Z.id, take_app_length, drop_app_length.
Qed.

Lemma utf8_rune_nonneg bytes c : utf8_rune bytes c -> byte_list bytes -> 0 <= c.
Proof.
  destruct 1 as [a Ha|a b Ha Hb|a b c Ha Hb Hc|a b c d Ha Hb Hc Hd]; intros Hl; [by inversion Hl; lia|..]; unfold cont, in_range in *; bprop; try lia.
  - assert (128 <= b) by (destruct (Z.eqb_spec a 224); lia). lia.
  - assert (128 <= b) by (destruct (Z.eqb_spec a 240); lia). lia.
Qed.

Lemma encode_rune_length {html} bytes c tail : utf8_rune bytes c -> (1 <= length (encode_rune html (bytes ++ tail) (lenZ bytes, Some c)))%nat.
Proof.
  intros Hu. unfold encode_rune. cbn [fst snd]. repeat (match goal with |- context [if ?b then _ else _] => destruct b end; [cbn; lia|]).
  unfold lenZ. rewrite Nat2Z.id, take_app_length. destruct Hu; cbn; lia.
Qed.

(** The text with every invalid byte replaced by U+FFFD. *)
Fixpoint valid_text (fuel : nat) (l : list Z) : list Z :=
  match fuel, l with
  | S fuel, _ :: _ =>
      let r := decode_rune l in (if r.2 then take (Z.to_nat r.1) l else replacement) ++ valid_text fuel (drop (Z.to_nat r.1) l)
  | _, _ => []
  end.
Definition sanitize (s : string) : string := of_codes (valid_text (String.length s) (byte_codes s)).

Lemma decode_rune_none a l w : decode_rune (a :: l) = (w, None) -> w = 1.
Proof. unfold decode_rune. intros H. repeat (case_match; try discriminate); congruence. Qed.

Lemma parse_encoded_text {html} n : forall l fuel rest, byte_list l -> (length l <= n)%nat -> (length (encode_text html n l) < fuel)%nat ->
  parse_text fuel (encode_text html n l ++ 34 :: rest) = Some (valid_text n l, rest).
Proof.
  induction n as [|n IH]; intros [|a l] [|fuel] rest Hb Hl Hf; try (cbn in *; lia); [done..|]. cbn [encode_text valid_text] in *.
  destruct (decode_rune (a :: l)) as [w [c|]] eqn:Er; cbn [fst snd] in *.
  - destruct (decode_rune_some _ _ _ Er) as (bytes & tail & El & -> & Hu). rewrite El in *. unfold lenZ in *. rewrite Nat2Z.id in *.
    rewrite drop_app_length in *. rewrite take_app_length. fold (lenZ bytes) in *. apply Forall_app in Hb as [Hb1 Hb2]. rewrite length_app in Hf, Hl.
    pose proof (encode_rune_length (html := html) _ _ tail Hu). assert (1 <= length bytes)%nat by (destruct Hu; cbn; lia).
    rewrite <- app_assoc, (parse_encoded_rune _ _ _ _ _ Hu (utf8_rune_nonneg _ _ Hu Hb1)), IH by (done || lia). done.
  - rewrite (decode_rune_none _ _ _ Er) in *. change (drop (Z.to_nat 1) (a :: l)) with l in *. inversion Hb; subst. cbn [length] in Hl.
    change (encode_rune html (a :: l) (1, None)) with [92; 117; 102; 102; 102; 100] in *. rewrite length_app in Hf. cbn [length] in Hf.
    change (([92; 117; 102; 102; 102; 100] ++ encode_text html n l) ++ 34 :: rest) with (92 :: 117 :: 102 :: 102 :: 102 :: 100 :: (encode_text html n l ++ 34 :: rest)).
    change (parse_text (S fuel) (92 :: 117 :: 102 :: 102 :: 102 :: 100 :: (encode_text html n l ++ 34 :: rest))) with (prepend replacement (parse_text fuel (encode_text html n l ++ 34 :: rest))).
    rewrite IH by (done || lia). done.
Qed.

Lemma valid_text_bytes n : forall l, byte_list l -> byte_list (valid_text n l).
Proof.
  induction n as [|n IH]; intros [|a l] Hl; [constructor..|]. cbn [valid_text]. apply Forall_app. split; [|apply IH; by apply Forall_drop].
  destruct (snd _); [by apply Forall_take|by repeat constructor; lia].
Qed.

Lemma sanitize_codes s : byte_codes (sanitize s) = valid_text (String.length s) (byte_codes s).
Proof. apply byte_codes_of_codes, valid_text_bytes, byte_codes_bytes. Qed.

Lemma valid_text_valid n : forall l, (length l <= n)%nat -> forallb (fun r => match r.2 with Some _ => true | None => false end) (runes_fuel n l) = true ->
  valid_text n l = l.
Proof.
  induction n as [|n IH]; intros [|a l] Hl Hv; [done|cbn in Hl; lia|done|]. cbn [runes_fuel forallb valid_text] in *. apply andb_true_iff in Hv as [Hr Hv].
  destruct (decode_rune (a :: l)) as [w [c|]] eqn:Er; [|done]. cbn [fst snd] in *. rewrite IH; [by rewrite take_drop| |done].
  destruct (decode_rune_some _ _ _ Er) as (bytes & tail & _ & -> & Hu). rewrite length_drop. assert (1 <= length bytes)%nat by (destruct Hu; cbn; lia). unfold lenZ. cbn [length] in *. lia.
Qed.

Lemma sanitize_valid s : utf8_valid s = true -> sanitize s = s.
Proof.
  intros Hv. unfold sanitize. rewrite valid_text_valid; [apply of_codes_byte_codes| |exact Hv].
  assert (Z.of_nat (length (byte_codes s)) = Z.of_nat (String.length s)) by apply byte_codes_length. lia.
Qed.

Lemma parse_quoted {html} s fuel rest : (length (quote_with html s) <= S fuel)%nat ->
  parse_text fuel (encode_text html (String.length s) (byte_codes s) ++ 34 :: rest) = Some (byte_codes (sanitize s), rest).
Proof.
  intros Hl. assert (Z.of_nat (length (byte_codes s)) = Z.of_nat (String.length s)) as El by apply byte_codes_length. rewrite sanitize_codes.
  unfold quote_with in Hl. cbn [length] in Hl. rewrite length_app in Hl. cbn [length] in Hl. apply parse_encoded_text; [apply byte_codes_bytes|lia|lia].
Qed.

(** ** Numbers *)

(** What may follow a number. *)
Definition ends_number (rest : list Z) : bool :=
  match rest with c :: _ => negb (json_digit c || (c =? 46) || (c =? 101) || (c =? 69)) | [] => true end.

Record number_literal (lit : list Z) : Prop := {
  nl_head : exists c tail, lit = c :: tail /\ (c = 45 \/ 48 <= c <= 57);
  nl_bytes : byte_list lit;
  nl_parse rest : ends_number rest = true -> parse_number (lit ++ rest) = Some (lit, rest)
}.

(** [strconv.FormatUint]: below 10^20, which [uint64] is. *)
Fixpoint decimal_fuel (fuel : nat) (n : Z) : list Z :=
  match fuel with
  | S fuel => if n <? 10 then [48 + n] else decimal_fuel fuel (n / 10) ++ [48 + n mod 10]
  | O => []
  end.
Definition decimal (n : Z) : list Z := decimal_fuel 20 n.

(** [strconv.ParseUint] with base 10 and 64 bits. *)
Definition parse_uint (l : list Z) : option Z :=
  match l with
  | [] => None
  | _ => if forallb json_digit l then let n := foldl (fun acc c => acc * 10 + (c - 48)) 0 l in if n <=? maxUint64 then Some n else None else None
  end.
(** [strconv.ParseInt] with base 10, for the width [bits]. *)
Definition parse_int (bits : Z) (l : list Z) : option Z :=
  let '(sign, digits) := match l with c :: rest => if c =? 45 then (-1, rest) else (1, l) | [] => (1, []) end in
  match digits with
  | [] => None
  | _ =>
      if forallb json_digit digits then
        let n := sign * foldl (fun acc c => acc * 10 + (c - 48)) 0 digits in
        if in_range (- 2 ^ (bits - 1)) (2 ^ (bits - 1) - 1) n then Some n else None
      else None
  end.

Lemma decimal_fuel_facts fuel : forall n, 0 <= n < 10 ^ Z.of_nat fuel ->
  (1 <= fuel)%nat ->
  forallb json_digit (decimal_fuel fuel n) = true /\ foldl (fun acc c => acc * 10 + (c - 48)) 0 (decimal_fuel fuel n) = n
  /\ exists c tail, decimal_fuel fuel n = c :: tail /\ 48 <= c <= 57 /\ (c = 48 -> tail = []).
Proof.
  induction fuel as [|fuel IH]; intros n Hn Hf; [lia|]. cbn [decimal_fuel]. destruct (Z.ltb_spec n 10) as [Hlt|Hge].
  - split; [unfold json_digit, in_range; cbn [forallb]; rewrite !(proj2 (Z.leb_le _ _)) by lia; done|]. split; [cbn [foldl]; lia|].
    exists (48 + n), []. split; [done|]. split; [lia|done].
  - replace (Z.of_nat (S fuel)) with (Z.succ (Z.of_nat fuel)) in Hn by lia. rewrite Z.pow_succ_r in Hn by lia.
    assert (fuel <> 0)%nat by (intros ->; cbn in Hn; lia). pose proof (Z.div_mod n 10). pose proof (Z.mod_pos_bound n 10).
    destruct (IH (n / 10)) as (Hd & Hv & c & tail & Ec & Hc & Hz); [split; [apply Z.div_pos; lia|apply Z.div_lt_upper_bound; lia]|lia|].
    rewrite forallb_app, Hd, foldl_app, Hv. split; [unfold json_digit, in_range; cbn [forallb andb]; rewrite !(proj2 (Z.leb_le _ _)) by lia; done|].
    split; [cbn [foldl]; lia|]. exists c, (tail ++ [48 + n mod 10]). rewrite Ec. split; [done|]. split; [done|]. intros ->.
    specialize (Hz eq_refl). subst tail. rewrite Ec in Hv. cbn in Hv. lia.
Qed.

Lemma span_digits_app l rest : forallb json_digit l = true -> ends_number rest = true -> span_digits (l ++ rest) = (l, rest).
Proof.
  intros Hl Hr. induction l as [|c l IH]; cbn [app].
  - destruct rest as [|c rest]; [done|]. cbn [span_digits]. unfold ends_number in Hr. apply negb_true_iff in Hr. destruct (json_digit c); [done|done].
  - cbn [forallb] in Hl. apply andb_true_iff in Hl as [Hc Hl]. cbn [span_digits]. by rewrite Hc, (IH Hl).
Qed.

Lemma fraction_ends rest : ends_number rest = true -> parse_fraction rest = Some ([], rest).
Proof.
  destruct rest as [|c rest]; [done|]. unfold ends_number, parse_fraction, parse_exponent. intros H. apply negb_true_iff in H.
  apply orb_false_iff in H as [H E69]. apply orb_false_iff in H as [H E101]. apply orb_false_iff in H as [_ E46]. by rewrite E46, E101, E69.
Qed.

Lemma uint64_decimal n : uint64_ok n -> 0 <= n < 10 ^ Z.of_nat 20.
Proof. unfold uint64_ok, maxUint64. change (10 ^ Z.of_nat 20) with 100000000000000000000. lia. Qed.

Lemma decimal_literal n : uint64_ok n -> number_literal (decimal n).
Proof.
  intros Hn. destruct (decimal_fuel_facts 20 n (uint64_decimal n Hn) ltac:(lia)) as (Hd & _ & c & tail & Ec & Hc & Hz). split; [exists c, tail; split; [exact Ec|lia]| |].
  { apply Forall_forall. intros b Hb. apply list_elem_of_In in Hb. apply (proj1 (forallb_forall _ _) Hd) in Hb. unfold json_digit, in_range in Hb. bprop. lia. }
  intros rest Hr. unfold decimal. rewrite Ec in *. unfold parse_number, parse_unsigned. cbn [app]. rewrite (proj2 (Z.eqb_neq _ 45)) by lia.
  destruct (Z.eqb_spec c 48) as [->|Hne].
  - rewrite (Hz eq_refl). cbn [app]. by rewrite fraction_ends.
  - cbn [forallb] in Hd. apply andb_true_iff in Hd as [Hdc Hdt]. rewrite Hdc. change (c :: tail ++ rest) with ((c :: tail) ++ rest).
    rewrite span_digits_app by (cbn [forallb]; rewrite ?Hdc, ?Hdt; done). rewrite fraction_ends by done. unfold prepend. cbn. by rewrite app_nil_r.
Qed.

Lemma parse_uint_decimal n : uint64_ok n -> parse_uint (decimal n) = Some n.
Proof.
  intros Hn. destruct (decimal_fuel_facts 20 n (uint64_decimal n Hn) ltac:(lia)) as (Hd & Hv & c & tail & Ec & _). unfold parse_uint, decimal. rewrite Hd, Hv.
  rewrite Ec. unfold uint64_ok in Hn. by rewrite (proj2 (Z.leb_le _ _)) by lia.
Qed.

Lemma parse_int_decimal bits n : 0 <= n < 2 ^ (bits - 1) -> uint64_ok n -> parse_int bits (decimal n) = Some n.
Proof.
  intros Hb Hn. destruct (decimal_fuel_facts 20 n (uint64_decimal n Hn) ltac:(lia)) as (Hd & Hv & c & tail & Ec & Hc & _). unfold parse_int, decimal.
  rewrite Ec in *. rewrite (proj2 (Z.eqb_neq _ 45)) by lia. rewrite Hd, Hv. unfold in_range. rewrite !(proj2 (Z.leb_le _ _)) by lia. cbn [andb]. f_equal. lia.
Qed.

(** ** Documents *)

Section Induction.
Context (P : json -> Prop) (Hnull : P JNull) (Hbool : forall b, P (JBool b)) (Hnumber : forall l, P (JNumber l)) (Hstring : forall s, P (JString s))
  (Harray : forall l, Forall P l -> P (JArray l)) (Hobject : forall ms, Forall (fun m => P m.2) ms -> P (JObject ms)).
Fixpoint json_nested_ind (v : json) : P v :=
  match v with
  | JNull => Hnull
  | JBool b => Hbool b
  | JNumber l => Hnumber l
  | JString s => Hstring s
  | JArray l => Harray l ((fix go l : Forall P l := match l with [] => List.Forall_nil _ | v :: l => List.Forall_cons _ _ _ (json_nested_ind v) (go l) end) l)
  | JObject ms =>
      Hobject ms ((fix go ms : Forall (fun m => P m.2) ms :=
        match ms with [] => List.Forall_nil _ | (k, v) :: ms => List.Forall_cons _ (k, v) ms (json_nested_ind v) (go ms) end) ms)
  end.
End Induction.

(** What is read back of a value: its strings with their invalid bytes replaced. *)
Fixpoint read_back (v : json) : json :=
  match v with
  | JString s => JString (sanitize s)
  | JArray l => JArray (map read_back l)
  | JObject ms => JObject (map (fun m => (m.1, read_back m.2)) ms)
  | _ => v
  end.

(** Values [json.Marshal] writes, at most [depth] deep; names are valid UTF-8. *)
Fixpoint writable (depth : nat) (v : json) : Prop :=
  match v with
  | JNull | JBool _ | JString _ => True
  | JNumber lit => number_literal lit
  | JArray l => match depth with O => False | S depth => Forall (writable depth) l end
  | JObject ms => match depth with O => False | S depth => Forall (fun m => utf8_valid m.1 = true /\ writable depth m.2) ms end
  end.

Lemma skip_space_head c l : json_space c = false -> skip_space (c :: l) = c :: l.
Proof. intros H. cbn [skip_space]. by rewrite H. Qed.

(** The first byte of a value is never white space nor a closing bracket. *)
Lemma print_head {html} depth v : writable depth v -> exists c tail, print_with html v = c :: tail /\ json_space c = false /\ c <> 93 /\ c <> 125.
Proof.
  destruct v as [|[]|lit|s|l|ms]; intros Hw; [eexists _, _; (split; [reflexivity|]); split; [reflexivity|lia]..| | | |].
  - assert (number_literal lit) as [(c & tail & -> & Hc) _ _] by (by destruct depth). exists c, tail. split; [done|]. split; [|lia]. unfold json_space. rewrite !(proj2 (Z.eqb_neq _ _)) by lia. done.
  - exists 34. eexists. split; [reflexivity|]. split; [done|lia].
  - exists 91. eexists. split; [reflexivity|]. split; [done|lia].
  - exists 123. eexists. split; [reflexivity|]. split; [done|lia].
Qed.

Definition print_member html (member : string * json) : list Z := quote_with html member.1 ++ 58 :: print_with html member.2.

(** Parsing undoes writing, for one value at a given position. *)
Definition parses html (v : json) : Prop := forall fuel depth rest, (length (print_with html v) <= fuel)%nat -> writable depth v -> ends_number rest = true ->
  parse_value fuel depth (print_with html v ++ rest) = Some (read_back v, rest).

Lemma parse_string_value {html} fuel depth s rest : parse_value (S fuel) depth (quote_with html s ++ rest) = Some (JString (sanitize s), rest).
Proof.
  unfold quote_with. cbn [app]. cbn [parse_value]. rewrite skip_space_head by done. change (34 =? 34) with true. cbv iota. rewrite <- app_assoc. cbn [app].
  rewrite parse_quoted by (try done; unfold quote_with; cbn [length]; rewrite !length_app; cbn [length]; lia). by rewrite of_codes_byte_codes.
Qed.

Lemma parse_elements_print {html} l : Forall (parses html) l -> l <> [] -> forall fuel depth rest, (length (join_comma (map (print_with html) l)) < fuel)%nat -> Forall (writable depth) l ->
  parse_elements fuel depth (join_comma (map (print_with html) l) ++ 93 :: rest) = Some (map read_back l, rest).
Proof.
  induction 1 as [|v l Hv Hl IH]; intros Hne fuel depth rest Hf Hw; [done|]. apply Forall_cons in Hw as [Hwv Hwl]. destruct fuel as [|fuel]; [lia|].
  destruct l as [|v2 l].
  - cbn [map join_comma] in *. cbn [parse_elements]. rewrite Hv by (done || lia). rewrite skip_space_head by done. done.
  - change (join_comma (map (print_with html) (v :: v2 :: l))) with (print_with html v ++ 44 :: join_comma (map (print_with html) (v2 :: l))) in *. rewrite length_app in Hf. cbn [length] in Hf.
    rewrite <- app_assoc. cbn [app]. cbn [parse_elements]. rewrite Hv by (done || lia). rewrite skip_space_head by done. change (44 =? 93) with false. change (44 =? 44) with true. cbv iota.
    rewrite IH by (done || lia). done.
Qed.

Lemma parse_members_print {html} ms : Forall (fun m => parses html m.2) ms -> ms <> [] -> forall fuel depth rest, (length (join_comma (map (print_member html) ms)) < fuel)%nat ->
  Forall (fun m => utf8_valid m.1 = true /\ writable depth m.2) ms ->
  parse_members fuel depth (join_comma (map (print_member html) ms) ++ 125 :: rest) = Some (map (fun m => (m.1, read_back m.2)) ms, rest).
Proof.
  induction 1 as [|[k v] ms Hv Hms IH]; intros Hne fuel depth rest Hf Hw; [done|]. apply Forall_cons in Hw as [[Hk Hwv] Hwms]. cbn [fst snd] in *. destruct fuel as [|fuel]; [lia|].
  assert (forall tail, ends_number tail = true -> (length (print_member html (k, v)) <= S fuel)%nat ->
    parse_members (S fuel) depth (print_member html (k, v) ++ tail) = match skip_space tail with
      | e :: rest => if e =? 125 then Some ([(k, read_back v)], rest) else if e =? 44 then
          match parse_members fuel depth rest with Some (ms, rest) => Some ((k, read_back v) :: ms, rest) | None => None end else None
      | [] => None end) as Hone.
  { intros tail Ht Hl. unfold print_member in *. cbn [fst snd] in *. rewrite length_app in Hl. cbn [length] in Hl. assert (1 <= length (quote_with html k))%nat by (unfold quote_with; cbn [length]; lia).
    unfold quote_with at 1. rewrite <- app_assoc. cbn [app]. cbn [parse_members]. rewrite skip_space_head by done. change (34 =? 34) with true. cbn [negb].
    rewrite <- app_assoc. cbn [app]. rewrite parse_quoted by (try done; unfold quote_with; cbn [length]; rewrite !length_app; cbn [length]; lia).
    rewrite skip_space_head by done. change (58 =? 58) with true. cbn [negb]. rewrite Hv by (done || lia). by rewrite of_codes_byte_codes, sanitize_valid. }
  destruct ms as [|m2 ms].
  - cbn [map join_comma] in *. rewrite Hone by (done || lia). by rewrite skip_space_head.
  - change (join_comma (map (print_member html) ((k, v) :: m2 :: ms))) with (print_member html (k, v) ++ 44 :: join_comma (map (print_member html) (m2 :: ms))) in *.
    rewrite length_app in Hf. cbn [length] in Hf. rewrite <- app_assoc. cbn [app]. rewrite Hone by (done || lia). rewrite skip_space_head by done.
    change (44 =? 125) with false. change (44 =? 44) with true. cbv iota. rewrite IH; [done|done| |done].
    assert (1 <= length (print_member html (k, v)))%nat by (unfold print_member, quote_with; cbn; lia). lia.
Qed.

Lemma literal_parse text v rest : literal text v (text ++ rest) = Some (v, rest).
Proof. unfold literal. rewrite take_app_length, drop_app_length. by rewrite decide_True. Qed.

Lemma parse_print {html} v : parses html v.
Proof.
  induction v as [|b|lit|s|l IH|ms IH] using json_nested_ind; intros fuel depth rest Hf Hw Hr; destruct fuel as [|fuel]; try (destruct (print_head (html := html) _ _ Hw) as (? & ? & E & _); rewrite E in Hf; cbn in Hf; lia).
  - apply (literal_parse [110; 117; 108; 108]).
  - destruct b; [apply (literal_parse [116; 114; 117; 101])|apply (literal_parse [102; 97; 108; 115; 101])].
  - assert (number_literal lit) as [(c & tail & -> & Hc) _ Hp] by (by destruct depth). cbn [print]. change ((c :: tail) ++ rest) with (c :: tail ++ rest) in *. cbn [parse_value]. rewrite skip_space_head.
    + rewrite !(proj2 (Z.eqb_neq _ _)) by lia. specialize (Hp rest Hr). cbn [app] in Hp. by rewrite Hp.
    + unfold json_space. rewrite !(proj2 (Z.eqb_neq _ _)) by lia. done.
  - apply parse_string_value.
  - destruct depth as [|depth]; [done|]. cbn [writable] in Hw. cbn [print] in *. cbn [app]. cbn [parse_value]. rewrite skip_space_head by done.
    change (91 =? 34) with false. change (91 =? 123) with false. change (91 =? 91) with true. cbv iota. cbn [length] in Hf. rewrite length_app in Hf. cbn [length] in Hf.
    rewrite <- app_assoc. cbn [app]. destruct l as [|v l]; [reflexivity|]. pose proof (parse_elements_print (v :: l) IH ltac:(done) fuel depth rest ltac:(lia) Hw) as E.
    apply Forall_cons in Hw as [Hwv _]. destruct (print_head (html := html) _ _ Hwv) as (c & tail & Ec & Hs & H93 & _).
    assert (exists tail', join_comma (map (print_with html) (v :: l)) ++ 93 :: rest = c :: tail') as [tail' Et]
      by (destruct l; cbn [map join_comma]; rewrite Ec; cbn [app]; by eexists).
    rewrite Et in *. rewrite skip_space_head by done. by rewrite (proj2 (Z.eqb_neq _ _) H93), E.
  - destruct depth as [|depth]; [done|]. cbn [writable] in Hw. cbn [print] in *. fold (print_member html) in *. change (fun member : string * json => quote_with html member.1 ++ 58 :: print_with html member.2) with (print_member html) in *.
    cbn [app]. cbn [parse_value]. rewrite skip_space_head by done. change (123 =? 34) with false. change (123 =? 123) with true. cbv iota.
    cbn [length] in Hf. rewrite length_app in Hf. cbn [length] in Hf. rewrite <- app_assoc. cbn [app]. destruct ms as [|m ms]; [reflexivity|].
    pose proof (parse_members_print (m :: ms) IH ltac:(done) fuel depth rest ltac:(lia) Hw) as E.
    assert (exists tail', join_comma (map (print_member html) (m :: ms)) ++ 125 :: rest = 34 :: tail') as [tail' Et]
      by (destruct ms; cbn [map join_comma]; unfold print_member at 1; unfold quote_with at 1; cbn [app]; by eexists).
    rewrite Et in *. rewrite skip_space_head by done. change (34 =? 125) with false. cbv iota. by rewrite E.
Qed.

Lemma encode_text_bytes {html} n : forall l, byte_list l -> byte_list (encode_text html n l).
Proof.
  induction n as [|n IH]; intros [|a l] Hl; [constructor..|]. cbn [encode_text]. destruct (decode_rune (a :: l)) as [w r] eqn:Er. cbn [fst].
  apply Forall_app. split; [|apply IH; by apply Forall_drop]. unfold encode_rune. cbn [fst snd]. destruct r as [c|]; [|by repeat constructor; lia].
  destruct (decode_rune_some _ _ _ Er) as (bytes & tail & El & _ & Hu). assert (byte_list bytes) as Hb by (rewrite El in Hl; by apply Forall_app in Hl as [? _]).
  pose proof (utf8_rune_nonneg _ _ Hu Hb). destruct (_ || _) eqn:E1; [bprop; repeat constructor; lia|].
  do 5 (match goal with |- context [if ?b then _ else _] => destruct b end; [repeat constructor; lia|]).
  destruct (_ || _) eqn:E2 in |- *; [|destruct (_ || _) eqn:E3 in |- *; [bprop; repeat constructor; lia|by apply Forall_take]].
  assert (0 <= c < 256) by (bprop; lia). pose proof (Z.mod_pos_bound c 16). pose proof (Z.div_pos c 16). pose proof (Z.div_lt_upper_bound c 16 16).
  assert (forall d, 0 <= d < 16 -> 0 <= hex_digit d < 256) as Hd by (intros d ?; unfold hex_digit; destruct (d <? 10); lia).
  repeat constructor; try lia; apply Hd; lia.
Qed.

Lemma quote_bytes {html} s : byte_list (quote_with html s).
Proof. unfold quote_with. constructor; [lia|]. apply Forall_app. split; [apply encode_text_bytes, byte_codes_bytes|by repeat constructor; lia]. Qed.

Lemma join_comma_bytes l : Forall byte_list l -> byte_list (join_comma l).
Proof.
  induction 1 as [|x l Hx Hl IH]; [constructor|]. destruct l as [|y l]; [done|]. change (join_comma (x :: y :: l)) with (x ++ 44 :: join_comma (y :: l)).
  apply Forall_app. split; [done|]. constructor; [lia|done].
Qed.

Lemma print_bytes {html} v : forall depth, writable depth v -> byte_list (print_with html v).
Proof.
  induction v as [|[]|lit|s|l IH|ms IH] using json_nested_ind; intros depth Hw; [by repeat constructor; lia..| | | |].
  - cbn [print]. assert (number_literal lit) as [_ Hb _] by (by destruct depth). exact Hb.
  - apply quote_bytes.
  - destruct depth as [|depth]; [done|]. cbn [writable] in Hw. cbn [print]. constructor; [lia|]. apply Forall_app. split; [|by repeat constructor; lia].
    apply join_comma_bytes, Forall_map. apply Forall_forall. intros v Hv. eapply (proj1 (Forall_forall _ _) IH v Hv), (proj1 (Forall_forall _ _) Hw v Hv).
  - destruct depth as [|depth]; [done|]. cbn [writable] in Hw. cbn [print]. constructor; [lia|]. apply Forall_app. split; [|by repeat constructor; lia].
    apply join_comma_bytes, Forall_map. apply Forall_forall. intros m Hm. destruct (proj1 (Forall_forall _ _) Hw m Hm) as [_ Hwm].
    cbn beta. apply Forall_app. split; [apply quote_bytes|]. constructor; [lia|]. by eapply (proj1 (Forall_forall _ _) IH m Hm).
Qed.

(** What is written is read back, with white space after it or not. *)
Lemma parse_document_marshal {html} v tail : writable (Z.to_nat maxNestingDepth) v -> byte_list tail -> skip_space tail = [] ->
  parse_document (of_codes (print_with html v ++ tail)) = Some (read_back v).
Proof.
  intros Hw Hb Ht. unfold parse_document. rewrite byte_codes_of_codes by (apply Forall_app; split; [by eapply print_bytes|done]).
  rewrite parse_print; [by rewrite Ht|rewrite length_app; lia|done|]. destruct tail as [|c tail]; [done|]. cbn [skip_space] in Ht.
  destruct (json_space c) eqn:Ec; [|done]. unfold json_space in Ec. unfold ends_number, json_digit, in_range.
  rewrite !orb_true_iff, !Z.eqb_eq in Ec. rewrite !(proj2 (Z.eqb_neq _ _)), (proj2 (Z.leb_gt 48 _)) by lia. done.
Qed.

Lemma nesting_deep : exists n, Z.to_nat maxNestingDepth = S (S (S n)).
Proof. exists (Z.to_nat 9997). unfold maxNestingDepth. lia. Qed.

Lemma object_writable depth ms : Forall (fun m => utf8_valid m.1 = true /\ writable depth m.2) ms -> writable (S depth) (JObject ms).
Proof. done. Qed.
Lemma string_writable depth s : writable depth (JString s).
Proof. by destruct depth. Qed.

(** ** Written JSON is one line of UTF-8 *)

(** Well-formed runes from [low] on. *)
Inductive clean (low : Z) : list Z -> Prop :=
| clean_nil : clean low []
| clean_rune bytes c tail : utf8_rune bytes c -> low <= c -> clean low tail -> clean low (bytes ++ tail).

Lemma clean_cons low c l : low <= c < 128 -> clean low l -> clean low (c :: l).
Proof. intros H Hl. apply (clean_rune low [c] c l); [apply utf8_1; lia|lia|done]. Qed.
Lemma clean_app low low' l l' : low <= low' -> clean low' l -> clean low l' -> clean low (l ++ l').
Proof. intros Hlow. induction 1 as [|bytes c tail Hu Hc _ IH]; intros H; [done|]. rewrite <- app_assoc. econstructor; [done|lia|by apply IH]. Qed.
Lemma clean_ascii low l : Forall (fun c => low <= c < 128) l -> clean low l.
Proof. induction 1; [constructor|by apply clean_cons]. Qed.

Lemma clean_runes low n : forall l, (length l <= n)%nat -> clean low l -> forallb (fun r => match r.2 with Some _ => true | None => false end) (runes_fuel n l) = true.
Proof.
  induction n as [|n IH]; intros l Hl Hc; [done|]. destruct Hc as [|bytes c tail Hu _ Ht]; [done|]. assert (1 <= length bytes)%nat by (destruct Hu; cbn; lia).
  destruct (bytes ++ tail) as [|a rest] eqn:E; [done|]. cbn [runes_fuel]. rewrite <- E, (utf8_rune_decode _ _ _ Hu). cbn [fst snd forallb]. unfold lenZ. rewrite Nat2Z.id, drop_app_length. cbn [andb].
  apply IH; [|done]. rewrite <- E, length_app in Hl. lia.
Qed.

Lemma clean_one_line l : clean 32 l -> List.filter (Z.eqb 10) l = [].
Proof.
  induction 1 as [|bytes c tail Hu Hc _ IH]; [done|]. rewrite List.filter_app, IH, app_nil_r. clear IH.
  destruct Hu as [a Ha|a b Ha Hb|a b c Ha Hb Hd|a b c d Ha Hb Hd He]; unfold cont, in_range in *; bprop; cbn [List.filter];
    rewrite ?(proj2 (Z.eqb_neq 10 _)); try done; try lia; repeat case_match; lia.
Qed.

Lemma hex_digit_clean d : 0 <= d < 16 -> 32 <= hex_digit d < 128.
Proof. intros H. unfold hex_digit. destruct (d <? 10); lia. Qed.

Lemma encode_text_clean {html} n : forall l, byte_list l -> clean 32 (encode_text html n l).
Proof.
  induction n as [|n IH]; intros [|a l] Hl; [constructor..|]. cbn [encode_text]. destruct (decode_rune (a :: l)) as [w r] eqn:Er. cbn [fst].
  apply (clean_app 32 32); [lia| |apply IH; by apply Forall_drop]. unfold encode_rune. cbn [fst snd]. destruct r as [c|]; [|apply clean_ascii; by repeat constructor; lia].
  destruct (decode_rune_some _ _ _ Er) as (bytes & tail & El & Ew & Hu). assert (byte_list bytes) as Hb by (rewrite El in Hl; by apply Forall_app in Hl as [? _]).
  pose proof (utf8_rune_nonneg _ _ Hu Hb). destruct (_ || _) eqn:E1; [bprop; apply clean_ascii; repeat constructor; lia|].
  do 5 (match goal with |- context [if ?b then _ else _] => destruct b end; [apply clean_ascii; repeat constructor; lia|]).
  destruct (_ || _) eqn:E2 in |- *; [|destruct (_ || _) eqn:E3 in |- *; [bprop; apply clean_ascii; repeat constructor; lia|]].
  - assert (0 <= c < 256) by (bprop; lia). pose proof (Z.mod_pos_bound c 16). pose proof (Z.div_pos c 16). pose proof (Z.div_lt_upper_bound c 16 16).
    apply clean_ascii. repeat constructor; try lia; apply hex_digit_clean; lia.
  - rewrite El, Ew. unfold lenZ. rewrite Nat2Z.id, take_app_length. rewrite <- (app_nil_r bytes). apply (clean_rune 32 bytes c); [done| |constructor]. apply orb_false_iff in E2 as [E2 _]. by apply Z.ltb_ge in E2.
Qed.

Lemma quote_clean {html} s : clean 32 (quote_with html s).
Proof. unfold quote_with. apply clean_cons; [lia|]. apply (clean_app 32 32); [lia|apply encode_text_clean, byte_codes_bytes|by apply clean_cons; [lia|constructor]]. Qed.

(** ** Sizes *)

Lemma encode_rune_short html l r : (1 <= length l)%nat -> 0 <= r.1 -> lenZ (encode_rune html l r) <= 6 * Z.max 1 r.1.
Proof.
  intros Hl Hr. unfold encode_rune. destruct r as [w [c|]]; cbn [fst snd] in *; [|unfold lenZ; cbn [length]; lia]. repeat (match goal with |- context [if ?b then _ else _] => destruct b end; [unfold lenZ; cbn [length]; lia|]).
  unfold lenZ. rewrite length_take. lia.
Qed.
Lemma encode_text_short html n : forall l, lenZ (encode_text html n l) <= 6 * lenZ l.
Proof.
  induction n as [|n IH]; intros [|a l]; [done|cbn [encode_text]; rewrite lenZ_nil; pose proof (lenZ_nonneg (a :: l)); lia|done|]. cbn [encode_text]. rewrite lenZ_app.
  pose proof (encode_rune_short html (a :: l) (decode_rune (a :: l)) ltac:(cbn; lia) (decode_rune_width _)). pose proof (IH (drop (Z.to_nat (decode_rune (a :: l)).1) (a :: l))) as Hd.
  destruct (decode_rune_bounds a l) as (Hw & _). unfold lenZ in *. rewrite length_drop in Hd. lia.
Qed.
Lemma quote_short {html} s : lenZ (quote_with html s) <= 2 + 6 * slen s.
Proof.
  unfold quote_with. rewrite lenZ_cons, lenZ_app. pose proof (encode_text_short html (String.length s) (byte_codes s)). change (lenZ [34]) with 1.
  unfold lenZ at 2 in H. rewrite byte_codes_length in H. lia.
Qed.
Lemma decimal_short n : lenZ (decimal n) <= 20.
Proof.
  unfold decimal. enough (forall f n, (lenZ (decimal_fuel f n) <= Z.of_nat f)) as H by apply (H 20%nat). clear. induction f as [|f IH]; intros n; [done|].
  cbn [decimal_fuel]. destruct (n <? 10); [unfold lenZ; cbn [length]; lia|]. rewrite lenZ_app. specialize (IH (n / 10)). change (lenZ [48 + n mod 10]) with 1. lia.
Qed.

Lemma join_comma_length l : lenZ (join_comma l) <= sumZ (fun x => 1 + lenZ x) l.
Proof.
  induction l as [|x l IH]; [done|]. rewrite sumZ_cons. destruct l as [|y l]; [cbn [join_comma]; rewrite sumZ_nil; lia|].
  change (join_comma (x :: y :: l)) with (x ++ 44 :: join_comma (y :: l)). rewrite lenZ_app, lenZ_cons. lia.
Qed.
Lemma object_length {html} ms : lenZ (print_with html (JObject ms)) <= 2 + sumZ (fun m => 2 + lenZ (quote_with html m.1) + lenZ (print_with html m.2)) ms.
Proof.
  cbn [print_with]. rewrite lenZ_cons, lenZ_app. change (lenZ [125]) with 1. pose proof (join_comma_length (map (fun member : string * json => quote_with html member.1 ++ 58 :: print_with html member.2) ms)) as H.
  assert (sumZ (fun x => 1 + lenZ x) (map (fun member : string * json => quote_with html member.1 ++ 58 :: print_with html member.2) ms) = sumZ (fun m => 2 + lenZ (quote_with html m.1) + lenZ (print_with html m.2)) ms) as E; [|lia].
  clear. induction ms as [|m ms IH]; [done|]. cbn [map]. rewrite !sumZ_cons, IH, lenZ_app, lenZ_cons. lia.
Qed.

Lemma string_length {html} s : lenZ (print_with html (JString s)) <= 2 + 6 * slen s.
Proof. apply quote_short. Qed.

(** Every string is valid UTF-8. *)
Fixpoint json_utf8 (v : json) : bool :=
  match v with
  | JString s => utf8_valid s
  | JArray l => forallb json_utf8 l
  | JObject ms => forallb (fun m => json_utf8 m.2) ms
  | _ => true
  end.

Lemma map_id_Forall {A} (f : A -> A) l : Forall (fun x => f x = x) l -> map f l = l.
Proof. induction 1 as [|x l Hx _ IH]; [done|]. cbn [map]. by rewrite Hx, IH. Qed.

Lemma read_back_utf8 v : json_utf8 v = true -> read_back v = v.
Proof.
  induction v as [|b|lit|s|l IH|ms IH] using json_nested_ind; intros H; try done; cbn [json_utf8 read_back] in *.
  - by rewrite sanitize_valid.
  - f_equal. apply map_id_Forall. apply Forall_forall. intros v Hv. apply (proj1 (Forall_forall _ _) IH v Hv). rewrite forallb_forall in H. apply H. by apply list_elem_of_In.
  - f_equal. apply map_id_Forall. apply Forall_forall. intros [k v] Hv. cbn [fst snd]. f_equal. apply (proj1 (Forall_forall _ _) IH (k, v) Hv). rewrite forallb_forall in H.
    apply (H (k, v)). by apply list_elem_of_In.
Qed.

(** Different values are written differently. *)
Lemma print_inj {html} v w : writable (Z.to_nat maxNestingDepth) v -> writable (Z.to_nat maxNestingDepth) w -> json_utf8 v = true -> json_utf8 w = true ->
  print_with html v = print_with html w -> v = w.
Proof.
  intros Hv Hw Uv Uw E. pose proof (parse_document_marshal (html := html) v [] Hv ltac:(constructor) eq_refl) as Pv. pose proof (parse_document_marshal (html := html) w [] Hw ltac:(constructor) eq_refl) as Pw.
  rewrite E in Pv. rewrite Pv in Pw. rewrite (read_back_utf8 v Uv), (read_back_utf8 w Uw) in Pw. by injection Pw.
Qed.

(** [strconv.FormatInt]. *)
Definition integer (n : Z) : list Z := if n <? 0 then 45 :: decimal (- n) else decimal n.

Lemma integer_literal n : - maxUint64 <= n <= maxUint64 -> number_literal (integer n).
Proof.
  intros Hn. unfold integer. destruct (Z.ltb_spec n 0) as [Hlt|Hge]; [|apply decimal_literal; unfold uint64_ok; lia].
  destruct (decimal_literal (- n) ltac:(unfold uint64_ok; lia)) as [(c & tail & Ec & Hc) Hb Hp]. split.
  - exists 45, (decimal (- n)). split; [done|by left].
  - constructor; [lia|done].
  - intros rest Hr. specialize (Hp rest Hr). unfold parse_number in *. cbn [app]. change (45 =? 45) with true. cbv iota.
    assert (c <> 45) as Hne. { destruct (decimal_fuel_facts 20 (- n) (uint64_decimal (- n) ltac:(unfold uint64_ok; lia)) ltac:(lia)) as (_ & _ & c' & t' & E' & Hc' & _). unfold decimal in Ec. rewrite Ec in E'. injection E' as -> _. lia. }
    rewrite Ec in *. cbn [app] in *. rewrite (proj2 (Z.eqb_neq _ _) Hne) in Hp. by rewrite Hp.
Qed.

Lemma integer_inj n m : - maxUint64 <= n <= maxUint64 -> - maxUint64 <= m <= maxUint64 -> integer n = integer m -> n = m.
Proof.
  intros Hn Hm. assert (forall a b, uint64_ok a -> uint64_ok b -> decimal a = decimal b -> a = b) as Hd.
  { intros a b Ha Hb E. pose proof (parse_uint_decimal a Ha) as Pa. rewrite E, (parse_uint_decimal b Hb) in Pa. by injection Pa. }
  assert (forall a, uint64_ok a -> forall t, decimal a <> 45 :: t) as Hno.
  { intros a Ha t E. destruct (decimal_fuel_facts 20 a (uint64_decimal _ Ha) ltac:(lia)) as (_ & _ & c & t' & E' & Hc & _). unfold decimal in E. rewrite E in E'. injection E' as <- _. lia. }
  unfold integer. destruct (Z.ltb_spec n 0), (Z.ltb_spec m 0); intros E.
  - injection E as E. enough (- n = - m) by lia. apply Hd; [unfold uint64_ok; lia..|done].
  - exfalso. symmetry in E. eapply Hno; [|exact E]. unfold uint64_ok; lia.
  - exfalso. eapply Hno; [|exact E]. unfold uint64_ok; lia.
  - apply Hd; [unfold uint64_ok; lia..|done].
Qed.

(** ** Decoding into structs *)

(** [foldName]: names of fields match without regard to case.  Of the runes
    outside ASCII only U+017F and U+212A fold into it. *)
Definition fold_rune (r : Z * option Z) : list Z :=
  match r.2 with
  | Some c => if in_range 97 122 c then [c - 32] else if c =? 383 then [83] else if c =? 8490 then [75] else encode_utf8 c
  | None => replacement
  end.
Definition fold_name (key : string) : list Z := concat (map fold_rune (runes key)).
(** The member [key] sets the field [name]; the names of a struct differ from
    each other without regard to case. *)
Definition field_is (name key : string) : bool := String.eqb name key || bool_decide (fold_name name = fold_name key).

(** A value stored into a field that holds [current]; null leaves it alone. *)
Definition decode_string (v : json) (current : string) : option string :=
  match v with JString s => Some s | JNull => Some current | _ => None end.
Definition decode_uint64 (v : json) (current : Z) : option Z :=
  match v with JNumber lit => parse_uint lit | JNull => Some current | _ => None end.
Definition decode_int (bits : Z) (v : json) (current : Z) : option Z :=
  match v with JNumber lit => parse_int bits lit | JNull => Some current | _ => None end.

(** The members of an object in order. *)
Fixpoint decode_members {A} (set : string -> json -> A -> option A) (ms : list (string * json)) (current : A) : option A :=
  match ms with
  | [] => Some current
  | (k, v) :: ms => match set k v current with Some next => decode_members set ms next | None => None end
  end.
Definition decode_struct {A} (set : string -> json -> A -> option A) (v : json) (current : A) : option A :=
  match v with JObject ms => decode_members set ms current | JNull => Some current | _ => None end.

Lemma field_is_refl name : field_is name name = true.
Proof. unfold field_is. by rewrite String.eqb_refl. Qed.
