(* ===== verification/GoBase64.v ===== *)
(** [encoding/base64]: the raw URL encoding, without padding, and its strict
    decoder. *)
From Stdlib Require Import ZArith Lia.
From stdpp Require Import base list strings.
From S2P Require Import Prelude GoText GoOrder GoJson GoCrypto.
Open Scope Z_scope.

(** The digit of a value below 64, and back. *)
Definition base64_digit (v : Z) : Z :=
  if v <? 26 then 65 + v else if v <? 52 then 71 + v else if v <? 62 then v - 4 else if v =? 62 then 45 else 95.
Definition base64_value (c : Z) : option Z :=
  if in_range 65 90 c then Some (c - 65) else if in_range 97 122 c then Some (c - 71) else if in_range 48 57 c then Some (c + 4)
  else if c =? 45 then Some 62 else if c =? 95 then Some 63 else None.

(** Three bytes are four digits. *)
Fixpoint base64_sextets (l : list Z) : list Z :=
  match l with
  | a :: b :: c :: rest => a / 4 :: (a mod 4) * 16 + b / 16 :: (b mod 16) * 4 + c / 64 :: c mod 64 :: base64_sextets rest
  | [a; b] => [a / 4; (a mod 4) * 16 + b / 16; (b mod 16) * 4]
  | [a] => [a / 4; (a mod 4) * 16]
  | [] => []
  end.
Definition base64_encode (s : string) : string := of_codes (map base64_digit (base64_sextets (byte_codes s))).

(** The unused bits of the last digit are zero. *)
Fixpoint base64_bytes (l : list Z) : option (list Z) :=
  match l with
  | a :: b :: c :: d :: rest =>
      (fun tail => a * 4 + b / 16 :: (b mod 16) * 16 + c / 4 :: (c mod 4) * 64 + d :: tail) <$> base64_bytes rest
  | [a; b; c] => if c mod 4 =? 0 then Some [a * 4 + b / 16; (b mod 16) * 16 + c / 4] else None
  | [a; b] => if b mod 16 =? 0 then Some [a * 4 + b / 16] else None
  | [_] => None
  | [] => Some []
  end.
(** Line ends are skipped. *)
Definition base64_decode (s : string) : option string :=
  values ← mapM base64_value (List.filter (fun c => negb ((c =? 10) || (c =? 13))) (byte_codes s));
  of_codes <$> base64_bytes values.

Example base64_vector : base64_encode (of_codes [251; 255; 0; 1]) = "-_8AAQ"%string.
Proof. reflexivity. Qed.

Lemma base64_digit_value v : 0 <= v < 64 -> base64_value (base64_digit v) = Some v.
Proof.
  intros Hv. unfold base64_digit, base64_value, in_range.
  destruct (Z.ltb_spec v 26); [rewrite !(proj2 (Z.leb_le _ _)) by lia; cbn [andb]; f_equal; lia|].
  destruct (Z.ltb_spec v 52); [rewrite (proj2 (Z.leb_gt _ 90)), andb_false_r, !(proj2 (Z.leb_le _ _)) by lia; cbn [andb]; f_equal; lia|].
  destruct (Z.ltb_spec v 62); [rewrite (proj2 (Z.leb_gt 65 _)), (proj2 (Z.leb_gt 97 _)), !(proj2 (Z.leb_le _ _)) by lia; cbn [andb]; f_equal; lia|].
  destruct (Z.eqb_spec v 62) as [->|]; [reflexivity|]. assert (v = 63) as -> by lia. reflexivity.
Qed.

Lemma base64_digit_plain v : 0 <= v < 64 -> 45 <= base64_digit v <= 122.
Proof. intros Hv. unfold base64_digit. repeat (match goal with |- context [if ?x <? ?y then _ else _] => destruct (Z.ltb_spec x y) end; [lia|]). destruct (_ =? _); lia. Qed.

(** Induction by groups of three. *)
Lemma triple_ind (P : list Z -> Prop) : P [] -> (forall a, P [a]) -> (forall a b, P [a; b]) -> (forall a b c l, P l -> P (a :: b :: c :: l)) -> forall l, P l.
Proof.
  intros H0 H1 H2 H3 l. remember (length l) as n eqn:En. assert (length l <= n)%nat as Hl by lia. clear En. revert l Hl. induction n as [|n IH]; intros [|a [|b [|c l]]] Hl; auto; cbn in Hl; try lia.
  apply H3, IH. lia.
Qed.

Lemma base64_sextets_range l : byte_list l -> Forall (fun v => 0 <= v < 64) (base64_sextets l).
Proof.
  induction l as [|a|a b|a b c l IH] using triple_ind; intros H; [constructor|..]; repeat (apply Forall_cons in H as [? H]); cbn [base64_sextets];
    repeat (apply Forall_cons; split); try (apply Forall_nil; done); try (Z.to_euclidean_division_equations; lia). by apply IH.
Qed.

Lemma base64_bytes_sextets l : byte_list l -> base64_bytes (base64_sextets l) = Some l.
Proof.
  induction l as [|a|a b|a b c l IH] using triple_ind; intros H; [done|..]; repeat (apply Forall_cons in H as [? H]); cbn [base64_sextets base64_bytes].
  - rewrite (proj2 (Z.eqb_eq _ _)) by (Z.to_euclidean_division_equations; lia). do 2 f_equal. Z.to_euclidean_division_equations; lia.
  - rewrite (proj2 (Z.eqb_eq _ _)) by (Z.to_euclidean_division_equations; lia). do 2 f_equal; [Z.to_euclidean_division_equations; lia|]. f_equal. Z.to_euclidean_division_equations; lia.
  - rewrite IH by done. cbn [fmap option_fmap option_map]. f_equal. f_equal; [|f_equal; [|f_equal]]; Z.to_euclidean_division_equations; lia.
Qed.

Lemma base64_codes s : byte_codes (base64_encode s) = map base64_digit (base64_sextets (byte_codes s)).
Proof.
  unfold base64_encode. apply byte_codes_of_codes. apply Forall_map. eapply Forall_impl; [apply base64_sextets_range, byte_codes_bytes|]. intros v Hv. cbn. pose proof (base64_digit_plain v Hv). lia.
Qed.

Lemma base64_decode_encode s : base64_decode (base64_encode s) = Some s.
Proof.
  unfold base64_decode. rewrite base64_codes. pose proof (base64_sextets_range _ (byte_codes_bytes s)) as Hr.
  assert (List.filter (fun c => negb ((c =? 10) || (c =? 13))) (map base64_digit (base64_sextets (byte_codes s))) = map base64_digit (base64_sextets (byte_codes s))) as ->.
  { induction Hr as [|v l Hv _ IH]; [done|]. cbn [map List.filter]. pose proof (base64_digit_plain v Hv). rewrite !(proj2 (Z.eqb_neq _ _)) by lia. cbn [orb negb]. by rewrite IH. }
  assert (mapM base64_value (map base64_digit (base64_sextets (byte_codes s))) = Some (base64_sextets (byte_codes s))) as ->.
  { induction Hr as [|v l Hv _ IH]; [done|]. cbn [map mapM]. rewrite (base64_digit_value v Hv). cbn [mbind option_bind]. by rewrite IH. }
  cbn [mbind option_bind]. rewrite base64_bytes_sextets by apply byte_codes_bytes. cbn [fmap option_fmap option_map]. by rewrite of_codes_byte_codes.
Qed.

Lemma base64_inj s t : base64_encode s = base64_encode t -> s = t.
Proof. intros E. pose proof (base64_decode_encode s) as H. rewrite E, base64_decode_encode in H. by injection H. Qed.
