(* ===== verification/Message.v ===== *)
(** Conversation messages (src/message/message.go): the part constructors,
    [New], [Validate] and the byte accounting.  A Go [Part] has one field per
    payload and a discriminator; the model keeps that shape, so that values no
    constructor builds exist and [validPart] has something to reject. *)
From Stdlib Require Import ZArith Lia.
From stdpp Require Import base list strings.
From S2P Require Import Prelude GoText GoJson.
Open Scope Z_scope.

Definition maxIDLength : Z := 128.
Definition maxNamespaceLength : Z := 256.
Definition maxPartBytes : Z := Z.shiftl 1 20.
Definition maxMessageBytes : Z := Z.shiftl 4 20.
Definition maxMessageParts : Z := 128.

Inductive MessageError :=
| ErrToken (name : string)
| ErrTokenBytes (name : string)
| ErrText
| ErrTextBytes
| ErrStructured
| ErrStructuredBytes
| ErrRole
| ErrPartCount
| ErrPart (index : nat)
| ErrMessageBytes.

Definition validateToken (name value : string) (maximum : Z) : option MessageError :=
  if negb (trimmed_nonempty value) then Some (ErrToken name)
  else if slen value >? maximum then Some (ErrTokenBytes name)
  else None.

Definition NewID (value : string) : result MessageError string :=
  match validateToken "message ID" value maxIDLength with Some e => Err e | None => Ok value end.

Definition Role := string.
Definition RoleSystem : Role := "system".
Definition RoleUser : Role := "user".
Definition RoleAssistant : Role := "assistant".
Definition RoleTool : Role := "tool".

Definition PartKind := string.
Definition PartText : PartKind := "text".
Definition PartToolCall : PartKind := "tool_call".
Definition PartToolResult : PartKind := "tool_result".
Definition PartExtension : PartKind := "extension".

Record Part := mkPart {
  pt_kind : PartKind;
  pt_text : string;
  pt_name : string;
  pt_callID : string;
  pt_namespace : string;
  pt_data : string
}.

Definition Text (value : string) : result MessageError Part :=
  if String.eqb value "" then Err ErrText
  else if slen value >? maxPartBytes then Err ErrTextBytes
  else Ok (mkPart PartText value "" "" "" "").

Definition structuredPart (kind : PartKind) (callID name namespace value : string)
  : result MessageError Part :=
  let tokens :=
    if negb (String.eqb kind PartExtension) then
      match validateToken "tool call ID" callID maxIDLength with
      | Some e => Some e
      | None => validateToken "tool name" name maxIDLength
      end
    else None in
  match tokens with
  | Some e => Err e
  | None =>
      if (slen value =? 0) || negb (json_valid value) then Err ErrStructured
      else if slen value >? maxPartBytes then Err ErrStructuredBytes
      else Ok (mkPart kind "" name callID namespace value)
  end.

Definition ToolCall (callID name arguments : string) : result MessageError Part :=
  structuredPart PartToolCall callID name "" arguments.
Definition ToolResult (callID name value : string) : result MessageError Part :=
  structuredPart PartToolResult callID name "" value.
Definition Extension (namespace value : string) : result MessageError Part :=
  match validateToken "extension namespace" namespace maxNamespaceLength with
  | Some e => Err e
  | None => structuredPart PartExtension "" "" namespace value
  end.

Definition encodedSize (part : Part) : Z :=
  slen (pt_kind part) + slen (pt_text part) + slen (pt_name part) + slen (pt_callID part)
  + slen (pt_namespace part) + slen (pt_data part).

Definition validRole (role : Role) : bool :=
  elem_str role [RoleSystem; RoleUser; RoleAssistant; RoleTool].

Definition token_ok (name value : string) (maximum : Z) : bool :=
  match validateToken name value maximum with None => true | Some _ => false end.

Definition validPart (part : Part) : bool :=
  let kind := pt_kind part in
  if String.eqb kind PartText then negb (String.eqb (pt_text part) "") && (slen (pt_text part) <=? maxPartBytes)
  else if String.eqb kind PartToolCall || String.eqb kind PartToolResult then
    token_ok "tool call ID" (pt_callID part) maxIDLength
    && token_ok "tool name" (pt_name part) maxIDLength
    && (slen (pt_data part) <=? maxPartBytes) && json_valid (pt_data part)
  else if String.eqb kind PartExtension then
    token_ok "extension namespace" (pt_namespace part) maxNamespaceLength
    && (slen (pt_data part) <=? maxPartBytes) && json_valid (pt_data part)
  else false.

Record Message := mkMessage { ms_id : string; ms_role : Role; ms_parts : list Part }.

Definition part_check (index : nat) (part : Part) : option MessageError :=
  if validPart part then None else Some (ErrPart index).

(** The loop over the parts: [validPart], then the running byte total. *)
Definition parts_loop : Z -> list Part -> result MessageError Z :=
  admit_loop part_check (fun _ => None) (fun _ => ErrMessageBytes) encodedSize
    ErrMessageBytes maxMessageBytes 0 [].

Definition New (id : string) (role : Role) (parts : list Part) : result MessageError Message :=
  match NewID id with
  | Err e => Err e
  | Ok _ =>
    if negb (validRole role) then Err ErrRole
    else if (lenZ parts =? 0) || (lenZ parts >? maxMessageParts) then Err ErrPartCount
    else match parts_loop (slen id + slen role) parts with
    | Err e => Err e
    | Ok _ => Ok (mkMessage id role parts)
    end
  end.

Definition Validate (value : Message) : option MessageError :=
  match New (ms_id value) (ms_role value) (ms_parts value) with Ok _ => None | Err e => Some e end.

Definition SizeBytes (value : Message) : Z :=
  slen (ms_id value) + slen (ms_role value) + sumZ encodedSize (ms_parts value).

(** ** Lemmas *)

Lemma validateToken_spec name value maximum :
  validateToken name value maximum = None <-> trimmed_nonempty value = true /\ slen value <= maximum.
Proof.
  unfold validateToken. destruct (trimmed_nonempty value); simpl; [|by split; [|intros []]].
  destruct (Z.gtb_spec (slen value) maximum); split; try done; lia.
Qed.

Lemma token_ok_spec name value maximum :
  token_ok name value maximum = true <-> trimmed_nonempty value = true /\ slen value <= maximum.
Proof.
  rewrite <- (validateToken_spec name). unfold token_ok. by destruct (validateToken _ _ _).
Qed.

Lemma encodedSize_nonneg part : 0 <= encodedSize part.
Proof.
  unfold encodedSize.
  pose proof (slen_nonneg (pt_kind part)). pose proof (slen_nonneg (pt_text part)).
  pose proof (slen_nonneg (pt_name part)). pose proof (slen_nonneg (pt_callID part)).
  pose proof (slen_nonneg (pt_namespace part)). pose proof (slen_nonneg (pt_data part)). lia.
Qed.

(** What [New] accepts. *)
Definition message_ok (m : Message) : Prop :=
  trimmed_nonempty (ms_id m) = true /\ slen (ms_id m) <= maxIDLength
  /\ ms_role m ∈ [RoleSystem; RoleUser; RoleAssistant; RoleTool]
  /\ 1 <= lenZ (ms_parts m) <= maxMessageParts
  /\ Forall (fun p => validPart p = true) (ms_parts m)
  /\ SizeBytes m <= maxMessageBytes.

Lemma parts_loop_Ok total parts t :
  parts_loop total parts = Ok t <->
  Forall (fun p => validPart p = true) parts /\ t = total + sumZ encodedSize parts
  /\ (parts = [] \/ t <= maxMessageBytes).
Proof.
  unfold parts_loop. rewrite (admit_loop_Ok _ _ _ _ _ _ (fun p => validPart p = true));
    [|intros i x; unfold part_check; by destruct (validPart x)|apply encodedSize_nonneg].
  assert (omap (fun _ : Part => None : option string) parts = []) as -> by (by induction parts).
  intuition auto using NoDup_nil_2, Forall_nil_2.
Qed.

Lemma New_Ok id role parts m :
  New id role parts = Ok m <-> m = mkMessage id role parts /\ message_ok m.
Proof.
  unfold New, NewID, message_ok, SizeBytes. pose proof (validateToken_spec "message ID" id maxIDLength) as Ht.
  destruct (validateToken _ _ _) as [e|].
  { split; [done|]. intros (-> & H1 & H2 & _). discriminate (proj2 Ht (conj H1 H2)). }
  destruct (proj1 Ht eq_refl) as [H1 H2]. clear Ht.
  unfold validRole. destruct (elem_str role _) eqn:Er; cbn [negb].
  2:{ split; [done|]. intros (-> & _ & _ & Hr & _). cbn [ms_role] in Hr. apply elem_str_spec in Hr. congruence. }
  apply elem_str_spec in Er. pose proof (lenZ_nonneg parts).
  destruct (Z.eqb_spec (lenZ parts) 0); simpl; [split; [done|]; intros (-> & _ & _ & _ & ? & _); simpl in *; lia|].
  destruct (Z.gtb_spec (lenZ parts) maxMessageParts); simpl.
  { split; [done|]; intros (-> & _ & _ & _ & ? & _); simpl in *; lia. }
  destruct (parts_loop (slen id + slen role) parts) as [t|e] eqn:El.
  - apply parts_loop_Ok in El as (Hv & -> & Hs). split; [intros [= <-]|by intros [-> _]]. simpl.
    destruct Hs as [->|Hs]; [done|]. repeat split; auto; lia.
  - split; [done|]. intros (-> & _ & _ & _ & _ & Hv & Hs). simpl in *.
    assert (parts_loop (slen id + slen role) parts = Ok (slen id + slen role + sumZ encodedSize parts))
      by (apply parts_loop_Ok; repeat split; auto; right; lia). congruence.
Qed.

Lemma Validate_Ok m : Validate m = None <-> message_ok m.
Proof.
  unfold Validate. destruct m as [id role parts]; cbn [ms_id ms_role ms_parts].
  destruct (New id role parts) as [m|e] eqn:E.
  - apply New_Ok in E as [-> H]. done.
  - split; [done|]. intros H. by rewrite (proj2 (New_Ok id role parts _) (conj eq_refl H)) in E.
Qed.

(** ** Theorems *)

(** [New] accepts exactly the well-formed messages: a bounded trimmed
    identifier, a known role, 1 to 128 valid parts and at most 4 MiB by
    [SizeBytes].  It keeps its arguments, and what it builds revalidates; an
    invalid value is refused by [Validate]. *)
Theorem message_new_exact id role parts :
  (forall m, New id role parts = Ok m <-> m = mkMessage id role parts /\ message_ok m)
  /\ (Validate (mkMessage id role parts) = None <-> message_ok (mkMessage id role parts)).
Proof.
  split; [apply New_Ok|apply Validate_Ok].
Qed.

(** A valid part whose inactive payloads are empty. *)
Definition part_strict (part : Part) : Prop :=
  validPart part = true
  /\ (if String.eqb (pt_kind part) PartText
      then pt_name part = ""%string /\ pt_callID part = ""%string /\ pt_namespace part = ""%string
           /\ pt_data part = ""%string
      else pt_text part = ""%string
           /\ (if String.eqb (pt_kind part) PartExtension
               then pt_name part = ""%string /\ pt_callID part = ""%string
               else pt_namespace part = ""%string)).

(** The constructor call that rebuilds a part. *)
Definition rebuild (part : Part) : result MessageError Part :=
  if String.eqb (pt_kind part) PartText then Text (pt_text part)
  else if String.eqb (pt_kind part) PartToolCall then ToolCall (pt_callID part) (pt_name part) (pt_data part)
  else if String.eqb (pt_kind part) PartToolResult then ToolResult (pt_callID part) (pt_name part) (pt_data part)
  else Extension (pt_namespace part) (pt_data part).

Lemma json_valid_nonempty s : json_valid s = true -> slen s <> 0.
Proof. destruct s; [vm_compute; discriminate|]. unfold slen. simpl. lia. Qed.

Lemma structured_Ok kind callID name namespace value part :
  structuredPart kind callID name namespace value = Ok part <->
  part = mkPart kind "" name callID namespace value
  /\ (kind <> PartExtension -> token_ok "tool call ID" callID maxIDLength = true
                              /\ token_ok "tool name" name maxIDLength = true)
  /\ json_valid value = true /\ slen value <= maxPartBytes.
Proof.
  unfold structuredPart, token_ok. pose proof (json_valid_nonempty value).
  destruct (String.eqb_spec kind PartExtension) as [->|Hk]; simpl.
  - destruct (Z.eqb_spec (slen value) 0), (json_valid value); simpl; try (split; [done|]; intuition congruence).
    destruct (Z.gtb_spec (slen value) maxPartBytes); [split; [done|]; intuition lia|].
    split; [intros [= <-]|]; intuition congruence.
  - destruct (validateToken "tool call ID" callID maxIDLength); [split; [done|]; intuition congruence|].
    destruct (validateToken "tool name" name maxIDLength); [split; [done|]; intuition congruence|].
    destruct (Z.eqb_spec (slen value) 0), (json_valid value); simpl; try (split; [done|]; intuition congruence).
    destruct (Z.gtb_spec (slen value) maxPartBytes); [split; [done|]; intuition lia|].
    split; [intros [= <-]|]; intuition congruence.
Qed.

(** Parts that some constructor returns. *)
Inductive built : Part -> Prop :=
| built_text value part : Text value = Ok part -> built part
| built_call callID name value part : ToolCall callID name value = Ok part -> built part
| built_result callID name value part : ToolResult callID name value = Ok part -> built part
| built_extension namespace value part : Extension namespace value = Ok part -> built part.

Lemma Text_Ok value part :
  Text value = Ok part <->
  part = mkPart PartText value "" "" "" "" /\ value <> ""%string /\ slen value <= maxPartBytes.
Proof.
  unfold Text. destruct (String.eqb_spec value ""); [split; [done|]; intuition|].
  destruct (Z.gtb_spec (slen value) maxPartBytes); [split; [done|]; intuition lia|].
  split; [intros [= <-]|]; intuition congruence.
Qed.

Lemma built_strict part : built part -> part_strict part.
Proof.
  intros [value p H|callID name value p H|callID name value p H|namespace value p H].
  - apply Text_Ok in H as (-> & Hv & Hl). split; [|done]. unfold validPart; simpl.
    apply String.eqb_neq in Hv. rewrite Hv. simpl. by apply Z.leb_le.
  - apply structured_Ok in H as (-> & Ht & Hj & Hl). destruct (Ht ltac:(discriminate)) as [H1 H2].
    split; [|done]. unfold validPart; cbn -[token_ok json_valid Z.leb maxPartBytes].
    rewrite H1, H2, Hj. simpl. by rewrite (proj2 (Z.leb_le _ _) Hl).
  - apply structured_Ok in H as (-> & Ht & Hj & Hl). destruct (Ht ltac:(discriminate)) as [H1 H2].
    split; [|done]. unfold validPart; cbn -[token_ok json_valid Z.leb maxPartBytes].
    rewrite H1, H2, Hj. simpl. by rewrite (proj2 (Z.leb_le _ _) Hl).
  - unfold Extension in H. destruct (validateToken _ namespace _) eqn:En; [done|].
    apply structured_Ok in H as (-> & _ & Hj & Hl).
    split; [|done]. unfold validPart; cbn -[token_ok json_valid Z.leb maxPartBytes].
    unfold token_ok. rewrite En, Hj. simpl. by rewrite (proj2 (Z.leb_le _ _) Hl).
Qed.

Lemma strict_rebuild part : part_strict part -> rebuild part = Ok part.
Proof.
  destruct part as [kind text name callID namespace data]. unfold part_strict, rebuild, validPart.
  cbn -[token_ok json_valid Z.leb maxPartBytes ToolCall ToolResult Text Extension].
  destruct (String.eqb_spec kind PartText) as [->|Hk].
  { intros [Hv (-> & -> & -> & ->)]. apply Text_Ok. bprop. apply String.eqb_neq in H. auto. }
  destruct (String.eqb_spec kind PartToolCall) as [->|Hc].
  { intros [Hv (-> & ->)]. cbn [orb] in Hv. bprop. by apply structured_Ok. }
  destruct (String.eqb_spec kind PartToolResult) as [->|Hr].
  { intros [Hv (-> & ->)]. cbn [orb] in Hv. bprop. by apply structured_Ok. }
  cbn [orb]. destruct (String.eqb_spec kind PartExtension) as [->|He]; [|by intros []].
  intros [Hv (-> & -> & ->)]. bprop. unfold Extension. unfold token_ok in *.
  destruct (validateToken _ namespace _); [done|]. by apply structured_Ok.
Qed.

Lemma strict_size part : part_strict part -> encodedSize part <= 512 + maxPartBytes.
Proof.
  destruct part as [kind text name callID namespace data]. unfold part_strict, encodedSize, validPart.
  cbn -[token_ok json_valid Z.leb maxPartBytes]. change (slen ""%string) with 0.
  destruct (String.eqb_spec kind PartText) as [->|Hk].
  { intros [Hv (-> & -> & -> & ->)]. bprop. change (slen PartText) with 4. change (slen "") with 0. lia. }
  destruct (String.eqb_spec kind PartExtension) as [->|He].
  { intros [Hv (-> & -> & ->)]. cbn [orb] in Hv. cbn -[token_ok json_valid Z.leb maxPartBytes] in Hv. bprop.
    rewrite token_ok_spec in *. change (slen PartExtension) with 9. change (slen "") with 0.
    unfold maxNamespaceLength in *. lia. }
  destruct (String.eqb kind PartToolCall || String.eqb kind PartToolResult) eqn:Ek; [|intros [Hv _]; discriminate].
  assert (slen kind <= 11).
  { apply orb_true_iff in Ek as [Ek|Ek]; apply String.eqb_eq in Ek as ->; vm_compute; discriminate. }
  intros [Hv [-> ->]]. bprop. rewrite token_ok_spec in *. change (slen "") with 0. unfold maxIDLength in *. lia.
Qed.

(** The part constructors return exactly the valid parts with empty
    inactive payloads; each is rebuilt unchanged from its own payload, and any
    one such part fits a message whatever the identifier and role. *)
Theorem part_constructors part :
  (built part <-> part_strict part)
  /\ (part_strict part -> rebuild part = Ok part)
  /\ (part_strict part -> forall id role, token_ok "message ID" id maxIDLength = true ->
      validRole role = true -> New id role [part] = Ok (mkMessage id role [part])).
Proof.
  split; [|split; [apply strict_rebuild|]].
  - split; [apply built_strict|]. intros H. pose proof (strict_rebuild part H) as Hb.
    unfold rebuild in Hb. repeat split_match_in Hb; eauto using built_text, built_call, built_result, built_extension.
  - intros Hs id role Hid Hr. apply New_Ok. split; [done|].
    pose proof (strict_size part Hs). apply token_ok_spec in Hid as [H1 H2].
    apply elem_str_spec in Hr. unfold message_ok, SizeBytes; cbn [ms_id ms_role ms_parts].
    assert (slen role <= 9).
    { rewrite !elem_of_cons in Hr.
      destruct Hr as [->|[->|[->|[->|Hr]]]]; [vm_compute; discriminate..|by apply elem_of_nil in Hr]. }
    rewrite sumZ_cons, sumZ_nil. change (lenZ [part]) with 1. unfold maxMessageParts, maxIDLength in *.
    split; [done|]. split; [done|]. split; [done|]. split; [lia|].
    split; [constructor; [apply Hs|constructor]|].
    change maxMessageBytes with 4194304. change maxPartBytes with 1048576 in *. lia.
Qed.
