(* ===== verification/Model.v ===== *)
(** Model operations (src/model/model.go): metadata, requests, token usage,
    problems, operation errors and the stream-event union.  Stream and provider
    are interfaces of the source; the engine's use of them is not part of this
    file. *)
From Stdlib Require Import ZArith Lia.
From stdpp Require Import base list strings.
From S2P Require Import Prelude GoText GoJson Tool Message.
Open Scope Z_scope.

Definition maxOperationIDBytes : Z := 128.
Definition maxModelNameBytes : Z := 256.
Definition maxRequestMessages : Z := 4096.
Definition maxRequestTools : Z := 512.
Definition maxRequestBytes : Z := Z.shiftl 32 20.
Definition maxMetadataItems : Z := 32.
Definition maxMetadataItemBytes : Z := Z.shiftl 64 10.
Definition maxMetadataTotalBytes : Z := Z.shiftl 256 10.
Definition MaximumTextDeltaBytes : Z := Z.shiftl 256 10.
Definition MaximumOperationTextBytes : Z := Z.shiftl 4 20.
Definition MaximumOperationToolCalls : Z := 128.

Inductive ModelError :=
| ErrModelToken (label : string)
| ErrModelTokenBytes (label : string)
| ErrMetadataBytes
| ErrMetadataJSON
| ErrMetadataCount
| ErrMetadata (index : nat) (e : ModelError)
| ErrMetadataDuplicate (namespace : string)
| ErrMetadataTotal
| ErrMessageCount
| ErrToolCount
| ErrModelMessage (index : nat) (e : MessageError)
| ErrModelTool (index : nat) (e : ToolError)
| ErrToolDuplicate (name : string)
| ErrRequestBytes
| ErrProblemMessage
| ErrProblemMessageBytes
| ErrTextDelta
| ErrTextDeltaBytes
| ErrToolCallEvent (e : ToolError)
| ErrEventKind
| ErrInactive (payload : string).

Definition validateToken (label value : string) (maximum : Z) : option ModelError :=
  if negb (trimmed_nonempty value) then Some (ErrModelToken label)
  else if slen value >? maximum then Some (ErrModelTokenBytes label)
  else None.

(** ** Metadata *)

Record Metadata := mkMetadata { md_namespace : string; md_value : string }.

Definition NewMetadata (namespace value : string) : result ModelError Metadata :=
  match validateToken "model metadata namespace" namespace 128 with
  | Some e => Err e
  | None =>
      if (slen value =? 0) || (slen value >? maxMetadataItemBytes) then Err ErrMetadataBytes
      else if negb (json_valid value) then Err ErrMetadataJSON
      else Ok (mkMetadata namespace value)
  end.

Definition Metadata_Validate (metadata : Metadata) : option ModelError :=
  match NewMetadata (md_namespace metadata) (md_value metadata) with Ok _ => None | Err e => Some e end.

Definition metadata_size (metadata : Metadata) : Z := slen (md_namespace metadata) + slen (md_value metadata).

Definition metadata_check (index : nat) (metadata : Metadata) : option ModelError :=
  ErrMetadata index <$> Metadata_Validate metadata.

Definition cloneMetadata (values : list Metadata) : result ModelError (list Metadata) :=
  if lenZ values >? maxMetadataItems then Err ErrMetadataCount
  else match admit_loop metadata_check (fun v => Some (md_namespace v)) ErrMetadataDuplicate
               metadata_size ErrMetadataTotal maxMetadataTotalBytes 0 [] 0 values with
  | Err e => Err e
  | Ok _ => Ok values
  end.

(** ** Requests *)

Record Request := mkRequest {
  rq_operationID : string;
  rq_model : string;
  rq_messages : list Message;
  rq_tools : list Definition_
}.

Definition message_check (index : nat) (value : Message) : option ModelError :=
  ErrModelMessage index <$> Message.Validate value.
Definition tool_check (index : nat) (definition : Definition_) : option ModelError :=
  ErrModelTool index <$> Definition_Validate definition.

(** The two loops share one running total. *)
Definition request_messages_loop : Z -> list Message -> result ModelError Z :=
  admit_loop message_check (fun _ => None) ErrToolDuplicate Message.SizeBytes
    ErrRequestBytes maxRequestBytes 0 [].
Definition request_tools_loop : Z -> list Definition_ -> result ModelError Z :=
  admit_loop tool_check (fun d => Some (td_name d)) ErrToolDuplicate Definition_SizeBytes
    ErrRequestBytes maxRequestBytes 0 [].

Definition NewRequest (operationID modelName : string) (messages : list Message)
  (tools : list Definition_) : result ModelError Request :=
  match validateToken "model operation ID" operationID maxOperationIDBytes with
  | Some e => Err e
  | None =>
    match validateToken "model name" modelName maxModelNameBytes with
    | Some e => Err e
    | None =>
      if (lenZ messages =? 0) || (lenZ messages >? maxRequestMessages) then Err ErrMessageCount
      else if lenZ tools >? maxRequestTools then Err ErrToolCount
      else match request_messages_loop (slen operationID + slen modelName) messages with
      | Err e => Err e
      | Ok totalBytes =>
        match request_tools_loop totalBytes tools with
        | Err e => Err e
        | Ok _ => Ok (mkRequest operationID modelName messages tools)
        end
      end
    end
  end.

(** ** Usage, problems and operation errors *)

Record Usage := mkUsage { us_inputTokens : Z; us_outputTokens : Z }.

Definition TotalTokens (usage : Usage) : Z :=
  let total := us_inputTokens usage +64 us_outputTokens usage in
  if total <? us_inputTokens usage then maxUint64 else total.

Record Problem := mkProblem {
  pb_code : string;
  pb_message : string;
  pb_retryable : bool;
  pb_metadata : list Metadata
}.

Definition NewProblem (code problemMessage : string) (retryable : bool) (metadata : list Metadata)
  : result ModelError Problem :=
  match validateToken "model problem code" code 128 with
  | Some e => Err e
  | None =>
      if negb (trimmed_nonempty problemMessage) then Err ErrProblemMessage
      else if slen problemMessage >? 4096 then Err ErrProblemMessageBytes
      else match cloneMetadata metadata with
      | Err e => Err e
      | Ok metadataCopy => Ok (mkProblem code problemMessage retryable metadataCopy)
      end
  end.

Definition Problem_Validate (problem : Problem) : option ModelError :=
  match NewProblem (pb_code problem) (pb_message problem) (pb_retryable problem) (pb_metadata problem) with
  | Ok _ => None
  | Err e => Some e
  end.

(** [cause] is any error value. *)
Record OperationError {C : Type} := mkOperationError {
  oe_problem : Problem;
  oe_observed : bool;
  oe_cause : C
}.
Arguments OperationError : clear implicits.
Arguments mkOperationError {C}.

Definition NewOperationError {C} (problem : Problem) (observed : bool) (cause : C)
  : result ModelError (OperationError C) :=
  match Problem_Validate problem with
  | Some e => Err e
  | None => Ok (mkOperationError problem observed cause)
  end.

(** [None] is the nil pointer. *)
Definition BeforeStream {C} (failure : option (OperationError C)) : bool :=
  match failure with Some f => negb (oe_observed f) | None => false end.
Definition Retryable {C} (failure : option (OperationError C)) : bool :=
  match failure with
  | Some f => pb_retryable (oe_problem f) && negb (oe_observed f)
  | None => false
  end.

(** ** Stream events *)

Definition EventTextDelta : string := "text_delta".
Definition EventToolCall : string := "tool_call".
Definition EventCompleted : string := "completed".
Definition EventFailed : string := "failed".

Definition zero_usage : Usage := mkUsage 0 0.
Definition zero_call : Call := mkToolCall "" "" "".
Definition zero_problem : Problem := mkProblem "" "" false [].

Record StreamEvent := mkStreamEvent {
  se_kind : string;
  se_text : string;
  se_call : Call;
  se_usage : Usage;
  se_problem : Problem;
  se_metadata : list Metadata
}.

Definition TextDelta (text : string) : result ModelError StreamEvent :=
  if String.eqb text "" then Err ErrTextDelta
  else if slen text >? MaximumTextDeltaBytes then Err ErrTextDeltaBytes
  else Ok (mkStreamEvent EventTextDelta text zero_call zero_usage zero_problem []).

Definition ToolCallEvent (call : Call) : result ModelError StreamEvent :=
  match Call_Validate call with
  | Some e => Err (ErrToolCallEvent e)
  | None => Ok (mkStreamEvent EventToolCall "" call zero_usage zero_problem [])
  end.

Definition Completed (usage : Usage) (metadata : list Metadata) : result ModelError StreamEvent :=
  match cloneMetadata metadata with
  | Err e => Err e
  | Ok metadataCopy => Ok (mkStreamEvent EventCompleted "" zero_call usage zero_problem metadataCopy)
  end.

Definition Failed (problem : Problem) : result ModelError StreamEvent :=
  match Problem_Validate problem with
  | Some e => Err e
  | None => Ok (mkStreamEvent EventFailed "" zero_call zero_usage problem [])
  end.

(** The accessors: payload and whether it is the active one. *)
Definition StreamEvent_Text (e : StreamEvent) : string * bool :=
  (se_text e, String.eqb (se_kind e) EventTextDelta).
Definition StreamEvent_Call (e : StreamEvent) : Call * bool :=
  (se_call e, String.eqb (se_kind e) EventToolCall).
Definition StreamEvent_Usage (e : StreamEvent) : Usage * bool :=
  (se_usage e, String.eqb (se_kind e) EventCompleted).
Definition StreamEvent_Problem (e : StreamEvent) : Problem * bool :=
  let p := se_problem e in
  match NewProblem (pb_code p) (pb_message p) (pb_retryable p) (pb_metadata p) with
  | Err _ => (zero_problem, false)
  | Ok problem => (problem, String.eqb (se_kind e) EventFailed)
  end.
Definition StreamEvent_Metadata (e : StreamEvent) : list Metadata * bool :=
  if negb (String.eqb (se_kind e) EventCompleted) then ([], false)
  else match cloneMetadata (se_metadata e) with Ok r => (r, true) | Err _ => ([], false) end.

Definition requireInactive (e : StreamEvent) (text call usage metadata : bool) : option ModelError :=
  if text && negb (String.eqb (se_text e) "") then Some (ErrInactive "text")
  else if call && negb (String.eqb (tc_id (se_call e)) "") then Some (ErrInactive "tool-call")
  else if usage && (negb (us_inputTokens (se_usage e) =? 0) || negb (us_outputTokens (se_usage e) =? 0))
  then Some (ErrInactive "usage")
  else if negb (String.eqb (se_kind e) EventFailed) && negb (String.eqb (pb_code (se_problem e)) "")
  then Some (ErrInactive "problem")
  else if metadata && negb (lenZ (se_metadata e) =? 0) then Some (ErrInactive "metadata")
  else None.

Definition StreamEvent_Validate (e : StreamEvent) : option ModelError :=
  if String.eqb (se_kind e) EventTextDelta then
    match TextDelta (se_text e) with
    | Err err => Some err
    | Ok _ => requireInactive e false true true true
    end
  else if String.eqb (se_kind e) EventToolCall then
    match ToolCallEvent (se_call e) with
    | Err err => Some err
    | Ok _ => requireInactive e true false true true
    end
  else if String.eqb (se_kind e) EventCompleted then
    match cloneMetadata (se_metadata e) with
    | Err err => Some err
    | Ok _ => requireInactive e true true false false
    end
  else if String.eqb (se_kind e) EventFailed then
    match Failed (se_problem e) with
    | Err err => Some err
    | Ok _ => requireInactive e true true true true
    end
  else Some ErrEventKind.

(** [err] of [RequireCompletion] is [None] for nil; [EOF] is recognised
    through wrapping. *)
Inductive RecvError {C : Type} := RecvEOF | RecvOther (cause : C) | RecvPremature.
Arguments RecvError : clear implicits.

Definition RequireCompletion {C} (err : option (RecvError C)) (terminal : bool) : option (RecvError C) :=
  match err with
  | Some RecvEOF => if terminal then err else Some RecvPremature
  | _ => err
  end.

(** ** Lemmas *)

Lemma validateToken_model label value maximum :
  validateToken label value maximum = None <-> trimmed_nonempty value = true /\ slen value <= maximum.
Proof.
  unfold validateToken. destruct (trimmed_nonempty value); simpl; [|by split; [|intros []]].
  destruct (Z.gtb_spec (slen value) maximum); split; try done; lia.
Qed.

Lemma metadata_size_nonneg m : 0 <= metadata_size m.
Proof. unfold metadata_size. pose proof (slen_nonneg (md_namespace m)). pose proof (slen_nonneg (md_value m)). lia. Qed.

Lemma Message_SizeBytes_nonneg m : 0 <= Message.SizeBytes m.
Proof.
  unfold Message.SizeBytes. pose proof (slen_nonneg (ms_id m)). pose proof (slen_nonneg (ms_role m)).
  assert (0 <= sumZ encodedSize (ms_parts m))
    by (apply sumZ_nonneg, Forall_forall; intros; apply encodedSize_nonneg). lia.
Qed.

Lemma Definition_SizeBytes_nonneg d : 0 <= Definition_SizeBytes d.
Proof.
  unfold Definition_SizeBytes.
  pose proof (slen_nonneg (td_name d)). pose proof (slen_nonneg (td_description d)).
  pose proof (slen_nonneg (td_inputSchema d)). pose proof (slen_nonneg (td_effect d)).
  pose proof (slen_nonneg (td_replaySafety d)).
  assert (0 <= sumZ slen (td_capabilities d)) by (apply sumZ_nonneg, Forall_forall; intros; apply slen_nonneg).
  lia.
Qed.

(** What [cloneMetadata] accepts. *)
Definition metadata_ok (values : list Metadata) : Prop :=
  lenZ values <= maxMetadataItems /\ Forall (fun v => Metadata_Validate v = None) values
  /\ NoDup (map md_namespace values) /\ sumZ metadata_size values <= maxMetadataTotalBytes.

Lemma omap_Some_map {A B} (f : A -> B) (l : list A) : omap (fun x => Some (f x)) l = map f l.
Proof. induction l as [|x l IH]; simpl; [done|]. by f_equal. Qed.

Lemma omap_None_nil {A B} (l : list A) : omap (fun _ => None : option B) l = [].
Proof. by induction l. Qed.

Lemma Forall_not_nil (l : list string) : Forall (fun k => k ∉ []) l.
Proof. apply Forall_forall. intros x _. apply not_elem_of_nil. Qed.

Lemma cloneMetadata_Ok values r :
  cloneMetadata values = Ok r <-> r = values /\ metadata_ok values.
Proof.
  unfold cloneMetadata, metadata_ok.
  destruct (Z.gtb_spec (lenZ values) maxMetadataItems); [split; [done|]; intros (_ & ? & _); lia|].
  destruct (admit_loop _ _ _ _ _ _ _ _ _ values) as [t|e] eqn:E.
  - apply (admit_loop_Ok _ _ _ _ _ _ (fun v => Metadata_Validate v = None)) in E;
      [|intros; apply fmap_None|apply metadata_size_nonneg].
    rewrite omap_Some_map in E. destruct E as (Hv & Hn & _ & -> & Ht).
    split; [intros [= <-]|by intros [-> _]]. repeat split; auto.
    destruct Ht as [->|Ht]; [vm_compute; discriminate|lia].
  - split; [done|]. intros (_ & _ & Hv & Hn & Hs). exfalso.
    pose proof (admit_loop_Ok metadata_check (fun v => Some (md_namespace v)) ErrMetadataDuplicate
      metadata_size ErrMetadataTotal maxMetadataTotalBytes (fun v => Metadata_Validate v = None)
      ltac:(intros; apply fmap_None) metadata_size_nonneg values 0 [] 0 (sumZ metadata_size values)) as Hl.
    rewrite E, omap_Some_map in Hl. destruct Hl as [_ Hl]. discriminate Hl.
    repeat split; auto using Forall_not_nil.
Qed.

Lemma request_messages_Ok total messages t :
  request_messages_loop total messages = Ok t <->
  Forall message_ok messages /\ t = total + sumZ Message.SizeBytes messages
  /\ (messages = [] \/ t <= maxRequestBytes).
Proof.
  unfold request_messages_loop. rewrite (admit_loop_Ok _ _ _ _ _ _ message_ok);
    [|intros i x; unfold message_check; rewrite fmap_None; apply Validate_Ok|apply Message_SizeBytes_nonneg].
  rewrite omap_None_nil. intuition auto using NoDup_nil_2, Forall_nil_2.
Qed.

Lemma request_tools_Ok total tools t :
  request_tools_loop total tools = Ok t <->
  Forall (fun d => Definition_Validate d = None) tools /\ NoDup (map td_name tools)
  /\ t = total + sumZ Definition_SizeBytes tools /\ (tools = [] \/ t <= maxRequestBytes).
Proof.
  unfold request_tools_loop. rewrite (admit_loop_Ok _ _ _ _ _ _ (fun d => Definition_Validate d = None));
    [|intros; apply fmap_None|apply Definition_SizeBytes_nonneg].
  rewrite omap_Some_map. intuition auto using Forall_not_nil.
Qed.

(** What [NewRequest] accepts. *)
Definition request_ok (r : Request) : Prop :=
  (trimmed_nonempty (rq_operationID r) = true /\ slen (rq_operationID r) <= maxOperationIDBytes)
  /\ (trimmed_nonempty (rq_model r) = true /\ slen (rq_model r) <= maxModelNameBytes)
  /\ 1 <= lenZ (rq_messages r) <= maxRequestMessages /\ lenZ (rq_tools r) <= maxRequestTools
  /\ Forall message_ok (rq_messages r) /\ Forall (fun d => Definition_Validate d = None) (rq_tools r)
  /\ NoDup (map td_name (rq_tools r))
  /\ slen (rq_operationID r) + slen (rq_model r) + sumZ Message.SizeBytes (rq_messages r)
     + sumZ Definition_SizeBytes (rq_tools r) <= maxRequestBytes.

(** ** Theorems *)

(** [NewRequest] accepts exactly the well-formed requests: bounded names,
    1 to 4096 well-formed messages, at most 512 valid tools with distinct
    names, and at most 32 MiB in total; it keeps its arguments. *)
Theorem request_new_exact operationID modelName messages tools r :
  NewRequest operationID modelName messages tools = Ok r <->
  r = mkRequest operationID modelName messages tools /\ request_ok r.
Proof.
  unfold NewRequest. set (r0 := mkRequest operationID modelName messages tools).
  assert (Hno : forall e : ModelError, ~ request_ok r0 -> Err e = Ok r <-> r = r0 /\ request_ok r)
    by (intros e Hn; split; [done|]; intros [-> ?]; tauto).
  pose proof (validateToken_model "model operation ID" operationID maxOperationIDBytes) as H1.
  destruct (validateToken "model operation ID" _ _); [apply Hno; unfold request_ok; simpl; naive_solver|].
  pose proof (validateToken_model "model name" modelName maxModelNameBytes) as H2.
  destruct (validateToken "model name" _ _); [apply Hno; unfold request_ok; simpl; naive_solver|].
  pose proof (lenZ_nonneg messages).
  destruct (Z.eqb_spec (lenZ messages) 0); [apply Hno; unfold request_ok; simpl; lia|].
  destruct (Z.gtb_spec (lenZ messages) maxRequestMessages); [apply Hno; unfold request_ok; simpl; lia|].
  destruct (Z.gtb_spec (lenZ tools) maxRequestTools); [apply Hno; unfold request_ok; simpl; lia|]. simpl orb; cbv iota.
  assert (Ht : 0 <= sumZ Definition_SizeBytes tools)
    by (apply sumZ_nonneg, Forall_forall; intros; apply Definition_SizeBytes_nonneg).
  set (base := slen operationID + slen modelName).
  pose proof (request_messages_Ok base messages (base + sumZ Message.SizeBytes messages)) as Hml.
  destruct (request_messages_loop base messages) as [t|e] eqn:El.
  2:{ apply Hno. intros (_ & _ & _ & _ & Hm & _ & _ & Hs). simpl in *.
      discriminate (proj2 Hml ltac:(repeat split; auto; right; lia)). }
  apply request_messages_Ok in El as (Hm & -> & Hs).
  pose proof (request_tools_Ok (base + sumZ Message.SizeBytes messages) tools) as Htl.
  destruct (request_tools_loop _ tools) as [t|e].
  - destruct (proj1 (Htl t) eq_refl) as (Hv & Hd & -> & Hf).
    split; [intros [= <-]|by intros [-> _]]. split; [done|]. unfold request_ok; simpl.
    split; [by apply H1|]. split; [by apply H2|]. repeat split; auto; try lia.
    destruct Hf as [->|Hf]; [|lia]. rewrite sumZ_nil. destruct Hs as [->|Hs]; [done|lia].
  - apply Hno. intros (_ & _ & _ & _ & _ & Hv & Hd & Hsum). simpl in *.
    discriminate (proj2 (Htl _) (conj Hv (conj Hd (conj eq_refl (or_intror Hsum))))).
Qed.

(** [TotalTokens] is the sum of the two counters saturated at the largest
    uint64, for all uint64 counters. *)
Theorem usage_total_saturates usage :
  uint64_ok (us_inputTokens usage) -> uint64_ok (us_outputTokens usage) ->
  TotalTokens usage = Z.min (us_inputTokens usage + us_outputTokens usage) maxUint64.
Proof.
  unfold TotalTokens, uint64_ok. set (a := us_inputTokens usage). set (b := us_outputTokens usage). intros Ha Hb.
  assert (u64 (a + b) = a + b \/ (maxUint64 < a + b /\ u64 (a + b) = a + b - two64)) as [E|[Hgt E]].
  { unfold u64, maxUint64, two64 in *. destruct (Z_le_gt_dec (a + b) 18446744073709551615).
    - left. apply Z.mod_small. lia.
    - right. split; [lia|]. symmetry. apply (Z.mod_unique _ _ 1); lia. }
  - rewrite E. pose proof (u64_range (a + b)) as Hr. rewrite E in Hr. unfold uint64_ok in Hr.
    destruct (Z.ltb_spec (a + b) a); lia.
  - rewrite E. unfold two64, maxUint64 in *. destruct (Z.ltb_spec (a + b - 18446744073709551616) a); lia.
Qed.

Lemma usage_total_saturates_witness :
  TotalTokens (mkUsage maxUint64 1) = maxUint64 /\ TotalTokens (mkUsage 40 2) = 42.
Proof.
  split; [rewrite (usage_total_saturates (mkUsage maxUint64 1))|rewrite (usage_total_saturates (mkUsage 40 2))];
    try (vm_compute; split; discriminate); reflexivity.
Defined.

(** The discriminators of the four accessors. *)
Definition active (e : StreamEvent) : list bool :=
  [snd (StreamEvent_Text e); snd (StreamEvent_Call e); snd (StreamEvent_Usage e); snd (StreamEvent_Problem e)].

Lemma Problem_fix p :
  Problem_Validate p = None ->
  NewProblem (pb_code p) (pb_message p) (pb_retryable p) (pb_metadata p) = Ok p.
Proof.
  unfold Problem_Validate. destruct (NewProblem _ _ _ _) as [q|] eqn:E; [|done]. intros _. f_equal.
  unfold NewProblem in E. repeat (split_match_in E; try discriminate).
  apply cloneMetadata_Ok in E3 as [-> _]. injection E as <-. by destruct p.
Qed.

Lemma active_problem e :
  snd (StreamEvent_Problem e) =
  is_ok (NewProblem (pb_code (se_problem e)) (pb_message (se_problem e))
           (pb_retryable (se_problem e)) (pb_metadata (se_problem e)))
  && String.eqb (se_kind e) EventFailed.
Proof. unfold StreamEvent_Problem. by destruct (NewProblem _ _ _ _). Qed.

(** The stream-event union is strict: what a constructor returns validates,
    has exactly its own accessor active, and that accessor returns the payload
    given; an event that validates has exactly one accessor active, and its
    active payload is one the constructor accepts. *)
Theorem stream_event_union :
  (forall text e, TextDelta text = Ok e ->
     StreamEvent_Validate e = None /\ StreamEvent_Text e = (text, true)
     /\ active e = [true; false; false; false])
  /\ (forall call e, ToolCallEvent call = Ok e ->
     StreamEvent_Validate e = None /\ StreamEvent_Call e = (call, true)
     /\ active e = [false; true; false; false])
  /\ (forall usage metadata e, Completed usage metadata = Ok e ->
     StreamEvent_Validate e = None /\ StreamEvent_Usage e = (usage, true)
     /\ StreamEvent_Metadata e = (metadata, true) /\ active e = [false; false; true; false])
  /\ (forall problem e, Failed problem = Ok e ->
     StreamEvent_Validate e = None /\ StreamEvent_Problem e = (problem, true)
     /\ active e = [false; false; false; true])
  /\ (forall e, StreamEvent_Validate e = None ->
     (active e = [true; false; false; false] /\ is_ok (TextDelta (se_text e)) = true)
     \/ (active e = [false; true; false; false] /\ is_ok (ToolCallEvent (se_call e)) = true)
     \/ (active e = [false; false; true; false] /\ is_ok (Completed (se_usage e) (se_metadata e)) = true)
     \/ (active e = [false; false; false; true] /\ is_ok (Failed (se_problem e)) = true)).
Proof.
  split; [|split; [|split; [|split]]].
  - intros text e H. pose proof H as H'. unfold TextDelta in H. repeat (split_match_in H; try discriminate).
    injection H as <-. unfold StreamEvent_Validate, active; simpl. by rewrite H'.
  - intros call e H. pose proof H as H'. unfold ToolCallEvent in H. repeat (split_match_in H; try discriminate).
    injection H as <-. unfold StreamEvent_Validate, active; simpl. by rewrite H'.
  - intros usage metadata e H. unfold Completed in H. destruct (cloneMetadata metadata) eqn:E; [|done].
    pose proof E as E'. apply cloneMetadata_Ok in E as [-> _]. injection H as <-.
    unfold StreamEvent_Validate, StreamEvent_Metadata, active; simpl. by rewrite E'.
  - intros problem e H. pose proof H as H'. unfold Failed in H. destruct (Problem_Validate problem) eqn:E; [done|].
    injection H as <-. apply Problem_fix in E.
    unfold StreamEvent_Validate, StreamEvent_Problem, active, StreamEvent_Problem; simpl. by rewrite H', E.
  - intros e. unfold StreamEvent_Validate, active. rewrite active_problem. simpl.
    destruct (String.eqb_spec (se_kind e) EventTextDelta) as [->|H1].
    { destruct (TextDelta (se_text e)); [|done]. rewrite andb_false_r. auto. }
    destruct (String.eqb_spec (se_kind e) EventToolCall) as [->|H2].
    { destruct (ToolCallEvent (se_call e)); [|done]. rewrite andb_false_r. auto. }
    destruct (String.eqb_spec (se_kind e) EventCompleted) as [->|H3].
    { unfold Completed. destruct (cloneMetadata (se_metadata e)); [|done]. rewrite andb_false_r. auto 6. }
    destruct (String.eqb_spec (se_kind e) EventFailed) as [_|H4]; [|done].
    unfold Failed. destruct (Problem_Validate (se_problem e)) eqn:E; [done|].
    rewrite (Problem_fix _ E). simpl. auto 6.
Qed.
