(* ===== verification/Interaction.v ===== *)
(** Interaction values (src/interaction/interaction.go): run scopes, requests
    and responses, as their validating constructors build them.  Brokers and
    requesters are interfaces of the source. *)
From Stdlib Require Import ZArith Lia.
From stdpp Require Import base list strings.
From S2P Require Import Prelude GoText GoJson.
Open Scope Z_scope.

Definition MaximumInteractionPayloadBytes : Z := Z.shiftl 512 10.

Inductive InteractionError :=
| ErrInteractionToken (label : string)
| ErrInteractionTokenBytes (label : string)
| ErrPrompt
| ErrPromptBytes
| ErrInteractionJSON (label : string)
| ErrInteractionJSONBytes (label : string).

Definition token (label value : string) : option InteractionError :=
  if negb (trimmed_nonempty value) then Some (ErrInteractionToken label)
  else if slen value >? 128 then Some (ErrInteractionTokenBytes label)
  else None.

Definition validateInteractionJSON (label value : string) : option InteractionError :=
  if (slen value =? 0) || negb (json_valid value) then Some (ErrInteractionJSON label)
  else if slen value >? MaximumInteractionPayloadBytes then Some (ErrInteractionJSONBytes label)
  else None.

(** [interaction.Scope]: the run that owns an interaction. *)
Record InteractionScope := mkInteractionScope { is_runID : string }.

Definition NewScope (runID : string) : result InteractionError InteractionScope :=
  match token "interaction run ID" runID with
  | Some e => Err e
  | None => Ok (mkInteractionScope runID)
  end.

Definition InteractionScope_Validate (scope : InteractionScope) : option InteractionError :=
  match NewScope (is_runID scope) with Ok _ => None | Err e => Some e end.

Record InteractionRequest := mkInteractionRequest {
  ir_id : string;
  ir_kind : string;
  ir_prompt : string;
  ir_schema : string
}.

Definition NewInteractionRequest (id kind prompt schema : string)
  : result InteractionError InteractionRequest :=
  match token "interaction ID" id with
  | Some e => Err e
  | None =>
    match token "interaction kind" kind with
    | Some e => Err e
    | None =>
      if negb (trimmed_nonempty prompt) then Err ErrPrompt
      else if slen prompt >? MaximumInteractionPayloadBytes then Err ErrPromptBytes
      else match validateInteractionJSON "interaction schema" schema with
      | Some e => Err e
      | None => Ok (mkInteractionRequest id kind prompt schema)
      end
    end
  end.

Definition InteractionRequest_Validate (request : InteractionRequest) : option InteractionError :=
  match NewInteractionRequest (ir_id request) (ir_kind request) (ir_prompt request) (ir_schema request) with
  | Ok _ => None
  | Err e => Some e
  end.

Record InteractionResponse := mkInteractionResponse { ip_id : string; ip_value : string }.

Definition NewResponse (id value : string) : result InteractionError InteractionResponse :=
  match token "interaction ID" id with
  | Some e => Err e
  | None =>
    match validateInteractionJSON "interaction response" value with
    | Some e => Err e
    | None => Ok (mkInteractionResponse id value)
    end
  end.

Definition InteractionResponse_Validate (response : InteractionResponse) : option InteractionError :=
  match NewResponse (ip_id response) (ip_value response) with Ok _ => None | Err e => Some e end.
