(* ===== verification/Plan.v ===== *)
(** Tool-plan generations (src/stage/plan.go): plan identities, the sorted
    definition snapshots with their binary-search lookup, and the release
    protocol of a lease under concurrent callers. *)
From Stdlib Require Import ZArith Lia.
From stdpp Require Import base gmap list strings sorting relations.
From S2P Require Import Prelude GoText GoOrder Tool.
Open Scope Z_scope.

Definition maximumPlanIDBytes : Z := 256.

Inductive PlanError :=
| ErrPlanIDText
| ErrPlanIDBytes
| ErrPlanIDUtf8
| ErrPlanIDCharacter
| ErrDefinition (index : nat) (e : ToolError)
| ErrDefinitionOrder (name : string)
| ErrDefinitionsPanicked
| ErrLeaseNil.

(** [PlanID.Validate]. *)
Definition PlanID_Validate (value : string) : option PlanError :=
  if negb (trimmed_nonempty value) then Some ErrPlanIDText
  else if slen value >? maximumPlanIDBytes then Some ErrPlanIDBytes
  else if negb (utf8_valid value) then Some ErrPlanIDUtf8
  else if has_control_or_space value then Some ErrPlanIDCharacter
  else None.

Definition NewPlanID (value : string) : result PlanError string :=
  match PlanID_Validate value with Some e => Err e | None => Ok value end.

(** ** Definition snapshots *)

(** The order of [strings.Compare] on names. *)
Definition name_le (a b : Definition_) : Prop := string_le (td_name a) (td_name b).
Definition name_lt : Definition_ -> Definition_ -> Prop := key_lt td_name.

#[export] Instance name_le_dec : RelDecision name_le.
Proof. intros a b. unfold name_le, string_le. apply _. Defined.

(** [validateDefinitions]; [previous] is the definition at [index - 1]. *)
Fixpoint validate_from (index : nat) (previous : option Definition_) (definitions : list Definition_)
  : option PlanError :=
  match definitions with
  | [] => None
  | definition :: rest =>
      match Definition_Validate definition with
      | Some e => Some (ErrDefinition index e)
      | None =>
          let ordered :=
            match previous with
            | Some p => String.ltb (td_name p) (td_name definition)
            | None => true
            end in
          if ordered then validate_from (S index) (Some definition) rest
          else Some (ErrDefinitionOrder (td_name definition))
      end
  end.
Definition validateDefinitions : list Definition_ -> option PlanError := validate_from 0 None.

(** [snapshotDefinitions]: [declared] is what the dispatcher's [Definitions]
    returns, [None] when it panics.  [slices.SortFunc] may order definitions
    of equal name in any way; such lists are refused in either order. *)
Definition snapshotDefinitions (declared : option (list Definition_))
  : result PlanError (list Definition_) :=
  match declared with
  | None => Err ErrDefinitionsPanicked
  | Some definitions =>
      let sorted := merge_sort name_le definitions in
      match validateDefinitions sorted with
      | Some e => Err e
      | None => Ok sorted
      end
  end.

(** [slices.BinarySearchFunc] by name. *)
Definition definitionFromSnapshot (definitions : list Definition_) (name : string) : option Definition_ :=
  search td_name definitions name.

Definition sameDefinitions (sha256_hex : list Z -> string) (left right : list Definition_) : bool :=
  (length left =? length right)%nat
  && forallb (fun p => String.eqb (td_name (fst p)) (td_name (snd p))
                       && String.eqb (Fingerprint sha256_hex (fst p)) (Fingerprint sha256_hex (snd p)))
       (zip left right).

(** The bytes [staticPlanID] hashes. *)
Definition static_plan_preimage (sha256_hex : list Z -> string) (definitions : list Definition_) : list Z :=
  concat (map (fun d => fingerprint_field (td_name d) ++ fingerprint_field (Fingerprint sha256_hex d))
            definitions).
Definition staticPlanID (sha256_hex : list Z -> string) (definitions : list Definition_)
  : result PlanError string :=
  NewPlanID (String.append "static:" (sha256_hex (static_plan_preimage sha256_hex definitions))).

(** ** Bounded error texts *)

(** [strings.ToValidUTF8] with U+FFFD: each maximal run of invalid bytes
    becomes one replacement; [in_run] says that the last byte was invalid. *)
Fixpoint to_valid_fuel (fuel : nat) (in_run : bool) (l : list Z) : list Z :=
  match fuel, l with
  | S fuel, _ :: _ =>
      match decode_rune l with
      | (w, Some _) => take (Z.to_nat w) l ++ to_valid_fuel fuel false (drop (Z.to_nat w) l)
      | (_, None) => (if in_run then [] else [239; 191; 189]) ++ to_valid_fuel fuel true (drop 1 l)
      end
  | _, _ => []
  end.
Definition ToValidUTF8 (s : string) : string :=
  of_codes (to_valid_fuel (String.length s) false (byte_codes s)).

(** [message[:n]], and the loop that drops bytes until the text is valid; the
    empty text is, so [String.length] rounds are enough. *)
Definition prefix_bytes (n : Z) (s : string) : string := String.substring 0 (Z.to_nat n) s.
Fixpoint trim_utf8 (fuel : nat) (message : string) : string :=
  match fuel with
  | O => message
  | S fuel => if utf8_valid message then message
              else trim_utf8 fuel (prefix_bytes (slen message - 1) message)
  end.

(** The text of [boundedPlanError(label, err)]; [text] is [err.Error()]. *)
Definition boundedPlanError (label text : string) : string :=
  let message := TrimSpace (ToValidUTF8 text) in
  if String.eqb message "" then label
  else
    let maximum := MaximumExecutionErrorBytes - slen label - 2 in
    let message :=
      if slen message >? maximum
      then trim_utf8 (String.length message) (prefix_bytes maximum message)
      else message in
    String.append label (String.append ": " message).

(** ** Releasing a lease *)

(** What the source's [release] callback does. *)
Inductive callback_result := CallbackOk | CallbackError (text : string) | CallbackPanic.

Definition invoke_result (r : callback_result) : option string :=
  match r with
  | CallbackOk => None
  | CallbackError text => Some (boundedPlanError "tool plan release failed" text)
  | CallbackPanic => Some "tool plan release panicked"%string
  end.

(** [ls_started] and [ls_done] are the two [sync.Once] values ([ls_done] is
    also the closed channel), [ls_running] the goroutine of [invokeRelease],
    [ls_invoked] counts the callback's invocations. *)
Record LeaseRelease := mkLease {
  ls_started : bool;
  ls_running : bool;
  ls_invoked : Z;
  ls_done : bool;
  ls_err : option string
}.
Definition new_lease : LeaseRelease := mkLease false false 0 false None.

Definition release_start (l : LeaseRelease) : LeaseRelease :=
  if ls_started l then l
  else mkLease true true (ls_invoked l + 1) (ls_done l) (ls_err l).

Definition finishRelease (err : option string) (l : LeaseRelease) : LeaseRelease :=
  if ls_done l then l
  else mkLease (ls_started l) (ls_running l) (ls_invoked l) true err.

(** The callback returns (or panics) and its goroutine ends. *)
Definition invokeRelease (r : callback_result) (l : LeaseRelease) : LeaseRelease :=
  finishRelease (invoke_result r)
    (mkLease (ls_started l) false (ls_invoked l) (ls_done l) (ls_err l)).

(** A call of [ReleaseContext]: at the [select], waiting for [releaseDone]
    after its context expired, or returned.  [rc_ctx] is the text of
    [ctx.Err()] once the context is done. *)
Inductive release_pc := RcSelect | RcDrain | RcReturned (err : option string).
Record release_call := mkReleaseCall { rc_pc : release_pc; rc_ctx : option string }.

(** Entering [ReleaseContext]: the nil-context check, then [releaseStart.Do]. *)
Definition ReleaseContext_begin (ctx_nil : bool) (ctx : option string) (l : LeaseRelease)
  : LeaseRelease * release_call :=
  if ctx_nil then (l, mkReleaseCall (RcReturned (Some "tool plan release context must not be nil"%string)) None)
  else (release_start l, mkReleaseCall RcSelect ctx).

(** The branches of the [select] and the wait after it; [expired] is the
    branch taken.  [None] when that branch is not ready. *)
Definition ReleaseContext_step (expired : bool) (l : LeaseRelease) (c : release_call)
  : option (LeaseRelease * release_call) :=
  match rc_pc c with
  | RcSelect =>
      if expired then
        match rc_ctx c with
        | Some text => Some (finishRelease (Some (boundedPlanError "tool plan release did not complete" text)) l,
                             mkReleaseCall RcDrain (rc_ctx c))
        | None => None
        end
      else if ls_done l then Some (l, mkReleaseCall (RcReturned (ls_err l)) (rc_ctx c)) else None
  | RcDrain => if ls_done l then Some (l, mkReleaseCall (RcReturned (ls_err l)) (rc_ctx c)) else None
  | RcReturned _ => None
  end.

Record RWorld := mkRWorld { rw_lease : LeaseRelease; rw_calls : gmap Z release_call }.

Inductive release_step : RWorld -> RWorld -> Prop :=
| release_begins w id ctx_nil ctx lease c :
    rw_calls w !! id = None ->
    ReleaseContext_begin ctx_nil ctx (rw_lease w) = (lease, c) ->
    release_step w (mkRWorld lease (<[id := c]> (rw_calls w)))
| release_advances w id expired c lease c' :
    rw_calls w !! id = Some c ->
    ReleaseContext_step expired (rw_lease w) c = Some (lease, c') ->
    release_step w (mkRWorld lease (<[id := c']> (rw_calls w)))
| release_ctx_expires w id c text :
    rw_calls w !! id = Some c -> rc_ctx c = None -> rc_pc c = RcSelect ->
    release_step w (mkRWorld (rw_lease w) (<[id := mkReleaseCall RcSelect (Some text)]> (rw_calls w)))
| release_callback w r :
    ls_running (rw_lease w) = true ->
    release_step w (mkRWorld (invokeRelease r (rw_lease w)) (rw_calls w)).

Definition release_start_world : RWorld := mkRWorld new_lease ∅.

(** ** Lemmas *)

Definition valid_definition (d : Definition_) : Prop := Definition_Validate d = None.

Lemma validate_from_spec l : forall index previous,
  validate_from index previous l = None <->
  Forall valid_definition l /\ Sorted name_lt (option_list previous ++ l).
Proof.
  induction l as [|d l IH]; intros index previous; simpl.
  - split; [intros _|done]. split; [constructor|]. destruct previous; repeat constructor.
  - rewrite Forall_cons. unfold valid_definition at 1. destruct (Definition_Validate d); [split; [done|]; naive_solver|].
    destruct previous as [p|]; simpl.
    + destruct (String.ltb (td_name p) (td_name d)) eqn:E.
      * rewrite IH. simpl. split; [intros [H1 H2]; split; [done|]; constructor; [done|by constructor]|].
        intros [[_ H1] H2]. split; [done|]. by inversion H2.
      * split; [done|]. intros [_ H2]. inversion H2 as [|? ? _ H3]; subst. inversion H3; subst.
        unfold name_lt in *. congruence.
    + rewrite IH. simpl. naive_solver.
Qed.

Lemma validateDefinitions_spec l :
  validateDefinitions l = None <-> Forall valid_definition l /\ StronglySorted name_lt l.
Proof.
  unfold validateDefinitions. rewrite validate_from_spec. simpl.
  split; intros [H1 H2]; (split; [done|]); [by apply Sorted_StronglySorted; [apply key_lt_trans|]|
    by apply StronglySorted_Sorted].
Qed.

Lemma name_le_lt l : StronglySorted name_le l -> NoDup (map td_name l) -> StronglySorted name_lt l.
Proof.
  induction 1 as [|d l Hs IH Hd]; simpl; intros Hn; [constructor|].
  apply NoDup_cons in Hn as [Hnot Hn]. constructor; [by apply IH|].
  rewrite Forall_forall in *. intros e He. unfold name_lt. apply ltb_spec. split; [by apply Hd|].
  intros E. apply Hnot. rewrite E. by apply list_elem_of_fmap_2.
Qed.

#[export] Instance name_lt_antisymm : AntiSymm (=) name_lt.
Proof.
  intros a b Ha Hb. unfold name_lt in *. apply ltb_spec in Ha as [Ha Hn]. apply ltb_spec in Hb as [Hb _].
  by destruct Hn; apply (anti_symm string_le).
Qed.
#[export] Instance name_le_trans : Transitive name_le.
Proof. intros a b c. unfold name_le. by intros; etransitivity. Qed.
#[export] Instance name_le_total : Total name_le.
Proof. intros a b. apply String.leb_total. Qed.

Lemma snapshot_Ok declared s :
  snapshotDefinitions (Some declared) = Ok s <->
  s ≡ₚ declared /\ StronglySorted name_lt s /\ Forall valid_definition s.
Proof.
  unfold snapshotDefinitions. pose proof (merge_sort_Permutation name_le declared) as Hp.
  pose proof (StronglySorted_merge_sort name_le declared) as Hs.
  destruct (validateDefinitions _) as [e|] eqn:E.
  - split; [done|]. intros (Hsp & Hlt & Hv). exfalso.
    assert (validateDefinitions (merge_sort name_le declared) = None); [|congruence].
    apply validateDefinitions_spec. split; [by rewrite Hp, <- Hsp|].
    apply name_le_lt; [done|]. apply (NoDup_Permutation_proper _ (map td_name s)); [|by apply (sorted_keys_nodup td_name)].
    by rewrite Hp, Hsp.
  - apply validateDefinitions_spec in E as [Hv Hlt]. split; [intros [= <-]; done|].
    intros (Hsp & Hlt' & _). f_equal. apply (StronglySorted_unique name_lt); [done..|]. by rewrite Hp.
Qed.

Lemma definitionFromSnapshot_spec definitions name d :
  StronglySorted name_lt definitions ->
  definitionFromSnapshot definitions name = Some d <-> d ∈ definitions /\ td_name d = name.
Proof. apply (search_spec td_name). Qed.

(** *** Error texts *)

Lemma substring_length n : forall s, String.length (String.substring 0 n s) = Nat.min n (String.length s).
Proof. induction n as [|n IH]; intros [|c s]; simpl; auto. Qed.

Lemma prefix_bytes_length n s : slen (prefix_bytes n s) <= Z.max 0 n /\ slen (prefix_bytes n s) <= slen s.
Proof. unfold prefix_bytes, slen. rewrite substring_length. lia. Qed.

Lemma trim_utf8_length fuel : forall s, slen (trim_utf8 fuel s) <= slen s.
Proof.
  induction fuel as [|fuel IH]; intros s; simpl; [lia|]. destruct (utf8_valid s); [lia|].
  specialize (IH (prefix_bytes (slen s - 1) s)). pose proof (prefix_bytes_length (slen s - 1) s). lia.
Qed.

Lemma boundedPlanError_length label text :
  slen label <= 4094 -> slen (boundedPlanError label text) <= MaximumExecutionErrorBytes.
Proof.
  intros Hl. unfold boundedPlanError, MaximumExecutionErrorBytes.
  set (message := TrimSpace _). destruct (String.eqb message ""); [lia|].
  rewrite !slen_append. change (slen ": ") with 2.
  destruct (Z.gtb_spec (slen message) (4096 - slen label - 2)); [|lia].
  pose proof (trim_utf8_length (String.length message) (prefix_bytes (4096 - slen label - 2) message)).
  pose proof (prefix_bytes_length (4096 - slen label - 2) message). lia.
Qed.

(** *** Release *)

Definition bounded_err (e : option string) : Prop :=
  match e with Some t => slen t <= MaximumExecutionErrorBytes | None => True end.

Record release_inv (w : RWorld) : Prop := {
  ri_invoked : ls_invoked (rw_lease w) = if ls_started (rw_lease w) then 1 else 0;
  ri_running : ls_running (rw_lease w) = true -> ls_started (rw_lease w) = true;
  ri_pending : ls_started (rw_lease w) = true ->
               ls_running (rw_lease w) = true \/ ls_done (rw_lease w) = true;
  ri_err : bounded_err (ls_err (rw_lease w));
  ri_calls : map_Forall (fun _ c =>
    match rc_pc c with
    | RcSelect => ls_started (rw_lease w) = true
    | RcDrain => ls_done (rw_lease w) = true
    | RcReturned e => (ls_done (rw_lease w) = true /\ e = ls_err (rw_lease w))
                      \/ e = Some "tool plan release context must not be nil"%string
    end) (rw_calls w)
}.

(** The lease changes only by being started, by its callback returning, and by
    the first finish. *)
Definition lease_le (l l' : LeaseRelease) : Prop :=
  (ls_started l = true -> ls_started l' = true)
  /\ (ls_done l = true -> ls_done l' = true /\ ls_err l' = ls_err l).

#[export] Instance lease_le_preorder : PreOrder lease_le.
Proof. split; [by intros l; split|]. intros a b c [H1 H2] [H3 H4]. split; [auto|]. intros H. destruct (H2 H) as [H5 <-]. auto. Qed.

Lemma release_start_le l : lease_le l (release_start l).
Proof. unfold lease_le, release_start. by destruct l as [[] ? ? ? ?]. Qed.
Lemma finishRelease_le e l : lease_le l (finishRelease e l).
Proof. unfold lease_le, finishRelease. by destruct l as [? ? ? [] ?]. Qed.

Lemma calls_mono l l' (calls : gmap Z release_call) :
  lease_le l l' -> map_Forall (fun _ c =>
    match rc_pc c with
    | RcSelect => ls_started l = true
    | RcDrain => ls_done l = true
    | RcReturned e => (ls_done l = true /\ e = ls_err l)
                      \/ e = Some "tool plan release context must not be nil"%string
    end) calls -> map_Forall (fun _ c =>
    match rc_pc c with
    | RcSelect => ls_started l' = true
    | RcDrain => ls_done l' = true
    | RcReturned e => (ls_done l' = true /\ e = ls_err l')
                      \/ e = Some "tool plan release context must not be nil"%string
    end) calls.
Proof.
  intros [H1 H2] H id c Hc. specialize (H id c Hc). simpl in *. destruct (rc_pc c); [auto|by apply H2|].
  destruct H as [[H ->]|H]; [left|by right]. destruct (H2 H). by split.
Qed.

Lemma release_step_le w w' : release_step w w' -> lease_le (rw_lease w) (rw_lease w').
Proof.
  intros [w0 id ctx_nil ctx lease c Hid Hb|w0 id expired c lease c' Hc Hs|w0 id c text Hc Hn Hp|w0 r Hr]; simpl.
  - unfold ReleaseContext_begin in Hb. destruct ctx_nil; injection Hb as <- <-; [reflexivity|apply release_start_le].
  - unfold ReleaseContext_step in Hs. repeat (split_match_in Hs; try discriminate); injection Hs as <- <-;
      first [reflexivity|apply finishRelease_le].
  - reflexivity.
  - unfold invokeRelease. etransitivity; [|apply finishRelease_le]. by split.
Qed.

Lemma finishRelease_inv w e :
  release_inv w -> bounded_err e -> ls_started (rw_lease w) = true ->
  release_inv (mkRWorld (finishRelease e (rw_lease w)) (rw_calls w)).
Proof.
  intros [H1 H2 H3 H4 H5] He Hs. pose proof (calls_mono _ _ _ (finishRelease_le e (rw_lease w)) H5) as H6.
  unfold finishRelease in *. destruct (ls_done (rw_lease w)) eqn:Ed; constructor; simpl in *; auto.
Qed.

Lemma call_inv w id c :
  release_inv w ->
  match rc_pc c with
  | RcSelect => ls_started (rw_lease w) = true
  | RcDrain => ls_done (rw_lease w) = true
  | RcReturned e => (ls_done (rw_lease w) = true /\ e = ls_err (rw_lease w))
                    \/ e = Some "tool plan release context must not be nil"%string
  end ->
  release_inv (mkRWorld (rw_lease w) (<[id := c]> (rw_calls w))).
Proof. intros [H1 H2 H3 H4 H5] Hc. constructor; simpl; auto. by apply map_Forall_insert_2. Qed.

Lemma release_start_inv w : release_inv w -> release_inv (mkRWorld (release_start (rw_lease w)) (rw_calls w)).
Proof.
  intros [H1 H2 H3 H4 H5]. pose proof (calls_mono _ _ _ (release_start_le (rw_lease w)) H5) as H6.
  unfold release_start in *. destruct (ls_started (rw_lease w)) eqn:Es; constructor; simpl in *; auto; [by rewrite Es|lia].
Qed.

Lemma release_step_inv w w' : release_step w w' -> release_inv w -> release_inv w'.
Proof.
  intros [w0 id ctx_nil ctx lease c Hid Hb|w0 id expired c lease c' Hc Hs|w0 id c text Hc Hn Hp|w0 r Hr] Hi.
  - unfold ReleaseContext_begin in Hb. destruct ctx_nil; injection Hb as <- <-; [by apply call_inv; [|right]|].
    apply (call_inv (mkRWorld (release_start (rw_lease w0)) (rw_calls w0))); [by apply release_start_inv|].
    simpl. unfold release_start. by destruct (ls_started (rw_lease w0)) eqn:E.
  - pose proof (ri_calls _ Hi id c Hc) as Hpc. simpl in Hpc. unfold ReleaseContext_step in Hs.
    destruct (rc_pc c); [|destruct (ls_done _) eqn:Ed; [|done]; injection Hs as <- <-; by apply call_inv; [|left]|done].
    destruct expired; [|destruct (ls_done _) eqn:Ed; [|done]; injection Hs as <- <-; by apply call_inv; [|left]].
    destruct (rc_ctx c) as [text|]; [|done]. injection Hs as <- <-.
    set (e := Some (boundedPlanError _ text)).
    apply (call_inv (mkRWorld (finishRelease e (rw_lease w0)) (rw_calls w0))).
    + apply finishRelease_inv; [done| |done]. apply boundedPlanError_length. vm_compute. discriminate.
    + simpl. unfold finishRelease. by destruct (ls_done (rw_lease w0)) eqn:E.
  - apply call_inv; [done|]. pose proof (ri_calls _ Hi id c Hc) as Hpc. simpl in Hpc. by rewrite Hp in Hpc.
  - unfold invokeRelease. destruct Hi as [H1 H2 H3 H4 H5]. pose proof (H2 Hr) as Hs.
    pose proof (calls_mono _ _ _ (finishRelease_le (invoke_result r)
      (mkLease (ls_started (rw_lease w0)) false (ls_invoked (rw_lease w0)) (ls_done (rw_lease w0)) (ls_err (rw_lease w0)))) H5) as H6.
    assert (bounded_err (invoke_result r)).
    { destruct r; simpl; [done|apply boundedPlanError_length|]; vm_compute; discriminate. }
    unfold finishRelease in *. simpl in *. destruct (ls_done (rw_lease w0)) eqn:Ed; constructor; simpl in *; auto.
Qed.

Lemma release_reachable_inv w : rtc release_step release_start_world w -> release_inv w.
Proof.
  intros H. remember release_start_world as w0 eqn:E. assert (release_inv w0) as Hi.
  { subst. constructor; simpl; try done. }
  clear E. induction H as [|w0 w1 w2 Hs _ IH]; [done|]. apply IH. by eapply release_step_inv.
Qed.

(** Releasing a lease is exactly once and has one outcome.  For any number
    of concurrent callers, with contexts expiring at any time and a callback
    that may fail, panic or hang: the callback is invoked at most once, and
    once if any call started it; every caller that returns reports the same
    bounded error, which never changes after the first finish; and no caller
    can hang past its own context: a call at the select whose context is done,
    or any call once the release is done, can return. *)
Theorem lease_release_once w :
  rtc release_step release_start_world w ->
  ls_invoked (rw_lease w) = (if ls_started (rw_lease w) then 1 else 0)
  /\ bounded_err (ls_err (rw_lease w))
  /\ (forall id c, rw_calls w !! id = Some c ->
      match rc_pc c with
      | RcReturned e => (ls_done (rw_lease w) = true /\ e = ls_err (rw_lease w))
                        \/ e = Some "tool plan release context must not be nil"%string
      | RcSelect => ls_started (rw_lease w) = true
          /\ (rc_ctx c <> None -> exists lease, ReleaseContext_step true (rw_lease w) c
                = Some (lease, mkReleaseCall RcDrain (rc_ctx c)) /\ ls_done lease = true)
          /\ (ls_done (rw_lease w) = true -> ReleaseContext_step false (rw_lease w) c
                = Some (rw_lease w, mkReleaseCall (RcReturned (ls_err (rw_lease w))) (rc_ctx c)))
      | RcDrain => ReleaseContext_step false (rw_lease w) c
                = Some (rw_lease w, mkReleaseCall (RcReturned (ls_err (rw_lease w))) (rc_ctx c))
      end)
  /\ (forall w', rtc release_step w w' -> ls_done (rw_lease w) = true ->
      ls_done (rw_lease w') = true /\ ls_err (rw_lease w') = ls_err (rw_lease w)).
Proof.
  intros Hr. apply release_reachable_inv in Hr as [H1 H2 H3 H4 H5].
  split; [done|]. split; [done|]. split.
  - intros id c Hc. specialize (H5 id c Hc). simpl in H5. unfold ReleaseContext_step.
    destruct c as [[| |e] ctx]; simpl in *; [|by rewrite H5|done].
    split; [done|]. split; [|by intros ->]. intros Hctx. destruct ctx as [text|]; [|done].
    eexists. split; [reflexivity|]. unfold finishRelease. by destruct (ls_done (rw_lease w)) eqn:E.
  - intros w' Hw' Hd. assert (lease_le (rw_lease w) (rw_lease w')) as [_ H]; [|by apply H].
    clear -Hw'. induction Hw' as [|w0 w1 w2 Hs _ IH]; [reflexivity|].
    etransitivity; [by apply release_step_le|done].
Qed.

Lemma release_reachable_snoc w w' :
  rtc release_step release_start_world w -> release_step w w' -> rtc release_step release_start_world w'.
Proof. apply rtc_r. Qed.

(** Two callers of a lease whose callback hangs; the second one's context
    expires. *)
Definition release_begun : RWorld :=
  mkRWorld (mkLease true true 1 false None)
    (<[2 := mkReleaseCall RcSelect (Some "context canceled"%string)]>
      (<[1 := mkReleaseCall RcSelect None]> ∅)).
Definition release_expired : RWorld :=
  mkRWorld (mkLease true true 1 true (Some "tool plan release did not complete: context canceled"%string))
    (<[2 := mkReleaseCall RcDrain (Some "context canceled"%string)]> (rw_calls release_begun)).

Lemma release_expired_reachable : rtc release_step release_start_world release_expired.
Proof.
  eapply release_reachable_snoc.
  - eapply release_reachable_snoc; [eapply release_reachable_snoc; [apply rtc_refl|]|].
    + apply (release_begins release_start_world 1 false None (mkLease true true 1 false None)
        (mkReleaseCall RcSelect None)); reflexivity.
    + apply (release_begins _ 2 false (Some "context canceled"%string) (mkLease true true 1 false None)
        (mkReleaseCall RcSelect (Some "context canceled"%string))); reflexivity.
  - apply (release_advances release_begun 2 true (mkReleaseCall RcSelect (Some "context canceled"%string)));
      [reflexivity|vm_compute; reflexivity].
Qed.

Lemma lease_release_once_witness :
  ls_invoked (rw_lease release_expired) = 1
  /\ ReleaseContext_step false (rw_lease release_expired) (mkReleaseCall RcSelect None)
     = Some (rw_lease release_expired,
             mkReleaseCall (RcReturned (Some "tool plan release did not complete: context canceled"%string)) None).
Proof.
  destruct (lease_release_once release_expired release_expired_reachable) as (H1 & _ & H2 & _).
  split; [exact H1|]. apply (H2 1 (mkReleaseCall RcSelect None) eq_refl). reflexivity.
Defined.

(** A definition snapshot is canonical.  [snapshotDefinitions] accepts a
    dispatcher's definitions exactly when all are valid and no name repeats;
    the snapshot then holds the same definitions, strictly sorted by name,
    whatever order they were declared in, and the binary-search lookup returns
    exactly the declared definition of each name. *)
Theorem snapshot_canonical declared :
  (is_ok (snapshotDefinitions (Some declared)) = true <->
     Forall valid_definition declared /\ NoDup (map td_name declared))
  /\ (forall s, snapshotDefinitions (Some declared) = Ok s ->
        s ≡ₚ declared /\ StronglySorted name_lt s /\ validateDefinitions s = None
        /\ (forall declared', declared' ≡ₚ declared -> snapshotDefinitions (Some declared') = Ok s)
        /\ (forall name d, definitionFromSnapshot s name = Some d <-> d ∈ declared /\ td_name d = name)).
Proof.
  split.
  - pose proof (merge_sort_Permutation name_le declared) as Hp. split.
    + destruct (snapshotDefinitions (Some declared)) as [s|] eqn:E; [|done]. intros _.
      apply snapshot_Ok in E as (Hs & Hlt & Hv). rewrite <- Hs. split; [done|]. by apply (sorted_keys_nodup td_name).
    + intros [Hv Hn]. assert (snapshotDefinitions (Some declared) = Ok (merge_sort name_le declared)) as ->; [|done].
      apply snapshot_Ok. split; [done|]. split; [|by rewrite Hp].
      apply name_le_lt; [apply (StronglySorted_merge_sort name_le)|].
      apply (NoDup_Permutation_proper _ (map td_name declared)); [by rewrite Hp|done].
  - intros s Hs. apply snapshot_Ok in Hs as (Hp & Hlt & Hv). split; [done|]. split; [done|].
    split; [by apply validateDefinitions_spec|]. split.
    + intros declared' Hp'. apply snapshot_Ok. by rewrite Hp'.
    + intros name d. rewrite (definitionFromSnapshot_spec s name d Hlt). by rewrite Hp.
Qed.
