(* ===== verification/Dispatch.v ===== *)
(** Tool dispatch (src/stage/stage.go, dispatch_guard.go and the dispatchers of
    plan.go): the base dispatcher and its progress reporter, terminal guards
    with their single-use continuation, authority binding, decorators, leases
    and the static plan source.

    Tools, guards, decorators, reporters and interaction requesters are code
    behind interfaces.  Each is a program that may see the history of the
    dispatch and use exactly the operations its interface gives it: a tool
    reports progress, a guard calls its continuation and requests interactions,
    a decorator calls the next dispatcher.  Cancellation may strike at any
    check: [ds_cancel] answers the successive calls of [ctx.Err()]. *)
From Stdlib Require Import ZArith Lia.
From stdpp Require Import base gmap list strings sorting relations.
From S2P Require Import Prelude GoText GoOrder Tool Interaction Plan.
Open Scope Z_scope.

(** ** Scopes *)

Definition dispatchFingerprintPrefix : string := "sha256:".

(** [sc_requester] is the capability pointer: its identity and the requester
    behind it; [None] at either level is nil. *)
Record ToolDispatchScope := mkScope {
  sc_runID : string;
  sc_turn : Z;
  sc_toolPlanID : string;
  sc_planFingerprint : string;
  sc_workspaceFingerprint : string;
  sc_interactionAuthority : InteractionScope;
  sc_requester : option (Z * option Z)
}.

Inductive DispatchError :=
| ErrNilContext
| ErrNilDispatcher
| ErrRunID
| ErrTurn
| ErrScopePlan (e : PlanError)
| ErrFingerprint (label : string)
| ErrAuthority (e : InteractionError)
| ErrAuthorityRun
| ErrRequester
| ErrCancelled
| ErrCallInvalid (e : ToolError)
| ErrNotAvailable (name : string)
| ErrNotDeclared (name : string)
| ErrPlanMismatch
| ErrReentry
| ErrSubstituted
| ErrGuardReentry
| ErrContinuation
| ErrGuardBoth
| ErrGuardResult (e : ToolError)
| ErrGuardCorrelation
| ErrGuardPanicked
| ErrToolBoth
| ErrToolUntyped
| ErrToolInvalid (e : ToolError)
| ErrToolCorrelation
| ErrToolUncertain
| ErrToolRetry
| ErrResult (e : ToolError)
| ErrResultCorrelation
| ErrExecution (failure : ExecutionError)
| ErrExecutionNil
| ErrDispatchFailure (failure : ExecutionError) (reporter : DispatchError)
| ErrProgressInvalid (e : ToolError)
| ErrProgressCorrelation
| ErrInteractionRequest (e : InteractionError)
| ErrInteractionResponse
| ErrInteractionMismatch
| ErrRequesterPanicked
| ErrForeign (text : string).

Definition lower_hex (s : string) : bool :=
  forallb (fun c => in_range 48 57 c || in_range 97 102 c) (byte_codes s).

(** The decoded digest must be 64 hexadecimal characters equal to their own
    lower case. *)
Definition validateDispatchFingerprint (label value : string) (allowEmpty : bool) : option DispatchError :=
  if String.eqb value "" && allowEmpty then None
  else if negb (String.prefix dispatchFingerprintPrefix value) then Some (ErrFingerprint label)
  else
    let digest := String.substring 7 (String.length value - 7) value in
    if negb (slen digest =? 32 * 2) then Some (ErrFingerprint label)
    else if negb (lower_hex digest) then Some (ErrFingerprint label)
    else None.

Definition Scope_Validate (scope : ToolDispatchScope) : option DispatchError :=
  if negb (trimmed_nonempty (sc_runID scope)) || (slen (sc_runID scope) >? 96) then Some ErrRunID
  else if sc_turn scope =? 0 then Some ErrTurn
  else match PlanID_Validate (sc_toolPlanID scope) with
  | Some e => Some (ErrScopePlan e)
  | None =>
    match validateDispatchFingerprint "plan" (sc_planFingerprint scope) false with
    | Some e => Some e
    | None =>
      match validateDispatchFingerprint "workspace" (sc_workspaceFingerprint scope) true with
      | Some e => Some e
      | None =>
        match InteractionScope_Validate (sc_interactionAuthority scope) with
        | Some e => Some (ErrAuthority e)
        | None =>
          if negb (String.eqb (is_runID (sc_interactionAuthority scope)) (sc_runID scope)) then Some ErrAuthorityRun
          else match sc_requester scope with
          | Some (_, Some _) => None
          | _ => Some ErrRequester
          end
        end
      end
    end
  end.

(** [pointer] is the identity of the capability the constructor allocates. *)
Definition NewToolDispatchScope (pointer : Z) (runID : string) (turn : Z) (toolPlanID planFingerprint
  workspaceFingerprint : string) (interactionAuthority : InteractionScope) (interactionRequester : option Z)
  : result DispatchError ToolDispatchScope :=
  let scope := mkScope runID turn toolPlanID planFingerprint workspaceFingerprint interactionAuthority
                 (Some (pointer, interactionRequester)) in
  match interactionRequester with
  | None => Err ErrRequester
  | Some _ => match Scope_Validate scope with Some e => Err e | None => Ok scope end
  end.

Definition scope_equal (scope other : ToolDispatchScope) : bool :=
  String.eqb (sc_runID scope) (sc_runID other) && (sc_turn scope =? sc_turn other)
  && String.eqb (sc_toolPlanID scope) (sc_toolPlanID other)
  && String.eqb (sc_planFingerprint scope) (sc_planFingerprint other)
  && String.eqb (sc_workspaceFingerprint scope) (sc_workspaceFingerprint other)
  && String.eqb (is_runID (sc_interactionAuthority scope)) (is_runID (sc_interactionAuthority other))
  && bool_decide (fst <$> sc_requester scope = fst <$> sc_requester other).

(** ** History, contexts and outcomes *)

Inductive DEvent :=
| EvGuard (dispatcher : Z) (index : nat) (scope : ToolDispatchScope) (call : Call)
| EvDelegate (dispatcher : Z) (scope : ToolDispatchScope) (call : Call)
| EvExecute (call : Call)
| EvProgress (progress : Progress)
| EvInteract (request : InteractionRequest).

Record DState := mkDState { ds_cancel : list bool; ds_trace : list DEvent }.

(** [ctx.Err() != nil]. *)
Definition ctx_err (st : DState) : bool * DState :=
  match ds_cancel st with
  | [] => (false, st)
  | b :: rest => (b, mkDState rest (ds_trace st))
  end.
Definition log (e : DEvent) (st : DState) : DState := mkDState (ds_cancel st) (ds_trace st ++ [e]).

(** The values a context carries: the bound scope, and the guarded dispatchers
    it has entered. *)
Record Ctx := mkCtx { cx_authority : option ToolDispatchScope; cx_guards : list Z }.

Inductive DispatchOutcome := Returns (r : Result) (e : option DispatchError) | Panics.
Definition zero_result : Result := mkToolResult "" None "".
Definition fail (e : DispatchError) : DispatchOutcome := Returns zero_result (Some e).

(** ** Tools and the base dispatcher *)

Definition Reporter := list DEvent -> Progress -> option DispatchError.

(** What [Tool.Execute] does: progress reports (with a possibly nil context),
    then its results. *)
Inductive ToolProgram :=
| ToolReturns (r : Result) (e : option DispatchError)
| ToolPanics
| ToolReports (ctx_nil : bool) (progress : Progress) (k : option DispatchError -> ToolProgram).

Record toolEntry := mkToolEntry {
  te_definition : Definition_;
  te_execute : list DEvent -> Call -> ToolProgram
}.

(** [scopedReporter.report]. *)
Definition report (callID : string) (delegate : option Reporter) (ctx_nil : bool) (progress : Progress)
  (st : DState) : option DispatchError * DState :=
  if ctx_nil then (Some ErrNilContext, st)
  else
    let '(cancelled, st) := ctx_err st in
    if cancelled then (Some ErrCancelled, st)
    else match Progress_Validate progress with
    | Some e => (Some (ErrProgressInvalid e), st)
    | None =>
        if negb (String.eqb (tp_callID progress) callID) then (Some ErrProgressCorrelation, st)
        else match delegate with
        | None => (None, st)
        | Some reporter => (reporter (ds_trace st) progress, log (EvProgress progress) st)
        end
    end.

(** [Execute] with the scoped reporter; [err] is the reporter's first error. *)
Fixpoint run_tool (callID : string) (delegate : option Reporter) (p : ToolProgram)
  (err : option DispatchError) (st : DState) : DispatchOutcome * option DispatchError * DState :=
  match p with
  | ToolReturns r e => (Returns r e, err, st)
  | ToolPanics => (Panics, err, st)
  | ToolReports ctx_nil progress k =>
      let '(answer, st) := report callID delegate ctx_nil progress st in
      let err := match err with Some _ => err | None => answer end in
      run_tool callID delegate (k answer) err st
  end.

Definition validateExecutionError (call : Call) (definition : Definition_) (r : Result)
  (executionErr : DispatchError) : DispatchError :=
  if negb (Result_IsZero r) then ErrToolBoth
  else match executionErr with
  | ErrExecution failure =>
      match ExecutionError_Validate failure with
      | Some e => ErrToolInvalid e
      | None =>
          if negb (String.eqb (ee_callID failure) (tc_id call)) then ErrToolCorrelation
          else if String.eqb (ee_state failure) ExecutionUncertain
                  && negb (String.eqb (td_effect definition) EffectMutating) then ErrToolUncertain
          else if String.eqb (ee_retry failure) RetryAllowed
                  && String.eqb (td_replaySafety definition) ReplayUnsafe then ErrToolRetry
          else ErrExecution failure
      end
  | _ => ErrToolUntyped
  end.

(** The part of [Dispatcher.Dispatch] after [Execute]. *)
Definition dispatch_result (call : Call) (definition : Definition_) (r : Result)
  (executionErr reporterErr : option DispatchError) : DispatchOutcome :=
  match executionErr with
  | Some err =>
      let validated := validateExecutionError call definition r err in
      match reporterErr, validated with
      | Some rep, ErrExecution failure => fail (ErrDispatchFailure failure rep)
      | _, _ => fail validated
      end
  | None =>
      match reporterErr with
      | Some rep => fail rep
      | None =>
          match Result_Validate r with
          | Some e => fail (ErrResult e)
          | None => if negb (String.eqb (tr_callID r) (tc_id call)) then fail ErrResultCorrelation
                    else Returns r None
          end
      end
  end.

(** [Dispatcher.Dispatch]; [None] is the nil dispatcher. *)
Definition Dispatcher_Dispatch (dispatcher : option (gmap string toolEntry)) (ctx : option Ctx)
  (scope : ToolDispatchScope) (call : Call) (reporter : option Reporter) (st : DState) : DispatchOutcome * DState :=
  match ctx, dispatcher with
  | None, _ => (fail ErrNilContext, st)
  | Some _, None => (fail ErrNilDispatcher, st)
  | Some _, Some tools =>
    match Scope_Validate scope with
    | Some e => (fail e, st)
    | None =>
      match Call_Validate call with
      | Some e => (fail (ErrCallInvalid e), st)
      | None =>
        let '(cancelled, st) := ctx_err st in
        if cancelled then (fail ErrCancelled, st)
        else match tools !! tc_name call with
        | None => (fail (ErrNotAvailable (tc_name call)), st)
        | Some entry =>
            let st := log (EvExecute call) st in
            let '(outcome, reporterErr, st) :=
              run_tool (tc_id call) reporter (te_execute entry (ds_trace st) call) None st in
            (match outcome with
             | Panics => Panics
             | Returns r executionErr => dispatch_result call (te_definition entry) r executionErr reporterErr
             end, st)
        end
      end
    end
  end.

(** [NewDispatcher]: the beans in name order; a nil bean is [None], a bean is
    its [Definition()] and its [Execute]. *)
Inductive DispatcherError :=
| ErrToolNil (name : string)
| ErrToolDefinition (name : string) (e : ToolError)
| ErrToolName (name declared : string).

Fixpoint new_dispatcher_loop (tools : gmap string (option toolEntry)) (names : list string)
  (acc : gmap string toolEntry) : result DispatcherError (gmap string toolEntry) :=
  match names with
  | [] => Ok acc
  | name :: names =>
      match tools !! name with
      | Some (Some implementation) =>
          match Definition_Validate (te_definition implementation) with
          | Some e => Err (ErrToolDefinition name e)
          | None =>
              if negb (String.eqb (td_name (te_definition implementation)) name)
              then Err (ErrToolName name (td_name (te_definition implementation)))
              else new_dispatcher_loop tools names (<[name := implementation]> acc)
          end
      | _ => Err (ErrToolNil name)
      end
  end.
Definition sorted_names {A} (m : gmap string A) : list string := sort_strings (map fst (map_to_list m)).
Definition NewDispatcher (tools : gmap string (option toolEntry))
  : result DispatcherError (gmap string toolEntry) :=
  new_dispatcher_loop tools (sorted_names tools) ∅.

Definition Dispatcher_Definitions (dispatcher : option (gmap string toolEntry)) : list Definition_ :=
  match dispatcher with
  | None => []
  | Some tools => omap (fun name => te_definition <$> tools !! name) (sorted_names tools)
  end.
Definition Dispatcher_Definition (dispatcher : option (gmap string toolEntry)) (name : string)
  : option Definition_ :=
  match dispatcher with None => None | Some tools => te_definition <$> tools !! name end.

(** ** Guards *)

(** What [Guard] does: it may call its continuation, request interactions
    through the scope (with a possibly nil context), and returns or panics. *)
Inductive GuardProgram :=
| GuardReturns (r : Result) (e : option DispatchError)
| GuardPanics
| GuardNext (k : DispatchOutcome -> GuardProgram)
| GuardInteract (ctx_nil : bool) (request : InteractionRequest)
    (k : result DispatchError InteractionResponse -> GuardProgram).

Definition Guard := list DEvent -> ToolDispatchScope -> Definition_ -> Call -> GuardProgram.

(** What the requester behind a scope does; [None] is a panic. *)
Definition Requester := list DEvent -> InteractionRequest -> option (result DispatchError InteractionResponse).

Definition safeRequestInteraction (requester : Requester) (request : InteractionRequest) (st : DState)
  : result DispatchError InteractionResponse * DState :=
  let answer := requester (ds_trace st) request in
  (match answer with Some r => r | None => Err ErrRequesterPanicked end, log (EvInteract request) st).

(** [ToolDispatchScope.RequestInteraction]. *)
Definition RequestInteraction (requesters : Z -> Requester) (scope : ToolDispatchScope) (ctx_nil : bool)
  (request : InteractionRequest) (st : DState) : result DispatchError InteractionResponse * DState :=
  if ctx_nil then (Err ErrNilContext, st)
  else match Scope_Validate scope, sc_requester scope with
  | Some e, _ => (Err e, st)
  | None, Some (_, Some requester) =>
    match InteractionRequest_Validate request with
    | Some e => (Err (ErrInteractionRequest e), st)
    | None =>
      let '(cancelled, st) := ctx_err st in
      if cancelled then (Err ErrCancelled, st)
      else
        let '(answer, st) := safeRequestInteraction (requesters requester) request st in
        match answer with
        | Err e => (Err e, st)
        | Ok response =>
            let '(cancelled, st) := ctx_err st in
            if cancelled then (Err ErrCancelled, st)
            else match InteractionResponse_Validate response with
            | Some _ => (Err ErrInteractionResponse, st)
            | None => if negb (String.eqb (ip_id response) (ir_id request)) then (Err ErrInteractionMismatch, st)
                      else (Ok response, st)
            end
        end
    end
  | None, _ => (Err ErrRequester, st)
  end.

Section Guards.
  Context (requesters : Z -> Requester).

(** [Guard] run with its continuation; [is_open] until the continuation is
    used. *)
Fixpoint run_guard (next : DState -> DispatchOutcome * DState) (scope : ToolDispatchScope) (is_open : bool)
  (p : GuardProgram) (st : DState) : DispatchOutcome * DState :=
  match p with
  | GuardReturns r e => (Returns r e, st)
  | GuardPanics => (Panics, st)
  | GuardNext k =>
      if is_open then let '(o, st) := next st in run_guard next scope false (k o) st
      else run_guard next scope false (k (fail ErrContinuation)) st
  | GuardInteract ctx_nil request k =>
      let '(answer, st) := RequestInteraction requesters scope ctx_nil request st in
      run_guard next scope is_open (k answer) st
  end.

(** [safeGuard] turns a panic into an error. *)
Definition safeGuard (o : DispatchOutcome) : Result * option DispatchError :=
  match o with Returns r e => (r, e) | Panics => (zero_result, Some ErrGuardPanicked) end.

Definition validateGuardOutcome (call : Call) (r : Result) (guardErr : option DispatchError) : DispatchOutcome :=
  match guardErr with
  | Some e => if negb (Result_IsZero r) then fail ErrGuardBoth else fail e
  | None =>
      match Result_Validate r with
      | Some e => fail (ErrGuardResult e)
      | None => if negb (String.eqb (tr_callID r) (tc_id call)) then fail ErrGuardCorrelation
                else Returns r None
      end
  end.

(** The [invoke] closure of [guardedToolDispatcher.Dispatch] at [index];
    [guards] are the guards from there on. *)
Fixpoint invoke (dispatcher : Z) (delegate : DState -> DispatchOutcome * DState) (scope : ToolDispatchScope)
  (definition : Definition_) (call : Call) (guards : list Guard) (index : nat) (st : DState)
  : DispatchOutcome * DState :=
  let '(cancelled, st) := ctx_err st in
  if cancelled then (fail ErrCancelled, st)
  else match guards with
  | [] => delegate (log (EvDelegate dispatcher scope call) st)
  | guard :: guards =>
      let st := log (EvGuard dispatcher index scope call) st in
      let '(o, st) := run_guard (invoke dispatcher delegate scope definition call guards (S index))
                        scope true (guard (ds_trace st) scope definition call) st in
      let '(r, e) := safeGuard o in
      (validateGuardOutcome call r e, st)
  end.

(** [guardedToolDispatcher.Dispatch]; [delegate] is the delegate's [Dispatch]. *)
Definition guarded_Dispatch (dispatcher : Z)
  (delegate : option Ctx -> ToolDispatchScope -> Call -> option Reporter -> DState -> DispatchOutcome * DState)
  (definitions : list Definition_) (guards : list Guard) (ctx : option Ctx) (scope : ToolDispatchScope)
  (call : Call) (reporter : option Reporter) (st : DState) : DispatchOutcome * DState :=
  match ctx with
  | None => (fail ErrNilContext, st)
  | Some ctx =>
    match Scope_Validate scope with
    | Some e => (fail e, st)
    | None =>
      if negb (match cx_authority ctx with Some bound => scope_equal bound scope | None => false end)
      then (fail ErrSubstituted, st)
      else match Call_Validate call with
      | Some e => (fail (ErrCallInvalid e), st)
      | None =>
        let '(cancelled, st) := ctx_err st in
        if cancelled then (fail ErrCancelled, st)
        else match definitionFromSnapshot definitions (tc_name call) with
        | None => (fail (ErrNotDeclared (tc_name call)), st)
        | Some definition =>
            if existsb (Z.eqb dispatcher) (cx_guards ctx) then (fail ErrGuardReentry, st)
            else
              let inner := mkCtx (cx_authority ctx) (dispatcher :: cx_guards ctx) in
              invoke dispatcher (delegate (Some inner) scope call reporter) scope definition call guards 0 st
        end
      end
    end
  end.

(** ** Dispatchers *)

(** A dispatcher of another package, usually a decorator's: what it declares,
    and what its [Dispatch] does with the next dispatcher.  The context keys
    are unexported, so it can pass on the context it received (or one derived
    from it), a context without the values, or nil. *)
Inductive CtxChoice := KeepCtx | FreshCtx | NilCtx.
Definition choose_ctx (ctx : option Ctx) (c : CtxChoice) : option Ctx :=
  match c with KeepCtx => ctx | FreshCtx => Some (mkCtx None []) | NilCtx => None end.

Inductive WrapProgram :=
| WrapReturns (r : Result) (e : option DispatchError)
| WrapPanics
| WrapNext (ctx : CtxChoice) (scope : ToolDispatchScope) (call : Call) (reporter : option Reporter)
    (k : DispatchOutcome -> WrapProgram).

Record Behaviour := mkBehaviour {
  bh_definitions : list DEvent -> option (list Definition_);
  bh_definition : list DEvent -> string -> option Definition_;
  bh_dispatch : list DEvent -> ToolDispatchScope -> Call -> option Reporter -> WrapProgram
}.

(** The implementations of the [ToolDispatcher] interface.  A guarded
    dispatcher has an identity, the pointer its context key holds. *)
Inductive ToolDispatcher :=
| DBase (d : option (gmap string toolEntry))
| DSnapshot (delegate : ToolDispatcher) (definitions : list Definition_) (planID : string)
| DGuarded (dispatcher : Z) (delegate : ToolDispatcher) (definitions : list Definition_) (guards : list Guard)
| DComposed (delegate : ToolDispatcher)
| DWrapped (b : Behaviour) (next : option ToolDispatcher).

Fixpoint run_wrap (next : option Ctx -> ToolDispatchScope -> Call -> option Reporter -> DState -> DispatchOutcome * DState)
  (ctx : option Ctx) (p : WrapProgram) (st : DState) : DispatchOutcome * DState :=
  match p with
  | WrapReturns r e => (Returns r e, st)
  | WrapPanics => (Panics, st)
  | WrapNext c scope call reporter k =>
      let '(o, st) := next (choose_ctx ctx c) scope call reporter st in
      run_wrap next ctx (k o) st
  end.

(** [Dispatch] of each implementation. *)
Fixpoint Dispatch (d : ToolDispatcher) (ctx : option Ctx) (scope : ToolDispatchScope) (call : Call)
  (reporter : option Reporter) (st : DState) : DispatchOutcome * DState :=
  match d with
  | DBase tools => Dispatcher_Dispatch tools ctx scope call reporter st
  | DSnapshot delegate definitions planID =>
      match Call_Validate call with
      | Some e => (fail (ErrCallInvalid e), st)
      | None =>
          if negb (String.eqb planID "") && negb (String.eqb (sc_toolPlanID scope) planID)
          then (fail ErrPlanMismatch, st)
          else match definitionFromSnapshot definitions (tc_name call) with
          | None => (fail (ErrNotDeclared (tc_name call)), st)
          | Some _ => Dispatch delegate ctx scope call reporter st
          end
      end
  | DGuarded dispatcher delegate definitions guards =>
      guarded_Dispatch dispatcher (Dispatch delegate) definitions guards ctx scope call reporter st
  | DComposed delegate =>
      match ctx with
      | None => (fail ErrNilContext, st)
      | Some ctx =>
          match Scope_Validate scope with
          | Some e => (fail e, st)
          | None =>
              match cx_authority ctx with
              | Some _ => (fail ErrReentry, st)
              | None => Dispatch delegate (Some (mkCtx (Some scope) (cx_guards ctx))) scope call reporter st
              end
          end
      end
  | DWrapped b next =>
      let inner := match next with
                   | Some n => Dispatch n
                   | None => fun _ _ _ _ st => (Panics, st)
                   end in
      run_wrap inner ctx (bh_dispatch b (ds_trace st) scope call reporter) st
  end.
End Guards.

(** [Definitions] and [Definition] at a point of the history; [None] is a
    panic of foreign code. *)
Fixpoint Definitions (history : list DEvent) (d : ToolDispatcher) : option (list Definition_) :=
  match d with
  | DBase tools => Some (Dispatcher_Definitions tools)
  | DSnapshot _ definitions _ => Some definitions
  | DGuarded _ _ definitions _ => Some definitions
  | DComposed delegate => Definitions history delegate
  | DWrapped b _ => bh_definitions b history
  end.

Fixpoint Definition_of (history : list DEvent) (d : ToolDispatcher) (name : string) : option Definition_ :=
  match d with
  | DBase tools => Dispatcher_Definition tools name
  | DSnapshot _ definitions _ => definitionFromSnapshot definitions name
  | DGuarded _ _ definitions _ => definitionFromSnapshot definitions name
  | DComposed delegate => Definition_of history delegate name
  | DWrapped b _ => bh_definition b history name
  end.

(** ** Pipelines, leases and the static source *)

Inductive PipelineError :=
| ErrPipelineBase
| ErrComposedAgain
| ErrSnapshot (e : PlanError)
| ErrGuardNil (index : nat)
| ErrDecoratorNil (index : nat)
| ErrDecoratorPanicked (index : nat)
| ErrDecoratorReturnedNil (index : nat)
| ErrDecoratorDefinitions (index : nat) (e : PlanError)
| ErrDecoratorChanged (index : nat)
| ErrPlanID (e : PlanError)
| ErrReleaseNil
| ErrLeaseContext
| ErrLeaseCancelled
| ErrPlanUnavailable.

(** [Wrap]: [None] is a panic, [Some None] a nil dispatcher. *)
Definition Decorator := ToolDispatcher -> option (option ToolDispatcher).

Section Pipelines.
  Context (sha256_hex : list Z -> string) (history : list DEvent).

(** The loop of [ApplyToolDispatchDecorators]: from the last decorator to the
    first, [index] its position. *)
Fixpoint decorate_loop (definitions : list Definition_) (decorators : list (nat * option Decorator))
  (current : ToolDispatcher) : result PipelineError ToolDispatcher :=
  match decorators with
  | [] => Ok current
  | (index, decorator) :: decorators =>
      match decorator with
      | None => Err (ErrDecoratorNil index)
      | Some wrap =>
          match wrap current with
          | None => Err (ErrDecoratorPanicked index)
          | Some None => Err (ErrDecoratorReturnedNil index)
          | Some (Some wrapped) =>
              match snapshotDefinitions (Definitions history wrapped) with
              | Err e => Err (ErrDecoratorDefinitions index e)
              | Ok wrappedDefinitions =>
                  if negb (sameDefinitions sha256_hex definitions wrappedDefinitions)
                  then Err (ErrDecoratorChanged index)
                  else decorate_loop definitions decorators (DSnapshot wrapped definitions "")
              end
          end
      end
  end.

Definition ApplyToolDispatchDecorators (base : option ToolDispatcher) (decorators : list (option Decorator))
  : result PipelineError ToolDispatcher :=
  match base with
  | None => Err ErrPipelineBase
  | Some base =>
      match snapshotDefinitions (Definitions history base) with
      | Err e => Err (ErrSnapshot e)
      | Ok definitions =>
          decorate_loop definitions (reverse (imap pair decorators)) (DSnapshot base definitions "")
      end
  end.

Fixpoint check_guards (index : nat) (guards : list (option Guard)) : result PipelineError (list Guard) :=
  match guards with
  | [] => Ok []
  | None :: _ => Err (ErrGuardNil index)
  | Some guard :: guards =>
      match check_guards (S index) guards with Err e => Err e | Ok l => Ok (guard :: l) end
  end.

(** [pointer] is the identity of the guarded dispatcher allocated. *)
Definition ApplyToolDispatchPipeline (pointer : Z) (base : option ToolDispatcher)
  (guards : list (option Guard)) (decorators : list (option Decorator)) : result PipelineError ToolDispatcher :=
  match base with
  | None => Err ErrPipelineBase
  | Some (DComposed inner) =>
      match guards, decorators with
      | [], [] => Ok (DComposed inner)
      | _, _ => Err ErrComposedAgain
      end
  | Some base =>
      match snapshotDefinitions (Definitions history base) with
      | Err e => Err (ErrSnapshot e)
      | Ok definitions =>
          match check_guards 0 guards with
          | Err e => Err e
          | Ok guardCopy =>
              match ApplyToolDispatchDecorators (Some (DGuarded pointer base definitions guardCopy)) decorators with
              | Err e => Err e
              | Ok decorated => Ok (DComposed decorated)
              end
          end
      end
  end.

Definition SnapshotToolDispatcher (dispatcher : option ToolDispatcher) : result PipelineError ToolDispatcher :=
  match dispatcher with
  | None => Err ErrPipelineBase
  | Some d =>
      match snapshotDefinitions (Definitions history d) with
      | Err e => Err (ErrSnapshot e)
      | Ok definitions => Ok (DSnapshot d definitions "")
      end
  end.

Record ToolPlanLease := mkPlanLease {
  pl_id : string;
  pl_dispatcher : ToolDispatcher;
  pl_definitions : list Definition_;
  pl_release : LeaseRelease
}.

Definition NewToolPlanLease (id : string) (dispatcher : option ToolDispatcher) (release_nil : bool)
  : result PipelineError ToolPlanLease :=
  match PlanID_Validate id with
  | Some e => Err (ErrPlanID e)
  | None =>
      match dispatcher with
      | None => Err ErrPipelineBase
      | Some d =>
          if release_nil then Err ErrReleaseNil
          else match snapshotDefinitions (Definitions history d) with
          | Err e => Err (ErrSnapshot e)
          | Ok definitions => Ok (mkPlanLease id (DSnapshot d definitions id) definitions new_lease)
          end
      end
  end.

(** [ToolPlanLease.Validate]; the dispatcher, callback and channel of a lease
    of the model are never nil. *)
Definition ToolPlanLease_Validate (lease : option ToolPlanLease) : option PlanError :=
  match lease with
  | None => Some ErrLeaseNil
  | Some l =>
      match PlanID_Validate (pl_id l) with
      | Some e => Some e
      | None => validateDefinitions (pl_definitions l)
      end
  end.

Record StaticToolPlanSource := mkStaticSource { sp_id : string; sp_dispatcher : ToolDispatcher }.

Definition NewStaticToolPlanSource (pointer : Z) (dispatcher : option ToolDispatcher)
  : result PipelineError StaticToolPlanSource :=
  match dispatcher with
  | None => Err ErrPipelineBase
  | Some _ =>
      match ApplyToolDispatchPipeline pointer dispatcher [] [] with
      | Err e => Err e
      | Ok d =>
          match snapshotDefinitions (Definitions history d) with
          | Err e => Err (ErrSnapshot e)
          | Ok definitions =>
              match staticPlanID sha256_hex definitions with
              | Err e => Err (ErrPlanID e)
              | Ok id => Ok (mkStaticSource id (DSnapshot d definitions ""))
              end
          end
      end
  end.

Definition LeaseCurrent (ctx : ctx_arg) (source : option StaticToolPlanSource)
  : result PipelineError ToolPlanLease :=
  match ctx, source with
  | CtxNil, _ => Err ErrLeaseContext
  | _, None => Err ErrPipelineBase
  | CtxDone, Some _ => Err ErrLeaseCancelled
  | CtxLive, Some s => NewToolPlanLease (sp_id s) (Some (sp_dispatcher s)) false
  end.

Definition LeaseGeneration (ctx : ctx_arg) (id : string) (source : option StaticToolPlanSource)
  : result PipelineError ToolPlanLease :=
  match PlanID_Validate id with
  | Some e => Err (ErrPlanID e)
  | None =>
      match source with
      | None => Err ErrPipelineBase
      | Some s => if negb (String.eqb id (sp_id s)) then Err ErrPlanUnavailable else LeaseCurrent ctx source
      end
  end.
End Pipelines.

(** ** Continuations under concurrency

    [newGuardContinuation] as threads see it: the atomic [state] (0 unused, 1
    running, 2 closed), the [done] channel, the goroutines that call the
    continuation, and the closer.  [ct_runs] counts the delegate's runs. *)
Inductive caller_pc := CallStart | CallRunning | CallRefused | CallReturned.
Inductive closer_pc := CloseStart | CloseLoad | CloseWait | Closed.
Record Continuation := mkContinuation {
  ct_state : Z;
  ct_done : bool;
  ct_runs : Z;
  ct_callers : gmap Z caller_pc;
  ct_closer : closer_pc
}.
Definition newGuardContinuation : Continuation := mkContinuation 0 false 0 ∅ CloseStart.

(** One atomic step of the caller [id]: [CompareAndSwap(0, 1)], then the
    delegate's return with its deferred [Store(2)] and [close(done)]. *)
Definition continuation_call (id : Z) (pc : caller_pc) (c : Continuation) : option Continuation :=
  match pc with
  | CallStart =>
      if ct_state c =? 0
      then Some (mkContinuation 1 (ct_done c) (ct_runs c + 1) (<[id := CallRunning]> (ct_callers c)) (ct_closer c))
      else Some (mkContinuation (ct_state c) (ct_done c) (ct_runs c) (<[id := CallRefused]> (ct_callers c)) (ct_closer c))
  | CallRunning => Some (mkContinuation 2 true (ct_runs c) (<[id := CallReturned]> (ct_callers c)) (ct_closer c))
  | CallRefused | CallReturned => None
  end.

(** One atomic step of the closer: [CompareAndSwap(0, 2)], [Load], the receive
    from [done]. *)
Definition continuation_close (c : Continuation) : option Continuation :=
  let at_pc state pc := Some (mkContinuation state (ct_done c) (ct_runs c) (ct_callers c) pc) in
  match ct_closer c with
  | CloseStart => if ct_state c =? 0 then at_pc 2 Closed else at_pc (ct_state c) CloseLoad
  | CloseLoad => if ct_state c =? 1 then at_pc (ct_state c) CloseWait else at_pc (ct_state c) Closed
  | CloseWait => if ct_done c then at_pc (ct_state c) Closed else None
  | Closed => None
  end.

Inductive continuation_step : Continuation -> Continuation -> Prop :=
| continuation_spawn c id :
    ct_callers c !! id = None ->
    continuation_step c (mkContinuation (ct_state c) (ct_done c) (ct_runs c)
                           (<[id := CallStart]> (ct_callers c)) (ct_closer c))
| continuation_calls c id pc c' :
    ct_callers c !! id = Some pc -> continuation_call id pc c = Some c' -> continuation_step c c'
| continuation_closes c c' : continuation_close c = Some c' -> continuation_step c c'.

(** ** Lemmas *)

(** *** The base dispatcher *)

(** A reporter that does not itself answer with tool execution errors. *)
Definition plain_error (e : DispatchError) : Prop :=
  match e with ErrExecution _ | ErrDispatchFailure _ _ => False | _ => True end.
Definition plain_reporter (reporter : option Reporter) : Prop :=
  forall r h p e, reporter = Some r -> r h p = Some e -> plain_error e.

Definition from_option {A} (P : A -> Prop) (o : option A) : Prop := forall x, o = Some x -> P x.

Lemma ctx_err_trace st c st' : ctx_err st = (c, st') -> ds_trace st' = ds_trace st.
Proof. unfold ctx_err. destruct (ds_cancel st); by intros [= <- <-]. Qed.

Definition progress_of (callID : string) (e : DEvent) : Prop := exists p, e = EvProgress p /\ tp_callID p = callID.

Lemma report_trace callID delegate ctx_nil progress st answer st' :
  report callID delegate ctx_nil progress st = (answer, st') ->
  exists added, ds_trace st' = ds_trace st ++ added /\ Forall (progress_of callID) added.
Proof.
  unfold report. intros H.
  assert (Hnone : forall st0 : DState, ds_trace st0 = ds_trace st ->
    exists added, ds_trace st0 = ds_trace st ++ added /\ Forall (progress_of callID) added)
    by (intros st0 ->; exists []; by rewrite app_nil_r).
  destruct ctx_nil; [injection H as <- <-; auto|].
  destruct (ctx_err st) as [cancelled st0] eqn:Ec. apply ctx_err_trace in Ec.
  destruct cancelled; [injection H as <- <-; auto|].
  destruct (Progress_Validate progress); [injection H as <- <-; auto|].
  destruct (String.eqb_spec (tp_callID progress) callID) as [Hid|]; simpl in H; [|injection H as <- <-; auto].
  destruct delegate as [reporter|]; injection H as <- <-; [|auto].
  exists [EvProgress progress]. simpl. rewrite Ec. split; [done|]. constructor; [by exists progress|done].
Qed.

Lemma report_plain callID delegate ctx_nil progress st answer st' :
  report callID delegate ctx_nil progress st = (answer, st') -> plain_reporter delegate ->
  from_option plain_error answer.
Proof.
  unfold report. intros H Hp e ->.
  repeat (split_match_in H; simplify_eq; try exact I). by eapply Hp.
Qed.

Lemma run_tool_trace callID delegate p : forall err st o err' st',
  run_tool callID delegate p err st = (o, err', st') ->
  exists added, ds_trace st' = ds_trace st ++ added /\ Forall (progress_of callID) added.
Proof.
  induction p as [r e| |ctx_nil progress k IH]; intros err st o err' st' H; simpl in H.
  - injection H as _ _ <-. exists []. by rewrite app_nil_r.
  - injection H as _ _ <-. exists []. by rewrite app_nil_r.
  - destruct (report callID delegate ctx_nil progress st) as [answer st1] eqn:Er.
    destruct (report_trace _ _ _ _ _ _ _ Er) as (added1 & Ht1 & Hf1).
    destruct (IH answer _ _ _ _ _ H) as (added2 & Ht2 & Hf2).
    exists (added1 ++ added2). rewrite Ht2, Ht1, app_assoc. split; [done|]. by apply Forall_app.
Qed.

Lemma run_tool_plain callID delegate p : forall err st o err' st',
  run_tool callID delegate p err st = (o, err', st') -> plain_reporter delegate -> from_option plain_error err ->
  from_option plain_error err'.
Proof.
  induction p as [r e| |ctx_nil progress k IH]; intros err st o err' st' H Hp He; simpl in H;
    [by simplify_eq..|].
  destruct (report callID delegate ctx_nil progress st) as [answer st1] eqn:Er.
  eapply IH; [done..|]. destruct err; [done|]. by eapply report_plain.
Qed.

(** What the base dispatcher lets through as a tool's execution failure. *)
Definition failure_ok (call : Call) (definition : Definition_) (f : ExecutionError) : Prop :=
  ExecutionError_Validate f = None /\ ee_callID f = tc_id call
  /\ (ee_state f = ExecutionUncertain -> td_effect definition = EffectMutating)
  /\ (ee_retry f = RetryAllowed -> td_replaySafety definition <> ReplayUnsafe).

Lemma validateExecutionError_spec call definition r e :
  match validateExecutionError call definition r e with
  | ErrExecution f => e = ErrExecution f /\ Result_IsZero r = true /\ failure_ok call definition f
  | ErrDispatchFailure _ _ => False
  | _ => True
  end.
Proof.
  unfold validateExecutionError. destruct (Result_IsZero r) eqn:Ez; cbn [negb]; [|done].
  destruct e; auto. destruct (ExecutionError_Validate failure) eqn:Ev; [done|].
  destruct (String.eqb_spec (ee_callID failure) (tc_id call)); cbn [negb]; [|done].
  destruct (String.eqb_spec (ee_state failure) ExecutionUncertain),
    (String.eqb_spec (td_effect definition) EffectMutating),
    (String.eqb_spec (ee_retry failure) RetryAllowed),
    (String.eqb_spec (td_replaySafety definition) ReplayUnsafe); cbn [andb negb]; try exact I;
    unfold failure_ok; tauto.
Qed.

(** What a dispatch may answer: a valid correlated result, or the zero result
    with an error, where a tool execution failure is one the contract allows. *)
Definition answer_ok (call : Call) (definition : option Definition_) (o : DispatchOutcome) : Prop :=
  match o with
  | Panics => True
  | Returns r None => Result_Validate r = None /\ tr_callID r = tc_id call
  | Returns r (Some e) => r = zero_result /\
      match e with
      | ErrExecution f | ErrDispatchFailure f _ =>
          match definition with Some d => failure_ok call d f | None => False end
      | _ => True
      end
  end.

Lemma dispatch_result_ok call definition r e rep :
  from_option plain_error rep ->
  answer_ok call (Some definition) (dispatch_result call definition r e rep).
Proof.
  intros Hrep. unfold dispatch_result. destruct e as [e|].
  - pose proof (validateExecutionError_spec call definition r e) as H.
    destruct rep, (validateExecutionError call definition r e); simpl; tauto.
  - destruct rep as [rep|].
    + specialize (Hrep rep eq_refl). destruct rep; simpl in *; tauto.
    + destruct (Result_Validate r) eqn:Ev; [done|].
      destruct (String.eqb_spec (tr_callID r) (tc_id call)); simpl; auto.
Qed.

(** The base dispatcher's contract, for any tool, any cancellation and any
    reporter that does not itself answer with execution errors.  The tool is
    executed at most once, only for a valid scope, a valid call and a registered
    name, and only progress of that call reaches the reporter.  The answer is a
    valid result of that call, or the zero result with an error; an execution
    failure that comes out is valid, belongs to the call, is uncertain only for
    a mutating tool and never permits retry of a replay-unsafe one.  A result
    without error means the tool ran. *)
Theorem tool_dispatch_contract tools ctx scope call reporter st o st' :
  Dispatcher_Dispatch (Some tools) ctx scope call reporter st = (o, st') -> plain_reporter reporter ->
  answer_ok call (te_definition <$> tools !! tc_name call) o
  /\ ((ds_trace st' = ds_trace st /\ exists e, o = fail e)
      \/ exists entry progress,
           tools !! tc_name call = Some entry /\ Scope_Validate scope = None /\ Call_Validate call = None
           /\ ds_trace st' = ds_trace st ++ EvExecute call :: progress
           /\ Forall (progress_of (tc_id call)) progress).
Proof.
  unfold Dispatcher_Dispatch. intros H Hp.
  assert (Hfail : forall e st0, (fail e, st0) = (o, st') -> ds_trace st0 = ds_trace st -> plain_error e ->
    answer_ok call (te_definition <$> tools !! tc_name call) o /\
    ((ds_trace st' = ds_trace st /\ exists e, o = fail e) \/ False)).
  { intros e st0 [= <- <-] Ht He. split; [|eauto]. simpl. split; [done|]. by destruct e. }
  destruct ctx as [ctx|]; [|destruct (Hfail _ _ H eq_refl I); naive_solver].
  destruct (Scope_Validate scope) as [e|] eqn:Es.
  { assert (plain_error e) as He; [|destruct (Hfail _ _ H eq_refl He); naive_solver].
    clear -Es. unfold Scope_Validate, validateDispatchFingerprint in Es.
    repeat (split_match_in Es; try discriminate); by injection Es as <-. }
  destruct (Call_Validate call) as [e|] eqn:Ec; [destruct (Hfail _ _ H eq_refl I); naive_solver|].
  destruct (ctx_err st) as [cancelled st0] eqn:Ee. apply ctx_err_trace in Ee.
  destruct cancelled; [destruct (Hfail _ _ H Ee I); naive_solver|].
  destruct (tools !! tc_name call) as [entry|] eqn:El; [|destruct (Hfail _ _ H Ee I); naive_solver].
  destruct (run_tool _ _ _ _ _) as [[out rep] st1] eqn:Er. injection H as <- <-.
  destruct (run_tool_trace _ _ _ _ _ _ _ _ Er) as (added & Ht & Hf).
  assert (from_option plain_error rep) as Hrep by (eapply run_tool_plain; [done..|by intros ? [=]]).
  split; [destruct out as [r e|]; [by apply dispatch_result_ok|done]|].
  right. exists entry, added. simpl in Ht. rewrite Ee, <- app_assoc in Ht. auto.
Qed.

(** *** Guards *)

(** Events of the guarded dispatcher [id]. *)
Definition of_dispatcher (id : Z) (e : DEvent) : Prop :=
  match e with EvGuard id' _ _ _ | EvDelegate id' _ _ => id' = id | _ => False end.
#[export] Instance of_dispatcher_dec id e : Decision (of_dispatcher id e).
Proof. destruct e; simpl; apply _. Defined.

(** What a computation adds to the events of [id]. *)
Definition adds (id : Z) (st st' : DState) (l : list DEvent) : Prop :=
  exists added, ds_trace st' = ds_trace st ++ added /\ filter (of_dispatcher id) added = l.

Lemma adds_same id st st' : ds_trace st' = ds_trace st -> adds id st st' [].
Proof. intros H. exists []. by rewrite app_nil_r. Qed.

Lemma adds_trans id st1 st2 st3 l1 l2 : adds id st1 st2 l1 -> adds id st2 st3 l2 -> adds id st1 st3 (l1 ++ l2).
Proof.
  intros (a1 & H1 & <-) (a2 & H2 & <-). exists (a1 ++ a2). by rewrite H2, H1, app_assoc, filter_app.
Qed.

Lemma adds_log id e st : adds id st (log e st) (if decide (of_dispatcher id e) then [e] else []).
Proof. exists [e]. split; [done|]. rewrite filter_cons. by destruct (decide _). Qed.

Lemma adds_ctx_err id st c st' : ctx_err st = (c, st') -> adds id st st' [].
Proof. intros H. apply adds_same. by eapply ctx_err_trace. Qed.

Lemma adds_interact id requesters scope ctx_nil request st r st' :
  RequestInteraction requesters scope ctx_nil request st = (r, st') -> adds id st st' [].
Proof.
  unfold RequestInteraction. intros H. destruct ctx_nil; [injection H as <- <-; by apply adds_same|].
  destruct (Scope_Validate scope), (sc_requester scope) as [[q [requester|]]|];
    try (injection H as <- <-; by apply adds_same).
  destruct (InteractionRequest_Validate request); [injection H as <- <-; by apply adds_same|].
  destruct (ctx_err st) as [c1 st1] eqn:E1. pose proof (adds_ctx_err id _ _ _ E1) as A1.
  destruct c1; [by injection H as <- <-|].
  unfold safeRequestInteraction in H. pose proof (adds_log id (EvInteract request) st1) as A2.
  pose proof (adds_trans _ _ _ _ _ _ A1 A2) as A3. simpl in A3.
  destruct (match requesters requester _ _ with Some _ => _ | None => _ end); [|by injection H as <- <-].
  destruct (ctx_err (log _ st1)) as [c2 st2] eqn:E2.
  pose proof (adds_trans _ _ _ _ _ _ A3 (adds_ctx_err id _ _ _ E2)) as A4. simpl in A4.
  destruct c2; [by injection H as <- <-|].
  destruct (InteractionResponse_Validate _); [by injection H as <- <-|].
  destruct (negb _); by injection H as <- <-.
Qed.

(** The events of one dispatch through the guards from [index] on: the guards
    in order as far as they were reached, then the delegate if all were. *)
Definition guard_run (id : Z) (scope : ToolDispatchScope) (call : Call) (index n : nat) (l : list DEvent) : Prop :=
  exists k delegated,
    l = map (fun i => EvGuard id i scope call) (seq index k)
        ++ (if delegated : bool then [EvDelegate id scope call] else [])
    /\ (k <= n)%nat /\ (delegated = true -> k = n).

Lemma guard_run_nil id scope call index n : guard_run id scope call index n [].
Proof. exists 0%nat, false. repeat split; [lia|done]. Qed.

Lemma guard_run_cons id scope call index n l :
  guard_run id scope call (S index) n l -> guard_run id scope call index (S n) (EvGuard id index scope call :: l).
Proof.
  intros (k & b & -> & Hk & Hb). exists (S k), b. repeat split; [lia|]. intros H. f_equal. auto.
Qed.

Section GuardRuns.
  Context (requesters : Z -> Requester) (id : Z).

(** A guard program adds what its continuation adds in one run, or nothing. *)
Lemma run_guard_adds (P : list DEvent -> Prop) next scope :
  P [] -> (forall st o st', next st = (o, st') -> exists l, adds id st st' l /\ P l) ->
  forall p is_open st o st', run_guard requesters next scope is_open p st = (o, st') ->
  exists l, adds id st st' l /\ (if is_open : bool then P l else l = []).
Proof.
  intros Hnil Hnext p. induction p as [r e| |k IH|ctx_nil request k IH]; intros is_open st o st' H; simpl in H.
  - injection H as <- <-. exists []. split; [by apply adds_same|]. by destruct is_open.
  - injection H as <- <-. exists []. split; [by apply adds_same|]. by destruct is_open.
  - destruct is_open.
    + destruct (next st) as [o1 st1] eqn:En. destruct (Hnext _ _ _ En) as (l & Hl & Hr).
      destruct (IH o1 false _ _ _ H) as (l2 & Hl2 & ->). exists (l ++ []). rewrite app_nil_r.
      split; [|done]. rewrite <- (app_nil_r l). by eapply adds_trans.
    + destruct (IH _ false _ _ _ H) as (l2 & Hl2 & ->). eauto.
  - destruct (RequestInteraction _ _ _ _ _) as [answer st1] eqn:Ei.
    destruct (IH answer is_open _ _ _ H) as (l & Hl & Hr). exists l. split; [|done].
    apply (adds_trans _ _ st1 _ [] l); [by eapply adds_interact|done].
Qed.

Lemma invoke_run delegate scope definition call :
  (forall st o st', delegate st = (o, st') -> adds id st st' []) ->
  forall guards index st o st',
  invoke requesters id delegate scope definition call guards index st = (o, st') ->
  exists l, adds id st st' l /\ guard_run id scope call index (length guards) l.
Proof.
  intros Hd guards. induction guards as [|guard guards IH]; intros index st o st' H; simpl in H;
    destruct (ctx_err st) as [c st1] eqn:Ec; pose proof (adds_ctx_err id _ _ _ Ec) as A1;
    (destruct c; [injection H as <- <-; exists []; split; [done|apply guard_run_nil]|]).
  - exists [EvDelegate id scope call]. split; [|exists 0%nat, true; repeat split; simpl; lia].
    pose proof (adds_log id (EvDelegate id scope call) st1) as A2. rewrite decide_True in A2 by done.
    pose proof (adds_trans _ _ _ _ _ _ A1 (adds_trans _ _ _ _ _ _ A2 (Hd _ _ _ H))) as A. done.
  - pose proof (adds_log id (EvGuard id index scope call) st1) as A2. rewrite decide_True in A2 by done.
    destruct (run_guard _ _ _ _ _ _) as [o1 st2] eqn:Er.
    destruct (run_guard_adds _ _ scope (guard_run_nil id scope call (S index) (length guards)) (IH (S index)) _ _ _ _ _ Er) as (l & Hl & Hr).
    destruct (safeGuard o1). injection H as <- <-. exists (EvGuard id index scope call :: l).
    split; [|by apply guard_run_cons].
    apply (adds_trans _ _ _ _ [] _ A1). by apply (adds_trans _ _ _ _ [_] l A2).
Qed.

(** The guards of another dispatcher add nothing to the events of [id]. *)
Lemma invoke_quiet other delegate scope definition call :
  other <> id -> (forall st o st', delegate st = (o, st') -> adds id st st' []) ->
  forall guards index st o st',
  invoke requesters other delegate scope definition call guards index st = (o, st') -> adds id st st' [].
Proof.
  intros Hne Hd guards. induction guards as [|guard guards IH]; intros index st o st' H; simpl in H;
    destruct (ctx_err st) as [c st1] eqn:Ec; pose proof (adds_ctx_err id _ _ _ Ec) as A1;
    (destruct c; [by injection H as <- <-|]).
  - pose proof (adds_log id (EvDelegate other scope call) st1) as A2. rewrite decide_False in A2 by done.
    apply (adds_trans _ _ _ _ [] [] A1). apply (adds_trans _ _ _ _ [] [] A2). by eapply Hd.
  - pose proof (adds_log id (EvGuard other index scope call) st1) as A2. rewrite decide_False in A2 by done.
    destruct (run_guard _ _ _ _ _ _) as [o1 st2] eqn:Er.
    destruct (run_guard_adds (fun l => l = []) _ scope eq_refl
      (fun st0 o0 st0' H0 => ex_intro _ [] (conj (IH (S index) st0 o0 st0' H0) eq_refl)) _ _ _ _ _ Er) as (l & Hl & ->).
    destruct (safeGuard o1). injection H as <- <-.
    apply (adds_trans _ _ _ _ [] [] A1). by apply (adds_trans _ _ _ _ [] [] A2).
Qed.
End GuardRuns.

(** *** Pipelines *)

(** Whether the guarded dispatcher [id] is part of [d]. *)
Fixpoint mentions (id : Z) (d : ToolDispatcher) : bool :=
  match d with
  | DBase _ => false
  | DSnapshot delegate _ _ | DComposed delegate => mentions id delegate
  | DGuarded id' delegate _ _ => (id' =? id) || mentions id delegate
  | DWrapped _ (Some next) => mentions id next
  | DWrapped _ None => false
  end.

Section PipelineRuns.
  Context (requesters : Z -> Requester) (id : Z).
  Notation dispatch := (Dispatch requesters).

Lemma base_quiet tools ctx scope call reporter st o st' :
  Dispatcher_Dispatch tools ctx scope call reporter st = (o, st') -> adds id st st' [].
Proof.
  unfold Dispatcher_Dispatch. intros H.
  destruct ctx, tools as [tools|]; try (injection H as <- <-; by apply adds_same).
  destruct (Scope_Validate scope); [injection H as <- <-; by apply adds_same|].
  destruct (Call_Validate call); [injection H as <- <-; by apply adds_same|].
  destruct (ctx_err st) as [c0 st0] eqn:Ec. apply (adds_ctx_err id) in Ec.
  destruct c0; [by injection H as <- <-|]. destruct (tools !! tc_name call); [|by injection H as <- <-].
  destruct (run_tool _ _ _ _ _) as [[out rep] st1] eqn:Er. injection H as <- <-.
  apply (adds_trans _ _ _ _ [] [] Ec). apply (adds_trans _ _ _ _ [] [] (adds_log id (EvExecute call) st0)).
  destruct (run_tool_trace _ _ _ _ _ _ _ _ Er) as (added & Ht & Hf). exists added. split; [done|].
  clear -Hf. induction Hf as [|e l (p & -> & _) _ IH]; [done|]. by rewrite filter_cons_False by (by intros []).
Qed.

Lemma run_wrap_adds (P : list DEvent -> Prop) next ctx :
  P [] -> (forall l1 l2, P l1 -> P l2 -> P (l1 ++ l2)) ->
  (forall c scope call reporter st o st', next (choose_ctx ctx c) scope call reporter st = (o, st') ->
     exists l, adds id st st' l /\ P l) ->
  forall p st o st', run_wrap next ctx p st = (o, st') -> exists l, adds id st st' l /\ P l.
Proof.
  intros Hnil Happ Hnext p. induction p as [r e| |c scope call reporter k IH]; intros st o st' H; simpl in H.
  - injection H as <- <-. exists []. split; [by apply adds_same|done].
  - injection H as <- <-. exists []. split; [by apply adds_same|done].
  - destruct (next _ _ _ _ _) as [o1 st1] eqn:En. destruct (Hnext _ _ _ _ _ _ _ En) as (l1 & A1 & P1).
    destruct (IH o1 _ _ _ H) as (l2 & A2 & P2). exists (l1 ++ l2). split; [by eapply adds_trans|auto].
Qed.

(** The checks of the guarded dispatcher before [invoke]. *)
Lemma guarded_inv other delegate definitions guards ctx scope call reporter st o st' :
  guarded_Dispatch requesters other delegate definitions guards ctx scope call reporter st = (o, st') ->
  adds id st st' []
  \/ exists c bound definition st1,
       ctx = Some c /\ cx_authority c = Some bound /\ scope_equal bound scope = true
       /\ Scope_Validate scope = None /\ Call_Validate call = None
       /\ definitionFromSnapshot definitions (tc_name call) = Some definition /\ other ∉ cx_guards c
       /\ adds id st st1 []
       /\ invoke requesters other (delegate (Some (mkCtx (Some bound) (other :: cx_guards c))) scope call reporter)
            scope definition call guards 0 st1 = (o, st').
Proof.
  unfold guarded_Dispatch. intros H.
  destruct ctx as [c|]; [|injection H as <- <-; left; by apply adds_same].
  destruct (Scope_Validate scope) eqn:Es; [injection H as <- <-; left; by apply adds_same|].
  destruct (cx_authority c) as [bound|] eqn:Ea; [|injection H as <- <-; left; by apply adds_same].
  destruct (scope_equal bound scope) eqn:Eq; simpl in H; [|injection H as <- <-; left; by apply adds_same].
  destruct (Call_Validate call) eqn:Ev; [injection H as <- <-; left; by apply adds_same|].
  destruct (ctx_err st) as [c0 st0] eqn:Ec. apply (adds_ctx_err id) in Ec.
  destruct c0; [left; by injection H as <- <-|].
  destruct (definitionFromSnapshot _ _) as [definition|] eqn:Ed; [|left; by injection H as <- <-].
  destruct (existsb _ _) eqn:Ex; [left; by injection H as <- <-|].
  right. exists c, bound, definition, st0. repeat split; auto.
  intros Hin. apply list_elem_of_In in Hin. assert (existsb (Z.eqb other) (cx_guards c) = true); [|congruence].
  apply existsb_exists. exists other. split; [done|]. apply Z.eqb_refl.
Qed.

Lemma Dispatch_quiet : forall d, mentions id d = false -> forall ctx scope call reporter st o st',
  dispatch d ctx scope call reporter st = (o, st') -> adds id st st' [].
Proof.
  fix IH 1. intros [tools|delegate definitions planID|other delegate definitions guards|delegate|b [next|]];
    simpl; intros Hm ctx scope call reporter st o st' H.
  - by eapply base_quiet.
  - destruct (Call_Validate call); [injection H as <- <-; by apply adds_same|].
    destruct (_ && _); [injection H as <- <-; by apply adds_same|].
    destruct (definitionFromSnapshot _ _); [|injection H as <- <-; by apply adds_same]. by eapply IH.
  - apply orb_false_iff in Hm as [Hne Hm]. apply Z.eqb_neq in Hne.
    apply guarded_inv in H as [H|(c & bound & definition & st1 & _ & _ & _ & _ & _ & _ & _ & A & H)]; [done|].
    apply (adds_trans _ _ _ _ [] [] A). eapply invoke_quiet; [done| |done].
    intros st0 o0 st0' H0. by eapply IH.
  - destruct ctx as [c|]; [|injection H as <- <-; by apply adds_same].
    destruct (Scope_Validate scope); [injection H as <- <-; by apply adds_same|].
    destruct (cx_authority c); [injection H as <- <-; by apply adds_same|]. by eapply IH.
  - destruct (run_wrap_adds (fun l => l = []) _ ctx eq_refl ltac:(by intros ? ? -> ->)
      (fun c s cl r st0 o0 st0' H0 => ex_intro _ [] (conj (IH next Hm _ _ _ _ _ _ _ H0) eq_refl)) _ _ _ _ H)
      as (l & A & ->). done.
  - destruct (run_wrap_adds (fun l => l = []) (fun _ _ _ _ st => (Panics, st)) ctx eq_refl ltac:(by intros ? ? -> ->)
      (fun c s cl r st0 o0 st0' H0 => ex_intro _ [] (conj (adds_same id st0 st0'
        ltac:(by injection H0 as _ <-)) eq_refl)) _ _ _ _ H) as (l & A & ->). done.
Qed.
End PipelineRuns.

(** The events of several dispatches of valid calls through [n] guards, each
    under a valid scope equal to the bound one. *)
Definition authorised_runs (id : Z) (n : nat) (authority : option ToolDispatchScope) (l : list DEvent) : Prop :=
  exists runs, l = concat runs /\ Forall (fun r => exists bound scope call,
    authority = Some bound /\ scope_equal bound scope = true /\ Scope_Validate scope = None
    /\ Call_Validate call = None /\ guard_run id scope call 0 n r) runs.

Lemma authorised_nil id n authority : authorised_runs id n authority [].
Proof. by exists []. Qed.

Lemma authorised_app id n authority l1 l2 :
  authorised_runs id n authority l1 -> authorised_runs id n authority l2 -> authorised_runs id n authority (l1 ++ l2).
Proof.
  intros (r1 & -> & H1) (r2 & -> & H2). exists (r1 ++ r2). rewrite concat_app. split; [done|]. by apply Forall_app.
Qed.

Lemma authorised_none id n authority l : authorised_runs id n None l -> authorised_runs id n authority l.
Proof.
  intros (runs & -> & H). destruct H as [|r runs (bound & scope & call & Hb & _) _]; [apply authorised_nil|done].
Qed.

(** A guarded dispatcher under snapshots and decorators. *)
Inductive layered (id : Z) (n : nat) : ToolDispatcher -> Prop :=
| layered_guarded delegate definitions guards :
    mentions id delegate = false -> length guards = n -> layered id n (DGuarded id delegate definitions guards)
| layered_snapshot d definitions planID : layered id n d -> layered id n (DSnapshot d definitions planID)
| layered_wrapped b d : layered id n d -> layered id n (DWrapped b (Some d)).

Lemma guarded_runs requesters id delegate definitions guards ctx scope call reporter st o st' :
  mentions id delegate = false ->
  Dispatch requesters (DGuarded id delegate definitions guards) ctx scope call reporter st = (o, st') ->
  exists l, adds id st st' l /\ guard_run id scope call 0 (length guards) l
    /\ (l = [] \/ exists bound, ctx ≫= cx_authority = Some bound /\ scope_equal bound scope = true
                    /\ Scope_Validate scope = None /\ Call_Validate call = None
                    /\ is_Some (definitionFromSnapshot definitions (tc_name call))).
Proof.
  intros Hm H. simpl in H.
  apply (guarded_inv requesters id) in H as
    [H|(c & bound & definition & st1 & -> & Hb & He & Hs & Hc & Hd & _ & A & H)].
  - exists []. split; [done|]. split; [apply guard_run_nil|by left].
  - apply (invoke_run requesters id) in H as (l & Hl & Hr).
    + exists l. split; [by apply (adds_trans _ _ _ _ [] l A)|]. split; [done|]. right. exists bound. simpl. eauto 8.
    + intros st0 o0 st0' H0. by eapply Dispatch_quiet.
Qed.

Lemma layered_runs requesters id n d :
  layered id n d -> forall ctx scope call reporter st o st',
  Dispatch requesters d ctx scope call reporter st = (o, st') ->
  exists l, adds id st st' l /\ authorised_runs id n (ctx ≫= cx_authority) l.
Proof.
  induction 1 as [delegate definitions guards Hm <-|d definitions planID Hd IH|b d Hd IH];
    intros ctx scope call reporter st o st' H.
  - apply guarded_runs in H as (l & A & Hr & Hl); [|done]. exists l. split; [done|].
    destruct Hl as [->|(bound & Hb & He & Hs & Hc & _)]; [apply authorised_nil|].
    exists [l]. simpl. rewrite app_nil_r. split; [done|]. constructor; [|done]. exists bound, scope, call. auto.
  - simpl in H. assert (Hsame : st' = st -> exists l, adds id st st' l /\ authorised_runs id n (ctx ≫= cx_authority) l)
      by (intros ->; exists []; split; [by apply adds_same|apply authorised_nil]).
    destruct (Call_Validate call); [injection H as <- <-; auto|].
    destruct (_ && _); [injection H as <- <-; auto|].
    destruct (definitionFromSnapshot _ _); [|injection H as <- <-; auto]. by eapply IH.
  - simpl in H. eapply run_wrap_adds; [apply authorised_nil|apply authorised_app| |exact H].
    intros c s cl r st0 o0 st0' H0. apply IH in H0 as (l & A & Hl). exists l. split; [done|].
    destruct c; simpl in Hl; [done|by apply authorised_none..].
Qed.

(** A decorator that wraps the dispatcher it is given. *)
Definition wraps (decorator : option Decorator) : Prop :=
  forall wrap, decorator = Some wrap -> forall current wrapped, wrap current = Some (Some wrapped) ->
  exists b, wrapped = DWrapped b (Some current).

Lemma decorate_layered sha history id n definitions decorators :
  Forall (fun p => wraps (snd p)) decorators -> forall current d, layered id n current ->
  decorate_loop sha history definitions decorators current = Ok d -> layered id n d.
Proof.
  induction 1 as [|[index decorator] decorators Hw Hws IH]; intros current d Hl H; simpl in H.
  - by injection H as <-.
  - destruct decorator as [wrap|]; [|done]. destruct (wrap current) as [[wrapped|]|] eqn:Ew; try done.
    destruct (snapshotDefinitions _); [|done]. destruct (negb _); [done|].
    eapply IH; [|exact H]. destruct (Hw wrap eq_refl current wrapped Ew) as [b ->]. by do 2 constructor.
Qed.

Lemma check_guards_length guards : forall index l, check_guards index guards = Ok l -> length l = length guards.
Proof.
  induction guards as [|[g|] guards IH]; intros index l H; simpl in H; [by injection H as <-| |done].
  destruct (check_guards (S index) guards) eqn:E; [|done]. injection H as <-. simpl. f_equal. by eapply IH.
Qed.

Lemma pipeline_layered sha history pointer base guards decorators d :
  ApplyToolDispatchPipeline sha history pointer (Some base) guards decorators = Ok d ->
  (forall inner, base <> DComposed inner) -> mentions pointer base = false -> Forall wraps decorators ->
  exists inner, d = DComposed inner /\ layered pointer (length guards) inner.
Proof.
  intros Hp Hbase Hm Hw.
  assert (exists defs gs inner, d = DComposed inner /\ check_guards 0 guards = Ok gs
    /\ ApplyToolDispatchDecorators sha history (Some (DGuarded pointer base defs gs)) decorators = Ok inner)
    as (defs & gs & inner & -> & Hg & Hd).
  { unfold ApplyToolDispatchPipeline in Hp. destruct base; try (by exfalso; eapply Hbase);
      repeat (split_match_in Hp; try discriminate); injection Hp as <-; eauto 6. }
  exists inner. split; [done|]. apply check_guards_length in Hg.
  unfold ApplyToolDispatchDecorators in Hd. destruct (snapshotDefinitions _); [|done].
  eapply decorate_layered; [| |exact Hd]; [|by do 2 constructor].
  apply Forall_reverse, Forall_forall. intros [i x] Hin.
  apply elem_of_lookup_imap_1 in Hin as (j & y & [= -> ->] & Hy). simpl.
  by eapply (Forall_lookup_1 wraps).
Qed.

(** Guards cannot be bypassed or reordered.  One dispatch through a guarded
    dispatcher consults the guards in order, each at most once, and reaches its
    delegate at most once, only after every guard called its continuation and
    only with the scope bound in the context, for a valid, declared call;
    whatever the guards do, panics and repeated continuation calls included. *)
Theorem guards_linear requesters id delegate definitions guards ctx scope call reporter st o st' :
  mentions id delegate = false ->
  Dispatch requesters (DGuarded id delegate definitions guards) ctx scope call reporter st = (o, st') ->
  exists added k (delegated : bool),
    ds_trace st' = ds_trace st ++ added
    /\ filter (of_dispatcher id) added
       = map (fun i => EvGuard id i scope call) (seq 0 k) ++ (if delegated then [EvDelegate id scope call] else [])
    /\ (k <= length guards)%nat
    /\ (delegated = true -> k = length guards /\ Scope_Validate scope = None /\ Call_Validate call = None
        /\ is_Some (definitionFromSnapshot definitions (tc_name call))
        /\ exists bound, ctx ≫= cx_authority = Some bound /\ scope_equal bound scope = true).
Proof.
  intros Hm H. apply guarded_runs in H as (l & (added & Ht & Hl) & (k & b & El & Hk & Hb) & Ha); [|done].
  exists added, k, b. split; [done|]. split; [congruence|]. split; [done|]. intros ->. split; [auto|].
  destruct Ha as [->|(bound & H1 & H2 & H3 & H4 & H5)]; [|eauto 7].
  by destruct (map _ _) in El.
Qed.


(** *** Continuations *)

Definition running (c : Continuation) (id : Z) : Prop := ct_callers c !! id = Some CallRunning.

Record continuation_inv (c : Continuation) : Prop := {
  ci_phase : (ct_state c = 0 /\ ct_runs c = 0 /\ ct_done c = false /\ ct_closer c = CloseStart
              /\ forall id, ~ running c id)
          \/ (ct_state c = 1 /\ ct_runs c = 1 /\ ct_done c = false /\ ct_closer c <> Closed
              /\ exists id, forall id', running c id' <-> id' = id)
          \/ (ct_state c = 2 /\ ((ct_runs c = 1 /\ ct_done c = true) \/ (ct_runs c = 0 /\ ct_closer c = Closed))
              /\ forall id, ~ running c id)
}.

Lemma running_insert c id pc id' state done runs closer :
  running (mkContinuation state done runs (<[id := pc]> (ct_callers c)) closer) id' <->
  (id' = id /\ pc = CallRunning) \/ (id' <> id /\ running c id').
Proof.
  unfold running; simpl. destruct (decide (id' = id)) as [->|Hn].
  - rewrite lookup_insert_eq. naive_solver.
  - rewrite lookup_insert_ne by done. naive_solver.
Qed.

Lemma continuation_step_inv c c' : continuation_step c c' -> continuation_inv c -> continuation_inv c'.
Proof.
  intros Hs [Hi]. constructor. destruct Hs as [c id Hid|c id pc c' Hid Hc|c c' Hc].
  - assert (Hr : forall id', running (mkContinuation (ct_state c) (ct_done c) (ct_runs c)
        (<[id := CallStart]> (ct_callers c)) (ct_closer c)) id' <-> running c id').
    { intros id'. rewrite running_insert. destruct (decide (id' = id)) as [->|]; [|naive_solver].
      unfold running. rewrite Hid. naive_solver. }
    simpl. setoid_rewrite Hr. exact Hi.
  - unfold continuation_call in Hc. destruct pc; [|injection Hc as <-|done..].
    + destruct (Z.eqb_spec (ct_state c) 0) as [E|E]; injection Hc as <-; simpl; setoid_rewrite running_insert.
      * right; left. destruct Hi as [(_ & Hr & Hd & Hcl & Hn)|[(E1 & _)|(E1 & _)]]; [|lia..].
        repeat split; [lia|done|by rewrite Hcl|]. exists id. intros id'. specialize (Hn id'). naive_solver.
      * destruct Hi as [(E1 & _)|[(E1 & Hr & Hd & Hcl & i & Hn)|(E1 & Hr & Hn)]]; [lia|right; left|right; right].
        -- repeat split; auto. exists i. intros id'. rewrite <- Hn.
           destruct (decide (id' = id)) as [->|]; [|naive_solver]. unfold running. rewrite Hid. naive_solver.
        -- repeat split; auto. intros id'. specialize (Hn id'). naive_solver.
    + simpl. setoid_rewrite running_insert.
      destruct Hi as [(_ & _ & _ & _ & Hn)|[(E1 & Hr & Hd & Hcl & i & Hn)|(_ & _ & Hn)]];
        [by destruct (Hn id)| |by destruct (Hn id)].
      right; right. repeat split; auto. intros id' [[_ ?]|[Hne Hrun]]; [done|].
      assert (id = i) as -> by (by apply Hn). apply Hn in Hrun. done.
  - unfold continuation_close in Hc. unfold running in *.
    destruct (ct_closer c) eqn:Ecl; [| | |done].
    + destruct (Z.eqb_spec (ct_state c) 0) as [E|E]; injection Hc as <-; simpl.
      * right; right. destruct Hi as [(_ & Hr & Hd & _ & Hn)|[(E1 & _)|(E1 & _)]]; [|lia..]. auto.
      * destruct Hi as [(E1 & _)|[(E1 & Hr & Hd & Hcl & Hn)|(E1 & Hr & Hn)]]; [lia|right; left|right; right].
        -- by repeat split.
        -- repeat split; auto. destruct Hr as [Hr|[_ Hr]]; [by left|done].
    + destruct (Z.eqb_spec (ct_state c) 1) as [E|E]; injection Hc as <-; simpl.
      * right; left. destruct Hi as [(E1 & _)|[(E1 & Hr & Hd & Hcl & Hn)|(E1 & _)]]; [lia| |lia]. by repeat split.
      * destruct Hi as [(_ & _ & _ & Hcl & _)|[(E1 & _)|(E1 & Hr & Hn)]]; [done|lia|].
        right; right. repeat split; auto. destruct Hr as [Hr|[_ Hr]]; [by left|done].
    + destruct (ct_done c) eqn:Ed; [|done]. injection Hc as <-. simpl.
      destruct Hi as [(_ & _ & Hd & _)|[(_ & _ & Hd & _)|(E1 & Hr & Hn)]]; [done..|].
      right; right. repeat split; auto. destruct Hr as [Hr|[_ Hr]]; [by left|done].
Qed.

Lemma continuation_reachable_inv c : rtc continuation_step newGuardContinuation c -> continuation_inv c.
Proof.
  intros H. remember newGuardContinuation as c0 eqn:E. assert (continuation_inv c0) as Hi.
  { subst. constructor. left. repeat split. intros id. unfold running. simpl. by rewrite lookup_empty. }
  clear E. induction H as [|c0 c1 c2 Hs _ IH]; [done|]. apply IH. by eapply continuation_step_inv.
Qed.

(** A guard's continuation is single use under any concurrency.  Its
    delegate runs at most once however many goroutines call it; once the closer
    has returned, no call is running and in every later state the delegate has
    run no further; and the closer always returns: it can step, unless it waits
    for a call that is still running. *)
Theorem continuation_single_use c :
  rtc continuation_step newGuardContinuation c ->
  0 <= ct_runs c <= 1
  /\ (ct_closer c = Closed -> (forall id, ~ running c id)
      /\ forall c', rtc continuation_step c c' ->
           ct_runs c' = ct_runs c /\ ct_closer c' = Closed /\ forall id, ~ running c' id)
  /\ (ct_closer c <> Closed -> is_Some (continuation_close c)
      \/ (ct_closer c = CloseWait /\ exists id, running c id)).
Proof.
  intros Hr. pose proof (continuation_reachable_inv c Hr) as [Hi]. split; [|split].
  - destruct Hi as [(_ & H & _)|[(_ & H & _)|(_ & [[H _]|[H _]] & _)]]; lia.
  - intros Hcl. split.
    { destruct Hi as [(_ & _ & _ & H & _)|[(_ & _ & _ & H & _)|(_ & _ & H)]]; [congruence|congruence|done]. }
    intros c' Hc'. assert (Hinv : ct_state c = 2 /\ ct_closer c = Closed /\ forall id, ~ running c id).
    { destruct Hi as [(_ & _ & _ & H & _)|[(_ & _ & _ & H & _)|(H & _ & Hn)]]; [congruence|congruence|done]. }
    clear Hr Hi Hcl. induction Hc' as [c|c0 c1 c2 Hs _ IH]; [naive_solver|].
    assert (ct_runs c1 = ct_runs c0 /\ ct_state c1 = 2 /\ ct_closer c1 = Closed /\ forall id, ~ running c1 id)
      as (E & Hinv1); [|rewrite <- E; by apply IH].
    destruct Hinv as (H2 & Hcl & Hn). destruct Hs as [c id Hid|c id pc c' Hid Hc|c c' Hc].
    + simpl. repeat split; auto. intros id'. rewrite running_insert. specialize (Hn id'). naive_solver.
    + unfold continuation_call in Hc. rewrite H2 in Hc. simpl in Hc.
      destruct pc; [injection Hc as <-|by destruct (Hn id)|done..]. simpl. repeat split; auto.
      intros id'. rewrite running_insert. specialize (Hn id'). naive_solver.
    + unfold continuation_close in Hc. by rewrite Hcl in Hc.
  - intros Hcl. unfold continuation_close. destruct (ct_closer c); [left; destruct (_ =? _); eauto..| |done].
    destruct Hi as [(_ & _ & _ & H & _)|[(_ & _ & Hd & _ & id & Hn)|(_ & [[_ Hd]|[_ H]] & _)]];
      [done|right; split; [done|]; exists id; by apply Hn|left; rewrite Hd; eauto|done].
Qed.

(** *** Leases of the static source *)

Lemma snapshot_idem definitions : validateDefinitions definitions = None ->
  snapshotDefinitions (Some definitions) = Ok definitions.
Proof. intros H. apply snapshot_Ok. by apply validateDefinitions_spec in H as [H1 H2]. Qed.

Lemma snapshot_valid declared s : snapshotDefinitions declared = Ok s -> validateDefinitions s = None.
Proof.
  destruct declared as [l|]; [|done]. intros H. apply snapshot_Ok in H as (_ & H1 & H2).
  by apply validateDefinitions_spec.
Qed.

(** A static source leases exactly one generation.  Its current lease
    carries the source's identity and a valid, strictly sorted snapshot that no
    later behaviour of the dispatcher changes; a lease by generation is granted
    only for that identity; and a lease's dispatcher refuses, without any
    effect, calls made under another plan and calls of undeclared tools. *)
Theorem static_source_leases sha history pointer dispatcher source :
  NewStaticToolPlanSource sha history pointer dispatcher = Ok source ->
  exists definitions,
    (forall later, exists lease,
       LeaseCurrent later CtxLive (Some source) = Ok lease
       /\ pl_id lease = sp_id source /\ pl_definitions lease = definitions
       /\ Definitions later (pl_dispatcher lease) = Some definitions
       /\ ToolPlanLease_Validate (Some lease) = None
       /\ (forall requesters ctx scope call reporter st,
             sc_toolPlanID scope <> pl_id lease \/ definitionFromSnapshot definitions (tc_name call) = None ->
             exists e, Dispatch requesters (pl_dispatcher lease) ctx scope call reporter st = (fail e, st)))
    /\ (forall later ctx id lease, LeaseGeneration later ctx id (Some source) = Ok lease ->
          id = sp_id source /\ pl_id lease = id /\ pl_definitions lease = definitions).
Proof.
  unfold NewStaticToolPlanSource. intros H. destruct dispatcher as [dispatcher|]; [|done].
  destruct (ApplyToolDispatchPipeline _ _ _ _ _ _) as [d|]; [|done].
  destruct (snapshotDefinitions _) as [defs|] eqn:Es; [|done].
  destruct (staticPlanID sha defs) as [id|] eqn:Ei; [|done]. injection H as <-.
  apply snapshot_valid in Es. pose proof (snapshot_idem _ Es) as Ess.
  assert (PlanID_Validate id = None) as Hid.
  { unfold staticPlanID, NewPlanID in Ei. destruct (PlanID_Validate _) eqn:E; [done|]. by injection Ei as <-. }
  set (src := mkStaticSource id (DSnapshot d defs "")).
  set (lease := mkPlanLease id (DSnapshot (DSnapshot d defs "") defs id) defs new_lease).
  assert (Hcur : forall later, LeaseCurrent later CtxLive (Some src) = Ok lease).
  { intros later. unfold LeaseCurrent, NewToolPlanLease. cbn [src sp_id sp_dispatcher Definitions]. by rewrite Hid, Ess. }
  exists defs. split.
  - intros later. exists lease. split; [done|]. repeat split; [simpl; by rewrite Hid|].
    intros requesters ctx scope call reporter st Hor. simpl.
    destruct (Call_Validate call); [eauto|]. destruct (negb (String.eqb id "") && _) eqn:Ep; [eauto|].
    destruct Hor as [Hne| ->]; [|eauto]. exfalso. simpl in Hne. apply String.eqb_neq in Hne. rewrite Hne in Ep.
    destruct (String.eqb_spec id "") as [->|]; [|done]. vm_compute in Hid. discriminate.
  - intros later ctx id' l Hl. unfold LeaseGeneration in Hl. destruct (PlanID_Validate id'); [done|].
    destruct (String.eqb_spec id' (sp_id src)) as [->|]; cbn [negb] in Hl; [|done].
    destruct ctx; [done| |done]. rewrite (Hcur later) in Hl. by injection Hl as <-.
Qed.

(** ** Concrete runs *)

Definition sample_definition : Definition_ := mkDefinition "read" "Reads." "{}" EffectReadOnly ReplaySafe [].
Definition sample_call : Call := mkToolCall "call-1" "read" "{}".
Definition sample_scope : ToolDispatchScope :=
  mkScope "run-1" 1 "plan-1"
    "sha256:0123456789abcdef0123456789abcdef0123456789abcdef0123456789abcdef" ""
    (mkInteractionScope "run-1") (Some (1, Some 1)).
Definition sample_result : Result := mkToolResult "call-1" (Some "{}"%string) "".

(** A tool that reports once and returns. *)
Definition sample_tool : toolEntry :=
  mkToolEntry sample_definition (fun _ _ =>
    ToolReports false (mkProgress "call-1" "reading") (fun _ => ToolReturns sample_result None)).
Definition sample_tools : gmap string toolEntry := {["read"%string := sample_tool]}.

(** A guard that calls its continuation twice and returns the first answer. *)
Definition sample_guard : Guard := fun _ _ _ _ =>
  GuardNext (fun o => GuardNext (fun _ =>
    match o with Returns r e => GuardReturns r e | Panics => GuardPanics end)).

(** A decorator that dispatches the call twice, the second time under another
    scope. *)
Definition other_scope : ToolDispatchScope :=
  mkScope "run-2" 1 "plan-1" (sc_planFingerprint sample_scope) "" (mkInteractionScope "run-2") (Some (1, Some 1)).
Definition sample_behaviour : Behaviour :=
  mkBehaviour (fun _ => Some [sample_definition]) (fun _ _ => Some sample_definition)
    (fun _ scope call reporter =>
       WrapNext KeepCtx scope call reporter (fun o =>
         WrapNext KeepCtx other_scope call reporter (fun _ =>
           match o with Returns r e => WrapReturns r e | Panics => WrapPanics end))).
Definition sample_decorator : Decorator := fun current => Some (Some (DWrapped sample_behaviour (Some current))).
Definition sample_requesters : Z -> Requester := fun _ _ _ => None.
Definition sample_state : DState := mkDState [] [].

Lemma tool_dispatch_contract_witness :
  exists st', Dispatcher_Dispatch (Some sample_tools) (Some (mkCtx None [])) sample_scope sample_call
                (Some (fun _ _ => None)) sample_state = (Returns sample_result None, st')
    /\ Result_Validate sample_result = None /\ tr_callID sample_result = tc_id sample_call.
Proof.
  eexists. split; [vm_compute; reflexivity|].
  exact (proj1 (tool_dispatch_contract sample_tools (Some (mkCtx None [])) sample_scope sample_call
    (Some (fun _ _ => None)) sample_state _ _ eq_refl ltac:(intros r h p e [= <-]; discriminate))).
Defined.

Lemma guards_linear_witness :
  exists o st' added k (delegated : bool),
    Dispatch sample_requesters (DGuarded 7 (DBase (Some sample_tools)) [sample_definition] [sample_guard])
      (Some (mkCtx (Some sample_scope) [])) sample_scope sample_call None sample_state = (o, st')
    /\ ds_trace st' = added
    /\ filter (of_dispatcher 7) added
       = map (fun i => EvGuard 7 i sample_scope sample_call) (seq 0 k)
         ++ (if delegated then [EvDelegate 7 sample_scope sample_call] else []).
Proof.
  destruct (Dispatch sample_requesters (DGuarded 7 (DBase (Some sample_tools)) [sample_definition] [sample_guard])
      (Some (mkCtx (Some sample_scope) [])) sample_scope sample_call None sample_state) as [o st'] eqn:E.
  destruct (guards_linear sample_requesters 7 (DBase (Some sample_tools)) [sample_definition] [sample_guard]
    (Some (mkCtx (Some sample_scope) [])) sample_scope sample_call None sample_state o st' eq_refl E)
    as (added & k & delegated & H1 & H2 & _).
  exists o, st', added, k, delegated. split; [reflexivity|]. split; [exact H1|exact H2].
Defined.


(** Two goroutines race for the continuation while the closer waits. *)
Definition contended : Continuation :=
  mkContinuation 1 false 1 (<[2 := CallRefused]> (<[1 := CallRunning]> (<[2 := CallStart]> (<[1 := CallStart]> ∅)))) CloseWait.

Lemma contended_reachable : rtc continuation_step newGuardContinuation contended.
Proof.
  eapply rtc_l; [by apply (continuation_spawn _ 1)|]. eapply rtc_l; [by apply (continuation_spawn _ 2)|].
  eapply rtc_l; [by apply (continuation_calls _ 1 CallStart)|].
  eapply rtc_l; [by apply (continuation_calls _ 2 CallStart)|].
  eapply rtc_l; [by apply continuation_closes|]. eapply rtc_l; [by apply continuation_closes|].
  apply rtc_refl.
Qed.

Lemma continuation_single_use_witness :
  ct_runs contended <= 1
  /\ (is_Some (continuation_close contended) \/ (ct_closer contended = CloseWait /\ exists id, running contended id)).
Proof.
  destruct (continuation_single_use contended contended_reachable) as (H1 & _ & H3).
  split; [apply H1|apply H3; discriminate].
Defined.

Lemma static_source_leases_witness :
  exists source lease,
    NewStaticToolPlanSource (fun _ => "00"%string) [] 7 (Some (DBase (Some sample_tools))) = Ok source
    /\ LeaseCurrent [] CtxLive (Some source) = Ok lease /\ pl_definitions lease = [sample_definition].
Proof.
  destruct (NewStaticToolPlanSource (fun _ => "00"%string) [] 7 (Some (DBase (Some sample_tools)))) as [source|] eqn:E;
    [|vm_compute in E; discriminate].
  destruct (static_source_leases (fun _ => "00"%string) [] 7 (Some (DBase (Some sample_tools))) source E)
    as (definitions & Hcur & _).
  destruct (Hcur []) as (lease & H1 & _ & _ & _). exists source, lease.
  split; [reflexivity|]. split; [exact H1|].
  vm_compute in E. injection E as <-. vm_compute in H1. injection H1 as <-. reflexivity.
Defined.
