(* ===== verification/AgentPlan.v ===== *)
(** Run definitions and plan identities (src/agent/plan.go, and [Definition] and
    [Input] of agent.go): what a run is allowed to execute, and the fingerprint
    that binds it.  SHA-256 is a parameter; what is hashed is modelled byte for
    byte. *)
From Stdlib Require Import ZArith Lia Ascii.
From stdpp Require Import base gmap list strings sorting.
From S2P Require Import Prelude GoText GoOrder Tool Message Plan Dispatch.
Open Scope Z_scope.

Definition planFingerprintPrefix : string := "sha256:".
Definition maximumPlanIdentities : Z := 512.

Inductive AgentError :=
| ErrSnapshotToken (label : string)
| ErrSnapshotTokenBytes (label : string)
| ErrCompiledCount
| ErrCompiledOrder
| ErrCompiledDuplicate (value : string)
| ErrCompiledForm (value : string)
| ErrCompiledCategory (value : string)
| ErrWorkspaceFingerprint
| ErrPlanFingerprint
| ErrAgentPlanID (e : PlanError)
| ErrPlanDefinition (index : nat) (e : ToolError)
| ErrPlanDefinitionDuplicate (name : string)
| ErrDefinitionName
| ErrDefinitionModel
| ErrDefinitionTurns
| ErrInputMessage (e : MessageError)
| ErrInputRole.

Definition snapshotToken (label value : string) (maximum : Z) : option AgentError :=
  if negb (trimmed_nonempty value) then Some (ErrSnapshotToken label)
  else if slen value >? maximum then Some (ErrSnapshotTokenBytes label)
  else None.

(** ** Compiled plans *)

(** [strings.Cut(value, ":")]. *)
Fixpoint cut_colon (value : string) : option (string * string) :=
  match value with
  | EmptyString => None
  | String c rest =>
      if Ascii.eqb c ":" then Some (""%string, rest)
      else match cut_colon rest with
      | Some (before, after) => Some (String c before, after)
      | None => None
      end
  end.

Definition plan_categories : list string :=
  ["provider"; "stage"; "observer"; "broker"; "tool"; "decorator"]%string.

Fixpoint is_sorted (values : list string) : bool :=
  match values with
  | a :: ((b :: _) as rest) => negb (String.ltb b a) && is_sorted rest
  | _ => true
  end.

Fixpoint compiled_loop (previous : option string) (values : list string) : option AgentError :=
  match values with
  | [] => None
  | value :: rest =>
      match snapshotToken "compiled plan identity" value 256 with
      | Some e => Some e
      | None =>
          if match previous with Some p => String.eqb p value | None => false end
          then Some (ErrCompiledDuplicate value)
          else match cut_colon value with
          | None => Some (ErrCompiledForm value)
          | Some (category, name) =>
              if String.eqb name "" then Some (ErrCompiledForm value)
              else if elem_str category plan_categories then compiled_loop (Some value) rest
              else Some (ErrCompiledCategory value)
          end
      end
  end.

Definition validateCompiledPlan (values : list string) : option AgentError :=
  if (lenZ values =? 0) || (lenZ values >? maximumPlanIdentities) then Some ErrCompiledCount
  else if negb (is_sorted values) then Some ErrCompiledOrder
  else compiled_loop None values.

Definition buildCompiledPlan (configured : list string) : result AgentError (list string) :=
  let sorted := sort_strings configured in
  match validateCompiledPlan sorted with Some e => Err e | None => Ok sorted end.

(** The common test of the fingerprint validators: the prefix, 64 characters,
    lower-case hexadecimal. *)
Definition prefixed_sha256 (value : string) : bool :=
  String.prefix planFingerprintPrefix value
  && (let digest := String.substring 7 (String.length value - 7) value in
      (slen digest =? 32 * 2) && lower_hex digest).

Definition validateWorkspaceFingerprint (value : string) (required : bool) : option AgentError :=
  if String.eqb value "" && negb required then None
  else if prefixed_sha256 value then None else Some ErrWorkspaceFingerprint.

Definition validateSnapshotCompatibilityIdentity (value : string) : option AgentError :=
  if String.eqb value "" then None else snapshotToken "compatibility identity" value 256.

(** ** Plan identities *)

Record PlanIdentity := mkPlanIdentity {
  pi_compiled : list string;
  pi_snapshotCompatibility : string;
  pi_workspaceFingerprint : string;
  pi_toolPlanID : string;
  pi_fingerprint : string
}.

Definition PlanIdentity_Validate (identity : PlanIdentity) : option AgentError :=
  match validateCompiledPlan (pi_compiled identity) with
  | Some e => Some e
  | None =>
    match PlanID_Validate (pi_toolPlanID identity) with
    | Some e => Some (ErrAgentPlanID e)
    | None =>
      match validateSnapshotCompatibilityIdentity (pi_snapshotCompatibility identity) with
      | Some e => Some e
      | None =>
        match validateWorkspaceFingerprint (pi_workspaceFingerprint identity)
                (negb (String.eqb (pi_snapshotCompatibility identity) "")) with
        | Some e => Some e
        | None => if prefixed_sha256 (pi_fingerprint identity) then None else Some ErrPlanFingerprint
        end
      end
    end
  end.

Fixpoint validate_plan_definitions (index : nat) (definitions : list Definition_) : option AgentError :=
  match definitions with
  | [] => None
  | d :: rest =>
      match Definition_Validate d with
      | Some e => Some (ErrPlanDefinition index e)
      | None => validate_plan_definitions (S index) rest
      end
  end.

Fixpoint duplicate_definition (definitions : list Definition_) : option AgentError :=
  match definitions with
  | a :: ((b :: _) as rest) =>
      if String.eqb (td_name a) (td_name b) then Some (ErrPlanDefinitionDuplicate (td_name b))
      else duplicate_definition rest
  | _ => None
  end.

Section PlanIdentities.
  Context (sha256_hex : list Z -> string).

(** The fields [NewPlanIdentity] writes, each with its length; [definitions]
    are the sorted ones. *)
Definition plan_fields (compiled : list string) (snapshotCompatibility workspaceFingerprint toolPlanID : string)
  (definitions : list Definition_) : list string :=
  ["spice-agent-plan/v3"%string] ++ compiled ++ [toolPlanID; snapshotCompatibility; workspaceFingerprint]
  ++ concat (map (fun d => [td_name d; Fingerprint sha256_hex d]) definitions).
Definition plan_preimage (compiled : list string) (snapshotCompatibility workspaceFingerprint toolPlanID : string)
  (definitions : list Definition_) : list Z :=
  concat (map fingerprint_field
    (plan_fields compiled snapshotCompatibility workspaceFingerprint toolPlanID definitions)).

Definition NewPlanIdentity (compiled : list string) (snapshotCompatibility workspaceFingerprint toolPlanID : string)
  (definitions : list Definition_) : result AgentError PlanIdentity :=
  match validateCompiledPlan compiled with
  | Some e => Err e
  | None =>
    match PlanID_Validate toolPlanID with
    | Some e => Err (ErrAgentPlanID e)
    | None =>
      match validateSnapshotCompatibilityIdentity snapshotCompatibility with
      | Some e => Err e
      | None =>
        match validateWorkspaceFingerprint workspaceFingerprint (negb (String.eqb snapshotCompatibility "")) with
        | Some e => Err e
        | None =>
          match validate_plan_definitions 0 definitions with
          | Some e => Err e
          | None =>
            let definitionsCopy := merge_sort name_le definitions in
            match duplicate_definition definitionsCopy with
            | Some e => Err e
            | None =>
              let identity := mkPlanIdentity compiled snapshotCompatibility workspaceFingerprint toolPlanID
                (String.append planFingerprintPrefix (sha256_hex
                  (plan_preimage compiled snapshotCompatibility workspaceFingerprint toolPlanID definitionsCopy))) in
              match PlanIdentity_Validate identity with Some e => Err e | None => Ok identity end
            end
          end
        end
      end
    end
  end.

Definition newPlanIdentity (compiled : list string) (snapshotCompatibility workspaceFingerprint : string)
  (lease : ToolPlanLease) : result AgentError PlanIdentity :=
  match ToolPlanLease_Validate (Some lease) with
  | Some e => Err (ErrAgentPlanID e)
  | None => NewPlanIdentity compiled snapshotCompatibility workspaceFingerprint (pl_id lease) (pl_definitions lease)
  end.
End PlanIdentities.

Definition PlanIdentity_equal (identity other : PlanIdentity) : bool :=
  String.eqb (pi_toolPlanID identity) (pi_toolPlanID other)
  && String.eqb (pi_snapshotCompatibility identity) (pi_snapshotCompatibility other)
  && String.eqb (pi_workspaceFingerprint identity) (pi_workspaceFingerprint other)
  && String.eqb (pi_fingerprint identity) (pi_fingerprint other)
  && bool_decide (pi_compiled identity = pi_compiled other).

Definition reconstructPlanIdentity (compiled : list string) (snapshotCompatibility workspaceFingerprint
  toolPlanID fingerprint : string) : result AgentError PlanIdentity :=
  match NewPlanID toolPlanID with
  | Err e => Err (ErrAgentPlanID e)
  | Ok id =>
      let identity := mkPlanIdentity compiled snapshotCompatibility workspaceFingerprint id fingerprint in
      match PlanIdentity_Validate identity with Some e => Err e | None => Ok identity end
  end.

(** ** Run definitions and inputs *)

Record AgentDefinition := mkAgentDefinition { ad_name : string; ad_model : string; ad_maxTurns : Z }.

Definition NewAgentDefinition (name modelName : string) (maxTurns : Z) : result AgentError AgentDefinition :=
  if negb (trimmed_nonempty name) then Err ErrDefinitionName
  else if negb (trimmed_nonempty modelName) then Err ErrDefinitionModel
  else if (maxTurns =? 0) || (maxTurns >? 1000) then Err ErrDefinitionTurns
  else Ok (mkAgentDefinition name modelName maxTurns).

Definition NewInput (initial : Message) : result AgentError Message :=
  match Message.Validate initial with
  | Some e => Err (ErrInputMessage e)
  | None => if negb (String.eqb (ms_role initial) RoleUser) then Err ErrInputRole else Ok initial
  end.

(** ** Lemmas *)

Lemma snapshotToken_spec label value maximum :
  snapshotToken label value maximum = None <-> trimmed_nonempty value = true /\ slen value <= maximum.
Proof.
  unfold snapshotToken. destruct (trimmed_nonempty value); simpl; [|by split; [|intros []]].
  destruct (Z.gtb_spec (slen value) maximum); split; try done; lia.
Qed.

(** A value of a compiled plan: bounded, with a known category. *)
Definition compiled_value (value : string) : Prop :=
  trimmed_nonempty value = true /\ slen value <= 256
  /\ exists category name, cut_colon value = Some (category, name) /\ category ∈ plan_categories.

Lemma compiled_loop_values values : forall previous,
  compiled_loop previous values = None -> Forall compiled_value values.
Proof.
  induction values as [|value rest IH]; intros previous H; [constructor|]. cbn [compiled_loop] in H.
  destruct (snapshotToken _ value 256) eqn:Et; [done|]. apply snapshotToken_spec in Et as [H1 H2].
  destruct (match previous with Some _ => _ | None => _ end); [done|].
  destruct (cut_colon value) as [[category name]|] eqn:Ec; [|done].
  destruct (String.eqb name ""); [done|]. destruct (elem_str category plan_categories) eqn:Ee; [|done].
  constructor; [|by eapply IH]. split; [done|]. split; [done|]. exists category, name.
  split; [done|]. by apply elem_str_spec.
Qed.

Lemma compiled_plan_values values : validateCompiledPlan values = None -> Forall compiled_value values.
Proof.
  unfold validateCompiledPlan. intros H. destruct (_ || _); [done|]. destruct (negb _); [done|].
  by eapply compiled_loop_values.
Qed.

Lemma sha_prefix_category value :
  String.prefix planFingerprintPrefix value = true -> exists rest, cut_colon value = Some ("sha256"%string, rest).
Proof.
  unfold planFingerprintPrefix. intros H.
  do 7 (destruct value as [|?c value]; [discriminate|]; cbn [String.prefix] in H;
        match type of H with (if ascii_dec ?a ?b then _ else _) = _ => destruct (ascii_dec a b); [subst|discriminate] end).
  by exists value.
Qed.

(** A workspace fingerprint that validates is no compiled value. *)
Lemma workspace_not_compiled w required :
  validateWorkspaceFingerprint w required = None -> ~ compiled_value w.
Proof.
  unfold validateWorkspaceFingerprint. intros Hw (Ht & _ & category & name & Hc & Hin).
  apply trimmed_nonempty_nonempty in Ht. apply String.eqb_neq in Ht. rewrite Ht in Hw. simpl in Hw.
  unfold prefixed_sha256 in Hw. destruct (String.prefix planFingerprintPrefix w) eqn:Ep; [|done].
  apply sha_prefix_category in Ep as [rest E]. rewrite E in Hc. injection Hc as <- <-.
  apply elem_str_spec in Hin. discriminate.
Qed.

Lemma substring_drop s : forall n, slen (String.substring n (String.length s - n) s) = Z.max 0 (slen s - Z.of_nat n).
Proof.
  unfold slen. induction s as [|c s IH]; intros [|n]; simpl String.substring; simpl String.length; [lia|lia| |].
  - change (String.length (String c (String.substring 0 (String.length s) s)))
      with (S (String.length (String.substring 0 (String.length s) s))).
    specialize (IH 0%nat). rewrite Nat.sub_0_r in IH. lia.
  - specialize (IH n). replace (S (String.length s) - S n)%nat with (String.length s - n)%nat by lia. lia.
Qed.

Lemma workspace_length w required : validateWorkspaceFingerprint w required = None -> slen w = 0 \/ slen w = 71.
Proof.
  unfold validateWorkspaceFingerprint, prefixed_sha256. intros H.
  destruct (String.eqb_spec w ""); [left; by subst|]. simpl in H. right.
  destruct (String.prefix planFingerprintPrefix w); [|done]. simpl in H.
  destruct (Z.eqb_spec (slen (String.substring 7 (String.length w - 7) w)) (32 * 2)) as [E|]; [|done].
  rewrite substring_drop in E. lia.
Qed.

(** What [NewPlanIdentity] has checked when it succeeds. *)
Lemma NewPlanIdentity_inv sha compiled compat workspace planID definitions identity :
  NewPlanIdentity sha compiled compat workspace planID definitions = Ok identity ->
  Forall compiled_value compiled
  /\ PlanID_Validate planID = None
  /\ slen compat <= 256
  /\ validateWorkspaceFingerprint workspace (negb (String.eqb compat "")) = None
  /\ Forall valid_definition definitions
  /\ PlanIdentity_Validate identity = None
  /\ identity = mkPlanIdentity compiled compat workspace planID
       (String.append planFingerprintPrefix (sha (plan_preimage sha compiled compat workspace planID
         (merge_sort name_le definitions)))).
Proof.
  unfold NewPlanIdentity. intros H.
  destruct (validateCompiledPlan compiled) eqn:E1; [done|]. apply compiled_plan_values in E1.
  destruct (PlanID_Validate planID) eqn:E2; [done|].
  destruct (validateSnapshotCompatibilityIdentity compat) eqn:E3; [done|].
  destruct (validateWorkspaceFingerprint workspace _) eqn:E4; [done|].
  destruct (validate_plan_definitions 0 definitions) eqn:E5; [done|].
  destruct (duplicate_definition _) eqn:E6; [done|].
  destruct (PlanIdentity_Validate _) eqn:E7; [done|]. injection H as <-.
  split; [done|]. split; [done|]. split.
  { unfold validateSnapshotCompatibilityIdentity in E3. destruct (String.eqb_spec compat "") as [->|]; [vm_compute; discriminate|].
    by apply snapshotToken_spec in E3 as [_ ?]. }
  split; [done|]. split; [|done]. clear -E5. revert E5. generalize 0%nat.
  induction definitions as [|d l IH]; intros i H; [constructor|]. simpl in H.
  destruct (Definition_Validate d) eqn:Ed; [done|]. constructor; [done|]. by eapply IH.
Qed.

Lemma plan_id_length planID : PlanID_Validate planID = None -> slen planID <= 256.
Proof.
  unfold PlanID_Validate. intros H. repeat (split_match_in H; try discriminate). bprop.
  unfold maximumPlanIDBytes in *. lia.
Qed.

Lemma valid_definition_name d : valid_definition d -> slen (td_name d) <= 128.
Proof.
  unfold valid_definition, Definition_Validate, NewDefinition. intros H.
  destruct (validateIdentity "tool name" (td_name d)) eqn:E; [done|]. unfold validateIdentity in E.
  repeat (split_match_in E; try discriminate). bprop. unfold maxIdentityBytes in *. lia.
Qed.

Section Injective.
  Context (sha : list Z -> string) (sha_length : forall l, slen (sha l) = 64).

(** The definition part of the hashed fields. *)
Definition definition_fields (definitions : list Definition_) : list string :=
  concat (map (fun d => [td_name d; Fingerprint sha d]) definitions).

Lemma definition_fields_length l : length (definition_fields l) = (2 * length l)%nat.
Proof. unfold definition_fields. induction l as [|d l IH]; simpl; [done|]. rewrite IH. lia. Qed.

Lemma definition_fields_inj l : forall l', definition_fields l = definition_fields l' ->
  map (fun d => (td_name d, Fingerprint sha d)) l = map (fun d => (td_name d, Fingerprint sha d)) l'.
Proof.
  induction l as [|d l IH]; intros [|d' l'] H; try done. unfold definition_fields in H. simpl in H.
  injection H as H1 H2 H3. simpl. rewrite H1, H2. f_equal. by apply IH.
Qed.

Lemma plan_fields_small compiled compat workspace planID definitions identity :
  NewPlanIdentity sha compiled compat workspace planID definitions = Ok identity ->
  Forall (fun x => slen x < two64)
    (plan_fields sha compiled compat workspace planID (merge_sort name_le definitions)).
Proof using sha_length.
  intros H. apply NewPlanIdentity_inv in H as (Hc & Hp & Hs & Hw & Hd & _).
  apply plan_id_length in Hp. apply workspace_length in Hw. unfold plan_fields, two64.
  constructor; [vm_compute; reflexivity|]. apply Forall_app. split.
  { eapply Forall_impl; [exact Hc|]. intros x (_ & Hx & _). lia. }
  do 3 (constructor; [lia|]). apply Forall_concat, Forall_map.
  rewrite (merge_sort_Permutation name_le). eapply Forall_impl; [exact Hd|].
  intros d Hv. simpl. apply valid_definition_name in Hv. constructor; [lia|].
  constructor; [unfold Fingerprint; rewrite sha_length; lia|constructor].
Qed.

(** The compiled part of one field list cannot be longer than another's. *)
Lemma split_unique c1 p1 s1 w1 D1 x p2 s2 w2 D2 required1 required2 :
  [p1; s1; w1] ++ definition_fields D1 = x ++ [p2; s2; w2] ++ definition_fields D2 ->
  Forall compiled_value (c1 ++ x) ->
  validateWorkspaceFingerprint w1 required1 = None -> validateWorkspaceFingerprint w2 required2 = None -> x = [].
Proof using sha_length.
  intros H Hc Hw1 Hw2. apply Forall_app in Hc as [_ Hc].
  pose proof (f_equal length H) as Hl. rewrite !length_app, !definition_fields_length in Hl. simpl in Hl.
  destruct x as [|a [|b [|c x]]]; [done|simpl in Hl; lia| |].
  - simpl in H. injection H as -> -> -> H. destruct D1 as [|d D1]; [done|].
    unfold definition_fields in H at 1. simpl in H. injection H as _ Hf _. exfalso.
    apply workspace_length in Hw2. rewrite <- Hf in Hw2. unfold Fingerprint in Hw2. rewrite sha_length in Hw2. lia.
  - simpl in H. injection H as -> -> -> H. exfalso. inversion_clear Hc as [|? ? _ Hc1]. inversion_clear Hc1 as [|? ? _ Hc2].
    inversion_clear Hc2 as [|? ? Hc3 _]. exact (workspace_not_compiled _ _ Hw1 Hc3).
Qed.
End Injective.

(** The plan fingerprint binds the whole plan.  With SHA-256 a function to
    64-character digests, the bytes hashed by [NewPlanIdentity] determine the
    compiled identities, the compatibility and workspace identities, the tool
    plan and the names and fingerprints of all definitions, although the field
    list carries no counts: two accepted plans share a fingerprint preimage
    only if they agree in all of these. *)
Theorem plan_preimage_injective sha c1 s1 w1 p1 d1 i1 c2 s2 w2 p2 d2 i2 :
  (forall l, slen (sha l) = 64) ->
  NewPlanIdentity sha c1 s1 w1 p1 d1 = Ok i1 -> NewPlanIdentity sha c2 s2 w2 p2 d2 = Ok i2 ->
  plan_preimage sha c1 s1 w1 p1 (merge_sort name_le d1) = plan_preimage sha c2 s2 w2 p2 (merge_sort name_le d2) ->
  c1 = c2 /\ s1 = s2 /\ w1 = w2 /\ p1 = p2
  /\ map (fun d => (td_name d, Fingerprint sha d)) (merge_sort name_le d1)
     = map (fun d => (td_name d, Fingerprint sha d)) (merge_sort name_le d2).
Proof.
  intros Hsha H1 H2 Hp.
  apply fields_inj in Hp; [|by eapply plan_fields_small..]. unfold plan_fields in Hp. simpl in Hp. injection Hp as Hp.
  apply NewPlanIdentity_inv in H1 as (Hc1 & _ & _ & Hw1 & _). apply NewPlanIdentity_inv in H2 as (Hc2 & _ & _ & Hw2 & _).
  fold (definition_fields sha (merge_sort name_le d1)) in Hp. fold (definition_fields sha (merge_sort name_le d2)) in Hp.
  assert (c1 = c2) as <-.
  { apply app_eq_app in Hp as [x [[-> Hx]|[-> Hx]]].
    - rewrite (split_unique sha Hsha c2 p2 s2 w2 (merge_sort name_le d2) x p1 s1 w1 (merge_sort name_le d1) _ _ Hx Hc1 Hw2 Hw1).
      by rewrite app_nil_r.
    - rewrite (split_unique sha Hsha c1 p1 s1 w1 (merge_sort name_le d1) x p2 s2 w2 (merge_sort name_le d2) _ _ Hx Hc2 Hw1 Hw2).
      by rewrite app_nil_r. }
  apply app_inv_head in Hp. injection Hp as -> -> -> Hp. repeat split; auto. by apply definition_fields_inj.
Qed.

Definition sample_digest : string := "0123456789abcdef0123456789abcdef0123456789abcdef0123456789abcdef".
Definition list_definition : Definition_ := mkDefinition "list" "Lists." "{}" EffectReadOnly ReplaySafe [].

Lemma plan_preimage_injective_witness :
  exists i1 i2,
    NewPlanIdentity (fun _ => sample_digest) ["broker:injected"%string] "" "" "plan-1"
      [sample_definition; list_definition] = Ok i1
    /\ NewPlanIdentity (fun _ => sample_digest) ["broker:injected"%string] "" "" "plan-1"
      [list_definition; sample_definition] = Ok i2
    /\ map (fun d => (td_name d, Fingerprint (fun _ => sample_digest) d))
         (merge_sort name_le [sample_definition; list_definition])
       = map (fun d => (td_name d, Fingerprint (fun _ => sample_digest) d))
         (merge_sort name_le [list_definition; sample_definition]).
Proof.
  do 2 eexists. split; [vm_compute; reflexivity|]. split; [vm_compute; reflexivity|].
  refine (proj2 (proj2 (proj2 (proj2 (plan_preimage_injective (fun _ => sample_digest)
    ["broker:injected"%string] "" "" "plan-1" [sample_definition; list_definition] _
    ["broker:injected"%string] "" "" "plan-1" [list_definition; sample_definition] _ (fun _ => eq_refl)
    _ _ _))))); vm_compute; reflexivity.
Defined.
