(* ===== verification/Occurrence.v ===== *)
(** Tool occurrences (src/agent/tool_started.go, tool_terminal.go): the bounded
    payloads of tool events.  Encoding is modelled by the exact size of
    [json.Marshal] (with its HTML escaping), which is what [Encode] tests;
    decoding of stored payloads is not modelled. *)
From Stdlib Require Import ZArith Lia.
From stdpp Require Import base gmap list strings sorting.
From S2P Require Import Prelude GoText GoJson Event Tool Plan Dispatch AgentPlan.
Open Scope Z_scope.

Definition ToolStartedOccurrenceVersion : string := "spice.agent.tool-started/v1alpha1".
Definition MaximumToolStartedOccurrenceBytes : Z := 4096.
Definition ToolTerminalOccurrenceVersion : string := "spice.agent.tool-terminal/v1alpha1".
Definition MaximumToolTerminalOccurrenceBytes : Z := 1024.

Inductive OccurrenceError :=
| ErrOccurrenceCall
| ErrOccurrencePlan
| ErrOccurrenceDefinition
| ErrOccurrenceTurn
| ErrOccurrenceAuthority
| ErrOccurrenceUndeclared
| ErrOccurrenceMetadata
| ErrOccurrenceKind
| ErrOccurrenceOutcome
| ErrOccurrenceEncode.

(** The size of a marshalled object: braces, commas, keys and values. *)
Definition object_json_size (fields : list (string * Z)) : Z :=
  2 + (lenZ fields - 1) + sumZ (fun f => string_json_size (fst f) + 1 + snd f) fields.
Definition bool_json_size (b : bool) : Z := if b then 4 else 5.
Definition strings_json_size (l : list string) : Z :=
  2 + Z.max 0 (lenZ l - 1) + sumZ string_json_size l.

(** ** Started *)

Record ToolStartedOccurrence := mkStarted {
  ts_callID : string;
  ts_name : string;
  ts_declared : bool;
  ts_executable : bool;
  ts_definitionFingerprint : string;
  ts_effect : string;
  ts_replaySafety : string;
  ts_capabilities : list string;
  ts_toolPlanID : string;
  ts_planFingerprint : string;
  ts_workspaceFingerprint : string;
  ts_turn : Z
}.

Definition validOccurrenceFingerprint (value : string) (prefixed : bool) : bool :=
  if prefixed then prefixed_sha256 value
  else (slen value =? 32 * 2) && lower_hex value.

Definition started_validate (o : ToolStartedOccurrence) : option OccurrenceError :=
  match NewCall (ts_callID o) (ts_name o) "{}" with
  | Err _ => Some ErrOccurrenceCall
  | Ok _ =>
    if ts_turn o =? 0 then Some ErrOccurrenceTurn
    else match PlanID_Validate (ts_toolPlanID o) with
    | Some _ => Some ErrOccurrencePlan
    | None =>
      if negb (validOccurrenceFingerprint (ts_planFingerprint o) true)
         || (negb (String.eqb (ts_workspaceFingerprint o) "")
             && negb (validOccurrenceFingerprint (ts_workspaceFingerprint o) true))
      then Some ErrOccurrenceAuthority
      else if ts_executable o && negb (ts_declared o) then Some ErrOccurrenceUndeclared
      else if negb (ts_declared o) then
        if negb (String.eqb (ts_definitionFingerprint o) "") || negb (String.eqb (ts_effect o) "")
           || negb (String.eqb (ts_replaySafety o) "") || negb (lenZ (ts_capabilities o) =? 0)
        then Some ErrOccurrenceMetadata else None
      else if negb (validOccurrenceFingerprint (ts_definitionFingerprint o) false) then Some ErrOccurrenceDefinition
      else match NewDefinition (ts_name o) "Tool occurrence validation." "{}" (ts_effect o)
                   (ts_replaySafety o) (ts_capabilities o) with
      | Err _ => Some ErrOccurrenceMetadata
      | Ok _ => None
      end
    end
  end.

Definition NewToolStartedOccurrence (sha256_hex : list Z -> string) (callID name : string)
  (declared executable : bool) (definition : option Definition_) (planIdentity : PlanIdentity) (turn : Z)
  : result OccurrenceError ToolStartedOccurrence :=
  match NewCall callID name "{}" with
  | Err _ => Err ErrOccurrenceCall
  | Ok _ =>
    match PlanIdentity_Validate planIdentity with
    | Some _ => Err ErrOccurrencePlan
    | None =>
      let base fingerprint effect replaySafety capabilities :=
        mkStarted callID name declared executable fingerprint effect replaySafety capabilities
          (pi_toolPlanID planIdentity) (pi_fingerprint planIdentity) (pi_workspaceFingerprint planIdentity) turn in
      let finish o := match started_validate o with Some e => Err e | None => Ok o end in
      match definition with
      | None => finish (base ""%string ""%string ""%string [])
      | Some d =>
          match Definition_Validate d with
          | Some _ => Err ErrOccurrenceDefinition
          | None =>
              if negb (String.eqb (td_name d) name) then Err ErrOccurrenceDefinition
              else finish (base (Fingerprint sha256_hex d) (td_effect d) (td_replaySafety d) (td_capabilities d))
          end
      end
    end
  end.

Definition started_json_size (o : ToolStartedOccurrence) : Z :=
  object_json_size
    [("version", string_json_size ToolStartedOccurrenceVersion);
     ("call_id", string_json_size (ts_callID o)); ("name", string_json_size (ts_name o));
     ("declared", bool_json_size (ts_declared o)); ("executable", bool_json_size (ts_executable o));
     ("definition_fingerprint", string_json_size (ts_definitionFingerprint o));
     ("effect", string_json_size (ts_effect o)); ("replay_safety", string_json_size (ts_replaySafety o));
     ("capabilities", strings_json_size (ts_capabilities o));
     ("tool_plan_id", string_json_size (ts_toolPlanID o));
     ("plan_fingerprint", string_json_size (ts_planFingerprint o));
     ("workspace_fingerprint", string_json_size (ts_workspaceFingerprint o));
     ("turn", uint_json_size (ts_turn o))]%string.

(** [Encode]: [None] is success. *)
Definition started_Encode (o : ToolStartedOccurrence) : option OccurrenceError :=
  match started_validate o with
  | Some e => Some e
  | None => if started_json_size o >? MaximumToolStartedOccurrenceBytes then Some ErrOccurrenceEncode else None
  end.

(** ** Terminal *)

Record ToolTerminalOccurrence := mkTerminal {
  tt_callID : string;
  tt_name : string;
  tt_kind : Kind;
  tt_outcome : string;
  tt_retry : string
}.

Definition isToolTerminalKind (kind : Kind) : bool :=
  String.eqb kind ToolCompleted || String.eqb kind ToolFailed.

Definition terminal_validate (o : ToolTerminalOccurrence) : option OccurrenceError :=
  match NewCall (tt_callID o) (tt_name o) "{}" with
  | Err _ => Some ErrOccurrenceCall
  | Ok _ =>
    if negb (isToolTerminalKind (tt_kind o)) then Some ErrOccurrenceKind
    else if String.eqb (tt_kind o) ToolCompleted then
      if negb (String.eqb (tt_outcome o) "") || negb (String.eqb (tt_retry o) "") then Some ErrOccurrenceOutcome
      else None
    else if String.eqb (tt_outcome o) "" && String.eqb (tt_retry o) "" then None
    else if String.eqb (tt_outcome o) "" || String.eqb (tt_retry o) "" then Some ErrOccurrenceOutcome
    else match NewExecutionError (tt_callID o) (tt_outcome o) (tt_retry o)
                 (Some (mkCause "tool terminal occurrence validation" false)) with
    | Err _ => Some ErrOccurrenceOutcome
    | Ok _ => None
    end
  end.

Definition NewToolTerminalOccurrence (kind : Kind) (callID name outcome retry : string)
  : result OccurrenceError ToolTerminalOccurrence :=
  let o := mkTerminal callID name kind outcome retry in
  match terminal_validate o with Some e => Err e | None => Ok o end.

Definition terminal_json_size (o : ToolTerminalOccurrence) : Z :=
  object_json_size
    [("version", string_json_size ToolTerminalOccurrenceVersion);
     ("call_id", string_json_size (tt_callID o)); ("name", string_json_size (tt_name o));
     ("kind", string_json_size (tt_kind o)); ("outcome", string_json_size (tt_outcome o));
     ("retry", string_json_size (tt_retry o))]%string.

Definition terminal_Encode (o : ToolTerminalOccurrence) : option OccurrenceError :=
  match terminal_validate o with
  | Some e => Some e
  | None => if terminal_json_size o >? MaximumToolTerminalOccurrenceBytes then Some ErrOccurrenceEncode else None
  end.

(** ** Lemmas: sizes of JSON strings *)

Lemma rune_json_size_le r : 1 <= fst r -> rune_json_size r <= 6 * fst r.
Proof. unfold rune_json_size. intros. repeat case_match; lia. Qed.

Lemma runes_json_size_le n : forall l, sumZ rune_json_size (runes_fuel n l) <= 6 * lenZ l.
Proof.
  induction n as [|n IH]; intros l; cbn [runes_fuel]; [rewrite sumZ_nil; pose proof (lenZ_nonneg l); lia|].
  destruct l as [|c l]; [rewrite sumZ_nil; pose proof (lenZ_nonneg ([] : list Z)); lia|].
  set (l0 := c :: l). rewrite sumZ_cons.
  destruct (decode_rune_bounds c l) as ([H1 H2] & _). fold l0 in H1, H2. pose proof (rune_json_size_le _ H1).
  specialize (IH (drop (Z.to_nat (fst (decode_rune l0))) l0)).
  assert (lenZ (drop (Z.to_nat (fst (decode_rune l0))) l0) = lenZ l0 - fst (decode_rune l0))
    by (unfold lenZ in *; rewrite length_drop; lia). lia.
Qed.

Lemma string_json_size_le s : string_json_size s <= 2 + 6 * slen s.
Proof.
  unfold string_json_size, runes. pose proof (runes_json_size_le (String.length s) (byte_codes s)).
  assert (lenZ (byte_codes s) = slen s) by apply byte_codes_length. lia.
Qed.

(** Bytes that [json.Marshal] writes as they are. *)
Definition plain_byte (c : Z) : bool :=
  in_range 32 127 c && negb ((c =? 34) || (c =? 92) || (c =? 60) || (c =? 62) || (c =? 38)).

Lemma plain_json_size s : forallb plain_byte (byte_codes s) = true -> string_json_size s = 2 + slen s.
Proof.
  unfold string_json_size, runes. intros H. f_equal.
  assert (String.length s = length (byte_codes s)) as E by (pose proof (byte_codes_length s); unfold slen in *; lia).
  rewrite E. unfold slen. rewrite E. clear E. induction (byte_codes s) as [|c l IH]; [done|].
  simpl in H. apply andb_true_iff in H as [Hc H]. cbn [length runes_fuel].
  unfold plain_byte, in_range in Hc. bprop.
  assert (decode_rune (c :: l) = (1, Some c)) as -> by (unfold decode_rune; destruct (Z.ltb_spec c 128); [done|lia]).
  rewrite sumZ_cons. change (drop (Z.to_nat (fst (1, Some c))) (c :: l)) with l. rewrite (IH H).
  unfold rune_json_size. simpl. repeat (case_match; bprop; try lia).
Qed.

Lemma lower_hex_plain s : lower_hex s = true -> forallb plain_byte (byte_codes s) = true.
Proof.
  unfold lower_hex. rewrite !forallb_forall. intros H c Hc. specialize (H c Hc).
  unfold plain_byte, in_range in *. bprop. apply andb_true_iff. split; [|apply negb_true_iff]; lia.
Qed.

Lemma substring_full s : String.substring 0 (String.length s) s = s.
Proof. induction s as [|c s IH]; simpl; [done|]. by rewrite IH. Qed.

Lemma prefixed_json_size v : prefixed_sha256 v = true -> string_json_size v = 73.
Proof.
  unfold prefixed_sha256, planFingerprintPrefix. intros H. apply andb_true_iff in H as [Hp H].
  do 7 (destruct v as [|?c v]; [discriminate|]; cbn [String.prefix] in Hp;
        match type of Hp with (if Ascii.ascii_dec ?a ?b then _ else _) = _ =>
          destruct (Ascii.ascii_dec a b); [subst|discriminate] end).
  cbn [String.length Nat.sub] in H. rewrite Nat.sub_0_r in H. cbn [String.substring] in H.
  rewrite substring_full in H. apply andb_true_iff in H as [Hl Hh]. apply Z.eqb_eq in Hl.
  rewrite plain_json_size.
  - unfold slen in *. cbn [String.length]. lia.
  - apply lower_hex_plain in Hh. unfold byte_codes in *. cbn [String.list_ascii_of_string map forallb].
    by rewrite Hh.
Qed.

Lemma digits_fuel_le f : forall n, digits_fuel f n <= Z.of_nat f + 1.
Proof. induction f as [|f IH]; intros n; simpl; [lia|]. specialize (IH (n / 10)). destruct (n <? 10); lia. Qed.

Lemma identity_length label value : validateIdentity label value = None -> slen value <= 128.
Proof.
  unfold validateIdentity. intros H. repeat (split_match_in H; try discriminate). bprop.
  unfold maxIdentityBytes in *. lia.
Qed.

Lemma NewCall_lengths id name arguments c : NewCall id name arguments = Ok c -> slen id <= 128 /\ slen name <= 128.
Proof.
  unfold NewCall. intros H. destruct (validateIdentity "tool call ID" id) eqn:E1; [done|].
  destruct (validateIdentity "tool name" name) eqn:E2; [done|]. split; by eapply identity_length.
Qed.

Lemma capability_json_size c : validCapability c = true -> string_json_size c = 2 + slen c.
Proof.
  unfold validCapability. rewrite elem_str_spec, !elem_of_cons, elem_of_nil. intros H.
  apply plain_json_size. by repeat (destruct H as [->|H]; [vm_compute; reflexivity|]).
Qed.

Lemma capabilities_json_size (caps : list string) :
  NoDup caps -> Forall (fun c => validCapability c = true) caps -> strings_json_size caps <= 141.
Proof.
  intros Hn Hv. pose proof (capability_total_bytes caps Hn Hv). unfold strings_json_size.
  assert (sumZ string_json_size caps = 2 * lenZ caps + sumZ slen caps).
  { clear -Hv. induction Hv as [|c l Hc _ IH]; [done|]. rewrite !sumZ_cons, lenZ_cons, IH, (capability_json_size _ Hc). lia. }
  assert (lenZ caps <= 7); [|unfold Capability in *; lia].
  assert (caps ⊆+ [CapabilityFilesystemRead; CapabilityFilesystemWrite; CapabilityProcessExecute;
    CapabilityNetworkAccess; CapabilitySecretsRead; CapabilityEnvironmentRead; CapabilityEnvironmentWrite]) as Hs.
  { apply NoDup_submseteq; [done|]. intros c Hc. rewrite Forall_forall in Hv. specialize (Hv c Hc).
    by apply elem_str_spec in Hv. }
  apply submseteq_length in Hs. unfold lenZ. simpl in Hs. lia.
Qed.

Lemma metadata_json_size name desc schema effect replay caps d :
  NewDefinition name desc schema effect replay caps = Ok d ->
  string_json_size effect <= 11 /\ string_json_size replay <= 12 /\ strings_json_size caps <= 141.
Proof.
  intros H. apply NewDefinition_Ok in H as [(_ & _ & _ & _ & Her & Hn & Hv & _) _]. simpl in *.
  split; [|split; [|by apply capabilities_json_size]].
  - destruct Her as [[-> _]|[-> _]]; vm_compute; discriminate.
  - destruct Her as [[_ ->]|[_ Hr]]; [vm_compute; discriminate|].
    rewrite !elem_of_cons, elem_of_nil in Hr. by destruct Hr as [->|[->|[]]]; vm_compute; discriminate.
Qed.

Lemma started_valid_size o : started_validate o = None -> started_json_size o <= MaximumToolStartedOccurrenceBytes.
Proof.
  unfold started_validate. intros H.
  destruct (NewCall (ts_callID o) (ts_name o) "{}") eqn:Ec; [|discriminate H]. apply NewCall_lengths in Ec as [Hid Hname].
  destruct (ts_turn o =? 0); [discriminate H|]. destruct (PlanID_Validate (ts_toolPlanID o)) eqn:Ep; [discriminate H|].
  apply plan_id_length in Ep.
  destruct (validOccurrenceFingerprint (ts_planFingerprint o) true) eqn:Ef; [|discriminate H]. apply prefixed_json_size in Ef.
  assert (string_json_size (ts_workspaceFingerprint o) <= 73) as Hw.
  { destruct (String.eqb_spec (ts_workspaceFingerprint o) "") as [->|]; [vm_compute; discriminate|].
    simpl in H. destruct (prefixed_sha256 (ts_workspaceFingerprint o)) eqn:Ew; [|discriminate H].
    by rewrite (prefixed_json_size _ Ew). }
  destruct (_ || _); [discriminate H|]. destruct (ts_executable o && negb (ts_declared o)); [discriminate H|].
  assert (string_json_size (ts_definitionFingerprint o) <= 66 /\ string_json_size (ts_effect o) <= 11
    /\ string_json_size (ts_replaySafety o) <= 12 /\ strings_json_size (ts_capabilities o) <= 141) as (H1 & H2 & H3 & H4).
  { destruct (ts_declared o); cbn [negb] in H.
    - destruct (validOccurrenceFingerprint (ts_definitionFingerprint o) false) eqn:Ed; [|discriminate H]. cbn [negb] in H.
      unfold validOccurrenceFingerprint in Ed. apply andb_true_iff in Ed as [El Eh]. apply Z.eqb_eq in El.
      rewrite (plain_json_size _ (lower_hex_plain _ Eh)).
      destruct (NewDefinition _ _ _ _ _ _) eqn:En; [|discriminate H]. apply metadata_json_size in En as (? & ? & ?). lia.
    - destruct (String.eqb_spec (ts_definitionFingerprint o) "") as [->|]; [|discriminate H].
      destruct (String.eqb_spec (ts_effect o) "") as [->|]; [|discriminate H].
      destruct (String.eqb_spec (ts_replaySafety o) "") as [->|]; [|discriminate H].
      destruct (Z.eqb_spec (lenZ (ts_capabilities o)) 0) as [E|]; [|discriminate H]. apply lenZ_0 in E. rewrite E.
      vm_compute. repeat split; discriminate. }
  pose proof (string_json_size_le (ts_callID o)). pose proof (string_json_size_le (ts_name o)).
  pose proof (string_json_size_le (ts_toolPlanID o)). pose proof (digits_fuel_le 20 (ts_turn o)).
  assert (Hb : forall b, bool_json_size b <= 5) by (intros []; vm_compute; discriminate).
  pose proof (Hb (ts_declared o)). pose proof (Hb (ts_executable o)).
  unfold started_json_size, object_json_size, uint_json_size, MaximumToolStartedOccurrenceBytes.
  rewrite !sumZ_cons, sumZ_nil, !lenZ_cons, lenZ_nil. cbn [fst snd].
  rewrite (plain_json_size ToolStartedOccurrenceVersion), (plain_json_size "version"), (plain_json_size "call_id"), (plain_json_size "name"), (plain_json_size "declared"), (plain_json_size "executable"), (plain_json_size "definition_fingerprint"), (plain_json_size "effect"), (plain_json_size "replay_safety"), (plain_json_size "capabilities"), (plain_json_size "tool_plan_id"), (plain_json_size "plan_fingerprint"), (plain_json_size "workspace_fingerprint"), (plain_json_size "turn") by (vm_compute; reflexivity).
  change (slen ToolStartedOccurrenceVersion) with 33.
  change (slen "version") with 7.
  change (slen "call_id") with 7.
  change (slen "name") with 4.
  change (slen "declared") with 8.
  change (slen "executable") with 10.
  change (slen "definition_fingerprint") with 22.
  change (slen "effect") with 6.
  change (slen "replay_safety") with 13.
  change (slen "capabilities") with 12.
  change (slen "tool_plan_id") with 12.
  change (slen "plan_fingerprint") with 16.
  change (slen "workspace_fingerprint") with 21.
  change (slen "turn") with 4.
  lia.
Qed.

(** A started occurrence always encodes: whatever the call, plan and
    definition, an occurrence that [NewToolStartedOccurrence] accepts fits the
    4 KiB bound, escapes included, so a tool start is never lost to [Encode]. *)
Theorem started_always_encodes sha callID name declared executable definition plan turn o :
  NewToolStartedOccurrence sha callID name declared executable definition plan turn = Ok o ->
  started_Encode o = None /\ started_json_size o <= MaximumToolStartedOccurrenceBytes.
Proof.
  intros H. assert (started_validate o = None) as Hv.
  { unfold NewToolStartedOccurrence in H. repeat (split_match_in H; try discriminate); by injection H as <-. }
  pose proof (started_valid_size o Hv) as Hs. split; [|done]. unfold started_Encode. rewrite Hv.
  destruct (Z.gtb_spec (started_json_size o) MaximumToolStartedOccurrenceBytes); [lia|done].
Qed.

Lemma terminal_validate_sizes o :
  terminal_validate o = None ->
  string_json_size (tt_kind o) <= 16 /\ string_json_size (tt_outcome o) <= 12 /\ string_json_size (tt_retry o) <= 9.
Proof.
  unfold terminal_validate, isToolTerminalKind. intros H.
  destruct (NewCall _ _ _); [|discriminate H].
  destruct (String.eqb_spec (tt_kind o) ToolCompleted) as [->|]; cbn [orb negb] in H.
  - destruct (String.eqb_spec (tt_outcome o) "") as [->|]; [|discriminate H].
    destruct (String.eqb_spec (tt_retry o) "") as [->|]; [|discriminate H]. vm_compute. repeat split; discriminate.
  - destruct (String.eqb_spec (tt_kind o) ToolFailed) as [->|]; cbn [negb] in H; [|discriminate H].
    split; [vm_compute; discriminate|].
    destruct (NewExecutionError _ _ _ _) eqn:En.
    + assert (ExecutionError_Validate (mkExecutionError (tt_callID o) (tt_outcome o) (tt_retry o)
        (Some (mkCause "tool terminal occurrence validation" false))) = None) as Hv.
      { unfold NewExecutionError in En. destruct (ExecutionError_Validate _); [discriminate En|reflexivity]. }
      unfold ExecutionError_Validate in Hv. cbn [ee_callID ee_state ee_retry] in Hv.
      destruct (validateIdentity _ _); [discriminate Hv|].
      destruct (elem_str (tt_outcome o) _) eqn:E1; [|discriminate Hv].
      destruct (elem_str (tt_retry o) _) eqn:E2; [|discriminate Hv].
      apply elem_str_spec in E1, E2. rewrite !elem_of_cons, elem_of_nil in E1, E2.
      split; [destruct E1 as [->|[->|[]]]|destruct E2 as [->|[->|[]]]]; vm_compute; discriminate.
    + destruct (String.eqb_spec (tt_outcome o) "") as [->|], (String.eqb_spec (tt_retry o) "") as [->|];
        try discriminate H. vm_compute. split; discriminate.
Qed.

Lemma terminal_json_size_eq o :
  terminal_json_size o = 95 + string_json_size (tt_callID o) + string_json_size (tt_name o)
    + string_json_size (tt_kind o) + string_json_size (tt_outcome o) + string_json_size (tt_retry o).
Proof.
  unfold terminal_json_size, object_json_size. rewrite !sumZ_cons, sumZ_nil, !lenZ_cons, lenZ_nil. cbn [fst snd].
  rewrite (plain_json_size ToolTerminalOccurrenceVersion), (plain_json_size "version"), (plain_json_size "call_id"),
    (plain_json_size "name"), (plain_json_size "kind"), (plain_json_size "outcome"), (plain_json_size "retry")
    by (vm_compute; reflexivity).
  change (slen ToolTerminalOccurrenceVersion) with 34. change (slen "version") with 7. change (slen "call_id") with 7.
  change (slen "name") with 4. change (slen "kind") with 4. change (slen "outcome") with 7. change (slen "retry") with 5.
  lia.
Qed.

(** A terminal occurrence encodes when the marshalled call identifier and
    tool name take at most 892 bytes together, which holds for all identities
    whose characters need no escape. *)
Lemma terminal_encodes_when_small kind callID name outcome retry o :
  NewToolTerminalOccurrence kind callID name outcome retry = Ok o ->
  string_json_size callID + string_json_size name <= 892
  \/ (forallb plain_byte (byte_codes callID) = true /\ forallb plain_byte (byte_codes name) = true) ->
  terminal_Encode o = None.
Proof.
  intros H Hsize. unfold NewToolTerminalOccurrence in H.
  destruct (terminal_validate _) eqn:Ev; [discriminate H|]. injection H as <-.
  pose proof (terminal_validate_sizes _ Ev) as (H1 & H2 & H3). unfold terminal_Encode. rewrite Ev.
  rewrite terminal_json_size_eq. cbn [tt_callID tt_name tt_kind tt_outcome tt_retry] in *.
  assert (string_json_size callID + string_json_size name <= 892).
  { destruct Hsize as [Hs|[Hc Hn]]; [done|]. rewrite (plain_json_size _ Hc), (plain_json_size _ Hn).
    unfold terminal_validate in Ev. cbn [tt_callID tt_name] in Ev.
    destruct (NewCall callID name "{}") eqn:Ec; [|discriminate Ev]. apply NewCall_lengths in Ec. lia. }
  unfold MaximumToolTerminalOccurrenceBytes. match goal with |- (if ?a >? ?b then _ else _) = _ =>
    destruct (Z.gtb_spec a b); [lia|reflexivity] end.
Qed.

(** An identity of 128 characters that [json.Marshal] escapes. *)
Definition escaped_identity : string := of_codes (repeat 60 128).
Definition sample_plan : PlanIdentity :=
  mkPlanIdentity ["broker:injected"%string] "" "" "plan-1" (String.append planFingerprintPrefix sample_digest).

Lemma started_always_encodes_witness :
  exists o, NewToolStartedOccurrence (fun _ => sample_digest) "call-1" "read" true true (Some sample_definition)
              sample_plan 1 = Ok o /\ started_Encode o = None.
Proof.
  eexists. split; [vm_compute; reflexivity|].
  refine (proj1 (started_always_encodes (fun _ => sample_digest) "call-1" "read" true true (Some sample_definition)
    sample_plan 1 _ _)). vm_compute. reflexivity.
Defined.

(** C35: A tool start can be left without a terminal event.  There is a call
    that [tool.NewCall] accepts, whose started occurrence encodes within its
    bound, but for which every terminal occurrence, completed or failed,
    exceeds the 1 KiB bound of [Encode], so that no terminal payload can be
    persisted for it. *)
Theorem terminal_occurrence_overflows :
  exists callID name,
    is_ok (NewCall callID name "{}") = true
    /\ (exists o, NewToolStartedOccurrence (fun _ => sample_digest) callID name false false None sample_plan 1 = Ok o
                  /\ started_Encode o = None)
    /\ is_ok (NewToolTerminalOccurrence ToolFailed callID name "" "") = true
    /\ (forall kind outcome retry o, NewToolTerminalOccurrence kind callID name outcome retry = Ok o ->
          terminal_Encode o = Some ErrOccurrenceEncode).
Proof.
  exists escaped_identity, escaped_identity. split; [vm_compute; reflexivity|].
  split; [eexists; split; [vm_compute; reflexivity|vm_compute; reflexivity]|]. split; [vm_compute; reflexivity|].
  intros kind outcome retry o H. unfold NewToolTerminalOccurrence in H.
  destruct (terminal_validate _) eqn:Ev; [discriminate H|]. injection H as <-.
  unfold terminal_Encode. rewrite Ev, terminal_json_size_eq. cbn [tt_callID tt_name tt_kind tt_outcome tt_retry].
  assert (string_json_size escaped_identity = 770) as -> by (vm_compute; reflexivity).
  pose proof (string_json_size_pos kind). pose proof (string_json_size_pos outcome). pose proof (string_json_size_pos retry).
  unfold MaximumToolTerminalOccurrenceBytes. match goal with |- (if ?a >? ?b then _ else _) = _ =>
    destruct (Z.gtb_spec a b); [reflexivity|lia] end.
Qed.
