(* ===== verification/Execution.v ===== *)
(** Run execution (src/agent/agent.go): the turn loop, model operations, tool
    rounds and interactions of one run, and the events they emit.

    The model provider, the leased dispatcher and the interaction broker are
    interfaces: a model operation is the sequence of its [Recv] results, a
    dispatch is a program over the operations a tool or guard has on the run
    (progress reports and interactions).  The log and the required observers
    answer each [persist] through [xs_persist]; cancellation strikes at any
    later look at the context through [xs_cancel].  Suspension, plan release
    and the snapshot of a run are in RunLifecycle.v and Plan.v; a panic of an
    observer or of the clock is not represented. *)
From Stdlib Require Import ZArith Lia.
From stdpp Require Import base gmap list strings sorting pretty.
From S2P Require Import Prelude GoText GoOrder GoJson Event Tool Message Model Interaction Plan Dispatch AgentPlan Occurrence.
Open Scope Z_scope.

(** ** Events, errors and the state of a run *)

(** What an event is about. *)
Inductive XRef := RefNone | RefTurn (turn : Z) | RefCall (callID : string) | RefInteraction (id : string).
Record XEvent := mkXEvent { xe_kind : Kind; xe_ref : XRef }.

(** How the log and the required observers answer one event: committed and
    acknowledged, not committed, committed but not acknowledged. *)
Inductive PersistResult := PersistOk | PersistRefused | PersistUnacknowledged.

Inductive XErr :=
| XCancelled
| XNilContext
| XPersist (kind : Kind)
| XEmission (kind : Kind)
| XDurability (kind : Kind) (cause : XErr)
| XJoin (first second : XErr)
| XModelRequest (e : ModelError)
| XModelStart
| XModelNilStream
| XModelRecv (observed : bool)
| XModelEvent (e : ModelError)
| XModelText
| XModelCalls
| XModelFailed
| XModelClose
| XOccurrence (e : OccurrenceError)
| XUndeclared (name : string)
| XDuplicateCall (id : string)
| XPart (e : MessageError)
| XMessageDuplicate (id : string)
| XScope (e : InteractionError)
| XDispatchScope (e : DispatchError)
| XDispatch (e : DispatchError)
| XDispatchPanicked
| XProgress (e : ToolError)
| XInteractionRequest (e : InteractionError)
| XInteractionUnsafe
| XInteractionDuplicate (id : string)
| XBroker
| XBrokerResponse
| XMaxTurns
| XRelease.

(** [errors.As(err, *EmissionError)]; all emission errors are committed. *)
Fixpoint has_emission (e : XErr) : bool :=
  match e with
  | XEmission _ => true
  | XDurability _ cause => has_emission cause
  | XJoin a b => has_emission a || has_emission b
  | _ => false
  end.
Definition committed (err : option XErr) : bool :=
  match err with None => true | Some e => has_emission e end.

(** [errors.Join]. *)
Definition join (a b : option XErr) : option XErr :=
  match a, b with
  | None, _ => b
  | _, None => a
  | Some x, Some y => Some (XJoin x y)
  end.

(** [xs_cancel] is the number of looks at the context before it is done,
    [None] if it never is; [xs_persist] answers the next events, [PersistOk]
    when it is used up. *)
Record XState := mkXState {
  xs_events : list XEvent;
  xs_next : Z;
  xs_cancel : option nat;
  xs_persist : list PersistResult;
  xs_messageIDs : list string;
  xs_seen : list string
}.

(** Computations on the run; [None] is a receive loop out of fuel. *)
Definition M (A : Type) := XState -> option (A * XState).
Definition mret {A} (a : A) : M A := fun st => Some (a, st).
Definition mthen {A B} (m : M A) (k : A -> M B) : M B :=
  fun st => match m st with Some (a, st') => k a st' | None => None end.
Declare Scope run_scope.
Delimit Scope run_scope with run.
Notation "'let!' x := m 'in' k" := (mthen m (fun x => k))
  (at level 10, x pattern, m at level 100, k at level 200) : run_scope.
Open Scope run_scope.

(** [ctx.Err() != nil]. *)
Definition cancelled : M bool := fun st =>
  match xs_cancel st with
  | None => Some (false, st)
  | Some O => Some (true, st)
  | Some (S n) =>
      Some (false, mkXState (xs_events st) (xs_next st) (Some n) (xs_persist st) (xs_messageIDs st) (xs_seen st))
  end.

(** ** Emission *)

(** [runEmitter.persist]: the sequence advances exactly when the event is
    committed. *)
Definition persist (kind : Kind) (ref : XRef) : M (option XErr) := fun st =>
  let rest := tail (xs_persist st) in
  let commit := mkXState (xs_events st ++ [mkXEvent kind ref]) (xs_next st +64 1) (xs_cancel st) rest
                  (xs_messageIDs st) (xs_seen st) in
  match head (xs_persist st) with
  | None | Some PersistOk => Some (None, commit)
  | Some PersistUnacknowledged => Some (Some (XEmission kind), commit)
  | Some PersistRefused =>
      Some (Some (XPersist kind), mkXState (xs_events st) (xs_next st) (xs_cancel st) rest
                                    (xs_messageIDs st) (xs_seen st))
  end.

Definition emit (kind : Kind) (ref : XRef) : M (option XErr) :=
  let! c := cancelled in
  if c : bool then mret (Some XCancelled) else persist kind ref.

(** The context a tool or guard passes to [Report] or [Interact] is its own
    choice: nil, or done or not at each of the looks taken at it. *)
Record CallerCtx := mkCallerCtx {
  cc_nil : bool; cc_entry : bool; cc_start : bool; cc_complete : bool; cc_kind : bool }.

(** [emit] under such a context. *)
Definition emit_for (ctx_done : bool) (kind : Kind) (ref : XRef) : M (option XErr) :=
  if ctx_done then mret (Some XCancelled) else persist kind ref.

(** [terminal], [turnFailure], [modelFailure], [toolTerminal] and
    [interactionFailure] persist under a context of their own. *)
Definition finalize (kind : Kind) (ref : XRef) : M (option XErr) :=
  let! e := persist kind ref in
  mret (match e with Some e => Some (XDurability kind e) | None => None end).

Definition turnFailure (turn : Z) : M (option XErr) := finalize TurnFailed (RefTurn turn).
Definition modelFailure (turn : Z) : M (option XErr) := finalize ModelFailed (RefTurn turn).
Definition interactionFailure (kind : Kind) (id : string) : M (option XErr) :=
  finalize kind (RefInteraction id).

Definition toolTerminal (o : ToolTerminalOccurrence) : M (option XErr) :=
  match terminal_Encode o with
  | Some e => mret (Some (XOccurrence e))
  | None => finalize (tt_kind o) (RefCall (tt_callID o))
  end.

(** The typed execution failure in an error's chain. *)
Definition execution_failure (e : XErr) : option ExecutionError :=
  match e with
  | XDispatch (ErrExecution f) | XDispatch (ErrDispatchFailure f _) => Some f
  | _ => None
  end.

Definition toolFailure (call : Call) (err : XErr) : M (option XErr) :=
  let '(outcome, retry) :=
    match execution_failure err with
    | Some f =>
        match ExecutionError_Validate f with
        | None => if String.eqb (ee_callID f) (tc_id call) then (ee_state f, ee_retry f) else (""%string, ""%string)
        | Some _ => (""%string, ""%string)
        end
    | None => (""%string, ""%string)
    end in
  match NewToolTerminalOccurrence ToolFailed (tc_id call) (tc_name call) outcome retry with
  | Err e => mret (Some (XOccurrence e))
  | Ok o => toolTerminal o
  end.

(** ** The surroundings of a run *)

Inductive BrokerAnswer := BrokerError | BrokerPanics | BrokerResponse (r : InteractionResponse).

(** What [Dispatch] does to the run: progress reports and interactions, then
    its results.  [refused] tells whether the run is suspending at that moment,
    when no interaction may start. *)
Inductive CallProgram :=
| CallReturns (r : Result) (e : option DispatchError)
| CallPanics
| CallReports (ctx : CallerCtx) (progress : Progress) (k : option XErr -> CallProgram)
| CallInteracts (ctx : CallerCtx) (request : InteractionRequest) (refused : bool) (answer : BrokerAnswer)
    (k : result XErr InteractionResponse -> CallProgram).

(** [Recv]: an event, or an error (a panic included). *)
Inductive RecvResult := RecvEvent (e : StreamEvent) | RecvFails.

(** [Provider.Stream]: an error, a nil stream, or a stream with its results
    and whether its [Close] fails. *)
Inductive StartResult := StartFails | StartNil | StartStream (recv : nat -> RecvResult) (close_fails : bool).

Record Env := mkEnv {
  en_runID : string;
  en_plan : PlanIdentity;
  en_sha : list Z -> string;
  en_definitions : list Definition_;
  en_requester : Z;
  en_start : Z -> Request -> StartResult;
  en_dispatch : Z -> ToolDispatchScope -> Call -> CallProgram;
  en_suspend : Z -> bool;
  en_release_fails : bool
}.

Section Run.
  Context (en : Env).

(** ** Interactions *)

Definition interactionFailureKind (ctx : CallerCtx) : M Kind :=
  let! c := cancelled in mret (if c || cc_kind ctx then InteractionCancelled else InteractionFailed).

Definition reserveInteraction (refused : bool) (id : string) : M (option XErr) := fun st =>
  if refused then Some (Some XInteractionUnsafe, st)
  else if elem_str id (xs_seen st) then Some (Some (XInteractionDuplicate id), st)
  else Some (None, mkXState (xs_events st) (xs_next st) (xs_cancel st) (xs_persist st) (xs_messageIDs st)
                     (id :: xs_seen st)).

(** The end of a failed interaction: its terminal event, and both errors. *)
Definition interaction_fails (e : XErr) (kind : Kind) (id : string) : M (result XErr InteractionResponse) :=
  let! f := interactionFailure kind id in
  mret (Err (default e (join (Some e) f))).

(** The part of [Interact] after the broker answered. *)
Definition interact_answer (ctx : CallerCtx) (request : InteractionRequest) (answer : BrokerAnswer)
  : M (result XErr InteractionResponse) :=
  match answer with
  | BrokerError | BrokerPanics =>
      let! kind := interactionFailureKind ctx in interaction_fails XBroker kind (ir_id request)
  | BrokerResponse response =>
      match InteractionResponse_Validate response with
      | Some e => interaction_fails (XInteractionRequest e) InteractionFailed (ir_id request)
      | None =>
          if negb (String.eqb (ip_id response) (ir_id request))
          then interaction_fails XBrokerResponse InteractionFailed (ir_id request)
          else
            let! e := emit_for (cc_complete ctx) InteractionCompleted (RefInteraction (ip_id response)) in
            match e with
            | None => mret (Ok response)
            | Some e =>
                if negb (committed (Some e)) then
                  let! kind := interactionFailureKind ctx in interaction_fails e kind (ir_id request)
                else mret (Err e)
            end
      end
  end.

(** [Run.Interact]. *)
Definition Interact (ctx : CallerCtx) (request : InteractionRequest) (refused : bool) (answer : BrokerAnswer)
  : M (result XErr InteractionResponse) :=
  if cc_nil ctx then mret (Err XNilContext)
  else match InteractionRequest_Validate request with
  | Some e => mret (Err (XInteractionRequest e))
  | None =>
    if cc_entry ctx then mret (Err XCancelled)
    else
      let! reserved := reserveInteraction refused (ir_id request) in
      match reserved with
      | Some e => mret (Err e)
      | None =>
        let! e := emit_for (cc_start ctx) InteractionStarted (RefInteraction (ir_id request)) in
        match e with
        | Some e =>
            if committed (Some e) then interaction_fails e InteractionFailed (ir_id request) else mret (Err e)
        | None =>
            match NewScope (en_runID en) with
            | Err e => interaction_fails (XScope e) InteractionFailed (ir_id request)
            | Ok _ => interact_answer ctx request answer
            end
        end
      end
  end.

(** [runEmitter.Report]. *)
Definition Report (ctx : CallerCtx) (progress : Progress) : M (option XErr) :=
  match Progress_Validate progress with
  | Some e => mret (Some (XProgress e))
  | None =>
      if cc_nil ctx then mret (Some XNilContext)
      else emit_for (cc_entry ctx) ToolProgress (RefCall (tp_callID progress))
  end.

(** [safeDispatch]. *)
Fixpoint safeDispatch (p : CallProgram) : M (Result * option XErr) :=
  match p with
  | CallReturns r e => mret (r, XDispatch <$> e)
  | CallPanics => mret (zero_result, Some XDispatchPanicked)
  | CallReports ctx progress k => let! e := Report ctx progress in safeDispatch (k e)
  | CallInteracts ctx request refused answer k =>
      let! r := Interact ctx request refused answer in safeDispatch (k r)
  end.

(** ** Model operations *)

(** The loop of [consumeStream]: [index] counts the receives, [text] and
    [calls] are what has been collected. *)
Fixpoint consume_loop (fuel : nat) (turn : Z) (recv : nat -> RecvResult) (index : nat) (text : string)
  (calls : list Call) (observed : bool) : M (result XErr (string * list Call * Usage * list Metadata)) :=
  match fuel with
  | O => fun _ => None
  | S fuel =>
    match recv index with
    | RecvFails => mret (Err (XModelRecv observed))
    | RecvEvent e =>
      match StreamEvent_Validate e with
      | Some err => mret (Err (XModelEvent err))
      | None =>
        if String.eqb (se_kind e) EventTextDelta then
          let value := fst (StreamEvent_Text e) in
          if slen text + slen value >? MaximumOperationTextBytes then mret (Err XModelText)
          else
            let! err := emit ModelDelta (RefTurn turn) in
            match err with
            | Some err => mret (Err err)
            | None => consume_loop fuel turn recv (S index) (String.append text value) calls true
            end
        else if String.eqb (se_kind e) EventToolCall then
          let call := fst (StreamEvent_Call e) in
          if lenZ calls >=? MaximumOperationToolCalls then mret (Err XModelCalls)
          else consume_loop fuel turn recv (S index) text (calls ++ [call]) true
        else if String.eqb (se_kind e) EventCompleted then
          mret (Ok (text, calls, fst (StreamEvent_Usage e), fst (StreamEvent_Metadata e)))
        else mret (Err XModelFailed)
      end
    end
  end.

(** Every delta that does not end the loop grows the text by a byte or the
    calls by one, so that the loop ends within this many receives whatever the
    stream does ([stream_terminates]). *)
Definition consume_fuel : nat := Z.to_nat (MaximumOperationTextBytes + MaximumOperationToolCalls + 1).

(** [consumeStream]: closing the stream can turn a success into an error. *)
Definition consumeStream (turn : Z) (start : StartResult)
  : M (result XErr (string * list Call * Usage * list Metadata)) :=
  match start with
  | StartFails => mret (Err XModelStart)
  | StartNil => mret (Err XModelNilStream)
  | StartStream recv close_fails =>
      let! r := consume_loop consume_fuel turn recv 0 "" [] false in
      mret (if close_fails then
              match r with Err e => Err (XJoin e XModelClose) | Ok _ => Err XModelClose end
            else r)
  end.

(** ** Tool rounds *)

(** [newMessage]: the identifier is derived from the next sequence. *)
Definition newMessage (role : Role) (parts : list Part) : M (result XErr Message) := fun st =>
  let id := String.append (en_runID en) (String.append "/message/" (pretty (Z.to_N (xs_next st)))) in
  match NewID id with
  | Err e => Some (Err (XPart e), st)
  | Ok messageID =>
    match New messageID role parts with
    | Err e => Some (Err (XPart e), st)
    | Ok m =>
        if elem_str messageID (xs_messageIDs st) then Some (Err (XMessageDuplicate messageID), st)
        else Some (Ok m, mkXState (xs_events st) (xs_next st) (xs_cancel st) (xs_persist st)
                           (messageID :: xs_messageIDs st) (xs_seen st))
    end
  end.

Definition history_calls (history : list Message) : list string :=
  map pt_callID (filter (fun p => String.eqb (pt_kind p) PartToolCall = true) (mjoin (ms_parts <$> history))).

Fixpoint new_calls_loop (seen : list string) (calls : list Call) : option XErr :=
  match calls with
  | [] => None
  | call :: rest =>
      if elem_str (tc_id call) seen then Some (XDuplicateCall (tc_id call))
      else new_calls_loop (tc_id call :: seen) rest
  end.
Definition validateNewToolCalls (history : list Message) (calls : list Call) : option XErr :=
  new_calls_loop (history_calls history) calls.

Fixpoint call_parts (calls : list Call) : result XErr (list Part) :=
  match calls with
  | [] => Ok []
  | call :: rest =>
      match ToolCall (tc_id call) (tc_name call) (tc_arguments call) with
      | Err e => Err (XPart e)
      | Ok part => let? parts := call_parts rest in Ok (part :: parts)
      end
  end.

(** The parts of the assistant message of a tool round. *)
Definition assistant_parts (text : string) (calls : list Call) : result XErr (list Part) :=
  if String.eqb text "" then call_parts calls
  else match Text text with
  | Err e => Err (XPart e)
  | Ok part => let? parts := call_parts calls in Ok (part :: parts)
  end.

Definition tool_fails (call : Call) (e : XErr) : M (option XErr) :=
  let! f := toolFailure call e in mret (join (Some e) f).

Definition emitToolStarted (turn : Z) (call : Call) : M (option XErr) :=
  let declared := definitionFromSnapshot (en_definitions en) (tc_name call) in
  let is_declared := match declared with Some _ => true | None => false end in
  match NewToolStartedOccurrence (en_sha en) (tc_id call) (tc_name call) is_declared is_declared declared
          (en_plan en) turn with
  | Err e => mret (Some (XOccurrence e))
  | Ok occurrence =>
    match started_Encode occurrence with
    | Some e => mret (Some (XOccurrence e))
    | None =>
      let! e := emit ToolStarted (RefCall (tc_id call)) in
      match e with
      | Some e => if committed (Some e) then tool_fails call e else mret (Some e)
      | None => if is_declared then mret None else tool_fails call (XUndeclared (tc_name call))
      end
    end
  end.

(** One call of a round after its [ToolStarted]: scope, dispatch, terminal
    event and result message. *)
Definition dispatch_call (turn : Z) (call : Call) : M (result XErr Message) :=
  match NewScope (en_runID en) with
  | Err e => let! f := tool_fails call (XScope e) in mret (Err (default (XScope e) f))
  | Ok authority =>
    match NewToolDispatchScope 0 (en_runID en) turn (pi_toolPlanID (en_plan en)) (pi_fingerprint (en_plan en))
            (pi_workspaceFingerprint (en_plan en)) authority (Some (en_requester en)) with
    | Err e => let! f := tool_fails call (XDispatchScope e) in mret (Err (default (XDispatchScope e) f))
    | Ok scope =>
      let! (r, dispatchErr) := safeDispatch (en_dispatch en turn scope call) in
      match dispatchErr with
      | Some e => let! f := tool_fails call e in mret (Err (default e f))
      | None =>
        let kind := if String.eqb (tr_problem r) "" then ToolCompleted else ToolFailed in
        match NewToolTerminalOccurrence kind (tc_id call) (tc_name call) "" "" with
        | Err e => mret (Err (XOccurrence e))
        | Ok occurrence =>
          let! e := toolTerminal occurrence in
          match e with
          | Some e => mret (Err e)
          | None =>
            match ToolResult (tc_id call) (tc_name call) (default ""%string (tr_content r)) with
            | Err e => mret (Err (XPart e))
            | Ok part => newMessage RoleTool [part]
            end
          end
        end
      end
    end
  end.

Fixpoint round_loop (turn : Z) (calls : list Call) (history : list Message) : M (list Message * option XErr) :=
  match calls with
  | [] => mret (history, None)
  | call :: rest =>
      let! e := emitToolStarted turn call in
      match e with
      | Some e => mret (history, Some e)
      | None =>
        let! r := dispatch_call turn call in
        match r with
        | Err e => mret (history, Some e)
        | Ok m => round_loop turn rest (history ++ [m])
        end
      end
  end.

(** [appendToolRound]: the history it leaves behind, and its error. *)
Definition appendToolRound (turn : Z) (text : string) (calls : list Call) (history : list Message)
  : M (list Message * option XErr) :=
  match validateNewToolCalls history calls with
  | Some e => mret (history, Some e)
  | None =>
    match assistant_parts text calls with
    | Err e => mret (history, Some e)
    | Ok parts =>
      let! m := newMessage RoleAssistant parts in
      match m with
      | Err e => mret (history, Some e)
      | Ok m => round_loop turn calls (history ++ [m])
      end
    end
  end.

(** ** Turns *)

Definition operationID (turn : Z) : string :=
  String.append (en_runID en) (String.append "/model/" (pretty (Z.to_N turn))).

Definition turn_fails (turn : Z) (e : XErr) : M (option XErr) :=
  let! f := turnFailure turn in mret (join (Some e) f).
Definition model_fails (turn : Z) (e : XErr) : M (option XErr) :=
  let! f := modelFailure turn in
  let! g := turnFailure turn in
  mret (join (join (Some e) f) g).

(** The model operation of a turn: an error, or the text and calls of the
    completed operation. *)
Definition modelOperation (definition : AgentDefinition) (turn : Z) (history : list Message)
  : M (result (option XErr) (string * list Call)) :=
  match NewRequest (operationID turn) (ad_model definition) history (en_definitions en) with
  | Err e => let! f := turn_fails turn (XModelRequest e) in mret (Err f)
  | Ok request =>
    let! e := emit ModelStarted (RefTurn turn) in
    match e with
    | Some e =>
        let! f := (if committed (Some e) then model_fails turn e else turn_fails turn e) in mret (Err f)
    | None =>
      let! r := consumeStream turn (en_start en turn request) in
      match r with
      | Err e => let! f := model_fails turn e in mret (Err f)
      | Ok (text, calls, _, _) =>
        let! e := emit ModelCompleted (RefTurn turn) in
        match e with
        | Some e => let! f := turn_fails turn e in mret (Err f)
        | None => mret (Ok (text, calls))
        end
      end
    end
  end.

(** [executeTurn]: the history, and whether the run is complete. *)
Definition executeTurn (definition : AgentDefinition) (turn : Z) (history : list Message)
  : M (list Message * result (option XErr) bool) :=
  let! e := emit TurnStarted (RefTurn turn) in
  match e with
  | Some e =>
      if committed (Some e) then let! f := turn_fails turn e in mret (history, Err f)
      else mret (history, Err (Some e))
  | None =>
    let! r := modelOperation definition turn history in
    match r with
    | Err e => mret (history, Err e)
    | Ok (text, calls) =>
      if lenZ calls =? 0 then
        let! e := emit TurnCompleted (RefTurn turn) in
        mret (history, match e with Some e => Err (Some e) | None => Ok true end)
      else
        let! (history, e) := appendToolRound turn text calls history in
        match e with
        | Some e => let! f := turn_fails turn e in mret (history, Err f)
        | None =>
            let! e := emit TurnCompleted (RefTurn turn) in
            mret (history, match e with Some e => Err (Some e) | None => Ok false end)
        end
    end
  end.

(** ** Runs *)

(** How a run left its loop: the terminal kind, the error and the history. *)
Record Exit := mkExit { ex_kind : Kind; ex_error : option XErr; ex_history : list Message }.

(** The kind of a run that stopped on an error. *)
Definition failed_exit (e : option XErr) (history : list Message) : M Exit :=
  let! c := cancelled in
  mret (mkExit (if c : bool then RunCancelled else RunFailed) e history).

(** The loop of [executeState] over the turns [turn], [turn+1], ... of which
    [remaining] are left.  At a boundary where a suspension was requested, the
    run goes on once it is resumed, unless it is cancelled. *)
Fixpoint turns (definition : AgentDefinition) (remaining : nat) (turn : Z) (history : list Message) : M Exit :=
  match remaining with
  | O => mret (mkExit RunFailed (Some XMaxTurns) history)
  | S remaining =>
      let! (history, r) := executeTurn definition turn history in
      match r with
      | Err e => failed_exit e history
      | Ok true => mret (mkExit RunCompleted None history)
      | Ok false =>
          if en_suspend en turn then
            let! c := cancelled in
            if c : bool then failed_exit (Some XCancelled) history
            else turns definition remaining (turn +32 1) history
          else turns definition remaining (turn +32 1) history
      end
  end.

(** The end of a run: its plan is released, its terminal event persisted.  The
    result is the exit, and whether the terminal event is committed. *)
Definition finishRun (x : Exit) : M (Exit * bool) :=
  let x := if en_release_fails en then mkExit RunFailed (join (ex_error x) (Some XRelease)) (ex_history x) else x in
  let! e := finalize (ex_kind x) RefNone in
  mret (mkExit (ex_kind x) (join (ex_error x) e) (ex_history x), committed e).

(** [executeState]. *)
Definition executeState (definition : AgentDefinition) (history : list Message) (firstTurn : Z)
  (emitRunStart : bool) : M (Exit * bool) :=
  let remaining := Z.to_nat (ad_maxTurns definition - firstTurn + 1) in
  let! x :=
    (if emitRunStart then
       let! e := persist RunStarted RefNone in
       match e with
       | Some e => mret (mkExit RunFailed (Some e) history)
       | None => turns definition remaining firstTurn history
       end
     else turns definition remaining firstTurn history) in
  finishRun x.

End Run.

(** ** Reasoning about computations on the run *)

(** [m] returns from every state satisfying [P], in a state satisfying [Q]. *)
Definition holds {A} (P : XState -> Prop) (m : M A) (Q : A -> XState -> Prop) : Prop :=
  forall st, P st -> exists a st', m st = Some (a, st') /\ Q a st'.

Lemma holds_ret {A} (P : XState -> Prop) (a : A) (Q : A -> XState -> Prop) :
  (forall st, P st -> Q a st) -> holds P (mret a) Q.
Proof. intros H st HP. exists a, st. auto. Qed.

Lemma holds_then {A B} P (m : M A) (k : A -> M B) R Q :
  holds P m R -> (forall a, holds (R a) (k a) Q) -> holds P (mthen m k) Q.
Proof.
  intros Hm Hk st HP. destruct (Hm st HP) as (a & st1 & E & HR). destruct (Hk a st1 HR) as (b & st2 & E2 & HQ).
  exists b, st2. unfold mthen. by rewrite E.
Qed.

Lemma holds_pre {A} (P P' : XState -> Prop) (m : M A) Q : holds P' m Q -> (forall st, P st -> P' st) -> holds P m Q.
Proof. intros Hm H st HP. by apply Hm, H. Qed.

Lemma holds_post {A} P (m : M A) (Q Q' : A -> XState -> Prop) :
  holds P m Q' -> (forall a st, Q' a st -> Q a st) -> holds P m Q.
Proof. intros Hm H st HP. destruct (Hm st HP) as (a & st' & E & HQ). exists a, st'. auto. Qed.

(** A pure fact of the precondition. *)
Lemma holds_pure {A} (F : Prop) P (m : M A) Q : (F -> holds P m Q) -> holds (fun st => F /\ P st) m Q.
Proof. intros H st [HF HP]. by apply H. Qed.

Lemma holds_or {A} P1 P2 (m : M A) Q : holds P1 m Q -> holds P2 m Q -> holds (fun st => P1 st \/ P2 st) m Q.
Proof. intros H1 H2 st [H|H]; auto. Qed.

(** ** Termination *)

(** A computation that returns from every state. *)
Definition total {A} (m : M A) : Prop := holds (fun _ => True) m (fun _ _ => True).

Lemma total_ret {A} (a : A) : total (mret a).
Proof. by apply holds_ret. Qed.
Lemma total_then {A B} (m : M A) (k : A -> M B) : total m -> (forall a, total (k a)) -> total (mthen m k).
Proof. apply holds_then. Qed.
Lemma total_cancelled : total cancelled.
Proof. intros st _. unfold cancelled. repeat case_match; eauto. Qed.
Lemma total_persist kind ref : total (persist kind ref).
Proof. intros st _. unfold persist. repeat case_match; eauto. Qed.
Lemma total_reserve refused id : total (reserveInteraction refused id).
Proof. intros st _. unfold reserveInteraction. repeat case_match; eauto. Qed.
Lemma total_newMessage en role parts : total (newMessage en role parts).
Proof. intros st _. unfold newMessage. repeat case_match; eauto. Qed.

#[export] Hint Resolve total_ret total_cancelled total_persist total_reserve total_newMessage : spice.

(** Follow the structure of a computation. *)
Ltac total_step :=
  match goal with
  | |- total (mthen _ _) => apply total_then; [|intros ?]
  | |- total (match ?x with _ => _ end) => destruct x
  | |- total _ => solve [eauto with spice]
  end.
Ltac total_tac := repeat total_step.

Lemma total_emit kind ref : total (emit kind ref).
Proof. unfold emit. total_tac. Qed.
Lemma total_emit_for d kind ref : total (emit_for d kind ref).
Proof. unfold emit_for. total_tac. Qed.
Lemma total_finalize kind ref : total (finalize kind ref).
Proof. unfold finalize. total_tac. Qed.
#[export] Hint Resolve total_emit total_emit_for total_finalize : spice.

Lemma total_toolFailure call e : total (toolFailure call e).
Proof. unfold toolFailure, toolTerminal. total_tac. Qed.
Lemma total_Interact en ctx request refused answer : total (Interact en ctx request refused answer).
Proof. unfold Interact, interact_answer, interaction_fails, interactionFailureKind, interactionFailure. total_tac. Qed.
Lemma total_Report ctx progress : total (Report ctx progress).
Proof. unfold Report. total_tac. Qed.
#[export] Hint Resolve total_toolFailure total_Interact total_Report : spice.

Lemma total_safeDispatch en p : total (safeDispatch en p).
Proof. induction p; cbn [safeDispatch]; total_tac. Qed.
#[export] Hint Resolve total_safeDispatch : spice.

Lemma total_tool_fails call e : total (tool_fails call e).
Proof. unfold tool_fails. total_tac. Qed.
Lemma total_turn_fails turn e : total (turn_fails turn e).
Proof. unfold turn_fails, turnFailure. total_tac. Qed.
Lemma total_model_fails turn e : total (model_fails turn e).
Proof. unfold model_fails, turnFailure, modelFailure. total_tac. Qed.
#[export] Hint Resolve total_tool_fails total_turn_fails total_model_fails : spice.

Lemma text_delta_nonempty e :
  StreamEvent_Validate e = None -> se_kind e = EventTextDelta -> 1 <= slen (se_text e).
Proof.
  unfold StreamEvent_Validate, TextDelta. intros H Hk. rewrite Hk in H.
  change (String.eqb EventTextDelta EventTextDelta) with true in H. cbv iota in H.
  destruct (String.eqb_spec (se_text e) ""); [discriminate H|].
  destruct (se_text e); [done|]. unfold slen. cbn [String.length]. lia.
Qed.

(** What the collected calls satisfy, and an invariant of the deltas. *)
Section Consume.
  Context (turn : Z) (recv : nat -> RecvResult) (I : XState -> Prop) (C : Call -> Prop).
  Hypothesis Hdelta : holds I (emit ModelDelta (RefTurn turn)) (fun _ => I).
  Hypothesis Hcalls : forall n e, recv n = RecvEvent e -> StreamEvent_Validate e = None ->
    se_kind e = EventToolCall -> C (se_call e).

Definition collected (r : result XErr (string * list Call * Usage * list Metadata)) : Prop :=
  match r with Ok (_, calls, _, _) => Forall C calls | Err _ => True end.

Lemma consume_loop_holds fuel : forall index text calls observed,
  MaximumOperationTextBytes - slen text + (MaximumOperationToolCalls - lenZ calls) + 1 <= Z.of_nat fuel ->
  slen text <= MaximumOperationTextBytes -> lenZ calls <= MaximumOperationToolCalls -> Forall C calls ->
  holds I (consume_loop fuel turn recv index text calls observed) (fun r st => collected r /\ I st).
Proof.
  induction fuel as [|fuel IH]; intros index text calls observed Hf Ht Hc HC; cbn [consume_loop]; [lia|].
  destruct (recv index) as [e|] eqn:Er; [|by apply holds_ret].
  destruct (StreamEvent_Validate e) eqn:Ev; [by apply holds_ret|].
  destruct (String.eqb_spec (se_kind e) EventTextDelta) as [Ek|].
  - pose proof (text_delta_nonempty e Ev Ek). cbn [StreamEvent_Text fst].
    destruct (Z.gtb_spec (slen text + slen (se_text e)) MaximumOperationTextBytes); [by apply holds_ret|].
    eapply holds_then; [exact Hdelta|]. intros [err|]; [by apply holds_ret|].
    apply IH; rewrite ?slen_append; auto; lia.
  - destruct (String.eqb_spec (se_kind e) EventToolCall) as [Ek|].
    + rewrite Z.geb_leb. destruct (Z.leb_spec MaximumOperationToolCalls (lenZ calls)); [by apply holds_ret|].
      apply IH; rewrite ?lenZ_app, ?lenZ_cons, ?lenZ_nil; auto; try lia.
      apply Forall_app. split; [done|]. constructor; [|done]. by apply (Hcalls index e).
    + destruct (String.eqb _ EventCompleted); by apply holds_ret.
Qed.

Lemma consumeStream_holds start :
  (forall recv' close_fails, start = StartStream recv' close_fails -> recv' = recv) ->
  holds I (consumeStream turn start) (fun r st => collected r /\ I st).
Proof.
  intros Hs. unfold consumeStream. destruct start as [| |recv' close_fails]; [by apply holds_ret..|].
  rewrite (Hs recv' close_fails eq_refl). eapply holds_then.
  - apply (consume_loop_holds consume_fuel 0 "" [] false); [|done..]. unfold consume_fuel. rewrite Z2Nat.id by done.
    vm_compute. discriminate.
  - intros r. apply holds_ret. intros st [Hr HI]. split; [|done]. by destruct close_fails, r.
Qed.

End Consume.

Lemma total_consumeStream turn start : total (consumeStream turn start).
Proof.
  destruct start as [| |recv close_fails]; [apply total_ret..|]. eapply holds_post.
  - apply (consumeStream_holds turn recv (fun _ => True) (fun _ => True)); [apply total_emit|done|].
    by intros ? ? [= -> _].
  - done.
Qed.
#[export] Hint Resolve total_consumeStream : spice.

Lemma total_emitToolStarted en turn call : total (emitToolStarted en turn call).
Proof. unfold emitToolStarted. total_tac. Qed.
Lemma total_toolTerminal o : total (toolTerminal o).
Proof. unfold toolTerminal. total_tac. Qed.
#[export] Hint Resolve total_emitToolStarted total_toolTerminal : spice.
Lemma total_dispatch_call en turn call : total (dispatch_call en turn call).
Proof. unfold dispatch_call. total_tac. Qed.
#[export] Hint Resolve total_dispatch_call : spice.
Lemma total_round_loop en turn calls : forall history, total (round_loop en turn calls history).
Proof. induction calls; intros history; cbn [round_loop]; total_tac. Qed.
#[export] Hint Resolve total_round_loop : spice.
Lemma total_executeTurn en definition turn history : total (executeTurn en definition turn history).
Proof. unfold executeTurn, modelOperation, appendToolRound. total_tac. Qed.
#[export] Hint Resolve total_executeTurn : spice.
Lemma total_turns en definition n : forall turn history, total (turns en definition n turn history).
Proof. unfold failed_exit. induction n; intros turn history; cbn [turns]; unfold failed_exit; total_tac. Qed.
#[export] Hint Resolve total_turns : spice.

(** ** The lifecycle of a run *)

(** Where a run is after the events so far: between turns with the number of
    the next one, in a turn, in the turn's model operation, in a tool call, in
    an interaction of a tool call. *)
Inductive Life :=
| LNew (first : Z)
| LRun (next : Z)
| LTurn (turn : Z)
| LModel (turn : Z)
| LTool (turn : Z) (callID : string)
| LInteraction (turn : Z) (callID id : string)
| LDone (kind : Kind).

Definition run_terminal (kind : Kind) : bool := one_of kind [RunCompleted; RunFailed; RunCancelled].

(** The lifecycle automaton.  It is lenient, unless [strict], about a model
    operation without a terminal event when its turn fails, and about a turn
    without a terminal event when the run ends. *)
Definition lstep (strict : bool) (l : Life) (e : XEvent) : option Life :=
  let kind_is := String.eqb (xe_kind e) in
  match l, xe_ref e with
  | LNew first, RefNone => if kind_is RunStarted then Some (LRun first) else None
  | LRun next, RefTurn t => if kind_is TurnStarted && (t =? next) then Some (LTurn t) else None
  | LRun _, RefNone => if run_terminal (xe_kind e) then Some (LDone (xe_kind e)) else None
  | LTurn turn, RefTurn t =>
      if negb (t =? turn) then None
      else if kind_is ModelStarted then Some (LModel turn)
      else if kind_is TurnCompleted || kind_is TurnFailed then Some (LRun (turn +32 1)) else None
  | LTurn turn, RefCall id => if kind_is ToolStarted then Some (LTool turn id) else None
  | LTurn _, RefNone => if negb strict && run_terminal (xe_kind e) then Some (LDone (xe_kind e)) else None
  | LModel turn, RefTurn t =>
      if negb (t =? turn) then None
      else if kind_is ModelDelta then Some (LModel turn)
      else if kind_is ModelCompleted || kind_is ModelFailed then Some (LTurn turn)
      else if negb strict && kind_is TurnFailed then Some (LRun (turn +32 1)) else None
  | LTool turn callID, RefCall id =>
      if kind_is ToolProgress then Some l
      else if (kind_is ToolCompleted || kind_is ToolFailed) && String.eqb id callID then Some (LTurn turn) else None
  | LTool turn callID, RefInteraction id => if kind_is InteractionStarted then Some (LInteraction turn callID id) else None
  | LInteraction turn callID id, RefInteraction id' =>
      if (kind_is InteractionCompleted || kind_is InteractionFailed || kind_is InteractionCancelled) && String.eqb id' id
      then Some (LTool turn callID) else None
  | _, _ => None
  end.

Fixpoint life (strict : bool) (l : Life) (events : list XEvent) : option Life :=
  match events with
  | [] => Some l
  | e :: rest => match lstep strict l e with Some l' => life strict l' rest | None => None end
  end.

Lemma life_snoc strict l events e :
  life strict l (events ++ [e]) = match life strict l events with Some l' => lstep strict l' e | None => None end.
Proof.
  revert l. induction events as [|e' events IH]; intros l; cbn [app life]; [by destruct (lstep strict l e)|].
  destruct (lstep strict l e'); [apply IH|done].
Qed.

Section Lifecycle.
  Context (strict : bool) (start : Life).

(** The run is at [l], no event has been or will be refused, and no
    cancellation comes if the lifecycle is to be strict. *)
Record live (l : Life) (st : XState) : Prop := {
  lv_life : life strict start (xs_events st) = Some l;
  lv_persist : PersistRefused ∉ xs_persist st;
  lv_cancel : strict = true -> xs_cancel st = None
}.

Lemma persist_live l l' kind ref :
  lstep strict l (mkXEvent kind ref) = Some l' ->
  holds (live l) (persist kind ref) (fun r st => committed r = true /\ live l' st).
Proof.
  intros Hs st [Hl Hp Hc]. unfold persist.
  assert (PersistRefused ∉ tail (xs_persist st)) as Hp'.
  { destruct (xs_persist st); [done|]. apply not_elem_of_cons in Hp. apply Hp. }
  assert (forall st', xs_events st' = xs_events st ++ [mkXEvent kind ref] ->
    xs_persist st' = tail (xs_persist st) -> xs_cancel st' = xs_cancel st -> live l' st') as Hlive.
  { intros st' He Hq Hk. split; [|by rewrite Hq|by rewrite Hk]. by rewrite He, life_snoc, Hl, Hs. }
  destruct (xs_persist st) as [|[] rest]; cbn [head tail] in *.
  1, 2, 4: eexists _, _; (split; [reflexivity|]); split; [done|by apply Hlive].
  by apply not_elem_of_cons in Hp as [].
Qed.

Lemma cancelled_live l : holds (live l) cancelled (fun c st => (c = true -> strict = false) /\ live l st).
Proof.
  intros st [Hl Hp Hc]. unfold cancelled. destruct (xs_cancel st) as [[|n]|] eqn:E.
  - exists true, st. split; [done|]. split; [|by split; rewrite ?E]. intros _. destruct strict; [|done]. by specialize (Hc eq_refl).
  - eexists _, _. split; [reflexivity|]. split; [done|]. split; [done..|]. cbn. intros Hst. by specialize (Hc Hst).
  - exists false, st. split; [done|]. split; [done|by split; rewrite ?E].
Qed.

(** Proof rules for the ways an event is emitted. *)
Lemma holds_persist {B} l l' kind ref (k : option XErr -> M B) Q :
  lstep strict l (mkXEvent kind ref) = Some l' ->
  holds (live l') (k None) Q -> (forall e, has_emission e = true -> holds (live l') (k (Some e)) Q) ->
  holds (live l) (mthen (persist kind ref) k) Q.
Proof.
  intros Hs H1 H2. eapply holds_then; [by apply persist_live|]. intros r. apply holds_pure. intros Hr.
  destruct r as [e|]; [by apply H2|done].
Qed.

Lemma holds_emit {B} l l' kind ref (k : option XErr -> M B) Q :
  lstep strict l (mkXEvent kind ref) = Some l' ->
  (strict = false -> holds (live l) (k (Some XCancelled)) Q) ->
  holds (live l') (k None) Q -> (forall e, has_emission e = true -> holds (live l') (k (Some e)) Q) ->
  holds (live l) (mthen (emit kind ref) k) Q.
Proof.
  intros Hs H0 H1 H2. eapply (holds_then _ _ _ (fun r st =>
    (r = Some XCancelled /\ strict = false) /\ live l st \/ committed r = true /\ live l' st)).
  - unfold emit. eapply holds_then; [apply cancelled_live|]. intros c. apply holds_pure. intros Hc. destruct c.
    + apply holds_ret. auto.
    + eapply holds_post; [by apply persist_live|]. auto.
  - intros r. apply holds_or; apply holds_pure.
    + intros [-> Hst]. by apply H0.
    + intros Hr. destruct r as [e|]; [by apply H2|done].
Qed.

Lemma holds_emit_for {B} l l' d kind ref (k : option XErr -> M B) Q :
  lstep strict l (mkXEvent kind ref) = Some l' ->
  holds (live l) (k (Some XCancelled)) Q ->
  holds (live l') (k None) Q -> (forall e, has_emission e = true -> holds (live l') (k (Some e)) Q) ->
  holds (live l) (mthen (emit_for d kind ref) k) Q.
Proof.
  intros Hs H0 H1 H2. unfold emit_for. destruct d.
  - eapply holds_then; [apply (holds_ret _ _ (fun r st => r = Some XCancelled /\ live l st)); auto|].
    intros r. apply holds_pure. by intros ->.
  - by apply (holds_persist l l').
Qed.

Lemma holds_finalize {B} l l' kind ref (k : option XErr -> M B) Q :
  lstep strict l (mkXEvent kind ref) = Some l' -> (forall r, committed r = true -> holds (live l') (k r) Q) ->
  holds (live l) (mthen (finalize kind ref) k) Q.
Proof.
  intros Hs Hk. unfold finalize. eapply (holds_then _ _ _ (fun r st => committed r = true /\ live l' st)).
  - apply (holds_persist l l'); [done|by apply holds_ret|]. intros e He. by apply holds_ret.
  - intros r. apply holds_pure, Hk.
Qed.

Lemma holds_cancelled {B} l (k : bool -> M B) Q :
  (strict = false -> holds (live l) (k true) Q) -> holds (live l) (k false) Q -> holds (live l) (mthen cancelled k) Q.
Proof.
  intros H1 H2. eapply holds_then; [apply cancelled_live|]. intros c. apply holds_pure. intros Hc.
  destruct c; auto.
Qed.

(** *** Interactions and progress inside a tool call *)

Section Tools.
  Context (en : Env) (turn : Z) (callID : string).
Let here : XState -> Prop := live (LTool turn callID).

Lemma interaction_step id kind :
  one_of kind [InteractionCompleted; InteractionFailed; InteractionCancelled] = true ->
  lstep strict (LInteraction turn callID id) (mkXEvent kind (RefInteraction id)) = Some (LTool turn callID).
Proof.
  intros H. unfold lstep. cbn [xe_kind xe_ref]. rewrite String.eqb_refl, andb_true_r.
  unfold one_of in H. cbn [existsb] in H. by rewrite orb_false_r, orb_assoc in H; rewrite H.
Qed.

Lemma interaction_fails_live e kind id :
  one_of kind [InteractionCompleted; InteractionFailed; InteractionCancelled] = true ->
  holds (live (LInteraction turn callID id)) (interaction_fails e kind id) (fun _ => here).
Proof. intros H. eapply holds_finalize; [by apply interaction_step|]. intros r _. by apply holds_ret. Qed.

Lemma failure_kind_live {B} ctx id (k : Kind -> M B) Q :
  (forall kind, one_of kind [InteractionCompleted; InteractionFailed; InteractionCancelled] = true ->
     holds (live (LInteraction turn callID id)) (k kind) Q) ->
  holds (live (LInteraction turn callID id)) (mthen (interactionFailureKind ctx) k) Q.
Proof.
  intros Hk st Hst. destruct (holds_cancelled (LInteraction turn callID id) (fun c => k (if c || cc_kind ctx
    then InteractionCancelled else InteractionFailed)) Q) with st as (a & st' & E & HQ); [..|done|].
  1, 2: intros; apply Hk; by destruct (cc_kind ctx).
  exists a, st'. split; [|done]. rewrite <- E. unfold interactionFailureKind, mthen, mret. by destruct (cancelled st) as [[]|].
Qed.

Lemma interact_answer_live ctx request answer :
  holds (live (LInteraction turn callID (ir_id request))) (interact_answer ctx request answer) (fun _ => here).
Proof.
  unfold interact_answer. destruct answer as [| |response].
  1, 2: apply failure_kind_live; intros kind Hk; by apply interaction_fails_live.
  destruct (InteractionResponse_Validate response); [by apply interaction_fails_live|].
  destruct (String.eqb_spec (ip_id response) (ir_id request)) as [Hid|]; [|by apply interaction_fails_live].
  cbn [negb]. eapply holds_emit_for; [rewrite Hid; by apply interaction_step|..].
  - apply failure_kind_live. intros kind Hk. by apply interaction_fails_live.
  - by apply holds_ret.
  - intros e He. cbn [committed]. rewrite He. by apply holds_ret.
Qed.

Lemma reserve_live refused id : holds here (reserveInteraction refused id) (fun _ => here).
Proof.
  intros st [H1 H2 H3]. unfold reserveInteraction.
  repeat case_match; eexists _, _; (split; [reflexivity|by split]).
Qed.

Lemma Interact_live ctx request refused answer : holds here (Interact en ctx request refused answer) (fun _ => here).
Proof.
  unfold Interact. do 3 (case_match; [by apply holds_ret|]).
  eapply holds_then; [apply reserve_live|]. intros [e|]; [by apply holds_ret|].
  apply (holds_emit_for _ (LInteraction turn callID (ir_id request))); [reflexivity|by apply holds_ret|..].
  - destruct (NewScope (en_runID en)); [apply interact_answer_live|by apply interaction_fails_live].
  - intros e He. cbn [committed]. rewrite He. by apply interaction_fails_live.
Qed.

Lemma Report_live ctx progress : holds here (Report ctx progress) (fun _ => here).
Proof.
  unfold Report. destruct (Progress_Validate progress); [by apply holds_ret|]. case_match; [by apply holds_ret|].
  unfold emit_for. case_match; [by apply holds_ret|].
  eapply holds_post; [by apply (persist_live (LTool turn callID) (LTool turn callID))|]. by intros ? ? [].
Qed.

Lemma safeDispatch_live p : holds here (safeDispatch en p) (fun _ => here).
Proof.
  induction p; cbn [safeDispatch]; [by apply holds_ret..|eapply holds_then|eapply holds_then];
    [apply Report_live|done|apply Interact_live|done].
Qed.

End Tools.

(** *** Tool rounds *)

(** A call whose terminal occurrence fits its bound. *)
Definition fits (call : Call) : Prop :=
  Call_Validate call = None /\ string_json_size (tc_id call) + string_json_size (tc_name call) <= 892.

Lemma fits_call call : Call_Validate call = None -> is_ok (NewCall (tc_id call) (tc_name call) "{}") = true.
Proof.
  unfold Call_Validate, NewCall. destruct (validateIdentity "tool call ID" _); [done|].
  by destruct (validateIdentity "tool name" _).
Qed.

Lemma terminal_empty call kind :
  Call_Validate call = None -> isToolTerminalKind kind = true ->
  NewToolTerminalOccurrence kind (tc_id call) (tc_name call) "" "" = Ok (mkTerminal (tc_id call) (tc_name call) kind "" "").
Proof.
  intros Hv Hk. apply fits_call in Hv. unfold NewToolTerminalOccurrence, terminal_validate.
  cbn [tt_callID tt_name tt_kind tt_outcome tt_retry]. destruct (NewCall _ _ _); [|done]. rewrite Hk.
  by destruct (String.eqb kind ToolCompleted).
Qed.

Lemma terminal_failed call f :
  Call_Validate call = None -> ExecutionError_Validate f = None -> ee_callID f = tc_id call ->
  NewToolTerminalOccurrence ToolFailed (tc_id call) (tc_name call) (ee_state f) (ee_retry f)
  = Ok (mkTerminal (tc_id call) (tc_name call) ToolFailed (ee_state f) (ee_retry f)).
Proof.
  intros Hv Hf Hid. apply fits_call in Hv. unfold NewToolTerminalOccurrence, terminal_validate.
  cbn [tt_callID tt_name tt_kind tt_outcome tt_retry]. destruct (NewCall _ _ _); [|done].
  unfold NewExecutionError, ExecutionError_Validate in *. cbn [ee_callID ee_state ee_retry ee_cause]. rewrite <- Hid.
  destruct (validateIdentity "tool execution call ID" (ee_callID f)); [done|].
  destruct (elem_str (ee_state f) _) eqn:E1; [|done]. destruct (elem_str (ee_retry f) _) eqn:E2; [|done].
  cbn [negb] in *. destruct (_ && _); [done|].
  assert (String.eqb (ee_state f) "" = false) as -> by (apply String.eqb_neq; intros E; rewrite E in E1; discriminate E1).
  assert (String.eqb (ee_retry f) "" = false) as -> by (apply String.eqb_neq; intros E; rewrite E in E2; discriminate E2).
  reflexivity.
Qed.

Lemma toolTerminal_live turn call kind outcome retry o :
  fits call -> isToolTerminalKind kind = true ->
  NewToolTerminalOccurrence kind (tc_id call) (tc_name call) outcome retry = Ok o ->
  holds (live (LTool turn (tc_id call))) (toolTerminal o) (fun _ => live (LTurn turn)).
Proof.
  intros [Hv Hs] Hk Ho. unfold toolTerminal. rewrite (terminal_encodes_when_small _ _ _ _ _ _ Ho (or_introl Hs)).
  assert (o = mkTerminal (tc_id call) (tc_name call) kind outcome retry) as ->.
  { unfold NewToolTerminalOccurrence in Ho. by destruct (terminal_validate _); [|injection Ho as <-]. }
  cbn [tt_kind tt_callID]. unfold finalize.
  apply (holds_persist _ (LTurn turn)); [|by apply holds_ret|by intros; apply holds_ret].
  unfold lstep. cbn [xe_kind xe_ref]. unfold isToolTerminalKind in Hk. rewrite Hk, String.eqb_refl.
  destruct (String.eqb_spec kind ToolProgress) as [->|]; [discriminate Hk|done].
Qed.

Lemma tool_fails_live turn call e :
  fits call -> holds (live (LTool turn (tc_id call))) (tool_fails call e) (fun r st => r <> None /\ live (LTurn turn) st).
Proof.
  intros Hf. unfold tool_fails. eapply (holds_then _ _ _ (fun _ => live (LTurn turn))).
  - unfold toolFailure. pose proof (terminal_empty call ToolFailed (proj1 Hf) eq_refl) as He.
    assert (Hlive : forall outcome retry o, NewToolTerminalOccurrence ToolFailed (tc_id call) (tc_name call) outcome retry = Ok o ->
      holds (live (LTool turn (tc_id call))) (toolTerminal o) (fun _ => live (LTurn turn)))
      by (intros; eapply (toolTerminal_live turn call ToolFailed); [done|reflexivity|eassumption]).
    destruct (execution_failure e) as [f|]; [|rewrite He; by eapply Hlive].
    destruct (ExecutionError_Validate f) eqn:Ef; [rewrite He; by eapply Hlive|].
    destruct (String.eqb_spec (ee_callID f) (tc_id call)) as [Hid|]; [|rewrite He; by eapply Hlive].
    pose proof (terminal_failed call f (proj1 Hf) Ef Hid) as Hx. rewrite Hx. by eapply Hlive.
  - intros r. apply holds_ret. intros st Hst. split; [|done]. by destruct r.
Qed.

Lemma newMessage_live en l role parts : holds (live l) (newMessage en role parts) (fun _ => live l).
Proof.
  intros st [H1 H2 H3]. unfold newMessage. repeat case_match; eexists _, _; (split; [reflexivity|by split]).
Qed.

Lemma emitToolStarted_live en turn call :
  fits call ->
  holds (live (LTurn turn)) (emitToolStarted en turn call)
    (fun r st => live (match r with None => LTool turn (tc_id call) | Some _ => LTurn turn end) st).
Proof.
  intros Hf. unfold emitToolStarted. destruct (NewToolStartedOccurrence _ _ _ _ _ _ _ _); [|by apply holds_ret].
  destruct (started_Encode _); [by apply holds_ret|].
  assert (Hfail : forall e, holds (live (LTool turn (tc_id call))) (tool_fails call e)
    (fun r st => live (match r with None => LTool turn (tc_id call) | Some _ => LTurn turn end) st)).
  { intros e. eapply holds_post; [by apply tool_fails_live|]. by intros [] ? []. }
  apply (holds_emit _ (LTool turn (tc_id call))); [reflexivity|by intros; apply holds_ret|..].
  - destruct (definitionFromSnapshot _ _); [by apply holds_ret|apply Hfail].
  - intros e He. cbn [committed]. rewrite He. apply Hfail.
Qed.

Lemma dispatch_call_live en turn call :
  fits call -> holds (live (LTool turn (tc_id call))) (dispatch_call en turn call) (fun _ => live (LTurn turn)).
Proof.
  intros Hf. unfold dispatch_call.
  assert (Hfail : forall e, holds (live (LTool turn (tc_id call)))
    (let! f := tool_fails call e in mret (Err (default e f) : result XErr Message)) (fun _ => live (LTurn turn))).
  { intros e. eapply holds_then; [by apply tool_fails_live|]. intros r. apply holds_ret. by intros ? []. }
  destruct (NewScope _) as [authority|]; [|apply Hfail]. destruct (NewToolDispatchScope _ _ _ _ _ _ _ _) as [scope|]; [|apply Hfail].
  eapply holds_then; [apply safeDispatch_live|]. intros [r [e|]]; [apply Hfail|].
  assert (isToolTerminalKind (if String.eqb (tr_problem r) "" then ToolCompleted else ToolFailed) = true) as Hk
    by (by destruct (String.eqb (tr_problem r) "")).
  rewrite (terminal_empty call _ (proj1 Hf) Hk).
  eapply holds_then; [eapply toolTerminal_live; [done|exact Hk|apply terminal_empty; [apply Hf|done]]|].
  intros [e|]; [by apply holds_ret|]. destruct (ToolResult _ _ _); [apply newMessage_live|by apply holds_ret].
Qed.

Lemma round_loop_live en turn calls : Forall fits calls -> forall history,
  holds (live (LTurn turn)) (round_loop en turn calls history) (fun _ => live (LTurn turn)).
Proof.
  induction 1 as [|call calls Hf _ IH]; intros history; cbn [round_loop]; [by apply holds_ret|].
  eapply holds_then; [by apply emitToolStarted_live|]. intros [e|]; [by apply holds_ret|].
  eapply holds_then; [by apply dispatch_call_live|]. intros [m|e]; [apply IH|by apply holds_ret].
Qed.

Lemma appendToolRound_live en turn text calls history : Forall fits calls ->
  holds (live (LTurn turn)) (appendToolRound en turn text calls history) (fun _ => live (LTurn turn)).
Proof.
  intros Hf. unfold appendToolRound. destruct (validateNewToolCalls _ _); [by apply holds_ret|].
  destruct (assistant_parts _ _); [|by apply holds_ret].
  eapply holds_then; [apply newMessage_live|]. intros [m|e]; [by apply round_loop_live|by apply holds_ret].
Qed.

(** *** Turns and runs *)

(** The terminal event of the run may come next. *)
Definition ending (l : Life) : Prop :=
  match l with LRun _ => True | LTurn _ => strict = false | _ => False end.
Definition ended (st : XState) : Prop := exists l, ending l /\ live l st.

Lemma ended_run next st : live (LRun next) st -> ended st.
Proof. by exists (LRun next). Qed.

Lemma turn_step kind turn : one_of kind [TurnCompleted; TurnFailed] = true ->
  lstep strict (LTurn turn) (mkXEvent kind (RefTurn turn)) = Some (LRun (turn +32 1)).
Proof.
  unfold one_of, lstep. cbn [existsb xe_kind xe_ref]. rewrite orb_false_r, Z.eqb_refl. cbn [negb]. intros H.
  destruct (String.eqb_spec kind ModelStarted) as [->|]; [discriminate H|]. by rewrite H.
Qed.
Lemma model_step kind turn : one_of kind [ModelCompleted; ModelFailed] = true ->
  lstep strict (LModel turn) (mkXEvent kind (RefTurn turn)) = Some (LTurn turn).
Proof.
  unfold one_of, lstep. cbn [existsb xe_kind xe_ref]. rewrite orb_false_r, Z.eqb_refl. cbn [negb]. intros H.
  destruct (String.eqb_spec kind ModelDelta) as [->|]; [discriminate H|]. by rewrite H.
Qed.

Lemma turn_fails_live l turn e :
  l = LTurn turn \/ l = LModel turn /\ strict = false -> holds (live l) (turn_fails turn e) (fun _ => ended).
Proof.
  intros Hl. apply (holds_finalize _ (LRun (turn +32 1))).
  - destruct Hl as [->|[-> Hst]]; [by apply turn_step|]. unfold lstep. cbn [xe_kind xe_ref]. by rewrite Z.eqb_refl, Hst.
  - intros r _. apply holds_ret. apply ended_run.
Qed.

Lemma model_fails_live turn e : holds (live (LModel turn)) (model_fails turn e) (fun _ => ended).
Proof.
  apply (holds_finalize _ (LTurn turn)); [by apply model_step|]. intros r _.
  apply (holds_finalize _ (LRun (turn +32 1))); [by apply turn_step|]. intros r' _. apply holds_ret. apply ended_run.
Qed.

Section Turns.
  Context (en : Env) (definition : AgentDefinition).
  Hypothesis Hcalls : forall turn request recv close_fails n e,
    en_start en turn request = StartStream recv close_fails -> recv n = RecvEvent e ->
    StreamEvent_Validate e = None -> se_kind e = EventToolCall -> fits (se_call e).

Lemma model_stream_live turn request :
  holds (live (LModel turn)) (consumeStream turn (en_start en turn request))
    (fun r st => collected fits r /\ live (LModel turn) st).
Proof.
  assert (holds (live (LModel turn)) (emit ModelDelta (RefTurn turn)) (fun _ => live (LModel turn))) as Hd.
  { eapply holds_post with (Q' := fun _ => live (LModel turn)); [|done]. unfold emit.
    eapply holds_then; [apply cancelled_live|]. intros c. apply holds_pure. intros _. destruct c; [by apply holds_ret|].
    eapply holds_post; [apply (persist_live _ (LModel turn))|by intros ? ? []].
    unfold lstep. cbn [xe_kind xe_ref]. by rewrite Z.eqb_refl. }
  destruct (en_start en turn request) as [| |recv close_fails] eqn:Es; [by apply holds_ret..|].
  apply (consumeStream_holds turn recv); [done| |by intros ? ? [= ->]]. intros n e. by apply (Hcalls turn request recv close_fails).
Qed.

Lemma modelOperation_live turn history :
  holds (live (LTurn turn)) (modelOperation en definition turn history)
    (fun r st => match r with Ok (_, calls) => Forall fits calls /\ live (LTurn turn) st | Err _ => ended st end).
Proof.
  assert (Hret : forall (P : XState -> Prop) (m : M (option XErr)), holds P m (fun _ => ended) ->
    holds P (let! f := m in mret (Err f)) (fun (r : result (option XErr) (string * list Call)) st =>
      match r with Ok (_, calls) => Forall fits calls /\ live (LTurn turn) st | Err _ => ended st end)).
  { intros P m Hm. eapply holds_then; [exact Hm|]. intros r. by apply holds_ret. }
  unfold modelOperation. destruct (NewRequest _ _ _ _) as [request|]; [|apply Hret, turn_fails_live; auto].
  apply (holds_emit _ (LModel turn)).
  - unfold lstep. cbn [xe_kind xe_ref]. by rewrite Z.eqb_refl.
  - intros _. apply Hret. cbn [committed has_emission]. apply turn_fails_live. auto.
  - eapply holds_then; [apply model_stream_live|]. intros [[[[text calls] usage] metadata]|e]; apply holds_pure; intros HC.
    2: apply Hret, model_fails_live.
    apply (holds_emit _ (LTurn turn)); [by apply model_step|intros Hst; apply Hret, turn_fails_live; auto|by apply holds_ret|].
    intros e He. apply Hret, turn_fails_live. auto.
  - intros e He. apply Hret. cbn [committed]. rewrite He. apply model_fails_live.
Qed.

Lemma executeTurn_live turn history :
  holds (live (LRun turn)) (executeTurn en definition turn history)
    (fun r st => match snd r with Ok _ => live (LRun (turn +32 1)) st | Err _ => ended st end).
Proof.
  unfold executeTurn. apply (holds_emit _ (LTurn turn)).
  - unfold lstep. cbn [xe_kind xe_ref]. by rewrite Z.eqb_refl.
  - intros _. cbn [committed has_emission]. apply holds_ret. apply ended_run.
  - eapply holds_then; [apply modelOperation_live|]. intros [[text calls]|e]; [|by apply holds_ret].
    apply holds_pure. intros HC.
    assert (Hdone : forall h b, holds (live (LTurn turn))
      (let! e := emit TurnCompleted (RefTurn turn) in
       mret (h : list Message, match e with Some e => Err (Some e) | None => Ok b end))
      (fun (r : list Message * result (option XErr) bool) st =>
         match snd r with Ok _ => live (LRun (turn +32 1)) st | Err _ => ended st end)).
    { intros h b. apply (holds_emit _ (LRun (turn +32 1))); [by apply turn_step| |by apply holds_ret|].
      - intros Hst. apply holds_ret. by exists (LTurn turn).
      - intros e He. apply holds_ret. apply ended_run. }
    destruct (lenZ calls =? 0); [apply Hdone|]. eapply holds_then; [by apply appendToolRound_live|].
    intros [h [e|]]; [|apply Hdone]. eapply holds_then; [apply turn_fails_live; auto|]. intros r. by apply holds_ret.
  - intros e He. cbn [committed]. rewrite He. eapply holds_then; [apply turn_fails_live; auto|]. intros r. by apply holds_ret.
Qed.

Lemma failed_exit_live e history :
  holds ended (failed_exit e history) (fun x st => run_terminal (ex_kind x) = true /\ ended st).
Proof.
  intros st (l & Hl & Hst). destruct (cancelled_live l st Hst) as (c & st' & E & _ & Hst').
  exists (mkExit (if c then RunCancelled else RunFailed) e history), st'. unfold failed_exit, mthen. rewrite E.
  split; [done|]. split; [by destruct c|by exists l].
Qed.

Lemma turns_live n : forall turn history,
  holds (live (LRun turn)) (turns en definition n turn history) (fun x st => run_terminal (ex_kind x) = true /\ ended st).
Proof.
  induction n as [|n IH]; intros turn history; cbn [turns].
  - apply holds_ret. intros st Hst. split; [done|]. by apply ended_run in Hst.
  - eapply holds_then; [apply executeTurn_live|]. intros [h [[|]|e]]; cbn [snd].
    + apply holds_ret. intros st Hst. split; [done|]. by apply ended_run in Hst.
    + destruct (en_suspend en turn); [|apply IH]. eapply holds_then; [apply cancelled_live|]. intros c. apply holds_pure.
      intros _. destruct c; [|apply IH]. eapply holds_pre; [apply failed_exit_live|]. apply ended_run.
    + apply failed_exit_live.
Qed.

Lemma finishRun_live x : run_terminal (ex_kind x) = true ->
  holds ended (finishRun en x) (fun r st => snd r = true /\ live (LDone (ex_kind (fst r))) st).
Proof.
  intros Hx st (l & Hl & Hst). unfold finishRun.
  set (y := if en_release_fails en then mkExit RunFailed (join (ex_error x) (Some XRelease)) (ex_history x) else x).
  assert (run_terminal (ex_kind y) = true) as Hy by (by subst y; destruct (en_release_fails en)).
  revert st Hst. apply (holds_finalize _ (LDone (ex_kind y))).
  - unfold lstep. cbn [xe_kind xe_ref]. rewrite Hy. destruct l; try done. cbn in Hl. by rewrite Hl.
  - intros r Hr. by apply holds_ret.
Qed.

Lemma executeState_live history firstTurn (emitRunStart : bool) :
  holds (live (if emitRunStart then LNew firstTurn else LRun firstTurn))
    (executeState en definition history firstTurn emitRunStart)
    (fun r st => snd r = true /\ live (LDone (ex_kind (fst r))) st).
Proof.
  unfold executeState. eapply (holds_then _ _ _ (fun x st => run_terminal (ex_kind x) = true /\ ended st)).
  - destruct emitRunStart; [|apply turns_live]. apply (holds_persist _ (LRun firstTurn)); [done|apply turns_live|].
    intros e He. apply holds_ret. intros st Hst. split; [done|]. by apply ended_run in Hst.
  - intros x. apply holds_pure. intros Hx. by apply finishRun_live.
Qed.

End Turns.

End Lifecycle.

(** ** Properties *)

(** The calls a provider streams have identities whose terminal occurrence
    fits its bound (see [terminal_occurrence_overflows] for others). *)
Definition streams_fit (en : Env) : Prop :=
  forall turn request recv close_fails n e,
    en_start en turn request = StartStream recv close_fails -> recv n = RecvEvent e ->
    StreamEvent_Validate e = None -> se_kind e = EventToolCall -> fits (se_call e).


(** The events of a run from the first one of its log. *)
Definition first_life (firstTurn : Z) (emitRunStart : bool) : Life :=
  if emitRunStart then LNew firstTurn else LRun firstTurn.

Lemma run_live strict en definition history firstTurn emitRunStart st :
  streams_fit en -> PersistRefused ∉ xs_persist st -> xs_events st = [] -> (strict = true -> xs_cancel st = None) ->
  exists x st', executeState en definition history firstTurn emitRunStart st = Some ((x, true), st')
    /\ life strict (first_life firstTurn emitRunStart) (xs_events st') = Some (LDone (ex_kind x)).
Proof.
  intros Hf Hp He Hc.
  destruct (executeState_live strict (first_life firstTurn emitRunStart) en definition Hf history firstTurn emitRunStart st)
    as ([x c] & st' & E & Hx & [Hl _ _]).
  - split; [by rewrite He|done..].
  - cbn in Hx. subst c. eauto.
Qed.


(** A provider that asks for one tool in the first turn and completes the
    second, and a tool that reports progress, asks the user and succeeds. *)
Definition completed_event : StreamEvent := mkStreamEvent EventCompleted "" zero_call (mkUsage 3 4) zero_problem [].
Definition call_event (call : Call) : StreamEvent := mkStreamEvent EventToolCall "" call zero_usage zero_problem [].
Definition text_event (text : string) : StreamEvent := mkStreamEvent EventTextDelta text zero_call zero_usage zero_problem [].
Definition streaming (events : list StreamEvent) : StartResult :=
  StartStream (fun n => match events !! n with Some e => RecvEvent e | None => RecvFails end) false.
Definition live_ctx : CallerCtx := mkCallerCtx false false false false false.
Definition sample_program : CallProgram :=
  CallReports live_ctx (mkProgress "call-1" "reading") (fun _ =>
  CallInteracts live_ctx (mkInteractionRequest "ask-1" "confirm" "Read?" "{}") false
    (BrokerResponse (mkInteractionResponse "ask-1" "true")) (fun _ => CallReturns sample_result None)).
Definition sample_env (events : Z -> list StreamEvent) : Env :=
  mkEnv "run-1" sample_plan (fun _ => sample_digest) [sample_definition] 1
    (fun turn _ => streaming (events turn)) (fun _ _ _ => sample_program) (fun _ => false) false.
Definition sample_agent : AgentDefinition := mkAgentDefinition "agent" "model" 4.
Definition sample_history : list Message := [mkMessage "m-1" RoleUser [mkPart PartText "hello" "" "" "" ""]].
Definition sample_run_state (cancel : option nat) : XState := mkXState [] 1 cancel [] ["m-1"%string] [].
Definition two_turns (turn : Z) : list StreamEvent :=
  if turn =? 1 then [text_event "I will read."; call_event sample_call; completed_event] else [completed_event].

Lemma sample_call_fits : fits sample_call.
Proof. split; vm_compute; [reflexivity|discriminate]. Qed.

Lemma sample_streams_fit events :
  (forall turn e, e ∈ events turn -> se_kind e = EventToolCall -> se_call e = sample_call) ->
  streams_fit (sample_env events).
Proof.
  intros H turn request recv close_fails n e Hs Hr _ Hk. injection Hs as <- <-.
  destruct (events turn !! n) as [e'|] eqn:El; [|discriminate Hr]. injection Hr as ->.
  rewrite (H turn e (list_elem_of_lookup_2 _ _ _ El) Hk). apply sample_call_fits.
Qed.

Lemma two_turns_fit : streams_fit (sample_env two_turns).
Proof.
  apply sample_streams_fit. intros turn e. unfold two_turns. destruct (turn =? 1);
    rewrite ?elem_of_cons, elem_of_nil; intros He Hk; repeat destruct He as [->|He]; try done; discriminate Hk.
Qed.


(** The kinds of the events a run of [events] commits when it is cancelled
    after [looks] looks at its context. *)
Definition cancelled_kinds (events : Z -> list StreamEvent) (looks : nat) : option (list Kind) :=
  option_map (fun r => map xe_kind (xs_events (snd r)))
    (executeState (sample_env events) sample_agent sample_history 1 true (sample_run_state (Some looks))).

(** C36: Cancellation can leave operations without a terminal event.  A run
    cancelled just as its model operation completed commits [model.started]
    with neither [model.completed] nor [model.failed]; one cancelled just
    before [turn.completed] ends with its turn open. *)
Theorem cancellation_leaves_operations_open :
  streams_fit (sample_env two_turns)
  /\ cancelled_kinds two_turns 3 = Some [RunStarted; TurnStarted; ModelStarted; ModelDelta; TurnFailed; RunCancelled]
  /\ cancelled_kinds (fun _ => [completed_event]) 3
     = Some [RunStarted; TurnStarted; ModelStarted; ModelCompleted; RunCancelled].
Proof.
  split; [exact two_turns_fit|]. split; vm_compute; reflexivity.
Qed.

Lemma call_parts_length calls parts : call_parts calls = Ok parts -> length parts = length calls.
Proof.
  revert parts. induction calls as [|call calls IH]; intros parts H; cbn [call_parts] in H; [by injection H as <-|].
  destruct (ToolCall _ _ _); [|discriminate H]. destruct (call_parts calls); [|discriminate H].
  injection H as <-. cbn. f_equal. by apply IH.
Qed.

Lemma newMessage_too_many en role parts st :
  lenZ parts > maxMessageParts -> exists e, newMessage en role parts st = Some (Err e, st).
Proof.
  intros H. unfold newMessage. destruct (NewID _) as [id|]; [|eauto]. unfold New. destruct (NewID id); [|eauto].
  destruct (negb (validRole role)); [eauto|]. destruct (Z.gtb_spec (lenZ parts) maxMessageParts); [|lia].
  rewrite orb_true_r. eauto.
Qed.

(** C37: Model output within the limits of an operation can be impossible to
    record.  When the engine accepts a stream with text and the full 128 tool
    calls, or with tool calls and more than 1 MiB of text, the tool round
    fails before any tool runs, leaving the history and the log unchanged. *)
Theorem full_round_rejected en turn start text calls usage metadata history st0 st :
  consumeStream turn start st0 = Some (Ok (text, calls, usage, metadata), st) ->
  text <> ""%string -> lenZ calls = MaximumOperationToolCalls \/ slen text > maxPartBytes ->
  exists e, appendToolRound en turn text calls history st = Some ((history, Some e), st).
Proof.
  intros _ Htext H. unfold appendToolRound. destruct (validateNewToolCalls history calls); [by eexists|].
  unfold assistant_parts, Text. destruct (String.eqb_spec text ""); [done|].
  destruct (Z.gtb_spec (slen text) maxPartBytes); [by eexists|]. destruct H as [H|]; [|lia].
  destruct (call_parts calls) as [parts|] eqn:Ep; [|by eexists]. apply call_parts_length in Ep.
  edestruct (newMessage_too_many en RoleAssistant) as [e E]; [|unfold mthen; rewrite E; by eexists].
  rewrite lenZ_cons. unfold lenZ in *. rewrite Ep. unfold maxMessageParts, MaximumOperationToolCalls in *. lia.
Qed.

Definition many_calls : list Call := map (fun n => mkToolCall (pretty (N.of_nat n)) "read" "{}") (seq 1 128).
Definition full_stream : list StreamEvent := text_event "go" :: map call_event many_calls ++ [completed_event].

Lemma full_round_rejected_witness :
  exists st, consumeStream 1 (streaming full_stream) (sample_run_state None)
             = Some (Ok ("go"%string, many_calls, mkUsage 3 4, []), st)
    /\ exists e, appendToolRound (sample_env two_turns) 1 "go" many_calls sample_history st
                 = Some ((sample_history, Some e), st).
Proof.
  assert (consumeStream 1 (streaming full_stream) (sample_run_state None)
    = Some (Ok ("go"%string, many_calls, mkUsage 3 4, []),
            mkXState [mkXEvent ModelDelta (RefTurn 1)] 2 None [] ["m-1"%string] [])) as E by (vm_compute; reflexivity).
  eexists. split; [exact E|].
  refine (full_round_rejected (sample_env two_turns) 1 _ "go" many_calls _ _ sample_history _ _ E _ (or_introl _));
    [discriminate|vm_compute; reflexivity].
Defined.
