(* ===== verification/Snapshot.v ===== *)
(** Run snapshots (src/agent/snapshot.go): validation of the portable state of
    a run, its wire form, and that the boundaries the turn loop reaches are
    states a snapshot accepts.

    The wire form is the value [json.Marshal] encodes and [json.Decoder]
    decodes; the byte-level JSON encoding is not represented.  Sizes are Go
    [int]s far below their width. *)
From Stdlib Require Import ZArith Lia.
From stdpp Require Import base gmap list strings sorting pretty.
From S2P Require Import Prelude GoText GoOrder GoJson Event Tool Message Model Interaction Plan Dispatch AgentPlan Occurrence Execution.
Open Scope Z_scope.

Definition SnapshotVersion : string := "spice.agent.snapshot/v1alpha3".
Definition MaximumSnapshotBytes : Z := Z.shiftl 16 20.
Definition maximumSnapshotMessages : Z := 4096.
Definition maximumInteractionIDs : Z := 4096.

Definition LifecycleSuspended : string := "suspended".
Definition LifecycleCompleted : string := "completed".
Definition LifecycleFailed : string := "failed".
Definition LifecycleCancelled : string := "cancelled".

Inductive SnapshotError :=
| ErrSnapshotVersion
| ErrSnapshotAgent (e : AgentError)
| ErrSnapshotTurns
| ErrSnapshotMessages
| ErrSnapshotSequence
| ErrSnapshotNoTurn
| ErrSnapshotStatus
| ErrInteractionCount
| ErrInteractionOrder
| ErrHistoryStart
| ErrHistoryMessage (index : nat) (e : MessageError)
| ErrHistoryDuplicate (id : string)
| ErrHistoryBytes
| ErrHistoryCallRole
| ErrHistoryCallDuplicate (id : string)
| ErrHistoryResultRole
| ErrHistoryResult (id : string)
| ErrHistoryPending
| ErrWireInactive
| ErrWireKind
| ErrWireMessage (e : MessageError).

Record Snapshot := mkSnapshot {
  sn_version : string;
  sn_runID : string;
  sn_definition : AgentDefinition;
  sn_completedTurns : Z;
  sn_history : list Message;
  sn_planIdentity : PlanIdentity;
  sn_interactionIDs : list string;
  sn_lastSequence : Z;
  sn_status : string
}.

(** ** History *)

(** The maps of [validateSnapshotHistory] that concern tool calls: the calls
    without a result so far with their names, and all calls seen. *)
Record Calls := mkCalls { cl_pending : gmap string string; cl_seen : list string }.

Definition part_calls (role : Role) (part : Part) (c : Calls) : result SnapshotError Calls :=
  if String.eqb (pt_kind part) PartToolCall then
    if negb (String.eqb role RoleAssistant) then Err ErrHistoryCallRole
    else if elem_str (pt_callID part) (cl_seen c) then Err (ErrHistoryCallDuplicate (pt_callID part))
    else Ok (mkCalls (<[pt_callID part := pt_name part]> (cl_pending c)) (pt_callID part :: cl_seen c))
  else if String.eqb (pt_kind part) PartToolResult then
    if negb (String.eqb role RoleTool) then Err ErrHistoryResultRole
    else match cl_pending c !! pt_callID part with
    | Some name =>
        if negb (String.eqb name (pt_name part)) then Err (ErrHistoryResult (pt_callID part))
        else Ok (mkCalls (delete (pt_callID part) (cl_pending c)) (cl_seen c))
    | None => Err (ErrHistoryResult (pt_callID part))
    end
  else Ok c.

Fixpoint parts_calls (role : Role) (parts : list Part) (c : Calls) : result SnapshotError Calls :=
  match parts with
  | [] => Ok c
  | part :: rest => let? c := part_calls role part c in parts_calls role rest c
  end.

(** The loop over the messages; [ids] are the message identifiers seen. *)
Fixpoint history_loop (index : nat) (ids : list string) (total : Z) (c : Calls) (history : list Message)
  : result SnapshotError Calls :=
  match history with
  | [] => Ok c
  | value :: rest =>
      match Message.Validate value with
      | Some e => Err (ErrHistoryMessage index e)
      | None =>
        if elem_str (ms_id value) ids then Err (ErrHistoryDuplicate (ms_id value))
        else
          let total := total + Message.SizeBytes value in
          if total >? MaximumSnapshotBytes then Err ErrHistoryBytes
          else
            let? c := parts_calls (ms_role value) (ms_parts value) c in
            history_loop (S index) (ms_id value :: ids) total c rest
      end
  end.

(** [validateSnapshotHistory], on a non-empty history. *)
Definition validateSnapshotHistory (first : Message) (rest : list Message) : option SnapshotError :=
  if negb (String.eqb (ms_role first) RoleUser) then Some ErrHistoryStart
  else match history_loop 0 [] 0 (mkCalls ∅ []) (first :: rest) with
  | Err e => Some e
  | Ok c => if (size (cl_pending c) =? 0)%nat then None else Some ErrHistoryPending
  end.

(** ** Snapshots *)

Fixpoint interaction_loop (previous : option string) (values : list string) : option SnapshotError :=
  match values with
  | [] => None
  | value :: rest =>
      match snapshotToken "interaction ID" value 128 with
      | Some e => Some (ErrSnapshotAgent e)
      | None =>
        match previous with
        | Some p => if negb (String.ltb p value) then Some ErrInteractionOrder else interaction_loop (Some value) rest
        | None => interaction_loop (Some value) rest
        end
      end
  end.
Definition validateInteractionIDs (values : list string) : option SnapshotError :=
  if lenZ values >? maximumInteractionIDs then Some ErrInteractionCount else interaction_loop None values.

(** The checks of [Validate] before the interactions and the history. *)
Definition validate_header (s : Snapshot) : option SnapshotError :=
  if negb (String.eqb (sn_version s) SnapshotVersion) then Some ErrSnapshotVersion
  else match snapshotToken "run ID" (sn_runID s) 96 with
  | Some e => Some (ErrSnapshotAgent e)
  | None =>
    let d := sn_definition s in
    match NewAgentDefinition (ad_name d) (ad_model d) (ad_maxTurns d) with
    | Err e => Some (ErrSnapshotAgent e)
    | Ok _ =>
      if sn_completedTurns s >? ad_maxTurns d then Some ErrSnapshotTurns
      else if (lenZ (sn_history s) =? 0) || (lenZ (sn_history s) >? maximumSnapshotMessages) then Some ErrSnapshotMessages
      else match PlanIdentity_Validate (sn_planIdentity s) with
      | Some e => Some (ErrSnapshotAgent e)
      | None =>
        if (sn_lastSequence s =? 0) || (sn_lastSequence s =? maxUint64) then Some ErrSnapshotSequence
        else if String.eqb (sn_status s) LifecycleSuspended then
          if (sn_completedTurns s =? 0) || (sn_completedTurns s >=? ad_maxTurns d) then Some ErrSnapshotNoTurn else None
        else if elem_str (sn_status s) [LifecycleCompleted; LifecycleFailed; LifecycleCancelled] then None
        else Some ErrSnapshotStatus
      end
    end
  end.

Definition Snapshot_Validate (s : Snapshot) : option SnapshotError :=
  match validate_header s with
  | Some e => Some e
  | None =>
    match validateInteractionIDs (sn_interactionIDs s) with
    | Some e => Some e
    | None =>
      match sn_history s with
      | [] => Some ErrSnapshotMessages
      | first :: rest => validateSnapshotHistory first rest
      end
    end
  end.

Definition newSnapshot (runID : string) (definition : AgentDefinition) (completedTurns : Z) (history : list Message)
  (planIdentity : PlanIdentity) (interactionIDs : list string) (lastSequence : Z) (status : string)
  : result SnapshotError Snapshot :=
  let s := mkSnapshot SnapshotVersion runID definition completedTurns history planIdentity interactionIDs lastSequence status in
  match Snapshot_Validate s with Some e => Err e | None => Ok s end.

(** ** Wire form *)

Record snapshotPart := mkSnapshotPart {
  sp_kind : string; sp_text : string; sp_name : string; sp_callID : string; sp_namespace : string; sp_data : string }.
Record snapshotMessage := mkSnapshotMessage { sm_id : string; sm_role : string; sm_parts : list snapshotPart }.
Record snapshotPlanIdentity := mkSnapshotPlanIdentity {
  spi_compiled : list string; spi_compatibility : string; spi_workspace : string; spi_toolPlanID : string; spi_fingerprint : string }.
Record snapshotWire := mkSnapshotWire {
  sw_version : string;
  sw_runID : string;
  sw_definition : string * string * Z;
  sw_completedTurns : Z;
  sw_history : list snapshotMessage;
  sw_planIdentity : snapshotPlanIdentity;
  sw_interactionIDs : list string;
  sw_lastSequence : Z;
  sw_status : string
}.

(** [part.TextValue] is the text of a text part and empty otherwise. *)
Definition TextValue (part : Part) : string := if String.eqb (pt_kind part) PartText then pt_text part else "".

Definition encodeSnapshotPart (part : Part) : snapshotPart :=
  mkSnapshotPart (pt_kind part) (TextValue part) (pt_name part) (pt_callID part) (pt_namespace part) (pt_data part).

Definition encodeSnapshotMessage (value : Message) : result SnapshotError snapshotMessage :=
  match Message.Validate value with
  | Some e => Err (ErrWireMessage e)
  | None => Ok (mkSnapshotMessage (ms_id value) (ms_role value) (map encodeSnapshotPart (ms_parts value)))
  end.

(** Apply a fallible function along a list, stopping at the first error. *)
Fixpoint map_result {A B E} (f : A -> result E B) (l : list A) : result E (list B) :=
  match l with
  | [] => Ok []
  | a :: rest => let? b := f a in let? bs := map_result f rest in Ok (b :: bs)
  end.

Definition toWire (s : Snapshot) : result SnapshotError snapshotWire :=
  let? history := map_result encodeSnapshotMessage (sn_history s) in
  let d := sn_definition s in
  let p := sn_planIdentity s in
  Ok (mkSnapshotWire (sn_version s) (sn_runID s) (ad_name d, ad_model d, ad_maxTurns d) (sn_completedTurns s) history
        (mkSnapshotPlanIdentity (pi_compiled p) (pi_snapshotCompatibility p) (pi_workspaceFingerprint p)
           (pi_toolPlanID p) (pi_fingerprint p))
        (sn_interactionIDs s) (sn_lastSequence s) (sn_status s)).

Definition wire_part (r : result MessageError Part) : result SnapshotError Part :=
  match r with Ok p => Ok p | Err e => Err (ErrWireMessage e) end.

Definition decodeSnapshotPart (part : snapshotPart) : result SnapshotError Part :=
  let empty s := String.eqb s "" in
  if String.eqb (sp_kind part) PartText then
    if negb (empty (sp_name part)) || negb (empty (sp_callID part)) || negb (empty (sp_namespace part))
       || negb (slen (sp_data part) =? 0) then Err ErrWireInactive
    else wire_part (Text (sp_text part))
  else if String.eqb (sp_kind part) PartToolCall then
    if negb (empty (sp_text part)) || negb (empty (sp_namespace part)) then Err ErrWireInactive
    else wire_part (ToolCall (sp_callID part) (sp_name part) (sp_data part))
  else if String.eqb (sp_kind part) PartToolResult then
    if negb (empty (sp_text part)) || negb (empty (sp_namespace part)) then Err ErrWireInactive
    else wire_part (ToolResult (sp_callID part) (sp_name part) (sp_data part))
  else if String.eqb (sp_kind part) PartExtension then
    if negb (empty (sp_text part)) || negb (empty (sp_name part)) || negb (empty (sp_callID part)) then Err ErrWireInactive
    else wire_part (Extension (sp_namespace part) (sp_data part))
  else Err ErrWireKind.

Definition decodeSnapshotMessage (value : snapshotMessage) : result SnapshotError Message :=
  match NewID (sm_id value) with
  | Err e => Err (ErrWireMessage e)
  | Ok id =>
      let? parts := map_result decodeSnapshotPart (sm_parts value) in
      match New id (sm_role value) parts with Err e => Err (ErrWireMessage e) | Ok m => Ok m end
  end.

(** [ParseSnapshot] after the JSON decoder. *)
Definition fromWire (wire : snapshotWire) : result SnapshotError Snapshot :=
  if negb (String.eqb (sw_version wire) SnapshotVersion) then Err ErrSnapshotVersion
  else
    let? history := map_result decodeSnapshotMessage (sw_history wire) in
    let '(name, model, maxTurns) := sw_definition wire in
    match NewAgentDefinition name model maxTurns with
    | Err e => Err (ErrSnapshotAgent e)
    | Ok definition =>
      let p := sw_planIdentity wire in
      match reconstructPlanIdentity (spi_compiled p) (spi_compatibility p) (spi_workspace p) (spi_toolPlanID p) (spi_fingerprint p) with
      | Err e => Err (ErrSnapshotAgent e)
      | Ok planIdentity =>
          newSnapshot (sw_runID wire) definition (sw_completedTurns wire) history planIdentity (sw_interactionIDs wire)
            (sw_lastSequence wire) (sw_status wire)
      end
    end.

(** ** What a history must be *)

(** A tool call or a tool result of a message, with the role of the message. *)
Inductive Act := ACall (role id name : string) | AResult (role id name : string).

Definition act_of (role : Role) (part : Part) : option Act :=
  if String.eqb (pt_kind part) PartToolCall then Some (ACall role (pt_callID part) (pt_name part))
  else if String.eqb (pt_kind part) PartToolResult then Some (AResult role (pt_callID part) (pt_name part))
  else None.
Definition message_acts (m : Message) : list Act := omap (act_of (ms_role m)) (ms_parts m).
Definition history_acts (history : list Message) : list Act := mjoin (message_acts <$> history).

Lemma history_acts_cons m ms : history_acts (m :: ms) = message_acts m ++ history_acts ms.
Proof. reflexivity. Qed.
Lemma history_acts_app ms1 ms2 : history_acts (ms1 ++ ms2) = history_acts ms1 ++ history_acts ms2.
Proof. unfold history_acts. by rewrite fmap_app, join_app. Qed.

Definition calls_of (acts : list Act) : list string :=
  omap (fun a => match a with ACall _ id _ => Some id | AResult _ _ _ => None end) acts.
Definition results_of (acts : list Act) : list string :=
  omap (fun a => match a with AResult _ id _ => Some id | ACall _ _ _ => None end) acts.

(** Calls come from the assistant and results from tools, no identifier is
    called or answered twice, and a result follows the call of its name. *)
Record orderly (acts : list Act) : Prop := {
  or_call : forall role id name, ACall role id name ∈ acts -> role = RoleAssistant;
  or_result : forall role id name, AResult role id name ∈ acts -> role = RoleTool;
  or_calls : NoDup (calls_of acts);
  or_results : NoDup (results_of acts);
  or_follows : forall i role id name, acts !! i = Some (AResult role id name) ->
    exists j role', (j < i)%nat /\ acts !! j = Some (ACall role' id name)
}.
(** And every call is answered. *)
Definition settled (acts : list Act) : Prop := forall id, id ∈ calls_of acts -> id ∈ results_of acts.

(** One step of the scan on calls and results alone. *)
Definition act_step (a : Act) (c : Calls) : result SnapshotError Calls :=
  match a with
  | ACall role id name =>
      if negb (String.eqb role RoleAssistant) then Err ErrHistoryCallRole
      else if elem_str id (cl_seen c) then Err (ErrHistoryCallDuplicate id)
      else Ok (mkCalls (<[id := name]> (cl_pending c)) (id :: cl_seen c))
  | AResult role id name =>
      if negb (String.eqb role RoleTool) then Err ErrHistoryResultRole
      else match cl_pending c !! id with
      | Some name' =>
          if negb (String.eqb name' name) then Err (ErrHistoryResult id)
          else Ok (mkCalls (delete id (cl_pending c)) (cl_seen c))
      | None => Err (ErrHistoryResult id)
      end
  end.
Fixpoint scan (acts : list Act) (c : Calls) : result SnapshotError Calls :=
  match acts with [] => Ok c | a :: rest => let? c := act_step a c in scan rest c end.

Lemma scan_app acts1 acts2 c : scan (acts1 ++ acts2) c = let? c := scan acts1 c in scan acts2 c.
Proof. revert c. induction acts1 as [|a acts1 IH]; intros c; simpl; [done|]. by destruct (act_step a c). Qed.

Lemma parts_calls_scan role parts c : parts_calls role parts c = scan (omap (act_of role) parts) c.
Proof.
  revert c. induction parts as [|part parts IH]; intros c; [done|]. cbn [parts_calls].
  change (omap (act_of role) (part :: parts)) with
    (match act_of role part with Some a => a :: omap (act_of role) parts | None => omap (act_of role) parts end).
  unfold part_calls, act_of at 1. destruct (String.eqb (pt_kind part) PartToolCall).
  - cbn [scan act_step]. by repeat case_match.
  - destruct (String.eqb (pt_kind part) PartToolResult); [|apply IH]. cbn [scan act_step]. by repeat case_match.
Qed.

Definition valid_message (m : Message) : Prop := Message.Validate m = None.

(** The loop accepts exactly the lists of valid messages with distinct fresh
    identifiers whose sizes fit and whose calls and results scan. *)
Lemma history_loop_Ok history : forall index ids total c c',
  history_loop index ids total c history = Ok c' <->
  Forall valid_message history /\ NoDup (ms_id <$> history) /\ Forall (fun id => id ∉ ids) (ms_id <$> history)
  /\ (history = [] \/ total + sumZ Message.SizeBytes history <= MaximumSnapshotBytes)
  /\ scan (history_acts history) c = Ok c'.
Proof.
  induction history as [|m history IH]; intros index ids total c c'; cbn [history_loop].
  - split; [intros [= ->]|by intros (_ & _ & _ & _ & [= ->])]. repeat split; auto using Forall_nil_2, NoDup_nil_2.
  - assert (0 <= sumZ Message.SizeBytes history) by
      (apply sumZ_nonneg, Forall_forall; intros ? _; apply Message_SizeBytes_nonneg).
    rewrite fmap_cons, !Forall_cons, NoDup_cons, sumZ_cons. rewrite history_acts_cons, scan_app. unfold valid_message at 1.
    destruct (Message.Validate m) eqn:Ev; [split; [discriminate|]; by intros [[? _] _]|].
    destruct (elem_str (ms_id m) ids) eqn:Ei.
    { apply elem_str_spec in Ei. split; [discriminate|]. by intros (_ & _ & [? _] & _). }
    assert (ms_id m ∉ ids) by (rewrite <- elem_str_spec; congruence).
    destruct (Z.gtb_spec (total + Message.SizeBytes m) MaximumSnapshotBytes).
    { split; [discriminate|]. intros (_ & _ & _ & [?|?] & _); [done|lia]. }
    rewrite parts_calls_scan. fold (message_acts m).
    destruct (scan (message_acts m) c) as [c1|]; [|split; [discriminate|by intros (_ & _ & _ & _ & ?)]].
    rewrite IH. setoid_rewrite not_elem_of_cons. rewrite Forall_and.
    rewrite (Forall_forall (fun x => x <> ms_id m)).
    split; intros H3; destruct_and!; repeat split; auto; try lia.
    + intros Hin. naive_solver.
    + destruct_or!; [subst; right; rewrite sumZ_nil; lia|right; lia].
    + intros id Hid ->. naive_solver.
    + destruct_or!; [done|]. right. lia.
Qed.

(** What the maps of the scan hold after [acts]. *)
Record scanned (acts : list Act) (c : Calls) : Prop := {
  sc_seen : forall id, id ∈ cl_seen c <-> id ∈ calls_of acts;
  sc_pending : forall id name, cl_pending c !! id = Some name <->
    (exists role, ACall role id name ∈ acts) /\ id ∉ results_of acts
}.

Lemma calls_of_app a b : calls_of (a ++ b) = calls_of a ++ calls_of b.
Proof. apply omap_app. Qed.
Lemma results_of_app a b : results_of (a ++ b) = results_of a ++ results_of b.
Proof. apply omap_app. Qed.
Lemma calls_of_elem acts id : id ∈ calls_of acts <-> exists role name, ACall role id name ∈ acts.
Proof.
  unfold calls_of. rewrite list_elem_of_omap. split.
  - intros ([role id' name|] & Hin & Heq); [|done]. injection Heq as ->. eauto.
  - intros (role & name & Hin). by exists (ACall role id name).
Qed.
Lemma results_of_elem acts id : id ∈ results_of acts <-> exists role name, AResult role id name ∈ acts.
Proof.
  unfold results_of. rewrite list_elem_of_omap. split.
  - intros ([|role id' name] & Hin & Heq); [done|]. injection Heq as ->. eauto.
  - intros (role & name & Hin). by exists (AResult role id name).
Qed.

(** An identifier called once has one name. *)
Lemma call_name acts role role' id name name' :
  NoDup (calls_of acts) -> ACall role id name ∈ acts -> ACall role' id name' ∈ acts -> name = name'.
Proof.
  induction acts as [|a acts IH]; [by intros _ ?%elem_of_nil|]. rewrite !elem_of_cons.
  destruct a as [role1 id1 name1|role1 id1 name1].
  - change (calls_of (ACall role1 id1 name1 :: acts)) with (id1 :: calls_of acts). rewrite NoDup_cons, calls_of_elem.
    intros [Hn Hd] [Ha|Ha] [Hb|Hb]; try naive_solver.
  - intros Hd [Ha|Ha] [Hb|Hb]; try discriminate. by apply IH.
Qed.

Lemma orderly_nil : orderly [].
Proof. split; intros; try (by apply NoDup_nil_2); rewrite ?elem_of_nil in *; done. Qed.

Lemma orderly_snoc acts a :
  orderly (acts ++ [a]) <-> orderly acts /\
  match a with
  | ACall role id _ => role = RoleAssistant /\ id ∉ calls_of acts
  | AResult role id name => role = RoleTool /\ id ∉ results_of acts /\ exists role', ACall role' id name ∈ acts
  end.
Proof.
  assert (Hdup : forall l (x : string), NoDup (l ++ [x]) <-> NoDup l /\ x ∉ l).
  { intros l x. rewrite NoDup_app. setoid_rewrite list_elem_of_singleton. split; [|intros [? ?]; split; [done|split; [by intros y Hy ->|apply NoDup_singleton]]].
    intros (? & H & _). split; [done|]. intros Hx. by apply (H x). }
  split.
  - intros [H1 H2 H3 H4 H5]. rewrite calls_of_app in H3. rewrite results_of_app in H4. split; [split|].
    + intros role id name Hin. apply (H1 role id name). apply elem_of_app. by left.
    + intros role id name Hin. apply (H2 role id name). apply elem_of_app. by left.
    + by apply NoDup_app in H3 as [? _].
    + by apply NoDup_app in H4 as [? _].
    + intros i role id name Hi. pose proof (lookup_lt_Some _ _ _ Hi).
      destruct (H5 i role id name) as (j & role' & Hj & Hl); [by rewrite lookup_app_l|].
      exists j, role'. split; [done|]. rewrite lookup_app_l in Hl by lia. done.
    + destruct a as [role id name|role id name].
      * split; [apply (H1 role id name); apply elem_of_app; right; by apply list_elem_of_singleton|].
        by apply Hdup in H3 as [_ ?].
      * split; [apply (H2 role id name); apply elem_of_app; right; by apply list_elem_of_singleton|].
        split; [by apply Hdup in H4 as [_ ?]|].
        destruct (H5 (length acts) role id name) as (j & role' & Hj & Hl); [by rewrite lookup_app_r, Nat.sub_diag|].
        exists role'. rewrite lookup_app_l in Hl by lia. by eapply list_elem_of_lookup_2.
  - intros [[H1 H2 H3 H4 H5] Ha]. split.
    + intros role id name [Hin|Hin%list_elem_of_singleton]%elem_of_app; [eauto|]. subst a. apply Ha.
    + intros role id name [Hin|Hin%list_elem_of_singleton]%elem_of_app; [eauto|]. subst a. apply Ha.
    + rewrite calls_of_app. destruct a as [role id name|]; [|change (calls_of [AResult role id name]) with (@nil string); by rewrite app_nil_r].
      apply Hdup. split; [done|apply Ha].
    + rewrite results_of_app. destruct a as [role id name|role id name]; [change (results_of [ACall role id name]) with (@nil string); by rewrite app_nil_r|].
      apply Hdup. split; [done|apply Ha].
    + intros i role id name Hi. destruct (decide (i < length acts)%nat).
      * rewrite lookup_app_l in Hi by done. destruct (H5 i role id name Hi) as (j & role' & Hj & Hl).
        exists j, role'. split; [done|]. rewrite lookup_app_l by lia. done.
      * rewrite lookup_app_r in Hi by lia. destruct (i - length acts)%nat as [|k] eqn:Ek; [|by destruct k].
        injection Hi as ->. destruct Ha as (_ & _ & role' & [j Hj]%list_elem_of_lookup).
        pose proof (lookup_lt_Some _ _ _ Hj). exists j, role'. split; [lia|]. by rewrite lookup_app_l.
Qed.

Lemma scanned_nil : scanned [] (mkCalls ∅ []).
Proof. split; intros; [done|]. cbn. rewrite lookup_empty. split; [done|]. intros [[role Hin%elem_of_nil] _]. done. Qed.

(** One step of the scan keeps the maps and accepts exactly the orderly acts. *)
Lemma act_step_ok acts a c :
  orderly acts -> scanned acts c ->
  match act_step a c with
  | Ok c' => orderly (acts ++ [a]) /\ scanned (acts ++ [a]) c'
  | Err _ => ~ orderly (acts ++ [a])
  end.
Proof.
  intros Ho [Hs Hp]. destruct a as [role id name|role id name]; cbn [act_step].
  - destruct (String.eqb_spec role RoleAssistant) as [->|]; cbn [negb]; [|rewrite orderly_snoc; naive_solver].
    destruct (elem_str id (cl_seen c)) eqn:Ee; [apply elem_str_spec, Hs in Ee; rewrite orderly_snoc; naive_solver|].
    assert (id ∉ calls_of acts) as Hid by (rewrite <- Hs, <- elem_str_spec; congruence).
    split; [by apply orderly_snoc|]. split; cbn [cl_seen cl_pending].
    + intros id'. rewrite elem_of_cons, Hs, calls_of_app, elem_of_app. cbn. rewrite list_elem_of_singleton. tauto.
    + intros id' name'. rewrite results_of_app. cbn [results_of omap list_omap]. rewrite app_nil_r.
      destruct (decide (id' = id)) as [->|Hne].
      * rewrite lookup_insert_eq. split.
        { intros [= ->]. split; [exists RoleAssistant; apply elem_of_app; right; by apply list_elem_of_singleton|].
          intros (role & n & [i Hi]%list_elem_of_lookup)%results_of_elem.
          destruct (or_follows _ Ho i role id n Hi) as (j & role' & _ & Hj%list_elem_of_lookup_2).
          apply Hid, calls_of_elem. eauto. }
        intros [[role [Hin|Hin%list_elem_of_singleton]%elem_of_app] _]; [|naive_solver].
        exfalso. apply Hid, calls_of_elem. eauto.
      * rewrite lookup_insert_ne by done. rewrite Hp. setoid_rewrite elem_of_app. setoid_rewrite list_elem_of_singleton.
        naive_solver.
  - destruct (String.eqb_spec role RoleTool) as [->|]; cbn [negb]; [|rewrite orderly_snoc; naive_solver].
    destruct (cl_pending c !! id) as [name'|] eqn:El.
    + apply Hp in El as [[role Hcall] Hres]. destruct (String.eqb_spec name' name) as [->|Hne]; cbn [negb].
      * split; [apply orderly_snoc; eauto|]. split; cbn [cl_seen cl_pending].
        { intros id'. rewrite calls_of_app. cbn [calls_of omap list_omap]. by rewrite app_nil_r. }
        intros id' n. rewrite results_of_app, elem_of_app. change (results_of [AResult RoleTool id name]) with [id].
        rewrite list_elem_of_singleton. setoid_rewrite elem_of_app. setoid_rewrite list_elem_of_singleton.
        destruct (decide (id' = id)) as [->|Hne]; [rewrite lookup_delete_eq; naive_solver|].
        rewrite lookup_delete_ne by done. rewrite Hp. naive_solver.
      * intros [_ (_ & _ & role' & Hin)]%orderly_snoc. apply Hne. by eapply call_name; [apply Ho| |].
    + intros [_ (_ & Hres & role' & Hin)]%orderly_snoc. assert (cl_pending c !! id = Some name) by (apply Hp; eauto). congruence.
Qed.

Lemma scan_spec acts :
  match scan acts (mkCalls ∅ []) with Ok c => orderly acts /\ scanned acts c | Err _ => ~ orderly acts end.
Proof.
  induction acts as [|a acts IH] using rev_ind; [split; [apply orderly_nil|apply scanned_nil]|].
  rewrite scan_app. destruct (scan acts (mkCalls ∅ [])) as [c|e].
  - destruct IH as [Ho Hs]. pose proof (act_step_ok acts a c Ho Hs) as Ha. cbn [scan]. by destruct (act_step a c).
  - by intros [? _]%orderly_snoc.
Qed.

Lemma settled_pending acts c : scanned acts c -> (size (cl_pending c) = 0)%nat <-> settled acts.
Proof.
  intros [_ Hp]. rewrite map_size_empty_iff. split.
  - intros He id (role & name & Hin)%calls_of_elem. destruct (decide (id ∈ results_of acts)); [done|].
    assert (cl_pending c !! id = Some name) as Hl by (apply Hp; eauto). by rewrite He, lookup_empty in Hl.
  - intros Hs. apply map_empty. intros id. destruct (cl_pending c !! id) as [name|] eqn:El; [|done].
    apply Hp in El as [[role Hin] Hr]. exfalso. apply Hr, Hs, calls_of_elem. eauto.
Qed.

Lemma history_check_spec first rest :
  validateSnapshotHistory first rest = None <->
  ms_role first = RoleUser /\ Forall valid_message (first :: rest) /\ NoDup (ms_id <$> first :: rest)
  /\ sumZ Message.SizeBytes (first :: rest) <= MaximumSnapshotBytes
  /\ orderly (history_acts (first :: rest)) /\ settled (history_acts (first :: rest)).
Proof.
  unfold validateSnapshotHistory. destruct (String.eqb_spec (ms_role first) RoleUser) as [Hr|]; [|naive_solver].
  cbn [negb]. pose proof (scan_spec (history_acts (first :: rest))) as Hscan.
  destruct (history_loop _ _ _ _ _) as [c|e] eqn:El.
  - apply history_loop_Ok in El as (Hv & Hd & _ & [?|Hb] & Hc); [done|]. rewrite Hc in Hscan. destruct Hscan as [Ho Hs].
    pose proof (settled_pending _ _ Hs) as Hp. destruct (Nat.eqb_spec (size (cl_pending c)) 0); [|naive_solver].
    rewrite Z.add_0_l in Hb. naive_solver.
  - split; [discriminate|]. intros (_ & Hv & Hd & Hb & Ho & _). exfalso.
    destruct (scan _ _) as [c|] eqn:Hc in Hscan; [|done].
    assert (history_loop 0 [] 0 (mkCalls ∅ []) (first :: rest) = Ok c); [|congruence]. apply history_loop_Ok.
    rewrite Z.add_0_l. repeat split; auto. apply Forall_forall. intros id _. apply not_elem_of_nil.
Qed.

(** C27: A snapshot's history is checked exactly.  [validateSnapshotHistory]
    accepts a history iff it begins with the user's input, consists of valid
    messages with distinct identifiers of at most 16 MiB, and its tool calls
    and results match one to one: calls by the assistant, no identifier twice,
    each answered by a tool after the call and under its name. *)
Theorem history_check_exact first rest :
  validateSnapshotHistory first rest = None <->
  ms_role first = RoleUser /\ Forall valid_message (first :: rest) /\ NoDup (ms_id <$> first :: rest)
  /\ sumZ Message.SizeBytes (first :: rest) <= MaximumSnapshotBytes
  /\ orderly (history_acts (first :: rest)) /\ settled (history_acts (first :: rest)).
Proof. apply history_check_spec. Qed.

(** ** Wire round trip *)

Lemma map_result_Ok {A B E} (f : A -> result E B) l r : map_result f l = Ok r <-> Forall2 (fun a b => f a = Ok b) l r.
Proof.
  revert r. induction l as [|a l IH]; intros r; cbn [map_result].
  - split; [intros [= <-]; constructor|by intros ->%Forall2_nil_inv_l].
  - split.
    + destruct (f a) as [b|] eqn:Ef; [|discriminate]. destruct (map_result f l) as [bs|] eqn:El; [|discriminate].
      intros [= <-]. constructor; [done|by apply IH].
    + intros (b & bs & Hb & Hbs & ->)%Forall2_cons_inv_l. rewrite Hb. apply IH in Hbs. by rewrite Hbs.
Qed.

Lemma decode_encode_part part : part_strict part -> decodeSnapshotPart (encodeSnapshotPart part) = Ok part.
Proof.
  intros Hs. pose proof (strict_rebuild part Hs) as Hr. destruct Hs as [Hv Hs].
  destruct part as [kind text name callID namespace data]. unfold encodeSnapshotPart, decodeSnapshotPart, TextValue.
  unfold rebuild in Hr. unfold validPart in Hv.
  cbn [pt_kind pt_text pt_name pt_callID pt_namespace pt_data sp_kind sp_text sp_name sp_callID sp_namespace sp_data] in *.
  destruct (String.eqb_spec kind PartText) as [->|].
  { destruct Hs as (-> & -> & -> & ->). rewrite Hr. reflexivity. }
  destruct (String.eqb_spec kind PartToolCall) as [->|].
  { destruct Hs as (-> & ->). rewrite Hr. reflexivity. }
  destruct (String.eqb_spec kind PartToolResult) as [->|].
  { destruct Hs as (-> & ->). rewrite Hr. reflexivity. }
  cbn [orb] in Hv. destruct (String.eqb_spec kind PartExtension) as [->|]; [|discriminate Hv].
  destruct Hs as (-> & -> & ->). rewrite Hr. reflexivity.
Qed.

Lemma encode_decode_part w part :
  decodeSnapshotPart w = Ok part -> part_strict part /\ encodeSnapshotPart part = w.
Proof.
  destruct w as [kind text name callID namespace data]. unfold decodeSnapshotPart, wire_part.
  cbn [sp_kind sp_text sp_name sp_callID sp_namespace sp_data]. intros H.
  destruct (String.eqb_spec kind PartText) as [->|].
  { destruct (String.eqb_spec name ""), (String.eqb_spec callID ""), (String.eqb_spec namespace ""),
      (Z.eqb_spec (slen data) 0) as [Hd|]; try discriminate H. subst. destruct data; [|unfold slen in Hd; discriminate Hd].
    cbn [negb orb] in H. destruct (Text text) as [p|] eqn:Et; [|discriminate H]. injection H as ->.
    split; [by eapply built_strict, built_text|]. by apply Text_Ok in Et as (-> & _ & _). }
  destruct (String.eqb_spec kind PartToolCall) as [->|].
  { destruct (String.eqb_spec text ""), (String.eqb_spec namespace ""); try discriminate H. subst. cbn [negb orb] in H.
    destruct (ToolCall _ _ _) as [p|] eqn:Et; [|discriminate H]. injection H as ->.
    split; [by eapply built_strict, built_call|]. by apply structured_Ok in Et as (-> & _). }
  destruct (String.eqb_spec kind PartToolResult) as [->|].
  { destruct (String.eqb_spec text ""), (String.eqb_spec namespace ""); try discriminate H. subst. cbn [negb orb] in H.
    destruct (ToolResult _ _ _) as [p|] eqn:Et; [|discriminate H]. injection H as ->.
    split; [by eapply built_strict, built_result|]. by apply structured_Ok in Et as (-> & _). }
  destruct (String.eqb_spec kind PartExtension) as [->|]; [|discriminate H].
  destruct (String.eqb_spec text ""), (String.eqb_spec name ""), (String.eqb_spec callID ""); try discriminate H.
  subst. cbn [negb orb] in H. destruct (Extension _ _) as [p|] eqn:Et; [|discriminate H]. injection H as ->.
  split; [by eapply built_strict, built_extension|]. unfold Extension in Et.
  destruct (Message.validateToken _ _ _); [discriminate Et|]. by apply structured_Ok in Et as (-> & _).
Qed.

Definition strict_message (m : Message) : Prop := Forall part_strict (ms_parts m).

Lemma decode_encode_parts parts : Forall part_strict parts -> map_result decodeSnapshotPart (map encodeSnapshotPart parts) = Ok parts.
Proof. intros H. apply map_result_Ok. induction H; constructor; auto using decode_encode_part. Qed.

Lemma encode_decode_parts ws parts :
  map_result decodeSnapshotPart ws = Ok parts -> Forall part_strict parts /\ map encodeSnapshotPart parts = ws.
Proof.
  intros H%map_result_Ok. induction H as [|w part ws parts Hw _ [Hs IH]]; [done|].
  apply encode_decode_part in Hw as [Hp <-]. split; [by constructor|]. cbn. by rewrite IH.
Qed.

Lemma valid_message_New m : valid_message m <-> New (ms_id m) (ms_role m) (ms_parts m) = Ok m.
Proof.
  unfold valid_message, Message.Validate. destruct (New _ _ _) as [m'|e] eqn:En; [|done].
  apply New_Ok in En as [-> _]. by destruct m.
Qed.

(** The codecs of messages are inverse to each other. *)
Lemma message_codec m w :
  valid_message m /\ strict_message m /\ encodeSnapshotMessage m = Ok w <-> decodeSnapshotMessage w = Ok m.
Proof.
  unfold encodeSnapshotMessage, decodeSnapshotMessage. split.
  - intros (Hv & Hs & He). pose proof Hv as Hn. apply valid_message_New in Hn. unfold valid_message in Hv. rewrite Hv in He.
    injection He as <-. cbn [sm_id sm_role sm_parts]. rewrite (decode_encode_parts _ Hs).
    assert (NewID (ms_id m) = Ok (ms_id m)) as ->.
    { unfold New in Hn. unfold NewID in *. by destruct (Message.validateToken _ _ _). }
    by rewrite Hn.
  - destruct w as [id role ws]. cbn [sm_id sm_role sm_parts]. destruct (NewID id) as [id'|] eqn:Ei; [|discriminate].
    destruct (map_result _ _) as [parts|] eqn:Ep; [|discriminate]. apply encode_decode_parts in Ep as [Hs <-].
    destruct (New id' role parts) as [m'|] eqn:En; [|discriminate]. intros [= ->].
    assert (id' = id) as -> by (unfold NewID in Ei; destruct (Message.validateToken _ _ _); congruence).
    pose proof En as Hm. apply New_Ok in En as [-> _]. assert (valid_message (mkMessage id role parts)) as Hv by (by apply valid_message_New).
    split; [done|]. split; [done|]. unfold valid_message in Hv. by rewrite Hv.
Qed.

Lemma history_codec history ws :
  Forall valid_message history /\ Forall strict_message history /\ map_result encodeSnapshotMessage history = Ok ws
  <-> map_result decodeSnapshotMessage ws = Ok history.
Proof.
  rewrite !map_result_Ok. split.
  - intros (Hv & Hs & He). induction He as [|m w history ws He _ IH]; [constructor|].
    apply Forall_cons in Hv as [Hv1 Hv], Hs as [Hs1 Hs]. constructor; [by apply message_codec|auto].
  - induction 1 as [|w m ws history Hd _ (Hv & Hs & He)]; [done|].
    apply message_codec in Hd as (? & ? & ?). split_and!; by constructor.
Qed.

Lemma reconstruct_identity p :
  PlanIdentity_Validate p = None ->
  reconstructPlanIdentity (pi_compiled p) (pi_snapshotCompatibility p) (pi_workspaceFingerprint p) (pi_toolPlanID p)
    (pi_fingerprint p) = Ok p.
Proof.
  intros Hv. unfold reconstructPlanIdentity, NewPlanID. assert (PlanID_Validate (pi_toolPlanID p) = None) as ->.
  { unfold PlanIdentity_Validate in Hv. destruct (validateCompiledPlan _); [discriminate Hv|].
    destruct (PlanID_Validate _); [discriminate Hv|done]. }
  destruct p as [a b c d e]. cbn [pi_compiled pi_snapshotCompatibility pi_workspaceFingerprint pi_toolPlanID pi_fingerprint] in *.
  by rewrite Hv.
Qed.

Lemma reconstruct_fields compiled compatibility workspace id fingerprint p :
  reconstructPlanIdentity compiled compatibility workspace id fingerprint = Ok p ->
  p = mkPlanIdentity compiled compatibility workspace id fingerprint.
Proof.
  unfold reconstructPlanIdentity, NewPlanID. intros H. destruct (PlanID_Validate id); [discriminate H|].
  destruct (PlanIdentity_Validate _); [discriminate H|]. by injection H as <-.
Qed.

Lemma NewAgentDefinition_Ok name model turns d :
  NewAgentDefinition name model turns = Ok d -> d = mkAgentDefinition name model turns.
Proof. unfold NewAgentDefinition. intros H. repeat (split_match_in H; try discriminate). by injection H as <-. Qed.

Lemma header_facts s :
  validate_header s = None ->
  sn_version s = SnapshotVersion
  /\ NewAgentDefinition (ad_name (sn_definition s)) (ad_model (sn_definition s)) (ad_maxTurns (sn_definition s))
     = Ok (sn_definition s)
  /\ PlanIdentity_Validate (sn_planIdentity s) = None.
Proof.
  unfold validate_header. intros H. destruct (String.eqb_spec (sn_version s) SnapshotVersion); [|discriminate H].
  destruct (snapshotToken _ _ _); [discriminate H|]. cbn [negb] in H.
  destruct (NewAgentDefinition _ _ _) as [d|] eqn:Ed; [|discriminate H]. destruct (_ >? _); [discriminate H|].
  destruct (_ || _); [discriminate H|]. destruct (PlanIdentity_Validate _); [discriminate H|].
  split; [done|]. split; [|done]. rewrite (NewAgentDefinition_Ok _ _ _ _ Ed). by destruct (sn_definition s).
Qed.

Lemma validated_history s : Snapshot_Validate s = None -> validate_header s = None /\ Forall valid_message (sn_history s).
Proof.
  unfold Snapshot_Validate. intros H. destruct (validate_header s); [discriminate H|]. split; [done|].
  destruct (validateInteractionIDs _); [discriminate H|]. destruct (sn_history s) as [|first rest]; [done|].
  unfold validateSnapshotHistory in H. destruct (negb _); [discriminate H|].
  destruct (history_loop _ _ _ _ _) as [c|] eqn:El; [|discriminate H]. by apply history_loop_Ok in El as [? _].
Qed.

(** C29: Snapshots survive the wire.  A valid snapshot whose message parts come
    from the part constructors is encoded to a wire value that decodes to the
    same snapshot, and conversely a wire value that decodes is the encoding of
    the snapshot it decodes to, which is valid: the two forms determine each
    other, and nothing outside the encoding of a valid snapshot is accepted. *)
Theorem snapshot_wire_roundtrip s wire :
  Snapshot_Validate s = None /\ Forall strict_message (sn_history s) /\ toWire s = Ok wire <-> fromWire wire = Ok s.
Proof.
  unfold toWire, fromWire. split.
  - intros (Hv & Hs & Hw). destruct (validated_history s Hv) as [Hh Hm]. apply header_facts in Hh as (Hver & Hd & Hp).
    destruct (map_result _ _) as [ws|] eqn:Ew; [|discriminate Hw]. injection Hw as <-.
    cbn [sw_version sw_history sw_definition sw_planIdentity sw_runID sw_completedTurns sw_interactionIDs sw_lastSequence
      sw_status spi_compiled spi_compatibility spi_workspace spi_toolPlanID spi_fingerprint].
    rewrite Hver, String.eqb_refl. cbn [negb]. rewrite (proj1 (history_codec _ _) (conj Hm (conj Hs Ew))), Hd.
    rewrite (reconstruct_identity _ Hp). unfold newSnapshot. rewrite <- Hver. destruct s. cbn in *. by rewrite Hv.
  - destruct wire as [version runID [[name model] turns] completed ws [] ids sequence status].
    cbn [sw_version sw_history sw_definition sw_planIdentity sw_runID sw_completedTurns sw_interactionIDs sw_lastSequence
      sw_status spi_compiled spi_compatibility spi_workspace spi_toolPlanID spi_fingerprint]. intros H.
    destruct (String.eqb_spec version SnapshotVersion) as [->|]; [|discriminate H]. cbn [negb] in H.
    destruct (map_result decodeSnapshotMessage ws) as [history|] eqn:Eh; [|discriminate H].
    destruct (NewAgentDefinition name model turns) as [d|] eqn:Ed; [|discriminate H]. apply NewAgentDefinition_Ok in Ed as ->.
    destruct (reconstructPlanIdentity _ _ _ _ _) as [p|] eqn:Ep; [|discriminate H]. apply reconstruct_fields in Ep as ->.
    unfold newSnapshot in H. destruct (Snapshot_Validate _) eqn:Ev; [discriminate H|]. injection H as <-.
    apply history_codec in Eh as (_ & Hs & Ew). split; [done|]. split; [done|]. cbn [sn_history]. by rewrite Ew.
Qed.

(** ** The boundaries of the turn loop *)

(** A computation that leaves the run's message identifiers alone. *)
Definition keeps {A} (m : M A) : Prop := forall st a st', m st = Some (a, st') -> xs_messageIDs st' = xs_messageIDs st.

Lemma keeps_ret {A} (a : A) : keeps (mret a).
Proof. by intros st b st' [= _ <-]. Qed.
Lemma keeps_then {A B} (m : M A) (k : A -> M B) : keeps m -> (forall a, keeps (k a)) -> keeps (mthen m k).
Proof.
  intros Hm Hk st b st'. unfold mthen. destruct (m st) as [[a st1]|] eqn:E; [|discriminate]. intros H.
  rewrite (Hk a st1 b st' H). by apply (Hm st a).
Qed.
Lemma keeps_cancelled : keeps cancelled.
Proof. intros st a st'. unfold cancelled. by repeat case_match; intros [= _ <-]. Qed.
Lemma keeps_persist kind ref : keeps (persist kind ref).
Proof. intros st a st'. unfold persist. by repeat case_match; intros [= _ <-]. Qed.
Lemma keeps_reserve refused id : keeps (reserveInteraction refused id).
Proof. intros st a st'. unfold reserveInteraction. by repeat case_match; intros [= _ <-]. Qed.
Lemma keeps_out_of_fuel {A} : keeps (fun _ => None : option (A * XState)).
Proof. by intros st a st'. Qed.
#[export] Hint Resolve keeps_ret keeps_cancelled keeps_persist keeps_reserve keeps_out_of_fuel : spice.

Ltac keeps_step :=
  match goal with
  | |- keeps (mthen _ _) => apply keeps_then; [|intros ?]
  | |- keeps (match ?x with _ => _ end) => destruct x
  | |- keeps _ => solve [eauto with spice]
  end.
Ltac keeps_tac := repeat keeps_step.

Lemma keeps_emit kind ref : keeps (emit kind ref).
Proof. unfold emit. keeps_tac. Qed.
Lemma keeps_emit_for d kind ref : keeps (emit_for d kind ref).
Proof. unfold emit_for. keeps_tac. Qed.
Lemma keeps_finalize kind ref : keeps (finalize kind ref).
Proof. unfold finalize. keeps_tac. Qed.
#[export] Hint Resolve keeps_emit keeps_emit_for keeps_finalize : spice.

Lemma keeps_toolTerminal o : keeps (toolTerminal o).
Proof. unfold toolTerminal. keeps_tac. Qed.
#[export] Hint Resolve keeps_toolTerminal : spice.
Lemma keeps_tool_fails call e : keeps (tool_fails call e).
Proof. unfold tool_fails, toolFailure. keeps_tac. Qed.
Lemma keeps_turn_fails turn e : keeps (turn_fails turn e).
Proof. unfold turn_fails, turnFailure. keeps_tac. Qed.
Lemma keeps_model_fails turn e : keeps (model_fails turn e).
Proof. unfold model_fails, turnFailure, modelFailure. keeps_tac. Qed.
Lemma keeps_Interact en ctx request refused answer : keeps (Interact en ctx request refused answer).
Proof. unfold Interact, interact_answer, interaction_fails, interactionFailureKind, interactionFailure. keeps_tac. Qed.
Lemma keeps_Report ctx progress : keeps (Report ctx progress).
Proof. unfold Report. keeps_tac. Qed.
#[export] Hint Resolve keeps_tool_fails keeps_turn_fails keeps_model_fails keeps_Interact keeps_Report : spice.
Lemma keeps_safeDispatch en p : keeps (safeDispatch en p).
Proof. induction p; cbn [safeDispatch]; keeps_tac. Qed.
Lemma keeps_consume fuel : forall turn recv index text calls observed,
  keeps (consume_loop fuel turn recv index text calls observed).
Proof. induction fuel; intros; cbn [consume_loop]; keeps_tac. Qed.
#[export] Hint Resolve keeps_safeDispatch keeps_consume : spice.
Lemma keeps_consumeStream turn start : keeps (consumeStream turn start).
Proof. unfold consumeStream. keeps_tac. Qed.
Lemma keeps_emitToolStarted en turn call : keeps (emitToolStarted en turn call).
Proof. unfold emitToolStarted. keeps_tac. Qed.
#[export] Hint Resolve keeps_consumeStream keeps_emitToolStarted : spice.
Lemma keeps_modelOperation en d turn history : keeps (modelOperation en d turn history).
Proof. unfold modelOperation. keeps_tac. Qed.
#[export] Hint Resolve keeps_modelOperation : spice.

Lemma mthen_inv {A B} (m : M A) (k : A -> M B) st r :
  mthen m k st = Some r -> exists a st1, m st = Some (a, st1) /\ k a st1 = Some r.
Proof. unfold mthen. destruct (m st) as [[a st1]|]; [|done]. eauto. Qed.

(** Messages created between two states of a run. *)
Record created (ms : list Message) (st st' : XState) : Prop := {
  cr_valid : Forall valid_message ms;
  cr_strict : Forall strict_message ms;
  cr_nodup : NoDup (ms_id <$> ms);
  cr_fresh : Forall (fun id => id ∉ xs_messageIDs st) (ms_id <$> ms);
  cr_ids : forall id, id ∈ xs_messageIDs st' <-> id ∈ ms_id <$> ms \/ id ∈ xs_messageIDs st
}.

Lemma created_none st st' : xs_messageIDs st' = xs_messageIDs st -> created [] st st'.
Proof. intros H. split; try by constructor. intros id. rewrite H. cbn. rewrite elem_of_nil. tauto. Qed.

Lemma created_app ms1 ms2 st1 st2 st3 : created ms1 st1 st2 -> created ms2 st2 st3 -> created (ms1 ++ ms2) st1 st3.
Proof.
  intros [V1 S1 N1 F1 I1] [V2 S2 N2 F2 I2]. split.
  - by apply Forall_app.
  - by apply Forall_app.
  - rewrite fmap_app. apply NoDup_app. split; [done|]. split; [|done]. intros id H1 H2.
    rewrite Forall_forall in F2. apply (F2 id H2), I1. by left.
  - rewrite fmap_app. apply Forall_app. split; [done|]. eapply Forall_impl; [exact F2|]. intros id H H'. apply H, I1. by right.
  - intros id. rewrite I2, I1, fmap_app, elem_of_app. tauto.
Qed.

(** Steps that create nothing before or after. *)
Lemma created_before ms st st1 st' : xs_messageIDs st1 = xs_messageIDs st -> created ms st1 st' -> created ms st st'.
Proof. intros H Hc. change ms with ([] ++ ms). eapply created_app; [by apply created_none|done]. Qed.
Lemma created_after ms st st1 st' : created ms st st1 -> xs_messageIDs st' = xs_messageIDs st1 -> created ms st st'.
Proof. intros Hc H. rewrite <- (app_nil_r ms). eapply created_app; [done|by apply created_none]. Qed.

Lemma newMessage_created en role parts st m st' :
  newMessage en role parts st = Some (Ok m, st') -> Forall part_strict parts ->
  created [m] st st' /\ ms_role m = role /\ ms_parts m = parts.
Proof.
  unfold newMessage. intros H Hs. destruct (NewID _) as [id|] eqn:Ei; [|discriminate H].
  destruct (New id role parts) as [m'|] eqn:En; [|discriminate H].
  destruct (elem_str id (xs_messageIDs st)) eqn:Ee; [discriminate H|]. injection H as -> <-.
  pose proof En as Hn. apply New_Ok in En as [-> _]. split; [|done].
  assert (id ∉ xs_messageIDs st) by (rewrite <- elem_str_spec; congruence). split.
  - repeat constructor. by apply valid_message_New.
  - by repeat constructor.
  - apply NoDup_singleton.
  - by repeat constructor.
  - intros id'. cbn. rewrite elem_of_cons, list_elem_of_singleton. tauto.
Qed.

Definition result_act (call : Call) : Act := AResult RoleTool (tc_id call) (tc_name call).
Definition call_act (call : Call) : Act := ACall RoleAssistant (tc_id call) (tc_name call).

Lemma dispatch_call_created en turn call st m st' :
  dispatch_call en turn call st = Some (Ok m, st') -> created [m] st st' /\ message_acts m = [result_act call].
Proof.
  unfold dispatch_call. intros H. assert (Hfail : forall e, (let! f := tool_fails call e in mret (Err (default e f) : result XErr Message)) st = Some (Ok m, st') -> False).
  { intros e (f & st1 & _ & Hf)%mthen_inv. discriminate Hf. }
  destruct (NewScope _) as [authority|]; [|by apply Hfail in H].
  destruct (NewToolDispatchScope _ _ _ _ _ _ _ _) as [scope|]; [|by apply Hfail in H]. clear Hfail.
  apply mthen_inv in H as ([r de] & st1 & Hd & H). pose proof (keeps_safeDispatch _ _ _ _ _ Hd) as K1.
  destruct de as [e|]; [apply mthen_inv in H as (f & st2 & _ & Hf); discriminate Hf|].
  destruct (NewToolTerminalOccurrence _ _ _ _ _) as [o|]; [|discriminate H].
  apply mthen_inv in H as ([e|] & st2 & Ht & H); [discriminate H|]. pose proof (keeps_toolTerminal _ _ _ _ Ht) as K2.
  destruct (ToolResult _ _ _) as [part|] eqn:Ep; [|discriminate H].
  assert (part_strict part) by (by eapply built_strict, built_result).
  apply newMessage_created in H as (Hc & Hr & Hp); [|by apply Forall_singleton]. split.
  - eapply created_before; [|exact Hc]. congruence.
  - unfold message_acts. rewrite Hr, Hp. by apply structured_Ok in Ep as (-> & _).
Qed.

Lemma round_loop_created en turn calls : forall history st history' st',
  round_loop en turn calls history st = Some ((history', None), st') ->
  exists ms, history' = history ++ ms /\ created ms st st' /\ history_acts ms = result_act <$> calls.
Proof.
  induction calls as [|call calls IH]; intros history st history' st' H; cbn [round_loop] in H.
  - injection H as -> ->. exists []. rewrite app_nil_r. split; [done|]. split; [by apply created_none|done].
  - apply mthen_inv in H as (e & st1 & He & H). pose proof (keeps_emitToolStarted _ _ _ _ _ _ He) as K1.
    destruct e; [discriminate H|]. apply mthen_inv in H as ([m|e] & st2 & Hd & H); [|discriminate H].
    apply dispatch_call_created in Hd as [Hc Ha]. apply IH in H as (ms & -> & Hms & Has).
    exists (m :: ms). rewrite <- app_assoc. split; [done|]. split.
    + change (m :: ms) with ([m] ++ ms). eapply created_app; [|exact Hms]. by eapply created_before.
    + by rewrite history_acts_cons, Ha, Has.
Qed.

Lemma call_parts_acts calls parts :
  call_parts calls = Ok parts -> Forall part_strict parts /\ omap (act_of RoleAssistant) parts = call_act <$> calls.
Proof.
  revert parts. induction calls as [|call calls IH]; intros parts H; cbn [call_parts] in H; [by injection H as <-|].
  destruct (ToolCall _ _ _) as [part|] eqn:Ep; [|discriminate H].
  destruct (call_parts calls) as [ps|]; [|discriminate H]. injection H as <-. destruct (IH ps eq_refl) as [Hs Ha].
  split; [constructor; [by eapply built_strict, built_call|done]|].
  apply structured_Ok in Ep as (-> & _). by rewrite fmap_cons, <- Ha.
Qed.

Lemma assistant_parts_acts text calls parts :
  assistant_parts text calls = Ok parts -> Forall part_strict parts /\ omap (act_of RoleAssistant) parts = call_act <$> calls.
Proof.
  unfold assistant_parts. destruct (String.eqb text ""); [apply call_parts_acts|]. intros H.
  destruct (Text text) as [part|] eqn:Et; [|discriminate H]. destruct (call_parts calls) as [ps|] eqn:Ec; [|discriminate H].
  injection H as <-. apply call_parts_acts in Ec as [Hs Ha].
  split; [constructor; [by eapply built_strict, built_text|done]|]. by apply Text_Ok in Et as (-> & _).
Qed.

(** The history of a run between turns: what a snapshot asks of it, sizes
    apart, and its message identifiers are taken. *)
Record boundary (history : list Message) (st : XState) : Prop := {
  bd_user : exists first rest, history = first :: rest /\ ms_role first = RoleUser;
  bd_valid : Forall valid_message history;
  bd_strict : Forall strict_message history;
  bd_nodup : NoDup (ms_id <$> history);
  bd_taken : forall id, id ∈ ms_id <$> history -> id ∈ xs_messageIDs st;
  bd_orderly : orderly (history_acts history);
  bd_settled : settled (history_acts history)
}.

(** *** Rounds of calls and results *)

Lemma history_calls_acts history : history_calls history = calls_of (history_acts history).
Proof.
  unfold history_calls. induction history as [|m history IH]; [done|].
  rewrite history_acts_cons, calls_of_app, <- IH, fmap_cons.
  change (mjoin (ms_parts m :: (ms_parts <$> history))) with (ms_parts m ++ mjoin (ms_parts <$> history)).
  rewrite filter_app, map_app. f_equal. clear. unfold message_acts, calls_of.
  induction (ms_parts m) as [|p parts IH]; [done|]. rewrite filter_cons. cbn [omap list_omap]. unfold act_of at 1.
  destruct (String.eqb_spec (pt_kind p) PartToolCall) as [Hk|].
  - rewrite decide_True by done. cbn. f_equal. apply IH.
  - rewrite decide_False by (by intros [=]). destruct (String.eqb (pt_kind p) PartToolResult); apply IH.
Qed.

Lemma new_calls_spec calls : forall seen,
  new_calls_loop seen calls = None <-> NoDup (tc_id <$> calls) /\ Forall (fun id => id ∉ seen) (tc_id <$> calls).
Proof.
  induction calls as [|call calls IH]; intros seen; cbn [new_calls_loop].
  - split; [intros _; split; constructor|done].
  - rewrite fmap_cons, NoDup_cons, Forall_cons. destruct (elem_str (tc_id call) seen) eqn:Ee.
    + apply elem_str_spec in Ee. naive_solver.
    + assert (tc_id call ∉ seen) by (rewrite <- elem_str_spec; congruence).
      rewrite IH. setoid_rewrite not_elem_of_cons. rewrite Forall_and, (Forall_forall (fun x => x <> tc_id call)). naive_solver.
Qed.

Lemma orderly_calls calls : forall acts,
  orderly acts -> NoDup (tc_id <$> calls) -> Forall (fun id => id ∉ calls_of acts) (tc_id <$> calls) ->
  orderly (acts ++ (call_act <$> calls)).
Proof.
  induction calls as [|call calls IH]; intros acts Ho Hn Hf; [by rewrite app_nil_r|].
  rewrite fmap_cons in *. apply NoDup_cons in Hn as [Hn Hd]. apply Forall_cons in Hf as [Hc Hf].
  rewrite cons_middle, app_assoc. apply IH; [by apply orderly_snoc|done|].
  rewrite Forall_forall in Hf |- *. intros id Hid. rewrite calls_of_app, elem_of_app.
  change (calls_of [call_act call]) with [tc_id call]. rewrite list_elem_of_singleton. naive_solver.
Qed.

Lemma orderly_results calls : forall acts,
  orderly acts -> NoDup (tc_id <$> calls) -> Forall (fun id => id ∉ results_of acts) (tc_id <$> calls) ->
  Forall (fun call => call_act call ∈ acts) calls -> orderly (acts ++ (result_act <$> calls)).
Proof.
  induction calls as [|call calls IH]; intros acts Ho Hn Hf Hin; [by rewrite app_nil_r|].
  rewrite fmap_cons in *. apply NoDup_cons in Hn as [Hn Hd]. apply Forall_cons in Hf as [Hc Hf], Hin as [Hi Hin].
  rewrite cons_middle, app_assoc. apply IH; [apply orderly_snoc; split; [done|]; split; [done|]; split; [done|by exists RoleAssistant]|done|..].
  - rewrite Forall_forall in Hf |- *. intros id Hid. rewrite results_of_app, elem_of_app.
    change (results_of [result_act call]) with [tc_id call]. rewrite list_elem_of_singleton. naive_solver.
  - eapply Forall_impl; [exact Hin|]. intros x Hx. apply elem_of_app. by left.
Qed.

Lemma results_called acts id : orderly acts -> id ∈ results_of acts -> id ∈ calls_of acts.
Proof.
  intros Ho (role & name & [i Hi]%list_elem_of_lookup)%results_of_elem.
  destruct (or_follows _ Ho i role id name Hi) as (j & role' & _ & Hj%list_elem_of_lookup_2). apply calls_of_elem. eauto.
Qed.

(** A whole round keeps the calls and results of a history matched. *)
Lemma round_orderly acts calls :
  orderly acts -> settled acts -> new_calls_loop (calls_of acts) calls = None ->
  orderly (acts ++ (call_act <$> calls) ++ (result_act <$> calls))
  /\ settled (acts ++ (call_act <$> calls) ++ (result_act <$> calls)).
Proof.
  intros Ho Hs [Hn Hf]%new_calls_spec. rewrite app_assoc. split.
  - apply orderly_results; [by apply orderly_calls|done|..].
    + rewrite Forall_forall in Hf |- *. intros id Hid. rewrite results_of_app, elem_of_app.
      intros [Hr|(role & name & Hr)%results_of_elem]; [by apply (Hf id Hid), results_called|].
      apply list_elem_of_fmap in Hr as (? & ? & _). discriminate.
    + apply Forall_forall. intros call Hc. apply elem_of_app. right. by apply list_elem_of_fmap_2.
  - intros id. rewrite !calls_of_app, !results_of_app, !elem_of_app.
    rewrite !calls_of_elem, !results_of_elem. intros [[H|H]|H].
    + left. left. apply results_of_elem, Hs, calls_of_elem, H.
    + right. destruct H as (role & name & (call & Heq & Hin)%list_elem_of_fmap). injection Heq as -> -> ->.
      exists RoleTool, (tc_name call). by apply (list_elem_of_fmap_2 result_act).
    + destruct H as (role & name & (call & Heq & Hin)%list_elem_of_fmap). discriminate Heq.
Qed.

Lemma round_boundary en turn text calls history st history' st' :
  boundary history st -> appendToolRound en turn text calls history st = Some ((history', None), st') ->
  boundary history' st'.
Proof.
  intros [(first & rest & -> & Hu) Hv Hs Hn Ht Ho Hse] H. unfold appendToolRound, validateNewToolCalls in H.
  destruct (new_calls_loop _ calls) eqn:Ec; [discriminate H|]. rewrite history_calls_acts in Ec.
  destruct (assistant_parts text calls) as [parts|] eqn:Ep; [|discriminate H].
  apply assistant_parts_acts in Ep as [Hps Hpa]. apply mthen_inv in H as ([m|e] & st1 & Hm & H); [|discriminate H].
  apply newMessage_created in Hm as (Hc1 & Hrole & Hparts); [|done].
  apply round_loop_created in H as (ms & -> & Hc2 & Hms). rewrite <- app_assoc.
  pose proof (created_app _ _ _ _ _ Hc1 Hc2) as [V S N F I].
  assert (history_acts ((first :: rest) ++ [m] ++ ms)
    = history_acts (first :: rest) ++ (call_act <$> calls) ++ (result_act <$> calls)) as Hacts.
  { rewrite history_acts_app, history_acts_app, Hms. do 2 f_equal. unfold history_acts. cbn. rewrite app_nil_r.
    unfold message_acts. by rewrite Hrole, Hparts. }
  destruct (round_orderly _ _ Ho Hse Ec) as [Ho' Hse']. split; try (by rewrite Hacts).
  - by exists first, (rest ++ [m] ++ ms).
  - by apply Forall_app.
  - by apply Forall_app.
  - rewrite fmap_app. apply NoDup_app. split; [done|]. split; [|done]. intros id H1 H2.
    rewrite Forall_forall in F. by apply (F id H2), Ht.
  - intros id. rewrite fmap_app, elem_of_app, I. naive_solver.
Qed.

Lemma boundary_keep history st st' : xs_messageIDs st' = xs_messageIDs st -> boundary history st -> boundary history st'.
Proof. intros H [Hu Hv Hs Hn Ht Ho Hse]. split; try done. intros id Hid. rewrite H. auto. Qed.

Lemma turn_boundary en d turn history st history' completed st' :
  boundary history st -> executeTurn en d turn history st = Some ((history', Ok completed), st') -> boundary history' st'.
Proof.
  intros Hb H. unfold executeTurn in H. apply mthen_inv in H as (e & st1 & He & H).
  apply (boundary_keep _ _ st1 (keeps_emit _ _ _ _ _ He)) in Hb.
  destruct e as [e|]; [destruct (committed _); [apply mthen_inv in H as (f & st2 & _ & H)|]; discriminate H|].
  apply mthen_inv in H as (r & st2 & Hr & H). apply (boundary_keep _ _ st2 (keeps_modelOperation _ _ _ _ _ _ _ Hr)) in Hb.
  destruct r as [[text calls]|e]; [|discriminate H]. destruct (lenZ calls =? 0).
  - apply mthen_inv in H as (e & st3 & He3 & H). injection H as <- _ <-. eapply boundary_keep; [|exact Hb].
    apply (keeps_emit _ _ _ _ _ He3).
  - apply mthen_inv in H as ([h e] & st3 & Hround & H). destruct e as [e|].
    + apply mthen_inv in H as (f & st4 & _ & H). discriminate H.
    + apply round_boundary in Hround; [|done]. apply mthen_inv in H as (e & st4 & He4 & H). injection H as <- _ <-.
      eapply boundary_keep; [|exact Hround]. apply (keeps_emit _ _ _ _ _ He4).
Qed.

Lemma snapshot_boundary s :
  Snapshot_Validate s = None -> exists first rest, sn_history s = first :: rest /\ validateSnapshotHistory first rest = None.
Proof.
  unfold Snapshot_Validate. intros H. destruct (validate_header s); [discriminate H|].
  destruct (validateInteractionIDs _); [discriminate H|]. destruct (sn_history s) as [|first rest]; [discriminate H|]. eauto.
Qed.

Lemma history_accepted first rest st :
  boundary (first :: rest) st ->
  validateSnapshotHistory first rest = None <-> sumZ Message.SizeBytes (first :: rest) <= MaximumSnapshotBytes.
Proof.
  intros [(first' & rest' & [= <- <-] & Hu) Hv _ Hn _ Ho Hs]. rewrite history_check_spec. tauto.
Qed.



(** The snapshot of that boundary is accepted and survives the wire. *)
Example sample_snapshot_exported :
  exists history' st' s wire,
    executeTurn (sample_env two_turns) sample_agent 1 sample_history (sample_run_state None) = Some ((history', Ok false), st')
    /\ newSnapshot "run-1" sample_agent 1 history' sample_plan (xs_seen st') (xs_next st' - 1) LifecycleSuspended = Ok s
    /\ toWire s = Ok wire /\ fromWire wire = Ok s.
Proof.
  do 4 eexists. split; [vm_compute; reflexivity|]. split; [vm_compute; reflexivity|].
  split; [vm_compute; reflexivity|vm_compute; reflexivity].
Qed.
