(* ===== verification/RunLifecycle.v ===== *)
(** Suspension, local resumption and finalization of a run (src/agent/agent.go,
    src/agent/local_resume.go).

    A run is shared by its execution goroutine, any number of [Suspend] calls,
    local-resume reservations, interactions and snapshot exports.  Every
    critical section of [stateMu] is one transition of [run_step]; channel
    operations and looks at a context are transitions of their own, so that
    any interleaving of the callers is a path. *)
From Stdlib Require Import ZArith Lia.
From stdpp Require Import base gmap list strings relations.
From S2P Require Import Prelude GoText Event Message AgentPlan Snapshot.
Open Scope Z_scope.

(** [LifecycleStatus]: the persisted statuses, the transient ones of a live
    run, and the zero value of a run that has not started. *)
Inductive LifecycleStatus :=
| runStatusNone | runStatusRunning | runStatusSuspending | runStatusFinishing | runStatusResumePending
| StatusSuspended | StatusCompleted | StatusFailed | StatusCancelled.
#[export] Instance LifecycleStatus_eq : EqDecision LifecycleStatus.
Proof. solve_decision. Defined.

Definition status_text (status : LifecycleStatus) : string :=
  match status with
  | runStatusNone => ""
  | runStatusRunning => "running"
  | runStatusSuspending => "suspending"
  | runStatusFinishing => "finishing"
  | runStatusResumePending => "resume-pending"
  | StatusSuspended => LifecycleSuspended
  | StatusCompleted => LifecycleCompleted
  | StatusFailed => LifecycleFailed
  | StatusCancelled => LifecycleCancelled
  end.

(** [UnsafeSnapshotError] and the other errors of these operations. *)
Inductive RunError :=
| ErrUnsafe (status : LifecycleStatus) (activeInteractions : Z)
| ErrRunCancelled
| ErrRunContext
| ErrRunNilContext
| ErrSequenceExhausted
| ErrPreparedCommitted
| ErrPreparedAborted
| ErrBoundaryLost
| ErrInteractionActive (id : string)
| ErrInteractionUsed (id : string).

Inductive preparedState := PreparedReady | PreparedCommitted | PreparedAborted.
#[export] Instance preparedState_eq : EqDecision preparedState.
Proof. solve_decision. Defined.

(** A [Suspend] call: waiting on its channel, or returned. *)
Inductive suspend_pc := SuspendWaits | SuspendReturned (err : option RunError).

(** The execution goroutine: before [markStarted], in a turn, blocked at a
    boundary on a resume signal, blocked on the decision of a reservation, and
    the stages of its deferred finalization. *)
Inductive exec_pc :=
| ExStart
| ExWorking
| ExBlocked (signal : Z)
| ExDecision (prepared : Z)
| ExStopping
| ExCancelling
| ExDraining
| ExReleasing
| ExDone.

(** The fields of [Run] under [stateMu], the run's context, and the channels:
    [rs_answers] holds what was sent to a waiter and [rs_closed] the resume
    signals closed.  A reservation's decision channel is closed exactly when
    its state is no longer ready. *)
Record RunState := mkRunState {
  rs_status : LifecycleStatus;
  rs_started : bool;
  rs_suspendRequested : bool;
  rs_suspendWaiter : option Z;
  rs_resumeSignal : option Z;
  rs_localResume : option Z;
  rs_active : gset string;
  rs_seen : gset string;
  rs_completedTurns : Z;
  rs_history : list Message;
  rs_lastSequence : Z;
  rs_cancelled : bool;
  rs_exec : exec_pc;
  rs_suspends : gmap Z suspend_pc;
  rs_answers : gmap Z (option RunError);
  rs_closed : gset Z;
  rs_prepared : gmap Z preparedState;
  rs_fresh : Z
}.

Definition activeZ (r : RunState) : Z := Z.of_nat (size (rs_active r)).
Definition unsafe (r : RunState) : RunError := ErrUnsafe (rs_status r) (activeZ r).

(** Updates of the fields an operation writes. *)
Definition set_suspension (status : LifecycleStatus) (requested : bool) (waiter signal local : option Z) (r : RunState) : RunState :=
  mkRunState status (rs_started r) requested waiter signal local (rs_active r) (rs_seen r) (rs_completedTurns r)
    (rs_history r) (rs_lastSequence r) (rs_cancelled r) (rs_exec r) (rs_suspends r) (rs_answers r) (rs_closed r)
    (rs_prepared r) (rs_fresh r).
Definition set_exec (pc : exec_pc) (r : RunState) : RunState :=
  mkRunState (rs_status r) (rs_started r) (rs_suspendRequested r) (rs_suspendWaiter r) (rs_resumeSignal r)
    (rs_localResume r) (rs_active r) (rs_seen r) (rs_completedTurns r) (rs_history r) (rs_lastSequence r)
    (rs_cancelled r) pc (rs_suspends r) (rs_answers r) (rs_closed r) (rs_prepared r) (rs_fresh r).
Definition set_channels (suspends : gmap Z suspend_pc) (answers : gmap Z (option RunError)) (closed : gset Z)
  (prepared : gmap Z preparedState) (fresh : Z) (r : RunState) : RunState :=
  mkRunState (rs_status r) (rs_started r) (rs_suspendRequested r) (rs_suspendWaiter r) (rs_resumeSignal r)
    (rs_localResume r) (rs_active r) (rs_seen r) (rs_completedTurns r) (rs_history r) (rs_lastSequence r)
    (rs_cancelled r) (rs_exec r) suspends answers closed prepared fresh.
Definition set_interactions (active seen : gset string) (r : RunState) : RunState :=
  mkRunState (rs_status r) (rs_started r) (rs_suspendRequested r) (rs_suspendWaiter r) (rs_resumeSignal r)
    (rs_localResume r) active seen (rs_completedTurns r) (rs_history r) (rs_lastSequence r)
    (rs_cancelled r) (rs_exec r) (rs_suspends r) (rs_answers r) (rs_closed r) (rs_prepared r) (rs_fresh r).
Definition set_progress (completedTurns : Z) (history : list Message) (lastSequence : Z) (r : RunState) : RunState :=
  mkRunState (rs_status r) (rs_started r) (rs_suspendRequested r) (rs_suspendWaiter r) (rs_resumeSignal r)
    (rs_localResume r) (rs_active r) (rs_seen r) completedTurns history lastSequence
    (rs_cancelled r) (rs_exec r) (rs_suspends r) (rs_answers r) (rs_closed r) (rs_prepared r) (rs_fresh r).
Definition Cancel (r : RunState) : RunState :=
  mkRunState (rs_status r) (rs_started r) (rs_suspendRequested r) (rs_suspendWaiter r) (rs_resumeSignal r)
    (rs_localResume r) (rs_active r) (rs_seen r) (rs_completedTurns r) (rs_history r) (rs_lastSequence r)
    true (rs_exec r) (rs_suspends r) (rs_answers r) (rs_closed r) (rs_prepared r) (rs_fresh r).

Definition set_suspend (id : Z) (pc : suspend_pc) (r : RunState) : RunState :=
  set_channels (<[id := pc]> (rs_suspends r)) (rs_answers r) (rs_closed r) (rs_prepared r) (rs_fresh r) r.
(** A send on the buffered channel of a waiter. *)
Definition send_answer (id : Z) (err : option RunError) (r : RunState) : RunState :=
  set_channels (rs_suspends r) (<[id := err]> (rs_answers r)) (rs_closed r) (rs_prepared r) (rs_fresh r) r.
Definition close_signal (signal : Z) (r : RunState) : RunState :=
  set_channels (rs_suspends r) (rs_answers r) ({[signal]} ∪ rs_closed r) (rs_prepared r) (rs_fresh r) r.
Definition decide_prepared (id : Z) (state : preparedState) (r : RunState) : RunState :=
  set_channels (rs_suspends r) (rs_answers r) (rs_closed r) (<[id := state]> (rs_prepared r)) (rs_fresh r) r.

(** ** Suspend *)

(** [Suspend] up to its [select]; [id] is the call, and its channel. *)
Definition Suspend_begin (ctx : ctx_arg) (id : Z) (r : RunState) : RunState :=
  match ctx with
  | CtxNil => set_suspend id (SuspendReturned (Some ErrRunNilContext)) r
  | CtxDone => set_suspend id (SuspendReturned (Some ErrRunContext)) r
  | CtxLive =>
      if negb (bool_decide (rs_status r = runStatusRunning)) || negb (rs_started r) || rs_suspendRequested r
      then set_suspend id (SuspendReturned (Some (unsafe r))) r
      else set_suspend id SuspendWaits
             (set_suspension runStatusSuspending true (Some id) (rs_resumeSignal r) (rs_localResume r) r)
  end.

(** [case err := <-waiter]. *)
Definition Suspend_receive (id : Z) (r : RunState) : option RunState :=
  match rs_suspends r !! id, rs_answers r !! id with
  | Some SuspendWaits, Some err => Some (set_suspend id (SuspendReturned err) r)
  | _, _ => None
  end.

(** [resumeLocked]. *)
Definition resumeLocked (r : RunState) : RunState :=
  if negb (bool_decide (rs_status r = StatusSuspended)) then r
  else match rs_resumeSignal r with
  | None => r
  | Some signal =>
      close_signal signal
        (set_suspension runStatusRunning (rs_suspendRequested r) (rs_suspendWaiter r) None (rs_localResume r) r)
  end.

(** [case <-ctx.Done()]. *)
Definition Suspend_expire (id : Z) (r : RunState) : option RunState :=
  match rs_suspends r !! id with
  | Some SuspendWaits =>
      let r' :=
        if rs_suspendRequested r && bool_decide (rs_suspendWaiter r = Some id) then
          set_suspension runStatusRunning false None (rs_resumeSignal r) (rs_localResume r) r
        else if bool_decide (rs_status r = StatusSuspended) && bool_decide (is_Some (rs_resumeSignal r)) then resumeLocked r
        else r in
      Some (set_suspend id (SuspendReturned (Some ErrRunContext)) r')
  | _ => None
  end.

(** ** Local resumption *)

Definition terminal_status (status : LifecycleStatus) : bool :=
  match status with StatusCompleted | StatusFailed | StatusCancelled => true | _ => false end.

(** [PrepareLocalResume]; the reservation's identity is a fresh number. *)
Definition PrepareLocalResume (r : RunState) : result RunError Z * RunState :=
  if negb (terminal_status (rs_status r)) && rs_cancelled r then (Err ErrRunCancelled, r)
  else if negb (bool_decide (rs_status r = StatusSuspended)) || negb (bool_decide (is_Some (rs_resumeSignal r)))
     || bool_decide (is_Some (rs_localResume r)) || negb (activeZ r =? 0)
  then (Err (unsafe r), r)
  else if rs_lastSequence r =? maxUint64 then (Err ErrSequenceExhausted, r)
  else
    let id := rs_fresh r in
    (Ok id,
     set_suspension runStatusResumePending (rs_suspendRequested r) (rs_suspendWaiter r) (rs_resumeSignal r) (Some id)
       (set_channels (rs_suspends r) (rs_answers r) (rs_closed r) (<[id := PreparedReady]> (rs_prepared r)) (id + 1) r)).

(** The test of [Commit] and [Abort] that the reservation still holds. *)
Definition holds_boundary (id : Z) (r : RunState) : bool :=
  bool_decide (rs_localResume r = Some id) && bool_decide (rs_status r = runStatusResumePending)
  && bool_decide (is_Some (rs_resumeSignal r)).

Definition PreparedLocalResume_Commit (id : Z) (r : RunState) : option RunError * RunState :=
  match rs_prepared r !! id with
  | Some PreparedCommitted => (Some ErrPreparedCommitted, r)
  | Some PreparedAborted => (Some ErrPreparedAborted, r)
  | _ =>
      match rs_resumeSignal r with
      | Some signal =>
          if holds_boundary id r then
            (None, close_signal signal (decide_prepared id PreparedCommitted
                     (set_suspension runStatusRunning (rs_suspendRequested r) (rs_suspendWaiter r) None None r)))
          else (Some ErrBoundaryLost, r)
      | None => (Some ErrBoundaryLost, r)
      end
  end.

Definition PreparedLocalResume_Abort (id : Z) (r : RunState) : option RunError * RunState :=
  match rs_prepared r !! id with
  | Some PreparedCommitted => (Some ErrPreparedCommitted, r)
  | Some PreparedAborted => (None, r)
  | _ =>
      if holds_boundary id r then
        (None, decide_prepared id PreparedAborted
                 (set_suspension (if rs_cancelled r then runStatusFinishing else StatusSuspended)
                    (rs_suspendRequested r) (rs_suspendWaiter r) (rs_resumeSignal r) None r))
      else (Some ErrBoundaryLost, r)
  end.

(** ** Interactions and export *)

Definition reserve (id : string) (r : RunState) : result RunError RunState :=
  if negb (bool_decide (rs_status r = runStatusRunning)) || negb (rs_started r) then Err (unsafe r)
  else if bool_decide (id ∈ rs_active r) then Err (ErrInteractionActive id)
  else if bool_decide (id ∈ rs_seen r) then Err (ErrInteractionUsed id)
  else Ok (set_interactions ({[id]} ∪ rs_active r) ({[id]} ∪ rs_seen r) r).

Definition releaseInteraction (id : string) (r : RunState) : RunState :=
  set_interactions (rs_active r ∖ {[id]}) (rs_seen r) r.

(** [ExportSnapshot], up to the construction of the snapshot. *)
Definition ExportSnapshot (r : RunState) : option RunError :=
  if negb (bool_decide (rs_status r = StatusSuspended)) && negb (terminal_status (rs_status r)) then Some (unsafe r)
  else if negb (activeZ r =? 0) then Some (unsafe r)
  else None.

(** ** The execution goroutine *)

Definition markStarted (started : bool) (r : RunState) : RunState :=
  mkRunState (if started then runStatusRunning else rs_status r) started (rs_suspendRequested r) (rs_suspendWaiter r)
    (rs_resumeSignal r) (rs_localResume r) (rs_active r) (rs_seen r) (rs_completedTurns r) (rs_history r)
    (rs_lastSequence r) (rs_cancelled r) (if started then ExWorking else ExStopping) (rs_suspends r) (rs_answers r)
    (rs_closed r) (rs_prepared r) (rs_fresh r).

(** [suspendAtBoundary] up to its [select].  The resume signal is fresh. *)
Definition suspendAtBoundary (r : RunState) : RunState :=
  if negb (rs_suspendRequested r) then r
  else
    let answered err r := match rs_suspendWaiter r with Some id => send_answer id err r | None => r end in
    if negb (activeZ r =? 0) then
      let failure := ErrUnsafe runStatusSuspending (activeZ r) in
      set_suspension runStatusRunning false None (rs_resumeSignal r) (rs_localResume r) (answered (Some failure) r)
    else
      let signal := rs_fresh r in
      set_suspension StatusSuspended false None (Some signal) (rs_localResume r)
        (set_exec (ExBlocked signal)
           (answered None (set_channels (rs_suspends r) (rs_answers r) (rs_closed r) (rs_prepared r) (signal + 1) r))).

(** The arms of its [select], and the wait for a decision. *)
Definition boundary_cancelled (r : RunState) : RunState :=
  match rs_localResume r with
  | None => set_exec ExStopping
              (set_suspension runStatusFinishing (rs_suspendRequested r) (rs_suspendWaiter r) (rs_resumeSignal r) None r)
  | Some id => set_exec (ExDecision id) r
  end.
Definition boundary_resumed (r : RunState) : RunState :=
  set_exec (if rs_cancelled r then ExStopping else ExWorking) r.

(** [beginFinalization]: the critical section, the cancellation, the wait for
    the active interactions. *)
Definition beginFinalization (r : RunState) : RunState :=
  let r' := set_exec ExCancelling r in
  match rs_suspendRequested r, rs_suspendWaiter r with
  | true, Some id =>
      set_suspension runStatusFinishing false None (rs_resumeSignal r) (rs_localResume r)
        (send_answer id (Some (ErrUnsafe runStatusFinishing (activeZ r))) r')
  | requested, waiter => set_suspension runStatusFinishing requested waiter (rs_resumeSignal r) (rs_localResume r) r'
  end.

Definition terminal_kind_status (kind : Kind) : LifecycleStatus :=
  if String.eqb kind RunCompleted then StatusCompleted
  else if String.eqb kind RunCancelled then StatusCancelled else StatusFailed.

Definition recordTerminal (kind : Kind) (history : list Message) (r : RunState) : RunState :=
  set_exec ExDone (set_progress (rs_completedTurns r) history (rs_lastSequence r)
    (set_suspension (terminal_kind_status kind) (rs_suspendRequested r) (rs_suspendWaiter r) (rs_resumeSignal r)
       (rs_localResume r) r)).

(** ** The run as a transition system *)

(** Places where the execution goroutine may commit events. *)
Definition emits (pc : exec_pc) : bool :=
  match pc with ExStart | ExWorking | ExReleasing => true | _ => false end.

Inductive run_step : RunState -> RunState -> Prop :=
| step_suspend ctx id r : rs_suspends r !! id = None -> run_step r (Suspend_begin ctx id r)
| step_receive id r r' : Suspend_receive id r = Some r' -> run_step r r'
| step_expire id r r' : Suspend_expire id r = Some r' -> run_step r r'
| step_prepare r : run_step r (snd (PrepareLocalResume r))
| step_commit id r : is_Some (rs_prepared r !! id) -> run_step r (snd (PreparedLocalResume_Commit id r))
| step_abort id r : is_Some (rs_prepared r !! id) -> run_step r (snd (PreparedLocalResume_Abort id r))
| step_reserve id r r' : reserve id r = Ok r' -> run_step r r'
| step_release id r : id ∈ rs_active r -> run_step r (releaseInteraction id r)
| step_cancel r : run_step r (Cancel r)
| step_sequence sequence r : emits (rs_exec r) = true \/ rs_active r <> ∅ ->
    run_step r (set_progress (rs_completedTurns r) (rs_history r) sequence r)
| step_start started r : rs_exec r = ExStart -> run_step r (markStarted started r)
| step_inert r : rs_exec r = ExStart -> run_step r (set_exec ExStopping r)
| step_record turn history r : rs_exec r = ExWorking -> run_step r (set_progress turn history (rs_lastSequence r) r)
| step_boundary r : rs_exec r = ExWorking -> run_step r (suspendAtBoundary r)
| step_leave r : rs_exec r = ExWorking -> run_step r (set_exec ExStopping r)
| step_boundary_cancelled signal r : rs_exec r = ExBlocked signal -> rs_cancelled r = true -> run_step r (boundary_cancelled r)
| step_boundary_resumed signal r : rs_exec r = ExBlocked signal -> signal ∈ rs_closed r -> run_step r (boundary_resumed r)
| step_decided id r : rs_exec r = ExDecision id -> rs_prepared r !! id <> Some PreparedReady -> run_step r (set_exec ExStopping r)
| step_finalize r : rs_exec r = ExStopping -> run_step r (beginFinalization r)
| step_cancel_own r : rs_exec r = ExCancelling -> run_step r (set_exec ExDraining (Cancel r))
| step_drained r : rs_exec r = ExDraining -> rs_active r = ∅ -> run_step r (set_exec ExReleasing r)
| step_terminal kind history r : rs_exec r = ExReleasing -> run_step r (recordTerminal kind history r)
| step_uncommitted r : rs_exec r = ExReleasing -> run_step r (set_exec ExDone r).

(** A run as [commitPaused] registers it: new, or resumed from a snapshot. *)
Definition new_run (history : list Message) : RunState :=
  mkRunState runStatusNone false false None None None ∅ ∅ 0 history 0 false ExStart ∅ ∅ ∅ ∅ 0.
Definition resumed_run (completedTurns : Z) (history : list Message) (lastSequence : Z) (seen : gset string) : RunState :=
  mkRunState runStatusRunning true false None None None ∅ seen completedTurns history lastSequence false ExWorking ∅ ∅ ∅ ∅ 0.

Inductive registered : RunState -> Prop :=
| registered_new history : registered (new_run history)
| registered_resumed turns history sequence seen : registered (resumed_run turns history sequence seen).

Definition run_reachable (r : RunState) : Prop := exists r0, registered r0 /\ rtc run_step r0 r.

(** ** Invariant *)

(** What the status, the resume signal and the reservation are at each place
    of the execution goroutine. *)
Definition live_status (status : LifecycleStatus) : Prop := status = runStatusRunning \/ status = runStatusSuspending.

Definition exec_ok (r : RunState) : Prop :=
  match rs_exec r with
  | ExStart => rs_status r = runStatusNone /\ rs_started r = false /\ rs_resumeSignal r = None /\ rs_localResume r = None
  | ExWorking => live_status (rs_status r) /\ rs_resumeSignal r = None /\ rs_localResume r = None
  | ExBlocked signal =>
      signal < rs_fresh r /\
      ((signal ∉ rs_closed r /\ rs_resumeSignal r = Some signal
        /\ ((rs_status r = StatusSuspended /\ rs_localResume r = None)
            \/ (rs_status r = runStatusResumePending
                /\ exists id, rs_localResume r = Some id /\ rs_prepared r !! id = Some PreparedReady)
            \/ (rs_status r = runStatusFinishing /\ rs_localResume r = None /\ rs_cancelled r = true)))
       \/ (signal ∈ rs_closed r /\ rs_resumeSignal r = None /\ rs_localResume r = None /\ live_status (rs_status r)))
  | ExDecision id =>
      rs_cancelled r = true
      /\ ((rs_status r = runStatusResumePending /\ rs_localResume r = Some id /\ rs_prepared r !! id = Some PreparedReady
           /\ exists signal, rs_resumeSignal r = Some signal /\ signal ∉ rs_closed r /\ signal < rs_fresh r)
          \/ (rs_localResume r = None /\ is_Some (rs_prepared r !! id) /\ rs_prepared r !! id <> Some PreparedReady
              /\ (live_status (rs_status r) \/ rs_status r = runStatusFinishing)))
  | ExStopping =>
      rs_localResume r = None
      /\ (live_status (rs_status r) \/ rs_status r = runStatusFinishing \/ rs_status r = runStatusNone)
  | ExCancelling | ExDraining | ExReleasing => rs_localResume r = None /\ rs_status r = runStatusFinishing
  | ExDone => rs_localResume r = None /\ (rs_status r = runStatusFinishing \/ terminal_status (rs_status r) = true)
  end.

(** No interaction is active once finalization has waited for them. *)
Definition drained (pc : exec_pc) : bool := match pc with ExReleasing | ExDone => true | _ => false end.

(** Places a run reaches only after it has started. *)
Definition running_pc (pc : exec_pc) : bool :=
  match pc with ExWorking | ExBlocked _ | ExDecision _ => true | _ => false end.

Record run_inv (r : RunState) : Prop := {
  ri_suspending : rs_status r = runStatusSuspending -> rs_suspendRequested r = true;
  ri_request : rs_suspendRequested r = true ->
    rs_status r = runStatusSuspending \/ rs_status r = runStatusFinishing /\ rs_exec r = ExStopping;
  ri_waiter : rs_suspendRequested r = true <-> is_Some (rs_suspendWaiter r);
  ri_waiting : forall id, rs_suspendWaiter r = Some id ->
    rs_suspends r !! id = Some SuspendWaits /\ rs_answers r !! id = None;
  ri_answered : forall id, rs_suspends r !! id = Some SuspendWaits ->
    rs_suspendWaiter r = Some id \/ is_Some (rs_answers r !! id);
  ri_called : forall id, is_Some (rs_answers r !! id) -> is_Some (rs_suspends r !! id);
  ri_started : rs_started r = true
    \/ running_pc (rs_exec r) = false /\ ~ live_status (rs_status r) /\ rs_suspendRequested r = false;
  ri_exec : exec_ok r;
  ri_closed : forall signal, signal ∈ rs_closed r -> signal < rs_fresh r;
  ri_fresh : forall id, is_Some (rs_prepared r !! id) -> id < rs_fresh r;
  ri_ready : forall id, rs_prepared r !! id = Some PreparedReady -> rs_localResume r = Some id;
  ri_drained : drained (rs_exec r) = true -> rs_active r = ∅;
  ri_active : rs_active r ⊆ rs_seen r;
  ri_quiet : rs_status r = StatusSuspended \/ rs_status r = runStatusResumePending -> rs_active r = ∅
}.

Lemma registered_inv r : registered r -> run_inv r.
Proof.
  intros [history|turns history sequence seen]; split; cbn; unfold live_status; intros;
    rewrite ?lookup_empty, ?elem_of_empty in *; try set_solver; naive_solver.
Qed.

(** Case analysis on the invariant of a state at a known place. *)
Ltac run_solve :=
  unfold live_status, exec_ok in *; cbn in *; simplify_eq; destruct_and?; try done;
  try (by naive_solver); try (by set_solver); try (by simplify_map_eq; naive_solver).

Lemma suspend_inv ctx id r : rs_suspends r !! id = None -> run_inv r -> run_inv (Suspend_begin ctx id r).
Proof.
  intros Hid [H0 H1 H2 H3 H4 H5 H6 H7 H8 H9 H10 H11 H12 H13].
  assert (Hret : forall e, run_inv (set_suspend id (SuspendReturned e) r)).
  { intros e. split; try done; cbn.
    - intros id' Hw. destruct (H3 id' Hw). rewrite lookup_insert_ne by congruence. done.
    - intros id'. destruct (decide (id' = id)) as [->|]; [by rewrite lookup_insert_eq|rewrite lookup_insert_ne by done; auto].
    - intros id' Ha. destruct (decide (id' = id)) as [->|]; [rewrite lookup_insert_eq; eauto|rewrite lookup_insert_ne by done; auto]. }
  unfold Suspend_begin. destruct ctx; [apply Hret| |apply Hret].
  case_bool_decide as Es; cbn [negb orb]; [|apply Hret]. destruct (rs_started r) eqn:Et; [|apply Hret].
  destruct (rs_suspendRequested r) eqn:Er; [apply Hret|]. cbn [negb orb].
  assert (rs_answers r !! id = None) as Ha.
  { destruct (rs_answers r !! id) eqn:Ea; [|done]. destruct (H5 id); [by rewrite Ea|congruence]. }
  split; cbn; try done; try (by left).
  - intros id' [= <-]. by rewrite lookup_insert_eq.
  - intros id'. destruct (decide (id' = id)) as [->|]; [auto|rewrite lookup_insert_ne by done; intros Hw].
    right. destruct (H4 id' Hw) as [Hw'|]; [|done]. assert (false = true) by (apply H2; eauto). discriminate.
  - intros id' Ha'. destruct (decide (id' = id)) as [->|]; [rewrite lookup_insert_eq; eauto|rewrite lookup_insert_ne by done; auto].
  - clear -H7 Es. unfold exec_ok, live_status in *. cbn. rewrite Es in *. destruct (rs_exec r); naive_solver.
  - by intros [?|?].
Qed.

(** A [Suspend] call returning touches nothing else. *)
Lemma returned_inv id err r :
  rs_suspends r !! id = Some SuspendWaits -> rs_suspendWaiter r <> Some id -> run_inv r ->
  run_inv (set_suspend id (SuspendReturned err) r).
Proof.
  intros Hid Hne [H0 H1 H2 H3 H4 H5 H6 H7 H8 H9 H10 H11 H12 H13]. split; try done; cbn.
  - intros id' Hw. destruct (H3 id' Hw). rewrite lookup_insert_ne by congruence. done.
  - intros id'. destruct (decide (id' = id)) as [->|]; [by rewrite lookup_insert_eq|rewrite lookup_insert_ne by done; auto].
  - intros id' Ha. destruct (decide (id' = id)) as [->|]; [rewrite lookup_insert_eq; eauto|rewrite lookup_insert_ne by done; auto].
Qed.

Lemma receive_inv id r r' : Suspend_receive id r = Some r' -> run_inv r -> run_inv r'.
Proof.
  unfold Suspend_receive. intros H Hi. destruct (rs_suspends r !! id) as [[|]|] eqn:Es; [|discriminate H..].
  destruct (rs_answers r !! id) as [err|] eqn:Ea; [|discriminate H]. injection H as <-. apply returned_inv; [done| |done].
  intros Hw. destruct (ri_waiting _ Hi id Hw) as [_ ?]. congruence.
Qed.

(** Resuming a suspended run: the signal is closed and the run runs. *)
Lemma resumeLocked_inv r : run_inv r -> run_inv (resumeLocked r).
Proof.
  intros [H0 H1 H2 H3 H4 H5 H6 H7 H8 H9 H10 H11 H12 H13]. unfold resumeLocked. case_bool_decide as Es; cbn [negb]; [|by split].
  destruct (rs_resumeSignal r) as [signal|] eqn:Eg; [|by split]. rewrite Es in *.
  assert (signal < rs_fresh r /\ rs_localResume r = None /\ exists s, rs_exec r = ExBlocked s /\ s = signal) as (Hf & Hl & s & Hx & ->).
  { clear -H7 Es Eg. unfold exec_ok, live_status in *. rewrite Es, Eg in *. destruct (rs_exec r); naive_solver. }
  split; cbn; try done.
  - intros Hr. destruct (H1 Hr) as [?|[? _]]; discriminate.
  - left. destruct H6 as [|[Hr _]]; [done|]. by rewrite Hx in Hr.
  - unfold exec_ok. cbn. rewrite Hx. split; [done|]. right. split_and!; [set_solver|done..|by left].
  - intros s. rewrite elem_of_union, elem_of_singleton. intros [->|]; auto.
  - by intros [?|?].
Qed.

Lemma expire_inv id r r' : Suspend_expire id r = Some r' -> run_inv r -> run_inv r'.
Proof.
  unfold Suspend_expire. intros H Hi. destruct (rs_suspends r !! id) as [[|]|] eqn:Es; [|discriminate H..].
  injection H as <-. destruct (rs_suspendRequested r && bool_decide (rs_suspendWaiter r = Some id)) eqn:Ec.
  - apply andb_true_iff in Ec as [Er Hw]. apply bool_decide_eq_true in Hw.
    destruct Hi as [H0 H1 H2 H3 H4 H5 H6 H7 H8 H9 H10 H11 H12 H13].
    assert (rs_started r = true) as Hst by (destruct H6 as [|(_ & _ & ?)]; congruence).
    split; cbn; try done; try (by left).
    + intros id'. destruct (decide (id' = id)) as [->|]; [by rewrite lookup_insert_eq|rewrite lookup_insert_ne by done].
      intros Hw'. destruct (H4 id' Hw') as [|]; [congruence|auto].
    + intros id' Ha. destruct (decide (id' = id)) as [->|]; [rewrite lookup_insert_eq; eauto|rewrite lookup_insert_ne by done; auto].
    + clear -H1 H7 Er. specialize (H1 Er). unfold exec_ok, live_status in *. cbn.
      destruct H1 as [Est|[Est Hx]]; [rewrite Est in *; destruct (rs_exec r); naive_solver|rewrite Hx in *; naive_solver].
    + by intros [?|?].
  - assert (rs_suspendWaiter r <> Some id) as Hne.
    { intros Hw. rewrite Hw, bool_decide_eq_true_2, andb_true_r in Ec by done.
      destruct (ri_waiter r Hi) as [_ Hx]. rewrite Hx in Ec by eauto. discriminate. }
    case_match; [|by apply returned_inv]. apply resumeLocked_inv in Hi. apply returned_inv; [..|done].
    + unfold resumeLocked. by repeat case_match.
    + unfold resumeLocked. by repeat case_match.
Qed.

Lemma prepare_inv r : run_inv r -> run_inv (snd (PrepareLocalResume r)).
Proof.
  intros Hi. unfold PrepareLocalResume. destruct (negb (terminal_status _) && _); [done|].
  case_bool_decide as Es; cbn [negb orb]; [|done]. case_bool_decide as Eg; cbn [negb orb]; [|done].
  case_bool_decide as El; cbn [negb orb]; [done|]. destruct (negb (activeZ r =? 0)); [done|].
  destruct (_ =? maxUint64); [done|]. cbn [snd].
  destruct Hi as [H0 H1 H2 H3 H4 H5 H6 H7 H8 H9 H10 H11 H12 H13]. destruct Eg as [signal Eg]. rewrite Es in *.
  assert (rs_localResume r = None) as Hl by (by apply eq_None_not_Some).
  assert (rs_exec r = ExBlocked signal /\ signal < rs_fresh r /\ signal ∉ rs_closed r) as (Hx & Hf & Hc).
  { clear -H7 Es Eg. unfold exec_ok, live_status in *. rewrite Es, Eg in *. destruct (rs_exec r); naive_solver. }
  split; cbn; try done.
  - intros Hr. destruct (H1 Hr) as [?|[? _]]; discriminate.
  - left. destruct H6 as [|[Hr _]]; [done|]. by rewrite Hx in Hr.
  - unfold exec_ok. cbn. rewrite Hx. split; [lia|]. left. split; [done|]. split; [done|]. right; left. split; [done|].
    exists (rs_fresh r). by rewrite lookup_insert_eq.
  - intros s Hs. specialize (H8 s Hs). lia.
  - intros id. destruct (decide (id = rs_fresh r)) as [->|]; [lia|]. rewrite lookup_insert_ne by done. intros Hs.
    specialize (H9 id Hs). lia.
  - intros id. destruct (decide (id = rs_fresh r)) as [->|]; [done|]. rewrite lookup_insert_ne by done. intros Hr.
    apply H10 in Hr. congruence.
  - intros _. apply H13. by left.
Qed.

(** What holding the boundary means. *)
Lemma holds_boundary_spec id r signal :
  run_inv r -> rs_resumeSignal r = Some signal -> holds_boundary id r = true ->
  rs_status r = runStatusResumePending /\ rs_localResume r = Some id /\ rs_prepared r !! id = Some PreparedReady
  /\ signal < rs_fresh r /\ signal ∉ rs_closed r /\ rs_suspendRequested r = false
  /\ (rs_exec r = ExBlocked signal \/ rs_exec r = ExDecision id /\ rs_cancelled r = true).
Proof.
  unfold holds_boundary. intros Hi Eg Hh. apply andb_true_iff in Hh as [Hh _]. apply andb_true_iff in Hh as [Hl Hs].
  apply bool_decide_eq_true in Hl, Hs. split; [done|]. split; [done|].
  pose proof (ri_exec r Hi) as Hx. unfold exec_ok, live_status in Hx. rewrite Hs, Hl, Eg in Hx.
  assert (rs_suspendRequested r = false) as ->.
  { pose proof (ri_request r Hi) as Hr. rewrite Hs in Hr. destruct (rs_suspendRequested r); [|done].
    by destruct (Hr eq_refl) as [?|[? _]]. }
  destruct (rs_exec r); try naive_solver.
Qed.

Lemma decided_ready id id' state r :
  (forall id, rs_prepared r !! id = Some PreparedReady -> rs_localResume r = Some id) -> rs_localResume r = Some id ->
  state <> PreparedReady -> <[id := state]> (rs_prepared r) !! id' <> Some PreparedReady.
Proof.
  intros H Hl Hs. destruct (decide (id' = id)) as [->|]; [rewrite lookup_insert_eq; congruence|].
  rewrite lookup_insert_ne by done. intros Hr%H. congruence.
Qed.

Lemma resume_commit_inv id r : run_inv r -> run_inv (snd (PreparedLocalResume_Commit id r)).
Proof.
  intros Hi. unfold PreparedLocalResume_Commit.
  enough (run_inv (snd (match rs_resumeSignal r with
      | Some signal => if holds_boundary id r then
            (None, close_signal signal (decide_prepared id PreparedCommitted
                     (set_suspension runStatusRunning (rs_suspendRequested r) (rs_suspendWaiter r) None None r)))
          else (Some ErrBoundaryLost, r)
      | None => (Some ErrBoundaryLost, r) end))) as H by (by destruct (rs_prepared r !! id) as [[]|]).
  destruct (rs_resumeSignal r) as [signal|] eqn:Eg; [|done]. destruct (holds_boundary id r) eqn:Eh; [|done].
  destruct (holds_boundary_spec id r signal Hi Eg Eh) as (Hs & Hl & Hp & Hf & Hc & Hr & Hx).
  destruct Hi as [H0 H1 H2 H3 H4 H5 H6 H7 H8 H9 H10 H11 H12 H13]. cbn [snd]. split; cbn; try done.
  - by rewrite Hr.
  - left. destruct H6 as [|[Hr' _]]; [done|]. by destruct Hx as [Hx|[Hx _]]; rewrite Hx in Hr'.
  - unfold exec_ok. cbn. destruct Hx as [Hx|[Hx Hca]]; rewrite Hx.
    + split; [done|]. right. split_and!; [set_solver|done..|by left].
    + split; [done|]. right. rewrite lookup_insert_eq. split_and!; [done|by eexists|done|left; by left].
  - intros s. rewrite elem_of_union, elem_of_singleton. intros [->|]; auto.
  - intros id'. destruct (decide (id' = id)) as [->|]; [intros _; apply H9; eauto|rewrite lookup_insert_ne by done; auto].
  - intros id' Hr'. by apply (decided_ready id id' PreparedCommitted r) in Hr'.
  - by intros [?|?].
Qed.

Lemma abort_inv id r : run_inv r -> run_inv (snd (PreparedLocalResume_Abort id r)).
Proof.
  intros Hi. unfold PreparedLocalResume_Abort.
  enough (run_inv (snd (if holds_boundary id r then
        (None, decide_prepared id PreparedAborted
                 (set_suspension (if rs_cancelled r then runStatusFinishing else StatusSuspended)
                    (rs_suspendRequested r) (rs_suspendWaiter r) (rs_resumeSignal r) None r))
      else (Some ErrBoundaryLost, r)))) as H by (by destruct (rs_prepared r !! id) as [[]|]).
  destruct (holds_boundary id r) eqn:Eh; [|done].
  destruct (rs_resumeSignal r) as [signal|] eqn:Eg.
  2: { unfold holds_boundary in Eh. rewrite Eg, andb_false_r in Eh. discriminate. }
  destruct (holds_boundary_spec id r signal Hi Eg Eh) as (Hs & Hl & Hp & Hf & Hc & Hr & Hx).
  destruct Hi as [H0 H1 H2 H3 H4 H5 H6 H7 H8 H9 H10 H11 H12 H13]. cbn [snd]. split; cbn; try done.
  - by destruct (rs_cancelled r).
  - by rewrite Hr.
  - left. destruct H6 as [|[Hr' _]]; [done|]. by destruct Hx as [Hx|[Hx _]]; rewrite Hx in Hr'.
  - unfold exec_ok. cbn. destruct Hx as [Hx|[Hx Hca]]; rewrite Hx.
    + split; [done|]. left. split; [done|]. split; [done|]. destruct (rs_cancelled r); [right; right|left]; done.
    + split; [done|]. right. rewrite lookup_insert_eq, Hca. split_and!; [done|by eexists|done|by right].
  - intros id'. destruct (decide (id' = id)) as [->|]; [intros _; apply H9; eauto|rewrite lookup_insert_ne by done; auto].
  - intros id' Hr'. by apply (decided_ready id id' PreparedAborted r) in Hr'.
  - intros _. apply H13. by right.
Qed.

Lemma interaction_reserve_inv id r r' : reserve id r = Ok r' -> run_inv r -> run_inv r'.
Proof.
  unfold reserve. intros H Hi. case_bool_decide as Es; [|discriminate H]. cbn [negb orb] in H.
  destruct (rs_started r); [|discriminate H]. cbn [negb] in H. case_bool_decide as Ea; [discriminate H|].
  case_bool_decide as Eb; [discriminate H|]. injection H as <-. destruct Hi as [H0 H1 H2 H3 H4 H5 H6 H7 H8 H9 H10 H11 H12 H13].
  split; cbn; try done; [|set_solver|rewrite Es; by intros [?|?]]. intros Hd. exfalso. unfold exec_ok in H7. rewrite Es in H7.
  destruct (rs_exec r); try discriminate Hd; [by destruct H7|]. destruct H7 as [_ [?|?]]; discriminate.
Qed.

Lemma release_interaction_inv id r : run_inv r -> run_inv (releaseInteraction id r).
Proof.
  intros [H0 H1 H2 H3 H4 H5 H6 H7 H8 H9 H10 H11 H12 H13]. split; cbn; try done; [|set_solver|].
  - intros Hd. rewrite (H11 Hd). set_solver.
  - intros Hs. rewrite (H13 Hs). set_solver.
Qed.

Lemma cancel_run_inv r : run_inv r -> run_inv (Cancel r).
Proof.
  intros [H0 H1 H2 H3 H4 H5 H6 H7 H8 H9 H10 H11 H12 H13]. split; cbn; try done. clear -H7. unfold exec_ok in *. cbn.
  destruct (rs_exec r); naive_solver.
Qed.

Lemma progress_inv turns history sequence r : run_inv r -> run_inv (set_progress turns history sequence r).
Proof. intros [H0 H1 H2 H3 H4 H5 H6 H7 H8 H9 H10 H11 H12 H13]. by split. Qed.

(** Moving the execution goroutine. *)
Lemma move_inv pc r :
  run_inv r -> exec_ok (set_exec pc r) -> rs_exec r <> ExStopping ->
  (running_pc pc = true -> rs_started r = true) -> (drained pc = true -> rs_active r = ∅) -> run_inv (set_exec pc r).
Proof.
  intros [H0 H1 H2 H3 H4 H5 H6 H7 H8 H9 H10 H11 H12 H13] Hx Hn Hr Hd. split; cbn; try done.
  - intros Hq. destruct (H1 Hq) as [|[_ ?]]; [by left|done].
  - destruct H6 as [|(_ & Hl & Hq)]; [by left|]. destruct (running_pc pc); [left; auto|by right].
Qed.

Lemma start_inv started r : rs_exec r = ExStart -> run_inv r -> run_inv (markStarted started r).
Proof.
  intros Hx [H0 H1 H2 H3 H4 H5 H6 H7 H8 H9 H10 H11 H12 H13]. unfold exec_ok in H7. rewrite Hx in H7. destruct H7 as (Hs & _ & Hg & Hl).
  assert (rs_suspendRequested r = false) as Hr.
  { rewrite Hs in H1. destruct (rs_suspendRequested r); [|done]. by destruct (H1 eq_refl) as [?|[? _]]. }
  destruct started; split; cbn; try done; try (by rewrite Hr); try (by left); unfold exec_ok, live_status; cbn.
  - auto.
  - by intros [?|?].
  - right. split; [done|]. rewrite Hs. naive_solver.
  - split; [done|]. auto.
Qed.

(** Answering the waiting [Suspend] call. *)
Lemma answer_inv id err r status signal pc :
  run_inv r -> rs_suspendRequested r = true -> rs_suspendWaiter r = Some id -> status <> runStatusSuspending ->
  exec_ok (set_suspension status false None signal (rs_localResume r) (set_exec pc (send_answer id err r))) ->
  (drained pc = true \/ status = StatusSuspended \/ status = runStatusResumePending -> rs_active r = ∅) ->
  run_inv (set_suspension status false None signal (rs_localResume r) (set_exec pc (send_answer id err r))).
Proof.
  intros [H0 H1 H2 H3 H4 H5 H6 H7 H8 H9 H10 H11 H12 H13] Hr Hw Hs Hx Hd. assert (rs_started r = true) by (destruct H6 as [|(_ & _ & ?)]; congruence).
  split; cbn; try done; try (by left); try (by intros; apply Hd; auto).
  - intros id' Hid'. right. destruct (decide (id' = id)) as [->|]; [rewrite lookup_insert_eq; eauto|].
    rewrite lookup_insert_ne by done. destruct (H4 id' Hid') as [|]; [congruence|done].
  - intros id'. destruct (decide (id' = id)) as [->|]; [intros _; destruct (H3 id Hw) as [-> _]; eauto|].
    rewrite lookup_insert_ne by done. auto.
Qed.

Lemma working_facts r : rs_exec r = ExWorking -> run_inv r ->
  rs_started r = true /\ live_status (rs_status r) /\ rs_resumeSignal r = None /\ rs_localResume r = None.
Proof.
  intros Hx Hi. pose proof (ri_exec r Hi) as H. unfold exec_ok in H. rewrite Hx in H. split; [|done].
  destruct (ri_started r Hi) as [|[Hr _]]; [done|]. by rewrite Hx in Hr.
Qed.

Lemma set_fresh_inv n r : rs_fresh r <= n -> run_inv r ->
  run_inv (set_channels (rs_suspends r) (rs_answers r) (rs_closed r) (rs_prepared r) n r).
Proof.
  intros Hn [H0 H1 H2 H3 H4 H5 H6 H7 H8 H9 H10 H11 H12 H13]. split; cbn; try done.
  - clear -H7 Hn. unfold exec_ok in *. cbn. destruct (rs_exec r); try done.
    + destruct H7 as [Hf H7]. split; [lia|done].
    + destruct H7 as [Hc [(Hs & Hl & Hp & signal & Hg & Hn' & Hf)|H7]]; [|auto]. split; [done|]. left.
      split; [done|]. split; [done|]. split; [done|]. exists signal. split; [done|]. split; [done|lia].
  - intros s Hs. specialize (H8 s Hs). lia.
  - intros id Hs. specialize (H9 id Hs). lia.
Qed.

Lemma active_empty r : activeZ r = 0 -> rs_active r = ∅.
Proof. unfold activeZ. intros H. apply leibniz_equiv, size_empty_iff. lia. Qed.

Lemma set_exec_id r : set_exec (rs_exec r) r = r.
Proof. by destruct r. Qed.

Lemma boundary_inv r : rs_exec r = ExWorking -> run_inv r -> run_inv (suspendAtBoundary r).
Proof.
  intros Hx Hi. destruct (working_facts r Hx Hi) as (Hst & Hl & Hg & Hloc). unfold suspendAtBoundary.
  destruct (rs_suspendRequested r) eqn:Er; cbn [negb]; [|done].
  destruct (rs_suspendWaiter r) as [id|] eqn:Ew.
  2: { destruct (ri_waiter r Hi) as [Hw _]. rewrite Ew in Hw. by destruct (Hw Er). }
  destruct (Z.eqb_spec (activeZ r) 0) as [Ha|]; cbn [negb].
  - cbn [set_channels rs_suspendWaiter]. rewrite Ew.
    assert (rs_fresh r <= rs_fresh r + 1) as Hn by lia. pose proof (set_fresh_inv _ r Hn Hi) as Hi'.
    apply (answer_inv id None _ StatusSuspended (Some (rs_fresh r)) (ExBlocked (rs_fresh r)) Hi'); try done.
    + unfold exec_ok. cbn. split; [lia|]. left. split_and!; [|done|by left].
      intros Hc. apply (ri_closed r Hi) in Hc. lia.
    + intros _. by apply active_empty.
  - rewrite <- (set_exec_id (send_answer _ _ r)). change (rs_exec (send_answer _ _ r)) with (rs_exec r). rewrite Hx.
    apply answer_inv; try done; [|by intros [?|[?|?]]]. unfold exec_ok. cbn. split; [by left|done].
Qed.

Lemma boundary_cancelled_inv signal r : rs_exec r = ExBlocked signal -> rs_cancelled r = true -> run_inv r -> run_inv (boundary_cancelled r).
Proof.
  intros Hx Hc Hi. pose proof (ri_exec r Hi) as H. unfold exec_ok in H. rewrite Hx in H. destruct H as [Hf H].
  assert (rs_started r = true) as Hst by (destruct (ri_started r Hi) as [|[Hr _]]; [done|by rewrite Hx in Hr]).
  unfold boundary_cancelled. destruct (rs_localResume r) as [id|] eqn:El.
  - destruct H as [(Hn & Hg & [[_ ?]|[(Hs & id' & [= <-] & Hp)|(_ & ? & _)]])|(_ & _ & ? & _)]; [done| |done..].
    apply move_inv; [done| |by rewrite Hx|done|done]. unfold exec_ok. cbn. split; [done|]. left. split_and!; try done. by exists signal.
  - destruct Hi as [H0 H1 H2 H3 H4 H5 H6 H7 H8 H9 H10 H11 H12 H13]. split; cbn; try done; try (by left).
    + intros _. by right.
    + split; [done|]. by right; left.
    + intros id Hr. apply H10 in Hr. congruence.
    + by intros [?|?].
Qed.

Lemma boundary_resumed_inv signal r :
  rs_exec r = ExBlocked signal -> signal ∈ rs_closed r -> run_inv r -> run_inv (boundary_resumed r).
Proof.
  intros Hx Hc Hi. pose proof (ri_exec r Hi) as H. unfold exec_ok in H. rewrite Hx in H.
  destruct H as [_ [[Hn _]|(_ & Hg & Hl & Hs)]]; [done|].
  assert (rs_started r = true) as Hst by (destruct (ri_started r Hi) as [|[Hr _]]; [done|by rewrite Hx in Hr]).
  unfold boundary_resumed. apply move_inv; [done| |by rewrite Hx|done|by destruct (rs_cancelled r)].
  unfold exec_ok. cbn. destruct (rs_cancelled r); [split; [done|by left]|done].
Qed.

Lemma decided_inv id r :
  rs_exec r = ExDecision id -> rs_prepared r !! id <> Some PreparedReady -> run_inv r -> run_inv (set_exec ExStopping r).
Proof.
  intros Hx Hp Hi. pose proof (ri_exec r Hi) as H. unfold exec_ok in H. rewrite Hx in H.
  destruct H as [_ [(_ & _ & ? & _)|(Hl & _ & _ & Hs)]]; [done|].
  apply move_inv; [done| |by rewrite Hx|done..]. unfold exec_ok. cbn. split; [done|]. destruct Hs; auto.
Qed.

Lemma leave_inv r : rs_exec r = ExWorking \/ rs_exec r = ExStart -> run_inv r -> run_inv (set_exec ExStopping r).
Proof.
  intros Hx Hi. pose proof (ri_exec r Hi) as H. unfold exec_ok in H.
  apply move_inv; [done| |by destruct Hx as [-> | ->]|done..]. unfold exec_ok. cbn.
  destruct Hx as [Hx|Hx]; rewrite Hx in H; [destruct H as (Hs & _ & Hl)|destruct H as (Hs & _ & _ & Hl)]; split; auto.
Qed.

Lemma finalize_inv r : rs_exec r = ExStopping -> run_inv r -> run_inv (beginFinalization r).
Proof.
  intros Hx Hi. pose proof (ri_exec r Hi) as H. unfold exec_ok in H. rewrite Hx in H. destruct H as [Hl _].
  unfold beginFinalization. destruct (rs_suspendRequested r) eqn:Er.
  - destruct (rs_suspendWaiter r) as [id|] eqn:Ew.
    2: { destruct (ri_waiter r Hi) as [Hw _]. rewrite Ew in Hw. by destruct (Hw Er). }
    change (send_answer id (Some (ErrUnsafe runStatusFinishing (activeZ r))) (set_exec ExCancelling r))
      with (set_exec ExCancelling (send_answer id (Some (ErrUnsafe runStatusFinishing (activeZ r))) r)).
    apply answer_inv; try done. by intros [?|[?|?]].
  - destruct Hi as [H0 H1 H2 H3 H4 H5 H6 H7 H8 H9 H10 H11 H12 H13]. split; cbn; try done; try (by rewrite <- Er).
    + destruct H6 as [|]; [by left|]. right. split; [done|]. split; [by intros [?|?]|done].
    + by intros [?|?].
Qed.

Lemma cancel_own_inv r : rs_exec r = ExCancelling -> run_inv r -> run_inv (set_exec ExDraining (Cancel r)).
Proof.
  intros Hx Hi. pose proof (ri_exec r Hi) as H. unfold exec_ok in H. rewrite Hx in H.
  apply move_inv; [by apply cancel_run_inv|done|by cbn; rewrite Hx|done..].
Qed.

Lemma drained_inv r : rs_exec r = ExDraining -> rs_active r = ∅ -> run_inv r -> run_inv (set_exec ExReleasing r).
Proof.
  intros Hx Ha Hi. pose proof (ri_exec r Hi) as H. unfold exec_ok in H. rewrite Hx in H.
  apply move_inv; [done|done|by rewrite Hx|done..].
Qed.

Lemma terminal_inv kind history r : rs_exec r = ExReleasing -> run_inv r -> run_inv (recordTerminal kind history r).
Proof.
  intros Hx Hi. pose proof (ri_exec r Hi) as H. unfold exec_ok in H. rewrite Hx in H. destruct H as [Hl Hs].
  assert (terminal_status (terminal_kind_status kind) = true) as Ht by (unfold terminal_kind_status; by repeat case_match).
  destruct Hi as [H0 H1 H2 H3 H4 H5 H6 H7 H8 H9 H10 H11 H12 H13].
  assert (rs_suspendRequested r = false) as Hr.
  { destruct (rs_suspendRequested r); [|done]. destruct (H1 eq_refl) as [?|[_ ?]]; congruence. }
  split; cbn; try done; try (by rewrite Hr).
  - intros E. by rewrite E in Ht.
  - destruct H6 as [|]; [by left|]. right. split; [done|]. split; [|done]. intros [E|E]; by rewrite E in Ht.
  - split; [done|by right].
  - intros _. apply H11. by rewrite Hx.
  - intros [E|E]; by rewrite E in Ht.
Qed.

Lemma uncommitted_inv r : rs_exec r = ExReleasing -> run_inv r -> run_inv (set_exec ExDone r).
Proof.
  intros Hx Hi. pose proof (ri_exec r Hi) as H. unfold exec_ok in H. rewrite Hx in H. destruct H as [Hl Hs].
  apply move_inv; [done| |by rewrite Hx|done|]; [split; [done|by left]|]. intros _. apply (ri_drained r Hi). by rewrite Hx.
Qed.

Lemma run_step_inv r r' : run_step r r' -> run_inv r -> run_inv r'.
Proof.
  intros Hs Hi. destruct Hs; eauto using suspend_inv, receive_inv, expire_inv, prepare_inv, resume_commit_inv, abort_inv,
    interaction_reserve_inv, release_interaction_inv, cancel_run_inv, progress_inv, start_inv, boundary_inv, leave_inv,
    boundary_cancelled_inv, boundary_resumed_inv, decided_inv, finalize_inv, cancel_own_inv, drained_inv, terminal_inv,
    uncommitted_inv.
Qed.

Lemma run_reachable_inv r : run_reachable r -> run_inv r.
Proof.
  intros (r0 & Hr & Hs). apply registered_inv in Hr. induction Hs as [|r0 r1 r Hs _ IH]; [done|].
  apply IH. by eapply run_step_inv.
Qed.

(** ** The contract of a run *)

(** What a host may rely on: a run works, pauses at a boundary, may be
    reserved there, and ends.  [sp_data] is the state a snapshot exports. *)
Inductive Phase := Fresh | Working | Paused | Reserved | Ending | Ended.
Record Spec := mkSpec { sp_phase : Phase; sp_data : Z * list Message * Z; sp_cancelled : bool }.

(** The state changes only while the run may work or ends; a pause is left by
    resuming it, or, once the run is cancelled, only to end. *)
Inductive spec_step : Spec -> Spec -> Prop :=
| spec_cancel p d c : spec_step (mkSpec p d c) (mkSpec p d true)
| spec_cancel_work d c : spec_step (mkSpec Working d c) (mkSpec Ending d true)
| spec_work p d d' c : p = Fresh \/ p = Working \/ p = Ending -> spec_step (mkSpec p d c) (mkSpec p d' c)
| spec_start d c : spec_step (mkSpec Fresh d c) (mkSpec Working d c)
| spec_leave p d c : p = Fresh \/ p = Working -> spec_step (mkSpec p d c) (mkSpec Ending d c)
| spec_pause d c : spec_step (mkSpec Working d c) (mkSpec Paused d c)
| spec_reserve d : spec_step (mkSpec Paused d false) (mkSpec Reserved d false)
| spec_unreserve d : spec_step (mkSpec Reserved d false) (mkSpec Paused d false)
| spec_resume p d : p = Paused \/ p = Reserved -> spec_step (mkSpec p d false) (mkSpec Working d false)
| spec_stop p d : p = Paused \/ p = Reserved -> spec_step (mkSpec p d true) (mkSpec Ending d true)
| spec_end d d' c : spec_step (mkSpec Ending d c) (mkSpec Ended d' c).

Definition phase (r : RunState) : Phase :=
  match rs_exec r with
  | ExStart => Fresh
  | ExWorking => Working
  | ExBlocked _ =>
      match rs_status r with
      | StatusSuspended => Paused
      | runStatusResumePending => Reserved
      | runStatusRunning | runStatusSuspending => if rs_cancelled r then Ending else Working
      | _ => Ending
      end
  | ExDecision _ => match rs_status r with runStatusResumePending => Reserved | _ => Ending end
  | ExDone => Ended
  | _ => Ending
  end.
Definition abstract (r : RunState) : Spec :=
  mkSpec (phase r) (rs_completedTurns r, rs_history r, rs_lastSequence r) (rs_cancelled r).

Definition refines (r r' : RunState) : Prop := abstract r' = abstract r \/ spec_step (abstract r) (abstract r').

(** Steps that leave the place, the phase and the data alone. *)
Lemma refines_same r r' :
  rs_exec r' = rs_exec r -> rs_status r' = rs_status r -> rs_cancelled r' = rs_cancelled r ->
  rs_completedTurns r' = rs_completedTurns r -> rs_history r' = rs_history r -> rs_lastSequence r' = rs_lastSequence r ->
  refines r r'.
Proof. intros H1 H2 H3 H4 H5 H6. left. unfold abstract, phase. by rewrite H1, H2, H3, H4, H5, H6. Qed.

Lemma suspend_refines ctx id r : refines r (Suspend_begin ctx id r).
Proof.
  unfold Suspend_begin. destruct ctx; [by apply refines_same| |by apply refines_same].
  case_bool_decide as Es; cbn [negb orb]; [|by apply refines_same]. destruct (_ || _); [by apply refines_same|].
  left. unfold abstract, phase. cbn. rewrite Es. by destruct (rs_exec r).
Qed.

Lemma suspended_phase r : run_inv r -> rs_status r = StatusSuspended ->
  exists signal, rs_exec r = ExBlocked signal /\ rs_resumeSignal r = Some signal /\ signal ∉ rs_closed r
    /\ rs_localResume r = None.
Proof.
  intros Hi Hs. pose proof (ri_exec r Hi) as H. unfold exec_ok, live_status in H. rewrite Hs in H.
  destruct (rs_exec r); naive_solver.
Qed.

Lemma resumeLocked_refines r : run_inv r -> rs_status r = StatusSuspended -> refines r (resumeLocked r).
Proof.
  intros Hi Hs. destruct (suspended_phase r Hi Hs) as (signal & Hx & Hg & _). unfold resumeLocked.
  rewrite Hs, bool_decide_eq_true_2 by done. cbn [negb]. rewrite Hg. right. unfold abstract, phase. cbn. rewrite Hx, Hs.
  destruct (rs_cancelled r); [apply spec_stop|apply spec_resume]; by left.
Qed.

Lemma expire_refines id r r' : run_inv r -> Suspend_expire id r = Some r' -> refines r r'.
Proof.
  unfold Suspend_expire. intros Hi H. destruct (rs_suspends r !! id) as [[|]|]; [|discriminate H..]. injection H as <-.
  destruct (rs_suspendRequested r && _) eqn:Ec.
  - apply andb_true_iff in Ec as [Er _]. left. unfold abstract, phase. cbn.
    destruct (ri_request r Hi Er) as [Es|[Es Hx]]; [rewrite Es; destruct (rs_exec r); try done|by rewrite Hx].
  - case_match eqn:Eb; [|by apply refines_same]. apply andb_true_iff in Eb as [Es _]. apply bool_decide_eq_true in Es.
    destruct (resumeLocked_refines r Hi Es) as [H|H]; [left|right]; done.
Qed.

Lemma prepare_refines r : run_inv r -> refines r (snd (PrepareLocalResume r)).
Proof.
  intros Hi. unfold PrepareLocalResume. destruct (negb (terminal_status _) && _) eqn:Ec; [by apply refines_same|].
  case_bool_decide as Es; cbn [negb orb]; [|by apply refines_same]. destruct (_ || _); [by apply refines_same|].
  destruct (_ =? maxUint64); [by apply refines_same|]. rewrite Es in Ec. cbn in Ec.
  destruct (suspended_phase r Hi Es) as (signal & Hx & _). right. unfold abstract, phase. cbn. rewrite Hx, Es, Ec.
  apply spec_reserve.
Qed.

(** Leaving a reserved boundary. *)
Lemma commit_refines id r : run_inv r -> refines r (snd (PreparedLocalResume_Commit id r)).
Proof.
  intros Hi. unfold PreparedLocalResume_Commit.
  assert (Hlost : refines r r) by (by apply refines_same).
  assert (Hok : forall signal, rs_resumeSignal r = Some signal -> holds_boundary id r = true ->
    refines r (close_signal signal (decide_prepared id PreparedCommitted
      (set_suspension runStatusRunning (rs_suspendRequested r) (rs_suspendWaiter r) None None r)))).
  { intros signal Eg Eh. destruct (holds_boundary_spec id r signal Hi Eg Eh) as (Hs & _ & _ & _ & _ & _ & Hx).
    right. unfold abstract, phase. cbn. rewrite Hs. destruct Hx as [Hx|[Hx Hc]]; rewrite Hx.
    - destruct (rs_cancelled r); [apply spec_stop|apply spec_resume]; by right.
    - rewrite Hc. apply spec_stop. by right. }
  destruct (rs_prepared r !! id) as [[]|]; try done; destruct (rs_resumeSignal r) as [signal|] eqn:Eg; try done;
    destruct (holds_boundary id r) eqn:Eh; try done; by apply Hok.
Qed.

Lemma abort_refines id r : run_inv r -> refines r (snd (PreparedLocalResume_Abort id r)).
Proof.
  intros Hi. unfold PreparedLocalResume_Abort. assert (Hlost : refines r r) by (by apply refines_same).
  enough (Hok : holds_boundary id r = true -> refines r (decide_prepared id PreparedAborted
                 (set_suspension (if rs_cancelled r then runStatusFinishing else StatusSuspended)
                    (rs_suspendRequested r) (rs_suspendWaiter r) (rs_resumeSignal r) None r)))
    by (destruct (rs_prepared r !! id) as [[]|]; try done; destruct (holds_boundary id r) eqn:Eh; try done; by apply Hok).
  intros Eh. destruct (rs_resumeSignal r) as [signal|] eqn:Eg.
  2: { unfold holds_boundary in Eh. rewrite Eg, andb_false_r in Eh. discriminate. }
  destruct (holds_boundary_spec id r signal Hi Eg Eh) as (Hs & _ & _ & _ & _ & _ & Hx).
  right. unfold abstract, phase. cbn. rewrite Hs. destruct Hx as [Hx|[Hx Hc]]; rewrite Hx.
  - destruct (rs_cancelled r); [apply spec_stop; by right|apply spec_unreserve].
  - rewrite Hc. apply spec_stop. by right.
Qed.

Lemma cancel_refines r : refines r (Cancel r).
Proof.
  unfold refines, abstract, phase. cbn. destruct (rs_cancelled r) eqn:Ec; [by left|]. right.
  destruct (rs_exec r); try apply spec_cancel. destruct (rs_status r); try apply spec_cancel; apply spec_cancel_work.
Qed.

Lemma sequence_refines sequence r :
  run_inv r -> emits (rs_exec r) = true \/ rs_active r <> ∅ ->
  refines r (set_progress (rs_completedTurns r) (rs_history r) sequence r).
Proof.
  intros Hi H. right. change (phase (set_progress _ _ sequence r)) with (phase r). unfold abstract.
  change (phase (set_progress _ _ sequence r)) with (phase r). apply spec_work.
  destruct H as [H|H]; [unfold phase; destruct (rs_exec r); try discriminate; auto|].
  pose proof (ri_quiet r Hi) as Hq. pose proof (ri_drained r Hi) as Hd. unfold phase.
  destruct (rs_exec r); auto; [| |by destruct H, Hd].
  - destruct (rs_status r); auto; try (by destruct H, Hq; auto). all: destruct (rs_cancelled r); auto.
  - destruct (rs_status r); auto. by destruct H, Hq; auto.
Qed.

Lemma boundary_refines r : rs_exec r = ExWorking -> refines r (suspendAtBoundary r).
Proof.
  intros Hx. unfold suspendAtBoundary. destruct (negb _); [by apply refines_same|].
  unfold refines, abstract, phase. destruct (negb _); destruct (rs_suspendWaiter r) as [w|] eqn:Ew; cbn; rewrite ?Ew; cbn; rewrite Hx.
  1, 2: by left.
  all: right; apply spec_pause.
Qed.

Lemma boundary_cancelled_refines signal r :
  run_inv r -> rs_exec r = ExBlocked signal -> rs_cancelled r = true -> refines r (boundary_cancelled r).
Proof.
  intros Hi Hx Hc. pose proof (ri_exec r Hi) as H. unfold exec_ok, live_status in H. rewrite Hx in H. destruct H as [_ H].
  unfold boundary_cancelled, refines, abstract, phase. rewrite Hx, Hc. destruct (rs_localResume r) as [id|]; cbn; rewrite Hc.
  - destruct H as [(_ & _ & [[_ ?]|[(Hs & _)|(_ & ? & _)]])|(_ & _ & ? & _)]; [done| |done..]. rewrite Hs. by left.
  - destruct (rs_status r); try (by left); right; apply spec_stop; auto.
Qed.

Lemma run_step_refines r r' : run_inv r -> run_step r r' -> refines r r'.
Proof.
  intros Hr Hs. destruct Hs; eauto using suspend_refines, expire_refines, prepare_refines, commit_refines,
    abort_refines, cancel_refines, sequence_refines, boundary_refines, boundary_cancelled_refines.
  - unfold Suspend_receive in H. destruct (rs_suspends r !! id) as [[|]|]; [|discriminate H..].
    destruct (rs_answers r !! id); [|discriminate H]. injection H as <-. by apply refines_same.
  - unfold reserve in H. repeat (case_match; try discriminate). injection H as <-. by apply refines_same.
  - by apply refines_same.
  - right. unfold abstract, phase. cbn. rewrite H. destruct started; [apply spec_start|apply spec_leave; by left].
  - right. unfold abstract, phase. cbn. rewrite H. apply spec_leave; by left.
  - right. unfold abstract, phase. cbn. rewrite H. apply spec_work. auto.
  - right. unfold abstract, phase. cbn. rewrite H. apply spec_leave; by right.
  - pose proof (ri_exec r Hr) as Hx. unfold exec_ok, live_status in Hx. rewrite H in Hx.
    destruct Hx as [_ [[Hn _]|(_ & _ & _ & Hs)]]; [done|].
    left. unfold boundary_resumed, abstract, phase. cbn. rewrite H. by destruct (rs_cancelled r), Hs as [-> | ->].
  - pose proof (ri_exec r Hr) as Hx. unfold exec_ok, live_status in Hx. rewrite H in Hx.
    destruct Hx as [_ [(_ & _ & ? & _)|(_ & _ & _ & Hs)]]; [done|].
    left. unfold abstract, phase. cbn. rewrite H. by destruct Hs as [[-> | ->]| ->].
  - left. unfold beginFinalization, abstract, phase. rewrite H.
    by destruct (rs_suspendRequested r), (rs_suspendWaiter r).
  - unfold refines, abstract, phase. cbn. rewrite H. right. apply spec_cancel.
  - left. unfold abstract, phase. cbn. by rewrite H.
  - right. unfold abstract, phase. cbn. rewrite H. apply spec_end.
  - right. unfold abstract, phase. cbn. rewrite H. apply spec_end.
Qed.

(** C8: The run keeps its contract.  Under any interleaving of suspensions,
    their expiry, reservations, commits and aborts, interactions, cancellation
    and the execution goroutine, every step of the run is a step of the
    specification or leaves it unchanged: what a snapshot exports changes only
    while the run may work or ends, a pause ends in work only by a resumption,
    and a run cancelled at a boundary never works again. *)
Theorem run_refines_contract r r' : run_reachable r -> run_step r r' -> refines r r'.
Proof. intros Hr. by apply run_step_refines, run_reachable_inv. Qed.

(** ** Properties of the callers *)

Lemma run_reachable_step r r' : run_reachable r -> run_step r r' -> run_reachable r'.
Proof. intros (r0 & H0 & Hs) Hstep. exists r0. split; [done|]. by eapply rtc_r. Qed.

(** C28: A snapshot is only exported when nothing runs.  When [ExportSnapshot]
    succeeds there is no active interaction, and the run either has ended or is
    paused with its execution goroutine blocked on a resume signal nobody has
    closed; and from a paused or reserved run no step changes what was
    exported, except ending the run. *)
Theorem export_quiescent r :
  run_reachable r ->
  (ExportSnapshot r = None ->
    rs_active r = ∅
    /\ (phase r = Ended \/ phase r = Paused /\ exists signal, rs_exec r = ExBlocked signal /\ signal ∉ rs_closed r))
  /\ (forall r', run_step r r' -> phase r = Paused \/ phase r = Reserved ->
      sp_data (abstract r') = sp_data (abstract r)).
Proof.
  intros Hr. pose proof (run_reachable_inv r Hr) as Hi. split.
  - unfold ExportSnapshot. intros H. destruct (negb (bool_decide _) && _) eqn:E1; [discriminate H|].
    destruct (Z.eqb_spec (activeZ r) 0) as [Ha|]; [|discriminate H]. split; [by apply active_empty|].
    apply andb_false_iff in E1 as [Es|Es]; apply negb_false_iff in Es.
    + apply bool_decide_eq_true in Es. destruct (suspended_phase r Hi Es) as (signal & Hx & _ & Hn & _). right.
      unfold phase. rewrite Hx, Es. eauto.
    + left. pose proof (ri_exec r Hi) as Hx. unfold exec_ok, live_status in Hx. unfold phase.
      destruct (rs_status r); try discriminate Es; destruct (rs_exec r); naive_solver.
  - intros r' Hs Hp. assert (refines r r') as [Ha|Ha]; [|by rewrite Ha|].
    { by apply run_step_refines. }
    remember (abstract r) as a eqn:Ea. remember (abstract r') as a' eqn:Ea'.
    assert (sp_phase a = Paused \/ sp_phase a = Reserved) as Hp' by (by subst).
    clear -Ha Hp'. destruct Ha; cbn in *; naive_solver.
Qed.

Lemma prepared_kept r r' id st :
  run_inv r -> run_step r r' -> rs_prepared r !! id = Some st -> st <> PreparedReady -> rs_prepared r' !! id = Some st.
Proof.
  intros Hi Hs Hid Hst.
  assert (Hnot : forall id', holds_boundary id' r = true -> is_Some (rs_resumeSignal r) -> id' <> id).
  { intros id' Hh [signal Hg] ->. destruct (holds_boundary_spec id r signal Hi Hg Hh) as (_ & _ & Hp & _). congruence. }
  destruct Hs as [ctx id' r Hn|id' r r' H|id' r r' H|r|id' r H|id' r H|id' r r' H| | | | | | | | | | | | | | | |]; try done.
  - unfold Suspend_begin. by repeat case_match.
  - unfold Suspend_receive in H. repeat (case_match; try discriminate). by injection H as <-.
  - unfold Suspend_expire in H. repeat (case_match; try discriminate); injection H as <-; try done.
    unfold resumeLocked. by repeat case_match.
  - unfold PrepareLocalResume. repeat case_match; try done. cbn. rewrite lookup_insert_ne; [done|].
    pose proof (ri_fresh r Hi id). intros <-. specialize (H2 ltac:(eauto)). lia.
  - unfold PreparedLocalResume_Commit. destruct (rs_prepared r !! id') as [[]|] eqn:E; try done;
      destruct (rs_resumeSignal r) as [signal|] eqn:Eg; try done; destruct (holds_boundary id' r) eqn:Eh; try done; cbn.
    all: rewrite lookup_insert_ne; [done|]; apply Hnot; [done|eauto].
  - unfold PreparedLocalResume_Abort. destruct (rs_prepared r !! id') as [[]|] eqn:E; try done;
      destruct (holds_boundary id' r) eqn:Eh; try done; cbn.
    all: rewrite lookup_insert_ne; [done|]; apply Hnot; [done|].
    all: unfold holds_boundary in Eh; apply andb_true_iff in Eh as [_ Eg]; by apply bool_decide_eq_true in Eg.
  - unfold reserve in H. repeat (case_match; try discriminate). by injection H as <-.
  - unfold suspendAtBoundary. repeat case_match; done.
  - unfold boundary_cancelled. by case_match.
  - unfold beginFinalization. by repeat case_match.
Qed.

(** A reservation is decided once.  At most one reservation is open, and
    only that one can be committed or aborted; once decided it stays decided
    whatever happens, and every later commit or abort of it changes nothing
    and says so. *)
Theorem decision_final r id st r' :
  run_reachable r -> rs_prepared r !! id = Some st -> rtc run_step r r' ->
  (forall id', rs_prepared r !! id' = Some PreparedReady -> st = PreparedReady -> id' = id)
  /\ (st <> PreparedReady ->
      rs_prepared r' !! id = Some st
      /\ PreparedLocalResume_Commit id r'
         = (Some (match st with PreparedCommitted => ErrPreparedCommitted | _ => ErrPreparedAborted end), r')
      /\ PreparedLocalResume_Abort id r'
         = (match st with PreparedCommitted => Some ErrPreparedCommitted | _ => None end, r')).
Proof.
  intros Hr Hid Hs. split.
  - intros id' Hid' ->. pose proof (ri_ready r (run_reachable_inv r Hr)) as H.
    apply H in Hid, Hid'. congruence.
  - intros Hst. assert (rs_prepared r' !! id = Some st) as Hid'.
    { apply run_reachable_inv in Hr. induction Hs as [|r r1 r' Hstep _ IH]; [done|].
      apply IH; [by eapply run_step_inv|by eapply prepared_kept]. }
    split; [done|]. unfold PreparedLocalResume_Commit, PreparedLocalResume_Abort. rewrite Hid'. by destruct st.
Qed.

(** The execution goroutine is past [beginFinalization]. *)
Definition finalized (pc : exec_pc) : bool :=
  match pc with ExCancelling | ExDraining | ExReleasing | ExDone => true | _ => false end.

(** No [Suspend] call is left unanswered.  A waiting call is either the
    one the run will answer at its next boundary or when it ends, or its answer
    is already in its channel; after finalization every waiting call has its
    answer, and no interaction is active once the run releases its plan. *)
Theorem suspend_answered r id :
  run_reachable r -> rs_suspends r !! id = Some SuspendWaits ->
  (is_Some (rs_answers r !! id)
   \/ rs_suspendWaiter r = Some id /\ rs_suspendRequested r = true /\ rs_answers r !! id = None)
  /\ (finalized (rs_exec r) = true -> is_Some (rs_answers r !! id))
  /\ (drained (rs_exec r) = true -> rs_active r = ∅).
Proof.
  intros Hr%run_reachable_inv Hw. destruct (ri_answered r Hr id Hw) as [Hc|]; [|pose proof (ri_drained r Hr); by auto].
  destruct (ri_waiting r Hr id Hc) as [_ Ha]. assert (rs_suspendRequested r = true) as Hq by (apply (ri_waiter r Hr); eauto).
  split; [by auto|]. split; [|apply (ri_drained r Hr)]. intros Hf. exfalso.
  pose proof (ri_exec r Hr) as Hx. unfold exec_ok, live_status in Hx.
  destruct (ri_request r Hr Hq) as [Es|[_ Es]]; [rewrite Es in Hx|by rewrite Es in Hf].
  destruct (rs_exec r); try discriminate Hf; naive_solver.
Qed.

(** ** Concrete runs *)

(** Suspended by call 1, reserved and committed, suspended again by call 2,
    which has returned; call 1 has not yet received its answer. *)
Definition resumed0 : RunState := resumed_run 1 [] 5 ∅.
Definition suspended1 : RunState := suspendAtBoundary (Suspend_begin CtxLive 1 resumed0).
Definition reserved1 : RunState := snd (PrepareLocalResume suspended1).
Definition committed1 : RunState := snd (PreparedLocalResume_Commit 1 reserved1).
Definition waiting2 : RunState := suspendAtBoundary (Suspend_begin CtxLive 2 (boundary_resumed committed1)).
Definition suspended2 : RunState := set_suspend 2 (SuspendReturned None) waiting2.

Lemma resumed0_reachable : run_reachable resumed0.
Proof. exists resumed0. split; [constructor|done]. Qed.
Lemma suspended1_reachable : run_reachable suspended1.
Proof.
  eapply run_reachable_step; [|apply step_boundary; reflexivity].
  eapply run_reachable_step; [exact resumed0_reachable|]. by apply step_suspend.
Qed.
Lemma reserved1_reachable : run_reachable reserved1.
Proof. eapply run_reachable_step; [exact suspended1_reachable|apply step_prepare]. Qed.
Lemma committed1_reachable : run_reachable committed1.
Proof. eapply run_reachable_step; [exact reserved1_reachable|apply step_commit]. vm_compute. eauto. Qed.
Lemma suspended2_reachable : run_reachable suspended2.
Proof.
  apply (run_reachable_step waiting2); [|apply (step_receive 2); reflexivity].
  eapply run_reachable_step; [|apply step_boundary; reflexivity].
  eapply run_reachable_step; [|by apply step_suspend].
  eapply run_reachable_step; [exact committed1_reachable|]. apply (step_boundary_resumed 0); [reflexivity|].
  change (rs_closed committed1) with ({[0]} ∪ (∅ : gset Z)). set_solver.
Qed.

Lemma run_refines_contract_witness : phase suspended1 = Paused /\ refines suspended1 reserved1 /\ phase reserved1 = Reserved.
Proof.
  split; [reflexivity|]. split; [|reflexivity].
  exact (run_refines_contract suspended1 reserved1 suspended1_reachable (step_prepare suspended1)).
Defined.

Lemma export_quiescent_witness : ExportSnapshot suspended1 = None /\ rs_active suspended1 = ∅.
Proof.
  split; [reflexivity|]. exact (proj1 (proj1 (export_quiescent suspended1 suspended1_reachable) eq_refl)).
Defined.

Lemma decision_final_witness :
  PreparedLocalResume_Commit 1 committed1 = (Some ErrPreparedCommitted, committed1).
Proof.
  exact (proj1 (proj2 (proj2 (decision_final committed1 1 PreparedCommitted committed1 committed1_reachable eq_refl
    (rtc_refl _ _)) ltac:(discriminate)))).
Defined.

Lemma suspend_answered_witness : rs_suspends suspended1 !! 1 = Some SuspendWaits /\ is_Some (rs_answers suspended1 !! 1).
Proof.
  split; [reflexivity|].
  destruct (suspend_answered suspended1 1 suspended1_reachable eq_refl) as [[H|(_ & H & _)] _]; [exact H|discriminate H].
Defined.

(** C38: An expired [Suspend] call can resume a suspension it does not own.
    There is a reachable run, suspended at the request of call 2, which was
    told so and may export it, where the expiry of call 1, whose own suspension
    was resumed long before, sets the run to work again although nobody asked
    to resume it. *)
Theorem stale_suspend_resumes :
  exists r r', run_reachable r
    /\ rs_suspends r !! 2 = Some (SuspendReturned None) /\ phase r = Paused /\ ExportSnapshot r = None
    /\ Suspend_expire 1 r = Some r' /\ phase r' = Working /\ ExportSnapshot r' <> None.
Proof.
  exists suspended2. eexists. split; [exact suspended2_reachable|]. split; [reflexivity|]. split; [reflexivity|].
  split; [reflexivity|]. split; [reflexivity|]. split; [reflexivity|discriminate].
Qed.
