(* ===== verification/Engine.v ===== *)
(** The engine's registry (src/agent/agent.go, src/agent/prepared_execution.go):
    preparation, registration, activation, completion and drain of runs.

    A preparation and the run it becomes are one slot with a place [slot_pc].
    The critical sections of [engine.mu] and of a preparation's own lock are
    single transitions; leasing a tool plan, allocating an identifier, opening
    a log and looking at a context are transitions whose outcome is free.  What
    the registry relies on in the identity ledger is the class
    [RunIdentities], which the ledger of RunIdentity.v implements.  What a run
    does between activation and the release of its plan is in Execution.v and
    RunLifecycle.v. *)
From Stdlib Require Import ZArith Lia.
From stdpp Require Import base gmap list strings relations sorting.
From S2P Require Import Prelude GoText GoOrder Event EventLog RunIdentity Tool Message Plan Dispatch AgentPlan Occurrence Snapshot RunLifecycle.
Open Scope Z_scope.

(** ** What the ledger promises *)

(** The token and state of each run identifier, the last token issued, and the
    operations on them: tokens are never issued twice.  Identifiers are Go strings, whose length is an [int]. *)
Class RunIdentities (L : Type) := {
  ids_view : L -> gmap string (Z * runIdentityState);
  ids_issued : L -> Z;
  ids_inv : L -> Prop;
  ids_reserve : L -> string -> preparedExecutionKind -> L * result IdentityError Z;
  ids_transition : L -> string -> Z -> runIdentityState -> runIdentityState -> L * option IdentityError;
  ids_abort : L -> string -> Z -> L * option IdentityError;
  ids_retire : L -> string -> Z -> L * option IdentityError;
  ids_issued_law l : ids_inv l -> 0 <= ids_issued l;
  ids_reserve_law l id kind : ids_inv l -> slen id <= maxInt64 ->
    match ids_reserve l id kind with
    | (l', Ok token) => ids_inv l' /\ ids_view l !! id = None /\ 0 <= ids_issued l < token /\ ids_issued l' = token
                        /\ ids_view l' = <[id := (token, runIdentityReserved)]> (ids_view l)
    | (l', Err _) => l' = l
    end;
  ids_transition_law l id token from to : ids_inv l -> to <> runIdentityReserved ->
    match ids_transition l id token from to with
    | (l', None) => ids_inv l' /\ ids_issued l' = ids_issued l /\ ids_view l !! id = Some (token, from)
                    /\ ids_view l' = <[id := (token, to)]> (ids_view l)
    | (l', Some _) => l' = l /\ ids_view l !! id <> Some (token, from)
    end;
  ids_abort_law l id token : ids_inv l ->
    match ids_abort l id token with
    | (l', None) => ids_inv l' /\ ids_issued l' = ids_issued l /\ ids_view l !! id = Some (token, runIdentityReserved)
                    /\ ids_view l' = delete id (ids_view l)
    | (l', Some _) => l' = l /\ ids_view l !! id <> Some (token, runIdentityReserved)
    end;
  ids_retire_law l id token : ids_inv l ->
    match ids_retire l id token with
    | (l', None) => ids_inv l' /\ ids_issued l' = ids_issued l /\ ids_view l !! id = Some (token, runIdentityTombstone)
                    /\ ids_view l' = delete id (ids_view l)
    | (l', Some _) => l' = l /\ ids_view l !! id <> Some (token, runIdentityTombstone)
    end
}.

(** The ledger keeps the promise. *)
Definition ledger_view (l : runIdentityLedger) : gmap string (Z * runIdentityState) :=
  (fun r => (rir_token r, rir_state r)) <$> il_records l.

Lemma ledger_reserve_law l id kind : identity_inv l -> slen id <= maxInt64 ->
  match identity_reserve l id kind with
  | (l', Ok token) => identity_inv l' /\ ledger_view l !! id = None /\ 0 <= il_nextToken l < token /\ il_nextToken l' = token
                      /\ ledger_view l' = <[id := (token, runIdentityReserved)]> (ledger_view l)
  | (l', Err _) => l' = l
  end.
Proof.
  intros Hi Hid. destruct (identity_reserve l id kind) as [l' r] eqn:E.
  destruct (reserve_inv l id kind l' r Hi Hid E) as [Hi' _]. unfold identity_reserve in E.
  unfold ledger_view. rewrite lookup_fmap. destruct (il_records l !! id) eqn:El; [by simplify_eq|].
  pose proof (ii_next l Hi). destruct (_ >? _); [by simplify_eq|]. destruct (_ >? _); [by simplify_eq|].
  destruct (Z.eqb_spec (il_nextToken l) maxUint64); [by simplify_eq|].
  assert (il_nextToken l +64 1 = il_nextToken l + 1) as Hn by (apply u64_id; unfold uint64_ok, maxUint64 in *; lia).
  injection E as <- <-. cbn in *. rewrite Hn in *. split; [done|]. split; [done|]. split; [lia|]. split; [done|].
  by rewrite fmap_insert.
Qed.

Lemma ledger_transition_law l id token from to : identity_inv l -> to <> runIdentityReserved ->
  match identity_transition l id token from to with
  | (l', None) => identity_inv l' /\ il_nextToken l' = il_nextToken l /\ ledger_view l !! id = Some (token, from)
                  /\ ledger_view l' = <[id := (token, to)]> (ledger_view l)
  | (l', Some _) => l' = l /\ ledger_view l !! id <> Some (token, from)
  end.
Proof.
  intros Hi Hto. destruct (identity_transition l id token from to) as [l' e] eqn:E.
  destruct (transition_inv l id token from to l' e Hi E) as [Hi' _]. unfold identity_transition in E.
  unfold ledger_view. rewrite lookup_fmap. destruct (il_records l !! id) as [record|] eqn:El; [|by simplify_eq].
  destruct (Z.eqb_spec (rir_token record) token) as [<-|]; [|injection E as <- <-; split; [done|]; cbn; congruence].
  case_bool_decide as Es; [subst from|injection E as <- <-; split; [done|]; cbn; congruence]. cbn [negb orb] in E.
  rewrite bool_decide_eq_false_2 in E by done. destruct (leave_state l (rir_state record)) as [[a b] c].
  injection E as <- <-. cbn in *. split; [done|]. split; [done|]. split; [done|]. by rewrite fmap_insert.
Qed.

Lemma ledger_remove_law required l id token : identity_inv l ->
  match identity_remove required l id token with
  | (l', None) => identity_inv l' /\ il_nextToken l' = il_nextToken l /\ ledger_view l !! id = Some (token, required) /\ ledger_view l' = delete id (ledger_view l)
  | (l', Some _) => l' = l /\ ledger_view l !! id <> Some (token, required)
  end.
Proof.
  intros Hi. destruct (identity_remove required l id token) as [l' e] eqn:E.
  destruct (remove_inv required l id token l' e Hi E) as [Hi' _]. unfold identity_remove in E.
  unfold ledger_view. rewrite lookup_fmap. destruct (il_records l !! id) as [record|] eqn:El; [|by simplify_eq].
  destruct (Z.eqb_spec (rir_token record) token) as [<-|]; [|injection E as <- <-; split; [done|]; cbn; congruence].
  case_bool_decide as Es; [subst required|injection E as <- <-; split; [done|]; cbn; congruence]. cbn [negb orb] in E.
  destruct (leave_state l (rir_state record)) as [[a b] c].
  injection E as <- <-. cbn in *. split; [done|]. split; [done|]. split; [done|]. by rewrite fmap_delete.
Qed.

#[export] Program Instance ledger_identities : RunIdentities runIdentityLedger := {|
  ids_view := ledger_view;
  ids_issued := il_nextToken;
  ids_inv := identity_inv;
  ids_reserve := identity_reserve;
  ids_transition := identity_transition;
  ids_abort := identity_abort;
  ids_retire := identity_retire;
  ids_reserve_law := ledger_reserve_law;
  ids_transition_law := ledger_transition_law
|}.
Next Obligation. intros l Hi. apply (ii_next l Hi). Qed.
Next Obligation. intros l id token Hi. apply (ledger_remove_law runIdentityReserved l id token Hi). Qed.
Next Obligation. intros l id token Hi. apply (ledger_remove_law runIdentityTombstone l id token Hi). Qed.

(** ** Leases *)

(** What a tool plan source does when asked for a lease. *)
Inductive lease_answer := LeasePanics | LeaseReturns (lease : option ToolPlanLease) (failed : bool).

Inductive AcquireError :=
| ErrAcquireBoth | ErrAcquireSource | ErrAcquirePanicked | ErrAcquireNil | ErrAcquireInvalid (cause : PlanError)
| ErrAcquireContext | ErrAcquireGeneration.

(** [safeLeaseCurrent] and [safeLeaseGeneration]. *)
Definition safeLease (answer : lease_answer) : option ToolPlanLease * option AcquireError :=
  match answer with
  | LeasePanics => (None, Some ErrAcquirePanicked)
  | LeaseReturns lease failed => (lease, if failed then Some ErrAcquireSource else None)
  end.

(** The outcome of an acquisition and the leases it released. *)
Definition validateAcquiredLease (lease : option ToolPlanLease) (acquireErr : option AcquireError)
  : result AcquireError ToolPlanLease * list ToolPlanLease :=
  match acquireErr with
  | Some e => match lease with Some held => (Err ErrAcquireBoth, [held]) | None => (Err e, []) end
  | None =>
      match lease with
      | None => (Err ErrAcquireNil, [])
      | Some held =>
          match ToolPlanLease_Validate lease with
          | Some e => (Err (ErrAcquireInvalid e), [held])
          | None => (Ok held, [])
          end
      end
  end.

Definition leaseCurrentToolPlan (answer : lease_answer) (ctx_live : bool)
  : result AcquireError ToolPlanLease * list ToolPlanLease :=
  let '(lease, err) := safeLease answer in
  match validateAcquiredLease lease err with
  | (Err e, released) => (Err e, released)
  | (Ok held, released) => if ctx_live then (Ok held, released) else (Err ErrAcquireContext, released ++ [held])
  end.

Definition leaseToolPlanGeneration (id : string) (answer : lease_answer) (ctx_live : bool)
  : result AcquireError ToolPlanLease * list ToolPlanLease :=
  let '(lease, err) := safeLease answer in
  match validateAcquiredLease lease err with
  | (Err e, released) => (Err e, released)
  | (Ok held, released) =>
      if negb ctx_live then (Err ErrAcquireContext, released ++ [held])
      else if negb (String.eqb (pl_id held) id) then (Err ErrAcquireGeneration, released ++ [held])
      else (Ok held, released)
  end.

(** An acquisition keeps the lease it was handed or releases it once. *)
Definition handed_over (answer : lease_answer) : list ToolPlanLease :=
  match answer with LeaseReturns (Some held) _ => [held] | _ => [] end.

Definition accounts (answer : lease_answer) (outcome : result AcquireError ToolPlanLease * list ToolPlanLease) : Prop :=
  match outcome with
  | (Ok held, released) => handed_over answer = [held] /\ released = [] /\ ToolPlanLease_Validate (Some held) = None
  | (Err _, released) => released = handed_over answer
  end.

Lemma lease_current_accounts answer ctx_live : accounts answer (leaseCurrentToolPlan answer ctx_live).
Proof.
  unfold leaseCurrentToolPlan, validateAcquiredLease. destruct answer as [|[held|] [|]]; cbn -[ToolPlanLease_Validate]; try done.
  destruct (ToolPlanLease_Validate (Some held)) eqn:?, ctx_live; done.
Qed.

Lemma lease_generation_accounts id answer ctx_live : accounts answer (leaseToolPlanGeneration id answer ctx_live).
Proof.
  unfold leaseToolPlanGeneration, validateAcquiredLease. destruct answer as [|[held|] [|]]; cbn -[ToolPlanLease_Validate]; try done.
  destruct (ToolPlanLease_Validate (Some held)) eqn:?, ctx_live, (pl_id held =? id)%string; done.
Qed.

Lemma lease_generation_id id answer ctx_live held released :
  leaseToolPlanGeneration id answer ctx_live = (Ok held, released) -> pl_id held = id.
Proof.
  unfold leaseToolPlanGeneration. destruct (safeLease answer) as [lease err].
  destruct (validateAcquiredLease lease err) as [[?|?] ?]; [|done]. destruct ctx_live; [|done].
  destruct (String.eqb_spec (pl_id a) id); [|done]. intros [= <- <-]. done.
Qed.

Lemma accounts_one answer outcome : accounts answer outcome -> (length (snd outcome) <= 1)%nat.
Proof. destruct outcome as [[?|?] released]; cbn; [intros (_ & -> & _); cbn; lia|intros ->]. by destruct answer as [|[?|] ?]; cbn; lia. Qed.

(** ** The engine *)

Inductive EngineError :=
| ErrEngineContext | ErrEngineNilContext | ErrEngineIsClosed
| ErrEngineAgent (cause : AgentError)
| ErrEngineSnapshot (cause : SnapshotError)
| ErrEngineUnsafe (status : string)
| ErrEngineNotPortable
| ErrEngineCompatibility
| ErrEngineIdentity (cause : IdentityError)
| ErrPreparedExecutionCommitted | ErrPreparedExecutionAborted
| ErrPreparedRunActivated | ErrPreparedRunAborted.

(** The fields of [Engine] that construction fixes and preparation reads. *)
Record EngineConfig := mkEngineConfig {
  ec_compiledPlan : list string;
  ec_snapshotCompatibility : string;
  ec_workspaceFingerprint : string;
  ec_logLimits : LogLimits
}.

(** What a preparation was asked for. *)
Inductive origin := OriginStart (definition : AgentDefinition) (input : Message) | OriginResume (snapshot : Snapshot).

Definition origin_kind (o : origin) : preparedExecutionKind :=
  match o with OriginStart _ _ => preparedStartKind | OriginResume _ => preparedResumeKind end.

(** The places of a preparation and of the run it becomes:
    - [SlLeased]: [PrepareStart] holds a lease and no identity;
    - [SlReserved]: [PrepareResumeSnapshot] holds an identity and no lease;
    - [SlBoth]: both are held, preparation goes on;
    - [SlReady]: the prepared execution was returned;
    - [SlUnwindLease], [SlUnwindBoth], [SlUnwindIdentity]: what is still to be
      given back on failure or abort;
    - [SlAborted]: nothing is held;
    - [SlGated]: registered at the execution gate;
    - [SlInert], [SlInertReleased], [SlInertDone]: aborted at the gate;
    - [SlExecuting], [SlReleased], [SlCompleted]: activated, plan released,
      completed. *)
Inductive slot_pc :=
| SlLeased | SlReserved | SlBoth | SlReady
| SlUnwindLease | SlUnwindBoth | SlUnwindIdentity | SlAborted
| SlGated | SlInert | SlInertReleased | SlInertDone
| SlExecuting | SlReleased | SlCompleted.
#[export] Instance slot_pc_eq : EqDecision slot_pc.
Proof. solve_decision. Defined.

(** [sl_acquired] is whether a lease was handed over, [sl_releases] how often
    it was released, [sl_worked] whether provider or tools were called. *)
Record Slot := mkSlot {
  sl_pc : slot_pc;
  sl_origin : origin;
  sl_runID : string;
  sl_token : Z;
  sl_lease : option ToolPlanLease;
  sl_plan : option PlanIdentity;
  sl_acquired : bool;
  sl_releases : Z;
  sl_cancelled : bool;
  sl_worked : bool;
  sl_retired : bool
}.

(** A call of [Close] or [Shutdown]: cancelling the runs it saw, waiting on the
    channel it saw, or returned. *)
Inductive stop_pc :=
| StopCancelling (drained : Z) (runs : list Z)
| StopWaits (drained : Z) (cancelActive : bool)
| StopReturned (err : option EngineError).

(** [engine.mu]'s fields, the preparations and runs, the calls of [stop] and the
    closed channels.  [en_panicked] records the close of a closed channel. *)
Record EngineState (L : Type) := mkEngine {
  en_closed : bool;
  en_active : gmap string Z;
  en_identities : L;
  en_drained : Z;
  en_closedChannels : gset Z;
  en_panicked : bool;
  en_slots : gmap Z Slot;
  en_stops : gmap Z stop_pc;
  en_fresh : Z
}.
Arguments mkEngine {L}. Arguments en_closed {L}. Arguments en_active {L}. Arguments en_identities {L}.
Arguments en_drained {L}. Arguments en_closedChannels {L}. Arguments en_panicked {L}. Arguments en_slots {L}.
Arguments en_stops {L}. Arguments en_fresh {L}.

Definition at_pc (pc : slot_pc) (s : Slot) : Slot :=
  mkSlot pc (sl_origin s) (sl_runID s) (sl_token s) (sl_lease s) (sl_plan s) (sl_acquired s) (sl_releases s)
    (sl_cancelled s) (sl_worked s) (sl_retired s).
Definition with_lease (lease : option ToolPlanLease) (acquired : bool) (releases : Z) (s : Slot) : Slot :=
  mkSlot (sl_pc s) (sl_origin s) (sl_runID s) (sl_token s) lease (sl_plan s) acquired releases
    (sl_cancelled s) (sl_worked s) (sl_retired s).
Definition with_identity (runID : string) (token : Z) (s : Slot) : Slot :=
  mkSlot (sl_pc s) (sl_origin s) runID token (sl_lease s) (sl_plan s) (sl_acquired s) (sl_releases s)
    (sl_cancelled s) (sl_worked s) (sl_retired s).
Definition with_plan (plan : PlanIdentity) (s : Slot) : Slot :=
  mkSlot (sl_pc s) (sl_origin s) (sl_runID s) (sl_token s) (sl_lease s) (Some plan) (sl_acquired s) (sl_releases s)
    (sl_cancelled s) (sl_worked s) (sl_retired s).
Definition with_flags (cancelled worked retired : bool) (s : Slot) : Slot :=
  mkSlot (sl_pc s) (sl_origin s) (sl_runID s) (sl_token s) (sl_lease s) (sl_plan s) (sl_acquired s) (sl_releases s)
    cancelled worked retired.
(** One call of [ReleaseContext]. *)
Definition released (s : Slot) : Slot := with_lease (sl_lease s) (sl_acquired s) (sl_releases s + 1) s.
Definition cancelled (s : Slot) : Slot := with_flags true (sl_worked s) (sl_retired s) s.

(** *** Admission *)

(** [PrepareStart] before the lease. *)
Definition start_guard (ctx : ctx_arg) (definition : AgentDefinition) (input : Message) (closed : bool) : option EngineError :=
  match ctx with
  | CtxNil => Some ErrEngineNilContext
  | CtxDone => Some ErrEngineContext
  | CtxLive =>
      match NewAgentDefinition (ad_name definition) (ad_model definition) (ad_maxTurns definition) with
      | Err e => Some (ErrEngineAgent e)
      | Ok _ =>
          match NewInput input with
          | Err e => Some (ErrEngineAgent e)
          | Ok _ => if closed then Some ErrEngineIsClosed else None
          end
      end
  end.

(** [PrepareResumeSnapshot] before the identity. *)
Definition resume_guard (config : EngineConfig) (ctx : ctx_arg) (snapshot : Snapshot) : option EngineError :=
  match ctx with
  | CtxNil => Some ErrEngineNilContext
  | CtxDone => Some ErrEngineContext
  | CtxLive =>
      match Snapshot_Validate snapshot with
      | Some e => Some (ErrEngineSnapshot e)
      | None =>
          if negb (String.eqb (sn_status snapshot) LifecycleSuspended) then Some (ErrEngineUnsafe (sn_status snapshot))
          else if String.eqb (ec_snapshotCompatibility config) "" then Some ErrEngineNotPortable
          else
            let identity := sn_planIdentity snapshot in
            if negb (String.eqb (pi_snapshotCompatibility identity) (ec_snapshotCompatibility config))
               || negb (String.eqb (pi_workspaceFingerprint identity) (ec_workspaceFingerprint config))
               || negb (bool_decide (pi_compiled identity = ec_compiledPlan config))
            then Some ErrEngineCompatibility else None
      end
  end.

Section Registry.
Context {L : Type} `{RunIdentities L}.
Variable sha256_hex : list Z -> string.
Variable config : EngineConfig.
Implicit Types (e : EngineState L) (s : Slot) (n : Z).

Definition set_slot n s e : EngineState L :=
  mkEngine (en_closed e) (en_active e) (en_identities e) (en_drained e) (en_closedChannels e) (en_panicked e)
    (<[n := s]> (en_slots e)) (en_stops e) (en_fresh e).
Definition set_identities (identities : L) e : EngineState L :=
  mkEngine (en_closed e) (en_active e) identities (en_drained e) (en_closedChannels e) (en_panicked e)
    (en_slots e) (en_stops e) (en_fresh e).
Definition set_stop (k : Z) (pc : stop_pc) e : EngineState L :=
  mkEngine (en_closed e) (en_active e) (en_identities e) (en_drained e) (en_closedChannels e) (en_panicked e)
    (en_slots e) (<[k := pc]> (en_stops e)) (en_fresh e).

(** *** Identities under [engine.mu] *)

Definition reserveRunIdentity (runID : string) (kind : preparedExecutionKind) e : EngineState L * result EngineError Z :=
  if en_closed e then (e, Err ErrEngineIsClosed)
  else match ids_reserve (en_identities e) runID kind with
  | (l, Ok token) => (set_identities l e, Ok token)
  | (l, Err err) => (set_identities l e, Err (ErrEngineIdentity err))
  end.

Definition abortRunIdentityReservation (runID : string) (token : Z) e : EngineState L * option IdentityError :=
  let '(l, err) := ids_abort (en_identities e) runID token in (set_identities l e, err).

Definition activateRunIdentity (runID : string) (token : Z) e : EngineState L * option IdentityError :=
  let '(l, err) := ids_transition (en_identities e) runID token runIdentityReserved runIdentityActive in
  (set_identities l e, err).

Definition retireRunIdentity (runID : string) (token : Z) e : EngineState L * option IdentityError :=
  let '(l, err) := ids_retire (en_identities e) runID token in (set_identities l e, err).

(** [delete(engine.active, runID)] and the close of [drained]; closing a closed
    channel panics. *)
Definition deregister (runID : string) e : EngineState L :=
  let active := delete runID (en_active e) in
  let empty := bool_decide (active = ∅) in
  mkEngine (en_closed e) active (en_identities e) (en_drained e)
    (if empty then {[en_drained e]} ∪ en_closedChannels e else en_closedChannels e)
    (en_panicked e || (empty && bool_decide (en_drained e ∈ en_closedChannels e)))
    (en_slots e) (en_stops e) (en_fresh e).

Definition completeRunIdentity (runID : string) (token : Z) e : EngineState L * option IdentityError :=
  let '(l, err) := ids_transition (en_identities e) runID token runIdentityActive runIdentityTombstone in
  (deregister runID (set_identities l e), err).

Definition abortRegisteredRunIdentity (runID : string) (token : Z) e : EngineState L * option IdentityError :=
  let '(l, err) := ids_abort (en_identities e) runID token in (deregister runID (set_identities l e), err).

(** *** Preparation *)

Definition new_slot (pc : slot_pc) (o : origin) : Slot := mkSlot pc o "" 0 None None false 0 false false false.

(** The lease [PrepareStart] asks for. *)
Definition PrepareStart_lease n (definition : AgentDefinition) (input : Message) (answer : lease_answer) (ctx_live : bool) e
  : EngineState L :=
  let fresh pc := new_slot pc (OriginStart definition input) in
  match leaseCurrentToolPlan answer ctx_live with
  | (Ok lease, _) => set_slot n (with_lease (Some lease) true 0 (fresh SlLeased)) e
  | (Err _, leases) => set_slot n (with_lease (head leases) (negb (bool_decide (leases = []))) (lenZ leases) (fresh SlAborted)) e
  end.

(** The plan identity, the run identifier [allocated] by the ID source, and its
    reservation. *)
Definition PrepareStart_reserve n s (allocated : option string) e : EngineState L :=
  match sl_lease s with
  | None => e
  | Some lease =>
      match newPlanIdentity sha256_hex (ec_compiledPlan config) (ec_snapshotCompatibility config)
              (ec_workspaceFingerprint config) lease, allocated with
      | Ok plan, Some runID =>
          match snapshotToken "run ID" runID 96 with
          | Some _ => set_slot n (at_pc SlUnwindLease s) e
          | None =>
              match reserveRunIdentity runID preparedStartKind e with
              | (e', Ok token) => set_slot n (at_pc SlBoth (with_plan plan (with_identity runID token s))) e'
              | (e', Err _) => set_slot n (at_pc SlUnwindLease s) e'
              end
          end
      | _, _ => set_slot n (at_pc SlUnwindLease s) e
      end
  end.

(** [PrepareResumeSnapshot]: the reservation, then the lease. *)
Definition PrepareResume_reserve n (snapshot : Snapshot) e : EngineState L :=
  match reserveRunIdentity (sn_runID snapshot) preparedResumeKind e with
  | (e', Ok token) => set_slot n (with_identity (sn_runID snapshot) token (new_slot SlReserved (OriginResume snapshot))) e'
  | (e', Err _) => e'
  end.

Definition PrepareResume_lease n s (snapshot : Snapshot) (answer : lease_answer) (ctx_live : bool) e : EngineState L :=
  match leaseToolPlanGeneration (pi_toolPlanID (sn_planIdentity snapshot)) answer ctx_live with
  | (Err _, leases) =>
      set_slot n (at_pc SlUnwindIdentity (with_lease (head leases) (negb (bool_decide (leases = []))) (lenZ leases) s)) e
  | (Ok lease, _) =>
      let held := with_lease (Some lease) true 0 s in
      match newPlanIdentity sha256_hex (ec_compiledPlan config) (ec_snapshotCompatibility config)
              (ec_workspaceFingerprint config) lease with
      | Err _ => set_slot n (at_pc SlUnwindBoth held) e
      | Ok plan =>
          if PlanIdentity_equal (sn_planIdentity snapshot) plan then set_slot n (at_pc SlBoth (with_plan plan held)) e
          else set_slot n (at_pc SlUnwindBoth held) e
      end
  end.

(** The log and the last look at the context. *)
Definition prepare_log s : option LogError :=
  match (match sl_origin s with
         | OriginStart _ _ => NewLog (sl_runID s) (ec_logLimits config)
         | OriginResume snapshot => NewLogAfter (sl_runID s) (sn_lastSequence snapshot) (ec_logLimits config)
         end) with
  | Ok _ => None
  | Err err => Some err
  end.

Definition finish_preparation n s (ctx_live : bool) e : EngineState L :=
  match prepare_log s with
  | Some _ => set_slot n (at_pc SlUnwindBoth s) e
  | None => set_slot n (at_pc (if ctx_live then SlReady else SlUnwindBoth) s) e
  end.

(** [releaseLeaseOnRollback], [rollbackPreparedResources] and [abortLocked] give
    back the lease, then the identity. *)
Definition unwind_lease n s e : EngineState L :=
  match sl_pc s with
  | SlUnwindLease => set_slot n (at_pc SlAborted (released s)) e
  | SlUnwindBoth => set_slot n (at_pc SlUnwindIdentity (released s)) e
  | _ => e
  end.
Definition unwind_identity n s e : EngineState L * option IdentityError :=
  let '(e', err) := abortRunIdentityReservation (sl_runID s) (sl_token s) e in
  (set_slot n (at_pc SlAborted s) e', err).

(** *** Prepared executions *)

Definition preparedExecution_state (pc : slot_pc) : option preparedState :=
  match pc with
  | SlReady => Some PreparedReady
  | SlAborted => Some PreparedAborted
  | SlGated | SlInert | SlInertReleased | SlInertDone | SlExecuting | SlReleased | SlCompleted => Some PreparedCommitted
  | _ => None
  end.

Definition register n s (pc : slot_pc) e : EngineState L :=
  let first := bool_decide (en_active e = ∅) in
  mkEngine (en_closed e) (<[sl_runID s := n]> (en_active e)) (en_identities e)
    (if first then en_fresh e else en_drained e) (en_closedChannels e) (en_panicked e)
    (<[n := at_pc pc s]> (en_slots e)) (en_stops e) (if first then en_fresh e + 1 else en_fresh e).

Definition commitPaused (ctx : ctx_arg) (activateImmediately : bool) n s e : EngineState L * option EngineError :=
  let abortLocked e := set_slot n (at_pc SlUnwindBoth s) e in
  match preparedExecution_state (sl_pc s) with
  | Some PreparedReady =>
      match ctx with
      | CtxNil => (abortLocked e, Some ErrEngineNilContext)
      | CtxDone => (abortLocked e, Some ErrEngineContext)
      | CtxLive =>
          if en_closed e then (abortLocked e, Some ErrEngineIsClosed)
          else if activateImmediately then
            match activateRunIdentity (sl_runID s) (sl_token s) e with
            | (e', Some err) => (abortLocked e', Some (ErrEngineIdentity err))
            | (e', None) => (register n s SlExecuting e', None)
            end
          else (register n s SlGated e, None)
      end
  | Some PreparedCommitted => (e, Some ErrPreparedExecutionCommitted)
  | _ => (e, Some ErrPreparedExecutionAborted)
  end.

Definition prepared_abort n s e : EngineState L * option EngineError :=
  match preparedExecution_state (sl_pc s) with
  | Some PreparedReady => (set_slot n (at_pc SlUnwindBoth s) e, None)
  | Some PreparedCommitted => (e, Some ErrPreparedExecutionCommitted)
  | _ => (e, None)
  end.

(** *** Prepared runs *)

Inductive preparedRunState := preparedRunReady | preparedRunActivated | preparedRunAborted.
Definition preparedRun_state (pc : slot_pc) : option preparedRunState :=
  match pc with
  | SlGated => Some preparedRunReady
  | SlExecuting | SlReleased | SlCompleted => Some preparedRunActivated
  | SlInert | SlInertReleased | SlInertDone => Some preparedRunAborted
  | _ => None
  end.

Definition Activate n s e : EngineState L * option EngineError :=
  match preparedRun_state (sl_pc s) with
  | Some preparedRunReady =>
      match activateRunIdentity (sl_runID s) (sl_token s) e with
      | (e', Some err) => (e', Some (ErrEngineIdentity err))
      | (e', None) => (set_slot n (at_pc SlExecuting s) e', None)
      end
  | Some preparedRunActivated => (e, Some ErrPreparedRunActivated)
  | _ => (e, Some ErrPreparedRunAborted)
  end.

(** [Abort] up to its wait. *)
Definition PreparedRun_Abort (ctx : ctx_arg) n s e : EngineState L * option EngineError :=
  match ctx with
  | CtxNil => (e, Some ErrEngineNilContext)
  | _ =>
      match preparedRun_state (sl_pc s) with
      | Some preparedRunReady => (set_slot n (at_pc SlInert (cancelled s)) e, None)
      | Some preparedRunActivated => (e, Some ErrPreparedRunActivated)
      | _ => (e, None)
      end
  end.

(** *** Execution and finalization *)

(** [finalizeAbort] and the end of [executeState] release the plan, then
    [completeInert] and [complete] deregister the run and cancel its context. *)
Definition release_plan n s e : EngineState L :=
  match sl_pc s with
  | SlInert => set_slot n (at_pc SlInertReleased (released s)) e
  | SlExecuting => set_slot n (at_pc SlReleased (released s)) e
  | _ => e
  end.
Definition complete n s e : EngineState L * option IdentityError :=
  let '(e', err) := completeRunIdentity (sl_runID s) (sl_token s) e in
  (set_slot n (at_pc SlCompleted (cancelled s)) e', err).
Definition completeInert n s e : EngineState L * option IdentityError :=
  let '(e', err) := abortRegisteredRunIdentity (sl_runID s) (sl_token s) e in
  (set_slot n (at_pc SlInertDone (cancelled s)) e', err).

(** [Retire] of the run's capability. *)
Definition retire n s e : EngineState L * option IdentityError :=
  if sl_retired s then (e, None)
  else match retireRunIdentity (sl_runID s) (sl_token s) e with
  | (e', None) => (set_slot n (with_flags (sl_cancelled s) (sl_worked s) true s) e', None)
  | (e', Some err) => (e', Some err)
  end.

(** *** [Close] and [Shutdown] *)

Definition stop (ctx : ctx_arg) (cancelActive : bool) (k : Z) e : EngineState L :=
  match ctx with
  | CtxNil => set_stop k (StopReturned (Some ErrEngineNilContext)) e
  | _ =>
      set_stop k (if cancelActive then StopCancelling (en_drained e) (snd <$> map_to_list (en_active e))
                  else StopWaits (en_drained e) false)
        (mkEngine true (en_active e) (en_identities e) (en_drained e) (en_closedChannels e) (en_panicked e)
           (en_slots e) (en_stops e) (en_fresh e))
  end.

(** The next iteration of [for _, run := range runs]. *)
Definition stop_cancel (k : Z) e : option (EngineState L) :=
  match en_stops e !! k with
  | Some (StopCancelling drained []) => Some (set_stop k (StopWaits drained true) e)
  | Some (StopCancelling drained (n :: runs)) =>
      Some (set_stop k (StopCancelling drained runs)
              (match en_slots e !! n with Some s => set_slot n (cancelled s) e | None => e end))
  | _ => None
  end.

(** [case <-drained] and [case <-ctx.Done()]. *)
Definition stop_drained (k : Z) e : option (EngineState L) :=
  match en_stops e !! k with
  | Some (StopWaits drained _) =>
      if bool_decide (drained ∈ en_closedChannels e) then Some (set_stop k (StopReturned None) e) else None
  | _ => None
  end.
Definition stop_expired (k : Z) e : option (EngineState L) :=
  match en_stops e !! k with
  | Some (StopWaits _ _) => Some (set_stop k (StopReturned (Some ErrEngineContext)) e)
  | _ => None
  end.

(** *** Transitions *)

Inductive engine_step : EngineState L -> EngineState L -> Prop :=
| step_start_lease n definition input answer ctx_live e :
    en_slots e !! n = None -> start_guard CtxLive definition input (en_closed e) = None ->
    engine_step e (PrepareStart_lease n definition input answer ctx_live e)
| step_start_reserve n s allocated e : en_slots e !! n = Some s -> sl_pc s = SlLeased ->
    engine_step e (PrepareStart_reserve n s allocated e)
| step_resume_reserve n snapshot e : en_slots e !! n = None -> resume_guard config CtxLive snapshot = None ->
    engine_step e (PrepareResume_reserve n snapshot e)
| step_resume_lease n s snapshot answer ctx_live e : en_slots e !! n = Some s -> sl_pc s = SlReserved ->
    sl_origin s = OriginResume snapshot -> engine_step e (PrepareResume_lease n s snapshot answer ctx_live e)
| step_prepared n s ctx_live e : en_slots e !! n = Some s -> sl_pc s = SlBoth ->
    engine_step e (finish_preparation n s ctx_live e)
| step_unwind_lease n s e : en_slots e !! n = Some s -> engine_step e (unwind_lease n s e)
| step_unwind_identity n s e : en_slots e !! n = Some s -> sl_pc s = SlUnwindIdentity ->
    engine_step e (fst (unwind_identity n s e))
| step_commit_paused ctx immediate n s e : en_slots e !! n = Some s -> is_Some (preparedExecution_state (sl_pc s)) ->
    engine_step e (fst (commitPaused ctx immediate n s e))
| step_prepared_abort n s e : en_slots e !! n = Some s -> is_Some (preparedExecution_state (sl_pc s)) ->
    engine_step e (fst (prepared_abort n s e))
| step_activate n s e : en_slots e !! n = Some s -> is_Some (preparedRun_state (sl_pc s)) ->
    engine_step e (fst (Activate n s e))
| step_run_abort ctx n s e : en_slots e !! n = Some s -> is_Some (preparedRun_state (sl_pc s)) ->
    engine_step e (fst (PreparedRun_Abort ctx n s e))
| step_run_cancel n s e : en_slots e !! n = Some s -> is_Some (preparedRun_state (sl_pc s)) ->
    engine_step e (set_slot n (cancelled s) e)
| step_work n s e : en_slots e !! n = Some s -> sl_pc s = SlExecuting ->
    engine_step e (set_slot n (with_flags (sl_cancelled s) true (sl_retired s) s) e)
| step_release_plan n s e : en_slots e !! n = Some s -> engine_step e (release_plan n s e)
| step_complete n s e : en_slots e !! n = Some s -> sl_pc s = SlReleased -> engine_step e (fst (complete n s e))
| step_complete_inert n s e : en_slots e !! n = Some s -> sl_pc s = SlInertReleased ->
    engine_step e (fst (completeInert n s e))
| step_retire n s e : en_slots e !! n = Some s -> is_Some (preparedRun_state (sl_pc s)) ->
    engine_step e (fst (retire n s e))
| step_stop ctx cancelActive k e : en_stops e !! k = None -> engine_step e (stop ctx cancelActive k e)
| step_stop_cancel k e e' : stop_cancel k e = Some e' -> engine_step e e'
| step_stop_drained k e e' : stop_drained k e = Some e' -> engine_step e e'
| step_stop_expired k e e' : stop_expired k e = Some e' -> engine_step e e'.

(** An engine as [NewEngine] returns it: its [drained] channel is closed. *)
Definition new_engine (identities : L) : EngineState L := mkEngine false ∅ identities 0 {[0]} false ∅ ∅ 1.

Definition engine_reachable e : Prop :=
  exists identities, ids_inv identities /\ ids_view identities = ∅ /\ rtc engine_step (new_engine identities) e.

(** ** Invariant *)

(** The state in which a slot holds its identity, if it does. *)
Definition holding s : option runIdentityState :=
  match sl_pc s with
  | SlReserved | SlBoth | SlReady | SlUnwindBoth | SlUnwindIdentity | SlGated | SlInert | SlInertReleased => Some runIdentityReserved
  | SlExecuting | SlReleased => Some runIdentityActive
  | SlCompleted => if sl_retired s then None else Some runIdentityTombstone
  | SlLeased | SlUnwindLease | SlAborted | SlInertDone => None
  end.

(** Registered and not completed. *)
Definition live_pc (pc : slot_pc) : bool :=
  match pc with SlGated | SlInert | SlInertReleased | SlExecuting | SlReleased => true | _ => false end.
Definition activated (pc : slot_pc) : bool :=
  match pc with SlExecuting | SlReleased | SlCompleted => true | _ => false end.

(** The lease of a slot: held, released once, or never handed over. *)
Definition lease_ok s : Prop :=
  match sl_pc s with
  | SlLeased | SlBoth | SlReady | SlUnwindLease | SlUnwindBoth | SlGated | SlInert | SlExecuting =>
      is_Some (sl_lease s) /\ sl_acquired s = true /\ sl_releases s = 0
  | SlInertReleased | SlInertDone | SlReleased | SlCompleted => is_Some (sl_lease s) /\ sl_acquired s = true /\ sl_releases s = 1
  | SlReserved => sl_acquired s = false /\ sl_releases s = 0
  | SlUnwindIdentity | SlAborted => sl_releases s = if sl_acquired s then 1 else 0
  end.

(** What was admitted. *)
Definition origin_ok s : Prop :=
  match sl_origin s with
  | OriginStart definition input => start_guard CtxLive definition input false = None
  | OriginResume snapshot => resume_guard config CtxLive snapshot = None /\ sl_runID s = sn_runID snapshot
  end.

(** What a run executes: the plan identity of its lease, which for a resumed run
    is the snapshot's. *)
Definition plan_ok s : Prop :=
  exists lease plan, sl_lease s = Some lease /\ sl_plan s = Some plan
    /\ newPlanIdentity sha256_hex (ec_compiledPlan config) (ec_snapshotCompatibility config)
         (ec_workspaceFingerprint config) lease = Ok plan
    /\ match sl_origin s with
       | OriginStart _ _ => snapshotToken "run ID" (sl_runID s) 96 = None
       | OriginResume snapshot => sn_planIdentity snapshot = plan
       end.

Definition planned (pc : slot_pc) : bool :=
  match pc with SlLeased | SlReserved | SlUnwindLease | SlUnwindBoth | SlUnwindIdentity | SlAborted => false | _ => true end.

Record slot_ok s : Prop := {
  so_origin : origin_ok s;
  so_lease : lease_ok s;
  so_plan : planned (sl_pc s) = true -> plan_ok s;
  so_retired : sl_retired s = true -> sl_pc s = SlCompleted;
  so_worked : sl_worked s = true -> activated (sl_pc s) = true;
  so_start : sl_pc s = SlLeased -> origin_kind (sl_origin s) = preparedStartKind
}.

(** The ledger's records are the identities the slots hold, and no two slots
    were given the same token. *)
Record ids_ok (view : gmap string (Z * runIdentityState)) (issued : Z) (slots : gmap Z Slot) : Prop := {
  io_holds n s st : slots !! n = Some s -> holding s = Some st -> view !! sl_runID s = Some (sl_token s, st) /\ 0 < sl_token s;
  io_held id token st : view !! id = Some (token, st) ->
    exists n s, slots !! n = Some s /\ sl_runID s = id /\ sl_token s = token /\ holding s = Some st;
  io_tokens n n' s s' : slots !! n = Some s -> slots !! n' = Some s' -> sl_token s = sl_token s' -> 0 < sl_token s -> n = n';
  io_issued n s : slots !! n = Some s -> sl_token s <= issued
}.

(** The active map is the set of live slots. *)
Definition active_ok (active : gmap string Z) (slots : gmap Z Slot) : Prop :=
  forall id n, active !! id = Some n <-> exists s, slots !! n = Some s /\ sl_runID s = id /\ live_pc (sl_pc s) = true.

(** [drained] is closed exactly while no run is registered. *)
Record channel_ok (active : gmap string Z) (drained fresh : Z) (closed : gset Z) (panicked : bool) : Prop := {
  co_drained : active = ∅ <-> drained ∈ closed;
  co_fresh : drained < fresh;
  co_closed c : c ∈ closed -> c < fresh;
  co_panicked : panicked = false
}.

Definition cancelled_at (slots : gmap Z Slot) n : Prop := exists s, slots !! n = Some s /\ sl_cancelled s = true.

Definition stop_ok (closed : bool) (active : gmap string Z) (drained : Z) (slots : gmap Z Slot) (pc : stop_pc) : Prop :=
  match pc with
  | StopCancelling seen runs =>
      closed = true /\ seen = drained /\ forall id n, active !! id = Some n -> n ∈ runs \/ cancelled_at slots n
  | StopWaits seen cancelActive =>
      closed = true /\ seen = drained /\ (cancelActive = true -> forall id n, active !! id = Some n -> cancelled_at slots n)
  | StopReturned None => closed = true /\ active = ∅
  | StopReturned (Some _) => True
  end.

Record engine_inv e : Prop := {
  ei_ledger : ids_inv (en_identities e);
  ei_ids : ids_ok (ids_view (en_identities e)) (ids_issued (en_identities e)) (en_slots e);
  ei_slots : map_Forall (fun _ => slot_ok) (en_slots e);
  ei_active : active_ok (en_active e) (en_slots e);
  ei_channel : channel_ok (en_active e) (en_drained e) (en_fresh e) (en_closedChannels e) (en_panicked e);
  ei_stops : map_Forall (fun _ => stop_ok (en_closed e) (en_active e) (en_drained e) (en_slots e)) (en_stops e)
}.

(** *** Updates of one slot *)

Lemma ids_same view issued slots n s s' : slots !! n = Some s ->
  sl_runID s' = sl_runID s -> sl_token s' = sl_token s -> holding s' = holding s ->
  ids_ok view issued slots -> ids_ok view issued (<[n := s']> slots).
Proof.
  intros Hn Hr Ht Hh [Hhl Hhd Htk His]. split.
  - intros m x st. rewrite lookup_insert_Some. intros [[<- <-]|[_ Hm]] Hx; [|by eauto].
    rewrite Hr, Ht. rewrite Hh in Hx. eauto.
  - intros id token st (m & x & Hm & ? & ? & ?)%Hhd. destruct (decide (m = n)) as [->|Hne].
    + simplify_eq. exists n, s'. rewrite lookup_insert_eq. by rewrite Hr, Ht, Hh.
    + exists m, x. by rewrite lookup_insert_ne by done.
  - intros m m' x x'. rewrite !lookup_insert_Some. intros [[<- <-]|[? Hm]] [[<- <-]|[? Hm']]; rewrite ?Ht; [done|eauto..].
  - intros m x. rewrite lookup_insert_Some. intros [[<- <-]|[_ Hm]]; rewrite ?Ht; eauto.
Qed.

(** A slot that holds nothing takes what is reserved for it, or stays idle. *)
Definition idle (slots : gmap Z Slot) n : Prop := forall s, slots !! n = Some s -> holding s = None.

Lemma ids_idle view issued slots n s' : slots !! n = None -> holding s' = None -> sl_token s' = 0 -> 0 <= issued ->
  ids_ok view issued slots -> ids_ok view issued (<[n := s']> slots).
Proof.
  intros Hn Hh Ht Hi [Hhl Hhd Htk His]. split.
  - intros m x st. rewrite lookup_insert_Some. intros [[<- <-]|[_ Hm]] Hx; [congruence|eauto].
  - intros id token st (m & x & Hm & ? & ? & ?)%Hhd. exists m, x. rewrite lookup_insert_ne; [done|congruence].
  - intros m m' x x'. rewrite !lookup_insert_Some. intros [[<- <-]|[? Hm]] [[<- <-]|[? Hm']]; [done|lia|lia|eauto].
  - intros m x. rewrite lookup_insert_Some. intros [[<- <-]|[_ Hm]]; [lia|eauto].
Qed.

Lemma ids_reserved view issued token slots n s' : idle slots n -> view !! sl_runID s' = None ->
  holding s' = Some runIdentityReserved -> sl_token s' = token -> 0 <= issued < token ->
  ids_ok view issued slots -> ids_ok (<[sl_runID s' := (token, runIdentityReserved)]> view) token (<[n := s']> slots).
Proof.
  intros Hn Hv Hh Ht Hi [Hhl Hhd Htk His]. split.
  - intros m x st. rewrite lookup_insert_Some. intros [[<- <-]|[_ Hm]] Hx.
    + rewrite lookup_insert_eq, Ht. split; [congruence|lia].
    + destruct (Hhl _ _ _ Hm Hx) as [E ?]. rewrite lookup_insert_ne; [done|]. intros Heq. rewrite Heq in Hv. congruence.
  - intros id t st. rewrite lookup_insert_Some. intros [[<- [= <- <-]]|[_ Hid]].
    + exists n, s'. by rewrite lookup_insert_eq.
    + destruct (Hhd _ _ _ Hid) as (m & x & Hm & ? & ? & Hx). exists m, x. rewrite lookup_insert_ne; [done|].
      intros <-. rewrite (Hn _ Hm) in Hx. done.
  - intros m m' x x'. rewrite !lookup_insert_Some. intros [[<- <-]|[? Hm]] [[<- <-]|[? Hm']]; [done|..|eauto].
    + intros. specialize (His _ _ Hm'). lia.
    + intros. specialize (His _ _ Hm). lia.
  - intros m x. rewrite lookup_insert_Some. intros [[<- <-]|[_ Hm]]; [lia|]. specialize (His _ _ Hm). lia.
Qed.

(** Two slots that hold the same identifier are the same. *)
Lemma ids_unique view issued slots n n' s s' : ids_ok view issued slots ->
  slots !! n = Some s -> slots !! n' = Some s' -> is_Some (holding s) -> is_Some (holding s') -> sl_runID s = sl_runID s' -> n = n'.
Proof.
  intros Ho Hn Hn' [st Hs] [st' Hs'] E. destruct (io_holds _ _ _ Ho _ _ _ Hn Hs) as [Hv ?].
  destruct (io_holds _ _ _ Ho _ _ _ Hn' Hs') as [Hv' ?]. apply (io_tokens _ _ _ Ho _ _ _ _ Hn Hn'); congruence.
Qed.

(** A slot that holds its identity changes the state of the record, or gives it
    up. *)
Lemma ids_moved view issued slots n s s' to : slots !! n = Some s -> is_Some (holding s) ->
  sl_runID s' = sl_runID s -> sl_token s' = sl_token s -> holding s' = to ->
  ids_ok view issued slots ->
  ids_ok (partial_alter (fun _ => (fun st => (sl_token s, st)) <$> to) (sl_runID s) view) issued (<[n := s']> slots).
Proof.
  intros Hn Hs Hr Ht Hh Ho. pose proof Ho as [Hhl Hhd Htk His].
  assert (forall m x, slots !! m = Some x -> is_Some (holding x) -> sl_runID x = sl_runID s -> m = n) as Hu
    by (intros m x Hm Hx E; by eapply (ids_unique _ _ _ _ _ _ _ Ho Hm Hn)).
  split.
  - intros m x st. rewrite lookup_insert_Some. intros [[<- <-]|[Hne Hm]] Hx.
    + rewrite Hr, lookup_partial_alter_eq, Ht. rewrite Hx in Hh. rewrite <- Hh. cbn. split; [done|].
      destruct Hs as [st0 Hs]. by apply (Hhl _ _ _ Hn Hs).
    + rewrite lookup_partial_alter_ne; [by eauto|]. intros E. symmetry in E. apply Hne. symmetry. by eapply Hu; [|eexists|].
  - intros id t st. destruct (decide (id = sl_runID s)) as [->|Hid].
    + rewrite lookup_partial_alter_eq. destruct to as [st'|]; [|done]. intros [= <- <-]. exists n, s'.
      by rewrite lookup_insert_eq, Hr, Ht, Hh.
    + rewrite lookup_partial_alter_ne by done. intros (m & x & Hm & E & ? & ?)%Hhd. exists m, x.
      rewrite lookup_insert_ne; [done|]. intros <-. rewrite Hn in Hm. congruence.
  - intros m m' x x'. rewrite !lookup_insert_Some. intros [[<- <-]|[? Hm]] [[<- <-]|[? Hm']]; rewrite ?Ht; [done|eauto..].
  - intros m x. rewrite lookup_insert_Some. intros [[<- <-]|[_ Hm]]; rewrite ?Ht; eauto.
Qed.

Lemma active_same active slots n s s' : slots !! n = Some s -> live_pc (sl_pc s') = live_pc (sl_pc s) ->
  (live_pc (sl_pc s) = true -> sl_runID s' = sl_runID s) -> active_ok active slots -> active_ok active (<[n := s']> slots).
Proof.
  intros Hn Hl Hr Ha id m. rewrite (Ha id m). destruct (decide (m = n)) as [->|Hne]; [|by rewrite lookup_insert_ne].
  rewrite lookup_insert_eq, Hn. split; intros (x & [= <-] & <- & Hx); eexists; (split; [done|]).
  - by rewrite Hl, Hr.
  - rewrite Hl in Hx. by rewrite Hr.
Qed.

Lemma active_new active slots n s' : slots !! n = None -> live_pc (sl_pc s') = false ->
  active_ok active slots -> active_ok active (<[n := s']> slots).
Proof.
  intros Hn Hl Ha id m. rewrite (Ha id m). destruct (decide (m = n)) as [->|Hne]; [|by rewrite lookup_insert_ne].
  rewrite lookup_insert_eq, Hn. split; intros (x & ? & _ & Hx); simplify_eq. congruence.
Qed.

Lemma live_holding s : live_pc (sl_pc s) = true -> is_Some (holding s).
Proof. unfold holding. destruct (sl_pc s); cbn; naive_solver. Qed.

Lemma active_add view issued active slots n s s' : ids_ok view issued slots -> slots !! n = Some s -> is_Some (holding s) ->
  live_pc (sl_pc s) = false -> sl_runID s' = sl_runID s -> live_pc (sl_pc s') = true ->
  active_ok active slots -> active !! sl_runID s = None /\ active_ok (<[sl_runID s := n]> active) (<[n := s']> slots).
Proof.
  intros Ho Hn Hh Hl Hr Hl' Ha.
  assert (active !! sl_runID s = None) as Hnone.
  { destruct (active !! sl_runID s) as [m|] eqn:E; [|done]. apply Ha in E as (x & Hm & Hx & Hlx).
    assert (m = n) as -> by (eapply (ids_unique _ _ _ _ _ _ _ Ho Hm Hn); [by apply live_holding|done|done]). congruence. }
  split; [done|]. intros id m. rewrite lookup_insert_Some. split.
  - intros [[<- <-]|[Hid (x & Hm & Hx & Hlx)%Ha]]; [by exists s'; rewrite lookup_insert_eq, Hr|].
    exists x. rewrite lookup_insert_ne; [done|]. intros <-. congruence.
  - intros (x & Hx & <- & Hlx). apply lookup_insert_Some in Hx as [[<- <-]|[Hne Hm]]; [by rewrite Hr; left|].
    right. split; [|apply Ha; eauto]. intros E. apply Hne.
    eapply (ids_unique _ _ _ _ _ _ _ Ho Hn Hm); [done|by apply live_holding|done].
Qed.

Lemma active_drop view issued active slots n s s' : ids_ok view issued slots -> slots !! n = Some s ->
  live_pc (sl_pc s) = true -> live_pc (sl_pc s') = false ->
  active_ok active slots -> active_ok (delete (sl_runID s) active) (<[n := s']> slots).
Proof.
  intros Ho Hn Hl Hl' Ha id m. rewrite lookup_delete_Some. split.
  - intros [Hne (x & Hm & Hx & Hlx)%Ha]. exists x. rewrite lookup_insert_ne; [done|]. intros <-. congruence.
  - intros (x & Hx & <- & Hlx). apply lookup_insert_Some in Hx as [[<- <-]|[Hne Hm]]; [congruence|].
    split; [|apply Ha; eauto]. intros E. apply Hne.
    eapply (ids_unique _ _ _ _ _ _ _ Ho Hn Hm); [by apply live_holding..|done].
Qed.

Lemma stop_mono closed closed' active active' drained drained' slots slots' pc :
  (closed = true -> closed' = true /\ active' ⊆ active /\ drained' = drained
     /\ forall n, cancelled_at slots n -> cancelled_at slots' n) ->
  stop_ok closed active drained slots pc -> stop_ok closed' active' drained' slots' pc.
Proof.
  intros Hc. destruct pc as [seen runs|seen c|[err|]]; cbn; [| |done|].
  - intros (E & -> & Hr). destruct (Hc E) as (-> & Hs & -> & Hm). do 2 (split; [done|]).
    intros id n Hn. destruct (Hr id n (lookup_weaken _ _ _ _ Hn Hs)); auto.
  - intros (E & -> & Hr). destruct (Hc E) as (-> & Hs & -> & Hm). do 2 (split; [done|]).
    intros Hca id n Hn. apply Hm, (Hr Hca id n), (lookup_weaken _ _ _ _ Hn Hs).
  - intros (E & Ha). destruct (Hc E) as (-> & Hs & -> & _). split; [done|]. subst active. apply map_empty. intros i. destruct (active' !! i) eqn:E'; [|done]. by apply (lookup_weaken _ _ _ _ E') in Hs.
Qed.

Lemma cancelled_insert slots n s' : (forall s, slots !! n = Some s -> sl_cancelled s = true -> sl_cancelled s' = true) ->
  forall m, cancelled_at slots m -> cancelled_at (<[n := s']> slots) m.
Proof.
  intros Hc m (x & Hm & Hx). unfold cancelled_at. destruct (decide (m = n)) as [->|Hne].
  - rewrite lookup_insert_eq. eauto.
  - rewrite lookup_insert_ne by done. eauto.
Qed.

(** *** Transitions that touch one slot only *)

Definition same_identity s s' : Prop :=
  sl_runID s' = sl_runID s /\ sl_token s' = sl_token s /\ holding s' = holding s
  /\ live_pc (sl_pc s') = live_pc (sl_pc s) /\ (sl_cancelled s = true -> sl_cancelled s' = true).

Lemma set_slot_inv n s s' e : en_slots e !! n = Some s -> same_identity s s' -> slot_ok s' ->
  engine_inv e -> engine_inv (set_slot n s' e).
Proof.
  intros Hn (Hr & Ht & Hh & Hl & Hc) Hs' [Hi Ho Hs Ha Hch Hst]. split; cbn; [done|..].
  - by eapply ids_same.
  - by apply map_Forall_insert_2.
  - by eapply active_same.
  - done.
  - eapply map_Forall_impl; [exact Hst|]. intros k pc. apply stop_mono. intros ->. split_and!; [done..|].
    apply cancelled_insert. naive_solver.
Qed.

Lemma new_slot_inv n s' e : en_slots e !! n = None -> holding s' = None -> sl_token s' = 0 -> live_pc (sl_pc s') = false ->
  slot_ok s' -> engine_inv e -> engine_inv (set_slot n s' e).
Proof.
  intros Hn Hh Ht Hl Hs' [Hi Ho Hs Ha Hch Hst]. split; cbn; [done|..].
  - apply ids_idle; [done..|by apply ids_issued_law|done].
  - by apply map_Forall_insert_2.
  - by apply active_new.
  - done.
  - eapply map_Forall_impl; [exact Hst|]. intros k pc. apply stop_mono. intros ->. split_and!; [done..|].
    apply cancelled_insert. congruence.
Qed.

(** *** The identity operations *)

Lemma set_identities_same e : set_identities (en_identities e) e = e.
Proof. by destruct e. Qed.

Lemma run_id_length runID : snapshotToken "run ID" runID 96 = None -> slen runID <= maxInt64.
Proof. intros [_ Hl]%snapshotToken_spec. unfold maxInt64. lia. Qed.

Lemma reserve_run_spec runID kind e : engine_inv e -> snapshotToken "run ID" runID 96 = None ->
  match reserveRunIdentity runID kind e with
  | (e', Ok token) =>
      exists l, e' = set_identities l e /\ ids_inv l /\ ids_view (en_identities e) !! runID = None
        /\ 0 <= ids_issued (en_identities e) < token /\ ids_issued l = token
        /\ ids_view l = <[runID := (token, runIdentityReserved)]> (ids_view (en_identities e)) /\ en_closed e = false
  | (e', Err _) => e' = e
  end.
Proof.
  intros Hi Hr. unfold reserveRunIdentity. destruct (en_closed e); [done|].
  pose proof (ids_reserve_law _ runID kind (ei_ledger e Hi) (run_id_length _ Hr)) as Hl.
  destruct (ids_reserve _ runID kind) as [l [token|err]].
  - exists l. naive_solver.
  - subst l. apply set_identities_same.
Qed.

(** A slot that holds nothing takes a fresh identity. *)
Lemma reserved_inv runID kind n s s' e e' token : engine_inv e -> snapshotToken "run ID" runID 96 = None ->
  reserveRunIdentity runID kind e = (e', Ok token) ->
  (en_slots e !! n = None \/ en_slots e !! n = Some s /\ holding s = None /\ live_pc (sl_pc s) = false /\ sl_cancelled s' = sl_cancelled s) ->
  sl_runID s' = runID -> sl_token s' = token -> holding s' = Some runIdentityReserved -> live_pc (sl_pc s') = false -> slot_ok s' ->
  engine_inv (set_slot n s' e').
Proof.
  intros Hi Hr E Hn Hid Ht Hh Hl Hs'. pose proof (reserve_run_spec runID kind e Hi Hr) as Hsp. rewrite E in Hsp.
  destruct Hsp as (l & -> & Hil & Hnone & Hiss & Hiss' & Hv & _). destruct Hi as [Hi Ho Hs Ha Hch Hst]. split; cbn; [done|..].
  - rewrite Hv, Hiss', <- Hid. eapply ids_reserved; [|by rewrite Hid|done..]. intros x Hx. naive_solver.
  - by apply map_Forall_insert_2.
  - destruct Hn as [Hn|(Hn & _ & Hls & _)]; [by apply active_new|]. eapply active_same; [done|congruence| |done]. congruence.
  - done.
  - eapply map_Forall_impl; [exact Hst|]. intros k pc. apply stop_mono. intros ->. split_and!; [done..|].
    apply cancelled_insert. intros x Hx. destruct Hn as [Hn|(Hn & _ & _ & Hc)]; congruence.
Qed.

(** Activation of a reserved identity succeeds. *)
Lemma activate_spec n s e : engine_inv e -> en_slots e !! n = Some s -> holding s = Some runIdentityReserved ->
  exists l, activateRunIdentity (sl_runID s) (sl_token s) e = (set_identities l e, None) /\ ids_inv l
    /\ ids_issued l = ids_issued (en_identities e)
    /\ ids_view l = <[sl_runID s := (sl_token s, runIdentityActive)]> (ids_view (en_identities e)).
Proof.
  intros Hi Hn Hh. destruct (io_holds _ _ _ (ei_ids e Hi) _ _ _ Hn Hh) as [Hv _]. unfold activateRunIdentity.
  assert (runIdentityActive <> runIdentityReserved) as Hne by done.
  pose proof (ids_transition_law _ (sl_runID s) (sl_token s) runIdentityReserved _ (ei_ledger e Hi) Hne) as Hl.
  destruct (ids_transition _ _ _ _ _) as [l [err|]]; [by destruct Hl|]. exists l. naive_solver.
Qed.

Lemma abort_spec n s e : engine_inv e -> en_slots e !! n = Some s -> holding s = Some runIdentityReserved ->
  exists l, ids_abort (en_identities e) (sl_runID s) (sl_token s) = (l, None) /\ ids_inv l
    /\ ids_issued l = ids_issued (en_identities e) /\ ids_view l = delete (sl_runID s) (ids_view (en_identities e)).
Proof.
  intros Hi Hn Hh. destruct (io_holds _ _ _ (ei_ids e Hi) _ _ _ Hn Hh) as [Hv _].
  pose proof (ids_abort_law _ (sl_runID s) (sl_token s) (ei_ledger e Hi)) as Hl.
  destruct (ids_abort _ _ _) as [l [err|]]; [by destruct Hl|]. exists l. naive_solver.
Qed.

Lemma complete_spec n s e : engine_inv e -> en_slots e !! n = Some s -> holding s = Some runIdentityActive ->
  exists l, ids_transition (en_identities e) (sl_runID s) (sl_token s) runIdentityActive runIdentityTombstone = (l, None)
    /\ ids_inv l /\ ids_issued l = ids_issued (en_identities e)
    /\ ids_view l = <[sl_runID s := (sl_token s, runIdentityTombstone)]> (ids_view (en_identities e)).
Proof.
  intros Hi Hn Hh. destruct (io_holds _ _ _ (ei_ids e Hi) _ _ _ Hn Hh) as [Hv _].
  assert (runIdentityTombstone <> runIdentityReserved) as Hne by done.
  pose proof (ids_transition_law _ (sl_runID s) (sl_token s) runIdentityActive _ (ei_ledger e Hi) Hne) as Hl.
  destruct (ids_transition _ _ _ _ _) as [l [err|]]; [by destruct Hl|]. exists l. naive_solver.
Qed.

(** A retirement succeeds exactly for a completed run that was not retired. *)
Lemma retire_spec n s e : engine_inv e -> en_slots e !! n = Some s ->
  match ids_retire (en_identities e) (sl_runID s) (sl_token s) with
  | (l, None) => holding s = Some runIdentityTombstone /\ ids_inv l /\ ids_issued l = ids_issued (en_identities e)
                 /\ ids_view l = delete (sl_runID s) (ids_view (en_identities e))
  | (l, Some _) => l = en_identities e /\ holding s <> Some runIdentityTombstone
  end.
Proof.
  intros Hi Hn. pose proof (ei_ids e Hi) as Ho. pose proof (ids_retire_law _ (sl_runID s) (sl_token s) (ei_ledger e Hi)) as Hl.
  destruct (ids_retire _ _ _) as [l [err|]].
  - destruct Hl as [-> Hv]. split; [done|]. intros Hh. by destruct (io_holds _ _ _ Ho _ _ _ Hn Hh).
  - destruct Hl as (Hil & Hiss & Hv & Hv'). split; [|done]. apply (io_held _ _ _ Ho) in Hv as (m & x & Hm & Hx & Ht & Hh).
    destruct (io_holds _ _ _ Ho _ _ _ Hm Hh) as [_ Hpos].
    assert (m = n) as -> by (by apply (io_tokens _ _ _ Ho _ _ _ _ Hm Hn)). congruence.
Qed.

(** *** Registration and completion *)

(** What a transition changes besides a slot: the ledger, and, for a slot that
    leaves the registry, the active map and the channel. *)
Lemma moved_inv n s s' to l e : engine_inv e -> en_slots e !! n = Some s -> is_Some (holding s) ->
  ids_inv l -> ids_issued l = ids_issued (en_identities e) ->
  ids_view l = partial_alter (fun _ => (fun st => (sl_token s, st)) <$> to) (sl_runID s) (ids_view (en_identities e)) ->
  sl_runID s' = sl_runID s -> sl_token s' = sl_token s -> holding s' = to -> live_pc (sl_pc s') = live_pc (sl_pc s) ->
  (sl_cancelled s = true -> sl_cancelled s' = true) -> slot_ok s' -> engine_inv (set_slot n s' (set_identities l e)).
Proof.
  intros [Hi Ho Hs Ha Hch Hst] Hn Hh Hil Hiss Hv Hr Ht Hto Hl Hc Hs'. split; cbn; [done|..].
  - rewrite Hv, Hiss. by apply (ids_moved _ _ _ _ _ _ _ Hn Hh Hr Ht Hto).
  - by apply map_Forall_insert_2.
  - by eapply active_same.
  - done.
  - eapply map_Forall_impl; [exact Hst|]. intros k pc. apply stop_mono. intros ->. split_and!; [done..|].
    apply cancelled_insert. naive_solver.
Qed.

Lemma deregister_channel runID active drained fresh closed panicked : is_Some (active !! runID) ->
  channel_ok active drained fresh closed panicked ->
  let active' := delete runID active in let empty := bool_decide (active' = ∅) in
  channel_ok active' drained fresh (if empty then {[drained]} ∪ closed else closed)
    (panicked || (empty && bool_decide (drained ∈ closed))).
Proof.
  intros [n Hn] [Hd Hf Hc Hp]. assert (drained ∉ closed) as Hopen by (intros Hin%Hd; subst; by rewrite lookup_empty in Hn).
  cbn. rewrite (bool_decide_eq_false_2 (drained ∈ closed)) by done. rewrite andb_false_r, Hp. case_bool_decide as He.
  - split; [rewrite He; set_solver|done|set_solver|done].
  - split; [|done..]. split; [done|]. by intros ?%Hopen.
Qed.

Lemma completed_inv n s s' to l e : engine_inv e -> en_slots e !! n = Some s -> live_pc (sl_pc s) = true ->
  ids_inv l -> ids_issued l = ids_issued (en_identities e) ->
  ids_view l = partial_alter (fun _ => (fun st => (sl_token s, st)) <$> to) (sl_runID s) (ids_view (en_identities e)) ->
  sl_runID s' = sl_runID s -> sl_token s' = sl_token s -> holding s' = to -> live_pc (sl_pc s') = false ->
  sl_cancelled s' = true -> slot_ok s' -> engine_inv (set_slot n s' (deregister (sl_runID s) (set_identities l e))).
Proof.
  intros [Hi Ho Hs Ha Hch Hst] Hn Hl Hil Hiss Hv Hr Ht Hto Hl' Hc Hs'. split; cbn; [done|..].
  - rewrite Hv, Hiss. by apply (ids_moved _ _ _ _ _ _ _ Hn (live_holding _ Hl) Hr Ht Hto).
  - by apply map_Forall_insert_2.
  - by eapply active_drop.
  - apply deregister_channel; [|done]. exists n. apply Ha. eauto.
  - eapply map_Forall_impl; [exact Hst|]. intros k pc. apply stop_mono. intros ->. split_and!; [done| |done|].
    + apply delete_subseteq.
    + apply cancelled_insert. done.
Qed.

Lemma engine_register_inv n s pc e : engine_inv e -> en_slots e !! n = Some s -> sl_pc s = SlReady -> en_closed e = false ->
  live_pc pc = true -> holding (at_pc pc s) = Some runIdentityReserved -> slot_ok (at_pc pc s) -> engine_inv (register n s pc e).
Proof.
  intros [Hi Ho Hs Ha Hch Hst] Hn Hpc Hcl Hl Hh Hs'.
  assert (holding s = Some runIdentityReserved) as Hhs by (unfold holding; by rewrite Hpc).
  destruct (active_add _ _ (en_active e) _ n s (at_pc pc s) Ho Hn ltac:(by rewrite Hhs) ltac:(by rewrite Hpc) eq_refl Hl Ha) as [Hnone Ha'].
  split; cbn; [done|..].
  - eapply ids_same; [done..| |done]. congruence.
  - by apply map_Forall_insert_2.
  - done.
  - destruct Hch as [Hd Hf Hc Hp]. assert (<[sl_runID s := n]> (en_active e) <> ∅) as Hne by apply insert_non_empty.
    case_bool_decide as He.
    + split; [|lia|intros c ?%Hc; lia|done]. split; [done|]. intros ?%Hc. lia.
    + split; [|done..]. split; [done|]. by intros ?%Hd.
  - eapply map_Forall_impl; [exact Hst|]. intros k q. apply stop_mono. congruence.
Qed.

(** *** Every transition *)

(** A slot at a known place that moves to another. *)
Ltac slot_moves :=
  match goal with
  | Hs : slot_ok ?s, Hpc : sl_pc ?s = _ |- slot_ok _ =>
      destruct Hs as [Horigin Hlease Hplan Hretired Hworked Hstart];
      unfold lease_ok in Hlease; rewrite Hpc in Hlease, Hplan, Hretired, Hworked, Hstart; split;
      unfold origin_ok, lease_ok, plan_ok in *; cbn in *; rewrite ?Hpc; cbn;
      first [done | (destruct Hlease as (? & -> & ->); done) | (intros; naive_solver (lia || done)) | idtac]
  end.
Ltac same_slot :=
  match goal with Hpc : sl_pc ?s = _ |- same_identity ?s _ =>
    unfold same_identity, holding; cbn; rewrite ?Hpc; cbn; split_and!; done end.

Lemma slot_at n s e : engine_inv e -> en_slots e !! n = Some s -> slot_ok s.
Proof. intros Hi Hn. exact (ei_slots e Hi n s Hn). Qed.

Lemma start_lease_inv n definition input answer ctx_live e : en_slots e !! n = None ->
  start_guard CtxLive definition input (en_closed e) = None -> engine_inv e ->
  engine_inv (PrepareStart_lease n definition input answer ctx_live e).
Proof.
  intros Hn Hg Hi. unfold PrepareStart_lease.
  assert (start_guard CtxLive definition input false = None) as Hg'
    by (revert Hg; cbn; destruct (NewAgentDefinition _ _ _), (NewInput input), (en_closed e); done).
  pose proof (lease_current_accounts answer ctx_live) as Hacc.
  destruct (leaseCurrentToolPlan answer ctx_live) as [[lease|err] leases].
  - by apply new_slot_inv.
  - apply new_slot_inv; try done. cbn in Hacc. split; cbn; try done. unfold lease_ok. cbn. subst leases.
    by destruct answer as [|[held|] ?].
Qed.

Lemma start_reserve_inv n s allocated e : en_slots e !! n = Some s -> sl_pc s = SlLeased -> engine_inv e ->
  engine_inv (PrepareStart_reserve n s allocated e).
Proof.
  intros Hn Hpc Hi. pose proof (slot_at n s e Hi Hn) as Hs. unfold PrepareStart_reserve.
  assert (engine_inv (set_slot n (at_pc SlUnwindLease s) e)) as Hun
    by (eapply set_slot_inv; [done|same_slot|slot_moves|done]).
  destruct (sl_lease s) as [lease|] eqn:El; [|done].
  destruct (newPlanIdentity _ _ _ _ lease) as [plan|] eqn:Ep; [|done]. destruct allocated as [runID|]; [|done].
  destruct (snapshotToken "run ID" runID 96) eqn:Et; [done|].
  pose proof (reserve_run_spec runID preparedStartKind e Hi Et) as Hsp.
  destruct (reserveRunIdentity runID preparedStartKind e) as [e' [token|err]] eqn:Er; [|by subst e'].
  apply (reserved_inv runID preparedStartKind n s _ e e' token); try done.
  - right. unfold holding. by rewrite Hpc.
  - destruct Hs as [Horigin Hlease Hplan Hretired Hworked Hstart]. unfold lease_ok in Hlease. rewrite Hpc in *.
    unfold origin_ok in Horigin. split; unfold origin_ok, lease_ok, plan_ok; cbn; [|done| |naive_solver..].
    + by destruct (sl_origin s); [|discriminate (Hstart eq_refl)].
    + intros _. exists lease, plan. by destruct (sl_origin s); [|discriminate (Hstart eq_refl)].
Qed.

Lemma resume_guard_inv snapshot : resume_guard config CtxLive snapshot = None ->
  Snapshot_Validate snapshot = None /\ sn_status snapshot = LifecycleSuspended
  /\ pi_snapshotCompatibility (sn_planIdentity snapshot) = ec_snapshotCompatibility config
  /\ pi_workspaceFingerprint (sn_planIdentity snapshot) = ec_workspaceFingerprint config
  /\ pi_compiled (sn_planIdentity snapshot) = ec_compiledPlan config.
Proof.
  unfold resume_guard. destruct (Snapshot_Validate snapshot); [done|]. destruct (String.eqb_spec (sn_status snapshot) LifecycleSuspended); [|done].
  destruct (String.eqb _ ""); [done|]. cbn. destruct (String.eqb_spec (pi_snapshotCompatibility (sn_planIdentity snapshot)) (ec_snapshotCompatibility config)); [|done].
  destruct (String.eqb_spec (pi_workspaceFingerprint (sn_planIdentity snapshot)) (ec_workspaceFingerprint config)); [|done].
  case_bool_decide; done.
Qed.

Lemma snapshot_run_id snapshot : Snapshot_Validate snapshot = None -> snapshotToken "run ID" (sn_runID snapshot) 96 = None.
Proof.
  unfold Snapshot_Validate, validate_header. destruct (negb _); [done|]. by destruct (snapshotToken "run ID" (sn_runID snapshot) 96).
Qed.

Lemma plan_identity_equal i j : PlanIdentity_equal i j = true -> i = j.
Proof.
  unfold PlanIdentity_equal. rewrite !andb_true_iff, !String.eqb_eq, bool_decide_eq_true.
  destruct i, j; cbn. naive_solver.
Qed.

Lemma resume_reserve_inv n snapshot e : en_slots e !! n = None -> resume_guard config CtxLive snapshot = None ->
  engine_inv e -> engine_inv (PrepareResume_reserve n snapshot e).
Proof.
  intros Hn Hg Hi. unfold PrepareResume_reserve. destruct (resume_guard_inv _ Hg) as [Hv%snapshot_run_id _].
  pose proof (reserve_run_spec (sn_runID snapshot) preparedResumeKind e Hi Hv) as Hsp.
  destruct (reserveRunIdentity (sn_runID snapshot) preparedResumeKind e) as [e' [token|err]] eqn:Er; [|by subst e'].
  apply (reserved_inv (sn_runID snapshot) preparedResumeKind n (new_slot SlAborted (OriginResume snapshot)) _ e e' token); try done.
  - by left.
Qed.

Lemma resume_lease_inv n s snapshot answer ctx_live e : en_slots e !! n = Some s -> sl_pc s = SlReserved ->
  sl_origin s = OriginResume snapshot -> engine_inv e -> engine_inv (PrepareResume_lease n s snapshot answer ctx_live e).
Proof.
  intros Hn Hpc Ho Hi. pose proof (slot_at n s e Hi Hn) as Hs. unfold PrepareResume_lease.
  pose proof (lease_generation_accounts (pi_toolPlanID (sn_planIdentity snapshot)) answer ctx_live) as Hacc.
  destruct (leaseToolPlanGeneration _ answer ctx_live) as [[lease|err] leases].
  - assert (engine_inv (set_slot n (at_pc SlUnwindBoth (with_lease (Some lease) true 0 s)) e)) as Hun
      by (eapply set_slot_inv; [done|same_slot|slot_moves|done]).
    destruct (newPlanIdentity _ _ _ _ lease) as [plan|] eqn:Ep; [|done].
    destruct (PlanIdentity_equal _ plan) eqn:Eq; [|done]. apply plan_identity_equal in Eq.
    eapply set_slot_inv; [done|same_slot| |done]. slot_moves.
    intros _. exists lease, plan. by rewrite Ho.
  - eapply set_slot_inv; [done|same_slot| |done]. cbn in Hacc. slot_moves. subst leases. by destruct answer as [|[held|] ?].
Qed.

Lemma finish_preparation_inv n s ctx_live e : en_slots e !! n = Some s -> sl_pc s = SlBoth -> engine_inv e ->
  engine_inv (finish_preparation n s ctx_live e).
Proof.
  intros Hn Hpc Hi. pose proof (slot_at n s e Hi Hn) as Hs. unfold finish_preparation.
  destruct (prepare_log s), ctx_live; (eapply set_slot_inv; [done|same_slot|slot_moves|done]).
Qed.

Lemma unwind_lease_inv n s e : en_slots e !! n = Some s -> engine_inv e -> engine_inv (unwind_lease n s e).
Proof.
  intros Hn Hi. pose proof (slot_at n s e Hi Hn) as Hs. unfold unwind_lease.
  destruct (sl_pc s) eqn:Hpc; try done; (eapply set_slot_inv; [done|same_slot|slot_moves|done]).
Qed.

Lemma unwind_identity_inv n s e : en_slots e !! n = Some s -> sl_pc s = SlUnwindIdentity -> engine_inv e ->
  engine_inv (fst (unwind_identity n s e)).
Proof.
  intros Hn Hpc Hi. pose proof (slot_at n s e Hi Hn) as Hs. unfold unwind_identity, abortRunIdentityReservation.
  assert (holding s = Some runIdentityReserved) as Hh by (unfold holding; by rewrite Hpc).
  destruct (abort_spec n s e Hi Hn Hh) as (l & -> & Hil & Hiss & Hv). cbn.
  apply (moved_inv n s _ None l); try done; [by rewrite Hpc|slot_moves].
Qed.

(** Registration with activation is registration, then activation. *)
Lemma register_activate n s l e :
  register n s SlExecuting (set_identities l e) = set_slot n (at_pc SlExecuting s) (set_identities l (register n s SlGated e)).
Proof. unfold register, set_slot, set_identities. cbn. by rewrite insert_insert_eq. Qed.

Lemma gated_inv n s e : en_slots e !! n = Some s -> sl_pc s = SlReady -> en_closed e = false -> engine_inv e ->
  engine_inv (register n s SlGated e).
Proof.
  intros Hn Hpc Hcl Hi. pose proof (slot_at n s e Hi Hn) as Hs. apply engine_register_inv; try done. slot_moves.
Qed.

(** [Activate] of a gated run. *)
Lemma activated_inv n s l e : en_slots e !! n = Some s -> sl_pc s = SlGated -> engine_inv e ->
  ids_inv l -> ids_issued l = ids_issued (en_identities e) ->
  ids_view l = <[sl_runID s := (sl_token s, runIdentityActive)]> (ids_view (en_identities e)) ->
  engine_inv (set_slot n (at_pc SlExecuting s) (set_identities l e)).
Proof.
  intros Hn Hpc Hi Hil Hiss Hv. pose proof (slot_at n s e Hi Hn) as Hs.
  apply (moved_inv n s _ (Some runIdentityActive) l); try done; [|by rewrite Hpc|slot_moves]. unfold holding. by rewrite Hpc.
Qed.

Lemma commit_paused_inv ctx immediate n s e : en_slots e !! n = Some s -> engine_inv e ->
  engine_inv (fst (commitPaused ctx immediate n s e)).
Proof.
  intros Hn Hi. pose proof (slot_at n s e Hi Hn) as Hs. unfold commitPaused.
  destruct (sl_pc s) eqn:Hpc; try done. cbn.
  assert (engine_inv (set_slot n (at_pc SlUnwindBoth s) e)) as Hun by (eapply set_slot_inv; [done|same_slot|slot_moves|done]).
  destruct ctx; [done| |done]. destruct (en_closed e) eqn:Hcl; [done|].
  pose proof (gated_inv n s e Hn Hpc Hcl Hi) as Hg. destruct immediate; [|done].
  assert (holding s = Some runIdentityReserved) as Hh by (unfold holding; by rewrite Hpc).
  destruct (activate_spec n s e Hi Hn Hh) as (l & -> & Hil & Hiss & Hv). cbn. rewrite register_activate.
  apply (activated_inv n (at_pc SlGated s)); try done. cbn. by rewrite lookup_insert_eq.
Qed.

Lemma prepared_abort_inv n s e : en_slots e !! n = Some s -> engine_inv e -> engine_inv (fst (prepared_abort n s e)).
Proof.
  intros Hn Hi. pose proof (slot_at n s e Hi Hn) as Hs. unfold prepared_abort.
  destruct (sl_pc s) eqn:Hpc; try done. eapply set_slot_inv; [done|same_slot|slot_moves|done].
Qed.

Lemma activate_inv n s e : en_slots e !! n = Some s -> engine_inv e -> engine_inv (fst (Activate n s e)).
Proof.
  intros Hn Hi. unfold Activate. destruct (sl_pc s) eqn:Hpc; try done. cbn.
  assert (holding s = Some runIdentityReserved) as Hh by (unfold holding; by rewrite Hpc).
  destruct (activate_spec n s e Hi Hn Hh) as (l & -> & Hil & Hiss & Hv). by apply activated_inv.
Qed.

Lemma run_abort_inv ctx n s e : en_slots e !! n = Some s -> engine_inv e -> engine_inv (fst (PreparedRun_Abort ctx n s e)).
Proof.
  intros Hn Hi. pose proof (slot_at n s e Hi Hn) as Hs. unfold PreparedRun_Abort. destruct ctx; [done|..];
    (destruct (sl_pc s) eqn:Hpc; try done; eapply set_slot_inv; [done|same_slot|slot_moves|done]).
Qed.

Lemma flags_inv n s cancelled worked e : en_slots e !! n = Some s -> (sl_cancelled s = true -> cancelled = true) ->
  (worked = true -> activated (sl_pc s) = true) -> engine_inv e ->
  engine_inv (set_slot n (with_flags cancelled worked (sl_retired s) s) e).
Proof.
  intros Hn Hc Hw Hi. destruct (slot_at n s e Hi Hn) as [? ? ? ? ? ?]. eapply set_slot_inv; [done|done| |done]. by split.
Qed.

Lemma release_plan_inv n s e : en_slots e !! n = Some s -> engine_inv e -> engine_inv (release_plan n s e).
Proof.
  intros Hn Hi. pose proof (slot_at n s e Hi Hn) as Hs. unfold release_plan.
  destruct (sl_pc s) eqn:Hpc; try done; (eapply set_slot_inv; [done|same_slot|slot_moves|done]).
Qed.

Lemma run_complete_inv n s e : en_slots e !! n = Some s -> sl_pc s = SlReleased -> engine_inv e -> engine_inv (fst (complete n s e)).
Proof.
  intros Hn Hpc Hi. pose proof (slot_at n s e Hi Hn) as Hs. unfold complete, completeRunIdentity.
  assert (holding s = Some runIdentityActive) as Hh by (unfold holding; by rewrite Hpc).
  destruct (complete_spec n s e Hi Hn Hh) as (l & -> & Hil & Hiss & Hv). cbn.
  assert (sl_retired s = false) as Hr by (destruct (sl_retired s) eqn:E; [|done]; apply (so_retired s Hs) in E; congruence).
  apply (completed_inv n s _ (Some runIdentityTombstone) l); try done; [by rewrite Hpc|unfold holding; cbn; by rewrite Hr|slot_moves].
Qed.

Lemma complete_inert_inv n s e : en_slots e !! n = Some s -> sl_pc s = SlInertReleased -> engine_inv e ->
  engine_inv (fst (completeInert n s e)).
Proof.
  intros Hn Hpc Hi. pose proof (slot_at n s e Hi Hn) as Hs. unfold completeInert, abortRegisteredRunIdentity.
  assert (holding s = Some runIdentityReserved) as Hh by (unfold holding; by rewrite Hpc).
  destruct (abort_spec n s e Hi Hn Hh) as (l & -> & Hil & Hiss & Hv). cbn.
  apply (completed_inv n s _ None l); try done; [by rewrite Hpc|slot_moves].
Qed.

Lemma retire_inv n s e : en_slots e !! n = Some s -> engine_inv e -> engine_inv (fst (retire n s e)).
Proof.
  intros Hn Hi. pose proof (slot_at n s e Hi Hn) as Hs. unfold retire, retireRunIdentity. destruct (sl_retired s) eqn:Hr; [done|].
  pose proof (retire_spec n s e Hi Hn) as Hsp. destruct (ids_retire _ _ _) as [l [err|]]; cbn.
  - destruct Hsp as [-> _]. by rewrite set_identities_same.
  - destruct Hsp as (Hh & Hil & Hiss & Hv). unfold holding in Hh. rewrite Hr in Hh.
    destruct (sl_pc s) eqn:Hpc; try discriminate Hh.
    apply (moved_inv n s _ None l); try done; [unfold holding; by rewrite Hpc, Hr|unfold holding; cbn; by rewrite Hpc|slot_moves].
Qed.

Lemma set_stop_inv k pc e : stop_ok (en_closed e) (en_active e) (en_drained e) (en_slots e) pc -> engine_inv e ->
  engine_inv (set_stop k pc e).
Proof. intros Hk [Hi Ho Hs Ha Hch Hst]. split; cbn; try done. by apply map_Forall_insert_2. Qed.

Lemma stop_begin_inv ctx cancelActive k e : engine_inv e -> engine_inv (stop ctx cancelActive k e).
Proof.
  intros Hi. unfold stop. destruct ctx; [by apply set_stop_inv|..];
    (apply set_stop_inv; [destruct cancelActive; cbn; split_and!; try done|
       destruct Hi as [Hi Ho Hs Ha Hch Hst]; split; cbn; try done; eapply map_Forall_impl; [exact Hst|];
       intros j pc; apply stop_mono; done]);
    intros id n Hn; left; apply list_elem_of_fmap; exists (id, n); by rewrite elem_of_map_to_list.
Qed.

Lemma stop_cancel_inv k e e' : stop_cancel k e = Some e' -> engine_inv e -> engine_inv e'.
Proof.
  intros E Hi. unfold stop_cancel in E. destruct (en_stops e !! k) as [[drained [|n runs]|?|?]|] eqn:Ek; try discriminate E; injection E as <-.
  - apply set_stop_inv; [|done]. destruct (ei_stops e Hi k _ Ek) as (Hc & -> & Hr). split_and!; [done..|].
    intros _ id m Hm. destruct (Hr id m Hm) as [?%elem_of_nil|?]; done.
  - destruct (ei_stops e Hi k _ Ek) as (Hc & -> & Hr). destruct (en_slots e !! n) as [s|] eqn:Hn.
    + apply set_stop_inv; [|by apply flags_inv; [..|apply (slot_at n s e Hi Hn)|]]. cbn. split_and!; [done..|].
      intros id m Hm. destruct (decide (m = n)) as [->|Hne]; [right; eexists; by rewrite lookup_insert_eq|].
      destruct (Hr id m Hm) as [[?|?]%elem_of_cons|Hcan]; [done|by left|right]. by apply cancelled_insert.
    + apply set_stop_inv; [|done]. split_and!; [done..|]. intros id m Hm.
      destruct (Hr id m Hm) as [[->|?]%elem_of_cons|Hcan]; [|by left|by right].
      apply (ei_active e Hi) in Hm as (x & Hx & _). congruence.
Qed.

Lemma engine_step_inv e e' : engine_step e e' -> engine_inv e -> engine_inv e'.
Proof.
  intros Hstep Hi. destruct Hstep;
    eauto using start_lease_inv, start_reserve_inv, resume_reserve_inv, resume_lease_inv, finish_preparation_inv,
      unwind_lease_inv, unwind_identity_inv, commit_paused_inv, prepared_abort_inv, activate_inv, run_abort_inv,
      release_plan_inv, run_complete_inv, complete_inert_inv, retire_inv, stop_begin_inv, stop_cancel_inv.
  - apply flags_inv; try done. apply (slot_at n s e Hi). done.
  - apply flags_inv; try done. intros _. by rewrite H1.
  - unfold stop_drained in H0. destruct (en_stops e !! k) as [[?|drained c|?]|] eqn:Ek; try discriminate H0.
    case_bool_decide as Hd; [|done]. injection H0 as <-. apply set_stop_inv; [|done].
    destruct (ei_stops e Hi k _ Ek) as (Hc & -> & _). split; [done|]. by apply (co_drained _ _ _ _ _ (ei_channel e Hi)).
  - unfold stop_expired in H0. destruct (en_stops e !! k) as [[?|drained c|?]|] eqn:Ek; try discriminate H0.
    injection H0 as <-. by apply set_stop_inv.
Qed.

Lemma new_engine_inv identities : ids_inv identities -> ids_view identities = ∅ -> engine_inv (new_engine identities).
Proof.
  intros Hi Hv. split; cbn; [done| |apply map_Forall_empty| | |apply map_Forall_empty].
  - rewrite Hv. split; intros *; by rewrite lookup_empty.
  - intros id n. setoid_rewrite lookup_empty. naive_solver.
  - split; [set_solver|done|set_solver by lia|done].
Qed.

Lemma engine_reachable_inv e : engine_reachable e -> engine_inv e.
Proof.
  intros (l & Hi & Hv & Hr). apply (new_engine_inv l Hi) in Hv. revert Hv. clear Hi.
  induction Hr as [|e1 e2 e3 Hs Hr IH]; [done|]. intros Hinv. apply IH. by eapply engine_step_inv.
Qed.

(** *** Decisions are final *)

(** A call of [stop] that returned stays as it returned. *)
Lemma stop_final k err e e' : engine_step e e' -> en_stops e !! k = Some (StopReturned err) -> en_stops e' !! k = Some (StopReturned err).
Proof.
  intros Hstep Hk. destruct Hstep;
    try (unfold stop_cancel, stop_drained, stop_expired in *;
         repeat (case_match; try discriminate); simplify_eq; cbn; rewrite ?lookup_insert_ne by congruence; done);
    unfold PrepareStart_lease, PrepareStart_reserve, PrepareResume_reserve, PrepareResume_lease, finish_preparation,
      unwind_lease, unwind_identity, commitPaused, prepared_abort, Activate, PreparedRun_Abort, release_plan, complete,
      completeInert, retire, stop, reserveRunIdentity, abortRunIdentityReservation, activateRunIdentity, completeRunIdentity,
      abortRegisteredRunIdentity, retireRunIdentity in *;
    repeat (case_match; simplify_eq; cbn in *; try done); rewrite ?lookup_insert_ne by congruence; done.
Qed.

(** The outcome of a preparation and of a gate, once there is one, stays. *)
Definition decision_kept (pc pc' : slot_pc) : Prop :=
  (preparedExecution_state pc = Some PreparedCommitted -> preparedExecution_state pc' = Some PreparedCommitted)
  /\ (preparedExecution_state pc = Some PreparedAborted -> preparedExecution_state pc' = Some PreparedAborted)
  /\ (preparedRun_state pc = Some preparedRunActivated -> preparedRun_state pc' = Some preparedRunActivated)
  /\ (preparedRun_state pc = Some preparedRunAborted -> preparedRun_state pc' = Some preparedRunAborted).

Lemma slot_final n s e e' : engine_step e e' -> en_slots e !! n = Some s ->
  exists s', en_slots e' !! n = Some s' /\ decision_kept (sl_pc s) (sl_pc s').
Proof.
  intros Hstep Hn.
  assert (forall m x x0 (slots : gmap Z Slot), slots = en_slots e -> en_slots e !! m = x0 ->
    (forall s0, x0 = Some s0 -> decision_kept (sl_pc s0) (sl_pc x)) ->
    exists s', <[m := x]> slots !! n = Some s' /\ decision_kept (sl_pc s) (sl_pc s')) as Hset.
  { intros m x x0 slots -> Hm Hx. destruct (decide (n = m)) as [->|Hne].
    - exists x. rewrite lookup_insert_eq. split; [done|]. apply Hx. congruence.
    - exists s. by rewrite lookup_insert_ne. }
  assert (exists s', en_slots e !! n = Some s' /\ decision_kept (sl_pc s) (sl_pc s')) as Hsame by (by exists s).
  destruct Hstep;
    unfold stop_cancel, stop_drained, stop_expired, PrepareStart_lease, PrepareStart_reserve, PrepareResume_reserve, PrepareResume_lease,
      finish_preparation,
      unwind_lease, unwind_identity, commitPaused, prepared_abort, Activate, PreparedRun_Abort, release_plan, complete,
      completeInert, retire, stop, reserveRunIdentity, abortRunIdentityReservation, activateRunIdentity, completeRunIdentity,
      abortRegisteredRunIdentity, retireRunIdentity in *;
    repeat (case_match; simplify_eq; cbn [fst set_slot set_stop set_identities register deregister en_slots] in *; try done);
    (eapply Hset; [done|eassumption|]; intros ? [= <-]; cbn;
     first [done | match goal with |- decision_kept (sl_pc ?x) _ => destruct (sl_pc x); try discriminate; done end]).
Qed.

Lemma slot_final_rtc n s e e' : rtc engine_step e e' -> en_slots e !! n = Some s ->
  exists s', en_slots e' !! n = Some s' /\ decision_kept (sl_pc s) (sl_pc s').
Proof.
  intros Hr. revert s. induction Hr as [e|e1 e2 e3 Hs Hr IH]; intros s Hn; [by exists s|].
  destruct (slot_final n s _ _ Hs Hn) as (s2 & Hn2 & Hd2). destruct (IH s2 Hn2) as (s3 & Hn3 & Hd3).
  exists s3. split; [done|]. unfold decision_kept in *. naive_solver.
Qed.

Lemma reachable_trans e e' : engine_reachable e -> rtc engine_step e e' -> engine_reachable e'.
Proof. intros (l & Hi & Hv & Hr) Hr'. exists l. split_and!; [done..|]. by etrans. Qed.

(** ** Theorems *)

(** C7: The registry is exact.  In every reachable state of the engine, under any
    interleaving of preparations, commits, aborts, activations, completions,
    retirements and stops: the active map holds exactly the runs that are
    registered and not completed, the identity ledger has exactly the records
    the preparations and runs hold, in the state they hold them, the
    [drained] channel is closed exactly when no run is active, and no closed
    channel is ever closed again. *)
Theorem engine_registry_exact e : engine_reachable e ->
  (forall id n, en_active e !! id = Some n <->
     exists s, en_slots e !! n = Some s /\ sl_runID s = id /\ live_pc (sl_pc s) = true)
  /\ (forall id token st, ids_view (en_identities e) !! id = Some (token, st) <->
     exists n s, en_slots e !! n = Some s /\ sl_runID s = id /\ sl_token s = token /\ holding s = Some st)
  /\ (en_active e = ∅ <-> en_drained e ∈ en_closedChannels e)
  /\ en_panicked e = false.
Proof.
  intros Hi%engine_reachable_inv. split_and!; [apply (ei_active e Hi)| |apply (ei_channel e Hi)|apply (ei_channel e Hi)].
  intros id token st. split; [apply (io_held _ _ _ (ei_ids e Hi))|]. intros (n & s & Hn & <- & <- & Hh).
  by apply (io_holds _ _ _ (ei_ids e Hi) _ _ _ Hn Hh).
Qed.

(** The engine's own calls never fail: giving up a reservation, activating a
    gated run, completing a run and finalizing an inert one find the identity
    in the state they require, committing a prepared execution to an open
    engine under a live context succeeds, and a retirement succeeds exactly
    for a completed run. *)
Theorem engine_calls_succeed e n s : engine_reachable e -> en_slots e !! n = Some s ->
  (sl_pc s = SlUnwindIdentity -> snd (unwind_identity n s e) = None)
  /\ (sl_pc s = SlGated -> snd (Activate n s e) = None)
  /\ (sl_pc s = SlReleased -> snd (complete n s e) = None)
  /\ (sl_pc s = SlInertReleased -> snd (completeInert n s e) = None)
  /\ (sl_pc s = SlReady -> en_closed e = false -> forall immediate, snd (commitPaused CtxLive immediate n s e) = None)
  /\ (snd (retire n s e) = None <-> sl_pc s = SlCompleted).
Proof.
  intros Hi%engine_reachable_inv Hn. split_and!.
  - intros Hpc. destruct (abort_spec n s e Hi Hn) as (l & E & _); [unfold holding; by rewrite Hpc|].
    unfold unwind_identity, abortRunIdentityReservation. by rewrite E.
  - intros Hpc. destruct (activate_spec n s e Hi Hn) as (l & E & _); [unfold holding; by rewrite Hpc|].
    unfold Activate. rewrite Hpc. cbn. by rewrite E.
  - intros Hpc. destruct (complete_spec n s e Hi Hn) as (l & E & _); [unfold holding; by rewrite Hpc|].
    unfold complete, completeRunIdentity. by rewrite E.
  - intros Hpc. destruct (abort_spec n s e Hi Hn) as (l & E & _); [unfold holding; by rewrite Hpc|].
    unfold completeInert, abortRegisteredRunIdentity. by rewrite E.
  - intros Hpc Hc immediate. destruct (activate_spec n s e Hi Hn) as (l & E & _); [unfold holding; by rewrite Hpc|].
    unfold commitPaused. rewrite Hpc, Hc. cbn. destruct immediate; [by rewrite E|done].
  - pose proof (retire_spec n s e Hi Hn) as Hsp. pose proof (so_retired s (slot_at n s e Hi Hn)) as Hr.
    unfold retire, retireRunIdentity. destruct (sl_retired s) eqn:Er; [naive_solver|].
    unfold holding in Hsp. rewrite Er in Hsp. destruct (ids_retire _ _ _) as [l [err|]]; cbn.
    + split; [done|]. intros Hpc. rewrite Hpc in Hsp. by destruct Hsp.
    + split; [|done]. intros _. destruct Hsp as [Hsp _]. by destruct (sl_pc s).
Qed.


(** C15: [Close] and [Shutdown].  After a call returned without an error no run is
    registered, then and in every continuation.  A call that waits finds its
    channel closed as soon as no run is active, so it returns; and a
    [Shutdown] that waits has cancelled every run that is still active. *)
Theorem stop_contract e k : engine_reachable e ->
  (en_stops e !! k = Some (StopReturned None) ->
     forall e', rtc engine_step e e' -> en_closed e' = true /\ en_active e' = ∅)
  /\ (forall drained cancelActive, en_stops e !! k = Some (StopWaits drained cancelActive) ->
     (en_active e = ∅ <-> is_Some (stop_drained k e))
     /\ (cancelActive = true -> forall id n, en_active e !! id = Some n ->
           exists s, en_slots e !! n = Some s /\ sl_cancelled s = true)).
Proof.
  intros Hre. split.
  - intros Hk e' Hr. pose proof (engine_reachable_inv _ (reachable_trans _ _ Hre Hr)) as Hi'.
    assert (en_stops e' !! k = Some (StopReturned None)) as Hk'.
    { clear -Hr Hk. induction Hr as [|e1 e2 e3 Hs Hr IH]; [done|]. apply IH. by apply (stop_final k None e1 e2 Hs). }
    apply (ei_stops e' Hi' k _ Hk').
  - intros drained c Hk. apply engine_reachable_inv in Hre as Hi. destruct (ei_stops e Hi k _ Hk) as (Hc & -> & Hca).
    split; [|exact Hca]. unfold stop_drained. rewrite Hk, (co_drained _ _ _ _ _ (ei_channel e Hi)).
    case_bool_decide; split; try done; by intros [? ?].
Qed.

(** What a resumed run is.  A preparation or run that came from a snapshot has
    the snapshot's run identifier, came from a valid snapshot of a suspended
    run, executes under exactly the snapshot's plan identity, which is that of
    the engine and of the lease it holds, and starts with a turn after the
    completed ones and within the definition's maximum. *)
Theorem resumed_run_same_plan e n s snapshot : engine_reachable e -> en_slots e !! n = Some s ->
  sl_origin s = OriginResume snapshot -> planned (sl_pc s) = true ->
  sl_runID s = sn_runID snapshot /\ Snapshot_Validate snapshot = None /\ sn_status snapshot = LifecycleSuspended
  /\ (exists lease, sl_lease s = Some lease /\ sl_plan s = Some (sn_planIdentity snapshot)
       /\ newPlanIdentity sha256_hex (ec_compiledPlan config) (ec_snapshotCompatibility config)
            (ec_workspaceFingerprint config) lease = Ok (sn_planIdentity snapshot))
  /\ sn_completedTurns snapshot + 1 <= ad_maxTurns (sn_definition snapshot)
  /\ sn_lastSequence snapshot <> maxUint64.
Proof.
  intros Hi%engine_reachable_inv Hn Ho Hp. destruct (slot_at n s e Hi Hn) as [Horigin _ Hplan _ _ _].
  unfold origin_ok in Horigin. rewrite Ho in Horigin. destruct Horigin as [Hg Hr].
  destruct (resume_guard_inv _ Hg) as (Hv & Hst & _). destruct (Hplan Hp) as (lease & plan & Hl & Hpl & Hnew & Heq).
  rewrite Ho in Heq. subst plan. do 3 (split; [done|]). split; [by exists lease|].
  unfold Snapshot_Validate in Hv. destruct (validate_header snapshot) eqn:Hh; [done|]. clear -Hh Hst. unfold validate_header in Hh.
  rewrite Hst in Hh. repeat (split_match_in Hh; try discriminate Hh). all: bprop. all: try done. all: split; lia.
Qed.
End Registry.

(** ** Construction *)

Inductive ConstructError :=
| ErrInputNil (what : string) (index : Z)
| ErrFinalizationTimeout
| ErrConstructIdentity (cause : IdentityError)
| ErrMetadataNamespace (index : Z)
| ErrMetadataDuplicate (namespace : string)
| ErrConstructPlan (cause : AgentError)
| ErrConstructLog (cause : LogError).

(** Durations are nanoseconds. *)
Definition second : Z := 1000000000.
Definition defaultFinalizationTimeout : Z := 2 * second.

Record EngineOptions := mkEngineOptions {
  eo_LogLimits : LogLimits;
  eo_FinalizationTimeout : Z;
  eo_RunIdentityLimits : RunIdentityLimits;
  eo_MetadataNamespaces : list string;
  eo_CompiledPlanIdentities : list string;
  eo_SnapshotCompatibilityIdentity : string;
  eo_WorkspaceFingerprint : string
}.

Definition DefaultEngineOptions : EngineOptions :=
  mkEngineOptions DefaultLogLimits defaultFinalizationTimeout DefaultRunIdentityLimits []
    ["broker:injected"; "provider:injected"; "stage:kernel"]%string "" "".

(** Which of the injected collaborators are non-nil. *)
Record EngineInputs := mkEngineInputs {
  in_provider : bool; in_toolPlans : bool; in_broker : bool; in_ids : bool; in_clock : bool;
  in_observers : list bool; in_bestEffort : list bool
}.

Fixpoint nil_observer (what : string) (index : Z) (observers : list bool) : option ConstructError :=
  match observers with
  | [] => None
  | present :: rest => if present then nil_observer what (index + 1) rest else Some (ErrInputNil what index)
  end.

Definition validateEngineInputs (inputs : EngineInputs) : option ConstructError :=
  if negb (in_provider inputs) then Some (ErrInputNil "provider" 0)
  else if negb (in_toolPlans inputs) then Some (ErrInputNil "tool plan source" 0)
  else if negb (in_broker inputs) then Some (ErrInputNil "interaction broker" 0)
  else if negb (in_ids inputs) then Some (ErrInputNil "ID source" 0)
  else if negb (in_clock inputs) then Some (ErrInputNil "clock" 0)
  else match nil_observer "observer" 0 (in_observers inputs) with
  | Some e => Some e
  | None => nil_observer "best-effort observer" 0 (in_bestEffort inputs)
  end.

Fixpoint namespaces_loop (index : Z) (seen : gset string) (namespaces : list string) : result ConstructError (gset string) :=
  match namespaces with
  | [] => Ok seen
  | namespace :: rest =>
      if negb (trimmed_nonempty namespace) || (slen namespace >? 128) then Err (ErrMetadataNamespace index)
      else if bool_decide (namespace ∈ seen) then Err (ErrMetadataDuplicate namespace)
      else namespaces_loop (index + 1) ({[namespace]} ∪ seen) rest
  end.

(** [NewEngineWithToolPlanSourceAndInteractionBroker]. *)
Definition NewEngine (inputs : EngineInputs) (options : EngineOptions)
  : result ConstructError (EngineConfig * gset string * EngineState runIdentityLedger) :=
  match validateEngineInputs inputs with
  | Some e => Err e
  | None =>
    if (eo_FinalizationTimeout options <=? 0) || (eo_FinalizationTimeout options >? 30 * second) then Err ErrFinalizationTimeout
    else match RunIdentityLimits_Validate (eo_RunIdentityLimits options) with
    | Some e => Err (ErrConstructIdentity e)
    | None =>
      let? metadataNamespaces := namespaces_loop 0 ∅ (eo_MetadataNamespaces options) in
      match buildCompiledPlan (eo_CompiledPlanIdentities options) with
      | Err e => Err (ErrConstructPlan e)
      | Ok compiledPlan =>
        match validateSnapshotCompatibilityIdentity (eo_SnapshotCompatibilityIdentity options) with
        | Some e => Err (ErrConstructPlan e)
        | None =>
          match validateWorkspaceFingerprint (eo_WorkspaceFingerprint options)
                  (negb (String.eqb (eo_SnapshotCompatibilityIdentity options) "")) with
          | Some e => Err (ErrConstructPlan e)
          | None =>
            match NewLog "validation" (eo_LogLimits options) with
            | Err e => Err (ErrConstructLog e)
            | Ok _ =>
                Ok (mkEngineConfig compiledPlan (eo_SnapshotCompatibilityIdentity options)
                      (eo_WorkspaceFingerprint options) (eo_LogLimits options),
                    metadataNamespaces, new_engine (newRunIdentityLedger (eo_RunIdentityLimits options)))
            end
          end
        end
      end
    end
  end.

Lemma new_engine_config inputs options config namespaces e : NewEngine inputs options = Ok (config, namespaces, e) ->
  validateCompiledPlan (ec_compiledPlan config) = None
  /\ validateSnapshotCompatibilityIdentity (ec_snapshotCompatibility config) = None
  /\ validateWorkspaceFingerprint (ec_workspaceFingerprint config) (negb (String.eqb (ec_snapshotCompatibility config) "")) = None
  /\ limits_valid (ec_logLimits config) = true
  /\ exists limits, RunIdentityLimits_Validate limits = None /\ e = new_engine (newRunIdentityLedger limits).
Proof.
  unfold NewEngine, NewLog, NewLogAfter, buildCompiledPlan. intros E. repeat (split_match_in E; try discriminate E).
  injection E as <- <- <-. cbn. split_and!; try done; [by apply negb_false_iff|eauto].
Qed.

Lemma definitions_accepted l index : Forall valid_definition l -> validate_plan_definitions index l = None.
Proof. intros Hl. revert index. induction Hl as [|d l Hd Hl IH]; intros index; cbn; [done|]. by rewrite Hd, IH. Qed.

Lemma distinct_definitions l : NoDup (map td_name l) -> duplicate_definition l = None.
Proof.
  induction l as [|a [|b l] IH]; cbn; [done..|]. intros (Ha & Hn)%NoDup_cons. destruct (String.eqb_spec (td_name a) (td_name b)) as [E|_].
  - destruct Ha. rewrite E. by left.
  - by apply IH.
Qed.

Lemma prefixed_digest x : slen x = 64 -> lower_hex x = true -> prefixed_sha256 (String.append planFingerprintPrefix x) = true.
Proof.
  intros Hl Hx. unfold prefixed_sha256.
  assert (String.substring 7 (String.length (String.append planFingerprintPrefix x) - 7) (String.append planFingerprintPrefix x) = x) as ->.
  { change (String.substring 0 (String.length x - 0) x = x). rewrite Nat.sub_0_r. apply substring_full. }
  rewrite Hl, Hx. by destruct x.
Qed.

(** A constructed engine can prepare.  What construction accepted is enough for
    every later step that depends on the engine only: it starts with no run
    and an empty ledger, every lease the acquisition accepts has a plan
    identity, and a log can be opened for every valid run identifier and every
    sequence of a snapshot.  SHA-256 digests in hexadecimal are 64 lower-case
    digits. *)
Theorem constructed_engine_prepares sha256_hex inputs options config namespaces e :
  (forall bytes, slen (sha256_hex bytes) = 64 /\ lower_hex (sha256_hex bytes) = true) ->
  NewEngine inputs options = Ok (config, namespaces, e) ->
  engine_reachable sha256_hex config e
  /\ (forall lease, ToolPlanLease_Validate (Some lease) = None ->
       exists plan, newPlanIdentity sha256_hex (ec_compiledPlan config) (ec_snapshotCompatibility config)
                      (ec_workspaceFingerprint config) lease = Ok plan /\ PlanIdentity_Validate plan = None)
  /\ (forall runID sequence, snapshotToken "run ID" runID 96 = None -> sequence <> maxUint64 ->
       exists log, NewLogAfter runID sequence (ec_logLimits config) = Ok log).
Proof.
  intros Hsha Hnew. destruct (new_engine_config _ _ _ _ _ Hnew) as (Hc & Hs & Hw & Hl & limits & Hv & ->). split_and!.
  - exists (newRunIdentityLedger limits). split; [by apply new_ledger_inv|]. split; [done|apply rtc_refl].
  - intros lease Hlease. unfold newPlanIdentity, NewPlanIdentity. rewrite Hlease.
    unfold ToolPlanLease_Validate in Hlease. destruct (PlanID_Validate (pl_id lease)) eqn:Hid; [done|].
    apply validateDefinitions_spec in Hlease as [Hd Hsort]. apply (sorted_keys_nodup td_name) in Hsort.
    rewrite Hc, Hs, Hw, (definitions_accepted _ _ Hd), distinct_definitions by (by rewrite (merge_sort_Permutation name_le)).
    set (identity := mkPlanIdentity _ _ _ _ _). assert (PlanIdentity_Validate identity = None) as Hok.
    { unfold PlanIdentity_Validate. subst identity.
      cbn [pi_compiled pi_toolPlanID pi_snapshotCompatibility pi_workspaceFingerprint pi_fingerprint].
      by rewrite Hc, Hid, Hs, Hw, prefixed_digest by apply Hsha. }
    rewrite Hok. by exists identity.
  - intros runID sequence Hr%snapshotToken_spec Hseq. unfold NewLogAfter. destruct Hr as [-> _]. rewrite Hl. cbn.
    apply Z.eqb_neq in Hseq. rewrite Hseq. by eexists.
Qed.

(** ** Samples *)

Definition sample_sha : list Z -> string := fun _ => sample_digest.
Definition sample_fingerprint : string := String.append planFingerprintPrefix sample_digest.
Definition sample_config : EngineConfig :=
  mkEngineConfig ["broker:injected"%string] "compat-1" sample_fingerprint DefaultLogLimits.
Definition sample_lease : ToolPlanLease := mkPlanLease "plan-1" (DBase None) [] new_lease.
Definition sample_resume : Snapshot :=
  mkSnapshot SnapshotVersion "run-1" (mkAgentDefinition "agent" "model" 4) 1
    [mkMessage "m-1" RoleUser [mkPart PartText "hello" "" "" "" ""]]
    (mkPlanIdentity ["broker:injected"%string] "compat-1" sample_fingerprint "plan-1" sample_fingerprint) [] 7 LifecycleSuspended.
Definition sample_engine : EngineState runIdentityLedger := new_engine (newRunIdentityLedger DefaultRunIdentityLimits).
Definition resume_1 : EngineState runIdentityLedger := PrepareResume_reserve 1 sample_resume sample_engine.
Definition slot_of (e : EngineState runIdentityLedger) : Slot := default (new_slot SlAborted (OriginResume sample_resume)) (en_slots e !! 1).
Definition resume_2 : EngineState runIdentityLedger :=
  PrepareResume_lease sample_sha sample_config 1 (slot_of resume_1) sample_resume (LeaseReturns (Some sample_lease) false) true resume_1.
Definition resume_3 : EngineState runIdentityLedger := finish_preparation sample_config 1 (slot_of resume_2) true resume_2.
Definition resume_4 : EngineState runIdentityLedger := fst (commitPaused CtxLive true 1 (slot_of resume_3) resume_3).
Definition resume_5 : EngineState runIdentityLedger := stop CtxLive true 9 resume_4.

Definition resume_6 : EngineState runIdentityLedger := default resume_5 (stop_cancel 9 resume_5).
Definition resume_7 : EngineState runIdentityLedger := default resume_6 (stop_cancel 9 resume_6).
Definition resume_8 : EngineState runIdentityLedger := release_plan 1 (slot_of resume_7) resume_7.
Definition resume_9 : EngineState runIdentityLedger := fst (complete 1 (slot_of resume_8) resume_8).
Definition resume_10 : EngineState runIdentityLedger := default resume_9 (stop_drained 9 resume_9).

(** A resumed run that is executing. *)
Lemma executing_reachable : engine_reachable sample_sha sample_config resume_4.
Proof.
  exists (newRunIdentityLedger DefaultRunIdentityLimits). split; [by apply new_ledger_inv|]. split; [done|].
  eapply rtc_l; [apply (step_resume_reserve _ _ 1 sample_resume); vm_compute; reflexivity|].
  eapply rtc_l; [apply (step_resume_lease _ _ 1 (slot_of resume_1) sample_resume (LeaseReturns (Some sample_lease) false) true);
    vm_compute; reflexivity|].
  eapply rtc_l; [apply (step_prepared _ _ 1 (slot_of resume_2) true); vm_compute; reflexivity|].
  eapply rtc_l; [apply (step_commit_paused _ _ CtxLive true 1 (slot_of resume_3));
    [vm_compute; reflexivity|exists PreparedReady; vm_compute; reflexivity]|].
  apply rtc_refl.
Qed.

(** [Shutdown] cancelled it and waits. *)
Lemma waiting_reachable : engine_reachable sample_sha sample_config resume_7.
Proof.
  refine (reachable_trans _ _ _ _ executing_reachable _).
  eapply rtc_l; [apply (step_stop _ _ CtxLive true 9); vm_compute; reflexivity|].
  eapply rtc_l; [apply (step_stop_cancel _ _ 9 resume_5 resume_6); vm_compute; reflexivity|].
  eapply rtc_l; [apply (step_stop_cancel _ _ 9 resume_6 resume_7); vm_compute; reflexivity|].
  apply rtc_refl.
Qed.

(** It completed and [Shutdown] returned. *)
Lemma stopped_reachable : engine_reachable sample_sha sample_config resume_10.
Proof.
  refine (reachable_trans _ _ _ _ waiting_reachable _).
  eapply rtc_l; [apply (step_release_plan _ _ 1 (slot_of resume_7)); vm_compute; reflexivity|].
  eapply rtc_l; [apply (step_complete _ _ 1 (slot_of resume_8)); vm_compute; reflexivity|].
  eapply rtc_l; [apply (step_stop_drained _ _ 9 resume_9 resume_10); vm_compute; reflexivity|].
  apply rtc_refl.
Qed.

Lemma engine_registry_exact_witness :
  en_active resume_4 !! "run-1"%string = Some 1 /\ en_panicked resume_10 = false
  /\ en_drained resume_10 ∈ en_closedChannels resume_10.
Proof.
  split; [apply (proj1 (engine_registry_exact _ _ _ executing_reachable)); exists (slot_of resume_4); split_and!; vm_compute; reflexivity|].
  destruct (engine_registry_exact _ _ _ stopped_reachable) as (_ & _ & Hd & Hp).
  split; [exact Hp|]. apply Hd. vm_compute. reflexivity.
Defined.

Lemma engine_calls_succeed_witness :
  snd (complete 1 (slot_of resume_8) resume_8) = None /\ snd (retire 1 (slot_of resume_10) resume_10) = None.
Proof.
  split.
  - assert (engine_reachable sample_sha sample_config resume_8) as Hr.
    { refine (reachable_trans _ _ _ _ waiting_reachable (rtc_once _ _ _)).
      apply (step_release_plan _ _ 1 (slot_of resume_7)). vm_compute. reflexivity. }
    refine (proj1 (proj2 (proj2 (engine_calls_succeed _ _ _ 1 (slot_of resume_8) Hr _))) _); vm_compute; reflexivity.
  - refine (proj2 (proj2 (proj2 (proj2 (proj2 (proj2 (engine_calls_succeed _ _ _ 1 (slot_of resume_10) stopped_reachable _)))))) _);
      vm_compute; reflexivity.
Defined.


Lemma stop_contract_witness :
  (forall e', rtc (engine_step sample_sha sample_config) resume_10 e' -> en_closed e' = true /\ en_active e' = ∅)
  /\ ~ is_Some (stop_drained 9 resume_7) /\ exists s, en_slots resume_7 !! 1 = Some s /\ sl_cancelled s = true.
Proof.
  split; [refine (proj1 (stop_contract _ _ _ 9 stopped_reachable) _); vm_compute; reflexivity|].
  destruct (proj2 (stop_contract _ _ _ 9 waiting_reachable) _ true eq_refl) as [Hd Hc]. split.
  - intros He%Hd. assert (en_active resume_7 !! "run-1"%string = Some 1) as Ha by (vm_compute; reflexivity). by rewrite He in Ha.
  - apply (Hc eq_refl "run-1"%string). vm_compute. reflexivity.
Defined.

Lemma resumed_run_same_plan_witness :
  sl_plan (slot_of resume_4) = Some (sn_planIdentity sample_resume)
  /\ sn_completedTurns sample_resume + 1 <= ad_maxTurns (sn_definition sample_resume).
Proof.
  destruct (resumed_run_same_plan _ _ _ 1 (slot_of resume_4) sample_resume executing_reachable eq_refl eq_refl eq_refl)
    as (_ & _ & _ & (lease & _ & Hp & _) & Ht & _).
  exact (conj Hp Ht).
Defined.

Lemma constructed_engine_prepares_witness :
  exists config namespaces e, NewEngine (mkEngineInputs true true true true true [true] []) DefaultEngineOptions = Ok (config, namespaces, e)
    /\ exists plan, newPlanIdentity sample_sha (ec_compiledPlan config) (ec_snapshotCompatibility config)
                      (ec_workspaceFingerprint config) sample_lease = Ok plan /\ PlanIdentity_Validate plan = None.
Proof.
  do 3 eexists. split; [vm_compute; reflexivity|].
  refine (proj1 (proj2 (constructed_engine_prepares sample_sha (mkEngineInputs true true true true true [true] []) DefaultEngineOptions
    _ _ _ (fun _ => conj _ _) _)) sample_lease _); vm_compute; reflexivity.
Defined.
