(* ===== verification/PendingWatch.v ===== *)
(** Discovery of pending interactions (src/daemon/pending.go): limits, deltas,
    and the observers ("watchers") of a client's pending set.

    The fields of the source's [PendingHub] and [pendingPartition] that concern
    observers are the records [Discovery] and [Observers]; the routing fields
    are in PendingHub.v.  A watcher's goroutine [deliver] has a place
    [deliver_pc]; [wt_out] is what its consumer received. *)
From Stdlib Require Import ZArith Lia.
From stdpp Require Import base gmap list strings sorting.
From S2P Require Import Prelude GoText Interaction.
Open Scope Z_scope.

Definition maximumPendingClients : Z := 4096.
Definition maximumPendingRuns : Z := 16384.
Definition maximumPendingInteractions : Z := 4096.
Definition maximumPendingObservers : Z := 1024.
Definition maximumObserverQueue : Z := 1024.
Definition maximumObserverEntries : Z := maximumPendingObservers * maximumObserverQueue.
Definition maximumObserverQueuedBytes : Z := Z.shiftl 4 20.
Definition maximumPendingBytes : Z := Z.shiftl 16 20.
Definition maximumObserverBytes : Z := Z.shiftl 64 20.
Definition maximumPendingDeltaBytes : Z := 2 * MaximumInteractionPayloadBytes + 512.
Definition pendingSnapshotItemOverhead : Z := 32.
Definition pendingSnapshotFrameOverhead : Z := 32.

Record PendingLimits := mkPendingLimits {
  pl_Clients : Z;
  pl_Runs : Z;
  pl_RunsPerClient : Z;
  pl_Pending : Z;
  pl_PendingPerClient : Z;
  pl_PendingBytes : Z;
  pl_PendingBytesPerClient : Z;
  pl_Observers : Z;
  pl_ObserversPerClient : Z;
  pl_ObserverQueueEntries : Z;
  pl_ObserverQueueBytes : Z;
  pl_ReservedQueueEntries : Z;
  pl_ReservedQueueEntriesPerClient : Z;
  pl_ReservedQueueBytes : Z;
  pl_ReservedQueueBytesPerClient : Z;
  pl_QueuedEntries : Z;
  pl_QueuedEntriesPerClient : Z;
  pl_QueuedBytes : Z;
  pl_QueuedBytesPerClient : Z
}.

Definition DefaultPendingLimits : PendingLimits :=
  let observers := 32 in let observersPerClient := 4 in let queueEntries := 64 in
  mkPendingLimits 1024 4096 256 1024 128 maximumPendingBytes (Z.shiftl 768 10) observers observersPerClient
    queueEntries maximumPendingDeltaBytes (observers * queueEntries) (observersPerClient * queueEntries)
    (observers * maximumPendingDeltaBytes) (observersPerClient * maximumPendingDeltaBytes)
    (observers * queueEntries) (observersPerClient * queueEntries)
    (observers * maximumPendingDeltaBytes) (observersPerClient * maximumPendingDeltaBytes).

Inductive PendingError :=
| ErrPendingHubClosed
| ErrRunNotBound
| ErrObserverFenced
| ErrRunAlreadyBound (runID : string)
| ErrRunBindingCapacity
| ErrPendingCapacity
| ErrObserverCapacity
| ErrInteractionNotPending
| ErrAlreadyPending
| ErrPendingNilContext
| ErrPendingContext
| ErrPendingToken
| ErrPendingInteraction (cause : InteractionError)
| ErrPendingLimit (label : string)
| ObserverExhausted (resource : string) (limit observed : Z).

(** *** Limits *)

Definition validateGlobalClientBound (label : string) (global perClient maximum : Z) : option PendingError :=
  if (global <? 1) || (global >? maximum) || (perClient <? 1) || (perClient >? global) then Some (ErrPendingLimit label) else None.

Definition first_error (checks : list (option PendingError)) : option PendingError := head (omap id checks).

Definition validatePendingCountLimits (l : PendingLimits) : option PendingError :=
  first_error [
    (if (pl_Clients l <? 1) || (pl_Clients l >? maximumPendingClients) then Some (ErrPendingLimit "clients") else None);
    validateGlobalClientBound "runs" (pl_Runs l) (pl_RunsPerClient l) maximumPendingRuns;
    validateGlobalClientBound "interactions" (pl_Pending l) (pl_PendingPerClient l) maximumPendingInteractions;
    validateGlobalClientBound "observers" (pl_Observers l) (pl_ObserversPerClient l) maximumPendingObservers;
    (if (pl_ObserverQueueEntries l <? 1) || (pl_ObserverQueueEntries l >? maximumObserverQueue)
     then Some (ErrPendingLimit "observer queue entries") else None);
    validateGlobalClientBound "reserved queue entries" (pl_ReservedQueueEntries l)
      (pl_ReservedQueueEntriesPerClient l) maximumObserverEntries;
    validateGlobalClientBound "actual queue entries" (pl_QueuedEntries l) (pl_QueuedEntriesPerClient l) maximumObserverEntries;
    (if (pl_ReservedQueueEntries l <? pl_ObserverQueueEntries l) || (pl_ReservedQueueEntriesPerClient l <? pl_ObserverQueueEntries l)
     then Some (ErrPendingLimit "reserved queue entries must cover one observer queue") else None);
    (if (pl_QueuedEntries l <? pl_ReservedQueueEntries l) || (pl_QueuedEntriesPerClient l <? pl_ReservedQueueEntriesPerClient l)
     then Some (ErrPendingLimit "actual queue entries must cover reserved queue entries") else None)].

Definition validatePendingByteLimits (l : PendingLimits) : option PendingError :=
  first_error [
    validateGlobalClientBound "pending bytes" (pl_PendingBytes l) (pl_PendingBytesPerClient l) maximumPendingBytes;
    (if (pl_ObserverQueueBytes l <? 1) || (pl_ObserverQueueBytes l >? maximumObserverQueuedBytes)
     then Some (ErrPendingLimit "observer queue bytes") else None);
    validateGlobalClientBound "reserved queue bytes" (pl_ReservedQueueBytes l) (pl_ReservedQueueBytesPerClient l) maximumObserverBytes;
    validateGlobalClientBound "actual queue bytes" (pl_QueuedBytes l) (pl_QueuedBytesPerClient l) maximumObserverBytes;
    (if (pl_ReservedQueueBytes l <? pl_ObserverQueueBytes l) || (pl_ReservedQueueBytesPerClient l <? pl_ObserverQueueBytes l)
     then Some (ErrPendingLimit "reserved queue bytes must cover one observer queue") else None);
    (if (pl_QueuedBytes l <? pl_ReservedQueueBytes l) || (pl_QueuedBytesPerClient l <? pl_ReservedQueueBytesPerClient l)
     then Some (ErrPendingLimit "actual queue bytes must cover reserved queue bytes") else None)].

(** Go's [/] truncates; all operands are positive here. *)
Definition validatePendingReservationFunding (l : PendingLimits) : option PendingError :=
  if (Z.quot (pl_ReservedQueueEntries l) (pl_ObserverQueueEntries l) <? pl_Observers l)
     || (Z.quot (pl_ReservedQueueEntriesPerClient l) (pl_ObserverQueueEntries l) <? pl_ObserversPerClient l)
     || (Z.quot (pl_ReservedQueueBytes l) (pl_ObserverQueueBytes l) <? pl_Observers l)
     || (Z.quot (pl_ReservedQueueBytesPerClient l) (pl_ObserverQueueBytes l) <? pl_ObserversPerClient l)
  then Some (ErrPendingLimit "global queue reservations") else None.

Definition validatePendingLimits (l : PendingLimits) : option PendingError :=
  match validatePendingCountLimits l with
  | Some e => Some e
  | None =>
      match validatePendingByteLimits l with
      | Some e => Some e
      | None => validatePendingReservationFunding l
      end
  end.

(** *** Values *)

Record Pending := mkPending { pe_scope : InteractionScope; pe_request : InteractionRequest }.

Definition pendingValueBytes (value : Pending) : Z :=
  slen (is_runID (pe_scope value)) + slen (ir_id (pe_request value)) + slen (ir_kind (pe_request value))
  + slen (ir_prompt (pe_request value)) + slen (ir_schema (pe_request value)).

Inductive DeltaKind := DeltaOpened | DeltaClosed.
Record Delta := mkDelta { dl_revision : Z; dl_kind : DeltaKind; dl_pending : Pending }.
Definition pendingDeltaBytes (value : Delta) : Z := pendingValueBytes (dl_pending value) + 32.

Record PendingSnapshot := mkPendingSnapshot { ps_revision : Z; ps_pending : list Pending }.

(** [pendingKey]. *)
Definition pendingKey : Type := string * string.
Definition key_of (value : Pending) : pendingKey := (is_runID (pe_scope value), ir_id (pe_request value)).

Record queuedDelta := mkQueued { qd_delta : Delta; qd_bytes : Z }.

(** *** Watchers *)

(** [deliver]: at its outer select, holding an item at the inner select, after
    the send of an item, after it closed [out] and [done], and ended. *)
Inductive deliver_pc := DvIdle | DvHolding (item : queuedDelta) | DvSent (item : queuedDelta) | DvClosed | DvStopped.

Record Watcher := mkWatcher {
  wt_client : string;
  wt_queue : list queuedDelta;
  wt_pc : deliver_pc;
  wt_active : bool;
  wt_err : option PendingError;
  wt_exhausted : bool;
  wt_lastDelivered : Z;
  wt_queuedCount : Z;
  wt_queuedBytes : Z;
  wt_stop : bool;
  wt_out : list Delta;
  wt_snapshot : PendingSnapshot
}.

(** The observer fields of a partition and of the hub; watchers are keyed by
    client and identifier.  [dv_panicked] records the close of a closed
    channel. *)
Record Observers := mkObservers {
  ob_nextWatcher : Z;
  ob_queuedEntries : Z;
  ob_queuedBytes : Z;
  ob_reservedEntries : Z;
  ob_reservedBytes : Z;
  ob_watchers : gset Z;
  ob_stopping : gset Z
}.

Record Discovery := mkDiscovery {
  dv_observerCount : Z;
  dv_queuedEntries : Z;
  dv_queuedBytes : Z;
  dv_reservedEntries : Z;
  dv_reservedBytes : Z;
  dv_clients : gmap string Observers;
  dv_watchers : gmap (string * Z) Watcher;
  dv_panicked : bool
}.

Definition new_observers : Observers := mkObservers 0 0 0 0 0 ∅ ∅.

(** Changes of the queue counters of hub, partition and watcher. *)
Definition queue_counters (entries bytes : Z) (o : Observers) : Observers :=
  mkObservers (ob_nextWatcher o) (ob_queuedEntries o + entries) (ob_queuedBytes o + bytes) (ob_reservedEntries o)
    (ob_reservedBytes o) (ob_watchers o) (ob_stopping o).
Definition set_watcher (key : string * Z) (w : Watcher) (d : Discovery) : Discovery :=
  mkDiscovery (dv_observerCount d) (dv_queuedEntries d) (dv_queuedBytes d) (dv_reservedEntries d) (dv_reservedBytes d)
    (dv_clients d) (<[key := w]> (dv_watchers d)) (dv_panicked d).
Definition count_queued (client : string) (entries bytes : Z) (d : Discovery) : Discovery :=
  mkDiscovery (dv_observerCount d) (dv_queuedEntries d + entries) (dv_queuedBytes d + bytes) (dv_reservedEntries d)
    (dv_reservedBytes d) (alter (queue_counters entries bytes) client (dv_clients d)) (dv_watchers d) (dv_panicked d).

Definition with_queue (queue : list queuedDelta) (pc : deliver_pc) (count bytes : Z) (w : Watcher) : Watcher :=
  mkWatcher (wt_client w) queue pc (wt_active w) (wt_err w) (wt_exhausted w) (wt_lastDelivered w) count bytes (wt_stop w)
    (wt_out w) (wt_snapshot w).
Definition with_delivered (lastDelivered : Z) (out : list Delta) (w : Watcher) : Watcher :=
  mkWatcher (wt_client w) (wt_queue w) (wt_pc w) (wt_active w) (wt_err w) (wt_exhausted w) lastDelivered (wt_queuedCount w)
    (wt_queuedBytes w) (wt_stop w) out (wt_snapshot w).

(** [enqueueLocked]; the channel [queue] has the capacity of the limit. *)
Definition enqueueLocked (l : PendingLimits) (key : string * Z) (w : Watcher) (o : Observers) (delta : Delta) (d : Discovery)
  : option PendingError * Discovery :=
  let size := pendingDeltaBytes delta in
  if negb (wt_active w) then (None, d)
  else if wt_queuedCount w >=? pl_ObserverQueueEntries l then
    (Some (ObserverExhausted "pending_observer_queue_entries" (pl_ObserverQueueEntries l) (wt_queuedCount w + 1)), d)
  else if (size >? pl_ObserverQueueBytes l) || (wt_queuedBytes w >? pl_ObserverQueueBytes l - size) then
    (Some (ObserverExhausted "pending_observer_queue_bytes" (pl_ObserverQueueBytes l) (wt_queuedBytes w + size)), d)
  else if dv_queuedEntries d >=? pl_QueuedEntries l then
    (Some (ObserverExhausted "pending_observer_entries" (pl_QueuedEntries l) (dv_queuedEntries d + 1)), d)
  else if ob_queuedEntries o >=? pl_QueuedEntriesPerClient l then
    (Some (ObserverExhausted "pending_observer_client_entries" (pl_QueuedEntriesPerClient l) (ob_queuedEntries o + 1)), d)
  else if (size >? pl_QueuedBytes l) || (dv_queuedBytes d >? pl_QueuedBytes l - size) then
    (Some (ObserverExhausted "pending_observer_bytes" (pl_QueuedBytes l) (dv_queuedBytes d + size)), d)
  else if (size >? pl_QueuedBytesPerClient l) || (ob_queuedBytes o >? pl_QueuedBytesPerClient l - size) then
    (Some (ObserverExhausted "pending_observer_client_bytes" (pl_QueuedBytesPerClient l) (ob_queuedBytes o + size)), d)
  else if lenZ (wt_queue w) <? pl_ObserverQueueEntries l then
    (None, count_queued (wt_client w) 1 size
             (set_watcher key (with_queue (wt_queue w ++ [mkQueued delta size]) (wt_pc w) (wt_queuedCount w + 1)
                                 (wt_queuedBytes w + size) w) d))
  else (Some (ObserverExhausted "pending_observer_queue_entries" (pl_ObserverQueueEntries l) (lenZ (wt_queue w) + 1)), d).

(** [finishWatcherLocked]; closing a closed channel panics. *)
Definition finish_observers (l : PendingLimits) (id entries bytes : Z) (o : Observers) : Observers :=
  mkObservers (ob_nextWatcher o) (ob_queuedEntries o - entries) (ob_queuedBytes o - bytes)
    (ob_reservedEntries o - pl_ObserverQueueEntries l) (ob_reservedBytes o - pl_ObserverQueueBytes l)
    (ob_watchers o ∖ {[id]}) ({[id]} ∪ ob_stopping o).
Definition finishWatcherLocked (l : PendingLimits) (key : string * Z) (err : option PendingError) (exhausted : bool) (d : Discovery)
  : Discovery :=
  match dv_watchers d !! key with
  | None => d
  | Some w =>
      if negb (wt_active w) then d
      else mkDiscovery (dv_observerCount d - 1) (dv_queuedEntries d - wt_queuedCount w) (dv_queuedBytes d - wt_queuedBytes w)
             (dv_reservedEntries d - pl_ObserverQueueEntries l) (dv_reservedBytes d - pl_ObserverQueueBytes l)
             (alter (finish_observers l (snd key) (wt_queuedCount w) (wt_queuedBytes w)) (wt_client w) (dv_clients d))
             (<[key := mkWatcher (wt_client w) (wt_queue w) (wt_pc w) false err exhausted (wt_lastDelivered w) 0 0 true
                         (wt_out w) (wt_snapshot w)]> (dv_watchers d))
             (dv_panicked d || wt_stop w)
  end.

Definition sortedWatcherIDs (watchers : gset Z) : list Z := merge_sort Z.le (elements watchers).

(** The loop of [publishLocked] over the watchers of a partition. *)
Definition publish_to (l : PendingLimits) (client : string) (delta : Delta) (d : Discovery) (id : Z) : Discovery :=
  match dv_watchers d !! (client, id), dv_clients d !! client with
  | Some w, Some o =>
      match enqueueLocked l (client, id) w o delta d with
      | (None, d') => d'
      | (Some exhausted, d') => finishWatcherLocked l (client, id) (Some exhausted) true d'
      end
  | _, _ => d
  end.
Definition publish (l : PendingLimits) (client : string) (delta : Delta) (d : Discovery) : Discovery :=
  match dv_clients d !! client with
  | None => d
  | Some o => foldl (publish_to l client delta) d (sortedWatcherIDs (ob_watchers o))
  end.

(** [Subscribe] from the observer checks on; the partition exists. *)
Definition reserve_observer (l : PendingLimits) (o : Observers) : Observers :=
  mkObservers (ob_nextWatcher o +64 1) (ob_queuedEntries o) (ob_queuedBytes o) (ob_reservedEntries o + pl_ObserverQueueEntries l)
    (ob_reservedBytes o + pl_ObserverQueueBytes l) ({[ob_nextWatcher o +64 1]} ∪ ob_watchers o) (ob_stopping o).
Definition subscribe (l : PendingLimits) (client : string) (o : Observers) (snapshot : PendingSnapshot) (d : Discovery)
  : result PendingError (Z * Discovery) :=
  if (dv_observerCount d >=? pl_Observers l) || (Z.of_nat (size (ob_watchers o)) >=? pl_ObserversPerClient l)
  then Err ErrObserverCapacity
  else if ob_nextWatcher o =? maxUint64 then Err ErrObserverCapacity
  else if (dv_reservedEntries d >? pl_ReservedQueueEntries l - pl_ObserverQueueEntries l)
       || (ob_reservedEntries o >? pl_ReservedQueueEntriesPerClient l - pl_ObserverQueueEntries l)
       || (dv_reservedBytes d >? pl_ReservedQueueBytes l - pl_ObserverQueueBytes l)
       || (ob_reservedBytes o >? pl_ReservedQueueBytesPerClient l - pl_ObserverQueueBytes l)
  then Err ErrObserverCapacity
  else
    let id := ob_nextWatcher o +64 1 in
    Ok (id, mkDiscovery (dv_observerCount d + 1) (dv_queuedEntries d) (dv_queuedBytes d)
              (dv_reservedEntries d + pl_ObserverQueueEntries l) (dv_reservedBytes d + pl_ObserverQueueBytes l)
              (<[client := reserve_observer l o]> (dv_clients d))
              (<[(client, id) := mkWatcher client [] DvIdle true None false (ps_revision snapshot) 0 0 false [] snapshot]>
                 (dv_watchers d))
              (dv_panicked d)).

(** *** The goroutine [deliver] *)

(** [case item := <-watcher.queue]. *)
Definition deliver_take (key : string * Z) (d : Discovery) : option Discovery :=
  match dv_watchers d !! key with
  | Some w =>
      match wt_pc w, wt_queue w with
      | DvIdle, item :: rest => Some (set_watcher key (with_queue rest (DvHolding item) (wt_queuedCount w) (wt_queuedBytes w) w) d)
      | _, _ => None
      end
  | None => None
  end.

(** [case watcher.out <- delta]: the consumer receives. *)
Definition deliver_send (key : string * Z) (d : Discovery) : option Discovery :=
  match dv_watchers d !! key with
  | Some w =>
      match wt_pc w with
      | DvHolding item =>
          Some (set_watcher key (with_delivered (wt_lastDelivered w) (wt_out w ++ [qd_delta item])
                  (with_queue (wt_queue w) (DvSent item) (wt_queuedCount w) (wt_queuedBytes w) w)) d)
      | _ => None
      end
  | None => None
  end.

Definition delivered (key : string * Z) (d : Discovery) : option Discovery :=
  match dv_watchers d !! key with
  | Some w =>
      match wt_pc w with
      | DvSent item =>
          let last := if dl_revision (qd_delta item) >? wt_lastDelivered w then dl_revision (qd_delta item) else wt_lastDelivered w in
          let w' := with_delivered last (wt_out w) w in
          Some (if negb (wt_active w) then
                  set_watcher key (with_queue (wt_queue w) DvIdle (wt_queuedCount w) (wt_queuedBytes w) w') d
                else count_queued (wt_client w) (-1) (- qd_bytes item)
                       (set_watcher key (with_queue (wt_queue w) DvIdle (wt_queuedCount w - 1) (wt_queuedBytes w - qd_bytes item) w') d))
      | _ => None
      end
  | None => None
  end.

(** [case <-watcher.stop]: the queue is discarded, [out] and [done] closed. *)
Definition deliver_exit (key : string * Z) (d : Discovery) : option Discovery :=
  match dv_watchers d !! key with
  | Some w =>
      match wt_stop w, wt_pc w with
      | true, (DvIdle | DvHolding _) => Some (set_watcher key (with_queue [] DvClosed (wt_queuedCount w) (wt_queuedBytes w) w) d)
      | _, _ => None
      end
  | None => None
  end.

Definition stopped_observer (id : Z) (o : Observers) : Observers :=
  mkObservers (ob_nextWatcher o) (ob_queuedEntries o) (ob_queuedBytes o) (ob_reservedEntries o) (ob_reservedBytes o)
    (ob_watchers o) (ob_stopping o ∖ {[id]}).
Definition watcherStopped (key : string * Z) (d : Discovery) : option Discovery :=
  match dv_watchers d !! key with
  | Some w =>
      match wt_pc w with
      | DvClosed =>
          Some (mkDiscovery (dv_observerCount d) (dv_queuedEntries d) (dv_queuedBytes d) (dv_reservedEntries d) (dv_reservedBytes d)
                  (alter (stopped_observer (snd key)) (wt_client w) (dv_clients d))
                  (<[key := with_queue (wt_queue w) DvStopped (wt_queuedCount w) (wt_queuedBytes w) w]> (dv_watchers d))
                  (dv_panicked d))
      | _ => None
      end
  | None => None
  end.

(** [watcher.done] is closed. *)
Definition watcher_done (w : Watcher) : bool := match wt_pc w with DvClosed | DvStopped => true | _ => false end.

Definition LastDelivered (w : Watcher) : Z := wt_lastDelivered w.

(** [terminalError]: the error of an exhausted watcher carries the last revision
    delivered. *)
Inductive observer_end :=
| EndError (err : option PendingError)
| EndExhausted (resource : string) (limit observed lastDelivered : Z)
| EndWithoutFacts.
Definition terminalError (w : Watcher) : observer_end :=
  if wt_exhausted w then
    match wt_err w with
    | Some (ObserverExhausted resource limit observed) => EndExhausted resource limit observed (wt_lastDelivered w)
    | _ => EndWithoutFacts
    end
  else EndError (wt_err w).

(** ** Invariant *)

(** The items a watcher's goroutine took and did not account for yet, and those
    whose consumer has not received them. *)
Definition in_hand (w : Watcher) : list queuedDelta :=
  match wt_pc w with DvHolding item | DvSent item => [item] | _ => [] end.
Definition unsent (w : Watcher) : list queuedDelta :=
  match wt_pc w with DvHolding item => [item] | _ => [] end.

(** What the consumer of a watcher received and will receive if it goes on. *)
Definition stream (w : Watcher) : list Delta := wt_out w ++ (qd_delta <$> (unsent w ++ wt_queue w)).

Definition sized (item : queuedDelta) : Prop := qd_bytes item = pendingDeltaBytes (qd_delta item) /\ 0 <= qd_bytes item.

(** A watcher against the log of its partition, the deltas it has published. *)
Record watcher_ok (l : PendingLimits) (log : list Delta) (w : Watcher) : Prop := {
  wo_count : wt_active w = true -> wt_queuedCount w = lenZ (in_hand w ++ wt_queue w);
  wo_bytes : wt_active w = true -> wt_queuedBytes w = sumZ qd_bytes (in_hand w ++ wt_queue w);
  wo_count_bound : wt_queuedCount w <= pl_ObserverQueueEntries l;
  wo_bytes_bound : wt_queuedBytes w <= pl_ObserverQueueBytes l;
  wo_sized : Forall sized (in_hand w ++ wt_queue w);
  wo_snapshot : 0 <= ps_revision (wt_snapshot w) <= lenZ log;
  wo_stream : stream w `prefix_of` drop (Z.to_nat (ps_revision (wt_snapshot w))) log;
  wo_current : wt_active w = true -> stream w = drop (Z.to_nat (ps_revision (wt_snapshot w))) log;
  wo_last : wt_lastDelivered w = ps_revision (wt_snapshot w) + lenZ (wt_out w)
              - match wt_pc w with DvSent _ => 1 | _ => 0 end;
  wo_stop : wt_stop w = negb (wt_active w);
  wo_idle : wt_active w = false -> wt_queuedCount w = 0 /\ wt_queuedBytes w = 0;
  wo_done : watcher_done w = true -> wt_active w = false /\ wt_queue w = [];
  wo_sent item : wt_pc w = DvSent item -> last (wt_out w) = Some (qd_delta item)
}.

(** A measure of the active watchers, of all clients or of one. *)
Definition over_active (f : Watcher -> Z) (w : Watcher) : Z := if wt_active w then f w else 0.
Definition over_client (client : string) (f : Watcher -> Z) (w : Watcher) : Z :=
  if wt_active w && String.eqb (wt_client w) client then f w else 0.

Record observers_ok (l : PendingLimits) (client : string) (watchers : gmap (string * Z) Watcher) (o : Observers) : Prop := {
  oo_entries : ob_queuedEntries o = msum (over_client client wt_queuedCount) watchers;
  oo_bytes : ob_queuedBytes o = msum (over_client client wt_queuedBytes) watchers;
  oo_reservedEntries : ob_reservedEntries o = msum (over_client client (fun _ => pl_ObserverQueueEntries l)) watchers;
  oo_reservedBytes : ob_reservedBytes o = msum (over_client client (fun _ => pl_ObserverQueueBytes l)) watchers;
  oo_reservedEntries_bound : ob_reservedEntries o <= pl_ReservedQueueEntriesPerClient l;
  oo_reservedBytes_bound : ob_reservedBytes o <= pl_ReservedQueueBytesPerClient l;
  oo_next : 0 <= ob_nextWatcher o <= maxUint64;
  oo_watchers id : id ∈ ob_watchers o <-> exists w, watchers !! (client, id) = Some w /\ wt_active w = true;
  oo_stopping id : id ∈ ob_stopping o <->
    exists w, watchers !! (client, id) = Some w /\ wt_active w = false /\ wt_pc w <> DvStopped;
  oo_size : Z.of_nat (size (ob_watchers o)) <= pl_ObserversPerClient l
}.

(** [logs] has the log each watcher is measured against. *)
Record discovery_ok (l : PendingLimits) (logs : string * Z -> list Delta) (d : Discovery) : Prop := {
  do_observers : dv_observerCount d = msum (over_active (fun _ => 1)) (dv_watchers d);
  do_entries : dv_queuedEntries d = msum (over_active wt_queuedCount) (dv_watchers d);
  do_bytes : dv_queuedBytes d = msum (over_active wt_queuedBytes) (dv_watchers d);
  do_reservedEntries : dv_reservedEntries d = msum (over_active (fun _ => pl_ObserverQueueEntries l)) (dv_watchers d);
  do_reservedBytes : dv_reservedBytes d = msum (over_active (fun _ => pl_ObserverQueueBytes l)) (dv_watchers d);
  do_observers_bound : dv_observerCount d <= pl_Observers l;
  do_reservedEntries_bound : dv_reservedEntries d <= pl_ReservedQueueEntries l;
  do_reservedBytes_bound : dv_reservedBytes d <= pl_ReservedQueueBytes l;
  do_clients client o : dv_clients d !! client = Some o -> observers_ok l client (dv_watchers d) o;
  do_watchers client id w : dv_watchers d !! (client, id) = Some w ->
    wt_client w = client /\ watcher_ok l (logs (client, id)) w
    /\ exists o, dv_clients d !! client = Some o /\ 0 < id <= ob_nextWatcher o;
  do_panicked : dv_panicked d = false
}.

(** *** Updates of one watcher *)

Lemma count_queued_none client d : count_queued client 0 0 d = d.
Proof.
  destruct d. unfold count_queued. cbn. rewrite !Z.add_0_r. f_equal.
  rewrite alter_id; [done|]. intros [] _. unfold queue_counters. cbn. by rewrite !Z.add_0_r.
Qed.

Lemma over_active_insert f watchers (key : string * Z) w w' : watchers !! key = Some w -> wt_active w' = wt_active w ->
  msum (over_active f) (<[key := w']> watchers) = msum (over_active f) watchers + (if wt_active w then f w' - f w else 0).
Proof. intros Hk Ha. rewrite (msum_insert_Some _ _ _ w) by done. unfold over_active. rewrite Ha. destruct (wt_active w); lia. Qed.

Lemma over_client_insert client f watchers (key : string * Z) w w' : watchers !! key = Some w -> wt_active w' = wt_active w ->
  wt_client w' = wt_client w ->
  msum (over_client client f) (<[key := w']> watchers)
  = msum (over_client client f) watchers + (if wt_active w && String.eqb (wt_client w) client then f w' - f w else 0).
Proof.
  intros Hk Ha Hc. rewrite (msum_insert_Some _ _ _ w) by done. unfold over_client. rewrite Ha, Hc. destruct (_ && _); lia.
Qed.

(** The counters of a live watcher move together with those of its partition
    and of the hub. *)
Definition moves (w w' : Watcher) (entries bytes : Z) : Prop :=
  wt_client w' = wt_client w /\ wt_active w' = wt_active w /\ (wt_pc w' = DvStopped <-> wt_pc w = DvStopped)
  /\ (if wt_active w then wt_queuedCount w' = wt_queuedCount w + entries /\ wt_queuedBytes w' = wt_queuedBytes w + bytes
      else entries = 0 /\ bytes = 0).

Lemma observers_move l client watchers (key : string * Z) w w' entries bytes o : watchers !! key = Some w -> wt_client w = key.1 ->
  moves w w' entries bytes -> observers_ok l client watchers o ->
  observers_ok l client (<[key := w']> watchers) (if decide (client = wt_client w) then queue_counters entries bytes o else o).
Proof.
  intros Hk Hck (Hc & Ha & Hp & Hn) [He Hb Hre Hrb Hreb Hrbb Hnx Hw Hs Hsz].
  assert (forall id, (exists x, <[key := w']> watchers !! (client, id) = Some x /\ wt_active x = true)
          <-> exists x, watchers !! (client, id) = Some x /\ wt_active x = true) as Hact.
  { intros id. destruct (decide (key = (client, id))) as [->|Hne]; [|by rewrite lookup_insert_ne].
    rewrite lookup_insert_eq, Hk. naive_solver congruence. }
  assert (forall id, (exists x, <[key := w']> watchers !! (client, id) = Some x /\ wt_active x = false /\ wt_pc x <> DvStopped)
          <-> exists x, watchers !! (client, id) = Some x /\ wt_active x = false /\ wt_pc x <> DvStopped) as Hst.
  { intros id. destruct (decide (key = (client, id))) as [->|Hne]; [|by rewrite lookup_insert_ne].
    rewrite lookup_insert_eq, Hk. split; intros (x & [= <-] & ? & ?); eexists; split_and!; try done; try congruence; by rewrite Hp in * || by rewrite <- Hp in *. }
  split; rewrite ?(over_client_insert client _ _ _ w w') by done;
    destruct (decide (client = wt_client w)) as [->|Hne]; cbn;
    rewrite ?String.eqb_refl, ?(proj2 (String.eqb_neq (wt_client w) client)) by done;
    rewrite ?andb_true_r, ?andb_false_r; try done; try (destruct (wt_active w); lia);
    intros id; rewrite ?Hact, ?Hst; auto.
Qed.

Lemma moved_ok l logs logs' d (key : string * Z) w w' entries bytes : discovery_ok l logs d -> dv_watchers d !! key = Some w ->
  (forall k, k <> key -> logs' k = logs k) -> moves w w' entries bytes -> watcher_ok l (logs' key) w' ->
  discovery_ok l logs' (count_queued (wt_client w) entries bytes (set_watcher key w' d)).
Proof.
  intros [Ho He Hb Hre Hrb Hob Hreb Hrbb Hcl Hwt Hp] Hk Hlogs Hm Hok. destruct key as [c id].
  destruct (Hwt _ _ _ Hk) as (<- & Hwo & o & Hco & Hid). pose proof Hm as (Hc' & Ha & Hpc & Hn).
  split; cbn; rewrite ?(over_active_insert _ _ _ w w') by done; try done; try (destruct (wt_active w); lia).
  - intros client o' Ho'. pose proof (fun o => observers_move l client _ _ _ _ _ _ o Hk eq_refl Hm) as Hom. revert Ho'.
    destruct (decide (client = wt_client w)) as [->|Hne].
    + rewrite lookup_alter_eq, Hco. cbn. intros [= <-]. specialize (Hom o). rewrite ?decide_True in Hom by done. by apply Hom, Hcl.
    + rewrite lookup_alter_ne by done. intros Ho'. specialize (Hom o'). rewrite ?decide_False in Hom by done. by apply Hom, Hcl.
  - intros client id' x. rewrite lookup_insert_Some. intros [[[= <- <-] <-]|[Hne Hx]].
    + split; [done|]. split; [done|]. rewrite lookup_alter_eq, Hco. by eexists.
    + destruct (Hwt _ _ _ Hx) as (Hxc & Hxo & ox & Hox & Hxi). split; [done|]. split; [by rewrite Hlogs|].
      destruct (decide (client = wt_client w)) as [->|Hn']; [rewrite lookup_alter_eq|rewrite lookup_alter_ne by done]; rewrite Hox; by eexists.
Qed.

(** Detaching a watcher. *)
Lemma over_active_detach f watchers (key : string * Z) w w' : watchers !! key = Some w -> wt_active w = true -> wt_active w' = false ->
  msum (over_active f) (<[key := w']> watchers) = msum (over_active f) watchers - f w.
Proof. intros Hk Ha Ha'. rewrite (msum_insert_Some _ _ _ w) by done. unfold over_active. rewrite Ha, Ha'. lia. Qed.
Lemma over_client_detach client f watchers (key : string * Z) w w' : watchers !! key = Some w -> wt_active w = true -> wt_active w' = false ->
  msum (over_client client f) (<[key := w']> watchers)
  = msum (over_client client f) watchers - (if String.eqb (wt_client w) client then f w else 0).
Proof.
  intros Hk Ha Ha'. rewrite (msum_insert_Some _ _ _ w) by done. unfold over_client. rewrite Ha, Ha'. cbn. destruct (String.eqb _ _); lia.
Qed.

Lemma watcher_detached l log w err exhausted : watcher_ok l log w ->
  1 <= pl_ObserverQueueEntries l -> 1 <= pl_ObserverQueueBytes l ->
  watcher_ok l log (mkWatcher (wt_client w) (wt_queue w) (wt_pc w) false err exhausted (wt_lastDelivered w) 0 0 true (wt_out w) (wt_snapshot w)).
Proof.
  intros [Hc Hb Hcb Hbb Hsz Hsn Hst Hcur Hl Hs Hi Hd Hse] He Hby. split; cbn; try done; try lia.
  intros Hdone. by destruct (Hd Hdone) as [_ ?].
Qed.

Lemma finish_ok l logs d key err exhausted : discovery_ok l logs d -> 1 <= pl_ObserverQueueEntries l -> 1 <= pl_ObserverQueueBytes l ->
  discovery_ok l logs (finishWatcherLocked l key err exhausted d).
Proof.
  intros Hd He1 Hb1. unfold finishWatcherLocked. destruct (dv_watchers d !! key) as [w|] eqn:Hk; [|done].
  destruct (wt_active w) eqn:Ha; [|done]. cbn [negb]. destruct key as [c id].
  destruct Hd as [Ho He Hb Hre Hrb Hob Hreb Hrbb Hcl Hwt Hp]. destruct (Hwt _ _ _ Hk) as (<- & Hwo & o & Hco & Hid).
  set (w' := mkWatcher _ _ _ _ _ _ _ _ _ _ _ _). assert (wt_active w' = false) as Ha' by done.
  split; cbn [dv_observerCount dv_queuedEntries dv_queuedBytes dv_reservedEntries dv_reservedBytes dv_clients dv_watchers dv_panicked snd];
    rewrite ?(over_active_detach _ _ _ w w') by done; try lia.
  - intros client o' Ho'. revert Ho'. destruct (decide (client = wt_client w)) as [->|Hne].
    + rewrite lookup_alter_eq, Hco. cbn. intros [= <-]. destruct (Hcl _ _ Hco) as [H1 H2 H3 H4 H5 H6 H7 H8 H9 H10].
      split; cbn; rewrite ?(over_client_detach _ _ _ _ w w'), ?String.eqb_refl by done; try lia.
      * intros id'. rewrite elem_of_difference, elem_of_singleton, H8. destruct (decide (id' = id)) as [->|Hne].
        -- rewrite lookup_insert_eq. naive_solver.
        -- rewrite lookup_insert_ne by congruence. naive_solver.
      * intros id'. rewrite elem_of_union, elem_of_singleton, H9. destruct (decide (id' = id)) as [->|Hne].
        -- rewrite lookup_insert_eq. split; [|by left]. intros _. exists w'. split; [done|]. split; [done|]. cbn. intros Hpc.
           destruct (wo_done _ _ _ Hwo) as [? _]; [unfold watcher_done; by rewrite Hpc|]. congruence.
        -- rewrite lookup_insert_ne by congruence. naive_solver.
      * etrans; [|exact H10]. apply inj_le. apply subseteq_size. set_solver.
    + rewrite lookup_alter_ne by done. intros Ho'. destruct (Hcl _ _ Ho') as [H1 H2 H3 H4 H5 H6 H7 H8 H9 H10].
      split; rewrite ?(over_client_detach _ _ _ _ w w'), ?(proj2 (String.eqb_neq (wt_client w) client)) by done; try lia; try done;
        intros id'; rewrite lookup_insert_ne by congruence; auto.
  - intros client id' x. rewrite lookup_insert_Some. intros [[[= <- <-] <-]|[Hne Hx]].
    + split; [done|]. split; [by apply watcher_detached|]. rewrite lookup_alter_eq, Hco. by eexists.
    + destruct (Hwt _ _ _ Hx) as (Hxc & Hxo & ox & Hox & Hxi). split; [done|]. split; [done|].
      destruct (decide (client = wt_client w)) as [->|Hn']; [rewrite lookup_alter_eq|rewrite lookup_alter_ne by done]; rewrite Hox; by eexists.
  - rewrite Hp, (wo_stop _ _ _ Hwo), Ha. done.
Qed.

(** *** Queues *)

Record limits_facts (l : PendingLimits) : Prop := {
  lf_clients : 1 <= pl_Clients l;
  lf_entries : 1 <= pl_ObserverQueueEntries l;
  lf_bytes : 1 <= pl_ObserverQueueBytes l;
  lf_observers : 1 <= pl_ObserversPerClient l <= pl_Observers l;
  lf_pending : 1 <= pl_PendingPerClient l <= pl_Pending l /\ pl_Pending l <= maximumPendingInteractions;
  lf_pendingBytes : 1 <= pl_PendingBytesPerClient l <= pl_PendingBytes l;
  lf_runs : 1 <= pl_RunsPerClient l <= pl_Runs l;
  lf_one_bytes : pl_ObserverQueueBytes l <= pl_ReservedQueueBytes l /\ pl_ObserverQueueBytes l <= pl_ReservedQueueBytesPerClient l;
  lf_funded_entries : pl_ReservedQueueEntries l <= pl_QueuedEntries l;
  lf_funded_client_entries : pl_ReservedQueueEntriesPerClient l <= pl_QueuedEntriesPerClient l;
  lf_funded_bytes : pl_ReservedQueueBytes l <= pl_QueuedBytes l;
  lf_funded_client_bytes : pl_ReservedQueueBytesPerClient l <= pl_QueuedBytesPerClient l;
  lf_entries_all : pl_Observers l * pl_ObserverQueueEntries l <= pl_ReservedQueueEntries l;
  lf_entries_client : pl_ObserversPerClient l * pl_ObserverQueueEntries l <= pl_ReservedQueueEntriesPerClient l;
  lf_bytes_all : pl_Observers l * pl_ObserverQueueBytes l <= pl_ReservedQueueBytes l;
  lf_bytes_client : pl_ObserversPerClient l * pl_ObserverQueueBytes l <= pl_ReservedQueueBytesPerClient l
}.

Lemma first_error_none checks : first_error checks = None -> Forall (fun c => c = None) checks.
Proof. unfold first_error. induction checks as [|[e|] checks IH]; cbn; [constructor|done|]. intros H. constructor; auto. Qed.

Lemma bound_facts label global perClient maximum : validateGlobalClientBound label global perClient maximum = None ->
  1 <= perClient <= global /\ global <= maximum.
Proof. unfold validateGlobalClientBound. intros H. split_match_in H; [done|]. bprop. lia. Qed.

Lemma quot_cover a b n : 1 <= b -> 1 <= n -> (a ÷ b <? n) = false -> n * b <= a.
Proof.
  intros Hb Hn Hq. apply Z.ltb_ge in Hq. assert (0 <= a) as Ha.
  { destruct (Z.le_gt_cases 0 a); [done|]. pose proof (Z.quot_opp_l a b). pose proof (Z.quot_pos (- a) b). lia. }
  rewrite Z.quot_div_nonneg in Hq by lia. pose proof (Z.mul_div_le a b). nia.
Qed.

Lemma limits_ok l : validatePendingLimits l = None -> limits_facts l.
Proof.
  unfold validatePendingLimits. destruct (validatePendingCountLimits l) eqn:Hc; [done|].
  destruct (validatePendingByteLimits l) eqn:Hb; [done|]. unfold validatePendingReservationFunding. intros Hf.
  apply first_error_none in Hc, Hb. repeat rewrite Forall_cons in Hc. repeat rewrite Forall_cons in Hb.
  destruct Hc as (Hcl & Hr & Hp & Ho & Hq & He & _ & He2 & He3 & _). destruct Hb as (Hb1 & Hbq & Hb2 & _ & Hb3 & Hb4 & _).
  apply bound_facts in Hr, Hp, Ho, He, Hb1, Hb2.
  repeat match goal with H : (if ?b then Some _ else None) = None |- _ => destruct b eqn:?; [discriminate H|]; clear H end.
  rewrite !orb_false_iff in *. destruct_and?.
  assert (1 <= pl_ObserverQueueEntries l) by (bprop; lia). assert (1 <= pl_ObserverQueueBytes l) by (bprop; lia).
  split; try (bprop; lia); apply quot_cover; try done; lia.
Qed.

Lemma msum_slack {K} `{Countable K} (f g : Watcher -> Z) (m : gmap K Watcher) k w s : m !! k = Some w ->
  (forall k x, m !! k = Some x -> f x <= g x) -> f w + s <= g w -> msum f m + s <= msum g m.
Proof.
  intros Hk Hfg Hw. pose proof (msum_delete f m k w Hk). pose proof (msum_delete g m k w Hk).
  assert (0 <= msum (fun x => g x + - f x) (delete k m)) as Hn.
  { apply msum_nonneg. intros k' x Hx. apply lookup_delete_Some in Hx as [_ Hx]. specialize (Hfg _ _ Hx). lia. }
  rewrite msum_add in Hn. assert (msum (fun x => - f x) (delete k m) = - msum f (delete k m)) as Hneg; [|lia].
  clear. induction (delete k m) as [|k' x m' Hk' IH] using map_ind; [by rewrite !msum_empty|].
  rewrite !msum_insert_None by done. lia.
Qed.

(** With valid limits only its own queue bounds exhaust a watcher: the
    aggregate bounds are funded by the reservations. *)
Definition own_bounds (l : PendingLimits) (w : Watcher) (delta : Delta) : option PendingError :=
  let size := pendingDeltaBytes delta in
  if wt_queuedCount w >=? pl_ObserverQueueEntries l then
    Some (ObserverExhausted "pending_observer_queue_entries" (pl_ObserverQueueEntries l) (wt_queuedCount w + 1))
  else if (size >? pl_ObserverQueueBytes l) || (wt_queuedBytes w >? pl_ObserverQueueBytes l - size) then
    Some (ObserverExhausted "pending_observer_queue_bytes" (pl_ObserverQueueBytes l) (wt_queuedBytes w + size))
  else None.

Lemma entries_slack l logs d (key : string * Z) w o : discovery_ok l logs d -> limits_facts l -> dv_watchers d !! key = Some w ->
  dv_clients d !! key.1 = Some o -> wt_active w = true ->
  (forall s, wt_queuedCount w + s <= pl_ObserverQueueEntries l ->
     dv_queuedEntries d + s <= pl_QueuedEntries l /\ ob_queuedEntries o + s <= pl_QueuedEntriesPerClient l)
  /\ (forall s, wt_queuedBytes w + s <= pl_ObserverQueueBytes l ->
     dv_queuedBytes d + s <= pl_QueuedBytes l /\ ob_queuedBytes o + s <= pl_QueuedBytesPerClient l).
Proof.
  intros Hd Hl Hk Ho Ha. destruct key as [c id]. destruct (do_watchers _ _ _ Hd _ _ _ Hk) as (Hc & _).
  pose proof (do_clients _ _ _ Hd _ _ Ho) as Hoo.
  assert (forall k x, dv_watchers d !! k = Some x ->
    wt_queuedCount x <= pl_ObserverQueueEntries l /\ wt_queuedBytes x <= pl_ObserverQueueBytes l) as Hb.
  { intros [c' id'] x Hx. destruct (do_watchers _ _ _ Hd _ _ _ Hx) as (_ & Hwo & _). split; apply Hwo. }
  pose proof (lf_entries l Hl). pose proof (lf_bytes l Hl). pose proof (lf_funded_entries l Hl). pose proof (lf_funded_client_entries l Hl).
  pose proof (lf_funded_bytes l Hl). pose proof (lf_funded_client_bytes l Hl).
  pose proof (do_reservedEntries_bound _ _ _ Hd). pose proof (do_reservedBytes_bound _ _ _ Hd).
  pose proof (oo_reservedEntries_bound _ _ _ _ Hoo). pose proof (oo_reservedBytes_bound _ _ _ _ Hoo).
  rewrite (do_entries _ _ _ Hd), (do_bytes _ _ _ Hd), (oo_entries _ _ _ _ Hoo), (oo_bytes _ _ _ _ Hoo).
  rewrite (do_reservedEntries _ _ _ Hd), (do_reservedBytes _ _ _ Hd), (oo_reservedEntries _ _ _ _ Hoo), (oo_reservedBytes _ _ _ _ Hoo) in *.
  assert (forall f n, (forall k x, dv_watchers d !! k = Some x -> f x <= n) -> 0 <= n -> forall s, f w + s <= n ->
    msum (over_active f) (dv_watchers d) + s <= msum (over_active (fun _ => n)) (dv_watchers d)
    /\ msum (over_client c f) (dv_watchers d) + s <= msum (over_client c (fun _ => n)) (dv_watchers d)) as Hgen.
  { intros f n Hf Hn s Hs. split; apply (msum_slack _ _ _ _ w _ Hk); unfold over_active, over_client; cbn in Hc;
      try (intros k x Hx; specialize (Hf _ _ Hx)); rewrite ?Ha, ?Hc, ?String.eqb_refl; cbn; repeat case_match; lia. }
  split; intros s Hs.
  - destruct (Hgen wt_queuedCount (pl_ObserverQueueEntries l)) with (s := s); [naive_solver|lia|done|]. cbn in *. lia.
  - destruct (Hgen wt_queuedBytes (pl_ObserverQueueBytes l)) with (s := s); [naive_solver|lia|done|]. cbn in *. lia.
Qed.

Lemma pendingDeltaBytes_pos delta : 0 <= pendingDeltaBytes delta.
Proof. unfold pendingDeltaBytes, pendingValueBytes, slen. lia. Qed.

Definition queued (l : PendingLimits) (w : Watcher) (delta : Delta) : Watcher :=
  with_queue (wt_queue w ++ [mkQueued delta (pendingDeltaBytes delta)]) (wt_pc w) (wt_queuedCount w + 1)
    (wt_queuedBytes w + pendingDeltaBytes delta) w.

Lemma enqueue_exact l logs d (key : string * Z) w o delta : discovery_ok l logs d -> limits_facts l ->
  dv_watchers d !! key = Some w -> dv_clients d !! key.1 = Some o -> wt_active w = true ->
  enqueueLocked l key w o delta d =
    match own_bounds l w delta with
    | Some e => (Some e, d)
    | None => (None, count_queued (wt_client w) 1 (pendingDeltaBytes delta) (set_watcher key (queued l w delta) d))
    end.
Proof.
  intros Hd Hl Hk Ho Ha. destruct (entries_slack _ _ _ _ _ _ Hd Hl Hk Ho Ha) as [He Hb].
  assert (lenZ (wt_queue w) <= wt_queuedCount w) as Hlen.
  { destruct key as [c id]. destruct (do_watchers _ _ _ Hd _ _ _ Hk) as (_ & Hwo & _). rewrite (wo_count _ _ _ Hwo Ha).
    unfold lenZ. rewrite length_app. lia. }
  unfold enqueueLocked, own_bounds. rewrite Ha. cbn [negb].
  destruct (Z.geb_spec (wt_queuedCount w) (pl_ObserverQueueEntries l)) as [|Hc]; [done|].
  destruct ((_ >? _) || _) eqn:Hq; [done|]. pose proof (lf_one_bytes l Hl). pose proof (lf_funded_bytes l Hl). pose proof (lf_funded_client_bytes l Hl).
  destruct (He 1 ltac:(lia)) as [He1 He2]. destruct (Hb (pendingDeltaBytes delta) ltac:(bprop; lia)) as [Hb1 Hb2].
  assert (pendingDeltaBytes delta <= pl_ObserverQueueBytes l) by (bprop; lia).
  destruct (Z.geb_spec (dv_queuedEntries d) (pl_QueuedEntries l)); [lia|].
  destruct (Z.geb_spec (ob_queuedEntries o) (pl_QueuedEntriesPerClient l)); [lia|].
  destruct (Z.gtb_spec (pendingDeltaBytes delta) (pl_QueuedBytes l)); [lia|].
  destruct (Z.gtb_spec (dv_queuedBytes d) (pl_QueuedBytes l - pendingDeltaBytes delta)); [lia|].
  destruct (Z.gtb_spec (pendingDeltaBytes delta) (pl_QueuedBytesPerClient l)); [lia|].
  destruct (Z.gtb_spec (ob_queuedBytes o) (pl_QueuedBytesPerClient l - pendingDeltaBytes delta)); [lia|]. cbn [orb].
  destruct (Z.ltb_spec (lenZ (wt_queue w)) (pl_ObserverQueueEntries l)); [done|lia].
Qed.

Lemma stream_queued l w delta : stream (queued l w delta) = stream w ++ [delta].
Proof. unfold stream, queued, unsent. cbn. rewrite !fmap_app, <- !app_assoc. done. Qed.

Lemma queued_ok l log w delta : watcher_ok l log w -> wt_active w = true -> own_bounds l w delta = None ->
  watcher_ok l (log ++ [delta]) (queued l w delta).
Proof.
  intros [Hc Hb Hcb Hbb Hsz Hsn Hst Hcur Hl Hs Hi Hd Hse] Ha Ho. unfold own_bounds in Ho.
  destruct (Z.geb_spec (wt_queuedCount w) (pl_ObserverQueueEntries l)) as [|Hc']; [done|]. destruct ((_ >? _) || _) eqn:Hq; [done|].
  assert (stream (queued l w delta) = drop (Z.to_nat (ps_revision (wt_snapshot w))) (log ++ [delta])) as Hstream.
  { rewrite stream_queued, (Hcur Ha), drop_app_le; [done|]. unfold lenZ in Hsn. lia. }
  split; cbn; try done.
  - intros _. rewrite (Hc Ha). unfold lenZ, in_hand, queued. cbn. rewrite !length_app. cbn. lia.
  - intros _. rewrite (Hb Ha). change (in_hand (queued l w delta)) with (in_hand w). rewrite !sumZ_app, sumZ_cons, sumZ_nil.
    cbn [qd_bytes]. lia.
  - lia.
  - bprop. lia.
  - unfold in_hand, queued in *. cbn. rewrite app_assoc. apply Forall_app. split; [done|].
    apply Forall_singleton. split; [done|apply pendingDeltaBytes_pos].
  - unfold lenZ in *. rewrite length_app. cbn. lia.
  - change (stream (queued l w delta) `prefix_of` drop (Z.to_nat (ps_revision (wt_snapshot w))) (log ++ [delta])). by rewrite Hstream.
  - congruence.
  - intros Hdone. destruct (Hd Hdone) as [? _]. congruence.
Qed.

(** A detached watcher against a longer log. *)
Lemma watcher_grow l log more w : watcher_ok l log w -> wt_active w = false -> watcher_ok l (log ++ more) w.
Proof.
  intros [Hc Hb Hcb Hbb Hsz Hsn Hst Hcur Hl Hs Hi Hd Hse] Ha. split; try done.
  - unfold lenZ in *. rewrite length_app. lia.
  - etrans; [exact Hst|]. rewrite drop_app_le by (unfold lenZ in Hsn; lia). by apply prefix_app_r.
  - congruence.
Qed.

Lemma relog l logs logs' d : discovery_ok l logs d ->
  (forall key w, dv_watchers d !! key = Some w -> watcher_ok l (logs key) w -> watcher_ok l (logs' key) w) -> discovery_ok l logs' d.
Proof.
  intros [] Hr. split; try done. intros client id w Hw. destruct (do_watchers0 _ _ _ Hw) as (? & ? & ?). auto.
Qed.

(** *** Publication *)

Lemma publish_to_other l client delta d id key : key <> (client, id) ->
  dv_watchers (publish_to l client delta d id) !! key = dv_watchers d !! key.
Proof.
  intros Hne. unfold publish_to. destruct (dv_watchers d !! (client, id)) as [w|] eqn:Hk; [|done].
  destruct (dv_clients d !! client) as [o|]; [|done].
  assert (forall e x d', dv_watchers d' !! key = dv_watchers d !! key -> dv_watchers (finishWatcherLocked l (client, id) e x d') !! key = dv_watchers d !! key) as Hf.
  { intros e x d' E. unfold finishWatcherLocked. destruct (dv_watchers d' !! (client, id)); [|done]. destruct (negb _); [done|].
    cbn. by rewrite lookup_insert_ne. }
  unfold enqueueLocked. repeat (case_match; simplify_eq; try done; try by apply Hf). all: cbn; by rewrite lookup_insert_ne.
Qed.

Lemma publish_to_clients l client delta d id c : is_Some (dv_clients d !! c) -> is_Some (dv_clients (publish_to l client delta d id) !! c).
Proof.
  intros Hc. assert (forall (f : Observers -> Observers) k (m : gmap string Observers), is_Some (m !! c) -> is_Some (alter f k m !! c)) as Ha.
  { intros f k m [x Hx]. destruct (decide (c = k)) as [->|Hne]; [rewrite lookup_alter_eq|rewrite lookup_alter_ne by done]; rewrite Hx; by eexists. }
  assert (forall e x d' k, is_Some (dv_clients d' !! c) -> is_Some (dv_clients (finishWatcherLocked l k e x d') !! c)) as Hf.
  { intros e x d' k Hd. unfold finishWatcherLocked. destruct (dv_watchers d' !! k); [|done]. destruct (negb _); [done|]. by apply Ha. }
  unfold publish_to, enqueueLocked. repeat (case_match; simplify_eq; try done; try by apply Hf). all: by apply Ha.
Qed.

Definition extended (logs : string * Z -> list Delta) (client : string) (ids : list Z) (delta : Delta) (key : string * Z) : list Delta :=
  if decide (key.1 = client /\ key.2 ∈ ids) then logs key ++ [delta] else logs key.

Lemma publish_to_ok l logs client delta d id : limits_facts l -> discovery_ok l logs d -> is_Some (dv_clients d !! client) ->
  discovery_ok l (extended logs client [id] delta) (publish_to l client delta d id).
Proof.
  intros Hl Hd [o Ho]. unfold publish_to. rewrite Ho.
  assert (forall k, k <> (client, id) -> extended logs client [id] delta k = logs k) as Hother.
  { intros k Hk. unfold extended. rewrite decide_False; [done|]. intros [E1 E2%list_elem_of_singleton]. destruct k; cbn in *; congruence. }
  assert (extended logs client [id] delta (client, id) = logs (client, id) ++ [delta]) as Hself
    by (unfold extended; rewrite decide_True; [done|]; cbn; rewrite list_elem_of_singleton; done).
  destruct (dv_watchers d !! (client, id)) as [w|] eqn:Hk.
  2:{ apply (relog _ logs); [done|]. intros k x Hx. rewrite Hother; [done|congruence]. }
  destruct (do_watchers _ _ _ Hd _ _ _ Hk) as (Hc & Hwo & _).
  assert (forall d', discovery_ok l logs d' -> (forall x, dv_watchers d' !! (client, id) = Some x -> wt_active x = false) ->
    discovery_ok l (extended logs client [id] delta) d') as Hgrow.
  { intros d' Hd' Hin. apply (relog _ logs); [done|]. intros k x Hx Hxo. destruct (decide (k = (client, id))) as [->|Hne].
    - rewrite Hself. apply watcher_grow; [done|]. by apply Hin.
    - by rewrite Hother. }
  destruct (wt_active w) eqn:Ha.
  - rewrite (enqueue_exact _ _ _ _ _ _ _ Hd Hl Hk Ho Ha). destruct (own_bounds l w delta) as [e|] eqn:Hob.
    + apply Hgrow; [by apply finish_ok; [|apply Hl..]|]. intros x. unfold finishWatcherLocked. rewrite Hk, Ha. cbn.
      rewrite lookup_insert_eq. by intros [= <-].
    + apply (moved_ok _ logs _ _ _ w); [done|done|done| |].
      * unfold moves, queued. cbn. rewrite Ha. done.
      * rewrite Hself. by apply queued_ok.
  - unfold enqueueLocked. rewrite Ha. cbn. apply Hgrow; [done|]. intros x Hx. congruence.
Qed.

Lemma publish_fold_ok l logs client delta ids : limits_facts l -> NoDup ids -> forall d, discovery_ok l logs d ->
  is_Some (dv_clients d !! client) ->
  discovery_ok l (extended logs client ids delta) (foldl (publish_to l client delta) d ids)
  /\ is_Some (dv_clients (foldl (publish_to l client delta) d ids) !! client)
  /\ forall key, ~ (key.1 = client /\ key.2 ∈ ids) -> dv_watchers (foldl (publish_to l client delta) d ids) !! key = dv_watchers d !! key.
Proof.
  intros Hl. induction ids as [|id ids IH] using rev_ind; intros Hn d Hd Hc.
  - cbn. split_and!; [|done|done]. apply (relog _ logs); [done|]. intros k w _. unfold extended.
    rewrite decide_False; [done|]. by intros [_ ?%elem_of_nil].
  - rewrite foldl_snoc. apply NoDup_app in Hn as (Hn & Hni & _). destruct (IH Hn d Hd Hc) as (Hd' & Hc' & Ho'). split_and!.
    + apply (publish_to_ok l _ client delta _ id Hl) in Hd'; [|done]. apply (relog _ _ _ _ Hd'). intros [c i] w _ Hw.
      assert (extended (extended logs client ids delta) client [id] delta (c, i) = extended logs client (ids ++ [id]) delta (c, i)) as <-; [|done].
      unfold extended. cbn. destruct (decide (c = client)) as [->|Hne]; [|rewrite !decide_False by naive_solver; done].
      destruct (decide (i = id)) as [->|Hi].
      * rewrite (decide_True (P := _ /\ id ∈ [id])) by set_solver. rewrite (decide_True (P := _ /\ id ∈ ids ++ [id])) by set_solver.
        rewrite decide_False; [done|]. intros [_ Hin]. apply (Hni id Hin). set_solver.
      * rewrite (decide_False (P := _ /\ i ∈ [id])) by set_solver. destruct (decide (i ∈ ids)).
        -- rewrite !decide_True by set_solver. done.
        -- rewrite !decide_False by set_solver. done.
    + by apply publish_to_clients.
    + intros key Hk. rewrite publish_to_other; [apply Ho'; set_solver|]. intros ->. apply Hk. cbn. set_solver.
Qed.

Lemma sorted_ids watchers id : id ∈ sortedWatcherIDs watchers <-> id ∈ watchers.
Proof. unfold sortedWatcherIDs. by rewrite (merge_sort_Permutation Z.le), elem_of_elements. Qed.
Lemma sorted_ids_nodup watchers : NoDup (sortedWatcherIDs watchers).
Proof. unfold sortedWatcherIDs. rewrite (merge_sort_Permutation Z.le). apply NoDup_elements. Qed.

(** Publishing a delta extends the log of every watcher of the client. *)
Lemma publish_ok l (logs : string -> list Delta) client delta d : limits_facts l -> discovery_ok l (fun key => logs key.1) d ->
  is_Some (dv_clients d !! client) ->
  discovery_ok l (fun key => (if decide (key.1 = client) then logs key.1 ++ [delta] else logs key.1)) (publish l client delta d).
Proof.
  intros Hl Hd [o Ho]. unfold publish. rewrite Ho.
  destruct (publish_fold_ok l _ client delta (sortedWatcherIDs (ob_watchers o)) Hl (sorted_ids_nodup _) d Hd) as (Hd' & _ & Hsame); [by eexists|].
  apply (relog _ _ _ _ Hd'). intros [c id] w Hw Hwo. unfold extended in Hwo. cbn in *.
  destruct (decide (c = client)) as [->|Hne]; [|by rewrite decide_False in Hwo by naive_solver].
  destruct (decide (client = client /\ id ∈ sortedWatcherIDs (ob_watchers o))) as [|Hnot]; [done|].
  apply watcher_grow; [done|]. rewrite Hsame in Hw by done. destruct (wt_active w) eqn:Ha; [|done].
  exfalso. apply Hnot. split; [done|]. apply sorted_ids, (oo_watchers _ _ _ _ (do_clients _ _ _ Hd _ _ Ho)). by eexists.
Qed.

(** *** Partitions and subscriptions *)

Definition add_client (client : string) (d : Discovery) : Discovery :=
  mkDiscovery (dv_observerCount d) (dv_queuedEntries d) (dv_queuedBytes d) (dv_reservedEntries d) (dv_reservedBytes d)
    (<[client := new_observers]> (dv_clients d)) (dv_watchers d) (dv_panicked d).

Lemma no_watchers (client : string) (f : Watcher -> Z) (watchers : gmap (string * Z) Watcher) :
  (forall key w, watchers !! key = Some w -> wt_client w <> client) -> msum (over_client client f) watchers = 0.
Proof.
  induction watchers as [|k w m Hk IH] using map_ind; intros Hn; [by rewrite msum_empty|]. rewrite msum_insert_None by done.
  rewrite IH.
  - unfold over_client. specialize (Hn k w). rewrite lookup_insert_eq in Hn. rewrite (proj2 (String.eqb_neq _ _)) by auto.
    by rewrite andb_false_r.
  - intros k' w' Hw. apply (Hn k'). rewrite lookup_insert_ne; [done|congruence].
Qed.

Lemma add_client_ok l logs client d : limits_facts l -> discovery_ok l logs d -> dv_clients d !! client = None -> discovery_ok l logs (add_client client d).
Proof.
  intros Hl [Ho He Hb Hre Hrb Hob Hreb Hrbb Hcl Hwt Hp] Hc.
  assert (forall id, dv_watchers d !! (client, id) = None) as Hnone.
  { intros id. destruct (dv_watchers d !! (client, id)) as [w|] eqn:Hw; [|done]. destruct (Hwt _ _ _ Hw) as (_ & _ & o & Ho' & _). congruence. }
  assert (forall key w, dv_watchers d !! key = Some w -> wt_client w <> client) as Hn.
  { intros [c id] w Hw. destruct (Hwt _ _ _ Hw) as (-> & _). intros ->. congruence. }
  split; cbn; try done.
  - intros c o. rewrite lookup_insert_Some. intros [[<- <-]|[_ Hc']]; [|by apply Hcl].
    pose proof (lf_one_bytes l Hl). pose proof (lf_bytes l Hl). pose proof (lf_entries l Hl). pose proof (lf_observers l Hl). pose proof (lf_entries_client l Hl).
    split; cbn; rewrite ?no_watchers by done; try done; try (unfold maxUint64; lia); try nia.
    + intros id. rewrite Hnone. set_solver.
    + intros id. rewrite Hnone. set_solver.
    + rewrite size_empty. lia.
  - intros c id w Hw. destruct (Hwt _ _ _ Hw) as (? & ? & o & Ho' & ?). split; [done|]. split; [done|]. exists o.
    rewrite lookup_insert_ne; [done|]. congruence.
Qed.

Lemma over_active_new (f : Watcher -> Z) watchers (key : string * Z) w : watchers !! key = None -> wt_active w = true ->
  msum (over_active f) (<[key := w]> watchers) = msum (over_active f) watchers + f w.
Proof. intros Hk Ha. rewrite msum_insert_None by done. unfold over_active. rewrite Ha. lia. Qed.
Lemma over_client_new (client : string) (f : Watcher -> Z) watchers (key : string * Z) w : watchers !! key = None -> wt_active w = true ->
  msum (over_client client f) (<[key := w]> watchers)
  = msum (over_client client f) watchers + (if String.eqb (wt_client w) client then f w else 0).
Proof. intros Hk Ha. rewrite msum_insert_None by done. unfold over_client. rewrite Ha. cbn. lia. Qed.

Definition new_watcher (client : string) (snapshot : PendingSnapshot) : Watcher :=
  mkWatcher client [] DvIdle true None false (ps_revision snapshot) 0 0 false [] snapshot.

Lemma new_watcher_ok l log client snapshot : limits_facts l -> ps_revision snapshot = lenZ log ->
  watcher_ok l log (new_watcher client snapshot).
Proof.
  intros Hl Hr. pose proof (lf_entries l Hl). pose proof (lf_bytes l Hl).
  assert (drop (Z.to_nat (ps_revision snapshot)) log = []) as Hd by (apply drop_ge; rewrite Hr; unfold lenZ; lia).
  split; cbn; rewrite ?Hd; try done; try lia.
  - rewrite Hr. unfold lenZ. lia.
  - rewrite lenZ_nil. lia.
Qed.

Lemma subscribe_ok l logs client o snapshot d id d' : limits_facts l -> discovery_ok l logs d -> dv_clients d !! client = Some o ->
  (forall id, ps_revision snapshot = lenZ (logs (client, id))) -> subscribe l client o snapshot d = Ok (id, d') ->
  discovery_ok l logs d' /\ dv_watchers d !! (client, id) = None /\ dv_watchers d' = <[(client, id) := new_watcher client snapshot]> (dv_watchers d)
  /\ id = ob_nextWatcher o + 1 /\ dv_clients d' = <[client := reserve_observer l o]> (dv_clients d).
Proof.
  intros Hl Hd Hc Hr Hs. unfold subscribe in Hs. destruct ((dv_observerCount d >=? _) || _) eqn:E1; [done|].
  destruct (Z.eqb_spec (ob_nextWatcher o) maxUint64) as [|Hmax]; [done|].
  match type of Hs with (if ?b then _ else _) = _ => destruct b eqn:E2; [done|] end. injection Hs as <- <-.
  pose proof (do_clients _ _ _ Hd _ _ Hc) as Hoo. pose proof (oo_next _ _ _ _ Hoo) as Hnx.
  assert (ob_nextWatcher o +64 1 = ob_nextWatcher o + 1) as Hid by (apply u64_id; unfold uint64_ok, maxUint64 in *; lia).
  unfold reserve_observer in *. rewrite Hid in *. bprop.
  assert (dv_watchers d !! (client, ob_nextWatcher o + 1) = None) as Hnone.
  { destruct (dv_watchers d !! _) as [w|] eqn:Hw; [|done]. destruct (do_watchers _ _ _ Hd _ _ _ Hw) as (_ & _ & o' & Ho' & Hle).
    rewrite Hc in Ho'. injection Ho' as <-. lia. }
  split; [|done]. pose proof (new_watcher_ok l (logs (client, ob_nextWatcher o + 1)) client snapshot Hl (Hr _)) as Hnw.
  destruct Hd as [Ho He Hb Hre Hrb Hob Hreb Hrbb Hcl Hwt Hp].
  change (mkWatcher client [] DvIdle true None false (ps_revision snapshot) 0 0 false [] snapshot) with (new_watcher client snapshot).
  split; cbn [dv_observerCount dv_queuedEntries dv_queuedBytes dv_reservedEntries dv_reservedBytes dv_clients dv_watchers dv_panicked];
    rewrite ?over_active_new by done; try (cbn; lia); try done.
  - intros c o'. rewrite lookup_insert_Some. intros [[<- <-]|[Hne Hc']].
    + destruct Hoo as [Q1 Q2 Q3 Q4 Q5 Q6 Q7 Q8 Q9 Q10].
      split; cbn; rewrite ?over_client_new by done; cbn; rewrite ?String.eqb_refl; try lia; try (unfold maxUint64 in *; lia).
      * intros i. rewrite elem_of_union, elem_of_singleton, Q8. destruct (decide (i = ob_nextWatcher o + 1)) as [->|Hi].
        -- rewrite lookup_insert_eq. naive_solver.
        -- rewrite lookup_insert_ne by congruence. naive_solver.
      * intros i. rewrite Q9. destruct (decide (i = ob_nextWatcher o + 1)) as [->|Hi].
        -- rewrite lookup_insert_eq, Hnone. naive_solver.
        -- rewrite lookup_insert_ne by congruence. done.
      * rewrite size_union.
        -- rewrite size_singleton. lia.
        -- apply disjoint_singleton_l. rewrite Q8. intros (w & Hw & _). congruence.
    + destruct (Hcl _ _ Hc') as [Q1 Q2 Q3 Q4 Q5 Q6 Q7 Q8 Q9 Q10].
      split; rewrite ?over_client_new, ?(proj2 (String.eqb_neq _ c)) by done; try lia; try done;
        intros i; rewrite lookup_insert_ne by congruence; auto.
  - intros c i w. rewrite lookup_insert_Some. intros [[[= <- <-] <-]|[Hne Hw]].
    + split; [done|]. split; [done|]. rewrite lookup_insert_eq. eexists. split; [done|]. cbn. lia.
    + destruct (Hwt _ _ _ Hw) as (? & ? & o' & Ho' & Hle). split; [done|]. split; [done|].
      destruct (decide (c = client)) as [->|Hn]; [|exists o'; by rewrite lookup_insert_ne].
      rewrite lookup_insert_eq. eexists. split; [done|]. cbn. rewrite Hc in Ho'. injection Ho' as <-. lia.
Qed.

(** *** Delivery *)

(** The deltas of a log carry consecutive revisions from one. *)
Definition numbered (log : list Delta) : Prop := forall i delta, log !! i = Some delta -> dl_revision delta = Z.of_nat i + 1.

Lemma take_watcher l log w item rest : watcher_ok l log w -> wt_pc w = DvIdle -> wt_queue w = item :: rest ->
  watcher_ok l log (with_queue rest (DvHolding item) (wt_queuedCount w) (wt_queuedBytes w) w).
Proof.
  intros [Hc Hb Hcb Hbb Hsz Hsn Hst Hcur Hl Hs Hi Hd Hse] Hpc Hq. unfold in_hand, stream, unsent in *. rewrite Hpc, Hq in *. by split.
Qed.

Lemma send_watcher l log w item : watcher_ok l log w -> wt_pc w = DvHolding item ->
  watcher_ok l log (with_delivered (wt_lastDelivered w) (wt_out w ++ [qd_delta item])
                      (with_queue (wt_queue w) (DvSent item) (wt_queuedCount w) (wt_queuedBytes w) w)).
Proof.
  intros [Hc Hb Hcb Hbb Hsz Hsn Hst Hcur Hl Hs Hi Hd Hse] Hpc. unfold in_hand, stream, unsent in *. rewrite Hpc in *.
  split; cbn in *; rewrite <- ?app_assoc; try done.
  - unfold lenZ in *. rewrite length_app. cbn. lia.
  - intros x [= <-]. by rewrite last_snoc.
Qed.

Lemma sent_revision l log w item : watcher_ok l log w -> numbered log -> wt_pc w = DvSent item ->
  dl_revision (qd_delta item) = ps_revision (wt_snapshot w) + lenZ (wt_out w).
Proof.
  intros Hw Hn Hpc. pose proof (wo_sent _ _ _ Hw item Hpc) as Hlast. destruct (wo_stream _ _ _ Hw) as [k Hk]. unfold stream in Hk.
  rewrite last_lookup in Hlast. pose proof (wo_snapshot _ _ _ Hw).
  assert (log !! (Z.to_nat (ps_revision (wt_snapshot w)) + Nat.pred (length (wt_out w)))%nat = Some (qd_delta item)) as Hlog.
  { rewrite <- lookup_drop, Hk, <- app_assoc, lookup_app_l; [done|]. by apply lookup_lt_Some in Hlast. }
  apply Hn in Hlog. apply lookup_lt_Some in Hlast. unfold lenZ in *. lia.
Qed.

Lemma delivered_watcher l log w item : watcher_ok l log w -> numbered log -> wt_pc w = DvSent item ->
  let last := if dl_revision (qd_delta item) >? wt_lastDelivered w then dl_revision (qd_delta item) else wt_lastDelivered w in
  let n := if wt_active w then 1 else 0 in let b := if wt_active w then qd_bytes item else 0 in
  watcher_ok l log (with_queue (wt_queue w) DvIdle (wt_queuedCount w - n) (wt_queuedBytes w - b) (with_delivered last (wt_out w) w)).
Proof.
  intros Hw Hn Hpc. pose proof (sent_revision _ _ _ _ Hw Hn Hpc) as Hrev.
  destruct Hw as [Hc Hb Hcb Hbb Hsz Hsn Hst Hcur Hl Hs Hi Hd Hse]. unfold in_hand, stream, unsent in *. rewrite Hpc in *.
  cbn in Hsz. apply Forall_cons in Hsz as [[_ Hpos] Hsz]. cbn zeta. split; cbn; try done.
  - intros Ha. rewrite Ha. rewrite (Hc Ha). cbn [app]. rewrite lenZ_cons. lia.
  - intros Ha. rewrite Ha. rewrite (Hb Ha). cbn [app]. rewrite sumZ_cons. unfold sumZ. lia.
  - destruct (wt_active w); lia.
  - destruct (wt_active w); lia.
  - rewrite Hrev. destruct (Z.gtb_spec (ps_revision (wt_snapshot w) + lenZ (wt_out w)) (wt_lastDelivered w)); lia.
  - intros Ha. rewrite Ha. destruct (Hi Ha). lia.
Qed.

Lemma exit_watcher l log w pc : watcher_ok l log w -> wt_stop w = true -> (wt_pc w = DvIdle \/ exists item, wt_pc w = DvHolding item) ->
  pc = DvClosed -> watcher_ok l log (with_queue [] pc (wt_queuedCount w) (wt_queuedBytes w) w).
Proof.
  intros [Hc Hb Hcb Hbb Hsz Hsn Hst Hcur Hl Hs Hi Hd Hse] Hstop Hpc ->. assert (wt_active w = false) as Ha by (rewrite Hs in Hstop; by destruct (wt_active w)).
  unfold in_hand, stream, unsent in *. split; cbn; try congruence; try done.
  - rewrite app_nil_r. etrans; [|exact Hst]. by apply prefix_app_r.
  - destruct Hpc as [Hpc|[item Hpc]]; rewrite Hpc in Hl; lia.
Qed.

Lemma stopped_watcher l log w : watcher_ok l log w -> wt_pc w = DvClosed ->
  watcher_ok l log (with_queue (wt_queue w) DvStopped (wt_queuedCount w) (wt_queuedBytes w) w).
Proof.
  intros [Hc Hb Hcb Hbb Hsz Hsn Hst Hcur Hl Hs Hi Hd Hse] Hpc. unfold in_hand, stream, unsent, watcher_done in *. rewrite Hpc in *. by split.
Qed.

(** Each step of [deliver] preserves the invariant. *)
Lemma set_watcher_ok l logs d key w w' : discovery_ok l logs d -> dv_watchers d !! key = Some w -> moves w w' 0 0 ->
  watcher_ok l (logs key) w' -> discovery_ok l logs (set_watcher key w' d).
Proof. intros Hd Hk Hm Hw. rewrite <- (count_queued_none (wt_client w) (set_watcher key w' d)). by apply (moved_ok l logs). Qed.

Lemma watcher_at l logs d key w : discovery_ok l logs d -> dv_watchers d !! key = Some w -> watcher_ok l (logs key) w.
Proof. destruct key as [c id]. intros Hd Hk. by destruct (do_watchers _ _ _ Hd _ _ _ Hk) as (_ & ? & _). Qed.

Lemma deliver_take_ok l logs key d d' : discovery_ok l logs d -> deliver_take key d = Some d' -> discovery_ok l logs d'.
Proof.
  intros Hd. unfold deliver_take. destruct (dv_watchers d !! key) as [w|] eqn:Hk; [|done]. destruct (wt_pc w) eqn:Hpc; try done.
  destruct (wt_queue w) as [|item rest] eqn:Hq; [done|]. intros [= <-]. pose proof (watcher_at _ _ _ _ _ Hd Hk) as Hw.
  apply (set_watcher_ok _ _ _ _ w); [done|done| |by apply take_watcher].
  unfold moves. cbn. rewrite Hpc. destruct (wt_active w); split_and!; try done; lia.
Qed.

Lemma deliver_send_ok l logs key d d' : discovery_ok l logs d -> deliver_send key d = Some d' -> discovery_ok l logs d'.
Proof.
  intros Hd. unfold deliver_send. destruct (dv_watchers d !! key) as [w|] eqn:Hk; [|done]. destruct (wt_pc w) eqn:Hpc; try done.
  intros [= <-]. pose proof (watcher_at _ _ _ _ _ Hd Hk) as Hw. apply (set_watcher_ok _ _ _ _ w); [done|done| |by apply send_watcher].
  unfold moves. cbn. rewrite Hpc. destruct (wt_active w); split_and!; try done; lia.
Qed.

Lemma delivered_ok l logs key d d' : discovery_ok l logs d -> numbered (logs key) -> delivered key d = Some d' -> discovery_ok l logs d'.
Proof.
  intros Hd Hn. unfold delivered. destruct (dv_watchers d !! key) as [w|] eqn:Hk; [|done]. destruct (wt_pc w) as [| |item| |] eqn:Hpc; try done.
  intros [= <-]. pose proof (watcher_at _ _ _ _ _ Hd Hk) as Hw. pose proof (delivered_watcher _ _ _ _ Hw Hn Hpc) as Hw'.
  destruct (wt_active w) eqn:Ha; cbn [negb] in *; cbn zeta in Hw'.
  - apply (moved_ok _ logs _ _ _ w); try done. unfold moves. cbn. rewrite Hpc, Ha. split_and!; try done; lia.
  - rewrite !Z.sub_0_r in Hw'. apply (set_watcher_ok _ _ _ _ w); try done. unfold moves. cbn. rewrite Hpc, Ha. done.
Qed.

Lemma deliver_exit_ok l logs key d d' : discovery_ok l logs d -> deliver_exit key d = Some d' -> discovery_ok l logs d'.
Proof.
  intros Hd. unfold deliver_exit. destruct (dv_watchers d !! key) as [w|] eqn:Hk; [|done]. destruct (wt_stop w) eqn:Hs; [|done].
  pose proof (watcher_at _ _ _ _ _ Hd Hk) as Hw.
  assert (wt_pc w = DvIdle \/ (exists item, wt_pc w = DvHolding item) -> wt_pc w <> DvStopped ->
    discovery_ok l logs (set_watcher key (with_queue [] DvClosed (wt_queuedCount w) (wt_queuedBytes w) w) d)) as Hok.
  { intros Hpc Hns. apply (set_watcher_ok _ _ _ _ w); [done|done| |by apply exit_watcher].
    unfold moves. cbn. destruct (wt_active w); split_and!; try done; lia. }
  destruct (wt_pc w) as [|item| | |]; try done; intros [= <-]; apply Hok; eauto.
Qed.

Lemma watcherStopped_ok l logs key d d' : discovery_ok l logs d -> watcherStopped key d = Some d' -> discovery_ok l logs d'.
Proof.
  intros Hd. unfold watcherStopped. destruct (dv_watchers d !! key) as [w|] eqn:Hk; [|done]. destruct (wt_pc w) eqn:Hpc; try done.
  intros [= <-]. pose proof (watcher_at _ _ _ _ _ Hd Hk) as Hw. destruct key as [c id].
  assert (wt_active w = false) as Ha by (apply (wo_done _ _ _ Hw); unfold watcher_done; by rewrite Hpc).
  destruct Hd as [Ho He Hb Hre Hrb Hob Hreb Hrbb Hcl Hwt Hp]. destruct (Hwt _ _ _ Hk) as (<- & Hwo & o & Hco & Hid).
  set (w' := with_queue _ _ _ _ _). assert (wt_active w' = wt_active w /\ wt_client w' = wt_client w) as [Ha' Hc'] by done.
  split; cbn [dv_observerCount dv_queuedEntries dv_queuedBytes dv_reservedEntries dv_reservedBytes dv_clients dv_watchers dv_panicked snd];
    rewrite ?(over_active_insert _ _ _ w w'), ?Ha by done; try lia; try done.
  - intros client o' Ho'. revert Ho'. destruct (decide (client = wt_client w)) as [->|Hne].
    + rewrite lookup_alter_eq, Hco. cbn. intros [= <-]. destruct (Hcl _ _ Hco) as [Q1 Q2 Q3 Q4 Q5 Q6 Q7 Q8 Q9 Q10].
      split; cbn; rewrite ?(over_client_insert _ _ _ _ w w'), ?Ha by done; cbn; try lia.
      * intros id'. rewrite Q8. destruct (decide (id' = id)) as [->|Hne].
        -- rewrite lookup_insert_eq, Hk. naive_solver.
        -- by rewrite lookup_insert_ne by congruence.
      * intros id'. rewrite elem_of_difference, elem_of_singleton, Q9. destruct (decide (id' = id)) as [->|Hne].
        -- rewrite lookup_insert_eq. naive_solver.
        -- rewrite lookup_insert_ne by congruence. naive_solver.
    + rewrite lookup_alter_ne by done. intros Ho'. destruct (Hcl _ _ Ho') as [Q1 Q2 Q3 Q4 Q5 Q6 Q7 Q8 Q9 Q10].
      split; rewrite ?(over_client_insert _ _ _ _ w w'), ?Ha by done; cbn; try lia; try done;
        intros id'; rewrite lookup_insert_ne by congruence; auto.
  - intros client id' x. rewrite lookup_insert_Some. intros [[[= <- <-] <-]|[Hne Hx]].
    + split; [done|]. split; [by apply stopped_watcher|]. rewrite lookup_alter_eq, Hco. by eexists.
    + destruct (Hwt _ _ _ Hx) as (Hxc & Hxo & ox & Hox & Hxi). split; [done|]. split; [done|].
      destruct (decide (client = wt_client w)) as [->|Hn']; [rewrite lookup_alter_eq|rewrite lookup_alter_ne by done]; rewrite Hox; by eexists.
Qed.

(** *** What no operation undoes *)

(** Watchers keep their snapshot; a detached one stays detached, a finished
    goroutine finished. *)
Definition watcher_frame (w w' : Watcher) : Prop :=
  wt_snapshot w' = wt_snapshot w /\ wt_client w' = wt_client w /\ (wt_active w = false -> wt_active w' = false)
  /\ (watcher_done w = true -> watcher_done w' = true) /\ (wt_pc w = DvStopped -> wt_pc w' = DvStopped)
  /\ wt_out w `prefix_of` wt_out w'.

Record frame (d d' : Discovery) : Prop := {
  fr_clients client : (ob_nextWatcher <$> dv_clients d' !! client) = (ob_nextWatcher <$> dv_clients d !! client);
  fr_watchers key : match dv_watchers d !! key, dv_watchers d' !! key with
    | Some w, Some w' => watcher_frame w w' | None, None => True | _, _ => False end
}.

Lemma watcher_frame_refl w : watcher_frame w w.
Proof. done. Qed.
#[export] Instance frame_preorder : PreOrder frame.
Proof.
  split.
  - intros d. split; [done|]. intros key. by destruct (dv_watchers d !! key).
  - intros d1 d2 d3 [C1 W1] [C2 W2]. split; [congruence|]. intros key. specialize (W1 key). specialize (W2 key).
    destruct (dv_watchers d1 !! key), (dv_watchers d2 !! key), (dv_watchers d3 !! key); try done.
    unfold watcher_frame in *. destruct_and?. split_and!; try congruence; eauto. by etrans.
Qed.

Lemma alter_next (f : Observers -> Observers) k (m : gmap string Observers) client : (forall o, ob_nextWatcher (f o) = ob_nextWatcher o) ->
  (ob_nextWatcher <$> alter f k m !! client) = (ob_nextWatcher <$> m !! client).
Proof.
  intros Hf. destruct (decide (client = k)) as [->|Hne]; [rewrite lookup_alter_eq|by rewrite lookup_alter_ne].
  destruct (m !! k); cbn; [by rewrite Hf|done].
Qed.

Lemma frame_insert d d' (key : string * Z) w w' : (forall client, (ob_nextWatcher <$> dv_clients d' !! client) = (ob_nextWatcher <$> dv_clients d !! client)) ->
  dv_watchers d !! key = Some w -> dv_watchers d' = <[key := w']> (dv_watchers d) -> watcher_frame w w' -> frame d d'.
Proof.
  intros Hc Hk Hw Hf. split; [done|]. intros key'. rewrite Hw. destruct (decide (key' = key)) as [->|Hne].
  - by rewrite Hk, lookup_insert_eq.
  - rewrite lookup_insert_ne by done. by destruct (dv_watchers d !! key').
Qed.

Lemma finish_frame l key err exhausted d : frame d (finishWatcherLocked l key err exhausted d).
Proof.
  unfold finishWatcherLocked. destruct (dv_watchers d !! key) as [w|] eqn:Hk; [|done]. destruct (negb (wt_active w)); [done|].
  eapply frame_insert; [|exact Hk|done|done]. intros client. cbn. by apply alter_next.
Qed.

Lemma publish_to_frame l client delta d id : frame d (publish_to l client delta d id).
Proof.
  unfold publish_to. destruct (dv_watchers d !! (client, id)) as [w|] eqn:Hk; [|done]. destruct (dv_clients d !! client) as [o|]; [|done].
  unfold enqueueLocked. repeat (case_match; simplify_eq; try done; try apply finish_frame).
  all: eapply frame_insert; [|exact Hk|done|done]; intros c; cbn; by apply alter_next.
Qed.

Lemma publish_frame l client delta d : frame d (publish l client delta d).
Proof.
  unfold publish. destruct (dv_clients d !! client) as [o|]; [|done]. generalize (sortedWatcherIDs (ob_watchers o)). intros ids.
  revert d. induction ids as [|id ids IH]; intros d; cbn; [done|]. etrans; [apply publish_to_frame|apply IH].
Qed.

Ltac deliver_frame :=
  match goal with |- match dv_watchers ?d !! ?key with _ => _ end = _ -> _ =>
    destruct (dv_watchers d !! key) as [w|] eqn:Hk; [|done] end;
  repeat case_match; try done; intros [= <-];
  (eapply frame_insert; [|eassumption|done|]; [intros client; cbn; try done; by apply alter_next|];
   unfold watcher_frame, watcher_done in *; cbn; repeat match goal with E : wt_pc _ = _ |- _ => rewrite E end; split_and!;
   first [done | by apply prefix_app_r]).
Lemma take_frame key d d' : deliver_take key d = Some d' -> frame d d'.
Proof. unfold deliver_take. deliver_frame. Qed.
Lemma send_frame key d d' : deliver_send key d = Some d' -> frame d d'.
Proof. unfold deliver_send. deliver_frame. Qed.
Lemma delivered_frame key d d' : delivered key d = Some d' -> frame d d'.
Proof. unfold delivered. deliver_frame. Qed.
Lemma exit_frame key d d' : deliver_exit key d = Some d' -> frame d d'.
Proof. unfold deliver_exit. deliver_frame. Qed.
Lemma stopped_frame key d d' : watcherStopped key d = Some d' -> frame d d'.
Proof. unfold watcherStopped. deliver_frame. Qed.
