(* ===== verification/PendingHub.v ===== *)
(** The pending interaction hub (src/daemon/pending.go): run bindings, the
    interactions they hold open, and their answers.

    One lock owns the hub: every critical section is a transition.  Bindings,
    calls and the goroutines of [Request], [FenceObservers] and [Close] are
    keyed by fresh numbers, for the source's pointers.  [pp_log] is not a field
    of the source: it has the deltas a partition has published, in order. *)
From Stdlib Require Import ZArith Lia.
From stdpp Require Import base gmap list strings sorting relations.
From S2P Require Import Prelude GoText GoOrder Interaction Session PendingWatch.
Open Scope Z_scope.

Inductive pendingResult := PResponse (response : InteractionResponse) | PFailure (err : PendingError).

(** A [Request] call: at its select, waiting for [done] with the result it
    read, returned. *)
Inductive request_pc := RqWaits | RqJoins (result : pendingResult) | RqReturned (result : pendingResult).

(** [cl_closers] counts the goroutines that finished the call and have not
    closed [done] yet. *)
Record pendingCall := mkCall {
  cl_value : Pending;
  cl_binding : Z;
  cl_result : option pendingResult;
  cl_done : bool;
  cl_closers : Z;
  cl_pc : request_pc
}.

Record runBindingState := mkBinding {
  bd_clientID : string;
  bd_runID : string;
  bd_accepting : bool;
  bd_active : Z;
  bd_released : bool;
  bd_once : bool
}.

Record pendingPartition := mkPartition {
  pp_revision : Z;
  pp_pendingBytes : Z;
  pp_boundRuns : Z;
  pp_pending : gmap pendingKey Z;
  pp_log : list Delta
}.

(** [FenceObservers]: the watchers it joins, the last watcher there was when it
    began, and whether it returned. *)
Record fence := mkFence { fc_client : string; fc_upto : Z; fc_watchers : list Z; fc_returned : bool }.

(** [Close]: releasing the calls it finished and joining the watchers, waiting
    for another [Close], returned. *)
Inductive close_pc := ClJoins (calls : list Z) | ClWaits | ClReturned.

Record PendingHub := mkHub {
  hb_limits : PendingLimits;
  hb_pendingCount : Z;
  hb_pendingBytes : Z;
  hb_partitions : gmap string pendingPartition;
  hb_runs : gmap string Z;
  hb_closed : bool;
  hb_closeDone : bool;
  hb_bindings : gmap Z runBindingState;
  hb_calls : gmap Z pendingCall;
  hb_discovery : Discovery;
  hb_fences : gmap Z fence;
  hb_closes : gmap Z close_pc;
  hb_panicked : bool;
  hb_fresh : Z
}.

Definition NewPendingHub (limits : PendingLimits) : result PendingError PendingHub :=
  match validatePendingLimits limits with
  | Some e => Err e
  | None => Ok (mkHub limits 0 0 ∅ ∅ false false ∅ ∅ (mkDiscovery 0 0 0 0 0 ∅ ∅ false) ∅ ∅ false 0)
  end.

(** Field updates. *)
Definition set_counts (count bytes : Z) (h : PendingHub) : PendingHub :=
  mkHub (hb_limits h) count bytes (hb_partitions h) (hb_runs h) (hb_closed h) (hb_closeDone h) (hb_bindings h) (hb_calls h)
    (hb_discovery h) (hb_fences h) (hb_closes h) (hb_panicked h) (hb_fresh h).
Definition set_partition (client : string) (p : pendingPartition) (h : PendingHub) : PendingHub :=
  mkHub (hb_limits h) (hb_pendingCount h) (hb_pendingBytes h) (<[client := p]> (hb_partitions h)) (hb_runs h) (hb_closed h)
    (hb_closeDone h) (hb_bindings h) (hb_calls h) (hb_discovery h) (hb_fences h) (hb_closes h) (hb_panicked h) (hb_fresh h).
Definition set_discovery (d : Discovery) (h : PendingHub) : PendingHub :=
  mkHub (hb_limits h) (hb_pendingCount h) (hb_pendingBytes h) (hb_partitions h) (hb_runs h) (hb_closed h) (hb_closeDone h)
    (hb_bindings h) (hb_calls h) d (hb_fences h) (hb_closes h) (hb_panicked h) (hb_fresh h).
Definition set_bindings (runs : gmap string Z) (bindings : gmap Z runBindingState) (panicked : bool) (h : PendingHub) : PendingHub :=
  mkHub (hb_limits h) (hb_pendingCount h) (hb_pendingBytes h) (hb_partitions h) runs (hb_closed h) (hb_closeDone h) bindings
    (hb_calls h) (hb_discovery h) (hb_fences h) (hb_closes h) panicked (hb_fresh h).
Definition set_calls (calls : gmap Z pendingCall) (panicked : bool) (h : PendingHub) : PendingHub :=
  mkHub (hb_limits h) (hb_pendingCount h) (hb_pendingBytes h) (hb_partitions h) (hb_runs h) (hb_closed h) (hb_closeDone h)
    (hb_bindings h) calls (hb_discovery h) (hb_fences h) (hb_closes h) panicked (hb_fresh h).
Definition set_closing (closed closeDone : bool) (fences : gmap Z fence) (closes : gmap Z close_pc) (h : PendingHub) : PendingHub :=
  mkHub (hb_limits h) (hb_pendingCount h) (hb_pendingBytes h) (hb_partitions h) (hb_runs h) closed closeDone
    (hb_bindings h) (hb_calls h) (hb_discovery h) fences closes (hb_panicked h) (hb_fresh h).
Definition bump (h : PendingHub) : PendingHub :=
  mkHub (hb_limits h) (hb_pendingCount h) (hb_pendingBytes h) (hb_partitions h) (hb_runs h) (hb_closed h) (hb_closeDone h)
    (hb_bindings h) (hb_calls h) (hb_discovery h) (hb_fences h) (hb_closes h) (hb_panicked h) (hb_fresh h + 1).

Definition with_active (active : Z) (b : runBindingState) : runBindingState :=
  mkBinding (bd_clientID b) (bd_runID b) (bd_accepting b) active (bd_released b) (bd_once b).
Definition refusing (once : bool) (b : runBindingState) : runBindingState :=
  mkBinding (bd_clientID b) (bd_runID b) false (bd_active b) (bd_released b) once.
Definition released (b : runBindingState) : runBindingState :=
  mkBinding (bd_clientID b) (bd_runID b) (bd_accepting b) (bd_active b) true (bd_once b).
Definition with_bound (boundRuns : Z) (p : pendingPartition) : pendingPartition :=
  mkPartition (pp_revision p) (pp_pendingBytes p) boundRuns (pp_pending p) (pp_log p).
Definition with_pending (bytes : Z) (pending : gmap pendingKey Z) (p : pendingPartition) : pendingPartition :=
  mkPartition (pp_revision p) bytes (pp_boundRuns p) pending (pp_log p).
Definition with_result (result : option pendingResult) (closers : Z) (c : pendingCall) : pendingCall :=
  mkCall (cl_value c) (cl_binding c) result (cl_done c) closers (cl_pc c).
Definition with_pc (pc : request_pc) (c : pendingCall) : pendingCall :=
  mkCall (cl_value c) (cl_binding c) (cl_result c) (cl_done c) (cl_closers c) pc.

(** ** Partitions and snapshots *)

Definition partitionLocked (client : string) (h : PendingHub) : result PendingError PendingHub :=
  match hb_partitions h !! client with
  | Some _ => Ok h
  | None =>
      if Z.of_nat (size (hb_partitions h)) >=? pl_Clients (hb_limits h) then Err ErrPendingCapacity
      else Ok (set_discovery (add_client client (hb_discovery h)) (set_partition client (mkPartition 0 0 0 ∅ []) h))
  end.

(** The order of snapshots and of [Close]: by run, then by interaction. *)
Definition key_le (a b : pendingKey * Z) : Prop :=
  String.ltb a.1.1 b.1.1 = true \/ (a.1.1 = b.1.1 /\ String.leb a.1.2 b.1.2 = true).
#[export] Instance key_le_dec : RelDecision key_le.
Proof. intros a b. unfold key_le. apply _. Defined.
Definition sorted_calls (p : pendingPartition) : list (pendingKey * Z) := merge_sort key_le (map_to_list (pp_pending p)).

Definition snapshotLocked (calls : gmap Z pendingCall) (p : pendingPartition) : PendingSnapshot :=
  mkPendingSnapshot (pp_revision p) (omap (fun kc => cl_value <$> calls !! kc.2) (sorted_calls p)).

Definition Snapshot_ (clientID : string) (h : PendingHub) : result PendingError PendingSnapshot :=
  if negb (boundedToken clientID) then Err ErrPendingToken
  else if hb_closed h then Err ErrPendingHubClosed
  else match hb_partitions h !! clientID with
  | None => Ok (mkPendingSnapshot 0 [])
  | Some p => Ok (snapshotLocked (hb_calls h) p)
  end.

(** [snapshotCapacityUpperBound]. *)
Definition snapshotCapacityUpperBound (h : PendingHub) : Z * Z :=
  let items := pl_PendingPerClient (hb_limits h) in
  (items, pl_PendingBytesPerClient (hb_limits h) + items * pendingSnapshotItemOverhead + pendingSnapshotFrameOverhead).

(** ** Bindings *)

Definition BindRun (clientID : string) (scope : InteractionScope) (h : PendingHub) : result PendingError Z * PendingHub :=
  if negb (boundedToken clientID) then (Err ErrPendingToken, h)
  else match InteractionScope_Validate scope with
  | Some e => (Err (ErrPendingInteraction e), h)
  | None =>
      if hb_closed h then (Err ErrPendingHubClosed, h)
      else match hb_runs h !! is_runID scope with
      | Some _ => (Err (ErrRunAlreadyBound (is_runID scope)), h)
      | None =>
          if Z.of_nat (size (hb_runs h)) >=? pl_Runs (hb_limits h) then (Err ErrRunBindingCapacity, h)
          else match partitionLocked clientID h with
          | Err _ => (Err ErrRunBindingCapacity, h)
          | Ok h1 =>
              match hb_partitions h1 !! clientID with
              | None => (Err ErrRunBindingCapacity, h1)
              | Some p =>
                  if pp_boundRuns p >=? pl_RunsPerClient (hb_limits h) then (Err ErrRunBindingCapacity, h1)
                  else
                    let b := hb_fresh h1 in
                    (Ok b, bump (set_partition clientID (with_bound (pp_boundRuns p + 1) p)
                             (set_bindings (<[is_runID scope := b]> (hb_runs h1))
                                (<[b := mkBinding clientID (is_runID scope) true 0 false false]> (hb_bindings h1)) (hb_panicked h1) h1)))
              end
          end
      end
  end.

(** [removeReleasedBindingLocked]. *)
Definition removeReleasedBindingLocked (b : Z) (h : PendingHub) : PendingHub :=
  match hb_bindings h !! b with
  | None => h
  | Some binding =>
      if bd_accepting binding || negb (bd_active binding =? 0) then h
      else if bool_decide (hb_runs h !! bd_runID binding = Some b) then
        let h1 := set_bindings (delete (bd_runID binding) (hb_runs h)) (<[b := released binding]> (hb_bindings h))
                    (hb_panicked h || bd_released binding) h in
        match hb_partitions h !! bd_clientID binding with
        | Some p => set_partition (bd_clientID binding) (with_bound (pp_boundRuns p - 1) p) h1
        | None => h1
        end
      else h
  end.

(** [RunBinding.Release]. *)
Definition Release (b : Z) (h : PendingHub) : PendingHub :=
  match hb_bindings h !! b with
  | None => h
  | Some binding =>
      if bd_once binding then h
      else removeReleasedBindingLocked b
             (set_bindings (hb_runs h) (<[b := refusing true binding]> (hb_bindings h)) (hb_panicked h) h)
  end.

(** ** Requests and answers *)

(** [publishLocked]. *)
Definition publishLocked (client : string) (kind : DeltaKind) (value : Pending) (h : PendingHub) : PendingHub :=
  match hb_partitions h !! client with
  | None => h
  | Some p =>
      let revision := pp_revision p +64 1 in
      let delta := mkDelta revision kind value in
      set_discovery (publish (hb_limits h) client delta (hb_discovery h))
        (set_partition client (mkPartition revision (pp_pendingBytes p) (pp_boundRuns p) (pp_pending p) (pp_log p ++ [delta])) h)
  end.

Definition hasPendingCapacity (h : PendingHub) (p : pendingPartition) (bytes : Z) : bool :=
  let l := hb_limits h in
  (hb_pendingCount h <? pl_Pending l) && (Z.of_nat (size (pp_pending p)) <? pl_PendingPerClient l)
  && (bytes <=? pl_PendingBytes l) && (hb_pendingBytes h <=? pl_PendingBytes l - bytes)
  && (bytes <=? pl_PendingBytesPerClient l) && (pp_pendingBytes p <=? pl_PendingBytesPerClient l - bytes).

(** The call that an admitted request adds, and its publication. *)
Definition accept_call (client : string) (p : pendingPartition) (value : Pending) (b : Z) (binding : runBindingState) (h : PendingHub)
  : PendingHub :=
  let id := hb_fresh h in
  let bytes := pendingValueBytes value in
  publishLocked client DeltaOpened value
    (bump (set_calls (<[id := mkCall value b None false 0 RqWaits]> (hb_calls h)) (hb_panicked h)
       (set_bindings (hb_runs h) (<[b := with_active (bd_active binding + 1) binding]> (hb_bindings h)) (hb_panicked h)
          (set_counts (hb_pendingCount h + 1) (hb_pendingBytes h + bytes)
             (set_partition client (with_pending (pp_pendingBytes p + bytes) (<[key_of value := id]> (pp_pending p)) p) h))))).

(** [Request] up to its select. *)
Definition Request_begin (ctx : ctx_arg) (scope : InteractionScope) (request : InteractionRequest) (h : PendingHub)
  : result PendingError Z * PendingHub :=
  match ctx with
  | CtxNil => (Err ErrPendingNilContext, h)
  | CtxDone => (Err ErrPendingContext, h)
  | CtxLive =>
      match InteractionScope_Validate scope, InteractionRequest_Validate request with
      | Some e, _ => (Err (ErrPendingInteraction e), h)
      | None, Some e => (Err (ErrPendingInteraction e), h)
      | None, None =>
          let value := mkPending scope request in
          if hb_closed h then (Err ErrPendingHubClosed, h)
          else match hb_runs h !! is_runID scope ≫= (fun b => pair b <$> hb_bindings h !! b) with
          | None => (Err ErrRunNotBound, h)
          | Some (b, binding) =>
              if negb (bd_accepting binding) then (Err ErrRunNotBound, h)
              else match hb_partitions h !! bd_clientID binding with
              | None => (Err ErrRunNotBound, h)
              | Some p =>
                  if bool_decide (is_Some (pp_pending p !! key_of value)) then (Err ErrAlreadyPending, h)
                  else
                    let bytes := pendingValueBytes value in
                    if negb (hasPendingCapacity h p bytes) then (Err ErrPendingCapacity, h)
                    else
                      let required := Z.of_nat (size (pp_pending p)) +64 2 in
                      if pp_revision p >? maxUint64 -64 required then (Err ErrPendingCapacity, h)
                      else
                        (Ok (hb_fresh h), accept_call (bd_clientID binding) p value b binding h)
              end
          end
      end
  end.

(** [finishCallLocked]; the caller closes [done] after it unlocked. *)
Definition finishCallLocked (client : string) (key : pendingKey) (id : Z) (result : pendingResult) (h : PendingHub) : PendingHub :=
  match hb_partitions h !! client, hb_calls h !! id with
  | Some p, Some call =>
      let bytes := pendingValueBytes (cl_value call) in
      let h1 := set_counts (hb_pendingCount h - 1) (hb_pendingBytes h - bytes)
                  (set_partition client (with_pending (pp_pendingBytes p - bytes) (delete key (pp_pending p)) p) h) in
      let h2 := set_calls (<[id := with_result (Some result) (cl_closers call + 1) call]> (hb_calls h1)) (hb_panicked h1) h1 in
      let h3 := set_bindings (hb_runs h2) (alter (fun b => with_active (bd_active b - 1) b) (cl_binding call) (hb_bindings h2)) (hb_panicked h2) h2 in
      removeReleasedBindingLocked (cl_binding call) (publishLocked client DeltaClosed (cl_value call) h3)
  | _, _ => h
  end.

(** [close(call.done)]. *)
Definition close_done (id : Z) (h : PendingHub) : option PendingHub :=
  match hb_calls h !! id with
  | Some call =>
      if cl_closers call >? 0 then
        Some (set_calls (<[id := mkCall (cl_value call) (cl_binding call) (cl_result call) true (cl_closers call - 1) (cl_pc call)]>
                           (hb_calls h)) (hb_panicked h || cl_done call) h)
      else None
  | None => None
  end.

Definition Respond (clientID : string) (scope : InteractionScope) (response : InteractionResponse) (h : PendingHub)
  : option PendingError * PendingHub :=
  if negb (boundedToken clientID) then (Some ErrPendingToken, h)
  else match InteractionScope_Validate scope, InteractionResponse_Validate response with
  | Some e, _ => (Some (ErrPendingInteraction e), h)
  | None, Some e => (Some (ErrPendingInteraction e), h)
  | None, None =>
      if hb_closed h then (Some ErrPendingHubClosed, h)
      else match hb_runs h !! is_runID scope ≫= (fun b => hb_bindings h !! b) with
      | None => (Some ErrRunNotBound, h)
      | Some binding =>
          if negb (String.eqb (bd_clientID binding) clientID) then (Some ErrRunNotBound, h)
          else match hb_partitions h !! clientID with
          | None => (Some ErrRunNotBound, h)
          | Some p =>
              match pp_pending p !! (is_runID scope, ip_id response) with
              | None => (Some ErrInteractionNotPending, h)
              | Some id => (None, finishCallLocked clientID (is_runID scope, ip_id response) id (PResponse response) h)
              end
          end
      end
  end.

(** [complete], from [Request] when its context is done. *)
Definition complete (key : pendingKey) (id : Z) (call : pendingCall) (proposed : pendingResult) (h : PendingHub)
  : option pendingResult * bool * PendingHub :=
  match hb_bindings h !! cl_binding call with
  | None => (cl_result call, false, h)
  | Some binding =>
      match hb_partitions h !! bd_clientID binding with
      | Some p =>
          if bool_decide (pp_pending p !! key = Some id)
          then (Some proposed, true, finishCallLocked (bd_clientID binding) key id proposed h)
          else (cl_result call, false, h)
      | None => (cl_result call, false, h)
      end
  end.

Definition set_pc (id : Z) (pc : request_pc) (h : PendingHub) : PendingHub :=
  set_calls (alter (with_pc pc) id (hb_calls h)) (hb_panicked h) h.

(** [case <-call.done]. *)
Definition Request_done (id : Z) (h : PendingHub) : option PendingHub :=
  match hb_calls h !! id with
  | Some call =>
      match cl_pc call, cl_done call, cl_result call with
      | RqWaits, true, Some result => Some (set_pc id (RqReturned result) h)
      | RqJoins result, true, _ => Some (set_pc id (RqReturned result) h)
      | _, _, _ => None
      end
  | None => None
  end.

(** [case <-ctx.Done()]: a completed call returns after its [close(done)],
    which a later [close_done] does; one completed by another waits for it. *)
Definition Request_cancel (id : Z) (h : PendingHub) : option PendingHub :=
  match hb_calls h !! id with
  | Some call =>
      match cl_pc call with
      | RqWaits =>
          match complete (key_of (cl_value call)) id call (PFailure ErrPendingContext) h with
          | (Some result, _, h') => Some (set_pc id (RqJoins result) h')
          | (None, _, _) => None
          end
      | _ => None
      end
  | None => None
  end.

(** ** Observers *)

Definition Subscribe (ctx : ctx_arg) (clientID : string) (h : PendingHub) : result PendingError Z * PendingHub :=
  match ctx with
  | CtxNil => (Err ErrPendingNilContext, h)
  | CtxDone => (Err ErrPendingContext, h)
  | CtxLive =>
      if negb (boundedToken clientID) then (Err ErrPendingToken, h)
      else if hb_closed h then (Err ErrPendingHubClosed, h)
      else match partitionLocked clientID h with
      | Err _ => (Err ErrObserverCapacity, h)
      | Ok h1 =>
          match hb_partitions h1 !! clientID, dv_clients (hb_discovery h1) !! clientID with
          | Some p, Some o =>
              match subscribe (hb_limits h1) clientID o (snapshotLocked (hb_calls h1) p) (hb_discovery h1) with
              | Err e => (Err e, h1)
              | Ok (id, d) => (Ok id, set_discovery d h1)
              end
          | _, _ => (Err ErrObserverCapacity, h1)
          end
      end
  end.

(** Detaching several watchers of a client. *)
Definition finish_watchers (client : string) (err : PendingError) (ids : list Z) (h : PendingHub) : PendingHub :=
  set_discovery (foldl (fun d id => finishWatcherLocked (hb_limits h) (client, id) (Some err) false d) (hb_discovery h) ids) h.

(** [FenceObservers] up to its joins; [k] is the call. *)
Definition FenceObservers_begin (clientID : string) (k : Z) (h : PendingHub) : option PendingError * PendingHub :=
  if negb (boundedToken clientID) then (Some ErrPendingToken, h)
  else if hb_closed h then (Some ErrPendingHubClosed, h)
  else match dv_clients (hb_discovery h) !! clientID with
  | None => (None, h)
  | Some o =>
      let ids := sortedWatcherIDs (ob_watchers o) in
      let h1 := finish_watchers clientID ErrObserverFenced ids h in
      (None, set_closing (hb_closed h1) (hb_closeDone h1)
               (<[k := mkFence clientID (ob_nextWatcher o) (elements (ob_stopping o) ++ ids) false]> (hb_fences h1)) (hb_closes h1) h1)
  end.

Definition watcher_joined (h : PendingHub) (key : string * Z) : bool :=
  match dv_watchers (hb_discovery h) !! key with Some w => watcher_done w | None => true end.

Definition fence_join (k : Z) (h : PendingHub) : option PendingHub :=
  match hb_fences h !! k with
  | Some f =>
      if negb (fc_returned f) && forallb (fun id => watcher_joined h (fc_client f, id)) (fc_watchers f)
      then Some (set_closing (hb_closed h) (hb_closeDone h)
                   (<[k := mkFence (fc_client f) (fc_upto f) (fc_watchers f) true]> (hb_fences h)) (hb_closes h) h)
      else None
  | None => None
  end.

(** ** [Close] *)

Definition client_le (a b : string) : Prop := String.leb a b = true.
#[export] Instance client_le_dec : RelDecision client_le.
Proof. intros a b. unfold client_le. apply _. Defined.
Definition sorted_clients (h : PendingHub) : list string := merge_sort client_le (map fst (map_to_list (hb_partitions h))).
Definition close_calls (h : PendingHub) : list (string * (pendingKey * Z)) :=
  client ← sorted_clients h; match hb_partitions h !! client with Some p => pair client <$> sorted_calls p | None => [] end.

Definition close_bindings (bindings : list Z) (h : PendingHub) : PendingHub :=
  set_bindings (hb_runs h) (foldr (alter (fun b => refusing (bd_once b) b)) (hb_bindings h) bindings) (hb_panicked h) h.
Definition close_call (h : PendingHub) (c : string * (pendingKey * Z)) : PendingHub :=
  finishCallLocked c.1 c.2.1 c.2.2 (PFailure ErrPendingHubClosed) h.
Definition close_watchers (h : PendingHub) (client : string) : PendingHub :=
  match dv_clients (hb_discovery h) !! client with
  | Some o => finish_watchers client ErrPendingHubClosed (sortedWatcherIDs (ob_watchers o)) h
  | None => h
  end.

(** [Close] up to its joins; [k] is the call.  The source sorts [bindings],
    whose updates commute. *)
Definition Close_begin (k : Z) (h : PendingHub) : PendingHub :=
  if hb_closed h then set_closing true (hb_closeDone h) (hb_fences h) (<[k := ClWaits]> (hb_closes h)) h
  else
    let bindings := map snd (map_to_list (hb_runs h)) in
    let calls := close_calls h in
    let h1 := close_bindings bindings
                (set_closing true (hb_closeDone h) (hb_fences h) (<[k := ClJoins (map (fun c => c.2.2) calls)]> (hb_closes h)) h) in
    let h2 := foldl close_call h1 calls in
    let h3 := foldl (fun h b => removeReleasedBindingLocked b h) h2 bindings in
    foldl close_watchers h3 (sorted_clients h3).

(** Every goroutine of a watcher ended: [watcherWG.Wait] returns. *)
Definition all_stopped (h : PendingHub) : bool :=
  forallb (fun kw => match wt_pc kw.2 with DvStopped => true | _ => false end) (map_to_list (dv_watchers (hb_discovery h))).

Definition call_closed (h : PendingHub) (id : Z) : bool :=
  match hb_calls h !! id with Some c => cl_done c | None => true end.

(** The [close(call.done)] of its calls are [close_done] steps. *)
Definition Close_join (k : Z) (h : PendingHub) : option PendingHub :=
  match hb_closes h !! k with
  | Some (ClJoins calls) => if forallb (call_closed h) calls && all_stopped h then Some (set_closing true true (hb_fences h) (<[k := ClReturned]> (hb_closes h)) h) else None
  | Some ClWaits => if hb_closeDone h then Some (set_closing true true (hb_fences h) (<[k := ClReturned]> (hb_closes h)) h) else None
  | _ => None
  end.

(** ** The hub as a transition system *)

Definition with_disc (h : PendingHub) (d : option Discovery) : option PendingHub := (fun d => set_discovery d h) <$> d.

Inductive hub_step : PendingHub -> PendingHub -> Prop :=
| step_bind clientID scope h : hub_step h (snd (BindRun clientID scope h))
| step_release b h : hub_step h (Release b h)
| step_request ctx scope request h : hub_step h (snd (Request_begin ctx scope request h))
| step_request_done id h h' : Request_done id h = Some h' -> hub_step h h'
| step_request_cancel id h h' : Request_cancel id h = Some h' -> hub_step h h'
| step_close_done id h h' : close_done id h = Some h' -> hub_step h h'
| step_respond clientID scope response h : hub_step h (snd (Respond clientID scope response h))
| step_subscribe ctx clientID h : hub_step h (snd (Subscribe ctx clientID h))
| step_detach key h : hub_step h (set_discovery (finishWatcherLocked (hb_limits h) key (Some ErrPendingContext) false (hb_discovery h)) h)
| step_take key h h' : with_disc h (deliver_take key (hb_discovery h)) = Some h' -> hub_step h h'
| step_send key h h' : with_disc h (deliver_send key (hb_discovery h)) = Some h' -> hub_step h h'
| step_delivered key h h' : with_disc h (delivered key (hb_discovery h)) = Some h' -> hub_step h h'
| step_exit key h h' : with_disc h (deliver_exit key (hb_discovery h)) = Some h' -> hub_step h h'
| step_stopped key h h' : with_disc h (watcherStopped key (hb_discovery h)) = Some h' -> hub_step h h'
| step_fence clientID k h : hb_fences h !! k = None -> (hb_closed h = true -> hb_closeDone h = true) ->
    hub_step h (snd (FenceObservers_begin clientID k h))
| step_fence_join k h h' : fence_join k h = Some h' -> hub_step h h'
| step_close k h : hb_closes h !! k = None -> hub_step h (Close_begin k h)
| step_close_join k h h' : Close_join k h = Some h' -> hub_step h h'.

Definition hub_reachable (limits : PendingLimits) (h : PendingHub) : Prop :=
  exists h0, NewPendingHub limits = Ok h0 /\ rtc hub_step h0 h.

(** ** Invariant *)

(** The pending set after a sequence of deltas. *)
Definition apply_delta (m : gmap pendingKey Pending) (delta : Delta) : gmap pendingKey Pending :=
  match dl_kind delta with
  | DeltaOpened => <[key_of (dl_pending delta) := dl_pending delta]> m
  | DeltaClosed => delete (key_of (dl_pending delta)) m
  end.
Definition replay (log : list Delta) : gmap pendingKey Pending := foldl apply_delta ∅ log.

Definition open_call (c : pendingCall) : bool := match cl_result c with None => true | Some _ => false end.
Definition open_of (b : Z) (c : pendingCall) : Z := if open_call c && (cl_binding c =? b) then 1 else 0.
Definition bound_in (client : string) (b : runBindingState) : Z :=
  if negb (bd_released b) && String.eqb (bd_clientID b) client then 1 else 0.

(** A delta is a step of the pending set: it opens a valid interaction that was
    not pending, or closes the one pending under its key. *)
Definition valid_pending (v : Pending) : Prop :=
  InteractionScope_Validate (pe_scope v) = None /\ InteractionRequest_Validate (pe_request v) = None.
Definition delta_steps (m : gmap pendingKey Pending) (delta : Delta) : Prop :=
  valid_pending (dl_pending delta) /\
  match dl_kind delta with
  | DeltaOpened => m !! key_of (dl_pending delta) = None
  | DeltaClosed => m !! key_of (dl_pending delta) = Some (dl_pending delta)
  end.
Definition within_limits (l : PendingLimits) (m : gmap pendingKey Pending) : Prop :=
  Z.of_nat (size m) <= pl_PendingPerClient l /\ msum pendingValueBytes m <= pl_PendingBytesPerClient l
  /\ forall key v, m !! key = Some v -> valid_pending v.

(** Every revision of a history has a pending set within the limits. *)
Definition history_ok (l : PendingLimits) (log : list Delta) : Prop :=
  forall n, (n <= length log)%nat -> within_limits l (replay (take n log))
    /\ forall delta, log !! n = Some delta -> delta_steps (replay (take n log)) delta.

(** A partition against the calls it holds open. *)
Record partition_ok (l : PendingLimits) (calls : gmap Z pendingCall) (bindings : gmap Z runBindingState) (client : string)
  (p : pendingPartition) : Prop := {
  po_revision : pp_revision p = lenZ (pp_log p);
  po_numbered : numbered (pp_log p);
  po_room : pp_revision p + Z.of_nat (size (pp_pending p)) <= maxUint64;
  po_pending key id : pp_pending p !! key = Some id ->
    exists call b, calls !! id = Some call /\ open_call call = true /\ key_of (cl_value call) = key
      /\ replay (pp_log p) !! key = Some (cl_value call) /\ bindings !! cl_binding call = Some b /\ bd_clientID b = client;
  po_replay key : replay (pp_log p) !! key = None <-> pp_pending p !! key = None;
  po_bytes : pp_pendingBytes p = msum pendingValueBytes (replay (pp_log p));
  po_size_bound : Z.of_nat (size (pp_pending p)) <= pl_PendingPerClient l;
  po_bytes_bound : pp_pendingBytes p <= pl_PendingBytesPerClient l;
  po_bound : pp_boundRuns p = msum (bound_in client) bindings;
  po_bound_limit : pp_boundRuns p <= pl_RunsPerClient l;
  po_history : history_ok l (pp_log p)
}.

Record call_ok (partitions : gmap string pendingPartition) (bindings : gmap Z runBindingState) (id : Z) (c : pendingCall) : Prop := {
  ck_binding : exists b, bindings !! cl_binding c = Some b /\ bd_runID b = is_runID (pe_scope (cl_value c))
    /\ (open_call c = true -> exists p, partitions !! bd_clientID b = Some p /\ pp_pending p !! key_of (cl_value c) = Some id);
  ck_channel : cl_closers c = match cl_result c, cl_done c with Some _, false => 1 | _, _ => 0 end;
  ck_done : cl_done c = true -> is_Some (cl_result c);
  ck_pc : match cl_pc c with RqWaits => True | RqJoins r | RqReturned r => cl_result c = Some r end
}.

(** [exempt] has the bindings whose removal is still to be considered in the
    same critical section. *)
Record binding_ok (exempt : gset Z) (calls : gmap Z pendingCall) (partitions : gmap string pendingPartition) (b : Z)
  (x : runBindingState) : Prop := {
  bk_active : bd_active x = msum (open_of b) calls;
  bk_released : bd_released x = true -> bd_accepting x = false /\ bd_active x = 0;
  bk_drained : b ∉ exempt -> bd_accepting x = false -> bd_active x = 0 -> bd_released x = true;
  bk_partition : is_Some (partitions !! bd_clientID x);
  bk_once : bd_once x = true -> bd_accepting x = false
}.

Definition log_of (h : PendingHub) (client : string) : list Delta :=
  match hb_partitions h !! client with Some p => pp_log p | None => [] end.

(** A snapshot has the pending set of its revision. *)
Definition as_map (pending : list Pending) : gmap pendingKey Pending := list_to_map ((fun v => (key_of v, v)) <$> pending).
Definition pending_lt (a b : Pending) : Prop :=
  String.ltb (key_of a).1 (key_of b).1 = true \/ ((key_of a).1 = (key_of b).1 /\ String.ltb (key_of a).2 (key_of b).2 = true).
Definition snapshot_of (log : list Delta) (s : PendingSnapshot) : Prop :=
  (NoDup (key_of <$> ps_pending s) /\ StronglySorted pending_lt (ps_pending s))
  /\ as_map (ps_pending s) = replay (take (Z.to_nat (ps_revision s)) log).

Record hub_ok (exempt : gset Z) (h : PendingHub) : Prop := {
  ho_limits : limits_facts (hb_limits h);
  ho_partitions client p : hb_partitions h !! client = Some p -> partition_ok (hb_limits h) (hb_calls h) (hb_bindings h) client p;
  ho_calls id c : hb_calls h !! id = Some c -> call_ok (hb_partitions h) (hb_bindings h) id c /\ id < hb_fresh h;
  ho_bindings b x : hb_bindings h !! b = Some x -> binding_ok exempt (hb_calls h) (hb_partitions h) b x /\ b < hb_fresh h;
  ho_runs runID b : hb_runs h !! runID = Some b <->
    exists x, hb_bindings h !! b = Some x /\ bd_runID x = runID /\ bd_released x = false;
  ho_runs_bound : Z.of_nat (size (hb_runs h)) <= pl_Runs (hb_limits h);
  ho_count : hb_pendingCount h = msum (fun p => Z.of_nat (size (pp_pending p))) (hb_partitions h);
  ho_bytes : hb_pendingBytes h = msum pp_pendingBytes (hb_partitions h);
  ho_count_bound : hb_pendingCount h <= pl_Pending (hb_limits h);
  ho_bytes_bound : hb_pendingBytes h <= pl_PendingBytes (hb_limits h);
  ho_clients client : is_Some (dv_clients (hb_discovery h) !! client) <-> is_Some (hb_partitions h !! client);
  ho_clients_bound : Z.of_nat (size (hb_partitions h)) <= pl_Clients (hb_limits h);
  ho_discovery : discovery_ok (hb_limits h) (fun key => log_of h key.1) (hb_discovery h);
  ho_snapshots client id w : dv_watchers (hb_discovery h) !! (client, id) = Some w -> snapshot_of (log_of h client) (wt_snapshot w);
  ho_panicked : hb_panicked h = false
}.

Definition watchers_of (h : PendingHub) : gmap (string * Z) Watcher := dv_watchers (hb_discovery h).

(** What fences and [Close] have established. *)
Record joins_ok (h : PendingHub) : Prop := {
  jo_fences k f : hb_fences h !! k = Some f ->
    (exists o, dv_clients (hb_discovery h) !! fc_client f = Some o /\ fc_upto f <= ob_nextWatcher o)
    /\ forall id w, watchers_of h !! (fc_client f, id) = Some w -> id <= fc_upto f ->
         wt_active w = false /\ (id ∈ fc_watchers f /\ fc_returned f = false \/ watcher_done w = true);
  jo_closed : hb_closed h = true ->
    (forall id c, hb_calls h !! id = Some c -> open_call c = false)
    /\ (forall key w, watchers_of h !! key = Some w -> wt_active w = false)
    /\ (forall b x, hb_bindings h !! b = Some x -> bd_released x = true);
  jo_closeDone : hb_closeDone h = true -> hb_closed h = true /\ forall key w, watchers_of h !! key = Some w -> wt_pc w = DvStopped;
  jo_closes k pc : hb_closes h !! k = Some pc -> hb_closed h = true /\ (pc = ClReturned -> hb_closeDone h = true)
}.

Definition hub_inv (h : PendingHub) : Prop := hub_ok ∅ h /\ joins_ok h.

(** *** Discovery steps *)

Lemma frame_clients d d' client : frame d d' -> is_Some (dv_clients d' !! client) <-> is_Some (dv_clients d !! client).
Proof. intros [Hc _]. specialize (Hc client). rewrite <- !(fmap_is_Some ob_nextWatcher). by rewrite Hc. Qed.

Lemma frame_watcher d d' key w' : frame d d' -> dv_watchers d' !! key = Some w' -> exists w, dv_watchers d !! key = Some w /\ watcher_frame w w'.
Proof. intros [_ Hw] Hk. specialize (Hw key). rewrite Hk in Hw. destruct (dv_watchers d !! key) as [w|]; [by exists w|done]. Qed.

Lemma set_discovery_ok ex h d : hub_ok ex h -> frame (hb_discovery h) d ->
  discovery_ok (hb_limits h) (fun key => log_of h key.1) d -> hub_ok ex (set_discovery d h).
Proof.
  intros [Hl Hpa Hca Hbi Hru Hrb Hco Hby Hcb Hbb Hcl Hclb Hdi Hsn Hpn] Hf Hd. split; cbn; try done.
  - intros client. rewrite <- Hcl. by apply frame_clients.
  - intros client id w Hw. destruct (frame_watcher _ _ _ _ Hf Hw) as (w0 & Hw0 & (Hs & _)). rewrite Hs. by apply (Hsn client id).
Qed.

(** Observers only progress; new ones are numbered after those of a client. *)
Record evolves (open : Prop) (d d' : Discovery) : Prop := {
  ev_clients client o : dv_clients d !! client = Some o ->
    exists o', dv_clients d' !! client = Some o' /\ ob_nextWatcher o <= ob_nextWatcher o';
  ev_watchers key w' : dv_watchers d' !! key = Some w' ->
    (exists w, dv_watchers d !! key = Some w /\ watcher_frame w w')
    \/ (open /\ forall o, dv_clients d !! key.1 = Some o -> ob_nextWatcher o < key.2)
}.

Lemma frame_evolves open d d' : frame d d' -> evolves open d d'.
Proof.
  intros Hf. split.
  - intros client o Ho. pose proof (fr_clients _ _ Hf client) as Hn. rewrite Ho in Hn. destruct (dv_clients d' !! client) as [o'|]; [|done].
    injection Hn as Hn. exists o'. split; [done|]. lia.
  - intros key w' Hw. left. by apply (frame_watcher d d').
Qed.

Lemma joins_keep h h' : joins_ok h -> hb_fences h' = hb_fences h -> hb_closes h' = hb_closes h -> hb_closed h' = hb_closed h ->
  hb_closeDone h' = hb_closeDone h -> evolves (hb_closed h = false) (hb_discovery h) (hb_discovery h') ->
  (hb_closed h = true -> (forall id c, hb_calls h' !! id = Some c -> open_call c = false)
                         /\ (forall b x, hb_bindings h' !! b = Some x -> bd_released x = true)) -> joins_ok h'.
Proof.
  intros [Hfe Hcl Hcd Hcs] Ef Ec Eo Ed [Hev1 Hev2] Hclosed. split; rewrite ?Ef, ?Ec, ?Eo, ?Ed; try done.
  - intros k f Hk. destruct (Hfe k f Hk) as ((o & Ho & Hle) & Hw). split.
    + destruct (Hev1 _ _ Ho) as (o' & Ho' & Hle'). exists o'. split; [done|]. lia.
    + intros id w' Hw' Hid. destruct (Hev2 _ _ Hw') as [(w & Hw0 & (_ & _ & Ha & Hd & _))|[_ Hnew]].
      * destruct (Hw id w Hw0 Hid) as [Hact Hor]. split; [by apply Ha|]. destruct Hor; [by left|right; by apply Hd].
      * specialize (Hnew _ Ho). cbn in Hnew. lia.
  - intros Hc. destruct (Hclosed Hc) as [? ?]. destruct (Hcl Hc) as (_ & Hw & _). split_and!; [done| |done]. intros key w' Hw'.
    destruct (Hev2 _ _ Hw') as [(w & Hw0 & (_ & _ & Ha & _))|[? _]]; [eauto|congruence].
  - intros Hc. destruct (Hcd Hc) as [? Hw]. split; [done|]. intros key w' Hw'.
    destruct (Hev2 _ _ Hw') as [(w & Hw0 & (_ & _ & _ & _ & Hs & _))|[? _]]; [eauto|congruence].
Qed.

Lemma frame_joins h d : joins_ok h -> frame (hb_discovery h) d -> joins_ok (set_discovery d h).
Proof.
  intros Hj Hf. apply (joins_keep h); try done; [by apply frame_evolves|]. intros Hc. cbn. by destruct (jo_closed _ Hj Hc) as (? & _ & ?).
Qed.

Lemma log_numbered ex h client : hub_ok ex h -> numbered (log_of h client).
Proof.
  intros Hh. unfold log_of. destruct (hb_partitions h !! client) as [p|] eqn:Hp; [apply (ho_partitions _ _ Hh _ _ Hp)|].
  intros i d Hd. by rewrite lookup_nil in Hd.
Qed.

Lemma deliver_step_inv h d : hub_inv h -> frame (hb_discovery h) d ->
  discovery_ok (hb_limits h) (fun key => log_of h key.1) d -> hub_inv (set_discovery d h).
Proof. intros [Hh Hj] Hf Hd. split; [by apply set_discovery_ok|by apply frame_joins]. Qed.

(** *** Opening a call *)

Lemma numbered_snoc log delta : numbered log -> dl_revision delta = lenZ log + 1 -> numbered (log ++ [delta]).
Proof.
  intros Hn Hd i x. rewrite lookup_app_Some. intros [Hi|[Hle Hi]]; [by apply Hn|].
  apply list_lookup_singleton_Some in Hi as [Hi <-]. rewrite Hd. unfold lenZ. lia.
Qed.

Lemma replay_snoc log delta : replay (log ++ [delta]) = apply_delta (replay log) delta.
Proof. unfold replay. by rewrite foldl_snoc. Qed.

Lemma history_nil l : 0 <= pl_PendingPerClient l -> 0 <= pl_PendingBytesPerClient l -> history_ok l [].
Proof.
  intros Hi Hb n Hn. rewrite take_nil. cbn in Hn. split; [|intros x Hx; by destruct n].
  change (replay []) with (∅ : gmap pendingKey Pending). split; [by rewrite map_size_empty|]. split; [by rewrite msum_empty|].
  intros key v Hv. by rewrite lookup_empty in Hv.
Qed.

Lemma history_snoc l log delta : history_ok l log -> delta_steps (replay log) delta -> within_limits l (replay (log ++ [delta])) ->
  history_ok l (log ++ [delta]).
Proof.
  intros Hh Hd Hw n Hn. rewrite length_app in Hn. cbn in Hn. destruct (decide (n <= length log)%nat) as [Hle|Hgt].
  - rewrite take_app_le by done. destruct (Hh n Hle) as [H1 H2]. split; [done|]. intros x. rewrite lookup_app_Some.
    intros [Hx|[Hl Hx]]; [by apply H2|]. apply list_lookup_singleton_Some in Hx as [Hx <-].
    assert (n = length log) as -> by lia. by rewrite firstn_all.
  - rewrite take_ge by (rewrite length_app; cbn; lia). split; [done|]. intros x Hx. apply lookup_lt_Some in Hx.
    rewrite length_app in Hx. cbn in Hx. lia.
Qed.

Lemma history_now l log : history_ok l log -> within_limits l (replay log).
Proof. intros Hh. destruct (Hh (length log)) as [H _]; [done|]. by rewrite firstn_all in H. Qed.

Lemma same_keys_size {A B : Type} (m : gmap pendingKey A) (m' : gmap pendingKey B) :
  (forall key, m !! key = None <-> m' !! key = None) -> size m = size m'.
Proof.
  intros Hk. rewrite <- !size_dom. f_equal. apply set_eq. intros key. rewrite !elem_of_dom, <- !not_eq_None_Some, Hk. done.
Qed.

(** Other partitions do not see a call or the counter of a binding change. *)
Lemma partition_frame l calls calls' bindings bindings' client p : partition_ok l calls bindings client p ->
  (forall key id call, pp_pending p !! key = Some id -> calls !! id = Some call -> calls' !! id = Some call) ->
  (forall b x, bindings !! b = Some x -> exists x', bindings' !! b = Some x' /\ bd_clientID x' = bd_clientID x) ->
  msum (bound_in client) bindings' = msum (bound_in client) bindings -> partition_ok l calls' bindings' client p.
Proof.
  intros [Hr Hn Hro Hpe Hre Hby Hsb Hbb Hbo Hbl Hhi] Hc Hb Hm. split; try done; [|congruence].
  intros key id Hk. destruct (Hpe key id Hk) as (call & x & Hcall & Ho & Hkey & Hrep & Hbx & Hcl).
  destruct (Hb _ _ Hbx) as (x' & Hx' & Hcl'). exists call, x'. split_and!; eauto. congruence.
Qed.

Lemma bound_same (client : string) (bindings : gmap Z runBindingState) b x x' : bindings !! b = Some x ->
  bd_released x' = bd_released x -> bd_clientID x' = bd_clientID x ->
  msum (bound_in client) (<[b := x']> bindings) = msum (bound_in client) bindings.
Proof. intros Hb Hr Hc. rewrite (msum_insert_Some _ _ _ x) by done. unfold bound_in. rewrite Hr, Hc. lia. Qed.

Lemma binding_kept (bindings : gmap Z runBindingState) b x x' : bindings !! b = Some x -> bd_clientID x' = bd_clientID x ->
  forall b' y, bindings !! b' = Some y -> exists y', <[b := x']> bindings !! b' = Some y' /\ bd_clientID y' = bd_clientID y.
Proof.
  intros Hb Hc b' y Hy. destruct (decide (b' = b)) as [->|Hne].
  - exists x'. rewrite lookup_insert_eq. split; congruence.
  - exists y. by rewrite lookup_insert_ne.
Qed.

Definition opened_partition (p : pendingPartition) (value : Pending) (id : Z) : pendingPartition :=
  mkPartition (pp_revision p +64 1) (pp_pendingBytes p + pendingValueBytes value) (pp_boundRuns p) (<[key_of value := id]> (pp_pending p))
    (pp_log p ++ [mkDelta (pp_revision p +64 1) DeltaOpened value]).

Lemma accept_fields client p value b x h : hb_partitions h !! client = Some p ->
  accept_call client p value b x h =
    mkHub (hb_limits h) (hb_pendingCount h + 1) (hb_pendingBytes h + pendingValueBytes value)
      (<[client := opened_partition p value (hb_fresh h)]> (hb_partitions h)) (hb_runs h) (hb_closed h) (hb_closeDone h)
      (<[b := with_active (bd_active x + 1) x]> (hb_bindings h))
      (<[hb_fresh h := mkCall value b None false 0 RqWaits]> (hb_calls h))
      (publish (hb_limits h) client (mkDelta (pp_revision p +64 1) DeltaOpened value) (hb_discovery h))
      (hb_fences h) (hb_closes h) (hb_panicked h) (hb_fresh h + 1).
Proof. intros Hp. unfold accept_call, publishLocked. cbn. rewrite lookup_insert_eq. cbn. unfold set_discovery, set_partition. cbn. by rewrite insert_insert_eq. Qed.

(** The log of a partition after a publication, and the observers against it. *)
Lemma publish_discovery ex h client p p' delta d' : hub_ok ex h -> hb_partitions h !! client = Some p -> pp_log p' = pp_log p ++ [delta] ->
  d' = publish (hb_limits h) client delta (hb_discovery h) ->
  discovery_ok (hb_limits h) (fun key => match <[client := p']> (hb_partitions h) !! key.1 with Some q => pp_log q | None => [] end) d'.
Proof.
  intros Hh Hp Hlog ->. assert (is_Some (dv_clients (hb_discovery h) !! client)) as Hc by (apply (ho_clients _ _ Hh); by eexists).
  pose proof (publish_ok _ (log_of h) client delta _ (ho_limits _ _ Hh) (ho_discovery _ _ Hh) Hc) as Hd.
  apply (relog _ _ _ _ Hd). intros [c id] w _ Hw. cbn in *. destruct (decide (c = client)) as [->|Hne].
  - unfold log_of in Hw. rewrite Hp in Hw. by rewrite lookup_insert_eq, Hlog.
  - by rewrite lookup_insert_ne.
Qed.

Lemma publish_snapshots ex h client p p' delta d' : hub_ok ex h -> hb_partitions h !! client = Some p -> pp_log p' = pp_log p ++ [delta] ->
  d' = publish (hb_limits h) client delta (hb_discovery h) ->
  forall c id w, dv_watchers d' !! (c, id) = Some w ->
    snapshot_of (match <[client := p']> (hb_partitions h) !! c with Some q => pp_log q | None => [] end) (wt_snapshot w).
Proof.
  intros Hh Hp Hlog -> c id w Hw. destruct (frame_watcher _ _ _ _ (publish_frame _ _ _ _) Hw) as (w0 & Hw0 & (-> & _)).
  pose proof (ho_snapshots _ _ Hh _ _ _ Hw0) as [Hn Hs]. pose proof (watcher_at _ _ _ _ _ (ho_discovery _ _ Hh) Hw0) as Hwo. cbn in Hwo.
  pose proof (wo_snapshot _ _ _ Hwo) as Hr. unfold snapshot_of, log_of in *. destruct (decide (c = client)) as [->|Hne].
  - rewrite lookup_insert_eq, Hlog. rewrite Hp in *. split; [done|]. rewrite take_app_le; [done|]. unfold lenZ in Hr. lia.
  - by rewrite lookup_insert_ne.
Qed.

Lemma room_facts p : pp_revision p + Z.of_nat (size (pp_pending p)) <= maxUint64 -> 0 <= pp_revision p ->
  (pp_revision p >? maxUint64 -64 (Z.of_nat (size (pp_pending p)) +64 2)) = false -> Z.of_nat (size (pp_pending p)) + 2 <= maxUint64 ->
  pp_revision p + Z.of_nat (size (pp_pending p)) + 2 <= maxUint64.
Proof.
  intros Hr Hp E Hs. assert (Z.of_nat (size (pp_pending p)) +64 2 = Z.of_nat (size (pp_pending p)) + 2) as Ha by (apply u64_id; unfold uint64_ok; lia).
  rewrite Ha in E. rewrite u64_id in E by (unfold uint64_ok; lia). rewrite Z.gtb_ltb in E. apply Z.ltb_ge in E. lia.
Qed.

Lemma opened_partition_ok l calls bindings client p value id b x : partition_ok l calls bindings client p ->
  bindings !! b = Some x -> bd_clientID x = client -> calls !! id = None -> pp_pending p !! key_of value = None ->
  pp_revision p + Z.of_nat (size (pp_pending p)) + 2 <= maxUint64 ->
  Z.of_nat (size (pp_pending p)) + 1 <= pl_PendingPerClient l ->
  pp_pendingBytes p + pendingValueBytes value <= pl_PendingBytesPerClient l -> valid_pending value ->
  partition_ok l (<[id := mkCall value b None false 0 RqWaits]> calls) (<[b := with_active (bd_active x + 1) x]> bindings) client
    (opened_partition p value id).
Proof.
  intros [Hr Hn Hro Hpe Hre Hby Hsb Hbb Hbo Hbl Hhi] Hb Hcl Hid Hkey Hroom Hsize Hbytes Hvalid.
  assert (pp_revision p +64 1 = pp_revision p + 1) as Hrev by (apply u64_id; unfold uint64_ok; rewrite Hr in *; unfold lenZ in *; lia).
  assert (replay (pp_log p) !! key_of value = None) as Hrk by (by apply Hre).
  unfold opened_partition. rewrite Hrev. set (delta := mkDelta _ _ _).
  assert (replay (pp_log p ++ [delta]) = <[key_of value := value]> (replay (pp_log p))) as Hreplay by (by rewrite replay_snoc).
  split; cbn -[replay]; rewrite ?Hreplay.
  - unfold lenZ in *. rewrite length_app. cbn. lia.
  - apply numbered_snoc; [done|]. cbn. lia.
  - rewrite map_size_insert_None by done. lia.
  - intros key i. rewrite lookup_insert_Some. intros [[<- <-]|[Hne Hi]].
    + exists (mkCall value b None false 0 RqWaits), (with_active (bd_active x + 1) x). cbn -[replay]. split_and!; try done; by rewrite lookup_insert_eq.
    + destruct (Hpe key i Hi) as (call & y & Hcall & Ho & Hk & Hrep & Hby' & Hcy). destruct (binding_kept bindings b x (with_active (bd_active x + 1) x) Hb eq_refl _ _ Hby') as (y' & Hy' & Hcy').
      exists call, y'. rewrite !lookup_insert_ne by congruence. split_and!; try done. congruence.
  - intros key. rewrite !lookup_insert_None, Hre. done.
  - rewrite msum_insert_None, Hby by done. lia.
  - rewrite map_size_insert_None by done. lia.
  - done.
  - rewrite Hbo. symmetry. by apply (bound_same _ _ _ x).
  - done.
  - apply history_snoc; [done|by split|]. rewrite Hreplay. destruct (history_now _ _ Hhi) as (_ & _ & Hv).
    pose proof (same_keys_size _ _ Hre) as Hsz. split; [rewrite map_size_insert_None by done; lia|].
    split; [rewrite msum_insert_None by done; lia|].
    intros key v. rewrite lookup_insert_Some. intros [[_ <-]|[_ H]]; [done|by apply (Hv key)].
Qed.

Lemma open_of_new (b b' : Z) (calls : gmap Z pendingCall) id c : calls !! id = None ->
  msum (open_of b') (<[id := c]> calls) = msum (open_of b') calls + open_of b' c.
Proof. intros Hid. rewrite msum_insert_None by done. lia. Qed.

Lemma accept_ok ex client p value b x h : hub_ok ex h -> hb_partitions h !! client = Some p -> hb_bindings h !! b = Some x ->
  bd_clientID x = client -> bd_runID x = is_runID (pe_scope value) -> bd_accepting x = true -> pp_pending p !! key_of value = None ->
  hasPendingCapacity h p (pendingValueBytes value) = true ->
  pp_revision p + Z.of_nat (size (pp_pending p)) + 2 <= maxUint64 -> valid_pending value -> hub_ok ex (accept_call client p value b x h).
Proof.
  intros Hh Hp Hb Hcl Hrun Hacc Hkey Hcap Hroom Hvalid. rewrite (accept_fields _ _ _ _ _ _ Hp). pose proof Hh as [Hl Hpa Hca Hbi Hru Hrb Hco Hby Hcb Hbb Hcls Hclb Hdi Hsn Hpn].
  unfold hasPendingCapacity in Hcap. rewrite !andb_true_iff in Hcap. destruct Hcap as [[[[[H1 H2] H3] H4] H5] H6].
  assert (hb_calls h !! hb_fresh h = None) as Hfresh.
  { destruct (hb_calls h !! hb_fresh h) as [c|] eqn:E; [|done]. destruct (Hca _ _ E). lia. }
  pose proof (opened_partition_ok _ _ _ _ _ value (hb_fresh h) b x (Hpa _ _ Hp) Hb Hcl Hfresh Hkey Hroom ltac:(lia) ltac:(lia) Hvalid) as Hpart.
  set (delta := mkDelta (pp_revision p +64 1) DeltaOpened value).
  split; cbn; try done.
  - intros c q. rewrite lookup_insert_Some. intros [[<- <-]|[Hne Hq]]; [done|].
    eapply partition_frame; [by apply Hpa| |by apply (binding_kept _ _ x)|by apply (bound_same _ _ _ x)].
    intros key id call _ Hcall. rewrite lookup_insert_ne; [done|congruence].
  - intros id c. rewrite lookup_insert_Some. intros [[<- <-]|[Hne Hc]].
    + split; [|lia]. split; cbn; [|done|done|done]. exists (with_active (bd_active x + 1) x). rewrite lookup_insert_eq.
      split_and!; [done|done|]. intros _. exists (opened_partition p value (hb_fresh h)). cbn. rewrite Hcl, lookup_insert_eq.
      split; [done|]. cbn. by rewrite lookup_insert_eq.
    + destruct (Hca _ _ Hc) as [[(y & Hy & Hyr & Hyo) Hch Hdn Hpc] Hlt]. split; [|lia]. split; try done.
      destruct (decide (cl_binding c = b)) as [Heq|Hneq].
      * rewrite Heq in *. exists (with_active (bd_active x + 1) x). rewrite lookup_insert_eq. assert (y = x) as -> by congruence.
        split_and!; [done|done|]. intros Ho. destruct (Hyo Ho) as (q & Hq & Hqk). exists (opened_partition p value (hb_fresh h)). cbn. rewrite Hcl in *.
        rewrite lookup_insert_eq. split; [done|]. rewrite Hp in Hq. injection Hq as <-. cbn. rewrite lookup_insert_ne; [done|congruence].
      * exists y. rewrite lookup_insert_ne by done. split_and!; [done|done|]. intros Ho. destruct (Hyo Ho) as (q & Hq & Hqk).
        destruct (decide (bd_clientID y = client)) as [Ec|Hnc]; [|exists q; by rewrite lookup_insert_ne].
        rewrite Ec in *. rewrite Hp in Hq. injection Hq as <-. eexists. rewrite lookup_insert_eq. split; [done|]. cbn. rewrite lookup_insert_ne; [done|congruence].
  - intros b' y. rewrite lookup_insert_Some. intros [[<- <-]|[Hne Hy]].
    + destruct (Hbi _ _ Hb) as [[Ka Kr Kd Kp Ko] Hlt]. split; [|lia].
      split; cbn; [| |congruence| |done].
      * rewrite (open_of_new b) by done. unfold open_of at 2. cbn. rewrite Z.eqb_refl. cbn. lia.
      * intros Hrel. destruct (Kr Hrel). congruence.
      * rewrite Hcl, lookup_insert_eq. by eexists.
    + destruct (Hbi _ _ Hy) as [[Ka Kr Kd Kp Ko] Hlt]. split; [|lia]. split; try done.
      * rewrite (open_of_new b) by done. unfold open_of at 2. cbn. rewrite (proj2 (Z.eqb_neq b b')) by done. lia.
      * destruct (decide (bd_clientID y = client)) as [->|Hnc]; [rewrite lookup_insert_eq; by eexists|by rewrite lookup_insert_ne].
  - intros runID b'. rewrite Hru. destruct (decide (b' = b)) as [->|Hne]; [|by rewrite lookup_insert_ne].
    rewrite lookup_insert_eq, Hb. split; intros (z & [= <-] & ? & ?); eexists; split_and!; done.
  - rewrite (msum_insert_Some _ _ _ p) by done. cbn. rewrite map_size_insert_None by done. lia.
  - rewrite (msum_insert_Some _ _ _ p) by done. cbn. lia.
  - lia.
  - lia.
  - intros c. rewrite (frame_clients (hb_discovery h)), Hcls by apply publish_frame. destruct (decide (c = client)) as [->|Hne].
    + rewrite lookup_insert_eq, Hp. split; intros _; by eexists.
    + by rewrite lookup_insert_ne.
  - rewrite map_size_insert_Some by (by eexists). done.
  - by eapply publish_discovery.
  - by eapply publish_snapshots.
Qed.

(** *** Finishing a call *)

Lemma alter_known {K A} `{Countable K} (f : A -> A) (m : gmap K A) k x : m !! k = Some x -> alter f k m = <[k := f x]> m.
Proof. intros Hk. rewrite <- (insert_id m k x Hk) at 1. by rewrite alter_insert_eq. Qed.

Lemma size_delete {K A} `{Countable K} (m : gmap K A) k x : m !! k = Some x -> size m = S (size (delete k m)).
Proof. intros Hk. rewrite <- (insert_delete_id m k x Hk) at 1. apply map_size_insert_None, lookup_delete_eq. Qed.

Definition closed_partition (p : pendingPartition) (key : pendingKey) (value : Pending) : pendingPartition :=
  mkPartition (pp_revision p +64 1) (pp_pendingBytes p - pendingValueBytes value) (pp_boundRuns p) (delete key (pp_pending p))
    (pp_log p ++ [mkDelta (pp_revision p +64 1) DeltaClosed value]).

(** [finishCallLocked] before it considers the binding. *)
Definition finished (client : string) (p : pendingPartition) (key : pendingKey) (id : Z) (call : pendingCall) (x : runBindingState)
  (result : pendingResult) (h : PendingHub) : PendingHub :=
  mkHub (hb_limits h) (hb_pendingCount h - 1) (hb_pendingBytes h - pendingValueBytes (cl_value call))
    (<[client := closed_partition p key (cl_value call)]> (hb_partitions h)) (hb_runs h) (hb_closed h) (hb_closeDone h)
    (<[cl_binding call := with_active (bd_active x - 1) x]> (hb_bindings h))
    (<[id := with_result (Some result) (cl_closers call + 1) call]> (hb_calls h))
    (publish (hb_limits h) client (mkDelta (pp_revision p +64 1) DeltaClosed (cl_value call)) (hb_discovery h))
    (hb_fences h) (hb_closes h) (hb_panicked h) (hb_fresh h).

Lemma finish_fields client p key id call x result h : hb_partitions h !! client = Some p -> hb_calls h !! id = Some call ->
  hb_bindings h !! cl_binding call = Some x ->
  finishCallLocked client key id result h = removeReleasedBindingLocked (cl_binding call) (finished client p key id call x result h).
Proof.
  intros Hp Hc Hb. unfold finishCallLocked. rewrite Hp, Hc. f_equal. unfold publishLocked. cbn. rewrite lookup_insert_eq. cbn.
  unfold set_discovery, set_partition, finished. cbn. rewrite insert_insert_eq. by rewrite (alter_known _ _ _ x).
Qed.

Lemma closed_partition_ok l calls bindings client p key id call x result : partition_ok l calls bindings client p ->
  pp_pending p !! key = Some id -> calls !! id = Some call -> bindings !! cl_binding call = Some x -> bd_clientID x = client ->
  partition_ok l (<[id := with_result (Some result) (cl_closers call + 1) call]> calls)
    (<[cl_binding call := with_active (bd_active x - 1) x]> bindings) client (closed_partition p key (cl_value call)).
Proof.
  intros [Hr Hn Hro Hpe Hre Hby Hsb Hbb Hbo Hbl Hhi] Hkey Hid Hb Hcl.
  destruct (Hpe _ _ Hkey) as (call0 & x0 & Hid0 & Ho & Hk & Hrep & _). rewrite Hid in Hid0. injection Hid0 as <-.
  pose proof (size_delete _ _ _ Hkey) as Hsz.
  assert (Z.of_nat (size (delete key (pp_pending p))) = Z.of_nat (size (pp_pending p)) - 1) as Hsize by lia.
  assert (pp_revision p +64 1 = pp_revision p + 1) as Hrev.
  { apply u64_id. unfold uint64_ok. rewrite Hr in *. assert (0 < Z.of_nat (size (pp_pending p))); [|unfold lenZ in *; lia]. lia. }
  unfold closed_partition. rewrite Hrev. set (delta := mkDelta _ _ _).
  assert (replay (pp_log p ++ [delta]) = delete key (replay (pp_log p))) as Hreplay by (rewrite replay_snoc; unfold apply_delta; cbn; by rewrite Hk).
  split; cbn -[replay]; rewrite ?Hreplay, ?Hsize; try lia.
  - unfold lenZ in *. rewrite length_app. cbn. lia.
  - apply numbered_snoc; [done|]. cbn. lia.
  - intros key' i. rewrite lookup_delete_Some. intros [Hne Hi]. destruct (Hpe _ _ Hi) as (c & y & Hc & Hoc & Hkc & Hrc & Hyc & Hcy).
    destruct (binding_kept bindings _ x (with_active (bd_active x - 1) x) Hb eq_refl _ _ Hyc) as (y' & Hy' & Hcy').
    exists c, y'. assert (i <> id) by congruence. rewrite lookup_insert_ne by done. rewrite lookup_delete_ne by done. split_and!; try done. congruence.
  - intros key'. rewrite !lookup_delete_None, Hre. done.
  - rewrite (msum_delete _ _ _ (cl_value call)) by done. lia.
  - assert (0 <= pendingValueBytes (cl_value call)) by (unfold pendingValueBytes, slen; lia). lia.
  - rewrite Hbo. symmetry. by apply (bound_same _ _ _ x).
  - destruct (history_now _ _ Hhi) as (Hs & Hm & Hv). pose proof (Hv _ _ Hrep) as Hvalid.
    assert (key_of (cl_value call) = key) as Hkv by done.
    apply history_snoc; [done|split; [done|]; cbn -[replay]; by rewrite Hkv|]. rewrite Hreplay.
    pose proof (size_delete _ _ _ Hrep) as Hsd. assert (0 <= pendingValueBytes (cl_value call)) by (unfold pendingValueBytes, slen; lia).
    split; [lia|]. split; [rewrite (msum_delete _ _ _ (cl_value call)) by done; lia|].
    intros k v. rewrite lookup_delete_Some. intros [_ H']. by apply (Hv k).
Qed.

Lemma hub_ok_mono ex ex' h : ex ⊆ ex' -> hub_ok ex h -> hub_ok ex' h.
Proof.
  intros Hs []. split; try done. intros b x Hx. destruct (ho_bindings0 b x Hx) as [[? ? Hd ? ?] ?]. split; [|done]. split; try done.
  intros Hn. apply Hd. set_solver.
Qed.

(** The call that a partition holds under a key. *)
Lemma pending_call ex h client p key id : hub_ok ex h -> hb_partitions h !! client = Some p -> pp_pending p !! key = Some id ->
  exists call x, hb_calls h !! id = Some call /\ open_call call = true /\ key_of (cl_value call) = key
    /\ hb_bindings h !! cl_binding call = Some x /\ bd_clientID x = client.
Proof.
  intros Hh Hp Hk. destruct (po_pending _ _ _ _ _ (ho_partitions _ _ Hh _ _ Hp) _ _ Hk) as (c & x & ? & ? & ? & _ & ? & ?).
  by exists c, x.
Qed.

Lemma finished_ok ex client p key id call x result h : hub_ok ex h -> hb_partitions h !! client = Some p -> pp_pending p !! key = Some id ->
  hb_calls h !! id = Some call -> hb_bindings h !! cl_binding call = Some x -> bd_clientID x = client ->
  hub_ok ({[cl_binding call]} ∪ ex) (finished client p key id call x result h).
Proof.
  intros Hh Hp Hkey Hc Hb Hcl. pose proof Hh as [Hl Hpa Hca Hbi Hru Hrb Hco Hby Hcb Hbb Hcls Hclb Hdi Hsn Hpn].
  pose proof (closed_partition_ok _ _ _ _ _ key id call x result (Hpa _ _ Hp) Hkey Hc Hb Hcl) as Hpart.
  destruct (pending_call _ _ _ _ _ _ Hh Hp Hkey) as (call0 & x0 & Hc0 & Hopen & Hk & _). rewrite Hc in Hc0. injection Hc0 as <-.
  assert (forall c, <[id := with_result (Some result) (cl_closers call + 1) call]> (hb_calls h) !! id = Some c ->
    open_call c = false) as Hnew by (intros c; rewrite lookup_insert_eq; by intros [= <-]).
  assert (forall b', msum (open_of b') (<[id := with_result (Some result) (cl_closers call + 1) call]> (hb_calls h))
    = msum (open_of b') (hb_calls h) - (if cl_binding call =? b' then 1 else 0)) as Hsum.
  { intros b'. rewrite (msum_insert_Some _ _ _ call) by done. unfold open_of at 2 3. rewrite Hopen. cbn. destruct (_ =? _); lia. }
  pose proof (size_delete _ _ _ Hkey) as Hsz. assert (0 <= pendingValueBytes (cl_value call)) by (unfold pendingValueBytes, slen; lia).
  split; cbn; try done; try lia.
  - intros c q. rewrite lookup_insert_Some. intros [[<- <-]|[Hne Hq]]; [done|].
    eapply partition_frame; [by apply Hpa| |by apply (binding_kept _ _ x)|by apply (bound_same _ _ _ x)].
    intros key' i c' Hi Hci. rewrite lookup_insert_ne; [done|]. intros <-.
    destruct (pending_call _ _ _ _ _ _ Hh Hq Hi) as (c1 & x1 & Hc1 & _ & _ & Hx1 & Hcx1). congruence.
  - intros i c. rewrite lookup_insert_Some. intros [[<- <-]|[Hne Hci]].
    + destruct (Hca _ _ Hc) as [[(y & Hy & Hyr & Hyo) Hch Hdn Hpc] Hlt]. split; [|done].
      assert (cl_result call = None) as Hres by (unfold open_call in Hopen; by destruct (cl_result call)).
      assert (cl_done call = false) as Hdone by (destruct (cl_done call); [destruct (Hdn eq_refl); congruence|done]).
      split; cbn; try done.
      * exists (with_active (bd_active x - 1) x). rewrite lookup_insert_eq. split_and!; [done| |done]. cbn. congruence.
      * rewrite Hch, Hres, Hdone. done.
      * destruct (cl_pc call); [done|congruence..].
    + destruct (Hca _ _ Hci) as [[(y & Hy & Hyr & Hyo) Hch Hdn Hpc] Hlt]. split; [|done]. split; try done.
      destruct (binding_kept (hb_bindings h) _ x (with_active (bd_active x - 1) x) Hb eq_refl _ _ Hy) as (y' & Hy' & Hcy').
      exists y'. split; [done|]. split.
      * destruct (decide (cl_binding c = cl_binding call)) as [E|E]; [rewrite E in *; rewrite lookup_insert_eq in Hy'|rewrite lookup_insert_ne in Hy' by congruence]; simplify_eq; done.
      * intros Ho. destruct (Hyo Ho) as (q & Hq & Hqk). rewrite Hcy'. destruct (decide (bd_clientID y = client)) as [Ec|Hnc]; [|exists q; by rewrite lookup_insert_ne].
        rewrite Ec in *. rewrite Hp in Hq. injection Hq as <-. eexists. rewrite lookup_insert_eq. split; [done|]. cbn.
        rewrite lookup_delete_ne; [done|]. congruence.
  - intros b' y. rewrite lookup_insert_Some. intros [[<- <-]|[Hne Hy]].
    + destruct (Hbi _ _ Hb) as [[Ka Kr Kd Kp Ko] Hlt]. split; [|done].
      split; cbn; [rewrite Hsum, Z.eqb_refl; lia| |set_solver| |done].
      * intros Hrel. destruct (Kr Hrel) as [? Hz]. split; [done|].
        assert (0 <= msum (open_of (cl_binding call)) (<[id := with_result (Some result) (cl_closers call + 1) call]> (hb_calls h))) as Hpos
          by (apply msum_nonneg; intros k y _; unfold open_of; destruct (_ && _); lia).
        rewrite Hsum, Z.eqb_refl in Hpos. lia.
      * rewrite Hcl, lookup_insert_eq. by eexists.
    + destruct (Hbi _ _ Hy) as [[Ka Kr Kd Kp Ko] Hlt]. split; [|done]. split; try done.
      * rewrite Hsum, (proj2 (Z.eqb_neq (cl_binding call) b')) by done. lia.
      * intros Hn. apply Kd. set_solver.
      * destruct (decide (bd_clientID y = client)) as [->|Hnc]; [rewrite lookup_insert_eq; by eexists|by rewrite lookup_insert_ne].
  - intros runID b'. rewrite Hru. destruct (decide (b' = cl_binding call)) as [->|Hne]; [|by rewrite lookup_insert_ne].
    rewrite lookup_insert_eq, Hb. split; intros (z & [= <-] & ? & ?); eexists; split_and!; done.
  - rewrite (msum_insert_Some _ _ _ p) by done. cbn. lia.
  - rewrite (msum_insert_Some _ _ _ p) by done. cbn. lia.
  - intros c. rewrite (frame_clients (hb_discovery h)), Hcls by apply publish_frame. destruct (decide (c = client)) as [->|Hne].
    + rewrite lookup_insert_eq, Hp. split; intros _; by eexists.
    + by rewrite lookup_insert_ne.
  - rewrite map_size_insert_Some by (by eexists). done.
  - by eapply publish_discovery.
  - by eapply publish_snapshots.
Qed.

(** *** Removing a released binding *)

Definition removed (b : Z) (x : runBindingState) (p : pendingPartition) (h : PendingHub) : PendingHub :=
  mkHub (hb_limits h) (hb_pendingCount h) (hb_pendingBytes h)
    (<[bd_clientID x := with_bound (pp_boundRuns p - 1) p]> (hb_partitions h)) (delete (bd_runID x) (hb_runs h)) (hb_closed h)
    (hb_closeDone h) (<[b := released x]> (hb_bindings h)) (hb_calls h) (hb_discovery h) (hb_fences h) (hb_closes h)
    (hb_panicked h || bd_released x) (hb_fresh h).

Lemma bound_released client (bindings : gmap Z runBindingState) b x : bindings !! b = Some x -> bd_released x = false ->
  msum (bound_in client) (<[b := released x]> bindings) = msum (bound_in client) bindings - (if String.eqb (bd_clientID x) client then 1 else 0).
Proof.
  intros Hb Hr. rewrite (msum_insert_Some _ _ _ x) by done. unfold bound_in at 2 3. rewrite Hr. cbn. destruct (String.eqb _ _); lia.
Qed.

Lemma removed_ok ex b x p h : hub_ok ({[b]} ∪ ex) h -> hb_bindings h !! b = Some x -> hb_partitions h !! bd_clientID x = Some p ->
  bd_accepting x = false -> bd_active x = 0 -> bd_released x = false -> hub_ok ex (removed b x p h).
Proof.
  intros Hh Hb Hp Hacc Hact Hrel. pose proof Hh as [Hl Hpa Hca Hbi Hru Hrb Hco Hby Hcb Hbb Hcls Hclb Hdi Hsn Hpn].
  set (q := with_bound (pp_boundRuns p - 1) p).
  assert (hb_runs h !! bd_runID x = Some b) as Hrun by (apply Hru; by exists x).
  assert (forall c, is_Some (<[bd_clientID x := q]> (hb_partitions h) !! c) <-> is_Some (hb_partitions h !! c)) as Hdom.
  { intros c. destruct (decide (c = bd_clientID x)) as [->|Hne]; [rewrite lookup_insert_eq, Hp|by rewrite lookup_insert_ne]. split; intros _; by eexists. }
  assert (forall b' y, hb_bindings h !! b' = Some y -> exists y', <[b := released x]> (hb_bindings h) !! b' = Some y' /\ bd_clientID y' = bd_clientID y) as Hkept
    by (by apply (binding_kept _ _ x)).
  assert (forall c, match <[bd_clientID x := q]> (hb_partitions h) !! c with Some r => pp_log r | None => [] end = log_of h c) as Hlog.
  { intros c. unfold log_of. destruct (decide (c = bd_clientID x)) as [->|Hne]; [by rewrite lookup_insert_eq, Hp|by rewrite lookup_insert_ne]. }
  split; cbn; try done.
  - intros c r. rewrite lookup_insert_Some. intros [[<- <-]|[Hne Hr]].
    + destruct (Hpa _ _ Hp) as [Hr Hn Hro Hpe Hre Hpb Hsb Hbb' Hbo Hbl Hhi]. split; cbn -[replay]; try done; [| |lia].
      * intros key id Hk. destruct (Hpe key id Hk) as (call & y & ? & ? & ? & ? & Hy & Hcy). destruct (Hkept _ _ Hy) as (y' & Hy' & Hcy').
        exists call, y'. split_and!; try done. congruence.
      * rewrite (bound_released _ _ _ _ Hb Hrel), String.eqb_refl. lia.
    + eapply partition_frame; [by apply Hpa|done|done|]. rewrite (bound_released _ _ _ _ Hb Hrel), (proj2 (String.eqb_neq _ _)) by done. lia.
  - intros id c Hc. destruct (Hca _ _ Hc) as [[(y & Hy & Hyr & Hyo) Hch Hdn Hpc] Hlt]. split; [|done]. split; try done.
    assert (exists y', <[b := released x]> (hb_bindings h) !! cl_binding c = Some y' /\ bd_clientID y' = bd_clientID y /\ bd_runID y' = bd_runID y) as (y' & Hy' & Hcy' & Hry').
    { destruct (decide (cl_binding c = b)) as [E|E]; [exists (released x); rewrite E, lookup_insert_eq; rewrite E in Hy; simplify_eq; done|].
      exists y. by rewrite lookup_insert_ne. }
    exists y'. split; [done|]. split; [congruence|]. intros Ho. destruct (Hyo Ho) as (r & Hr & Hrk). rewrite Hcy'.
    destruct (decide (bd_clientID y = bd_clientID x)) as [E|E]; [|exists r; by rewrite lookup_insert_ne].
    rewrite E in *. exists q. rewrite lookup_insert_eq. split; [done|]. cbn. congruence.
  - intros b' y. rewrite lookup_insert_Some. intros [[<- <-]|[Hne Hy]].
    + destruct (Hbi _ _ Hb) as [[Ka Kr Kd Kp Ko] Hlt]. split; [|done]. split; cbn; try done. by apply Hdom.
    + destruct (Hbi _ _ Hy) as [[Ka Kr Kd Kp Ko] Hlt]. split; [|done]. split; try done; [|by apply Hdom].
      intros Hn. apply Kd. set_solver.
  - intros runID b'. rewrite lookup_delete_Some, Hru. destruct (decide (b' = b)) as [->|Hne].
    + rewrite lookup_insert_eq, Hb. split; [intros (? & z & [= <-] & ? & ?); congruence|]. intros (z & [= <-] & ? & ?). done.
    + rewrite lookup_insert_ne by done. split; [intros (_ & ?); done|]. intros (z & Hz & Hzr & Hzl). split; [|by exists z].
      intros E. assert (hb_runs h !! runID = Some b') as Hr' by (apply Hru; by exists z). congruence.
  - rewrite (size_delete _ _ _ Hrun) in Hrb. lia.
  - rewrite (msum_insert_Some _ _ _ p) by done. cbn. lia.
  - rewrite (msum_insert_Some _ _ _ p) by done. cbn. lia.
  - intros c. rewrite Hcls. symmetry. apply Hdom.
  - rewrite map_size_insert_Some by (by eexists). done.
  - apply (relog _ _ _ _ Hdi). intros key w _. unfold log_of at 2. cbn. by rewrite Hlog.
  - intros c id w Hw. unfold log_of. cbn. rewrite Hlog. eauto.
  - by rewrite Hpn, Hrel.
Qed.

Lemma removeReleased_ok ex b h : hub_ok ({[b]} ∪ ex) h -> hub_ok ex (removeReleasedBindingLocked b h).
Proof.
  intros Hh. unfold removeReleasedBindingLocked.
  assert ((forall x, hb_bindings h !! b = Some x -> bd_accepting x = false -> bd_active x = 0 -> bd_released x = true) -> hub_ok ex h) as Hkeep.
  { intros Hk. destruct Hh. split; try done. intros b' x Hx. destruct (ho_bindings0 b' x Hx) as [[? ? Hd ? ?] ?]. split; [|done]. split; try done.
    intros Hn. destruct (decide (b' = b)) as [->|Hne]; [by apply Hk|]. apply Hd. set_solver. }
  destruct (hb_bindings h !! b) as [x|] eqn:Hb; [|apply Hkeep; congruence].
  destruct (bd_accepting x) eqn:Hacc; [apply Hkeep; intros ? [= <-]; congruence|].
  destruct (Z.eqb_spec (bd_active x) 0) as [Hact|Hact]; [|apply Hkeep; intros ? [= <-]; congruence]. cbn [orb negb].
  case_bool_decide as Hrun.
  - apply (ho_runs _ _ Hh) in Hrun as (y & Hy & _ & Hrel). rewrite Hb in Hy. injection Hy as <-.
    destruct (ho_bindings _ _ Hh _ _ Hb) as [[_ _ _ [p Hp] _] _]. rewrite Hp. by apply (removed_ok ex b x p h).
  - apply Hkeep. intros ? [= <-] _ _. destruct (bd_released x) eqn:Hrel; [done|]. destruct Hrun. apply (ho_runs _ _ Hh). by exists x.
Qed.

Lemma finish_call_ok ex client p key id result h : hub_ok ex h -> hb_partitions h !! client = Some p -> pp_pending p !! key = Some id ->
  hub_ok ex (finishCallLocked client key id result h).
Proof.
  intros Hh Hp Hk. destruct (pending_call _ _ _ _ _ _ Hh Hp Hk) as (call & x & Hc & _ & _ & Hb & Hcl).
  rewrite (finish_fields _ p _ _ call x) by done. apply removeReleased_ok. by apply finished_ok.
Qed.

(** What an operation leaves alone. *)
Record same_joins (h h' : PendingHub) : Prop := {
  sj_fences : hb_fences h' = hb_fences h;
  sj_closes : hb_closes h' = hb_closes h;
  sj_closed : hb_closed h' = hb_closed h;
  sj_closeDone : hb_closeDone h' = hb_closeDone h;
  sj_limits : hb_limits h' = hb_limits h;
  sj_frame : frame (hb_discovery h) (hb_discovery h')
}.
#[export] Instance same_joins_preorder : PreOrder same_joins.
Proof.
  split; [by intros h|]. intros h1 h2 h3 [] []. split; try congruence. by etrans.
Qed.

Lemma remove_same b h : same_joins h (removeReleasedBindingLocked b h).
Proof. unfold removeReleasedBindingLocked. repeat case_match; done. Qed.
Lemma publish_same client kind value h : same_joins h (publishLocked client kind value h).
Proof. unfold publishLocked. case_match; [|done]. split; try done. apply publish_frame. Qed.
Lemma finish_same client key id result h : same_joins h (finishCallLocked client key id result h).
Proof.
  unfold finishCallLocked. repeat case_match; try done. etrans; [|apply remove_same]. etrans; [|apply publish_same]. by split.
Qed.
Lemma accept_same client p value b x h : same_joins h (accept_call client p value b x h).
Proof. unfold accept_call. etrans; [|apply publish_same]. by split. Qed.

Lemma open_joins h h' : joins_ok h -> hb_closed h = false -> same_joins h h' -> joins_ok h'.
Proof.
  intros Hj Ho [Hf Hc Hcl Hcd _ Hfr]. apply (joins_keep h); try done; [by apply frame_evolves|]. congruence.
Qed.

(** *** Requests *)

Lemma bound_run ex h runID b x : hub_ok ex h -> hb_runs h !! runID ≫= (fun b => pair b <$> hb_bindings h !! b) = Some (b, x) ->
  hb_bindings h !! b = Some x /\ bd_runID x = runID.
Proof.
  intros Hh E. destruct (hb_runs h !! runID) as [b0|] eqn:Hr; [|done]. cbn in E. destruct (hb_bindings h !! b0) as [y|] eqn:Hb; [|done].
  injection E as <- <-. split; [done|]. apply (ho_runs _ _ Hh) in Hr as (z & Hz & ? & _). congruence.
Qed.

Lemma partition_small ex h client p : hub_ok ex h -> hb_partitions h !! client = Some p ->
  0 <= pp_revision p /\ Z.of_nat (size (pp_pending p)) + 2 <= maxUint64.
Proof.
  intros Hh Hp. pose proof (ho_partitions _ _ Hh _ _ Hp) as Hpo. pose proof (lf_pending _ (ho_limits _ _ Hh)).
  pose proof (po_size_bound _ _ _ _ _ Hpo). rewrite (po_revision _ _ _ _ _ Hpo). unfold lenZ, maximumPendingInteractions, maxUint64 in *. lia.
Qed.

Lemma hub_request_inv ctx scope request h : hub_inv h -> hub_inv (snd (Request_begin ctx scope request h)).
Proof.
  intros [Hh Hj]. unfold Request_begin. destruct ctx; [done| |done]. destruct (InteractionScope_Validate scope) eqn:Hvs; [done|].
  destruct (InteractionRequest_Validate request) eqn:Hvr; [done|]. destruct (hb_closed h) eqn:Hcl; [done|].
  destruct (_ ≫= _) as [[b x]|] eqn:Er; [|done]. destruct (bound_run _ _ _ _ _ Hh Er) as [Hb Hrun].
  destruct (bd_accepting x) eqn:Hacc; [|done]. cbn [negb]. destruct (hb_partitions h !! bd_clientID x) as [p|] eqn:Hp; [|done].
  case_bool_decide as Hk; [done|]. destruct (hasPendingCapacity h p _) eqn:Hcap; [|done]. cbn [negb].
  destruct (_ >? _) eqn:Hroom; [done|]. cbn [snd]. destruct (partition_small _ _ _ _ Hh Hp) as [Hpos Hsmall].
  split; [|by apply (open_joins h); [| |apply accept_same]]. apply accept_ok; try done.
  - by apply eq_None_not_Some.
  - apply room_facts; try done. apply (ho_partitions _ _ Hh _ _ Hp).
Qed.

Lemma hub_respond_inv clientID scope response h : hub_inv h -> hub_inv (snd (Respond clientID scope response h)).
Proof.
  intros [Hh Hj]. unfold Respond. destruct (negb (boundedToken clientID)); [done|]. destruct (InteractionScope_Validate scope); [done|].
  destruct (InteractionResponse_Validate response); [done|]. destruct (hb_closed h) eqn:Hcl; [done|]. destruct (_ ≫= _); [|done].
  destruct (negb (String.eqb _ _)); [done|]. destruct (hb_partitions h !! clientID) as [p|] eqn:Hp; [|done].
  destruct (pp_pending p !! _) as [id|] eqn:Hk; [|done]. cbn [snd].
  split; [by eapply finish_call_ok|]. apply (open_joins h); [done..|apply finish_same].
Qed.

(** A binding that stops accepting may be due for removal. *)
Lemma refuse_ok ex b x once h : hub_ok ex h -> hb_bindings h !! b = Some x ->
  hub_ok ({[b]} ∪ ex) (set_bindings (hb_runs h) (<[b := refusing once x]> (hb_bindings h)) (hb_panicked h) h).
Proof.
  intros Hh Hb. destruct Hh as [Hl Hpa Hca Hbi Hru Hrb Hco Hby Hcb Hbb Hcls Hclb Hdi Hsn Hpn]. split; cbn; try done.
  - intros c p Hp. eapply partition_frame; [by apply Hpa|done|by apply (binding_kept _ _ x)|by apply (bound_same _ _ _ x)].
  - intros id c Hc. destruct (Hca _ _ Hc) as [[(y & Hy & Hyr & Hyo) Hch Hdn Hpc] Hlt]. split; [|done]. split; try done.
    destruct (decide (cl_binding c = b)) as [E|E]; [|exists y; by rewrite lookup_insert_ne].
    rewrite E in *. exists (refusing once x). rewrite lookup_insert_eq. simplify_eq. done.
  - intros b' y. rewrite lookup_insert_Some. intros [[<- <-]|[Hne Hy]].
    + destruct (Hbi _ _ Hb) as [[Ka Kr Kd Kp Ko] Hlt]. split; [|done]. split; cbn; try done; [|set_solver]. intros Hrel. by destruct (Kr Hrel).
    + destruct (Hbi _ _ Hy) as [[Ka Kr Kd Kp Ko] Hlt]. split; [|done]. split; try done. intros Hn. apply Kd. set_solver.
  - intros runID b'. rewrite Hru. destruct (decide (b' = b)) as [->|Hne]; [|by rewrite lookup_insert_ne].
    rewrite lookup_insert_eq, Hb. split; intros (z & [= <-] & ? & ?); eexists; split_and!; done.
Qed.

Lemma binding_release_inv b h : hub_inv h -> hub_inv (Release b h).
Proof.
  intros [Hh Hj]. unfold Release. destruct (hb_bindings h !! b) as [x|] eqn:Hb; [|done]. destruct (bd_once x) eqn:Honce; [done|].
  pose proof (refuse_ok _ _ _ true _ Hh Hb) as H1. set (h1 := set_bindings _ _ _ _) in *.
  assert (same_joins h (removeReleasedBindingLocked b h1)) as Hsame by (etrans; [|apply remove_same]; by split).
  split; [by apply removeReleased_ok|]. destruct (hb_closed h) eqn:Hcl; [|by apply (open_joins h)].
  destruct (jo_closed _ Hj Hcl) as (Hcalls & _ & Hrel). pose proof (Hrel _ _ Hb) as Hrx.
  assert (removeReleasedBindingLocked b h1 = h1) as Hid.
  { unfold removeReleasedBindingLocked. cbn. rewrite lookup_insert_eq. destruct (_ || _); [done|]. rewrite bool_decide_eq_false_2; [done|].
    cbn. intros Hr. apply (ho_runs _ _ Hh) in Hr as (y & Hy & _ & Hry). congruence. }
  rewrite Hid. apply (joins_keep h); try done; [by apply frame_evolves|]. intros _. split; [done|]. cbn. intros b' y.
  rewrite lookup_insert_Some. intros [[<- <-]|[_ Hy]]; [done|by eapply Hrel].
Qed.

(** *** Partitions and bindings *)

Lemma msum_none {K A} `{Countable K} (f : A -> Z) (m : gmap K A) : (forall k x, m !! k = Some x -> f x = 0) -> msum f m = 0.
Proof.
  induction m as [|k x m Hk IH] using map_ind; intros Hf; [by rewrite msum_empty|]. rewrite msum_insert_None by done. rewrite IH.
  - rewrite (Hf k x); [done|]. apply lookup_insert_eq.
  - intros k' y Hy. apply (Hf k'). rewrite lookup_insert_ne; [done|congruence].
Qed.

Lemma partition_new_ok ex client h : hub_ok ex h -> hb_partitions h !! client = None ->
  Z.of_nat (size (hb_partitions h)) < pl_Clients (hb_limits h) ->
  hub_ok ex (set_discovery (add_client client (hb_discovery h)) (set_partition client (mkPartition 0 0 0 ∅ []) h)).
Proof.
  intros Hh Hp Hsz. pose proof Hh as [Hl Hpa Hca Hbi Hru Hrb Hco Hby Hcb Hbb Hcls Hclb Hdi Hsn Hpn].
  assert (dv_clients (hb_discovery h) !! client = None) as Hd.
  { destruct (dv_clients (hb_discovery h) !! client) eqn:E; [|done]. destruct (proj1 (Hcls client)); [by eexists|congruence]. }
  assert (forall c, match <[client := mkPartition 0 0 0 ∅ []]> (hb_partitions h) !! c with Some r => pp_log r | None => [] end = log_of h c) as Hlog.
  { intros c. unfold log_of. destruct (decide (c = client)) as [->|Hne]; [by rewrite lookup_insert_eq, Hp|by rewrite lookup_insert_ne]. }
  split; cbn; try done.
  - intros c p. rewrite lookup_insert_Some. intros [[<- <-]|[Hne Hc]]; [|by apply Hpa].
    pose proof (lf_pending _ Hl). pose proof (lf_pendingBytes _ Hl). pose proof (lf_runs _ Hl).
    assert (msum (bound_in client) (hb_bindings h) = 0) as Hz.
    { apply msum_none. intros b x Hx. destruct (Hbi _ _ Hx) as [[_ _ _ [q Hq] _] _]. unfold bound_in.
      rewrite (proj2 (String.eqb_neq _ _)) by congruence. by rewrite andb_false_r. }
    split; cbn; try done; rewrite ?map_size_empty; try lia. apply history_nil; lia.
  - intros id c Hc. destruct (Hca _ _ Hc) as [[(y & Hy & Hyr & Hyo) Hch Hdn Hpc] Hlt]. split; [|done]. split; try done.
    exists y. split_and!; try done. intros Ho. destruct (Hyo Ho) as (r & Hr & Hrk). exists r. rewrite lookup_insert_ne; [done|congruence].
  - intros b x Hx. destruct (Hbi _ _ Hx) as [[Ka Kr Kd [q Hq] Ko] Hlt]. split; [|done]. split; try done.
    exists q. rewrite lookup_insert_ne; [done|congruence].
  - rewrite msum_insert_None by done. cbn. rewrite map_size_empty. lia.
  - rewrite msum_insert_None by done. cbn. lia.
  - intros c. destruct (decide (c = client)) as [->|Hne]; [|by rewrite !lookup_insert_ne].
    split; intros _; eexists; by rewrite lookup_insert_eq.
  - rewrite map_size_insert_None by done. lia.
  - apply (relog _ (fun key => log_of h key.1)); [by apply add_client_ok|]. intros key w _. unfold log_of at 2. cbn. by rewrite Hlog.
  - intros c id w Hw. unfold log_of. cbn. rewrite Hlog. eauto.
Qed.

Lemma add_client_evolves (open : Prop) client d : dv_clients d !! client = None -> evolves open d (add_client client d).
Proof.
  intros Hc. split.
  - intros c o Ho. exists o. cbn. rewrite lookup_insert_ne by congruence. done.
  - intros key w Hw. left. by exists w.
Qed.

(** What [partitionLocked] promises its callers. *)
Lemma partitionLocked_inv client h h1 : hub_inv h -> partitionLocked client h = Ok h1 -> hb_closed h = false ->
  hub_inv h1 /\ is_Some (hb_partitions h1 !! client) /\ hb_closed h1 = false /\ hb_runs h1 = hb_runs h /\ hb_bindings h1 = hb_bindings h
  /\ hb_limits h1 = hb_limits h.
Proof.
  intros [Hh Hj] E Ho. unfold partitionLocked in E. destruct (hb_partitions h !! client) as [p|] eqn:Hp.
  - injection E as <-. by rewrite Hp.
  - destruct (_ >=? _) eqn:Hsz; [done|]. injection E as <-. cbn. rewrite lookup_insert_eq. split_and!; try done.
    split; [apply partition_new_ok; [done..|lia]|]. apply (joins_keep h); try done; [|cbn; congruence].
    apply add_client_evolves. destruct (dv_clients (hb_discovery h) !! client) eqn:E; [|done].
    destruct (proj1 (ho_clients _ _ Hh client)); [by eexists|congruence].
Qed.

Definition bound_hub (client runID : string) (p : pendingPartition) (h : PendingHub) : PendingHub :=
  bump (set_partition client (with_bound (pp_boundRuns p + 1) p)
    (set_bindings (<[runID := hb_fresh h]> (hb_runs h)) (<[hb_fresh h := mkBinding client runID true 0 false false]> (hb_bindings h)) (hb_panicked h) h)).

Lemma bound_hub_ok ex client runID p h : hub_ok ex h -> hb_partitions h !! client = Some p -> hb_runs h !! runID = None ->
  Z.of_nat (size (hb_runs h)) < pl_Runs (hb_limits h) -> pp_boundRuns p < pl_RunsPerClient (hb_limits h) ->
  hub_ok ex (bound_hub client runID p h).
Proof.
  intros Hh Hp Hr Hsz Hb. pose proof Hh as [Hl Hpa Hca Hbi Hru Hrb Hco Hby Hcb Hbb Hcls Hclb Hdi Hsn Hpn].
  assert (hb_bindings h !! hb_fresh h = None) as Hnew.
  { destruct (hb_bindings h !! hb_fresh h) as [x|] eqn:Hx; [|done]. destruct (Hbi _ _ Hx). lia. }
  set (q := with_bound (pp_boundRuns p + 1) p). set (x := mkBinding client runID true 0 false false).
  assert (forall c, is_Some (<[client := q]> (hb_partitions h) !! c) <-> is_Some (hb_partitions h !! c)) as Hdom.
  { intros c. destruct (decide (c = client)) as [->|Hne]; [rewrite lookup_insert_eq, Hp|by rewrite lookup_insert_ne]. split; intros _; by eexists. }
  assert (forall c, match <[client := q]> (hb_partitions h) !! c with Some r => pp_log r | None => [] end = log_of h c) as Hlog.
  { intros c. unfold log_of. destruct (decide (c = client)) as [->|Hne]; [by rewrite lookup_insert_eq, Hp|by rewrite lookup_insert_ne]. }
  assert (forall b y, hb_bindings h !! b = Some y -> <[hb_fresh h := x]> (hb_bindings h) !! b = Some y) as Hold.
  { intros b y Hy. rewrite lookup_insert_ne; [done|congruence]. }
  split; cbn; try done.
  - intros c r. rewrite lookup_insert_Some. intros [[<- <-]|[Hne Hc]].
    + destruct (Hpa _ _ Hp) as [Kr Kn Kro Kpe Kre Kpb Ksb Kbb Kbo Kbl]. split; cbn -[replay]; try done; [| |lia].
      * intros key id Hk. destruct (Kpe key id Hk) as (call & y & ? & ? & ? & ? & Hy & Hcy). exists call, y. split_and!; auto.
      * rewrite msum_insert_None by done. unfold bound_in at 1. cbn. rewrite String.eqb_refl. lia.
    + eapply partition_frame; [by apply Hpa|done|intros b y Hy; exists y; auto|]. rewrite msum_insert_None by done. unfold bound_in at 1. cbn.
      rewrite (proj2 (String.eqb_neq _ _)) by done. done.
  - intros id c Hc. destruct (Hca _ _ Hc) as [[(y & Hy & Hyr & Hyo) Hch Hdn Hpc] Hlt]. split; [|lia]. split; try done.
    exists y. split_and!; auto. intros Ho. destruct (Hyo Ho) as (r & Hrr & Hrk).
    destruct (decide (bd_clientID y = client)) as [E|E]; [|exists r; by rewrite lookup_insert_ne].
    rewrite E in *. exists q. rewrite lookup_insert_eq. split; [done|]. cbn. congruence.
  - intros b y. rewrite lookup_insert_Some. intros [[<- <-]|[Hne Hy]].
    + split; [|lia]. split; cbn; try done; [|apply Hdom; by eexists].
      symmetry. apply msum_none. intros id c Hc. destruct (Hca _ _ Hc) as [[(y & Hy & _) _ _ _] _]. unfold open_of.
      destruct (Z.eqb_spec (cl_binding c) (hb_fresh h)) as [E|E]; [rewrite E in Hy; congruence|]. by rewrite andb_false_r.
    + destruct (Hbi _ _ Hy) as [[Ka Kr Kd Kp Ko] Hlt]. split; [|lia]. split; try done. by apply Hdom.
  - intros run b. rewrite lookup_insert_Some, Hru. split.
    + intros [[<- <-]|[Hne (y & Hy & ? & ?)]]; [exists x; by rewrite lookup_insert_eq|exists y; auto].
    + intros (y & Hy & Hyr & Hyl). apply lookup_insert_Some in Hy as [[<- <-]|[Hne Hy]]; [by left|right]. split; [|by exists y].
      intros ->. assert (hb_runs h !! bd_runID y = Some b) by (apply Hru; by exists y). congruence.
  - rewrite map_size_insert_None by done. lia.
  - rewrite (msum_insert_Some _ _ _ p) by done. cbn. lia.
  - rewrite (msum_insert_Some _ _ _ p) by done. cbn. lia.
  - intros c. rewrite Hcls. symmetry. apply Hdom.
  - rewrite map_size_insert_Some by (by eexists). done.
  - apply (relog _ _ _ _ Hdi). intros key w _. unfold log_of at 2. cbn. by rewrite Hlog.
  - intros c id w Hw. unfold log_of. cbn. rewrite Hlog. eauto.
Qed.

Lemma bind_inv clientID scope h : hub_inv h -> hub_inv (snd (BindRun clientID scope h)).
Proof.
  intros Hi. unfold BindRun. destruct (negb (boundedToken clientID)); [done|]. destruct (InteractionScope_Validate scope); [done|].
  destruct (hb_closed h) eqn:Hcl; [done|]. destruct (hb_runs h !! is_runID scope) eqn:Hr; [done|].
  destruct (Z.of_nat (size (hb_runs h)) >=? _) eqn:Hsz; [done|]. destruct (partitionLocked clientID h) as [h1|] eqn:Hpt; [|done].
  destruct (partitionLocked_inv _ _ _ Hi Hpt Hcl) as (Hi1 & [p Hp] & Ho & Eruns & _ & El). rewrite Hp.
  destruct (pp_boundRuns p >=? _) eqn:Hb; [done|]. cbn [snd]. change (hub_inv (bound_hub clientID (is_runID scope) p h1)).
  destruct Hi1 as [Hh1 Hj1]. split; [apply bound_hub_ok; rewrite ?Eruns, ?El; try done; lia|]. by apply (open_joins h1).
Qed.

(** *** The ends of a call *)

(** A finished call's channel and its [Request] change nothing else. *)
Lemma ended_call_ok ex id c c' h : hub_ok ex h -> hb_calls h !! id = Some c -> is_Some (cl_result c) ->
  cl_value c' = cl_value c -> cl_binding c' = cl_binding c -> cl_result c' = cl_result c ->
  cl_closers c' = (if cl_done c' then 0 else 1) ->
  match cl_pc c' with RqWaits => True | RqJoins r | RqReturned r => cl_result c' = Some r end ->
  hub_ok ex (set_calls (<[id := c']> (hb_calls h)) (hb_panicked h) h).
Proof.
  intros Hh Hc [r Hr] Ev Eb Er Hcl Hpc. pose proof Hh as [Hl Hpa Hca Hbi Hru Hrb Hco Hby Hcb Hbb Hcls Hclb Hdi Hsn Hpn].
  assert (open_call c = false /\ open_call c' = false) as [Hoc Hoc'] by (unfold open_call; rewrite Er, Hr; done).
  split; cbn; try done.
  - intros client p Hp. eapply partition_frame; [by apply Hpa| |intros b y Hy; by exists y|done].
    intros key id' call Hk Hcall. rewrite lookup_insert_ne; [done|]. intros <-.
    destruct (po_pending _ _ _ _ _ (Hpa _ _ Hp) _ _ Hk) as (c0 & x & Hc0 & Ho & _). congruence.
  - intros id' c0. rewrite lookup_insert_Some. intros [[<- <-]|[_ Hc0]]; [|by apply Hca].
    destruct (Hca _ _ Hc) as [[(y & Hy & Hyr & Hyo) Hch Hdn Hpc0] Hlt]. split; [|done]. split.
    + exists y. rewrite Eb, Ev. split_and!; try done. congruence.
    + rewrite Hcl, Er, Hr. by destruct (cl_done c').
    + rewrite Er, Hr. by eexists.
    + done.
  - intros b x Hx. destruct (Hbi _ _ Hx) as [[Ka Kr Kd Kp Ko] Hlt]. split; [|done]. split; try done.
    rewrite (msum_insert_Some _ _ _ c) by done. unfold open_of at 2 3. rewrite Hoc, Hoc'. cbn. lia.
Qed.

Lemma ended_call_joins id c c' h : joins_ok h -> hb_calls h !! id = Some c -> cl_result c' = cl_result c -> is_Some (cl_result c) ->
  joins_ok (set_calls (<[id := c']> (hb_calls h)) (hb_panicked h) h).
Proof.
  intros Hj Hc Er [r Hr]. apply (joins_keep h); try done; [by apply frame_evolves|]. intros Hcl. destruct (jo_closed _ Hj Hcl) as (Hcalls & _ & ?).
  split; [|done]. intros id' c0. cbn. rewrite lookup_insert_Some. intros [[<- <-]|[_ Hc0]]; [|eauto]. unfold open_call. by rewrite Er, Hr.
Qed.

Lemma set_pc_inv id c pc result h : hub_inv h -> hb_calls h !! id = Some c -> cl_result c = Some result ->
  match pc with RqWaits => True | RqJoins r | RqReturned r => result = r end -> hub_inv (set_pc id pc h).
Proof.
  intros [Hh Hj] Hc Hr Hpc. unfold set_pc. rewrite (alter_known _ _ _ c) by done. destruct (ho_calls _ _ Hh _ _ Hc) as [[_ Hch _ _] _].
  split; [eapply ended_call_ok; try done|eapply ended_call_joins; try done]; rewrite ?Hr; try by eexists.
  - cbn. rewrite Hch, Hr. by destruct (cl_done c).
  - cbn. destruct pc; [done| |]; by rewrite Hr, Hpc.
Qed.

Lemma request_done_inv id h h' : hub_inv h -> Request_done id h = Some h' -> hub_inv h'.
Proof.
  intros Hi E. unfold Request_done in E. destruct (hb_calls h !! id) as [c|] eqn:Hc; [|done]. destruct Hi as [Hh Hj].
  destruct (ho_calls _ _ Hh _ _ Hc) as [[_ _ Hdn Hpc] _].
  destruct (cl_pc c) as [|r|r] eqn:Epc, (cl_done c) eqn:Ed; try done.
  - destruct (cl_result c) as [r|] eqn:Er; [|done]. injection E as <-. by eapply set_pc_inv.
  - injection E as <-. by eapply set_pc_inv.
Qed.

Lemma close_done_inv id h h' : hub_inv h -> close_done id h = Some h' -> hub_inv h'.
Proof.
  intros [Hh Hj] E. unfold close_done in E. destruct (hb_calls h !! id) as [c|] eqn:Hc; [|done].
  destruct (ho_calls _ _ Hh _ _ Hc) as [[_ Hch _ Hpc] _]. destruct (cl_closers c >? 0) eqn:Hpos; [|done]. injection E as <-.
  destruct (cl_result c) as [r|] eqn:Er; [|lia]. destruct (cl_done c) eqn:Ed; [lia|]. rewrite orb_false_r. rewrite <- Er.
  split; [eapply ended_call_ok|eapply ended_call_joins]; try done; cbn; rewrite ?Er; try by eexists. all: first [lia | by destruct (cl_pc c)].
Qed.

(** What [finishCallLocked] leaves of the calls and of the pending set. *)
Definition pending_at (h : PendingHub) (client : string) (key : pendingKey) : option Z :=
  hb_partitions h !! client ≫= fun p => pp_pending p !! key.

Lemma remove_calls b h : hb_calls (removeReleasedBindingLocked b h) = hb_calls h.
Proof. unfold removeReleasedBindingLocked. by repeat case_match. Qed.
Lemma remove_pending b h client key : pending_at (removeReleasedBindingLocked b h) client key = pending_at h client key.
Proof.
  unfold removeReleasedBindingLocked. repeat case_match; try done. unfold pending_at. cbn.
  destruct (decide (client = bd_clientID r)) as [->|Hne]; [|by rewrite lookup_insert_ne]. rewrite lookup_insert_eq.
  match goal with H : hb_partitions h !! _ = Some _ |- _ => by rewrite H end.
Qed.

Lemma finish_effect ex client p key id result h : hub_ok ex h -> hb_partitions h !! client = Some p -> pp_pending p !! key = Some id ->
  (exists call, hb_calls h !! id = Some call
    /\ hb_calls (finishCallLocked client key id result h) = <[id := with_result (Some result) (cl_closers call + 1) call]> (hb_calls h))
  /\ forall c k, pending_at (finishCallLocked client key id result h) c k
       = if bool_decide (c = client /\ k = key) then None else pending_at h c k.
Proof.
  intros Hh Hp Hk. destruct (pending_call _ _ _ _ _ _ Hh Hp Hk) as (call & x & Hc & _ & _ & Hb & Hcl).
  rewrite (finish_fields _ p _ _ call x) by done. split; [exists call; by rewrite remove_calls|]. intros c k. rewrite remove_pending.
  unfold pending_at. cbn. destruct (decide (c = client)) as [->|Hne].
  - rewrite lookup_insert_eq, Hp. cbn. destruct (decide (k = key)) as [->|Hn].
    + rewrite lookup_delete_eq. by rewrite bool_decide_eq_true_2.
    + rewrite lookup_delete_ne by done. rewrite bool_decide_eq_false_2; [done|naive_solver].
  - rewrite lookup_insert_ne by done. rewrite bool_decide_eq_false_2; [done|naive_solver].
Qed.

Lemma hub_finish_inv client p key id result h : hub_inv h -> hb_closed h = false -> hb_partitions h !! client = Some p ->
  pp_pending p !! key = Some id -> hub_inv (finishCallLocked client key id result h).
Proof.
  intros [Hh Hj] Hcl Hp Hk. split; [by eapply finish_call_ok|]. apply (open_joins h); [done..|apply finish_same].
Qed.

Lemma closed_nothing_pending h client key : hub_inv h -> hb_closed h = true -> pending_at h client key = None.
Proof.
  intros [Hh Hj] Hcl. unfold pending_at. destruct (hb_partitions h !! client) as [p|] eqn:Hp; [|done]. cbn.
  destruct (pp_pending p !! key) as [id|] eqn:Hk; [|done]. destruct (pending_call _ _ _ _ _ _ Hh Hp Hk) as (call & x & Hc & Ho & _).
  destruct (jo_closed _ Hj Hcl) as (Hcalls & _). by rewrite (Hcalls _ _ Hc) in Ho.
Qed.

Lemma request_cancel_inv id h h' : hub_inv h -> Request_cancel id h = Some h' -> hub_inv h'.
Proof.
  intros Hi E. unfold Request_cancel in E. destruct (hb_calls h !! id) as [c|] eqn:Hc; [|done]. destruct (cl_pc c) eqn:Epc; try done.
  assert (forall r, cl_result c = Some r -> hub_inv (set_pc id (RqJoins r) h)) as Hended by (intros r Hr; by eapply set_pc_inv).
  unfold complete in E. destruct (hb_bindings h !! cl_binding c) as [x|]; [|destruct (cl_result c) eqn:Hr; [injection E as <-; auto|done]].
  destruct (hb_partitions h !! bd_clientID x) as [p|] eqn:Hp; [|destruct (cl_result c) eqn:Hr; [injection E as <-; auto|done]].
  case_bool_decide as Hk; [|destruct (cl_result c) eqn:Hr; [injection E as <-; auto|done]]. injection E as <-.
  assert (hb_closed h = false) as Hcl.
  { destruct (hb_closed h) eqn:Hcl; [|done]. pose proof (closed_nothing_pending h (bd_clientID x) (key_of (cl_value c)) Hi Hcl) as Hn.
    unfold pending_at in Hn. rewrite Hp in Hn. cbn in Hn. congruence. }
  destruct (finish_effect _ _ _ _ _ (PFailure ErrPendingContext) _ (proj1 Hi) Hp Hk) as [(call & _ & Hcalls) _].
  eapply set_pc_inv; [by eapply hub_finish_inv|rewrite Hcalls; apply lookup_insert_eq|done|done].
Qed.

(** *** Snapshots and observers *)

Lemma sorted_calls_elem p key id : (key, id) ∈ sorted_calls p <-> pp_pending p !! key = Some id.
Proof. unfold sorted_calls. rewrite (merge_sort_Permutation key_le). apply elem_of_map_to_list. Qed.
Lemma sorted_calls_nodup p : NoDup (fst <$> sorted_calls p).
Proof. unfold sorted_calls. rewrite (merge_sort_Permutation key_le). apply NoDup_fst_map_to_list. Qed.

Lemma snapshot_values l calls bindings client p : partition_ok l calls bindings client p -> forall kcs, kcs ⊆ sorted_calls p ->
  key_of <$> omap (fun kc => cl_value <$> calls !! kc.2) kcs = fst <$> kcs.
Proof.
  intros Hp. induction kcs as [|[key id] kcs IH]; intros Hs; [done|]. cbn.
  destruct (po_pending _ _ _ _ _ Hp key id) as (call & x & Hc & _ & Hk & _); [apply sorted_calls_elem, Hs; by left|].
  rewrite Hc. cbn. rewrite Hk. f_equal. apply IH. intros z Hz. apply Hs. by right.
Qed.

Lemma snapshot_elem l calls bindings client p v : partition_ok l calls bindings client p ->
  v ∈ ps_pending (snapshotLocked calls p) <-> replay (pp_log p) !! key_of v = Some v.
Proof.
  intros Hp. cbn -[replay]. rewrite list_elem_of_omap. split.
  - intros ([key id] & Hin & Hv). apply sorted_calls_elem in Hin. cbn in Hv.
    destruct (po_pending _ _ _ _ _ Hp key id Hin) as (call & x & Hc & _ & Hk & Hr & _). rewrite Hc in Hv. injection Hv as <-. by rewrite Hk.
  - intros Hr. destruct (pp_pending p !! key_of v) as [id|] eqn:Hk; [|apply (po_replay _ _ _ _ _ Hp) in Hk; congruence].
    exists (key_of v, id). split; [by apply sorted_calls_elem|]. destruct (po_pending _ _ _ _ _ Hp _ _ Hk) as (call & x & Hc & _ & _ & Hr' & _).
    cbn. rewrite Hc. cbn. congruence.
Qed.

Lemma replay_keys log : forall key v, replay log !! key = Some v -> key_of v = key.
Proof.
  induction log as [|delta log IH] using rev_ind; intros key v Hv; [cbn in Hv; by rewrite lookup_empty in Hv|]. rewrite replay_snoc in Hv.
  unfold apply_delta in Hv. destruct (dl_kind delta).
  - apply lookup_insert_Some in Hv as [[<- <-]|[_ Hv]]; eauto.
  - apply lookup_delete_Some in Hv as [_ Hv]. eauto.
Qed.

#[export] Instance key_le_trans : Transitive key_le.
Proof.
  intros a b c. unfold key_le. intros [H1|[H1 H2]] [H3|[H3 H4]].
  - left. by eapply ltb_trans.
  - left. congruence.
  - left. congruence.
  - right. split; [congruence|]. by apply (transitivity (R := string_le)) with b.1.2.
Qed.
#[export] Instance key_le_total : Total key_le.
Proof.
  intros a b. unfold key_le. destruct (String.ltb a.1.1 b.1.1) eqn:E1; [auto|]. destruct (String.ltb b.1.1 a.1.1) eqn:E2; [auto|].
  apply ltb_false in E1, E2. assert (a.1.1 = b.1.1) as E by (by apply (anti_symm string_le)).
  destruct (String.leb_total a.1.2 b.1.2); auto.
Qed.

Lemma snapshot_sorted l calls bindings client p : partition_ok l calls bindings client p ->
  StronglySorted pending_lt (ps_pending (snapshotLocked calls p)).
Proof.
  intros Hp. pose proof (snapshot_values _ _ _ _ _ Hp (sorted_calls p)) as Hk. pose proof (sorted_calls_nodup p) as Hnd.
  pose proof (StronglySorted_merge_sort key_le (map_to_list (pp_pending p))) as Hs. fold (sorted_calls p) in Hs.
  cbn -[sorted_calls]. specialize (Hk ltac:(done)). revert Hk Hnd Hs. generalize (sorted_calls p). intros kcs.
  induction kcs as [|[key id] kcs IH]; [constructor|]. cbn. intros Hk Hnd Hs.
  inversion Hs as [|? ? Hs' Hle]; subst. apply NoDup_cons in Hnd as [Hnot Hnd].
  destruct (calls !! id) as [call|] eqn:Hc; cbn in Hk |- *; [|].
  - injection Hk as Hkey Hk. constructor; [by apply IH|]. apply Forall_forall. intros v Hv.
    assert (key_of v ∈ (fst <$> kcs)) as Hin by (rewrite <- Hk; by apply list_elem_of_fmap_2).
    apply list_elem_of_fmap in Hin as ([key' id'] & Hkv & Hin). cbn in Hkv. subst key'.
    rewrite Forall_forall in Hle. specialize (Hle _ Hin). unfold key_le in Hle. cbn in Hle. unfold pending_lt. rewrite Hkey.
    destruct Hle as [Hlt|[He Hle]]; [by left|]. right. split; [done|]. apply ltb_spec. split; [done|].
    intros He2. apply Hnot. apply list_elem_of_fmap. exists (key_of v, id'). split; [|done].
    by apply injective_projections.
  - exfalso. pose proof (f_equal length Hk) as Hl. rewrite !length_fmap in Hl. cbn in Hl.
    assert (length (omap (fun kc => cl_value <$> calls !! kc.2) kcs) <= length kcs)%nat as Hle'.
    { clear. induction kcs as [|kc kcs IH]; [done|]. cbn. destruct (cl_value <$> calls !! kc.2); cbn; lia. }
    rewrite length_fmap in Hl. lia.
Qed.

Lemma snapshot_exact l calls bindings client p : partition_ok l calls bindings client p ->
  snapshot_of (pp_log p) (snapshotLocked calls p) /\ ps_revision (snapshotLocked calls p) = lenZ (pp_log p).
Proof.
  intros Hp. pose proof (po_revision _ _ _ _ _ Hp) as Hrev. split; [|done].
  assert (NoDup (key_of <$> ps_pending (snapshotLocked calls p))) as Hnd.
  { cbn. rewrite (snapshot_values _ _ _ _ _ Hp) by done. apply sorted_calls_nodup. }
  split; [split; [done|by eapply snapshot_sorted]|]. change (ps_revision (snapshotLocked calls p)) with (pp_revision p). rewrite take_ge by (rewrite Hrev; unfold lenZ; lia).
  apply map_eq. intros key. apply option_eq. intros v. unfold as_map.
  rewrite <- elem_of_list_to_map by (rewrite <- list_fmap_compose; done). rewrite list_elem_of_fmap. split.
  - intros (v' & [= -> ->] & Hv). by apply (snapshot_elem _ _ _ _ _ _ Hp) in Hv.
  - intros Hv. pose proof (replay_keys _ _ _ Hv) as <-. exists v. split; [done|]. by apply (snapshot_elem _ _ _ _ _ _ Hp).
Qed.

Lemma subscribe_inv ctx clientID h : hub_inv h -> hub_inv (snd (Subscribe ctx clientID h)).
Proof.
  intros Hi. unfold Subscribe. destruct ctx; [done| |done]. destruct (negb (boundedToken clientID)); [done|].
  destruct (hb_closed h) eqn:Hcl; [done|]. destruct (partitionLocked clientID h) as [h1|] eqn:Hpt; [|done].
  destruct (partitionLocked_inv _ _ _ Hi Hpt Hcl) as (Hi1 & [p Hp] & Ho & _). rewrite Hp.
  destruct (dv_clients (hb_discovery h1) !! clientID) as [o|] eqn:Hc; [|done].
  destruct (subscribe _ _ _ _ _) as [[id d]|] eqn:Es; [|done]. cbn [snd]. destruct Hi1 as [Hh Hj].
  pose proof (ho_partitions _ _ Hh _ _ Hp) as Hpo. destruct (snapshot_exact _ _ _ _ _ Hpo) as [Hsnap Hrev].
  assert (log_of h1 clientID = pp_log p) as Hlog by (unfold log_of; by rewrite Hp).
  assert (forall id : Z, ps_revision (snapshotLocked (hb_calls h1) p) = lenZ ((fun key : string * Z => log_of h1 key.1) (clientID, id))) as Hrev'
    by (intros i; cbn [fst]; by rewrite Hlog).
  destruct (subscribe_ok _ _ _ _ _ _ _ _ (ho_limits _ _ Hh) (ho_discovery _ _ Hh) Hc Hrev' Es) as (Hd & Hnone & Hw & Hid & Hcl').
  assert (ob_nextWatcher (reserve_observer (hb_limits h1) o) = id) as Hnext.
  { unfold subscribe in Es. repeat case_match; try done. by injection Es. }
  split.
  - destruct Hh as [Hl Hpa Hca Hbi Hru Hrb Hco Hby Hcb Hbb Hcls Hclb Hdi Hsn Hpn]. split; try done; cbn.
    + intros c. rewrite Hcl', <- Hcls. destruct (decide (c = clientID)) as [->|Hne]; [rewrite lookup_insert_eq, Hc|by rewrite lookup_insert_ne].
      split; intros _; by eexists.
    + intros c i w. rewrite Hw, lookup_insert_Some. intros [[[= <- <-] <-]|[_ Hw0]]; [|by apply (Hsn c i)].
      change (log_of (set_discovery d h1) clientID) with (log_of h1 clientID). by rewrite Hlog.
  - apply (joins_keep h1); try done; [|cbn; congruence]. split; cbn.
    + intros c o' Ho'. rewrite Hcl'. destruct (decide (c = clientID)) as [->|Hne].
      * rewrite lookup_insert_eq. eexists. split; [done|]. rewrite Hnext. assert (o' = o) as -> by congruence. lia.
      * rewrite lookup_insert_ne by done. by exists o'.
    + intros key w'. rewrite Hw, lookup_insert_Some. intros [[<- <-]|[_ Hw0]]; [right|left; by exists w'].
      split; [done|]. cbn. intros o' Ho'. assert (o' = o) as -> by congruence. lia.
Qed.

(** *** Fences *)

Definition finish_all (l : PendingLimits) (client : string) (err : PendingError) (ids : list Z) (d : Discovery) : Discovery :=
  foldl (fun d id => finishWatcherLocked l (client, id) (Some err) false d) d ids.

Lemma finish_all_frame l client err ids : forall d, frame d (finish_all l client err ids d).
Proof. induction ids as [|id ids IH]; intros d; cbn; [done|]. etrans; [apply finish_frame|apply IH]. Qed.

Lemma finish_all_ok l logs client err ids : limits_facts l -> forall d, discovery_ok l logs d -> discovery_ok l logs (finish_all l client err ids d).
Proof.
  intros Hl. induction ids as [|id ids IH]; intros d Hd; cbn; [done|]. apply IH. apply finish_ok; [done|apply Hl..].
Qed.

Lemma finish_detaches l key err exhausted d w : dv_watchers (finishWatcherLocked l key err exhausted d) !! key = Some w -> wt_active w = false.
Proof.
  unfold finishWatcherLocked. destruct (dv_watchers d !! key) as [w0|] eqn:Hw; [|congruence]. destruct (wt_active w0) eqn:Ha; cbn.
  - rewrite lookup_insert_eq. by intros [= <-].
  - congruence.
Qed.

Lemma finish_all_detaches l client err ids : forall d id w, id ∈ ids -> dv_watchers (finish_all l client err ids d) !! (client, id) = Some w ->
  wt_active w = false.
Proof.
  induction ids as [|i ids IH]; intros d id w Hin Hw; [by apply elem_of_nil in Hin|]. cbn in Hw. apply elem_of_cons in Hin as [->|Hin]; [|by eapply IH].
  destruct (frame_watcher _ _ _ _ (finish_all_frame l client err ids _) Hw) as (w0 & Hw0 & (_ & _ & Ha & _)). apply Ha. by eapply finish_detaches.
Qed.

Lemma frame_watcher_back d d' key w : frame d d' -> dv_watchers d !! key = Some w -> exists w', dv_watchers d' !! key = Some w' /\ watcher_frame w w'.
Proof. intros Hf Hw. pose proof (fr_watchers _ _ Hf key) as H. rewrite Hw in H. destruct (dv_watchers d' !! key) as [w'|]; [by exists w'|done]. Qed.

Lemma finish_watchers_inv client err ids h : hub_inv h -> hub_inv (finish_watchers client err ids h).
Proof.
  intros Hi. apply deliver_step_inv; [done|apply finish_all_frame|]. apply finish_all_ok; [apply (proj1 Hi)|apply (ho_discovery _ _ (proj1 Hi))].
Qed.

(** Hubs that differ only in their closing have the same accounting. *)
Lemma closing_ok ex closed closeDone fences closes h : hub_ok ex h -> hub_ok ex (set_closing closed closeDone fences closes h).
Proof. intros []. by split. Qed.

Lemma fence_begin_inv clientID k h : hub_inv h -> hub_inv (snd (FenceObservers_begin clientID k h)).
Proof.
  intros Hi. unfold FenceObservers_begin. destruct (negb (boundedToken clientID)); [done|]. destruct (hb_closed h) eqn:Hcl; [done|].
  destruct (dv_clients (hb_discovery h) !! clientID) as [o|] eqn:Hc; [|done]. cbn [snd].
  set (ids := sortedWatcherIDs (ob_watchers o)). destruct (finish_watchers_inv clientID ErrObserverFenced ids h Hi) as [Hh1 Hj1].
  split; [by apply closing_ok|]. set (h1 := finish_watchers clientID ErrObserverFenced ids h) in *.
  pose proof (finish_all_frame (hb_limits h) clientID ErrObserverFenced ids (hb_discovery h)) as Hfr.
  destruct Hj1 as [Hfe Hcd Hcls Hcs]. split; cbn; try done. intros k' f. rewrite lookup_insert_Some. intros [[<- <-]|[_ Hf]]; [|by apply (Hfe k')].
  cbn. split.
  - destruct (ev_clients _ _ _ (frame_evolves True _ _ Hfr) _ _ Hc) as (o' & Ho' & Hle). by exists o'.
  - intros id w Hw Hid. destruct (frame_watcher _ _ _ _ Hfr Hw) as (w0 & Hw0 & (_ & _ & Ha & Hd & _)).
    pose proof (do_clients _ _ _ (ho_discovery _ _ (proj1 Hi)) _ _ Hc) as Hoo. destruct (wt_active w0) eqn:Hact.
    + assert (id ∈ ids) as Hin by (apply sorted_ids, (oo_watchers _ _ _ _ Hoo); by exists w0).
      split; [by apply (finish_all_detaches (hb_limits h) clientID ErrObserverFenced ids (hb_discovery h) id)|]. left. split; [|done]. apply elem_of_app. by right.
    + split; [auto|]. assert (wt_pc w0 = DvStopped \/ wt_pc w0 <> DvStopped) as [E|E] by (destruct (wt_pc w0); auto).
      * right. apply Hd. unfold watcher_done. by rewrite E.
      * left. split; [|done]. apply elem_of_app. left. apply elem_of_elements, (oo_stopping _ _ _ _ Hoo). by exists w0.
Qed.

Lemma fence_join_inv k h h' : hub_inv h -> fence_join k h = Some h' -> hub_inv h'.
Proof.
  intros [Hh Hj] E. unfold fence_join in E. destruct (hb_fences h !! k) as [f|] eqn:Hf; [|done].
  destruct (_ && _) eqn:Hb; [|done]. injection E as <-. split; [by apply closing_ok|]. apply andb_true_iff in Hb as [_ Hall].
  destruct Hj as [Hfe Hcd Hcls Hcs]. split; cbn; try done. intros k' f'. rewrite lookup_insert_Some. intros [[<- <-]|[_ Hf']]; [|by apply (Hfe k')].
  cbn. destruct (Hfe _ _ Hf) as [Ho Hw]. split; [done|]. intros id w Hw0 Hid. destruct (Hw id w Hw0 Hid) as [Hact Hor]. split; [done|]. right.
  destruct Hor as [[Hin _]|Hd]; [|done]. rewrite forallb_forall in Hall. specialize (Hall id (proj1 (list_elem_of_In _ _) Hin)).
  unfold watcher_joined in Hall. unfold watchers_of in Hw0. cbn in Hw0. by rewrite Hw0 in Hall.
Qed.

Lemma close_join_inv k h h' : hub_inv h -> Close_join k h = Some h' -> hub_inv h'.
Proof.
  intros [Hh Hj] E. unfold Close_join in E. assert (forall closes, hub_ok ∅ (set_closing true true (hb_fences h) closes h)) as Hok by (intros; by apply closing_ok).
  assert (hb_closed h = true -> (forall key w, watchers_of h !! key = Some w -> wt_pc w = DvStopped) ->
          hub_inv (set_closing true true (hb_fences h) (<[k := ClReturned]> (hb_closes h)) h)) as Hfin.
  { intros Hcl Hst. split; [done|]. destruct Hj as [Hfe Hcd Hcls Hcs]. by split; cbn; auto. }
  destruct (hb_closes h !! k) as [[calls| |]|] eqn:Hk; try done; destruct (jo_closes _ Hj _ _ Hk) as [Hcl _].
  - destruct (forallb (call_closed h) calls && all_stopped h) eqn:Hall; [|done]. injection E as <-. apply Hfin; [done|].
    apply andb_true_iff in Hall as [_ Hall]. unfold all_stopped in Hall. rewrite forallb_forall in Hall. intros key w Hw.
    specialize (Hall (key, w)). cbn in Hall. destruct (wt_pc w); try done; discriminate Hall;
      by apply list_elem_of_In, elem_of_map_to_list.
  - destruct (hb_closeDone h) eqn:Hd; [|done]. injection E as <-. apply Hfin; [done|]. by apply (jo_closeDone _ Hj).
Qed.

(** *** [Close] *)

Definition all_refuse (h : PendingHub) : Prop := forall b x, hb_bindings h !! b = Some x -> bd_accepting x = false.

Lemma remove_refuse b h : all_refuse h -> all_refuse (removeReleasedBindingLocked b h).
Proof.
  intros Ha. unfold removeReleasedBindingLocked. destruct (hb_bindings h !! b) as [x|] eqn:Hb; [|done]. specialize (Ha _ _ Hb) as Hx.
  repeat case_match; try done; intros b' y; cbn; rewrite lookup_insert_Some; intros [[<- <-]|[_ Hy]]; [done|by eapply Ha|done|by eapply Ha].
Qed.
Lemma finish_refuse client key id result h : all_refuse h -> all_refuse (finishCallLocked client key id result h).
Proof.
  intros Ha. unfold finishCallLocked. destruct (hb_partitions h !! client) as [p|] eqn:Hp; [|done]. destruct (hb_calls h !! id) as [c|]; [|done].
  apply remove_refuse. unfold publishLocked. case_match; cbn; intros b x; cbn; rewrite lookup_alter_Some;
    (intros [(<- & y & Hy & ->)|[_ Hy]]; [cbn; by eapply Ha|by eapply Ha]).
Qed.

Lemma close_bindings_ok h : hub_ok ∅ h -> forall bs, hub_ok (list_to_set bs) (close_bindings bs h).
Proof.
  intros Hh. induction bs as [|b bs IH]; [by destruct Hh; split|]. change (list_to_set (b :: bs)) with (({[b]} : gset Z) ∪ list_to_set bs).
  unfold close_bindings in *. cbn [foldr]. set (m := foldr _ _ bs) in *. destruct (m !! b) as [x|] eqn:Hb.
  - rewrite (alter_known _ _ _ x) by done. by apply (refuse_ok _ b x (bd_once x) _ IH).
  - rewrite alter_id by (intros; congruence). eapply hub_ok_mono; [|exact IH]. set_solver.
Qed.

Lemma close_bindings_lookup bs h b x : hb_bindings (close_bindings bs h) !! b = Some x ->
  exists x0, hb_bindings h !! b = Some x0 /\ (b ∈ bs \/ bd_accepting x0 = false -> bd_accepting x = false).
Proof.
  cbn. revert x. induction bs as [|b' bs IH]; cbn; intros x Hx.
  - exists x. split; [done|]. intros [?%elem_of_nil|?]; done.
  - apply lookup_alter_Some in Hx as [(<- & y & Hy & ->)|[Hne Hy]].
    + destruct (IH _ Hy) as (x0 & ? & _). exists x0. by split.
    + destruct (IH _ Hy) as (x0 & ? & Hx0). exists x0. split; [done|]. intros [[->|?]%elem_of_cons|?]; [done|auto..].
Qed.

Lemma close_bindings_refuse ex h : hub_ok ex h -> all_refuse (close_bindings (map snd (map_to_list (hb_runs h))) h).
Proof.
  intros Hh b x Hx. destruct (close_bindings_lookup _ _ _ _ Hx) as (x0 & Hx0 & Hr). apply Hr. destruct (bd_released x0) eqn:Hrel.
  - right. destruct (ho_bindings _ _ Hh _ _ Hx0) as [[_ Kr _ _ _] _]. by destruct (Kr Hrel).
  - left. change (map snd (map_to_list (hb_runs h))) with (snd <$> map_to_list (hb_runs h)). apply list_elem_of_fmap.
    exists (bd_runID x0, b). split; [done|]. apply elem_of_map_to_list, (ho_runs _ _ Hh). by exists x0.
Qed.

Lemma sorted_clients_elem h client : client ∈ sorted_clients h <-> is_Some (hb_partitions h !! client).
Proof.
  unfold sorted_clients. rewrite (merge_sort_Permutation client_le).
  change (map fst (map_to_list (hb_partitions h))) with (fst <$> map_to_list (hb_partitions h)). rewrite list_elem_of_fmap. split.
  - intros ([c p] & -> & Hp). apply elem_of_map_to_list in Hp. by eexists.
  - intros [p Hp]. exists (client, p). split; [done|]. by apply elem_of_map_to_list.
Qed.
Lemma sorted_clients_nodup h : NoDup (sorted_clients h).
Proof. unfold sorted_clients. rewrite (merge_sort_Permutation client_le). apply NoDup_fst_map_to_list. Qed.

Lemma close_calls_elem h client key id : (client, (key, id)) ∈ close_calls h <-> pending_at h client key = Some id.
Proof.
  unfold close_calls, pending_at. rewrite list_elem_of_bind. split.
  - intros (c & Hin & _). destruct (hb_partitions h !! c) as [p|] eqn:Hp; [|by apply elem_of_nil in Hin].
    apply list_elem_of_fmap in Hin as ([k i] & [= -> -> ->] & Hk). rewrite Hp. cbn. by apply sorted_calls_elem.
  - destruct (hb_partitions h !! client) as [p|] eqn:Hp; [|done]. cbn. intros Hk. exists client. rewrite Hp. split; [|apply sorted_clients_elem; by eexists].
    apply list_elem_of_fmap. exists (key, id). split; [done|]. by apply sorted_calls_elem.
Qed.

Lemma close_calls_nodup h : NoDup ((fun c => (c.1, c.2.1)) <$> close_calls h).
Proof.
  apply NoDup_fmap_2_strong.
  - intros [c1 [k1 i1]] [c2 [k2 i2]] H1 H2 [= -> ->]. apply close_calls_elem in H1, H2. congruence.
  - apply NoDup_bind; [| |apply sorted_clients_nodup].
    + intros c1 c2 y _ _ H1 H2. repeat case_match; try by apply elem_of_nil in H1. 2: by apply elem_of_nil in H2.
      apply list_elem_of_fmap in H1 as (? & -> & _). apply list_elem_of_fmap in H2 as (? & [= ->] & _). done.
    + intros c _. case_match; [|constructor]. apply NoDup_fmap_2; [by intros ? ? [= ->]|]. eapply NoDup_fmap_1, sorted_calls_nodup.
Qed.

Lemma close_calls_ok ex : forall cs h, hub_ok ex h -> NoDup ((fun c => (c.1, c.2.1)) <$> cs) ->
  (forall c, c ∈ cs -> pending_at h c.1 c.2.1 = Some c.2.2) ->
  let h' := foldl close_call h cs in
  hub_ok ex h' /\ same_joins h h' /\ (all_refuse h -> all_refuse h')
  /\ forall client key, pending_at h' client key = if bool_decide ((client, key) ∈ (fun c => (c.1, c.2.1)) <$> cs) then None else pending_at h client key.
Proof.
  induction cs as [|[client [key id]] cs IH]; intros h Hh Hnd Hin; cbn.
  - by split_and!.
  - cbn in Hnd. apply NoDup_cons in Hnd as [Hni Hnd]. pose proof (Hin (client, (key, id)) ltac:(by left)) as Hpk. cbn in Hpk.
    unfold pending_at in Hpk. destruct (hb_partitions h !! client) as [p|] eqn:Hp; [|done]. cbn in Hpk.
    unfold close_call at 2 4 6 8. cbn [fst snd]. destruct (finish_effect _ _ _ _ _ (PFailure ErrPendingHubClosed) _ Hh Hp Hpk) as [_ Hpend].
    set (h1 := finishCallLocked client key id (PFailure ErrPendingHubClosed) h) in *.
    destruct (IH h1) as (Hok & Hsame & Href & Hp'); [by eapply finish_call_ok|done| |].
    { intros c Hc. rewrite Hpend, bool_decide_eq_false_2; [apply Hin; by right|]. intros [E1 E2]. apply Hni. rewrite <- E1, <- E2.
      apply list_elem_of_fmap. by exists c. }
    split_and!; [done|etrans; [apply finish_same|done]|intros Ha; by apply Href, finish_refuse|].
    intros c k. rewrite Hp', Hpend. repeat case_bool_decide; try done.
    + exfalso. match goal with H : (c, k) ∉ _ |- _ => apply H end. by right.
    + exfalso. match goal with H : (c, k) ∉ _, H2 : _ /\ _ |- _ => destruct H2 as [-> ->]; apply H end. by left.
    + exfalso. match goal with H : (c, k) ∈ _ :: _ |- _ => apply elem_of_cons in H as [[= -> ->]|H] end; tauto.
Qed.

Lemma remove_all_ok : forall bs h, hub_ok (list_to_set bs) h -> let h' := foldl (fun h b => removeReleasedBindingLocked b h) h bs in
  hub_ok ∅ h' /\ same_joins h h' /\ (all_refuse h -> all_refuse h') /\ hb_calls h' = hb_calls h.
Proof.
  induction bs as [|b bs IH]; intros h Hh; cbn; [done|].
  destruct (IH (removeReleasedBindingLocked b h)) as (Hok & Hs & Hr & Hc); [by apply removeReleased_ok|].
  split_and!; [done|etrans; [apply remove_same|done]|intros; by apply Hr, remove_refuse|by rewrite Hc, remove_calls].
Qed.

Lemma close_watchers_ok : forall cs h, hub_ok ∅ h -> let h' := foldl close_watchers h cs in
  exists d, h' = set_discovery d h /\ frame (hb_discovery h) d /\ discovery_ok (hb_limits h) (fun key => log_of h key.1) d
  /\ forall client id w, client ∈ cs -> dv_watchers d !! (client, id) = Some w -> wt_active w = false.
Proof.
  induction cs as [|client cs IH]; intros h Hh; cbn.
  - exists (hb_discovery h). split_and!; [by destruct h|done|apply Hh|]. by intros ? ? ? ?%elem_of_nil.
  - assert (exists d, close_watchers h client = set_discovery d h /\ frame (hb_discovery h) d /\ discovery_ok (hb_limits h) (fun key => log_of h key.1) d
      /\ forall id w, dv_watchers d !! (client, id) = Some w -> wt_active w = false) as (d & -> & Hfr & Hd & Hi).
    { unfold close_watchers. destruct (dv_clients (hb_discovery h) !! client) as [o|] eqn:Hc.
      - eexists. split; [done|]. set (ids := sortedWatcherIDs (ob_watchers o)). split_and!.
        + apply finish_all_frame.
        + apply (finish_all_ok _ _ client ErrPendingHubClosed ids); apply Hh.
        + intros id w Hw. destruct (frame_watcher _ _ _ _ (finish_all_frame _ _ _ _ _) Hw) as (w0 & Hw0 & (_ & _ & Ha & _)).
          destruct (wt_active w0) eqn:Hact; [|auto]. apply (finish_all_detaches (hb_limits h) client ErrPendingHubClosed ids (hb_discovery h) id); [|done].
          apply sorted_ids, (oo_watchers _ _ _ _ (do_clients _ _ _ (ho_discovery _ _ Hh) _ _ Hc)). by exists w0.
      - exists (hb_discovery h). split_and!; [by destruct h|done|apply Hh|]. intros id w Hw.
        destruct (do_watchers _ _ _ (ho_discovery _ _ Hh) _ _ _ Hw) as (_ & _ & o & Ho & _). congruence. }
    destruct (IH (set_discovery d h)) as (d' & -> & Hfr' & Hd' & Hi'); [by apply set_discovery_ok|].
    exists d'. split_and!; [done|by etrans|done|]. intros c id w [->|Hc]%elem_of_cons Hw; [|by eapply Hi'].
    destruct (frame_watcher _ _ _ _ Hfr' Hw) as (w0 & Hw0 & (_ & _ & Ha & _)). eauto.
Qed.

(** The hub that [Close] leaves when it unlocks. *)
Lemma close_begin_inv k h : hub_inv h -> hb_closes h !! k = None -> hub_inv (Close_begin k h).
Proof.
  intros Hi Hk. pose proof Hi as [Hh Hj]. unfold Close_begin. destruct (hb_closed h) eqn:Hcl.
  - split; [by apply closing_ok|]. destruct Hj as [Hfe Hcd Hcls Hcs]. split; cbn; [done|by intros _; apply Hcd|by intros Hd; destruct (Hcls Hd)|]. intros k' pc. rewrite lookup_insert_Some.
    intros [[_ <-]|[_ Hpc]]; [done|]. split; [done|]. by apply (Hcs k').
  - set (bs := map snd (map_to_list (hb_runs h))). set (cs := close_calls h). set (h0 := set_closing _ _ _ _ h).
    assert (hub_ok ∅ h0) as H0 by (by apply closing_ok).
    pose proof (close_bindings_ok _ H0 bs) as H1. pose proof (close_bindings_refuse _ _ H0) as R1. change (hb_runs h0) with (hb_runs h) in R1. fold bs in R1.
    set (h1 := close_bindings bs h0) in *.
    destruct (close_calls_ok _ cs h1 H1 (close_calls_nodup h)) as (H2 & S2 & R2 & P2).
    { intros [client [key id]] Hc. by apply close_calls_elem in Hc. }
    set (h2 := foldl close_call h1 cs) in *. destruct (remove_all_ok bs h2 H2) as (H3 & S3 & R3 & C3).
    set (h3 := foldl (fun h b => removeReleasedBindingLocked b h) h2 bs) in *. specialize (R3 (R2 R1)).
    destruct (close_watchers_ok (sorted_clients h3) h3 H3) as (d & -> & Hfr & Hd & Hina).
    split; [by apply set_discovery_ok|]. assert (same_joins h1 h3) as [Ef Ec Eo Ed El Hfr3] by (by etrans).
    assert (forall id c, hb_calls h3 !! id = Some c -> open_call c = false) as Hnone.
    { intros id c Hc. rewrite C3 in Hc. destruct (open_call c) eqn:Ho; [|done]. exfalso. destruct (ho_calls _ _ H2 _ _ Hc) as [[(y & Hy & _ & Hyo) _ _ _] _].
      destruct (Hyo Ho) as (p & Hp & Hpk). specialize (P2 (bd_clientID y) (key_of (cl_value c))). unfold pending_at at 1 in P2. rewrite Hp in P2. cbn in P2.
      rewrite Hpk in P2. case_bool_decide as Hnin; [done|]. apply Hnin. apply list_elem_of_fmap. exists (bd_clientID y, (key_of (cl_value c), id)).
      split; [done|]. by apply close_calls_elem. }
    assert (frame (hb_discovery h) d) as Hfrd by (by etrans).
    split; cbn.
    + rewrite Ef. intros k' f Hf. destruct (jo_fences _ Hj _ _ Hf) as ((o & Ho & Hle) & Hw). split.
      * destruct (ev_clients _ _ _ (frame_evolves True _ _ Hfrd) _ _ Ho) as (o' & Ho' & Hle'). exists o'. split; [done|lia].
      * intros id w' Hw' Hid. destruct (frame_watcher _ _ _ _ Hfrd Hw') as (w & Hw0 & (_ & _ & Ha & Hdn & _)).
        destruct (Hw id w Hw0 Hid) as [Hact Hor]. split; [auto|]. destruct Hor; auto.
    + intros _. split_and!; [done| |].
      * intros [client id] w Hw. eapply Hina; [|exact Hw]. apply sorted_clients_elem, (ho_clients _ _ H3).
        destruct (frame_watcher _ _ _ _ Hfr Hw) as (w0 & Hw0 & _). destruct (do_watchers _ _ _ (ho_discovery _ _ H3) _ _ _ Hw0) as (_ & _ & o & Ho & _). by eexists.
      * intros b x Hx. destruct (ho_bindings _ _ H3 _ _ Hx) as [[Ka _ Kd _ _] _]. apply Kd; [done|by eapply R3|]. rewrite Ka. apply msum_none.
        intros id c Hc. unfold open_of. by rewrite (Hnone _ _ Hc).
    + rewrite Ed. cbn. intros Hdn. destruct (jo_closeDone _ Hj Hdn). congruence.
    + rewrite Ec, Eo. cbn. intros k' pc. rewrite lookup_insert_Some. intros [[_ <-]|[_ Hpc]]; [done|]. destruct (jo_closes _ Hj _ _ Hpc). congruence.
Qed.

(** *** Every reachable hub *)

Lemma hub_deliver_inv (f : string * Z -> Discovery -> option Discovery) key h h' : hub_inv h ->
  (forall d d', f key d = Some d' -> frame d d') ->
  (forall d d', discovery_ok (hb_limits h) (fun key => log_of h key.1) d -> f key d = Some d' -> discovery_ok (hb_limits h) (fun key => log_of h key.1) d') ->
  with_disc h (f key (hb_discovery h)) = Some h' -> hub_inv h'.
Proof.
  intros Hi Hf Hok E. unfold with_disc in E. destruct (f key (hb_discovery h)) as [d|] eqn:Ed; [|done]. injection E as <-.
  apply deliver_step_inv; [done|by eapply Hf|]. eapply Hok; [|done]. apply (proj1 Hi).
Qed.

Lemma hub_step_inv h h' : hub_step h h' -> hub_inv h -> hub_inv h'.
Proof.
  destruct 1; intros Hi; try by auto using bind_inv, binding_release_inv, hub_request_inv, hub_respond_inv, subscribe_inv, fence_begin_inv, close_begin_inv.
  - by eapply request_done_inv.
  - by eapply request_cancel_inv.
  - by eapply close_done_inv.
  - apply deliver_step_inv; [done|apply finish_frame|]. apply finish_ok; apply (proj1 Hi).
  - eapply (hub_deliver_inv deliver_take); eauto using take_frame, deliver_take_ok.
  - eapply (hub_deliver_inv deliver_send); eauto using send_frame, deliver_send_ok.
  - eapply (hub_deliver_inv delivered); eauto using delivered_frame. intros d d' Hd. eapply delivered_ok; [done|]. eapply log_numbered, (proj1 Hi).
  - eapply (hub_deliver_inv deliver_exit); eauto using exit_frame, deliver_exit_ok.
  - eapply (hub_deliver_inv watcherStopped); eauto using stopped_frame, watcherStopped_ok.
  - by eapply fence_join_inv.
  - by eapply close_join_inv.
Qed.

Lemma new_hub_inv limits h : NewPendingHub limits = Ok h -> hub_inv h.
Proof.
  unfold NewPendingHub. destruct (validatePendingLimits limits) eqn:Hv; [done|]. intros [= <-]. pose proof (limits_ok _ Hv) as Hl.
  pose proof (lf_clients _ Hl). pose proof (lf_pending _ Hl). pose proof (lf_pendingBytes _ Hl). pose proof (lf_runs _ Hl).
  pose proof (lf_observers _ Hl). pose proof (lf_one_bytes _ Hl). pose proof (lf_entries_all _ Hl). pose proof (lf_entries _ Hl). pose proof (lf_bytes _ Hl).
  split; split; cbn; try (intros *; rewrite lookup_empty; done); rewrite ?map_size_empty, ?msum_empty; try done; try lia.
  - intros runID b. split; [by rewrite lookup_empty|]. intros (x & Hx & _). by rewrite lookup_empty in Hx.
  - intros client. by rewrite !lookup_empty.
  - split; cbn; rewrite ?msum_empty; try done; try lia; try nia; intros *; by rewrite lookup_empty.
Qed.

Lemma hub_reachable_inv limits h : hub_reachable limits h -> hub_inv h.
Proof.
  intros (h0 & H0 & Hr). apply new_hub_inv in H0. induction Hr as [|h1 h2 h3 Hs _ IH]; [done|]. apply IH. by eapply hub_step_inv.
Qed.

(** *** What no operation undoes *)

(** A call keeps its request and, once it has one, its answer. *)
Definition call_kept (c c' : pendingCall) : Prop :=
  cl_value c' = cl_value c /\ cl_binding c' = cl_binding c /\ (forall r, cl_result c = Some r -> cl_result c' = Some r)
  /\ (cl_done c = true -> cl_done c' = true) /\ (forall r, cl_pc c = RqReturned r -> cl_pc c' = RqReturned r).
Definition calls_kept (m m' : gmap Z pendingCall) : Prop :=
  forall id c, m !! id = Some c -> exists c', m' !! id = Some c' /\ call_kept c c'.
#[export] Instance calls_kept_preorder : PreOrder calls_kept.
Proof.
  split.
  - intros m id c Hc. by exists c.
  - intros m1 m2 m3 K1 K2 id c Hc. destruct (K1 _ _ Hc) as (c1 & Hc1 & E1 & B1 & R1 & D1 & P1).
    destruct (K2 _ _ Hc1) as (c2 & Hc2 & E2 & B2 & R2 & D2 & P2). exists c2. split; [done|]. split_and!; try congruence; auto.
Qed.

Lemma kept_insert (m : gmap Z pendingCall) id c c' : m !! id = Some c -> call_kept c c' -> calls_kept m (<[id := c']> m).
Proof.
  intros Hc Hk id' c0 Hc0. destruct (decide (id' = id)) as [->|Hne].
  - exists c'. rewrite lookup_insert_eq. split; [done|]. by simplify_eq.
  - exists c0. by rewrite lookup_insert_ne.
Qed.
Lemma kept_new (m : gmap Z pendingCall) id c : m !! id = None -> calls_kept m (<[id := c]> m).
Proof. intros Hn id' c0 Hc0. exists c0. rewrite lookup_insert_ne by congruence. done. Qed.

Lemma finish_kept ex client p key id result h : hub_ok ex h -> hb_partitions h !! client = Some p -> pp_pending p !! key = Some id ->
  calls_kept (hb_calls h) (hb_calls (finishCallLocked client key id result h)).
Proof.
  intros Hh Hp Hk. destruct (finish_effect _ _ _ _ _ result _ Hh Hp Hk) as [(call & Hc & ->) _]. apply (kept_insert _ _ call); [done|].
  destruct (pending_call _ _ _ _ _ _ Hh Hp Hk) as (call' & _ & Hc' & Ho & _). assert (call' = call) as -> by congruence.
  split_and!; try done. intros r Hr. unfold open_call in Ho. by rewrite Hr in Ho.
Qed.

Lemma set_pc_kept id c pc h : hb_calls h !! id = Some c -> (forall r, cl_pc c = RqReturned r -> pc = RqReturned r) ->
  calls_kept (hb_calls h) (hb_calls (set_pc id pc h)).
Proof. intros Hc Hp. cbn. rewrite (alter_known _ _ _ c) by done. by apply (kept_insert _ _ c). Qed.

Lemma close_calls_kept ex : forall cs h, hub_ok ex h -> NoDup ((fun c => (c.1, c.2.1)) <$> cs) ->
  (forall c, c ∈ cs -> pending_at h c.1 c.2.1 = Some c.2.2) -> calls_kept (hb_calls h) (hb_calls (foldl close_call h cs)).
Proof.
  induction cs as [|[client [key id]] cs IH]; intros h Hh Hnd Hin; cbn [foldl]; [done|].
  cbn in Hnd. apply NoDup_cons in Hnd as [Hni Hnd]. pose proof (Hin (client, (key, id)) ltac:(by left)) as Hpk. cbn in Hpk.
  unfold pending_at in Hpk. destruct (hb_partitions h !! client) as [p|] eqn:Hp; [|done]. cbn in Hpk.
  destruct (finish_effect _ _ _ _ _ (PFailure ErrPendingHubClosed) _ Hh Hp Hpk) as [_ Hpend].
  unfold close_call at 2. cbn [fst snd]. etrans; [by eapply finish_kept|]. apply IH; [by eapply finish_call_ok|done|].
  intros c Hc. rewrite Hpend, bool_decide_eq_false_2; [apply Hin; by right|]. intros [E1 E2]. apply Hni. rewrite <- E1, <- E2.
  apply list_elem_of_fmap. by exists c.
Qed.

Lemma request_kept ctx scope request h : hub_inv h -> calls_kept (hb_calls h) (hb_calls (snd (Request_begin ctx scope request h))).
Proof.
  intros [Hh _]. unfold Request_begin. repeat case_match; try done. cbn [snd]. rewrite accept_fields by done. apply kept_new.
  destruct (hb_calls h !! hb_fresh h) as [c|] eqn:Hc; [|done]. destruct (ho_calls _ _ Hh _ _ Hc). lia.
Qed.

Lemma request_cancel_kept id h h' : hub_inv h -> Request_cancel id h = Some h' -> calls_kept (hb_calls h) (hb_calls h').
Proof.
  intros [Hh _] E. unfold Request_cancel in E. destruct (hb_calls h !! id) as [c|] eqn:Hc; [|done]. destruct (cl_pc c) eqn:Epc; try done.
  assert (forall r, calls_kept (hb_calls h) (hb_calls (set_pc id (RqJoins r) h))) as Hset by (intros r; eapply set_pc_kept; [done|congruence]).
  unfold complete in E. destruct (hb_bindings h !! cl_binding c) as [x|]; [|destruct (cl_result c); [injection E as <-; auto|done]].
  destruct (hb_partitions h !! bd_clientID x) as [p|] eqn:Hp; [|destruct (cl_result c); [injection E as <-; auto|done]].
  case_bool_decide as Hk; [|destruct (cl_result c); [injection E as <-; auto|done]]. injection E as <-.
  destruct (finish_effect _ _ _ _ _ (PFailure ErrPendingContext) _ Hh Hp Hk) as [(call & Hcall & Hcalls) _]. assert (call = c) as -> by congruence.
  etrans; [by eapply finish_kept|]. eapply set_pc_kept; [rewrite Hcalls; apply lookup_insert_eq|]. cbn. congruence.
Qed.

Lemma close_begin_kept k h : hub_inv h -> calls_kept (hb_calls h) (hb_calls (Close_begin k h)) /\ hb_limits (Close_begin k h) = hb_limits h.
Proof.
  intros [Hh _]. unfold Close_begin. destruct (hb_closed h); [done|]. set (h0 := set_closing _ _ _ _ h). set (bs := map snd _).
  assert (hub_ok ∅ h0) as H0 by (by apply closing_ok). pose proof (close_bindings_ok _ H0 bs) as H1. set (h1 := close_bindings bs h0) in *.
  assert (forall c, c ∈ close_calls h -> pending_at h1 c.1 c.2.1 = Some c.2.2) as Hin by (intros [client [key id]] Hc; by apply close_calls_elem in Hc).
  destruct (close_calls_ok _ _ h1 H1 (close_calls_nodup h) Hin) as (H2 & S2 & _). pose proof (close_calls_kept _ _ h1 H1 (close_calls_nodup h) Hin) as K2.
  destruct (remove_all_ok bs _ H2) as (H3 & S3 & _ & C3). set (h3 := foldl (fun h b => removeReleasedBindingLocked b h) _ bs) in *.
  destruct (close_watchers_ok (sorted_clients h3) h3 H3) as (d & -> & _). cbn. rewrite C3. split; [done|].
  rewrite (sj_limits _ _ S3), (sj_limits _ _ S2). done.
Qed.

Lemma disc_step h h' d : with_disc h d = Some h' -> exists d', h' = set_discovery d' h.
Proof. unfold with_disc. destruct d as [d'|]; [|done]. intros [= <-]. by exists d'. Qed.

Lemma partition_kept client h h1 : partitionLocked client h = Ok h1 -> hb_calls h1 = hb_calls h /\ hb_limits h1 = hb_limits h.
Proof. unfold partitionLocked. repeat case_match; by intros [= <-]. Qed.

Lemma hub_step_kept h h' : hub_step h h' -> hub_inv h -> calls_kept (hb_calls h) (hb_calls h') /\ hb_limits h' = hb_limits h.
Proof.
  destruct 1; intros Hi; try (match goal with H : with_disc _ _ = Some _ |- _ => by apply disc_step in H as [d ->] end); try done.
  - unfold BindRun. destruct (partitionLocked clientID h) as [h1|] eqn:Hpt; [destruct (partition_kept _ _ _ Hpt) as [Ec El]|];
      repeat case_match; cbn; rewrite ?Ec, ?El; done.
  - unfold Release. repeat case_match; try done. rewrite remove_calls. split; [done|]. by rewrite (sj_limits _ _ (remove_same _ _)).
  - split; [by apply request_kept|]. unfold Request_begin. repeat case_match; try done. cbn [snd]. apply (sj_limits _ _ (accept_same _ _ _ _ _ _)).
  - unfold Request_done in *. repeat case_match; simplify_eq; (split; [eapply set_pc_kept; [done|congruence]|done]).
  - split; [by eapply request_cancel_kept|]. unfold Request_cancel, complete in *.
    repeat case_match; simplify_eq; try done; apply (sj_limits _ _ (finish_same _ _ _ _ _)).
  - unfold close_done in *. repeat case_match; simplify_eq. split; [|done]. by eapply kept_insert.
  - unfold Respond. repeat case_match; try done. split; [by eapply finish_kept; [apply (proj1 Hi)|..]|apply (sj_limits _ _ (finish_same _ _ _ _ _))].
  - unfold Subscribe. destruct (partitionLocked clientID h) as [h1|] eqn:Hpt; [destruct (partition_kept _ _ _ Hpt) as [Ec El]|];
      repeat case_match; cbn; rewrite ?Ec, ?El; done.
  - unfold FenceObservers_begin. repeat case_match; done.
  - unfold fence_join in *. by repeat case_match; simplify_eq.
  - by apply close_begin_kept.
  - unfold Close_join in *. by repeat case_match; simplify_eq.
Qed.

Lemma reachable_limits limits h : hub_reachable limits h -> hb_limits h = limits.
Proof.
  intros (h0 & H0 & Hr). pose proof (new_hub_inv _ _ H0) as Hi. assert (hb_limits h0 = limits) as <-.
  { unfold NewPendingHub in H0. case_match; [done|]. by injection H0 as <-. }
  clear H0. induction Hr as [h|h1 h2 h3 Hs _ IH]; [done|]. destruct (hub_step_kept _ _ Hs Hi) as [_ <-]. apply IH. by eapply hub_step_inv.
Qed.

Lemma steps_kept h h' : rtc hub_step h h' -> hub_inv h -> hub_inv h' /\ calls_kept (hb_calls h) (hb_calls h').
Proof.
  induction 1 as [h|h1 h2 h3 Hs _ IH]; intros Hi; [done|]. destruct (IH (hub_step_inv _ _ Hs Hi)) as [Hi' Hk]. split; [done|].
  etrans; [apply (hub_step_kept _ _ Hs Hi)|done].
Qed.

(** ** Theorems *)

(** The interactions a client has pending. *)
Definition pending_set (h : PendingHub) (client : string) : gmap pendingKey Pending :=
  match hb_partitions h !! client with
  | Some p => omap (fun id => cl_value <$> hb_calls h !! id) (pp_pending p)
  | None => ∅
  end.

Lemma pending_set_replay ex h client : hub_ok ex h -> pending_set h client = replay (log_of h client).
Proof.
  intros Hh. unfold pending_set, log_of. destruct (hb_partitions h !! client) as [p|] eqn:Hp; [|done].
  pose proof (ho_partitions _ _ Hh _ _ Hp) as Hpo. apply map_eq. intros key. rewrite lookup_omap.
  destruct (pp_pending p !! key) as [id|] eqn:Hk; cbn [mbind option_bind].
  - destruct (po_pending _ _ _ _ _ Hpo _ _ Hk) as (call & x & Hc & _ & _ & Hr & _). by rewrite Hc, Hr.
  - symmetry. by apply (po_replay _ _ _ _ _ Hpo).
Qed.

(** C13: The counters of the hub are those of its pending set and stay within the
    limits it was built with; every pending call is open and every open call
    pending; revisions leave room to close what is open; nothing panics. *)
Theorem pending_accounting limits h : hub_reachable limits h ->
  hb_pendingCount h = msum (fun p => Z.of_nat (size (pp_pending p))) (hb_partitions h) /\ hb_pendingCount h <= pl_Pending limits
  /\ hb_pendingBytes h = msum pp_pendingBytes (hb_partitions h) /\ hb_pendingBytes h <= pl_PendingBytes limits
  /\ (forall client p, hb_partitions h !! client = Some p ->
        Z.of_nat (size (pp_pending p)) <= pl_PendingPerClient limits
        /\ pp_pendingBytes p = msum pendingValueBytes (pending_set h client) /\ pp_pendingBytes p <= pl_PendingBytesPerClient limits
        /\ 0 <= pp_revision p /\ pp_revision p + Z.of_nat (size (pp_pending p)) <= maxUint64)
  /\ (forall id c, hb_calls h !! id = Some c -> open_call c = true <-> exists client, pending_at h client (key_of (cl_value c)) = Some id)
  /\ hb_panicked h = false /\ dv_panicked (hb_discovery h) = false.
Proof.
  intros Hr. pose proof (reachable_limits _ _ Hr) as <-. destruct (hub_reachable_inv _ _ Hr) as [Hh _]. split_and!; try apply Hh.
  - intros client p Hp. pose proof (ho_partitions _ _ Hh _ _ Hp) as Hpo. split_and!; try apply Hpo.
    + rewrite (pending_set_replay _ _ _ Hh). unfold log_of. rewrite Hp. apply Hpo.
    + rewrite (po_revision _ _ _ _ _ Hpo). unfold lenZ. lia.
  - intros id c Hc. split.
    + intros Ho. destruct (ho_calls _ _ Hh _ _ Hc) as [[(x & Hx & _ & Hop) _ _ _] _]. destruct (Hop Ho) as (p & Hp & Hk).
      exists (bd_clientID x). unfold pending_at. by rewrite Hp.
    + intros [client Hk]. unfold pending_at in Hk. destruct (hb_partitions h !! client) as [p|] eqn:Hp; [|done].
      destruct (pending_call _ _ _ _ _ _ Hh Hp Hk) as (c' & x & Hc' & Ho & _). congruence.
Qed.

(** *** What an observer sees *)

Lemma replay_split (log : list Delta) n : foldl apply_delta (replay (take n log)) (drop n log) = replay log.
Proof. unfold replay. by rewrite <- foldl_app, take_drop. Qed.

Lemma replay_prefix (log out : list Delta) n : (n <= length log)%nat -> out `prefix_of` drop n log ->
  foldl apply_delta (replay (take n log)) out = replay (take (n + length out) log).
Proof.
  intros Hn [rest Hr]. unfold replay. rewrite <- foldl_app. f_equal. rewrite <- (take_drop n log) at 2. rewrite Hr, take_app_add'; [|rewrite length_take; lia].
  by rewrite take_app_length.
Qed.

(** C14: An observer that applies the deltas it received to its snapshot has the
    pending set of the revision it has reached; the deltas it received have
    consecutive revisions from its snapshot's; and while it is attached, what it
    received and what is queued for it lead to the current pending set. *)
Theorem observer_view_exact limits h client id w : hub_reachable limits h -> watchers_of h !! (client, id) = Some w ->
  let base := as_map (ps_pending (wt_snapshot w)) in
  NoDup (key_of <$> ps_pending (wt_snapshot w))
  /\ (forall i delta, wt_out w !! i = Some delta -> dl_revision delta = ps_revision (wt_snapshot w) + Z.of_nat i + 1)
  /\ (wt_active w = true -> foldl apply_delta base (stream w) = pending_set h client)
  /\ foldl apply_delta base (wt_out w) = replay (take (Z.to_nat (ps_revision (wt_snapshot w) + lenZ (wt_out w))) (log_of h client))
  /\ LastDelivered w <= ps_revision (wt_snapshot w) + lenZ (wt_out w) <= LastDelivered w + 1.
Proof.
  intros Hr Hw. destruct (hub_reachable_inv _ _ Hr) as [Hh _]. pose proof (ho_snapshots _ _ Hh _ _ _ Hw) as [[Hnd Hsorted] Hbase].
  pose proof (watcher_at _ _ _ _ _ (ho_discovery _ _ Hh) Hw) as Hwo. cbn [fst] in Hwo. pose proof (wo_snapshot _ _ _ Hwo) as Hrev.
  set (n := Z.to_nat (ps_revision (wt_snapshot w))) in *. assert (wt_out w `prefix_of` drop n (log_of h client)) as Hout.
  { etrans; [|apply (wo_stream _ _ _ Hwo)]. unfold stream. by apply prefix_app_r. }
  split_and!; [done| | | |unfold LastDelivered; rewrite (wo_last _ _ _ Hwo); destruct (wt_pc w); lia..].
  - intros i delta Hi. destruct Hout as [rest Hrest]. pose proof (lookup_app_l_Some _ rest _ _ Hi) as Hl. rewrite <- Hrest, lookup_drop in Hl.
    rewrite (log_numbered _ _ client Hh _ _ Hl). lia.
  - intros Ha. cbn zeta. rewrite Hbase, (wo_current _ _ _ Hwo Ha), (pending_set_replay _ _ _ Hh). apply replay_split.
  - cbn zeta. rewrite Hbase, replay_prefix; [|unfold lenZ in Hrev; lia|done]. do 2 f_equal. unfold lenZ in *. lia.
Qed.

(** *** Publication *)

Definition detached (err : PendingError) (w : Watcher) : Watcher :=
  mkWatcher (wt_client w) (wt_queue w) (wt_pc w) false (Some err) true (wt_lastDelivered w) 0 0 true (wt_out w) (wt_snapshot w).

(** What one publication does to a watcher of its client. *)
Definition offered (l : PendingLimits) (delta : Delta) (w : Watcher) : Watcher :=
  if wt_active w then match own_bounds l w delta with Some err => detached err w | None => queued l w delta end else w.

Lemma publish_others l client delta ids key : forall d, (key.1 = client -> key.2 ∉ ids) ->
  dv_watchers (foldl (publish_to l client delta) d ids) !! key = dv_watchers d !! key.
Proof.
  induction ids as [|id ids IH]; intros d Hk; [done|]. cbn. rewrite IH.
  - apply publish_to_other. intros ->. apply Hk; [done|]. by left.
  - intros E Hin. apply Hk; [done|]. by right.
Qed.

Lemma publish_to_exact l logs client delta d id w : limits_facts l -> discovery_ok l logs d -> is_Some (dv_clients d !! client) ->
  dv_watchers d !! (client, id) = Some w -> dv_watchers (publish_to l client delta d id) !! (client, id) = Some (offered l delta w).
Proof.
  intros Hl Hd [o Ho] Hw. unfold publish_to, offered. rewrite Hw, Ho. destruct (wt_active w) eqn:Ha.
  - rewrite (enqueue_exact _ _ _ _ _ _ _ Hd Hl Hw Ho Ha). destruct (own_bounds l w delta) as [e|].
    + unfold finishWatcherLocked. rewrite Hw, Ha. cbn. by rewrite lookup_insert_eq.
    + cbn. by rewrite lookup_insert_eq.
  - unfold enqueueLocked. rewrite Ha. done.
Qed.

Lemma publish_exact l logs client delta d c id w : limits_facts l -> discovery_ok l logs d -> dv_watchers d !! (c, id) = Some w ->
  dv_watchers (publish l client delta d) !! (c, id) = Some (if String.eqb c client then offered l delta w else w).
Proof.
  intros Hl Hd Hw. unfold publish. destruct (String.eqb_spec c client) as [->|Hne].
  - destruct (do_watchers _ _ _ Hd _ _ _ Hw) as (_ & _ & o & Ho & _). rewrite Ho. destruct (wt_active w) eqn:Ha.
    + assert (id ∈ sortedWatcherIDs (ob_watchers o)) as Hin by (apply sorted_ids, (oo_watchers _ _ _ _ (do_clients _ _ _ Hd _ _ Ho)); by exists w).
      pose proof (sorted_ids_nodup (ob_watchers o)) as Hnd. apply list_elem_of_split in Hin as (l1 & l2 & E). rewrite E in *.
      apply NoDup_app in Hnd as (Hnd1 & Hni & Hnd2). apply NoDup_cons in Hnd2 as [Hni2 _].
      rewrite foldl_app. cbn [foldl]. rewrite publish_others by done.
      destruct (publish_fold_ok l logs client delta l1 Hl Hnd1 d Hd) as (Hd1 & Hc1 & _); [by eexists|].
      eapply publish_to_exact; [done|done|done|]. rewrite publish_others; [done|]. intros _ Hin1. apply (Hni _ Hin1). by left.
    + unfold offered. rewrite Ha, publish_others; [done|]. cbn. intros _ Hin%sorted_ids.
      apply (oo_watchers _ _ _ _ (do_clients _ _ _ Hd _ _ Ho)) in Hin as (w' & Hw' & Ha'). congruence.
  - destruct (dv_clients d !! client); [|done]. by rewrite publish_others.
Qed.

(** C30: A publication reaches exactly the attached observers of its client: each
    queues the delta, or is detached because its own queue is full, whatever the
    other observers do; and with the default limits an observer with an empty
    queue takes every valid delta. *)
Theorem observers_isolated limits h client p kind value : hub_reachable limits h -> hb_partitions h !! client = Some p ->
  let delta := mkDelta (pp_revision p +64 1) kind value in
  (forall c id w, watchers_of h !! (c, id) = Some w ->
     watchers_of (publishLocked client kind value h) !! (c, id) = Some (if String.eqb c client then offered limits delta w else w))
  /\ (forall w, limits = DefaultPendingLimits -> InteractionScope_Validate (pe_scope value) = None ->
        InteractionRequest_Validate (pe_request value) = None -> wt_queuedCount w = 0 -> wt_queuedBytes w = 0 -> own_bounds limits w delta = None).
Proof.
  intros Hr Hp delta. pose proof (reachable_limits _ _ Hr) as <-. destruct (hub_reachable_inv _ _ Hr) as [Hh _]. split.
  - intros c id w Hw. unfold publishLocked. rewrite Hp. cbn. eapply publish_exact; [apply Hh|apply Hh|done].
  - intros w -> Hs Hq Hc Hb. unfold own_bounds. rewrite Hc, Hb. cbn [pl_ObserverQueueEntries pl_ObserverQueueBytes DefaultPendingLimits].
    assert (pendingDeltaBytes delta <= maximumPendingDeltaBytes) as Hle; [|change (0 >=? 64) with false; cbv iota].
    { revert Hs Hq. unfold InteractionScope_Validate, NewScope, InteractionRequest_Validate, NewInteractionRequest, validateInteractionJSON, token.
      unfold pendingDeltaBytes, pendingValueBytes, maximumPendingDeltaBytes. cbn [dl_pending delta].
      repeat (match goal with |- context [slen ?s >? ?n] => destruct (Z.gtb_spec (slen s) n) | |- context [negb ?b] => destruct (negb b) end; try done).
      all: repeat (case_match; try done). all: intros; lia. }
    destruct (Z.gtb_spec (pendingDeltaBytes delta) maximumPendingDeltaBytes); [lia|].
    destruct (Z.gtb_spec 0 (maximumPendingDeltaBytes - pendingDeltaBytes delta)); [lia|done].
Qed.

(** *** Answers *)

(** C25: [Respond] answers exactly the open call that the named run of that client
    has under the identifier, with that response, and closes no other; any
    refusal leaves the hub as it was. *)
Theorem respond_exact limits h clientID scope response : hub_reachable limits h ->
  match Respond clientID scope response h with
  | (Some _, h') => h' = h
  | (None, h') =>
      let key := (is_runID scope, ip_id response) in
      exists b x id call, hb_runs h !! is_runID scope = Some b /\ hb_bindings h !! b = Some x /\ bd_clientID x = clientID
        /\ hb_calls h !! id = Some call /\ cl_binding call = b /\ open_call call = true /\ key_of (cl_value call) = key
        /\ hb_calls h' = <[id := with_result (Some (PResponse response)) 1 call]> (hb_calls h)
        /\ forall c k, pending_at h' c k = if bool_decide (c = clientID /\ k = key) then None else pending_at h c k
  end
  /\ (forall b x id, boundedToken clientID = true -> InteractionScope_Validate scope = None -> InteractionResponse_Validate response = None ->
        hb_closed h = false -> hb_runs h !! is_runID scope = Some b -> hb_bindings h !! b = Some x -> bd_clientID x = clientID ->
        pending_at h clientID (is_runID scope, ip_id response) = Some id -> (Respond clientID scope response h).1 = None).
Proof.
  intros Hr. destruct (hub_reachable_inv _ _ Hr) as [Hh _]. split.
  - unfold Respond. destruct (negb (boundedToken clientID)); [done|]. destruct (InteractionScope_Validate scope); [done|].
    destruct (InteractionResponse_Validate response); [done|]. destruct (hb_closed h); [done|].
    destruct (hb_runs h !! is_runID scope) as [b|] eqn:Hrun; [|done]. cbn [mbind option_bind].
    destruct (hb_bindings h !! b) as [x|] eqn:Hb; [|done]. destruct (String.eqb_spec (bd_clientID x) clientID) as [Hcl|]; [|done]. cbn [negb].
    destruct (hb_partitions h !! clientID) as [p|] eqn:Hp; [|done]. destruct (pp_pending p !! _) as [id|] eqn:Hk; [|done].
    destruct (finish_effect _ _ _ _ _ (PResponse response) _ Hh Hp Hk) as [(call & Hc & Hcalls) Hpend].
    destruct (pending_call _ _ _ _ _ _ Hh Hp Hk) as (c' & y & Hc' & Ho & Hkey & Hy & Hycl). assert (c' = call) as -> by congruence.
    destruct (ho_calls _ _ Hh _ _ Hc) as [[(z & Hz & Hzr & _) Hch _ _] _].
    assert (hb_runs h !! is_runID scope = Some (cl_binding call)) as Hrun'.
    { apply (ho_runs _ _ Hh). exists z. split; [done|]. split; [rewrite Hzr; by injection Hkey|].
      destruct (bd_released z) eqn:Hrel; [|done]. exfalso. destruct (ho_bindings _ _ Hh _ _ Hz) as [[Ka Krel _ _ _] _]. destruct (Krel Hrel) as [_ Hz0].
      rewrite Ka in Hz0. pose proof (msum_delete (open_of (cl_binding call)) _ _ _ Hc) as Hm.
      assert (0 <= msum (open_of (cl_binding call)) (delete id (hb_calls h))) by (apply msum_nonneg; intros k y' _; unfold open_of; destruct (_ && _); lia).
      assert (open_of (cl_binding call) call = 1) by (unfold open_of; by rewrite Ho, Z.eqb_refl). lia. }
    exists b, x, id, call. split_and!; try done; [congruence|]. rewrite Hcalls. do 3 f_equal. rewrite Hch.
    unfold open_call in Ho. by destruct (cl_result call).
  - intros b x id Ht Hs Hv Hcl Hrun Hb Hbc Hpa. unfold Respond. rewrite Ht, Hs, Hv, Hcl, Hrun. cbn [mbind option_bind]. rewrite Hb, Hbc, String.eqb_refl. cbn [negb].
    unfold pending_at in Hpa. destruct (hb_partitions h !! clientID); [|done]. cbn [mbind option_bind] in Hpa. by destruct (pp_pending p !! _).
Qed.

(** An answer is final: whatever happens next, a call keeps its request and the
    answer it got, and the [Request] that returned returned that answer; a call
    that has an answer is no longer pending. *)
Theorem answer_final limits h h' id c r : hub_reachable limits h -> rtc hub_step h h' -> hb_calls h !! id = Some c -> cl_result c = Some r ->
  exists c', hb_calls h' !! id = Some c' /\ cl_value c' = cl_value c /\ cl_result c' = Some r
    /\ (forall r', cl_pc c' = RqReturned r' -> r' = r)
    /\ forall client key, pending_at h' client key <> Some id.
Proof.
  intros Hr Hs Hc Hres. pose proof (hub_reachable_inv _ _ Hr) as Hi. destruct (steps_kept _ _ Hs Hi) as [[Hh' _] Hk].
  destruct (Hk _ _ Hc) as (c' & Hc' & Ev & _ & Er & _). exists c'. specialize (Er _ Hres). split_and!; try done.
  - intros r' E. destruct (ho_calls _ _ Hh' _ _ Hc') as [[_ _ _ Hpc] _]. rewrite E in Hpc. congruence.
  - intros client key E. unfold pending_at in E. destruct (hb_partitions h' !! client) as [p|] eqn:Hp; [|done]. cbn in E.
    destruct (pending_call _ _ _ _ _ _ Hh' Hp E) as (c0 & x & Hc0 & Ho & _). assert (c0 = c') as -> by congruence.
    unfold open_call in Ho. by rewrite Er in Ho.
Qed.

(** *** Progress *)

Lemma joined_returns h id c r : hub_inv h -> hb_calls h !! id = Some c -> cl_pc c = RqJoins r -> cl_done c = true ->
  exists h', rtc hub_step h h' /\ exists c', hb_calls h' !! id = Some c' /\ cl_pc c' = RqReturned r.
Proof.
  intros Hi Hc Hpc Hd. exists (set_pc id (RqReturned r) h). split.
  - apply rtc_once, (step_request_done id). unfold Request_done. by rewrite Hc, Hpc, Hd.
  - exists (with_pc (RqReturned r) c). split; [|done]. cbn. rewrite (alter_known _ _ _ c) by done. apply lookup_insert_eq.
Qed.

Lemma joins_returns h id c r : hub_inv h -> hb_calls h !! id = Some c -> cl_pc c = RqJoins r ->
  exists h', rtc hub_step h h' /\ exists c', hb_calls h' !! id = Some c' /\ cl_pc c' = RqReturned r.
Proof.
  intros Hi Hc Hpc. destruct (cl_done c) eqn:Hd; [by eapply joined_returns|].
  destruct (ho_calls _ _ (proj1 Hi) _ _ Hc) as [[_ Hch _ Hres] _]. rewrite Hpc in Hres. rewrite Hres, Hd in Hch.
  destruct (close_done id h) as [h1|] eqn:E; [|unfold close_done in E; rewrite Hc, Hch in E; done].
  assert (hub_step h h1) as Hs by (by apply (step_close_done id)). pose proof (hub_step_inv _ _ Hs Hi) as Hi1.
  assert (exists c1, hb_calls h1 !! id = Some c1 /\ cl_pc c1 = RqJoins r /\ cl_done c1 = true) as (c1 & Hc1 & Hp1 & Hd1).
  { unfold close_done in E. rewrite Hc, Hch in E. injection E as <-. cbn. rewrite lookup_insert_eq. by eexists. }
  destruct (joined_returns _ id c1 r Hi1) as (h' & Hr' & Hc'); [done..|].
  exists h'. split; [|done]. by eapply rtc_l.
Qed.

(** A [Request] in progress is never stuck: once its context is done it returns,
    with the answer the call got or with the context's error. *)
Theorem request_returns limits h id c : hub_reachable limits h -> hb_calls h !! id = Some c ->
  exists h' c' r, rtc hub_step h h' /\ hb_calls h' !! id = Some c' /\ cl_pc c' = RqReturned r
    /\ (cl_result c = Some r \/ cl_result c = None /\ r = PFailure ErrPendingContext).
Proof.
  intros Hr Hc. pose proof (hub_reachable_inv _ _ Hr) as Hi. destruct (ho_calls _ _ (proj1 Hi) _ _ Hc) as [[(x & Hx & _ & Hop) _ _ Hpc] _].
  assert (forall r h1 c1, rtc hub_step h h1 -> hb_calls h1 !! id = Some c1 -> cl_pc c1 = RqJoins r ->
    exists h' c' r', rtc hub_step h h' /\ hb_calls h' !! id = Some c' /\ cl_pc c' = RqReturned r' /\ r' = r) as Hgo.
  { intros r h1 c1 Hs Hc1 Hp1. destruct (joins_returns h1 id c1 r) as (h' & Hs' & c' & Hc' & Hp'); [apply (steps_kept _ _ Hs Hi)|done|done|].
    exists h', c', r. split_and!; try done. by etrans. }
  destruct (cl_pc c) as [|r|r] eqn:Epc.
  - assert (exists r h1, Request_cancel id h = Some h1 /\ (exists c1, hb_calls h1 !! id = Some c1 /\ cl_pc c1 = RqJoins r)
      /\ (cl_result c = Some r \/ cl_result c = None /\ r = PFailure ErrPendingContext)) as (r & h1 & E & (c1 & Hc1 & Hp1) & Hres).
    { unfold Request_cancel, complete. rewrite Hc, Epc, Hx. destruct (cl_result c) as [r|] eqn:Hres.
      - assert (Hrun : exists c1, hb_calls (set_pc id (RqJoins r) h) !! id = Some c1 /\ cl_pc c1 = RqJoins r).
        { cbn. rewrite (alter_known _ _ _ c) by done. rewrite lookup_insert_eq. by eexists. }
        destruct (hb_partitions h !! bd_clientID x) as [p|] eqn:Hp; [|do 2 eexists; eauto]. rewrite bool_decide_eq_false_2; [do 2 eexists; eauto|].
        intros Hk. destruct (pending_call _ _ _ _ _ _ (proj1 Hi) Hp Hk) as (c0 & y & Hc0 & Ho & _). unfold open_call in Ho. simplify_eq. by rewrite Hres in Ho.
      - destruct Hop as (p & Hp & Hk); [by unfold open_call; rewrite Hres|]. rewrite Hp, bool_decide_eq_true_2 by done.
        destruct (finish_effect _ _ _ _ _ (PFailure ErrPendingContext) _ (proj1 Hi) Hp Hk) as [(c0 & Hc0 & Hcalls) _].
        do 2 eexists. split; [done|]. split; [|by right]. unfold set_pc. cbn [hb_calls set_calls]. rewrite Hcalls.
        rewrite lookup_alter_eq, lookup_insert_eq. by eexists. }
    destruct (Hgo r h1 c1) as (h' & c' & r' & ? & ? & ? & ->); [by apply rtc_once, (step_request_cancel id)|done|done|]. exists h', c', r. by split_and!.
  - destruct (Hgo r h c) as (h' & c' & r' & ? & ? & ? & ->); [done..|]. exists h', c', r. split_and!; try done. by left.
  - exists h, c, r. split_and!; try done. by left.
Qed.

(** *** Bindings, fences and [Close] *)

(** A run is bound to the one binding that is not released; a binding counts the
    calls it holds open and is released exactly when it refuses requests and none
    of its calls is open. *)
Theorem binding_lifetime limits h : hub_reachable limits h ->
  (forall runID b, hb_runs h !! runID = Some b <-> exists x, hb_bindings h !! b = Some x /\ bd_runID x = runID /\ bd_released x = false)
  /\ (forall b x, hb_bindings h !! b = Some x ->
        bd_active x = msum (open_of b) (hb_calls h)
        /\ (bd_released x = true <-> bd_accepting x = false /\ forall id c, hb_calls h !! id = Some c -> cl_binding c = b -> open_call c = false)).
Proof.
  intros Hr. destruct (hub_reachable_inv _ _ Hr) as [Hh _]. split; [apply Hh|]. intros b x Hx. destruct (ho_bindings _ _ Hh _ _ Hx) as [[Ka Kr Kd _ _] _].
  split; [done|]. split.
  - intros Hrel. destruct (Kr Hrel) as [Hacc Hz]. split; [done|]. intros id c Hc Hb. destruct (open_call c) eqn:Ho; [|done]. exfalso.
    pose proof (msum_delete (open_of b) _ _ _ Hc) as Hm.
    assert (0 <= msum (open_of b) (delete id (hb_calls h))) by (apply msum_nonneg; intros k y _; unfold open_of; destruct (_ && _); lia).
    assert (open_of b c = 1) by (unfold open_of; by rewrite Ho, Hb, Z.eqb_refl). lia.
  - intros [Hacc Hnone]. apply Kd; [done|done|]. rewrite Ka. apply msum_none. intros id c Hc. unfold open_of. destruct (Z.eqb_spec (cl_binding c) b) as [E|E].
    + by rewrite (Hnone _ _ Hc E).
    + by rewrite andb_false_r.
Qed.

(** C24: When [FenceObservers] has returned, the observers there were when it began
    have ended.  When [Close] has returned, every request has its answer, every
    binding is released, every delivery goroutine has ended, and the hub refuses
    whatever is asked of it. *)
Theorem joins_complete limits h : hub_reachable limits h ->
  (forall k f id w, hb_fences h !! k = Some f -> fc_returned f = true -> watchers_of h !! (fc_client f, id) = Some w -> id <= fc_upto f ->
     wt_active w = false /\ watcher_done w = true)
  /\ (forall k, hb_closes h !! k = Some ClReturned ->
        (forall id c, hb_calls h !! id = Some c -> is_Some (cl_result c)) /\ hb_runs h = ∅ /\ hb_pendingCount h = 0
        /\ (forall key w, watchers_of h !! key = Some w -> wt_active w = false /\ wt_pc w = DvStopped)
        /\ (forall ctx clientID scope request response,
              is_ok (fst (BindRun clientID scope h)) = false /\ is_ok (fst (Request_begin ctx scope request h)) = false /\ is_ok (fst (Subscribe ctx clientID h)) = false
              /\ is_Some (fst (Respond clientID scope response h)))).
Proof.
  intros Hr. pose proof (hub_reachable_inv _ _ Hr) as [Hh Hj]. split.
  - intros k f id w Hf Hret Hw Hid. destruct (jo_fences _ Hj _ _ Hf) as [_ Hall]. destruct (Hall id w Hw Hid) as [? [[_ ?]|?]]; [congruence|done].
  - intros k Hk. destruct (jo_closes _ Hj _ _ Hk) as [Hcl Hdone]. destruct (jo_closeDone _ Hj (Hdone eq_refl)) as [_ Hst].
    destruct (jo_closed _ Hj Hcl) as (Hcalls & Hina & Hrel). split_and!.
    + intros id c Hc. specialize (Hcalls _ _ Hc). unfold open_call in Hcalls. destruct (cl_result c); [by eexists|done].
    + apply map_empty. intros runID. destruct (hb_runs h !! runID) as [b|] eqn:Hb; [|done]. apply (ho_runs _ _ Hh) in Hb as (x & Hx & _ & Hn).
      by rewrite (Hrel _ _ Hx) in Hn.
    + rewrite (ho_count _ _ Hh). apply msum_none. intros client p Hp. assert (pp_pending p = ∅) as ->; [|by rewrite map_size_empty].
      apply map_empty. intros key. pose proof (closed_nothing_pending h client key (conj Hh Hj) Hcl) as Hn. unfold pending_at in Hn. by rewrite Hp in Hn.
    + eauto.
    + intros ctx clientID scope request response. unfold BindRun, Request_begin, Subscribe, Respond. rewrite Hcl.
      split_and!; repeat case_match; try done; by eexists.
Qed.

(** *** A hub with one client, one run and one observer *)

Definition sample_scope : InteractionScope := mkInteractionScope "run-1".
Definition sample_request : InteractionRequest := mkInteractionRequest "ask-1" "confirm" "proceed?" "{}".
Definition sample_response : InteractionResponse := mkInteractionResponse "ask-1" "true".
Definition hub_0 : PendingHub := match NewPendingHub DefaultPendingLimits with Ok h => h | Err _ => mkHub DefaultPendingLimits 0 0 ∅ ∅ true true ∅ ∅ (mkDiscovery 0 0 0 0 0 ∅ ∅ true) ∅ ∅ true 0 end.
Definition hub_1 : PendingHub := snd (BindRun "client" sample_scope hub_0).
Definition hub_2 : PendingHub := snd (Subscribe CtxLive "client" hub_1).
Definition hub_3 : PendingHub := snd (Request_begin CtxLive sample_scope sample_request hub_2).
Definition hub_4 : PendingHub := snd (Respond "client" sample_scope sample_response hub_3).
Definition or_hub (h : PendingHub) (o : option PendingHub) : PendingHub := match o with Some h' => h' | None => h end.
Definition hub_5 : PendingHub := or_hub hub_4 (with_disc hub_4 (deliver_take ("client"%string, 1) (hb_discovery hub_4))).
Definition hub_6 : PendingHub := or_hub hub_5 (with_disc hub_5 (deliver_send ("client"%string, 1) (hb_discovery hub_5))).
Definition hub_7 : PendingHub := or_hub hub_6 (with_disc hub_6 (delivered ("client"%string, 1) (hb_discovery hub_6))).
Definition hub_8 : PendingHub := or_hub hub_7 (close_done 1 hub_7).
Definition hub_9 : PendingHub := snd (FenceObservers_begin "client" 0 hub_8).
Definition hub_10 : PendingHub := or_hub hub_9 (with_disc hub_9 (deliver_exit ("client"%string, 1) (hb_discovery hub_9))).
Definition hub_11 : PendingHub := or_hub hub_10 (fence_join 0 hub_10).
Definition hub_12 : PendingHub := or_hub hub_11 (with_disc hub_11 (watcherStopped ("client"%string, 1) (hb_discovery hub_11))).
Definition hub_13 : PendingHub := Close_begin 0 hub_12.
Definition hub_14 : PendingHub := or_hub hub_13 (Close_join 0 hub_13).

Lemma hub_0_reachable : hub_reachable DefaultPendingLimits hub_0.
Proof. exists hub_0. split; [vm_compute; reflexivity|apply rtc_refl]. Qed.
Lemma hub_reachable_step limits h h' : hub_reachable limits h -> hub_step h h' -> hub_reachable limits h'.
Proof. intros (h0 & H0 & Hr) Hs. exists h0. split; [done|]. by eapply rtc_r. Qed.
Lemma hub_3_reachable : hub_reachable DefaultPendingLimits hub_3.
Proof.
  apply (hub_reachable_step _ hub_2); [|apply step_request]. apply (hub_reachable_step _ hub_1); [|apply step_subscribe].
  apply (hub_reachable_step _ hub_0); [apply hub_0_reachable|apply step_bind].
Qed.
Lemma hub_7_reachable : hub_reachable DefaultPendingLimits hub_7.
Proof.
  apply (hub_reachable_step _ hub_6); [|apply (step_delivered ("client"%string, 1)); vm_compute; reflexivity].
  apply (hub_reachable_step _ hub_5); [|apply (step_send ("client"%string, 1)); vm_compute; reflexivity].
  apply (hub_reachable_step _ hub_4); [|apply (step_take ("client"%string, 1)); vm_compute; reflexivity].
  apply (hub_reachable_step _ hub_3); [apply hub_3_reachable|apply step_respond].
Qed.
Lemma hub_14_reachable : hub_reachable DefaultPendingLimits hub_14.
Proof.
  apply (hub_reachable_step _ hub_13); [|apply (step_close_join 0); vm_compute; reflexivity].
  apply (hub_reachable_step _ hub_12); [|apply (step_close 0); vm_compute; reflexivity].
  apply (hub_reachable_step _ hub_11); [|apply (step_stopped ("client"%string, 1)); vm_compute; reflexivity].
  apply (hub_reachable_step _ hub_10); [|apply (step_fence_join 0); vm_compute; reflexivity].
  apply (hub_reachable_step _ hub_9); [|apply (step_exit ("client"%string, 1)); vm_compute; reflexivity].
  apply (hub_reachable_step _ hub_8); [|apply step_fence; [vm_compute; reflexivity|intros E; vm_compute in E; discriminate]].
  apply (hub_reachable_step _ hub_7); [|apply (step_close_done 1); vm_compute; reflexivity]. apply hub_7_reachable.
Qed.

Lemma pending_accounting_witness : hub_reachable DefaultPendingLimits hub_3 /\ hb_pendingCount hub_3 = 1 /\ hb_pendingCount hub_3 <= 1024.
Proof.
  split; [exact hub_3_reachable|]. split; [vm_compute; reflexivity|]. exact (proj1 (proj2 (pending_accounting _ _ hub_3_reachable))).
Defined.

Definition sample_watcher : Watcher := match watchers_of hub_7 !! ("client"%string, 1) with Some w => w | None => new_watcher "" (mkPendingSnapshot 0 []) end.
Lemma observer_view_exact_witness : lenZ (wt_out sample_watcher) = 1 /\ lenZ (stream sample_watcher) = 2
  /\ foldl apply_delta (as_map (ps_pending (wt_snapshot sample_watcher))) (stream sample_watcher) = pending_set hub_7 "client".
Proof.
  split; [vm_compute; reflexivity|]. split; [vm_compute; reflexivity|].
  refine (proj1 (proj2 (proj2 (observer_view_exact _ _ "client" 1 sample_watcher hub_7_reachable _))) _); vm_compute; reflexivity.
Defined.

Definition sample_partition : pendingPartition := match hb_partitions hub_3 !! "client"%string with Some p => p | None => mkPartition 0 0 0 ∅ [] end.
Lemma observers_isolated_witness :
  own_bounds DefaultPendingLimits (new_watcher "client" (mkPendingSnapshot 0 [])) (mkDelta (pp_revision sample_partition +64 1) DeltaOpened (mkPending sample_scope sample_request)) = None
  /\ pp_revision sample_partition = 1.
Proof.
  split; [|vm_compute; reflexivity].
  refine (proj2 (observers_isolated _ _ "client" sample_partition DeltaOpened (mkPending sample_scope sample_request) hub_3_reachable _)
    (new_watcher "client" (mkPendingSnapshot 0 [])) _ _ _ _ _); vm_compute; reflexivity.
Defined.

Lemma respond_exact_witness : (Respond "client" sample_scope sample_response hub_3).1 = None.
Proof.
  refine (proj2 (respond_exact _ _ "client" sample_scope sample_response hub_3_reachable) 0 (mkBinding "client" "run-1" true 1 false false) 1 _ _ _ _ _ _ _ _);
    vm_compute; reflexivity.
Defined.

Definition sample_call : pendingCall := mkCall (mkPending sample_scope sample_request) 0 (Some (PResponse sample_response)) false 1 RqWaits.
Lemma answer_final_witness : rtc hub_step hub_7 hub_8 /\ exists c', hb_calls hub_8 !! 1 = Some c' /\ cl_result c' = Some (PResponse sample_response).
Proof.
  assert (rtc hub_step hub_7 hub_8) as Hs by (apply rtc_once, (step_close_done 1); vm_compute; reflexivity). split; [exact Hs|].
  destruct (answer_final _ _ _ 1 sample_call (PResponse sample_response) hub_7_reachable Hs) as (c' & Hc' & _ & Hr & _); [vm_compute; reflexivity..|].
  exists c'. split; [exact Hc'|exact Hr].
Defined.

Lemma request_returns_witness : exists h' c', rtc hub_step hub_7 h' /\ hb_calls h' !! 1 = Some c' /\ cl_pc c' = RqReturned (PResponse sample_response).
Proof.
  destruct (request_returns _ _ 1 sample_call hub_7_reachable) as (h' & c' & r & Hs & Hc & Hp & [E|[E _]]);
    [vm_compute; reflexivity| |discriminate E]. injection E as <-. exists h', c'. split; [exact Hs|]. split; [exact Hc|exact Hp].
Defined.

Lemma binding_lifetime_witness : hb_runs hub_3 !! "run-1"%string = Some 0 /\ bd_released (mkBinding "client" "run-1" true 1 false false) = false
  /\ 1 = msum (open_of 0) (hb_calls hub_3).
Proof.
  split; [apply (proj1 (binding_lifetime _ _ hub_3_reachable)); exists (mkBinding "client" "run-1" true 1 false false); split; [vm_compute; reflexivity|]; split; reflexivity|].
  split; [reflexivity|].
  refine (proj1 (proj2 (binding_lifetime _ _ hub_3_reachable) 0 (mkBinding "client" "run-1" true 1 false false) _)). vm_compute. reflexivity.
Defined.

Lemma joins_complete_witness : hb_runs hub_14 = ∅ /\ hb_closes hub_14 !! 0 = Some ClReturned
  /\ exists w, watchers_of hub_14 !! ("client"%string, 1) = Some w /\ watcher_done w = true.
Proof.
  destruct (joins_complete _ _ hub_14_reachable) as [Hf Hc]. split; [apply (Hc 0); vm_compute; reflexivity|]. split; [vm_compute; reflexivity|].
  destruct (watchers_of hub_14 !! ("client"%string, 1)) as [w|] eqn:Hw; [|vm_compute in Hw; discriminate].
  exists w. split; [reflexivity|]. refine (proj2 (Hf 0 (mkFence "client" 1 [1] true) 1 w _ _ Hw _)); [vm_compute; reflexivity|reflexivity|cbn; lia].
Defined.
