(* ===== verification/CommonContract.v ===== *)
(** The shared wire contract (src/common/v1/contract.go): protocol version,
    capability and limit negotiation, and the validators of build identities,
    health summaries and typed statuses.

    A Protobuf message is a record of its fields, a pointer to one an [option];
    a getter on nil gives the zero value.  Enumerations are open, so they stay
    numbers.  Error texts are modelled: a refusal travels to the peer as the
    message of a status, which must itself be a valid status. *)
From Stdlib Require Import ZArith Lia.
From stdpp Require Import base list strings pretty sorting.
From S2P Require Import Prelude GoText GoOrder.
Open Scope Z_scope.

Definition ProtocolMajor : Z := 1.
Definition ProtocolMinimumMinor : Z := 0.
Definition ProtocolMinor : Z := 3.
Definition ProtocolPatch : Z := 0.
Definition maximumTokenBytes : Z := 256.
Definition maximumStatusBytes : Z := 2048.

(** ** Messages *)

Record ProtocolVersion := mkVersion { pv_major : Z; pv_minor : Z; pv_patch : Z }.
Record ProtocolRange := mkRange { pr_minimum : option ProtocolVersion; pr_maximum : option ProtocolVersion }.
Record BuildIdentity := mkBuild { bi_component : string; bi_version : string; bi_commit : string; bi_goVersion : string }.
Record CapabilitySet := mkCapabilities { cs_names : list string }.
Record Limits := mkWireLimits {
  wl_maxMessageBytes : Z;
  wl_maxCollectionItems : Z;
  wl_maxReplayEvents : Z;
  wl_maxReplayBytes : Z;
  wl_maxConcurrentStreams : Z;
  wl_maxActiveRuns : Z
}.
Record Health := mkHealth {
  he_state : Z;
  he_degradedReasons : list string;
  he_activeRuns : Z;
  he_limits : option Limits
}.
Record VersionMismatch := mkVersionMismatch { vm_client : option ProtocolRange; vm_server : option ProtocolRange }.
Record CapabilityMismatch := mkCapabilityMismatch { cm_required : list string; cm_available : list string; cm_missing : list string }.
Record ReplayBounds := mkReplayBounds { rb_requestedAfter : Z; rb_earliest : Z; rb_latest : Z; rb_recovery : Z }.
Record Overload := mkOverload { ov_resource : string; ov_limit : Z; ov_observed : Z }.
Record StaleClient := mkStaleClient { sc_expectedEpoch : Z; sc_observedEpoch : Z }.
Record SnapshotVersionMismatch := mkSnapshotVersionMismatch { sv_expected : string; sv_observed : string }.
Record UncertainOperation := mkUncertainOperation { uo_operationID : string; uo_operationKind : string }.

Inductive StatusDetail :=
| Status_VersionMismatch (value : option VersionMismatch)
| Status_CapabilityMismatch (value : option CapabilityMismatch)
| Status_ReplayBounds (value : option ReplayBounds)
| Status_Overload (value : option Overload)
| Status_StaleClient (value : option StaleClient)
| Status_SnapshotVersionMismatch (value : option SnapshotVersionMismatch)
| Status_UncertainOperation (value : option UncertainOperation).

Record Status := mkStatus {
  st_code : Z;
  st_message : string;
  st_retryable : bool;
  st_operationID : string;
  st_detail : option StatusDetail
}.

Definition ERROR_CODE_UNSPECIFIED : Z := 0.
Definition ERROR_CODE_OK : Z := 1.
Definition ERROR_CODE_INVALID_ARGUMENT : Z := 2.
Definition ERROR_CODE_INCOMPATIBLE_VERSION : Z := 4.
Definition ERROR_CODE_MISSING_CAPABILITY : Z := 5.
Definition ERROR_CODE_NOT_FOUND : Z := 6.
Definition ERROR_CODE_OUT_OF_RANGE : Z := 7.
Definition ERROR_CODE_RESOURCE_EXHAUSTED : Z := 8.
Definition ERROR_CODE_UNAVAILABLE : Z := 9.
Definition ERROR_CODE_CONFLICT : Z := 12.
Definition ERROR_CODE_STALE_CLIENT : Z := 13.
Definition ERROR_CODE_UNCERTAIN_OPERATION : Z := 14.
Definition ERROR_CODE_SNAPSHOT_VERSION_MISMATCH : Z := 15.
Definition ERROR_CODE_INTERNAL : Z := 16.

Definition ErrorCode_name : list string :=
  ["ERROR_CODE_UNSPECIFIED"; "ERROR_CODE_OK"; "ERROR_CODE_INVALID_ARGUMENT"; "ERROR_CODE_UNAUTHENTICATED";
   "ERROR_CODE_INCOMPATIBLE_VERSION"; "ERROR_CODE_MISSING_CAPABILITY"; "ERROR_CODE_NOT_FOUND";
   "ERROR_CODE_OUT_OF_RANGE"; "ERROR_CODE_RESOURCE_EXHAUSTED"; "ERROR_CODE_UNAVAILABLE";
   "ERROR_CODE_CANCELLED"; "ERROR_CODE_DEADLINE_EXCEEDED"; "ERROR_CODE_CONFLICT"; "ERROR_CODE_STALE_CLIENT";
   "ERROR_CODE_UNCERTAIN_OPERATION"; "ERROR_CODE_SNAPSHOT_VERSION_MISMATCH"; "ERROR_CODE_INTERNAL"]%string.
Definition ErrorCode_String (code : Z) : string :=
  if code <? 0 then pretty code else default (pretty code) (ErrorCode_name !! Z.to_nat code).

Definition HEALTH_STATE_STARTING : Z := 1.
Definition HEALTH_STATE_READY : Z := 2.
Definition HEALTH_STATE_DEGRADED : Z := 3.
Definition HEALTH_STATE_STOPPING : Z := 4.

(** ** Errors *)

(** A Go [error]: a text, or the typed status of [AsError]. *)
Inductive error := Errorf (text : string) | StatusError (status : Status).
Definition Error (e : error) : string :=
  match e with Errorf text => text | StatusError status => st_message status end.

(** [when b text]: refuse with [text] where [b] holds.  [c >>> k]: return the
    error of [c], go on with [k] where there is none.  [wrap] is
    [fmt.Errorf("<prefix>%w", err)]. *)
Definition when (b : bool) (text : string) : option error := if b then Some (Errorf text) else None.
Notation "c '>>>' k" := (match c with Some err => Some err | None => k end) (at level 60, right associativity).
Definition wrap (prefix : string) (c : option error) : option error :=
  option_map (fun e => Errorf (prefix +:+ Error e)) c.

(** ** Getters *)

Definition GetMajor (v : option ProtocolVersion) : Z := match v with Some v => pv_major v | None => 0 end.
Definition GetMinor (v : option ProtocolVersion) : Z := match v with Some v => pv_minor v | None => 0 end.
Definition GetPatch (v : option ProtocolVersion) : Z := match v with Some v => pv_patch v | None => 0 end.
Definition GetMinimum (r : option ProtocolRange) : option ProtocolVersion := r ≫= pr_minimum.
Definition GetMaximum (r : option ProtocolRange) : option ProtocolVersion := r ≫= pr_maximum.
Definition GetNames (c : option CapabilitySet) : list string := match c with Some c => cs_names c | None => [] end.
Definition GetCode (s : option Status) : Z := match s with Some s => st_code s | None => 0 end.

(** ** Tokens *)

Definition validateToken (label value : string) (maximum : Z) : option error :=
  when (negb (trimmed_nonempty value)) (label +:+ " must be non-empty without surrounding whitespace")
  >>> when (negb (utf8_valid value)) (label +:+ " must be valid UTF-8")
  >>> when (contains_any value [0; 13; 10; 9]) (label +:+ " must not contain control characters")
  >>> when (slen value >? maximum) (label +:+ " exceeds " +:+ pretty maximum +:+ " bytes").

(** The loop over names that must be tokens, sorted and unique. *)
Fixpoint sorted_tokens (label unordered : string) (maximum : Z) (index : N) (previous : option string) (names : list string)
  : option error :=
  match names with
  | [] => None
  | name :: rest =>
      wrap (label +:+ " " +:+ pretty index +:+ ": ") (validateToken label name maximum)
      >>> when (match previous with Some p => String.leb name p | None => false end) unordered
      >>> sorted_tokens label unordered maximum (N.succ index) (Some name) rest
  end.

(** ** Versions *)

Definition SupportedProtocolRange : ProtocolRange :=
  mkRange (Some (mkVersion ProtocolMajor ProtocolMinimumMinor ProtocolPatch))
          (Some (mkVersion ProtocolMajor ProtocolMinor ProtocolPatch)).

Definition OKStatus : Status := mkStatus ERROR_CODE_OK "" false "" None.
Definition invalidArgumentStatus (message : string) : Status := mkStatus ERROR_CODE_INVALID_ARGUMENT message false "" None.
Definition internalStatus (message : string) : Status := mkStatus ERROR_CODE_INTERNAL message false "" None.

Definition validateProtocolVersion (value : option ProtocolVersion) : option error :=
  when (match value with None => true | Some v => pv_major v =? 0 end) "protocol version requires a positive major".

Fixpoint compare_pairs (pairs : list (Z * Z)) : Z :=
  match pairs with
  | [] => 0
  | (l, r) :: rest => if l <? r then -1 else if l >? r then 1 else compare_pairs rest
  end.
Definition compareVersion (left right : option ProtocolVersion) : Z :=
  compare_pairs [(GetMajor left, GetMajor right); (GetMinor left, GetMinor right); (GetPatch left, GetPatch right)].

Definition maxVersion (left right : option ProtocolVersion) : option ProtocolVersion :=
  if compareVersion left right >=? 0 then left else right.
Definition minVersion (left right : option ProtocolVersion) : option ProtocolVersion :=
  if compareVersion left right <=? 0 then left else right.

Definition ValidateProtocolRange (value : option ProtocolRange) : option error :=
  when (match value with
        | Some r => bool_decide (pr_minimum r = None) || bool_decide (pr_maximum r = None)
        | None => true
        end) "protocol range requires minimum and maximum versions"
  >>> wrap "minimum protocol version: " (validateProtocolVersion (GetMinimum value))
  >>> wrap "maximum protocol version: " (validateProtocolVersion (GetMaximum value))
  >>> when (compareVersion (GetMinimum value) (GetMaximum value) >? 0) "protocol range minimum exceeds maximum"
  >>> when (negb (GetMajor (GetMinimum value) =? GetMajor (GetMaximum value)))
        "one protocol range cannot cross major versions".

Definition NegotiateProtocol (client server : option ProtocolRange) : option ProtocolVersion * Status :=
  match ValidateProtocolRange client with
  | Some err => (None, invalidArgumentStatus (Error err))
  | None =>
      match ValidateProtocolRange server with
      | Some _ => (None, internalStatus "server protocol range is invalid")
      | None =>
          let minimum := maxVersion (GetMinimum client) (GetMinimum server) in
          let maximum := minVersion (GetMaximum client) (GetMaximum server) in
          if negb (GetMajor minimum =? GetMajor maximum) || (compareVersion minimum maximum >? 0) then
            (None, mkStatus ERROR_CODE_INCOMPATIBLE_VERSION "client and server protocol ranges do not overlap" false ""
                     (Some (Status_VersionMismatch (Some (mkVersionMismatch client server)))))
          else (maximum, OKStatus)
      end
  end.

(** ** Capabilities *)

Definition ValidateCapabilities (value : option CapabilitySet) : option error :=
  when (bool_decide (value = None)) "capability set is required"
  >>> when (lenZ (GetNames value) >? 1024) "capability count exceeds 1024"
  >>> sorted_tokens "capability" "capabilities must be sorted and unique" maximumTokenBytes 0 None (GetNames value).

Definition intersection (left right : list string) : list string := List.filter (found right) left.
Definition difference (left right : list string) : list string := List.filter (fun name => negb (found right name)) left.
Definition isSubset (subset superset : list string) : bool := (lenZ (difference subset superset) =? 0).

Fixpoint validate_candidates (candidates : list (string * option CapabilitySet)) : option string :=
  match candidates with
  | [] => None
  | (label, value) :: rest =>
      match ValidateCapabilities value with
      | Some err => Some (label +:+ " capabilities: " +:+ Error err)
      | None => validate_candidates rest
      end
  end.

Definition NegotiateCapabilities (clientSupported clientRequired serverSupported : option CapabilitySet)
  : option CapabilitySet * Status :=
  match validate_candidates [("client supported"%string, clientSupported); ("client required"%string, clientRequired);
                             ("server supported"%string, serverSupported)] with
  | Some message => (None, invalidArgumentStatus message)
  | None =>
      if negb (isSubset (GetNames clientRequired) (GetNames clientSupported)) then
        (None, invalidArgumentStatus "required capabilities must be client-supported")
      else
        let enabled := intersection (GetNames clientSupported) (GetNames serverSupported) in
        let missing := difference (GetNames clientRequired) (GetNames serverSupported) in
        if negb (lenZ missing =? 0) then
          (None, mkStatus ERROR_CODE_MISSING_CAPABILITY "required client capabilities are unavailable" false ""
                   (Some (Status_CapabilityMismatch (Some (mkCapabilityMismatch
                      (GetNames clientRequired) (GetNames serverSupported) missing)))))
        else (Some (mkCapabilities enabled), OKStatus)
  end.

(** ** Limits *)

Definition limit_values (l : Limits) : list Z :=
  [wl_maxMessageBytes l; wl_maxCollectionItems l; wl_maxReplayEvents l; wl_maxReplayBytes l;
   wl_maxConcurrentStreams l; wl_maxActiveRuns l].

Definition ValidateLimits (value : option Limits) : option error :=
  match value with
  | None => Some (Errorf "protocol limits are required")
  | Some l =>
      when (existsb (Z.eqb 0) (limit_values l)) "protocol limits must all be positive"
      >>> when (wl_maxReplayEvents l >? wl_maxReplayBytes l) "replay event count cannot exceed the replay byte bound"
  end.

Definition NegotiateLimits (requested available : option Limits) : option Limits * Status :=
  match ValidateLimits requested with
  | Some err => (None, invalidArgumentStatus ("requested limits: " +:+ Error err))
  | None =>
      match ValidateLimits available, requested, available with
      | None, Some r, Some a =>
          (Some (mkWireLimits
             (Z.min (wl_maxMessageBytes r) (wl_maxMessageBytes a))
             (Z.min (wl_maxCollectionItems r) (wl_maxCollectionItems a))
             (Z.min (wl_maxReplayEvents r) (wl_maxReplayEvents a))
             (Z.min (wl_maxReplayBytes r) (wl_maxReplayBytes a))
             (Z.min (wl_maxConcurrentStreams r) (wl_maxConcurrentStreams a))
             (Z.min (wl_maxActiveRuns r) (wl_maxActiveRuns a))), OKStatus)
      | _, _, _ => (None, internalStatus "server limits are invalid")
      end
  end.

(** ** Builds and health *)

Fixpoint validate_fields (maximum : Z) (fields : list (string * string)) : option error :=
  match fields with
  | [] => None
  | (label, value) :: rest => validateToken label value maximum >>> validate_fields maximum rest
  end.

Definition ValidateBuildIdentity (value : option BuildIdentity) : option error :=
  match value with
  | None => Some (Errorf "build identity is required")
  | Some b =>
      validate_fields maximumTokenBytes
        [("component", bi_component b); ("version", bi_version b); ("commit", bi_commit b);
         ("Go version", bi_goVersion b)]%string
  end.

Definition known_health_state (state : Z) : bool :=
  existsb (Z.eqb state) [HEALTH_STATE_STARTING; HEALTH_STATE_READY; HEALTH_STATE_DEGRADED; HEALTH_STATE_STOPPING].

Definition ValidateHealth (value : option Health) : option error :=
  match value with
  | None => Some (Errorf "health is required")
  | Some h =>
      let degraded := he_state h =? HEALTH_STATE_DEGRADED in
      let none := lenZ (he_degradedReasons h) =? 0 in
      when (negb (known_health_state (he_state h))) ("health state " +:+ pretty (he_state h) +:+ " is unsupported")
      >>> when (lenZ (he_degradedReasons h) >? 64) "degraded reason count exceeds 64"
      >>> when (degraded && none) "degraded health requires at least one reason"
      >>> when (negb degraded && negb none) "only degraded health may contain degraded reasons"
      >>> sorted_tokens "degraded reason" "degraded reasons must be sorted and unique" maximumStatusBytes 0 None
            (he_degradedReasons h)
      >>> ValidateLimits (he_limits h)
      >>> when (match he_limits h with Some l => he_activeRuns h >? wl_maxActiveRuns l | None => false end)
            "active run count exceeds the configured limit"
  end.

(** ** Statuses *)

Definition requiredDetail (value : Status) : option error :=
  Some (Errorf ("protocol status " +:+ ErrorCode_String (st_code value) +:+ " requires its typed detail")).

Definition validateVersionMismatch (value : VersionMismatch) : option error :=
  let minimum := maxVersion (GetMinimum (vm_client value)) (GetMinimum (vm_server value)) in
  let maximum := minVersion (GetMaximum (vm_client value)) (GetMaximum (vm_server value)) in
  wrap "version-mismatch client range: " (ValidateProtocolRange (vm_client value))
  >>> wrap "version-mismatch server range: " (ValidateProtocolRange (vm_server value))
  >>> when ((GetMajor minimum =? GetMajor maximum) && (compareVersion minimum maximum <=? 0))
        "version-mismatch ranges unexpectedly overlap".

Definition validateCapabilityMismatch (value : CapabilityMismatch) : option error :=
  let want := difference (cm_required value) (cm_available value) in
  wrap "capability-mismatch required: " (ValidateCapabilities (Some (mkCapabilities (cm_required value))))
  >>> wrap "capability-mismatch available: " (ValidateCapabilities (Some (mkCapabilities (cm_available value))))
  >>> wrap "capability-mismatch missing: " (ValidateCapabilities (Some (mkCapabilities (cm_missing value))))
  >>> when ((lenZ want =? 0) || negb (bool_decide (want = cm_missing value)))
        "capability-mismatch missing capabilities are inconsistent".

Definition validateReplayBounds (value : ReplayBounds) : option error :=
  let requested := rb_requestedAfter value in
  when ((rb_earliest value =? 0) || (rb_latest value <? rb_earliest value))
    "replay bounds contain an invalid retained window"
  >>> when (negb (requested =? maxUint64) && (requested +64 1 >=? rb_earliest value) && (requested <=? rb_latest value))
        "replay bounds unexpectedly contain the requested cursor"
  >>> if requested <? rb_earliest value then
        when (negb (rb_recovery value +64 1 =? rb_earliest value)) "replay bounds contain an invalid earliest recovery cursor"
      else when (negb (rb_recovery value =? rb_latest value)) "replay bounds contain an invalid latest recovery cursor".

Definition validateOverload (value : Overload) : option error :=
  validateToken "overload resource" (ov_resource value) maximumTokenBytes
  >>> when ((ov_limit value =? 0) || (ov_observed value <=? ov_limit value))
        "overload detail requires a positive exceeded limit".

Definition validateStaleClient (value : StaleClient) : option error :=
  when ((sc_expectedEpoch value =? 0) || (sc_expectedEpoch value =? sc_observedEpoch value))
    "stale-client detail requires distinct observed and positive expected epochs".

Definition validateSnapshotVersionMismatch (value : SnapshotVersionMismatch) : option error :=
  validateToken "expected snapshot format" (sv_expected value) maximumTokenBytes
  >>> validateToken "observed snapshot format" (sv_observed value) maximumTokenBytes
  >>> when (String.eqb (sv_expected value) (sv_observed value)) "snapshot-version detail requires distinct formats".

Definition validateUncertainOperation (value : UncertainOperation) : option error :=
  validateToken "uncertain operation ID" (uo_operationID value) 128
  >>> validateToken "uncertain operation kind" (uo_operationKind value) maximumTokenBytes.

Definition validateStatusDetail (value : Status) : option error :=
  let code := st_code value in
  if code =? ERROR_CODE_INCOMPATIBLE_VERSION then
    match st_detail value with
    | Some (Status_VersionMismatch (Some d)) => validateVersionMismatch d
    | _ => requiredDetail value
    end
  else if code =? ERROR_CODE_MISSING_CAPABILITY then
    match st_detail value with
    | Some (Status_CapabilityMismatch (Some d)) => validateCapabilityMismatch d
    | _ => requiredDetail value
    end
  else if code =? ERROR_CODE_OUT_OF_RANGE then
    match st_detail value with
    | Some (Status_ReplayBounds (Some d)) => validateReplayBounds d
    | _ => requiredDetail value
    end
  else if code =? ERROR_CODE_RESOURCE_EXHAUSTED then
    match st_detail value with
    | Some (Status_Overload (Some d)) => validateOverload d
    | _ => requiredDetail value
    end
  else if code =? ERROR_CODE_STALE_CLIENT then
    match st_detail value with
    | Some (Status_StaleClient (Some d)) => validateStaleClient d
    | _ => requiredDetail value
    end
  else if code =? ERROR_CODE_SNAPSHOT_VERSION_MISMATCH then
    match st_detail value with
    | Some (Status_SnapshotVersionMismatch (Some d)) => validateSnapshotVersionMismatch d
    | _ => requiredDetail value
    end
  else if code =? ERROR_CODE_UNCERTAIN_OPERATION then
    match st_detail value with
    | Some (Status_UncertainOperation (Some d)) => validateUncertainOperation d
    | _ => requiredDetail value
    end
  else when (match st_detail value with Some _ => true | None => false end)
    ("protocol status " +:+ ErrorCode_String code +:+ " has an unrelated typed detail").

Definition knownErrorCode (code : Z) : bool := (code >=? ERROR_CODE_OK) && (code <=? ERROR_CODE_INTERNAL).

Definition ValidateStatus (value : option Status) : option error :=
  match value with
  | None => Some (Errorf "protocol status is required")
  | Some s =>
      if st_code s =? ERROR_CODE_OK then
        when (negb (String.eqb (st_message s) "") || st_retryable s || negb (String.eqb (st_operationID s) "")
              || match st_detail s with Some _ => true | None => false end)
          "successful protocol status contains error metadata"
      else
        when (st_code s =? ERROR_CODE_UNSPECIFIED) "protocol status code is unspecified"
        >>> when (negb (knownErrorCode (st_code s)))
              ("protocol status code " +:+ pretty (st_code s) +:+ " is unsupported")
        >>> validateToken "status message" (st_message s) maximumStatusBytes
        >>> (if negb (String.eqb (st_operationID s) "") then validateToken "operation ID" (st_operationID s) 128 else None)
        >>> validateStatusDetail s
  end.

(** [AsError]: nil for success. *)
Definition AsError (value : option Status) : option error :=
  wrap "invalid protocol status: " (ValidateStatus value)
  >>> match value with
      | Some s => if st_code s =? ERROR_CODE_OK then None else Some (StatusError s)
      | None => None
      end.

(** [ValidateEncodedSize]: [size] is [proto.Size] of the message, which is an
    [int] and never negative. *)
Definition ValidateEncodedSize (size maximum : Z) : option error :=
  when (maximum =? 0) "message and positive encoded-size bound are required"
  >>> when (size <? 0) "encoded message size is invalid"
  >>> when (size >? maximum) ("encoded message size " +:+ pretty size +:+ " exceeds " +:+ pretty maximum).

(** ** Lemmas: refusals *)

Lemma when_None b text : when b text = None <-> b = false.
Proof. by destruct b. Qed.

Lemma wrap_None prefix c : wrap prefix c = None <-> c = None.
Proof. by destruct c. Qed.

Lemma seq_None {E} (c k : option E) : c >>> k = None <-> c = None /\ k = None.
Proof. destruct c; naive_solver. Qed.

Lemma seq_Some {E} (c k : option E) e : c >>> k = Some e -> c = Some e \/ k = Some e.
Proof. destruct c; naive_solver. Qed.

Lemma when_Some b text e : when b text = Some e -> e = Errorf text.
Proof. unfold when. destruct b; [by intros [= <-]|done]. Qed.

Lemma ValidateEncodedSize_None size maximum :
  ValidateEncodedSize size maximum = None <-> maximum <> 0 /\ 0 <= size <= maximum.
Proof.
  unfold ValidateEncodedSize. rewrite !seq_None, !when_None, Z.eqb_neq, Z.ltb_ge, Z.gtb_ltb, Z.ltb_ge. lia.
Qed.

Definition token_ok (maximum : Z) (value : string) : Prop :=
  trimmed_nonempty value = true /\ utf8_valid value = true /\ contains_any value [0; 13; 10; 9] = false
  /\ slen value <= maximum.

Lemma validateToken_None label value maximum : validateToken label value maximum = None <-> token_ok maximum value.
Proof.
  unfold validateToken, token_ok. rewrite !seq_None, !when_None, !negb_false_iff, Z.gtb_ltb, Z.ltb_ge. tauto.
Qed.

Lemma validate_fields_None maximum fields :
  validate_fields maximum fields = None <-> Forall (fun f => token_ok maximum f.2) fields.
Proof.
  induction fields as [|[label value] fields IH]; simpl; [split; [constructor|done]|].
  by rewrite seq_None, validateToken_None, IH, Forall_cons.
Qed.

Lemma sorted_tokens_None label unordered maximum names : forall index previous,
  sorted_tokens label unordered maximum index previous names = None <->
  Forall (token_ok maximum) names /\ ascending id previous names = true.
Proof.
  induction names as [|name names IH]; intros index previous; simpl; [split; [split; [constructor|done]|done]|].
  rewrite !seq_None, wrap_None, when_None, validateToken_None, IH, Forall_cons, andb_true_iff.
  assert ((match previous with Some p => String.leb name p | None => false end) = false <->
    match previous with Some p => String.ltb p (id name) | None => true end = true) as ->; [|tauto].
  destruct previous as [p|]; [|done]. cbn. destruct (String.ltb p name) eqn:E.
  - apply ltb_spec in E as [H1 H2]. split; [done|]. intros _. destruct (String.leb name p) eqn:Hl; [|done].
    by destruct H2; apply (anti_symm string_le).
  - apply ltb_false in E. unfold string_le in E. by rewrite E.
Qed.

Definition capabilities_ok (names : list string) : Prop :=
  lenZ names <= 1024 /\ Forall (token_ok maximumTokenBytes) names /\ StronglySorted str_lt names.

Lemma ValidateCapabilities_None value :
  ValidateCapabilities value = None <-> exists c, value = Some c /\ capabilities_ok (cs_names c).
Proof.
  unfold ValidateCapabilities, capabilities_ok. rewrite !seq_None, !when_None, sorted_tokens_None, ascending_spec.
  rewrite bool_decide_eq_false, Z.gtb_ltb, Z.ltb_ge. destruct value as [c|]; simpl; [|naive_solver].
  split; [naive_solver|]. by intros (? & [= <-] & ?).
Qed.

(** ** Lemmas: versions *)

Definition version_le (a b : option ProtocolVersion) : Prop :=
  GetMajor a < GetMajor b \/
  (GetMajor a = GetMajor b /\ (GetMinor a < GetMinor b \/ (GetMinor a = GetMinor b /\ GetPatch a <= GetPatch b))).

Lemma compareVersion_le a b : compareVersion a b <= 0 <-> version_le a b.
Proof.
  unfold compareVersion, version_le. cbn [compare_pairs]. rewrite !Z.gtb_ltb.
  destruct (Z.ltb_spec (GetMajor a) (GetMajor b)), (Z.ltb_spec (GetMajor b) (GetMajor a)),
    (Z.ltb_spec (GetMinor a) (GetMinor b)), (Z.ltb_spec (GetMinor b) (GetMinor a)),
    (Z.ltb_spec (GetPatch a) (GetPatch b)), (Z.ltb_spec (GetPatch b) (GetPatch a)); lia.
Qed.

Lemma compareVersion_ge a b : 0 <= compareVersion a b <-> version_le b a.
Proof.
  unfold compareVersion, version_le. cbn [compare_pairs]. rewrite !Z.gtb_ltb.
  destruct (Z.ltb_spec (GetMajor a) (GetMajor b)), (Z.ltb_spec (GetMajor b) (GetMajor a)),
    (Z.ltb_spec (GetMinor a) (GetMinor b)), (Z.ltb_spec (GetMinor b) (GetMinor a)),
    (Z.ltb_spec (GetPatch a) (GetPatch b)), (Z.ltb_spec (GetPatch b) (GetPatch a)); lia.
Qed.

Lemma version_le_trans a b c : version_le a b -> version_le b c -> version_le a c.
Proof. unfold version_le. lia. Qed.

Lemma maxVersion_spec a b c : version_le (maxVersion a b) c <-> version_le a c /\ version_le b c.
Proof.
  unfold maxVersion. rewrite Z.geb_leb. destruct (Z.leb_spec 0 (compareVersion a b)) as [H|H].
  - apply compareVersion_ge in H. unfold version_le in *. lia.
  - assert (version_le a b) by (apply compareVersion_le; lia). unfold version_le in *. lia.
Qed.

Lemma minVersion_spec a b c : version_le c (minVersion a b) <-> version_le c a /\ version_le c b.
Proof.
  unfold minVersion. destruct (Z.leb_spec (compareVersion a b) 0) as [H|H].
  - apply compareVersion_le in H. unfold version_le in *. lia.
  - assert (version_le b a) by (apply compareVersion_ge; lia). unfold version_le in *. lia.
Qed.

Lemma maxVersion_cases a b : maxVersion a b = a \/ maxVersion a b = b.
Proof. unfold maxVersion. destruct (_ >=? _); auto. Qed.
Lemma minVersion_cases a b : minVersion a b = a \/ minVersion a b = b.
Proof. unfold minVersion. destruct (_ <=? _); auto. Qed.

(** The bounds of a valid range. *)
Definition range_ok (r : option ProtocolRange) (low high : ProtocolVersion) : Prop :=
  r = Some (mkRange (Some low) (Some high)) /\ pv_major low <> 0 /\ pv_major low = pv_major high
  /\ version_le (Some low) (Some high).

Lemma ValidateProtocolRange_None r : ValidateProtocolRange r = None <-> exists low high, range_ok r low high.
Proof.
  unfold ValidateProtocolRange, range_ok, validateProtocolVersion. rewrite !seq_None, !wrap_None, !when_None.
  destruct r as [[[low|] [high|]]|]; cbn [GetMinimum GetMaximum pr_minimum pr_maximum mbind option_bind];
    try (split; [intros (? & ?); done|intros (? & ? & ? & ?); congruence]).
  rewrite Z.gtb_ltb, Z.ltb_ge, compareVersion_le, negb_false_iff, Z.eqb_eq, !Z.eqb_neq. cbn [GetMajor]. split.
  - intros (_ & H1 & H2 & H3 & H4). exists low, high. auto.
  - intros (l & h & [= <- <-] & H1 & H2 & H3). split; [done|]. split; [done|]. split; [congruence|]. done.
Qed.

(** A version inside a range. *)
Definition within (v : ProtocolVersion) (r : option ProtocolRange) : Prop :=
  version_le (GetMinimum r) (Some v) /\ version_le (Some v) (GetMaximum r).

(** ** Lemmas: the texts of refusals *)

(** Refusals are short printable text. *)
Definition plain_check (n : Z) (c : option error) : Prop :=
  forall e, c = Some e -> plain_text (Error e) = true /\ slen (Error e) <= n.

Lemma plain_None n : plain_check n None.
Proof. done. Qed.

Lemma plain_when n b text : plain_text text && (slen text <=? n) = true -> plain_check n (when b text).
Proof. intros H e He. apply when_Some in He as ->. cbn [Error]. bprop. auto. Qed.

Lemma plain_seq n c k : plain_check n c -> (c = None -> plain_check n k) -> plain_check n (c >>> k).
Proof. intros Hc Hk. destruct c; [done|]. auto. Qed.

Lemma plain_wrap n m prefix c :
  plain_check m c -> plain_prefix prefix && (slen prefix + m <=? n) = true -> plain_check n (wrap prefix c).
Proof.
  intros Hc H e He. destruct c as [e'|]; [|done]. injection He as <-. cbn [Error].
  destruct (Hc e' eq_refl) as [Hp Hl]. bprop. rewrite slen_append. split; [by apply plain_text_prefix|lia].
Qed.

Lemma plain_weaken n m c : plain_check m c -> m <= n -> plain_check n c.
Proof. intros Hc Hm e He. destruct (Hc e He). split; [done|lia]. Qed.

Lemma plain_token label value maximum :
  plain_text label = true -> slen label <= 40 -> 0 <= maximum < 10 ^ 20 -> plain_check 100 (validateToken label value maximum).
Proof.
  intros Hp Hl Hm. apply plain_text_is_prefix in Hp. unfold validateToken.
  destruct (pretty_Z_plain maximum Hm) as [Hm1 Hm2].
  assert (forall b s, plain_text s = true -> slen s <= 59 -> plain_check 100 (when b (label +:+ " " +:+ s))) as Hw.
  { intros b s Hs Hls. apply plain_when. rewrite <- str_app_assoc.
    rewrite plain_text_prefix by (done || by apply plain_prefix_app). apply Z.leb_le.
    rewrite !slen_append. change (slen " ") with 1. lia. }
  apply plain_seq; [by apply (Hw _ "must be non-empty without surrounding whitespace"%string)|intros _].
  apply plain_seq; [by apply (Hw _ "must be valid UTF-8"%string)|intros _].
  apply plain_seq; [by apply (Hw _ "must not contain control characters"%string)|intros _].
  apply (Hw _ ("exceeds " +:+ pretty maximum +:+ " bytes")%string).
  - apply plain_text_prefix; [done|]. change (" bytes")%string with (" " +:+ "bytes")%string. rewrite <- str_app_assoc.
    apply plain_text_prefix; [|done]. apply plain_prefix_app; [by apply plain_text_is_prefix|done].
  - rewrite !slen_append. change (slen "exceeds ") with 8. change (slen " bytes") with 6. lia.
Qed.

Lemma plain_sorted_tokens label unordered maximum names :
  plain_text label = true -> slen label <= 40 -> 0 <= maximum < 10 ^ 20 -> plain_text unordered = true -> slen unordered <= 200 ->
  forall index previous, (index + N.of_nat (length names) < 10 ^ 20)%N ->
  plain_check 200 (sorted_tokens label unordered maximum index previous names).
Proof.
  intros Hp Hl Hm Hu Hlu. induction names as [|name names IH]; intros index previous Hi; [done|]. cbn [sorted_tokens length] in *.
  destruct (pretty_N_plain index 20) as [Hn1 Hn2]; [change (N.of_nat 20) with 20%N; lia|lia|].
  apply plain_seq; [|intros _].
  { apply (plain_wrap _ 100); [by apply plain_token|]. apply andb_true_iff. split.
    - apply plain_prefix_app; [by apply plain_text_is_prefix|]. rewrite !byte_codes_app. unfold plain in *. rewrite !forallb_app.
      apply plain_text_is_prefix in Hn1. unfold plain_prefix, plain in Hn1. bprop. rewrite H. done.
    - apply Z.leb_le. rewrite !slen_append. change (slen " ") with 1. change (slen ": ") with 2. lia. }
  apply plain_seq; [apply plain_when; rewrite Hu; by apply Z.leb_le|intros _]. apply IH. lia.
Qed.

(** Decide a [plain_check] on the texts of the code. *)
Ltac plain :=
  repeat match goal with
  | |- plain_check _ None => apply plain_None
  | |- plain_check _ (match _ with Some err => Some err | None => _ end) => apply plain_seq; [|intros _]
  | |- plain_check _ (when _ _) => apply plain_when; vm_compute; reflexivity
  | |- plain_check ?n (validateToken _ _ _) => apply (plain_weaken n 100); [apply plain_token|]; vm_compute; repeat split; congruence
  end.

Lemma ValidateProtocolRange_plain r : plain_check 200 (ValidateProtocolRange r).
Proof.
  unfold ValidateProtocolRange, validateProtocolVersion. plain; (apply (plain_wrap _ 100); [plain|vm_compute; reflexivity]).
Qed.

Lemma ValidateCapabilities_plain value : plain_check 200 (ValidateCapabilities value).
Proof.
  unfold ValidateCapabilities. apply plain_seq; [plain|intros _]. apply plain_seq; [plain|intros Hl].
  apply when_None in Hl. unfold lenZ in Hl. bprop. apply plain_sorted_tokens; [by vm_compute..|].
  assert (10 ^ 20 = 100000000000000000000)%N as -> by done. lia.
Qed.

Lemma ValidateLimits_plain value : plain_check 200 (ValidateLimits value).
Proof. unfold ValidateLimits. destruct value as [l|]; [plain|]. intros e [= <-]. by vm_compute. Qed.

Lemma ValidateEncodedSize_plain size maximum :
  0 <= size < 10 ^ 20 -> 0 <= maximum < 10 ^ 20 -> plain_check 200 (ValidateEncodedSize size maximum).
Proof.
  intros Hs Hm. unfold ValidateEncodedSize. destruct (pretty_Z_plain size Hs) as [Hs1 Hs2]. destruct (pretty_Z_plain maximum Hm) as [Hm1 Hm2].
  apply plain_seq; [plain|intros _]. apply plain_seq; [plain|intros _]. apply plain_when. apply andb_true_iff. split.
  - apply plain_text_prefix; [done|]. rewrite <- str_app_assoc. apply plain_text_prefix; [|done].
    apply plain_prefix_app; [by apply plain_text_is_prefix|done].
  - apply Z.leb_le. rewrite !slen_append. change (slen "encoded message size ") with 21. change (slen " exceeds ") with 9. lia.
Qed.

Lemma ValidateBuildIdentity_plain value : plain_check 200 (ValidateBuildIdentity value).
Proof. unfold ValidateBuildIdentity, validate_fields. destruct value as [l|]; [plain|]. intros e [= <-]. by vm_compute. Qed.

Lemma validate_candidates_plain candidates message :
  Forall (fun c => plain_text c.1 = true /\ slen c.1 <= 40) candidates ->
  validate_candidates candidates = Some message -> plain_text message = true /\ slen message <= 300.
Proof.
  induction 1 as [|[label value] rest [Hp Hl] Hrest IH]; [done|]. cbn [validate_candidates].
  destruct (ValidateCapabilities value) as [e|] eqn:He; [|done]. intros [= <-].
  destruct (ValidateCapabilities_plain value e He) as [Hp' Hl']. split.
  - rewrite <- str_app_assoc. apply plain_text_prefix; [|done].
    apply plain_prefix_app; [by apply plain_text_is_prefix|done].
  - rewrite !slen_append. change (slen " capabilities: ") with 15. cbn in Hl. lia.
Qed.

Lemma validate_candidates_None candidates :
  validate_candidates candidates = None <-> Forall (fun c => ValidateCapabilities c.2 = None) candidates.
Proof.
  induction candidates as [|[label value] rest IH]; cbn [validate_candidates]; [split; [constructor|done]|].
  rewrite Forall_cons, <- IH. cbn. destruct (ValidateCapabilities value); naive_solver.
Qed.

Lemma plain_text_token s n : plain_text s = true -> slen s <= n -> token_ok n s.
Proof.
  intros Hp Hl. split; [by apply plain_trim|]. unfold plain_text in Hp. bprop. split; [by apply plain_utf8|].
  split; [by apply plain_no_control|done].
Qed.

(** A plain status is valid when its text is. *)
Lemma plain_status_valid code message :
  code = ERROR_CODE_INVALID_ARGUMENT \/ code = ERROR_CODE_INTERNAL ->
  plain_text message = true -> slen message <= maximumStatusBytes ->
  ValidateStatus (Some (mkStatus code message false "" None)) = None.
Proof.
  intros Hc Hp Hl. pose proof (plain_text_token _ _ Hp Hl) as Ht.
  unfold ValidateStatus. cbn [st_code st_message st_operationID st_detail].
  rewrite (proj2 (validateToken_None "status message" _ _) Ht). by destruct Hc as [-> | ->].
Qed.

(** ** Lemmas: set operations on sorted names *)

Lemma elem_of_intersection_names left right name :
  StronglySorted str_lt right -> name ∈ intersection left right <-> name ∈ left /\ name ∈ right.
Proof.
  intros Hs. unfold intersection. rewrite list_elem_of_In, List.filter_In, <- list_elem_of_In.
  by rewrite (found_spec right name Hs).
Qed.

Lemma elem_of_difference_names left right name :
  StronglySorted str_lt right -> name ∈ difference left right <-> name ∈ left /\ name ∉ right.
Proof.
  intros Hs. unfold difference. rewrite list_elem_of_In, List.filter_In, <- list_elem_of_In.
  by rewrite negb_true_iff, (found_false right name Hs).
Qed.

Lemma isSubset_spec subset superset :
  StronglySorted str_lt superset -> isSubset subset superset = true <-> forall name, name ∈ subset -> name ∈ superset.
Proof.
  intros Hs. unfold isSubset. rewrite Z.eqb_eq. split.
  - intros H0 name Hn. destruct (decide (name ∈ superset)) as [|Hx]; [done|].
    assert (name ∈ difference subset superset) as Hd by (by apply elem_of_difference_names).
    apply lenZ_0 in H0. rewrite H0 in Hd. by apply elem_of_nil in Hd.
  - intros Hsub. destruct (difference subset superset) as [|name l] eqn:E; [done|].
    assert (name ∈ difference subset superset) as Hd by (rewrite E; left).
    apply elem_of_difference_names in Hd as [H1 H2]; [|done]. by apply Hsub in H1.
Qed.

Lemma filter_capabilities_ok f names : capabilities_ok names -> capabilities_ok (List.filter f names).
Proof.
  intros (Hl & Ht & Hs). split; [|split; [|by apply filter_sorted]].
  - unfold lenZ in *. pose proof (List.filter_length_le f names). lia.
  - rewrite Forall_forall in *. intros name Hn. apply list_elem_of_In, List.filter_In in Hn as [Hn _].
    by apply Ht, list_elem_of_In.
Qed.

Lemma common_major cl ch sl sh w :
  pv_major cl = pv_major ch -> pv_major sl = pv_major sh ->
  version_le (Some cl) (Some w) -> version_le (Some w) (Some ch) ->
  version_le (Some sl) (Some w) -> version_le (Some w) (Some sh) ->
  GetMajor (maxVersion (Some cl) (Some sl)) = GetMajor (minVersion (Some ch) (Some sh)).
Proof.
  unfold version_le. cbn [GetMajor GetMinor GetPatch]. intros.
  destruct (maxVersion_cases (Some cl) (Some sl)) as [-> | ->], (minVersion_cases (Some ch) (Some sh)) as [-> | ->];
    cbn [GetMajor]; lia.
Qed.

Lemma NegotiateProtocol_spec client server :
  ValidateProtocolRange client = None -> ValidateProtocolRange server = None ->
  (exists v, NegotiateProtocol client server = (Some v, OKStatus) /\ within v client /\ within v server
     /\ forall w, within w client -> within w server -> compareVersion (Some w) (Some v) <= 0)
  \/ (exists status, NegotiateProtocol client server = (None, status)
     /\ st_code status = ERROR_CODE_INCOMPATIBLE_VERSION /\ ValidateStatus (Some status) = None
     /\ forall w, within w client -> ~ within w server).
Proof.
  intros Hvc Hvs. unfold NegotiateProtocol. rewrite Hvc, Hvs.
  pose proof Hvc as Hc. pose proof Hvs as Hs.
  apply ValidateProtocolRange_None in Hc as (cl & ch & -> & Hc0 & Hcm & Hcle).
  apply ValidateProtocolRange_None in Hs as (sl & sh & -> & Hs0 & Hsm & Hsle).
  unfold within. cbn [GetMinimum GetMaximum pr_minimum pr_maximum mbind option_bind].
  set (low := maxVersion (Some cl) (Some sl)). set (high := minVersion (Some ch) (Some sh)).
  destruct (negb _ || _) eqn:E.
  - right. eexists. split; [done|]. split; [done|]. split.
    + unfold ValidateStatus. cbn [st_code st_message st_operationID]. cbv [ERROR_CODE_INCOMPATIBLE_VERSION].
      unfold validateStatusDetail, validateVersionMismatch.
      cbn [st_detail st_code vm_client vm_server GetMinimum GetMaximum pr_minimum pr_maximum mbind option_bind].
      rewrite Hvc, Hvs. fold low high. cbn [wrap option_map].
      replace ((GetMajor low =? GetMajor high) && (compareVersion low high <=? 0)) with false; [vm_compute; done|].
      rewrite Z.leb_antisym, <- Z.gtb_ltb. by destruct (GetMajor low =? GetMajor high), (compareVersion low high >? 0).
    + intros w [H1 H2] [H3 H4].
      assert (version_le low (Some w)) as Hl by (by apply maxVersion_spec).
      assert (version_le (Some w) high) as Hh by (by apply minVersion_spec).
      apply orb_true_iff in E as [E|E].
      * apply negb_true_iff, Z.eqb_neq in E. apply E. unfold low, high.
        by apply (common_major cl ch sl sh w).
      * rewrite Z.gtb_ltb, Z.ltb_lt in E. pose proof (version_le_trans _ _ _ Hl Hh) as Hlh.
        apply compareVersion_le in Hlh. lia.
  - apply orb_false_iff in E as [E1 E2]. rewrite Z.gtb_ltb, Z.ltb_ge, compareVersion_le in E2.
    left. assert (exists v, high = Some v) as [v Hv] by (destruct (minVersion_cases (Some ch) (Some sh)) as [Hb|Hb]; eauto).
    exists v. rewrite Hv in E2 |- *.
    apply maxVersion_spec in E2 as [H1 H2]. pose proof (proj1 (minVersion_spec (Some ch) (Some sh) (Some v))) as Hm.
    fold high in Hm. rewrite Hv in Hm. destruct Hm as [H3 H4]; [unfold version_le; lia|].
    split; [done|]. split; [done|]. split; [done|]. intros w [_ Hw1] [_ Hw2]. apply compareVersion_le.
    rewrite <- Hv. by apply minVersion_spec.
Qed.

Lemma NegotiateCapabilities_spec supported required available :
  capabilities_ok supported -> capabilities_ok required -> capabilities_ok available ->
  (forall name, name ∈ required -> name ∈ supported) ->
  let '(enabled, status) := NegotiateCapabilities (Some (mkCapabilities supported)) (Some (mkCapabilities required))
                              (Some (mkCapabilities available)) in
  match enabled with
  | Some c =>
      status = OKStatus /\ capabilities_ok (cs_names c)
      /\ (forall name, name ∈ cs_names c <-> name ∈ supported /\ name ∈ available)
      /\ (forall name, name ∈ required -> name ∈ cs_names c)
  | None =>
      st_code status = ERROR_CODE_MISSING_CAPABILITY /\ ValidateStatus (Some status) = None
      /\ exists missing, st_detail status = Some (Status_CapabilityMismatch (Some (mkCapabilityMismatch required available missing)))
           /\ missing <> [] /\ StronglySorted str_lt missing
           /\ forall name, name ∈ missing <-> name ∈ required /\ name ∉ available
  end.
Proof.
  intros Hs Hr Ha Hsub. unfold NegotiateCapabilities.
  assert (forall names, capabilities_ok names -> ValidateCapabilities (Some (mkCapabilities names)) = None) as Hok
    by (intros names Hn; apply ValidateCapabilities_None; by exists (mkCapabilities names)).
  replace (validate_candidates _) with (@None string) by (symmetry; apply validate_candidates_None; repeat constructor; by apply Hok).
  cbn [GetNames cs_names]. pose proof Ha as (_ & _ & Hsa). pose proof Hs as (_ & _ & Hss).
  rewrite (proj2 (isSubset_spec required supported Hss) Hsub). cbn [negb].
  destruct (lenZ (difference required available) =? 0) eqn:E; cbn [negb].
  - apply Z.eqb_eq in E. split; [done|]. cbn [cs_names]. split; [by apply filter_capabilities_ok|].
    split; [intros name; by apply elem_of_intersection_names|].
    intros name Hn. apply elem_of_intersection_names; [done|]. split; [by apply Hsub|].
    apply (proj1 (isSubset_spec required available Hsa)); [|done]. unfold isSubset. by rewrite E.
  - cbn [st_code st_detail]. assert (capabilities_ok (difference required available)) as Hd by (by apply filter_capabilities_ok).
    assert (difference required available <> []) as Hne by (intros Hnil; rewrite Hnil in E; done).
    split; [done|]. split.
    + unfold ValidateStatus, validateStatusDetail, validateCapabilityMismatch.
      cbn [st_code st_message st_operationID st_detail cm_required cm_available cm_missing].
      rewrite !Hok by done. cbn [wrap option_map]. rewrite E, bool_decide_true by done. vm_compute. done.
    + eexists. split; [done|]. split; [done|]. split; [apply Hd|]. intros name. by apply elem_of_difference_names.
Qed.

(** ** Properties *)


Definition sample_range (low high : Z) : option ProtocolRange :=
  Some (mkRange (Some (mkVersion 1 low 0)) (Some (mkVersion 1 high 0))).


(** Capability negotiation is exact: required names the server lacks are
    reported in full, in a valid status; otherwise the enabled set is exactly
    the names both sides support, sorted, with every required one in it. *)
Theorem capability_negotiation supported required available :
  capabilities_ok supported -> capabilities_ok required -> capabilities_ok available ->
  (forall name, name ∈ required -> name ∈ supported) ->
  let '(enabled, status) := NegotiateCapabilities (Some (mkCapabilities supported)) (Some (mkCapabilities required))
                              (Some (mkCapabilities available)) in
  match enabled with
  | Some c =>
      status = OKStatus /\ capabilities_ok (cs_names c)
      /\ (forall name, name ∈ cs_names c <-> name ∈ supported /\ name ∈ available)
      /\ (forall name, name ∈ required -> name ∈ cs_names c)
  | None =>
      st_code status = ERROR_CODE_MISSING_CAPABILITY /\ ValidateStatus (Some status) = None
      /\ exists missing, st_detail status = Some (Status_CapabilityMismatch (Some (mkCapabilityMismatch required available missing)))
           /\ missing <> [] /\ StronglySorted str_lt missing
           /\ forall name, name ∈ missing <-> name ∈ required /\ name ∉ available
  end.
Proof. apply NegotiateCapabilities_spec. Qed.

Lemma capability_negotiation_witness :
  let '(enabled, status) := NegotiateCapabilities (Some (mkCapabilities ["events"; "snapshots"]))
      (Some (mkCapabilities ["events"])) (Some (mkCapabilities ["events"; "health"])) in
  match enabled with
  | Some c =>
      status = OKStatus /\ capabilities_ok (cs_names c)
      /\ (forall name, name ∈ cs_names c <-> name ∈ ["events"; "snapshots"]%string /\ name ∈ ["events"; "health"]%string)
      /\ (forall name, name ∈ ["events"]%string -> name ∈ cs_names c)
  | None =>
      st_code status = ERROR_CODE_MISSING_CAPABILITY /\ ValidateStatus (Some status) = None
      /\ exists missing, st_detail status = Some (Status_CapabilityMismatch
             (Some (mkCapabilityMismatch ["events"]%string ["events"; "health"]%string missing)))
           /\ missing <> [] /\ StronglySorted str_lt missing
           /\ forall name, name ∈ missing <-> name ∈ ["events"]%string /\ name ∉ ["events"; "health"]%string
  end.
Proof.
  apply (capability_negotiation ["events"; "snapshots"]%string ["events"]%string ["events"; "health"]%string);
    [split; [vm_compute; done|]; split; [repeat constructor; vm_compute; done|repeat constructor]..|].
  intros name H. apply list_elem_of_singleton in H as ->. left.
Defined.

Lemma NegotiateLimits_ok requested available l :
  NegotiateLimits requested available = (Some l, OKStatus) ->
  exists r a, requested = Some r /\ available = Some a
    /\ ValidateLimits (Some r) = None /\ ValidateLimits (Some a) = None
    /\ Forall2 Z.le (limit_values l) (limit_values r) /\ Forall2 Z.le (limit_values l) (limit_values a)
    /\ Forall (fun v => v ∈ limit_values r ++ limit_values a) (limit_values l).
Proof.
  unfold NegotiateLimits. destruct (ValidateLimits requested) eqn:Hr; [done|]. destruct (ValidateLimits available) eqn:Ha; [done|].
  destruct requested as [r|], available as [a|]; try done. intros [= <-]. exists r, a. do 4 (split; [done|]).
  unfold limit_values. cbn. split; [|split].
  1,2: repeat constructor; lia.
  repeat match goal with |- Forall _ (_ :: _) => constructor end; [..|constructor];
    match goal with |- Z.min ?x ?y ∈ _ => destruct (Z.min_spec x y) as [[_ ->]|[_ ->]] end; set_solver.
Qed.

Lemma none_refused A code : code <> ERROR_CODE_OK -> is_Some (@None A) <-> code = ERROR_CODE_OK.
Proof. intros Hc. split; [intros [? [=]]|intros H; destruct (Hc H)]. Qed.

Lemma negotiation_statuses client server supported required available requested limits :
  (let '(v, s) := NegotiateProtocol client server in ValidateStatus (Some s) = None /\ (is_Some v <-> st_code s = ERROR_CODE_OK))
  /\ (let '(c, s) := NegotiateCapabilities supported required available in
      ValidateStatus (Some s) = None /\ (is_Some c <-> st_code s = ERROR_CODE_OK))
  /\ (let '(l, s) := NegotiateLimits requested limits in ValidateStatus (Some s) = None /\ (is_Some l <-> st_code s = ERROR_CODE_OK)).
Proof.
  assert (forall A code text, code = ERROR_CODE_INVALID_ARGUMENT \/ code = ERROR_CODE_INTERNAL ->
    plain_text text = true /\ slen text <= 300 ->
    ValidateStatus (Some (mkStatus code text false "" None)) = None
    /\ (is_Some (@None A) <-> st_code (mkStatus code text false "" None) = ERROR_CODE_OK)) as Hplain.
  { intros A code text Hc [Ht Hl]. split; [apply plain_status_valid; [done..|unfold maximumStatusBytes; lia]|].
    apply none_refused. by destruct Hc as [-> | ->]. }
  split; [|split].
  - destruct (ValidateProtocolRange client) as [e|] eqn:Hc.
    { unfold NegotiateProtocol. rewrite Hc. apply Hplain; [by left|].
      destruct (ValidateProtocolRange_plain client e Hc) as [H1 H2]. split; [done|lia]. }
    destruct (ValidateProtocolRange server) as [e|] eqn:Hs.
    { unfold NegotiateProtocol. rewrite Hc, Hs. apply Hplain; [by right|by vm_compute]. }
    destruct (NegotiateProtocol_spec client server Hc Hs) as [(v & -> & _)|(s & -> & Hcode & Hv & _)]; [by split|].
    split; [exact Hv|]. rewrite Hcode. by apply none_refused.
  - unfold NegotiateCapabilities. destruct (validate_candidates _) as [m|] eqn:Hv.
    { apply Hplain; [by left|]. eapply validate_candidates_plain; [|exact Hv]. repeat constructor; by vm_compute. }
    apply validate_candidates_None in Hv. rewrite !Forall_cons in Hv. cbn in Hv. destruct Hv as (H1 & H2 & H3 & _).
    destruct (isSubset _ _) eqn:Hsub; [|apply Hplain; [by left|by vm_compute]]. cbn [negb].
    apply ValidateCapabilities_None in H1 as (s & -> & Hs), H2 as (r & -> & Hr), H3 as (a & -> & Ha).
    destruct s as [s], r as [r], a as [a]. cbn [GetNames cs_names] in *.
    pose proof (NegotiateCapabilities_spec s r a Hs Hr Ha (proj1 (isSubset_spec r s (proj2 (proj2 Hs))) Hsub)) as H.
    unfold NegotiateCapabilities in H.
    replace (validate_candidates _) with (@None string) in H
      by (symmetry; apply validate_candidates_None; repeat constructor; apply ValidateCapabilities_None; eauto).
    cbn [GetNames cs_names] in H. rewrite Hsub in H. cbn [negb] in H.
    destruct (negb _); [|by split]. destruct H as (Hcode & Hvalid & _). split; [exact Hvalid|]. rewrite Hcode. by apply none_refused.
  - unfold NegotiateLimits. destruct (ValidateLimits requested) as [e|] eqn:Hr.
    { apply Hplain; [by left|]. destruct (ValidateLimits_plain requested e Hr) as [H1 H2].
      rewrite slen_append. split; [by apply plain_text_prefix|]. change (slen "requested limits: ") with 18. lia. }
    destruct (ValidateLimits limits), requested, limits; try (apply Hplain; [by right|by vm_compute]). by split.
Qed.

(** Every refusal of a negotiation reaches the peer: whatever the inputs, the
    status of each of the three negotiations is a valid one, successful exactly
    when there is a result. *)
Theorem negotiation_statuses_valid client server supported required available requested limits :
  (let '(v, s) := NegotiateProtocol client server in ValidateStatus (Some s) = None /\ (is_Some v <-> st_code s = ERROR_CODE_OK))
  /\ (let '(c, s) := NegotiateCapabilities supported required available in
      ValidateStatus (Some s) = None /\ (is_Some c <-> st_code s = ERROR_CODE_OK))
  /\ (let '(l, s) := NegotiateLimits requested limits in ValidateStatus (Some s) = None /\ (is_Some l <-> st_code s = ERROR_CODE_OK)).
Proof. apply negotiation_statuses. Qed.
