(* ===== verification/EngineWire.v ===== *)
(** The messages of the engine protocol (src/proto/spice/agent/engine/v1/engine.proto,
    generated as src/engine/v1/engine.pb.go), in a name space of their own.

    A message is a record of its fields; a message field, being a pointer, is an
    [option].  A [oneof] is an [option] of an inductive type whose message cases
    carry options too.  Enumerations are open numbers; [bytes] are strings. *)
From Stdlib Require Import ZArith.
From stdpp Require Import base list strings.
From S2P Require Import Prelude CommonContract.
Open Scope Z_scope.

Module Wire.

Record ToolCallPart := mkToolCallPart { tc_callID : string; tc_name : string; tc_argumentsJSON : string }.
Record ToolResultPart := mkToolResultPart { tr_callID : string; tr_name : string; tr_resultJSON : string }.
Record ExtensionPart := mkExtensionPart { xp_namespace : string; xp_valueJSON : string }.

Inductive PartValue :=
| ContentPart_Text (text : string)
| ContentPart_ToolCall (call : option ToolCallPart)
| ContentPart_ToolResult (result : option ToolResultPart)
| ContentPart_Extension (extension : option ExtensionPart).
Record ContentPart := mkContentPart { cp_value : option PartValue }.

Definition MESSAGE_ROLE_SYSTEM : Z := 1.
Definition MESSAGE_ROLE_USER : Z := 2.
Definition MESSAGE_ROLE_ASSISTANT : Z := 3.
Definition MESSAGE_ROLE_TOOL : Z := 4.
Record Message := mkMessage { ms_id : string; ms_role : Z; ms_parts : list (option ContentPart) }.

Record AgentDefinitionRef := mkAgentDefinitionRef { ar_id : string; ar_revision : string }.
Record Definition_ := mkDefinition { df_id : string; df_revision : string; df_model : string; df_maxTurns : Z }.
Record DefinitionSet := mkDefinitionSet { ds_revision : string; ds_definitions : list (option Definition_) }.

Record ReconnectClaim := mkReconnectClaim { rc_clientID : string; rc_expectedOwnershipEpoch : Z }.
Record InitializeRequest := mkInitializeRequest {
  iq_protocol : option ProtocolRange;
  iq_client : option BuildIdentity;
  iq_supportedCapabilities : option CapabilitySet;
  iq_requiredCapabilities : option CapabilitySet;
  iq_requestedLimits : option Limits;
  iq_reconnectClaim : option ReconnectClaim;
  iq_initializationAttemptID : list Z
}.
Record InitializeResponse := mkInitializeResponse {
  ip_status : option Status;
  ip_protocol : option ProtocolVersion;
  ip_server : option BuildIdentity;
  ip_capabilities : option CapabilitySet;
  ip_limits : option Limits;
  ip_health : option Health;
  ip_clientID : string;
  ip_ownershipEpoch : Z;
  ip_definitions : option DefinitionSet;
  ip_initializationAttemptID : list Z
}.

Record HealthRequest := mkHealthRequest { hq_clientID : string; hq_ownershipEpoch : Z }.
Record HealthResponse := mkHealthResponse {
  hp_status : option Status;
  hp_server : option BuildIdentity;
  hp_protocol : option ProtocolVersion;
  hp_health : option Health
}.

Record StartRunRequest := mkStartRunRequest {
  sq_clientID : string;
  sq_ownershipEpoch : Z;
  sq_clientOperationID : string;
  sq_definition : option AgentDefinitionRef;
  sq_input : option Message
}.
Record StartRunResponse := mkStartRunResponse {
  sp_status : option Status;
  sp_runID : string;
  sp_initialSequence : Z;
  sp_duplicateOperation : bool;
  sp_planID : string
}.

Record StreamEventsRequest := mkStreamEventsRequest {
  eq_clientID : string;
  eq_ownershipEpoch : Z;
  eq_runID : string;
  eq_afterSequence : Z;
  eq_replayLimit : Z;
  eq_tail : bool
}.
Record RunEvent := mkRunEvent {
  re_runID : string;
  re_sequence : Z;
  re_unixNano : Z;
  re_kind : Z;
  re_payloadJSON : string;
  re_terminal : bool
}.
Record StreamControl := mkStreamControl {
  sc_status : option Status;
  sc_earliestSequence : Z;
  sc_latestSequence : Z;
  sc_lastDeliveredSequence : Z;
  sc_tailing : bool;
  sc_pageLastSequence : option Z;
  sc_hasMore : bool
}.
Inductive EventPayload := Payload_Event (event : option RunEvent) | Payload_EventControl (control : option StreamControl).
Record StreamEventsResponse := mkStreamEventsResponse { ep_payload : option EventPayload }.

Record CancelRunRequest := mkCancelRunRequest {
  cq_clientID : string;
  cq_ownershipEpoch : Z;
  cq_clientOperationID : string;
  cq_runID : string;
  cq_reason : string
}.
Record CancelRunResponse := mkCancelRunResponse {
  cr_status : option Status;
  cr_cancellationRequested : bool;
  cr_alreadyTerminal : bool;
  cr_terminalSequence : Z
}.

Record RespondInteractionRequest := mkRespondInteractionRequest {
  rq_clientID : string;
  rq_ownershipEpoch : Z;
  rq_clientOperationID : string;
  rq_runID : string;
  rq_interactionID : string;
  rq_valueJSON : string
}.
Record RespondInteractionResponse := mkRespondInteractionResponse {
  rp_status : option Status;
  rp_accepted : bool;
  rp_duplicateOperation : bool
}.

Record PendingInteraction := mkPendingInteraction {
  pi_runID : string;
  pi_interactionID : string;
  pi_kind : string;
  pi_prompt : string;
  pi_schemaJSON : string
}.
Definition INTERACTION_DELTA_KIND_OPENED : Z := 1.
Definition INTERACTION_DELTA_KIND_CLOSED : Z := 2.
Record InteractionDelta := mkInteractionDelta { id_revision : Z; id_kind : Z; id_interaction : option PendingInteraction }.
Record InteractionSnapshot := mkInteractionSnapshot { is_revision : Z; is_pending : list (option PendingInteraction) }.
(** [tq_unknown] is the bytes of the fields the schema does not have. *)
Record StreamInteractionsRequest := mkStreamInteractionsRequest {
  tq_clientID : string;
  tq_ownershipEpoch : Z;
  tq_tail : bool;
  tq_unknown : list Z
}.
Record InteractionStreamControl := mkInteractionStreamControl {
  ic_status : option Status;
  ic_latestRevision : Z;
  ic_pageLastRevision : Z;
  ic_hasMore : bool;
  ic_tailing : bool
}.
Inductive InteractionPayload :=
| Payload_Snapshot (snapshot : option InteractionSnapshot)
| Payload_Delta (delta : option InteractionDelta)
| Payload_Control (control : option InteractionStreamControl).
Record StreamInteractionsResponse := mkStreamInteractionsResponse { tp_payload : option InteractionPayload }.

Record SuspendRunRequest := mkSuspendRunRequest {
  uq_clientID : string;
  uq_ownershipEpoch : Z;
  uq_clientOperationID : string;
  uq_runID : string
}.
Record SuspendRunResponse := mkSuspendRunResponse {
  up_status : option Status;
  up_suspended : bool;
  up_boundarySequence : Z;
  up_duplicateOperation : bool
}.
Record ResumeRunRequest := mkResumeRunRequest {
  mq_clientID : string;
  mq_ownershipEpoch : Z;
  mq_clientOperationID : string;
  mq_runID : string
}.
Record ResumeRunResponse := mkResumeRunResponse {
  mp_status : option Status;
  mp_resumed : bool;
  mp_nextSequence : Z;
  mp_duplicateOperation : bool
}.

Record SnapshotAuthority := mkSnapshotAuthority { sa_scopeID : string; sa_generation : Z; sa_hmacSHA256 : string }.
Definition SNAPSHOT_LIFECYCLE_SUSPENDED : Z := 1.
Definition SNAPSHOT_LIFECYCLE_COMPLETED : Z := 2.
Definition SNAPSHOT_LIFECYCLE_FAILED : Z := 3.
Definition SNAPSHOT_LIFECYCLE_CANCELLED : Z := 4.
(** [se_unknown], as [tq_unknown] above. *)
Record SnapshotEnvelope := mkSnapshotEnvelope {
  se_format : string;
  se_runID : string;
  se_lastSequence : Z;
  se_lifecycle : Z;
  se_payload : string;
  se_sha256 : string;
  se_authority : option SnapshotAuthority;
  se_unknown : list Z
}.
Record ExportSnapshotRequest := mkExportSnapshotRequest { xq_clientID : string; xq_ownershipEpoch : Z; xq_runID : string }.
Record ExportSnapshotResponse := mkExportSnapshotResponse { xr_status : option Status; xr_snapshot : option SnapshotEnvelope }.
Record ImportSnapshotRequest := mkImportSnapshotRequest {
  jq_clientID : string;
  jq_ownershipEpoch : Z;
  jq_clientOperationID : string;
  jq_snapshot : option SnapshotEnvelope
}.
Record ImportSnapshotResponse := mkImportSnapshotResponse {
  jp_status : option Status;
  jp_runID : string;
  jp_nextSequence : Z;
  jp_duplicateOperation : bool
}.

(** The messages whose encoded size the contract bounds: what is passed to
    [proto.Size]. *)
Inductive ProtoMessage :=
| MInitializeRequest (m : InitializeRequest)
| MInitializeResponse (m : InitializeResponse)
| MDefinitionSet (m : DefinitionSet)
| MHealthRequest (m : HealthRequest)
| MHealthResponse (m : HealthResponse)
| MStartRunRequest (m : StartRunRequest)
| MStartRunResponse (m : StartRunResponse)
| MStreamEventsRequest (m : StreamEventsRequest)
| MStreamEventsResponse (m : StreamEventsResponse)
| MRunEvent (m : RunEvent)
| MCancelRunRequest (m : CancelRunRequest)
| MCancelRunResponse (m : CancelRunResponse)
| MRespondInteractionRequest (m : RespondInteractionRequest)
| MRespondInteractionResponse (m : RespondInteractionResponse)
| MStreamInteractionsRequest (m : StreamInteractionsRequest)
| MStreamInteractionsResponse (m : StreamInteractionsResponse)
| MInteractionSnapshot (m : InteractionSnapshot)
| MSuspendRunRequest (m : SuspendRunRequest)
| MSuspendRunResponse (m : SuspendRunResponse)
| MResumeRunRequest (m : ResumeRunRequest)
| MResumeRunResponse (m : ResumeRunResponse)
| MExportSnapshotRequest (m : ExportSnapshotRequest)
| MExportSnapshotResponse (m : ExportSnapshotResponse)
| MImportSnapshotRequest (m : ImportSnapshotRequest)
| MImportSnapshotResponse (m : ImportSnapshotResponse)
| MSnapshotEnvelope (m : SnapshotEnvelope).

(** A pointer that may be nil; the size of nil is zero. *)
Definition size_of {M} (Size : ProtoMessage -> Z) (inject : M -> ProtoMessage) (m : option M) : Z :=
  match m with Some m => Size (inject m) | None => 0 end.

End Wire.
