(* ===== verification/EngineContract.v ===== *)
(** The engine wire contract (src/engine/v1/contract.go and unary_contract.go):
    the validators every request, response and stream frame passes on both sides
    of the protocol, definition resolution, ownership and replay-cursor checks.

    [proto.Size] is the parameter [Size]; the two decoders of [protowire] used on
    unknown fields are [ConsumeTag] and [ConsumeFieldValue]. *)
From Stdlib Require Import ZArith Lia.
From stdpp Require Import base list strings pretty sorting.
From S2P Require Import Prelude GoText GoOrder GoJson CommonContract EngineWire.
Open Scope Z_scope.

Definition InitializeBootstrapMaximumBytes : Z := Z.shiftl 1 20.
Definition MaximumSnapshotBytes : Z := Z.shiftl 16 20.
Definition MaximumSnapshotEnvelopeOverheadBytes : Z := 295.
Definition MaximumSnapshotEnvelopeBytes : Z := MaximumSnapshotBytes + MaximumSnapshotEnvelopeOverheadBytes.
Definition InteractionStreamMinimumMinor : Z := 2.
Definition InitializationAttemptMinimumMinor : Z := 3.
Definition InitializationAttemptIDBytes : Z := 16.
Definition maximumJSONBytes : Z := Z.shiftl 1 20.
Definition maximumInteractionBytes : Z := Z.shiftl 512 10.
Definition maximumMessageParts : Z := 128.
Definition maximumDefinitionTurns : Z := 1000.

Definition NUL : string := String (Ascii.ascii_of_nat 0) "".

(** ** Elementary checks *)

Definition token (label value : string) (maximum : Z) : option error := validateToken label value maximum.

Fixpoint tokens (maximum : Z) (fields : list (string * string)) : option error :=
  match fields with
  | [] => None
  | (label, value) :: rest => token label value maximum >>> tokens maximum rest
  end.

Definition protocolStatus (code : Z) (message : string) : Status := mkStatus code message false "" None.

Definition validateClient (clientID : string) (epoch : Z) : option error :=
  token "client ID" clientID 128 >>> when (epoch =? 0) "ownership epoch must be positive".

Definition validateClientMutation (clientID : string) (epoch : Z) (operationID : string) : option error :=
  validateClient clientID epoch >>> token "client operation ID" operationID 128.

Definition validateRunMutation (clientID : string) (epoch : Z) (operationID runID : string) : option error :=
  validateClientMutation clientID epoch operationID >>> token "run ID" runID 128.

Definition validateBoundedJSON (label value : string) (maximum : Z) : option error :=
  when (String.eqb value "" || (slen value >? maximum) || negb (json_valid value))
    (label +:+ " must be bounded valid JSON").
Definition validateJSON (label value : string) : option error := validateBoundedJSON label value maximumJSONBytes.

(** ** Protocol versions *)

Definition validateNegotiatedProtocol (version : option ProtocolVersion) : option error :=
  let selected := Some (mkRange version version) in
  ValidateProtocolRange selected
  >>> let '(negotiated, status) := NegotiateProtocol selected (Some SupportedProtocolRange) in
      when (negb (st_code status =? ERROR_CODE_OK)
            || negb (match negotiated, version with
                     | Some a, Some b => (pv_major a =? pv_major b) && (pv_minor a =? pv_minor b) && (pv_patch a =? pv_patch b)
                     | None, None => true
                     | _, _ => false
                     end))
        "protocol version is outside the supported range".

Definition ValidateInteractionStreamProtocol (version : option ProtocolVersion) : option error :=
  validateNegotiatedProtocol version
  >>> when (GetMinor version <? InteractionStreamMinimumMinor) "protocol minor 2 is required for interaction streams".

(** ** Definitions *)

Definition validateDefinition (value : option Wire.Definition_) : option error :=
  match value with
  | None => Some (Errorf "definition is required")
  | Some d =>
      tokens maximumTokenBytes
        [("definition ID", Wire.df_id d); ("definition revision", Wire.df_revision d); ("model", Wire.df_model d)]%string
      >>> when ((Wire.df_maxTurns d =? 0) || (Wire.df_maxTurns d >? maximumDefinitionTurns))
            "agent definition max turns must be between 1 and 1000"
  end.

Definition definition_key (value : option Wire.Definition_) : string :=
  match value with Some d => Wire.df_id d +:+ NUL +:+ Wire.df_revision d | None => NUL end.

Fixpoint definitions_loop (index : N) (previous : string) (definitions : list (option Wire.Definition_)) : option error :=
  match definitions with
  | [] => None
  | definition :: rest =>
      wrap ("definition " +:+ pretty index +:+ ": ") (validateDefinition definition)
      >>> when (String.leb (definition_key definition) previous) "definitions must be sorted and unique by ID and revision"
      >>> definitions_loop (N.succ index) (definition_key definition) rest
  end.

(** Why [ResolveDefinition] fails. *)
Inductive resolve_error := ResolveInvalid (err : error) | ResolveUnavailable (id revision : string).

Fixpoint find_definition (id revision : string) (definitions : list (option Wire.Definition_)) : option Wire.Definition_ :=
  match definitions with
  | [] => None
  | Some d :: rest =>
      if String.eqb (Wire.df_id d) id && String.eqb (Wire.df_revision d) revision then Some d
      else find_definition id revision rest
  | None :: rest => find_definition id revision rest
  end.

(** ** Ownership *)

Definition validateReconnectClaim (claim : option Wire.ReconnectClaim) : option error :=
  match claim with
  | None => None
  | Some c =>
      token "reconnect client ID" (Wire.rc_clientID c) 128
      >>> when ((Wire.rc_expectedOwnershipEpoch c =? 0) || (Wire.rc_expectedOwnershipEpoch c =? maxUint64))
            "reconnect expected ownership epoch must be incrementable"
  end.

Definition validateReconnectResult (claim : option Wire.ReconnectClaim) (clientID : string) (ownershipEpoch : Z)
  : option error :=
  token "client ID" clientID 128
  >>> match claim with
      | None => when (negb (ownershipEpoch =? 1)) "new client ownership epoch must be one"
      | Some c =>
          validateReconnectClaim claim
          >>> when (negb (String.eqb clientID (Wire.rc_clientID c))
                    || negb (ownershipEpoch =? Wire.rc_expectedOwnershipEpoch c +64 1))
                "reconnect result does not satisfy the ownership epoch compare-and-swap"
      end.

Definition CheckClientOwnership (clientID : string) (observedEpoch : Z) (expectedClientID : string) (expectedEpoch : Z)
  : option Status :=
  if String.eqb clientID expectedClientID && (observedEpoch =? expectedEpoch) && negb (expectedEpoch =? 0) then None
  else Some (mkStatus ERROR_CODE_STALE_CLIENT "client ownership is stale" false ""
               (Some (Status_StaleClient (Some (mkStaleClient expectedEpoch observedEpoch))))).

(** ** Messages *)

Definition validateTextPart (text : string) : option error :=
  when (String.eqb text "" || (slen text >? maximumJSONBytes)) "text part must be non-empty and bounded".

Definition validateToolCallPart (call : option Wire.ToolCallPart) : option error :=
  match call with
  | None => Some (Errorf "tool call part is required")
  | Some c =>
      token "tool call ID" (Wire.tc_callID c) 128 >>> token "tool name" (Wire.tc_name c) 128
      >>> validateJSON "tool arguments" (Wire.tc_argumentsJSON c)
  end.

Definition validateToolResultPart (result : option Wire.ToolResultPart) : option error :=
  match result with
  | None => Some (Errorf "tool result part is required")
  | Some r =>
      token "tool call ID" (Wire.tr_callID r) 128 >>> token "tool name" (Wire.tr_name r) 128
      >>> validateJSON "tool result" (Wire.tr_resultJSON r)
  end.

Definition validateExtensionPart (extension : option Wire.ExtensionPart) : option error :=
  match extension with
  | None => Some (Errorf "extension part is required")
  | Some x =>
      token "extension namespace" (Wire.xp_namespace x) maximumTokenBytes
      >>> validateJSON "extension value" (Wire.xp_valueJSON x)
  end.

Definition validateContentPart (part : option Wire.ContentPart) : option error :=
  match part with
  | None => Some (Errorf "content part is required")
  | Some p =>
      match Wire.cp_value p with
      | Some (Wire.ContentPart_Text text) => validateTextPart text
      | Some (Wire.ContentPart_ToolCall call) => validateToolCallPart call
      | Some (Wire.ContentPart_ToolResult result) => validateToolResultPart result
      | Some (Wire.ContentPart_Extension extension) => validateExtensionPart extension
      | None => Some (Errorf "content part union is unspecified")
      end
  end.

Fixpoint parts_loop (index : N) (parts : list (option Wire.ContentPart)) : option error :=
  match parts with
  | [] => None
  | part :: rest =>
      wrap ("message part " +:+ pretty index +:+ ": ") (validateContentPart part) >>> parts_loop (N.succ index) rest
  end.

Definition known_role (role : Z) : bool :=
  existsb (Z.eqb role) [Wire.MESSAGE_ROLE_SYSTEM; Wire.MESSAGE_ROLE_USER; Wire.MESSAGE_ROLE_ASSISTANT; Wire.MESSAGE_ROLE_TOOL].

Definition ValidateMessage (value : option Wire.Message) : option error :=
  match value with
  | None => Some (Errorf "message is required")
  | Some m =>
      token "message ID" (Wire.ms_id m) 128
      >>> when (negb (known_role (Wire.ms_role m))) ("message role " +:+ pretty (Wire.ms_role m) +:+ " is unsupported")
      >>> when ((lenZ (Wire.ms_parts m) =? 0) || (lenZ (Wire.ms_parts m) >? maximumMessageParts))
            "message part count must be between 1 and 128"
      >>> parts_loop 0 (Wire.ms_parts m)
  end.

(** ** Events *)

Definition knownEventKind (kind : Z) : bool := (kind >=? 1) && (kind <=? 19).
Definition terminalEventKind (kind : Z) : bool :=
  existsb (Z.eqb kind) [2; 3; 4; 6; 7; 10; 11; 14; 15; 17; 18; 19].

Definition ValidateRunEvent (value : option Wire.RunEvent) : option error :=
  match value with
  | None => Some (Errorf "run event is required")
  | Some e =>
      token "run ID" (Wire.re_runID e) 128
      >>> when ((Wire.re_sequence e =? 0) || (Wire.re_unixNano e <=? 0)) "run event requires positive sequence and timestamp"
      >>> when (negb (knownEventKind (Wire.re_kind e))) ("run event kind " +:+ pretty (Wire.re_kind e) +:+ " is unsupported")
      >>> when (negb (Bool.eqb (Wire.re_terminal e) (terminalEventKind (Wire.re_kind e))))
            "run event terminal flag does not match its kind"
      >>> when ((slen (Wire.re_payloadJSON e) >? maximumJSONBytes)
                || (negb (String.eqb (Wire.re_payloadJSON e) "") && negb (json_valid (Wire.re_payloadJSON e))))
            "run event payload must be empty or bounded valid JSON"
  end.

(** The windows a log can retain: events [earliest..latest], or none after
    [latest]. *)
Definition validWindow (earliest latest : Z) : bool := (earliest >? 0) && (latest >=? earliest).
Definition emptyWindow (earliest latest : Z) : bool :=
  (earliest >? 0) && (latest <? maxUint64) && (earliest =? latest +64 1).

Definition CheckReplayCursor (requestedAfter earliest latest : Z) : option Status :=
  if (emptyWindow earliest latest && (requestedAfter =? latest))
     || (validWindow earliest latest && negb (requestedAfter =? maxUint64)
         && (requestedAfter +64 1 >=? earliest) && (requestedAfter <=? latest)) then None
  else
    let recovery := if requestedAfter <? earliest then earliest -64 1 else latest in
    Some (mkStatus ERROR_CODE_OUT_OF_RANGE "requested event cursor is outside the retained replay window" false ""
            (Some (Status_ReplayBounds (Some (mkReplayBounds requestedAfter earliest latest recovery))))).

Definition OverloadStatus (resource : string) (limit observed : Z) : Status :=
  mkStatus ERROR_CODE_RESOURCE_EXHAUSTED "protocol resource limit exceeded" false ""
    (Some (Status_Overload (Some (mkOverload resource limit observed)))).

Definition validateLegacyStreamControl (value : Wire.StreamControl) (earliest latest : Z) : option error :=
  when (Wire.sc_hasMore value || Wire.sc_tailing value) "stream control page cursor is required for paging or tailing"
  >>> when ((Wire.sc_lastDeliveredSequence value <? earliest -64 1) || (Wire.sc_lastDeliveredSequence value >? latest))
        "legacy stream control delivery cursor is outside retained bounds".

Definition validateCurrentStreamControl (value : Wire.StreamControl) (pageLast earliest latest : Z) : option error :=
  when ((pageLast <? earliest -64 1) || (pageLast >? latest)
        || (Wire.sc_lastDeliveredSequence value <? earliest -64 1) || (Wire.sc_lastDeliveredSequence value >? pageLast))
    "stream control cursors exceed the captured latest sequence"
  >>> when (negb (Bool.eqb (Wire.sc_hasMore value) (pageLast <? latest)))
        "stream control has_more must exactly identify a non-final page"
  >>> when (Wire.sc_hasMore value && Wire.sc_tailing value) "stream control cannot tail a non-final page"
  >>> when (Wire.sc_tailing value && negb (pageLast =? latest))
        "stream control may tail only from the captured latest sequence".

Definition validateSuccessfulStreamControl (value : Wire.StreamControl) : option error :=
  let earliest := Wire.sc_earliestSequence value in
  let latest := Wire.sc_latestSequence value in
  when (negb (validWindow earliest latest) && negb (emptyWindow earliest latest))
    "stream control retained bounds are invalid"
  >>> match Wire.sc_pageLastSequence value with
      | None => validateLegacyStreamControl value earliest latest
      | Some pageLast => validateCurrentStreamControl value pageLast earliest latest
      end.

Definition ValidateStreamControl (value : option Wire.StreamControl) : option error :=
  match value with
  | None => Some (Errorf "stream control is required")
  | Some c =>
      ValidateStatus (Wire.sc_status c)
      >>> if negb (GetCode (Wire.sc_status c) =? ERROR_CODE_OK) then None else validateSuccessfulStreamControl c
  end.

(** ** Interactions *)

Definition ValidatePendingInteraction (value : option Wire.PendingInteraction) : option error :=
  match value with
  | None => Some (Errorf "pending interaction is required")
  | Some p =>
      tokens 128 [("run ID", Wire.pi_runID p); ("interaction ID", Wire.pi_interactionID p);
                  ("interaction kind", Wire.pi_kind p)]%string
      >>> when (negb (trimmed_nonempty (Wire.pi_prompt p)) || (slen (Wire.pi_prompt p) >? maximumInteractionBytes))
            "interaction prompt must be non-empty, trimmed, and bounded"
      >>> validateBoundedJSON "interaction schema" (Wire.pi_schemaJSON p) maximumInteractionBytes
  end.

Definition interactionKey (value : option Wire.PendingInteraction) : string :=
  match value with Some p => Wire.pi_runID p +:+ NUL +:+ Wire.pi_interactionID p | None => NUL end.

Fixpoint pending_loop (index : N) (previous : string) (pending : list (option Wire.PendingInteraction)) : option error :=
  match pending with
  | [] => None
  | item :: rest =>
      wrap ("pending interaction " +:+ pretty index +:+ ": ") (ValidatePendingInteraction item)
      >>> when (String.leb (interactionKey item) previous)
            "pending interactions must be sorted and unique by run and interaction ID"
      >>> pending_loop (N.succ index) (interactionKey item) rest
  end.

Definition ValidateInteractionDelta (value : option Wire.InteractionDelta) : option error :=
  match value with
  | None => Some (Errorf "interaction delta is required")
  | Some d =>
      when (Wire.id_revision d =? 0) "interaction delta revision must be positive"
      >>> when (negb (Wire.id_kind d =? Wire.INTERACTION_DELTA_KIND_OPENED)
                && negb (Wire.id_kind d =? Wire.INTERACTION_DELTA_KIND_CLOSED))
            ("interaction delta kind " +:+ pretty (Wire.id_kind d) +:+ " is unsupported")
      >>> ValidatePendingInteraction (Wire.id_interaction d)
  end.

Definition ValidateInteractionStreamControl (value : option Wire.InteractionStreamControl) : option error :=
  match value with
  | None => Some (Errorf "interaction stream control is required")
  | Some c =>
      ValidateStatus (Wire.ic_status c)
      >>> if negb (GetCode (Wire.ic_status c) =? ERROR_CODE_OK) then None
          else
            when (Wire.ic_pageLastRevision c >? Wire.ic_latestRevision c)
              "interaction page cursor exceeds the captured latest revision"
            >>> when (negb (Bool.eqb (Wire.ic_hasMore c) (Wire.ic_pageLastRevision c <? Wire.ic_latestRevision c)))
                  "interaction has_more must exactly identify a non-final page"
            >>> when (Wire.ic_hasMore c && Wire.ic_tailing c) "interaction stream cannot tail a non-final page"
            >>> when (Wire.ic_tailing c && negb (Wire.ic_pageLastRevision c =? Wire.ic_latestRevision c))
                  "interaction stream may tail only from the captured latest revision"
  end.

Definition validateRespondInteractionFields (request : Wire.RespondInteractionRequest) : option error :=
  validateClientMutation (Wire.rq_clientID request) (Wire.rq_ownershipEpoch request) (Wire.rq_clientOperationID request)
  >>> token "run ID" (Wire.rq_runID request) 128
  >>> token "interaction ID" (Wire.rq_interactionID request) 128
  >>> validateBoundedJSON "interaction response" (Wire.rq_valueJSON request) maximumInteractionBytes.

Definition ValidateInteractionResponse (request : option Wire.RespondInteractionRequest) (expectedClientID : string)
  (expectedEpoch : Z) (expectedRunID expectedInteractionID : string) : Status :=
  match request with
  | None => protocolStatus ERROR_CODE_INVALID_ARGUMENT "interaction response is required"
  | Some r =>
      match CheckClientOwnership (Wire.rq_clientID r) (Wire.rq_ownershipEpoch r) expectedClientID expectedEpoch with
      | Some stale => stale
      | None =>
          match validateRespondInteractionFields r with
          | Some err => protocolStatus ERROR_CODE_INVALID_ARGUMENT (Error err)
          | None =>
              if negb (String.eqb (Wire.rq_runID r) expectedRunID)
                 || negb (String.eqb (Wire.rq_interactionID r) expectedInteractionID) then
                protocolStatus ERROR_CODE_CONFLICT "interaction correlation does not match the pending request"
              else OKStatus
          end
      end
  end.

(** ** Validators that bound the encoded size *)

Section Sized.
Context (Size : Wire.ProtoMessage -> Z).

(** [ValidateEncodedSize(value, limits.GetMaxMessageBytes())]. *)
Definition fits (value : Wire.ProtoMessage) (limits : Limits) : option error :=
  ValidateEncodedSize (Size value) (wl_maxMessageBytes limits).

Definition validateUnarySize (value : Wire.ProtoMessage) (limits : option Limits) : option error :=
  ValidateLimits limits >>> match limits with Some l => fits value l | None => None end.

Definition ValidateDefinitionSet (value : option Wire.DefinitionSet) (limits : option Limits) : option error :=
  match value with
  | None => Some (Errorf "definition set is required")
  | Some v =>
      token "definition set revision" (Wire.ds_revision v) maximumTokenBytes
      >>> ValidateLimits limits
      >>> match limits with
          | None => None
          | Some l =>
              when ((lenZ (Wire.ds_definitions v) =? 0) || (lenZ (Wire.ds_definitions v) >? wl_maxCollectionItems l))
                ("definition count must be between 1 and " +:+ pretty (wl_maxCollectionItems l))
              >>> definitions_loop 0 "" (Wire.ds_definitions v)
              >>> fits (Wire.MDefinitionSet v) l
          end
  end.

Definition ResolveDefinition (reference : option Wire.AgentDefinitionRef) (definitions : option Wire.DefinitionSet)
  (limits : option Limits) : result resolve_error Wire.Definition_ :=
  match reference with
  | None => Err (ResolveInvalid (Errorf "agent definition reference is required"))
  | Some r =>
      match token "definition ID" (Wire.ar_id r) maximumTokenBytes
            >>> token "definition revision" (Wire.ar_revision r) maximumTokenBytes
            >>> ValidateDefinitionSet definitions limits with
      | Some err => Err (ResolveInvalid err)
      | None =>
          match find_definition (Wire.ar_id r) (Wire.ar_revision r)
                  (match definitions with Some d => Wire.ds_definitions d | None => [] end) with
          | Some d => Ok d
          | None => Err (ResolveUnavailable (Wire.ar_id r) (Wire.ar_revision r))
          end
      end
  end.

Definition ValidateStartRunRequest (request : option Wire.StartRunRequest) (limits : option Limits) : option error :=
  match request with
  | None => Some (Errorf "start run request is required")
  | Some r =>
      ValidateLimits limits
      >>> validateClientMutation (Wire.sq_clientID r) (Wire.sq_ownershipEpoch r) (Wire.sq_clientOperationID r)
      >>> match Wire.sq_definition r, limits with
          | None, _ => Some (Errorf "agent definition reference is required")
          | Some d, Some l =>
              tokens maximumTokenBytes [("definition ID", Wire.ar_id d); ("definition revision", Wire.ar_revision d)]%string
              >>> wrap "initial message: " (ValidateMessage (Wire.sq_input r))
              >>> match Wire.sq_input r with
                  | None => None
                  | Some m =>
                      when (negb (Wire.ms_role m =? Wire.MESSAGE_ROLE_USER)) "initial message must have the user role"
                      >>> when (lenZ (Wire.ms_parts m) >? wl_maxCollectionItems l)
                            ("initial message part count exceeds " +:+ pretty (wl_maxCollectionItems l))
                  end
              >>> fits (Wire.MStartRunRequest r) l
          | _, None => None
          end
  end.

Definition ValidateStreamEventsRequest (request : option Wire.StreamEventsRequest) (limits : option Limits) : option error :=
  match request with
  | None => Some (Errorf "stream events request is required")
  | Some r =>
      validateClient (Wire.eq_clientID r) (Wire.eq_ownershipEpoch r)
      >>> token "run ID" (Wire.eq_runID r) 128
      >>> ValidateLimits limits
      >>> match limits with
          | None => None
          | Some l =>
              when ((Wire.eq_replayLimit r =? 0) || (Wire.eq_replayLimit r >? wl_maxReplayEvents l))
                ("replay limit must be between 1 and " +:+ pretty (wl_maxReplayEvents l))
              >>> fits (Wire.MStreamEventsRequest r) l
          end
  end.

(** [ValidateEventBatch]; [total] is the running encoded size, [expected] the
    sequence before the next event's. *)
Fixpoint batch_loop (runID : string) (limits : Limits) (index : N) (expected total : Z) (events : list (option Wire.RunEvent))
  : option error :=
  match events with
  | [] => None
  | current :: rest =>
      if expected =? maxUint64 then Some (Errorf "event sequence overflow")
      else
        let expected := expected +64 1 in
        wrap ("event " +:+ pretty index +:+ ": ") (ValidateRunEvent current)
        >>> match current with
            | None => None
            | Some e =>
                when (negb (String.eqb (Wire.re_runID e) runID) || negb (Wire.re_sequence e =? expected))
                  ("event " +:+ pretty index +:+ " is not the next ordered event")
                >>> let size := Size (Wire.MRunEvent e) in
                    when (size <? 0) ("event " +:+ pretty index +:+ " has an invalid encoded size")
                    >>> let total := total +64 size in
                        when (total >? wl_maxReplayBytes limits)
                          ("event replay size " +:+ pretty total +:+ " exceeds " +:+ pretty (wl_maxReplayBytes limits))
                        >>> batch_loop runID limits (N.succ index) expected total rest
            end
  end.

Definition ValidateEventBatch (runID : string) (afterSequence : Z) (events : list (option Wire.RunEvent)) (limits : option Limits)
  : option error :=
  token "run ID" runID 128
  >>> ValidateLimits limits
  >>> match limits with
      | None => None
      | Some l =>
          when (lenZ events >? wl_maxReplayEvents l)
            ("event count " +:+ pretty (lenZ events) +:+ " exceeds " +:+ pretty (wl_maxReplayEvents l))
          >>> batch_loop runID l 0 afterSequence 0 events
      end.

Definition ValidateInteractionSnapshot (value : option Wire.InteractionSnapshot) (limits : option Limits) : option error :=
  match value with
  | None => Some (Errorf "interaction snapshot is required")
  | Some v =>
      ValidateLimits limits
      >>> match limits with
          | None => None
          | Some l =>
              when (lenZ (Wire.is_pending v) >? wl_maxCollectionItems l)
                ("pending interaction count exceeds " +:+ pretty (wl_maxCollectionItems l))
              >>> pending_loop 0 "" (Wire.is_pending v)
              >>> fits (Wire.MInteractionSnapshot v) l
          end
  end.

(** ** Unary requests and responses *)

Definition validateStatusCollections (status : option Status) (limits : option Limits) : option error :=
  match status, limits with
  | Some s, Some l =>
      match st_detail s with
      | Some (Status_CapabilityMismatch (Some d)) =>
          when ((lenZ (cm_required d) >? wl_maxCollectionItems l) || (lenZ (cm_available d) >? wl_maxCollectionItems l)
                || (lenZ (cm_missing d) >? wl_maxCollectionItems l))
            "capability-mismatch detail exceeds the negotiated collection limit"
      | _ => None
      end
  | _, _ => None
  end.

Definition validateUnaryStatus (status : option Status) (limits : option Limits) : option error :=
  ValidateLimits limits >>> ValidateStatus status >>> validateStatusCollections status limits >>> AsError status.

(** The shape of every response validator: a failed response carries nothing but
    its status, a successful one passes [success]. *)
Definition validate_response (status : option Status) (carries : bool) (text : string) (value : Wire.ProtoMessage)
  (limits : option Limits) (success : option error) : option error :=
  match validateUnaryStatus status limits with
  | Some statusErr => when carries text >>> validateUnarySize value limits >>> Some statusErr
  | None => success
  end.

Definition set {A} (o : option A) : bool := match o with Some _ => true | None => false end.
Definition nonempty (s : string) : bool := negb (String.eqb s "").
Definition nonzero (z : Z) : bool := negb (z =? 0).

Definition ValidateHealthRequest (request : option Wire.HealthRequest) (limits : option Limits) : option error :=
  match request with
  | None => Some (Errorf "health request is required")
  | Some r =>
      validateClient (Wire.hq_clientID r) (Wire.hq_ownershipEpoch r) >>> validateUnarySize (Wire.MHealthRequest r) limits
  end.

Definition ValidateHealthResponse (response : option Wire.HealthResponse) (limits : option Limits) : option error :=
  match response with
  | None => Some (Errorf "health response is required")
  | Some r =>
      validate_response (Wire.hp_status r) (set (Wire.hp_server r) || set (Wire.hp_protocol r) || set (Wire.hp_health r))
        "failed health response contains success fields" (Wire.MHealthResponse r) limits
        (wrap "health server: " (ValidateBuildIdentity (Wire.hp_server r))
         >>> wrap "health protocol: " (validateNegotiatedProtocol (Wire.hp_protocol r))
         >>> wrap "health summary: " (ValidateHealth (Wire.hp_health r))
         >>> ValidateLimits limits
         >>> match limits, Wire.hp_health r with
             | Some l, Some h =>
                 when (lenZ (he_degradedReasons h) >? wl_maxCollectionItems l)
                   "health degraded reason count exceeds the negotiated collection limit"
                 >>> fits (Wire.MHealthResponse r) l
             | _, _ => None
             end)
  end.

Definition ValidateStartRunResponse (response : option Wire.StartRunResponse) (limits : option Limits) : option error :=
  match response with
  | None => Some (Errorf "start run response is required")
  | Some r =>
      validate_response (Wire.sp_status r)
        (nonempty (Wire.sp_runID r) || nonzero (Wire.sp_initialSequence r) || Wire.sp_duplicateOperation r
         || nonempty (Wire.sp_planID r))
        "failed start run response contains success fields" (Wire.MStartRunResponse r) limits
        (token "run ID" (Wire.sp_runID r) 128
         >>> when (negb (Wire.sp_initialSequence r =? 1)) "start run response initial sequence must be one"
         >>> token "plan ID" (Wire.sp_planID r) maximumTokenBytes
         >>> validateUnarySize (Wire.MStartRunResponse r) limits)
  end.

Definition ValidateCancelRunRequest (request : option Wire.CancelRunRequest) (limits : option Limits) : option error :=
  match request with
  | None => Some (Errorf "cancel run request is required")
  | Some r =>
      validateClientMutation (Wire.cq_clientID r) (Wire.cq_ownershipEpoch r) (Wire.cq_clientOperationID r)
      >>> token "run ID" (Wire.cq_runID r) 128
      >>> (if nonempty (Wire.cq_reason r) then token "cancellation reason" (Wire.cq_reason r) 1024 else None)
      >>> validateUnarySize (Wire.MCancelRunRequest r) limits
  end.

Definition ValidateCancelRunResponse (response : option Wire.CancelRunResponse) (limits : option Limits) : option error :=
  match response with
  | None => Some (Errorf "cancel run response is required")
  | Some r =>
      validate_response (Wire.cr_status r)
        (Wire.cr_cancellationRequested r || Wire.cr_alreadyTerminal r || nonzero (Wire.cr_terminalSequence r))
        "failed cancel run response contains success fields" (Wire.MCancelRunResponse r) limits
        (when (Bool.eqb (Wire.cr_cancellationRequested r) (Wire.cr_alreadyTerminal r))
           "cancel run response requires exactly one cancellation outcome"
         >>> when (Wire.cr_alreadyTerminal r && (Wire.cr_terminalSequence r =? 0))
               "already-terminal cancellation requires a terminal sequence"
         >>> when (Wire.cr_cancellationRequested r && nonzero (Wire.cr_terminalSequence r))
               "new cancellation cannot claim a terminal sequence"
         >>> validateUnarySize (Wire.MCancelRunResponse r) limits)
  end.

Definition ValidateRespondInteractionRequest (request : option Wire.RespondInteractionRequest) (limits : option Limits)
  : option error :=
  match request with
  | None => Some (Errorf "respond interaction request is required")
  | Some r => validateRespondInteractionFields r >>> validateUnarySize (Wire.MRespondInteractionRequest r) limits
  end.

Definition ValidateRespondInteractionResponse (response : option Wire.RespondInteractionResponse) (limits : option Limits)
  : option error :=
  match response with
  | None => Some (Errorf "respond interaction response is required")
  | Some r =>
      validate_response (Wire.rp_status r) (Wire.rp_accepted r || Wire.rp_duplicateOperation r)
        "failed interaction response contains success fields" (Wire.MRespondInteractionResponse r) limits
        (when (negb (Wire.rp_accepted r)) "successful interaction response must be accepted"
         >>> validateUnarySize (Wire.MRespondInteractionResponse r) limits)
  end.

Definition ValidateSuspendRunRequest (request : option Wire.SuspendRunRequest) (limits : option Limits) : option error :=
  match request with
  | None => Some (Errorf "suspend run request is required")
  | Some r =>
      validateRunMutation (Wire.uq_clientID r) (Wire.uq_ownershipEpoch r) (Wire.uq_clientOperationID r) (Wire.uq_runID r)
      >>> validateUnarySize (Wire.MSuspendRunRequest r) limits
  end.

Definition ValidateSuspendRunResponse (response : option Wire.SuspendRunResponse) (limits : option Limits) : option error :=
  match response with
  | None => Some (Errorf "suspend run response is required")
  | Some r =>
      validate_response (Wire.up_status r)
        (Wire.up_suspended r || nonzero (Wire.up_boundarySequence r) || Wire.up_duplicateOperation r)
        "failed suspend run response contains success fields" (Wire.MSuspendRunResponse r) limits
        (when (negb (Wire.up_suspended r) || (Wire.up_boundarySequence r =? 0) || (Wire.up_boundarySequence r =? maxUint64))
           "successful suspend response requires a positive resumable boundary"
         >>> validateUnarySize (Wire.MSuspendRunResponse r) limits)
  end.

Definition ValidateResumeRunRequest (request : option Wire.ResumeRunRequest) (limits : option Limits) : option error :=
  match request with
  | None => Some (Errorf "resume run request is required")
  | Some r =>
      validateRunMutation (Wire.mq_clientID r) (Wire.mq_ownershipEpoch r) (Wire.mq_clientOperationID r) (Wire.mq_runID r)
      >>> validateUnarySize (Wire.MResumeRunRequest r) limits
  end.

Definition ValidateResumeRunResponse (response : option Wire.ResumeRunResponse) (limits : option Limits) : option error :=
  match response with
  | None => Some (Errorf "resume run response is required")
  | Some r =>
      validate_response (Wire.mp_status r)
        (Wire.mp_resumed r || nonzero (Wire.mp_nextSequence r) || Wire.mp_duplicateOperation r)
        "failed resume run response contains success fields" (Wire.MResumeRunResponse r) limits
        (when (negb (Wire.mp_resumed r) || (Wire.mp_nextSequence r =? 0) || (Wire.mp_nextSequence r =? maxUint64))
           "successful resume response requires a positive usable next sequence"
         >>> validateUnarySize (Wire.MResumeRunResponse r) limits)
  end.

Definition ValidateExportSnapshotRequest (request : option Wire.ExportSnapshotRequest) (limits : option Limits) : option error :=
  match request with
  | None => Some (Errorf "export snapshot request is required")
  | Some r =>
      validateClient (Wire.xq_clientID r) (Wire.xq_ownershipEpoch r)
      >>> token "run ID" (Wire.xq_runID r) 128
      >>> validateUnarySize (Wire.MExportSnapshotRequest r) limits
  end.

Definition ValidateImportSnapshotResponse (response : option Wire.ImportSnapshotResponse) (limits : option Limits)
  : option error :=
  match response with
  | None => Some (Errorf "import snapshot response is required")
  | Some r =>
      validate_response (Wire.jp_status r)
        (nonempty (Wire.jp_runID r) || nonzero (Wire.jp_nextSequence r) || Wire.jp_duplicateOperation r)
        "failed import snapshot response contains success fields" (Wire.MImportSnapshotResponse r) limits
        (token "run ID" (Wire.jp_runID r) 128
         >>> when ((Wire.jp_nextSequence r =? 0) || (Wire.jp_nextSequence r =? maxUint64))
               "successful import response requires a positive usable next sequence"
         >>> validateUnarySize (Wire.MImportSnapshotResponse r) limits)
  end.

End Sized.

(** ** Unknown fields *)

Section Unknown.
Context (Size : Wire.ProtoMessage -> Z)
  (ConsumeTag : list Z -> Z * Z * Z) (ConsumeFieldValue : Z -> Z -> list Z -> Z).

(** [hasUnknownFieldNumber]: every round consumes at least a tag, so the length
    of the text is enough fuel; [None] is the malformed case. *)
Fixpoint unknown_loop (fuel : nat) (encoded : list Z) (field : Z) : option bool :=
  match encoded, fuel with
  | [], _ => Some false
  | _, O => None
  | _, S fuel =>
      let '(number, kind, tagBytes) := ConsumeTag encoded in
      if tagBytes <? 0 then None
      else
        let valueBytes := ConsumeFieldValue number kind (drop (Z.to_nat tagBytes) encoded) in
        if valueBytes <? 0 then None
        else if number =? field then Some true
        else unknown_loop fuel (drop (Z.to_nat (tagBytes + valueBytes)) encoded) field
  end.
Definition hasUnknownFieldNumber (encoded : list Z) (field : Z) : option bool := unknown_loop (length encoded) encoded field.

Definition ValidateStreamInteractionsRequest (request : option Wire.StreamInteractionsRequest)
  (protocol : option ProtocolVersion) (limits : option Limits) : option error :=
  match request with
  | None => Some (Errorf "stream interactions request is required")
  | Some r =>
      ValidateInteractionStreamProtocol protocol
      >>> validateClient (Wire.tq_clientID r) (Wire.tq_ownershipEpoch r)
      >>> ValidateLimits limits
      >>> match hasUnknownFieldNumber (Wire.tq_unknown r) 3 with
          | None => Some (Errorf "interaction request contains malformed unknown fields")
          | Some legacyReplay =>
              when legacyReplay "provisional interaction replay field is unsupported"
              >>> match limits with Some l => fits Size (Wire.MStreamInteractionsRequest r) l | None => None end
          end
  end.
End Unknown.

(** ** Lemmas: keys joined with NUL *)

Definition nul_free (s : string) : Prop := contains_any s [0] = false.

Lemma nul_free_cons c s : nul_free (String c s) <-> c <> Ascii.ascii_of_nat 0 /\ nul_free s.
Proof.
  unfold nul_free, contains_any. change (byte_codes (String c s)) with (Z.of_N (Ascii.N_of_ascii c) :: byte_codes s).
  cbn [existsb]. rewrite orb_false_r, orb_false_iff, Z.eqb_neq.
  assert (Z.of_N (Ascii.N_of_ascii c) <> 0 <-> c <> Ascii.ascii_of_nat 0) as ->; [|done].
  split; intros Hc H; apply Hc; [by subst|]. rewrite <- (Ascii.ascii_N_embedding c).
  assert (Ascii.N_of_ascii c = 0%N) as -> by lia. done.
Qed.

Lemma contains_any_sub s xs ys : (forall x, x ∈ ys -> x ∈ xs) -> contains_any s xs = false -> contains_any s ys = false.
Proof.
  intros Hsub. rewrite <- !not_true_iff_false. unfold contains_any. rewrite !existsb_exists.
  intros Hn (c & Hc & He). apply Hn. exists c. split; [done|].
  apply existsb_exists in He as (x & Hx & E). apply existsb_exists. exists x. split; [|done].
  by apply list_elem_of_In, Hsub, list_elem_of_In.
Qed.

Lemma token_nul_free maximum s : token_ok maximum s -> nul_free s.
Proof.
  intros (_ & _ & Hc & _). apply (contains_any_sub s [0; 13; 10; 9]); [|done].
  intros x Hx. apply list_elem_of_singleton in Hx as ->. left.
Qed.

Lemma nul_compare c : c <> Ascii.ascii_of_nat 0 ->
  Ascii.compare (Ascii.ascii_of_nat 0) c = Lt /\ Ascii.compare c (Ascii.ascii_of_nat 0) = Gt.
Proof.
  intros Hc. unfold Ascii.compare. change (Ascii.N_of_ascii (Ascii.ascii_of_nat 0)) with 0%N.
  assert (Ascii.N_of_ascii c <> 0%N).
  { intros H. apply Hc. rewrite <- (Ascii.ascii_N_embedding c), H. done. }
  split; [apply N.compare_lt_iff; lia|apply N.compare_gt_iff; lia].
Qed.

(** Joined keys are ordered as pairs. *)
Lemma joined_order a : forall b x y, nul_free a -> nul_free b ->
  String.ltb (a +:+ NUL +:+ x) (b +:+ NUL +:+ y) = true <->
  String.ltb a b = true \/ (a = b /\ String.ltb x y = true).
Proof.
  induction a as [|c a IH]; intros [|d b] x y Ha Hb.
  - change ("" +:+ NUL +:+ x)%string with (String (Ascii.ascii_of_nat 0) x).
    change ("" +:+ NUL +:+ y)%string with (String (Ascii.ascii_of_nat 0) y). rewrite ltb_cons.
    rewrite ltb_irrefl. change (Ascii.compare (Ascii.ascii_of_nat 0) (Ascii.ascii_of_nat 0)) with Eq.
    split; [auto|intros [[=]|[_ H]]; done].
  - change ("" +:+ NUL +:+ x)%string with (String (Ascii.ascii_of_nat 0) x).
    change (String d b +:+ NUL +:+ y)%string with (String d (b +:+ NUL +:+ y)). rewrite ltb_cons.
    apply nul_free_cons in Hb as [Hd _]. rewrite (proj1 (nul_compare d Hd)). split; [by left|done].
  - change ("" +:+ NUL +:+ y)%string with (String (Ascii.ascii_of_nat 0) y).
    change (String c a +:+ NUL +:+ x)%string with (String c (a +:+ NUL +:+ x)). rewrite ltb_cons.
    apply nul_free_cons in Ha as [Hc _]. rewrite (proj2 (nul_compare c Hc)). split; [done|intros [[=]|[[=] _]]].
  - change (String d b +:+ NUL +:+ y)%string with (String d (b +:+ NUL +:+ y)).
    change (String c a +:+ NUL +:+ x)%string with (String c (a +:+ NUL +:+ x)). rewrite !ltb_cons.
    apply nul_free_cons in Ha as [_ Ha]. apply nul_free_cons in Hb as [_ Hb].
    pose proof (Ascii.compare_eq_iff c d) as He.
    destruct (Ascii.compare c d) eqn:E.
    + assert (c = d) as -> by (by apply He). rewrite IH by done.
      split; (intros [H|[H1 H2]]; [by left|right; split; [congruence|done]]).
    + split; [by left|done].
    + split; [done|intros [[=]|[[= -> _] _]]]. 
      unfold Ascii.compare in E. by rewrite N.compare_refl in E.
Qed.

Lemma joined_inj a b x y : nul_free a -> nul_free b -> (a +:+ NUL +:+ x = b +:+ NUL +:+ y)%string -> a = b /\ x = y.
Proof.
  revert b. induction a as [|c a IH]; intros [|d b] Ha Hb H.
  - by injection H.
  - injection H as <- _. apply nul_free_cons in Hb as [[] _]. done.
  - injection H as -> _. apply nul_free_cons in Ha as [[] _]. done.
  - injection H as -> H. apply nul_free_cons in Ha as [_ Ha]. apply nul_free_cons in Hb as [_ Hb].
    destruct (IH b Ha Hb H) as [-> ->]. done.
Qed.

(** A joined key is above the empty string the loops start from. *)
Lemma joined_positive a x : String.leb (a +:+ NUL +:+ x) "" = false.
Proof. by destruct a. Qed.

(** ** Lemmas: sorted collections *)

Lemma leb_negb a b : String.leb a b = negb (String.ltb b a).
Proof.
  destruct (String.ltb b a) eqn:E; cbn [negb].
  - apply ltb_spec in E as [H1 H2]. destruct (String.leb a b) eqn:H; [|done]. destruct H2. by apply (anti_symm string_le).
  - by apply ltb_false in E.
Qed.

Lemma definitions_loop_None definitions : forall index previous,
  definitions_loop index previous definitions = None <->
  Forall (fun d => validateDefinition d = None) definitions /\ ascending definition_key (Some previous) definitions = true.
Proof.
  induction definitions as [|d rest IH]; intros index previous; cbn [definitions_loop ascending]; [split; [split; [constructor|done]|done]|].
  rewrite !seq_None, wrap_None, when_None, leb_negb, negb_false_iff, IH, Forall_cons, andb_true_iff. tauto.
Qed.

Lemma pending_loop_None pending : forall index previous,
  pending_loop index previous pending = None <->
  Forall (fun p => ValidatePendingInteraction p = None) pending /\ ascending interactionKey (Some previous) pending = true.
Proof.
  induction pending as [|d rest IH]; intros index previous; cbn [pending_loop ascending]; [split; [split; [constructor|done]|done]|].
  rewrite !seq_None, wrap_None, when_None, leb_negb, negb_false_iff, IH, Forall_cons, andb_true_iff. tauto.
Qed.

Lemma ascending_empty {A} (key : A -> string) l :
  (forall x, x ∈ l -> key x <> ""%string) -> ascending key (Some ""%string) l = true <-> StronglySorted (key_lt key) l.
Proof.
  intros Hne. rewrite ascending_Some. split; [by intros [_ ?]|]. intros Hs. split; [|done].
  apply Forall_forall. intros x Hx. specialize (Hne x Hx). destruct (key x); [done|]. done.
Qed.

Lemma joined_nonempty a x : (a +:+ NUL +:+ x)%string <> ""%string.
Proof. by destruct a. Qed.

Lemma tokens_None maximum fields : tokens maximum fields = None <-> Forall (fun f => token_ok maximum f.2) fields.
Proof.
  induction fields as [|[label value] fields IH]; cbn [tokens]; [split; [constructor|done]|].
  unfold token. by rewrite seq_None, validateToken_None, IH, Forall_cons.
Qed.

Lemma definition_tokens d : validateDefinition (Some d) = None ->
  token_ok maximumTokenBytes (Wire.df_id d) /\ token_ok maximumTokenBytes (Wire.df_revision d)
  /\ token_ok maximumTokenBytes (Wire.df_model d) /\ Wire.df_maxTurns d <> 0 /\ Wire.df_maxTurns d <= maximumDefinitionTurns.
Proof.
  unfold validateDefinition. rewrite seq_None, tokens_None, when_None. intros [Hf Hw].
  apply orb_false_iff in Hw as [H1 H2]. bprop. rewrite !Forall_cons in Hf. cbn [snd] in Hf. tauto.
Qed.

Definition sorted_definitions (definitions : list (option Wire.Definition_)) : Prop :=
  Forall (fun d => validateDefinition d = None) definitions /\ StronglySorted (key_lt definition_key) definitions.

Lemma ValidateDefinitionSet_None Size value limits :
  ValidateDefinitionSet Size value limits = None <->
  exists v l, value = Some v /\ limits = Some l /\ token_ok maximumTokenBytes (Wire.ds_revision v) /\ ValidateLimits limits = None
    /\ 0 < lenZ (Wire.ds_definitions v) <= wl_maxCollectionItems l /\ sorted_definitions (Wire.ds_definitions v)
    /\ fits Size (Wire.MDefinitionSet v) l = None.
Proof.
  unfold ValidateDefinitionSet, sorted_definitions, token. destruct value as [v|]; [|split; [done|naive_solver]].
  destruct limits as [l|]; rewrite !seq_None; [|split; [intros (? & [=] & ?)|intros (? & ? & ? & [=] & ?)]].
  rewrite validateToken_None, when_None, definitions_loop_None, ascending_empty, orb_false_iff.
  2: { intros [d|] _; cbn [definition_key]; [apply joined_nonempty|done]. }
  rewrite Z.eqb_neq, Z.gtb_ltb, Z.ltb_ge. pose proof (lenZ_nonneg (Wire.ds_definitions v)). split.
  - intros (H1 & H2 & (H3 & H4) & H5 & H6). exists v, l. repeat (split; [done || lia|]). done.
  - intros (v' & l' & [= <-] & [= <-] & H1 & H2 & H3 & H4 & H5). repeat (split; [done || lia|]). done.
Qed.

Lemma find_definition_Some id revision definitions d :
  find_definition id revision definitions = Some d -> Some d ∈ definitions /\ Wire.df_id d = id /\ Wire.df_revision d = revision.
Proof.
  induction definitions as [|[e|] rest IH]; cbn [find_definition]; [done| |intros H; destruct (IH H); split; [by right|done]].
  destruct (String.eqb _ _ && String.eqb _ _) eqn:E.
  - intros [= ->]. apply andb_true_iff in E as [E1%String.eqb_eq E2%String.eqb_eq]. split; [left|done].
  - intros H; destruct (IH H); split; [by right|done].
Qed.

Lemma find_definition_None id revision definitions d :
  find_definition id revision definitions = None -> Some d ∈ definitions -> ~ (Wire.df_id d = id /\ Wire.df_revision d = revision).
Proof.
  intros Hf Hin [<- <-]. induction definitions as [|e rest IH]; [by apply elem_of_nil in Hin|]. cbn [find_definition] in Hf.
  apply elem_of_cons in Hin as [<-|Hin]; [by rewrite !String.eqb_refl in Hf|].
  destruct e as [e|]; [|by apply IH]. destruct (String.eqb _ _ && _); [done|by apply IH].
Qed.

Lemma sorted_definitions_unique definitions d d' :
  sorted_definitions definitions -> Some d ∈ definitions -> Some d' ∈ definitions ->
  Wire.df_id d = Wire.df_id d' -> Wire.df_revision d = Wire.df_revision d' -> d = d'.
Proof.
  intros [_ Hs] Hd Hd' Hi Hr. apply list_elem_of_lookup_1 in Hd as [i Hd], Hd' as [j Hd'].
  assert (forall i j x y, (i < j)%nat -> definitions !! i = Some (Some x) -> definitions !! j = Some (Some y) ->
    definition_key (Some x) <> definition_key (Some y)) as Hne.
  { intros i' j' x y Hij Hx Hy He. pose proof (sorted_lookup definition_key _ _ _ _ _ Hs Hij Hx Hy) as H.
    unfold key_lt in H. by rewrite He, ltb_irrefl in H. }
  destruct (lt_eq_lt_dec i j) as [[Hlt|Heq]|Hgt].
  - destruct (Hne i j d d' Hlt Hd Hd'). cbn. by rewrite Hi, Hr.
  - subst j. congruence.
  - destruct (Hne j i d' d Hgt Hd' Hd). cbn. by rewrite Hi, Hr.
Qed.

(** Resolution of a client's reference is exact: it succeeds with the one
    definition of a valid catalog that has the requested identity and revision,
    is refused as unavailable when there is none, and otherwise when the
    reference or the catalog is invalid. *)
Theorem resolve_definition_exact Size r definitions limits :
  match ResolveDefinition Size (Some r) definitions limits with
  | Ok d =>
      exists ds, definitions = Some ds /\ ValidateDefinitionSet Size definitions limits = None
        /\ Some d ∈ Wire.ds_definitions ds /\ Wire.df_id d = Wire.ar_id r /\ Wire.df_revision d = Wire.ar_revision r
        /\ forall d', Some d' ∈ Wire.ds_definitions ds -> Wire.df_id d' = Wire.ar_id r ->
             Wire.df_revision d' = Wire.ar_revision r -> d' = d
  | Err (ResolveUnavailable id revision) =>
      id = Wire.ar_id r /\ revision = Wire.ar_revision r /\ ValidateDefinitionSet Size definitions limits = None
      /\ forall ds d, definitions = Some ds -> Some d ∈ Wire.ds_definitions ds -> ~ (Wire.df_id d = id /\ Wire.df_revision d = revision)
  | Err (ResolveInvalid _) =>
      ~ token_ok maximumTokenBytes (Wire.ar_id r) \/ ~ token_ok maximumTokenBytes (Wire.ar_revision r)
      \/ ValidateDefinitionSet Size definitions limits <> None
  end.
Proof.
  unfold ResolveDefinition. destruct (_ >>> _) as [err|] eqn:E.
  - destruct (token "definition ID" _ _) eqn:H1; [left; rewrite <- validateToken_None; unfold token in H1; by rewrite H1|].
    destruct (token "definition revision" _ _) eqn:H2; [right; left; rewrite <- validateToken_None; unfold token in H2; by rewrite H2|].
    right; right. by rewrite E.
  - apply seq_None in E as [_ E]. apply seq_None in E as [_ E].
    pose proof E as Hv. apply ValidateDefinitionSet_None in Hv as (v & l & -> & -> & _ & _ & _ & Hs & _).
    destruct (find_definition _ _ _) as [d|] eqn:Hf.
    + apply find_definition_Some in Hf as (Hin & Hi & Hr). exists v. do 5 (split; [done|]).
      intros d' Hd' Hi' Hr'. apply (sorted_definitions_unique (Wire.ds_definitions v)); [done..|congruence|congruence].
    + do 3 (split; [done|]). intros ds d [= <-] Hd. by apply (find_definition_None _ _ _ _ Hf).
Qed.

(** ** Event batches *)

Definition event_size (Size : Wire.ProtoMessage -> Z) (e : option Wire.RunEvent) : Z := Wire.size_of Size Wire.MRunEvent e.

(** The events of one run, valid and numbered from [first] on. *)
Definition numbered_events (runID : string) (first : Z) (events : list (option Wire.RunEvent)) : Prop :=
  forall i e, events !! i = Some e -> exists ev, e = Some ev /\ ValidateRunEvent e = None
    /\ Wire.re_runID ev = runID /\ Wire.re_sequence ev = first + Z.of_nat i.

Lemma numbered_cons runID first e rest :
  numbered_events runID first (e :: rest) <->
  (exists ev, e = Some ev /\ ValidateRunEvent e = None /\ Wire.re_runID ev = runID /\ Wire.re_sequence ev = first)
  /\ numbered_events runID (first + 1) rest.
Proof.
  unfold numbered_events. split.
  - intros H. split.
    + destruct (H 0%nat e eq_refl) as (ev & ? & ? & ? & ?). exists ev. repeat (split; [done|]). lia.
    + intros i x Hx. destruct (H (S i) x Hx) as (ev & ? & ? & ? & ?). exists ev. repeat (split; [done|]). lia.
  - intros [(ev & E1 & E2 & E3 & E4) H] [|i] x Hx; cbn in Hx.
    + injection Hx as <-. exists ev. repeat (split; [done|]). lia.
    + destruct (H i x Hx) as (ev' & ? & ? & ? & ?). exists ev'. repeat (split; [done|]). lia.
Qed.

Lemma batch_loop_None Size runID l :
  (forall m, 0 <= Size m < 2 ^ 63) -> wl_maxReplayBytes l < 2 ^ 63 ->
  forall events index expected total, uint64_ok expected -> 0 <= total <= wl_maxReplayBytes l ->
  batch_loop Size runID l index expected total events = None <->
  expected + lenZ events <= maxUint64 /\ numbered_events runID (expected + 1) events
  /\ total + sumZ (event_size Size) events <= wl_maxReplayBytes l.
Proof.
  intros HS Hb. induction events as [|e rest IH]; intros index expected total He Ht; cbn [batch_loop].
  { rewrite lenZ_nil, sumZ_nil. unfold uint64_ok in He. split; [|done]. intros _. split; [lia|]. split; [|lia]. by intros i x. }
  rewrite lenZ_cons, sumZ_cons, numbered_cons. pose proof (lenZ_nonneg rest) as Hl.
  assert (0 <= sumZ (event_size Size) rest) as Hsum.
  { apply sumZ_nonneg, Forall_forall. intros x _. unfold event_size, Wire.size_of. destruct x; [apply HS|lia]. }
  destruct (Z.eqb_spec expected maxUint64) as [->|Hne]; [split; [done|intros (H & _); lia]|].
  unfold uint64_ok in He. rewrite (u64_id (expected + 1)) by (unfold uint64_ok; lia).
  rewrite seq_None, wrap_None. destruct e as [ev|].
  2: { split; [intros [H _]; done|]. intros (_ & [(ev & [=] & _) _] & _). }
  unfold event_size at 1. cbn [Wire.size_of]. pose proof (HS (Wire.MRunEvent ev)) as Hsz.
  rewrite (u64_id (total + Size (Wire.MRunEvent ev))) by (unfold uint64_ok, maxUint64; lia).
  rewrite !seq_None, !when_None, orb_false_iff, !negb_false_iff, String.eqb_eq, Z.eqb_eq, Z.ltb_ge, Z.gtb_ltb, Z.ltb_ge.
  split.
  - intros (H1 & (H2 & H3) & H4 & H5 & H6). apply IH in H6; [|unfold uint64_ok; lia|lia]. destruct H6 as (H6 & H7 & H8).
    split; [lia|]. split; [split; [by exists ev|done]|lia].
  - intros (H1 & [(ev' & [= <-] & H2 & H3 & H4) H5] & H6). split; [done|]. split; [done|]. split; [lia|]. split; [lia|].
    apply IH; [unfold uint64_ok; lia|lia|]. split; [lia|]. split; [done|lia].
Qed.

Lemma event_batch_None Size runID after events l :
  (forall m, 0 <= Size m < 2 ^ 63) -> 0 <= wl_maxReplayBytes l < 2 ^ 63 -> uint64_ok after ->
  ValidateEventBatch Size runID after events (Some l) = None <->
  token_ok 128 runID /\ ValidateLimits (Some l) = None /\ lenZ events <= wl_maxReplayEvents l
  /\ after + lenZ events <= maxUint64 /\ numbered_events runID (after + 1) events
  /\ sumZ (event_size Size) events <= wl_maxReplayBytes l.
Proof.
  intros HS Hb Ha. unfold ValidateEventBatch, token. rewrite !seq_None, validateToken_None, when_None, Z.gtb_ltb, Z.ltb_ge.
  rewrite (batch_loop_None Size runID l HS) by (lia || done). rewrite Z.add_0_l. tauto.
Qed.

(** A replay batch is accepted exactly when it is the contiguous continuation
    of the cursor: within the event and byte bounds, all of one run, each event
    valid and numbered one after the other with no overflow. *)
Theorem event_batch_exact Size runID after events l :
  (forall m, 0 <= Size m < 2 ^ 63) -> 0 <= wl_maxReplayBytes l < 2 ^ 63 -> uint64_ok after ->
  ValidateEventBatch Size runID after events (Some l) = None <->
  token_ok 128 runID /\ ValidateLimits (Some l) = None /\ lenZ events <= wl_maxReplayEvents l
  /\ after + lenZ events <= maxUint64 /\ numbered_events runID (after + 1) events
  /\ sumZ (event_size Size) events <= wl_maxReplayBytes l.
Proof. apply event_batch_None. Qed.

Definition sample_wire_limits : Limits := mkWireLimits 65536 16 8 4096 4 2.
Definition sample_run_event (sequence : Z) : option Wire.RunEvent :=
  Some (Wire.mkRunEvent "run-1" sequence 1700000000000000000 (if sequence =? 1 then 1 else 5) "" false).

Lemma event_batch_exact_witness :
  ValidateEventBatch (fun _ => 40) "run-1" 0 [sample_run_event 1; sample_run_event 2] (Some sample_wire_limits) = None
  /\ (ValidateEventBatch (fun _ => 40) "run-1" 0 [sample_run_event 1; sample_run_event 3] (Some sample_wire_limits) = None <->
      token_ok 128 "run-1" /\ ValidateLimits (Some sample_wire_limits) = None
      /\ lenZ [sample_run_event 1; sample_run_event 3] <= wl_maxReplayEvents sample_wire_limits
      /\ 0 + lenZ [sample_run_event 1; sample_run_event 3] <= maxUint64
      /\ numbered_events "run-1" (0 + 1) [sample_run_event 1; sample_run_event 3]
      /\ sumZ (event_size (fun _ => 40)) [sample_run_event 1; sample_run_event 3] <= wl_maxReplayBytes sample_wire_limits).
Proof.
  split; [vm_compute; reflexivity|].
  apply (event_batch_exact (fun _ => 40) "run-1" 0 [sample_run_event 1; sample_run_event 3] sample_wire_limits);
    [intros _|cbn|unfold uint64_ok, maxUint64]; lia.
Defined.

(** ** Responses *)

(** Checks that refuse with text only. *)
Definition textual (c : option error) : Prop := forall s, c <> Some (StatusError s).

Lemma textual_None : textual None.
Proof. done. Qed.
Lemma textual_Errorf text : textual (Some (Errorf text)).
Proof. done. Qed.
Lemma textual_when b text : textual (when b text).
Proof. by destruct b. Qed.
Lemma textual_wrap prefix c : textual (wrap prefix c).
Proof. by destruct c. Qed.
Lemma textual_seq c k : textual c -> textual k -> textual (c >>> k).
Proof. by destruct c. Qed.
Lemma textual_token label value maximum : textual (token label value maximum).
Proof. unfold token, validateToken. repeat first [apply textual_when|apply textual_seq]. Qed.
Lemma textual_limits limits : textual (ValidateLimits limits).
Proof. unfold ValidateLimits. destruct limits; [|done]. repeat first [apply textual_when|apply textual_seq]. Qed.
Lemma textual_fits Size value l : textual (fits Size value l).
Proof. unfold fits, ValidateEncodedSize. repeat first [apply textual_when|apply textual_seq]. Qed.
Lemma textual_unary_size Size value limits : textual (validateUnarySize Size value limits).
Proof. unfold validateUnarySize. apply textual_seq; [apply textual_limits|]. destruct limits; [apply textual_fits|done]. Qed.
Lemma textual_collections status limits : textual (validateStatusCollections status limits).
Proof. unfold validateStatusCollections. repeat case_match; try done. apply textual_when. Qed.

Ltac textual :=
  repeat first
    [ apply textual_None | apply textual_Errorf | apply textual_when | apply textual_wrap | apply textual_token
    | apply textual_limits | apply textual_fits | apply textual_unary_size | apply textual_seq | assumption
    | match goal with |- textual (match ?x with _ => _ end) => destruct x end ].

Lemma textual_status_detail s : textual (validateStatusDetail s).
Proof.
  unfold validateStatusDetail, requiredDetail, validateVersionMismatch, validateCapabilityMismatch, validateReplayBounds,
    validateOverload, validateStaleClient, validateSnapshotVersionMismatch, validateUncertainOperation. textual.
Qed.
Lemma textual_status status : textual (ValidateStatus status).
Proof. unfold ValidateStatus. destruct status as [s|]; [|done]. pose proof (textual_status_detail s). textual. Qed.

Lemma AsError_StatusError status s :
  AsError status = Some (StatusError s) -> status = Some s /\ st_code s <> ERROR_CODE_OK /\ ValidateStatus status = None.
Proof.
  unfold AsError. destruct (ValidateStatus status) eqn:E; [done|]. cbn [wrap option_map].
  destruct status as [s'|]; [|done]. destruct (Z.eqb_spec (st_code s') ERROR_CODE_OK); [done|]. by intros [= <-].
Qed.

Lemma validate_response_status Size status carries text value limits success s :
  textual success -> validate_response Size status carries text value limits success = Some (StatusError s) ->
  status = Some s /\ carries = false /\ st_code s <> ERROR_CODE_OK /\ ValidateStatus status = None.
Proof.
  intros Hs. unfold validate_response. destruct (validateUnaryStatus status limits) as [e|] eqn:Hu; [|by intros ?%Hs].
  intros H. destruct (when carries text) eqn:Hc; [apply when_Some in Hc; congruence|].
  apply when_None in Hc. destruct (validateUnarySize Size value limits) eqn:Hz.
  { injection H as ->. by apply textual_unary_size in Hz. }
  injection H as ->. unfold validateUnaryStatus in Hu.
  destruct (ValidateLimits limits) eqn:H1; [injection Hu as ->; by apply textual_limits in H1|].
  destruct (ValidateStatus status) eqn:H2; [injection Hu as ->; by apply textual_status in H2|].
  destruct (validateStatusCollections status limits) eqn:H3; [injection Hu as ->; by apply textual_collections in H3|].
  apply AsError_StatusError in Hu. tauto.
Qed.

Lemma validate_response_success Size status carries text value limits success :
  validate_response Size status carries text value limits success = None ->
  GetCode status = ERROR_CODE_OK /\ success = None.
Proof.
  unfold validate_response. destruct (validateUnaryStatus status limits) as [e|] eqn:Hu.
  - intros H. destruct (when carries text); [done|]. by destruct (validateUnarySize Size value limits).
  - intros ->. split; [|done]. unfold validateUnaryStatus in Hu.
    destruct (ValidateLimits limits); [done|]. destruct (ValidateStatus status) eqn:Hv; [done|].
    destruct (validateStatusCollections status limits); [done|].
    unfold AsError in Hu. rewrite Hv in Hu. cbn [wrap option_map] in Hu. destruct status as [s|]; [|by cbn in Hv].
    cbn. by destruct (Z.eqb_spec (st_code s) ERROR_CODE_OK).
Qed.

(** What a mutation response may say, for each of the six mutations: a failure
    the validator reports carries the valid status and no result field at all;
    a response it accepts has the OK status and one complete result. *)
Theorem mutation_responses Size limits :
  (forall r, match ValidateStartRunResponse Size (Some r) limits with
     | Some (StatusError s) => r = Wire.mkStartRunResponse (Some s) "" 0 false "" /\ ValidateStatus (Some s) = None
     | None => GetCode (Wire.sp_status r) = ERROR_CODE_OK /\ token_ok 128 (Wire.sp_runID r) /\ Wire.sp_initialSequence r = 1
     | Some (Errorf _) => True end)
  /\ (forall r, match ValidateCancelRunResponse Size (Some r) limits with
     | Some (StatusError s) => r = Wire.mkCancelRunResponse (Some s) false false 0 /\ ValidateStatus (Some s) = None
     | None => GetCode (Wire.cr_status r) = ERROR_CODE_OK /\ Wire.cr_cancellationRequested r = negb (Wire.cr_alreadyTerminal r)
               /\ (Wire.cr_alreadyTerminal r = true <-> Wire.cr_terminalSequence r <> 0)
     | Some (Errorf _) => True end)
  /\ (forall r, match ValidateRespondInteractionResponse Size (Some r) limits with
     | Some (StatusError s) => r = Wire.mkRespondInteractionResponse (Some s) false false /\ ValidateStatus (Some s) = None
     | None => GetCode (Wire.rp_status r) = ERROR_CODE_OK /\ Wire.rp_accepted r = true
     | Some (Errorf _) => True end)
  /\ (forall r, match ValidateSuspendRunResponse Size (Some r) limits with
     | Some (StatusError s) => r = Wire.mkSuspendRunResponse (Some s) false 0 false /\ ValidateStatus (Some s) = None
     | None => GetCode (Wire.up_status r) = ERROR_CODE_OK /\ Wire.up_suspended r = true
               /\ Wire.up_boundarySequence r <> 0 /\ Wire.up_boundarySequence r <> maxUint64
     | Some (Errorf _) => True end)
  /\ (forall r, match ValidateResumeRunResponse Size (Some r) limits with
     | Some (StatusError s) => r = Wire.mkResumeRunResponse (Some s) false 0 false /\ ValidateStatus (Some s) = None
     | None => GetCode (Wire.mp_status r) = ERROR_CODE_OK /\ Wire.mp_resumed r = true
               /\ Wire.mp_nextSequence r <> 0 /\ Wire.mp_nextSequence r <> maxUint64
     | Some (Errorf _) => True end)
  /\ (forall r, match ValidateImportSnapshotResponse Size (Some r) limits with
     | Some (StatusError s) => r = Wire.mkImportSnapshotResponse (Some s) "" 0 false /\ ValidateStatus (Some s) = None
     | None => GetCode (Wire.jp_status r) = ERROR_CODE_OK /\ token_ok 128 (Wire.jp_runID r)
               /\ Wire.jp_nextSequence r <> 0 /\ Wire.jp_nextSequence r <> maxUint64
     | Some (Errorf _) => True end).
Proof.
  assert (forall s, nonempty s = false -> s = ""%string) as Hempty
    by (intros s H; apply negb_false_iff, String.eqb_eq in H; done).
  assert (forall z, nonzero z = false -> z = 0) as Hzero by (intros z H; apply negb_false_iff, Z.eqb_eq in H; done).
  split; [|split; [|split; [|split; [|split]]]]; intros r;
    match goal with |- match ?v with _ => _ end => destruct v as [[text|s]|] eqn:E end; try done; destruct r;
    cbv [ValidateStartRunResponse ValidateCancelRunResponse ValidateRespondInteractionResponse ValidateSuspendRunResponse
         ValidateResumeRunResponse ValidateImportSnapshotResponse] in E;
    first [apply validate_response_success in E as [Hok E]|
           apply validate_response_status in E as (Hst & Hc & _ & Hv); [|textual]];
    cbn [Wire.sp_status Wire.sp_runID Wire.sp_initialSequence Wire.sp_duplicateOperation Wire.sp_planID
         Wire.cr_status Wire.cr_cancellationRequested Wire.cr_alreadyTerminal Wire.cr_terminalSequence
         Wire.rp_status Wire.rp_accepted Wire.rp_duplicateOperation Wire.up_status Wire.up_suspended
         Wire.up_boundarySequence Wire.up_duplicateOperation Wire.mp_status Wire.mp_resumed Wire.mp_nextSequence
         Wire.mp_duplicateOperation Wire.jp_status Wire.jp_runID Wire.jp_nextSequence Wire.jp_duplicateOperation] in *.
  all: first
    [ unfold token in E; rewrite ?seq_None, ?when_None, ?validateToken_None in E; destruct_and?; split; [done|]
    | repeat (let H := fresh in apply orb_false_iff in Hc as [Hc H]; try apply Hempty in H; try apply Hzero in H);
      try apply Hempty in Hc; try apply Hzero in Hc; by subst ].
  all: bprop; try tauto.
  unfold nonzero in *. destruct cr_cancellationRequested, cr_alreadyTerminal; cbn in *; try done; bprop; split; try done; split; congruence.
Qed.
