(* ===== verification/InitializeContract.v ===== *)
(** Connection initialization (src/engine/v1/initialize_contract.go, with the
    response validators of contract.go and the capability filter of
    snapshot_authority.go): what a server negotiates with a client, and what the
    client checks of the answer. *)
From Stdlib Require Import ZArith Lia.
From stdpp Require Import base list strings pretty sorting.
From S2P Require Import Prelude GoText GoOrder GoJson CommonContract EngineWire EngineContract.
Open Scope Z_scope.

Definition CapabilitySnapshotAuthorityV1 : string := "snapshot-authority-v1".

#[export] Instance limits_eq_dec : EqDecision Limits.
Proof. solve_decision. Defined.
#[export] Instance version_eq_dec : EqDecision ProtocolVersion.
Proof. solve_decision. Defined.

(** The getters on a nil pointer give zeros. *)
Definition GetLimits (limits : option Limits) : Limits :=
  match limits with Some l => l | None => mkWireLimits 0 0 0 0 0 0 end.
Definition GetDegradedReasons (health : option Health) : list string :=
  match health with Some h => he_degradedReasons h | None => [] end.
Definition GetHealthLimits (health : option Health) : option Limits := health ≫= he_limits.

(** ** Capabilities and limits by protocol minor *)

Definition protocolSupportsSnapshotAuthority (version : option ProtocolVersion) : bool :=
  (GetMajor version =? ProtocolMajor) && (GetMinor version >=? 1).

Definition snapshotCapabilitiesForProtocol (version : option ProtocolVersion) (capabilities : option CapabilitySet)
  : option CapabilitySet :=
  match capabilities with
  | None => None
  | Some c =>
      if protocolSupportsSnapshotAuthority version then capabilities
      else Some (mkCapabilities (List.filter
             (fun name => negb (String.eqb name CapabilitySnapshotAuthorityV1) && negb (String.eqb name "snapshots")) (cs_names c)))
  end.

Definition containsCapability (capabilities : option CapabilitySet) (name : string) : bool :=
  match capabilities with None => false | Some c => found (cs_names c) name end.

Definition validateInteractionStreamRequestedLimits (version : option ProtocolVersion) (requested server : Limits)
  : option error :=
  if GetMinor version <? InteractionStreamMinimumMinor then None
  else when ((wl_maxMessageBytes requested <? wl_maxMessageBytes server)
             || (wl_maxCollectionItems requested <? wl_maxCollectionItems server))
         "protocol minor 2 requires server-sized interaction snapshot limits".

Definition validateInteractionStreamSelectedLimits (version : option ProtocolVersion) (selected server : Limits)
  : option error :=
  if GetMinor version <? InteractionStreamMinimumMinor then None
  else when (negb (wl_maxMessageBytes selected =? wl_maxMessageBytes server)
             || negb (wl_maxCollectionItems selected =? wl_maxCollectionItems server))
         "protocol minor 2 requires server-sized interaction snapshot limits".

(** ** Attempt identities *)

Definition ValidateInitializationAttemptID (attemptID : list Z) : option error :=
  when (negb (lenZ attemptID =? InitializationAttemptIDBytes)) "initialization attempt identity must contain exactly 16 bytes"
  >>> when (forallb (Z.eqb 0) attemptID) "initialization attempt identity must be nonzero".

Definition validateInitializeRequestAttempt (protocol : option ProtocolRange) (attemptID : list Z) : option error :=
  let minimum := GetMinimum protocol in
  let maximum := GetMaximum protocol in
  when ((GetMajor minimum =? ProtocolMajor) && (GetMajor maximum =? ProtocolMajor)
        && (GetMinor minimum <? InitializationAttemptMinimumMinor) && (GetMinor maximum >=? InitializationAttemptMinimumMinor))
    "initialize protocol range cannot cross the minor-3 attempt-replay boundary"
  >>> if (GetMajor minimum =? ProtocolMajor) && (GetMinor minimum >=? InitializationAttemptMinimumMinor)
      then ValidateInitializationAttemptID attemptID
      else when (negb (lenZ attemptID =? 0))
             "initialization attempt identity requires a protocol range beginning at minor 3 or newer".

Definition validateInitializeResponseAttempt (protocol : option ProtocolVersion) (attemptID : list Z) : option error :=
  if (GetMajor protocol =? ProtocolMajor) && (GetMinor protocol >=? InitializationAttemptMinimumMinor)
  then ValidateInitializationAttemptID attemptID
  else when (negb (lenZ attemptID =? 0)) "legacy initialize response must omit the attempt identity".

Definition validateInitializeSnapshotCapabilities (protocol : option ProtocolVersion) (capabilities : option CapabilitySet)
  : option error :=
  when (negb (protocolSupportsSnapshotAuthority protocol)
        && (containsCapability capabilities CapabilitySnapshotAuthorityV1 || containsCapability capabilities "snapshots"))
    "protocol minor 1 is required for snapshot transfer".

Definition initializeResponseHasNegotiatedFields (r : Wire.InitializeResponse) : bool :=
  set (Wire.ip_protocol r) || set (Wire.ip_server r) || set (Wire.ip_capabilities r) || set (Wire.ip_limits r)
  || set (Wire.ip_health r) || nonempty (Wire.ip_clientID r) || nonzero (Wire.ip_ownershipEpoch r)
  || set (Wire.ip_definitions r) || negb (lenZ (Wire.ip_initializationAttemptID r) =? 0).

Record InitializeNegotiation := mkNegotiation {
  in_reconnectClaim : option Wire.ReconnectClaim;
  in_attemptID : list Z;
  in_protocol : option ProtocolVersion;
  in_server : option BuildIdentity;
  in_capabilities : option CapabilitySet;
  in_limits : option Limits;
  in_health : option Health;
  in_definitions : option Wire.DefinitionSet
}.

Definition initializeSuccessResponse (n : InitializeNegotiation) (clientID : string) (ownershipEpoch : Z) : Wire.InitializeResponse :=
  Wire.mkInitializeResponse (Some OKStatus) (in_protocol n) (in_server n) (in_capabilities n) (in_limits n) (in_health n)
    clientID ownershipEpoch (in_definitions n) (in_attemptID n).

(** [strings.Repeat("c", 128)]. *)
Definition preview_client : string := String.string_of_list_ascii (repeat (Ascii.ascii_of_nat 99) 128).

Section Initialize.
Context (Size : Wire.ProtoMessage -> Z).

Definition initializeStatusFailure (status : Status) : Wire.InitializeResponse :=
  let bare s := Wire.mkInitializeResponse (Some s) None None None None None "" 0 None [] in
  match ValidateEncodedSize (Size (Wire.MInitializeResponse (bare status))) InitializeBootstrapMaximumBytes with
  | None => bare status
  | Some _ => bare (protocolStatus ERROR_CODE_INTERNAL "initialize negotiation failed")
  end.
Definition initializeFailure (code : Z) (message : string) : Wire.InitializeResponse :=
  initializeStatusFailure (protocolStatus code message).

Definition ValidateInitializeRequest (request : option Wire.InitializeRequest) : option error :=
  match request with
  | None => Some (Errorf "initialize request is required")
  | Some r =>
      ValidateProtocolRange (Wire.iq_protocol r)
      >>> validateInitializeRequestAttempt (Wire.iq_protocol r) (Wire.iq_initializationAttemptID r)
      >>> wrap "client build identity: " (ValidateBuildIdentity (Wire.iq_client r))
      >>> wrap "client supported capabilities: " (ValidateCapabilities (Wire.iq_supportedCapabilities r))
      >>> wrap "client required capabilities: " (ValidateCapabilities (Wire.iq_requiredCapabilities r))
      >>> when (negb (forallb (containsCapability (Wire.iq_supportedCapabilities r)) (GetNames (Wire.iq_requiredCapabilities r))))
            "required capabilities must be client-supported"
      >>> ValidateLimits (Wire.iq_requestedLimits r)
      >>> validateReconnectClaim (Wire.iq_reconnectClaim r)
      >>> ValidateEncodedSize (Size (Wire.MInitializeRequest r)) InitializeBootstrapMaximumBytes
  end.

Definition validateInitializeServer (serverRange : option ProtocolRange) (serverBuild : option BuildIdentity)
  (serverCapabilities : option CapabilitySet) (serverLimits : option Limits) (health : option Health)
  (definitions : option Wire.DefinitionSet) : option error :=
  let refuse c text := match c with Some _ => Some (Errorf text) | None => None end in
  refuse (ValidateProtocolRange serverRange) "server protocol range is invalid"
  >>> refuse (ValidateBuildIdentity serverBuild) "server build identity is invalid"
  >>> refuse (ValidateCapabilities serverCapabilities) "server capabilities are invalid"
  >>> refuse (ValidateLimits serverLimits) "server limits are invalid"
  >>> refuse (ValidateHealth health) "server health is invalid"
  >>> when (negb (bool_decide (GetHealthLimits health = serverLimits))) "server health limits do not match server limits"
  >>> refuse (ValidateDefinitionSet Size definitions serverLimits) "server definition set is invalid".

Definition ValidateInitializeResponse (response : option Wire.InitializeResponse) : option error :=
  match response with
  | None => Some (Errorf "initialize response is required")
  | Some r =>
      ValidateStatus (Wire.ip_status r)
      >>> match AsError (Wire.ip_status r) with
          | Some statusErr =>
              when (initializeResponseHasNegotiatedFields r) "failed initialize response contains negotiated fields"
              >>> ValidateEncodedSize (Size (Wire.MInitializeResponse r)) InitializeBootstrapMaximumBytes
              >>> Some statusErr
          | None =>
              validateNegotiatedProtocol (Wire.ip_protocol r)
              >>> validateInitializeResponseAttempt (Wire.ip_protocol r) (Wire.ip_initializationAttemptID r)
              >>> ValidateBuildIdentity (Wire.ip_server r)
              >>> ValidateCapabilities (Wire.ip_capabilities r)
              >>> validateInitializeSnapshotCapabilities (Wire.ip_protocol r) (Wire.ip_capabilities r)
              >>> ValidateLimits (Wire.ip_limits r)
              >>> (let limits := GetLimits (Wire.ip_limits r) in
                   when (lenZ (GetNames (Wire.ip_capabilities r)) >? wl_maxCollectionItems limits)
                     "initialize capability count exceeds the negotiated collection limit"
                   >>> ValidateHealth (Wire.ip_health r)
                   >>> validateInteractionStreamSelectedLimits (Wire.ip_protocol r) limits
                         (GetLimits (GetHealthLimits (Wire.ip_health r)))
                   >>> when (lenZ (GetDegradedReasons (Wire.ip_health r)) >? wl_maxCollectionItems limits)
                         "initialize health reason count exceeds the negotiated collection limit"
                   >>> token "client ID" (Wire.ip_clientID r) 128
                   >>> when (Wire.ip_ownershipEpoch r =? 0) "ownership epoch must be positive"
                   >>> ValidateDefinitionSet Size (Wire.ip_definitions r) (Wire.ip_limits r)
                   >>> ValidateEncodedSize (Size (Wire.MInitializeResponse r)) (wl_maxMessageBytes limits))
          end
  end.

Definition PreflightInitialize (request : option Wire.InitializeRequest) (serverRange : option ProtocolRange)
  (serverBuild : option BuildIdentity) (serverCapabilities : option CapabilitySet) (serverLimits : option Limits)
  (health : option Health) (definitions : option Wire.DefinitionSet) : result Wire.InitializeResponse InitializeNegotiation :=
  let invalid message := Err (initializeFailure ERROR_CODE_INVALID_ARGUMENT message) in
  let internal message := Err (initializeFailure ERROR_CODE_INTERNAL message) in
  match ValidateInitializeRequest request, request with
  | Some err, _ => invalid (Error err)
  | None, None => invalid "initialize request is required"%string
  | None, Some r =>
  match validateInitializeServer serverRange serverBuild serverCapabilities serverLimits health definitions with
  | Some err => internal (Error err)
  | None =>
  let '(version, status) := NegotiateProtocol (Wire.iq_protocol r) serverRange in
  if negb (st_code status =? ERROR_CODE_OK) then Err (initializeStatusFailure status) else
  match validateNegotiatedProtocol version with
  | Some _ => internal "server negotiated an unsupported protocol"%string
  | None =>
  match validateInteractionStreamRequestedLimits version (GetLimits (Wire.iq_requestedLimits r)) (GetLimits serverLimits) with
  | Some err => invalid (Error err)
  | None =>
  let '(limits, status) := NegotiateLimits (Wire.iq_requestedLimits r) serverLimits in
  if negb (st_code status =? ERROR_CODE_OK) then Err (initializeStatusFailure status) else
  match ValidateEncodedSize (Size (Wire.MInitializeRequest r)) (wl_maxMessageBytes (GetLimits limits)) with
  | Some err => invalid (Error err)
  | None =>
  let '(capabilities, status) := NegotiateCapabilities (Wire.iq_supportedCapabilities r) (Wire.iq_requiredCapabilities r)
                                   (snapshotCapabilitiesForProtocol version serverCapabilities) in
  if negb (st_code status =? ERROR_CODE_OK) then Err (initializeStatusFailure status) else
  if lenZ (GetNames capabilities) >? wl_maxCollectionItems (GetLimits limits) then
    invalid "negotiated capability count exceeds negotiated collection limit"%string else
  if lenZ (GetDegradedReasons health) >? wl_maxCollectionItems (GetLimits limits) then
    invalid "health degraded reason count exceeds negotiated collection limit"%string else
  match ValidateDefinitionSet Size definitions limits with
  | Some _ => invalid "server definition set exceeds negotiated limits"%string
  | None =>
  let negotiation := mkNegotiation (Wire.iq_reconnectClaim r) (Wire.iq_initializationAttemptID r) version serverBuild
                       capabilities limits health definitions in
  let preview := initializeSuccessResponse negotiation preview_client maxUint64 in
  match ValidateEncodedSize (Size (Wire.MInitializeResponse preview)) (wl_maxMessageBytes (GetLimits limits)) with
  | Some _ => invalid "initialize success response exceeds negotiated message limit"%string
  | None =>
  match ValidateInitializeResponse (Some preview) with
  | Some _ => internal "initialize success response is invalid"%string
  | None => Ok negotiation
  end end end end end end end end.

Definition CompleteInitialize (negotiation : option InitializeNegotiation) (clientID : string) (ownershipEpoch : Z)
  : Wire.InitializeResponse :=
  match negotiation with
  | Some (mkNegotiation claim attempt (Some _) (Some _) (Some _) (Some limits) (Some _) (Some _) as n) =>
      match validateReconnectResult claim clientID ownershipEpoch with
      | Some _ => initializeFailure ERROR_CODE_INTERNAL "server client ownership is invalid"
      | None =>
          let response := initializeSuccessResponse n clientID ownershipEpoch in
          match ValidateEncodedSize (Size (Wire.MInitializeResponse response)) (wl_maxMessageBytes limits) with
          | Some _ => initializeFailure ERROR_CODE_INTERNAL "initialize response exceeds negotiated message limit"
          | None => response
          end
      end
  | _ => initializeFailure ERROR_CODE_INTERNAL "initialize negotiation is invalid"
  end.

Definition NegotiateInitialize (request : option Wire.InitializeRequest) (serverRange : option ProtocolRange)
  (serverBuild : option BuildIdentity) (serverCapabilities : option CapabilitySet) (serverLimits : option Limits)
  (health : option Health) (definitions : option Wire.DefinitionSet) (clientID : string) (ownershipEpoch : Z)
  : Wire.InitializeResponse :=
  match PreflightInitialize request serverRange serverBuild serverCapabilities serverLimits health definitions with
  | Err failure => failure
  | Ok negotiation => CompleteInitialize (Some negotiation) clientID ownershipEpoch
  end.

(** ** What the client checks *)

Definition validateInitializeProtocolSelection (request : Wire.InitializeRequest) (response : Wire.InitializeResponse) : option error :=
  let selected := Some (mkRange (Wire.ip_protocol response) (Wire.ip_protocol response)) in
  let '(negotiated, status) := NegotiateProtocol selected (Wire.iq_protocol request) in
  when (negb (st_code status =? ERROR_CODE_OK) || negb (bool_decide (negotiated = Wire.ip_protocol response)))
    "initialize protocol is outside the requested range".

Definition validateInitializeCapabilitySelection (request : Wire.InitializeRequest) (response : Wire.InitializeResponse) : option error :=
  when (negb (forallb (containsCapability (Wire.iq_supportedCapabilities request)) (GetNames (Wire.ip_capabilities response))))
    "initialize response selected an unsupported capability"
  >>> when (negb (forallb (containsCapability (Wire.ip_capabilities response)) (GetNames (Wire.iq_requiredCapabilities request))))
        "initialize response omitted a required capability".

Definition exceeds (selected bound : Limits) : bool :=
  existsb (fun '(s, b) => s >? b) (zip (limit_values selected) (limit_values bound)).

Definition validateInitializeLimitSelection (request : Wire.InitializeRequest) (response : Wire.InitializeResponse) : option error :=
  let requested := GetLimits (Wire.iq_requestedLimits request) in
  let selected := GetLimits (Wire.ip_limits response) in
  let capacity := GetLimits (GetHealthLimits (Wire.ip_health response)) in
  when (exceeds selected requested) "initialize response exceeds requested limits"
  >>> wrap "initialize request exceeds selected message limit: "
        (ValidateEncodedSize (Size (Wire.MInitializeRequest request)) (wl_maxMessageBytes selected))
  >>> when (exceeds selected capacity) "initialize response exceeds advertised server capacity".

Definition ValidateInitializeResponseForRequest (request : option Wire.InitializeRequest) (response : option Wire.InitializeResponse)
  : option error :=
  ValidateInitializeRequest request
  >>> ValidateInitializeResponse response
  >>> match request, response with
      | Some q, Some r =>
          validateInitializeProtocolSelection q r
          >>> validateInitializeCapabilitySelection q r
          >>> validateInitializeLimitSelection q r
          >>> when (negb (bool_decide (Wire.iq_initializationAttemptID q = Wire.ip_initializationAttemptID r)))
                "initialize response attempt identity does not match the request"
          >>> validateReconnectResult (Wire.iq_reconnectClaim q) (Wire.ip_clientID r) (Wire.ip_ownershipEpoch r)
      | _, _ => None
      end.
End Initialize.

(** ** Lemmas *)

Lemma NegotiateProtocol_ok client server v s :
  NegotiateProtocol client server = (v, s) -> st_code s = ERROR_CODE_OK ->
  exists w, v = Some w /\ within w client /\ within w server /\ ValidateProtocolRange client = None /\ ValidateProtocolRange server = None.
Proof.
  intros H Hc. destruct (ValidateProtocolRange client) eqn:H1;
    [unfold NegotiateProtocol in H; rewrite H1 in H; injection H as <- <-; discriminate Hc|].
  destruct (ValidateProtocolRange server) eqn:H2;
    [unfold NegotiateProtocol in H; rewrite H1, H2 in H; injection H as <- <-; discriminate Hc|].
  destruct (NegotiateProtocol_spec client server H1 H2) as [(w & Hw & Hin & Hin' & _)|(st & Hst & Hcode & _)].
  - rewrite Hw in H. injection H as <- <-. eauto 6.
  - rewrite Hst in H. injection H as <- <-. rewrite Hcode in Hc. discriminate Hc.
Qed.

Lemma version_le_antisymm v w : version_le (Some v) (Some w) -> version_le (Some w) (Some v) -> v = w.
Proof. destruct v, w. unfold version_le. cbn. intros. f_equal; lia. Qed.

(** A single version inside a range is what the two negotiate. *)
Lemma NegotiateProtocol_single v range :
  ValidateProtocolRange range = None -> within v range -> pv_major v <> 0 ->
  NegotiateProtocol (Some (mkRange (Some v) (Some v))) range = (Some v, OKStatus).
Proof.
  intros Hr Hin Hm. assert (ValidateProtocolRange (Some (mkRange (Some v) (Some v))) = None) as Hv.
  { apply ValidateProtocolRange_None. exists v, v. split; [done|]. split; [done|]. split; [done|]. unfold version_le. lia. }
  assert (within v (Some (mkRange (Some v) (Some v)))) as Hself by (split; cbn; unfold version_le; lia).
  destruct (NegotiateProtocol_spec _ range Hv Hr) as [(w & -> & [H1 H2] & _)|(st & _ & _ & _ & Hno)]; [|by destruct (Hno v)].
  cbn in H1, H2. by rewrite (version_le_antisymm v w).
Qed.

Lemma NegotiateCapabilities_ok supported required available c s :
  NegotiateCapabilities supported required available = (c, s) -> st_code s = ERROR_CODE_OK ->
  exists cs cr ce, supported = Some cs /\ required = Some cr /\ c = Some ce
    /\ capabilities_ok (cs_names cs) /\ capabilities_ok (cs_names ce)
    /\ (forall name, name ∈ cs_names ce -> name ∈ cs_names cs)
    /\ (forall name, name ∈ cs_names cr -> name ∈ cs_names ce).
Proof.
  unfold NegotiateCapabilities. destruct (validate_candidates _) as [m|] eqn:Hv; [intros [= <- <-] [=]|].
  apply validate_candidates_None in Hv. rewrite !Forall_cons in Hv. cbn [snd] in Hv. destruct Hv as (H1 & H2 & H3 & _).
  pose proof H1 as (s0 & -> & Hs)%ValidateCapabilities_None. pose proof H2 as (r0 & -> & Hr)%ValidateCapabilities_None.
  pose proof H3 as (a0 & -> & Ha)%ValidateCapabilities_None. cbn [GetNames].
  destruct (isSubset (cs_names r0) (cs_names s0)) eqn:Hsub; [|intros [= <- <-] [=]]. cbn [negb].
  destruct (lenZ (difference (cs_names r0) (cs_names a0)) =? 0) eqn:Hd; cbn [negb]; [|intros [= <- <-] [=]].
  intros [= <- <-] _. exists s0, r0, (mkCapabilities (intersection (cs_names s0) (cs_names a0))).
  destruct Hs as (? & ? & Hss) eqn:Es. destruct Ha as (? & ? & Hsa) eqn:Ea. cbn [cs_names].
  do 4 (split; [done|]). split; [by apply filter_capabilities_ok|]. split.
  - intros name Hn. by apply elem_of_intersection_names in Hn as [? _].
  - intros name Hn. apply elem_of_intersection_names; [done|]. split.
    + by apply (proj1 (isSubset_spec _ _ Hss) Hsub).
    + by apply (proj1 (isSubset_spec (cs_names r0) (cs_names a0) Hsa)).
Qed.

Lemma contains_all c names :
  StronglySorted str_lt (cs_names c) -> (forall name, name ∈ names -> name ∈ cs_names c) ->
  forallb (containsCapability (Some c)) names = true.
Proof.
  intros Hs Hsub. apply forallb_forall. intros name Hn. cbn. apply found_spec; [done|]. by apply Hsub, list_elem_of_In.
Qed.

Lemma exceeds_false selected bound : Forall2 Z.le (limit_values selected) (limit_values bound) -> exceeds selected bound = false.
Proof.
  unfold exceeds. generalize (limit_values selected) (limit_values bound). intros xs ys.
  induction 1 as [|x y xs ys Hxy H IH]; [done|]. cbn. rewrite IH, orb_false_r, Z.gtb_ltb. by apply Z.ltb_ge.
Qed.

Section Agreement.
Context (Size : Wire.ProtoMessage -> Z) (Size_nonneg : forall m, 0 <= Size m).

(** What makes a negotiation a valid response, whoever owns it. *)
Definition negotiation_ok (n : InitializeNegotiation) : Prop :=
  validateNegotiatedProtocol (in_protocol n) = None
  /\ validateInitializeResponseAttempt (in_protocol n) (in_attemptID n) = None
  /\ ValidateBuildIdentity (in_server n) = None
  /\ ValidateCapabilities (in_capabilities n) = None
  /\ validateInitializeSnapshotCapabilities (in_protocol n) (in_capabilities n) = None
  /\ ValidateLimits (in_limits n) = None
  /\ (lenZ (GetNames (in_capabilities n)) >? wl_maxCollectionItems (GetLimits (in_limits n))) = false
  /\ ValidateHealth (in_health n) = None
  /\ validateInteractionStreamSelectedLimits (in_protocol n) (GetLimits (in_limits n))
       (GetLimits (GetHealthLimits (in_health n))) = None
  /\ (lenZ (GetDegradedReasons (in_health n)) >? wl_maxCollectionItems (GetLimits (in_limits n))) = false
  /\ ValidateDefinitionSet Size (in_definitions n) (in_limits n) = None.

Lemma success_response_None n c e :
  ValidateInitializeResponse Size (Some (initializeSuccessResponse n c e)) = None <->
  negotiation_ok n /\ token_ok 128 c /\ e <> 0
  /\ ValidateEncodedSize (Size (Wire.MInitializeResponse (initializeSuccessResponse n c e)))
       (wl_maxMessageBytes (GetLimits (in_limits n))) = None.
Proof.
  unfold ValidateInitializeResponse, negotiation_ok, token. set (r := initializeSuccessResponse n c e).
  change (Wire.ip_status r) with (Some OKStatus). change (Wire.ip_protocol r) with (in_protocol n).
  change (Wire.ip_server r) with (in_server n). change (Wire.ip_capabilities r) with (in_capabilities n).
  change (Wire.ip_limits r) with (in_limits n). change (Wire.ip_health r) with (in_health n).
  change (Wire.ip_clientID r) with c. change (Wire.ip_ownershipEpoch r) with e.
  change (Wire.ip_definitions r) with (in_definitions n). change (Wire.ip_initializationAttemptID r) with (in_attemptID n).
  change (ValidateStatus (Some OKStatus)) with (@None error). change (AsError (Some OKStatus)) with (@None error).
  cbv zeta. rewrite !seq_None, !when_None, validateToken_None, Z.eqb_neq. tauto.
Qed.

(** A success response stays valid under another client identity and epoch of
    no larger encoding. *)
Lemma response_transfer n c1 e1 c2 e2 :
  ValidateInitializeResponse Size (Some (initializeSuccessResponse n c1 e1)) = None ->
  token_ok 128 c2 -> e2 <> 0 ->
  Size (Wire.MInitializeResponse (initializeSuccessResponse n c2 e2))
    <= Size (Wire.MInitializeResponse (initializeSuccessResponse n c1 e1)) ->
  ValidateInitializeResponse Size (Some (initializeSuccessResponse n c2 e2)) = None.
Proof using Size_nonneg.
  rewrite !success_response_None, !ValidateEncodedSize_None. intros (Hn & _ & _ & Hm & Hs) Hc He Hle.
  split; [done|]. split; [done|]. split; [done|]. split; [done|]. split; [apply Size_nonneg|lia].
Qed.

Record preflight_facts (r : Wire.InitializeRequest) (serverLimits : option Limits) (health : option Health)
  (n : InitializeNegotiation) : Prop := {
  pf_request : ValidateInitializeRequest Size (Some r) = None;
  pf_health_limits : GetHealthLimits health = serverLimits;
  pf_claim : in_reconnectClaim n = Wire.iq_reconnectClaim r;
  pf_attempt : in_attemptID n = Wire.iq_initializationAttemptID r;
  pf_health : in_health n = health;
  pf_protocol : exists w, in_protocol n = Some w /\ within w (Wire.iq_protocol r) /\ ValidateProtocolRange (Wire.iq_protocol r) = None;
  pf_limits : NegotiateLimits (Wire.iq_requestedLimits r) serverLimits = (in_limits n, OKStatus);
  pf_request_size : ValidateEncodedSize (Size (Wire.MInitializeRequest r)) (wl_maxMessageBytes (GetLimits (in_limits n))) = None;
  pf_capabilities : exists cs cr ce, Wire.iq_supportedCapabilities r = Some cs /\ Wire.iq_requiredCapabilities r = Some cr
    /\ in_capabilities n = Some ce /\ capabilities_ok (cs_names cs) /\ capabilities_ok (cs_names ce)
    /\ (forall name, name ∈ cs_names ce -> name ∈ cs_names cs)
    /\ (forall name, name ∈ cs_names cr -> name ∈ cs_names ce);
  pf_preview : ValidateInitializeResponse Size (Some (initializeSuccessResponse n preview_client maxUint64)) = None
}.

Lemma NegotiateLimits_status requested available l s :
  NegotiateLimits requested available = (l, s) -> st_code s = ERROR_CODE_OK -> s = OKStatus.
Proof.
  unfold NegotiateLimits. destruct (ValidateLimits requested); [intros [= <- <-] [=]|].
  destruct (ValidateLimits available), requested, available; intros [= <- <-]; first [done|intros [=]].
Qed.

Lemma PreflightInitialize_Ok request serverRange serverBuild serverCapabilities serverLimits health definitions n :
  PreflightInitialize Size request serverRange serverBuild serverCapabilities serverLimits health definitions = Ok n ->
  exists r, request = Some r /\ preflight_facts r serverLimits health n.
Proof.
  unfold PreflightInitialize. destruct (ValidateInitializeRequest Size request) eqn:Hq; [done|].
  destruct request as [r|]; [|done]. destruct (validateInitializeServer _ _ _ _ _ _ _) eqn:Hs; [done|].
  destruct (NegotiateProtocol _ _) as [version st1] eqn:Hp. destruct (st_code st1 =? ERROR_CODE_OK) eqn:E1; [|done]. cbn [negb].
  destruct (validateNegotiatedProtocol version); [done|].
  destruct (validateInteractionStreamRequestedLimits _ _ _); [done|].
  destruct (NegotiateLimits _ _) as [limits st2] eqn:Hl. destruct (st_code st2 =? ERROR_CODE_OK) eqn:E2; [|done]. cbn [negb].
  destruct (ValidateEncodedSize (Size (Wire.MInitializeRequest r)) _) eqn:Hz; [done|].
  destruct (NegotiateCapabilities _ _ _) as [capabilities st3] eqn:Hc. destruct (st_code st3 =? ERROR_CODE_OK) eqn:E3; [|done]. cbn [negb].
  destruct (lenZ (GetNames capabilities) >? _); [done|]. destruct (lenZ (GetDegradedReasons health) >? _); [done|].
  destruct (ValidateDefinitionSet Size definitions limits); [done|].
  set (m := mkNegotiation _ _ _ _ _ _ _ _). destruct (ValidateEncodedSize (Size (Wire.MInitializeResponse _)) _); [done|].
  destruct (ValidateInitializeResponse Size _) eqn:Hv; [done|]. intros [= <-]. exists r. split; [done|].
  apply Z.eqb_eq in E1, E2, E3. split; cbn; try done.
  - unfold validateInitializeServer in Hs. rewrite !seq_None in Hs. destruct Hs as (_ & _ & _ & _ & _ & Hh & _).
    apply when_None, negb_false_iff, bool_decide_eq_true in Hh. done.
  - destruct (NegotiateProtocol_ok _ _ _ _ Hp E1) as (w & -> & H1 & _ & H2 & _). eauto.
  - by rewrite (NegotiateLimits_status _ _ _ _ Hl E2) in Hl.
  - by apply NegotiateCapabilities_ok in Hc.
Qed.

Context (Size_client : forall n clientID epoch, slen clientID <= 128 -> uint64_ok epoch ->
  Size (Wire.MInitializeResponse (initializeSuccessResponse n clientID epoch))
  <= Size (Wire.MInitializeResponse (initializeSuccessResponse n preview_client maxUint64))).

(** The reconnect epoch is an unsigned 64-bit field. *)
Definition claim_typed (claim : option Wire.ReconnectClaim) : Prop :=
  match claim with Some c => uint64_ok (Wire.rc_expectedOwnershipEpoch c) | None => True end.

Lemma reconnect_result claim clientID epoch :
  claim_typed claim -> validateReconnectResult claim clientID epoch = None ->
  token_ok 128 clientID /\ uint64_ok epoch /\ epoch <> 0.
Proof using Size.
  unfold validateReconnectResult, token, claim_typed. rewrite seq_None, validateToken_None. intros Hc [Ht H]. split; [done|].
  destruct claim as [c|].
  - apply seq_None in H as [H1 H2]. unfold validateReconnectClaim in H1. apply seq_None in H1 as [_ H1].
    apply when_None, orb_false_iff in H1 as [_ Hm]. apply when_None, orb_false_iff in H2 as [_ He]. bprop.
    rewrite He. unfold uint64_ok, maxUint64 in *. rewrite u64_id by (unfold uint64_ok, maxUint64; lia). lia.
  - apply when_None in H. bprop. subst. unfold uint64_ok, maxUint64. lia.
Qed.

Lemma negotiated_major w : validateNegotiatedProtocol (Some w) = None -> pv_major w <> 0.
Proof.
  unfold validateNegotiatedProtocol. rewrite seq_None. intros [H _].
  apply ValidateProtocolRange_None in H as (low & high & [= <- <-] & H & _). done.
Qed.

Lemma agreement r serverLimits health n clientID epoch :
  preflight_facts r serverLimits health n -> claim_typed (Wire.iq_reconnectClaim r) ->
  validateReconnectResult (Wire.iq_reconnectClaim r) clientID epoch = None ->
  ValidateInitializeResponseForRequest Size (Some r) (Some (initializeSuccessResponse n clientID epoch)) = None.
Proof using Size_client Size_nonneg.
  intros F Hcl Hrc. destruct (reconnect_result _ _ _ Hcl Hrc) as (Ht & He & He0).
  pose proof (pf_preview _ _ _ _ F) as Hprev. unfold ValidateInitializeResponseForRequest.
  rewrite (pf_request _ _ _ _ F).
  rewrite (response_transfer n preview_client maxUint64 clientID epoch Hprev Ht He0)
    by (apply Size_client; [apply Ht|done]).
  apply success_response_None in Hprev as ((Hnp & _ & _ & _ & _ & _ & _ & _) & _).
  rewrite !seq_None. split; [|split; [|split; [|split]]].
  - destruct (pf_protocol _ _ _ _ F) as (w & Hw & Hin & Hr). rewrite Hw in Hnp. unfold validateInitializeProtocolSelection.
    cbn [Wire.ip_protocol initializeSuccessResponse]. rewrite Hw, NegotiateProtocol_single by eauto using negotiated_major.
    by rewrite bool_decide_true.
  - destruct (pf_capabilities _ _ _ _ F) as (cs & cr & ce & Hs & Hr & Hc & (_ & _ & Hss) & (_ & _ & Hse) & H1 & H2).
    unfold validateInitializeCapabilitySelection. cbn [Wire.ip_capabilities initializeSuccessResponse].
    rewrite Hs, Hr, Hc. cbn [GetNames]. by rewrite !contains_all.
  - unfold validateInitializeLimitSelection. cbn [Wire.ip_limits Wire.ip_health initializeSuccessResponse].
    pose proof (pf_limits _ _ _ _ F) as Hl. pose proof (pf_request_size _ _ _ _ F) as Hz.
    destruct (in_limits n) as [l|]; cycle 1.
    { unfold NegotiateLimits in Hl. repeat case_match; simplify_eq. }
    apply NegotiateLimits_ok in Hl as (lr & la & -> & -> & _ & _ & H1 & H2 & _).
    rewrite (pf_health _ _ _ _ F), (pf_health_limits _ _ _ _ F). cbn [GetLimits] in Hz |- *.
    rewrite (exceeds_false l lr H1), (exceeds_false l la H2), Hz. done.
  - cbn [Wire.ip_initializationAttemptID initializeSuccessResponse]. rewrite (pf_attempt _ _ _ _ F). by rewrite bool_decide_true.
  - done.
Qed.

Lemma CompleteInitialize_success r serverLimits health n clientID epoch :
  preflight_facts r serverLimits health n -> claim_typed (Wire.iq_reconnectClaim r) ->
  validateReconnectResult (Wire.iq_reconnectClaim r) clientID epoch = None ->
  CompleteInitialize Size (Some n) clientID epoch = initializeSuccessResponse n clientID epoch.
Proof using Size_client Size_nonneg.
  intros F Hcl Hrc. destruct (reconnect_result _ _ _ Hcl Hrc) as (Ht & He & He0).
  pose proof (response_transfer n preview_client maxUint64 clientID epoch (pf_preview _ _ _ _ F) Ht He0) as Hok.
  rewrite success_response_None in Hok. destruct Hok as (Hn & _ & _ & Hz); [apply Size_client; [apply Ht|done]|].
  unfold negotiation_ok in Hn. rewrite <- (pf_claim _ _ _ _ F) in Hrc.
  destruct n as [claim attempt [p|] [b|] [c|] [l|] [h|] [d|]]; cbn in Hn; try (destruct_and!; discriminate).
  unfold CompleteInitialize. cbn [in_reconnectClaim] in Hrc. rewrite Hrc. cbn [in_limits GetLimits] in Hz. by rewrite Hz.
Qed.
End Agreement.

(** ** Refusals *)

Lemma request_attempt_plain protocol attemptID : plain_check 300 (validateInitializeRequestAttempt protocol attemptID).
Proof. unfold validateInitializeRequestAttempt, ValidateInitializationAttemptID. plain. destruct (_ && _); plain. Qed.

Lemma reconnect_claim_plain claim : plain_check 300 (validateReconnectClaim claim).
Proof. unfold validateReconnectClaim, token. destruct claim; plain. Qed.

Lemma ValidateInitializeRequest_plain Size request :
  (forall m, 0 <= Size m < 2 ^ 63) -> plain_check 300 (ValidateInitializeRequest Size request).
Proof.
  intros HS. unfold ValidateInitializeRequest. destruct request as [r|]; [|intros e [= <-]; by vm_compute].
  apply plain_seq; [apply (plain_weaken _ 200); [apply ValidateProtocolRange_plain|lia]|intros _].
  apply plain_seq; [apply request_attempt_plain|intros _].
  apply plain_seq; [apply (plain_wrap _ 200); [apply ValidateBuildIdentity_plain|by vm_compute]|intros _].
  apply plain_seq; [apply (plain_wrap _ 200); [apply ValidateCapabilities_plain|by vm_compute]|intros _].
  apply plain_seq; [apply (plain_wrap _ 200); [apply ValidateCapabilities_plain|by vm_compute]|intros _].
  apply plain_seq; [plain|intros _].
  apply plain_seq; [apply (plain_weaken _ 200); [apply ValidateLimits_plain|lia]|intros _].
  apply plain_seq; [apply reconnect_claim_plain|intros _].
  apply (plain_weaken _ 200); [|lia]. specialize (HS (Wire.MInitializeRequest r)). apply ValidateEncodedSize_plain; [lia|by vm_compute].
Qed.

Lemma validateInitializeServer_plain Size serverRange serverBuild serverCapabilities serverLimits health definitions :
  plain_check 300 (validateInitializeServer Size serverRange serverBuild serverCapabilities serverLimits health definitions).
Proof.
  assert (forall {E} (c : option E) text, plain_text text && (slen text <=? 300) = true ->
    plain_check 300 (match c with Some _ => Some (Errorf text) | None => None end)) as H.
  { intros E c text Ht. destruct c; [|done]. apply (plain_when 300 true text Ht). }
  unfold validateInitializeServer. repeat first [apply plain_seq; [|intros _]|apply plain_when; by vm_compute|apply H; by vm_compute].
Qed.

(** The number fields of the wire types are unsigned. *)
Definition limits_typed (limits : option Limits) : Prop :=
  match limits with Some l => Forall uint64_ok (limit_values l) | None => True end.
Definition request_typed (request : option Wire.InitializeRequest) : Prop :=
  match request with
  | Some r => limits_typed (Wire.iq_requestedLimits r) /\ claim_typed (Wire.iq_reconnectClaim r)
  | None => True
  end.

Lemma negotiated_limits_typed requested available l :
  limits_typed requested -> limits_typed available -> NegotiateLimits requested available = (Some l, OKStatus) ->
  uint64_ok (wl_maxMessageBytes l).
Proof.
  intros Hr Ha H. apply NegotiateLimits_ok in H as (r & a & -> & -> & _ & _ & _ & _ & Hin).
  inversion Hin as [|x xs Hx _]; subst. cbn [limits_typed] in *. rewrite Forall_forall in Hr, Ha.
  apply elem_of_app in Hx as [Hx|Hx]; auto.
Qed.

(** The status-only response of a refusal. *)
Definition refusal (s : Status) : Wire.InitializeResponse :=
  Wire.mkInitializeResponse (Some s) None None None None None "" 0 None [].

Definition refused (Size : Wire.ProtoMessage -> Z) (failure : Wire.InitializeResponse) : Prop :=
  exists s, failure = refusal s /\ ValidateInitializeResponse Size (Some failure) = Some (StatusError s).

Section Refusals.
Context (Size : Wire.ProtoMessage -> Z) (Size_int : forall m, 0 <= Size m < 2 ^ 63)
  (Size_fallback : Size (Wire.MInitializeResponse (refusal (protocolStatus ERROR_CODE_INTERNAL "initialize negotiation failed")))
     <= InitializeBootstrapMaximumBytes).

Lemma refusal_valid s :
  ValidateStatus (Some s) = None -> st_code s <> ERROR_CODE_OK ->
  Size (Wire.MInitializeResponse (refusal s)) <= InitializeBootstrapMaximumBytes ->
  ValidateInitializeResponse Size (Some (refusal s)) = Some (StatusError s).
Proof using Size_int.
  intros Hv Hc Hs. unfold ValidateInitializeResponse. change (Wire.ip_status (refusal s)) with (Some s). rewrite Hv.
  assert (AsError (Some s) = Some (StatusError s)) as ->.
  { unfold AsError. rewrite Hv. cbn [wrap option_map]. by rewrite (proj2 (Z.eqb_neq _ _) Hc). }
  change (initializeResponseHasNegotiatedFields (refusal s)) with false. cbn [when].
  rewrite (proj2 (ValidateEncodedSize_None _ _)); [done|]. split; [done|]. split; [apply Size_int|done].
Qed.

Lemma initializeStatusFailure_refused s :
  ValidateStatus (Some s) = None -> st_code s <> ERROR_CODE_OK -> refused Size (initializeStatusFailure Size s).
Proof using Size_int Size_fallback.
  intros Hv Hc. unfold initializeStatusFailure. fold (refusal s).
  destruct (ValidateEncodedSize _ _) as [e|] eqn:E.
  - eexists. split; [reflexivity|]. by apply refusal_valid.
  - exists s. split; [done|]. apply refusal_valid; [done..|]. apply ValidateEncodedSize_None in E as (_ & _ & E). exact E.
Qed.

Lemma initializeFailure_refused code message :
  code = ERROR_CODE_INVALID_ARGUMENT \/ code = ERROR_CODE_INTERNAL -> plain_text message = true -> slen message <= 300 ->
  refused Size (initializeFailure Size code message).
Proof using Size_int Size_fallback.
  intros Hc Hp Hl. apply initializeStatusFailure_refused.
  - apply plain_status_valid; [done..|unfold maximumStatusBytes; lia].
  - cbn. by destruct Hc as [-> | ->].
Qed.

Lemma PreflightInitialize_Err request serverRange serverBuild serverCapabilities serverLimits health definitions failure :
  request_typed request -> limits_typed serverLimits ->
  PreflightInitialize Size request serverRange serverBuild serverCapabilities serverLimits health definitions = Err failure ->
  refused Size failure.
Proof using Size_int Size_fallback.
  intros Htr Htl.
  assert (forall text, plain_text text && (slen text <=? 300) = true -> refused Size (initializeFailure Size ERROR_CODE_INVALID_ARGUMENT text)) as Hinv
    by (intros text H; apply andb_true_iff in H as [H1 H2%Z.leb_le]; apply initializeFailure_refused; auto).
  assert (forall text, plain_text text && (slen text <=? 300) = true -> refused Size (initializeFailure Size ERROR_CODE_INTERNAL text)) as Hint
    by (intros text H; apply andb_true_iff in H as [H1 H2%Z.leb_le]; apply initializeFailure_refused; auto).
  assert (forall c e, plain_check 300 c -> c = Some e -> plain_text (Error e) && (slen (Error e) <=? 300) = true) as Hpl.
  { intros c e Hc He. destruct (Hc e He) as [-> H]. by apply Z.leb_le. }
  unfold PreflightInitialize.
  destruct (ValidateInitializeRequest Size request) as [err|] eqn:Hq.
  { intros [= <-]. apply Hinv, (Hpl _ _ (ValidateInitializeRequest_plain Size request Size_int) Hq). }
  destruct request as [r|]; [|intros [= <-]; by apply Hinv].
  destruct (validateInitializeServer _ _ _ _ _ _ _) as [err|] eqn:Hs.
  { intros [= <-]. apply Hint, (Hpl _ _ (validateInitializeServer_plain _ _ _ _ _ _ _) Hs). }
  destruct (negotiation_statuses (Wire.iq_protocol r) serverRange None None None None None) as [Hst1 _].
  destruct (NegotiateProtocol _ _) as [version st1]. destruct (Z.eqb_spec (st_code st1) ERROR_CODE_OK) as [|E1]; cbn [negb];
    [|intros [= <-]; apply initializeStatusFailure_refused; [apply Hst1|done]].
  destruct (validateNegotiatedProtocol version); [intros [= <-]; by apply Hint|].
  destruct (validateInteractionStreamRequestedLimits _ _ _) as [err|] eqn:Hil.
  { intros [= <-]. unfold validateInteractionStreamRequestedLimits in Hil. destruct (_ <? _); [done|].
    apply when_Some in Hil as ->. by apply Hinv. }
  destruct (negotiation_statuses None None None None None (Wire.iq_requestedLimits r) serverLimits) as (_ & _ & Hst2).
  destruct (NegotiateLimits _ _) as [limits st2] eqn:Hl. destruct (Z.eqb_spec (st_code st2) ERROR_CODE_OK) as [E2|E2]; cbn [negb];
    [|intros [= <-]; apply initializeStatusFailure_refused; [apply Hst2|done]].
  destruct (ValidateEncodedSize (Size (Wire.MInitializeRequest r)) _) as [err|] eqn:Hz.
  { intros [= <-]. apply Hinv. revert Hz. apply Hpl, (plain_weaken _ 200); [|lia].
    pose proof (Size_int (Wire.MInitializeRequest r)). apply ValidateEncodedSize_plain; [lia|].
    destruct limits as [l|]; [|by destruct (proj2 (proj2 Hst2) E2)].
    rewrite (NegotiateLimits_status _ _ _ _ Hl E2) in Hl. destruct Htr as [Htr _].
    pose proof (negotiated_limits_typed _ _ _ Htr Htl Hl) as Ht. unfold uint64_ok, maxUint64 in Ht. cbn [GetLimits]. lia. }
  destruct (negotiation_statuses None None (Wire.iq_supportedCapabilities r) (Wire.iq_requiredCapabilities r)
    (snapshotCapabilitiesForProtocol version serverCapabilities) None None) as (_ & Hst3 & _).
  destruct (NegotiateCapabilities _ _ _) as [capabilities st3]. destruct (Z.eqb_spec (st_code st3) ERROR_CODE_OK) as [|E3]; cbn [negb];
    [|intros [= <-]; apply initializeStatusFailure_refused; [apply Hst3|done]].
  repeat match goal with
  | |- (if ?b then _ else _) = _ -> _ => destruct b; [intros [= <-]; by apply Hinv|]
  | |- match ?c with Some _ => _ | None => _ end = _ -> _ =>
      destruct c; [intros [= <-]; first [by apply Hinv|by apply Hint]|]
  end. done.
Qed.
End Refusals.

(** C19: Both ends of an initialization agree.  Whatever a server negotiates
    successfully, completed with an owner that satisfies the request's ownership
    claim, passes every check the requesting client makes of the answer; whatever
    it refuses reaches the client as a status-only response with a valid typed
    error. *)
Theorem initialize_agreement Size request serverRange serverBuild serverCapabilities serverLimits health definitions :
  (forall m, 0 <= Size m < 2 ^ 63) ->
  (forall n clientID epoch, slen clientID <= 128 -> uint64_ok epoch ->
     Size (Wire.MInitializeResponse (initializeSuccessResponse n clientID epoch))
     <= Size (Wire.MInitializeResponse (initializeSuccessResponse n preview_client maxUint64))) ->
  Size (Wire.MInitializeResponse (refusal (protocolStatus ERROR_CODE_INTERNAL "initialize negotiation failed")))
    <= InitializeBootstrapMaximumBytes ->
  request_typed request -> limits_typed serverLimits ->
  match PreflightInitialize Size request serverRange serverBuild serverCapabilities serverLimits health definitions with
  | Ok n =>
      exists r, request = Some r /\ forall clientID epoch,
        validateReconnectResult (Wire.iq_reconnectClaim r) clientID epoch = None ->
        let response := NegotiateInitialize Size request serverRange serverBuild serverCapabilities serverLimits health definitions
                          clientID epoch in
        ValidateInitializeResponseForRequest Size request (Some response) = None
        /\ Wire.ip_clientID response = clientID /\ Wire.ip_ownershipEpoch response = epoch
  | Err failure =>
      refused Size failure /\ forall clientID epoch,
        NegotiateInitialize Size request serverRange serverBuild serverCapabilities serverLimits health definitions clientID epoch = failure
  end.
Proof.
  intros Hint Hclient Hfallback Hreq Hlim.
  assert (forall m, 0 <= Size m) as Hnn by (intros m; apply Hint). unfold NegotiateInitialize.
  destruct (PreflightInitialize _ _ _ _ _ _ _ _) as [n|failure] eqn:E.
  - destruct (PreflightInitialize_Ok _ _ _ _ _ _ _ _ _ E) as (r & -> & F). exists r. split; [done|].
    intros clientID epoch Hrc. cbn zeta. destruct Hreq as [_ Hcl].
    rewrite (CompleteInitialize_success Size Hnn Hclient _ _ _ _ _ _ F Hcl Hrc).
    split; [|done]. by apply (agreement Size Hnn Hclient _ _ _ _ _ _ F).
  - split; [|done]. by apply PreflightInitialize_Err in E.
Qed.

Definition sample_size (m : Wire.ProtoMessage) : Z :=
  match m with Wire.MInitializeResponse r => 512 + Z.min 128 (slen (Wire.ip_clientID r)) | _ => 256 end.
Definition sample_build : option BuildIdentity := Some (mkBuild "spice" "1.0.0" "abcdef" "go1.26").
Definition sample_capabilities : option CapabilitySet := Some (mkCapabilities ["events"; "interactions"]).
Definition sample_request : option Wire.InitializeRequest :=
  Some (Wire.mkInitializeRequest (sample_range 3 5) sample_build sample_capabilities (Some (mkCapabilities ["events"]))
          (Some sample_wire_limits) None (repeat 7 16)).
Definition sample_health : option Health := Some (mkHealth HEALTH_STATE_READY [] 0 (Some sample_wire_limits)).
Definition sample_definitions : option Wire.DefinitionSet :=
  Some (Wire.mkDefinitionSet "rev-1" [Some (Wire.mkDefinition "agent" "v1" "model-a" 8)]).

Lemma initialize_agreement_witness :
  is_ok (PreflightInitialize sample_size sample_request (Some SupportedProtocolRange) sample_build sample_capabilities
           (Some sample_wire_limits) sample_health sample_definitions) = true
  /\ match PreflightInitialize sample_size sample_request (Some SupportedProtocolRange) sample_build sample_capabilities
             (Some sample_wire_limits) sample_health sample_definitions with
     | Ok n =>
         exists r, sample_request = Some r /\ forall clientID epoch,
           validateReconnectResult (Wire.iq_reconnectClaim r) clientID epoch = None ->
           let response := NegotiateInitialize sample_size sample_request (Some SupportedProtocolRange) sample_build
                             sample_capabilities (Some sample_wire_limits) sample_health sample_definitions clientID epoch in
           ValidateInitializeResponseForRequest sample_size sample_request (Some response) = None
           /\ Wire.ip_clientID response = clientID /\ Wire.ip_ownershipEpoch response = epoch
     | Err failure =>
         refused sample_size failure /\ forall clientID epoch,
           NegotiateInitialize sample_size sample_request (Some SupportedProtocolRange) sample_build
             sample_capabilities (Some sample_wire_limits) sample_health sample_definitions clientID epoch = failure
     end.
Proof.
  split; [vm_compute; reflexivity|].
  apply (initialize_agreement sample_size sample_request (Some SupportedProtocolRange) sample_build sample_capabilities
           (Some sample_wire_limits) sample_health sample_definitions).
  - intros m. unfold sample_size. destruct m; try lia. pose proof (slen_nonneg (Wire.ip_clientID m)). lia.
  - intros n clientID epoch Hl _. unfold sample_size. cbn [Wire.ip_clientID initializeSuccessResponse].
    change (slen preview_client) with 128. lia.
  - vm_compute. congruence.
  - split; [repeat constructor; vm_compute; congruence|exact I].
  - repeat constructor; vm_compute; congruence.
Defined.
