(* ===== verification/WireFormat.v ===== *)
(** The Protobuf wire format: the sizes of encoded fields.  [proto.Size] of the
    messages is a parameter of the development; the files that need its value
    take as hypothesis that it is the length of this encoding. *)
From Stdlib Require Import ZArith Lia.
From stdpp Require Import base list strings.
From S2P Require Import Prelude GoText CommonContract.
Open Scope Z_scope.

(** Sizes of the encodings, from the wire format: a base-128 varint, a field of
    number below 16 (one byte of tag), a proto3 field left out at its zero. *)
Definition varint_size (n : Z) : Z := Z.log2 n / 7 + 1.
Definition uint_field (n : Z) : Z := if n =? 0 then 0 else 1 + varint_size n.
Definition bool_field (b : bool) : Z := if b then 2 else 0.
Definition message_field (n : Z) : Z := 1 + varint_size n + n.
Definition bytes_field (s : string) : Z := if slen s =? 0 then 0 else message_field (slen s).

(** A status without detail. *)
Definition plain_status_size (s : Status) : Z :=
  uint_field (st_code s) + bytes_field (st_message s) + bool_field (st_retryable s) + bytes_field (st_operationID s).
Lemma varint_size_pos n : 1 <= varint_size n.
Proof. unfold varint_size. pose proof (Z.log2_nonneg n). pose proof (Z.div_pos (Z.log2 n) 7). lia. Qed.

Lemma varint_size_le n k : 1 <= k -> n < 2 ^ (7 * k) -> varint_size n <= k.
Proof.
  intros Hk Hn. unfold varint_size. destruct (Z.le_gt_cases n 0) as [Hz|Hz].
  { rewrite Z.log2_nonpos by done. change (0 / 7) with 0. lia. }
  assert (Z.log2 n < 7 * k) by (by apply Z.log2_lt_pow2). assert (Z.log2 n / 7 < k); [|lia]. apply Z.div_lt_upper_bound; lia.
Qed.

Lemma message_field_le n k : 1 <= k -> n < 2 ^ (7 * k) -> message_field n <= n + k + 1.
Proof. intros Hk Hn. pose proof (varint_size_le n k Hk Hn). unfold message_field. lia. Qed.
Lemma message_field_ge n : n < message_field n.
Proof. pose proof (varint_size_pos n). unfold message_field. lia. Qed.

Lemma bytes_field_le s k : 1 <= k -> slen s < 2 ^ (7 * k) -> 0 <= bytes_field s <= slen s + k + 1.
Proof.
  intros Hk Hs. unfold bytes_field. pose proof (slen_nonneg s). destruct (Z.eqb_spec (slen s) 0); [lia|].
  pose proof (message_field_le _ k Hk Hs). pose proof (message_field_ge (slen s)). lia.
Qed.

Lemma uint_field_le n : n <= maxUint64 -> 0 <= uint_field n <= 11.
Proof.
  intros Hn. unfold uint_field. destruct (n =? 0); [lia|]. pose proof (varint_size_pos n).
  pose proof (varint_size_le n 10). unfold maxUint64 in Hn. change (7 * 10) with 70 in *. lia.
Qed.
