(* ===== verification/LifecycleStatus.v ===== *)
(** The statuses of the gRPC adapter (src/daemon/grpcserver/lifecycle_status.go
    and the helpers of lifecycle.go, service.go, stream_events.go and
    stream_interactions.go): daemon errors as protocol statuses.

    An [error] is seen only through [errors.Is] and [errors.As]; a value of
    [error_facts] has their answers. *)
From Stdlib Require Import ZArith Lia.
From stdpp Require Import base gmap list strings pretty.
From S2P Require Import Prelude GoText GoOrder CommonContract EngineWire EngineContract Session.
Open Scope Z_scope.

(** The sentinel errors the adapter asks for. *)
Inductive sentinel :=
| StaleSession | HostCapacity | GateCapacity | HostedRunUnavailable | HostClosed | StoreClosed | HostUnavailable | HostState
| HostUncertain | AttemptConflict.
#[export] Instance sentinel_eq_dec : EqDecision sentinel.
Proof. solve_decision. Defined.

Record error_facts := mkFacts {
  ef_is : sentinel -> bool;
  ef_stale : option (Z * Z);
  ef_hostCapacity : option (string * Z * Z);
  ef_sessionCapacity : option (string * Z);
  ef_negotiatedCapacity : option (string * Z);
  ef_observerExhausted : option (string * Z * Z)
}.

Definition simple_status (code : Z) (message : string) (retryable : bool) : Status := mkStatus code message retryable "" None.

Definition internalLifecycleStatus : Status := simple_status ERROR_CODE_INTERNAL "daemon operation failed" false.
Definition internalLifecycleFailure (message : string) : Status := simple_status ERROR_CODE_INTERNAL message false.
Definition invalidLifecycleRequest (message : string) : Status := simple_status ERROR_CODE_INVALID_ARGUMENT message false.

Definition overloadLifecycleStatus (message resource : string) (limit observed : Z) : Status :=
  mkStatus ERROR_CODE_RESOURCE_EXHAUSTED message true "" (Some (Status_Overload (Some (mkOverload resource limit observed)))).

Definition uncertainLifecycleStatus (operationID operationKind : string) : Status :=
  mkStatus ERROR_CODE_UNCERTAIN_OPERATION "operation outcome is uncertain" false operationID
    (Some (Status_UncertainOperation (Some (mkUncertainOperation operationID operationKind)))).

(** The [switch] on the sentinels. *)
Definition sentinel_status (err : error_facts) : Status :=
  if ef_is err HostedRunUnavailable then simple_status ERROR_CODE_NOT_FOUND "run is unavailable" false
  else if ef_is err HostClosed || ef_is err StoreClosed then simple_status ERROR_CODE_UNAVAILABLE "daemon is unavailable" true
  else if ef_is err HostUnavailable then simple_status ERROR_CODE_UNAVAILABLE "daemon dependency is unavailable" true
  else if ef_is err HostState then simple_status ERROR_CODE_CONFLICT "run lifecycle transition conflicts with current state" false
  else if ef_is err StaleSession || ef_is err HostCapacity || ef_is err GateCapacity
  then simple_status ERROR_CODE_UNAVAILABLE "daemon operation is temporarily unavailable" true
  else internalLifecycleStatus.

Definition gate_capacity_status (err : error_facts) : option Status :=
  match ef_sessionCapacity err with
  | Some (resource, maximum) =>
      if ef_is err GateCapacity && (maximum >? 0)
      then Some (overloadLifecycleStatus "client session capacity is exhausted" resource maximum (maximum +64 1))
      else None
  | None => None
  end.

Definition capacity_status (err : error_facts) : option Status :=
  match ef_hostCapacity err with
  | Some (resource, limit, observed) =>
      if ef_is err HostCapacity then Some (overloadLifecycleStatus "daemon capacity is exhausted" resource limit observed)
      else gate_capacity_status err
  | None => gate_capacity_status err
  end.

Definition stale_status (expected observed : Z) : Status :=
  mkStatus ERROR_CODE_STALE_CLIENT "client ownership epoch is stale" false ""
    (Some (Status_StaleClient (Some (mkStaleClient expected observed)))).

Definition lifecycleStatusWithoutOperation (err : error_facts) : Status :=
  match ef_stale err with
  | Some (expected, observed) =>
      if ef_is err StaleSession then stale_status expected observed
      else match capacity_status err with Some s => s | None => sentinel_status err end
  | None => match capacity_status err with Some s => s | None => sentinel_status err end
  end.

Definition with_operation (operationID : string) (s : Status) : Status :=
  mkStatus (st_code s) (st_message s) (st_retryable s) operationID (st_detail s).

Definition lifecycleFailureStatus (err : error_facts) (operationID operationKind : string) : Status :=
  let result := lifecycleStatusWithoutOperation err in
  let result := if negb (String.eqb operationID "") then with_operation operationID result else result in
  let result := if ef_is err HostUncertain then uncertainLifecycleStatus operationID operationKind else result in
  if set (ValidateStatus (Some result)) then internalLifecycleStatus else result.

Definition interactionStreamFailureStatus (err : error_facts) : Status :=
  match ef_observerExhausted err with
  | Some (resource, limit, observed) =>
      overloadLifecycleStatus "interaction observer capacity is exhausted" resource limit observed
  | None => lifecycleStatusWithoutOperation err
  end.

Definition interactionVersionMismatchStatus (observed : option ProtocolVersion) : Status :=
  let required := Some (mkVersion ProtocolMajor InteractionStreamMinimumMinor ProtocolPatch) in
  mkStatus ERROR_CODE_INCOMPATIBLE_VERSION "interaction streams require protocol minor 2" false ""
    (Some (Status_VersionMismatch (Some (mkVersionMismatch (Some (mkRange observed observed)) (Some (mkRange required required)))))).

(** [sessionFailureStatus] of service.go. *)
Definition session_overload (resource : string) (limit : Z) : Status :=
  mkStatus ERROR_CODE_RESOURCE_EXHAUSTED "client session capacity is exhausted" false ""
    (Some (Status_Overload (Some (mkOverload resource limit (limit +64 1))))).
Definition session_unavailable : Status := simple_status ERROR_CODE_UNAVAILABLE "client session is unavailable" true.

Definition session_gate_status (err : error_facts) : Status :=
  match ef_sessionCapacity err with
  | Some (resource, maximum) => if maximum >? 0 then session_overload resource maximum else session_unavailable
  | None => session_unavailable
  end.
Definition session_stale_status (err : error_facts) : Status :=
  match ef_stale err with
  | Some (expected, observed) => if negb (expected =? 0) then stale_status expected observed else session_gate_status err
  | None => session_gate_status err
  end.
Definition sessionFailureStatus (err : error_facts) : Status :=
  if ef_is err AttemptConflict
  then simple_status ERROR_CODE_CONFLICT "initialization attempt identity conflicts with another request" false
  else match ef_negotiatedCapacity err with
  | Some (resource, limit) => if limit >? 0 then session_overload resource limit else session_stale_status err
  | None => session_stale_status err
  end.

(** The answers for an error of the session store. *)
Definition session_facts (err : SessionError) : error_facts :=
  mkFacts (fun s => match s with
                    | StaleSession => is_stale err
                    | GateCapacity => is_gate_capacity err
                    | StoreClosed => match err with ErrSessionStoreClosed => true | _ => false end
                    | _ => false
                    end)
    (match err with StaleSessionError _ expected observed => Some (expected, observed) | _ => None end)
    None
    (match err with SessionGateCapacityError resource maximum => Some (resource, maximum) | _ => None end)
    None None.

(** ** Lemmas *)

(** The codes that carry no detail. *)
Definition detail_free (code : Z) : bool :=
  knownErrorCode code
  && negb (existsb (Z.eqb code) [ERROR_CODE_UNSPECIFIED; ERROR_CODE_OK; ERROR_CODE_INCOMPATIBLE_VERSION; ERROR_CODE_MISSING_CAPABILITY;
       ERROR_CODE_OUT_OF_RANGE; ERROR_CODE_RESOURCE_EXHAUSTED; ERROR_CODE_STALE_CLIENT; ERROR_CODE_SNAPSHOT_VERSION_MISMATCH;
       ERROR_CODE_UNCERTAIN_OPERATION]).

(** A failure is valid when its message and operation are tokens and it has its
    detail. *)
Lemma failure_valid s : knownErrorCode (st_code s) = true -> st_code s <> ERROR_CODE_OK -> st_code s <> ERROR_CODE_UNSPECIFIED ->
  ValidateStatus (Some s) = None <->
  token_ok maximumStatusBytes (st_message s) /\ (st_operationID s = ""%string \/ token_ok 128 (st_operationID s)) /\ validateStatusDetail s = None.
Proof.
  intros Hk Hok Hu. unfold ValidateStatus. rewrite (proj2 (Z.eqb_neq _ _) Hok), (proj2 (Z.eqb_neq _ _) Hu), Hk. cbn [when negb].
  rewrite !seq_None, validateToken_None. destruct (String.eqb_spec (st_operationID s) ""); cbn [negb].
  - split; [intros (? & _ & ?); by split_and!; [|left|]|intros (? & _ & ?); done].
  - rewrite validateToken_None. split; [intros (? & ? & ?); by split_and!; [|right|]|intros (? & [?|?] & ?); done].
Qed.

Lemma detail_free_None s : detail_free (st_code s) = true -> st_detail s = None -> validateStatusDetail s = None.
Proof.
  intros Hd Hn. unfold detail_free in Hd. apply andb_true_iff in Hd as [_ Hd]. cbn [existsb] in Hd. rewrite negb_true_iff, !orb_false_iff in Hd.
  destruct Hd as (_ & _ & H1 & H2 & H3 & H4 & H5 & H6 & H7 & _). unfold validateStatusDetail. rewrite H1, H2, H3, H4, H5, H6, H7, Hn. done.
Qed.

Lemma base_operation err : st_operationID (lifecycleStatusWithoutOperation err) = ""%string.
Proof.
  unfold lifecycleStatusWithoutOperation, capacity_status, gate_capacity_status, sentinel_status.
  repeat case_match; simplify_eq; done.
Qed.

Lemma with_operation_same s : st_operationID s = ""%string -> with_operation "" s = s.
Proof. destruct s. cbn. by intros ->. Qed.

(** The status before the final check. *)
Definition proposed (err : error_facts) (operationID operationKind : string) : Status :=
  if ef_is err HostUncertain then uncertainLifecycleStatus operationID operationKind
  else with_operation operationID (lifecycleStatusWithoutOperation err).

Lemma failure_proposed err operationID operationKind :
  lifecycleFailureStatus err operationID operationKind
  = if set (ValidateStatus (Some (proposed err operationID operationKind))) then internalLifecycleStatus else proposed err operationID operationKind.
Proof.
  unfold lifecycleFailureStatus, proposed. destruct (ef_is err HostUncertain); [done|].
  destruct (String.eqb_spec operationID "") as [->|]; cbn [negb]; [|done]. by rewrite (with_operation_same _ (base_operation err)).
Qed.

Definition lifecycle_messages : list string :=
  ["operation outcome is uncertain"; "client ownership epoch is stale"; "daemon capacity is exhausted"; "client session capacity is exhausted";
   "run is unavailable"; "daemon is unavailable"; "daemon dependency is unavailable"; "run lifecycle transition conflicts with current state";
   "daemon operation is temporarily unavailable"; "daemon operation failed"]%string.

Lemma lifecycle_message err operationID operationKind : st_message (proposed err operationID operationKind) ∈ lifecycle_messages.
Proof.
  unfold proposed, lifecycleStatusWithoutOperation, capacity_status, gate_capacity_status, sentinel_status, lifecycle_messages.
  repeat case_match; simplify_eq; cbn [uncertainLifecycleStatus with_operation stale_status overloadLifecycleStatus simple_status internalLifecycleStatus st_message];
    repeat first [left; fail|right]; try set_solver.
Qed.

Lemma messages_tokens m : m ∈ lifecycle_messages -> token_ok maximumStatusBytes m.
Proof.
  intros Hm. assert (Forall (fun m => token_ok maximumStatusBytes m) lifecycle_messages) as H; [|by apply (proj1 (Forall_forall _ _) H)].
  repeat (constructor; [apply plain_text_token; [by vm_compute|unfold maximumStatusBytes; vm_compute; discriminate]|]). constructor.
Qed.

(** An operation identifier as the handlers have it. *)
Definition operation_ok (operationID : string) : Prop := operationID = ""%string \/ token_ok 128 operationID.

Lemma proposed_code err operationID operationKind : let code := st_code (proposed err operationID operationKind) in
  knownErrorCode code = true /\ code <> ERROR_CODE_OK /\ code <> ERROR_CODE_UNSPECIFIED.
Proof.
  unfold proposed, lifecycleStatusWithoutOperation, capacity_status, gate_capacity_status, sentinel_status.
  repeat case_match; simplify_eq; cbn [uncertainLifecycleStatus with_operation stale_status overloadLifecycleStatus simple_status internalLifecycleStatus st_code];
    (split; [reflexivity|split; discriminate]).
Qed.

Lemma proposed_valid err operationID operationKind : operation_ok operationID -> validateStatusDetail (proposed err operationID operationKind) = None ->
  lifecycleFailureStatus err operationID operationKind = proposed err operationID operationKind.
Proof.
  intros Ho Hd. destruct (proposed_code err operationID operationKind) as (H1 & H2 & H3). rewrite failure_proposed.
  rewrite (proj2 (failure_valid _ H1 H2 H3)); [done|]. split; [apply messages_tokens, lifecycle_message|]. split; [|done].
  unfold proposed. by destruct (ef_is err HostUncertain).
Qed.

Lemma internal_valid : ValidateStatus (Some internalLifecycleStatus) = None.
Proof. apply plain_status_valid; [by right|by vm_compute|by vm_compute]. Qed.

Lemma overload_valid message operationID resource limit observed : token_ok maximumTokenBytes resource -> 0 < limit < observed ->
  validateStatusDetail (with_operation operationID (overloadLifecycleStatus message resource limit observed)) = None.
Proof.
  intros Ht Hl. change (validateOverload (mkOverload resource limit observed) = None). unfold validateOverload. cbn [ov_resource ov_limit ov_observed].
  rewrite seq_None, validateToken_None, when_None, orb_false_iff, Z.eqb_neq, Z.leb_gt. split; [done|lia].
Qed.

(** What the facts of an error promise to the client. *)
Inductive reported (err : error_facts) (operationID operationKind : string) : Status -> Prop :=
| reported_uncertain : ef_is err HostUncertain = true -> token_ok 128 operationID -> token_ok maximumTokenBytes operationKind ->
    reported err operationID operationKind (uncertainLifecycleStatus operationID operationKind)
| reported_stale expected observed : ef_is err HostUncertain = false -> ef_stale err = Some (expected, observed) -> ef_is err StaleSession = true ->
    expected <> 0 -> expected <> observed -> reported err operationID operationKind (with_operation operationID (stale_status expected observed))
| reported_capacity resource limit observed : ef_is err HostUncertain = false -> ef_stale err = None ->
    ef_hostCapacity err = Some (resource, limit, observed) -> ef_is err HostCapacity = true ->
    token_ok maximumTokenBytes resource -> 0 < limit < observed ->
    reported err operationID operationKind (with_operation operationID (overloadLifecycleStatus "daemon capacity is exhausted" resource limit observed))
| reported_gate resource maximum : ef_is err HostUncertain = false -> ef_stale err = None -> ef_hostCapacity err = None ->
    ef_sessionCapacity err = Some (resource, maximum) -> ef_is err GateCapacity = true -> token_ok maximumTokenBytes resource -> 0 < maximum < maxUint64 ->
    reported err operationID operationKind
      (with_operation operationID (overloadLifecycleStatus "client session capacity is exhausted" resource maximum (maximum + 1)))
| reported_sentinel : ef_is err HostUncertain = false -> ef_stale err = None -> ef_hostCapacity err = None -> ef_sessionCapacity err = None ->
    reported err operationID operationKind (with_operation operationID (sentinel_status err)).

(** C: The status of a failed operation is always valid and never a success, its
    text is one of ten fixed messages, and complete typed facts reach the client:
    an uncertain outcome names its operation, a stale session both epochs, an
    exhausted capacity its resource, limit and observation, and any other error
    the class of its sentinel. *)
Theorem lifecycle_status_exact err operationID operationKind :
  let s := lifecycleFailureStatus err operationID operationKind in
  ValidateStatus (Some s) = None /\ st_code s <> ERROR_CODE_OK /\ st_message s ∈ lifecycle_messages
  /\ forall expected, operation_ok operationID -> reported err operationID operationKind expected -> s = expected.
Proof.
  intros s. assert (ValidateStatus (Some s) = None /\ st_code s <> ERROR_CODE_OK /\ st_message s ∈ lifecycle_messages) as Hv.
  { unfold s. rewrite failure_proposed. destruct (ValidateStatus (Some (proposed err operationID operationKind))) eqn:E; cbn [set].
    - split; [exact internal_valid|]. split; [done|]. unfold lifecycle_messages. cbn. set_solver.
    - split; [exact E|]. split; [apply proposed_code|apply lifecycle_message]. }
  destruct Hv as (H1 & H2 & H3). split_and!; [exact H1|exact H2|exact H3|]. intros expected Ho Hr.
  assert (proposed err operationID operationKind = expected /\ validateStatusDetail expected = None) as [<- Hd]; [|by apply proposed_valid].
  unfold proposed, lifecycleStatusWithoutOperation, capacity_status, gate_capacity_status. destruct Hr.
  - rewrite H. split; [done|]. unfold validateStatusDetail. cbn [uncertainLifecycleStatus st_code st_detail].
    change (validateUncertainOperation (mkUncertainOperation operationID operationKind) = None). unfold validateUncertainOperation.
    cbn [uo_operationID uo_operationKind]. by rewrite seq_None, !validateToken_None.
  - rewrite H, H0, H4. split; [done|]. change (validateStaleClient (mkStaleClient expected observed) = None). unfold validateStaleClient. cbn [sc_expectedEpoch sc_observedEpoch].
    by rewrite when_None, orb_false_iff, !Z.eqb_neq.
  - rewrite H, H0, H4, H5. split; [done|]. by apply overload_valid.
  - rewrite H, H0, H4, H5, H6. rewrite Z.gtb_ltb, (proj2 (Z.ltb_lt _ _)) by lia. cbn [andb]. rewrite u64_id by (unfold uint64_ok; lia).
    split; [done|]. apply overload_valid; [done|lia].
  - rewrite H, H0, H4, H5. split; [done|]. apply detail_free_None; unfold sentinel_status; repeat case_match; done.
Qed.

Lemma unavailable_valid : ValidateStatus (Some session_unavailable) = None.
Proof.
  apply failure_valid; [reflexivity|discriminate|discriminate|]. split; [apply plain_text_token; by vm_compute|]. split; [left; reflexivity|reflexivity].
Qed.

Lemma stale_valid expected observed : expected <> 0 -> expected <> observed -> ValidateStatus (Some (stale_status expected observed)) = None.
Proof.
  intros He Ho. apply failure_valid; [reflexivity|discriminate|discriminate|]. split; [apply plain_text_token; by vm_compute|].
  split; [left; reflexivity|]. change (validateStaleClient (mkStaleClient expected observed) = None). unfold validateStaleClient.
  cbn [sc_expectedEpoch sc_observedEpoch]. by rewrite when_None, orb_false_iff, !Z.eqb_neq.
Qed.

(** What the session store answers to a check. *)
Lemma Check_session_refusal st clientID epoch err : Check_session st clientID epoch = Some err ->
  err = ErrBoundedToken \/ err = ErrSessionStoreClosed \/ err = ErrStaleSession
  \/ exists s, st_sessions st !! clientID = Some s /\ err = StaleSessionError clientID (ss_epoch s) epoch /\ (epoch = 0 \/ ss_epoch s <> epoch).
Proof.
  unfold Check_session, sessionLocked. destruct (boundedToken clientID); cbn [negb]; [|intros [= <-]; by left].
  destruct (closedLocked _); [intros [= <-]; by right; left|]. destruct (st_sessions st !! clientID) as [s|]; [|intros [= <-]; by right; right; left].
  destruct ((epoch =? 0) || negb (ss_epoch s =? epoch)) eqn:E; [|done]. intros [= <-]. do 3 right. exists s. split; [done|]. split; [done|].
  apply orb_true_iff in E as [E|E]; bprop; [by left|by right].
Qed.

Lemma stale_facts clientID expected observed : expected <> 0 ->
  sessionFailureStatus (session_facts (StaleSessionError clientID expected observed)) = stale_status expected observed.
Proof.
  intros He. unfold sessionFailureStatus, session_stale_status. cbn [session_facts ef_is ef_negotiatedCapacity ef_stale].
  by rewrite (proj2 (Z.eqb_neq _ _) He).
Qed.

(** A refusal of the session store has a valid status: the epochs it reports
    differ, as the protocol requires. *)
Lemma session_failure_valid maximum w clientID epoch err : session_reachable maximum w -> Check_session (sw_store w) clientID epoch = Some err ->
  exists s, sessionFailureStatus (session_facts err) = s /\ ValidateStatus (Some s) = None /\ st_code s <> ERROR_CODE_OK.
Proof.
  intros Hr Hc. pose proof (session_reachable_inv _ _ Hr) as Hi.
  apply Check_session_refusal in Hc as [->|[->|[->|(s & Hs & -> & He)]]].
  1-3: exists session_unavailable; split; [reflexivity|]; split; [exact unavailable_valid|discriminate].
  destruct (so_epoch _ _ _ (wi_states _ Hi _ _ Hs)) as [Hpos _]. exists (stale_status (ss_epoch s) epoch).
  split; [apply stale_facts; lia|]. split; [apply stale_valid; lia|discriminate].
Qed.
