(* ===== verification/InteractionStream.v ===== *)
(** The interaction stream: the client's tail validator
    (src/engine/v1/contract.go) and the server that turns an observation of the
    pending hub into frames (src/daemon/grpcserver/stream_interactions.go).

    The server's loop is driven by a list of what its [select] statements
    received, in any order; a send is answered by the transport. *)
From Stdlib Require Import ZArith Lia.
From stdpp Require Import base gmap list strings pretty sorting relations.
From S2P Require Import Prelude GoText GoOrder GoJson CommonContract EngineWire EngineContract WireFormat LifecycleStatus Interaction Session PendingWatch PendingHub.
Open Scope Z_scope.

#[export] Instance pending_interaction_eq_dec : EqDecision Wire.PendingInteraction.
Proof. solve_decision. Defined.

Definition frame_snapshot (f : option Wire.StreamInteractionsResponse) : option Wire.InteractionSnapshot :=
  match f with Some (Wire.mkStreamInteractionsResponse (Some (Wire.Payload_Snapshot s))) => s | _ => None end.
Definition frame_delta (f : option Wire.StreamInteractionsResponse) : option Wire.InteractionDelta :=
  match f with Some (Wire.mkStreamInteractionsResponse (Some (Wire.Payload_Delta d))) => d | _ => None end.
Definition frame_control (f : option Wire.StreamInteractionsResponse) : option Wire.InteractionStreamControl :=
  match f with Some (Wire.mkStreamInteractionsResponse (Some (Wire.Payload_Control c))) => c | _ => None end.

Definition snapshot_frame (s : option Wire.InteractionSnapshot) : Wire.StreamInteractionsResponse :=
  Wire.mkStreamInteractionsResponse (Some (Wire.Payload_Snapshot s)).
Definition delta_frame (d : option Wire.InteractionDelta) : Wire.StreamInteractionsResponse :=
  Wire.mkStreamInteractionsResponse (Some (Wire.Payload_Delta d)).
Definition control_frame (c : option Wire.InteractionStreamControl) : Wire.StreamInteractionsResponse :=
  Wire.mkStreamInteractionsResponse (Some (Wire.Payload_Control c)).

Definition GetRevision (s : option Wire.InteractionSnapshot) : Z := match s with Some s => Wire.is_revision s | None => 0 end.
Definition GetPending (s : option Wire.InteractionSnapshot) : list (option Wire.PendingInteraction) :=
  match s with Some s => Wire.is_pending s | None => [] end.

(** [InteractionTailValidator]. *)
Record InteractionTailValidator := mkTailValidator {
  tv_revision : Z;
  tv_limits : Limits;
  tv_pending : gmap string (option Wire.PendingInteraction)
}.

Section Validator.
Context (Size : Wire.ProtoMessage -> Z).

Fixpoint frames_fit (index : N) (values : list (option Wire.StreamInteractionsResponse)) (limits : Limits) : option error :=
  match values with
  | [] => None
  | value :: rest =>
      wrap ("interaction frame " +:+ pretty index +:+ ": ")
        (ValidateEncodedSize (Wire.size_of Size Wire.MStreamInteractionsResponse value) (wl_maxMessageBytes limits))
      >>> frames_fit (N.succ index) rest limits
  end.

Definition ValidateInteractionStreamPage (values : list (option Wire.StreamInteractionsResponse)) (expectedTail : bool)
  (limits : option Limits) : option error :=
  match values with
  | [first; second] =>
      ValidateLimits limits
      >>> match limits with
          | None => None
          | Some l =>
              frames_fit 0 values l
              >>> wrap "first interaction frame: " (ValidateInteractionSnapshot Size (frame_snapshot first) limits)
              >>> wrap "interaction control frame: " (ValidateInteractionStreamControl (frame_control second))
              >>> match frame_control second with
                  | None => None
                  | Some control =>
                      when (set (AsError (Wire.ic_status control))) "interaction initial page control must be successful"
                      >>> when (negb (Wire.ic_latestRevision control =? GetRevision (frame_snapshot first))
                                || negb (Wire.ic_pageLastRevision control =? GetRevision (frame_snapshot first))
                                || Wire.ic_hasMore control)
                            "interaction control must identify the complete snapshot revision"
                      >>> when (negb (Bool.eqb (Wire.ic_tailing control) expectedTail))
                            "interaction control tail state does not match the request"
                  end
          end
  | _ => Some (Errorf "interaction stream initial page requires exactly a snapshot and control")
  end.

Definition NewInteractionTailValidator (snapshot : option Wire.InteractionSnapshot) (control : option Wire.InteractionStreamControl)
  (limits : option Limits) : result error InteractionTailValidator :=
  match ValidateInteractionStreamPage [Some (snapshot_frame snapshot); Some (control_frame control)] true limits, limits with
  | Some err, _ => Err err
  | None, None => Err (Errorf "protocol limits are required")
  | None, Some l =>
      Ok (mkTailValidator (GetRevision snapshot) l
            (foldl (fun pending item => <[interactionKey item := item]> pending) ∅ (GetPending snapshot)))
  end.

Definition validateRepresentableInteractionState (revision : Z) (pending : gmap string (option Wire.PendingInteraction)) (limits : Limits)
  : option error :=
  let keys := sort_strings (map fst (map_to_list pending)) in
  let items := map (fun key => match pending !! key with Some item => item | None => None end) keys in
  let snapshot := Some (Wire.mkInteractionSnapshot revision items) in
  wrap "interaction state is not reconnectable: " (ValidateInteractionSnapshot Size snapshot (Some limits))
  >>> wrap "interaction state is not reconnectable: " (fits Size (Wire.MStreamInteractionsResponse (snapshot_frame snapshot)) limits).

Definition Accept (v : InteractionTailValidator) (frame : option Wire.StreamInteractionsResponse) : result error InteractionTailValidator :=
  let l := tv_limits v in
  match ValidateEncodedSize (Wire.size_of Size Wire.MStreamInteractionsResponse frame) (wl_maxMessageBytes l)
        >>> ValidateInteractionDelta (frame_delta frame), frame_delta frame with
  | Some err, _ => Err err
  | None, None => Err (Errorf "interaction delta is required")
  | None, Some delta =>
      if (tv_revision v =? maxUint64) || negb (Wire.id_revision delta =? tv_revision v +64 1) then
        Err (Errorf "interaction delta is not the next revision")
      else
        let item := Wire.id_interaction delta in
        let key := interactionKey item in
        let next :=
          if Wire.id_kind delta =? Wire.INTERACTION_DELTA_KIND_OPENED then
            match tv_pending v !! key with
            | Some _ => Err (Errorf "interaction delta opens an already-pending interaction")
            | None =>
                if Z.of_nat (size (tv_pending v)) >=? wl_maxCollectionItems l then
                  Err (Errorf "interaction delta exceeds the negotiated pending count")
                else Ok (<[key := item]> (tv_pending v))
            end
          else if Wire.id_kind delta =? Wire.INTERACTION_DELTA_KIND_CLOSED then
            match tv_pending v !! key with
            | None => Err (Errorf "interaction delta closes a non-pending interaction")
            | Some existing =>
                if negb (bool_decide (existing = item)) then
                  Err (Errorf "interaction close does not match the pending interaction")
                else Ok (delete key (tv_pending v))
            end
          else Err (Errorf "interaction delta kind is unsupported") in
        match next with
        | Err err => Err err
        | Ok pending =>
            match validateRepresentableInteractionState (Wire.id_revision delta) pending l with
            | Some err => Err err
            | None => Ok (mkTailValidator (Wire.id_revision delta) l pending)
            end
        end
  end.

(** A client feeding frames to its validator. *)
Fixpoint accept_all (v : InteractionTailValidator) (frames : list Wire.StreamInteractionsResponse) : result error InteractionTailValidator :=
  match frames with
  | [] => Ok v
  | frame :: rest => match Accept v (Some frame) with Ok v => accept_all v rest | Err err => Err err end
  end.
End Validator.

(** ** The server *)

Inductive wire_error := WireInteraction (err : InteractionError) | WireContract (err : error) | WireKind.

Definition pendingInteractionToWire (value : Pending) : result wire_error Wire.PendingInteraction :=
  match InteractionScope_Validate (pe_scope value) with
  | Some err => Err (WireInteraction err)
  | None =>
      match InteractionRequest_Validate (pe_request value) with
      | Some err => Err (WireInteraction err)
      | None =>
          let result := Wire.mkPendingInteraction (is_runID (pe_scope value)) (ir_id (pe_request value)) (ir_kind (pe_request value))
                          (ir_prompt (pe_request value)) (ir_schema (pe_request value)) in
          match ValidatePendingInteraction (Some result) with
          | Some err => Err (WireContract err)
          | None => Ok result
          end
      end
  end.

Fixpoint pending_to_wire (values : list Pending) : result wire_error (list (option Wire.PendingInteraction)) :=
  match values with
  | [] => Ok []
  | value :: rest =>
      match pendingInteractionToWire value with
      | Err err => Err err
      | Ok item => match pending_to_wire rest with Err err => Err err | Ok items => Ok (Some item :: items) end
      end
  end.

Definition interactionDeltaToWire (value : Delta) : result wire_error Wire.InteractionDelta :=
  match pendingInteractionToWire (dl_pending value) with
  | Err err => Err err
  | Ok item =>
      let kind := match dl_kind value with
                  | DeltaOpened => Wire.INTERACTION_DELTA_KIND_OPENED
                  | DeltaClosed => Wire.INTERACTION_DELTA_KIND_CLOSED
                  end in
      let result := Wire.mkInteractionDelta (dl_revision value) kind (Some item) in
      match ValidateInteractionDelta (Some result) with
      | Some err => Err (WireContract err)
      | None => Ok result
      end
  end.

Section Server.
Context (Size : Wire.ProtoMessage -> Z).

Definition interactionSnapshotToWire (value : PendingSnapshot) (limits : option Limits) : result wire_error Wire.InteractionSnapshot :=
  match pending_to_wire (ps_pending value) with
  | Err err => Err err
  | Ok pending =>
      let result := Wire.mkInteractionSnapshot (ps_revision value) pending in
      match ValidateInteractionSnapshot Size (Some result) limits with
      | Some err => Err (WireContract err)
      | None => Ok result
      end
  end.

(** What ends a stream: nothing more said, a transport error, the page cut
    short, the control too large, or the terminal control frame sent. *)
Inductive stream_end := EndQuiet | EndTransport | EndInterrupted | EndControlTooLarge | EndFailure (status : Status).

Definition failure_control (status : Status) : Wire.InteractionStreamControl :=
  Wire.mkInteractionStreamControl (Some status) 0 0 false false.

Definition failure_sendable (status : Status) (limits : Limits) : bool :=
  negb (set (ValidateInteractionStreamControl (Some (failure_control status))))
  && negb (set (fits Size (Wire.MStreamInteractionsResponse (control_frame (Some (failure_control status)))) limits)).

(** [sendInteractionFailure]: [sends] is whether the transport takes the frame. *)
Definition sendInteractionFailure (status : Status) (limits : Limits) (sends : bool) : stream_end :=
  let send s := if sends then EndFailure s else EndTransport in
  if failure_sendable status limits then send status
  else if failure_sendable internalLifecycleStatus limits then send internalLifecycleStatus
  else EndControlTooLarge.

(** [sendInteractionFrame]: the stream's context ended, the observation was
    fenced, the transport failed, or the frame was sent. *)
Inductive send_answer := SentStreamDone | SentFenced | SentFails | SentOk.

(** [interactionObservationEnded]: whether the stream's context ended, whether
    the observation was fenced, and the status of [Wait]'s error. *)
Record observation_end := mkObservationEnd { oe_streamDone : bool; oe_fenced : bool; oe_failure : option Status }.
Definition interactionObservationEnded (answer : observation_end) (limits : Limits) (sends : bool) : stream_end :=
  if oe_streamDone answer then EndTransport
  else if oe_fenced answer then EndQuiet
  else match oe_failure answer with
  | None => EndQuiet
  | Some status => sendInteractionFailure status limits sends
  end.

(** What the loop of [tailInteractionObservation] receives. *)
Inductive tail_event :=
| TailStreamDone
| TailEnded (answer : observation_end) (sends : bool)
| TailDelta (delta : Delta) (answer : send_answer) (ended : observation_end) (sends : bool).

(** The frames sent and how the stream ended; [None] while it is still open. *)
Fixpoint tailInteractionObservation (validator : InteractionTailValidator) (limits : Limits) (events : list tail_event)
  : list Wire.StreamInteractionsResponse * option stream_end :=
  match events with
  | [] => ([], None)
  | TailStreamDone :: _ => ([], Some EndTransport)
  | TailEnded answer sends :: _ => ([], Some (interactionObservationEnded answer limits sends))
  | TailDelta delta answer ended sends :: rest =>
      match interactionDeltaToWire delta with
      | Err _ => ([], Some (sendInteractionFailure (internalLifecycleFailure "interaction delta is invalid") limits sends))
      | Ok wire =>
          let frame := delta_frame (Some wire) in
          match Accept Size validator (Some frame) with
          | Err _ =>
              ([], Some (sendInteractionFailure (internalLifecycleFailure "interaction delta violates the stream contract") limits sends))
          | Ok validator =>
              match answer with
              | SentOk =>
                  let '(frames, e) := tailInteractionObservation validator limits rest in (frame :: frames, e)
              | SentFenced => ([], Some (interactionObservationEnded ended limits sends))
              | SentStreamDone | SentFails => ([], Some EndTransport)
              end
          end
      end
  end.

Definition page_control (snapshot : Wire.InteractionSnapshot) (tail : bool) : Wire.InteractionStreamControl :=
  Wire.mkInteractionStreamControl (Some OKStatus) (Wire.is_revision snapshot) (Wire.is_revision snapshot) false tail.

(** [serveInteractionObservation] for an observation of the expected kind:
    [first] and [second] answer the two initial sends. *)
Definition serveInteractionObservation (snapshot : PendingSnapshot) (expectedTail : bool) (limits : Limits)
  (first second : send_answer) (ended : observation_end) (sends : bool) (events : list tail_event)
  : list Wire.StreamInteractionsResponse * option stream_end :=
  let refuse text := ([], Some (sendInteractionFailure (internalLifecycleFailure text) limits sends)) in
  match interactionSnapshotToWire snapshot (Some limits) with
  | Err _ => refuse "interaction snapshot is invalid"%string
  | Ok wire =>
      let control := page_control wire expectedTail in
      let initial := [snapshot_frame (Some wire); control_frame (Some control)] in
      if set (ValidateInteractionStreamPage Size (map Some initial) expectedTail (Some limits)) then
        refuse "interaction stream initial page is invalid"%string
      else
        let validator := if expectedTail then NewInteractionTailValidator Size (Some wire) (Some control) (Some limits)
                         else Ok (mkTailValidator 0 limits ∅) in
        match validator with
        | Err _ => refuse "interaction stream validator is unavailable"%string
        | Ok validator =>
            match first with
            | SentStreamDone | SentFails => ([], Some EndTransport)
            | SentFenced => ([], Some (interactionObservationEnded ended limits sends))
            | SentOk =>
                match second with
                | SentStreamDone | SentFails => ([snapshot_frame (Some wire)], Some EndTransport)
                | SentFenced => ([snapshot_frame (Some wire)], Some (if oe_streamDone ended then EndTransport else EndInterrupted))
                | SentOk =>
                    if expectedTail then
                      let '(frames, e) := tailInteractionObservation validator limits events in (initial ++ frames, e)
                    else (initial, Some EndQuiet)
                end
            end
        end
  end.
End Server.

(** ** Sizes on the wire *)

Definition pending_size (p : option Wire.PendingInteraction) : Z :=
  match p with
  | Some p => bytes_field (Wire.pi_runID p) + bytes_field (Wire.pi_interactionID p) + bytes_field (Wire.pi_kind p)
              + bytes_field (Wire.pi_prompt p) + bytes_field (Wire.pi_schemaJSON p)
  | None => 0
  end.
Definition snapshot_size (s : Wire.InteractionSnapshot) : Z :=
  uint_field (Wire.is_revision s) + sumZ (fun p => message_field (pending_size p)) (Wire.is_pending s).
Definition delta_size (d : Wire.InteractionDelta) : Z :=
  uint_field (Wire.id_revision d) + uint_field (Wire.id_kind d)
  + match Wire.id_interaction d with Some p => message_field (pending_size (Some p)) | None => 0 end.
Definition control_size (c : Wire.InteractionStreamControl) : Z :=
  match Wire.ic_status c with Some s => message_field (plain_status_size s) | None => 0 end
  + uint_field (Wire.ic_latestRevision c) + uint_field (Wire.ic_pageLastRevision c)
  + bool_field (Wire.ic_hasMore c) + bool_field (Wire.ic_tailing c).

(** What is used of [proto.Size]: it is the length of the encoding. *)
Record wire_format (Size : Wire.ProtoMessage -> Z) : Prop := {
  wf_snapshot s : Size (Wire.MInteractionSnapshot s) = snapshot_size s;
  wf_snapshot_frame s : Size (Wire.MStreamInteractionsResponse (snapshot_frame (Some s))) = message_field (snapshot_size s);
  wf_delta_frame d : Size (Wire.MStreamInteractionsResponse (delta_frame (Some d))) = message_field (delta_size d);
  wf_control_frame c : (forall s, Wire.ic_status c = Some s -> st_detail s = None) ->
    Size (Wire.MStreamInteractionsResponse (control_frame (Some c))) = message_field (control_size c)
}.

(** ** Interactions on the wire *)

Definition wire_of (v : Pending) : Wire.PendingInteraction :=
  Wire.mkPendingInteraction (is_runID (pe_scope v)) (ir_id (pe_request v)) (ir_kind (pe_request v)) (ir_prompt (pe_request v))
    (ir_schema (pe_request v)).
Definition wire_key (v : Pending) : string := interactionKey (Some (wire_of v)).

(** The names of an interaction are tokens of the protocol. *)
Definition wire_tokens (v : Pending) : Prop :=
  token_ok 128 (is_runID (pe_scope v)) /\ token_ok 128 (ir_id (pe_request v)) /\ token_ok 128 (ir_kind (pe_request v)).

Lemma valid_request r : InteractionRequest_Validate r = None ->
  trimmed_nonempty (ir_prompt r) = true /\ slen (ir_prompt r) <= MaximumInteractionPayloadBytes
  /\ slen (ir_schema r) <> 0 /\ json_valid (ir_schema r) = true /\ slen (ir_schema r) <= MaximumInteractionPayloadBytes.
Proof.
  unfold InteractionRequest_Validate, NewInteractionRequest, validateInteractionJSON. intros H.
  destruct (Interaction.token "interaction ID" _); [done|]. destruct (Interaction.token "interaction kind" _); [done|].
  destruct (trimmed_nonempty _); [|done]. cbn [negb] in H. destruct (Z.gtb_spec (slen (ir_prompt r)) MaximumInteractionPayloadBytes); [done|].
  destruct (Z.eqb_spec (slen (ir_schema r)) 0); [done|]. destruct (json_valid _); [|done]. cbn [negb orb] in H.
  destruct (Z.gtb_spec (slen (ir_schema r)) MaximumInteractionPayloadBytes); [done|]. done.
Qed.

Lemma wire_valid v : valid_pending v -> wire_tokens v <-> ValidatePendingInteraction (Some (wire_of v)) = None.
Proof.
  intros [_ Hq]. apply valid_request in Hq as (Hp & Hpl & Hs & Hj & Hsl). unfold ValidatePendingInteraction, validateBoundedJSON, wire_tokens.
  rewrite !seq_None, tokens_None, !when_None, !Forall_cons. cbn [wire_of Wire.pi_prompt Wire.pi_schemaJSON Wire.pi_runID Wire.pi_interactionID Wire.pi_kind snd].
  rewrite Hp, Hj. change maximumInteractionBytes with MaximumInteractionPayloadBytes. rewrite !orb_false_iff, !Z.gtb_ltb, !Z.ltb_ge, String.eqb_neq.
  split; [intros (? & ? & ?)|intros ((? & ? & ? & _) & _); done]. split; [split; [done|split; [done|split; [done|constructor]]]|].
  split; [done|]. split; [|done]. split; [|done].
  intros He. by rewrite He in Hs.
Qed.

Lemma toWire_Ok v : valid_pending v -> wire_tokens v -> pendingInteractionToWire v = Ok (wire_of v).
Proof.
  intros Hv Ht. unfold pendingInteractionToWire. rewrite (proj1 Hv), (proj2 Hv). fold (wire_of v).
  by rewrite (proj1 (wire_valid v Hv) Ht).
Qed.

Lemma toWire_refused v : valid_pending v -> ~ wire_tokens v -> exists e, pendingInteractionToWire v = Err (WireContract e).
Proof.
  intros Hv Ht. unfold pendingInteractionToWire. rewrite (proj1 Hv), (proj2 Hv). fold (wire_of v).
  destruct (ValidatePendingInteraction (Some (wire_of v))) as [e|] eqn:E; [by exists e|]. destruct Ht. by apply wire_valid.
Qed.

Lemma pending_size_le v : valid_pending v -> wire_tokens v ->
  0 <= pending_size (Some (wire_of v)) <= pendingValueBytes v + 17
  /\ message_field (pending_size (Some (wire_of v))) <= pendingValueBytes v + 21 /\ pendingValueBytes v + 17 <= 2 ^ 20 + 401.
Proof.
  intros [_ Hq] (Hr & Hi & Hk). apply valid_request in Hq as (_ & Hpl & _ & _ & Hsl).
  assert (forall s, token_ok 128 s -> slen s <= 128) as Hlen by (intros s (_ & _ & _ & ?); done). apply Hlen in Hr, Hi, Hk.
  unfold MaximumInteractionPayloadBytes in *. change (Z.shiftl 512 10) with 524288 in *. unfold pending_size, pendingValueBytes.
  cbn [wire_of Wire.pi_prompt Wire.pi_schemaJSON Wire.pi_runID Wire.pi_interactionID Wire.pi_kind].
  pose proof (bytes_field_le (is_runID (pe_scope v)) 2). pose proof (bytes_field_le (ir_id (pe_request v)) 2).
  pose proof (bytes_field_le (ir_kind (pe_request v)) 2). pose proof (bytes_field_le (ir_prompt (pe_request v)) 3).
  pose proof (bytes_field_le (ir_schema (pe_request v)) 3). change (2 ^ (7 * 2)) with 16384 in *. change (2 ^ (7 * 3)) with 2097152 in *.
  match goal with |- context [message_field ?n] => pose proof (message_field_le n 3) end.
  change (2 ^ (7 * 3)) with 2097152 in *. change (2 ^ 20) with 1048576. split; [lia|]. split; lia.
Qed.

(** *** Sets of interactions *)

Definition shown (v : Pending) : Prop := valid_pending v /\ wire_tokens v.
Definition shown_set (m : gmap pendingKey Pending) : Prop := forall key v, m !! key = Some v -> key_of v = key /\ shown v.

Definition wire_entry (v : Pending) : string * option Wire.PendingInteraction := (wire_key v, Some (wire_of v)).
(** The validator's map for a pending set. *)
Definition wire_set (m : gmap pendingKey Pending) : gmap string (option Wire.PendingInteraction) :=
  list_to_map ((fun kv => wire_entry kv.2) <$> map_to_list m).

Lemma wire_key_inj v v' : wire_tokens v -> wire_tokens v' -> wire_key v = wire_key v' -> key_of v = key_of v'.
Proof.
  intros (Hv & _) (Hv' & _) H. apply token_nul_free in Hv, Hv'. unfold wire_key, interactionKey in H.
  apply joined_inj in H as [H1 H2]; [|done..]. cbn in H1, H2. unfold key_of. by rewrite H1, H2.
Qed.

Lemma wire_key_lt v v' : wire_tokens v -> wire_tokens v' -> pending_lt v v' -> String.ltb (wire_key v) (wire_key v') = true.
Proof. intros (Hv & _) (Hv' & _) H. apply token_nul_free in Hv, Hv'. by apply joined_order. Qed.

Lemma wire_entries_nodup m : shown_set m -> NoDup ((fun kv => wire_entry kv.2) <$> map_to_list m).*1.
Proof.
  intros Hm. rewrite <- list_fmap_compose. apply NoDup_fmap_2_strong; [|apply NoDup_map_to_list].
  intros [k v] [k' v'] Hk Hk' E. apply elem_of_map_to_list in Hk, Hk'. destruct (Hm _ _ Hk) as [<- [_ Hv]]. destruct (Hm _ _ Hk') as [<- [_ Hv']].
  cbn in E. pose proof (wire_key_inj _ _ Hv Hv' E) as E'. rewrite E' in *. congruence.
Qed.

Lemma wire_set_list m : shown_set m -> map_to_list (wire_set m) ≡ₚ (fun kv => wire_entry kv.2) <$> map_to_list m.
Proof. intros Hm. apply map_to_list_to_map. by apply wire_entries_nodup. Qed.

Lemma wire_set_insert m v : shown_set m -> shown v -> m !! key_of v = None ->
  wire_set (<[key_of v := v]> m) = <[wire_key v := Some (wire_of v)]> (wire_set m) /\ wire_set m !! wire_key v = None.
Proof.
  intros Hm Hv Hn. assert (shown_set (<[key_of v := v]> m)) as Hm'.
  { intros key x. rewrite lookup_insert_Some. intros [[<- <-]|[_ Hx]]; [done|by apply Hm]. }
  pose proof (wire_entries_nodup _ Hm') as Hnd.
  assert ((fun kv => wire_entry kv.2) <$> map_to_list (<[key_of v := v]> m) ≡ₚ wire_entry v :: ((fun kv => wire_entry kv.2) <$> map_to_list m)) as Hp.
  { rewrite (map_to_list_insert m _ _ Hn). done. }
  split; [unfold wire_set; by rewrite (list_to_map_proper _ _ Hnd Hp)|].
  apply not_elem_of_list_to_map_1. rewrite Hp in Hnd. by apply NoDup_cons in Hnd as [? _].
Qed.

Lemma wire_set_delete m v : shown_set m -> m !! key_of v = Some v ->
  wire_set m !! wire_key v = Some (Some (wire_of v)) /\ wire_set (delete (key_of v) m) = delete (wire_key v) (wire_set m).
Proof.
  intros Hm Hv. assert (shown_set (delete (key_of v) m)) as Hm'.
  { intros key x. rewrite lookup_delete_Some. intros [_ Hx]. by apply Hm. }
  destruct (wire_set_insert _ v Hm' (proj2 (Hm _ _ Hv)) (lookup_delete_eq _ _)) as [E Hn].
  rewrite insert_delete_id in E by done. rewrite E. split; [by rewrite lookup_insert_eq|]. by rewrite delete_insert_id.
Qed.

(** ** What fits the protocol limits *)

(** The condition of [validateRunHostLimits], on the limits of a session. *)
Definition capacity_fits (h : PendingHub) (l : Limits) : Prop :=
  (snapshotCapacityUpperBound h).1 <= wl_maxCollectionItems l /\ (snapshotCapacityUpperBound h).2 <= wl_maxMessageBytes l.

Section Fits.
Context (Size : Wire.ProtoMessage -> Z) (format : wire_format Size).
Context (limits : PendingLimits) (l : Limits) (limits_positive : 1 <= pl_PendingPerClient limits)
  (valid : ValidateLimits (Some l) = None)
  (items_fit : pl_PendingPerClient limits <= wl_maxCollectionItems l)
  (bytes_fit : pl_PendingBytesPerClient limits + pl_PendingPerClient limits * pendingSnapshotItemOverhead + pendingSnapshotFrameOverhead
               <= wl_maxMessageBytes l).

Definition wire_items (vs : list Pending) : list (option Wire.PendingInteraction) := (fun v => Some (wire_of v)) <$> vs.

Lemma items_size vs : Forall shown vs ->
  0 <= sumZ (fun p => message_field (pending_size p)) (wire_items vs) <= sumZ pendingValueBytes vs + 21 * lenZ vs.
Proof.
  induction 1 as [|v vs [Hv Ht] _ IH]; [done|]. change (wire_items (v :: vs)) with (Some (wire_of v) :: wire_items vs).
  rewrite !sumZ_cons, lenZ_cons. destruct (pending_size_le v Hv Ht) as (? & ? & _). pose proof (message_field_ge (pending_size (Some (wire_of v)))). lia.
Qed.

Lemma sorted_fmap {A B : Type} (key : A -> string) (f : A -> B) (key' : B -> string) xs :
  (forall x, key' (f x) = key x) -> StronglySorted (key_lt key) xs -> StronglySorted (key_lt key') (f <$> xs).
Proof.
  intros Hk. induction 1 as [|x xs _ IH Hx]; cbn; constructor; [done|]. apply Forall_fmap. eapply Forall_impl; [exact Hx|].
  intros y. unfold key_lt. cbn. by rewrite !Hk.
Qed.

Lemma sumZ_values {K A : Type} (f : A -> Z) (xs : list (K * A)) : sumZ f xs.*2 = sumZ (fun kv => f kv.2) xs.
Proof. induction xs as [|x xs IH]; [done|]. by rewrite fmap_cons, !sumZ_cons, IH. Qed.

Lemma pow_70 : 2 ^ (7 * 10) = 1180591620717411303424.
Proof. reflexivity. Qed.

(** A sorted snapshot within the hub's limits is within the protocol's. *)
Lemma snapshot_fits revision vs : 0 <= revision <= maxUint64 -> Forall shown vs -> StronglySorted (key_lt wire_key) vs ->
  lenZ vs <= pl_PendingPerClient limits -> sumZ pendingValueBytes vs <= pl_PendingBytesPerClient limits ->
  wl_maxMessageBytes l <= maxUint64 ->
  ValidateInteractionSnapshot Size (Some (Wire.mkInteractionSnapshot revision (wire_items vs))) (Some l) = None
  /\ fits Size (Wire.MStreamInteractionsResponse (snapshot_frame (Some (Wire.mkInteractionSnapshot revision (wire_items vs))))) l = None.
Proof using format limits_positive valid items_fit bytes_fit.
  intros Hr Hv Hs Hn Hb Hmax. set (s := Wire.mkInteractionSnapshot revision (wire_items vs)).
  assert (0 <= snapshot_size s <= sumZ pendingValueBytes vs + 21 * lenZ vs + 11) as Hsize.
  { unfold snapshot_size. cbn [s Wire.is_revision Wire.is_pending]. pose proof (items_size vs Hv). pose proof (uint_field_le revision). lia. }
  unfold pendingSnapshotItemOverhead, pendingSnapshotFrameOverhead in *.
  assert (message_field (snapshot_size s) <= wl_maxMessageBytes l) as Hframe.
  { pose proof (message_field_le (snapshot_size s) 10) as Hm. unfold maxUint64 in *. rewrite pow_70 in Hm. lia. }
  pose proof (message_field_ge (snapshot_size s)). unfold ValidateInteractionSnapshot, fits. rewrite valid.
  split; [|rewrite (wf_snapshot_frame _ format); apply ValidateEncodedSize_None; lia].
  rewrite !seq_None, when_None, ValidateEncodedSize_None, (wf_snapshot _ format). split.
  { rewrite Z.gtb_ltb. apply Z.ltb_ge. cbn [s Wire.is_pending]. unfold wire_items, lenZ in *. rewrite length_fmap. lia. }
  split; [|lia]. apply pending_loop_None. cbn [s Wire.is_pending]. split.
  - unfold wire_items. apply Forall_fmap. eapply Forall_impl; [exact Hv|]. intros v [Hv1 Hv2]. cbn. by apply wire_valid.
  - apply ascending_empty.
    { intros x (v & -> & _)%list_elem_of_fmap. apply joined_nonempty. }
    by apply (sorted_fmap wire_key (fun v => Some (wire_of v))).
Qed.

Lemma sorted_strictly {A : Type} (key : A -> string) xs : StronglySorted string_le (map key xs) -> NoDup (map key xs) -> StronglySorted (key_lt key) xs.
Proof.
  induction xs as [|x xs IH]; [constructor|]. rewrite map_cons. intros [Hs Hx]%StronglySorted_inv [Hni Hnd]%NoDup_cons.
  constructor; [by apply IH|]. apply Forall_forall. intros y Hy. unfold key_lt. apply ltb_spec.
  assert (key y ∈ map key xs) as Hin by (by apply list_elem_of_fmap_2). split; [by apply (proj1 (Forall_forall _ _) Hx)|].
  intros E. apply Hni. by rewrite E.
Qed.

(** The items of the validator's map, in the order of their keys. *)
Lemma sorted_items m : shown_set m ->
  exists vs, map (fun key => match wire_set m !! key with Some item => item | None => None end)
               (sort_strings (map fst (map_to_list (wire_set m)))) = wire_items vs
    /\ vs ≡ₚ (map_to_list m).*2 /\ StronglySorted (key_lt wire_key) vs.
Proof.
  intros Hm. set (W := wire_set m). set (get := fun key => match W !! key with Some item => item | None => None end).
  pose proof (wire_set_list m Hm) as HW. fold W in HW.
  assert (get <$> (map_to_list W).*1 = (map_to_list W).*2) as Hget.
  { rewrite <- list_fmap_compose. apply list_fmap_ext. intros i [k x] Hx. apply list_elem_of_lookup_2, elem_of_map_to_list in Hx.
    cbn. unfold get. by rewrite Hx. }
  assert (map get (sort_strings (map fst (map_to_list W))) ≡ₚ wire_items (map_to_list m).*2) as Hp.
  { rewrite (sort_strings_perm (map fst (map_to_list W))). change (map get (map fst (map_to_list W))) with (get <$> (map_to_list W).*1).
    rewrite Hget, HW. unfold wire_items. rewrite <- !list_fmap_compose. done. }
  apply Permutation_map_inv in Hp as (vs & Hitems & Hvs). exists vs. split; [exact Hitems|]. split; [by symmetry|].
  assert (map wire_key vs = sort_strings (map fst (map_to_list W))) as Hkeys.
  { transitivity (map interactionKey (wire_items vs)); [unfold wire_items; by rewrite map_map|]. unfold wire_items. change (@fmap list _) with map.
    rewrite <- Hitems, map_map. rewrite <- (map_id (sort_strings _)) at 2. apply map_ext_in. intros k Hk.
    apply list_elem_of_In in Hk. rewrite sort_strings_perm in Hk. apply list_elem_of_fmap in Hk as ([k' x] & -> & Hx).
    pose proof Hx as Hx'. rewrite HW in Hx'. apply list_elem_of_fmap in Hx' as ([k2 v] & [= -> ->] & Hv).
    apply elem_of_map_to_list in Hx. unfold get. cbn [fst]. by rewrite Hx. }
  assert (NoDup (map wire_key vs)) as Hnd by (rewrite Hkeys, sort_strings_perm; apply (NoDup_fst_map_to_list W)).
  pose proof (sort_strings_sorted (map fst (map_to_list W))) as Hs. rewrite <- Hkeys in Hs. by apply sorted_strictly.
Qed.

Lemma representable m revision : shown_set m -> within_limits limits m -> 0 <= revision <= maxUint64 -> wl_maxMessageBytes l <= maxUint64 ->
  validateRepresentableInteractionState Size revision (wire_set m) l = None.
Proof using format limits_positive valid items_fit bytes_fit.
  intros Hm (Hsz & Hb & _) Hr Hmax. unfold validateRepresentableInteractionState. destruct (sorted_items m Hm) as (vs & -> & Hvs & Hs).
  destruct (snapshot_fits revision vs) as [H1 H2]; [done| |done| | |done|by rewrite H1, H2].
  - rewrite Hvs. apply Forall_forall. intros v ([k v'] & -> & Hk)%list_elem_of_fmap. apply elem_of_map_to_list in Hk. by apply Hm in Hk as [_ ?].
  - unfold lenZ. rewrite Hvs, length_fmap. rewrite length_map_to_list. done.
  - rewrite (sumZ_perm _ _ _ Hvs). unfold msum in Hb. by rewrite sumZ_values.
Qed.

Definition delta_wire (delta : Delta) : Wire.InteractionDelta :=
  Wire.mkInteractionDelta (dl_revision delta)
    (match dl_kind delta with DeltaOpened => Wire.INTERACTION_DELTA_KIND_OPENED | DeltaClosed => Wire.INTERACTION_DELTA_KIND_CLOSED end)
    (Some (wire_of (dl_pending delta))).

Lemma delta_wire_valid delta : shown (dl_pending delta) -> dl_revision delta <> 0 -> ValidateInteractionDelta (Some (delta_wire delta)) = None.
Proof.
  intros [Hv Ht] Hr. unfold ValidateInteractionDelta. rewrite !seq_None, !when_None. cbn [delta_wire Wire.id_revision Wire.id_kind Wire.id_interaction].
  split; [by apply Z.eqb_neq|]. split; [by destruct (dl_kind delta)|]. by apply wire_valid.
Qed.

Lemma deltaToWire_Ok delta : shown (dl_pending delta) -> dl_revision delta <> 0 -> interactionDeltaToWire delta = Ok (delta_wire delta).
Proof.
  intros Hs Hr. unfold interactionDeltaToWire. rewrite toWire_Ok by apply Hs. fold (delta_wire delta). by rewrite delta_wire_valid.
Qed.

Lemma delta_fits delta : shown (dl_pending delta) -> 0 <= dl_revision delta <= maxUint64 ->
  pendingValueBytes (dl_pending delta) <= pl_PendingBytesPerClient limits -> wl_maxMessageBytes l <= maxUint64 ->
  ValidateEncodedSize (Size (Wire.MStreamInteractionsResponse (delta_frame (Some (delta_wire delta))))) (wl_maxMessageBytes l) = None.
Proof using format limits_positive bytes_fit.
  intros [Hv Ht] Hr Hb Hmax. rewrite (wf_delta_frame _ format). apply ValidateEncodedSize_None.
  unfold pendingSnapshotItemOverhead, pendingSnapshotFrameOverhead in *.
  destruct (pending_size_le _ Hv Ht) as (Hp & Hf & Hs). set (d := delta_wire delta).
  assert (0 <= delta_size d <= pendingValueBytes (dl_pending delta) + 34) as Hd.
  { unfold delta_size. cbn [d delta_wire Wire.id_revision Wire.id_kind Wire.id_interaction]. pose proof (uint_field_le (dl_revision delta)).
    pose proof (message_field_ge (pending_size (Some (wire_of (dl_pending delta))))).
    assert (uint_field (match dl_kind delta with DeltaOpened => Wire.INTERACTION_DELTA_KIND_OPENED | DeltaClosed => Wire.INTERACTION_DELTA_KIND_CLOSED end) = 2)
      as -> by (by destruct (dl_kind delta)). lia. }
  pose proof (message_field_le (delta_size d) 3) as Hm. pose proof (message_field_ge (delta_size d)). change (2 ^ 20) with 1048576 in *.
  change (2 ^ (7 * 3)) with 2097152 in *. lia.
Qed.

Lemma value_bytes_nonneg v : 0 <= pendingValueBytes v.
Proof. unfold pendingValueBytes. pose proof slen_nonneg as H. pose proof (H (is_runID (pe_scope v))). pose proof (H (ir_id (pe_request v))).
  pose proof (H (ir_kind (pe_request v))). pose proof (H (ir_prompt (pe_request v))). pose proof (H (ir_schema (pe_request v))). lia. Qed.

Lemma pending_within m key v : within_limits limits m -> m !! key = Some v -> pendingValueBytes v <= pl_PendingBytesPerClient limits.
Proof.
  intros (_ & Hb & _) Hv. pose proof (msum_delete pendingValueBytes m key v Hv) as Hd.
  pose proof (msum_nonneg pendingValueBytes (delete key m) (fun _ x _ => value_bytes_nonneg x)). lia.
Qed.

Lemma shown_step m delta : shown_set m -> shown (dl_pending delta) -> shown_set (apply_delta m delta).
Proof.
  intros Hm Hd key v. unfold apply_delta. destruct (dl_kind delta).
  - rewrite lookup_insert_Some. intros [[<- <-]|[_ Hx]]; [done|by apply Hm].
  - rewrite lookup_delete_Some. intros [_ Hx]. by apply Hm.
Qed.

Lemma delta_bytes m delta : within_limits limits m -> within_limits limits (apply_delta m delta) -> delta_steps m delta ->
  pendingValueBytes (dl_pending delta) <= pl_PendingBytesPerClient limits.
Proof.
  intros Hm Hm' [_ Hd]. unfold apply_delta in Hm'. destruct (dl_kind delta).
  - eapply pending_within; [exact Hm'|apply lookup_insert_eq].
  - exact (pending_within m _ _ Hm Hd).
Qed.

(** A delta of the hub is accepted, and the validator follows the hub. *)
Lemma accept_step m revision delta : shown_set m -> within_limits limits m -> delta_steps m delta -> shown (dl_pending delta) ->
  within_limits limits (apply_delta m delta) -> 0 <= revision < maxUint64 -> dl_revision delta = revision + 1 -> wl_maxMessageBytes l <= maxUint64 ->
  Accept Size (mkTailValidator revision l (wire_set m)) (Some (delta_frame (Some (delta_wire delta))))
  = Ok (mkTailValidator (revision + 1) l (wire_set (apply_delta m delta))).
Proof using format limits_positive valid items_fit bytes_fit.
  intros Hm Hw Hd Hs Hw' Hr Hrev Hmax. pose proof (delta_bytes m delta Hw Hw' Hd) as Hb. pose proof (shown_step m delta Hm Hs) as Hm'.
  unfold Accept. cbn [tv_limits tv_revision tv_pending frame_delta delta_frame Wire.size_of]. fold (delta_frame (Some (delta_wire delta))).
  rewrite delta_fits, delta_wire_valid by (done || lia). cbn [delta_wire Wire.id_revision Wire.id_kind Wire.id_interaction].
  rewrite Hrev. rewrite (proj2 (Z.eqb_neq revision maxUint64)) by lia. rewrite u64_id by (unfold uint64_ok; lia). rewrite Z.eqb_refl. cbn [negb orb].
  fold (wire_key (dl_pending delta)). pose proof (representable (apply_delta m delta) (revision + 1) Hm' Hw' ltac:(lia) Hmax) as Hrep.
  destruct Hd as [_ Hd]. unfold apply_delta in *. destruct (dl_kind delta).
  - destruct (wire_set_insert m _ Hm Hs Hd) as [E Hn]. change (Wire.INTERACTION_DELTA_KIND_OPENED =? Wire.INTERACTION_DELTA_KIND_OPENED) with true. cbv iota.
    rewrite Hn. assert (size (wire_set m) = size m) as ->.
    { rewrite <- !length_map_to_list, (wire_set_list m Hm), length_fmap. done. }
    destruct Hw' as (Hsz & _). rewrite map_size_insert_None in Hsz by done.
    rewrite Z.geb_leb, (proj2 (Z.leb_gt _ _)) by lia. cbv iota. rewrite <- E. by rewrite Hrep.
  - destruct (wire_set_delete m _ Hm Hd) as [Hn E]. change (Wire.INTERACTION_DELTA_KIND_CLOSED =? Wire.INTERACTION_DELTA_KIND_OPENED) with false.
    change (Wire.INTERACTION_DELTA_KIND_CLOSED =? Wire.INTERACTION_DELTA_KIND_CLOSED) with true. cbv iota. rewrite Hn.
    rewrite bool_decide_eq_true_2 by done. cbn [negb]. rewrite <- E. by rewrite Hrep.
Qed.

(** A run of deltas that the hub published from a pending set. *)
Fixpoint published (m : gmap pendingKey Pending) (revision : Z) (deltas : list Delta) : Prop :=
  match deltas with
  | [] => True
  | delta :: rest =>
      delta_steps m delta /\ shown (dl_pending delta) /\ within_limits limits (apply_delta m delta) /\ revision < maxUint64
      /\ dl_revision delta = revision + 1 /\ published (apply_delta m delta) (revision + 1) rest
  end.

Definition delta_frames (deltas : list Delta) : list Wire.StreamInteractionsResponse := map (fun d => delta_frame (Some (delta_wire d))) deltas.

Lemma accept_published deltas : forall m revision, shown_set m -> within_limits limits m -> 0 <= revision -> wl_maxMessageBytes l <= maxUint64 ->
  published m revision deltas ->
  accept_all Size (mkTailValidator revision l (wire_set m)) (delta_frames deltas)
  = Ok (mkTailValidator (revision + lenZ deltas) l (wire_set (foldl apply_delta m deltas))).
Proof using format limits_positive valid items_fit bytes_fit.
  induction deltas as [|delta deltas IH]; intros m revision Hm Hw Hr Hmax Hp; cbn [delta_frames map accept_all foldl].
  - by rewrite lenZ_nil, Z.add_0_r.
  - destruct Hp as (Hd & Hs & Hw' & Hlt & Hrev & Hp). rewrite (accept_step m revision delta) by (done || lia). fold (delta_frames deltas).
    rewrite IH; [|by apply shown_step|done|lia|done|done]. rewrite lenZ_cons. do 2 f_equal. lia.
Qed.
End Fits.

(** ** What the server sends *)

(** The stream without any contract check: every frame the observation yields,
    in order, until the stream ends. *)
Section Relay.
Context (Size : Wire.ProtoMessage -> Z) (l : Limits).

Fixpoint relay (events : list tail_event) : list Wire.StreamInteractionsResponse * option stream_end :=
  match events with
  | [] => ([], None)
  | TailStreamDone :: _ => ([], Some EndTransport)
  | TailEnded answer sends :: _ => ([], Some (interactionObservationEnded Size answer l sends))
  | TailDelta delta answer ended sends :: rest =>
      match answer with
      | SentOk => let '(frames, e) := relay rest in (delta_frame (Some (delta_wire delta)) :: frames, e)
      | SentFenced => ([], Some (interactionObservationEnded Size ended l sends))
      | SentStreamDone | SentFails => ([], Some EndTransport)
      end
  end.

Definition relay_page (s : Wire.InteractionSnapshot) (first second : send_answer) (ended : observation_end) (sends : bool)
  (events : list tail_event) : list Wire.StreamInteractionsResponse * option stream_end :=
  match first, second with
  | SentStreamDone, _ | SentFails, _ => ([], Some EndTransport)
  | SentFenced, _ => ([], Some (interactionObservationEnded Size ended l sends))
  | SentOk, SentStreamDone | SentOk, SentFails => ([snapshot_frame (Some s)], Some EndTransport)
  | SentOk, SentFenced => ([snapshot_frame (Some s)], Some (if oe_streamDone ended then EndTransport else EndInterrupted))
  | SentOk, SentOk =>
      let '(frames, e) := relay events in
      (snapshot_frame (Some s) :: control_frame (Some (page_control s true)) :: frames, e)
  end.

Definition event_deltas (events : list tail_event) : list Delta :=
  omap (fun e => match e with TailDelta delta _ _ _ => Some delta | _ => None end) events.
End Relay.

Definition snapshot_wire (s : PendingSnapshot) : Wire.InteractionSnapshot :=
  Wire.mkInteractionSnapshot (ps_revision s) (wire_items (ps_pending s)).

Lemma pending_to_wire_Ok vs : Forall shown vs -> pending_to_wire vs = Ok (wire_items vs).
Proof. induction 1 as [|v vs [Hv Ht] _ IH]; [done|]. cbn [pending_to_wire]. by rewrite toWire_Ok, IH. Qed.

Lemma foldl_as_map vs : forall m, NoDup (key_of <$> vs) -> foldl (fun m v => <[key_of v := v]> m) m vs = as_map vs ∪ m.
Proof.
  unfold as_map. induction vs as [|v vs IH]; intros m Hnd; cbn [foldl]; [cbn; by rewrite (left_id_L ∅ (∪))|].
  rewrite fmap_cons in *. apply NoDup_cons in Hnd as [Hni Hnd]. rewrite IH by done.
  rewrite list_to_map_cons, <- insert_union_l. symmetry. apply insert_union_r. apply not_elem_of_list_to_map_1. by rewrite <- list_fmap_compose.
Qed.

Lemma foldl_wire_set vs : forall m, shown_set m -> Forall shown vs -> NoDup (key_of <$> vs) -> Forall (fun v => m !! key_of v = None) vs ->
  foldl (fun pending item => <[interactionKey item := item]> pending) (wire_set m) (wire_items vs)
  = wire_set (foldl (fun m v => <[key_of v := v]> m) m vs).
Proof.
  induction vs as [|v vs IH]; intros m Hm Hs Hnd Hf; [done|]. change (wire_items (v :: vs)) with (Some (wire_of v) :: wire_items vs). cbn [foldl].
  fold (wire_key v). apply Forall_cons in Hs as [Hv Hs]. apply Forall_cons in Hf as [Hn Hf]. rewrite fmap_cons in Hnd. apply NoDup_cons in Hnd as [Hni Hnd].
  rewrite <- (proj1 (wire_set_insert m v Hm Hv Hn)). apply IH; [|done|done|].
  - intros key x. rewrite lookup_insert_Some. intros [[<- <-]|[_ Hx]]; [done|by apply Hm].
  - rewrite Forall_forall in Hf |- *. intros x Hx. rewrite lookup_insert_ne; [by apply Hf|]. intros E. apply Hni. rewrite E. by apply list_elem_of_fmap_2.
Qed.

Lemma as_map_shown vs : NoDup (key_of <$> vs) -> Forall shown vs -> shown_set (as_map vs).
Proof.
  intros Hnd Hs key v Hv. apply elem_of_list_to_map_2 in Hv. apply list_elem_of_fmap in Hv as (x & [= -> ->] & Hx).
  split; [done|]. by apply (proj1 (Forall_forall _ _) Hs).
Qed.

Lemma as_map_values vs : NoDup (key_of <$> vs) -> (map_to_list (as_map vs)).*2 ≡ₚ vs.
Proof.
  intros Hnd. unfold as_map. rewrite map_to_list_to_map by (by rewrite <- list_fmap_compose). rewrite <- list_fmap_compose.
  rewrite list_fmap_id. done.
Qed.

Section Stream.
Context (Size : Wire.ProtoMessage -> Z) (format : wire_format Size).
Context (limits : PendingLimits) (l : Limits) (limits_positive : 1 <= pl_PendingPerClient limits)
  (valid : ValidateLimits (Some l) = None)
  (items_fit : pl_PendingPerClient limits <= wl_maxCollectionItems l)
  (bytes_fit : pl_PendingBytesPerClient limits + pl_PendingPerClient limits * pendingSnapshotItemOverhead + pendingSnapshotFrameOverhead
               <= wl_maxMessageBytes l)
  (bytes_uint64 : wl_maxMessageBytes l <= maxUint64).

Lemma tail_relay events : forall m revision deltas, shown_set m -> within_limits limits m -> 0 <= revision ->
  published limits m revision deltas -> event_deltas events `prefix_of` deltas ->
  tailInteractionObservation Size (mkTailValidator revision l (wire_set m)) l events = relay Size l events.
Proof using format limits_positive valid items_fit bytes_fit bytes_uint64.
  induction events as [|e events IH]; intros m revision deltas Hm Hw Hr Hp Hpre; [done|]. destruct e as [|answer sends|delta answer ended sends]; [done..|].
  change (event_deltas (TailDelta delta answer ended sends :: events)) with (delta :: event_deltas events) in Hpre.
  destruct deltas as [|d deltas]; [by apply prefix_nil_not in Hpre|]. apply prefix_cons_inv_1 in Hpre as E. subst d. apply prefix_cons_inv_2 in Hpre.
  destruct Hp as (Hd & Hs & Hw' & Hlt & Hrev & Hp). cbn [tailInteractionObservation relay].
  rewrite deltaToWire_Ok by (done || lia). rewrite (accept_step Size format limits l) with (m := m) by (done || lia).
  destruct answer; [done..|]. rewrite (IH (apply_delta m delta) (revision + 1) deltas); [done|by apply shown_step|done|lia|done|done].
Qed.

(** The page for a snapshot the hub took. *)
Lemma page_accepted vs revision tail : 0 <= revision <= maxUint64 -> Forall shown vs -> NoDup (key_of <$> vs) -> StronglySorted pending_lt vs ->
  within_limits limits (as_map vs) ->
  let s := Wire.mkInteractionSnapshot revision (wire_items vs) in
  ValidateInteractionSnapshot Size (Some s) (Some l) = None
  /\ ValidateInteractionStreamPage Size [Some (snapshot_frame (Some s)); Some (control_frame (Some (page_control s tail)))] tail (Some l) = None.
Proof using format limits_positive valid items_fit bytes_fit bytes_uint64.
  intros Hr Hs Hnd Hlt (Hsz & Hb & _) s. pose proof (as_map_values vs Hnd) as Hvs. destruct (snapshot_fits Size format limits l limits_positive valid items_fit bytes_fit revision vs)
    as [H1 H2]; [done|done| | | |done|].
  - clear -Hs Hlt. induction Hlt as [|v vs _ IH Hv]; [constructor|]. apply Forall_cons in Hs as [Hv' Hs]. constructor; [by apply IH|].
    rewrite Forall_forall in Hv, Hs |- *. intros x Hx. apply wire_key_lt; [apply Hv'|by apply Hs|by apply Hv].
  - unfold lenZ. rewrite <- Hvs, length_fmap, length_map_to_list. done.
  - rewrite <- (sumZ_perm _ _ _ Hvs). unfold msum in Hb. by rewrite sumZ_values.
  - split; [exact H1|]. unfold ValidateInteractionStreamPage. rewrite valid. cbv iota.
    cbn [frame_snapshot frame_control snapshot_frame control_frame frames_fit Wire.size_of]. fold (snapshot_frame (Some s)).
    fold (control_frame (Some (page_control s tail))). unfold fits in H2. rewrite !seq_None, !wrap_None. fold s in H1, H2.
    split; [|split; [exact H1|]].
    { split; [exact H2|]. split; [|done]. rewrite (wf_control_frame _ format) by (by intros ? [= <-]). apply ValidateEncodedSize_None.
      assert (0 <= control_size (page_control s tail) <= 28) as Hc.
      { unfold control_size. cbn [page_control Wire.ic_status Wire.ic_latestRevision Wire.ic_pageLastRevision Wire.ic_hasMore Wire.ic_tailing s Wire.is_revision].
        pose proof (uint_field_le revision). change (message_field (plain_status_size OKStatus)) with 4. destruct tail; cbn [bool_field]; lia. }
      pose proof (message_field_le (control_size (page_control s tail)) 1). pose proof (message_field_ge (control_size (page_control s tail))).
      change (2 ^ (7 * 1)) with 128 in *. unfold pendingSnapshotItemOverhead, pendingSnapshotFrameOverhead in *.
      pose proof (msum_nonneg pendingValueBytes (as_map vs) (fun _ x _ => value_bytes_nonneg x)). lia. }
    split.
    { unfold ValidateInteractionStreamControl. cbn [page_control Wire.ic_status]. rewrite !seq_None. split; [by vm_compute|].
      cbn [Wire.ic_latestRevision Wire.ic_pageLastRevision Wire.ic_hasMore Wire.ic_tailing GetCode OKStatus st_code]. rewrite Z.eqb_refl. cbn [negb].
      rewrite !seq_None, !when_None. rewrite Z.gtb_ltb, Z.ltb_irrefl, Z.eqb_refl.
      cbn [page_control Wire.ic_latestRevision Wire.ic_pageLastRevision Wire.ic_hasMore Wire.ic_tailing]. rewrite Z.ltb_irrefl. by destruct tail. }
    split; [rewrite when_None; by vm_compute|]. cbn [page_control Wire.ic_latestRevision Wire.ic_pageLastRevision Wire.ic_hasMore Wire.ic_tailing GetRevision].
    rewrite Z.eqb_refl. split; [done|]. by rewrite eqb_reflx.
Qed.
End Stream.

Lemma history_published limits log : history_ok limits log -> numbered log -> lenZ log <= maxUint64 ->
  forall deltas n, (n <= length log)%nat -> deltas `prefix_of` drop n log -> (forall d, d ∈ deltas -> wire_tokens (dl_pending d)) ->
  published limits (replay (take n log)) (Z.of_nat n) deltas.
Proof.
  intros Hh Hn Hlen. induction deltas as [|d deltas IH]; intros n Hle [rest Hpre] Ht; [done|].
  assert (log !! n = Some d) as Hd.
  { rewrite <- (Nat.add_0_r n), <- lookup_drop, Hpre. done. }
  pose proof (lookup_lt_Some _ _ _ Hd) as Hlt. destruct (Hh n ltac:(lia)) as [_ Hsteps]. specialize (Hsteps _ Hd).
  assert (apply_delta (replay (take n log)) d = replay (take (S n) log)) as E.
  { by rewrite (take_S_r _ _ _ Hd), replay_snoc. }
  cbn [published]. rewrite E. split; [done|]. split; [split; [apply Hsteps|apply Ht; left]|]. split; [apply Hh; lia|].
  unfold lenZ in Hlen. split; [lia|]. split; [by apply Hn|]. replace (Z.of_nat n + 1) with (Z.of_nat (S n)) by lia.
  apply IH; [lia| |intros x Hx; apply Ht; by right]. exists rest.
  replace (drop (S n) log) with (drop 1 (drop n log)) by (rewrite drop_drop; f_equal; lia). by rewrite Hpre.
Qed.

Lemma published_prefix limits deltas : forall m revision more, more `prefix_of` deltas -> published limits m revision deltas -> published limits m revision more.
Proof.
  induction deltas as [|d deltas IH]; intros m revision [|x more] Hpre Hp; [done|by apply prefix_nil_not in Hpre|done|].
  apply prefix_cons_inv_1 in Hpre as E. subst x. apply prefix_cons_inv_2 in Hpre. destruct Hp as (? & ? & ? & ? & ? & Hp).
  cbn [published]. do 5 (split; [done|]). by apply IH.
Qed.

(** What the hub's invariant says of an observation. *)
Record observed (limits : PendingLimits) (w : Watcher) : Prop := {
  ob_positive : 1 <= pl_PendingPerClient limits;
  ob_revision : 0 <= ps_revision (wt_snapshot w) <= maxUint64;
  ob_nodup : NoDup (key_of <$> ps_pending (wt_snapshot w));
  ob_sorted : StronglySorted pending_lt (ps_pending (wt_snapshot w));
  ob_within : within_limits limits (as_map (ps_pending (wt_snapshot w)));
  ob_shown : Forall shown (ps_pending (wt_snapshot w));
  ob_published : published limits (as_map (ps_pending (wt_snapshot w))) (ps_revision (wt_snapshot w)) (stream w)
}.

Lemma log_facts limits h client : hub_reachable limits h ->
  history_ok limits (log_of h client) /\ numbered (log_of h client) /\ lenZ (log_of h client) <= maxUint64.
Proof.
  intros Hr. destruct (hub_reachable_inv _ _ Hr) as [Hh _]. pose proof (reachable_limits _ _ Hr) as Elim.
  split; [|split; [by eapply log_numbered|]]; unfold log_of; destruct (hb_partitions h !! client) as [p|] eqn:Hp.
  - rewrite <- Elim. apply (ho_partitions _ _ Hh _ _ Hp).
  - pose proof (lf_pendingBytes _ (ho_limits _ _ Hh)). pose proof (lf_pending _ (ho_limits _ _ Hh)). rewrite Elim in *. apply history_nil; lia.
  - pose proof (po_room _ _ _ _ _ (ho_partitions _ _ Hh _ _ Hp)). pose proof (po_revision _ _ _ _ _ (ho_partitions _ _ Hh _ _ Hp)). lia.
  - done.
Qed.

Lemma observation_facts limits h client id w : hub_reachable limits h -> watchers_of h !! (client, id) = Some w ->
  (forall v, v ∈ ps_pending (wt_snapshot w) ++ (dl_pending <$> stream w) -> wire_tokens v) -> observed limits w.
Proof.
  intros Hr Hw Ht. destruct (hub_reachable_inv _ _ Hr) as [Hh _]. pose proof (reachable_limits _ _ Hr) as Elim.
  destruct (log_facts _ _ client Hr) as (Hhist & Hnum & Hlen).
  destruct (ho_snapshots _ _ Hh _ _ _ Hw) as [[Hnd Hsorted] Hbase]. pose proof (watcher_at _ _ _ _ _ (ho_discovery _ _ Hh) Hw) as Hwo. cbn [fst] in Hwo.
  pose proof (wo_snapshot _ _ _ Hwo) as Hrev. set (log := log_of h client) in *. set (n := Z.to_nat (ps_revision (wt_snapshot w))) in *.
  assert ((n <= length log)%nat) as Hn by (unfold lenZ in Hrev; lia). assert (Z.of_nat n = ps_revision (wt_snapshot w)) as En by lia.
  assert (within_limits limits (as_map (ps_pending (wt_snapshot w)))) as Hwl by (rewrite Hbase; by apply Hhist).
  split; [rewrite <- Elim; apply (lf_pending _ (ho_limits _ _ Hh))|lia|done|done|done| |].
  - apply Forall_forall. intros v Hv. split; [|apply Ht, elem_of_app; by left]. destruct Hwl as (_ & _ & Hwl). apply (Hwl (key_of v)).
    apply elem_of_list_to_map_1; [by rewrite <- list_fmap_compose|]. by apply (list_elem_of_fmap_2 (fun v => (key_of v, v))).
  - rewrite Hbase, <- En. apply history_published; [done..|apply (wo_stream _ _ _ Hwo)|]. intros d Hd. apply Ht, elem_of_app. right. by apply list_elem_of_fmap_2.
Qed.

Lemma tail_validator_new Size limits l w : wire_format Size -> observed limits w -> ValidateLimits (Some l) = None ->
  pl_PendingPerClient limits <= wl_maxCollectionItems l ->
  pl_PendingBytesPerClient limits + pl_PendingPerClient limits * pendingSnapshotItemOverhead + pendingSnapshotFrameOverhead <= wl_maxMessageBytes l ->
  wl_maxMessageBytes l <= maxUint64 -> let s := snapshot_wire (wt_snapshot w) in
  interactionSnapshotToWire Size (wt_snapshot w) (Some l) = Ok s
  /\ ValidateInteractionStreamPage Size [Some (snapshot_frame (Some s)); Some (control_frame (Some (page_control s true)))] true (Some l) = None
  /\ NewInteractionTailValidator Size (Some s) (Some (page_control s true)) (Some l)
     = Ok (mkTailValidator (ps_revision (wt_snapshot w)) l (wire_set (as_map (ps_pending (wt_snapshot w))))).
Proof.
  intros Hf [] Hl Hitems Hbytes Hmax s.
  destruct (page_accepted Size Hf limits l ob_positive0 Hl Hitems Hbytes Hmax _ (ps_revision (wt_snapshot w)) true ob_revision0 ob_shown0 ob_nodup0 ob_sorted0
    ob_within0) as [Hsnap Hpage]. fold (snapshot_wire (wt_snapshot w)) in Hsnap, Hpage. fold s in Hsnap, Hpage. split_and!.
  - unfold interactionSnapshotToWire. rewrite (pending_to_wire_Ok _ ob_shown0). fold (snapshot_wire (wt_snapshot w)). fold s. by rewrite Hsnap.
  - done.
  - unfold NewInteractionTailValidator. rewrite Hpage. do 2 f_equal. cbn [GetPending s snapshot_wire Wire.is_pending].
    change (∅ : gmap string (option Wire.PendingInteraction)) with (wire_set ∅). rewrite foldl_wire_set; [|by intros ? ?|done|done|by apply Forall_true].
    by rewrite foldl_as_map, (right_id_L ∅ (∪)).
Qed.

(** C18: C: An observation of the hub by a client whose negotiated limits cover the
    hub's capacity, and whose interactions are named by protocol tokens, is
    streamed whole: no contract check of the server ever refuses what the hub
    published, every frame goes out in order until the transport or the
    observation ends, and a client that checks the frames with its tail
    validator accepts each of them and has, after every delta, the hub's pending
    set of that revision. *)
Theorem interaction_stream_exact Size limits h client id w l first second ended sends events :
  wire_format Size -> hub_reachable limits h -> watchers_of h !! (client, id) = Some w ->
  ValidateLimits (Some l) = None -> capacity_fits h l -> wl_maxMessageBytes l <= maxUint64 ->
  (forall v, v ∈ ps_pending (wt_snapshot w) ++ (dl_pending <$> stream w) -> wire_tokens v) ->
  event_deltas events `prefix_of` stream w ->
  let s := snapshot_wire (wt_snapshot w) in
  serveInteractionObservation Size (wt_snapshot w) true l first second ended sends events = relay_page Size l s first second ended sends events
  /\ exists v0, NewInteractionTailValidator Size (Some s) (Some (page_control s true)) (Some l) = Ok v0
     /\ forall deltas, deltas `prefix_of` stream w ->
          accept_all Size v0 (delta_frames deltas)
          = Ok (mkTailValidator (ps_revision (wt_snapshot w) + lenZ deltas) l
                  (wire_set (foldl apply_delta (as_map (ps_pending (wt_snapshot w))) deltas))).
Proof.
  intros Hf Hr Hw Hl [Hitems Hbytes] Hmax Ht Hpre s. pose proof (observation_facts _ _ _ _ _ Hr Hw Ht) as Ho.
  unfold snapshotCapacityUpperBound in Hitems, Hbytes. rewrite (reachable_limits _ _ Hr) in Hitems, Hbytes. cbn [fst snd] in Hitems, Hbytes.
  destruct (tail_validator_new Size limits l w Hf Ho Hl Hitems Hbytes Hmax) as (Hsnap & Hpage & Hnew). fold s in Hsnap, Hpage, Hnew.
  pose proof (as_map_shown _ (ob_nodup _ _ Ho) (ob_shown _ _ Ho)) as Hshown. destruct Ho. split.
  - unfold serveInteractionObservation. rewrite Hsnap. cbn [map]. rewrite Hpage, Hnew. cbn [EngineContract.set].
    rewrite (tail_relay Size Hf limits l ob_positive0 Hl Hitems Hbytes Hmax events _ _ (stream w)) by (done || lia).
    unfold relay_page. by destruct first, second.
  - eexists. split; [exact Hnew|]. intros deltas Hd. apply (accept_published Size Hf limits); try done; [lia|]. by eapply published_prefix.
Qed.

(** ** Names that are no protocol tokens *)

Lemma pending_to_wire_refused vs v : v ∈ vs -> valid_pending v -> ~ wire_tokens v -> exists e, pending_to_wire vs = Err e.
Proof.
  intros Hin Hv Ht. destruct (toWire_refused v Hv Ht) as [e He]. induction vs as [|x vs IH]; [by apply elem_of_nil in Hin|].
  cbn [pending_to_wire]. apply elem_of_cons in Hin as [<-|Hin].
  - rewrite He. eexists. reflexivity.
  - destruct (pendingInteractionToWire x); [|eexists; reflexivity]. destruct (IH Hin) as [e' ->]. eexists. reflexivity.
Qed.

Lemma respond_names_tokens Size request limits :
  ValidateRespondInteractionRequest Size request limits = None ->
  exists r, request = Some r /\ token_ok 128 (Wire.rq_interactionID r).
Proof.
  unfold ValidateRespondInteractionRequest, validateRespondInteractionFields, EngineContract.token. destruct request as [r|]; [|done]. intros H. exists r. split; [done|].
  rewrite !seq_None in H. destruct H as [(_ & _ & H & _) _]. by apply validateToken_None in H.
Qed.

Definition newline_request : InteractionRequest :=
  mkInteractionRequest (String.append "ask" (String (Ascii.ascii_of_nat 10) "1")) "confirm" "proceed?" "{}".
Definition newline_value : Pending := mkPending sample_scope newline_request.
Definition newline_hub_1 : PendingHub := snd (Request_begin CtxLive sample_scope sample_request hub_1).
Definition newline_hub_2 : PendingHub := snd (Request_begin CtxLive sample_scope newline_request newline_hub_1).
Definition newline_hub : PendingHub := snd (Subscribe CtxLive "client" newline_hub_2).

Lemma newline_hub_reachable : hub_reachable DefaultPendingLimits newline_hub.
Proof.
  apply (hub_reachable_step _ newline_hub_2); [|apply step_subscribe]. apply (hub_reachable_step _ newline_hub_1); [|apply step_request].
  apply (hub_reachable_step _ hub_1); [|apply step_request]. apply (hub_reachable_step _ hub_0); [apply hub_0_reachable|apply step_bind].
Qed.

Definition newline_watcher : Watcher :=
  match watchers_of newline_hub !! ("client"%string, 1) with Some w => w | None => new_watcher "" (mkPendingSnapshot 0 []) end.
Lemma newline_snapshot : ps_pending (wt_snapshot newline_watcher) = [newline_value; mkPending sample_scope sample_request].
Proof. by vm_compute. Qed.

Lemma newline_no_token : ~ token_ok 128 (ir_id newline_request).
Proof. intros (_ & _ & H & _). by vm_compute in H. Qed.

(** C39: C: An interaction whose identifier has an inner line feed is accepted by the
    hub, but has no form on the wire: the stream of its client sends no
    interaction at all, whatever else is pending and whatever the limits, and no
    request can answer it. *)
Theorem unnamed_interaction_blocks_stream :
  exists w, hub_reachable DefaultPendingLimits newline_hub /\ watchers_of newline_hub !! ("client"%string, 1) = Some w
    /\ ps_pending (wt_snapshot w) = [newline_value; mkPending sample_scope sample_request]
    /\ (forall Size tail l first second ended sends events,
          serveInteractionObservation Size (wt_snapshot w) tail l first second ended sends events
          = ([], Some (sendInteractionFailure Size (internalLifecycleFailure "interaction snapshot is invalid") l sends)))
    /\ forall Size request limits, ValidateRespondInteractionRequest Size (Some request) limits = None ->
         Wire.rq_interactionID request <> ir_id newline_request.
Proof.
  exists newline_watcher. split; [exact newline_hub_reachable|]. split; [by vm_compute|]. split; [exact newline_snapshot|]. split.
  - intros Size tail l first second ended sends events. unfold serveInteractionObservation, interactionSnapshotToWire.
    destruct (pending_to_wire_refused [newline_value; mkPending sample_scope sample_request] newline_value) as [e He]; [left|split; by vm_compute| |].
    + intros (_ & H & _). by apply newline_no_token.
    + by rewrite newline_snapshot, He.
  - intros Size request limits H E. apply respond_names_tokens in H as (r & [= <-] & H). rewrite E in H. by apply newline_no_token.
Qed.

(** ** Instances *)

(** The wire format on the messages of the stream. *)
Definition stream_size (m : Wire.ProtoMessage) : Z :=
  match m with
  | Wire.MInteractionSnapshot s => snapshot_size s
  | Wire.MStreamInteractionsResponse (Wire.mkStreamInteractionsResponse (Some (Wire.Payload_Snapshot (Some s)))) => message_field (snapshot_size s)
  | Wire.MStreamInteractionsResponse (Wire.mkStreamInteractionsResponse (Some (Wire.Payload_Delta (Some d)))) => message_field (delta_size d)
  | Wire.MStreamInteractionsResponse (Wire.mkStreamInteractionsResponse (Some (Wire.Payload_Control (Some c)))) => message_field (control_size c)
  | _ => 0
  end.
Definition stream_limits : Limits := mkWireLimits (2 ^ 30) 4096 8 4096 4 2.

Lemma interaction_stream_exact_witness :
  let s := snapshot_wire (wt_snapshot sample_watcher) in
  lenZ (stream sample_watcher) = 2
  /\ exists v0, NewInteractionTailValidator stream_size (Some s) (Some (page_control s true)) (Some stream_limits) = Ok v0
     /\ accept_all stream_size v0 (delta_frames (stream sample_watcher)) = Ok (mkTailValidator 2 stream_limits ∅).
Proof.
  split; [by vm_compute|].
  destruct (interaction_stream_exact stream_size DefaultPendingLimits hub_7 "client" 1 sample_watcher stream_limits SentOk SentOk
    (mkObservationEnd false false None) true [] (Build_wire_format stream_size (fun _ => eq_refl) (fun _ => eq_refl) (fun _ => eq_refl) (fun _ _ => eq_refl))
    hub_7_reachable) as [_ (v0 & Hv0 & Hall)]; [by vm_compute|by vm_compute|split; by vm_compute|by vm_compute| |apply prefix_nil|].
  - intros v Hv. assert (v = mkPending sample_scope sample_request) as ->.
    { change (ps_pending (wt_snapshot sample_watcher) ++ (dl_pending <$> stream sample_watcher))
        with [mkPending sample_scope sample_request; mkPending sample_scope sample_request] in Hv. set_solver. }
    repeat split; by vm_compute.
  - exists v0. split; [exact Hv0|]. rewrite (Hall (stream sample_watcher) ltac:(done)). do 2 f_equal; by vm_compute.
Defined.
