(* ===== verification/EventStream.v ===== *)
(** The event stream of the gRPC adapter
    (src/daemon/grpcserver/stream_events.go): replay pages of the event log as
    frames, the live tail, and failures as terminal control frames.

    The rewriting of tool payloads for older clients is the parameter
    [payloadToWire]; everything proved holds whatever it is.  The transport
    answers each send, by its number. *)
From Stdlib Require Import ZArith Lia.
From stdpp Require Import base gmap list strings pretty relations.
From S2P Require Import Prelude GoText GoOrder GoJson Event EventLog CommonContract EngineWire EngineContract WireFormat LifecycleStatus.
Open Scope Z_scope.

(** ** Events on the wire *)

Definition event_kinds : list (Kind * Z) :=
  [(RunStarted, 1); (RunCompleted, 2); (RunFailed, 3); (RunCancelled, 4); (TurnStarted, 5); (TurnCompleted, 6); (TurnFailed, 7);
   (ModelStarted, 8); (ModelDelta, 9); (ModelCompleted, 10); (ModelFailed, 11); (ToolStarted, 12); (ToolProgress, 13);
   (ToolCompleted, 14); (ToolFailed, 15); (InteractionStarted, 16); (InteractionCompleted, 17); (InteractionFailed, 18);
   (InteractionCancelled, 19)].

Definition eventKindToWire (kind : Kind) : option Z := snd <$> List.find (fun entry => String.eqb (fst entry) kind) event_kinds.

(** [Time.UnixNano], an [int64]. *)
Definition UnixNano (t : Time) : Z := let n := t_sec t * 1000000000 + t_nsec t in (n + 2 ^ 63) mod 2 ^ 64 - 2 ^ 63.

Definition event_frame (value : Wire.RunEvent) : Wire.StreamEventsResponse :=
  Wire.mkStreamEventsResponse (Some (Wire.Payload_Event (Some value))).
Definition event_control (value : Wire.StreamControl) : Wire.StreamEventsResponse :=
  Wire.mkStreamEventsResponse (Some (Wire.Payload_EventControl (Some value))).

(** How a stream ends: in silence, with a transport error, after the terminal
    control frame. *)
Inductive event_end := EvQuiet | EvTransport | EvFailure (control : Wire.StreamControl).

Definition failed_control (status : Status) (earliest latest lastDelivered : Z) : Wire.StreamControl :=
  Wire.mkStreamControl (Some status) earliest latest lastDelivered false None false.

Section Stream.
Context (Size : Wire.ProtoMessage -> Z) (payloadToWire : Kind -> string -> option string).

Definition eventPayloadToWire (envelope : Envelope) : option string :=
  if one_of (env_kind envelope) [ToolStarted; ToolCompleted; ToolFailed] then payloadToWire (env_kind envelope) (env_data envelope)
  else Some (env_data envelope).

Definition eventToWire (envelope : Envelope) : option Wire.RunEvent :=
  match eventKindToWire (env_kind envelope), eventPayloadToWire envelope with
  | Some kind, Some payload =>
      let value := Wire.mkRunEvent (env_runID envelope) (env_sequence envelope) (UnixNano (env_at envelope)) kind payload (Terminal envelope) in
      if set (ValidateRunEvent (Some value)) then None else Some value
  | _, _ => None
  end.

Fixpoint events_to_wire (events : list Envelope) : option (list Wire.RunEvent) :=
  match events with
  | [] => Some []
  | envelope :: rest =>
      match eventToWire envelope with
      | None => None
      | Some value => match events_to_wire rest with None => None | Some values => Some (value :: values) end
      end
  end.

Definition validateEventResponse (value : Wire.StreamEventsResponse) (limits : Limits) : option error :=
  let size := fits Size (Wire.MStreamEventsResponse value) limits in
  match Wire.ep_payload value with
  | Some (Wire.Payload_Event (Some event)) => ValidateRunEvent (Some event) >>> size
  | Some (Wire.Payload_EventControl (Some control)) => ValidateStreamControl (Some control) >>> size
  | _ => Some (Errorf "event stream response requires exactly one payload")
  end.

Definition all_sendable (frames : list Wire.StreamEventsResponse) (limits : Limits) : bool :=
  forallb (fun frame => negb (set (validateEventResponse frame limits))) frames.

Definition ok_control (page : ReplayPage) : Wire.StreamControl :=
  Wire.mkStreamControl (Some OKStatus) (pg_earliest page) (pg_latest page) (pg_last page) (pg_tailing page) (Some (pg_last page)) (pg_hasMore page).

Definition prepareEventPage (request : Wire.StreamEventsRequest) (page : ReplayPage) (limits : Limits)
  : option (list Wire.RunEvent * Wire.StreamControl) :=
  if negb (Bool.eqb (pg_tailing page) (bool_decide (is_Some (pg_tail page)))) || (pg_hasMore page && pg_tailing page)
     || (pg_tailing page && negb (Wire.eq_tail request)) || (lenZ (pg_events page) >? Wire.eq_replayLimit request) then None
  else match events_to_wire (pg_events page) with
  | None => None
  | Some events =>
      if set (ValidateEventBatch Size (Wire.eq_runID request) (Wire.eq_afterSequence request) (map Some events) (Some limits)) then None
      else
        let expectedPageLast := match last events with Some e => Wire.re_sequence e | None => Wire.eq_afterSequence request end in
        if negb (pg_last page =? expectedPageLast) then None
        else
          let control := ok_control page in
          if set (ValidateStreamControl (Some control)) then None
          else if negb (all_sendable (map event_frame events) limits) then None
          else if set (validateEventResponse (event_control control) limits) then None
          else Some (events, control)
  end.

(** ** Sending *)

Definition sendEventFailure (limits : Limits) (control : Wire.StreamControl) (sends : bool) : event_end :=
  let control :=
    if (GetCode (Wire.sc_status control) =? ERROR_CODE_OK) || set (ValidateStatus (Wire.sc_status control))
    then failed_control (internalLifecycleFailure "event stream failed") 0 0 0 else control in
  if set (validateEventResponse (event_control control) limits) || negb sends then EvTransport else EvFailure control.

Definition eventTailFailure (status : Status) (page : ReplayPage) (lastDelivered : Z) : Wire.StreamControl :=
  failed_control status (pg_earliest page) (pg_latest page) lastDelivered.

Definition replayCapacityStatus (failure : ResourceExhausted) : Status :=
  if String.eqb (re_resource failure) "" || (re_limit failure =? 0) || (re_observed failure <=? re_limit failure)
  then internalLifecycleFailure "event delivery failed"
  else OverloadStatus (re_resource failure) (re_limit failure) (re_observed failure).

(** What [Tail.Wait] returns: nil, the end of a context, a typed exhaustion, any
    other error. *)
Inductive tail_error := TeNil | TeContext | TeExhausted (failure : ResourceExhausted) | TeOther.

Definition finishEventTail (limits : Limits) (page : ReplayPage) (err : tail_error) (streamDone sends : bool) : event_end :=
  match err with
  | TeNil => EvQuiet
  | TeContext => if streamDone then EvTransport else EvQuiet
  | TeExhausted failure =>
      if streamDone then EvTransport
      else sendEventFailure limits (eventTailFailure (replayCapacityStatus failure) page (re_lastDelivered failure)) sends
  | TeOther =>
      if streamDone then EvTransport
      else sendEventFailure limits (eventTailFailure (internalLifecycleFailure "event tail failed") page (pg_last page)) sends
  end.

(** What the loop of [streamEventTail] receives; [fenced] is whether the inner
    [select] finds the observation fenced. *)
Inductive tail_event :=
| TailFenced (streamDone : bool)
| TailClosed (err : tail_error) (streamDone : bool)
| TailEnvelope (envelope : Envelope) (fenced streamDone : bool).

Definition eventFenceResult (streamDone : bool) : event_end := if streamDone then EvTransport else EvQuiet.

(** [n] numbers the sends. *)
Fixpoint streamEventTail (transport : nat -> bool) (n : nat) (runID : string) (page : ReplayPage) (limits : Limits) (next : Z)
  (events : list tail_event) : list Wire.StreamEventsResponse * option event_end :=
  let fail text := ([], Some (sendEventFailure limits (eventTailFailure (internalLifecycleFailure text) page next) (transport n))) in
  match events with
  | [] => ([], None)
  | TailFenced streamDone :: _ => ([], Some (eventFenceResult streamDone))
  | TailClosed err streamDone :: _ => ([], Some (finishEventTail limits page err streamDone (transport n)))
  | TailEnvelope envelope fenced streamDone :: rest =>
      if fenced then ([], Some (eventFenceResult streamDone))
      else if (next =? maxUint64) || negb (env_sequence envelope =? next +64 1) then fail "event tail is not contiguous"%string
      else match eventToWire envelope with
      | None => fail "event tail result is invalid"%string
      | Some value =>
          if negb (String.eqb (Wire.re_runID value) runID) then fail "event tail result is invalid"%string
          else if set (validateEventResponse (event_frame value) limits) then fail "event tail result is invalid"%string
          else if negb (transport n) then ([], Some EvTransport)
          else
            let '(frames, e) := streamEventTail transport (S n) runID page limits (Wire.re_sequence value) rest in
            (event_frame value :: frames, e)
      end
  end.

(** The frames sent before the first failed send. *)
Fixpoint sendEventResponses (transport : nat -> bool) (n : nat) (limits : Limits) (frames : list Wire.StreamEventsResponse)
  : list Wire.StreamEventsResponse * bool :=
  match frames with
  | [] => ([], true)
  | frame :: rest =>
      if set (validateEventResponse frame limits) || negb (transport n) then ([], false)
      else let '(sent, done) := sendEventResponses transport (S n) limits rest in (frame :: sent, done)
  end.

Definition streamEventObservation (transport : nat -> bool) (request : Wire.StreamEventsRequest) (page : ReplayPage) (limits : Limits)
  (events : list tail_event) : list Wire.StreamEventsResponse * option event_end :=
  match prepareEventPage request page limits with
  | None => ([], Some (sendEventFailure limits (failed_control (internalLifecycleFailure "event replay result is invalid") 0 0 0) (transport 0%nat)))
  | Some (values, control) =>
      let frames := map event_frame values ++ [event_control control] in
      match sendEventResponses transport 0 limits frames with
      | (sent, false) => (sent, Some EvTransport)
      | (sent, true) =>
          if negb (pg_tailing page) then (sent, Some EvQuiet)
          else
            let '(tail, e) := streamEventTail transport (length frames) (Wire.eq_runID request) page limits (pg_last page) events in
            (sent ++ tail, e)
      end
  end.

(** [sendReplayFailure]: the error of [ReplayEvents] through [errors.Is] and
    [errors.As]. *)
Inductive replay_error :=
| ReContext
| ReOutOfRange (failure : OutOfRange)
| ReExhausted (failure : ResourceExhausted)
| ReOther (facts : error_facts).

Definition replay_bounds_recovery (s : Status) : Z :=
  match st_detail s with Some (Status_ReplayBounds (Some b)) => rb_recovery b | _ => 0 end.

Definition sendReplayFailure (limits : Limits) (after : Z) (err : replay_error) (streamDone sends : bool) : event_end :=
  if streamDone then EvTransport
  else match err with
  | ReContext => EvQuiet
  | ReOutOfRange outside =>
      match CheckReplayCursor after (Earliest outside) (Latest outside) with
      | Some status =>
          if (RequestedAfter outside =? after) && (replay_bounds_recovery status =? RecoveryAfter outside)
          then sendEventFailure limits (failed_control status (Earliest outside) (Latest outside) (RecoveryAfter outside)) sends
          else sendEventFailure limits (failed_control (internalLifecycleFailure "event replay recovery is invalid") 0 0 0) sends
      | None => sendEventFailure limits (failed_control (internalLifecycleFailure "event replay recovery is invalid") 0 0 0) sends
      end
  | ReExhausted failure => sendEventFailure limits (failed_control (replayCapacityStatus failure) 0 0 (re_lastDelivered failure)) sends
  | ReOther facts => sendEventFailure limits (failed_control (lifecycleFailureStatus facts "" "") 0 0 0) sends
  end.
End Stream.

(** ** Recovery bounds of a log without events *)

Definition imported_log : Log := mkLog "run-1" sample_limits [] 0 5 false 0 ∅ zeroStats.
Definition imported_world : LogWorld := mkWorld imported_log ∅ [].

Lemma imported_reachable : log_reachable "run-1" 5 sample_limits imported_world.
Proof. exists imported_log. split; [by vm_compute|apply rtc_refl]. Qed.

Lemma window_without_events_invalid requested earliest latest recovery message : latest < earliest ->
  is_Some (ValidateStatus (Some (mkStatus ERROR_CODE_OUT_OF_RANGE message false ""
    (Some (Status_ReplayBounds (Some (mkReplayBounds requested earliest latest recovery))))))).
Proof.
  intros Hw. destruct (ValidateStatus _) eqn:E; [by eexists|]. exfalso.
  apply failure_valid in E; [|reflexivity|discriminate|discriminate]. destruct E as (_ & _ & E).
  change (validateReplayBounds (mkReplayBounds requested earliest latest recovery) = None) in E. unfold validateReplayBounds in E.
  cbn [rb_earliest rb_latest] in E. rewrite seq_None, when_None, orb_false_iff, Z.ltb_ge in E. lia.
Qed.

(** C40: C: The log of an imported run that has no events yet refuses a stale cursor
    with the recovery cursor to use, but the client never learns it: the typed
    status is not valid for a window without events, and the stream ends with the
    generic internal failure instead. *)
Theorem empty_window_recovery_lost :
  exists o, snd (Log_Replay imported_world CtxLive (mkRequest 3 1 1024 false)) = Err (ErrOutOfRange o)
    /\ RecoveryAfter o = 5
    /\ (exists page, snd (Log_Replay imported_world CtxLive (mkRequest 5 1 1024 false)) = Ok page)
    /\ forall Size limits sends e, sendReplayFailure Size limits 3 (ReOutOfRange o) false sends = e ->
         e = EvTransport \/ e = EvFailure (failed_control (internalLifecycleFailure "event stream failed") 0 0 0).
Proof.
  exists (mkOutOfRange 3 6 5 5). split; [by vm_compute|]. split; [done|]. split; [eexists; by vm_compute|].
  intros Size limits sends e <-. unfold sendReplayFailure. cbn [Earliest Latest RequestedAfter RecoveryAfter].
  assert (CheckReplayCursor 3 6 5 = Some (mkStatus ERROR_CODE_OUT_OF_RANGE "requested event cursor is outside the retained replay window" false ""
    (Some (Status_ReplayBounds (Some (mkReplayBounds 3 6 5 5)))))) as -> by reflexivity.
  cbn [replay_bounds_recovery st_detail rb_recovery Z.eqb Pos.eqb andb]. unfold sendEventFailure. cbn [failed_control Wire.sc_status].
  destruct (window_without_events_invalid 3 6 5 5 "requested event cursor is outside the retained replay window" ltac:(lia)) as [err ->].
  rewrite orb_true_r. destruct (_ || _); [by left|by right].
Qed.

(** ** Events that fit the protocol *)

Lemma kind_to_wire e : validKind (env_kind e) = true ->
  exists n, eventKindToWire (env_kind e) = Some n /\ knownEventKind n = true /\ terminalEventKind n = Terminal e /\ 1 <= n <= 19.
Proof.
  destruct e as [runID seq at_ kind data]. unfold validKind, one_of, Terminal, one_of. cbn [env_kind]. intros H.
  apply existsb_exists in H as (k & Hk & ->%String.eqb_eq). cbn [In] in Hk.
  repeat (destruct Hk as [<-|Hk]; [eexists; split; [vm_compute; reflexivity|split; [reflexivity|split; [reflexivity|lia]]]|]). done.
Qed.

Definition wire_event (payloadToWire : Kind -> string -> option string) (e : Envelope) : Wire.RunEvent :=
  Wire.mkRunEvent (env_runID e) (env_sequence e) (UnixNano (env_at e)) (default 0 (eventKindToWire (env_kind e)))
    (default ""%string (eventPayloadToWire payloadToWire e)) (Terminal e).

(** The bytes the log accounts for a payload. *)
Definition logged_payload (e : Envelope) : Z := if slen (env_data e) =? 0 then 0 else raw_json_size (env_data e).

(** What the runs produce: a known kind, a time of the current era, a payload
    that is JSON, compact, and no larger on the wire. *)
Record event_ready (payloadToWire : Kind -> string -> option string) (l : Limits) (e : Envelope) : Prop := {
  er_kind : validKind (env_kind e) = true;
  er_time : 0 < UnixNano (env_at e) /\ is_Some (time_json_size (env_at e));
  er_data : slen (env_data e) = 0 \/ json_valid (env_data e) = true;
  er_payload : exists p, eventPayloadToWire payloadToWire e = Some p /\ (p = ""%string \/ json_valid p = true)
    /\ slen p <= maximumJSONBytes /\ slen p <= logged_payload e /\ slen (env_runID e) + slen p + 64 <= wl_maxMessageBytes l
}.

Lemma eventToWire_ready payloadToWire l e : token_ok 128 (env_runID e) -> env_sequence e <> 0 -> event_ready payloadToWire l e ->
  eventToWire payloadToWire e = Some (wire_event payloadToWire e) /\ ValidateRunEvent (Some (wire_event payloadToWire e)) = None.
Proof.
  intros Ht Hs [Hk [Hn _] _ (p & Hp & Hj & Hl & _)]. destruct (kind_to_wire e Hk) as (n & En & Hkn & Hterm & _).
  unfold eventToWire, wire_event. rewrite En, Hp. cbn [default].
  assert (ValidateRunEvent (Some (Wire.mkRunEvent (env_runID e) (env_sequence e) (UnixNano (env_at e)) n p (Terminal e))) = None) as Hv;
    [|by rewrite Hv].
  unfold ValidateRunEvent, token. cbn [Wire.re_runID Wire.re_sequence Wire.re_unixNano Wire.re_kind Wire.re_payloadJSON Wire.re_terminal].
  rewrite !seq_None, validateToken_None, !when_None, Hkn, Hterm, eqb_reflx, !orb_false_iff, Z.eqb_neq, Z.leb_gt, Z.gtb_ltb, Z.ltb_ge.
  split_and!; try done. destruct Hj as [->|Hj]; [done|]. rewrite Hj. by rewrite andb_false_r.
Qed.

(** *** Sizes *)

Definition int64_field (n : Z) : Z := if n =? 0 then 0 else 1 + (if n <? 0 then 10 else varint_size n).
Definition run_event_size (e : Wire.RunEvent) : Z :=
  bytes_field (Wire.re_runID e) + uint_field (Wire.re_sequence e) + int64_field (Wire.re_unixNano e) + uint_field (Wire.re_kind e)
  + bytes_field (Wire.re_payloadJSON e) + bool_field (Wire.re_terminal e).
(** An [optional] field is written when it is set. *)
Definition optional_field (n : option Z) : Z := match n with Some n => 1 + varint_size n | None => 0 end.
Definition stream_control_size (c : Wire.StreamControl) : Z :=
  match Wire.sc_status c with Some s => message_field (plain_status_size s) | None => 0 end
  + uint_field (Wire.sc_earliestSequence c) + uint_field (Wire.sc_latestSequence c) + uint_field (Wire.sc_lastDeliveredSequence c)
  + bool_field (Wire.sc_tailing c) + optional_field (Wire.sc_pageLastSequence c) + bool_field (Wire.sc_hasMore c).

(** Messages within the types of their fields, of less than 4 GiB. *)
Definition event_sized (e : Wire.RunEvent) : Prop :=
  slen (Wire.re_runID e) + slen (Wire.re_payloadJSON e) < 2 ^ 32 /\ uint64_ok (Wire.re_sequence e)
  /\ Wire.re_unixNano e < 2 ^ 63 /\ Wire.re_kind e < 2 ^ 31.
Definition control_sized (c : Wire.StreamControl) : Prop :=
  Wire.sc_status c = Some OKStatus /\ uint64_ok (Wire.sc_earliestSequence c) /\ uint64_ok (Wire.sc_latestSequence c)
  /\ uint64_ok (Wire.sc_lastDeliveredSequence c) /\ from_option uint64_ok True (Wire.sc_pageLastSequence c).

(** What is used of [proto.Size]. *)
Record event_format (Size : Wire.ProtoMessage -> Z) : Prop := {
  ev_int m : 0 <= Size m < 2 ^ 63;
  ev_event e : event_sized e -> Size (Wire.MRunEvent e) = run_event_size e;
  ev_event_frame e : event_sized e -> Size (Wire.MStreamEventsResponse (event_frame e)) = message_field (run_event_size e);
  ev_control_frame c : control_sized c -> Size (Wire.MStreamEventsResponse (event_control c)) = message_field (stream_control_size c)
}.

Lemma fraction_digits_nonneg fuel : forall n, 0 <= fraction_digits fuel n.
Proof. induction fuel as [|fuel IH]; intros n; cbn [fraction_digits]; [lia|]. destruct (_ =? 0); [apply IH|lia]. Qed.

(** An event is smaller on the wire than the log accounts for it. *)
Lemma wire_event_fits Size payloadToWire l e : event_format Size -> token_ok 128 (env_runID e) -> event_ready payloadToWire l e ->
  uint64_ok (env_sequence e) ->
  Size (Wire.MRunEvent (wire_event payloadToWire e)) <= EncodedSize e
  /\ fits Size (Wire.MStreamEventsResponse (event_frame (wire_event payloadToWire e))) l = None.
Proof.
  intros Hf (_ & _ & _ & Hrun) [Hk [Hn [t Ht]] Hd (p & Hp & Hj & Hl & Hlog & Hm)] Hseq. destruct (kind_to_wire e Hk) as (n & En & _ & _ & Hn19).
  unfold maximumJSONBytes in Hl. change (Z.shiftl 1 20) with 1048576 in Hl. pose proof (slen_nonneg p). pose proof (slen_nonneg (env_runID e)).
  assert (0 <= run_event_size (wire_event payloadToWire e) <= slen (env_runID e) + slen p + 32) as Hsize.
  { unfold run_event_size, wire_event. rewrite En, Hp. cbn [from_option id Wire.re_runID Wire.re_sequence Wire.re_unixNano Wire.re_kind Wire.re_payloadJSON Wire.re_terminal].
    pose proof (bytes_field_le (env_runID e) 2). pose proof (bytes_field_le p 3). pose proof (uint_field_le (env_sequence e) (proj2 Hseq)).
    assert (0 <= int64_field (UnixNano (env_at e)) <= 10) as Hi.
    { unfold int64_field. rewrite (proj2 (Z.eqb_neq _ _)), (proj2 (Z.ltb_ge _ _)) by lia. pose proof (varint_size_pos (UnixNano (env_at e))).
      pose proof (varint_size_le (UnixNano (env_at e)) 9). assert (UnixNano (env_at e) < 2 ^ (7 * 9)); [|lia]. unfold UnixNano.
      match goal with |- ?x mod _ - _ < _ => pose proof (Z.mod_pos_bound x (2 ^ 64)) end. lia. }
    assert (uint_field n = 2) as ->. { unfold uint_field. rewrite (proj2 (Z.eqb_neq _ _)) by lia. pose proof (varint_size_pos n). pose proof (varint_size_le n 1). lia. }
    change (2 ^ (7 * 2)) with 16384 in *. change (2 ^ (7 * 3)) with 2097152 in *. assert (0 <= bool_field (Terminal e) <= 2) by (by destruct (Terminal e)). lia. }
  assert (event_sized (wire_event payloadToWire e)) as Hsmall.
  { unfold event_sized, wire_event. rewrite Hp, En. cbn [from_option id Wire.re_runID Wire.re_sequence Wire.re_unixNano Wire.re_kind Wire.re_payloadJSON].
    split; [lia|]. split; [done|]. split; [|lia]. unfold UnixNano. match goal with |- ?x mod _ - _ < _ => pose proof (Z.mod_pos_bound x (2 ^ 64)) end. lia. }
  rewrite (ev_event _ Hf) by done. split.
  - unfold EncodedSize. rewrite Ht. pose proof (string_json_size_ge (env_runID e)). pose proof (string_json_size_pos (env_kind e)).
    pose proof (digits_fuel_pos 20 (env_sequence e)). unfold uint_json_size, logged_payload in *.
    assert (0 <= t) by (unfold time_json_size in Ht; destruct (_ && _); [injection Ht as <-; repeat case_match; pose proof (fraction_digits_nonneg 9 (t_nsec (env_at e))); lia|done]).
    change (slen "{'run_id':") with 10. change (slen ",'sequence':") with 12. change (slen ",'at':") with 6. change (slen ",'kind':") with 8. change (slen ",'data':") with 8.
    destruct (Z.eqb_spec (slen (env_data e)) 0); [lia|]. destruct Hd as [?|Hd]; [lia|]. rewrite Hd. lia.
  - unfold fits. rewrite (ev_event_frame _ Hf) by done. apply ValidateEncodedSize_None.
    pose proof (message_field_le (run_event_size (wire_event payloadToWire e)) 4). pose proof (message_field_ge (run_event_size (wire_event payloadToWire e))).
    change (2 ^ (7 * 4)) with 268435456 in *. lia.
Qed.

(** ** The log under its steps *)

(** What a step keeps: the run, the committed events, each subscription's
    cursor; it commits events of its own run only. *)
Record log_extends (w w' : LogWorld) : Prop := {
  le_run : log_runID (w_log w') = log_runID (w_log w);
  le_history : exists more, w_history w' = w_history w ++ more /\ Forall (fun e => env_runID e = log_runID (w_log w)) more;
  le_subs id s : id <= log_nextSubID (w_log w) -> w_subs w !! id = Some s -> exists s', w_subs w' !! id = Some s' /\ sub_after s' = sub_after s
}.

Lemma log_extends_same w w' : log_runID (w_log w') = log_runID (w_log w) -> w_history w' = w_history w -> w_subs w' = w_subs w -> log_extends w w'.
Proof. intros H1 H2 H3. split; [done|exists []; by rewrite app_nil_r|]. intros id s _ Hs. rewrite H3. by exists s. Qed.

Lemma page_log_same log request : log_runID (replayPageLocked log request).1 = log_runID log
  /\ log_nextSubID (replayPageLocked log request).1 = log_nextSubID log.
Proof. unfold replayPageLocked. repeat case_match; done. Qed.

Lemma register_extends w0 w log' done after replay : log_runID log' = log_runID (w_log w0) -> log_nextSubID log' = log_nextSubID (w_log w0) ->
  w = with_log w0 log' -> log_extends w0 (registerSubscriptionLocked w done after replay).1.
Proof.
  intros Hr Hn ->. unfold registerSubscriptionLocked, with_log. cbn [w_log w_subs w_history]. destruct (log_closed log'); cbn [fst].
  all: split; cbn [w_log w_subs w_history log_runID]; [done|exists []; by rewrite app_nil_r|].
  all: intros id s Hid Hs; exists s; rewrite lookup_insert_ne by lia; done.
Qed.

Lemma replay_extends w ctx request : log_extends w (Log_Replay w ctx request).1.
Proof.
  unfold Log_Replay. destruct (page_log_same (w_log w) request) as [Hr Hn].
  destruct ctx; [by apply log_extends_same| |by apply log_extends_same]. destruct (_ || _); [by apply log_extends_same|].
  destruct (_ || _); [by apply log_extends_same|]. destruct (replayPageLocked (w_log w) request) as [log' [[entries page]|err]]; cbn [fst] in *; [|by apply log_extends_same].
  destruct (_ && _); [|by apply log_extends_same].
  pose proof (register_extends w (with_log w log') log' false (pg_last page) [] Hr Hn eq_refl) as H. destruct (registerSubscriptionLocked _ _ _ _). exact H.
Qed.

Lemma subscribe_extends w ctx after : log_extends w (Log_Subscribe w ctx after).1.
Proof.
  unfold Log_Subscribe. match goal with |- context [replayPageLocked (w_log w) ?r] => destruct (page_log_same (w_log w) r) as [Hr Hn]; set (request := r) in * end.
  destruct ctx; [by apply log_extends_same| |by apply log_extends_same].
  destruct (replayPageLocked (w_log w) request) as [log' [[entries page]|err]]; cbn [fst] in *; [|by apply log_extends_same].
  destruct (pg_hasMore page); [by apply log_extends_same|].
  pose proof (register_extends w (with_log w log') log' false after entries Hr Hn eq_refl) as H. destruct (registerSubscriptionLocked _ _ _ _). exact H.
Qed.

Lemma offer_after s entry : sub_after (offer s entry).1 = sub_after s.
Proof. unfold offer, terminateLocked. repeat (case_match; try done). Qed.
Lemma deliver_after action s s' : deliver action s = Some s' -> sub_after s' = sub_after s.
Proof. unfold deliver, with_pc, terminateLocked. intros H. repeat (case_match; try discriminate); injection H as <-; try done; repeat case_match; done. Qed.

Lemma append_extends w envelope w' r : Log_Append w envelope = Some (w', r) -> log_extends w w'.
Proof.
  unfold Log_Append. destruct (log_closed (w_log w)); [intros [= <- _]; by apply log_extends_same|].
  destruct (String.eqb_spec (env_runID envelope) (log_runID (w_log w))) as [Hrun|]; cbn [negb]; [|intros [= <- _]; by apply log_extends_same].
  destruct (_ || _); [intros [= <- _]; by apply log_extends_same|]. destruct (admission_bounds _ _) as [me mb].
  destruct (_ >? _); [intros [= <- _]; by apply log_extends_same|]. destruct (evict _ _ _ _ _ _) as [[[entries bytes] stats]|]; [|done].
  intros [= <- _]. split; cbn [w_log w_history w_subs log_runID]; [done|exists [envelope]; split; [done|by constructor]|].
  intros id s _ Hs. unfold offer_all. rewrite map_lookup_imap, Hs. cbn [mbind option_bind]. eexists. split; [reflexivity|].
  destruct (bool_decide _); [apply offer_after|done].
Qed.

Lemma alter_extends w id f : (forall s, sub_after (f s) = sub_after s) -> log_extends w (mkWorld (w_log w) (alter f id (w_subs w)) (w_history w)).
Proof.
  intros Hf. split; [done|exists []; by rewrite app_nil_r|]. intros id' s _ Hs. cbn [w_subs]. destruct (decide (id' = id)) as [->|Hne].
  - exists (f s). rewrite lookup_alter_eq, Hs. by split.
  - exists s. by rewrite lookup_alter_ne.
Qed.

Lemma log_step_extends w w' : log_step w w' -> log_extends w w'.
Proof.
  destruct 1 as [w envelope w' r H|w ctx request|w ctx after|w|w action id w' H|w id|w id].
  - by eapply append_extends.
  - apply replay_extends.
  - apply subscribe_extends.
  - unfold Log_Close. destruct (log_closed (w_log w)); [by apply log_extends_same|]. split; cbn [w_log w_history w_subs log_runID]; [done|exists []; by rewrite app_nil_r|].
    intros id s _ Hs. rewrite map_lookup_imap, Hs. cbn [mbind option_bind]. eexists. split; [reflexivity|]. destruct (bool_decide _); [|done].
    unfold finish. by destruct (sub_terminal s).
  - unfold world_deliver in H. destruct (w_subs w !! id) as [s|] eqn:Hs; [|done]. destruct (deliver action s) as [s'|] eqn:Hd; [|done]. injection H as <-.
    split; cbn [w_log w_history w_subs]; [by destruct (sub_pc s')|exists []; by rewrite app_nil_r|]. intros id' x _ Hx. destruct (decide (id' = id)) as [->|Hne].
    + exists s'. rewrite lookup_insert_eq. split; [done|]. rewrite Hs in Hx. injection Hx as <-. by eapply deliver_after.
    + exists x. by rewrite lookup_insert_ne.
  - by apply alter_extends.
  - apply alter_extends. intros s. unfold terminateLocked. by destruct (sub_ctxDone s), (sub_terminal s).
Qed.

Lemma reachable_run runID base limits w : log_reachable runID base limits w ->
  log_runID (w_log w) = runID /\ Forall (fun e => env_runID e = runID) (w_history w).
Proof.
  intros (log & Hn & Hr). assert (log_runID log = runID) as E.
  { unfold NewLogAfter in Hn. repeat (case_match; try discriminate). by injection Hn as <-. }
  assert (log_runID (w_log (mkWorld log ∅ [])) = runID /\ Forall (fun e => env_runID e = runID) (w_history (mkWorld log ∅ []))) as H0 by (by split).
  clear Hn E. induction Hr as [|w0 w1 w2 Hs _ IH]; [done|]. apply IH. destruct H0 as [Hrun Hall]. destruct (log_step_extends _ _ Hs) as [H1 (more & H2 & H3) _].
  rewrite H1, H2, Hrun in *. split; [done|]. apply Forall_app. by split.
Qed.

Lemma subscription_kept base w w' id s : log_inv base w -> rtc log_step w w' -> w_subs w !! id = Some s ->
  exists s', w_subs w' !! id = Some s' /\ sub_after s' = sub_after s.
Proof.
  intros Hi Hr. revert s. induction Hr as [|w0 w1 w2 Hs Hr IH]; intros s Hx; [by exists s|].
  destruct (le_subs _ _ (log_step_extends _ _ Hs) id s (li_ids _ _ Hi id ltac:(by eexists)) Hx) as (s1 & H1 & E1).
  destruct (IH (log_step_inv _ _ _ Hi Hs) s1 H1) as (s2 & H2 & E2). exists s2. split; [done|congruence].
Qed.

(** ** Pages *)

Section Page.
Context (Size : Wire.ProtoMessage -> Z) (format : event_format Size) (payloadToWire : Kind -> string -> option string).
Context (l : Limits) (runID : string) (run_token : token_ok 128 runID).

Local Abbreviation wire := (wire_event payloadToWire).

(** Events of the run as the log has them: numbered from [first] on. *)
Definition numbered_from (first : Z) (events : list Envelope) : Prop := map env_sequence events = seqZ first (lenZ events).

Lemma numbered_from_cons first e events : numbered_from first (e :: events) <-> env_sequence e = first /\ numbered_from (first + 1) events.
Proof.
  unfold numbered_from. rewrite lenZ_cons. pose proof (lenZ_nonneg events). cbn [map]. rewrite seqZ_cons by lia.
  replace (Z.pred (1 + lenZ events)) with (lenZ events) by lia. replace (Z.succ first) with (first + 1) by lia.
  split; [intros [= -> ->]; by split|intros [-> ->]; done].
Qed.

Definition run_events (first : Z) (events : list Envelope) : Prop :=
  numbered_from first events /\ Forall (fun e => env_runID e = runID) events /\ Forall (event_ready payloadToWire l) events.

Lemma run_events_cons first e events : run_events first (e :: events) <->
  env_sequence e = first /\ env_runID e = runID /\ event_ready payloadToWire l e /\ run_events (first + 1) events.
Proof. unfold run_events. rewrite numbered_from_cons, !Forall_cons. tauto. Qed.

Lemma events_to_wire_ready events : forall first, 1 <= first -> run_events first events -> events_to_wire payloadToWire events = Some (map wire events).
Proof using run_token.
  induction events as [|e events IH]; intros first Hf He; [done|]. apply run_events_cons in He as (Hs & Hr & He & Hes). cbn [events_to_wire map].
  destruct (eventToWire_ready payloadToWire l e) as [-> _]; [by rewrite Hr|lia|done|]. by rewrite (IH (first + 1)) by (done || lia).
Qed.

Lemma batch_ready events : forall first, 1 <= first -> run_events first events -> numbered_events runID first (map (fun e => Some (wire e)) events).
Proof using run_token.
  induction events as [|e events IH]; intros first Hf He; [by intros i x|]. apply run_events_cons in He as (Hs & Hr & He & Hes). cbn [map].
  apply numbered_cons. split; [|by apply IH; [lia|]]. exists (wire e). destruct (eventToWire_ready payloadToWire l e) as [_ Hv]; [by rewrite Hr|lia|done|].
  by split_and!.
Qed.

Lemma ready_sizes events : forall first, 1 <= first -> first + lenZ events <= maxUint64 + 1 -> run_events first events ->
  sumZ (EngineContract.event_size Size) (map (fun e => Some (wire e)) events) <= sumZ EncodedSize events
  /\ Forall (fun e => fits Size (Wire.MStreamEventsResponse (event_frame (wire e))) l = None /\ ValidateRunEvent (Some (wire e)) = None) events.
Proof using format run_token.
  induction events as [|e events IH]; intros first Hf Hm He; [by split|]. apply run_events_cons in He as (Hs & Hr & He & Hes). cbn [map].
  rewrite !sumZ_cons. rewrite lenZ_cons in Hm. pose proof (lenZ_nonneg events). destruct (IH (first + 1)) as [H1 H2]; [lia|lia|done|].
  destruct (wire_event_fits Size payloadToWire l e) as [Hsz Hfit]; [done|by rewrite Hr|done|unfold uint64_ok; lia|].
  destruct (eventToWire_ready payloadToWire l e) as [_ Hv]; [by rewrite Hr|lia|done|].
  split; [change (EngineContract.event_size Size (Some (wire e))) with (Size (Wire.MRunEvent (wire e))); lia|]. by constructor.
Qed.

Context (limits_valid : ValidateLimits (Some l) = None) (replay_bytes : 0 <= wl_maxReplayBytes l < 2 ^ 63)
  (message_bytes : 128 <= wl_maxMessageBytes l).

Lemma ok_control_valid page : 1 <= pg_earliest page -> pg_earliest page - 1 <= pg_last page <= pg_latest page -> pg_latest page <= maxUint64 ->
  (pg_earliest page = pg_latest page + 1 -> pg_latest page < maxUint64) ->
  (pg_hasMore page = true <-> pg_last page < pg_latest page) -> (pg_tailing page = true -> pg_hasMore page = false) ->
  ValidateStreamControl (Some (ok_control page)) = None /\ validateEventResponse Size (event_control (ok_control page)) l = None.
Proof using format message_bytes.
  intros He Hl Hmax Hempty Hm Ht. assert (ValidateStreamControl (Some (ok_control page)) = None) as Hv.
  { unfold ValidateStreamControl. cbn [ok_control Wire.sc_status]. change (ValidateStatus (Some OKStatus)) with (@None error). cbn [GetCode OKStatus st_code].
    rewrite Z.eqb_refl. cbn [negb]. unfold validateSuccessfulStreamControl. cbn [ok_control Wire.sc_earliestSequence Wire.sc_latestSequence Wire.sc_pageLastSequence].
    rewrite seq_None, when_None. split.
    - unfold validWindow, emptyWindow. destruct (Z.eq_dec (pg_earliest page) (pg_latest page + 1)) as [E|E].
      + specialize (Hempty E). rewrite u64_id by (unfold uint64_ok; lia). rewrite E, Z.eqb_refl, !Z.gtb_ltb, !(proj2 (Z.ltb_lt _ _)) by lia. by rewrite andb_false_r.
      + rewrite Z.gtb_ltb, (proj2 (Z.ltb_lt _ _)), Z.geb_leb, (proj2 (Z.leb_le _ _)) by lia. done.
    - unfold validateCurrentStreamControl. cbn [ok_control Wire.sc_lastDeliveredSequence Wire.sc_hasMore Wire.sc_tailing].
      rewrite (u64_id (pg_earliest page - 1)) by (unfold uint64_ok; lia). rewrite !seq_None, !when_None, !orb_false_iff, !Z.ltb_ge, !Z.gtb_ltb, !Z.ltb_ge.
      split; [lia|]. assert (pg_hasMore page = (pg_last page <? pg_latest page)) as Em.
      { destruct (Z.ltb_spec (pg_last page) (pg_latest page)); [by apply Hm|]. destruct (pg_hasMore page); [|done]. assert (pg_last page < pg_latest page) by (by apply Hm). lia. }
      split; [by rewrite Em, eqb_reflx|]. destruct (pg_tailing page); [|by rewrite andb_false_r]. rewrite (Ht eq_refl) in *. split; [done|].
      symmetry in Em. apply Z.ltb_ge in Em. rewrite (proj2 (Z.eqb_eq _ _)) by lia. done. }
  split; [exact Hv|]. unfold validateEventResponse. cbn [event_control Wire.ep_payload]. rewrite Hv. unfold fits. fold (event_control (ok_control page)).
  rewrite (ev_control_frame _ format) by (unfold control_sized, uint64_ok; cbn; split_and!; (done || lia)). apply ValidateEncodedSize_None.
  assert (0 <= stream_control_size (ok_control page) <= 52) as Hc.
  { unfold stream_control_size. cbn [ok_control Wire.sc_status Wire.sc_earliestSequence Wire.sc_latestSequence Wire.sc_lastDeliveredSequence Wire.sc_tailing Wire.sc_pageLastSequence Wire.sc_hasMore optional_field].
    change (message_field (plain_status_size OKStatus)) with 4. pose proof (uint_field_le (pg_earliest page)). pose proof (uint_field_le (pg_latest page)). pose proof (uint_field_le (pg_last page)).
    pose proof (varint_size_pos (pg_last page)). pose proof (varint_size_le (pg_last page) 10). change (2 ^ (7 * 10)) with 1180591620717411303424 in *. unfold maxUint64 in *.
    assert (0 <= bool_field (pg_tailing page) <= 2 /\ 0 <= bool_field (pg_hasMore page) <= 2) by (by destruct (pg_tailing page), (pg_hasMore page)). lia. }
  pose proof (message_field_le (stream_control_size (ok_control page)) 1). pose proof (message_field_ge (stream_control_size (ok_control page))).
  change (2 ^ (7 * 1)) with 128 in *. lia.
Qed.

Lemma all_sendable_ready first events : 1 <= first -> first + lenZ events <= maxUint64 + 1 -> run_events first events ->
  all_sendable Size (map event_frame (map wire events)) l = true.
Proof using format run_token.
  intros Hf Hm He. destruct (ready_sizes events first Hf Hm He) as [_ H]. unfold all_sendable. apply forallb_forall. intros frame Hin.
  apply in_map_iff in Hin as (v & <- & Hin). apply in_map_iff in Hin as (e & <- & Hin). apply list_elem_of_In in Hin.
  apply (proj1 (Forall_forall _ _) H) in Hin as [Hfit Hv]. unfold validateEventResponse. cbn [event_frame Wire.ep_payload]. fold (event_frame (wire e)).
  by rewrite Hv, Hfit.
Qed.

Lemma last_wire events after first : first = after + 1 -> numbered_from first events ->
  match last (map wire events) with Some e => Wire.re_sequence e | None => after end = after + lenZ events.
Proof.
  intros ->. destruct events as [|e events _] using rev_ind; [intros _; rewrite lenZ_nil; cbn; lia|].
  unfold numbered_from. rewrite !map_app, lenZ_app. change (lenZ [e]) with 1. cbn [map]. rewrite last_snoc. cbn [wire_event Wire.re_sequence].
  intros H. assert ((map env_sequence events ++ [env_sequence e]) !! length events = Some (env_sequence e)) as Hl.
  { rewrite lookup_app_r by (rewrite length_map; lia). rewrite length_map, Nat.sub_diag. done. }
  rewrite H in Hl. apply lookup_seqZ in Hl as [-> _]. unfold lenZ. lia.
Qed.

(** A page the log could give is accepted. *)
Lemma page_prepared wreq page : Wire.eq_runID wreq = runID -> run_events (Wire.eq_afterSequence wreq + 1) (pg_events page) ->
  0 <= Wire.eq_afterSequence wreq -> lenZ (pg_events page) <= Wire.eq_replayLimit wreq -> Wire.eq_replayLimit wreq <= wl_maxReplayEvents l ->
  sumZ EncodedSize (pg_events page) <= wl_maxReplayBytes l -> pg_last page = Wire.eq_afterSequence wreq + lenZ (pg_events page) ->
  1 <= pg_earliest page -> pg_earliest page - 1 <= pg_last page <= pg_latest page -> pg_latest page <= maxUint64 ->
  (pg_earliest page = pg_latest page + 1 -> pg_latest page < maxUint64) -> (pg_hasMore page = true <-> pg_last page < pg_latest page) ->
  pg_tailing page = bool_decide (is_Some (pg_tail page)) -> (pg_tailing page = true -> Wire.eq_tail wreq = true /\ pg_hasMore page = false) ->
  prepareEventPage Size payloadToWire wreq page l = Some (map wire (pg_events page), ok_control page).
Proof using format run_token limits_valid replay_bytes message_bytes.
  intros Hrun He Ha Hn Hne Hb Hlast H1 H2 H3 H4 Hmore Htail Htl. unfold prepareEventPage.
  rewrite Htail at 1. rewrite eqb_reflx. cbn [negb orb].
  assert (pg_hasMore page && pg_tailing page = false /\ pg_tailing page && negb (Wire.eq_tail wreq) = false) as [-> ->].
  { destruct (pg_tailing page); [|by rewrite andb_false_r]. destruct (Htl eq_refl) as [-> ->]. done. }
  rewrite Z.gtb_ltb, (proj2 (Z.ltb_ge _ _)) by lia. cbn [orb]. rewrite (events_to_wire_ready _ (Wire.eq_afterSequence wreq + 1)) by (done || lia).
  assert (ValidateEventBatch Size (Wire.eq_runID wreq) (Wire.eq_afterSequence wreq) (map Some (map wire (pg_events page))) (Some l) = None) as ->.
  { rewrite map_map, Hrun. pose proof (lenZ_nonneg (pg_events page)). apply event_batch_None; [apply (ev_int _ format)|done|unfold uint64_ok; lia|]. split_and!; [done|done| | | |].
    - unfold lenZ in *. rewrite length_map. lia.
    - unfold lenZ in *. rewrite length_map. lia.
    - apply batch_ready; [lia|done].
    - destruct (ready_sizes (pg_events page) (Wire.eq_afterSequence wreq + 1)) as [Hs _]; [lia|lia|done|]. lia. }
  cbn [set]. rewrite (last_wire _ _ (Wire.eq_afterSequence wreq + 1) eq_refl (proj1 He)), <- Hlast, Z.eqb_refl. cbn [negb].
  destruct (ok_control_valid page H1 H2 H3 H4 Hmore) as [-> ->]; [intros Ht; by destruct (Htl Ht)|]. cbn [set].
  rewrite (all_sendable_ready (Wire.eq_afterSequence wreq + 1)) by (done || lia). done.
Qed.
End Page.

Lemma numbered_from_app first a : forall b, numbered_from first (a ++ b) <-> numbered_from first a /\ numbered_from (first + lenZ a) b.
Proof.
  revert first. induction a as [|e a IH]; intros first b.
  - cbn [app]. rewrite lenZ_nil, Z.add_0_r. split; [by split|by intros [_ ?]].
  - cbn [app]. rewrite !numbered_from_cons, IH, lenZ_cons. replace (first + 1 + lenZ a) with (first + (1 + lenZ a)) by lia. tauto.
Qed.

(** ** The relayed stream *)

Section Relay.
Context (Size : Wire.ProtoMessage -> Z) (payloadToWire : Kind -> string -> option string) (transport : nat -> bool) (page : ReplayPage) (l : Limits).

(** The stream without any contract check. *)
Fixpoint send_all (n : nat) (frames : list Wire.StreamEventsResponse) : list Wire.StreamEventsResponse * bool :=
  match frames with
  | [] => ([], true)
  | frame :: rest => if transport n then let '(sent, done) := send_all (S n) rest in (frame :: sent, done) else ([], false)
  end.

Fixpoint relay_tail (n : nat) (events : list tail_event) : list Wire.StreamEventsResponse * option event_end :=
  match events with
  | [] => ([], None)
  | TailFenced streamDone :: _ => ([], Some (eventFenceResult streamDone))
  | TailClosed err streamDone :: _ => ([], Some (finishEventTail Size l page err streamDone (transport n)))
  | TailEnvelope envelope fenced streamDone :: rest =>
      if fenced then ([], Some (eventFenceResult streamDone))
      else if transport n then
        let '(frames, e) := relay_tail (S n) rest in (event_frame (wire_event payloadToWire envelope) :: frames, e)
      else ([], Some EvTransport)
  end.

Definition relay_events (events : list tail_event) : list Wire.StreamEventsResponse * option event_end :=
  let frames := map event_frame (map (wire_event payloadToWire) (pg_events page)) ++ [event_control (ok_control page)] in
  match send_all 0 frames with
  | (sent, false) => (sent, Some EvTransport)
  | (sent, true) =>
      if negb (pg_tailing page) then (sent, Some EvQuiet)
      else let '(tail, e) := relay_tail (length frames) events in (sent ++ tail, e)
  end.

Definition tail_envelopes (events : list tail_event) : list Envelope :=
  omap (fun e => match e with TailEnvelope envelope _ _ => Some envelope | _ => None end) events.

Lemma send_all_valid frames : forall n, all_sendable Size frames l = true -> sendEventResponses Size transport n l frames = send_all n frames.
Proof.
  induction frames as [|frame frames IH]; intros n H; [done|]. unfold all_sendable in H. cbn [forallb] in H. apply andb_true_iff in H as [Hf H].
  apply negb_true_iff in Hf. cbn [sendEventResponses send_all]. rewrite Hf, (IH (S n)) by done. cbn [orb]. by destruct (transport n).
Qed.

Lemma event_tail_relay runID events : event_format Size -> token_ok 128 runID -> forall n next, 0 <= next -> next + lenZ (tail_envelopes events) <= maxUint64 ->
  run_events payloadToWire l runID (next + 1) (tail_envelopes events) ->
  streamEventTail Size payloadToWire transport n runID page l next events = relay_tail n events.
Proof.
  intros Hf Ht. induction events as [|e events IH]; intros n next Hn Hmax He; [done|]. destruct e as [done_|err done_|envelope fenced done_]; [done..|].
  change (tail_envelopes (TailEnvelope envelope fenced done_ :: events)) with (envelope :: tail_envelopes events) in *.
  pose proof He as He'. apply run_events_cons in He as (Hs & Hr & Hready & He). rewrite lenZ_cons in Hmax. pose proof (lenZ_nonneg (tail_envelopes events)).
  cbn [streamEventTail relay_tail]. destruct fenced; [done|]. rewrite (proj2 (Z.eqb_neq next maxUint64)), u64_id by (unfold uint64_ok; lia).
  rewrite Hs, Z.eqb_refl. cbn [negb orb]. destruct (eventToWire_ready payloadToWire l envelope) as [-> Hv]; [by rewrite Hr|lia|done|].
  change (Wire.re_runID (wire_event payloadToWire envelope)) with (env_runID envelope). rewrite Hr, String.eqb_refl. cbn [negb].
  unfold validateEventResponse at 1. cbn [event_frame Wire.ep_payload]. fold (event_frame (wire_event payloadToWire envelope)).
  destruct (wire_event_fits Size payloadToWire l envelope) as [_ Hfit]; [done|by rewrite Hr|done|unfold uint64_ok; lia|]. rewrite Hv, Hfit. cbn [set].
  change (Wire.re_sequence (wire_event payloadToWire envelope)) with (env_sequence envelope). rewrite Hs, IH by (done || lia). by destruct (transport n).
Qed.
End Relay.

(** ** The stream of a log *)

Lemma history_extends base w w' : log_inv base w -> rtc log_step w w' -> exists more, w_history w' = w_history w ++ more.
Proof.
  intros Hi Hr. induction Hr as [|w0 w1 w2 Hs Hr IH]; [exists []; by rewrite app_nil_r|].
  destruct (le_history _ _ (log_step_extends _ _ Hs)) as (more & E & _). destruct (IH (log_step_inv _ _ _ Hi Hs)) as (more' & E').
  exists (more ++ more'). by rewrite E', E, app_assoc.
Qed.

Lemma entries_sizes_envelopes entries : Forall entry_ok entries -> sumZ le_bytes entries = sumZ EncodedSize (map le_envelope entries).
Proof. induction 1 as [|e entries He _ IH]; [done|]. cbn [map]. rewrite !sumZ_cons, IH. unfold entry_ok in He. by rewrite He. Qed.

(** What a page says about the log, beside its events. *)
Record page_facts (base : Z) (w w' : LogWorld) (request : ReplayRequest) (page : ReplayPage) : Prop := {
  pf_inv : log_inv base w';
  pf_history : w_history w' = w_history w;
  pf_bounds : 1 <= pg_earliest page /\ pg_earliest page - 1 <= rq_after request /\ pg_latest page <= maxUint64
    /\ (pg_earliest page = pg_latest page + 1 -> pg_latest page < maxUint64);
  pf_segment : exists pre left, w_history w = pre ++ pg_events page ++ left /\ lenZ pre = rq_after request - base
    /\ pg_latest page = base + lenZ (w_history w) /\ (pg_hasMore page = true <-> left <> []);
  pf_last : pg_last page = rq_after request + lenZ (pg_events page);
  pf_count : lenZ (pg_events page) <= rq_maxEvents request;
  pf_bytes : sumZ EncodedSize (pg_events page) <= rq_maxBytes request;
  pf_tail : pg_tailing page = bool_decide (is_Some (pg_tail page));
  pf_tailing : pg_tailing page = true -> rq_tail request = true /\ pg_hasMore page = false
    /\ exists id s, pg_tail page = Some id /\ w_subs w' !! id = Some s /\ sub_after s = pg_last page
}.

Lemma replay_shape w ctx request w' page : Log_Replay w ctx request = (w', Ok page) ->
  pg_tailing page = bool_decide (is_Some (pg_tail page))
  /\ (pg_tailing page = true -> rq_tail request = true /\ pg_hasMore page = false /\ log_closed (w_log w) = false)
  /\ exists log' entries page0, replayPageLocked (w_log w) request = (log', Ok (entries, page0)).
Proof.
  unfold Log_Replay. destruct ctx; [done| |done]. destruct (_ || _); [done|]. destruct (_ || _); [done|].
  destruct (replayPageLocked (w_log w) request) as [log' [[entries page0]|err]] eqn:E; [|done]. destruct (_ && _) eqn:Ec.
  - destruct (registerSubscriptionLocked _ _ _ _) as [w1 id]. intros [= <- <-]. cbn [pg_tailing pg_tail pg_hasMore]. apply andb_prop in Ec as [Ec Ecl]. apply andb_prop in Ec as [Et Em].
    apply negb_true_iff in Ecl, Em. split; [by rewrite bool_decide_eq_true_2 by (by eexists)|]. split; [done|eauto].
  - intros [= <- <-]. cbn [pg_tailing pg_tail pg_hasMore]. split; [done|]. split; [done|eauto].
Qed.

Lemma replay_facts base w ctx request w' page : log_inv base w -> Log_Replay w ctx request = (w', Ok page) -> page_facts base w w' request page.
Proof.
  intros Hi E. destruct (replay_shape _ _ _ _ _ E) as (Ht & Htl & log' & es & p0 & Ep). pose proof (replay_spec base w ctx request Hi) as Ho. rewrite E in Ho. cbn [fst snd] in Ho.
  inversion Ho as [| | | | | |w1 entries page1 Hp Hev Hi' Hh Hreg _]; subst. destruct Hp as [(pre & left & Hseg & Hpre & Hmore & _) Hsz Hlast [Hb1 Hb2] Hc Hby].
  assert (lenZ (map le_envelope entries) = lenZ entries) as Hlen by (unfold lenZ; by rewrite length_map).
  pose proof (log_entries_seq _ _ Hi) as [_ Hlow]. pose proof (li_base _ _ Hi). pose proof (li_max _ _ Hi). pose proof (li_last _ _ Hi).
  split; rewrite ?Hev, ?Hlen; try done.
  - split; [lia|]. split.
    + unfold replayPageLocked in Ep. destruct (bounds_spec _ _ Hi) as [Hbo Hout]. rewrite Hbo in Ep. destruct (replayCursorOutside _ _ _) eqn:Eo; [done|]. apply Hout in Eo. lia.
    + split; [lia|]. rewrite Hb1, Hb2. unfold log_low. intros Ee. assert (lenZ (log_entries (w_log w)) = 0) as Hz by lia. apply lenZ_0 in Hz.
      apply (li_nonempty _ _ Hi) in Hz. rewrite Hz, lenZ_nil in *. lia.
  - exists pre, left. split; [done|]. split; [done|]. split; [lia|done].
  - rewrite <- (entries_sizes_envelopes entries Hsz). done.
  - intros Htt. destruct (Htl Htt) as (Hq & Hm & Hcl). split; [done|]. split; [done|]. destruct (Hreg (conj Hq (conj Hm Hcl))) as (_ & id & s & ? & ? & ? & _). by exists id, s.
Qed.

(** The events a page and its tail deliver. *)
Definition delivered (page : ReplayPage) (events : list tail_event) : list Envelope :=
  pg_events page ++ (if pg_tailing page then tail_envelopes events else []).

(** What the tail reads is what the page's subscription received. *)
Definition tail_of (w : LogWorld) (page : ReplayPage) (events : list tail_event) : Prop :=
  pg_tailing page = true -> forall id s, pg_tail page = Some id -> w_subs w !! id = Some s -> tail_envelopes events `prefix_of` sub_received s.

Lemma delivered_segment base w w' w2 request page events : page_facts base w w' request page -> rtc log_step w' w2 -> log_inv base w2 ->
  tail_of w2 page events -> exists pre post, w_history w2 = pre ++ delivered page events ++ post /\ lenZ pre = rq_after request - base.
Proof.
  intros [Hi' Hh _ (pre & left & Hs & Hpre & _ & Hmore) Hlast _ _ _ Htl] Hr Hi2 Ht. unfold delivered. destruct (pg_tailing page) eqn:Et.
  - destruct (Htl eq_refl) as (_ & Hm & id & s & Hid & Hs1 & Ha). assert (left = []) as ->.
    { destruct left; [done|]. assert (pg_hasMore page = true) by (by apply Hmore). congruence. }
    destruct (subscription_kept _ _ _ _ _ Hi' Hr Hs1) as (s2 & Hs2 & Ha2). destruct (Ht Et id s2 Hid Hs2) as [rest Hrest].
    destruct (si_segment _ _ _ (li_subs _ _ Hi2 _ _ Hs2)) as (pre2 & post2 & E2 & Hl2 & _). destruct (history_extends _ _ _ Hi' Hr) as [more Em].
    rewrite Em, Hh, Hs, app_nil_r in E2. exists pre, (rest ++ post2). split; [|done].
    apply app_inj_1 in E2 as [_ E3]; [|unfold lenZ in *; rewrite length_app; lia]. by rewrite Em, Hh, Hs, E3, Hrest, app_nil_r, <- !app_assoc.
  - destruct (history_extends _ _ _ Hi' Hr) as [more Em]. exists pre, (left ++ more). split; [|done]. by rewrite Em, Hh, Hs, app_nil_r, <- !app_assoc.
Qed.

Lemma segment_run payloadToWire l runID base limits w pre segment post : log_reachable runID base limits w -> log_inv base w ->
  w_history w = pre ++ segment ++ post -> Forall (event_ready payloadToWire l) segment ->
  run_events payloadToWire l runID (base + lenZ pre + 1) segment /\ base + lenZ pre + lenZ segment <= maxUint64.
Proof.
  intros Hr Hi E Hready. destruct (reachable_run _ _ _ _ Hr) as [_ Hrun]. pose proof (li_history _ _ Hi) as Hn.
  change (numbered_from (base + 1) (w_history w)) in Hn. rewrite E in Hn, Hrun. apply numbered_from_app in Hn as [_ Hn]. apply numbered_from_app in Hn as [Hn _].
  apply Forall_app in Hrun as [_ Hrun]. apply Forall_app in Hrun as [Hrun _].
  pose proof (li_last _ _ Hi) as Hl. pose proof (li_max _ _ Hi). rewrite E, !lenZ_app in Hl. pose proof (lenZ_nonneg post). split; [|lia].
  split; [|done]. by replace (base + lenZ pre + 1) with (base + 1 + lenZ pre) by lia.
Qed.

Lemma reachable_rtc runID base limits w w' : log_reachable runID base limits w -> rtc log_step w w' -> log_reachable runID base limits w'.
Proof. intros (log & Hn & Hr) H. exists log. split; [done|]. by etrans. Qed.

Lemma replay_step w ctx request w' page : Log_Replay w ctx request = (w', Ok page) -> log_step w w'.
Proof. intros E. replace w' with (Log_Replay w ctx request).1 by (by rewrite E). constructor. Qed.

Lemma left_more {A} (left : list A) (last latest : Z) : latest = last + lenZ left -> left <> [] <-> last < latest.
Proof. intros ->. destruct left as [|x left]; [rewrite lenZ_nil; split; [done|lia]|]. rewrite lenZ_cons. pose proof (lenZ_nonneg left). split; [lia|done]. Qed.

(** The request as the observation and the log have it. *)
Record same_request (runID : string) (l : Limits) (wreq : Wire.StreamEventsRequest) (request : ReplayRequest) : Prop := {
  sr_run : Wire.eq_runID wreq = runID;
  sr_after : Wire.eq_afterSequence wreq = rq_after request;
  sr_limit : Wire.eq_replayLimit wreq = rq_maxEvents request /\ rq_maxEvents request <= wl_maxReplayEvents l;
  sr_bytes : rq_maxBytes request = wl_maxReplayBytes l;
  sr_tail : Wire.eq_tail wreq = rq_tail request
}.


(** *** A sample stream *)

(** The wire format on the messages of the stream, saturating. *)
Definition event_stream_size (m : Wire.ProtoMessage) : Z :=
  let within n := Z.max 0 (Z.min (2 ^ 63 - 1) n) in
  match m with
  | Wire.MRunEvent e => within (run_event_size e)
  | Wire.MStreamEventsResponse (Wire.mkStreamEventsResponse (Some (Wire.Payload_Event (Some e)))) => within (message_field (run_event_size e))
  | Wire.MStreamEventsResponse (Wire.mkStreamEventsResponse (Some (Wire.Payload_EventControl (Some c)))) => within (message_field (stream_control_size c))
  | _ => 0
  end.

Lemma bool_field_le b : 0 <= bool_field b <= 2.
Proof. by destruct b. Qed.

Lemma run_event_size_sized e : event_sized e -> 0 <= run_event_size e <= 2 ^ 33.
Proof.
  intros (Hs & [_ Hq] & Ht & Hk). unfold run_event_size. pose proof (bytes_field_le (Wire.re_runID e) 5). pose proof (bytes_field_le (Wire.re_payloadJSON e) 5).
  pose proof (slen_nonneg (Wire.re_runID e)). pose proof (slen_nonneg (Wire.re_payloadJSON e)). pose proof (uint_field_le _ Hq).
  pose proof (uint_field_le (Wire.re_kind e)). pose proof (bool_field_le (Wire.re_terminal e)).
  assert (0 <= int64_field (Wire.re_unixNano e) <= 11).
  { unfold int64_field. destruct (_ =? 0); [lia|]. destruct (_ <? 0); [lia|]. pose proof (varint_size_pos (Wire.re_unixNano e)). pose proof (varint_size_le (Wire.re_unixNano e) 10). lia. }
  unfold maxUint64 in *. change (2 ^ (7 * 5)) with 34359738368 in *. lia.
Qed.

Lemma stream_control_size_sized c : control_sized c -> 0 <= stream_control_size c <= 64.
Proof.
  intros (Hst & [_ H1] & [_ H2] & [_ H3] & H4). unfold stream_control_size. rewrite Hst. change (message_field (plain_status_size OKStatus)) with 4.
  pose proof (uint_field_le _ H1). pose proof (uint_field_le _ H2). pose proof (uint_field_le _ H3).
  pose proof (bool_field_le (Wire.sc_tailing c)). pose proof (bool_field_le (Wire.sc_hasMore c)).
  assert (0 <= optional_field (Wire.sc_pageLastSequence c) <= 11); [|lia]. unfold optional_field. destruct (Wire.sc_pageLastSequence c) as [n|]; [|lia].
  destruct H4 as [_ H4]. pose proof (varint_size_pos n). pose proof (varint_size_le n 10). unfold maxUint64 in H4. lia.
Qed.

Lemma event_stream_format : event_format event_stream_size.
Proof.
  split.
  - intros m. unfold event_stream_size. repeat (case_match; try lia).
  - intros e He. pose proof (run_event_size_sized e He). cbn. lia.
  - intros e He. pose proof (run_event_size_sized e He) as Hs. pose proof (message_field_le (run_event_size e) 5). pose proof (message_field_ge (run_event_size e)). cbn. lia.
  - intros c Hc. pose proof (stream_control_size_sized c Hc) as Hs. pose proof (message_field_le (stream_control_size c) 5). pose proof (message_field_ge (stream_control_size c)).
    cbn. lia.
Qed.

Definition tail_start : LogWorld := do_append (mkWorld sample_log ∅ []) (sample_event 1 RunStarted).
Definition tail_request : ReplayRequest := mkRequest 0 4 1024 true.
Definition tail_end : LogWorld :=
  do_deliver ASend 1 (do_deliver ATake 1 (do_append (Log_Replay tail_start CtxLive tail_request).1 (sample_event 2 TurnStarted))).
Definition tail_limits : Limits := mkWireLimits (2 ^ 20) 4096 8 1024 4 2.
Definition tail_page : ReplayPage := mkPage 1 1 1 [sample_event 1 RunStarted] false true (Some 1).
Definition tail_events : list tail_event := [TailEnvelope (sample_event 2 TurnStarted) false false; TailFenced true].

Lemma append_steps w e : rtc log_step w (do_append w e).
Proof. unfold do_append. destruct (Log_Append w e) as [[w' r]|] eqn:E; [|apply rtc_refl]. apply rtc_once. by eapply step_append. Qed.
Lemma deliver_steps w action id : rtc log_step w (do_deliver action id w).
Proof. unfold do_deliver. destruct (world_deliver action id w) as [w'|] eqn:E; [|apply rtc_refl]. apply rtc_once. by eapply step_deliver. Qed.

Lemma sample_event_ready sequence kind : validKind kind = true -> event_ready (fun _ data => Some data) tail_limits (sample_event sequence kind).
Proof.
  intros Hk. split; [done|split; [by vm_compute|eexists; by vm_compute]|by left|]. exists ""%string.
  assert (eventPayloadToWire (fun _ data => Some data) (sample_event sequence kind) = Some ""%string) as -> by (unfold eventPayloadToWire; by destruct (one_of _ _)).
  split; [done|]. split; [by left|]. by vm_compute.
Qed.

