(* ===== verification/SnapshotAuthority.v ===== *)
(** Authenticated snapshots (src/engine/v1/snapshot_authority.go): the canonical
    form of what is signed, HMAC authorities, snapshot envelopes and the checks
    an import passes, with [ValidateExportSnapshotResponse] of unary_contract.go.

    [proto.Size] is the parameter [Size], and [strconv.Quote] of one error text
    is the parameter [Quote].  A context is nil or what [context.Cause] answers
    at each of its successive observations. *)
From Stdlib Require Import ZArith Lia.
From stdpp Require Import base list strings pretty.
From S2P Require Import Prelude GoText GoOrder GoJson Tool GoCrypto GoJsonTree CommonContract EngineWire EngineContract WireFormat.
Open Scope Z_scope.

Definition SnapshotFormat : string := "spice.agent.snapshot/v1alpha3".
Definition snapshotAuthorityDomain : string := "spice.agent.run-authority/v1".
Definition snapshotAuthorityBytes : Z := 32.

(** ** Errors and contexts *)

Inductive context_cause := Canceled | DeadlineExceeded | OtherCause.
Inductive authority_error :=
| ErrSnapshotAuthoritySigning
| ErrSnapshotAuthorityVerification
| ErrContextRequired
| ErrCause (cause : context_cause)
| ErrOf (e : error).

Definition Ctx := option (nat -> option context_cause).

Definition contextCause (ctx : Ctx) (at_ : nat) : option authority_error :=
  match ctx with
  | None => Some ErrContextRequired
  | Some cause => ErrCause <$> cause at_
  end.

(** ** Canonical input *)

Record SnapshotAuthorityInput := mkInput {
  in_format : string;
  in_runID : string;
  in_lastSequence : Z;
  in_lifecycle : Z;
  in_payloadSHA256 : string
}.

Definition safeSnapshotLifecycle (value : Z) : bool :=
  existsb (Z.eqb value)
    [Wire.SNAPSHOT_LIFECYCLE_SUSPENDED; Wire.SNAPSHOT_LIFECYCLE_COMPLETED; Wire.SNAPSHOT_LIFECYCLE_FAILED; Wire.SNAPSHOT_LIFECYCLE_CANCELLED].

Definition input_validate (input : SnapshotAuthorityInput) : option error :=
  when (negb (String.eqb (in_format input) SnapshotFormat)) "snapshot authority input format is unsupported"
  >>> token "snapshot authority input run ID" (in_runID input) 128
  >>> when ((in_lastSequence input =? 0) || (in_lastSequence input =? maxUint64))
        "snapshot authority input sequence must be positive and resumable"
  >>> when (negb (safeSnapshotLifecycle (in_lifecycle input))) "snapshot authority input lifecycle is unsafe"
  >>> when (negb (slen (in_payloadSHA256 input) =? 32)) "snapshot authority input payload digest must be SHA-256".

Definition canonical_fields (input : SnapshotAuthorityInput) (scopeID : string) (generation : Z) : list string :=
  [snapshotAuthorityDomain; scopeID; of_codes (big_endian 8 generation); in_format input; in_runID input;
   of_codes (big_endian 8 (in_lastSequence input)); of_codes (big_endian 4 (in_lifecycle input)); in_payloadSHA256 input].

Definition Input_Canonical (input : SnapshotAuthorityInput) (scopeID : string) (generation : Z) : result error string :=
  match input_validate input with
  | Some err => Err err
  | None =>
      if negb (slen scopeID =? snapshotAuthorityBytes) then Err (Errorf "snapshot authority scope ID must be exactly 32 bytes")
      else if generation =? 0 then Err (Errorf "snapshot authority generation must be positive")
      else Ok (of_codes (concat (map fingerprint_field (canonical_fields input scopeID generation))))
  end.

(** ** HMAC authorities *)

Record HMACSnapshotAuthority := mkHMACAuthority { ha_scopeID : string; ha_generation : Z; ha_key : string }.

Definition NewHMACSnapshotAuthority (scopeID : string) (generation : Z) (key : string) : result error HMACSnapshotAuthority :=
  if negb (slen scopeID =? snapshotAuthorityBytes) then Err (Errorf "snapshot authority scope ID must be exactly 32 bytes")
  else if generation =? 0 then Err (Errorf "snapshot authority generation must be positive")
  else if negb (slen key =? snapshotAuthorityBytes) then Err (Errorf "snapshot authority key must be exactly 32 bytes")
  else Ok (mkHMACAuthority scopeID generation key).

Definition HMAC_SignSnapshot (authority : option HMACSnapshotAuthority) (ctx : Ctx) (at_ : nat) (input : SnapshotAuthorityInput)
  : result authority_error Wire.SnapshotAuthority :=
  match authority with
  | None => Err ErrSnapshotAuthoritySigning
  | Some a =>
      match contextCause ctx at_ with
      | Some err => Err err
      | None =>
          match Input_Canonical input (ha_scopeID a) (ha_generation a) with
          | Err _ => Err ErrSnapshotAuthoritySigning
          | Ok canonical => Ok (Wire.mkSnapshotAuthority (ha_scopeID a) (ha_generation a) (hmac_sha256 (ha_key a) canonical))
          end
      end
  end.

Definition ValidateSnapshotAuthority (value : option Wire.SnapshotAuthority) : option error :=
  match value with
  | None => Some (Errorf "snapshot authority is required")
  | Some v =>
      when (negb (slen (Wire.sa_scopeID v) =? snapshotAuthorityBytes)) "snapshot authority scope ID must be exactly 32 bytes"
      >>> when (Wire.sa_generation v =? 0) "snapshot authority generation must be positive"
      >>> when (negb (slen (Wire.sa_hmacSHA256 v) =? snapshotAuthorityBytes)) "snapshot authority HMAC-SHA256 must be exactly 32 bytes"
  end.

Definition HMAC_VerifySnapshot (authority : option HMACSnapshotAuthority) (ctx : Ctx) (at_ : nat) (input : SnapshotAuthorityInput)
  (claim : option Wire.SnapshotAuthority) : option authority_error :=
  match authority with
  | None => Some ErrSnapshotAuthorityVerification
  | Some a =>
      match contextCause ctx at_ with
      | Some err => Some err
      | None =>
          match claim, ValidateSnapshotAuthority claim with
          | Some c, None =>
              match Input_Canonical input (Wire.sa_scopeID c) (Wire.sa_generation c) with
              | Err _ => Some ErrSnapshotAuthorityVerification
              | Ok canonical =>
                  let expected := hmac_sha256 (ha_key a) canonical in
                  if negb (String.eqb (Wire.sa_scopeID c) (ha_scopeID a)) || negb (Wire.sa_generation c =? ha_generation a)
                     || negb (String.eqb (Wire.sa_hmacSHA256 c) expected)
                  then Some ErrSnapshotAuthorityVerification else None
              end
          | _, _ => Some ErrSnapshotAuthorityVerification
          end
      end
  end.

(** ** Envelopes *)

(** [json.Unmarshal] of the payload into the struct with the field [run_id]. *)
Definition payload_identity (payload : string) : option string :=
  v ← parse_document payload;
  decode_struct (fun key v current => if field_is "run_id" key then decode_string v current else Some current) v ""%string.

Section Envelopes.
Context (Size : Wire.ProtoMessage -> Z) (Quote : string -> string).

Definition validateSnapshotEnvelopeContent (value : option Wire.SnapshotEnvelope) : option error :=
  match value with
  | None => Some (Errorf "snapshot envelope is required")
  | Some v =>
      when (negb (String.eqb (Wire.se_format v) SnapshotFormat)) ("snapshot format " +:+ Quote (Wire.se_format v) +:+ " is unsupported")
      >>> token "snapshot run ID" (Wire.se_runID v) 128
      >>> when ((Wire.se_lastSequence v =? 0) || (Wire.se_lastSequence v =? maxUint64)) "snapshot sequence must be positive and resumable"
      >>> when (negb (safeSnapshotLifecycle (Wire.se_lifecycle v))) ("snapshot lifecycle " +:+ pretty (Wire.se_lifecycle v) +:+ " is unsafe")
      >>> when ((slen (Wire.se_payload v) =? 0) || (slen (Wire.se_payload v) >? MaximumSnapshotBytes))
            ("snapshot payload must be between 1 and " +:+ pretty MaximumSnapshotBytes +:+ " bytes")
      >>> when (negb (String.eqb (Wire.se_sha256 v) (sha256 (Wire.se_payload v)))) "snapshot SHA-256 digest does not match its payload"
      >>> match payload_identity (Wire.se_payload v) with
          | None => Some (Errorf "snapshot payload must be valid v1alpha3 JSON")
          | Some runID => when (negb (String.eqb runID (Wire.se_runID v))) "snapshot envelope run ID does not match its embedded run ID"
          end
  end.

Definition ValidateSnapshotEnvelope (value : option Wire.SnapshotEnvelope) : option error :=
  validateSnapshotEnvelopeContent value
  >>> match value with
      | None => None
      | Some v =>
          when (negb (lenZ (Wire.se_unknown v) =? 0)) "snapshot envelope contains unsupported fields"
          >>> when (Size (Wire.MSnapshotEnvelope v) >? MaximumSnapshotEnvelopeBytes)
                ("snapshot envelope exceeds " +:+ pretty MaximumSnapshotEnvelopeBytes +:+ " encoded bytes")
          >>> ValidateSnapshotAuthority (Wire.se_authority v)
      end.

Definition snapshotAuthorityInput (v : Wire.SnapshotEnvelope) : SnapshotAuthorityInput :=
  mkInput (Wire.se_format v) (Wire.se_runID v) (Wire.se_lastSequence v) (Wire.se_lifecycle v) (Wire.se_sha256 v).

(** What a signer, which may keep state, answers. *)
Inductive signer_answer := Signed (claim : option Wire.SnapshotAuthority) | SignFailed (err : authority_error) | SignPanicked.

Definition callSnapshotSigner (answer : signer_answer) : result authority_error (option Wire.SnapshotAuthority) :=
  match answer with
  | Signed claim => Ok claim
  | SignFailed (ErrCause Canceled) => Err (ErrCause Canceled)
  | SignFailed (ErrCause DeadlineExceeded) => Err (ErrCause DeadlineExceeded)
  | SignFailed _ | SignPanicked => Err ErrSnapshotAuthoritySigning
  end.

(** The signer is the transition [sign] of its state; it observes the context
    from [1] on. *)
Definition NewSnapshotEnvelope {St} (sign : St -> SnapshotAuthorityInput -> St * signer_answer) (signer : option St) (ctx : Ctx)
  (runID : string) (lastSequence lifecycle : Z) (payload : string) : option St * result authority_error Wire.SnapshotEnvelope :=
  match signer with
  | None => (None, Err ErrSnapshotAuthoritySigning)
  | Some st =>
      match contextCause ctx 0 with
      | Some err => (Some st, Err err)
      | None =>
          let unsigned := Wire.mkSnapshotEnvelope SnapshotFormat runID lastSequence lifecycle payload (sha256 payload) None [] in
          match validateSnapshotEnvelopeContent (Some unsigned) with
          | Some err => (Some st, Err (ErrOf err))
          | None =>
              let '(st, answer) := sign st (snapshotAuthorityInput unsigned) in
              (Some st, match callSnapshotSigner answer with
               | Err err => Err err
               | Ok authority =>
                   let result := Wire.mkSnapshotEnvelope SnapshotFormat runID lastSequence lifecycle payload (sha256 payload) authority [] in
                   if set (ValidateSnapshotEnvelope (Some result)) then Err ErrSnapshotAuthoritySigning else Ok result
               end)
          end
      end
  end.

Definition ValidateImportSnapshotRequestStructure (request : option Wire.ImportSnapshotRequest) (limits : option Limits) : option error :=
  match request with
  | None => Some (Errorf "import snapshot request is required")
  | Some r =>
      validateClientMutation (Wire.jq_clientID r) (Wire.jq_ownershipEpoch r) (Wire.jq_clientOperationID r)
      >>> validateUnarySize Size (Wire.MImportSnapshotRequest r) limits
      >>> ValidateSnapshotEnvelope (Wire.jq_snapshot r)
      >>> when (negb (match Wire.jq_snapshot r with Some v => Wire.se_lifecycle v =? Wire.SNAPSHOT_LIFECYCLE_SUSPENDED | None => false end))
            "only a suspended snapshot may be imported"
  end.

(** The verifier answers nil, an error, or panics; [ctx] is observed after it
    at [at_]. *)
Inductive verifier_answer := Verified | VerifyFailed (err : authority_error) | VerifyPanicked.

Definition callSnapshotVerifier (answer : verifier_answer) (ctx : Ctx) (at_ : nat) : option authority_error :=
  match answer with
  | VerifyPanicked => Some ErrSnapshotAuthorityVerification
  | VerifyFailed _ => match contextCause ctx at_ with Some cause => Some cause | None => Some ErrSnapshotAuthorityVerification end
  | Verified => contextCause ctx at_
  end.

Definition ValidateImportSnapshotRequest (ctx : Ctx) (request : option Wire.ImportSnapshotRequest)
  (verifier : option (SnapshotAuthorityInput -> option Wire.SnapshotAuthority -> verifier_answer)) (limits : option Limits) : option authority_error :=
  match request, verifier with
  | None, _ => Some (ErrOf (Errorf "import snapshot request is required"))
  | Some _, None => Some ErrSnapshotAuthorityVerification
  | Some r, Some verify =>
      match contextCause ctx 0 with
      | Some err => Some err
      | None =>
          match ValidateImportSnapshotRequestStructure (Some r) limits, Wire.jq_snapshot r with
          | Some err, _ => Some (ErrOf err)
          | None, Some v => callSnapshotVerifier (verify (snapshotAuthorityInput v) (Wire.se_authority v)) ctx 2
          | None, None => None
          end
      end
  end.

Definition ValidateExportSnapshotResponse (response : option Wire.ExportSnapshotResponse) (limits : option Limits) : option error :=
  match response with
  | None => Some (Errorf "export snapshot response is required")
  | Some r =>
      validate_response Size (Wire.xr_status r) (bool_decide (is_Some (Wire.xr_snapshot r)))
        "failed export snapshot response contains a snapshot" (Wire.MExportSnapshotResponse r) limits
        (ValidateSnapshotEnvelope (Wire.xr_snapshot r) >>> validateUnarySize Size (Wire.MExportSnapshotResponse r) limits)
  end.
End Envelopes.

(** An HMAC authority as a signer and as a verifier; both observe the context
    once, at [1]. *)
Definition hmac_signer (ctx : Ctx) (a : HMACSnapshotAuthority) (input : SnapshotAuthorityInput) : HMACSnapshotAuthority * signer_answer :=
  (a, match HMAC_SignSnapshot (Some a) ctx 1 input with Ok claim => Signed (Some claim) | Err err => SignFailed err end).
Definition hmac_verifier (ctx : Ctx) (a : HMACSnapshotAuthority) (input : SnapshotAuthorityInput) (claim : option Wire.SnapshotAuthority) : verifier_answer :=
  match HMAC_VerifySnapshot (Some a) ctx 1 input claim with None => Verified | Some err => VerifyFailed err end.

(** ** The canonical form *)

Lemma safe_lifecycle_bounds value : safeSnapshotLifecycle value = true -> 1 <= value <= 4.
Proof. unfold safeSnapshotLifecycle. cbn [existsb]. rewrite !orb_true_iff, !Z.eqb_eq. unfold Wire.SNAPSHOT_LIFECYCLE_SUSPENDED, Wire.SNAPSHOT_LIFECYCLE_COMPLETED, Wire.SNAPSHOT_LIFECYCLE_FAILED, Wire.SNAPSHOT_LIFECYCLE_CANCELLED. lia. Qed.

Lemma input_validate_None input : input_validate input = None <->
  in_format input = SnapshotFormat /\ token_ok 128 (in_runID input) /\ in_lastSequence input <> 0 /\ in_lastSequence input <> maxUint64
  /\ safeSnapshotLifecycle (in_lifecycle input) = true /\ slen (in_payloadSHA256 input) = 32.
Proof.
  unfold input_validate, token. rewrite !seq_None, validateToken_None, !when_None, orb_false_iff, !negb_false_iff, !Z.eqb_neq, Z.eqb_eq, String.eqb_eq. tauto.
Qed.

Lemma Canonical_Ok input scopeID generation b : Input_Canonical input scopeID generation = Ok b <->
  input_validate input = None /\ slen scopeID = 32 /\ generation <> 0 /\ b = of_codes (concat (map fingerprint_field (canonical_fields input scopeID generation))).
Proof.
  unfold Input_Canonical, snapshotAuthorityBytes. generalize (of_codes (concat (map fingerprint_field (canonical_fields input scopeID generation)))). intros bytes.
  destruct (input_validate input); [split; [done|by intros (? & _)]|].
  destruct (Z.eqb_spec (slen scopeID) 32); cbn [negb]; [|split; [done|by intros (_ & ? & _)]].
  destruct (Z.eqb_spec generation 0); [split; [done|by intros (_ & _ & ? & _)]|]. split; [intros [= <-]; done|by intros (_ & _ & _ & ->)].
Qed.

Lemma big_endian_bytes n v : byte_list (big_endian n v).
Proof. induction n as [|n IH]; [constructor|]. cbn [big_endian]. constructor; [apply Z.mod_pos_bound; lia|done]. Qed.

Lemma field_bytes s : byte_list (fingerprint_field s).
Proof. unfold fingerprint_field. apply Forall_app. split; [apply big_endian_bytes|apply byte_codes_bytes]. Qed.

Lemma fields_bytes l : byte_list (concat (map fingerprint_field l)).
Proof. induction l as [|s l IH]; [constructor|]. cbn [map concat]. apply Forall_app. split; [apply field_bytes|done]. Qed.

Lemma of_big_endian_inj n v v' : 0 <= v < 2 ^ (8 * Z.of_nat n) -> 0 <= v' < 2 ^ (8 * Z.of_nat n) -> of_codes (big_endian n v) = of_codes (big_endian n v') -> v = v'.
Proof.
  intros Hv Hv' H. apply (f_equal byte_codes) in H. rewrite !byte_codes_of_codes in H by apply big_endian_bytes.
  apply (f_equal (foldl (fun acc b => acc * 256 + b) 0)) in H. rewrite !decode_big_endian_acc in H by lia. rewrite !Z.mod_small in H by lia. lia.
Qed.

Lemma eight_inj {A} (a b c d e f g h a' b' c' d' e' f' g' h' : A) : [a; b; c; d; e; f; g; h] = [a'; b'; c'; d'; e'; f'; g'; h'] ->
  b = b' /\ c = c' /\ d = d' /\ e = e' /\ f = f' /\ g = g' /\ h = h'.
Proof. intros [=]. by split_and!. Qed.

Lemma slen_big_endian n v : slen (of_codes (big_endian n v)) = Z.of_nat n.
Proof. rewrite slen_of_codes. unfold lenZ. by rewrite big_endian_length. Qed.

Lemma canonical_fields_small input scope generation : input_validate input = None -> slen scope = 32 ->
  Forall (fun s => slen s < two64) (canonical_fields input scope generation).
Proof.
  intros Hv Hs. apply input_validate_None in Hv as (Hf & (_ & _ & _ & Hr) & _ & _ & _ & Hd). unfold canonical_fields.
  rewrite !Forall_cons, !slen_big_endian, Hf, Hs, Hd. unfold two64. change (slen snapshotAuthorityDomain) with 28. change (slen SnapshotFormat) with 29.
  split_and!; try lia. constructor.
Qed.

(** C: What an authority signs determines the snapshot: two canonical forms
    are equal only for the same authority scope and generation, run, sequence,
    lifecycle and payload digest. *)
Theorem canonical_injective input input' scope scope' generation generation' bytes :
  uint64_ok generation -> uint64_ok generation' -> uint64_ok (in_lastSequence input) -> uint64_ok (in_lastSequence input') ->
  Input_Canonical input scope generation = Ok bytes -> Input_Canonical input' scope' generation' = Ok bytes ->
  input = input' /\ scope = scope' /\ generation = generation'.
Proof.
  intros Hg Hg' Hs Hs' H H'. apply Canonical_Ok in H as (Hv & Hsc & _ & ->). apply Canonical_Ok in H' as (Hv' & Hsc' & _ & H').
  pose proof (canonical_fields_small _ _ generation Hv Hsc) as Hsmall. pose proof (canonical_fields_small _ _ generation' Hv' Hsc') as Hsmall'.
  apply input_validate_None in Hv as (_ & _ & _ & _ & Hl & _). apply input_validate_None in Hv' as (_ & _ & _ & _ & Hl' & _).
  apply safe_lifecycle_bounds in Hl, Hl'. unfold uint64_ok, maxUint64 in *.
  apply (f_equal byte_codes) in H'. rewrite !byte_codes_of_codes in H' by apply fields_bytes. apply (fields_inj _ _ Hsmall Hsmall') in H'.
  apply eight_inj in H' as (E1 & E2 & E3 & E4 & E5 & E6 & E7).
  apply of_big_endian_inj in E2; [|change (2 ^ (8 * Z.of_nat 8)) with 18446744073709551616; lia..].
  apply of_big_endian_inj in E5; [|change (2 ^ (8 * Z.of_nat 8)) with 18446744073709551616; lia..].
  apply of_big_endian_inj in E6; [|change (2 ^ (8 * Z.of_nat 4)) with 4294967296; lia..].
  destruct input, input'. cbn [in_format in_runID in_lastSequence in_lifecycle in_payloadSHA256] in *. by subst.
Qed.

(** ** Signing and verifying *)

#[local] Opaque sha256 hmac_sha256 payload_identity.

Lemma new_authority_ok scope generation key a : NewHMACSnapshotAuthority scope generation key = Ok a ->
  a = mkHMACAuthority scope generation key /\ slen scope = 32 /\ generation <> 0.
Proof.
  unfold NewHMACSnapshotAuthority, snapshotAuthorityBytes. destruct (Z.eqb_spec (slen scope) 32); [|done]. destruct (Z.eqb_spec generation 0); [done|].
  cbn [negb]. destruct (_ =? _); [|done]. by intros [= <-].
Qed.

Lemma authority_valid scope generation mac : slen scope = 32 -> generation <> 0 -> slen mac = 32 ->
  ValidateSnapshotAuthority (Some (Wire.mkSnapshotAuthority scope generation mac)) = None.
Proof.
  intros Hs Hg Hm. unfold ValidateSnapshotAuthority, snapshotAuthorityBytes. cbn [Wire.sa_scopeID Wire.sa_generation Wire.sa_hmacSHA256].
  by rewrite Hs, Hm, (proj2 (Z.eqb_neq _ _) Hg).
Qed.

Lemma sign_Ok a ctx at_ input claim : contextCause ctx at_ = None ->
  HMAC_SignSnapshot (Some a) ctx at_ input = Ok claim <->
  exists canonical, Input_Canonical input (ha_scopeID a) (ha_generation a) = Ok canonical
    /\ claim = Wire.mkSnapshotAuthority (ha_scopeID a) (ha_generation a) (hmac_sha256 (ha_key a) canonical).
Proof.
  intros Hc. unfold HMAC_SignSnapshot. rewrite Hc. destruct (Input_Canonical input (ha_scopeID a) (ha_generation a)) as [canonical|err].
  - split; [intros [= <-]; by exists canonical|]. intros (x & [= <-] & ->). done.
  - split; [done|]. by intros (x & ? & _).
Qed.

(** A claim verifies exactly when it is the one the authority signs. *)
Lemma verify_exact scope generation key a ctx at_ input claim : NewHMACSnapshotAuthority scope generation key = Ok a -> contextCause ctx at_ = None ->
  HMAC_VerifySnapshot (Some a) ctx at_ input claim = None <-> exists c, claim = Some c /\ HMAC_SignSnapshot (Some a) ctx at_ input = Ok c.
Proof.
  intros Ha Hc. apply new_authority_ok in Ha as (-> & Hs & Hg). unfold HMAC_VerifySnapshot. rewrite Hc. split.
  - destruct claim as [c|]; [|done]. destruct (ValidateSnapshotAuthority (Some c)) eqn:Ev; [done|].
    destruct (Input_Canonical input (Wire.sa_scopeID c) (Wire.sa_generation c)) as [canonical|err] eqn:Ec; [|done]. cbn [ha_scopeID ha_generation ha_key].
    destruct (String.eqb_spec (Wire.sa_scopeID c) scope) as [E1|]; [|done]. destruct (Z.eqb_spec (Wire.sa_generation c) generation) as [E2|]; [|done].
    destruct (String.eqb_spec (Wire.sa_hmacSHA256 c) (hmac_sha256 key canonical)) as [E3|]; [|done]. intros _. exists c. split; [done|].
    apply sign_Ok; [done|]. exists canonical. cbn [ha_scopeID ha_generation ha_key]. rewrite <- E1, <- E2 in *. split; [done|]. destruct c. cbn in *. by subst.
  - intros (c & -> & H). apply sign_Ok in H as (canonical & Ec & ->); [|done]. cbn [ha_scopeID ha_generation ha_key] in *.
    rewrite authority_valid by (done || apply hmac_length). cbn [Wire.sa_scopeID Wire.sa_generation Wire.sa_hmacSHA256]. rewrite Ec.
    by rewrite !String.eqb_refl, Z.eqb_refl.
Qed.

(** ** Envelopes *)

Definition optional_message (n : option Z) : Z := match n with Some n => message_field n | None => 0 end.
Definition authority_size (a : Wire.SnapshotAuthority) : Z :=
  bytes_field (Wire.sa_scopeID a) + uint_field (Wire.sa_generation a) + bytes_field (Wire.sa_hmacSHA256 a).
Definition snapshot_envelope_size (v : Wire.SnapshotEnvelope) : Z :=
  bytes_field (Wire.se_format v) + bytes_field (Wire.se_runID v) + uint_field (Wire.se_lastSequence v) + uint_field (Wire.se_lifecycle v)
  + bytes_field (Wire.se_payload v) + bytes_field (Wire.se_sha256 v) + optional_message (authority_size <$> Wire.se_authority v).

(** What is used of [proto.Size]: the wire format of an envelope without
    unknown fields. *)
Definition snapshot_format (Size : Wire.ProtoMessage -> Z) : Prop := forall v, Wire.se_unknown v = [] -> Size (Wire.MSnapshotEnvelope v) = snapshot_envelope_size v.

Lemma content_None Quote v : validateSnapshotEnvelopeContent Quote (Some v) = None <->
  Wire.se_format v = SnapshotFormat /\ token_ok 128 (Wire.se_runID v) /\ Wire.se_lastSequence v <> 0 /\ Wire.se_lastSequence v <> maxUint64
  /\ safeSnapshotLifecycle (Wire.se_lifecycle v) = true /\ 0 < slen (Wire.se_payload v) <= MaximumSnapshotBytes
  /\ Wire.se_sha256 v = sha256 (Wire.se_payload v) /\ payload_identity (Wire.se_payload v) = Some (Wire.se_runID v).
Proof.
  unfold validateSnapshotEnvelopeContent, token. rewrite !seq_None, validateToken_None, !when_None, !orb_false_iff, !negb_false_iff, !Z.eqb_neq, Z.gtb_ltb, Z.ltb_ge, !String.eqb_eq.
  pose proof (slen_nonneg (Wire.se_payload v)). destruct (payload_identity (Wire.se_payload v)) as [runID|].
  - rewrite when_None, negb_false_iff, String.eqb_eq. split; [intros (? & ? & (? & ?) & ? & (? & ?) & ? & ->); split_and!; (done || lia)|].
    intros (? & ? & ? & ? & ? & ? & ? & [= ->]). split_and!; (done || lia).
  - split; [by intros (? & ? & ? & ? & ? & ? & ?)|by intros (? & ? & ? & ? & ? & ? & ? & ?)].
Qed.

Lemma content_input Quote v : validateSnapshotEnvelopeContent Quote (Some v) = None -> input_validate (snapshotAuthorityInput v) = None.
Proof.
  intros (Hf & Ht & Hs & Hm & Hl & _ & Hd & _)%content_None. apply input_validate_None. cbn [snapshotAuthorityInput in_format in_runID in_lastSequence in_lifecycle in_payloadSHA256].
  split_and!; try done. by rewrite Hd, sha256_length.
Qed.

(** A signed envelope is at most 295 bytes longer than its payload. *)
Lemma envelope_size_bound Quote v claim : validateSnapshotEnvelopeContent Quote (Some v) = None -> uint64_ok (Wire.se_lastSequence v) ->
  Wire.se_authority v = Some claim -> slen (Wire.sa_scopeID claim) = 32 -> slen (Wire.sa_hmacSHA256 claim) = 32 -> uint64_ok (Wire.sa_generation claim) ->
  snapshot_envelope_size v <= slen (Wire.se_payload v) + MaximumSnapshotEnvelopeOverheadBytes.
Proof.
  intros (Hf & (_ & _ & _ & Hr) & _ & _ & Hl & Hp & Hd & _)%content_None [_ Hs] Ha Hsc Hmac [_ Hg]. apply safe_lifecycle_bounds in Hl.
  unfold snapshot_envelope_size, authority_size. rewrite Ha, Hf, Hd. cbn [fmap option_fmap option_map optional_message].
  unfold bytes_field at 1 4 5 6. rewrite Hsc, Hmac, sha256_length. change (slen SnapshotFormat) with 29. change (32 =? 0) with false. change (29 =? 0) with false. cbv iota.
  change (message_field 29) with 31. change (message_field 32) with 34. pose proof (bytes_field_le (Wire.se_runID v) 2 ltac:(lia)). change (2 ^ (7 * 2)) with 16384 in *.
  pose proof (bytes_field_le (Wire.se_payload v) 4 ltac:(lia)). change (2 ^ (7 * 4)) with 268435456 in *. unfold MaximumSnapshotBytes in Hp. change (Z.shiftl 16 20) with 16777216 in Hp.
  pose proof (uint_field_le _ Hs). pose proof (uint_field_le _ Hg). assert (uint_field (Wire.se_lifecycle v) = 2) as ->.
  { unfold uint_field. rewrite (proj2 (Z.eqb_neq _ _)) by lia. pose proof (varint_size_pos (Wire.se_lifecycle v)). pose proof (varint_size_le (Wire.se_lifecycle v) 1). change (2 ^ (7 * 1)) with 128 in *. lia. }
  pose proof (message_field_le (34 + uint_field (Wire.sa_generation claim) + 34) 1). change (2 ^ (7 * 1)) with 128 in *. unfold MaximumSnapshotEnvelopeOverheadBytes. lia.
Qed.

Section Transfer.
Context (Size : Wire.ProtoMessage -> Z) (Quote : string -> string) (format : snapshot_format Size).
Context (scope key : string) (generation : Z) (a : HMACSnapshotAuthority) (authority : NewHMACSnapshotAuthority scope generation key = Ok a)
  (generation_ok : uint64_ok generation) (ctx : Ctx) (live : forall at_, contextCause ctx at_ = None).

Local Abbreviation unsigned runID sequence lifecycle payload :=
  (Wire.mkSnapshotEnvelope SnapshotFormat runID sequence lifecycle payload (sha256 payload) None []).
Local Abbreviation signed runID sequence lifecycle payload claim :=
  (Wire.mkSnapshotEnvelope SnapshotFormat runID sequence lifecycle payload (sha256 payload) (Some claim) []).

Lemma signed_claim input claim : HMAC_SignSnapshot (Some a) ctx 1 input = Ok claim ->
  slen (Wire.sa_scopeID claim) = 32 /\ slen (Wire.sa_hmacSHA256 claim) = 32 /\ Wire.sa_generation claim = generation /\ generation <> 0.
Proof using authority live.
  intros H. apply sign_Ok in H as (canonical & _ & ->); [|done]. apply new_authority_ok in authority as (-> & Hs & Hg). cbn. by rewrite hmac_length.
Qed.

(** A signed envelope with valid content is valid: it always fits. *)
Lemma signed_valid v claim : validateSnapshotEnvelopeContent Quote (Some v) = None -> uint64_ok (Wire.se_lastSequence v) -> Wire.se_unknown v = [] ->
  Wire.se_authority v = Some claim -> HMAC_SignSnapshot (Some a) ctx 1 (snapshotAuthorityInput v) = Ok claim ->
  ValidateSnapshotEnvelope Size Quote (Some v) = None.
Proof using authority live format generation_ok.
  intros Hc Hs Hu Ha H. destruct (signed_claim _ _ H) as (H1 & H2 & H3 & H4). unfold ValidateSnapshotEnvelope. rewrite Hc, Hu, Ha. change (lenZ (@nil Z) =? 0) with true. cbn [negb when].
  rewrite (format v Hu). pose proof (envelope_size_bound Quote v claim Hc Hs Ha H1 H2 ltac:(by rewrite H3)). apply content_None in Hc as (_ & _ & _ & _ & _ & Hp & _).
  rewrite seq_None, when_None, Z.gtb_ltb, Z.ltb_ge. split; [unfold MaximumSnapshotEnvelopeBytes; lia|]. destruct claim as [sc g mac]. cbn [Wire.sa_scopeID Wire.sa_generation Wire.sa_hmacSHA256] in *. apply authority_valid; [done|lia|done].
Qed.

Lemma issue_exact runID sequence lifecycle payload v : uint64_ok sequence ->
  (NewSnapshotEnvelope Size Quote (hmac_signer ctx) (Some a) ctx runID sequence lifecycle payload).2 = Ok v <->
  validateSnapshotEnvelopeContent Quote (Some (unsigned runID sequence lifecycle payload)) = None
  /\ exists claim, v = signed runID sequence lifecycle payload claim /\ HMAC_SignSnapshot (Some a) ctx 1 (snapshotAuthorityInput v) = Ok claim.
Proof using authority live format generation_ok.
  intros Hs. unfold NewSnapshotEnvelope. rewrite (live 0). destruct (validateSnapshotEnvelopeContent Quote (Some (unsigned runID sequence lifecycle payload))) as [err|] eqn:Hc.
  { split; [done|]. by intros [? _]. }
  unfold hmac_signer. change (snapshotAuthorityInput (unsigned runID sequence lifecycle payload)) with (mkInput SnapshotFormat runID sequence lifecycle (sha256 payload)).
  destruct (HMAC_SignSnapshot (Some a) ctx 1 (mkInput SnapshotFormat runID sequence lifecycle (sha256 payload))) as [claim|err] eqn:Hsign; cbn [snd callSnapshotSigner].
  - pose proof (signed_valid (signed runID sequence lifecycle payload claim) claim Hc Hs eq_refl eq_refl Hsign) as ->. cbn [set]. split.
    + intros [= <-]. split; [done|]. by exists claim.
    + intros (_ & claim' & -> & H). assert (Ok claim = Ok claim') as [= ->] by (rewrite <- Hsign; exact H). done.
  - split; [by destruct err as [| | |[]|]|]. intros (_ & claim & -> & H). assert (Err err = Ok claim) by (rewrite <- Hsign; exact H). done.
Qed.

Lemma issue_total runID sequence lifecycle payload : uint64_ok sequence ->
  validateSnapshotEnvelopeContent Quote (Some (unsigned runID sequence lifecycle payload)) = None ->
  exists v, (NewSnapshotEnvelope Size Quote (hmac_signer ctx) (Some a) ctx runID sequence lifecycle payload).2 = Ok v.
Proof using authority live format generation_ok.
  intros Hs Hc. pose proof (content_input _ _ Hc) as Hi. destruct (Input_Canonical (mkInput SnapshotFormat runID sequence lifecycle (sha256 payload)) (ha_scopeID a) (ha_generation a)) as [canonical|err] eqn:Ec.
  - eexists. apply issue_exact; [done|]. split; [done|]. eexists. split; [reflexivity|]. apply sign_Ok; [apply live|]. by exists canonical.
  - exfalso. destruct (new_authority_ok _ _ _ _ authority) as (-> & H1 & H2). cbn [ha_scopeID ha_generation] in Ec. unfold Input_Canonical in Ec.
    change (input_validate (mkInput SnapshotFormat runID sequence lifecycle (sha256 payload)) = None) in Hi. rewrite Hi in Ec. unfold snapshotAuthorityBytes in Ec.
    by rewrite H1, (proj2 (Z.eqb_neq _ _) H2) in Ec.
Qed.
End Transfer.


(** ** A sample snapshot *)

#[local] Transparent sha256 hmac_sha256 payload_identity.

Definition sample_scope_id : string := "0123456789abcdef0123456789abcdef".
Definition sample_key : string := "fedcba9876543210fedcba9876543210".
Definition sample_authority : HMACSnapshotAuthority := mkHMACAuthority sample_scope_id 1 sample_key.
(** The object with [run_id] alone. *)
Definition sample_payload : string := of_codes [123; 34; 114; 117; 110; 95; 105; 100; 34; 58; 34; 114; 117; 110; 45; 49; 34; 125].
Definition sample_live : Ctx := Some (fun _ => None).
Definition sample_size (m : Wire.ProtoMessage) : Z := match m with Wire.MSnapshotEnvelope v => snapshot_envelope_size v | _ => 0 end.
Definition sample_snapshot_limits : Limits := mkWireLimits 4096 8 8 4096 4 2.
Definition sample_input (sequence : Z) : SnapshotAuthorityInput := mkInput SnapshotFormat "run-1" sequence Wire.SNAPSHOT_LIFECYCLE_SUSPENDED sample_key.

Lemma canonical_injective_witness : Input_Canonical (sample_input 7) sample_scope_id 1 <> Input_Canonical (sample_input 8) sample_scope_id 1.
Proof.
  intros H. set (bytes := of_codes (concat (map fingerprint_field (canonical_fields (sample_input 7) sample_scope_id 1)))).
  assert (Input_Canonical (sample_input 7) sample_scope_id 1 = Ok bytes) as E by (vm_compute; reflexivity). rewrite E in H.
  destruct (canonical_injective (sample_input 7) (sample_input 8) sample_scope_id sample_scope_id 1 1 bytes) as [[=] _];
    [unfold uint64_ok, maxUint64; cbn; lia..|exact E|by symmetry].
Defined.

