(* ===== verification/RunRecord.v ===== *)
(** The records of the run authority (src/daemon/internal/runauthority/store.go):
    the signed JSON text of a run's durable state, its checks, and that reading
    gives back exactly what was written. *)
From Stdlib Require Import ZArith Lia.
From stdpp Require Import base list strings.
From S2P Require Import Prelude GoText GoOrder GoJson Tool GoCrypto GoJsonTree CommonContract EngineWire EngineContract SnapshotAuthority.
Open Scope Z_scope.

Definition identityBytes : Z := 72.
Definition maximumRecordSize : Z := Z.shiftl 16 10.
Definition recordVersion : Z := 1.
Definition recordDomain : string := "spice.agent.run-authority-record/v1".
Definition runKeyDomain : string := "spice.agent.run-authority-run-key/v1".

Definition PhaseActive : string := "ACTIVE".
Definition PhaseSuspended : string := "SUSPENDED".
Definition PhaseImporting : string := "IMPORTING".
Definition PhaseCompleted : string := "COMPLETED".
Definition PhaseFailed : string := "FAILED".
Definition PhaseCancelled : string := "CANCELLED".

Inductive run_error :=
| ErrConfiguration | ErrUnavailable | ErrBusy | ErrState | ErrVerification | ErrUncertain | ErrClosed
| ErrNotExist
| ErrContext (cause : context_cause)
| ErrSigning (e : authority_error).
#[export] Instance context_cause_eq_dec : EqDecision context_cause.
Proof. solve_decision. Defined.

(** The persistent identity of one authority directory. *)
Record Identity := mkIdentity { id_generation : Z; id_scope : string; id_key : string }.

Record snapshotRecord := mkSnapshotRecord {
  sr_format : string;
  sr_lastSequence : Z;
  sr_lifecycle : Z;
  sr_payloadSHA : string;
  sr_authorityMAC : string
}.
#[export] Instance snapshotRecord_eq_dec : EqDecision snapshotRecord.
Proof. solve_decision. Defined.

Record record := mkRecord {
  rc_version : Z;
  rc_scopeID : string;
  rc_authorityGeneration : Z;
  rc_runID : string;
  rc_runGeneration : Z;
  rc_phase : string;
  rc_snapshot : option snapshotRecord
}.
Record signedRecord := mkSignedRecord { sg_record : record; sg_MAC : string }.

(** ** JSON *)

Definition number (n : Z) : json := JNumber (decimal n).

Definition snapshot_json (s : snapshotRecord) : json :=
  JObject [("format", JString (sr_format s)); ("last_sequence", number (sr_lastSequence s)); ("lifecycle", number (sr_lifecycle s));
           ("payload_sha256", JString (sr_payloadSHA s)); ("authority_hmac_sha256", JString (sr_authorityMAC s))]%string.
(** [omitempty] leaves out a nil snapshot. *)
Definition record_json (r : record) : json :=
  JObject ([("version", number (rc_version r)); ("scope_id", JString (rc_scopeID r));
            ("authority_key_generation", number (rc_authorityGeneration r)); ("run_id", JString (rc_runID r));
            ("run_generation", number (rc_runGeneration r)); ("phase", JString (rc_phase r))]%string
           ++ match rc_snapshot r with Some s => [("snapshot"%string, snapshot_json s)] | None => [] end).
Definition signed_json (s : signedRecord) : json :=
  JObject [("record", record_json (sg_record s)); ("hmac_sha256", JString (sg_MAC s))]%string.

(** Unknown members are refused ([DisallowUnknownFields]). *)
Definition set_snapshot (key : string) (v : json) (s : snapshotRecord) : option snapshotRecord :=
  if field_is "format" key then x ← decode_string v (sr_format s); Some (mkSnapshotRecord x (sr_lastSequence s) (sr_lifecycle s) (sr_payloadSHA s) (sr_authorityMAC s))
  else if field_is "last_sequence" key then x ← decode_uint64 v (sr_lastSequence s); Some (mkSnapshotRecord (sr_format s) x (sr_lifecycle s) (sr_payloadSHA s) (sr_authorityMAC s))
  else if field_is "lifecycle" key then x ← decode_int 32 v (sr_lifecycle s); Some (mkSnapshotRecord (sr_format s) (sr_lastSequence s) x (sr_payloadSHA s) (sr_authorityMAC s))
  else if field_is "payload_sha256" key then x ← decode_string v (sr_payloadSHA s); Some (mkSnapshotRecord (sr_format s) (sr_lastSequence s) (sr_lifecycle s) x (sr_authorityMAC s))
  else if field_is "authority_hmac_sha256" key then x ← decode_string v (sr_authorityMAC s); Some (mkSnapshotRecord (sr_format s) (sr_lastSequence s) (sr_lifecycle s) (sr_payloadSHA s) x)
  else None.
Definition zeroSnapshotRecord : snapshotRecord := mkSnapshotRecord "" 0 0 "" "".
(** A pointer: null clears it, an object is stored into what it points to. *)
Definition decode_snapshot (v : json) (current : option snapshotRecord) : option (option snapshotRecord) :=
  match v with
  | JNull => Some None
  | _ => Some <$> decode_struct set_snapshot v (default zeroSnapshotRecord current)
  end.

Definition set_record (key : string) (v : json) (r : record) : option record :=
  let 'mkRecord version scope authority run generation phase snapshot := r in
  if field_is "version" key then x ← decode_int 64 v version; Some (mkRecord x scope authority run generation phase snapshot)
  else if field_is "scope_id" key then x ← decode_string v scope; Some (mkRecord version x authority run generation phase snapshot)
  else if field_is "authority_key_generation" key then x ← decode_uint64 v authority; Some (mkRecord version scope x run generation phase snapshot)
  else if field_is "run_id" key then x ← decode_string v run; Some (mkRecord version scope authority x generation phase snapshot)
  else if field_is "run_generation" key then x ← decode_uint64 v generation; Some (mkRecord version scope authority run x phase snapshot)
  else if field_is "phase" key then x ← decode_string v phase; Some (mkRecord version scope authority run generation x snapshot)
  else if field_is "snapshot" key then x ← decode_snapshot v snapshot; Some (mkRecord version scope authority run generation phase x)
  else None.
Definition zeroRecord : record := mkRecord 0 "" 0 "" 0 "" None.

Definition set_signed (key : string) (v : json) (s : signedRecord) : option signedRecord :=
  if field_is "record" key then x ← decode_struct set_record v (sg_record s); Some (mkSignedRecord x (sg_MAC s))
  else if field_is "hmac_sha256" key then x ← decode_string v (sg_MAC s); Some (mkSignedRecord (sg_record s) x)
  else None.
Definition decode_signed (wire : string) : option signedRecord :=
  v ← parse_document wire; decode_struct set_signed v (mkSignedRecord zeroRecord "").

(** ** Checks *)

Definition validateRunID (runID : string) : option run_error :=
  if String.eqb runID "" || negb (String.eqb runID (TrimSpace runID)) || (slen runID >? 128) then Some ErrConfiguration
  else if has_control runID then Some ErrConfiguration else None.

Definition validSnapshotRecord (value : option snapshotRecord) : bool :=
  match value with
  | None => false
  | Some s =>
      if negb (String.eqb (sr_format s) SnapshotFormat) || (sr_lastSequence s =? 0) || (sr_lastSequence s =? maxUint64)
         || negb (sr_lifecycle s =? Wire.SNAPSHOT_LIFECYCLE_SUSPENDED) then false
      else match unhex (sr_payloadSHA s), unhex (sr_authorityMAC s) with
      | Some digest, Some authority => (slen digest =? 32) && (slen authority =? 32)
      | _, _ => false
      end
  end.

Definition validateRecord (identity : Identity) (value : record) (runID : string) : option run_error :=
  if negb (rc_version value =? recordVersion) || negb (String.eqb (rc_scopeID value) (hex (id_scope identity)))
     || negb (rc_authorityGeneration value =? id_generation identity) || negb (String.eqb (rc_runID value) runID) || (rc_runGeneration value =? 0)
  then Some ErrVerification
  else match validateRunID (rc_runID value) with
  | Some err => Some err
  | None =>
      if existsb (String.eqb (rc_phase value)) [PhaseActive; PhaseImporting; PhaseCompleted; PhaseFailed; PhaseCancelled] then
        match rc_snapshot value with Some _ => Some ErrVerification | None => None end
      else if String.eqb (rc_phase value) PhaseSuspended then
        if validSnapshotRecord (rc_snapshot value) then None else Some ErrVerification
      else Some ErrVerification
  end.

(** ** Signed text *)

(** [writeMACPart] of each part in turn. *)
Definition mac_parts (parts : list string) : string := of_codes (concat (map fingerprint_field parts)).
Definition record_mac (identity : Identity) (r : record) : string :=
  hmac_sha256 (id_key identity) (mac_parts [recordDomain; marshal (record_json r)]).

Definition encodeRecord (identity : Identity) (runID : string) (value : record) : result run_error string :=
  match validateRecord identity value runID with
  | Some _ => Err ErrState
  | None =>
      let wire := marshal (signed_json (mkSignedRecord value (hex (record_mac identity value)))) in
      if slen wire >? maximumRecordSize then Err ErrState else Ok (wire +:+ of_codes [10])
  end.

Definition decodeRecord (identity : Identity) (runID wire : string) : result run_error record :=
  if (slen wire =? 0) || (slen wire >? maximumRecordSize) then Err ErrVerification
  else match decode_signed wire with
  | None => Err ErrVerification
  | Some signed =>
      match unhex (sg_MAC signed) with
      | None => Err ErrVerification
      | Some claimed =>
          if negb (slen claimed =? 32) then Err ErrVerification
          else if negb (String.eqb claimed (record_mac identity (sg_record signed))) then Err ErrVerification
          else match validateRecord identity (sg_record signed) runID with
          | Some _ => Err ErrVerification
          | None => Ok (sg_record signed)
          end
      end
  end.

Definition baseRecord (identity : Identity) (runID : string) (runGeneration : Z) (phase : string) : record :=
  mkRecord recordVersion (hex (id_scope identity)) (id_generation identity) runID runGeneration phase None.

(** The key of one run generation. *)
Definition snapshotCodec (identity : Identity) (runID : string) (runGeneration : Z) : result run_error HMACSnapshotAuthority :=
  if runGeneration =? 0 then Err ErrState
  else
    let derived := hmac_sha256 (id_key identity) (mac_parts [runKeyDomain; id_scope identity; runID; of_codes (big_endian 8 runGeneration)]) in
    match NewHMACSnapshotAuthority (id_scope identity) (id_generation identity) derived with
    | Ok codec => Ok codec
    | Err e => Err (ErrSigning (ErrOf e))
    end.

Definition matchesSuspended (identity : Identity) (value : record) (snapshot : Wire.SnapshotEnvelope) : bool :=
  let authority := default (Wire.mkSnapshotAuthority "" 0 "") (Wire.se_authority snapshot) in
  match rc_snapshot value with
  | None => false
  | Some s =>
      String.eqb (rc_phase value) PhaseSuspended && String.eqb (rc_scopeID value) (hex (id_scope identity))
      && (rc_authorityGeneration value =? Wire.sa_generation authority) && String.eqb (sr_format s) (Wire.se_format snapshot)
      && (sr_lastSequence s =? Wire.se_lastSequence snapshot) && (sr_lifecycle s =? Wire.se_lifecycle snapshot)
      && String.eqb (sr_payloadSHA s) (hex (Wire.se_sha256 snapshot)) && String.eqb (sr_authorityMAC s) (hex (Wire.sa_hmacSHA256 authority))
  end.

Definition runName (runID : string) : string := "run-" +:+ hex (sha256 runID).
Definition lockName (runID : string) : string := runName runID +:+ ".lock".
Definition stateName (runID : string) : string := runName runID +:+ ".state".

(** ** What is written is read back *)

(** The integers of a record are within their types. *)
Definition snapshot_sized (s : snapshotRecord) : Prop := uint64_ok (sr_lastSequence s).
Definition record_sized (r : record) : Prop :=
  uint64_ok (rc_authorityGeneration r) /\ uint64_ok (rc_runGeneration r) /\ from_option snapshot_sized True (rc_snapshot r).

Lemma hex_codes_plain l : byte_list l -> plain (hex_codes l) = true.
Proof.
  induction 1 as [|b l Hb _ IH]; [done|]. change (hex_codes (b :: l)) with (hex_digit (b / 16) :: hex_digit (b mod 16) :: hex_codes l). unfold plain in *. cbn [forallb]. rewrite IH.
  assert (forall n, 0 <= n < 16 -> in_range 32 126 (hex_digit n) = true) as Hd.
  { intros n Hn. unfold in_range, hex_digit. destruct (n <? 10) eqn:E; bprop; rewrite !(proj2 (Z.leb_le _ _)) by lia; done. }
  pose proof (Z.mod_pos_bound b 16). pose proof (Z.div_pos b 16). pose proof (Z.div_lt_upper_bound b 16 16). by rewrite !Hd by lia.
Qed.
Lemma hex_utf8 s : utf8_valid (hex s) = true.
Proof.
  apply plain_utf8. unfold hex. rewrite byte_codes_of_codes by (apply hex_codes_bytes, byte_codes_bytes). apply hex_codes_plain, byte_codes_bytes.
Qed.

(** [unhex] accepts capitals, so a digest in a record need not be lower case;
    it is ASCII. *)
Lemma unhex_plain l : forall out, unhex_codes l = Some out -> plain l = true.
Proof.
  enough (forall n l out, (length l <= n)%nat -> unhex_codes l = Some out -> plain l = true) as H by (intros out; by apply (H (length l))).
  clear. induction n as [|n IH]; intros [|a [|b l]] out Hl Ho; try done; try (cbn in Hl; lia). cbn [unhex_codes] in Ho.
  destruct (hex_value a) as [x|] eqn:Ea; [|done]. destruct (hex_value b) as [y|] eqn:Eb; [|done]. destruct (unhex_codes l) as [rest|] eqn:El; [|done].
  assert (forall c z, hex_value c = Some z -> in_range 32 126 c = true) as Hd.
  { intros c z. unfold hex_value, in_range. intros H. repeat (match type of H with (if ?t then _ else _) = _ => destruct t eqn:? end; bprop; try done).
    all: rewrite !(proj2 (Z.leb_le _ _)) by lia; done. }
  unfold plain in *. cbn [forallb]. rewrite (Hd _ _ Ea), (Hd _ _ Eb). cbn [andb]. cbn [length] in Hl. eapply IH; [|done]. lia.
Qed.
Lemma unhex_utf8 s out : unhex s = Some out -> utf8_valid s = true.
Proof. unfold unhex. intros H. destruct (unhex_codes (byte_codes s)) eqn:E; [|done]. by eapply plain_utf8, unhex_plain. Qed.

Lemma sanitize_hex s : sanitize (hex s) = hex s.
Proof. apply sanitize_valid, hex_utf8. Qed.

Lemma validateRecord_facts identity value runID : validateRecord identity value runID = None ->
  rc_version value = 1 /\ rc_scopeID value = hex (id_scope identity) /\ rc_authorityGeneration value = id_generation identity /\ rc_runID value = runID
  /\ rc_runGeneration value <> 0 /\ validateRunID runID = None /\ sanitize (rc_phase value) = rc_phase value /\ slen (rc_phase value) <= 9
  /\ match rc_snapshot value with Some s => validSnapshotRecord (Some s) = true /\ rc_phase value = PhaseSuspended | None => rc_phase value <> PhaseSuspended end.
Proof.
  unfold validateRecord, recordVersion. destruct (Z.eqb_spec (rc_version value) 1) as [H1|]; [|done]. destruct (String.eqb_spec (rc_scopeID value) (hex (id_scope identity))) as [H2|]; [|done].
  destruct (Z.eqb_spec (rc_authorityGeneration value) (id_generation identity)) as [H3|]; [|done]. destruct (String.eqb_spec (rc_runID value) runID) as [H4|]; [|done].
  destruct (Z.eqb_spec (rc_runGeneration value) 0) as [|H5]; [done|]. cbn [negb orb]. rewrite H4. destruct (validateRunID runID) eqn:H6; [done|].
  destruct (existsb _ _) eqn:Ep.
  - destruct (rc_snapshot value) eqn:Es; [done|]. intros _. apply existsb_exists in Ep as (phase & Hin & ->%String.eqb_eq). cbn [In] in Hin.
    split_and!; try done; destruct Hin as [<-|[<-|[<-|[<-|[<-|[]]]]]]; (reflexivity || discriminate).
  - destruct (String.eqb_spec (rc_phase value) PhaseSuspended) as [E|]; [|done]. destruct (validSnapshotRecord (rc_snapshot value)) eqn:Es; [|done]. intros _.
    split_and!; try done; [by rewrite E|by rewrite E|]. destruct (rc_snapshot value); [by split|done].
Qed.

Lemma decode_members_cons {A} (set : string -> json -> A -> option A) k v ms current :
  decode_members set ((k, v) :: ms) current = match set k v current with Some next => decode_members set ms next | None => None end.
Proof. done. Qed.

Lemma decode_number n current : uint64_ok n -> decode_uint64 (number n) current = Some n.
Proof. intros Hn. apply (parse_uint_decimal n Hn). Qed.
Lemma decode_small_number bits n current : 32 <= bits -> 0 <= n < 2 ^ 31 -> decode_int bits (number n) current = Some n.
Proof.
  intros Hb Hn. apply (parse_int_decimal bits n); [|unfold uint64_ok, maxUint64; lia].
  pose proof (Z.pow_le_mono_r 2 31 (bits - 1)). lia.
Qed.

(** Reads the members of a written object one after the other; the names of
    the fields are constants. *)
Ltac read_members := repeat (lazy -[decode_uint64 decode_int number snapshot_json decode_snapshot record_json uint64_ok snapshot_sized Z.lt Z.le Z.pow];
  first [rewrite decode_number by done | rewrite decode_small_number by lia]); lazy -[snapshot_json decode_snapshot record_json].

Lemma decode_snapshot_json s current : snapshot_sized s -> 0 <= sr_lifecycle s < 2 ^ 31 -> decode_snapshot (snapshot_json s) current = Some (Some s).
Proof.
  destruct s as [f n l p m]. unfold snapshot_sized. cbn [sr_lastSequence sr_lifecycle]. intros Hs Hl. unfold decode_snapshot, snapshot_json.
  generalize (default zeroSnapshotRecord current). intros [f0 n0 l0 p0 m0]. cbn [sr_format sr_lastSequence sr_lifecycle sr_payloadSHA sr_authorityMAC]. read_members. done.
Qed.

Lemma decode_record_json r : record_sized r -> rc_version r = 1 -> match rc_snapshot r with Some s => 0 <= sr_lifecycle s < 2 ^ 31 | None => True end ->
  decode_struct set_record (record_json r) zeroRecord = Some r.
Proof.
  destruct r as [v sc ag run g ph [s|]]; intros (Ha & Hg & Hs) Hv Hl; cbn [rc_version rc_authorityGeneration rc_runGeneration rc_snapshot from_option] in *; subst v;
    unfold record_json, zeroRecord; cbn [rc_version rc_scopeID rc_authorityGeneration rc_runID rc_runGeneration rc_phase rc_snapshot app]; read_members; [|done].
  by rewrite decode_snapshot_json.
Qed.

Lemma decode_signed_json s mac : decode_struct set_record (record_json s) zeroRecord = Some s ->
  decode_struct set_signed (signed_json (mkSignedRecord s mac)) (mkSignedRecord zeroRecord "") = Some (mkSignedRecord s mac).
Proof.
  intros E. unfold signed_json. cbn [sg_record sg_MAC decode_struct]. rewrite decode_members_cons.
  assert (set_signed "record" (record_json s) (mkSignedRecord zeroRecord "") = (x ← decode_struct set_record (record_json s) zeroRecord; Some (mkSignedRecord x ""))) as -> by reflexivity.
  rewrite E. reflexivity.
Qed.

(** *** Sizes *)

Lemma number_length n : lenZ (print (number n)) <= 20.
Proof. apply decimal_short. Qed.

Lemma snapshot_length s : slen (sr_format s) <= 64 -> slen (sr_payloadSHA s) <= 64 -> slen (sr_authorityMAC s) <= 64 -> lenZ (print (snapshot_json s)) <= 1400.
Proof.
  intros H1 H2 H3. unfold snapshot_json. match goal with |- lenZ (print (JObject ?ms)) <= _ => pose proof (object_length (html := true) ms) as H end.
  rewrite !sumZ_cons, sumZ_nil in H. cbn [fst snd] in H.
  pose proof (string_length (html := true) (sr_format s)). pose proof (string_length (html := true) (sr_payloadSHA s)). pose proof (string_length (html := true) (sr_authorityMAC s)).
  pose proof (number_length (sr_lastSequence s)). pose proof (number_length (sr_lifecycle s)).
  change (lenZ (quote "format")) with 8 in H. change (lenZ (quote "last_sequence")) with 15 in H. change (lenZ (quote "lifecycle")) with 11 in H.
  change (lenZ (quote "payload_sha256")) with 16 in H. change (lenZ (quote "authority_hmac_sha256")) with 23 in H. lia.
Qed.

Lemma unhex_length s out : unhex s = Some out -> slen s = 2 * slen out.
Proof.
  unfold unhex. destruct (unhex_codes (byte_codes s)) as [l|] eqn:E; [|done]. intros [= <-]. rewrite slen_of_codes, <- byte_codes_length.
  enough (forall n codes l, (length codes <= n)%nat -> unhex_codes codes = Some l -> Z.of_nat (length codes) = 2 * lenZ l) as H by (by apply (H (length (byte_codes s)))). clear.
  induction n as [|n IH]; intros [|a [|b codes]] l Hl E; try done; try (cbn in Hl; lia); [by injection E as <-..|]. cbn [unhex_codes] in E.
  destruct (hex_value a); [|done]. destruct (hex_value b); [|done]. destruct (unhex_codes codes) as [rest|] eqn:Er; [|done]. injection E as <-.
  rewrite lenZ_cons. cbn [length] in *. specialize (IH codes rest ltac:(lia) Er). lia.
Qed.

Lemma valid_snapshot_facts s : validSnapshotRecord (Some s) = true ->
  sr_format s = SnapshotFormat /\ sr_lastSequence s <> 0 /\ sr_lastSequence s <> maxUint64 /\ sr_lifecycle s = 1
  /\ slen (sr_payloadSHA s) = 64 /\ slen (sr_authorityMAC s) = 64 /\ sanitize (sr_payloadSHA s) = sr_payloadSHA s /\ sanitize (sr_authorityMAC s) = sr_authorityMAC s.
Proof.
  unfold validSnapshotRecord. destruct (String.eqb_spec (sr_format s) SnapshotFormat) as [H1|]; [|done]. destruct (Z.eqb_spec (sr_lastSequence s) 0) as [|H2]; [done|].
  destruct (Z.eqb_spec (sr_lastSequence s) maxUint64) as [|H3]; [done|]. unfold Wire.SNAPSHOT_LIFECYCLE_SUSPENDED. destruct (Z.eqb_spec (sr_lifecycle s) 1) as [H4|]; [|done]. cbn [negb orb].
  destruct (unhex (sr_payloadSHA s)) as [d|] eqn:Ed; [|done]. destruct (unhex (sr_authorityMAC s)) as [m|] eqn:Em; [|done]. rewrite andb_true_iff, !Z.eqb_eq. intros [Hd Hm].
  pose proof (unhex_length _ _ Ed). pose proof (unhex_length _ _ Em). split_and!; try done; try lia; eapply sanitize_valid, unhex_utf8; eassumption.
Qed.

Lemma record_length r identity runID : validateRecord identity r runID = None -> slen (id_scope identity) = 32 -> lenZ (print (record_json r)) <= 3000.
Proof.
  intros Hv Hsc. apply validateRecord_facts in Hv as (_ & H2 & _ & H4 & _ & H6 & _ & Hph & H8). assert (slen (rc_runID r) <= 128) as Hrun.
  { rewrite H4. unfold validateRunID in H6. destruct (_ || _) eqn:E; [done|]. rewrite !orb_false_iff, Z.gtb_ltb, Z.ltb_ge in E. lia. }
  assert (sumZ (fun m => 2 + lenZ (quote m.1) + lenZ (print m.2)) (match rc_snapshot r with Some s => [("snapshot"%string, snapshot_json s)] | None => [] end) <= 1420) as Hsn.
  { destruct (rc_snapshot r) as [s|]; [|done]. destruct H8 as [H8 _]. apply valid_snapshot_facts in H8 as (E & _ & _ & _ & E1 & E2 & _).
    rewrite sumZ_cons, sumZ_nil. cbn [fst snd]. change (lenZ (quote "snapshot")) with 10. pose proof (snapshot_length s ltac:(rewrite E; by vm_compute) ltac:(lia) ltac:(lia)). lia. }
  unfold record_json. match goal with |- lenZ (print (JObject ?ms)) <= _ => pose proof (object_length (html := true) ms) as H end.
  rewrite sumZ_app, !sumZ_cons, sumZ_nil in H. cbn [fst snd] in H.
  pose proof (number_length (rc_version r)). pose proof (number_length (rc_authorityGeneration r)). pose proof (number_length (rc_runGeneration r)).
  pose proof (string_length (html := true) (rc_scopeID r)) as Hs1. rewrite H2, hex_length, Hsc in Hs1. pose proof (string_length (html := true) (rc_runID r)). pose proof (string_length (html := true) (rc_phase r)).
  rewrite H2 in H. change (lenZ (quote "version")) with 9 in H. change (lenZ (quote "scope_id")) with 10 in H. change (lenZ (quote "authority_key_generation")) with 26 in H.
  change (lenZ (quote "run_id")) with 8 in H. change (lenZ (quote "run_generation")) with 16 in H. change (lenZ (quote "phase")) with 7 in H. rewrite H2. lia.
Qed.

Lemma signed_length r mac identity runID : validateRecord identity r runID = None -> slen (id_scope identity) = 32 -> slen mac <= 64 ->
  lenZ (print (signed_json (mkSignedRecord r mac))) <= 4000.
Proof.
  intros Hv Hsc Hm. pose proof (record_length r identity runID Hv Hsc) as Hr. unfold signed_json. cbn [sg_record sg_MAC].
  match goal with |- lenZ (print (JObject ?ms)) <= _ => pose proof (object_length (html := true) ms) as H end. rewrite !sumZ_cons, sumZ_nil in H. cbn [fst snd] in H.
  pose proof (string_length (html := true) mac). change (lenZ (quote "record")) with 8 in H. change (lenZ (quote "hmac_sha256")) with 13 in H. lia.
Qed.

(** *** The round trip *)

Lemma number_writable depth n : uint64_ok n -> writable depth (number n).
Proof. intros Hn. destruct depth; apply (decimal_literal n Hn). Qed.

#[local] Opaque writable.
(** The members of a written object, one by one. *)
Ltac members := repeat (apply Forall_cons; split; [split; [reflexivity|cbn [snd]; first [apply string_writable | by apply number_writable | idtac]]|]); try apply Forall_nil_2.

Lemma signed_writable r mac : record_sized r -> rc_version r = 1 -> match rc_snapshot r with Some s => sr_lifecycle s = 1 | None => True end ->
  writable (Z.to_nat maxNestingDepth) (signed_json (mkSignedRecord r mac)).
Proof.
  intros (H1 & H2 & H3) Hv Hs. destruct nesting_deep as [n ->]. assert (uint64_ok 1) by (unfold uint64_ok, maxUint64; lia). unfold signed_json. cbn [sg_record sg_MAC].
  apply object_writable. members. unfold record_json. rewrite Hv. apply object_writable. apply Forall_app. split; [members|].
  destruct (rc_snapshot r) as [s|]; [|apply Forall_nil_2]. cbn [from_option] in H3. unfold snapshot_sized in H3. members. unfold snapshot_json. rewrite Hs. apply object_writable. members.
Qed.

(** What is read back: the run identity with its invalid bytes replaced. *)
Definition with_runID (r : record) (runID : string) : record :=
  mkRecord (rc_version r) (rc_scopeID r) (rc_authorityGeneration r) runID (rc_runGeneration r) (rc_phase r) (rc_snapshot r).

Lemma signed_read_back identity r runID mac : validateRecord identity r runID = None ->
  read_back (signed_json (mkSignedRecord r (hex mac))) = signed_json (mkSignedRecord (with_runID r (sanitize (rc_runID r))) (hex mac)).
Proof.
  intros Hv. apply validateRecord_facts in Hv as (_ & H2 & _ & _ & _ & _ & Hph & _ & H8). destruct r as [v sc ag run g ph sn]. unfold signed_json, record_json, with_runID.
  cbn [rc_version rc_scopeID rc_authorityGeneration rc_runID rc_runGeneration rc_phase rc_snapshot] in *. subst sc. destruct sn as [s|];
    cbn [sg_record sg_MAC read_back map fst snd rc_version rc_scopeID rc_authorityGeneration rc_runID rc_runGeneration rc_phase rc_snapshot app number]; rewrite Hph, !sanitize_hex; [|done].
  destruct H8 as [H8 _]. apply valid_snapshot_facts in H8 as (E & _ & _ & _ & _ & _ & E1 & E2). unfold snapshot_json. cbn [read_back map fst snd number].
  rewrite E1, E2, E. reflexivity.
Qed.

Definition identity_ok (identity : Identity) : Prop := uint64_ok (id_generation identity) /\ slen (id_scope identity) = 32.

Section Codec.
Context (identity : Identity) (identity_valid : identity_ok identity) (runID : string) (value : record) (sized : record_sized value).

Definition signed_text : list Z := print (signed_json (mkSignedRecord value (hex (record_mac identity value)))).

#[local] Opaque hmac_sha256 sha256.

Lemma record_mac_length r : slen (hex (record_mac identity r)) = 64.
Proof. unfold record_mac. by rewrite hex_length, hmac_length. Qed.

Lemma encode_total : validateRecord identity value runID = None -> encodeRecord identity runID value = Ok (of_codes (signed_text ++ [10])).
Proof using identity_valid.
  intros Hv. unfold encodeRecord. rewrite Hv. unfold marshal. fold signed_text. rewrite slen_of_codes. pose proof (signed_length value (hex (record_mac identity value)) identity runID Hv (proj2 identity_valid)) as Hl.
  rewrite record_mac_length in Hl. specialize (Hl ltac:(lia)). fold signed_text in Hl. unfold maximumRecordSize. change (Z.shiftl 16 10) with 16384.
  rewrite Z.gtb_ltb, (proj2 (Z.ltb_ge _ _)) by lia. f_equal. unfold of_codes. rewrite map_app. cbn [map]. clear. generalize (map (fun z => Ascii.ascii_of_N (Z.to_N z)) signed_text).
  intros l. induction l as [|c l IH]; [done|]. cbn [app String.string_of_list_ascii String.app]. by rewrite <- IH.
Qed.

Lemma encode_Ok wire : encodeRecord identity runID value = Ok wire -> validateRecord identity value runID = None /\ wire = of_codes (signed_text ++ [10]).
Proof using identity_valid.
  intros H. destruct (validateRecord identity value runID) eqn:Hv; [unfold encodeRecord in H; by rewrite Hv in H|]. split; [done|]. rewrite (encode_total Hv) in H. exact (eq_sym (Ok_inj _ _ H)).
Qed.

Lemma decode_encoded wire : encodeRecord identity runID value = Ok wire -> 
  decode_signed wire = Some (mkSignedRecord (with_runID value (sanitize runID)) (hex (record_mac identity value))) /\ 0 < slen wire <= maximumRecordSize.
Proof using identity_valid sized.
  intros H. destruct (encode_Ok _ H) as [Hv ->]. pose proof (validateRecord_facts _ _ _ Hv) as (H1 & _ & _ & H4 & _ & _ & _ & _ & H8).
  assert (match rc_snapshot value with Some s => sr_lifecycle s = 1 | None => True end) as Hl1.
  { destruct (rc_snapshot value) as [s|]; [|done]. destruct H8 as [H8 _]. by apply valid_snapshot_facts in H8 as (_ & _ & _ & ? & _). }
  split.
  - unfold decode_signed, signed_text. rewrite parse_document_marshal; [|by apply signed_writable|repeat constructor; lia|done].
    cbn [mbind option_bind]. rewrite (signed_read_back identity value runID) by done. rewrite H4. apply decode_signed_json. apply decode_record_json; [exact sized|exact H1|].
    cbn [with_runID rc_snapshot]. destruct (rc_snapshot value); [lia|done].
  - rewrite slen_of_codes, lenZ_app. change (lenZ [10]) with 1. pose proof (lenZ_nonneg signed_text). pose proof (signed_length value (hex (record_mac identity value)) identity runID Hv (proj2 identity_valid)) as Hl.
    rewrite record_mac_length in Hl. specialize (Hl ltac:(lia)). fold signed_text in Hl. unfold maximumRecordSize. change (Z.shiftl 16 10) with 16384. lia.
Qed.

(** Whatever is read back is the record written, but for invalid bytes of its
    run identity. *)
Lemma read_sound wire runID' r : encodeRecord identity runID value = Ok wire -> decodeRecord identity runID' wire = Ok r -> r = with_runID value (sanitize runID).
Proof using identity_valid sized.
  intros H Hd. destruct (decode_encoded _ H) as [E Hl]. unfold decodeRecord in Hd. rewrite E in Hd. cbn [sg_MAC sg_record] in Hd. rewrite unhex_hex in Hd.
  destruct (_ || _); [done|]. destruct (negb _); [done|]. destruct (negb _); [done|]. destruct (validateRecord _ _ _); [done|]. exact (eq_sym (Ok_inj _ _ Hd)).
Qed.

(** A record of a run identity in UTF-8 is read back. *)
Lemma read_exact wire : utf8_valid runID = true -> encodeRecord identity runID value = Ok wire -> decodeRecord identity runID wire = Ok value.
Proof using identity_valid sized.
  intros Hu H. destruct (decode_encoded _ H) as [E Hl]. destruct (encode_Ok _ H) as [Hv _]. pose proof (validateRecord_facts _ _ _ Hv) as (_ & _ & _ & H4 & _).
  assert (with_runID value (sanitize runID) = value) as Ew by (rewrite (sanitize_valid _ Hu); destruct value; cbn in *; by subst).
  unfold decodeRecord. rewrite E, Ew. cbn [sg_MAC sg_record]. rewrite unhex_hex. unfold record_mac at 1. rewrite hmac_length, String.eqb_refl, Hv.
  rewrite (proj2 (Z.eqb_neq _ _)), Z.gtb_ltb, (proj2 (Z.ltb_ge _ _)) by lia. done.
Qed.
End Codec.
