(* ===== verification/RunAuthority.v ===== *)
(** The run authority (src/daemon/internal/runauthority): stores opened on one
    directory by any number of processes, the lease of an active run, import
    transactions, and what survives crashes and power loss.

    The directory is its files and its locks.  An atomic write may report an
    error after the rename or after the directory was synchronized, so an
    operation takes the outcome of each call of the operating system as an
    argument.  [Start] and [PrepareImport] take the lease and look at the
    uncertain runs before they take the run's lock; the rest runs under it.
    Buffers are not cleared except the key of a closed store. *)
From Stdlib Require Import ZArith Lia.
From stdpp Require Import base gmap list strings relations.
From S2P Require Import Prelude GoText GoOrder GoJson Tool GoCrypto GoJsonTree CommonContract EngineWire EngineContract WireFormat SnapshotAuthority RunRecord.
Open Scope Z_scope.

(** ** The directory *)

Record Disk := mkDisk { dk_visible : gmap string string; dk_durable : gmap string string }.

(** [writeFileAtomic]: the rename makes the file visible, the synchronization
    makes the directory durable; an error may follow either. *)
Inductive write_outcome := WriteOk | WriteFailed (renamed synced : bool).
Definition writeFileAtomic (d : Disk) (name value : string) (outcome : write_outcome) : Disk * bool :=
  let visible := <[name := value]> (dk_visible d) in
  match outcome with
  | WriteOk => (mkDisk visible visible, true)
  | WriteFailed true synced => (mkDisk visible (if synced then visible else dk_durable d), false)
  | WriteFailed false _ => (d, false)
  end.

Inductive close_outcome := CloseOk | CloseFailed (released : bool).

(** What the calls of one operation meet: the context at its observations, the
    lock file and the record readable, the write, the release of the lock, the
    release of the directory. *)
Record oracle := mkOracle {
  or_ctx : Ctx;
  or_acquire : bool;
  or_read : bool;
  or_write : write_outcome;
  or_unlock : close_outcome;
  or_directory : bool
}.

(** ** State *)

Record Store := mkStore {
  st_identity : Identity;
  st_uncertain : list string;
  st_leases : Z;
  st_closing : bool;
  st_closed : bool;
  st_closeErr : option run_error
}.

Record Active := mkActive {
  ac_store : nat;
  ac_lock : bool;
  ac_runID : string;
  ac_runGeneration : Z;
  ac_suspended : option snapshotRecord;
  ac_uncertain : bool;
  ac_snapshotIssueErr : option run_error;
  ac_closed : bool
}.

Record Import := mkImport {
  im_store : nat;
  im_lock : bool;
  im_runID : string;
  im_sourceRunGeneration : Z;
  im_expectedScope : string;
  im_expectedMAC : string;
  im_codec : HMACSnapshotAuthority;
  im_consumed : bool;
  im_uncertain : bool;
  im_closed : bool
}.

Inductive owner := ByActive (id : nat) | ByImport (id : nat) | Lost (store : nat).
Inductive begun_op := BeginStart (runID : string) | BeginImport (snapshot : Wire.SnapshotEnvelope).

(** [w_begun] are the calls of [Start] and [PrepareImport] that hold a lease
    and have not asked for the lock yet; [w_granted] lists the run generations
    handed to callers, for the statements. *)
Record World := mkWorld {
  w_disk : Disk;
  w_locks : gmap string owner;
  w_stores : gmap nat Store;
  w_actives : gmap nat Active;
  w_imports : gmap nat Import;
  w_begun : gmap nat (nat * begun_op);
  w_granted : list (string * Z)
}.

Definition set_disk (w : World) (d : Disk) : World := mkWorld d (w_locks w) (w_stores w) (w_actives w) (w_imports w) (w_begun w) (w_granted w).
Definition set_locks (w : World) (l : gmap string owner) : World := mkWorld (w_disk w) l (w_stores w) (w_actives w) (w_imports w) (w_begun w) (w_granted w).
Definition set_store (w : World) (sid : nat) (s : Store) : World := mkWorld (w_disk w) (w_locks w) (<[sid := s]> (w_stores w)) (w_actives w) (w_imports w) (w_begun w) (w_granted w).
Definition set_active (w : World) (id : nat) (a : Active) : World := mkWorld (w_disk w) (w_locks w) (w_stores w) (<[id := a]> (w_actives w)) (w_imports w) (w_begun w) (w_granted w).
Definition set_import (w : World) (id : nat) (t : Import) : World := mkWorld (w_disk w) (w_locks w) (w_stores w) (w_actives w) (<[id := t]> (w_imports w)) (w_begun w) (w_granted w).
Definition set_begun (w : World) (b : gmap nat (nat * begun_op)) : World := mkWorld (w_disk w) (w_locks w) (w_stores w) (w_actives w) (w_imports w) b (w_granted w).
Definition grant (w : World) (runID : string) (generation : Z) : World :=
  mkWorld (w_disk w) (w_locks w) (w_stores w) (w_actives w) (w_imports w) (w_begun w) (w_granted w ++ [(runID, generation)]).

(** ** Identity *)

Definition allZero (value : string) : bool := forallb (Z.eqb 0) (byte_codes value).

Definition identity_fields (identity : string) : Z * string * string :=
  (word (take 8 (byte_codes identity)), of_codes (take 32 (drop 8 (byte_codes identity))), of_codes (drop 40 (byte_codes identity))).

(** The identity [Open] takes from the file, [None] where it is refused. *)
Definition identity_of_file (identity : string) : option Identity :=
  if negb (slen identity =? identityBytes) then None
  else
    let '(generation, scope, key) := identity_fields identity in
    if (generation =? 0) || allZero scope || allZero key || String.eqb scope key then None else Some (mkIdentity generation scope key).

Definition identityName : string := "identity.key".

(** The lock file of the identity keeps this atomic.  [random] is what the
    random source gives, [None] where it fails. *)
Definition loadOrCreateIdentity (d : Disk) (o : oracle) (random : option string) : Disk * result run_error string :=
  if negb (or_acquire o) then (d, Err ErrUnavailable)
  else
    let unlocked r := match or_unlock o with CloseOk => r | CloseFailed _ => Err ErrUnavailable end in
    match dk_visible d !! identityName with
    | Some identity =>
        if or_read o && (slen identity =? identityBytes) then (d, unlocked (Ok identity)) else (d, Err ErrUnavailable)
    | None =>
        if negb (or_read o) then (d, Err ErrUnavailable)
        else match random with
        | None => (d, Err ErrUnavailable)
        | Some bytes =>
            if negb (slen bytes =? 64) || String.eqb (of_codes (take 32 (byte_codes bytes))) (of_codes (drop 32 (byte_codes bytes))) then (d, Err ErrUnavailable)
            else
              let identity := of_codes (big_endian 8 1) +:+ bytes in
              let '(d, ok) := writeFileAtomic d identityName identity (or_write o) in
              (d, if ok then unlocked (Ok identity) else Err ErrUnavailable)
        end
    end.

(** The directory of the configuration is clean and absolute, and bound. *)
Definition Open (w : World) (sid : nat) (o : oracle) (random : option string) : World * result run_error unit :=
  match loadOrCreateIdentity (w_disk w) o random with
  | (d, Err e) => (set_disk w d, Err e)
  | (d, Ok file) =>
      match identity_of_file file with
      | None => (set_disk w d, Err ErrUnavailable)
      | Some identity => (set_store (set_disk w d) sid (mkStore identity [] 0 false false None), Ok tt)
      end
  end.

(** ** Leases on the store *)

Definition contextError (ctx : Ctx) (at_ : nat) : option run_error :=
  match ctx with None => Some ErrConfiguration | Some cause => ErrContext <$> cause at_ end.
Definition shift (ctx : Ctx) (n : nat) : Ctx := (fun cause at_ => cause (n + at_)%nat) <$> ctx.

Definition zero_key : string := of_codes (replicate 32 0).
Definition finishDirectoryClose (s : Store) (o : oracle) : Store * option run_error :=
  let err := if or_directory o then st_closeErr s else Some ErrUnavailable in
  (mkStore (mkIdentity (id_generation (st_identity s)) (id_scope (st_identity s)) zero_key) (st_uncertain s) (st_leases s) (st_closing s) true err, err).

Definition beginLease (s : Store) : result run_error Store :=
  if st_closing s || st_closed s then Err ErrClosed
  else Ok (mkStore (st_identity s) (st_uncertain s) (st_leases s + 1) (st_closing s) (st_closed s) (st_closeErr s)).

Definition endLease (s : Store) (o : oracle) : Store * option run_error :=
  if st_leases s =? 0 then (s, Some ErrState)
  else
    let s := mkStore (st_identity s) (st_uncertain s) (st_leases s - 1) (st_closing s) (st_closed s) (st_closeErr s) in
    if negb (st_leases s =? 0) || negb (st_closing s) || st_closed s then (s, None) else finishDirectoryClose s o.

Definition markUncertain (s : Store) (runID : string) : Store :=
  mkStore (st_identity s) (runID :: st_uncertain s) (st_leases s) (st_closing s) (st_closed s) (st_closeErr s).
Definition isUncertain (s : Store) (runID : string) : bool := elem_str runID (st_uncertain s).

(** [Store.Close]; a store already closed answers as the first close did. *)
Definition Store_Close (s : Store) (o : oracle) : Store * option run_error :=
  if st_closed s then (s, st_closeErr s)
  else
    let s := mkStore (st_identity s) (st_uncertain s) (st_leases s) true (st_closed s) (st_closeErr s) in
    if negb (st_leases s =? 0) then (s, Some ErrBusy) else finishDirectoryClose s o.

(** ** Records of the store *)

(** Whether the writer was called, its error, and the directory after it. *)
Definition writeRecord (s : Store) (d : Disk) (ctx : Ctx) (at_ : nat) (o : write_outcome) (runID : string) (value : record)
  : bool * option run_error * Disk :=
  match contextError ctx at_ with
  | Some err => (false, Some err, d)
  | None =>
      match encodeRecord (st_identity s) runID value with
      | Err err => (false, Some err, d)
      | Ok wire =>
          match contextError ctx (S at_) with
          | Some err => (false, Some err, d)
          | None =>
              if st_closed s then (true, Some ErrUnavailable, d)
              else let '(d, ok) := writeFileAtomic d (stateName runID) wire o in (true, if ok then None else Some ErrUnavailable, d)
          end
      end
  end.

Definition readRecord (s : Store) (d : Disk) (o : oracle) (runID : string) : result run_error record :=
  if st_closed s || negb (or_read o) then Err ErrUnavailable
  else match dk_visible d !! stateName runID with
  | None => Err ErrNotExist
  | Some wire => if slen wire >? maximumRecordSize then Err ErrUnavailable else decodeRecord (st_identity s) runID wire
  end.

(** *** The lock of a run *)

Definition acquireStableLock (w : World) (s : Store) (o : oracle) (runID : string) (who : owner) : result run_error World :=
  if st_closed s || negb (or_acquire o) then Err ErrUnavailable
  else match w_locks w !! lockName runID with
  | Some _ => Err ErrBusy
  | None => Ok (set_locks w (<[lockName runID := who]> (w_locks w)))
  end.

(** The lock given back; a release that fails may keep it until the process
    ends. *)
Definition closeLock (w : World) (sid : nat) (runID : string) (o : oracle) : World * option run_error :=
  match or_unlock o with
  | CloseOk => (set_locks w (delete (lockName runID) (w_locks w)), None)
  | CloseFailed true => (set_locks w (delete (lockName runID) (w_locks w)), Some ErrUnavailable)
  | CloseFailed false => (set_locks w (<[lockName runID := Lost sid]> (w_locks w)), Some ErrUnavailable)
  end.

(** The deferred release of a lease that no handle took over. *)
Definition dropLease (w : World) (sid : nat) (o : oracle) : World :=
  match w_stores w !! sid with Some s => set_store w sid (endLease s o).1 | None => w end.

(** ** Start *)

Section Operations.
Context (Size : Wire.ProtoMessage -> Z) (Quote : string -> string).

Definition validateContextAndRun (ctx : Ctx) (at_ : nat) (runID : string) : option run_error :=
  match contextError ctx at_ with Some err => Some err | None => validateRunID runID end.

(** The lease taken, unless the run is uncertain. *)
Definition begin_run (w : World) (sid : nat) (s : Store) (call : nat) (op : begun_op) (runID : string) (o : oracle) : World * result run_error unit :=
  match beginLease s with
  | Err err => (w, Err err)
  | Ok s =>
      if isUncertain s runID then (set_store w sid (endLease s o).1, Err ErrUncertain)
      else (set_begun (set_store w sid s) (<[call := (sid, op)]> (w_begun w)), Ok tt)
  end.

Definition Start_begin (w : World) (sid : nat) (call : nat) (o : oracle) (runID : string) : World * result run_error unit :=
  match w_stores w !! sid with
  | None => (w, Err ErrUnavailable)
  | Some s =>
      match validateContextAndRun (or_ctx o) 0 runID with
      | Some err => (w, Err err)
      | None => begin_run w sid s call (BeginStart runID) runID o
      end
  end.

(** From the lock on; the context is observed from [1] on.  [id] names the new
    lease. *)
Definition Start_locked (w : World) (sid : nat) (call id : nat) (o : oracle) (runID : string) : World * result run_error unit :=
  match w_stores w !! sid with
  | None => (w, Err ErrUnavailable)
  | Some s =>
      let w := set_begun w (delete call (w_begun w)) in
      let fail w err := (dropLease w sid o, Err err) in
      match acquireStableLock w s o runID (ByActive id) with
      | Err err => fail w err
      | Ok w =>
          let unlock w := (closeLock w sid runID o).1 in
          match readRecord s (w_disk w) o runID with
          | Ok _ => fail (unlock w) ErrState
          | Err ErrVerification => fail (unlock w) ErrVerification
          | Err ErrNotExist =>
              let '(attempted, err, d) := writeRecord s (w_disk w) (or_ctx o) 1 (or_write o) runID (baseRecord (st_identity s) runID 1 PhaseActive) in
              let w := set_disk w d in
              match err with
              | Some err =>
                  if attempted then fail (set_store (unlock w) sid (markUncertain s runID)) ErrUncertain else fail (unlock w) err
              | None => (grant (set_active w id (mkActive sid true runID 1 None false None false)) runID 1, Ok tt)
              end
          | Err _ => fail (unlock w) ErrUnavailable
          end
      end
  end.

(** ** Preparing an import *)

Definition PrepareImport_begin (w : World) (sid : nat) (call : nat) (o : oracle) (snapshot : option Wire.SnapshotEnvelope) : World * result run_error unit :=
  match w_stores w !! sid, or_ctx o, snapshot with
  | Some s, Some cause, Some envelope =>
      match cause 0%nat with
      | Some c => (w, Err (ErrContext c))
      | None =>
          if set (ValidateSnapshotEnvelope Size Quote (Some envelope)) || negb (Wire.se_lifecycle envelope =? Wire.SNAPSHOT_LIFECYCLE_SUSPENDED)
          then (w, Err ErrVerification)
          else begin_run w sid s call (BeginImport envelope) (Wire.se_runID envelope) o
      end
  | _, _, _ => (w, Err ErrVerification)
  end.

Definition snapshotImportLimits : Limits := mkWireLimits (MaximumSnapshotEnvelopeBytes + 1024) 1 1 1 1 1.

(** The keyed check of the envelope; the context is observed from [1] to [3],
    and at [4] after a refusal. *)
Definition prepare_check (s : Store) (o : oracle) (value : record) (snapshot : Wire.SnapshotEnvelope) : result run_error HMACSnapshotAuthority :=
  match snapshotCodec (st_identity s) (Wire.se_runID snapshot) (rc_runGeneration value) with
  | Err _ => Err ErrVerification
  | Ok codec =>
      let request := Wire.mkImportSnapshotRequest "run-authority" 1 "prepare-import" (Some snapshot) in
      let ctx := shift (or_ctx o) 1 in
      match ValidateImportSnapshotRequest Size Quote ctx (Some request) (Some (hmac_verifier ctx codec)) (Some snapshotImportLimits) with
      | Some _ => match contextError (or_ctx o) 4 with Some cause => Err cause | None => Err ErrVerification end
      | None => Ok codec
      end
  end.

Definition PrepareImport_locked (w : World) (sid : nat) (call id : nat) (o : oracle) (snapshot : Wire.SnapshotEnvelope) : World * result run_error unit :=
  match w_stores w !! sid with
  | None => (w, Err ErrUnavailable)
  | Some s =>
      let runID := Wire.se_runID snapshot in
      let w := set_begun w (delete call (w_begun w)) in
      let fail w err := (dropLease w sid o, Err err) in
      match acquireStableLock w s o runID (ByImport id) with
      | Err err => fail w err
      | Ok w =>
          let unlock w := (closeLock w sid runID o).1 in
          match readRecord s (w_disk w) o runID with
          | Err _ => fail (unlock w) ErrVerification
          | Ok value =>
              if negb (matchesSuspended (st_identity s) value snapshot) then fail (unlock w) ErrVerification
              else match prepare_check s o value snapshot with
              | Err err => fail (unlock w) err
              | Ok codec =>
                  let claim := default (Wire.mkSnapshotAuthority "" 0 "") (Wire.se_authority snapshot) in
                  (set_import w id (mkImport sid true runID (rc_runGeneration value) (Wire.sa_scopeID claim) (Wire.sa_hmacSHA256 claim) codec false false false), Ok tt)
              end
          end
      end
  end.

(** ** The lease of an active run *)

Definition active_error (a : Active) : option run_error := if ac_uncertain a then Some ErrUncertain else ac_snapshotIssueErr a.

Definition SnapshotIssueError (a : Active) : run_error := default ErrState (active_error a).
Definition SnapshotIssuePreflight (a : Active) (runID : string) : option run_error :=
  match active_error a with
  | Some err => Some err
  | None => if ac_closed a || negb (ac_lock a) || negb (String.eqb runID (ac_runID a)) then Some ErrState else None
  end.

Definition with_uncertain (a : Active) (issueErr : option run_error) : Active :=
  mkActive (ac_store a) (ac_lock a) (ac_runID a) (ac_runGeneration a) (ac_suspended a) true issueErr (ac_closed a).
Definition with_suspended (a : Active) (generation : Z) (s : option snapshotRecord) : Active :=
  mkActive (ac_store a) (ac_lock a) (ac_runID a) generation s (ac_uncertain a) (ac_snapshotIssueErr a) (ac_closed a).

Definition Active_finish (w : World) (id : nat) (a : Active) (o : oracle) : World * option run_error :=
  if ac_closed a || negb (ac_lock a) then (w, None)
  else
    let '(w, lockErr) := closeLock w (ac_store a) (ac_runID a) o in
    let '(w, leaseErr) := match w_stores w !! ac_store a with
      | Some s => let '(s, err) := endLease s o in (set_store w (ac_store a) s, err)
      | None => (w, Some ErrState)
      end in
    let failed := match lockErr, leaseErr with None, None => false | _, _ => true end in
    let issueErr := if failed && negb (ac_uncertain a) then Some ErrUnavailable else ac_snapshotIssueErr a in
    (set_active w id (mkActive (ac_store a) false (ac_runID a) (ac_runGeneration a) (ac_suspended a) (ac_uncertain a) issueErr true),
     if failed then Some ErrUnavailable else None).

(** A write of the lease's record: an attempted write that fails leaves the
    lease, and the run in this store, uncertain. *)
Definition lease_write (w : World) (id : nat) (a : Active) (s : Store) (o : oracle) (at_ : nat) (issueErr : option run_error) (value : record)
  : World * option (bool * run_error) :=
  let '(attempted, err, d) := writeRecord s (w_disk w) (or_ctx o) at_ (or_write o) (ac_runID a) value in
  let w := set_disk w d in
  match err with
  | None => (w, None)
  | Some err =>
      if attempted then (set_store (set_active w id (with_uncertain a issueErr)) (ac_store a) (markUncertain s (ac_runID a)), Some (true, err))
      else (w, Some (false, err))
  end.

Definition phaseForLifecycle (lifecycle : Z) : string * bool :=
  if lifecycle =? Wire.SNAPSHOT_LIFECYCLE_SUSPENDED then (PhaseSuspended, true)
  else if lifecycle =? Wire.SNAPSHOT_LIFECYCLE_COMPLETED then (PhaseCompleted, false)
  else if lifecycle =? Wire.SNAPSHOT_LIFECYCLE_FAILED then (PhaseFailed, false)
  else if lifecycle =? Wire.SNAPSHOT_LIFECYCLE_CANCELLED then (PhaseCancelled, false)
  else ("", false)%string.

Definition signing : run_error := ErrSigning ErrSnapshotAuthoritySigning.

Definition snapshot_record (input : SnapshotAuthorityInput) (claim : Wire.SnapshotAuthority) : snapshotRecord :=
  mkSnapshotRecord (in_format input) (in_lastSequence input) (in_lifecycle input) (hex (in_payloadSHA256 input)) (hex (Wire.sa_hmacSHA256 claim)).

Definition Active_SignSnapshot (w : World) (id : nat) (o : oracle) (input : SnapshotAuthorityInput) : World * result run_error Wire.SnapshotAuthority :=
  match w_actives w !! id with
  | None => (w, Err signing)
  | Some a =>
      if ac_closed a || negb (ac_lock a) || ac_uncertain a || negb (String.eqb (in_runID input) (ac_runID a)) then (w, Err signing)
      else match contextError (or_ctx o) 0, w_stores w !! ac_store a with
      | Some err, _ => (w, Err err)
      | None, None => (w, Err signing)
      | None, Some s =>
          let '(phase, resumable) := phaseForLifecycle (in_lifecycle input) in
          if String.eqb phase "" then (w, Err signing)
          else if resumable && (ac_runGeneration a =? maxUint64) then (w, Err signing)
          else match snapshotCodec (st_identity s) (ac_runID a) (ac_runGeneration a) with
          | Err _ => (w, Err signing)
          | Ok codec =>
              match HMAC_SignSnapshot (Some codec) (or_ctx o) 1 input with
              | Err err => (w, Err (ErrSigning err))
              | Ok claim =>
                  let base := baseRecord (st_identity s) (ac_runID a) (ac_runGeneration a) phase in
                  if resumable then
                    let snapshot := snapshot_record input claim in
                    match ac_suspended a with
                    | Some issued => if decide (issued = snapshot) then (w, Ok claim) else (w, Err signing)
                    | None =>
                        let value := mkRecord (rc_version base) (rc_scopeID base) (rc_authorityGeneration base) (rc_runID base) (rc_runGeneration base) (rc_phase base) (Some snapshot) in
                        match lease_write w id a s o 2 (Some ErrUncertain) value with
                        | (w, Some (true, _)) => (w, Err signing)
                        | (w, Some (false, err)) => (w, Err err)
                        | (w, None) => (set_active w id (with_suspended a (ac_runGeneration a) (Some snapshot)), Ok claim)
                        end
                    end
                  else match lease_write w id a s o 2 (Some ErrUncertain) base with
                  | (w, Some (true, _)) => (w, Err signing)
                  | (w, Some (false, err)) => (w, Err err)
                  | (w, None) =>
                      match Active_finish w id a o with
                      | (w, Some _) => (w, Err signing)
                      | (w, None) => (w, Ok claim)
                      end
                  end
              end
          end
      end
  end.

Definition Active_Resume (w : World) (id : nat) (o : oracle) : World * option run_error :=
  match w_actives w !! id with
  | None => (w, Some ErrClosed)
  | Some a =>
      if ac_uncertain a then (w, Some ErrUncertain)
      else if ac_closed a || negb (ac_lock a) then (w, Some ErrClosed)
      else match ac_suspended a, contextError (or_ctx o) 0, w_stores w !! ac_store a with
      | None, _, _ => (w, Some ErrState)
      | Some _, Some err, _ => (w, Some err)
      | Some _, None, None => (w, Some ErrClosed)
      | Some _, None, Some s =>
          if ac_runGeneration a =? maxUint64 then (w, Some ErrState)
          else
            let nextGeneration := ac_runGeneration a +64 1 in
            match lease_write w id a s o 1 (ac_snapshotIssueErr a) (baseRecord (st_identity s) (ac_runID a) nextGeneration PhaseActive) with
            | (w, Some (true, _)) => (w, Some ErrUncertain)
            | (w, Some (false, err)) => (w, Some err)
            | (w, None) => (grant (set_active w id (with_suspended a nextGeneration None)) (ac_runID a) nextGeneration, None)
            end
      end
  end.

Definition Active_Terminal (w : World) (id : nat) (o : oracle) (phase : string) : World * option run_error :=
  match w_actives w !! id with
  | None => (w, Some ErrClosed)
  | Some a =>
      if ac_uncertain a then (w, Some ErrUncertain)
      else if ac_closed a || negb (ac_lock a) then (w, Some ErrClosed)
      else if negb (existsb (String.eqb phase) [PhaseCompleted; PhaseFailed; PhaseCancelled]) then (w, Some ErrState)
      else match w_stores w !! ac_store a with
      | None => (w, Some ErrClosed)
      | Some s =>
          match lease_write w id a s o 0 (ac_snapshotIssueErr a) (baseRecord (st_identity s) (ac_runID a) (ac_runGeneration a) phase) with
          | (w, Some (true, _)) => (w, Some ErrUncertain)
          | (w, Some (false, err)) => (w, Some err)
          | (w, None) => Active_finish w id a o
          end
      end
  end.

Definition Active_Close (w : World) (id : nat) (o : oracle) : World * option run_error :=
  match w_actives w !! id with
  | None => (w, None)
  | Some a =>
      if ac_closed a then (w, None)
      else let '(w, finishErr) := Active_finish w id a o in (w, if ac_uncertain a then Some ErrUncertain else finishErr)
  end.

(** ** Import transactions *)

Definition Import_VerifySnapshot (w : World) (id : nat) (o : oracle) (input : SnapshotAuthorityInput) (claim : option Wire.SnapshotAuthority) : option run_error :=
  let refused := Some (ErrSigning ErrSnapshotAuthorityVerification) in
  match w_imports w !! id with
  | None => refused
  | Some t =>
      if im_uncertain t then Some ErrUncertain
      else match claim, w_stores w !! im_store t with
      | Some c, Some s =>
          if im_closed t || im_consumed t || negb (String.eqb (in_runID input) (im_runID t)) || negb (String.eqb (Wire.sa_scopeID c) (im_expectedScope t))
             || negb (String.eqb (Wire.sa_hmacSHA256 c) (im_expectedMAC t)) || negb (Wire.sa_generation c =? id_generation (st_identity s))
          then refused
          else ErrSigning <$> HMAC_VerifySnapshot (Some (im_codec t)) (or_ctx o) 0 input claim
      | _, _ => refused
      end
  end.

Definition with_import (t : Import) (lock consumed uncertain closed : bool) : Import :=
  mkImport (im_store t) lock (im_runID t) (im_sourceRunGeneration t) (im_expectedScope t) (im_expectedMAC t) (im_codec t) consumed uncertain closed.

Definition Import_Consume (w : World) (id : nat) (o : oracle) : World * option run_error :=
  match w_imports w !! id with
  | None => (w, Some ErrClosed)
  | Some t =>
      if im_uncertain t then (w, Some ErrUncertain)
      else if im_closed t || im_consumed t then (w, Some ErrState)
      else match contextError (or_ctx o) 0, w_stores w !! im_store t with
      | Some err, _ => (w, Some err)
      | None, None => (w, Some ErrClosed)
      | None, Some s =>
          if im_sourceRunGeneration t =? maxUint64 then (w, Some ErrState)
          else
            let value := baseRecord (st_identity s) (im_runID t) (im_sourceRunGeneration t +64 1) PhaseImporting in
            let '(attempted, err, d) := writeRecord s (w_disk w) (or_ctx o) 1 (or_write o) (im_runID t) value in
            let w := set_disk w d in
            match err with
            | Some err =>
                if attempted then
                  (set_store (set_import w id (with_import t (im_lock t) true true (im_closed t))) (im_store t) (markUncertain s (im_runID t)), Some ErrUncertain)
                else (w, Some err)
            | None => (set_import w id (with_import t (im_lock t) true (im_uncertain t) (im_closed t)), None)
            end
      end
  end.

(** [next] names the lease the lock goes to. *)
Definition Import_Activate (w : World) (id next : nat) (o : oracle) : World * result run_error unit :=
  match w_imports w !! id with
  | None => (w, Err ErrClosed)
  | Some t =>
      if im_uncertain t then (w, Err ErrUncertain)
      else if im_closed t || negb (im_consumed t) || negb (im_lock t) then (w, Err ErrState)
      else match w_stores w !! im_store t with
      | None => (w, Err ErrClosed)
      | Some s =>
          let runGeneration := im_sourceRunGeneration t +64 1 in
          let '(attempted, err, d) := writeRecord s (w_disk w) (or_ctx o) 0 (or_write o) (im_runID t) (baseRecord (st_identity s) (im_runID t) runGeneration PhaseActive) in
          let w := set_disk w d in
          match err with
          | Some err =>
              if attempted then
                (set_store (set_import w id (with_import t (im_lock t) (im_consumed t) true (im_closed t))) (im_store t) (markUncertain s (im_runID t)), Err ErrUncertain)
              else (w, Err err)
          | None =>
              let w := set_locks w (<[lockName (im_runID t) := ByActive next]> (w_locks w)) in
              let w := set_import w id (with_import t false (im_consumed t) (im_uncertain t) true) in
              (grant (set_active w next (mkActive (im_store t) true (im_runID t) runGeneration None false None false)) (im_runID t) runGeneration, Ok tt)
          end
      end
  end.

Definition Import_Abort (w : World) (id : nat) (o : oracle) : World * option run_error :=
  match w_imports w !! id with
  | None => (w, None)
  | Some t =>
      if im_closed t then (w, None)
      else
        let '(w, lockErr) := closeLock w (im_store t) (im_runID t) o in
        let w := set_import w id (with_import t false (im_consumed t) (im_uncertain t) true) in
        let '(w, leaseErr) := match w_stores w !! im_store t with
          | Some s => let '(s, err) := endLease s o in (set_store w (im_store t) s, err)
          | None => (w, Some ErrState)
          end in
        (w, if im_consumed t || im_uncertain t then Some ErrUncertain
            else match lockErr, leaseErr with None, None => None | _, _ => Some ErrUnavailable end)
  end.

(** ** Failures of the machine *)

(** The process of a store ends: its locks are released. *)
Definition owned_by (w : World) (sid : nat) (who : owner) : bool :=
  match who with
  | ByActive id => match w_actives w !! id with Some a => Nat.eqb (ac_store a) sid | None => false end
  | ByImport id => match w_imports w !! id with Some t => Nat.eqb (im_store t) sid | None => false end
  | Lost store => Nat.eqb store sid
  end.
Definition crash (w : World) (sid : nat) : World :=
  mkWorld (w_disk w) (filter (fun x => owned_by w sid x.2 = false) (w_locks w)) (delete sid (w_stores w))
    (filter (fun x => ac_store x.2 <> sid) (w_actives w)) (filter (fun x => im_store x.2 <> sid) (w_imports w))
    (filter (fun x => x.2.1 <> sid) (w_begun w)) (w_granted w).

(** The machine stops: what was not synchronized may be gone. *)
Definition power_loss (w : World) : World := mkWorld (mkDisk (dk_durable (w_disk w)) (dk_durable (w_disk w))) ∅ ∅ ∅ ∅ ∅ (w_granted w).

(** ** Interleavings *)

Definition fresh (w : World) (id : nat) : Prop := w_actives w !! id = None /\ w_imports w !! id = None.

Inductive step : World -> World -> Prop :=
| step_open w sid o random : w_stores w !! sid = None -> step w (Open w sid o random).1
| step_start_begin w sid call o runID : w_begun w !! call = None -> step w (Start_begin w sid call o runID).1
| step_start_locked w sid call id o runID : w_begun w !! call = Some (sid, BeginStart runID) -> fresh w id ->
    step w (Start_locked w sid call id o runID).1
| step_prepare_begin w sid call o snapshot : w_begun w !! call = None -> step w (PrepareImport_begin w sid call o snapshot).1
| step_prepare_locked w sid call id o snapshot : w_begun w !! call = Some (sid, BeginImport snapshot) -> fresh w id ->
    step w (PrepareImport_locked w sid call id o snapshot).1
| step_sign w id o input : uint64_ok (in_lastSequence input) -> step w (Active_SignSnapshot w id o input).1
| step_resume w id o : step w (Active_Resume w id o).1
| step_terminal w id o phase : step w (Active_Terminal w id o phase).1
| step_close_active w id o : step w (Active_Close w id o).1
| step_consume w id o : step w (Import_Consume w id o).1
| step_activate w id next o : fresh w next -> step w (Import_Activate w id next o).1
| step_abort w id o : step w (Import_Abort w id o).1
| step_close_store w sid s o : w_stores w !! sid = Some s -> step w (set_store w sid (Store_Close s o).1)
| step_crash w sid : step w (crash w sid)
| step_power_loss w : step w (power_loss w).

Definition empty_world : World := mkWorld (mkDisk ∅ ∅) ∅ ∅ ∅ ∅ ∅ [].
Definition reachable (w : World) : Prop := rtc step empty_world w.
End Operations.

(** ** Names *)

#[local] Opaque sha256 hmac_sha256.

Lemma app_string_inj a b x y : String.length a = String.length b -> (a +:+ x = b +:+ y)%string -> a = b.
Proof.
  revert b. induction a as [|c a IH]; intros [|d b] Hl H; try done. cbn in Hl, H. injection H as -> H. f_equal. by apply IH; [lia|].
Qed.

Lemma runName_length runID : String.length (runName runID) = 68%nat.
Proof.
  unfold runName. assert (slen (hex (sha256 runID)) = 64) as H by (by rewrite hex_length, sha256_length). unfold slen in H.
  change (String.length ("run-" +:+ hex (sha256 runID))) with (4 + String.length (hex (sha256 runID)))%nat. lia.
Qed.

Lemma names_agree r r' : stateName r = stateName r' <-> lockName r = lockName r'.
Proof.
  unfold stateName, lockName. split; intros H; apply app_string_inj in H; try (by rewrite !runName_length); by rewrite H.
Qed.

Lemma state_not_identity r : stateName r <> identityName.
Proof. unfold stateName, runName, identityName. intros [=]. Qed.

#[local] Opaque runName stateName lockName hex.

(** ** Identities *)

Definition identity_in (m : gmap string string) : option Identity := match m !! identityName with Some file => identity_of_file file | None => None end.

Lemma word_bounds l : byte_list l -> forall acc, 0 <= acc -> acc * 256 ^ lenZ l <= foldl (fun acc b => acc * 256 + b) acc l < (acc + 1) * 256 ^ lenZ l.
Proof.
  induction 1 as [|b l Hb _ IH]; intros acc Ha; [unfold lenZ; cbn [length foldl]; change (256 ^ Z.of_nat 0) with 1; lia|]. cbn [foldl]. rewrite lenZ_cons. pose proof (lenZ_nonneg l). rewrite Z.pow_add_r by lia.
  specialize (IH (acc * 256 + b) ltac:(lia)). pose proof (Z.pow_pos_nonneg 256 (lenZ l) ltac:(lia) ltac:(lia)). change (256 ^ 1) with 256. nia.
Qed.

Lemma identity_of_file_ok file identity : identity_of_file file = Some identity -> identity_ok identity.
Proof.
  unfold identity_of_file, identity_fields. destruct (Z.eqb_spec (slen file) identityBytes) as [Hl|]; [|done]. cbn [negb]. destruct (_ || _); [done|]. intros [= <-].
  unfold identity_ok. cbn [id_generation id_scope]. pose proof (byte_codes_bytes file) as Hb. assert (Z.of_nat (length (byte_codes file)) = 72) as Hlen by (by rewrite byte_codes_length).
  split.
  - pose proof (word_bounds (take 8 (byte_codes file)) ltac:(by apply Forall_take) 0 ltac:(lia)) as H. unfold lenZ in H. rewrite length_take in H.
    replace (Z.of_nat (8 `min` length (byte_codes file))) with 8 in H by lia. unfold uint64_ok, maxUint64, word. change (256 ^ 8) with 18446744073709551616 in H. lia.
  - rewrite slen_of_codes. unfold lenZ. rewrite length_take, length_drop. lia.
Qed.

(** ** Files *)

(** The file [name] is the signed text of [rec]. *)
Definition holds (m : gmap string string) (name : string) (rec : record) : Prop :=
  exists identity runID content, identity_in m = Some identity /\ m !! name = Some content /\ stateName runID = name
    /\ encodeRecord identity runID rec = Ok content /\ record_sized rec.

Lemma holds_read m name rec identity runID content r : holds m name rec -> identity_in m = Some identity -> m !! name = Some content ->
  decodeRecord identity runID content = Ok r ->
  rc_runGeneration r = rc_runGeneration rec /\ rc_phase r = rc_phase rec /\ rc_snapshot r = rc_snapshot rec.
Proof.
  intros (identity' & runID' & content' & Hi & Hc & _ & He & Hs) Hi' Hc' Hd. assert (identity' = identity) as -> by congruence. assert (content' = content) as -> by congruence.
  assert (identity_ok identity) as Hok by (unfold identity_in in Hi; destruct (m !! identityName); [by eapply identity_of_file_ok|done]).
  rewrite (read_sound identity Hok runID' rec Hs content runID r He Hd). done.
Qed.

Lemma holds_unique m name rec rec' : holds m name rec -> holds m name rec' ->
  rc_runGeneration rec = rc_runGeneration rec' /\ rc_phase rec = rc_phase rec' /\ rc_snapshot rec = rc_snapshot rec'.
Proof.
  intros (i & r & c & Hi & Hc & _ & He & Hs) (i' & r' & c' & Hi' & Hc' & _ & He' & Hs'). assert (i' = i) as -> by congruence. assert (c' = c) as -> by congruence.
  assert (identity_ok i) as Hok by (unfold identity_in in Hi; destruct (m !! identityName); [by eapply identity_of_file_ok|done]).
  destruct (decode_encoded i Hok r rec Hs c He) as [E _]. destruct (decode_encoded i Hok r' rec' Hs' c He') as [E' _]. rewrite E in E'.
  apply (f_equal (fun x => match x with Some s => (rc_runGeneration (sg_record s), rc_phase (sg_record s), rc_snapshot (sg_record s)) | None => (0, ""%string, None) end)) in E'.
  cbn in E'. by injection E' as -> -> ->.
Qed.

Lemma holds_elsewhere m m' name rec changed : (forall n, n <> changed -> m' !! n = m !! n) -> changed <> identityName -> name <> changed -> holds m name rec -> holds m' name rec.
Proof.
  intros Ha Hi Hn (i & r & c & H1 & H2 & H3 & H4 & H5). exists i, r, c. unfold identity_in in *. rewrite !Ha by done. done.
Qed.

(** Every file but the identity is a record, and no file is behind a grant. *)
Definition files_ok (granted : list (string * Z)) (m : gmap string string) : Prop :=
  (forall name content, m !! name = Some content -> name <> identityName -> exists rec, holds m name rec)
  /\ forall r g, (r, g) ∈ granted -> exists rec, holds m (stateName r) rec /\ g <= rc_runGeneration rec.
Definition disk_ok (granted : list (string * Z)) (d : Disk) : Prop := files_ok granted (dk_visible d) /\ files_ok granted (dk_durable d).

Definition off (changed : string) (m m' : gmap string string) : Prop := forall n, n <> changed -> m' !! n = m !! n.

Lemma files_ok_write granted m identity runID rec content : files_ok granted m -> identity_in m = Some identity -> encodeRecord identity runID rec = Ok content ->
  record_sized rec -> (forall r g, (r, g) ∈ granted -> stateName r = stateName runID -> g <= rc_runGeneration rec) ->
  files_ok granted (<[stateName runID := content]> m) /\ holds (<[stateName runID := content]> m) (stateName runID) rec.
Proof.
  intros [H1 H2] Hi He Hs Hg. assert (holds (<[stateName runID := content]> m) (stateName runID) rec) as Hnew.
  { exists identity, runID, content. unfold identity_in in *. rewrite lookup_insert_ne by apply state_not_identity. by rewrite lookup_insert_eq. }
  split; [|done]. assert (off (stateName runID) m (<[stateName runID := content]> m)) as Hoff by (intros n Hn; by rewrite lookup_insert_ne).
  split.
  - intros name c Hc Hn. destruct (decide (name = stateName runID)) as [->|Hne]; [by exists rec|]. rewrite lookup_insert_ne in Hc by done.
    destruct (H1 _ _ Hc Hn) as [r Hr]. exists r. eapply holds_elsewhere; [exact Hoff|apply state_not_identity|done|done].
  - intros r g Hrg. destruct (decide (stateName r = stateName runID)) as [E|Hne]; [rewrite E; exists rec; split; [done|by eapply Hg]|].
    destruct (H2 _ _ Hrg) as (r' & Hr' & Hle). exists r'. split; [|done]. eapply holds_elsewhere; [exact Hoff|apply state_not_identity|done|done].
Qed.

Lemma write_disk_ok granted d identity runID rec content outcome : disk_ok granted d -> identity_in (dk_visible d) = Some identity ->
  encodeRecord identity runID rec = Ok content -> record_sized rec -> (forall r g, (r, g) ∈ granted -> stateName r = stateName runID -> g <= rc_runGeneration rec) ->
  let '(d', ok) := writeFileAtomic d (stateName runID) content outcome in
  disk_ok granted d' /\ off (stateName runID) (dk_visible d) (dk_visible d')
  /\ (ok = true -> dk_durable d' = dk_visible d' /\ holds (dk_visible d') (stateName runID) rec).
Proof.
  intros [Hv Hd] Hi He Hs Hg. destruct (files_ok_write granted (dk_visible d) identity runID rec content Hv Hi He Hs Hg) as [Hw Hh].
  assert (off (stateName runID) (dk_visible d) (<[stateName runID := content]> (dk_visible d))) as Hoff by (intros n Hn; by rewrite lookup_insert_ne).
  unfold writeFileAtomic. destruct outcome as [|[] synced]; cbn [dk_visible dk_durable].
  - by split_and!.
  - split; [|done]. split; [done|]. by destruct synced.
  - by split_and!.
Qed.

(** The record a store writes, whatever the outcome. *)
Lemma writeRecord_ok granted s d ctx at_ o runID value attempted err d' : disk_ok granted d ->
  (st_closed s = false -> identity_in (dk_visible d) = Some (st_identity s)) -> record_sized value ->
  (forall r g, (r, g) ∈ granted -> stateName r = stateName runID -> g <= rc_runGeneration value) ->
  writeRecord s d ctx at_ o runID value = (attempted, err, d') ->
  disk_ok granted d' /\ off (stateName runID) (dk_visible d) (dk_visible d') /\ (attempted = false -> d' = d /\ err <> None)
  /\ (err = None -> dk_durable d' = dk_visible d' /\ holds (dk_visible d') (stateName runID) value).
Proof.
  intros Hd Hi Hs Hg. unfold writeRecord. destruct (contextError ctx at_); [by intros [= <- <- <-]|]. destruct (encodeRecord (st_identity s) runID value) as [wire|e] eqn:He; [|by intros [= <- <- <-]].
  destruct (contextError ctx (S at_)); [by intros [= <- <- <-]|]. destruct (st_closed s) eqn:Ec; [by intros [= <- <- <-]|].
  pose proof (write_disk_ok granted d (st_identity s) runID value wire o Hd (Hi eq_refl) He Hs Hg) as H.
  destruct (writeFileAtomic d (stateName runID) wire o) as [d1 ok]. intros [= <- <- <-]. destruct H as (H1 & H2 & H3). split; [exact H1|]. split; [exact H2|]. split; [done|]. intros E. apply H3. by destruct ok.
Qed.

Lemma grant_disk_ok granted d runID g rec : disk_ok granted d -> dk_durable d = dk_visible d -> holds (dk_visible d) (stateName runID) rec -> g <= rc_runGeneration rec ->
  disk_ok (granted ++ [(runID, g)]) d.
Proof.
  intros [[H1 H2] _] E Hh Hg. assert (files_ok (granted ++ [(runID, g)]) (dk_visible d)) as Hv.
  { split; [done|]. intros r x Hin. apply elem_of_app in Hin as [Hin|Hin]; [by apply H2|]. apply list_elem_of_singleton in Hin. injection Hin as -> ->. by exists rec. }
  split; [done|]. by rewrite E.
Qed.

(** ** The invariant *)

Definition phase_of (a : Active) : string := if ac_suspended a then PhaseSuspended else PhaseActive.

(** A lease that can act owns its run's lock and knows the run's record. *)
Definition active_ok (m : gmap string string) (locks : gmap string owner) (granted : list (string * Z)) (id : nat) (a : Active) : Prop :=
  ac_lock a = true -> locks !! lockName (ac_runID a) = Some (ByActive id)
  /\ (ac_uncertain a = false -> (ac_runID a, ac_runGeneration a) ∈ granted
      /\ exists rec, holds m (stateName (ac_runID a)) rec /\ rc_runGeneration rec = ac_runGeneration a /\ rc_phase rec = phase_of a /\ rc_snapshot rec = ac_suspended a).

Definition import_ok (m : gmap string string) (locks : gmap string owner) (granted : list (string * Z)) (id : nat) (t : Import) : Prop :=
  (im_closed t = false -> im_lock t = true)
  /\ (im_lock t = true -> locks !! lockName (im_runID t) = Some (ByImport id)
      /\ (im_uncertain t = false -> uint64_ok (im_sourceRunGeneration t)
          /\ (forall r g, (r, g) ∈ granted -> stateName r = stateName (im_runID t) -> g <= im_sourceRunGeneration t)
          /\ (im_consumed t = true -> im_sourceRunGeneration t <> maxUint64)
          /\ exists rec, holds m (stateName (im_runID t)) rec
             /\ rc_phase rec = (if im_consumed t then PhaseImporting else PhaseSuspended)
             /\ rc_runGeneration rec = im_sourceRunGeneration t + (if im_consumed t then 1 else 0))).

Definition stores_ok (m : gmap string string) (stores : gmap nat Store) : Prop :=
  forall sid s, stores !! sid = Some s -> identity_ok (st_identity s) /\ (st_closed s = false -> identity_in m = Some (st_identity s)).

Record Inv (w : World) : Prop := {
  iv_disk : disk_ok (w_granted w) (w_disk w);
  iv_once : NoDup (map (fun x => (stateName x.1, x.2)) (w_granted w));
  iv_stores : stores_ok (dk_visible (w_disk w)) (w_stores w);
  iv_active id a : w_actives w !! id = Some a -> active_ok (dk_visible (w_disk w)) (w_locks w) (w_granted w) id a;
  iv_import id t : w_imports w !! id = Some t -> import_ok (dk_visible (w_disk w)) (w_locks w) (w_granted w) id t
}.

(** A step that concerns the run [runID] only. *)
Record near (runID : string) (w w' : World) : Prop := {
  nr_files : off (stateName runID) (dk_visible (w_disk w)) (dk_visible (w_disk w'));
  nr_locks n : n <> lockName runID -> w_locks w' !! n = w_locks w !! n;
  nr_granted r g : (r, g) ∈ w_granted w -> (r, g) ∈ w_granted w';
  nr_new r g : (r, g) ∈ w_granted w' -> (r, g) ∈ w_granted w \/ stateName r = stateName runID
}.

Lemma near_refl runID w : near runID w w.
Proof. split; try done; auto. Qed.

Lemma near_trans runID w1 w2 w3 : near runID w1 w2 -> near runID w2 w3 -> near runID w1 w3.
Proof.
  intros [A1 A2 A3 A4] [B1 B2 B3 B4]. split; [intros n Hn; by rewrite B1, A1|intros n Hn; by rewrite B2, A2|auto|]. intros r g H. destruct (B4 _ _ H); [by apply A4|by right].
Qed.

Lemma active_kept runID w w' id a : near runID w w' -> lockName (ac_runID a) <> lockName runID ->
  active_ok (dk_visible (w_disk w)) (w_locks w) (w_granted w) id a -> active_ok (dk_visible (w_disk w')) (w_locks w') (w_granted w') id a.
Proof.
  intros [H1 H2 H3 H4] Hn Ha Hl. destruct (Ha Hl) as [Hlock Hrec]. split; [by rewrite H2|]. intros Hu. destruct (Hrec Hu) as (Hg & rec & Hh & Hr). split; [auto|].
  exists rec. split; [|done]. eapply holds_elsewhere; [exact H1|apply state_not_identity|by rewrite names_agree|done].
Qed.

Lemma import_kept runID w w' id t : near runID w w' -> lockName (im_runID t) <> lockName runID ->
  import_ok (dk_visible (w_disk w)) (w_locks w) (w_granted w) id t -> import_ok (dk_visible (w_disk w')) (w_locks w') (w_granted w') id t.
Proof.
  intros [H1 H2 H3 H4] Hn [Hc Ha]. split; [done|]. intros Hl. destruct (Ha Hl) as [Hlock Hrec]. split; [by rewrite H2|]. intros Hu. destruct (Hrec Hu) as (Hs & Hg & Hm & rec & Hh & Hr).
  split; [done|]. split; [|split; [done|]].
  - intros r g Hin E. destruct (H4 _ _ Hin) as [Hold|Hnew]; [by eapply Hg|]. exfalso. apply Hn, names_agree. congruence.
  - exists rec. split; [|done]. eapply holds_elsewhere; [exact H1|apply state_not_identity|by rewrite names_agree|done].
Qed.

(** Steps of one run keep the invariant when they keep it for the run's own
    handles: every other handle that can act has another lock. *)
Lemma inv_near runID who w w' : Inv w -> near runID w w' -> (w_locks w !! lockName runID = None \/ w_locks w !! lockName runID = Some who) ->
  disk_ok (w_granted w') (w_disk w') -> NoDup (map (fun x => (stateName x.1, x.2)) (w_granted w')) -> stores_ok (dk_visible (w_disk w')) (w_stores w') ->
  (forall id a, w_actives w' !! id = Some a -> w_actives w !! id = Some a /\ who <> ByActive id \/ active_ok (dk_visible (w_disk w')) (w_locks w') (w_granted w') id a) ->
  (forall id t, w_imports w' !! id = Some t -> w_imports w !! id = Some t /\ who <> ByImport id \/ import_ok (dk_visible (w_disk w')) (w_locks w') (w_granted w') id t) ->
  Inv w'.
Proof.
  intros Hi Hn Hlock Hd Ho Hs Ha Ht. split; try done.
  - intros id a Hid. destruct (Ha id a Hid) as [[Hold Hwho]|]; [|done]. intros Hl. pose proof (iv_active _ Hi id a Hold) as Hok. eapply active_kept; [exact Hn| |exact Hok|exact Hl].
    intros E. destruct (Hok Hl) as [Hlk _]. rewrite E in Hlk. destruct Hlock as [H|H]; rewrite H in Hlk; [done|]. by injection Hlk.
  - intros id t Hid. destruct (Ht id t Hid) as [[Hold Hwho]|]; [|done]. pose proof (iv_import _ Hi id t Hold) as Hok. destruct (im_lock t) eqn:Hl.
    + eapply import_kept; [exact Hn| |exact Hok]. intros E. destruct Hok as [_ Hok]. destruct (Hok Hl) as [Hlk _]. rewrite E in Hlk. destruct Hlock as [H|H]; rewrite H in Hlk; [done|]. by injection Hlk.
    + destruct Hok as [Hc _]. split; [done|]. congruence.
Qed.

(** ** Stores *)

Definition store_later (s s' : Store) : Prop := (identity_ok (st_identity s) -> identity_ok (st_identity s'))
  /\ (st_closed s' = false -> st_closed s = false /\ st_identity s' = st_identity s).

Lemma endLease_later s o : store_later s (endLease s o).1.
Proof. unfold endLease, finishDirectoryClose, store_later. repeat case_match; cbn; done. Qed.
Lemma Store_Close_later s o : store_later s (Store_Close s o).1.
Proof. unfold Store_Close, finishDirectoryClose, store_later. destruct (st_closed s) eqn:E; [cbn; rewrite ?E; done|]. case_match; cbn; done. Qed.
Lemma beginLease_later s s' : beginLease s = Ok s' -> store_later s s'.
Proof. unfold beginLease, store_later. case_match; [done|]. by intros [= <-]. Qed.

Lemma identity_off runID m m' : off (stateName runID) m m' -> identity_in m' = identity_in m.
Proof. intros H. unfold identity_in. rewrite H; [done|]. intros E. by eapply state_not_identity. Qed.

Lemma stores_ok_set runID m m' stores sid s s' : stores_ok m stores -> off (stateName runID) m m' -> stores !! sid = Some s -> store_later s s' -> stores_ok m' (<[sid := s']> stores).
Proof.
  intros H Ho Hs [Hk Hl] sid' x Hx. rewrite (identity_off _ _ _ Ho). destruct (decide (sid' = sid)) as [->|Hne].
  - rewrite lookup_insert_eq in Hx. injection Hx as <-. destruct (H sid s Hs) as [Hi Hm]. split; [by apply Hk|]. intros Hc. destruct (Hl Hc) as [Hc' ->]. by apply Hm.
  - rewrite lookup_insert_ne in Hx by done. by eapply H.
Qed.
Lemma stores_ok_off runID m m' stores : stores_ok m stores -> off (stateName runID) m m' -> stores_ok m' stores.
Proof. intros H Ho sid s Hs. rewrite (identity_off _ _ _ Ho). by eapply H. Qed.

Lemma off_refl n m : off n m m.
Proof. by intros x _. Qed.
#[local] Hint Resolve off_refl endLease_later : core.

(** A step that leaves everything but the stores alone. *)
Lemma inv_same w w' : Inv w -> w_disk w' = w_disk w -> w_locks w' = w_locks w -> w_actives w' = w_actives w -> w_imports w' = w_imports w ->
  w_granted w' = w_granted w -> stores_ok (dk_visible (w_disk w)) (w_stores w') -> Inv w'.
Proof. intros [H1 H2 H3 H4 H5] E1 E2 E3 E4 E5 Hs. split; rewrite ?E1, ?E2, ?E3, ?E4, ?E5; done. Qed.

(** A step on a run nobody holds, that nobody holds after it. *)
Lemma inv_free runID w w' : Inv w -> w_locks w !! lockName runID = None -> near runID w w' -> w_granted w' = w_granted w -> disk_ok (w_granted w) (w_disk w') ->
  stores_ok (dk_visible (w_disk w')) (w_stores w') -> w_actives w' = w_actives w -> w_imports w' = w_imports w -> Inv w'.
Proof.
  intros Hi Hl Hn Hg Hd Hs Ha Ht. eapply (inv_near runID (Lost 0)); try done; [by left|by rewrite Hg|rewrite Hg; apply Hi| |].
  - intros id a H. left. by rewrite <- Ha.
  - intros id t H. left. by rewrite <- Ht.
Qed.

(** A step of the lease [id]. *)
Lemma inv_lease w w' id a a' : Inv w -> w_actives w !! id = Some a -> ac_lock a = true -> near (ac_runID a) w w' -> disk_ok (w_granted w') (w_disk w') ->
  NoDup (map (fun x => (stateName x.1, x.2)) (w_granted w')) -> stores_ok (dk_visible (w_disk w')) (w_stores w') ->
  w_actives w' = <[id := a']> (w_actives w) -> w_imports w' = w_imports w -> active_ok (dk_visible (w_disk w')) (w_locks w') (w_granted w') id a' -> Inv w'.
Proof.
  intros Hi Ha Hl Hn Hd Ho Hs Ea Et Hok. destruct (iv_active _ Hi id a Ha Hl) as [Hlock _]. eapply (inv_near (ac_runID a) (ByActive id)); try done; [by right| |].
  - intros id' x Hx. rewrite Ea in Hx. destruct (decide (id' = id)) as [->|Hne]; [rewrite lookup_insert_eq in Hx; injection Hx as <-; by right|].
    rewrite lookup_insert_ne in Hx by done. left. split; [done|]. intros [=]. congruence.
  - intros id' t Hx. left. by rewrite <- Et.
Qed.

(** A step of the transaction [id]. *)
Lemma inv_transaction w w' id t t' : Inv w -> w_imports w !! id = Some t -> im_lock t = true -> near (im_runID t) w w' -> disk_ok (w_granted w') (w_disk w') ->
  NoDup (map (fun x => (stateName x.1, x.2)) (w_granted w')) -> stores_ok (dk_visible (w_disk w')) (w_stores w') ->
  (forall id a, w_actives w' !! id = Some a -> w_actives w !! id = Some a \/ active_ok (dk_visible (w_disk w')) (w_locks w') (w_granted w') id a) ->
  w_imports w' = <[id := t']> (w_imports w) -> import_ok (dk_visible (w_disk w')) (w_locks w') (w_granted w') id t' -> Inv w'.
Proof.
  intros Hi Ht Hl Hn Hd Ho Hs Ha Et Hok. destruct (iv_import _ Hi id t Ht) as [_ Hlk]. destruct (Hlk Hl) as [Hlock _]. eapply (inv_near (im_runID t) (ByImport id)); try done; [by right| |].
  - intros id' a Hx. destruct (Ha _ _ Hx); [by left|by right].
  - intros id' x Hx. rewrite Et in Hx. destruct (decide (id' = id)) as [->|Hne]; [rewrite lookup_insert_eq in Hx; injection Hx as <-; by right|].
    rewrite lookup_insert_ne in Hx by done. left. split; [done|]. intros [=]. congruence.
Qed.

(** *** Releases *)

Lemma closeLock_locks w sid runID o : exists l, (closeLock w sid runID o).1 = set_locks w l /\ forall n, n <> lockName runID -> l !! n = w_locks w !! n.
Proof.
  unfold closeLock. destruct (or_unlock o) as [|[]]; eexists; (split; [reflexivity|]); intros n Hn; by rewrite ?lookup_delete_ne, ?lookup_insert_ne.
Qed.

Lemma dropLease_stores w sid o : exists stores, dropLease w sid o = mkWorld (w_disk w) (w_locks w) stores (w_actives w) (w_imports w) (w_begun w) (w_granted w)
  /\ forall runID m m', stores_ok m (w_stores w) -> off (stateName runID) m m' -> stores_ok m' stores.
Proof.
  unfold dropLease. destruct (w_stores w !! sid) as [s|] eqn:E.
  - exists (<[sid := (endLease s o).1]> (w_stores w)). split; [done|]. intros runID m m' H Ho. by eapply stores_ok_set.
  - exists (w_stores w). split; [by destruct w|]. intros runID m m' H Ho. by eapply stores_ok_off.
Qed.

(** *** Leases *)

(** What a lease that can act knows. *)
Lemma lease_newest w id a : Inv w -> w_actives w !! id = Some a -> ac_lock a = true -> ac_uncertain a = false ->
  uint64_ok (ac_runGeneration a) /\ (ac_runID a, ac_runGeneration a) ∈ w_granted w
  /\ forall r g, (r, g) ∈ w_granted w -> stateName r = stateName (ac_runID a) -> g <= ac_runGeneration a.
Proof.
  intros Hi Ha Hl Hu. destruct (iv_active _ Hi id a Ha Hl) as [_ Hrec]. destruct (Hrec Hu) as (Hin & rec & Hh & Hg & _). split.
  - destruct Hh as (_ & _ & _ & _ & _ & _ & _ & (_ & Hs & _)). by rewrite <- Hg.
  - split; [done|]. intros r g Hrg E. destruct (iv_disk _ Hi) as [[_ Hv] _]. destruct (Hv _ _ Hrg) as (rec' & Hh' & Hle). rewrite E in Hh'.
    destruct (holds_unique _ _ _ _ Hh Hh') as (E1 & _). lia.
Qed.

Lemma lease_write_spec w id a s o at_ issueErr value : Inv w -> w_actives w !! id = Some a -> ac_lock a = true -> ac_uncertain a = false ->
  w_stores w !! ac_store a = Some s -> record_sized value -> ac_runGeneration a <= rc_runGeneration value ->
  let '(w', r) := lease_write w id a s o at_ issueErr value in
  match r with
  | Some _ => Inv w'
  | None => exists d, w' = set_disk w d /\ disk_ok (w_granted w) d /\ off (stateName (ac_runID a)) (dk_visible (w_disk w)) (dk_visible d)
      /\ dk_durable d = dk_visible d /\ holds (dk_visible d) (stateName (ac_runID a)) value
  end.
Proof.
  intros Hi Ha Hl Hu Hs Hsz Hg. destruct (lease_newest w id a Hi Ha Hl Hu) as (_ & _ & Hnew). unfold lease_write.
  destruct (writeRecord s (w_disk w) (or_ctx o) at_ (or_write o) (ac_runID a) value) as [[attempted err] d] eqn:Ew.
  destruct (writeRecord_ok (w_granted w) s (w_disk w) (or_ctx o) at_ (or_write o) (ac_runID a) value attempted err d) as (Hd & Ho & Hno & Hyes);
    [apply Hi|by apply (iv_stores _ Hi _ _ Hs)|done|intros r g Hr E; specialize (Hnew r g Hr E); lia|done|].
  destruct err as [err|]; [|destruct (Hyes eq_refl) as [H1 H2]; by exists d]. destruct attempted.
  - destruct (iv_active _ Hi id a Ha Hl) as [Hlock _]. eapply (inv_lease w _ id a); [exact Hi|exact Ha|exact Hl| | | | |reflexivity|reflexivity|].
    + split; cbn; [exact Ho|done|done|auto].
    + exact Hd.
    + apply Hi.
    + cbn. eapply stores_ok_set; [apply Hi|exact Ho|exact Hs|by split].
    + intros _. cbn. by split.
  - destruct (Hno eq_refl) as [-> _]. by destruct w.
Qed.

(** A grant beyond every earlier one of the run. *)
Lemma once_grant granted runID g : NoDup (map (fun x => (stateName x.1, x.2)) granted) ->
  (forall r g', (r, g') ∈ granted -> stateName r = stateName runID -> g' < g) -> NoDup (map (fun x : string * Z => (stateName x.1, x.2)) (granted ++ [(runID, g)])).
Proof.
  intros Hn Hg. rewrite map_app. apply NoDup_app. split; [done|]. split; [|by apply NoDup_singleton]. intros [n x] Hin Hin'. cbn [map] in Hin'. apply list_elem_of_singleton in Hin'.
  apply pair_equal_spec in Hin' as [-> ->]. apply list_elem_of_fmap in Hin as ([r g'] & E & Hin). cbn [fst snd] in E. apply pair_equal_spec in E as [E Eg]. specialize (Hg _ _ Hin (eq_sym E)). lia.
Qed.

Lemma base_sized identity runID g phase : identity_ok identity -> uint64_ok g -> record_sized (baseRecord identity runID g phase).
Proof. intros [Hi _] Hg. by split_and!. Qed.

Lemma near_disk w runID d : off (stateName runID) (dk_visible (w_disk w)) (dk_visible d) -> near runID w (set_disk w d).
Proof. intros H. split; cbn; [done|done|done|auto]. Qed.

(** The record is written, and with it a lease that keeps its lock changes. *)
Lemma inv_recorded w id a d a' value : Inv w -> w_actives w !! id = Some a -> ac_lock a = true -> ac_uncertain a = false ->
  disk_ok (w_granted w) d -> off (stateName (ac_runID a)) (dk_visible (w_disk w)) (dk_visible d) -> holds (dk_visible d) (stateName (ac_runID a)) value ->
  ac_runID a' = ac_runID a -> (ac_runID a, ac_runGeneration a') ∈ w_granted w -> rc_runGeneration value = ac_runGeneration a' -> rc_phase value = phase_of a' ->
  rc_snapshot value = ac_suspended a' -> Inv (set_active (set_disk w d) id a').
Proof.
  intros Hi Ha Hl Hu Hd Ho Hh Er Hin E1 E2 E3. destruct (iv_active _ Hi id a Ha Hl) as [Hlock _].
  eapply (inv_lease w _ id a); [exact Hi|exact Ha|exact Hl|destruct (near_disk w _ _ Ho) as [N1 N2 N3 N4]; by split|exact Hd|apply Hi|eapply stores_ok_off; [apply Hi|exact Ho]|reflexivity|reflexivity|].
  intros _. cbn. rewrite Er. split; [done|]. intros _. split; [done|]. by exists value.
Qed.

(** The end of a lease over any record of its run. *)
Lemma finish_recorded w id a d o : Inv w -> w_actives w !! id = Some a -> ac_lock a = true -> ac_closed a = false -> disk_ok (w_granted w) d ->
  off (stateName (ac_runID a)) (dk_visible (w_disk w)) (dk_visible d) -> Inv (Active_finish (set_disk w d) id a o).1.
Proof.
  intros Hi Ha Hl Hc Hd Ho. unfold Active_finish. rewrite Hl, Hc. cbn [negb orb].
  destruct (closeLock_locks (set_disk w d) (ac_store a) (ac_runID a) o) as (l & Ew & Hlk). destruct (closeLock (set_disk w d) (ac_store a) (ac_runID a) o) as [w1 lockErr]. cbn [fst] in Ew. subst w1.
  cbn [set_locks set_disk w_stores w_locks] in *. assert (stores_ok (dk_visible d) (w_stores w)) as Hst by (eapply stores_ok_off; [apply Hi|exact Ho]).
  destruct (w_stores w !! ac_store a) as [s|] eqn:Es; [destruct (endLease s o) as [s' leaseErr] eqn:Ee|]; cbn [fst].
  - pose proof (endLease_later s o) as Hlater. rewrite Ee in Hlater. eapply (inv_lease w _ id a); [exact Hi|exact Ha|exact Hl| |exact Hd|apply Hi| |reflexivity|reflexivity|by intros [=]].
    + split; cbn; [exact Ho|exact Hlk|done|auto].
    + cbn. eapply (stores_ok_set (ac_runID a)); [exact Hst|done|exact Es|exact Hlater].
  - eapply (inv_lease w _ id a); [exact Hi|exact Ha|exact Hl|split; cbn; [exact Ho|exact Hlk|done|auto]|exact Hd|apply Hi|exact Hst|reflexivity|reflexivity|by intros [=]].
Qed.

Lemma resume_inv w id o : Inv w -> Inv (Active_Resume w id o).1.
Proof.
  intros Hi. unfold Active_Resume. destruct (w_actives w !! id) as [a|] eqn:Ha; [|done]. destruct (ac_uncertain a) eqn:Hu; [done|].
  destruct (ac_closed a || negb (ac_lock a)) eqn:Ec; [done|]. apply orb_false_iff in Ec as [Hc Hl]. apply negb_false_iff in Hl.
  destruct (ac_suspended a) as [sn|] eqn:Hsn; [|done]. destruct (contextError (or_ctx o) 0); [done|]. destruct (w_stores w !! ac_store a) as [s|] eqn:Hs; [|done].
  destruct (Z.eqb_spec (ac_runGeneration a) maxUint64) as [|Hmax]; [done|]. destruct (lease_newest w id a Hi Ha Hl Hu) as (Hok & Hin & Hnew).
  assert (uint64_ok (ac_runGeneration a + 1)) as Hok' by (unfold uint64_ok in *; lia). rewrite (u64_id (ac_runGeneration a + 1)) by done.
  pose proof (lease_write_spec w id a s o 1 (ac_snapshotIssueErr a) (baseRecord (st_identity s) (ac_runID a) (ac_runGeneration a + 1) PhaseActive) Hi Ha Hl Hu Hs) as H.
  destruct (lease_write w id a s o 1 (ac_snapshotIssueErr a) _) as [w1 [[[] err]|]]; [apply H|apply H|];
    try (apply base_sized; [by apply (iv_stores _ Hi _ _ Hs)|done]); try (cbn; lia).
  destruct H as (d & -> & Hd & Ho & Hdur & Hh); [apply base_sized; [by apply (iv_stores _ Hi _ _ Hs)|done]|cbn; lia|].
  destruct (iv_active _ Hi id a Ha Hl) as [Hlock _]. cbn [fst].
  eapply (inv_lease w _ id a); [exact Hi|exact Ha|exact Hl| | | | |reflexivity|reflexivity|].
  - split; cbn; [exact Ho|done|intros r g Hr; apply elem_of_app; by left|]. intros r g Hr. apply elem_of_app in Hr as [Hr|Hr]; [by left|]. apply list_elem_of_singleton in Hr. injection Hr as -> ->. by right.
  - cbn. eapply grant_disk_ok; [exact Hd|exact Hdur|exact Hh|cbn; lia].
  - cbn. apply once_grant; [apply Hi|]. intros r g Hr E. specialize (Hnew r g Hr E). lia.
  - cbn. eapply stores_ok_off; [apply Hi|exact Ho].
  - intros _. cbn. split; [done|]. intros _. split; [apply elem_of_app; right; by apply list_elem_of_singleton|]. eexists. split; [exact Hh|]. by cbn.
Qed.

Lemma run_terminal_inv w id o phase : Inv w -> Inv (Active_Terminal w id o phase).1.
Proof.
  intros Hi. unfold Active_Terminal. destruct (w_actives w !! id) as [a|] eqn:Ha; [|done]. destruct (ac_uncertain a) eqn:Hu; [done|].
  destruct (ac_closed a || negb (ac_lock a)) eqn:Ec; [done|]. apply orb_false_iff in Ec as [Hc Hl]. apply negb_false_iff in Hl. destruct (negb _); [done|].
  destruct (w_stores w !! ac_store a) as [s|] eqn:Hs; [|done]. destruct (lease_newest w id a Hi Ha Hl Hu) as (Hok & _).
  pose proof (lease_write_spec w id a s o 0 (ac_snapshotIssueErr a) (baseRecord (st_identity s) (ac_runID a) (ac_runGeneration a) phase) Hi Ha Hl Hu Hs
    (base_sized _ _ _ _ (proj1 (iv_stores _ Hi _ _ Hs)) Hok) ltac:(cbn; lia)) as H.
  destruct (lease_write w id a s o 0 (ac_snapshotIssueErr a) _) as [w1 [[[] err]|]]; [exact H|exact H|]. destruct H as (d & -> & Hd & Ho & Hdur & Hh). by apply finish_recorded.
Qed.

Lemma sign_inv w id o input : Inv w -> uint64_ok (in_lastSequence input) -> Inv (Active_SignSnapshot w id o input).1.
Proof.
  intros Hi Hseq. unfold Active_SignSnapshot. destruct (w_actives w !! id) as [a|] eqn:Ha; [|done]. destruct (_ || negb (String.eqb _ _)) eqn:Ec; [done|].
  rewrite !orb_false_iff in Ec. destruct Ec as (((Hc & Hl) & Hu) & _). apply negb_false_iff in Hl. destruct (contextError (or_ctx o) 0); [done|].
  destruct (w_stores w !! ac_store a) as [s|] eqn:Hs; [|done]. destruct (phaseForLifecycle (in_lifecycle input)) as [phase resumable] eqn:Ep. destruct (String.eqb phase ""); [done|].
  destruct (resumable && _); [done|]. destruct (snapshotCodec _ _ _) as [codec|]; [|done]. destruct (HMAC_SignSnapshot (Some codec) (or_ctx o) 1 input) as [claim|]; [|done].
  destruct (lease_newest w id a Hi Ha Hl Hu) as (Hok & Hin & _). pose proof (iv_stores _ Hi _ _ Hs) as [Hid _]. pose proof (base_sized (st_identity s) (ac_runID a) (ac_runGeneration a) phase Hid Hok) as Hbase.
  destruct resumable.
  - destruct (ac_suspended a) as [issued|] eqn:Hsn; [by destruct (decide _)|].
    match goal with |- context [lease_write w id a s o 2 _ ?v] => set (value := v) end. assert (record_sized value) as Hsz by (destruct Hbase as (B1 & B2 & _); by split_and!).
    pose proof (lease_write_spec w id a s o 2 (Some ErrUncertain) value Hi Ha Hl Hu Hs Hsz ltac:(cbn; lia)) as H.
    destruct (lease_write w id a s o 2 (Some ErrUncertain) value) as [w1 [[[] err]|]]; [exact H|exact H|]. destruct H as (d & -> & Hd & Ho & Hdur & Hh). cbn [fst].
    eapply (inv_recorded w id a d _ value); try done. unfold phaseForLifecycle in Ep. repeat (case_match; try discriminate). by injection Ep as <-.
  - pose proof (lease_write_spec w id a s o 2 (Some ErrUncertain) _ Hi Ha Hl Hu Hs Hbase ltac:(cbn; lia)) as H.
    destruct (lease_write w id a s o 2 (Some ErrUncertain) _) as [w1 [[[] err]|]]; [exact H|exact H|]. destruct H as (d & -> & Hd & Ho & Hdur & Hh).
    pose proof (finish_recorded w id a d o Hi Ha Hl Hc Hd Ho) as Hf. destruct (Active_finish (set_disk w d) id a o) as [w2 [err|]]; exact Hf.
Qed.

Lemma run_close_inv w id o : Inv w -> Inv (Active_Close w id o).1.
Proof.
  intros Hi. unfold Active_Close. destruct (w_actives w !! id) as [a|] eqn:Ha; [|done]. destruct (ac_closed a) eqn:Hc; [done|].
  assert (Inv (Active_finish w id a o).1) as H by (destruct (ac_lock a) eqn:Hl; [pose proof (finish_recorded w id a (w_disk w) o Hi Ha Hl Hc (iv_disk _ Hi) (off_refl _ _)) as H; by destruct w
    |unfold Active_finish; by rewrite Hl, orb_true_r]).
  destruct (Active_finish w id a o) as [w1 err]. exact H.
Qed.

(** *** Transactions *)

(** What a transaction that can act knows. *)
Lemma import_facts w id t : Inv w -> w_imports w !! id = Some t -> im_closed t = false -> im_uncertain t = false ->
  im_lock t = true /\ uint64_ok (im_sourceRunGeneration t) /\ w_locks w !! lockName (im_runID t) = Some (ByImport id)
  /\ (forall r g, (r, g) ∈ w_granted w -> stateName r = stateName (im_runID t) -> g <= im_sourceRunGeneration t)
  /\ (im_consumed t = true -> im_sourceRunGeneration t <> maxUint64).
Proof.
  intros Hi Ht Hc Hu. destruct (iv_import _ Hi id t Ht) as [Hlk Hok]. specialize (Hlk Hc). destruct (Hok Hlk) as [Hlock Hrec]. destruct (Hrec Hu) as (H1 & H2 & H3 & _). by split_and!.
Qed.

(** A write of the transaction that fails leaves it uncertain. *)
Lemma import_uncertain w id t t' d s : Inv w -> w_imports w !! id = Some t -> im_lock t = true -> disk_ok (w_granted w) d ->
  off (stateName (im_runID t)) (dk_visible (w_disk w)) (dk_visible d) -> w_stores w !! im_store t = Some s ->
  im_lock t' = true -> im_runID t' = im_runID t -> im_uncertain t' = true ->
  Inv (set_store (set_import (set_disk w d) id t') (im_store t) (markUncertain s (im_runID t))).
Proof.
  intros Hi Ht Hl Hd Ho Hs El Er Eu. destruct (iv_import _ Hi id t Ht) as [_ Hok]. destruct (Hok Hl) as [Hlock _].
  eapply (inv_transaction w _ id t); [exact Hi|exact Ht|exact Hl| |exact Hd|apply Hi| |by left|reflexivity|].
  - destruct (near_disk w _ _ Ho) as [N1 N2 N3 N4]. by split.
  - cbn. eapply stores_ok_set; [apply Hi|exact Ho|exact Hs|by split].
  - split; [done|]. intros _. cbn. rewrite Er. split; [done|]. congruence.
Qed.

Lemma consume_inv w id o : Inv w -> Inv (Import_Consume w id o).1.
Proof.
  intros Hi. unfold Import_Consume. destruct (w_imports w !! id) as [t|] eqn:Ht; [|done]. destruct (im_uncertain t) eqn:Hu; [done|].
  destruct (im_closed t || im_consumed t) eqn:Ec; [done|]. apply orb_false_iff in Ec as [Hc Hcons]. destruct (contextError (or_ctx o) 0); [done|].
  destruct (w_stores w !! im_store t) as [s|] eqn:Hs; [|done]. destruct (Z.eqb_spec (im_sourceRunGeneration t) maxUint64) as [|Hmax]; [done|].
  destruct (import_facts w id t Hi Ht Hc Hu) as (Hl & Hok & Hlock & Hold & _). assert (uint64_ok (im_sourceRunGeneration t + 1)) as Hok' by (unfold uint64_ok in *; lia).
  rewrite (u64_id (im_sourceRunGeneration t + 1)) by done. set (value := baseRecord _ _ _ _).
  destruct (writeRecord s (w_disk w) (or_ctx o) 1 (or_write o) (im_runID t) value) as [[attempted err] d] eqn:Ew.
  destruct (writeRecord_ok (w_granted w) s (w_disk w) (or_ctx o) 1 (or_write o) (im_runID t) value attempted err d) as (Hd & Ho & Hno & Hyes);
    [apply Hi|by apply (iv_stores _ Hi _ _ Hs)|apply base_sized; [by apply (iv_stores _ Hi _ _ Hs)|done]|intros r g Hr E; specialize (Hold r g Hr E); cbn; lia|done|].
  destruct err as [err|]; [destruct attempted|].
  - by apply (import_uncertain w id t _ d s).
  - destruct (Hno eq_refl) as [-> _]. by destruct w.
  - destruct (Hyes eq_refl) as [Hdur Hh]. cbn [fst]. eapply (inv_transaction w _ id t); [exact Hi|exact Ht|exact Hl| |exact Hd|apply Hi|eapply stores_ok_off; [apply Hi|exact Ho]|by left|reflexivity|].
    + destruct (near_disk w _ _ Ho) as [N1 N2 N3 N4]. by split.
    + split; [done|]. intros _. cbn. split; [done|]. intros _. split; [done|]. split; [done|]. split; [done|]. exists value. by split_and!.
Qed.

Lemma run_activate_inv w id next o : Inv w -> fresh w next -> Inv (Import_Activate w id next o).1.
Proof.
  intros Hi [Hfa Hfi]. unfold Import_Activate. destruct (w_imports w !! id) as [t|] eqn:Ht; [|done]. destruct (im_uncertain t) eqn:Hu; [done|].
  destruct (im_closed t || _ || _) eqn:Ec; [done|]. rewrite !orb_false_iff, !negb_false_iff in Ec. destruct Ec as ((Hc & Hcons) & _).
  destruct (w_stores w !! im_store t) as [s|] eqn:Hs; [|done]. destruct (import_facts w id t Hi Ht Hc Hu) as (Hl & Hok & Hlock & Hold & Hmax). specialize (Hmax Hcons).
  assert (uint64_ok (im_sourceRunGeneration t + 1)) as Hok' by (unfold uint64_ok in *; lia). rewrite (u64_id (im_sourceRunGeneration t + 1)) by done. set (value := baseRecord _ _ _ _).
  destruct (writeRecord s (w_disk w) (or_ctx o) 0 (or_write o) (im_runID t) value) as [[attempted err] d] eqn:Ew.
  destruct (writeRecord_ok (w_granted w) s (w_disk w) (or_ctx o) 0 (or_write o) (im_runID t) value attempted err d) as (Hd & Ho & Hno & Hyes);
    [apply Hi|by apply (iv_stores _ Hi _ _ Hs)|apply base_sized; [by apply (iv_stores _ Hi _ _ Hs)|done]|intros r g Hr E; specialize (Hold r g Hr E); cbn; lia|done|].
  destruct err as [err|]; [destruct attempted|].
  - by apply (import_uncertain w id t _ d s).
  - destruct (Hno eq_refl) as [-> _]. by destruct w.
  - destruct (Hyes eq_refl) as [Hdur Hh]. cbn [fst]. eapply (inv_transaction w _ id t); [exact Hi|exact Ht|exact Hl| | | | | |reflexivity|].
    + split; cbn; [exact Ho|intros n Hn; by rewrite lookup_insert_ne|intros r g Hr; apply elem_of_app; by left|].
      intros r g Hr. apply elem_of_app in Hr as [Hr|Hr]; [by left|]. apply list_elem_of_singleton in Hr. injection Hr as -> ->. by right.
    + cbn. eapply grant_disk_ok; [exact Hd|exact Hdur|exact Hh|cbn; lia].
    + cbn. apply once_grant; [apply Hi|]. intros r g Hr E. specialize (Hold r g Hr E). lia.
    + cbn. eapply stores_ok_off; [apply Hi|exact Ho].
    + cbn. intros id' a Hx. destruct (decide (id' = next)) as [->|Hne]; [|rewrite lookup_insert_ne in Hx by done; by left]. rewrite lookup_insert_eq in Hx. injection Hx as <-. right.
      intros _. cbn. rewrite lookup_insert_eq. split; [done|]. intros _. split; [apply elem_of_app; right; by apply list_elem_of_singleton|]. exists value. by split_and!.
    + split; [done|]. by intros [=].
Qed.

Lemma import_abort_inv w id o : Inv w -> Inv (Import_Abort w id o).1.
Proof.
  intros Hi. unfold Import_Abort. destruct (w_imports w !! id) as [t|] eqn:Ht; [|done]. destruct (im_closed t) eqn:Hc; [done|].
  destruct (iv_import _ Hi id t Ht) as [Hlk _]. specialize (Hlk Hc).
  destruct (closeLock_locks w (im_store t) (im_runID t) o) as (l & Ew & Hl). destruct (closeLock w (im_store t) (im_runID t) o) as [w1 lockErr]. cbn [fst] in Ew. subst w1. cbn [set_import set_locks w_stores].
  destruct (w_stores w !! im_store t) as [s|] eqn:Es; [destruct (endLease s o) as [s' leaseErr] eqn:Ee|]; cbn [fst].
  - pose proof (endLease_later s o) as Hlater. rewrite Ee in Hlater. eapply (inv_transaction w _ id t); [exact Hi|exact Ht|exact Hlk| |apply Hi|apply Hi| |by left|reflexivity|split; [done|by intros [=]]].
    + split; cbn; [done|exact Hl|done|auto].
    + cbn. eapply (stores_ok_set (im_runID t)); [apply Hi|done|exact Es|exact Hlater].
  - eapply (inv_transaction w _ id t); [exact Hi|exact Ht|exact Hlk| |apply Hi|apply Hi|apply Hi|by left|reflexivity|split; [done|by intros [=]]]. split; cbn; [done|exact Hl|done|auto].
Qed.

(** *** New handles *)

Section Preserved.
Context (Size : Wire.ProtoMessage -> Z) (Quote : string -> string).

Lemma run_begin_inv w sid s call op runID o : Inv w -> w_stores w !! sid = Some s -> Inv (begin_run w sid s call op runID o).1.
Proof.
  intros Hi Hs. unfold begin_run. destruct (beginLease s) as [s1|] eqn:Eb; [|done]. pose proof (beginLease_later _ _ Eb) as Hlater.
  destruct (isUncertain s1 runID); cbn [fst]; (eapply inv_same; [exact Hi|done..|]).
  - cbn. eapply (stores_ok_set runID); [apply Hi|done|exact Hs|]. destruct (endLease_later s1 o) as [E1 E2]. destruct Hlater as [L1 L2]. split; [auto|]. intros Hc. destruct (E2 Hc) as [Hc1 ->]. by apply L2.
  - cbn. eapply (stores_ok_set runID); [apply Hi|done|exact Hs|exact Hlater].
Qed.

Lemma start_begin_inv w sid call o runID : Inv w -> Inv (Start_begin w sid call o runID).1.
Proof.
  intros Hi. unfold Start_begin. destruct (w_stores w !! sid) as [s|] eqn:Hs; [|done]. destruct (validateContextAndRun _ _ _); [done|]. by apply run_begin_inv.
Qed.

Lemma prepare_begin_inv w sid call o snapshot : Inv w -> Inv (PrepareImport_begin Size Quote w sid call o snapshot).1.
Proof.
  intros Hi. unfold PrepareImport_begin. destruct (w_stores w !! sid) as [s|] eqn:Hs; [|done]. destruct (or_ctx o) as [cause|]; [|done]. destruct snapshot as [envelope|]; [|done].
  destruct (cause 0%nat); [done|]. destruct (_ || _); [done|]. by apply run_begin_inv.
Qed.

(** The lock was free; it is given back, with the lease. *)
Lemma failed_inv w sid call runID who o d stores : Inv w -> w_locks w !! lockName runID = None -> disk_ok (w_granted w) d ->
  off (stateName runID) (dk_visible (w_disk w)) (dk_visible d) -> stores_ok (dk_visible d) stores ->
  Inv (dropLease (closeLock (mkWorld d (<[lockName runID := who]> (w_locks w)) stores (w_actives w) (w_imports w) (delete call (w_begun w)) (w_granted w)) sid runID o).1 sid o).
Proof.
  intros Hi Hl Hd Ho Hs. match goal with |- context [closeLock ?x sid runID o] => destruct (closeLock_locks x sid runID o) as (l & -> & Hlk) end.
  match goal with |- context [dropLease ?x sid o] => destruct (dropLease_stores x sid o) as (stores' & -> & Hst) end. cbn in *.
  eapply (inv_free runID w); cbn; try done; [|by apply (Hst runID (dk_visible d))]. split; cbn; [done| |done|auto]. intros n Hn. rewrite Hlk by done. by rewrite lookup_insert_ne.
Qed.

Lemma failed_early w sid call o : Inv w -> Inv (dropLease (set_begun w (delete call (w_begun w))) sid o).
Proof.
  intros Hi. destruct (dropLease_stores (set_begun w (delete call (w_begun w))) sid o) as (stores & -> & Hst). eapply inv_same; [exact Hi|done..|]. cbn. apply (Hst ""%string (dk_visible (w_disk w))); [apply Hi|done].
Qed.

Lemma acquire_ok w s o runID who w1 : acquireStableLock w s o runID who = Ok w1 ->
  st_closed s = false /\ w_locks w !! lockName runID = None /\ w1 = set_locks w (<[lockName runID := who]> (w_locks w)).
Proof.
  unfold acquireStableLock. destruct (st_closed s); [done|]. destruct (negb _); [done|]. cbn [orb]. destruct (w_locks w !! lockName runID) eqn:E; [done|]. by intros [= <-].
Qed.

Lemma decode_error identity runID wire err : decodeRecord identity runID wire = Err err -> err = ErrVerification.
Proof. unfold decodeRecord. intros H. repeat (case_match; try discriminate); congruence. Qed.

(** No generation of a run without a file was ever granted. *)
Lemma unknown_run w runID : Inv w -> dk_visible (w_disk w) !! stateName runID = None -> forall r g, (r, g) ∈ w_granted w -> stateName r = stateName runID -> False.
Proof.
  intros Hi Hn r g Hr E. destruct (iv_disk _ Hi) as [[_ Hv] _]. destruct (Hv _ _ Hr) as (rec & (i & x & c & _ & Hc & _) & _). rewrite E in Hc. congruence.
Qed.

Lemma start_locked_inv w sid call id o runID : Inv w -> fresh w id -> Inv (Start_locked w sid call id o runID).1.
Proof.
  intros Hi [Hfa Hfi]. unfold Start_locked. destruct (w_stores w !! sid) as [s|] eqn:Hs; [|done].
  destruct (acquireStableLock (set_begun w (delete call (w_begun w))) s o runID (ByActive id)) as [w1|err] eqn:Ea; [|by apply failed_early].
  apply acquire_ok in Ea as (Hopen & Hlock & ->). cbn in Hlock. destruct (iv_stores _ Hi _ _ Hs) as [Hid Hm]. specialize (Hm Hopen).
  pose proof (failed_inv w sid call runID (ByActive id) o (w_disk w) (w_stores w) Hi Hlock (iv_disk _ Hi) (off_refl _ _) (iv_stores _ Hi)) as Hfail.
  cbn [set_locks set_begun w_disk w_locks w_stores w_actives w_imports w_begun w_granted] in *.
  unfold readRecord. rewrite Hopen. destruct (or_read o); cbn [orb negb]; [|exact Hfail].
  destruct (dk_visible (w_disk w) !! stateName runID) as [content|] eqn:Ef.
  { destruct (_ >? _); [exact Hfail|]. destruct (decodeRecord (st_identity s) runID content) as [r|err] eqn:Ed; [exact Hfail|]. rewrite (decode_error _ _ _ _ Ed). exact Hfail. }
  pose proof (unknown_run w runID Hi Ef) as Hnone. set (value := baseRecord _ _ _ _). assert (uint64_ok 1) as H1 by (unfold uint64_ok, maxUint64; lia).
  destruct (writeRecord s (w_disk w) (or_ctx o) 1 (or_write o) runID value) as [[attempted err] d] eqn:Ew.
  destruct (writeRecord_ok (w_granted w) s (w_disk w) (or_ctx o) 1 (or_write o) runID value attempted err d) as (Hd & Ho & Hno & Hyes);
    [apply Hi|done|by apply base_sized|intros r g Hr E; by destruct (Hnone r g)|done|].
  assert (stores_ok (dk_visible d) (w_stores w)) as Hst by (eapply stores_ok_off; [apply Hi|exact Ho]).
  destruct err as [err|]; [destruct attempted|].
  - pose proof (failed_inv w sid call runID (ByActive id) o d (<[sid := markUncertain s runID]> (w_stores w)) Hi Hlock Hd Ho) as Hf.
    destruct (or_unlock o) as [|[]] eqn:Eo; unfold closeLock in *; rewrite Eo in *; apply Hf; (eapply (stores_ok_set runID); [exact Hst|done|exact Hs|by split]).
  - destruct (Hno eq_refl) as [-> _]. exact Hfail.
  - destruct (Hyes eq_refl) as [Hdur Hh]. cbn [fst]. eapply (inv_near runID (ByActive id) w); [exact Hi| |by left| | |exact Hst| |].
    + split; cbn; [exact Ho|intros n Hn; by rewrite lookup_insert_ne|intros r g Hr; apply elem_of_app; by left|].
      intros r g Hr. apply elem_of_app in Hr as [Hr|Hr]; [by left|]. apply list_elem_of_singleton in Hr. injection Hr as -> ->. by right.
    + cbn. eapply grant_disk_ok; [exact Hd|exact Hdur|exact Hh|cbn; lia].
    + cbn. apply once_grant; [apply Hi|]. intros r g Hr E. by destruct (Hnone r g).
    + cbn. intros id' a Hx. destruct (decide (id' = id)) as [->|Hne]; [|rewrite lookup_insert_ne in Hx by done; left; split; [done|congruence]]. rewrite lookup_insert_eq in Hx. injection Hx as <-. right.
      intros _. cbn. rewrite lookup_insert_eq. split; [done|]. intros _. split; [apply elem_of_app; right; by apply list_elem_of_singleton|]. exists value. by split_and!.
    + cbn. intros id' t Hx. left. split; [done|]. intros [=].
Qed.

Lemma matches_suspended identity value snapshot : matchesSuspended identity value snapshot = true -> rc_phase value = PhaseSuspended.
Proof. unfold matchesSuspended. destruct (rc_snapshot value); [|done]. intros H. rewrite !andb_true_iff in H. destruct H as (((((((H & _) & _) & _) & _) & _) & _) & _). by apply String.eqb_eq. Qed.

Lemma prepare_locked_inv w sid call id o snapshot : Inv w -> fresh w id -> Inv (PrepareImport_locked Size Quote w sid call id o snapshot).1.
Proof.
  intros Hi [Hfa Hfi]. unfold PrepareImport_locked. destruct (w_stores w !! sid) as [s|] eqn:Hs; [|done]. set (runID := Wire.se_runID snapshot).
  destruct (acquireStableLock (set_begun w (delete call (w_begun w))) s o runID (ByImport id)) as [w1|err] eqn:Ea; [|by apply failed_early].
  apply acquire_ok in Ea as (Hopen & Hlock & ->). cbn in Hlock. destruct (iv_stores _ Hi _ _ Hs) as [Hid Hm]. specialize (Hm Hopen).
  pose proof (failed_inv w sid call runID (ByImport id) o (w_disk w) (w_stores w) Hi Hlock (iv_disk _ Hi) (off_refl _ _) (iv_stores _ Hi)) as Hfail.
  cbn [set_locks set_begun w_disk w_locks w_stores w_actives w_imports w_begun w_granted] in *.
  unfold readRecord. rewrite Hopen. destruct (or_read o); cbn [orb negb]; [|exact Hfail].
  destruct (dk_visible (w_disk w) !! stateName runID) as [content|] eqn:Ef; [|exact Hfail]. destruct (_ >? _); [exact Hfail|].
  destruct (decodeRecord (st_identity s) runID content) as [value|err] eqn:Ed; [|exact Hfail]. destruct (matchesSuspended (st_identity s) value snapshot) eqn:Em; [|exact Hfail]. cbn [negb].
  destruct (prepare_check Size Quote s o value snapshot) as [codec|err]; [|exact Hfail]. cbn [fst].
  destruct (iv_disk _ Hi) as [[Hv1 Hv2] _]. destruct (Hv1 _ _ Ef ltac:(apply state_not_identity)) as [rec Hrec]. destruct (holds_read _ _ _ _ _ _ _ Hrec Hm Ef Ed) as (Eg & Eph & _).
  eapply (inv_near runID (ByImport id) w); [exact Hi| |by left|apply Hi|apply Hi|apply Hi| |].
  - split; cbn; [done|intros n Hn; by rewrite lookup_insert_ne|done|auto].
  - cbn. intros id' a Hx. left. split; [done|]. intros [=].
  - cbn. intros id' t Hx. destruct (decide (id' = id)) as [->|Hne]; [|rewrite lookup_insert_ne in Hx by done; left; split; [done|congruence]]. rewrite lookup_insert_eq in Hx. injection Hx as <-. right.
    split; [done|]. intros _. cbn. rewrite lookup_insert_eq. split; [done|]. intros _.
    rewrite Eg. split; [by destruct Hrec as (? & ? & ? & _ & _ & _ & _ & _ & ? & _)|]. split; [|split; [done|]].
    + intros r g Hr E. destruct (Hv2 _ _ Hr) as (rec' & Hrec' & Hle). rewrite E in Hrec'. destruct (holds_unique _ _ _ _ Hrec Hrec') as [E' _]. lia.
    + exists rec. split; [done|]. rewrite <- Eph, (matches_suspended _ _ _ Em), Z.add_0_r. done.
Qed.

(** *** Opening, closing and failing stores *)

(** A directory without an identity holds nothing. *)
Lemma no_identity w : Inv w -> identity_in (dk_visible (w_disk w)) = None ->
  (forall name content, dk_visible (w_disk w) !! name = Some content -> name = identityName) /\ w_granted w = []
  /\ forall sid s, w_stores w !! sid = Some s -> st_closed s = true.
Proof.
  intros Hi Hn. assert (forall name rec, holds (dk_visible (w_disk w)) name rec -> False) as Hh by (intros ? ? (? & ? & ? & ? & _); congruence).
  destruct (iv_disk _ Hi) as [[H1 H2] _]. split_and!.
  - intros name c Hc. destruct (decide (name = identityName)); [done|]. destruct (H1 _ _ Hc n) as [rec Hrec]. by destruct (Hh _ _ Hrec).
  - destruct (w_granted w) as [|[r g] l]; [done|]. destruct (H2 r g ltac:(by left)) as (rec & Hrec & _). by destruct (Hh _ _ Hrec).
  - intros sid s Hs. destruct (st_closed s) eqn:E; [done|]. destruct (iv_stores _ Hi _ _ Hs) as [_ H]. rewrite Hn in H. by specialize (H E).
Qed.

Lemma identity_step w o random : Inv w -> let '(d, r) := loadOrCreateIdentity (w_disk w) o random in
  (d = w_disk w \/ identity_in (dk_visible (w_disk w)) = None /\ disk_ok [] d) /\ (forall file, r = Ok file -> dk_visible d !! identityName = Some file).
Proof.
  intros Hi. unfold loadOrCreateIdentity. destruct (or_acquire o); cbn [negb]; [|by split; [left|]]. destruct (dk_visible (w_disk w) !! identityName) as [file|] eqn:Ef.
  { destruct (_ && _); (split; [by left|]); [|done]. intros f. destruct (or_unlock o); [by intros [= <-]|done]. }
  destruct (or_read o); cbn [negb]; [|by split; [left|]]. destruct random as [bytes|]; [|by split; [left|]]. destruct (_ || _); [by split; [left|]|]. set (file := (_ +:+ bytes)%string).
  assert (identity_in (dk_visible (w_disk w)) = None) as Hn by (unfold identity_in; by rewrite Ef). destruct (no_identity w Hi Hn) as (Hempty & Hg & _).
  assert (forall m : gmap string string, (forall name c, m !! name = Some c -> name = identityName) -> files_ok [] m) as Hfiles.
  { intros m H. split; [|intros r g Hr; by apply elem_of_nil in Hr]. intros name c Hc Hne. by destruct (Hne (H _ _ Hc)). }
  assert (files_ok [] (<[identityName := file]> (dk_visible (w_disk w)))) as Hnew.
  { apply Hfiles. intros name c Hc. destruct (decide (name = identityName)); [done|]. rewrite lookup_insert_ne in Hc by done. by eapply Hempty. }
  destruct (iv_disk _ Hi) as [_ Hdur]. rewrite Hg in Hdur. unfold writeFileAtomic. destruct (or_write o) as [|[] synced]; cbn [dk_visible].
  - split; [right; by split|]. intros f. destruct (or_unlock o); [|done]. intros E. apply Ok_inj in E. by rewrite lookup_insert_eq, E.
  - split; [|done]. right. split; [done|]. split; [done|]. by destruct synced.
  - split; [by left|done].
Qed.

Lemma inv_identity w d : Inv w -> identity_in (dk_visible (w_disk w)) = None -> disk_ok [] d -> Inv (set_disk w d).
Proof.
  intros Hi Hn Hd. destruct (no_identity w Hi Hn) as (_ & Hg & Hs). split; cbn; [by rewrite Hg|apply Hi| | |].
  - intros sid s Hsid. destruct (iv_stores _ Hi _ _ Hsid) as [H _]. split; [done|]. rewrite (Hs _ _ Hsid). done.
  - intros id a Ha Hl. destruct (iv_active _ Hi id a Ha Hl) as [Hlock Hc]. split; [done|]. intros Hu. destruct (Hc Hu) as [Hin _]. rewrite Hg in Hin. by apply elem_of_nil in Hin.
  - intros id t Ht. destruct (iv_import _ Hi id t Ht) as [Hcl Hc]. split; [done|]. intros Hl. destruct (Hc Hl) as [Hlock Hr]. split; [done|]. intros Hu.
    destruct (Hr Hu) as (_ & _ & _ & rec & (? & ? & ? & ? & _) & _). congruence.
Qed.

Lemma open_inv w sid o random : Inv w -> Inv (Open w sid o random).1.
Proof.
  intros Hi. unfold Open. pose proof (identity_step w o random Hi) as H. destruct (loadOrCreateIdentity (w_disk w) o random) as [d r]. destruct H as [Hd Hr].
  assert (Inv (set_disk w d)) as Hw by (destruct Hd as [->|[Hn Hd]]; [by destruct w|by apply inv_identity]).
  destruct r as [file|e]; [|done]. destruct (identity_of_file file) as [identity|] eqn:Ei; [|done]. cbn [fst]. eapply inv_same; [exact Hw|done..|]. cbn.
  intros sid' s Hs. destruct (decide (sid' = sid)) as [->|Hne]; [|rewrite lookup_insert_ne in Hs by done; by apply (iv_stores _ Hw sid')].
  rewrite lookup_insert_eq in Hs. injection Hs as <-. cbn. split; [by eapply identity_of_file_ok|]. intros _. unfold identity_in. by rewrite (Hr _ eq_refl).
Qed.

Lemma store_close_inv w sid s o : Inv w -> w_stores w !! sid = Some s -> Inv (set_store w sid (Store_Close s o).1).
Proof.
  intros Hi Hs. eapply inv_same; [exact Hi|done..|]. cbn. eapply (stores_ok_set ""%string); [apply Hi|done|exact Hs|apply Store_Close_later].
Qed.

Lemma crash_inv w sid : Inv w -> Inv (crash w sid).
Proof.
  intros Hi. split; cbn; [apply Hi|apply Hi| | |].
  - intros sid' s Hs. apply lookup_delete_Some in Hs as [_ Hs]. by apply (iv_stores _ Hi sid').
  - intros id a Ha. apply map_lookup_filter_Some in Ha as [Ha Hne]. cbn in Hne. intros Hl. destruct (iv_active _ Hi id a Ha Hl) as [Hlock Hc]. split; [|done].
    apply map_lookup_filter_Some. split; [done|]. cbn. rewrite Ha. by apply Nat.eqb_neq.
  - intros id t Ht. apply map_lookup_filter_Some in Ht as [Ht Hne]. cbn in Hne. destruct (iv_import _ Hi id t Ht) as [Hcl Hc]. split; [done|]. intros Hl. destruct (Hc Hl) as [Hlock Hr]. split; [|done].
    apply map_lookup_filter_Some. split; [done|]. cbn. rewrite Ht. by apply Nat.eqb_neq.
Qed.

Lemma power_loss_inv w : Inv w -> Inv (power_loss w).
Proof. intros Hi. destruct (iv_disk _ Hi) as [_ Hd]. split; cbn; [by split|apply Hi|intros ? ? H; by rewrite lookup_empty in H..]. Qed.

Lemma step_inv w w' : step Size Quote w w' -> Inv w -> Inv w'.
Proof.
  intros [] Hi; [by apply open_inv|by apply start_begin_inv|by apply start_locked_inv|by apply prepare_begin_inv|by apply prepare_locked_inv|by apply sign_inv|by apply resume_inv
    |by apply run_terminal_inv|by apply run_close_inv|by apply consume_inv|by apply run_activate_inv|by apply import_abort_inv|by apply store_close_inv|by apply crash_inv|by apply power_loss_inv].
Qed.

Lemma world_inv w : reachable Size Quote w -> Inv w.
Proof.
  intros H. unfold reachable in H. assert (Inv empty_world) as Hi.
  { split; cbn; [|constructor|intros ? ? E; by rewrite lookup_empty in E..]. split; (split; [intros n c E; cbn in E; by rewrite lookup_empty in E|intros r g Hr; by apply elem_of_nil in Hr]). }
  revert Hi. induction H as [|w1 w2 w3 Hs _ IH]; [done|]. intros Hi. apply IH. by eapply step_inv.
Qed.

(** ** Tombstones *)

Definition tombstone (phase : string) : bool := existsb (String.eqb phase) [PhaseCompleted; PhaseFailed; PhaseCancelled].

(** The file [name] and the generations granted under it stay. *)
Definition disk_kept (name : string) (d d' : Disk) : Prop :=
  dk_visible d' !! name = dk_visible d !! name /\ (dk_durable d' !! name = dk_durable d !! name \/ dk_durable d' !! name = dk_visible d !! name).
Definition kept (name : string) (w w' : World) : Prop :=
  disk_kept name (w_disk w) (w_disk w') /\ forall r g, stateName r = name -> (r, g) ∈ w_granted w' -> (r, g) ∈ w_granted w.

Lemma kept_same name w w' : w_disk w' = w_disk w -> w_granted w' = w_granted w -> kept name w w'.
Proof. intros E1 E2. unfold kept, disk_kept. rewrite E1, E2. auto. Qed.

Lemma write_kept name s d ctx at_ o runID value : stateName runID <> name -> disk_kept name d (writeRecord s d ctx at_ o runID value).2.
Proof.
  intros Hn. unfold writeRecord, writeFileAtomic, disk_kept. destruct (contextError ctx at_); [by auto|]. destruct (encodeRecord _ _ _); [|by auto]. destruct (contextError ctx (S at_)); [by auto|].
  destruct (st_closed s); [by auto|]. destruct o as [|[] []]; cbn; rewrite ?lookup_insert_ne by done; auto.
Qed.

Lemma kept_grant name w d runID g : stateName runID <> name -> disk_kept name (w_disk w) d -> forall w', w_disk w' = d -> w_granted w' = w_granted w ++ [(runID, g)] -> kept name w w'.
Proof.
  intros Hn Hd w' <- E. split; [done|]. intros r x Er Hin. rewrite E in Hin. apply elem_of_app in Hin as [Hin|Hin]; [done|]. apply list_elem_of_singleton in Hin. injection Hin as -> ->. done.
Qed.

Lemma closeLock_rest w sid runID o : w_disk (closeLock w sid runID o).1 = w_disk w /\ w_granted (closeLock w sid runID o).1 = w_granted w.
Proof. unfold closeLock. by repeat case_match. Qed.
Lemma dropLease_rest w sid o : w_disk (dropLease w sid o) = w_disk w /\ w_granted (dropLease w sid o) = w_granted w.
Proof. unfold dropLease. by case_match. Qed.
Lemma finish_rest w id a o : w_disk (Active_finish w id a o).1 = w_disk w /\ w_granted (Active_finish w id a o).1 = w_granted w.
Proof.
  unfold Active_finish. destruct (_ || _); [done|]. destruct (closeLock_rest w (ac_store a) (ac_runID a) o) as [E1 E2].
  destruct (closeLock w (ac_store a) (ac_runID a) o) as [w1 e]. cbn [fst] in *. rewrite <- E1, <- E2. by repeat case_match; simplify_eq.
Qed.
Lemma abort_rest w id o : w_disk (Import_Abort w id o).1 = w_disk w /\ w_granted (Import_Abort w id o).1 = w_granted w.
Proof.
  unfold Import_Abort. destruct (w_imports w !! id) as [t|]; [|done]. destruct (im_closed t); [done|]. destruct (closeLock_rest w (im_store t) (im_runID t) o) as [E1 E2].
  destruct (closeLock w (im_store t) (im_runID t) o) as [w1 e]. cbn [fst] in *. rewrite <- E1, <- E2. by repeat case_match; simplify_eq.
Qed.

Section Buried.
Context (w : World) (name : string) (rec : record) (invariant : Inv w) (buried : holds (dk_visible (w_disk w)) name rec) (terminal : tombstone (rc_phase rec) = true).

(** No handle that can write holds the run. *)
Lemma lease_elsewhere id a : w_actives w !! id = Some a -> ac_lock a = true -> ac_uncertain a = false -> stateName (ac_runID a) <> name.
Proof using invariant buried terminal.
  intros Ha Hl Hu E. destruct (iv_active _ invariant id a Ha Hl) as [_ H]. destruct (H Hu) as (_ & rec' & Hh & _ & Hp & _). rewrite E in Hh.
  destruct (holds_unique _ _ _ _ buried Hh) as (_ & E' & _). rewrite E', Hp in terminal. unfold phase_of in terminal. by destruct (ac_suspended a).
Qed.
Lemma transaction_elsewhere id t : w_imports w !! id = Some t -> im_closed t = false -> im_uncertain t = false -> stateName (im_runID t) <> name.
Proof using invariant buried terminal.
  intros Ht Hc Hu E. destruct (iv_import _ invariant id t Ht) as [Hl H]. destruct (H (Hl Hc)) as [_ H']. destruct (H' Hu) as (_ & _ & _ & rec' & Hh & Hp & _). rewrite E in Hh.
  destruct (holds_unique _ _ _ _ buried Hh) as (_ & E' & _). rewrite E', Hp in terminal. by destruct (im_consumed t).
Qed.

Lemma lease_write_kept id a s o at_ issueErr value : stateName (ac_runID a) <> name ->
  disk_kept name (w_disk w) (w_disk (lease_write w id a s o at_ issueErr value).1) /\ w_granted (lease_write w id a s o at_ issueErr value).1 = w_granted w.
Proof using.
  intros Hn. unfold lease_write. pose proof (write_kept name s (w_disk w) (or_ctx o) at_ (or_write o) (ac_runID a) value Hn) as H.
  destruct (writeRecord _ _ _ _ _ _ _) as [[attempted err] d]. cbn [snd] in H. by repeat case_match.
Qed.

Lemma resume_kept id o : kept name w (Active_Resume w id o).1.
Proof using invariant buried terminal.
  unfold Active_Resume. destruct (w_actives w !! id) as [a|] eqn:Ha; [|by apply kept_same]. destruct (ac_uncertain a) eqn:Hu; [by apply kept_same|].
  destruct (ac_closed a || negb (ac_lock a)) eqn:Ec; [by apply kept_same|]. apply orb_false_iff in Ec as [Hc Hl]. apply negb_false_iff in Hl. pose proof (lease_elsewhere id a Ha Hl Hu) as Hn.
  destruct (ac_suspended a) as [sn|]; [|by apply kept_same]. destruct (contextError _ _); [by apply kept_same|]. destruct (w_stores w !! ac_store a) as [s|]; [|by apply kept_same]. destruct (_ =? _); [by apply kept_same|].
  pose proof (lease_write_kept id a s o 1 (ac_snapshotIssueErr a) (baseRecord (st_identity s) (ac_runID a) (ac_runGeneration a +64 1) PhaseActive) Hn) as [Hd Hg].
  destruct (lease_write _ _ _ _ _ _ _ _) as [w1 [[[] err]|]]; cbn [fst] in *; [by split; [|rewrite Hg]..|]. eapply kept_grant; [exact Hn|exact Hd|done|cbn; by rewrite Hg].
Qed.

Lemma terminal_kept id o phase : kept name w (Active_Terminal w id o phase).1.
Proof using invariant buried terminal.
  unfold Active_Terminal. destruct (w_actives w !! id) as [a|] eqn:Ha; [|by apply kept_same]. destruct (ac_uncertain a) eqn:Hu; [by apply kept_same|].
  destruct (ac_closed a || negb (ac_lock a)) eqn:Ec; [by apply kept_same|]. apply orb_false_iff in Ec as [Hc Hl]. apply negb_false_iff in Hl. pose proof (lease_elsewhere id a Ha Hl Hu) as Hn.
  destruct (negb _); [by apply kept_same|]. destruct (w_stores w !! ac_store a) as [s|]; [|by apply kept_same].
  pose proof (lease_write_kept id a s o 0 (ac_snapshotIssueErr a) (baseRecord (st_identity s) (ac_runID a) (ac_runGeneration a) phase) Hn) as [Hd Hg].
  destruct (lease_write _ _ _ _ _ _ _ _) as [w1 [[[] err]|]]; cbn [fst] in *; [by split; [|rewrite Hg]..|]. destruct (finish_rest w1 id a o) as [E1 E2]. split; [by rewrite E1|by rewrite E2, Hg].
Qed.

Lemma sign_kept id o input : kept name w (Active_SignSnapshot w id o input).1.
Proof using invariant buried terminal.
  unfold Active_SignSnapshot. destruct (w_actives w !! id) as [a|] eqn:Ha; [|by apply kept_same]. destruct (_ || negb (String.eqb _ _)) eqn:Ec; [by apply kept_same|].
  rewrite !orb_false_iff in Ec. destruct Ec as (((Hc & Hl) & Hu) & _). apply negb_false_iff in Hl. pose proof (lease_elsewhere id a Ha Hl Hu) as Hn.
  destruct (contextError _ _); [by apply kept_same|]. destruct (w_stores w !! ac_store a) as [s|]; [|by apply kept_same]. destruct (phaseForLifecycle _) as [phase resumable]. destruct (String.eqb phase ""); [by apply kept_same|].
  destruct (_ && _); [by apply kept_same|]. destruct (snapshotCodec _ _ _) as [codec|]; [|by apply kept_same]. destruct (HMAC_SignSnapshot _ _ _ _) as [claim|]; [|by apply kept_same].
  destruct resumable; [destruct (ac_suspended a); [by destruct (decide _); apply kept_same|]|];
    match goal with |- context [lease_write w id a s o 2 ?e ?v] => destruct (lease_write_kept id a s o 2 e v Hn) as [Hd Hg]; destruct (lease_write w id a s o 2 e v) as [w1 [[[] err]|]] end;
    cbn [fst] in *; try (by split; [|rewrite Hg]).
  - split; cbn; [done|by rewrite Hg].
  - destruct (finish_rest w1 id a o) as [E1 E2]. destruct (Active_finish w1 id a o) as [w2 [err|]]; cbn [fst] in *; (split; [by rewrite E1|by rewrite E2, Hg]).
Qed.

Lemma consume_kept id o : kept name w (Import_Consume w id o).1.
Proof using invariant buried terminal.
  unfold Import_Consume. destruct (w_imports w !! id) as [t|] eqn:Ht; [|by apply kept_same]. destruct (im_uncertain t) eqn:Hu; [by apply kept_same|].
  destruct (im_closed t || im_consumed t) eqn:Ec; [by apply kept_same|]. apply orb_false_iff in Ec as [Hc _]. pose proof (transaction_elsewhere id t Ht Hc Hu) as Hn.
  destruct (contextError _ _); [by apply kept_same|]. destruct (w_stores w !! im_store t) as [s|]; [|by apply kept_same]. destruct (_ =? _); [by apply kept_same|]. set (value := baseRecord _ _ _ _).
  pose proof (write_kept name s (w_disk w) (or_ctx o) 1 (or_write o) (im_runID t) value Hn) as Hd. destruct (writeRecord _ _ _ _ _ _ _) as [[[] [err|]] d]; by split.
Qed.

Lemma activate_kept id next o : kept name w (Import_Activate w id next o).1.
Proof using invariant buried terminal.
  unfold Import_Activate. destruct (w_imports w !! id) as [t|] eqn:Ht; [|by apply kept_same]. destruct (im_uncertain t) eqn:Hu; [by apply kept_same|].
  destruct (im_closed t || _ || _) eqn:Ec; [by apply kept_same|]. rewrite !orb_false_iff in Ec. destruct Ec as ((Hc & _) & _). pose proof (transaction_elsewhere id t Ht Hc Hu) as Hn.
  destruct (w_stores w !! im_store t) as [s|]; [|by apply kept_same]. set (value := baseRecord _ _ _ _).
  pose proof (write_kept name s (w_disk w) (or_ctx o) 0 (or_write o) (im_runID t) value Hn) as Hd. destruct (writeRecord _ _ _ _ _ _ _) as [[[] [err|]] d]; try by split.
  all: eapply kept_grant; [exact Hn|exact Hd|done|done].
Qed.

Lemma released_kept w' sid runID o : disk_kept name (w_disk w) (w_disk w') -> w_granted w' = w_granted w -> kept name w (dropLease (closeLock w' sid runID o).1 sid o).
Proof using.
  intros Hd Hg. destruct (closeLock_rest w' sid runID o) as [E1 E2]. destruct (dropLease_rest (closeLock w' sid runID o).1 sid o) as [E3 E4]. unfold kept. by rewrite E3, E1, E4, E2, Hg.
Qed.
Lemma dropped_kept w' sid o : disk_kept name (w_disk w) (w_disk w') -> w_granted w' = w_granted w -> kept name w (dropLease w' sid o).
Proof using. intros Hd Hg. destruct (dropLease_rest w' sid o) as [E3 E4]. unfold kept. by rewrite E3, E4, Hg. Qed.

Lemma prepare_kept sid call id o snapshot : kept name w (PrepareImport_locked Size Quote w sid call id o snapshot).1.
Proof using.
  assert (disk_kept name (w_disk w) (w_disk w)) as Hr by (unfold disk_kept; auto).
  unfold PrepareImport_locked. destruct (w_stores w !! sid) as [s|]; [|by apply kept_same]. destruct (acquireStableLock _ s o _ _) as [w1|err] eqn:Ea; [|by apply dropped_kept].
  apply acquire_ok in Ea as (_ & _ & ->). destruct (readRecord _ _ _ _); [|by apply released_kept]. destruct (negb _); [by apply released_kept|]. destruct (prepare_check _ _ _ _ _ _); [by apply kept_same|by apply released_kept].
Qed.

Lemma start_kept sid call id o runID : kept name w (Start_locked w sid call id o runID).1.
Proof using buried.
  assert (disk_kept name (w_disk w) (w_disk w)) as Hr by (unfold disk_kept; auto).
  unfold Start_locked. destruct (w_stores w !! sid) as [s|]; [|by apply kept_same]. destruct (acquireStableLock _ s o _ _) as [w1|err] eqn:Ea; [|by apply dropped_kept].
  apply acquire_ok in Ea as (Hopen & _ & ->). cbn [set_locks set_begun w_disk]. unfold readRecord. rewrite Hopen. destruct (or_read o); cbn [orb negb]; [|by apply released_kept].
  destruct (dk_visible (w_disk w) !! stateName runID) as [content|] eqn:Ef.
  { destruct (_ >? _); [by apply released_kept|]. destruct (decodeRecord _ _ _) as [r|err] eqn:Ed; [by apply released_kept|]. rewrite (decode_error _ _ _ _ Ed). by apply released_kept. }
  assert (stateName runID <> name) as Hn by (intros E; destruct buried as (? & ? & ? & _ & Hc & _); congruence). set (value := baseRecord _ _ _ _).
  pose proof (write_kept name s (w_disk w) (or_ctx o) 1 (or_write o) runID value Hn) as Hd. destruct (writeRecord _ _ _ _ _ _ _) as [[[] [err|]] d]; cbn [fst snd] in *.
  - match goal with |- kept _ _ (dropLease ?x _ _) => apply dropped_kept; destruct (closeLock_rest x sid runID o) end. all: unfold closeLock; by destruct (or_unlock o) as [|[]].
  - eapply kept_grant; [exact Hn|exact Hd|done|done].
  - by apply released_kept.
  - eapply kept_grant; [exact Hn|exact Hd|done|done].
Qed.

Lemma open_kept sid o random : kept name w (Open w sid o random).1.
Proof using invariant buried.
  unfold Open. pose proof (identity_step w o random invariant) as H. destruct (loadOrCreateIdentity (w_disk w) o random) as [d r]. destruct H as [[->|[Hn _]] _].
  - destruct r; [|by apply kept_same]. by destruct (identity_of_file _); apply kept_same.
  - destruct buried as (? & ? & ? & ? & _). congruence.
Qed.
End Buried.

(** A run with a durable tombstone. *)
Definition buried (w : World) (name content : string) : Prop :=
  dk_visible (w_disk w) !! name = Some content /\ dk_durable (w_disk w) !! name = Some content
  /\ exists rec, holds (dk_visible (w_disk w)) name rec /\ tombstone (rc_phase rec) = true.

Lemma same_content m m' name rec rec' : m !! name = m' !! name -> holds m name rec -> holds m' name rec' -> rc_phase rec = rc_phase rec'.
Proof.
  intros E (i & r & c & Hi & Hc & _ & He & Hs) (i' & r' & c' & Hi' & Hc' & _ & He' & Hs'). assert (c' = c) as -> by congruence.
  assert (identity_ok i /\ identity_ok i') as [Hok Hok'] by (unfold identity_in in *; destruct (m !! identityName), (m' !! identityName); try done; split; by eapply identity_of_file_ok).
  destruct (decode_encoded i Hok r rec Hs c He) as [E1 _]. destruct (decode_encoded i' Hok' r' rec' Hs' c He') as [E2 _]. rewrite E1 in E2.
  apply (f_equal (fun x => match x with Some s => rc_phase (sg_record s) | None => ""%string end)) in E2. exact E2.
Qed.

Lemma step_buried w w' name content : Inv w -> name <> identityName -> buried w name content -> step Size Quote w w' ->
  buried w' name content /\ forall r g, stateName r = name -> (r, g) ∈ w_granted w' -> (r, g) ∈ w_granted w.
Proof.
  intros Hi Hne (Hv & Hd & rec & Hh & Ht) Hstep. pose proof (step_inv _ _ Hstep Hi) as Hi'.
  assert (dk_visible (w_disk w') !! name = Some content /\ dk_durable (w_disk w') !! name = Some content /\ forall r g, stateName r = name -> (r, g) ∈ w_granted w' -> (r, g) ∈ w_granted w) as (Hv' & Hd' & Hg).
  { assert (kept name w w' -> dk_visible (w_disk w') !! name = Some content /\ dk_durable (w_disk w') !! name = Some content
      /\ forall r g, stateName r = name -> (r, g) ∈ w_granted w' -> (r, g) ∈ w_granted w) as Hk.
    { intros [[K1 K2] K3]. split; [congruence|]. split; [destruct K2; congruence|done]. }
    destruct Hstep; try (apply Hk); [by eapply open_kept| |by eapply start_kept| |by eapply prepare_kept|by eapply sign_kept|by eapply resume_kept|by eapply terminal_kept| |by eapply consume_kept|by eapply activate_kept
      |destruct (abort_rest w id o); by apply kept_same|by apply kept_same|by apply kept_same|split; [split; cbn; [congruence|by left]|done]].
    - unfold Start_begin, begin_run. by repeat case_match; apply kept_same.
    - unfold PrepareImport_begin, begin_run. by repeat case_match; apply kept_same.
    - unfold Active_Close. destruct (w_actives w !! id) as [a|]; [|by apply kept_same]. destruct (ac_closed a); [by apply kept_same|]. destruct (finish_rest w id a o) as [E1 E2].
      destruct (Active_finish w id a o) as [w1 err]. by apply kept_same. }
  split; [|done]. split; [done|]. split; [done|]. destruct (iv_disk _ Hi') as [[Hf _] _]. destruct (Hf _ _ Hv' Hne) as [rec' Hh']. exists rec'. split; [done|].
  by rewrite <- (same_content (dk_visible (w_disk w)) (dk_visible (w_disk w')) name rec rec') by congruence.
Qed.

Lemma steps_buried w w' name content : rtc (step Size Quote) w w' -> Inv w -> name <> identityName -> buried w name content ->
  buried w' name content /\ forall r g, stateName r = name -> (r, g) ∈ w_granted w' -> (r, g) ∈ w_granted w.
Proof.
  intros H. induction H as [w|w1 w2 w3 Hs _ IH]; intros Hi Hne Hb; [by auto|]. destruct (step_buried _ _ _ _ Hi Hne Hb Hs) as [Hb2 Hg]. destruct (IH (step_inv _ _ Hs Hi) Hne Hb2) as [Hb3 Hg3]. eauto.
Qed.

Lemma terminal_buries w id a o phase w' : Inv w -> w_actives w !! id = Some a -> Active_Terminal w id o phase = (w', None) -> exists content, buried w' (stateName (ac_runID a)) content.
Proof.
  intros Hi Ha. unfold Active_Terminal. rewrite Ha. destruct (ac_uncertain a) eqn:Hu; [done|]. destruct (ac_closed a || negb (ac_lock a)) eqn:Ec; [done|].
  apply orb_false_iff in Ec as [Hc Hl]. apply negb_false_iff in Hl. destruct (negb _) eqn:Hp; [done|]. apply negb_false_iff in Hp. destruct (w_stores w !! ac_store a) as [s|] eqn:Hs; [|done].
  destruct (lease_newest w id a Hi Ha Hl Hu) as (Hok & _).
  pose proof (lease_write_spec w id a s o 0 (ac_snapshotIssueErr a) (baseRecord (st_identity s) (ac_runID a) (ac_runGeneration a) phase) Hi Ha Hl Hu Hs
    (base_sized _ _ _ _ (proj1 (iv_stores _ Hi _ _ Hs)) Hok) ltac:(cbn; lia)) as H.
  destruct (lease_write w id a s o 0 (ac_snapshotIssueErr a) _) as [w1 [[[] err]|]]; [done|done|]. destruct H as (d & -> & Hd & Ho & Hdur & Hh). intros E.
  destruct (finish_rest (set_disk w d) id a o) as [E1 _]. rewrite E in E1. cbn [fst set_disk w_disk] in E1. pose proof Hh as (_ & _ & content & _ & Hc' & _). exists content.
  unfold buried. rewrite E1, Hdur. split; [done|]. split; [done|]. eexists. split; [exact Hh|]. exact Hp.
Qed.

(** ** The move of a run *)

(** Every call of the operating system succeeds and the context lives. *)
Definition fine : oracle := mkOracle (Some (fun _ => None)) true true WriteOk CloseOk true.

(** What is used of [proto.Size] for an import request. *)
Definition import_format : Prop := forall r v, Wire.jq_snapshot r = Some v -> Wire.se_unknown v = [] ->
  Size (Wire.MImportSnapshotRequest r) = bytes_field (Wire.jq_clientID r) + uint_field (Wire.jq_ownershipEpoch r) + bytes_field (Wire.jq_clientOperationID r)
    + message_field (Size (Wire.MSnapshotEnvelope v)).

Lemma base_valid identity runID g phase : validateRunID runID = None -> g <> 0 -> existsb (String.eqb phase) [PhaseActive; PhaseImporting; PhaseCompleted; PhaseFailed; PhaseCancelled] = true ->
  validateRecord identity (baseRecord identity runID g phase) runID = None.
Proof.
  intros Hr Hg Hp. unfold validateRecord, baseRecord. cbn [rc_version rc_scopeID rc_authorityGeneration rc_runID rc_runGeneration rc_phase rc_snapshot].
  rewrite !Z.eqb_refl, !String.eqb_refl, (proj2 (Z.eqb_neq _ _) Hg), Hr, Hp. done.
Qed.

(** A write of a valid record by an open store, when nothing fails. *)
Lemma write_fine s d at_ runID g phase : st_closed s = false -> identity_ok (st_identity s) -> validateRunID runID = None -> g <> 0 ->
  existsb (String.eqb phase) [PhaseActive; PhaseImporting; PhaseCompleted; PhaseFailed; PhaseCancelled] = true ->
  exists m, writeRecord s d (or_ctx fine) at_ WriteOk runID (baseRecord (st_identity s) runID g phase) = (true, None, mkDisk m m).
Proof.
  intros Hc Hi Hr Hg Hp. unfold writeRecord. cbn [contextError or_ctx fine fmap option_fmap option_map]. rewrite (encode_total (st_identity s) Hi runID _ (base_valid _ _ _ _ Hr Hg Hp)), Hc. by eexists.
Qed.

Lemma writeRecord_open s d ctx at_ o runID value d' : writeRecord s d ctx at_ o runID value = (true, None, d') -> st_closed s = false.
Proof. unfold writeRecord. destruct (contextError ctx at_); [done|]. destruct (encodeRecord _ _ _); [|done]. destruct (contextError ctx (S at_)); [done|]. by destruct (st_closed s). Qed.

(** What the first suspension of a lease leaves. *)
Lemma sign_suspends w id a o input w1 claim : Inv w -> w_actives w !! id = Some a -> ac_suspended a = None -> in_lifecycle input = Wire.SNAPSHOT_LIFECYCLE_SUSPENDED ->
  uint64_ok (in_lastSequence input) -> Active_SignSnapshot w id o input = (w1, Ok claim) ->
  exists s codec d, let value := mkRecord recordVersion (hex (id_scope (st_identity s))) (id_generation (st_identity s)) (ac_runID a) (ac_runGeneration a) PhaseSuspended (Some (snapshot_record input claim)) in
  w_stores w !! ac_store a = Some s /\ identity_in (dk_visible (w_disk w)) = Some (st_identity s) /\ ac_runGeneration a <> maxUint64 /\ in_runID input = ac_runID a /\ ac_lock a = true /\ ac_uncertain a = false
  /\ snapshotCodec (st_identity s) (ac_runID a) (ac_runGeneration a) = Ok codec /\ HMAC_SignSnapshot (Some codec) (or_ctx o) 1 input = Ok claim
  /\ w1 = set_active (set_disk w d) id (with_suspended a (ac_runGeneration a) (Some (snapshot_record input claim)))
  /\ exists content, dk_visible d !! stateName (ac_runID a) = Some content /\ encodeRecord (st_identity s) (ac_runID a) value = Ok content /\ record_sized value.
Proof.
  intros Hi Ha Hsn Hl Hseq. unfold Active_SignSnapshot. rewrite Ha, Hsn, Hl. destruct (_ || negb (String.eqb _ _)) eqn:Ec; [done|]. rewrite !orb_false_iff in Ec.
  destruct Ec as (((Hc & Hlk) & Hu) & Hrun). apply negb_false_iff in Hlk, Hrun. apply String.eqb_eq in Hrun. destruct (contextError (or_ctx o) 0); [done|].
  destruct (w_stores w !! ac_store a) as [s|] eqn:Hs; [|done]. change (phaseForLifecycle Wire.SNAPSHOT_LIFECYCLE_SUSPENDED) with (PhaseSuspended, true).
  change (String.eqb PhaseSuspended "") with false. cbv beta iota zeta. cbn [andb]. destruct (Z.eqb_spec (ac_runGeneration a) maxUint64) as [|Hmax]; [done|].
  destruct (snapshotCodec (st_identity s) (ac_runID a) (ac_runGeneration a)) as [codec|] eqn:Hcodec; [|done]. destruct (HMAC_SignSnapshot (Some codec) (or_ctx o) 1 input) as [claim'|] eqn:Hsign; [|done].
  destruct (lease_newest w id a Hi Ha Hlk Hu) as (Hok & _). destruct (iv_stores _ Hi _ _ Hs) as [Hid Hm].
  unfold lease_write, baseRecord. cbn [rc_version rc_scopeID rc_authorityGeneration rc_runID rc_runGeneration rc_phase].
  match goal with |- context [writeRecord _ _ _ _ _ _ ?v] => set (value := v) end. unfold writeRecord.
  destruct (contextError (or_ctx o) 2); [done|]. destruct (encodeRecord (st_identity s) (ac_runID a) value) as [wire|] eqn:He; [|done]. destruct (contextError (or_ctx o) 3); [done|].
  destruct (st_closed s) eqn:Hcl; [done|]. specialize (Hm eq_refl). destruct (or_write o) as [|[] []]; unfold writeFileAtomic; try done. intros H. apply pair_equal_spec in H as [<- H].
  apply Ok_inj in H as <-. exists s, codec, (mkDisk (<[stateName (ac_runID a) := wire]> (dk_visible (w_disk w))) (<[stateName (ac_runID a) := wire]> (dk_visible (w_disk w)))).
  cbn zeta. split_and!; try done.
  exists wire. cbn [dk_visible]. rewrite lookup_insert_eq. split; [done|]. split; [exact He|]. destruct Hid as [Hid _]. split; [exact Hid|]. split; [exact Hok|exact Hseq].
Qed.

Lemma envelope_size_nonneg v : 0 <= snapshot_envelope_size v.
Proof.
  assert (forall x, 0 <= bytes_field x) as Hb by (intros x; unfold bytes_field; pose proof (slen_nonneg x); pose proof (message_field_ge (slen x)); destruct (_ =? _); lia).
  assert (forall n, 0 <= uint_field n) as Hn by (intros n; unfold uint_field; pose proof (varint_size_pos n); destruct (_ =? _); lia).
  unfold snapshot_envelope_size, authority_size. pose proof (Hb (Wire.se_format v)). pose proof (Hb (Wire.se_runID v)). pose proof (Hb (Wire.se_payload v)). pose proof (Hb (Wire.se_sha256 v)).
  pose proof (Hn (Wire.se_lastSequence v)). pose proof (Hn (Wire.se_lifecycle v)). destruct (Wire.se_authority v) as [c|]; cbn [fmap option_fmap option_map optional_message]; [|lia].
  match goal with |- context [message_field ?x] => pose proof (message_field_ge x) end. pose proof (Hb (Wire.sa_scopeID c)). pose proof (Hb (Wire.sa_hmacSHA256 c)). pose proof (Hn (Wire.sa_generation c)). lia.
Qed.

(** The keyed check accepts the envelope of the signed claim. *)
Lemma prepare_accepts s value v codec claim ctx : snapshot_format Size -> import_format -> ValidateSnapshotEnvelope Size Quote (Some v) = None -> Wire.se_lifecycle v = Wire.SNAPSHOT_LIFECYCLE_SUSPENDED ->
  uint64_ok (Wire.se_lastSequence v) -> uint64_ok (id_generation (st_identity s)) -> Wire.se_authority v = Some claim ->
  snapshotCodec (st_identity s) (Wire.se_runID v) (rc_runGeneration value) = Ok codec -> HMAC_SignSnapshot (Some codec) ctx 1 (snapshotAuthorityInput v) = Ok claim ->
  prepare_check Size Quote s fine value v = Ok codec.
Proof.
  intros Hf Hif Hv Hl Hseq Hgen Ha Hcodec Hsign. unfold prepare_check. rewrite Hcodec. pose proof Hcodec as Hnew. unfold snapshotCodec in Hnew. destruct (_ =? _); [done|].
  destruct (NewHMACSnapshotAuthority (id_scope (st_identity s)) (id_generation (st_identity s)) _) as [codec'|] eqn:Hn; [|done]. apply Ok_inj in Hnew as ->.
  set (live := shift (or_ctx fine) 1). assert (forall at_, contextCause live at_ = None) as Hlive by done.
  assert (HMAC_SignSnapshot (Some codec) live 1 (snapshotAuthorityInput v) = Ok claim) as Hsign'.
  { unfold HMAC_SignSnapshot in *. rewrite Hlive. destruct (contextCause ctx 1); [done|]. exact Hsign. }
  pose proof Hv as Hparts. unfold ValidateSnapshotEnvelope in Hparts. rewrite !seq_None, !when_None in Hparts. destruct Hparts as (Hcontent & Hunk & Hsize & _). apply negb_false_iff, Z.eqb_eq, lenZ_0 in Hunk.
  unfold ValidateImportSnapshotRequest, ValidateImportSnapshotRequestStructure. rewrite Hlive. cbn [Wire.jq_clientID Wire.jq_ownershipEpoch Wire.jq_clientOperationID Wire.jq_snapshot].
  change (validateClientMutation "run-authority" 1 "prepare-import") with (@None error). assert (validateUnarySize Size (Wire.MImportSnapshotRequest (Wire.mkImportSnapshotRequest "run-authority" 1 "prepare-import" (Some v))) (Some snapshotImportLimits) = None) as ->.
  { unfold validateUnarySize. change (ValidateLimits (Some snapshotImportLimits)) with (@None error). unfold fits. apply ValidateEncodedSize_None. erewrite (Hif _ v); [|reflexivity|exact Hunk].
    cbn [Wire.jq_clientID Wire.jq_ownershipEpoch Wire.jq_clientOperationID]. change (bytes_field "run-authority") with 15. change (uint_field 1) with 2. change (bytes_field "prepare-import") with 16.
    rewrite Z.gtb_ltb, Z.ltb_ge in Hsize. pose proof (envelope_size_nonneg v). rewrite <- (Hf v Hunk) in *. pose proof (message_field_ge (Size (Wire.MSnapshotEnvelope v))).
    pose proof (message_field_le (Size (Wire.MSnapshotEnvelope v)) 4 ltac:(lia)). unfold snapshotImportLimits. cbn [wl_maxMessageBytes]. change MaximumSnapshotEnvelopeBytes with 16777511 in *. change (2 ^ (7 * 4)) with 268435456 in *. lia. }
  rewrite Hv, Hl, Z.eqb_refl. cbn [negb when]. unfold hmac_verifier. rewrite (proj2 (verify_exact _ _ _ _ live 1 _ _ Hn (Hlive 1%nat))); [done|]. by exists claim.
Qed.

Lemma crash_frees w sid n id a : w_locks w !! n = Some (ByActive id) -> w_actives w !! id = Some a -> ac_store a = sid -> w_locks (crash w sid) !! n = None.
Proof.
  intros Hl Ha Hs. cbn. apply map_lookup_filter_None. right. intros x Hx. rewrite Hl in Hx. injection Hx as <-. cbn. rewrite Ha, Hs, Nat.eqb_refl. done.
Qed.


(** A store that finds the run suspended takes it into a transaction. *)
Lemma move_prepared w sid s call tid v claim value codec ctx content : snapshot_format Size -> import_format ->
  ValidateSnapshotEnvelope Size Quote (Some v) = None -> Wire.se_lifecycle v = Wire.SNAPSHOT_LIFECYCLE_SUSPENDED -> uint64_ok (Wire.se_lastSequence v) -> Wire.se_authority v = Some claim ->
  w_stores w !! sid = Some s -> st_closing s = false -> st_closed s = false -> isUncertain s (Wire.se_runID v) = false -> identity_ok (st_identity s) ->
  w_locks w !! lockName (Wire.se_runID v) = None ->
  snapshotCodec (st_identity s) (Wire.se_runID v) (rc_runGeneration value) = Ok codec -> HMAC_SignSnapshot (Some codec) ctx 1 (snapshotAuthorityInput v) = Ok claim ->
  dk_visible (w_disk w) !! stateName (Wire.se_runID v) = Some content -> encodeRecord (st_identity s) (Wire.se_runID v) value = Ok content -> record_sized value ->
  rc_phase value = PhaseSuspended -> rc_snapshot value = Some (snapshot_record (snapshotAuthorityInput v) claim) ->
  exists w1 w2 s', PrepareImport_begin Size Quote w sid call fine (Some v) = (w1, Ok tt) /\ PrepareImport_locked Size Quote w1 sid call tid fine v = (w2, Ok tt)
    /\ w_stores w2 !! sid = Some s' /\ st_closed s' = false /\ st_identity s' = st_identity s /\ w_granted w2 = w_granted w
    /\ w_imports w2 = <[tid := mkImport sid true (Wire.se_runID v) (rc_runGeneration value) (Wire.sa_scopeID claim) (Wire.sa_hmacSHA256 claim) codec false false false]> (w_imports w)
    /\ w_actives w2 = w_actives w.
Proof.
  intros Hf Hif Hv Hl Hseq Ha Hs Hcl Hc Hun Hid Hlock Hcodec Hsign Hfile Henc Hsz Hph Hsn. set (runID := Wire.se_runID v) in *.
  set (s1 := mkStore (st_identity s) (st_uncertain s) (st_leases s + 1) (st_closing s) (st_closed s) (st_closeErr s)).
  exists (set_begun (set_store w sid s1) (<[call := (sid, BeginImport v)]> (w_begun w))). eexists. exists s1. split_and!.
  - unfold PrepareImport_begin. rewrite Hs. cbn [fine or_ctx]. rewrite Hv, Hl, Z.eqb_refl. cbn [set negb orb]. unfold begin_run, beginLease. rewrite Hcl, Hc. cbn [orb]. unfold isUncertain in *. cbn [st_uncertain]. fold runID. rewrite Hun.
    unfold s1. by rewrite Hcl, Hc.
  - unfold PrepareImport_locked. cbn [set_begun set_store w_stores]. rewrite lookup_insert_eq. unfold acquireStableLock. cbn [st_closed s1]. rewrite Hc. cbn [orb negb fine or_acquire set_locks set_begun set_store w_locks]. fold runID. rewrite Hlock.
    unfold readRecord. cbn [st_closed s1 or_read negb w_disk set_locks set_begun set_store st_identity]. rewrite Hc. cbn [orb]. rewrite Hfile. destruct (decode_encoded (st_identity s) Hid runID value Hsz content Henc) as [_ Hlen].
    rewrite Z.gtb_ltb, (proj2 (Z.ltb_ge _ _)) by lia. assert (utf8_valid runID = true) as Hutf.
    { unfold ValidateSnapshotEnvelope in Hv. rewrite !seq_None in Hv. destruct Hv as [Hv _]. apply content_None in Hv as (_ & (_ & Hu & _) & _). exact Hu. }
    change (st_identity s1) with (st_identity s). rewrite (read_exact (st_identity s) Hid runID value Hsz content Hutf Henc). change (negb (or_read fine)) with false. cbv iota.
    assert (matchesSuspended (st_identity s) value v = true) as ->.
    { destruct (encode_Ok (st_identity s) Hid runID value content Henc) as [Hval _]. apply validateRecord_facts in Hval as (_ & Hsc & Hg & _). unfold matchesSuspended. rewrite Hsn, Ha, Hph, Hsc.
      unfold snapshotCodec in Hcodec. destruct (_ =? 0); [done|]. destruct (NewHMACSnapshotAuthority _ _ _) as [c|] eqn:En; [|done]. apply Ok_inj in Hcodec as ->. apply new_authority_ok in En as (-> & _).
      unfold HMAC_SignSnapshot in Hsign. destruct (contextCause ctx 1); [done|]. destruct (Input_Canonical _ _ _); [|done]. apply Ok_inj in Hsign as <-.
      cbn [default snapshot_record sr_format sr_lastSequence sr_lifecycle sr_payloadSHA sr_authorityMAC snapshotAuthorityInput in_format in_lastSequence in_lifecycle in_payloadSHA256 Wire.sa_generation Wire.sa_hmacSHA256 ha_generation].
      rewrite Hg. unfold id. rewrite !String.eqb_refl, !Z.eqb_refl. done. }
    cbn [negb]. change (prepare_check Size Quote s1 fine value v) with (prepare_check Size Quote s fine value v). erewrite (prepare_accepts s value v codec claim ctx) by (done || apply Hid). rewrite Ha. reflexivity.
  - cbn. by rewrite lookup_insert_eq.
  - exact Hc.
  - done.
  - done.
  - done.
  - done.
Qed.

(** The transaction consumes the snapshot and becomes a lease. *)
Lemma move_activated w sid s tid next t : w_imports w !! tid = Some t -> im_store t = sid -> im_lock t = true -> im_consumed t = false -> im_uncertain t = false -> im_closed t = false ->
  uint64_ok (im_sourceRunGeneration t) -> im_sourceRunGeneration t <> maxUint64 -> validateRunID (im_runID t) = None ->
  w_stores w !! sid = Some s -> st_closed s = false -> identity_ok (st_identity s) ->
  exists w1 w2, Import_Consume w tid fine = (w1, None) /\ Import_Activate w1 tid next fine = (w2, Ok tt)
    /\ w_granted w2 = w_granted w ++ [(im_runID t, im_sourceRunGeneration t + 1)]
    /\ w_actives w2 !! next = Some (mkActive sid true (im_runID t) (im_sourceRunGeneration t + 1) None false None false).
Proof.
  intros Ht <- Hl Hc Hu Hcl Hok Hmax Hr Hs Hsc Hid. assert (u64 (im_sourceRunGeneration t + 1) = im_sourceRunGeneration t + 1) as E by (apply u64_id; unfold uint64_ok in *; lia).
  assert (im_sourceRunGeneration t + 1 <> 0) as Hnz by (unfold uint64_ok in Hok; lia).
  destruct (write_fine s (w_disk w) 1 (im_runID t) (im_sourceRunGeneration t + 1) PhaseImporting Hsc Hid Hr Hnz eq_refl) as [m Hm].
  destruct (write_fine s (mkDisk m m) 0 (im_runID t) (im_sourceRunGeneration t + 1) PhaseActive Hsc Hid Hr Hnz eq_refl) as [m' Hm'].
  eexists. eexists. split; [|split].
  - unfold Import_Consume. rewrite Ht, Hu, Hcl, Hc. cbn [orb contextError fine or_ctx fmap option_fmap option_map]. rewrite Hs, (proj2 (Z.eqb_neq _ _) Hmax), E.
    change (or_write fine) with WriteOk in *. cbn [or_ctx fine or_write] in *. rewrite Hm. reflexivity.
  - unfold Import_Activate. cbn [set_import set_disk w_imports w_stores w_disk]. rewrite lookup_insert_eq. cbn [with_import im_uncertain im_closed im_consumed im_lock im_store im_sourceRunGeneration im_runID]. rewrite ?Hu, ?Hcl, ?Hl. cbn [orb negb].
    rewrite Hs, E. cbn [or_ctx fine or_write] in *. rewrite Hm'. reflexivity.
  - cbn. by rewrite lookup_insert_eq.
Qed.


(** ** Theorems *)


(** C10: C: once a lease reports a run as completed, failed or cancelled, the run's
    record stays on the disk through every later interleaving, crash and power
    loss, no store starts or imports the run again, and no lease on it can
    act. *)
Theorem terminal_runs_final w id a o phase w1 w2 : reachable Size Quote w -> w_actives w !! id = Some a -> Active_Terminal w id o phase = (w1, None) ->
  rtc (step Size Quote) w1 w2 ->
  (exists content, dk_visible (w_disk w1) !! stateName (ac_runID a) = Some content /\ dk_visible (w_disk w2) !! stateName (ac_runID a) = Some content
    /\ dk_durable (w_disk w2) !! stateName (ac_runID a) = Some content)
  /\ (forall g, (ac_runID a, g) ∈ w_granted w2 -> (ac_runID a, g) ∈ w_granted w)
  /\ (forall id' a', w_actives w2 !! id' = Some a' -> ac_runID a' = ac_runID a -> ac_lock a' = true -> ac_uncertain a' = true)
  /\ (forall id' t, w_imports w2 !! id' = Some t -> im_runID t = ac_runID a -> im_closed t = true \/ im_uncertain t = true).
Proof.
  intros Hr Ha Ht Hs. pose proof (world_inv w Hr) as Hi. assert (Inv w1) as Hi1 by (pose proof (run_terminal_inv w id o phase Hi) as H; by rewrite Ht in H).
  destruct (terminal_buries w id a o phase w1 Hi Ha Ht) as [content Hb]. destruct (steps_buried w1 w2 _ content Hs Hi1 (state_not_identity _) Hb) as [Hb2 Hg].
  assert (Inv w2) as Hi2 by (clear -Hs Hi1; induction Hs as [|x y z Hx _ IH]; [done|by apply IH, (step_inv _ _ Hx)]).
  destruct Hb as (Hv & _). destruct Hb2 as (Hv2 & Hd2 & rec & Hh & Htomb). split; [by exists content|]. split_and!.
  - intros g Hin. specialize (Hg _ _ eq_refl Hin). assert (w_granted w1 = w_granted w) as E; [|by rewrite <- E].
    pose proof Ht as Ht'. unfold Active_Terminal in Ht'. rewrite Ha in Ht'. destruct (ac_uncertain a); [done|]. destruct (_ || _); [done|]. destruct (negb _); [done|].
    destruct (w_stores w !! ac_store a) as [s|]; [|done]. unfold lease_write in Ht'. destruct (writeRecord _ _ _ _ _ _ _) as [[[] [err|]] d]; try done;
      destruct (finish_rest (set_disk w d) id a o) as [_ E]; by rewrite Ht' in E.
  - intros id' a' Ha' E Hl. destruct (ac_uncertain a') eqn:Hu; [done|]. destruct (lease_elsewhere w2 _ rec Hi2 Hh Htomb id' a' Ha' Hl Hu). by rewrite E.
  - intros id' t Ht' E. destruct (im_closed t) eqn:Hc; [by left|]. destruct (im_uncertain t) eqn:Hu; [by right|]. destruct (transaction_elsewhere w2 _ rec Hi2 Hh Htomb id' t Ht' Hc Hu). by rewrite E.
Qed.

(** C23: C: a run suspended by a lease whose process then ends is not lost: another
    store that is open and has no unfinished write of the run takes it over
    with the exported envelope, and hands it out under the next generation,
    when the operating system refuses nothing. *)
Theorem suspended_run_moves w id a o v claim w1 sid s call tid next : snapshot_format Size -> import_format -> reachable Size Quote w ->
  w_actives w !! id = Some a -> ac_suspended a = None -> uint64_ok (Wire.se_lastSequence v) -> Wire.se_lifecycle v = Wire.SNAPSHOT_LIFECYCLE_SUSPENDED ->
  Active_SignSnapshot w id o (snapshotAuthorityInput v) = (w1, Ok claim) -> Wire.se_authority v = Some claim -> ValidateSnapshotEnvelope Size Quote (Some v) = None ->
  w_stores w !! sid = Some s -> sid <> ac_store a -> st_closing s = false -> st_closed s = false -> isUncertain s (ac_runID a) = false ->
  exists w2 w3 w4 w5, PrepareImport_begin Size Quote (crash w1 (ac_store a)) sid call fine (Some v) = (w2, Ok tt)
    /\ PrepareImport_locked Size Quote w2 sid call tid fine v = (w3, Ok tt)
    /\ Import_Consume w3 tid fine = (w4, None) /\ Import_Activate w4 tid next fine = (w5, Ok tt)
    /\ w_granted w5 = w_granted w ++ [(ac_runID a, ac_runGeneration a + 1)]
    /\ w_actives w5 !! next = Some (mkActive sid true (ac_runID a) (ac_runGeneration a + 1) None false None false).
Proof.
  intros Hf Hif Hreach Ha Hsn Hseq Hl Hsign Hclaim Hv Hs Hne Hcl Hc Hun. pose proof (world_inv w Hreach) as Hi.
  destruct (sign_suspends w id a o (snapshotAuthorityInput v) w1 claim Hi Ha Hsn Hl Hseq Hsign) as (s0 & codec & d & Hs0 & Hin & Hmax & Hrun & Hlk & Hu & Hcodec & Hmac & -> & content & Hfile & Henc & Hsz).
  cbn [snapshotAuthorityInput in_runID] in Hrun. destruct (lease_newest w id a Hi Ha Hlk Hu) as (Hok & _). destruct (iv_active _ Hi id a Ha Hlk) as [Hlock _].
  destruct (iv_stores _ Hi _ _ Hs) as [Hid Hm]. specialize (Hm Hc).
  assert (st_identity s0 = st_identity s) as E0 by congruence. rewrite E0 in *. set (w1 := set_active _ _ _). cbn zeta in *.
  match type of Henc with encodeRecord _ _ ?r = _ => set (value := r) in * end. destruct (encode_Ok (st_identity s) Hid (ac_runID a) value content Henc) as [Hval _].
  apply validateRecord_facts in Hval as (_ & _ & _ & _ & _ & Hvr & _).
  destruct (move_prepared (crash w1 (ac_store a)) sid s call tid v claim value codec (or_ctx o) content) as (w2 & w3 & s' & H2 & H3 & Hs' & Hc' & Hid' & Hg' & Him & Hact); try done; try (by rewrite Hrun).
  - cbn. by rewrite lookup_delete_ne.
  - rewrite Hrun. eapply (crash_frees w1 (ac_store a) _ id); [exact Hlock|cbn; by rewrite lookup_insert_eq|done].
  - destruct (move_activated w3 sid s' tid next _ ltac:(by rewrite Him, lookup_insert_eq)) as (w4 & w5 & H4 & H5 & Hg5 & Ha5); try done.
    + cbn. by rewrite Hrun.
    + by rewrite Hid'.
    + exists w2, w3, w4, w5. cbn [im_runID im_sourceRunGeneration] in *. rewrite Hrun in *. split_and!; try done. by rewrite Hg5, Hg'.
Qed.
End Preserved.

(** ** A sample run *)

#[local] Transparent sha256 hmac_sha256 runName stateName lockName hex.

Definition sample_quote (s : string) : string := s.
Definition sample_transfer_size (m : Wire.ProtoMessage) : Z :=
  match m with
  | Wire.MSnapshotEnvelope v => snapshot_envelope_size v
  | Wire.MImportSnapshotRequest r => bytes_field (Wire.jq_clientID r) + uint_field (Wire.jq_ownershipEpoch r) + bytes_field (Wire.jq_clientOperationID r)
      + optional_message (snapshot_envelope_size <$> Wire.jq_snapshot r)
  | _ => 0
  end.

(** Two stores on one directory; the first starts a run. *)
Definition sample_opened : World := (Open (Open empty_world 0 fine (Some (sample_scope_id +:+ sample_key))).1 1 fine None).1.
Definition sample_begun : World := (Start_begin sample_opened 0 7 fine "run-1").1.
Definition sample_started : World := (Start_locked sample_begun 0 7 3 fine "run-1").1.
Definition sample_lease : Active := mkActive 0 true "run-1" 1 None false None false.

Lemma sample_run_reachable : reachable sample_transfer_size sample_quote sample_started.
Proof.
  eapply rtc_l; [apply (step_open _ _ empty_world 0 fine (Some (sample_scope_id +:+ sample_key))); reflexivity|].
  eapply rtc_l; [apply (step_open _ _ _ 1 fine None); vm_compute; reflexivity|].
  eapply rtc_l; [apply (step_start_begin _ _ sample_opened 0 7 fine "run-1"); vm_compute; reflexivity|].
  eapply rtc_l; [apply (step_start_locked _ _ sample_begun 0 7 3 fine "run-1"); [vm_compute; reflexivity|split; vm_compute; reflexivity]|]. apply rtc_refl.
Qed.


Definition sample_ended : World := (Active_Terminal sample_started 3 fine PhaseCompleted).1.
Lemma terminal_runs_final_witness : exists content, dk_visible (w_disk sample_ended) !! stateName "run-1" = Some content
  /\ dk_visible (w_disk (power_loss sample_ended)) !! stateName "run-1" = Some content.
Proof.
  destruct (terminal_runs_final sample_transfer_size sample_quote sample_started 3 sample_lease fine PhaseCompleted sample_ended (power_loss sample_ended)) as ((content & H1 & H2 & _) & _);
    [exact sample_run_reachable|vm_compute; reflexivity| |apply rtc_once; apply step_power_loss|exists content; split; [exact H1|exact H2]].
  assert ((Active_Terminal sample_started 3 fine PhaseCompleted).2 = None) as E by (vm_compute; reflexivity). unfold sample_ended.
  destruct (Active_Terminal sample_started 3 fine PhaseCompleted) as [x y]. cbn [fst snd] in *. by rewrite E.
Defined.

Definition claim_of (r : result run_error Wire.SnapshotAuthority) : Wire.SnapshotAuthority :=
  match r with Ok claim => claim | Err _ => Wire.mkSnapshotAuthority "" 0 "" end.
Definition sample_claim : Wire.SnapshotAuthority :=
  claim_of (Active_SignSnapshot sample_started 3 fine (mkInput SnapshotFormat "run-1" 7 Wire.SNAPSHOT_LIFECYCLE_SUSPENDED (sha256 sample_payload))).2.
Definition sample_envelope : Wire.SnapshotEnvelope :=
  Wire.mkSnapshotEnvelope SnapshotFormat "run-1" 7 Wire.SNAPSHOT_LIFECYCLE_SUSPENDED sample_payload (sha256 sample_payload) (Some sample_claim) [].

Lemma sample_signed : (Active_SignSnapshot sample_started 3 fine (snapshotAuthorityInput sample_envelope)).2 = Ok sample_claim.
Proof.
  assert (is_ok (Active_SignSnapshot sample_started 3 fine (snapshotAuthorityInput sample_envelope)).2 = true) as H by (vm_compute; reflexivity). unfold sample_claim.
  change (mkInput SnapshotFormat "run-1" 7 Wire.SNAPSHOT_LIFECYCLE_SUSPENDED (sha256 sample_payload)) with (snapshotAuthorityInput sample_envelope).
  by destruct (Active_SignSnapshot sample_started 3 fine (snapshotAuthorityInput sample_envelope)).2.
Qed.

Lemma suspended_run_moves_witness : exists w5 : World, w_actives w5 !! 4%nat = Some (mkActive 1 true "run-1" 2 None false None false).
Proof.
  set (w1 := (Active_SignSnapshot sample_started 3 fine (snapshotAuthorityInput sample_envelope)).1).
  destruct (w_stores sample_started !! 1%nat) as [s|] eqn:Hs; [|exfalso; revert Hs; vm_compute; discriminate].
  assert ((st_closing s, st_closed s, st_uncertain s) = (false, false, [])) as Es by (revert Hs; vm_compute; intros [= <-]; reflexivity). apply pair_equal_spec in Es as [Es E3]. apply pair_equal_spec in Es as [E1 E2].
  destruct (suspended_run_moves sample_transfer_size sample_quote sample_started 3 sample_lease fine sample_envelope sample_claim w1 1 s 8 9 4) as (_ & _ & _ & w5 & _ & _ & _ & _ & _ & H5);
    [by intros v _|intros r v Hr _; cbn; by rewrite Hr|exact sample_run_reachable|vm_compute; reflexivity|reflexivity|change (uint64_ok 7); unfold uint64_ok, maxUint64; lia|reflexivity| |reflexivity|vm_compute; reflexivity|exact Hs|discriminate|exact E1|exact E2| |].
  - pose proof sample_signed as E. unfold w1. destruct (Active_SignSnapshot sample_started 3 fine (snapshotAuthorityInput sample_envelope)) as [x y]. cbn [fst snd] in *. by rewrite E.
  - unfold isUncertain. by rewrite E3.
  - exists w5. exact H5.
Defined.
