(* ===== verification/PluginWire.v ===== *)
(** Messages of the plugin protocol (src/proto/spice/agent/plugin/v1) with
    their unknown fields, and the transcript that authenticates an
    initialization (src/plugin/v1/handshake_transcript.go).

    The messages of the common protocol nested in them carry unknown fields
    here too; [range_of], [capabilities_of] and [status_of] give the messages
    the common validators read.  The decoders of [protowire] are parameters. *)
From Stdlib Require Import ZArith Lia.
From stdpp Require Import base list strings.
From S2P Require Import Prelude GoText GoOrder GoJson GoCrypto GoJsonTree GoBase64 CommonContract.
Open Scope Z_scope.

#[export] Instance result_bind {E} : MBind (result E) := fun A B f r => match r with Ok a => f a | Err e => Err e end.

(** ** Messages *)

Record VersionMsg := mkVersionMsg { vg_version : ProtocolVersion; vg_unknown : string }.
Record RangeMsg := mkRangeMsg { rg_minimum : option VersionMsg; rg_maximum : option VersionMsg; rg_unknown : string }.
Record CapabilityMsg := mkCapabilityMsg { cg_names : list string; cg_unknown : string }.

Record VersionMismatchMsg := mkVersionMismatchMsg { vmm_client : option RangeMsg; vmm_server : option RangeMsg; vmm_unknown : string }.

Inductive DetailMsg :=
| DVersionMismatch (value : option VersionMismatchMsg)
| DCapabilityMismatch (value : option (CapabilityMismatch * string))
| DReplayBounds (value : option (ReplayBounds * string))
| DOverload (value : option (Overload * string))
| DStaleClient (value : option (StaleClient * string))
| DSnapshotVersionMismatch (value : option (SnapshotVersionMismatch * string))
| DUncertainOperation (value : option (UncertainOperation * string)).

Record StatusMsg := mkStatusMsg {
  sm_code : Z;
  sm_message : string;
  sm_retryable : bool;
  sm_operationID : string;
  sm_detail : option DetailMsg;
  sm_unknown : string
}.

Record PluginLimits := mkPluginLimits {
  pl_maxMessageBytes : Z;
  pl_maxTools : Z;
  pl_maxSchemaBytes : Z;
  pl_maxCallArgumentBytes : Z;
  pl_maxResultBytes : Z;
  pl_maxProgressBytes : Z;
  pl_maxConcurrentCalls : Z;
  pl_unknown : string
}.

Record PluginBuild := mkPluginBuild { pb_component : string; pb_version : string; pb_commit : string; pb_runtime : string; pb_unknown : string }.

Record ToolDefinition := mkToolDefinition {
  wd_name : string;
  wd_description : string;
  wd_inputSchema : string;
  wd_effect : Z;
  wd_replaySafety : Z;
  wd_capabilities : option CapabilityMsg;
  wd_unknown : string
}.

Record Manifest := mkManifest { mf_name : string; mf_version : string; mf_tools : list (option ToolDefinition); mf_unknown : string }.

Record InitializeRequest := mkInitializeRequest {
  iq_protocol : option RangeMsg;
  iq_host : option PluginBuild;
  iq_supported : option CapabilityMsg;
  iq_required : option CapabilityMsg;
  iq_limits : option PluginLimits;
  iq_launchID : string;
  iq_challenge : string;
  iq_unknown : string
}.

Record InitializeResponse := mkInitializeResponse {
  ip_status : option StatusMsg;
  ip_protocol : option VersionMsg;
  ip_plugin : option PluginBuild;
  ip_capabilities : option CapabilityMsg;
  ip_limits : option PluginLimits;
  ip_manifest : option Manifest;
  ip_launchID : string;
  ip_sessionID : string;
  ip_challenge : string;
  ip_proof : string;
  ip_unknown : string
}.

(** ** What the common validators read *)

Definition version_of (v : option VersionMsg) : option ProtocolVersion := vg_version <$> v.
Definition range_of (r : option RangeMsg) : option ProtocolRange := (fun r => mkRange (version_of (rg_minimum r)) (version_of (rg_maximum r))) <$> r.
Definition capabilities_of (c : option CapabilityMsg) : option CapabilitySet := (fun c => mkCapabilities (cg_names c)) <$> c.
Definition detail_of (d : DetailMsg) : StatusDetail :=
  match d with
  | DVersionMismatch v => Status_VersionMismatch ((fun v => mkVersionMismatch (range_of (vmm_client v)) (range_of (vmm_server v))) <$> v)
  | DCapabilityMismatch v => Status_CapabilityMismatch (fst <$> v)
  | DReplayBounds v => Status_ReplayBounds (fst <$> v)
  | DOverload v => Status_Overload (fst <$> v)
  | DStaleClient v => Status_StaleClient (fst <$> v)
  | DSnapshotVersionMismatch v => Status_SnapshotVersionMismatch (fst <$> v)
  | DUncertainOperation v => Status_UncertainOperation (fst <$> v)
  end.
Definition status_of (s : option StatusMsg) : option Status :=
  (fun s => mkStatus (sm_code s) (sm_message s) (sm_retryable s) (sm_operationID s) (detail_of <$> sm_detail s)) <$> s.

(** ** The transcript *)

Definition InitializeTranscriptDomain : string := "spice-agent/plugin/v1/initialize".
Definition InitializeTranscriptVersion : Z := 1.

Definition jint (n : Z) : json := JNumber (integer n).
Definition canonicalBytes (value : string) : json := JString (base64_encode value).
Definition canonicalStrings (values : list string) : json := JArray (map JString values).

Section Transcript.
(** Of [protowire]: the value and the bytes consumed, negative on an error; a
    tag is its number and wire type. *)
Context (ConsumeTag : list Z -> Z * Z * Z) (ConsumeVarint ConsumeFixed64 ConsumeFixed32 : list Z -> Z * Z) (ConsumeBytes : list Z -> list Z * Z).

Definition malformed : error := Errorf "plugin handshake contains malformed unknown wire data".

(** The value of one unknown field, and the bytes it takes. *)
Definition unknown_value (typeID : Z) (raw : list Z) : result error (json * Z) :=
  if typeID =? 0 then let '(v, n) := ConsumeVarint raw in Ok (jint v, n)
  else if typeID =? 1 then let '(v, n) := ConsumeFixed64 raw in Ok (jint v, n)
  else if typeID =? 2 then let '(b, n) := ConsumeBytes raw in Ok (canonicalBytes (of_codes b), n)
  else if typeID =? 5 then let '(v, n) := ConsumeFixed32 raw in Ok (jint v, n)
  else if (typeID =? 3) || (typeID =? 4) then Err (Errorf "plugin handshake unknown protobuf groups are unsupported")
  else Err (Errorf "plugin handshake contains an unsupported unknown wire type").

(** Every round consumes a tag, so the length of the data is fuel enough. *)
Fixpoint unknown_atoms (fuel : nat) (raw : list Z) : result error (list json) :=
  match raw, fuel with
  | [], _ => Ok []
  | _, O => Err malformed
  | _, S fuel =>
      let '(number, typeID, consumed) := ConsumeTag raw in
      if (consumed <? 0) || (number <=? 0) then Err malformed
      else
        let raw := drop (Z.to_nat consumed) raw in
        value ← unknown_value typeID raw;
        if value.2 <? 0 then Err malformed
        else rest ← unknown_atoms fuel (drop (Z.to_nat value.2) raw); Ok (JArray [jint number; jint typeID; value.1] :: rest)
  end.
Definition canonicalUnknownFields (unknown : string) : result error json :=
  atoms ← unknown_atoms (String.length unknown) (byte_codes unknown); Ok (JArray atoms).

Definition canonicalMessage (unknown : string) (name : string) (fields : list json) : result error json :=
  atoms ← canonicalUnknownFields unknown; Ok (JArray (JString name :: fields ++ [atoms])).

(** A nil message is null. *)
Definition canonical_option {A} (f : A -> result error json) (v : option A) : result error json :=
  match v with Some v => f v | None => Ok JNull end.

Definition canonicalProtocolVersion : option VersionMsg -> result error json := canonical_option (fun v =>
  canonicalMessage (vg_unknown v) "ProtocolVersion" [jint (pv_major (vg_version v)); jint (pv_minor (vg_version v)); jint (pv_patch (vg_version v))]).

Definition canonicalProtocolRange : option RangeMsg -> result error json := canonical_option (fun v =>
  minimum ← canonicalProtocolVersion (rg_minimum v);
  maximum ← canonicalProtocolVersion (rg_maximum v);
  canonicalMessage (rg_unknown v) "ProtocolRange" [minimum; maximum]).

Definition canonicalBuildIdentity : option PluginBuild -> result error json := canonical_option (fun v =>
  canonicalMessage (pb_unknown v) "BuildIdentity" [JString (pb_component v); JString (pb_version v); JString (pb_commit v); JString (pb_runtime v)]).

Definition canonicalCapabilitySet : option CapabilityMsg -> result error json := canonical_option (fun v =>
  canonicalMessage (cg_unknown v) "CapabilitySet" [canonicalStrings (cg_names v)]).

Definition canonicalLimits : option PluginLimits -> result error json := canonical_option (fun v =>
  canonicalMessage (pl_unknown v) "Limits"
    [jint (pl_maxMessageBytes v); jint (pl_maxTools v); jint (pl_maxSchemaBytes v); jint (pl_maxCallArgumentBytes v);
     jint (pl_maxResultBytes v); jint (pl_maxProgressBytes v); jint (pl_maxConcurrentCalls v)]).

Definition canonicalToolDefinition : option ToolDefinition -> result error json := canonical_option (fun v =>
  capabilities ← canonicalCapabilitySet (wd_capabilities v);
  canonicalMessage (wd_unknown v) "ToolDefinition"
    [JString (wd_name v); JString (wd_description v); canonicalBytes (wd_inputSchema v); jint (wd_effect v); jint (wd_replaySafety v); capabilities]).

Fixpoint canonical_tools (tools : list (option ToolDefinition)) : result error (list json) :=
  match tools with
  | [] => Ok []
  | t :: rest => encoded ← canonicalToolDefinition t; nodes ← canonical_tools rest; Ok (encoded :: nodes)
  end.
Definition canonicalManifest : option Manifest -> result error json := canonical_option (fun v =>
  tools ← canonical_tools (mf_tools v);
  canonicalMessage (mf_unknown v) "Manifest" [JString (mf_name v); JString (mf_version v); JArray tools]).

Definition canonicalVersionMismatch : option VersionMismatchMsg -> result error json := canonical_option (fun v =>
  client ← canonicalProtocolRange (vmm_client v);
  server ← canonicalProtocolRange (vmm_server v);
  canonicalMessage (vmm_unknown v) "VersionMismatch" [client; server]).
Definition canonicalCapabilityMismatch : option (CapabilityMismatch * string) -> result error json := canonical_option (fun v =>
  canonicalMessage v.2 "CapabilityMismatch" [canonicalStrings (cm_required v.1); canonicalStrings (cm_available v.1); canonicalStrings (cm_missing v.1)]).
Definition canonicalReplayBounds : option (ReplayBounds * string) -> result error json := canonical_option (fun v =>
  canonicalMessage v.2 "ReplayBounds" [jint (rb_requestedAfter v.1); jint (rb_earliest v.1); jint (rb_latest v.1); jint (rb_recovery v.1)]).
Definition canonicalOverload : option (Overload * string) -> result error json := canonical_option (fun v =>
  canonicalMessage v.2 "Overload" [JString (ov_resource v.1); jint (ov_limit v.1); jint (ov_observed v.1)]).
Definition canonicalStaleClient : option (StaleClient * string) -> result error json := canonical_option (fun v =>
  canonicalMessage v.2 "StaleClient" [jint (sc_expectedEpoch v.1); jint (sc_observedEpoch v.1)]).
Definition canonicalSnapshotVersionMismatch : option (SnapshotVersionMismatch * string) -> result error json := canonical_option (fun v =>
  canonicalMessage v.2 "SnapshotVersionMismatch" [JString (sv_expected v.1); JString (sv_observed v.1)]).
Definition canonicalUncertainOperation : option (UncertainOperation * string) -> result error json := canonical_option (fun v =>
  canonicalMessage v.2 "UncertainOperation" [JString (uo_operationID v.1); JString (uo_operationKind v.1)]).

Definition canonicalStatusDetail (detail : option DetailMsg) : result error json :=
  let tagged name node := encoded ← node; Ok (JArray [JString name; encoded]) in
  match detail with
  | None => Ok JNull
  | Some (DVersionMismatch v) => tagged "version_mismatch"%string (canonicalVersionMismatch v)
  | Some (DCapabilityMismatch v) => tagged "capability_mismatch"%string (canonicalCapabilityMismatch v)
  | Some (DReplayBounds v) => tagged "replay_bounds"%string (canonicalReplayBounds v)
  | Some (DOverload v) => tagged "overload"%string (canonicalOverload v)
  | Some (DStaleClient v) => tagged "stale_client"%string (canonicalStaleClient v)
  | Some (DSnapshotVersionMismatch v) => tagged "snapshot_version_mismatch"%string (canonicalSnapshotVersionMismatch v)
  | Some (DUncertainOperation v) => tagged "uncertain_operation"%string (canonicalUncertainOperation v)
  end.
Definition canonicalStatus : option StatusMsg -> result error json := canonical_option (fun v =>
  detail ← canonicalStatusDetail (sm_detail v);
  canonicalMessage (sm_unknown v) "Status" [jint (sm_code v); JString (sm_message v); JBool (sm_retryable v); JString (sm_operationID v); detail]).

Definition canonicalInitializeRequest (v : InitializeRequest) : result error json :=
  protocol ← canonicalProtocolRange (iq_protocol v);
  host ← canonicalBuildIdentity (iq_host v);
  supported ← canonicalCapabilitySet (iq_supported v);
  required ← canonicalCapabilitySet (iq_required v);
  limits ← canonicalLimits (iq_limits v);
  canonicalMessage (iq_unknown v) "InitializeRequest"
    [protocol; host; supported; required; limits; canonicalBytes (iq_launchID v); canonicalBytes (iq_challenge v)].

(** The slot of the proof is the empty byte string. *)
Definition canonicalInitializeResponse (v : InitializeResponse) : result error json :=
  status ← canonicalStatus (ip_status v);
  protocol ← canonicalProtocolVersion (ip_protocol v);
  plugin ← canonicalBuildIdentity (ip_plugin v);
  capabilities ← canonicalCapabilitySet (ip_capabilities v);
  limits ← canonicalLimits (ip_limits v);
  manifest ← canonicalManifest (ip_manifest v);
  canonicalMessage (ip_unknown v) "InitializeResponse"
    [status; protocol; plugin; capabilities; limits; manifest; canonicalBytes (ip_launchID v); canonicalBytes (ip_sessionID v);
     canonicalBytes (ip_challenge v); canonicalBytes ""].

(** [canonicalStringsAreUTF8] is [json_utf8]. *)
Definition marshalCanonicalJSON (value : json) : result error string :=
  if negb (json_utf8 value) then Err (Errorf "canonical plugin handshake transcript contains invalid UTF-8")
  else Ok (of_codes (print_with false value)).

Definition wrap_result {A} (prefix : string) (r : result error A) : result error A :=
  match r with Ok a => Ok a | Err e => Err (Errorf (prefix +:+ Error e)) end.

Definition CanonicalInitializeTranscript (request : option InitializeRequest) (response : option InitializeResponse) : result error string :=
  match request, response with
  | Some request, Some response =>
      requestNode ← wrap_result "canonical plugin initialize request: " (canonicalInitializeRequest request);
      responseNode ← wrap_result "canonical plugin initialize response: " (canonicalInitializeResponse response);
      marshalCanonicalJSON (JArray [JString InitializeTranscriptDomain; jint InitializeTranscriptVersion; requestNode; responseNode])
  | _, _ => Err (Errorf "plugin handshake transcript is required")
  end.
End Transcript.

(** ** What a transcript determines *)

(** The messages without their unknown fields, and the response without its
    proof. *)
Definition known_version (v : VersionMsg) : VersionMsg := mkVersionMsg (vg_version v) "".
Definition known_range (v : RangeMsg) : RangeMsg := mkRangeMsg (known_version <$> rg_minimum v) (known_version <$> rg_maximum v) "".
Definition known_capabilities (v : CapabilityMsg) : CapabilityMsg := mkCapabilityMsg (cg_names v) "".
Definition known_detail (d : DetailMsg) : DetailMsg :=
  match d with
  | DVersionMismatch v => DVersionMismatch ((fun v => mkVersionMismatchMsg (known_range <$> vmm_client v) (known_range <$> vmm_server v) "") <$> v)
  | DCapabilityMismatch v => DCapabilityMismatch ((fun v => (v.1, "")%string) <$> v)
  | DReplayBounds v => DReplayBounds ((fun v => (v.1, "")%string) <$> v)
  | DOverload v => DOverload ((fun v => (v.1, "")%string) <$> v)
  | DStaleClient v => DStaleClient ((fun v => (v.1, "")%string) <$> v)
  | DSnapshotVersionMismatch v => DSnapshotVersionMismatch ((fun v => (v.1, "")%string) <$> v)
  | DUncertainOperation v => DUncertainOperation ((fun v => (v.1, "")%string) <$> v)
  end.
Definition known_status (s : StatusMsg) : StatusMsg :=
  mkStatusMsg (sm_code s) (sm_message s) (sm_retryable s) (sm_operationID s) (known_detail <$> sm_detail s) "".
Definition known_limits (l : PluginLimits) : PluginLimits :=
  mkPluginLimits (pl_maxMessageBytes l) (pl_maxTools l) (pl_maxSchemaBytes l) (pl_maxCallArgumentBytes l) (pl_maxResultBytes l) (pl_maxProgressBytes l) (pl_maxConcurrentCalls l) "".
Definition known_build (b : PluginBuild) : PluginBuild := mkPluginBuild (pb_component b) (pb_version b) (pb_commit b) (pb_runtime b) "".
Definition known_tool (t : ToolDefinition) : ToolDefinition :=
  mkToolDefinition (wd_name t) (wd_description t) (wd_inputSchema t) (wd_effect t) (wd_replaySafety t) (known_capabilities <$> wd_capabilities t) "".
Definition known_manifest (m : Manifest) : Manifest := mkManifest (mf_name m) (mf_version m) (map (fmap known_tool) (mf_tools m)) "".
Definition known_request (r : InitializeRequest) : InitializeRequest :=
  mkInitializeRequest (known_range <$> iq_protocol r) (known_build <$> iq_host r) (known_capabilities <$> iq_supported r) (known_capabilities <$> iq_required r)
    (known_limits <$> iq_limits r) (iq_launchID r) (iq_challenge r) "".
Definition known_response (r : InitializeResponse) : InitializeResponse :=
  mkInitializeResponse (known_status <$> ip_status r) (known_version <$> ip_protocol r) (known_build <$> ip_plugin r) (known_capabilities <$> ip_capabilities r)
    (known_limits <$> ip_limits r) (known_manifest <$> ip_manifest r) (ip_launchID r) (ip_sessionID r) (ip_challenge r) "" "".

(** The integers are within their types. *)
Definition int_ok (n : Z) : Prop := - maxUint64 <= n <= maxUint64.
Definition version_sized (v : VersionMsg) : Prop := int_ok (pv_major (vg_version v)) /\ int_ok (pv_minor (vg_version v)) /\ int_ok (pv_patch (vg_version v)).
Definition option_sized {A} (P : A -> Prop) (v : option A) : Prop := match v with Some v => P v | None => True end.
Definition range_sized (v : RangeMsg) : Prop := option_sized version_sized (rg_minimum v) /\ option_sized version_sized (rg_maximum v).
Definition limits_sized (l : PluginLimits) : Prop :=
  int_ok (pl_maxMessageBytes l) /\ int_ok (pl_maxTools l) /\ int_ok (pl_maxSchemaBytes l) /\ int_ok (pl_maxCallArgumentBytes l) /\ int_ok (pl_maxResultBytes l)
  /\ int_ok (pl_maxProgressBytes l) /\ int_ok (pl_maxConcurrentCalls l).
Definition detail_sized (d : DetailMsg) : Prop :=
  match d with
  | DVersionMismatch v => option_sized (fun v => option_sized range_sized (vmm_client v) /\ option_sized range_sized (vmm_server v)) v
  | DReplayBounds v => option_sized (fun v => int_ok (rb_requestedAfter v.1) /\ int_ok (rb_earliest v.1) /\ int_ok (rb_latest v.1) /\ int_ok (rb_recovery v.1)) v
  | DOverload v => option_sized (fun v => int_ok (ov_limit v.1) /\ int_ok (ov_observed v.1)) v
  | DStaleClient v => option_sized (fun v => int_ok (sc_expectedEpoch v.1) /\ int_ok (sc_observedEpoch v.1)) v
  | _ => True
  end.
Definition status_sized (s : StatusMsg) : Prop := int_ok (sm_code s) /\ option_sized detail_sized (sm_detail s).
Definition tool_sized (t : ToolDefinition) : Prop := int_ok (wd_effect t) /\ int_ok (wd_replaySafety t).
Definition request_sized (r : InitializeRequest) : Prop := option_sized range_sized (iq_protocol r) /\ option_sized limits_sized (iq_limits r).
Definition response_sized (r : InitializeResponse) : Prop :=
  option_sized status_sized (ip_status r) /\ option_sized version_sized (ip_protocol r) /\ option_sized limits_sized (ip_limits r)
  /\ option_sized (fun m => Forall (option_sized tool_sized) (mf_tools m)) (ip_manifest r).

Lemma bind_Ok {E A B} (r : result E A) (f : A -> result E B) b : (x ← r; f x) = Ok b <-> exists a, r = Ok a /\ f a = Ok b.
Proof. destruct r as [a|e]; cbn; split; [by exists a|by intros (x & [= ->] & ?)|done|by intros (x & ? & _)]. Qed.

Ltac binds := repeat match goal with H : mbind _ _ = Ok _ |- _ => let a := fresh "node" in let Ha := fresh "Hnode" in apply bind_Ok in H as (a & Ha & H) end.

Lemma jint_inj n m : int_ok n -> int_ok m -> jint n = jint m -> n = m.
Proof. intros Hn Hm [= E]. by apply integer_inj. Qed.
Lemma canonicalBytes_inj a b : canonicalBytes a = canonicalBytes b -> a = b.
Proof. intros E. apply base64_inj. unfold canonicalBytes in E. congruence. Qed.
Lemma canonicalStrings_inj a b : canonicalStrings a = canonicalStrings b -> a = b.
Proof. intros [= E]. revert b E. induction a as [|x a IH]; intros [|y b] [=]; [done|]. f_equal; [done|by apply IH]. Qed.

Section Injective.
Context (ConsumeTag : list Z -> Z * Z * Z) (ConsumeVarint ConsumeFixed64 ConsumeFixed32 : list Z -> Z * Z) (ConsumeBytes : list Z -> list Z * Z).

Local Abbreviation message := (canonicalMessage ConsumeTag ConsumeVarint ConsumeFixed64 ConsumeFixed32 ConsumeBytes).
Local Abbreviation version := (canonicalProtocolVersion ConsumeTag ConsumeVarint ConsumeFixed64 ConsumeFixed32 ConsumeBytes).
Local Abbreviation range := (canonicalProtocolRange ConsumeTag ConsumeVarint ConsumeFixed64 ConsumeFixed32 ConsumeBytes).

Lemma message_Ok u name fields v : message u name fields = Ok v -> exists atoms, v = JArray (JString name :: fields ++ [atoms]).
Proof. unfold canonicalMessage. intros H. binds. injection H as <-. by eexists. Qed.

Lemma message_inj u u' name name' fields fields' v : message u name fields = Ok v -> message u' name' fields' = Ok v -> fields = fields'.
Proof. intros H H'. apply message_Ok in H as [a ->]. apply message_Ok in H' as [a' [= _ E]]. by apply app_inj_tail in E as [? _]. Qed.

(** A message is never null. *)
Lemma message_not_null u name fields : message u name fields <> Ok JNull.
Proof. intros H. by apply message_Ok in H as [a [=]]. Qed.

Lemma option_inj {A} (f : A -> result error json) (known : A -> A) (sized : A -> Prop) a b v : (forall x, f x <> Ok JNull) ->
  (forall x y v, sized x -> sized y -> f x = Ok v -> f y = Ok v -> known x = known y) -> option_sized sized a -> option_sized sized b ->
  canonical_option f a = Ok v -> canonical_option f b = Ok v -> known <$> a = known <$> b.
Proof.
  intros Hn Hi Ha Hb Ea Eb. destruct a as [x|], b as [y|]; cbn in *.
  - f_equal. by eapply Hi.
  - injection Eb as <-. by destruct (Hn x).
  - injection Ea as <-. by destruct (Hn y).
  - done.
Qed.

(** The fields of two messages with the same node are the same. *)
Ltac fields E E' := let M := fresh "M" in pose proof (message_inj _ _ _ _ _ _ _ E E') as M; cbn [vg_version pv_major pv_minor pv_patch] in M;
  injection M; clear M; intros.
Ltac integers := repeat match goal with
  | H : integer ?a = integer ?b |- _ => apply integer_inj in H; [|assumption..]
  | H : base64_encode ?a = base64_encode ?b |- _ => apply base64_inj in H
  | H : map JString ?a = map JString ?b |- _ => apply (f_equal JArray), canonicalStrings_inj in H
  end.

Lemma version_inj a b v : option_sized version_sized a -> option_sized version_sized b -> version a = Ok v -> version b = Ok v -> known_version <$> a = known_version <$> b.
Proof.
  apply option_inj; [intros x; apply message_not_null|]. intros [[] u] [[] u'] w (H1 & H2 & H3) (H1' & H2' & H3') E E'. fields E E'. integers. unfold known_version. cbn in *. by subst.
Qed.

Lemma range_inj a b v : option_sized range_sized a -> option_sized range_sized b -> range a = Ok v -> range b = Ok v -> known_range <$> a = known_range <$> b.
Proof.
  apply option_inj; [intros x H; binds; by apply message_not_null in H|]. intros x y w [H1 H2] [H1' H2'] E E'. binds. fields E E'. subst. unfold known_range. f_equal; eapply version_inj; eassumption.
Qed.

Local Abbreviation capabilities := (canonicalCapabilitySet ConsumeTag ConsumeVarint ConsumeFixed64 ConsumeFixed32 ConsumeBytes).
Local Abbreviation limits := (canonicalLimits ConsumeTag ConsumeVarint ConsumeFixed64 ConsumeFixed32 ConsumeBytes).
Local Abbreviation build := (canonicalBuildIdentity ConsumeTag ConsumeVarint ConsumeFixed64 ConsumeFixed32 ConsumeBytes).
Local Abbreviation tool := (canonicalToolDefinition ConsumeTag ConsumeVarint ConsumeFixed64 ConsumeFixed32 ConsumeBytes).
Local Abbreviation manifest := (canonicalManifest ConsumeTag ConsumeVarint ConsumeFixed64 ConsumeFixed32 ConsumeBytes).
Local Abbreviation status := (canonicalStatus ConsumeTag ConsumeVarint ConsumeFixed64 ConsumeFixed32 ConsumeBytes).
Local Abbreviation detail := (canonicalStatusDetail ConsumeTag ConsumeVarint ConsumeFixed64 ConsumeFixed32 ConsumeBytes).

Lemma any_sized {A} (v : option A) : option_sized (fun _ => True) v.
Proof. by destruct v. Qed.

Lemma capabilities_inj a b v : capabilities a = Ok v -> capabilities b = Ok v -> known_capabilities <$> a = known_capabilities <$> b.
Proof.
  apply (option_inj _ _ (fun _ => True)); [intros x; apply message_not_null| |apply any_sized..]. intros x y w _ _ E E'. fields E E'. integers. unfold known_capabilities. by f_equal.
Qed.

Lemma build_inj a b v : build a = Ok v -> build b = Ok v -> known_build <$> a = known_build <$> b.
Proof.
  apply (option_inj _ _ (fun _ => True)); [intros x; apply message_not_null| |apply any_sized..]. intros x y w _ _ E E'. fields E E'. unfold known_build. by f_equal.
Qed.

Lemma limits_inj a b v : option_sized limits_sized a -> option_sized limits_sized b -> limits a = Ok v -> limits b = Ok v -> known_limits <$> a = known_limits <$> b.
Proof.
  apply option_inj; [intros x; apply message_not_null|]. intros x y w (H1 & H2 & H3 & H4 & H5 & H6 & H7) (H1' & H2' & H3' & H4' & H5' & H6' & H7') E E'. fields E E'. integers. unfold known_limits. by f_equal.
Qed.

Lemma tool_inj a b v : option_sized tool_sized a -> option_sized tool_sized b -> tool a = Ok v -> tool b = Ok v -> known_tool <$> a = known_tool <$> b.
Proof.
  apply option_inj; [intros x H; binds; by apply message_not_null in H|]. intros x y w [H1 H2] [H1' H2'] E E'. binds. fields E E'. integers. subst. unfold known_tool. f_equal; [done..|]. eapply capabilities_inj; eassumption.
Qed.

Lemma tools_inj l l' nodes : Forall (option_sized tool_sized) l -> Forall (option_sized tool_sized) l' ->
  canonical_tools ConsumeTag ConsumeVarint ConsumeFixed64 ConsumeFixed32 ConsumeBytes l = Ok nodes ->
  canonical_tools ConsumeTag ConsumeVarint ConsumeFixed64 ConsumeFixed32 ConsumeBytes l' = Ok nodes -> map (fmap known_tool) l = map (fmap known_tool) l'.
Proof.
  intros Hl. revert l' nodes. induction Hl as [|t l Ht _ IH]; intros [|t' l'] nodes Hl' E E'; cbn [canonical_tools] in *; binds; [done|congruence|congruence|].
  apply Forall_cons in Hl' as [Ht' Hl']. injection E as <-. injection E' as -> ->. cbn [map]. f_equal; [by eapply tool_inj|by eapply IH].
Qed.

Lemma manifest_inj a b v : option_sized (fun m => Forall (option_sized tool_sized) (mf_tools m)) a -> option_sized (fun m => Forall (option_sized tool_sized) (mf_tools m)) b ->
  manifest a = Ok v -> manifest b = Ok v -> known_manifest <$> a = known_manifest <$> b.
Proof.
  apply option_inj; [intros x H; binds; by apply message_not_null in H|]. intros x y w H H' E E'. binds. fields E E'. subst. unfold known_manifest. f_equal; [done..|]. by eapply tools_inj.
Qed.

Lemma detail_inj a b v : option_sized detail_sized a -> option_sized detail_sized b -> detail a = Ok v -> detail b = Ok v -> known_detail <$> a = known_detail <$> b.
Proof.
  intros Ha Hb E E'. destruct a as [a|], b as [b|]; [|exfalso; destruct a; cbn in *; binds; congruence|exfalso; destruct b; cbn in *; binds; congruence|done]. cbn [fmap option_fmap option_map]. f_equal. change (detail_sized a) in Ha. change (detail_sized b) in Hb.
  destruct a as [a|a|a|a|a|a|a], b as [b|b|b|b|b|b|b]; cbn in E, E'; binds; try (exfalso; congruence); assert (node = node0) as -> by congruence; clear E E'; cbn [known_detail]; f_equal; unfold detail_sized in Ha, Hb; revert Ha Hb Hnode0 Hnode; first [apply option_inj; [intros x H; cbv beta in H; binds; by apply message_not_null in H|]
      |intros _ _; apply (option_inj _ _ (fun _ => True)); [intros x; apply message_not_null| |apply any_sized..]].
  - intros x y w [H1 H2] [H1' H2'] E E'. binds. fields E E'. subst. f_equal; by eapply range_inj.
  - intros [[] u] [[] u'] w _ _ E E'. fields E E'. integers. cbn in *. by subst.
  - intros [[] u] [[] u'] w (H1 & H2 & H3 & H4) (H1' & H2' & H3' & H4') E E'. fields E E'. integers. cbn in *. by subst.
  - intros [[] u] [[] u'] w (H1 & H2) (H1' & H2') E E'. fields E E'. integers. cbn in *. by subst.
  - intros [[] u] [[] u'] w (H1 & H2) (H1' & H2') E E'. fields E E'. integers. cbn in *. by subst.
  - intros [[] u] [[] u'] w _ _ E E'. fields E E'. cbn in *. by subst.
  - intros [[] u] [[] u'] w _ _ E E'. fields E E'. cbn in *. by subst.
Qed.

Lemma status_inj a b v : option_sized status_sized a -> option_sized status_sized b -> status a = Ok v -> status b = Ok v -> known_status <$> a = known_status <$> b.
Proof.
  apply option_inj; [intros x H; binds; by apply message_not_null in H|]. intros x y w [H1 H2] [H1' H2'] E E'. binds. fields E E'. integers. subst. unfold known_status. f_equal; [done..|]. by eapply detail_inj.
Qed.

Lemma request_inj a b v : request_sized a -> request_sized b -> canonicalInitializeRequest ConsumeTag ConsumeVarint ConsumeFixed64 ConsumeFixed32 ConsumeBytes a = Ok v ->
  canonicalInitializeRequest ConsumeTag ConsumeVarint ConsumeFixed64 ConsumeFixed32 ConsumeBytes b = Ok v -> known_request a = known_request b.
Proof.
  intros [H1 H2] [H1' H2'] E E'. unfold canonicalInitializeRequest in *. binds. fields E E'. integers. subst. unfold known_request.
  f_equal; [by eapply range_inj|by eapply build_inj|by eapply capabilities_inj|by eapply capabilities_inj|by eapply limits_inj|done|done].
Qed.

Lemma response_inj a b v : response_sized a -> response_sized b -> canonicalInitializeResponse ConsumeTag ConsumeVarint ConsumeFixed64 ConsumeFixed32 ConsumeBytes a = Ok v ->
  canonicalInitializeResponse ConsumeTag ConsumeVarint ConsumeFixed64 ConsumeFixed32 ConsumeBytes b = Ok v -> known_response a = known_response b.
Proof.
  intros (H1 & H2 & H3 & H4) (H1' & H2' & H3' & H4') E E'. unfold canonicalInitializeResponse in *. binds. fields E E'. integers. subst. unfold known_response.
  f_equal; [by eapply status_inj|by eapply version_inj|by eapply build_inj|by eapply capabilities_inj|by eapply limits_inj|by eapply manifest_inj|done..].
Qed.
End Injective.

(** ** Transcripts are JSON documents *)

Lemma writable_deeper v : forall d d', (d <= d')%nat -> writable d v -> writable d' v.
Proof.
  induction v as [|b|lit|s|l IH|ms IH] using json_nested_ind; intros d d' Hd; [by destruct d, d'|by destruct d, d'|by destruct d, d'|by destruct d, d'| |]; (destruct d as [|d]; [done|destruct d' as [|d']; [lia|]]); cbn [writable]; intros H.
  - apply Forall_forall. intros v Hv. apply (proj1 (Forall_forall _ _) IH v Hv d d'); [lia|]. by apply (proj1 (Forall_forall _ _) H).
  - apply Forall_forall. intros m Hm. destruct (proj1 (Forall_forall _ _) H m Hm) as [Hk Hw]. split; [done|]. apply (proj1 (Forall_forall _ _) IH m Hm d d'); [lia|done].
Qed.

(** What is used of [protowire]: its values are within their types. *)
Record protowire_values (ConsumeTag : list Z -> Z * Z * Z) (ConsumeVarint ConsumeFixed64 ConsumeFixed32 : list Z -> Z * Z) : Prop := {
  pw_number raw : int_ok (ConsumeTag raw).1.1;
  pw_type raw : int_ok (ConsumeTag raw).1.2;
  pw_varint raw : int_ok (ConsumeVarint raw).1;
  pw_fixed64 raw : int_ok (ConsumeFixed64 raw).1;
  pw_fixed32 raw : int_ok (ConsumeFixed32 raw).1
}.

Lemma leaf_writable d v : match v with JNull | JBool _ | JString _ => true | _ => false end = true -> writable d v.
Proof. by destruct d, v. Qed.
Lemma jint_writable d n : int_ok n -> writable d (jint n).
Proof. intros H. destruct d; by apply integer_literal. Qed.
Lemma array_writable d l : Forall (writable d) l -> writable (S d) (JArray l).
Proof. done. Qed.
Lemma strings_writable d l : writable (S d) (canonicalStrings l).
Proof. apply array_writable, Forall_map, Forall_forall. intros s _. by apply leaf_writable. Qed.

#[local] Opaque writable.

Section Writable.
Context (ConsumeTag : list Z -> Z * Z * Z) (ConsumeVarint ConsumeFixed64 ConsumeFixed32 : list Z -> Z * Z) (ConsumeBytes : list Z -> list Z * Z)
  (values : protowire_values ConsumeTag ConsumeVarint ConsumeFixed64 ConsumeFixed32).

Lemma atoms_writable fuel : forall raw atoms, unknown_atoms ConsumeTag ConsumeVarint ConsumeFixed64 ConsumeFixed32 ConsumeBytes fuel raw = Ok atoms -> Forall (writable 1) atoms.
Proof using values.
  induction fuel as [|fuel IH]; intros [|b raw] atoms; cbn [unknown_atoms]; [intros [= <-]; apply Forall_nil; done|done|intros [= <-]; apply Forall_nil; done|].
  pose proof (pw_number _ _ _ _ values (b :: raw)) as Hn. pose proof (pw_type _ _ _ _ values (b :: raw)) as Ht. destruct (ConsumeTag (b :: raw)) as [[number typeID] consumed]. cbn [fst snd] in *.
  destruct (_ || _); [done|]. intros H. binds. destruct (_ <? 0); [done|]. binds. injection H as <-. apply Forall_cons. split; [|by eapply IH].
  apply array_writable. rewrite !Forall_cons. split; [by apply jint_writable|]. split; [by apply jint_writable|]. split; [|by apply Forall_nil]. unfold unknown_value in Hnode.
  repeat match type of Hnode with context [if ?b then _ else _] => destruct b end; try done.
  all: match type of Hnode with context [let '(_, _) := ?f ?r in _] => pose proof (pw_varint _ _ _ _ values r); pose proof (pw_fixed64 _ _ _ _ values r); pose proof (pw_fixed32 _ _ _ _ values r); destruct (f r) as [x n] end;
    injection Hnode as <-; cbn [fst snd] in *; first [by apply jint_writable|by apply leaf_writable].
Qed.

Lemma message_writable d unknown name fields v : Forall (writable (2 + d)) fields -> canonicalMessage ConsumeTag ConsumeVarint ConsumeFixed64 ConsumeFixed32 ConsumeBytes unknown name fields = Ok v -> writable (3 + d) v.
Proof using values.
  intros Hf H. unfold canonicalMessage, canonicalUnknownFields in H. binds. injection Hnode as <-. injection H as <-. apply array_writable. apply Forall_cons. split; [by apply leaf_writable|]. apply Forall_app. split; [done|].
  apply Forall_cons. split; [|by apply Forall_nil]. apply array_writable. eapply Forall_impl; [by eapply atoms_writable|]. intros x Hx. eapply writable_deeper; [|exact Hx]. lia.
Qed.

Ltac written := repeat (apply Forall_cons; split); try (apply Forall_nil; done);
  try first [by apply leaf_writable|by apply jint_writable|apply strings_writable].

Lemma option_writable {A} d (f : A -> result error json) (sized : A -> Prop) a v : (forall x v, sized x -> f x = Ok v -> writable d v) -> option_sized sized a -> canonical_option f a = Ok v -> writable d v.
Proof using. intros Hf Ha H. destruct a as [x|]; [by eapply Hf|]. injection H as <-. by apply leaf_writable. Qed.

Lemma version_writable d a v : option_sized version_sized a -> canonicalProtocolVersion ConsumeTag ConsumeVarint ConsumeFixed64 ConsumeFixed32 ConsumeBytes a = Ok v -> writable (3 + d) v.
Proof using values. apply option_writable. intros x w (H1 & H2 & H3). apply message_writable. written. Qed.
Lemma range_writable d a v : option_sized range_sized a -> canonicalProtocolRange ConsumeTag ConsumeVarint ConsumeFixed64 ConsumeFixed32 ConsumeBytes a = Ok v -> writable (4 + d) v.
Proof using values. apply option_writable. intros x w (H1 & H2) H. binds. eapply (message_writable (1 + d)); [|exact H]. written; (eapply version_writable; [|eassumption]; done). Qed.
Lemma capabilities_writable d a v : canonicalCapabilitySet ConsumeTag ConsumeVarint ConsumeFixed64 ConsumeFixed32 ConsumeBytes a = Ok v -> writable (3 + d) v.
Proof using values. apply (option_writable _ _ (fun _ => True)); [|apply any_sized]. intros x w _. apply message_writable. written. Qed.
Lemma build_writable d a v : canonicalBuildIdentity ConsumeTag ConsumeVarint ConsumeFixed64 ConsumeFixed32 ConsumeBytes a = Ok v -> writable (3 + d) v.
Proof using values. apply (option_writable _ _ (fun _ => True)); [|apply any_sized]. intros x w _. apply message_writable. written. Qed.
Lemma limits_writable d a v : option_sized limits_sized a -> canonicalLimits ConsumeTag ConsumeVarint ConsumeFixed64 ConsumeFixed32 ConsumeBytes a = Ok v -> writable (3 + d) v.
Proof using values. apply option_writable. intros x w (H1 & H2 & H3 & H4 & H5 & H6 & H7). apply message_writable. written. Qed.
Lemma tool_writable d a v : option_sized tool_sized a -> canonicalToolDefinition ConsumeTag ConsumeVarint ConsumeFixed64 ConsumeFixed32 ConsumeBytes a = Ok v -> writable (4 + d) v.
Proof using values. apply option_writable. intros x w (H1 & H2) H. binds. eapply (message_writable (1 + d)); [|exact H]. written. by eapply capabilities_writable. Qed.
Lemma tools_writable d l nodes : Forall (option_sized tool_sized) l -> canonical_tools ConsumeTag ConsumeVarint ConsumeFixed64 ConsumeFixed32 ConsumeBytes l = Ok nodes -> Forall (writable (4 + d)) nodes.
Proof using values.
  intros Hl. revert nodes. induction Hl as [|t l Ht _ IH]; intros nodes H; cbn [canonical_tools] in H; [injection H as <-; by apply Forall_nil|]. binds. injection H as <-. apply Forall_cons. split; [by eapply tool_writable|by apply IH].
Qed.
Lemma manifest_writable d a v : option_sized (fun m => Forall (option_sized tool_sized) (mf_tools m)) a -> canonicalManifest ConsumeTag ConsumeVarint ConsumeFixed64 ConsumeFixed32 ConsumeBytes a = Ok v -> writable (6 + d) v.
Proof using values. apply option_writable. intros x w Hx H. binds. eapply (message_writable (3 + d)); [|exact H]. written. apply array_writable. by eapply tools_writable. Qed.

Lemma detail_writable d a v : option_sized detail_sized a -> canonicalStatusDetail ConsumeTag ConsumeVarint ConsumeFixed64 ConsumeFixed32 ConsumeBytes a = Ok v -> writable (6 + d) v.
Proof using values.
  intros Ha H. destruct a as [a|]; [|injection H as <-; by apply leaf_writable]. change (detail_sized a) in Ha.
  assert (exists name node, v = JArray [JString name; node] /\ writable (5 + d) node) as (name & node & -> & Hw); [|apply array_writable; written; done].
  destruct a as [a|a|a|a|a|a|a]; cbn in H; binds; injection H as <-; (do 2 eexists; split; [reflexivity|]); unfold detail_sized in Ha; revert Hnode.
  - revert Ha. apply option_writable. intros x w [H1 H2] H. binds. eapply (message_writable (2 + d)); [|exact H]. written; (eapply (range_writable d); [|eassumption]; done).
  - apply (option_writable _ _ (fun _ => True)); [|apply any_sized]. intros x w _. apply (message_writable (2 + d)). written.
  - revert Ha. apply option_writable. intros x w (H1 & H2 & H3 & H4). apply (message_writable (2 + d)). written.
  - revert Ha. apply option_writable. intros x w (H1 & H2). apply (message_writable (2 + d)). written.
  - revert Ha. apply option_writable. intros x w (H1 & H2). apply (message_writable (2 + d)). written.
  - apply (option_writable _ _ (fun _ => True)); [|apply any_sized]. intros x w _. apply (message_writable (2 + d)). written.
  - apply (option_writable _ _ (fun _ => True)); [|apply any_sized]. intros x w _. apply (message_writable (2 + d)). written.
Qed.

Lemma status_writable d a v : option_sized status_sized a -> canonicalStatus ConsumeTag ConsumeVarint ConsumeFixed64 ConsumeFixed32 ConsumeBytes a = Ok v -> writable (7 + d) v.
Proof using values. apply option_writable. intros x w (H1 & H2) H. binds. eapply (message_writable (4 + d)); [|exact H]. written. eapply detail_writable; [|eassumption]; done. Qed.

Lemma request_writable a v : request_sized a -> canonicalInitializeRequest ConsumeTag ConsumeVarint ConsumeFixed64 ConsumeFixed32 ConsumeBytes a = Ok v -> writable 8 v.
Proof using values.
  intros [H1 H2] H. unfold canonicalInitializeRequest in H. binds. eapply (message_writable 5); [|exact H]. written.
  - eapply (range_writable 3); [|eassumption]; done.
  - by eapply (build_writable 4).
  - by eapply (capabilities_writable 4).
  - by eapply (capabilities_writable 4).
  - eapply (limits_writable 4); [|eassumption]; done.
Qed.

Lemma response_writable a v : response_sized a -> canonicalInitializeResponse ConsumeTag ConsumeVarint ConsumeFixed64 ConsumeFixed32 ConsumeBytes a = Ok v -> writable 8 v.
Proof using values.
  intros (H1 & H2 & H3 & H4) H. unfold canonicalInitializeResponse in H. binds. eapply (message_writable 5); [|exact H]. written.
  - eapply (status_writable 0); [|eassumption]; done.
  - eapply (version_writable 4); [|eassumption]; done.
  - by eapply (build_writable 4).
  - by eapply (capabilities_writable 4).
  - eapply (limits_writable 4); [|eassumption]; done.
  - eapply (manifest_writable 1); [|eassumption]; done.
Qed.

(** Equal transcripts are of messages with equal known fields. *)
Lemma transcript_inj request response request' response' text : request_sized request -> request_sized request' -> response_sized response -> response_sized response' ->
  CanonicalInitializeTranscript ConsumeTag ConsumeVarint ConsumeFixed64 ConsumeFixed32 ConsumeBytes (Some request) (Some response) = Ok text ->
  CanonicalInitializeTranscript ConsumeTag ConsumeVarint ConsumeFixed64 ConsumeFixed32 ConsumeBytes (Some request') (Some response') = Ok text ->
  known_request request = known_request request' /\ known_response response = known_response response'.
Proof using values.
  intros Hq Hq' Hp Hp'. unfold CanonicalInitializeTranscript.
  destruct (canonicalInitializeRequest _ _ _ _ _ request) as [q|] eqn:Eq; [|done]. destruct (canonicalInitializeResponse _ _ _ _ _ response) as [p|] eqn:Ep; [|done].
  destruct (canonicalInitializeRequest _ _ _ _ _ request') as [q'|] eqn:Eq'; [|done]. destruct (canonicalInitializeResponse _ _ _ _ _ response') as [p'|] eqn:Ep'; [|done].
  cbn [wrap_result mbind result_bind]. unfold marshalCanonicalJSON.
  set (tree q p := JArray [JString InitializeTranscriptDomain; jint InitializeTranscriptVersion; q; p]). fold (tree q p) (tree q' p').
  assert (forall a b c d, tree a b = tree c d -> a = c /\ b = d) as Htree by (intros a b c d [=]; done).
  assert (forall q p, writable 8 q -> writable 8 p -> writable (Z.to_nat maxNestingDepth) (tree q p)) as Hw.
  { intros x y Hx Hy. apply (writable_deeper _ 9); [unfold maxNestingDepth; lia|]. apply array_writable. rewrite !Forall_cons. split; [by apply leaf_writable|]. split; [apply jint_writable; unfold int_ok, maxUint64, InitializeTranscriptVersion; lia|]. split; [done|]. split; [done|by apply Forall_nil]. }
  clearbody tree. destruct (json_utf8 (tree q p)) eqn:Hu; [|intros H; discriminate H]. destruct (json_utf8 (tree q' p')) eqn:Hu'; [|intros _ H; discriminate H].
  intros E E'. apply Ok_inj in E, E'.
  pose proof (Hw q p (request_writable _ _ Hq Eq) (response_writable _ _ Hp Ep)) as W. pose proof (Hw q' p' (request_writable _ _ Hq' Eq') (response_writable _ _ Hp' Ep')) as W'.
  assert (print_with false (tree q p) = print_with false (tree q' p')) as Eprint.
  { rewrite <- (byte_codes_of_codes _ (print_bytes (html := false) _ _ W)), <- (byte_codes_of_codes _ (print_bytes (html := false) _ _ W')). congruence. }
  apply (print_inj _ _ W W' Hu Hu'), Htree in Eprint as [<- <-].
  split; [by eapply request_inj|by eapply response_inj].
Qed.
End Writable.
