(* ===== verification/PluginContract.v ===== *)
(** The contract of the plugin protocol (src/plugin/v1/contract.go): limits,
    the authenticated initialization, manifests and catalogs, and the stream of
    one execution.  [proto.Size] is the parameter [Size]. *)
From Stdlib Require Import ZArith Lia.
From stdpp Require Import base list strings pretty sorting.
From S2P Require Import Prelude GoText GoOrder GoJson Tool GoCrypto GoJsonTree GoBase64 CommonContract PluginWire.
Open Scope Z_scope.

Definition InitializeBootstrapMaximumBytes : Z := Z.shiftl 1 20.
Definition LaunchIDBytes : Z := 16.
Definition SessionIDBytes : Z := 16.
Definition HandshakeChallengeBytes : Z := 32.
Definition HandshakeSecretBytes : Z := 32.
Definition HandshakeProofBytes : Z := 32.
Definition CapabilityRuntimeToolsV1 : string := "runtime-tools-v1".
Definition maximumToolCount : Z := 4096.
Definition maximumConcurrentCalls : Z := 4096.
Definition maximumDescriptionBytes : Z := maxMessageBytes.
Definition maximumProblemBytes : Z := maxMessageBytes.

(** The version of the plugin protocol is 1.0.0 alone. *)
Definition PluginProtocol : ProtocolVersion := mkVersion 1 0 0.
Definition SupportedProtocolRange : RangeMsg :=
  mkRangeMsg (Some (mkVersionMsg PluginProtocol "")) (Some (mkVersionMsg PluginProtocol "")) "".

(** ** Messages of an execution *)

Record ExecuteRequest := mkExecuteRequest { xq_sessionID : string; xq_callID : string; xq_toolName : string; xq_arguments : string; xq_unknown : string }.
Record ResultMsg := mkResultMsg { rs_content : string; rs_problem : string }.
Record ExecutionFailure := mkExecutionFailure { ef_state : Z; ef_retry : Z; ef_safeMessage : string }.
Inductive ExecuteFrame :=
| ExecuteResponse_Progress (message : option string)
| ExecuteResponse_Result (value : option ResultMsg)
| ExecuteResponse_Failure (value : option ExecutionFailure).
Record ExecuteResponse := mkExecuteResponse { xr_callID : string; xr_sequence : Z; xr_frame : option ExecuteFrame; xr_unknown : string }.
Record DrainRequest := mkDrainRequest { dq_sessionID : string }.
Record DrainResponse := mkDrainResponse { dr_status : option Status; dr_activeCalls : Z }.
Record ShutdownRequest := mkShutdownRequest { sq_sessionID : string }.
Record ShutdownResponse := mkShutdownResponse { sr_status : option Status }.

Inductive PluginMessage :=
| MInitializeRequest (m : InitializeRequest)
| MInitializeResponse (m : InitializeResponse)
| MManifest (m : Manifest)
| MExecuteRequest (m : ExecuteRequest)
| MExecuteResponse (m : ExecuteResponse)
| MDrainRequest (m : DrainRequest)
| MDrainResponse (m : DrainResponse)
| MShutdownRequest (m : ShutdownRequest)
| MShutdownResponse (m : ShutdownResponse).

(** ** Limits *)

Definition GetMaxMessageBytes (l : option PluginLimits) : Z := match l with Some l => pl_maxMessageBytes l | None => 0 end.

Definition plugin_limit_values (l : PluginLimits) : list Z :=
  [pl_maxMessageBytes l; pl_maxTools l; pl_maxSchemaBytes l; pl_maxCallArgumentBytes l; pl_maxResultBytes l; pl_maxProgressBytes l; pl_maxConcurrentCalls l].

Definition within_message (label : string) (value : Z) (l : PluginLimits) : option error :=
  when (value >? pl_maxMessageBytes l) ("plugin " +:+ label +:+ " limit exceeds the message limit").

Definition ValidateLimits (value : option PluginLimits) : option error :=
  match value with
  | None => Some (Errorf "plugin limits are required")
  | Some l =>
      when (existsb (Z.eqb 0) (plugin_limit_values l)) "plugin limits must all be positive"
      >>> when (pl_maxTools l >? maximumToolCount) ("plugin tool limit exceeds " +:+ pretty maximumToolCount)
      >>> when (pl_maxConcurrentCalls l >? maximumConcurrentCalls) ("plugin concurrent-call limit exceeds " +:+ pretty maximumConcurrentCalls)
      >>> when (pl_maxMessageBytes l >? InitializeBootstrapMaximumBytes) ("plugin message limit exceeds " +:+ pretty InitializeBootstrapMaximumBytes)
      >>> within_message "schema" (pl_maxSchemaBytes l) l
      >>> within_message "call argument" (pl_maxCallArgumentBytes l) l
      >>> within_message "result" (pl_maxResultBytes l) l
      >>> within_message "progress" (pl_maxProgressBytes l) l
      >>> when ((pl_maxSchemaBytes l >? MaximumToolPayloadBytes) || (pl_maxCallArgumentBytes l >? MaximumToolPayloadBytes) || (pl_maxResultBytes l >? MaximumToolPayloadBytes))
            ("plugin JSON limit exceeds " +:+ pretty MaximumToolPayloadBytes)
      >>> when (pl_maxProgressBytes l >? maxMessageBytes) ("plugin progress limit exceeds " +:+ pretty maxMessageBytes)
  end.

Definition NegotiateLimits (requested available : option PluginLimits) : result error PluginLimits :=
  match wrap "requested plugin limits: " (ValidateLimits requested), ValidateLimits available, requested, available with
  | Some err, _, _, _ => Err err
  | None, Some _, _, _ => Err (Errorf "available plugin limits are invalid")
  | None, None, Some r, Some a =>
      Ok (mkPluginLimits (Z.min (pl_maxMessageBytes r) (pl_maxMessageBytes a)) (Z.min (pl_maxTools r) (pl_maxTools a))
            (Z.min (pl_maxSchemaBytes r) (pl_maxSchemaBytes a)) (Z.min (pl_maxCallArgumentBytes r) (pl_maxCallArgumentBytes a))
            (Z.min (pl_maxResultBytes r) (pl_maxResultBytes a)) (Z.min (pl_maxProgressBytes r) (pl_maxProgressBytes a))
            (Z.min (pl_maxConcurrentCalls r) (pl_maxConcurrentCalls a)) "")
  | None, None, _, _ => Err (Errorf "available plugin limits are invalid")
  end.

(** ** Text *)

Definition token (label value : string) (maximum : Z) : option error :=
  when (negb (trimmed_nonempty value)) (label +:+ " must be non-empty without surrounding whitespace")
  >>> when (negb (utf8_valid value) || contains_any value [0; 13; 10; 9]) (label +:+ " contains invalid text")
  >>> when (slen value >? maximum) (label +:+ " exceeds " +:+ pretty maximum +:+ " bytes").

Definition boundedText (label value : string) (maximum : Z) : option error := token label value maximum.

Definition boundedJSON (label value : string) (maximum : Z) : option error :=
  when ((slen value =? 0) || negb (json_valid value)) (label +:+ " must be valid JSON")
  >>> when (slen value >? maximum) (label +:+ " exceeds the negotiated limit").

Definition ValidateBuildIdentity (value : option PluginBuild) : option error :=
  match value with
  | None => Some (Errorf "plugin build identity is required")
  | Some v =>
      token "plugin build component" (pb_component v) maximumTokenBytes
      >>> token "plugin build version" (pb_version v) maximumTokenBytes
      >>> token "plugin build commit" (pb_commit v) maximumTokenBytes
      >>> token "plugin build runtime" (pb_runtime v) maximumTokenBytes
  end.

(** ** Selections *)

Definition containsCapability (value : option CapabilityMsg) (name : string) : bool :=
  match value with None => false | Some c => found (cg_names c) name end.

Definition names_of (value : option CapabilityMsg) : list string := GetNames (capabilities_of value).

Definition validateCapabilityRequest (supported required : option CapabilityMsg) : option error :=
  wrap "plugin supported capabilities: " (ValidateCapabilities (capabilities_of supported))
  >>> wrap "plugin required capabilities: " (ValidateCapabilities (capabilities_of required))
  >>> when (negb (containsCapability supported CapabilityRuntimeToolsV1) || negb (containsCapability required CapabilityRuntimeToolsV1))
        "plugin runtime-tools-v1 capability must be supported and required"
  >>> when (negb (forallb (found (names_of supported)) (names_of required))) "plugin required capabilities must be supported by the host".

Definition set_err (c : option error) : bool := match c with Some _ => true | None => false end.

Definition capabilitiesSelectedFrom (supported required selected : option CapabilityMsg) : bool :=
  if set_err (ValidateCapabilities (capabilities_of selected)) then false
  else forallb (found (names_of supported)) (names_of selected) && forallb (found (names_of selected)) (names_of required).

Definition limitsSelectedFrom (requested selected : option PluginLimits) : bool :=
  if set_err (ValidateLimits requested) || set_err (ValidateLimits selected) then false
  else match requested, selected with
  | Some r, Some s => forallb (fun p => p.1 <=? p.2) (zip (plugin_limit_values s) (plugin_limit_values r))
  | _, _ => false
  end.

Definition compareProtocol (left right : option ProtocolVersion) : Z :=
  compare_pairs [(GetMajor left, GetMajor right); (GetMinor left, GetMinor right); (GetPatch left, GetPatch right)].

Definition supportedProtocol (value : option ProtocolVersion) : bool :=
  match value with
  | None => false
  | Some v => (pv_major v =? pv_major PluginProtocol) && (pv_minor v >=? pv_minor PluginProtocol) && (pv_minor v <=? pv_minor PluginProtocol) && (pv_patch v =? pv_patch PluginProtocol)
  end.

Definition protocolSelectedFrom (requested : option RangeMsg) (selected : option VersionMsg) : bool :=
  match ValidateProtocolRange (range_of requested), version_of selected with
  | None, Some v =>
      (compareProtocol (Some v) (GetMinimum (range_of requested)) >=? 0) && (compareProtocol (Some v) (GetMaximum (range_of requested)) <=? 0) && supportedProtocol (Some v)
  | _, _ => false
  end.

Definition validateSession (observed expected : string) : option error :=
  when (negb (slen expected =? SessionIDBytes)) "expected plugin session identity is invalid"
  >>> when (negb (slen observed =? SessionIDBytes) || negb (String.eqb observed expected)) "plugin session identity does not match".

(** ** Kernel values on the wire *)

Definition TOOL_EFFECT_READ_ONLY : Z := 1.
Definition TOOL_EFFECT_MUTATING : Z := 2.
Definition REPLAY_SAFETY_SAFE : Z := 1.
Definition REPLAY_SAFETY_IDEMPOTENT : Z := 2.
Definition REPLAY_SAFETY_UNSAFE : Z := 3.
Definition EXECUTION_STATE_DEFINITIVE : Z := 1.
Definition EXECUTION_STATE_UNCERTAIN : Z := 2.
Definition RETRY_DISPOSITION_NEVER : Z := 1.
Definition RETRY_DISPOSITION_ALLOWED : Z := 2.

Definition decodeCapability (value : string) : result error Capability :=
  if elem_str value [CapabilityFilesystemRead; CapabilityFilesystemWrite; CapabilityProcessExecute; CapabilityNetworkAccess; CapabilitySecretsRead; CapabilityEnvironmentRead; CapabilityEnvironmentWrite]
  then Ok value else Err (Errorf "plugin tool capability is unsupported").

Definition encodeEffect (value : Effect) : result error Z :=
  if String.eqb value EffectReadOnly then Ok TOOL_EFFECT_READ_ONLY
  else if String.eqb value EffectMutating then Ok TOOL_EFFECT_MUTATING else Err (Errorf "plugin tool effect is unsupported").
Definition decodeEffect (value : Z) : result error Effect :=
  if value =? TOOL_EFFECT_READ_ONLY then Ok EffectReadOnly
  else if value =? TOOL_EFFECT_MUTATING then Ok EffectMutating else Err (Errorf "plugin tool effect is unsupported").

Definition encodeReplaySafety (value : ReplaySafety) : result error Z :=
  if String.eqb value ReplaySafe then Ok REPLAY_SAFETY_SAFE
  else if String.eqb value ReplayIdempotent then Ok REPLAY_SAFETY_IDEMPOTENT
  else if String.eqb value ReplayUnsafe then Ok REPLAY_SAFETY_UNSAFE else Err (Errorf "plugin tool replay safety is unsupported").
Definition decodeReplaySafety (value : Z) : result error ReplaySafety :=
  if value =? REPLAY_SAFETY_SAFE then Ok ReplaySafe
  else if value =? REPLAY_SAFETY_IDEMPOTENT then Ok ReplayIdempotent
  else if value =? REPLAY_SAFETY_UNSAFE then Ok ReplayUnsafe else Err (Errorf "plugin tool replay safety is unsupported").

Definition decodeExecutionState (value : Z) : result error string :=
  if value =? EXECUTION_STATE_DEFINITIVE then Ok ExecutionDefinitive
  else if value =? EXECUTION_STATE_UNCERTAIN then Ok ExecutionUncertain else Err (Errorf "plugin execution state is unsupported").
Definition decodeRetryDisposition (value : Z) : result error string :=
  if value =? RETRY_DISPOSITION_NEVER then Ok RetryNever
  else if value =? RETRY_DISPOSITION_ALLOWED then Ok RetryAllowed else Err (Errorf "plugin retry disposition is unsupported").

(** [check c k]: the error of [c], or [k]. *)
Definition check {A} (c : option error) (k : result error A) : result error A := match c with Some err => Err err | None => k end.
Definition refuse {A B} (text : string) (r : result A B) : result error B := match r with Ok b => Ok b | Err _ => Err (Errorf text) end.

Fixpoint decode_capabilities (names : list string) : result error (list Capability) :=
  match names with
  | [] => Ok []
  | name :: rest => c ← decodeCapability name; cs ← decode_capabilities rest; Ok (c :: cs)
  end.

Definition decodeToolDefinition (value : option ToolDefinition) (limits : PluginLimits) : result error Definition_ :=
  match value with
  | None => Err (Errorf "plugin tool definition is required")
  | Some v =>
      check (token "plugin tool name" (wd_name v) 128)
      (check (boundedText "plugin tool description" (wd_description v) maximumDescriptionBytes)
      (check (boundedJSON "plugin tool schema" (wd_inputSchema v) (pl_maxSchemaBytes limits))
      (effect ← decodeEffect (wd_effect v);
       replay ← decodeReplaySafety (wd_replaySafety v);
       check (wrap "plugin tool capabilities: " (ValidateCapabilities (capabilities_of (wd_capabilities v))))
       (capabilities ← decode_capabilities (names_of (wd_capabilities v));
        refuse "plugin tool definition metadata is inconsistent" (NewDefinition (wd_name v) (wd_description v) (wd_inputSchema v) effect replay capabilities)))))
  end.

Definition EncodeToolDefinition (value : Definition_) : result error ToolDefinition :=
  match Definition_Validate value with
  | Some e => Err (Errorf "plugin tool definition")
  | None =>
      effect ← encodeEffect (td_effect value);
      replay ← encodeReplaySafety (td_replaySafety value);
      Ok (mkToolDefinition (td_name value) (td_description value) (td_inputSchema value) effect replay (Some (mkCapabilityMsg (td_capabilities value) "")) "")
  end.

(** ** Manifests *)

Record Catalog := mkCatalog { ct_name : string; ct_version : string; ct_definitions : list Definition_ }.

(** The loop of [DecodeManifest]. *)
Fixpoint decode_definitions (index : N) (previous : string) (tools : list (option ToolDefinition)) (limits : PluginLimits) : result error (list Definition_) :=
  match tools with
  | [] => Ok []
  | t :: rest =>
      definition ← wrap_result ("plugin tool definition " +:+ pretty index +:+ ": ") (decodeToolDefinition t limits);
      if negb (String.eqb previous "") && String.leb (td_name definition) previous then Err (Errorf "plugin tool definitions must be sorted and unique")
      else definitions ← decode_definitions (N.succ index) (td_name definition) rest limits; Ok (definition :: definitions)
  end.

Section Sized.
Context (Size : PluginMessage -> Z).

Definition encoded_fits (m : PluginMessage) (maximum : Z) : option error := ValidateEncodedSize (Size m) maximum.

Definition DecodeManifest (value : option Manifest) (limits : option PluginLimits) : result error Catalog :=
  match value with
  | None => Err (Errorf "plugin manifest is required")
  | Some v =>
      check (ValidateLimits limits)
      (match limits with
       | None => Err (Errorf "plugin limits are required")
       | Some l =>
           check (token "plugin manifest name" (mf_name v) maximumTokenBytes)
           (check (token "plugin manifest version" (mf_version v) maximumTokenBytes)
           (if (lenZ (mf_tools v) =? 0) || (lenZ (mf_tools v) >? pl_maxTools l) then Err (Errorf "plugin manifest tool count is outside negotiated limits")
            else
              definitions ← decode_definitions 0 "" (mf_tools v) l;
              check (encoded_fits (MManifest v) (pl_maxMessageBytes l))
              (Ok (mkCatalog (mf_name v) (mf_version v) definitions))))
       end)
  end.

Fixpoint encode_definitions (definitions : list Definition_) : result error (list ToolDefinition) :=
  match definitions with
  | [] => Ok []
  | d :: rest => encoded ← EncodeToolDefinition d; tools ← encode_definitions rest; Ok (encoded :: tools)
  end.

(** [slices.SortFunc] by name.  It is not stable, which no name that occurs
    once can tell; [DecodeManifest] refuses the others. *)
Fixpoint insert_tool (t : ToolDefinition) (l : list ToolDefinition) : list ToolDefinition :=
  match l with
  | [] => [t]
  | x :: rest => if String.leb (wd_name t) (wd_name x) then t :: l else x :: insert_tool t rest
  end.
Fixpoint sort_tools (l : list ToolDefinition) : list ToolDefinition := match l with [] => [] | t :: rest => insert_tool t (sort_tools rest) end.

Definition NewCatalog (name version : string) (definitions : list Definition_) (limits : option PluginLimits) : result error Catalog :=
  tools ← encode_definitions definitions;
  DecodeManifest (Some (mkManifest name version (map Some (sort_tools tools)) "")) limits.

Definition Catalog_Manifest (catalog : Catalog) : result error Manifest :=
  check (token "plugin manifest name" (ct_name catalog) maximumTokenBytes)
  (check (token "plugin manifest version" (ct_version catalog) maximumTokenBytes)
  (if lenZ (ct_definitions catalog) =? 0 then Err (Errorf "plugin catalog contains no tool definitions")
   else tools ← encode_definitions (ct_definitions catalog); Ok (mkManifest (ct_name catalog) (ct_version catalog) (map Some tools) ""))).

(** ** Initialization *)

Definition ValidateInitializeRequest (value : option InitializeRequest) : option error :=
  match value with
  | None => Some (Errorf "plugin initialize request is required")
  | Some v =>
      wrap "plugin protocol range: " (ValidateProtocolRange (range_of (iq_protocol v)))
      >>> wrap "plugin host build: " (ValidateBuildIdentity (iq_host v))
      >>> validateCapabilityRequest (iq_supported v) (iq_required v)
      >>> wrap "plugin requested limits: " (ValidateLimits (iq_limits v))
      >>> when (negb (slen (iq_launchID v) =? LaunchIDBytes)) ("plugin launch identity must contain " +:+ pretty LaunchIDBytes +:+ " bytes")
      >>> when (negb (slen (iq_challenge v) =? HandshakeChallengeBytes)) ("plugin handshake challenge must contain " +:+ pretty HandshakeChallengeBytes +:+ " bytes")
      >>> encoded_fits (MInitializeRequest v) InitializeBootstrapMaximumBytes
  end.

Definition initializeResponseHasSuccessFields (v : InitializeResponse) : bool :=
  bool_decide (is_Some (ip_protocol v)) || bool_decide (is_Some (ip_capabilities v)) || bool_decide (is_Some (ip_limits v)) || bool_decide (is_Some (ip_manifest v))
  || negb (slen (ip_sessionID v) =? 0).

Definition error_of {A} (r : result error A) : option error := match r with Ok _ => None | Err e => Some e end.

Definition validateInitializeResponse (value : option InitializeResponse) : option error :=
  match value with
  | None => Some (Errorf "plugin initialize response is required")
  | Some v =>
      encoded_fits (MInitializeResponse v) InitializeBootstrapMaximumBytes
      >>> wrap "plugin initialize status: " (ValidateStatus (status_of (ip_status v)))
      >>> wrap "plugin build identity: " (ValidateBuildIdentity (ip_plugin v))
      >>> when (negb (slen (ip_launchID v) =? LaunchIDBytes) || negb (slen (ip_challenge v) =? HandshakeChallengeBytes) || negb (slen (ip_proof v) =? HandshakeProofBytes))
            "plugin initialize handshake fields have invalid sizes"
      >>> match AsError (status_of (ip_status v)) with
          | Some _ =>
              when (initializeResponseHasSuccessFields v) "failed plugin initialize response contains negotiated fields"
              >>> encoded_fits (MInitializeResponse v) InitializeBootstrapMaximumBytes
          | None =>
              when (negb (supportedProtocol (version_of (ip_protocol v)))) "plugin selected protocol is unsupported"
              >>> wrap "plugin selected capabilities: " (ValidateCapabilities (capabilities_of (ip_capabilities v)))
              >>> wrap "plugin selected limits: " (ValidateLimits (ip_limits v))
              >>> when (negb (slen (ip_sessionID v) =? SessionIDBytes)) ("plugin session identity must contain " +:+ pretty SessionIDBytes +:+ " bytes")
              >>> error_of (DecodeManifest (ip_manifest v) (ip_limits v))
              >>> encoded_fits (MInitializeResponse v) (GetMaxMessageBytes (ip_limits v))
          end
  end.

(** The decoders of [protowire]. *)
Context (ConsumeTag : list Z -> Z * Z * Z) (ConsumeVarint ConsumeFixed64 ConsumeFixed32 : list Z -> Z * Z) (ConsumeBytes : list Z -> list Z * Z).

Definition initializeProof (request : option InitializeRequest) (response : option InitializeResponse) (secret : string) : result error string :=
  if negb (slen secret =? HandshakeSecretBytes) then Err (Errorf ("plugin handshake secret must contain " +:+ pretty HandshakeSecretBytes +:+ " bytes"))
  else transcript ← CanonicalInitializeTranscript ConsumeTag ConsumeVarint ConsumeFixed64 ConsumeFixed32 ConsumeBytes request response; Ok (hmac_sha256 secret transcript).

Definition with_proof (r : InitializeResponse) (proof : string) : InitializeResponse :=
  mkInitializeResponse (ip_status r) (ip_protocol r) (ip_plugin r) (ip_capabilities r) (ip_limits r) (ip_manifest r) (ip_launchID r) (ip_sessionID r) (ip_challenge r) proof (ip_unknown r).

Definition SignInitializeResponse (request : option InitializeRequest) (response : option InitializeResponse) (secret : string) : result error InitializeResponse :=
  match request, response with
  | Some _, Some r => proof ← initializeProof request (Some (with_proof r "")) secret; Ok (with_proof r proof)
  | _, _ => Err (Errorf "plugin initialize request and response are required")
  end.

Definition ValidateInitializeResponseForRequest (request : option InitializeRequest) (response : option InitializeResponse) (secret : string) : option error :=
  ValidateInitializeRequest request
  >>> validateInitializeResponse response
  >>> match request, response with
      | Some q, Some p =>
          when (negb (String.eqb (iq_launchID q) (ip_launchID p))) "plugin initialize launch identity does not match the request"
          >>> when (negb (String.eqb (iq_challenge q) (ip_challenge p))) "plugin initialize challenge does not match the request"
          >>> match initializeProof request response secret with
              | Err err => Some err
              | Ok expected =>
                  when (negb (String.eqb expected (ip_proof p))) "plugin initialize handshake proof is invalid"
                  >>> AsError (status_of (ip_status p))
                  >>> when (negb (protocolSelectedFrom (iq_protocol q) (ip_protocol p))) "plugin selected protocol is outside the requested range"
                  >>> when (negb (capabilitiesSelectedFrom (iq_supported q) (iq_required q) (ip_capabilities p))) "plugin selected capabilities do not satisfy the request"
                  >>> when (negb (limitsSelectedFrom (iq_limits q) (ip_limits p))) "plugin selected limits exceed the request"
                  >>> error_of (DecodeManifest (ip_manifest p) (ip_limits p))
              end
      | _, _ => None
      end.

(** ** Executions *)

Definition DecodeExecuteRequest (value : option ExecuteRequest) (expectedSession : string) (limits : option PluginLimits) : result error Call :=
  match value with
  | None => Err (Errorf "plugin execute request is required")
  | Some v =>
      check (validateSession (xq_sessionID v) expectedSession)
      (check (ValidateLimits limits)
      (match limits with
       | None => Err (Errorf "plugin limits are required")
       | Some l =>
           if set_err (token "plugin call identity" (xq_callID v) 128) then Err (Errorf "plugin execute request contains an invalid call identity")
           else if set_err (token "plugin tool name" (xq_toolName v) 128) then Err (Errorf "plugin execute request contains an invalid tool name")
           else if slen (xq_arguments v) >? pl_maxCallArgumentBytes l then Err (Errorf "plugin call arguments exceed the negotiated limit")
           else
             call ← refuse "plugin execute request contains an invalid call" (NewCall (xq_callID v) (xq_toolName v) (xq_arguments v));
             check (encoded_fits (MExecuteRequest v) (pl_maxMessageBytes l)) (Ok call)
       end))
  end.

Record StreamValidator := mkStreamValidator { sv_callID : string; sv_limits : PluginLimits; sv_next : Z; sv_terminal : bool }.

Definition NewStreamValidator (request : option ExecuteRequest) (expectedSession : string) (limits : option PluginLimits) : result error StreamValidator :=
  call ← DecodeExecuteRequest request expectedSession limits;
  match limits with Some l => Ok (mkStreamValidator (tc_id call) l 1 false) | None => Err (Errorf "plugin limits are required") end.

Inductive Frame := FrameProgress (progress : Progress) | FrameResult (result : Result) | FrameFailure (failure : ExecutionError).

Definition decodeExecutionFailure (callID : string) (value : option ExecutionFailure) : result error ExecutionError :=
  match value with
  | None => Err (Errorf "plugin execution failure is empty")
  | Some v =>
      state ← decodeExecutionState (ef_state v);
      retry ← decodeRetryDisposition (ef_retry v);
      check (boundedText "plugin execution failure message" (ef_safeMessage v) MaximumExecutionErrorBytes)
      (refuse "plugin execution failure metadata is inconsistent" (NewExecutionError callID state retry (Some (mkCause (ef_safeMessage v) false))))
  end.

(** The frame, and whether it ends the stream. *)
Definition decodeFrame (v : StreamValidator) (value : ExecuteResponse) : result error (Frame * bool) :=
  match xr_frame value with
  | Some (ExecuteResponse_Progress None) => Err (Errorf "plugin progress frame is empty")
  | Some (ExecuteResponse_Progress (Some message)) =>
      if slen message >? pl_maxProgressBytes (sv_limits v) then Err (Errorf "plugin progress exceeds the negotiated limit")
      else progress ← refuse "plugin progress is invalid" (NewProgress (sv_callID v) message); Ok (FrameProgress progress, false)
  | Some (ExecuteResponse_Result None) => Err (Errorf "plugin result frame is empty")
  | Some (ExecuteResponse_Result (Some r)) =>
      if slen (rs_content r) >? pl_maxResultBytes (sv_limits v) then Err (Errorf "plugin result exceeds the negotiated limit")
      else
        result ← (if String.eqb (rs_problem r) "" then refuse "plugin result is invalid" (NewResult (sv_callID v) (Some (rs_content r)))
                  else if set_err (boundedText "plugin result problem" (rs_problem r) maximumProblemBytes) then Err (Errorf "plugin result is invalid")
                  else refuse "plugin result is invalid" (NewErrorResult (sv_callID v) (Some (rs_content r)) (rs_problem r)));
        Ok (FrameResult result, true)
  | Some (ExecuteResponse_Failure f) => failure ← decodeExecutionFailure (sv_callID v) f; Ok (FrameFailure failure, true)
  | None => Err (Errorf "plugin execute frame payload is required")
  end.

Definition Accept (v : StreamValidator) (value : option ExecuteResponse) : StreamValidator * result error Frame :=
  if sv_terminal v then (v, Err (Errorf "plugin execute stream contains a post-terminal frame"))
  else match value with
  | None => (v, Err (Errorf "plugin execute stream frame is required"))
  | Some r =>
      match encoded_fits (MExecuteResponse r) (pl_maxMessageBytes (sv_limits v)) with
      | Some err => (v, Err err)
      | None =>
          if negb (String.eqb (xr_callID r) (sv_callID v)) then (v, Err (Errorf "plugin execute frame call identity does not match the request"))
          else if negb (xr_sequence r =? sv_next v) then (v, Err (Errorf "plugin execute frame sequence is not contiguous"))
          else match decodeFrame v r with
          | Err err => (v, Err err)
          | Ok (frame, terminal) => (mkStreamValidator (sv_callID v) (sv_limits v) (sv_next v +64 1) terminal, Ok frame)
          end
      end
  end.

Definition Finish (v : StreamValidator) : option error := when (negb (sv_terminal v)) "plugin execute stream ended without a terminal frame".

(** ** Draining and shutting down *)

Definition validateLifecycleSize (value : PluginMessage) (limits : option PluginLimits) : option error :=
  ValidateLimits limits >>> encoded_fits value (GetMaxMessageBytes limits).

Definition ValidateDrainRequest (value : option DrainRequest) (expectedSession : string) (limits : option PluginLimits) : option error :=
  match value with
  | None => Some (Errorf "plugin drain request is required")
  | Some v => validateSession (dq_sessionID v) expectedSession >>> validateLifecycleSize (MDrainRequest v) limits
  end.

Definition ValidateDrainResponse (value : option DrainResponse) (limits : option PluginLimits) : option error :=
  match value with
  | None => Some (Errorf "plugin drain response is required")
  | Some v =>
      ValidateStatus (dr_status v)
      >>> when ((GetCode (dr_status v) =? ERROR_CODE_OK) && negb (dr_activeCalls v =? 0)) "successful plugin drain response contains active calls"
      >>> when (match limits with Some l => dr_activeCalls v >? pl_maxConcurrentCalls l | None => false end) "plugin drain response exceeds the concurrent-call limit"
      >>> validateLifecycleSize (MDrainResponse v) limits
  end.

Definition ValidateShutdownRequest (value : option ShutdownRequest) (expectedSession : string) (limits : option PluginLimits) : option error :=
  match value with
  | None => Some (Errorf "plugin shutdown request is required")
  | Some v => validateSession (sq_sessionID v) expectedSession >>> validateLifecycleSize (MShutdownRequest v) limits
  end.

Definition ValidateShutdownResponse (value : option ShutdownResponse) (limits : option PluginLimits) : option error :=
  match value with
  | None => Some (Errorf "plugin shutdown response is required")
  | Some v => ValidateStatus (sr_status v) >>> validateLifecycleSize (MShutdownResponse v) limits
  end.
End Sized.

(** ** Lemmas: selections *)

Lemma token_None label value maximum : token label value maximum = None <-> token_ok maximum value.
Proof. unfold token, token_ok. rewrite !seq_None, !when_None, orb_false_iff, !negb_false_iff, Z.gtb_ltb, Z.ltb_ge. tauto. Qed.

Lemma set_err_false c : set_err c = false <-> c = None.
Proof. by destruct c. Qed.

Lemma capabilities_sorted value : ValidateCapabilities (capabilities_of value) = None -> StronglySorted str_lt (names_of value).
Proof. intros H. apply ValidateCapabilities_None in H as (c & E & _ & _ & Hs). unfold names_of. by rewrite E. Qed.

Lemma forallb_found names l : StronglySorted str_lt l -> forallb (found l) names = true <-> forall name, name ∈ names -> name ∈ l.
Proof.
  intros Hs. rewrite forallb_forall. split; intros H name Hn; [apply (found_spec l name Hs), H; by apply list_elem_of_In|apply (found_spec l name Hs), H; by apply list_elem_of_In].
Qed.

Lemma supportedProtocol_true v : supportedProtocol v = true <-> v = Some PluginProtocol.
Proof.
  unfold supportedProtocol. destruct v as [[ma mi pa]|]; [|done]. cbn [pv_major pv_minor pv_patch PluginProtocol]. rewrite !andb_true_iff, !Z.eqb_eq, Z.geb_leb, !Z.leb_le.
  split; [intros (((-> & ?) & ?) & ->); assert (mi = 0) as -> by lia; done|]. intros [= -> -> ->]. lia.
Qed.

Lemma compareProtocol_version a b : compareProtocol a b = compareVersion a b.
Proof. done. Qed.

(** What a selection means. *)
Record selection (q : InitializeRequest) (p : InitializeResponse) : Prop := {
  sl_version : version_of (ip_protocol p) = Some PluginProtocol;
  sl_range : within PluginProtocol (range_of (iq_protocol q));
  sl_supported name : name ∈ names_of (ip_capabilities p) -> name ∈ names_of (iq_supported q);
  sl_required name : name ∈ names_of (iq_required q) -> name ∈ names_of (ip_capabilities p);
  sl_runtime : CapabilityRuntimeToolsV1 ∈ names_of (ip_capabilities p);
  sl_limits : exists requested selected, iq_limits q = Some requested /\ ip_limits p = Some selected
    /\ Forall2 Z.le (plugin_limit_values selected) (plugin_limit_values requested)
}.

Lemma limits_selected r s : ValidateLimits r = None -> ValidateLimits s = None ->
  limitsSelectedFrom r s = true <-> exists requested selected, r = Some requested /\ s = Some selected /\ Forall2 Z.le (plugin_limit_values selected) (plugin_limit_values requested).
Proof.
  intros Hr Hs. unfold limitsSelectedFrom. rewrite Hr, Hs. cbn [set_err orb]. destruct r as [r|], s as [s|]; [|done..]. split.
  - intros H. exists r, s. split; [done|]. split; [done|]. cbn in H. rewrite !andb_true_iff, !Z.leb_le in H. unfold plugin_limit_values. repeat constructor; tauto.
  - intros (r' & s' & [= <-] & [= <-] & H). unfold plugin_limit_values in *. repeat (apply Forall2_cons in H as [? H]). cbn. rewrite !andb_true_iff, !Z.leb_le. tauto.
Qed.

Lemma ValidateLimits_None l : ValidateLimits (Some l) = None <->
  Forall (fun n => n <> 0) (plugin_limit_values l) /\ pl_maxTools l <= maximumToolCount /\ pl_maxConcurrentCalls l <= maximumConcurrentCalls /\ pl_maxMessageBytes l <= InitializeBootstrapMaximumBytes
  /\ Forall (fun n => n <= pl_maxMessageBytes l) [pl_maxSchemaBytes l; pl_maxCallArgumentBytes l; pl_maxResultBytes l; pl_maxProgressBytes l]
  /\ Forall (fun n => n <= MaximumToolPayloadBytes) [pl_maxSchemaBytes l; pl_maxCallArgumentBytes l; pl_maxResultBytes l] /\ pl_maxProgressBytes l <= maxMessageBytes.
Proof.
  unfold ValidateLimits, within_message. rewrite !seq_None, !when_None, !orb_false_iff, !Z.gtb_ltb, !Z.ltb_ge, !Forall_cons, !Forall_nil.
  assert (existsb (Z.eqb 0) (plugin_limit_values l) = false <-> Forall (fun n => n <> 0) (plugin_limit_values l)) as ->; [|tauto].
  unfold plugin_limit_values. cbn [existsb]. rewrite !orb_false_iff, !Forall_cons, !Forall_nil, !Z.eqb_neq. intuition congruence.
Qed.

(** Negotiated limits are limits, and the most that both sides take. *)
Lemma NegotiateLimits_Ok requested available s : Forall (fun n => 0 <= n) (match requested, available with Some r, Some a => plugin_limit_values r ++ plugin_limit_values a | _, _ => [] end) ->
  NegotiateLimits requested available = Ok s -> ValidateLimits (Some s) = None /\ limitsSelectedFrom requested (Some s) = true /\ limitsSelectedFrom available (Some s) = true.
Proof.
  unfold NegotiateLimits. intros Hp. destruct (ValidateLimits requested) eqn:Er; [done|]. destruct (ValidateLimits available) eqn:Ea; [done|]. cbn [wrap]. destruct requested as [r|]; [|done]. destruct available as [a|]; [|done].
  intros H. apply Ok_inj in H as <-. set (s := mkPluginLimits _ _ _ _ _ _ _ _). assert (ValidateLimits (Some s) = None) as Hs.
  { apply ValidateLimits_None in Er, Ea. unfold plugin_limit_values in *. cbn [app] in Hp. rewrite !Forall_cons, !Forall_nil in *. apply ValidateLimits_None. unfold s, plugin_limit_values. cbn. rewrite !Forall_cons, !Forall_nil. lia. }
  split; [exact Hs|]. rewrite !limits_selected by done. split; [exists r, s|exists a, s]; (split; [done|]; split; [done|]); unfold s, plugin_limit_values; cbn; repeat (apply Forall2_cons; split); try lia; apply Forall2_nil; done.
Qed.

Section Handshake.
Context (Size : PluginMessage -> Z) (ConsumeTag : list Z -> Z * Z * Z) (ConsumeVarint ConsumeFixed64 ConsumeFixed32 : list Z -> Z * Z) (ConsumeBytes : list Z -> list Z * Z).

Local Abbreviation transcript := (CanonicalInitializeTranscript ConsumeTag ConsumeVarint ConsumeFixed64 ConsumeFixed32 ConsumeBytes).
Local Abbreviation validate := (ValidateInitializeResponseForRequest Size ConsumeTag ConsumeVarint ConsumeFixed64 ConsumeFixed32 ConsumeBytes).
Local Abbreviation sign := (SignInitializeResponse ConsumeTag ConsumeVarint ConsumeFixed64 ConsumeFixed32 ConsumeBytes).

Lemma proof_Ok q p secret mac : initializeProof ConsumeTag ConsumeVarint ConsumeFixed64 ConsumeFixed32 ConsumeBytes q p secret = Ok mac <->
  slen secret = HandshakeSecretBytes /\ exists t, transcript q p = Ok t /\ mac = hmac_sha256 secret t.
Proof.
  unfold initializeProof. destruct (Z.eqb_spec (slen secret) HandshakeSecretBytes) as [Hs|]; cbn [negb]; [|split; [done|by intros [? _]]]. rewrite bind_Ok. split.
  - intros (t & Ht & E). apply Ok_inj in E. split; [done|]. by exists t.
  - intros (_ & t & Ht & ->). by exists t.
Qed.

(** The transcript does not depend on the proof. *)
Lemma transcript_proof q p proof : transcript (Some q) (Some (with_proof p proof)) = transcript (Some q) (Some p).
Proof. done. Qed.

Lemma request_selects q : ValidateInitializeRequest Size (Some q) = None -> CapabilityRuntimeToolsV1 ∈ names_of (iq_required q)
  /\ StronglySorted str_lt (names_of (iq_supported q)) /\ StronglySorted str_lt (names_of (iq_required q)) /\ ValidateLimits (iq_limits q) = None /\ ValidateProtocolRange (range_of (iq_protocol q)) = None.
Proof.
  unfold ValidateInitializeRequest, validateCapabilityRequest. rewrite !seq_None, !wrap_None, !when_None. intros (H1 & _ & (H2 & H3 & H4 & _) & H5 & _).
  pose proof (capabilities_sorted _ H2). pose proof (capabilities_sorted _ H3) as Hs. split_and!; try done. apply orb_false_iff in H4 as [_ H4]. apply negb_false_iff in H4.
  unfold containsCapability in H4. unfold names_of in *. destruct (iq_required q) as [c|]; [|done]. by apply (found_spec _ _ Hs).
Qed.

Lemma response_selects p : validateInitializeResponse Size (Some p) = None -> AsError (status_of (ip_status p)) = None ->
  StronglySorted str_lt (names_of (ip_capabilities p)) /\ ValidateCapabilities (capabilities_of (ip_capabilities p)) = None /\ ValidateLimits (ip_limits p) = None
  /\ version_of (ip_protocol p) = Some PluginProtocol /\ error_of (DecodeManifest Size (ip_manifest p) (ip_limits p)) = None.
Proof.
  unfold validateInitializeResponse. intros H Hs. rewrite Hs in H. rewrite !seq_None, !wrap_None, !when_None in H. destruct H as (_ & _ & _ & _ & H1 & H2 & H3 & _ & H4 & _).
  apply negb_false_iff, supportedProtocol_true in H1. split_and!; try done. by apply capabilities_sorted.
Qed.

Lemma accept_exact q p secret : validate (Some q) (Some p) secret = None <->
  ValidateInitializeRequest Size (Some q) = None /\ validateInitializeResponse Size (Some p) = None /\ AsError (status_of (ip_status p)) = None
  /\ ip_launchID p = iq_launchID q /\ ip_challenge p = iq_challenge q /\ slen secret = HandshakeSecretBytes
  /\ (exists t, transcript (Some q) (Some p) = Ok t /\ ip_proof p = hmac_sha256 secret t) /\ selection q p.
Proof.
  unfold ValidateInitializeResponseForRequest. rewrite !seq_None, !when_None, !negb_false_iff, !String.eqb_eq.
  destruct (initializeProof ConsumeTag ConsumeVarint ConsumeFixed64 ConsumeFixed32 ConsumeBytes (Some q) (Some p) secret) as [mac|err] eqn:Ep.
  - apply proof_Ok in Ep as (Hs & t & Ht & ->). rewrite !seq_None, !when_None, !negb_false_iff, String.eqb_eq. split.
    + intros (Hq & Hp & E1 & E2 & E3 & Hst & H1 & H2 & H3 & H4). destruct (request_selects q Hq) as (Hrt & Hsq & Hsr & Hlq & Hr). destruct (response_selects p Hp Hst) as (Hsp & Hcp & Hlp & Hv & _).
      unfold protocolSelectedFrom in H1. rewrite Hr, Hv in H1. rewrite !andb_true_iff, Z.geb_leb, !Z.leb_le, !compareProtocol_version in H1. destruct H1 as ((H1 & H1') & _).
      apply compareVersion_ge in H1. apply compareVersion_le in H1'. unfold capabilitiesSelectedFrom in H2. rewrite Hcp in H2. cbn [set_err] in H2. apply andb_true_iff in H2 as [H2 H2'].
      rewrite (forallb_found _ _ Hsq) in H2. rewrite (forallb_found _ _ Hsp) in H2'. apply (limits_selected _ _ Hlq Hlp) in H3. split_and!; try done; [by exists t|]. split; try done. by apply H2'.
    + intros (Hq & Hp & Hst & E1 & E2 & _ & (t' & Ht' & E3) & [S1 S2 S3 S4 S5 S6]). destruct (request_selects q Hq) as (Hrt & Hsq & Hsr & Hlq & Hr). destruct (response_selects p Hp Hst) as (Hsp & Hcp & Hlp & _ & Hm).
      rewrite Ht in Ht'. apply Ok_inj in Ht' as <-. split_and!; try done.
      * unfold protocolSelectedFrom. rewrite Hr, S1. rewrite !andb_true_iff, Z.geb_leb, !Z.leb_le, !compareProtocol_version. destruct S2. split; [|by apply supportedProtocol_true].
        split; [by apply compareVersion_ge|by apply compareVersion_le].
      * unfold capabilitiesSelectedFrom. rewrite Hcp. cbn [set_err]. apply andb_true_iff. split; [by apply (forallb_found _ _ Hsq)|by apply (forallb_found _ _ Hsp)].
      * by apply (limits_selected _ _ Hlq Hlp).
  - split; [by intros (_ & _ & _ & _ & ?)|]. intros (_ & _ & _ & _ & _ & Hs & (t & Ht & _) & _). exfalso.
    assert (Err err = Ok (hmac_sha256 secret t)) as E; [|discriminate E]. rewrite <- Ep. apply proof_Ok. split; [done|]. by exists t.
Qed.

(** C21: C: An initialization is accepted exactly when it is authentic and inside
    the request: the identities echo the request, the proof is the keyed digest
    of the canonical transcript, and the version, the capabilities and every
    limit are selections from what was requested.  What the holder of the
    secret signs is accepted, and unless the two transcripts collide under the
    digest, a proof made for another exchange is of one with the same known
    fields.  Limits the plugin negotiates are always within the request. *)
Theorem plugin_handshake_exact q p secret : protowire_values ConsumeTag ConsumeVarint ConsumeFixed64 ConsumeFixed32 ->
  (validate (Some q) (Some p) secret = None <->
    ValidateInitializeRequest Size (Some q) = None /\ validateInitializeResponse Size (Some p) = None /\ AsError (status_of (ip_status p)) = None
    /\ ip_launchID p = iq_launchID q /\ ip_challenge p = iq_challenge q /\ sign (Some q) (Some p) secret = Ok p /\ selection q p)
  /\ (forall q' p' signed, sign (Some q') (Some p') secret = Ok signed -> validate (Some q) (Some p) secret = None -> ip_proof p = ip_proof signed ->
      (forall t t', transcript (Some q) (Some p) = Ok t -> transcript (Some q') (Some p') = Ok t' -> hmac_sha256 secret t = hmac_sha256 secret t' -> t = t') ->
      request_sized q -> request_sized q' -> response_sized p -> response_sized p' ->
      known_request q = known_request q' /\ known_response p = known_response p')
  /\ (forall requested available selected, iq_limits q = Some requested -> Forall (fun n => 0 <= n) (plugin_limit_values requested ++ plugin_limit_values available) ->
      NegotiateLimits (iq_limits q) (Some available) = Ok selected -> ValidateLimits (Some selected) = None /\ Forall2 Z.le (plugin_limit_values selected) (plugin_limit_values requested)).
Proof.
  intros Hpw. assert (forall q p r, sign (Some q) (Some p) secret = Ok r <->
    slen secret = HandshakeSecretBytes /\ exists t, transcript (Some q) (Some p) = Ok t /\ r = with_proof p (hmac_sha256 secret t)) as Hsign.
  { intros q0 p0 r. unfold SignInitializeResponse. rewrite bind_Ok. split.
    - intros (mac & Hm & E). apply Ok_inj in E as <-. apply proof_Ok in Hm as (Hs & t & Ht & ->). rewrite transcript_proof in Ht. split; [done|]. by exists t.
    - intros (Hs & t & Ht & ->). exists (hmac_sha256 secret t). split; [|done]. apply proof_Ok. split; [done|]. exists t. by rewrite transcript_proof. }
  split; [|split].
  - rewrite accept_exact, Hsign. split.
    + intros (H1 & H2 & H3 & H4 & H5 & H6 & (t & Ht & E) & H7). split_and!; try done. exists t. split; [exact Ht|]. rewrite <- E. by destruct p.
    + intros (H1 & H2 & H3 & H4 & H5 & (H6 & t & Ht & E) & H7). split_and!; try done. exists t. split; [exact Ht|]. exact (f_equal ip_proof E).
  - intros q' p' signed Hs Hv E Hcol. apply accept_exact in Hv as (_ & _ & _ & _ & _ & _ & (t & Ht & Ep) & _). apply Hsign in Hs as (_ & t' & Ht' & ->). cbn [with_proof ip_proof] in E.
    assert (t = t') as <- by (apply Hcol; [done|done|congruence]). intros. by eapply (transcript_inj ConsumeTag ConsumeVarint ConsumeFixed64 ConsumeFixed32 ConsumeBytes Hpw).
  - intros requested available selected Eq Hp H. rewrite Eq in H. destruct (NegotiateLimits_Ok (Some requested) (Some available) selected Hp H) as (H1 & H2 & _). split; [exact H1|].
    unfold NegotiateLimits in H. destruct (ValidateLimits (Some requested)) eqn:Er; [done|]. apply (limits_selected _ _ Er H1) in H2 as (r & s & [= <-] & [= <-] & H2). exact H2.
Qed.
End Handshake.

(** ** A handshake *)

(** One-byte tags and numbers, as [protowire] decodes them. *)
Definition sample_tag (raw : list Z) : Z * Z * Z := match raw with b :: _ => (b mod 128 / 8, b mod 8, 1) | [] => (0, 0, -1) end.
Definition sample_number (raw : list Z) : Z * Z := match raw with b :: _ => (b mod 128, 1) | [] => (0, -1) end.
Definition sample_bytes (raw : list Z) : list Z * Z := match raw with n :: rest => (take (Z.to_nat n) rest, 1 + n) | [] => ([], -1) end.

Lemma sample_values : protowire_values sample_tag sample_number sample_number sample_number.
Proof.
  split; intros [|b raw]; unfold int_ok, maxUint64, sample_tag, sample_number; cbn [fst snd]; Z.to_euclidean_division_equations; lia.
Qed.

Definition sample_limits : PluginLimits := mkPluginLimits 65536 16 4096 4096 4096 1024 4 "".
Definition sample_capabilities : CapabilityMsg := mkCapabilityMsg [CapabilityRuntimeToolsV1] "".
Definition sample_build : PluginBuild := mkPluginBuild "plugin" "1.0.0" "abc" "go" "".
Definition sample_tool : ToolDefinition := mkToolDefinition "read" "Reads a file." "{}" TOOL_EFFECT_READ_ONLY REPLAY_SAFETY_SAFE (Some (mkCapabilityMsg [CapabilityFilesystemRead] "")) "".
Definition sample_manifest : Manifest := mkManifest "files" "1.0.0" [Some sample_tool] "".
Definition sample_request : InitializeRequest :=
  mkInitializeRequest (Some SupportedProtocolRange) (Some sample_build) (Some sample_capabilities) (Some sample_capabilities) (Some sample_limits)
    "launch-identity!" "0123456789abcdef0123456789abcdef" "".

Definition sample_response : InitializeResponse :=
  mkInitializeResponse (Some (mkStatusMsg ERROR_CODE_OK "" false "" None "")) (Some (mkVersionMsg PluginProtocol "")) (Some sample_build) (Some sample_capabilities) (Some sample_limits)
    (Some sample_manifest) "launch-identity!" "session-identity" "0123456789abcdef0123456789abcdef" "" "".
Definition sample_secret : string := "abcdefghijklmnopqrstuvwxyz012345".
Definition sample_size (_ : PluginMessage) : Z := 512.
Local Abbreviation sample_sign := (SignInitializeResponse sample_tag sample_number sample_number sample_number sample_bytes).
Local Abbreviation sample_validate := (ValidateInitializeResponseForRequest sample_size sample_tag sample_number sample_number sample_number sample_bytes).

Definition signed_by (r : result error InitializeResponse) : InitializeResponse := match r with Ok p => p | Err _ => sample_response end.
Definition sample_signed : InitializeResponse := signed_by (sample_sign (Some sample_request) (Some sample_response) sample_secret).

Lemma sample_signs : sample_sign (Some sample_request) (Some sample_response) sample_secret = Ok sample_signed.
Proof. vm_compute. reflexivity. Qed.
Lemma sample_valid : sample_validate (Some sample_request) (Some sample_signed) sample_secret = None.
Proof. vm_compute. reflexivity. Qed.
Lemma sample_unsigned : sample_signed = with_proof sample_response (ip_proof sample_signed).
Proof. vm_compute. reflexivity. Qed.
Lemma sample_sized : request_sized sample_request /\ response_sized sample_signed /\ response_sized sample_response.
Proof.
  assert (response_sized sample_response) as H; [|rewrite sample_unsigned; split; [|split; exact H]].
  - unfold response_sized, option_sized, status_sized, limits_sized, tool_sized, version_sized, int_ok, maxUint64. cbn. rewrite Forall_singleton. cbn. unfold ERROR_CODE_OK, TOOL_EFFECT_READ_ONLY, REPLAY_SAFETY_SAFE. lia.
  - unfold request_sized, option_sized, range_sized, limits_sized, version_sized, option_sized, int_ok, maxUint64. cbn. lia.
Qed.

(** A signed response is accepted, its selections are of the request, and it
    has the fields that were signed. *)
Lemma plugin_handshake_exact_witness :
  sample_validate (Some sample_request) (Some sample_signed) sample_secret = None /\ selection sample_request sample_signed
  /\ sample_sign (Some sample_request) (Some sample_signed) sample_secret = Ok sample_signed /\ known_response sample_signed = known_response sample_response.
Proof.
  destruct (plugin_handshake_exact sample_size sample_tag sample_number sample_number sample_number sample_bytes sample_request sample_signed sample_secret sample_values) as (H1 & H2 & _).
  destruct (proj1 H1 sample_valid) as (_ & _ & _ & _ & _ & Hsign & Hsel). split; [exact sample_valid|]. split; [exact Hsel|]. split; [exact Hsign|].
  destruct sample_sized as (S1 & S2 & S3). refine (proj2 (H2 sample_request sample_response sample_signed sample_signs sample_valid eq_refl _ S1 S1 S2 S3)).
  intros t t' Ht Ht' _. rewrite sample_unsigned, transcript_proof in Ht. rewrite Ht in Ht'. exact (Ok_inj _ _ Ht').
Defined.

(** ** Streams *)

Definition frame_valid (callID : string) (f : Frame) : Prop :=
  match f with
  | FrameProgress p => tp_callID p = callID /\ Progress_Validate p = None
  | FrameResult r => tr_callID r = callID /\ Result_Validate r = None
  | FrameFailure e => ee_callID e = callID /\ ExecutionError_Validate e = None
  end.

(** The frame is the payload of the response. *)
Definition frame_carries (r : ExecuteResponse) (f : Frame) : Prop :=
  match f with
  | FrameProgress p => xr_frame r = Some (ExecuteResponse_Progress (Some (tp_message p)))
  | FrameResult x => exists m, xr_frame r = Some (ExecuteResponse_Result (Some m)) /\ tr_content x = Some (rs_content m) /\ tr_problem x = rs_problem m
  | FrameFailure e => exists m, xr_frame r = Some (ExecuteResponse_Failure (Some m)) /\ ee_cause e = Some (mkCause (ef_safeMessage m) false)
  end.

Definition terminal_frame (f : Frame) : bool := match f with FrameProgress _ => false | _ => true end.

(** The responses of a stream in order, up to the first that is refused. *)
Fixpoint accept_all (Size : PluginMessage -> Z) (v : StreamValidator) (responses : list ExecuteResponse) : StreamValidator * result error (list Frame) :=
  match responses with
  | [] => (v, Ok [])
  | r :: rest =>
      match Accept Size v (Some r) with
      | (v, Err err) => (v, Err err)
      | (v, Ok frame) => let '(v, frames) := accept_all Size v rest in (v, frames ← frames; Ok (frame :: frames))
      end
  end.

(** A response the stream can carry as number [sequence]. *)
Record response_at (Size : PluginMessage -> Z) (v : StreamValidator) (sequence : Z) (r : ExecuteResponse) (f : Frame) : Prop := {
  ra_size : ValidateEncodedSize (Size (MExecuteResponse r)) (pl_maxMessageBytes (sv_limits v)) = None;
  ra_call : xr_callID r = sv_callID v;
  ra_sequence : xr_sequence r = sequence;
  ra_frame : decodeFrame v r = Ok (f, terminal_frame f)
}.

Lemma refuse_Ok {A B} text (r : result A B) b : refuse text r = Ok b -> r = Ok b.
Proof. destruct r; [intros H; by apply Ok_inj in H as ->|discriminate]. Qed.
Lemma check_Ok {A} c (k : result error A) a : check c k = Ok a <-> c = None /\ k = Ok a.
Proof. destruct c; cbn; [split; [done|by intros [? _]]|tauto]. Qed.

Lemma decodeFrame_terminal v r f t : decodeFrame v r = Ok (f, t) -> t = terminal_frame f.
Proof.
  unfold decodeFrame. destruct (xr_frame r) as [[[m|]|[m|]|m]|]; try done.
  - destruct (_ >? _); [done|]. rewrite bind_Ok. intros (p & _ & E). by injection E as <- <-.
  - destruct (_ >? _); [done|]. rewrite bind_Ok. intros (p & _ & E). by injection E as <- <-.
  - rewrite bind_Ok. intros (p & _ & E). by injection E as <- <-.
Qed.

Lemma NewProgress_valid id message p : NewProgress id message = Ok p -> p = mkProgress id message /\ Progress_Validate p = None.
Proof.
  intros H. assert (p = mkProgress id message) as ->; [|split; [done|unfold Progress_Validate; cbn [tp_callID tp_message]; by rewrite H]].
  revert H. unfold NewProgress. destruct (validateIdentity _ _); [done|]. do 2 (destruct (_ : bool); [done|]). by intros ?%Ok_inj.
Qed.
Lemma newResult_Ok id content problem x : newResult id content problem = Ok x -> x = mkToolResult id content problem.
Proof. unfold newResult. do 2 (destruct (_ : option ToolError); [done|]). by intros ?%Ok_inj. Qed.

Lemma decodeFrame_valid v r f t : decodeFrame v r = Ok (f, t) -> frame_valid (sv_callID v) f /\ frame_carries r f.
Proof.
  unfold decodeFrame, frame_carries. destruct (xr_frame r) as [[[m|]|[m|]|m]|]; try done.
  - destruct (_ >? _); [done|]. rewrite bind_Ok. intros (p & H & E). injection E as <- <-. apply refuse_Ok, NewProgress_valid in H as [-> H]. split; [by split|done].
  - destruct (_ >? _); [done|]. rewrite bind_Ok. intros (x & H & E). injection E as <- <-. cbn [frame_valid]. unfold Result_Validate. destruct (String.eqb_spec (rs_problem m) "") as [Em|Em].
    + apply refuse_Ok in H. pose proof H as H'. apply newResult_Ok in H' as ->. cbn [tr_problem tr_content tr_callID]. rewrite H. split; [done|]. by exists m.
    + destruct (set_err _); [done|]. apply refuse_Ok in H. pose proof H as H'. unfold NewErrorResult in H'. do 2 (destruct (_ : bool); [done|]). apply newResult_Ok in H' as ->. cbn [tr_problem tr_content tr_callID].
      apply String.eqb_neq in Em. rewrite Em, H. split; [done|]. by exists m.
  - rewrite bind_Ok. intros (e & H & E). injection E as <- <-. destruct m as [m|]; [|done]. unfold decodeExecutionFailure in H. apply bind_Ok in H as (state & _ & H). apply bind_Ok in H as (retry & _ & H).
    apply check_Ok in H as [_ H]. apply refuse_Ok in H. unfold NewExecutionError in H. destruct (ExecutionError_Validate _) eqn:Ev; [done|]. apply Ok_inj in H as <-. split; [by split|]. by exists m.
Qed.

(** One response of an open stream. *)
Lemma Accept_Ok Size v r v' f : sv_terminal v = false ->
  Accept Size v (Some r) = (v', Ok f) <-> response_at Size v (sv_next v) r f /\ v' = mkStreamValidator (sv_callID v) (sv_limits v) (sv_next v +64 1) (terminal_frame f).
Proof.
  intros Ht. unfold Accept, encoded_fits. rewrite Ht. split.
  - destruct (ValidateEncodedSize _ _) eqn:E1; [done|]. destruct (String.eqb_spec (xr_callID r) (sv_callID v)) as [E2|]; cbn [negb]; [|done]. destruct (Z.eqb_spec (xr_sequence r) (sv_next v)) as [E3|]; cbn [negb]; [|done].
    destruct (decodeFrame v r) as [[g t]|] eqn:E4; [|done]. intros [<- E]%pair_equal_spec. apply Ok_inj in E as ->. pose proof (decodeFrame_terminal _ _ _ _ E4) as ->. split; [by split|done].
  - intros [[E1 E2 E3 E4] ->]. rewrite E1, E2, E3, E4, String.eqb_refl, Z.eqb_refl. done.
Qed.

Lemma Accept_closed Size v r : sv_terminal v = true -> Accept Size v r = (v, Err (Errorf "plugin execute stream contains a post-terminal frame")).
Proof. intros Ht. unfold Accept. by rewrite Ht. Qed.

Lemma response_at_next Size v next terminal n r f : response_at Size (mkStreamValidator (sv_callID v) (sv_limits v) next terminal) n r f <-> response_at Size v n r f.
Proof. split; intros [H1 H2 H3 H4]; by split. Qed.

Definition next_state (v : StreamValidator) (f : Frame) : StreamValidator := mkStreamValidator (sv_callID v) (sv_limits v) (sv_next v +64 1) (terminal_frame f).

Lemma accept_all_cons Size v r rest v' frames : sv_terminal v = false ->
  accept_all Size v (r :: rest) = (v', Ok frames) <->
  exists f fs, frames = f :: fs /\ response_at Size v (sv_next v) r f /\ accept_all Size (next_state v f) rest = (v', Ok fs).
Proof.
  intros Ht. cbn [accept_all]. split.
  - destruct (Accept Size v (Some r)) as [v1 [f|err]] eqn:Ea; [|by intros [_ ?]%pair_equal_spec]. apply (Accept_Ok _ _ _ _ _ Ht) in Ea as [Hr ->].
    destruct (accept_all Size _ rest) as [v2 [fs|err]] eqn:E; [|by intros [_ ?]%pair_equal_spec]. intros [<- H]%pair_equal_spec. apply Ok_inj in H as <-. by exists f, fs.
  - intros (f & fs & -> & Hr & E). rewrite (proj2 (Accept_Ok Size v r (next_state v f) f Ht)) by (by split). by rewrite E.
Qed.

Lemma accept_all_closed Size v responses v' frames : sv_terminal v = true -> accept_all Size v responses = (v', Ok frames) <-> responses = [] /\ frames = [] /\ v' = v.
Proof.
  intros Ht. destruct responses as [|r rest]; cbn [accept_all].
  - split; [intros [<- H]%pair_equal_spec; apply Ok_inj in H as <-; done|by intros (_ & -> & ->)].
  - rewrite Accept_closed by done. split; [by intros [_ ?]%pair_equal_spec|by intros [? _]].
Qed.

(** The responses of a stream from number [n] on. *)
Fixpoint stream_from (Size : PluginMessage -> Z) (v : StreamValidator) (n : Z) (responses : list ExecuteResponse) (frames : list Frame) : Prop :=
  match responses, frames with
  | [], [] => True
  | r :: rest, f :: fs => response_at Size v (u64 n) r f /\ (terminal_frame f = true -> rest = []) /\ stream_from Size v (n + 1) rest fs
  | _, _ => False
  end.

Definition ended (frames : list Frame) : bool := match last frames with Some f => terminal_frame f | None => false end.

Lemma stream_from_state Size v next terminal responses : forall n frames,
  stream_from Size (mkStreamValidator (sv_callID v) (sv_limits v) next terminal) n responses frames <-> stream_from Size v n responses frames.
Proof. induction responses as [|r rest IH]; intros n [|f fs]; cbn [stream_from]; [done..|]. by rewrite response_at_next, IH. Qed.

Lemma accept_all_Ok Size responses : forall v n v' frames, sv_next v = u64 n -> sv_terminal v = false ->
  accept_all Size v responses = (v', Ok frames) <->
  stream_from Size v n responses frames /\ v' = mkStreamValidator (sv_callID v) (sv_limits v) (u64 (n + Z.of_nat (length responses))) (ended frames).
Proof.
  induction responses as [|r rest IH]; intros v n v' frames Hn Ht.
  { cbn [accept_all stream_from length]. rewrite Z.add_0_r, <- Hn. destruct v as [c l x t]. cbn in Ht |- *. subst t. split.
    - intros [<- E]%pair_equal_spec. apply Ok_inj in E as <-. done.
    - intros [H ->]. by destruct frames. }
  rewrite accept_all_cons by done. cbn [stream_from]. split.
  - intros (f & fs & -> & Hr & H). rewrite Hn in Hr. destruct (terminal_frame f) eqn:Ef.
    + apply accept_all_closed in H as (-> & -> & ->); [|exact Ef]. split; [done|]. unfold next_state, ended. cbn. by rewrite Hn, u64_add_l.
    + apply (IH _ (n + 1)) in H as [H ->]; [|cbn; by rewrite Hn, u64_add_l|exact Ef]. apply stream_from_state in H. split; [done|]. cbn [length sv_callID sv_limits next_state]. f_equal; [f_equal; lia|].
      destruct fs; [|done]. unfold ended; cbn; by rewrite Ef.
  - intros [H ->]. destruct frames as [|f fs]; [done|]. destruct H as (Hr & Hl & H). exists f, fs. split; [done|]. rewrite Hn. split; [done|]. destruct (terminal_frame f) eqn:Ef.
    + specialize (Hl eq_refl) as ->. destruct fs; [|done]. apply accept_all_closed; [exact Ef|]. split; [done|]. split; [done|]. unfold next_state, ended. cbn. by rewrite Hn, u64_add_l.
    + apply (IH _ (n + 1)); [cbn; by rewrite Hn, u64_add_l|exact Ef|]. split; [by apply stream_from_state|]. cbn [length sv_callID sv_limits next_state]. f_equal; [f_equal; lia|].
      destruct fs; [|done]. unfold ended; cbn; by rewrite Ef.
Qed.

Lemma stream_from_at Size v responses : forall n frames, stream_from Size v n responses frames <->
  length frames = length responses
  /\ forall i r f, responses !! i = Some r -> frames !! i = Some f -> response_at Size v (u64 (n + Z.of_nat i)) r f /\ (terminal_frame f = true -> S i = length responses).
Proof.
  induction responses as [|r rest IH]; intros n [|f fs]; cbn [stream_from length]; try (split; [done|by intros [? _]]). rewrite IH. split.
  - intros (Hr & Hl & Hlen & H). split; [lia|]. intros [|i] r0 f0.
    + intros [= <-] [= <-]. rewrite Z.add_0_r. split; [done|]. intros Ht. by rewrite (Hl Ht).
    + cbn. intros H1 H2. destruct (H i r0 f0 H1 H2) as [H3 H4]. replace (n + Z.of_nat (S i)) with (n + 1 + Z.of_nat i) by lia. split; [done|]. intros Ht. by rewrite (H4 Ht).
  - intros [Hlen H]. destruct (H 0%nat r f eq_refl eq_refl) as [Hr Hl]. rewrite Z.add_0_r in Hr. split; [done|]. split; [intros Ht; specialize (Hl Ht); by destruct rest|]. split; [lia|].
    intros i r0 f0 H1 H2. destruct (H (S i) r0 f0 H1 H2) as [H3 H4]. replace (n + Z.of_nat (S i)) with (n + 1 + Z.of_nat i) in H3 by lia. split; [done|]. intros Ht. specialize (H4 Ht). lia.
Qed.


Definition sample_call : ExecuteRequest := mkExecuteRequest "session-identity" "call-1" "read" "{}" "".
Definition sample_validator : StreamValidator := mkStreamValidator "call-1" sample_limits 1 false.
Definition sample_responses : list ExecuteResponse :=
  [mkExecuteResponse "call-1" 1 (Some (ExecuteResponse_Progress (Some "half way"%string))) "";
   mkExecuteResponse "call-1" 2 (Some (ExecuteResponse_Result (Some (mkResultMsg "{}" "")))) ""].


(** ** Catalogs *)

(** The definition a tool of a manifest stands for. *)
Definition definition_of (t : ToolDefinition) : Definition_ :=
  mkDefinition (wd_name t) (wd_description t) (wd_inputSchema t)
    (if wd_effect t =? TOOL_EFFECT_READ_ONLY then EffectReadOnly else EffectMutating)
    (if wd_replaySafety t =? REPLAY_SAFETY_SAFE then ReplaySafe else if wd_replaySafety t =? REPLAY_SAFETY_IDEMPOTENT then ReplayIdempotent else ReplayUnsafe)
    (names_of (wd_capabilities t)).

Lemma sort_strings_sorted_id l : StronglySorted str_lt l -> sort_strings l = l.
Proof.
  intros H. apply (StronglySorted_unique string_le); [apply sort_strings_sorted| |apply sort_strings_perm].
  induction H as [|a l _ IH Ha]; constructor; [done|]. eapply Forall_impl; [exact Ha|]. intros b Hb. apply ltb_spec in Hb. tauto.
Qed.

Lemma decode_capabilities_Ok names cs : decode_capabilities names = Ok cs -> cs = names.
Proof.
  revert cs. induction names as [|name rest IH]; intros cs; cbn [decode_capabilities]; [by intros ?%Ok_inj|]. rewrite bind_Ok. intros (c & Hc & H). apply bind_Ok in H as (cs' & Hcs & H).
  apply Ok_inj in H as <-. f_equal; [|by apply IH]. unfold decodeCapability in Hc. destruct (elem_str _ _); [|done]. by apply Ok_inj in Hc.
Qed.

Lemma effect_coded n e : decodeEffect n = Ok e -> encodeEffect e = Ok n /\ e = if n =? TOOL_EFFECT_READ_ONLY then EffectReadOnly else EffectMutating.
Proof.
  unfold decodeEffect. destruct (Z.eqb_spec n TOOL_EFFECT_READ_ONLY) as [->|]; [by intros <-%Ok_inj|]. destruct (Z.eqb_spec n TOOL_EFFECT_MUTATING) as [->|]; [by intros <-%Ok_inj|done].
Qed.
Lemma replay_coded n s : decodeReplaySafety n = Ok s ->
  encodeReplaySafety s = Ok n /\ s = if n =? REPLAY_SAFETY_SAFE then ReplaySafe else if n =? REPLAY_SAFETY_IDEMPOTENT then ReplayIdempotent else ReplayUnsafe.
Proof.
  unfold decodeReplaySafety. destruct (Z.eqb_spec n REPLAY_SAFETY_SAFE) as [->|]; [by intros <-%Ok_inj|]. destruct (Z.eqb_spec n REPLAY_SAFETY_IDEMPOTENT) as [->|]; [by intros <-%Ok_inj|].
  destruct (Z.eqb_spec n REPLAY_SAFETY_UNSAFE) as [->|]; [by intros <-%Ok_inj|done].
Qed.

(** What decodes encodes to the same known fields. *)
Lemma decode_tool_encode t l d : decodeToolDefinition (Some t) l = Ok d -> d = definition_of t /\ Definition_Validate d = None /\ EncodeToolDefinition d = Ok (known_tool t).
Proof.
  unfold decodeToolDefinition. rewrite !check_Ok, bind_Ok. intros (_ & _ & _ & e & He & H). apply bind_Ok in H as (s & Hs & H). apply check_Ok in H as [Hc H]. apply bind_Ok in H as (cs & Hcs & H).
  apply decode_capabilities_Ok in Hcs as ->. apply refuse_Ok in H. apply wrap_None in Hc. apply effect_coded in He as [He Ee]. apply replay_coded in Hs as [Hs Es].
  pose proof (definition_fixpoint _ _ _ _ _ _ _ H) as Hf. apply NewDefinition_Ok in H as [_ ->]. rewrite sort_strings_sorted_id in * by (by apply capabilities_sorted). cbn [td_name td_description td_inputSchema td_effect td_replaySafety td_capabilities] in Hf.
  assert (Definition_Validate (mkDefinition (wd_name t) (wd_description t) (wd_inputSchema t) e s (names_of (wd_capabilities t))) = None) as Hv.
  { unfold Definition_Validate. cbn [td_name td_description td_inputSchema td_effect td_replaySafety td_capabilities]. by rewrite Hf. }
  split; [unfold definition_of; by rewrite <- Ee, <- Es|]. split; [exact Hv|]. unfold EncodeToolDefinition. rewrite Hv. cbn [td_effect td_replaySafety td_name td_description td_inputSchema td_capabilities]. rewrite He, Hs. cbn [mbind result_bind]. f_equal. unfold known_tool. f_equal.
  apply ValidateCapabilities_None in Hc as (c & Hc & _). unfold names_of, capabilities_of in *. destruct (wd_capabilities t) as [c'|]; [|done]. done.
Qed.

Lemma encode_tool_inverse d t : EncodeToolDefinition d = Ok t -> definition_of t = d /\ known_tool t = t.
Proof.
  unfold EncodeToolDefinition. destruct (Definition_Validate d); [done|]. rewrite bind_Ok. intros (e & He & H). apply bind_Ok in H as (s & Hs & H). apply Ok_inj in H as <-. split; [|done].
  destruct d as [name desc schema effect replay caps]. unfold definition_of. cbn in *. f_equal.
  - unfold encodeEffect in He. destruct (String.eqb_spec effect EffectReadOnly) as [->|]; [by apply Ok_inj in He as <-|]. destruct (String.eqb_spec effect EffectMutating) as [->|]; [by apply Ok_inj in He as <-|done].
  - unfold encodeReplaySafety in Hs. destruct (String.eqb_spec replay ReplaySafe) as [->|]; [by apply Ok_inj in Hs as <-|]. destruct (String.eqb_spec replay ReplayIdempotent) as [->|]; [by apply Ok_inj in Hs as <-|].
    destruct (String.eqb_spec replay ReplayUnsafe) as [->|]; [by apply Ok_inj in Hs as <-|done].
Qed.

Lemma encode_definitions_inverse ds tools : encode_definitions ds = Ok tools -> ds = map definition_of tools /\ Forall (fun t => known_tool t = t) tools.
Proof.
  revert tools. induction ds as [|d ds IH]; intros tools; cbn [encode_definitions]; [intros <-%Ok_inj; split; [done|apply Forall_nil; done]|]. rewrite bind_Ok. intros (t & Ht & H). apply bind_Ok in H as (ts & Hts & H). apply Ok_inj in H as <-.
  destruct (IH _ Hts) as [-> Hk]. apply encode_tool_inverse in Ht as [<- Ht]. split; [done|]. by apply Forall_cons.
Qed.

Lemma decode_definitions_Ok limits tools : forall index previous ds, decode_definitions index previous tools limits = Ok ds ->
  (exists encoded, encode_definitions ds = Ok encoded /\ map Some encoded = map (fmap known_tool) tools) /\ Forall (fun d => Definition_Validate d = None) ds
  /\ StronglySorted (key_lt td_name) ds /\ (previous <> ""%string -> Forall (fun d => String.ltb previous (td_name d) = true) ds).
Proof.
  induction tools as [|t tools IH]; intros index previous ds; cbn [decode_definitions].
  { intros <-%Ok_inj. split; [by exists []|]. split; [apply Forall_nil; done|]. split; [constructor|]. intros _. by apply Forall_nil. }
  rewrite bind_Ok. intros (d & Hd & H). destruct (negb _ && _) eqn:Ep; [done|]. apply bind_Ok in H as (ds' & Hds & H). apply Ok_inj in H as <-.
  unfold wrap_result in Hd. destruct (decodeToolDefinition t limits) as [d'|] eqn:E; [|done]. apply Ok_inj in Hd as ->. destruct t as [t|]; [|done].
  assert (td_name d <> ""%string) as Hne. { intros Hn. cbn [decodeToolDefinition] in E. apply check_Ok in E as [Ht E]. rewrite !check_Ok, bind_Ok in E. destruct E as (_ & _ & e & _ & E). apply bind_Ok in E as (s & _ & E). apply check_Ok in E as [_ E]. apply bind_Ok in E as (cs & _ & E). apply refuse_Ok, NewDefinition_Ok in E as [_ ->]. cbn in Hn. rewrite Hn in Ht. by vm_compute in Ht. }
  apply decode_tool_encode in E as (_ & Hv & He). destruct (IH _ _ _ Hds) as ((encoded & H1 & H2) & H3 & H4 & H5). specialize (H5 Hne). split; [exists (known_tool t :: encoded)|].
  - cbn [encode_definitions]. rewrite He, H1. split; [done|]. cbn. by rewrite H2.
  - split; [by apply Forall_cons|]. split; [by constructor|]. intros Hp. apply String.eqb_neq in Hp. rewrite Hp in Ep. cbn [negb andb] in Ep.
    assert (String.ltb previous (td_name d) = true) as Hlt. { apply not_false_iff_true. intros Hf. apply ltb_false in Hf. unfold string_le in Hf. by rewrite Hf in Ep. }
    apply Forall_cons. split; [done|]. eapply Forall_impl; [exact H5|]. intros x Hx. by eapply ltb_trans.
Qed.

Lemma DecodeManifest_Ok Size m limits c : DecodeManifest Size (Some m) limits = Ok c ->
  ct_name c = mf_name m /\ ct_version c = mf_version m /\ token_ok maximumTokenBytes (mf_name m) /\ token_ok maximumTokenBytes (mf_version m)
  /\ mf_tools m <> [] /\ exists l, limits = Some l /\ lenZ (mf_tools m) <= pl_maxTools l /\ decode_definitions 0 "" (mf_tools m) l = Ok (ct_definitions c).
Proof.
  unfold DecodeManifest. rewrite check_Ok. intros [Hl H]. destruct limits as [l|]; [|done]. rewrite !check_Ok, !token_None in H. destruct H as (H1 & H2 & H). destruct (_ || _) eqn:E; [done|]. apply bind_Ok in H as (ds & Hds & H).
  apply check_Ok in H as [_ H]. apply Ok_inj in H as <-. cbn [ct_name ct_version ct_definitions]. split_and!; [done..| |]. { intros En. rewrite En in E. done. } exists l. split; [done|]. split; [|done]. bprop. lia.
Qed.

Lemma insert_tool_perm t l : insert_tool t l ≡ₚ t :: l.
Proof. induction l as [|x l IH]; cbn; [done|]. destruct (String.leb _ _); [done|]. rewrite IH. apply perm_swap. Qed.
Lemma sort_tools_perm l : sort_tools l ≡ₚ l.
Proof. induction l as [|t l IH]; cbn; [done|]. by rewrite insert_tool_perm, IH. Qed.

Lemma known_map l : Forall (fun t => known_tool t = t) l -> map known_tool l = l.
Proof. induction 1 as [|t l H _ IH]; [done|]. cbn. by rewrite H, IH. Qed.

(** C32: C: A catalog is its manifest.  What a manifest decodes to is valid for the
    kernel, in strict order of names, and encodes to the manifest again, its
    unknown fields aside; and the catalog of definitions of the host holds
    exactly those definitions, whatever their order. *)
Theorem plugin_catalog_roundtrip Size limits :
  (forall m c, DecodeManifest Size (Some m) limits = Ok c ->
    Catalog_Manifest c = Ok (known_manifest m) /\ Forall (fun d => Definition_Validate d = None) (ct_definitions c) /\ StronglySorted (key_lt td_name) (ct_definitions c))
  /\ (forall name version definitions c, NewCatalog Size name version definitions limits = Ok c ->
    ct_name c = name /\ ct_version c = version /\ ct_definitions c ≡ₚ definitions /\ NoDup (map td_name definitions)).
Proof.
  split.
  - intros m c H. apply DecodeManifest_Ok in H as (Hn & Hv & Tn & Tv & Hne & l & _ & _ & H). destruct (decode_definitions_Ok _ _ _ _ _ H) as ((encoded & H1 & H2) & H3 & H4 & _). split; [|done].
    unfold Catalog_Manifest. rewrite Hn, Hv. rewrite (proj2 (token_None _ _ _) Tn), (proj2 (token_None _ _ _) Tv). cbn [check]. destruct (Z.eqb_spec (lenZ (ct_definitions c)) 0) as [E|_].
    { apply lenZ_0 in E. rewrite E in H1. apply Ok_inj in H1 as <-. destruct (mf_tools m); [done|discriminate H2]. }
    rewrite H1. cbn [mbind result_bind]. unfold known_manifest. by rewrite H2.
  - intros name version definitions c H. unfold NewCatalog in H. apply bind_Ok in H as (tools & Ht & H). apply DecodeManifest_Ok in H as (Hn & Hv & _ & _ & _ & l & _ & _ & H). cbn [mf_name mf_version mf_tools] in *.
    destruct (decode_definitions_Ok _ _ _ _ _ H) as ((encoded & H1 & H2) & _ & H4 & _). apply encode_definitions_inverse in Ht as [-> Hk]. apply encode_definitions_inverse in H1 as [H1 _].
    assert (encoded = sort_tools tools) as ->.
    { rewrite map_map in H2. cbn in H2. rewrite <- (map_map known_tool Some) in H2. apply (inj (map Some)) in H2. rewrite H2. apply known_map. by rewrite sort_tools_perm. }
    assert (ct_definitions c ≡ₚ map definition_of tools) as Hp by (rewrite H1; apply Permutation_map, sort_tools_perm). split; [done|]. split; [done|]. split; [exact Hp|].
    rewrite <- Hp. by apply sorted_keys_nodup.
Qed.

(** The catalog of the tool of the sample manifest. *)
Lemma plugin_catalog_roundtrip_witness : exists c,
  DecodeManifest sample_size (Some sample_manifest) (Some sample_limits) = Ok c /\ Catalog_Manifest c = Ok (known_manifest sample_manifest)
  /\ NewCatalog sample_size "files" "1.0.0" [definition_of sample_tool] (Some sample_limits) = Ok c /\ ct_definitions c ≡ₚ [definition_of sample_tool].
Proof.
  exists (mkCatalog "files" "1.0.0" [definition_of sample_tool]).
  assert (DecodeManifest sample_size (Some sample_manifest) (Some sample_limits) = Ok (mkCatalog "files" "1.0.0" [definition_of sample_tool])) as H1 by (vm_compute; reflexivity).
  assert (NewCatalog sample_size "files" "1.0.0" [definition_of sample_tool] (Some sample_limits) = Ok (mkCatalog "files" "1.0.0" [definition_of sample_tool])) as H2 by (vm_compute; reflexivity).
  destruct (plugin_catalog_roundtrip sample_size (Some sample_limits)) as [Hd Hn]. split; [exact H1|]. split; [exact (proj1 (Hd _ _ H1))|]. split; [exact H2|]. exact (proj1 (proj2 (proj2 (Hn _ _ _ _ H2)))).
Defined.
