(* ===== verification/PluginBootstrap.v ===== *)
(** The launch record of a plugin (src/plugin/v1/bootstrap.go): the address and
    the secret a plugin reads from its standard input, and the readiness
    record. *)
From Stdlib Require Import ZArith Lia.
From stdpp Require Import base list strings.
From S2P Require Import Prelude GoText GoOrder GoJson Tool GoCrypto GoJsonTree GoBase64 CommonContract PluginWire PluginContract.
Open Scope Z_scope.

Definition BootstrapMaximumBytes : Z := 4096.

Definition validateBootstrapAddress (address : string) : option error :=
  let refused := Some (Errorf "plugin bootstrap address is invalid") in
  if negb (trimmed_nonempty address) then refused
  else if (slen address >? BootstrapMaximumBytes) || negb (utf8_valid address) || existsb (Z.eqb 0) (byte_codes address) then refused
  else if has_control address then refused else None.

(** The JSON of a [bootstrapRecord]. *)
Definition bootstrap_json (address secret : string) : json := JObject [("address"%string, JString address); ("secret"%string, JString secret)].

Definition EncodeBootstrap (address secret : string) : result error string :=
  match validateBootstrapAddress address with
  | Some err => Err err
  | None =>
      if negb (slen secret =? HandshakeSecretBytes) then Err (Errorf "plugin bootstrap secret has an invalid size")
      else
        let encoded := print (bootstrap_json address (base64_encode secret)) ++ [10] in
        if lenZ encoded >? BootstrapMaximumBytes then Err (Errorf "plugin bootstrap exceeds its byte limit") else Ok (of_codes encoded)
  end.

(** The members of the record: each of the two fields once, no other. *)
Fixpoint bootstrap_members (ms : list (string * json)) (address secret : option string) : option (string * string) :=
  match ms with
  | [] => match address, secret with Some a, Some s => Some (a, s) | _, _ => None end
  | (name, v) :: rest =>
      if String.eqb name "address" then
        match address with
        | Some _ => None
        | None => match decode_string v "" with Some a => bootstrap_members rest (Some a) secret | None => None end
        end
      else if String.eqb name "secret" then
        match secret with
        | Some _ => None
        | None => match decode_string v "" with Some s => bootstrap_members rest address (Some s) | None => None end
        end
      else None
  end.
Definition UnmarshalBootstrap (v : json) : option (string * string) :=
  match v with JObject ms => bootstrap_members ms None None | _ => None end.

(** [input] is what the reader gives before its end or an error. *)
Definition DecodeBootstrap (input : option (string * bool)) : result error (string * string) :=
  match input with
  | None => Err (Errorf "plugin bootstrap input is required")
  | Some (text, failed) =>
      let encoded := take (Z.to_nat (BootstrapMaximumBytes + 1)) (byte_codes text) in
      if failed && (lenZ (byte_codes text) <=? BootstrapMaximumBytes) then Err (Errorf "read plugin bootstrap")
      else if lenZ encoded >? BootstrapMaximumBytes then Err (Errorf "plugin bootstrap exceeds its byte limit")
      else if negb (utf8_valid (of_codes encoded)) then Err (Errorf "plugin bootstrap is not valid UTF-8")
      else if (lenZ encoded =? 0) || negb (List.last encoded 0 =? 10) || negb (lenZ (List.filter (Z.eqb 10) encoded) =? 1) then Err (Errorf "plugin bootstrap must contain exactly one line")
      else match parse_value (length encoded) (Z.to_nat maxNestingDepth) (removelast encoded) with
      | None => Err (Errorf "decode plugin bootstrap")
      | Some (v, rest) =>
          match UnmarshalBootstrap v, skip_space rest with
          | None, _ => Err (Errorf "decode plugin bootstrap")
          | Some _, _ :: _ => Err (Errorf "plugin bootstrap contains trailing data")
          | Some (address, secret), [] =>
              match validateBootstrapAddress address with
              | Some err => Err err
              | None =>
                  match base64_decode secret with
                  | Some s => if slen s =? HandshakeSecretBytes then Ok (address, s) else Err (Errorf "plugin bootstrap secret is invalid")
                  | None => Err (Errorf "plugin bootstrap secret is invalid")
                  end
              end
          end
      end
  end.

(** [WriteReadiness]: [written] bytes reached the output, [flushed] is the
    result of its flush where it has one. *)
Definition ReadinessRecord : string := of_codes [123; 34; 114; 101; 97; 100; 121; 34; 58; 116; 114; 117; 101; 125; 10].
Definition WriteReadiness (output : option (Z * bool * option bool)) : option error :=
  match output with
  | None => Some (Errorf "plugin readiness output is required")
  | Some (written, failed, flushed) =>
      if failed || negb (written =? slen ReadinessRecord) then Some (Errorf "write plugin readiness")
      else match flushed with Some false => Some (Errorf "flush plugin readiness") | _ => None end
  end.

(** ** The round trip *)

Lemma clean_utf8 low s : clean low (byte_codes s) -> utf8_valid s = true.
Proof. intros H. apply (clean_runes low); [|exact H]. pose proof (byte_codes_length s). unfold slen in *. lia. Qed.

Lemma base64_clean s : utf8_valid (base64_encode s) = true /\ slen (base64_encode s) <= (4 * slen s + 2) / 3.
Proof.
  split.
  - apply (clean_utf8 32). rewrite base64_codes. apply (clean_ascii 32), Forall_map.
    eapply Forall_impl; [apply base64_sextets_range, byte_codes_bytes|]. intros v Hv. cbn. pose proof (base64_digit_plain v Hv). lia.
  - rewrite <- !byte_codes_length, base64_codes, length_map. induction (byte_codes s) as [|a|a b|a b c l IH] using triple_ind; [by vm_compute|by vm_compute|by vm_compute|].
    cbn [base64_sextets length]. replace (4 * Z.of_nat (S (S (S (length l)))) + 2) with (4 * Z.of_nat (length l) + 2 + 4 * 3) by lia. rewrite Z.div_add by lia. lia.
Qed.

Lemma bootstrap_writable address secret : writable (Z.to_nat maxNestingDepth) (bootstrap_json address secret).
Proof.
  destruct nesting_deep as [n ->]. apply object_writable. apply Forall_cons. split; [split; [reflexivity|apply string_writable]|]. apply Forall_cons. split; [split; [reflexivity|apply string_writable]|]. by apply Forall_nil.
Qed.

Lemma bootstrap_clean address secret : clean 32 (print (bootstrap_json address secret)).
Proof.
  unfold bootstrap_json. cbn [print_with map join_comma fst snd]. apply clean_cons; [lia|]. apply (clean_app 32 32); [lia| |by apply clean_cons; [lia|constructor]].
  repeat first [apply (clean_app 32 32); [lia| |] | apply quote_clean | apply clean_cons; [lia|]].
Qed.

Lemma bootstrap_short address secret : slen secret = HandshakeSecretBytes -> lenZ (print (bootstrap_json address (base64_encode secret))) <= 350 + 6 * slen address.
Proof.
  intros Hs. unfold bootstrap_json. etransitivity; [apply object_length|]. unfold sumZ. cbn [map foldr fst snd]. pose proof (string_length (html := true) address). pose proof (string_length (html := true) (base64_encode secret)).
  pose proof (proj2 (base64_clean secret)) as Hb. rewrite Hs in Hb. change ((4 * HandshakeSecretBytes + 2) / 3) with 43 in Hb.
  pose proof (quote_short (html := true) "address"). pose proof (quote_short (html := true) "secret"). change (slen "address") with 7 in *. change (slen "secret") with 6 in *. lia.
Qed.

#[local] Opaque print_with parse_value base64_encode base64_decode utf8_valid.

Lemma bootstrap_decodes address secret : validateBootstrapAddress address = None -> slen secret = HandshakeSecretBytes ->
  lenZ (print (bootstrap_json address (base64_encode secret)) ++ [10]) <= BootstrapMaximumBytes ->
  DecodeBootstrap (Some (of_codes (print (bootstrap_json address (base64_encode secret)) ++ [10]), false)) = Ok (address, secret).
Proof.
  intros Ha Hs Hl. pose proof (bootstrap_clean address (base64_encode secret)) as Hc. set (l := print (bootstrap_json address (base64_encode secret))) in *.
  assert (byte_list (l ++ [10])) as Hb. { apply Forall_app. split; [eapply print_bytes, bootstrap_writable|]. apply Forall_cons. split; [lia|by apply Forall_nil]. }
  cbn [DecodeBootstrap andb]. rewrite byte_codes_of_codes by done. rewrite take_ge by (unfold lenZ, BootstrapMaximumBytes in *; lia). rewrite Z.gtb_ltb, (proj2 (Z.ltb_ge _ _)) by done.
  assert (utf8_valid (of_codes (l ++ [10])) = true) as ->.
  { apply (clean_utf8 10). rewrite byte_codes_of_codes by done. apply (clean_app 10 32); [lia|done|]. apply clean_cons; [lia|constructor]. }
  cbn [negb]. rewrite (proj2 (Z.eqb_neq (lenZ (l ++ [10])) 0)) by (rewrite lenZ_app; unfold lenZ; cbn; lia). rewrite List.last_last, List.filter_app, (clean_one_line _ Hc), removelast_last. cbn [orb negb].
  pose proof (parse_print (html := true) (bootstrap_json address (base64_encode secret)) (length (l ++ [10])) (Z.to_nat maxNestingDepth) []) as Hp. fold l in Hp. rewrite app_nil_r in Hp.
  rewrite Hp; [|rewrite length_app; lia|apply bootstrap_writable|done]. rewrite read_back_utf8.
  2: { cbn [json_utf8 bootstrap_json forallb fst snd]. rewrite (proj1 (base64_clean secret)). unfold validateBootstrapAddress in Ha. destruct (negb (trimmed_nonempty address)); [done|]. destruct (utf8_valid address) eqn:E; [reflexivity|].
       rewrite orb_true_r in Ha. done. }
  cbn [UnmarshalBootstrap bootstrap_json bootstrap_members String.eqb Ascii.eqb Bool.eqb decode_string skip_space]. rewrite Ha, base64_decode_encode, Hs, Z.eqb_refl. reflexivity.
Qed.

(** C33: C: The launch record.  A record that is written is read back as the same
    address and secret; every valid address of at most 600 bytes is written,
    whatever has to be escaped in it; and nothing but a valid address and a
    secret of the right size is ever read. *)
Theorem plugin_bootstrap_roundtrip :
  (forall address secret text, EncodeBootstrap address secret = Ok text -> DecodeBootstrap (Some (text, false)) = Ok (address, secret))
  /\ (forall address secret, validateBootstrapAddress address = None -> slen secret = HandshakeSecretBytes -> slen address <= 600 -> exists text, EncodeBootstrap address secret = Ok text)
  /\ (forall input address secret, DecodeBootstrap input = Ok (address, secret) -> validateBootstrapAddress address = None /\ slen secret = HandshakeSecretBytes).
Proof.
  split; [|split].
  - intros address secret text. unfold EncodeBootstrap. destruct (validateBootstrapAddress address) eqn:Ha; [done|]. destruct (Z.eqb_spec (slen secret) HandshakeSecretBytes) as [Hs|]; cbn [negb]; [|done].
    rewrite Z.gtb_ltb. destruct (Z.ltb_spec BootstrapMaximumBytes (lenZ (print (bootstrap_json address (base64_encode secret)) ++ [10]))) as [|Hl]; [done|]. intros <-%Ok_inj. by apply bootstrap_decodes.
  - intros address secret Ha Hs Hl. unfold EncodeBootstrap. rewrite Ha, Hs, Z.eqb_refl. cbn [negb]. pose proof (bootstrap_short address secret Hs). rewrite Z.gtb_ltb, (proj2 (Z.ltb_ge _ _)); [by eexists|].
    rewrite lenZ_app. change (lenZ [10]) with 1. unfold BootstrapMaximumBytes. lia.
  - intros [[text failed]|] address secret; [|done]. unfold DecodeBootstrap. do 4 (match goal with |- context [if ?b then _ else _] => destruct b end; [done|]).
    destruct (parse_value _ _ _) as [[v rest]|]; [|done]. destruct (UnmarshalBootstrap v) as [[a s]|]; [|done]. destruct (skip_space rest); [|done]. destruct (validateBootstrapAddress a) eqn:Ha; [done|].
    destruct (base64_decode s) as [secret'|]; [|done]. destruct (Z.eqb_spec (slen secret') HandshakeSecretBytes); [|done]. intros [= <- <-]. done.
Qed.
